(* ===== verification/_CoqProject ===== *)
-Q . S2P
Prelude.v
RbTree.v
RbRep.v
RbOrder.v
RbSplice.v
RbInsert.v
RbRemove.v
RbQuery.v
RbRefine.v
RbTheorems.v
SplayTree.v
SplayRep.v
SplayOps.v
SplayTheorems.v
CLayout.v
UvTypes.v
UvErrno.v
UvEnums.v
UvTheorems.v
Memory.v
UvUtil.v
UvUtilTheorems.v
UvApi.v
GcApi.v
Ffi.v
FfiTheorems.v
Lexer.v
LexerTheorems.v
Ast.v
ParserTypes.v
ParserExp.v
ParserTheorems.v
ParserTerm.v
Grammar.v
ParserTokens.v
ParserFail.v
ParserComplete.v
GrammarTheorems.v
Escape.v
EscapeTheorems.v
EscapeSafety.v
GcInline.v
GcInlineRep.v
GcInlineTheorems.v
GcInlineInst.v
LinkedList.v
Coro.v
CoroInv.v
CoroLogic.v
CoroTheorems.v
Ir.v
IrInst.v
Codegen.v
CodegenSem.v
CodegenDemo.v
CodegenFrame.v
CodegenExp.v
CodegenExt.v
CodegenPaths.v
CodegenNodes.v
CodegenGood.v
CodegenEnv.v
CodegenRun.v
CodegenSim.v
CodegenIf.v
CodegenFor.v
CodegenFunc.v
CodegenTheorems.v
CodegenExact.v
CodegenFaults.v
Arrays.v
Slice.v
SliceTheorems.v
Tcp.v
TcpTheorems.v
Loader.v
LoaderInv.v
LoaderTheorems.v
TypeDefs.v
TypeDefsTheorems.v
