(* ===== verification/Prelude.v ===== *)
(** * Verification of the calc repository

    calc is a small compiled language.  The repository holds
    - the compiler, in Go: the lexer (src/compiler/lexer), the parser
      (src/compiler/parser) and the code generator (src/compiler/ast), which
      emits LLVM code;
    - the runtime library, in calc itself (src/runtime): coroutines, a
      scheduler, channels, mutexes, bindings to libuv;
    - the C part (src/libuv_helper): the glue code uvutil.c that every program
      is linked with, and the headers it and the bindings are written against:
      libuv's (uv.h, uv/) with the intrusive search trees of uv/tree.h, and
      those of the Boehm collector (gc/).
    The compiled program, the glue code, libuv and the collector share one
    address space.  Generated code allocates from the collector and calls the
    functions of the C headers through declarations without a body in the
    runtime; libuv calls back into generated code, and allocates from the
    collector because the runtime installs [replace_allocator].

    ** Files

    - Prelude: the state monad in which C code is translated, its weakest
      precondition rules, association lists.
    - RbTree ... RbTheorems: the red-black trees of uv/tree.h (macros RB_...).
      RbTree is the code, over a store of nodes; RbRep ties stores to abstract
      trees and focused trees; RbOrder is the contract of the comparison
      function and the abstract operations on sorted sequences; RbSplice,
      RbInsert, RbRemove and RbQuery verify the operations; RbRefine is the
      specification of the whole interface as an abstract machine and the
      simulation; RbTheorems has the statements with concrete instances.
    - SplayTree, SplayRep, SplayOps, SplayTheorems: the same for the top-down
      splay trees of uv/tree.h (macros SPLAY_...), with the local variable whose
      address the code takes as an object of the store.
    - CLayout: C types, their sizes, alignments and member offsets (LP64), and
      function prototypes.
    - UvTypes, UvErrno, UvEnums, UvTheorems: the structures, unions, error
      codes, enumerations and flags of uv.h, uv/unix.h, uv/linux.h,
      uv/threadpool.h and uv/errno.h, and the properties of their layout and
      numbering that users of base pointers, error codes and flag words rely
      on.  Sizes of system types and errno values are parameters
      ([SysTypes], [posix_errno]) with 64-bit Linux as instance.
    - Memory, UvUtil, UvUtilTheorems: a byte memory with collector blocks, and
      uvutil.c over it.  The collector and libuv are the classes [Collector]
      and [LibUv], which state what gc.h and libuv's documentation say of the
      functions used; a bump allocator is the instance.
    - UvApi, GcApi: every function prototype, callback type and
      allocation macro of uv.h, gc.h, gc_pthread_redirects.h and uvutil.h.
    - Ffi, FfiTheorems: the declarations of C functions in src/runtime, what
      it means for one to agree with its prototype on x86-64 (the same values
      are read on both sides whatever the unspecified parts of registers
      hold), and which do.
    - Lexer, LexerTheorems: src/compiler/lexer/lexer.go.
    - Ast: the nodes of src/compiler/ast that the parser builds.
    - ParserTypes, ParserExp: src/compiler/parser.  ParserTypes has number
      literals, the catching of panics, types, parameters and the headers of a
      file; ParserExp the expressions and statements, which are tied together
      by [parser_knot].
    - ParserTheorems: the value and width of integer literals, and the
      positions the parser may leave the lexer at.
    - ParserTerm: termination.
    - Grammar: the grammar of expressions of README.md as relations between
      tokens and trees.  ParserTokens presents a lexer as a list of tokens,
      ParserFail shows where the parser's alternatives fail, ParserComplete
      that each nonterminal is read by its function; GrammarTheorems has the
      statements.
    - Escape, EscapeTheorems, EscapeSafety: the escape analysis of
      src/compiler/ast/ast.go on the parser's trees, its result as a closure,
      and its safety for the runs of straight-line blocks.
    - GcInline, GcInlineRep, GcInlineTheorems, GcInlineInst: the allocation
      macros of gc/gc_inline.h and gc/gc_tiny_fl.h over the byte memory.
      GcInline is the code, with the collector it calls as a class with laws;
      GcInlineRep the free lists in memory and their invariant;
      GcInlineTheorems the functions' contracts and the refinement of an
      abstract allocator; GcInlineInst a collector that satisfies the laws.
    - LinkedList: src/runtime/linkedlist/linkedlist.calc, code and refinement
      of sequences.
    - Coro, CoroInv, CoroLogic, CoroTheorems: the coroutines of
      src/runtime/coro and the code src/compiler/ast emits for async
      functions.  Coro has the programs and the interleaving of the main
      function and the workers; CoroInv the invariant that ties the threads'
      progress to the shared memory; CoroLogic a rule per operation;
      CoroTheorems the invariant of whole executions and what follows.
    - Ir, IrInst, Codegen, CodegenSem, CodegenDemo, CodegenFaults, and
      CodegenFrame to CodegenExact: the code generator of src/compiler/ast for
      functions of integers and truth values.  Ir has the instructions, how
      they run, and the library that builds them as the class [Llir], IrInst an
      instance; Codegen is the generator; CodegenSem the meaning of the
      statements and the shapes of statements whose code has it.  CodegenFrame,
      CodegenExp and CodegenExt say what each operation does to the function
      that is built, CodegenPaths and CodegenNodes split the generator's runs
      at their blocks, CodegenGood and CodegenEnv tie the scopes to the
      variables and the memory, CodegenRun, CodegenSim, CodegenIf and
      CodegenFor simulate expressions and statements, CodegenFunc and
      CodegenTheorems whole functions; CodegenExact compares the code's
      arithmetic with the integers'; CodegenFaults has functions whose code
      does something else than they mean, CodegenDemo the programs the
      parser and the generator are tried on, among them
      src/runtime/strings/utf8.calc.
    - Arrays: the memory of the runtime's containers, blocks of elements that
      pointers point into, [memcpy] and [GC_malloc]; Slice, SliceTheorems:
      src/runtime/slice/slice.calc over it; Tcp, TcpTheorems: the buffers and
      the reading of connections, src/runtime/libuv/buf.calc and tcp.calc.
    - Loader, LoaderInv, LoaderTheorems: ParseDir and ParseModule of
      src/compiler/parser/parser.go, the goroutines that load modules, with the
      invariant of their interleavings.
    - TypeDefs, TypeDefsTheorems: the definitions of types of a module,
      NewTypeDef and the calc methods of src/compiler/ast/types.go and the loop
      of CalcGlobals in ast.go.

    ** State and operations

    A [struct type *] of tree.h is a key of the store ([ptr], NULL is 0), the
    store a [gmap] of nodes, RB_HEAD the root next to it.  An operation is a
    computation in [ST]: it returns [None] exactly when it reads or writes
    through a pointer to no object, or runs out of fuel.  The glue code runs
    in the same monad over [mem], a [gmap] from addresses to bytes.  The lexer
    is the list of code points with a position, its functions return, panic,
    stop the compiler, or run out of fuel.  The parser runs in the same monad:
    a Go function with an error result returns a sum, [panic] is the outcome
    [Panic], and [recover] catches it from the state the function was called
    in, as every deferred function of the parser goes back to the position it
    saved.

    ** What the theorems show

    Total correctness throughout: a statement [wp m s Q] says the operation
    stops, with no undefined access, in a state that satisfies [Q].
    - RB_INSERT, RB_REMOVE, RB_FIND, RB_NFIND, RB_NEXT, RB_PREV, RB_FOREACH on
      any red-black tree in any store do what the operation on the sorted
      sequence of elements does, keep the balance invariant, and change no
      other object; every sequence of calls is simulated by the abstract
      machine; search takes at most 2 log2 (n + 1) steps.
    - The same for the macros SPLAY_..., without the height bound.
    - uvutil.c: constructors return cleared objects of the right size and
      collector kind, accessors touch only their member and read back what
      was stored; GC_calloc is correct up to the overflow of its product.
    - libuv's structures: members aligned, disjoint and in bounds; each handle
      and request starts with the members of its base types at the same
      offsets; error codes are negative and distinct; flags are separate bits.
    - calls from calc: which declarations agree with the C prototypes.
    - The lexer terminates, reads only tokens of the language, and reads back
      any printed sequence of tokens.
    - The parser reads every sentence of the grammar to its tree, which is the
      only one; types are always parsed to an end, and expressions and
      statements unless SkipLn looks for a line end that does not come; an
      alternative that fails leaves the lexer where it was; integer literals
      get their value and the least width.
    - The escape analysis computes the closure of the escape points under the
      assignments whatever the order of Go's maps, and in straight-line blocks
      no pointer into the stack frame leaves the block; three kinds of blocks
      where one does are shown too.
    - The inline allocator hands out aligned, cleared objects that are apart
      from each other whatever the state of its free lists, up to the overflow
      of the size computation.
    - The linked list answers as a sequence does.
    - Coroutines under every interleaving: no access goes wrong, no task is
      lost or queued twice, and when nothing can move every task is done; a
      single worker runs each statement once, and two workers can run one
      twice.
    - The code generated for a function of the handled shapes ends and returns
      what its statements mean, whenever they mean something; its arithmetic is
      the integers' as long as numbers stay in range.  Outside of the shapes an
      [if] can run for ever and loops can return something else.
    - Slices that share no block are sequences whatever they grow to; a part of
      a slice shares its elements; a slice of 2^30 elements cannot grow.
    - Readers of a connection get the bytes that arrive, in order and whole, as
      long as data arrives only while a task waits; four ways to lose bytes.
    - Modules are loaded once and behind their imports under every
      interleaving, every run ends, and without a cycle of imports it ends with
      all modules loaded; with a cycle the loader can block for ever.
    - The definitions of a module are resolved when they have an order without
      forward references, whatever order they are written in; otherwise the
      compiler runs for ever.

    ** Fuel

    Loops over trees take as fuel the number of objects of the store and the
    theorems show it is enough (each iteration moves along a path of a tree
    whose nodes are distinct objects).  Loops of the lexer take the length of
    the input plus two: every iteration reads a rune, and one read happens
    past the end.  [findEsc] takes the size of its map plus two: a call that
    follows a name removes its entry.  The parser takes the same number for each loop and for the
    depth of its recursion, read from the input at hand by [lex_fuel]: between
    two recursive calls a token is read.  ParserTerm shows that no run out of
    fuel comes from the bound.  Runs of generated code and of statements take
    any fuel: the correctness theorem gives the steps the code needs.  [Push] of
    a slice calls itself once, behind the growth: two levels are enough, and
    more would not help a push that fails.  The rounds over the definitions of
    a module are at most as many as the definitions and one more.

    ** Not modelled

    - The code generator for floats, pointers, arrays, structures, strings,
      calls, closures, generics, interfaces, globals and async functions.  In
      the parser function and the loop of program over declarations, which
      fill the generator's scopes as they parse; of the definitions of types
      those with generic parameters or arguments, slices, and other names of a
      type (LLVM's own definition renames the shared type); in the loading of
      modules the search for directories, reading errors and cloning.
    - The runtime modules beyond their C declarations, the linked list, slices,
      the scheduler and the reading of connections: strings, timers, and what
      only passes arguments to libuv.  In the
      scheduler, the tasks of coro.Run, results of tasks, control flow inside
      async functions, and the messages printed when a pthread call fails.
    - The bodies of libuv and of the collector, which are not in the
      repository; the remaining headers of the collector (cord.h, gc_cpp.h,
      gc_mark.h and so on), which no code of the repository uses; the Windows
      header uv/win.h.
    - Currpos and PrintCurrent of the lexer, the file names and texts in error
      messages, and the rounding of float literals. *)
From Stdlib Require Export ZArith Lia.
From stdpp Require Export base tactics option list gmap numbers strings.

(** ** The state monad with failure

    C code that reads and writes memory is translated into [ST S A]: a
    computation over the state [S] that either returns a value and a new
    state, or fails ([None]).  Failure is an access the C standard leaves
    undefined (a read or a write through a pointer to no object), or a loop
    whose fuel ran out; every total-correctness theorem below excludes both. *)
Definition ST (S A : Type) : Type := S → option (A * S).

#[global] Instance ST_ret {S} : MRet (ST S) := λ A a s, Some (a, s).
#[global] Instance ST_bind {S} : MBind (ST S) := λ A B k m s,
  match m s with
  | Some (a, s') => k a s'
  | None => None
  end.

Definition st_fail {S A} : ST S A := λ _, None.
Definition st_get {S} : ST S S := λ s, Some (s, s).
Definition st_gets {S A} (f : S → option A) : ST S A := λ s,
  match f s with Some a => Some (a, s) | None => None end.
Definition st_mod {S} (f : S → option S) : ST S unit := λ s,
  match f s with Some s' => Some (tt, s') | None => None end.
(** [c_when b m] is [if (b) m] with no else branch. *)
Definition c_when {S} (b : bool) (m : ST S unit) : ST S unit :=
  if b then m else mret tt.

(** ** Total weakest preconditions *)

(** [wp m s Q]: run from [s], [m] returns a value and a state that satisfy
    [Q]; in particular it neither fails nor runs out of fuel. *)
Definition wp {S A} (m : ST S A) (s : S) (Q : A → S → Prop) : Prop :=
  ∃ a s', m s = Some (a, s') ∧ Q a s'.

Section wp_rules.
Context {S : Type}.
Implicit Types s : S.

Lemma wp_ret {A} (a : A) s (Q : A → S → Prop) : Q a s → wp (mret a) s Q.
Proof. intros H. by exists a, s. Qed.

Lemma wp_bind {A B} (m : ST S A) (k : A → ST S B) s Q :
  wp m s (λ a s', wp (k a) s' Q) → wp (m ≫= k) s Q.
Proof.
  intros (a & s' & Hm & b & s'' & Hk & HQ). exists b, s''.
  split; [|done]. unfold mbind, ST_bind. by rewrite Hm.
Qed.

Lemma wp_mono {A} (m : ST S A) s (Q Q' : A → S → Prop) :
  wp m s Q → (∀ a s', Q a s' → Q' a s') → wp m s Q'.
Proof. intros (a & s' & Hm & HQ) HQQ'. exists a, s'. eauto. Qed.

Lemma wp_gets {A} (f : S → option A) s (Q : A → S → Prop) a :
  f s = Some a → Q a s → wp (st_gets f) s Q.
Proof. intros Hf HQ. exists a, s. unfold st_gets. by rewrite Hf. Qed.

Lemma wp_mod (f : S → option S) s (Q : unit → S → Prop) s' :
  f s = Some s' → Q tt s' → wp (st_mod f) s Q.
Proof. intros Hf HQ. exists tt, s'. unfold st_mod. by rewrite Hf. Qed.

Lemma wp_get s (Q : S → S → Prop) : Q s s → wp st_get s Q.
Proof. intros HQ. by exists s, s. Qed.

Lemma wp_when (b : bool) (m : ST S unit) s Q :
  (if b then wp m s Q else Q tt s) → wp (c_when b m) s Q.
Proof. destruct b; [done|apply wp_ret]. Qed.

Lemma wp_run {A} (m : ST S A) s Q a s' :
  wp m s Q → m s = Some (a, s') → Q a s'.
Proof. intros (b & s'' & Hm & HQ) Hm'. by simplify_eq. Qed.
End wp_rules.

(** ** Association lists keyed by names *)

Fixpoint assoc {A} (n : string) (l : list (string * A)) : option A :=
  match l with
  | [] => None
  | (m, a) :: l => if decide (n = m) then Some a else assoc n l
  end.

Lemma assoc_elem {A} n (l : list (string * A)) a : assoc n l = Some a → (n, a) ∈ l.
Proof.
  induction l as [|[m b] l IH]; simpl; [done|]. destruct (decide (n = m)) as [->|_].
  - intros [= ->]. by left.
  - intros Ha. right. by apply IH.
Qed.
Lemma assoc_is_Some {A} n (l : list (string * A)) : is_Some (assoc n l) ↔ n ∈ l.*1.
Proof.
  induction l as [|[m b] l IH]; simpl.
  - split; [by intros [? [=]]|by intros []%not_elem_of_nil].
  - rewrite elem_of_cons. destruct (decide (n = m)) as [->|Hn]; [split; [by left|by eexists]|].
    rewrite IH. naive_solver.
Qed.
(** Distinct values make the lookup injective. *)
Lemma assoc_inj {A} n m (l : list (string * A)) a :
  NoDup l.*2 → assoc n l = Some a → assoc m l = Some a → n = m.
Proof.
  induction l as [|[k b] l IH]; simpl; [done|]. intros [Hb Hl]%NoDup_cons.
  destruct (decide (n = k)) as [->|_], (decide (m = k)) as [->|_]; try done.
  - intros [= ->] Ha%assoc_elem. destruct Hb. by apply (list_elem_of_fmap_2' snd l (m, a)).
  - intros Ha%assoc_elem [= ->]. destruct Hb. by apply (list_elem_of_fmap_2' snd l (n, a)).
  - by apply IH.
Qed.

(** [bdone] closes a decidable closed goal by evaluation. *)
Ltac bdone := apply (bool_decide_unpack _); vm_compute; exact I.
