(* ===== verification/RbTree.v ===== *)
(** * Red-black trees of [uv/tree.h]: the code

    The [RB_*] macros of src/libuv_helper/uv/tree.h, translated statement by
    statement over an explicit store.  A [struct type *] is a [ptr]
    ([NULL] is 0), the objects live in a finite map from pointers to nodes,
    and [struct name { struct type *rbh_root; }] is the root pointer next to
    them.  Every read and write through a pointer fails when the pointer
    points to no object.  [cmp] is the comparison function the macros take as
    an argument, over the payload of the nodes. *)
From S2P Require Import Prelude.

Abbreviation ptr := N.
Definition NULL : ptr := 0%N.

Definition RB_BLACK : Z := 0.
Definition RB_RED : Z := 1.

(** [RB_ENTRY(type)]: the links embedded in a node. *)
Record RB_ENTRY := mk_entry {
  rbe_left : ptr;
  rbe_right : ptr;
  rbe_parent : ptr;
  rbe_color : Z;
}.

(** [struct type]: the payload the comparison looks at, and the links. *)
Record node (K : Type) := mk_node { val : K; field : RB_ENTRY }.
Arguments mk_node {_} _ _.
Arguments val {_} _.
Arguments field {_} _.

(** [RB_HEAD(name, type)] together with the store. *)
Record rb_state (K : Type) := mk_rb { rbh_root : ptr; heap : gmap ptr (node K) }.
Arguments mk_rb {_} _ _.
Arguments rbh_root {_} _.
Arguments heap {_} _.

Section code.
Context {K : Type}.
Variable cmp : K → K → Z.

Abbreviation M := (ST (rb_state K)).

(** ** Field access *)
Definition deref (p : ptr) : M (node K) := st_gets (λ s, heap s !! p).
Definition write (p : ptr) (n : node K) : M unit :=
  st_mod (λ s, _ ← heap s !! p; Some (mk_rb (rbh_root s) (<[p:=n]> (heap s)))).

Definition RB_LEFT (elm : ptr) : M ptr := n ← deref elm; mret (rbe_left (field n)).
Definition RB_RIGHT (elm : ptr) : M ptr := n ← deref elm; mret (rbe_right (field n)).
Definition RB_PARENT (elm : ptr) : M ptr := n ← deref elm; mret (rbe_parent (field n)).
Definition RB_COLOR (elm : ptr) : M Z := n ← deref elm; mret (rbe_color (field n)).
Definition RB_ROOT : M ptr := s ← st_get; mret (rbh_root s).
Definition RB_EMPTY : M bool := r ← RB_ROOT; mret (r =? NULL)%N.

Definition set_RB_LEFT (elm v : ptr) : M unit :=
  n ← deref elm;
  let e := field n in
  write elm (mk_node (val n) (mk_entry v (rbe_right e) (rbe_parent e) (rbe_color e))).
Definition set_RB_RIGHT (elm v : ptr) : M unit :=
  n ← deref elm;
  let e := field n in
  write elm (mk_node (val n) (mk_entry (rbe_left e) v (rbe_parent e) (rbe_color e))).
Definition set_RB_PARENT (elm v : ptr) : M unit :=
  n ← deref elm;
  let e := field n in
  write elm (mk_node (val n) (mk_entry (rbe_left e) (rbe_right e) v (rbe_color e))).
Definition set_RB_COLOR (elm : ptr) (v : Z) : M unit :=
  n ← deref elm;
  let e := field n in
  write elm (mk_node (val n) (mk_entry (rbe_left e) (rbe_right e) (rbe_parent e) v)).
Definition set_RB_ROOT (v : ptr) : M unit :=
  st_mod (λ s, Some (mk_rb v (heap s))).
(** [(elm)->field = (old)->field] *)
Definition copy_field (elm old : ptr) : M unit :=
  n ← deref elm; o ← deref old; write elm (mk_node (val n) (field o)).
(** [(cmp)(a, b)] on two objects *)
Definition compare (a b : ptr) : M Z :=
  x ← deref a; y ← deref b; mret (cmp (val x) (val y)).

Definition RB_INIT : M unit := set_RB_ROOT NULL.

Definition RB_SET (elm parent : ptr) : M unit :=
  set_RB_PARENT elm parent;;
  set_RB_RIGHT elm NULL;;
  set_RB_LEFT elm NULL;;
  set_RB_COLOR elm RB_RED.

Definition RB_SET_BLACKRED (black red : ptr) : M unit :=
  set_RB_COLOR black RB_BLACK;;
  set_RB_COLOR red RB_RED.

(** The default augmentation hook, [do {} while (0)]. *)
Definition RB_AUGMENT (x : ptr) : M unit := mret tt.

(** ** Rotations: the value is what the macro leaves in its [tmp] argument *)
Definition RB_ROTATE_LEFT (elm : ptr) : M ptr :=
  tmp ← RB_RIGHT elm;
  l ← RB_LEFT tmp;
  set_RB_RIGHT elm l;;
  c_when (negb (l =? NULL)%N) (l ← RB_LEFT tmp; set_RB_PARENT l elm);;
  RB_AUGMENT elm;;
  p ← RB_PARENT elm;
  set_RB_PARENT tmp p;;
  (if negb (p =? NULL)%N then
     p ← RB_PARENT elm;
     pl ← RB_LEFT p;
     if (elm =? pl)%N
     then p ← RB_PARENT elm; set_RB_LEFT p tmp
     else p ← RB_PARENT elm; set_RB_RIGHT p tmp
   else set_RB_ROOT tmp);;
  set_RB_LEFT tmp elm;;
  set_RB_PARENT elm tmp;;
  RB_AUGMENT tmp;;
  p ← RB_PARENT tmp;
  c_when (negb (p =? NULL)%N) (p ← RB_PARENT tmp; RB_AUGMENT p);;
  mret tmp.

Definition RB_ROTATE_RIGHT (elm : ptr) : M ptr :=
  tmp ← RB_LEFT elm;
  r ← RB_RIGHT tmp;
  set_RB_LEFT elm r;;
  c_when (negb (r =? NULL)%N) (r ← RB_RIGHT tmp; set_RB_PARENT r elm);;
  RB_AUGMENT elm;;
  p ← RB_PARENT elm;
  set_RB_PARENT tmp p;;
  (if negb (p =? NULL)%N then
     p ← RB_PARENT elm;
     pl ← RB_LEFT p;
     if (elm =? pl)%N
     then p ← RB_PARENT elm; set_RB_LEFT p tmp
     else p ← RB_PARENT elm; set_RB_RIGHT p tmp
   else set_RB_ROOT tmp);;
  set_RB_RIGHT tmp elm;;
  set_RB_PARENT elm tmp;;
  RB_AUGMENT tmp;;
  p ← RB_PARENT tmp;
  c_when (negb (p =? NULL)%N) (p ← RB_PARENT tmp; RB_AUGMENT p);;
  mret tmp.

(** [p == NULL || RB_COLOR(p) == RB_BLACK] *)
Definition null_or_black (p : ptr) : M bool :=
  if (p =? NULL)%N then mret true
  else c ← RB_COLOR p; mret (c =? RB_BLACK)%Z.
(** [p && RB_COLOR(p) == RB_RED] *)
Definition nonnull_and_red (p : ptr) : M bool :=
  if (p =? NULL)%N then mret false
  else c ← RB_COLOR p; mret (c =? RB_RED)%Z.

(** ** Insertion *)

(** The [while] loop of [name##_RB_INSERT_COLOR]; [fuel] bounds its
    iterations. *)
Fixpoint rb_insert_color_loop (fuel : nat) (elm : ptr) : M unit :=
  match fuel with
  | O => st_fail
  | S fuel =>
    parent ← RB_PARENT elm;
    if (parent =? NULL)%N then mret tt else
    pc ← RB_COLOR parent;
    if negb (pc =? RB_RED)%Z then mret tt else
    gparent ← RB_PARENT parent;
    gl ← RB_LEFT gparent;
    if (parent =? gl)%N then
      tmp ← RB_RIGHT gparent;
      tred ← nonnull_and_red tmp;
      if (tred : bool) then
        set_RB_COLOR tmp RB_BLACK;;
        RB_SET_BLACKRED parent gparent;;
        rb_insert_color_loop fuel gparent
      else
        pr ← RB_RIGHT parent;
        '(parent, elm) ← (if (pr =? elm)%N
                          then RB_ROTATE_LEFT parent;; mret (elm, parent)
                          else mret (parent, elm));
        RB_SET_BLACKRED parent gparent;;
        RB_ROTATE_RIGHT gparent;;
        rb_insert_color_loop fuel elm
    else
      tmp ← RB_LEFT gparent;
      tred ← nonnull_and_red tmp;
      if (tred : bool) then
        set_RB_COLOR tmp RB_BLACK;;
        RB_SET_BLACKRED parent gparent;;
        rb_insert_color_loop fuel gparent
      else
        pl ← RB_LEFT parent;
        '(parent, elm) ← (if (pl =? elm)%N
                          then RB_ROTATE_RIGHT parent;; mret (elm, parent)
                          else mret (parent, elm));
        RB_SET_BLACKRED parent gparent;;
        RB_ROTATE_LEFT gparent;;
        rb_insert_color_loop fuel elm
  end.

(** Every loop of this file visits distinct objects of the store. *)
Definition rb_fuel : M nat := s ← st_get; mret (S (size (heap s))).

Definition RB_INSERT_COLOR (elm : ptr) : M unit :=
  fuel ← rb_fuel;
  rb_insert_color_loop fuel elm;;
  root ← RB_ROOT;
  set_RB_COLOR root RB_BLACK.

(** The descent of [name##_RB_INSERT]: [inl tmp] when an equal element is
    found, [inr (parent, comp)] at the end of the path. *)
Fixpoint rb_insert_search (fuel : nat) (elm tmp parent : ptr) (comp : Z) :
    M (ptr + ptr * Z) :=
  match fuel with
  | O => st_fail
  | S fuel =>
    if (tmp =? NULL)%N then mret (inr (parent, comp)) else
    let parent := tmp in
    comp ← compare elm parent;
    if (comp <? 0)%Z then
      tmp ← RB_LEFT tmp; rb_insert_search fuel elm tmp parent comp
    else if (comp >? 0)%Z then
      tmp ← RB_RIGHT tmp; rb_insert_search fuel elm tmp parent comp
    else mret (inl tmp)
  end.

(** [RB_SET(elm, parent); if (parent != NULL) ... else RB_ROOT(head) = elm;] *)
Definition rb_link (elm parent : ptr) (comp : Z) : M unit :=
  RB_SET elm parent;;
  if negb (parent =? NULL)%N then
    (if (comp <? 0)%Z then set_RB_LEFT parent elm
     else set_RB_RIGHT parent elm);;
    RB_AUGMENT parent
  else set_RB_ROOT elm.

Definition RB_INSERT (elm : ptr) : M ptr :=
  tmp ← RB_ROOT;
  fuel ← rb_fuel;
  r ← rb_insert_search fuel elm tmp NULL 0;
  match r with
  | inl tmp => mret tmp
  | inr (parent, comp) =>
    rb_link elm parent comp;;
    RB_INSERT_COLOR elm;;
    mret NULL
  end.

(** ** Removal *)

(** The blocks of the [while] loop of [name##_RB_REMOVE_COLOR] when the
    deficient child is the left one. *)

(** [tmp = RB_RIGHT(parent); if (RB_COLOR(tmp) == RB_RED) { ... }] *)
Definition rb_sibling_right (parent : ptr) : M ptr :=
  tmp ← RB_RIGHT parent;
  tc ← RB_COLOR tmp;
  if (tc =? RB_RED)%Z then
    RB_SET_BLACKRED tmp parent;;
    RB_ROTATE_LEFT parent;;
    RB_RIGHT parent
  else mret tmp.

(** The condition that both children of [tmp] are null or black. *)
Definition both_black (tmp : ptr) : M bool :=
  tl ← RB_LEFT tmp;
  lb ← null_or_black tl;
  if (lb : bool) then tr ← RB_RIGHT tmp; null_or_black tr else mret false.

(** [if (RB_RIGHT(tmp) == NULL || ...) { oleft ...; tmp = RB_RIGHT(parent); }] *)
Definition rb_far_right (parent tmp : ptr) : M ptr :=
  tr ← RB_RIGHT tmp;
  rb ← null_or_black tr;
  if (rb : bool) then
    oleft ← RB_LEFT tmp;
    c_when (negb (oleft =? NULL)%N) (set_RB_COLOR oleft RB_BLACK);;
    set_RB_COLOR tmp RB_RED;;
    RB_ROTATE_RIGHT tmp;;
    RB_RIGHT parent
  else mret tmp.

(** [RB_COLOR(tmp) = RB_COLOR(parent); ... RB_ROTATE_LEFT(head, parent, tmp);] *)
Definition rb_lift_right (parent tmp : ptr) : M unit :=
  pc ← RB_COLOR parent;
  set_RB_COLOR tmp pc;;
  set_RB_COLOR parent RB_BLACK;;
  tr ← RB_RIGHT tmp;
  c_when (negb (tr =? NULL)%N) (tr ← RB_RIGHT tmp; set_RB_COLOR tr RB_BLACK);;
  RB_ROTATE_LEFT parent;;
  mret tt.

(** The mirror images, for a deficient right child. *)
Definition rb_sibling_left (parent : ptr) : M ptr :=
  tmp ← RB_LEFT parent;
  tc ← RB_COLOR tmp;
  if (tc =? RB_RED)%Z then
    RB_SET_BLACKRED tmp parent;;
    RB_ROTATE_RIGHT parent;;
    RB_LEFT parent
  else mret tmp.

Definition rb_far_left (parent tmp : ptr) : M ptr :=
  tl ← RB_LEFT tmp;
  lb ← null_or_black tl;
  if (lb : bool) then
    oright ← RB_RIGHT tmp;
    c_when (negb (oright =? NULL)%N) (set_RB_COLOR oright RB_BLACK);;
    set_RB_COLOR tmp RB_RED;;
    RB_ROTATE_LEFT tmp;;
    RB_LEFT parent
  else mret tmp.

Definition rb_lift_left (parent tmp : ptr) : M unit :=
  pc ← RB_COLOR parent;
  set_RB_COLOR tmp pc;;
  set_RB_COLOR parent RB_BLACK;;
  tl ← RB_LEFT tmp;
  c_when (negb (tl =? NULL)%N) (tl ← RB_LEFT tmp; set_RB_COLOR tl RB_BLACK);;
  RB_ROTATE_RIGHT parent;;
  mret tt.

(** The loop itself; the value is [elm] when it ends. *)
Fixpoint rb_remove_color_loop (fuel : nat) (parent elm : ptr) : M ptr :=
  match fuel with
  | O => st_fail
  | S fuel =>
    eb ← null_or_black elm;
    root ← RB_ROOT;
    if negb (eb && negb (elm =? root)%N) then mret elm else
    pl ← RB_LEFT parent;
    if (pl =? elm)%N then
      tmp ← rb_sibling_right parent;
      bb ← both_black tmp;
      if (bb : bool) then
        set_RB_COLOR tmp RB_RED;;
        let elm := parent in
        parent ← RB_PARENT elm;
        rb_remove_color_loop fuel parent elm
      else
        tmp ← rb_far_right parent tmp;
        rb_lift_right parent tmp;;
        RB_ROOT
    else
      tmp ← rb_sibling_left parent;
      bb ← both_black tmp;
      if (bb : bool) then
        set_RB_COLOR tmp RB_RED;;
        let elm := parent in
        parent ← RB_PARENT elm;
        rb_remove_color_loop fuel parent elm
      else
        tmp ← rb_far_left parent tmp;
        rb_lift_left parent tmp;;
        RB_ROOT
  end.

Definition RB_REMOVE_COLOR (parent elm : ptr) : M unit :=
  fuel ← rb_fuel;
  elm ← rb_remove_color_loop fuel parent elm;
  c_when (negb (elm =? NULL)%N) (set_RB_COLOR elm RB_BLACK).

(** [while ((left = RB_LEFT(elm)) != NULL) elm = left;] *)
Fixpoint rb_leftmost (fuel : nat) (elm : ptr) : M ptr :=
  match fuel with
  | O => st_fail
  | S fuel =>
    left ← RB_LEFT elm;
    if (left =? NULL)%N then mret elm else rb_leftmost fuel left
  end.
Fixpoint rb_rightmost (fuel : nat) (elm : ptr) : M ptr :=
  match fuel with
  | O => st_fail
  | S fuel =>
    right ← RB_RIGHT elm;
    if (right =? NULL)%N then mret elm else rb_rightmost fuel right
  end.

(** [do { RB_AUGMENT(left); } while ((left = RB_PARENT(left)) != NULL);] *)
Fixpoint rb_augment_up (fuel : nat) (left : ptr) : M unit :=
  match fuel with
  | O => st_fail
  | S fuel =>
    RB_AUGMENT left;;
    left ← RB_PARENT left;
    if (left =? NULL)%N then mret tt else rb_augment_up fuel left
  end.

(** [if (child) RB_PARENT(child) = parent; if (parent) ... else
    RB_ROOT(head) = child;], the splice both branches of RB_REMOVE share. *)
Definition rb_splice (elm child parent : ptr) : M unit :=
  c_when (negb (child =? NULL)%N) (set_RB_PARENT child parent);;
  if negb (parent =? NULL)%N then
    pl ← RB_LEFT parent;
    (if (pl =? elm)%N then set_RB_LEFT parent child
     else set_RB_RIGHT parent child);;
    RB_AUGMENT parent
  else set_RB_ROOT child.

(** [(elm)->field = (old)->field; if (RB_PARENT(old)) ... if
    (RB_RIGHT(old)) RB_PARENT(RB_RIGHT(old)) = elm;]: the successor takes
    the place of the removed node. *)
Definition rb_replace (elm old : ptr) : M unit :=
  copy_field elm old;;
  op ← RB_PARENT old;
  (if negb (op =? NULL)%N then
     opl ← RB_LEFT op;
     (if (opl =? old)%N
      then op ← RB_PARENT old; set_RB_LEFT op elm
      else op ← RB_PARENT old; set_RB_RIGHT op elm);;
     op ← RB_PARENT old;
     RB_AUGMENT op
   else set_RB_ROOT elm);;
  ol ← RB_LEFT old;
  set_RB_PARENT ol elm;;
  or ← RB_RIGHT old;
  c_when (negb (or =? NULL)%N) (or ← RB_RIGHT old; set_RB_PARENT or elm).

Definition RB_REMOVE (elm : ptr) : M ptr :=
  let old := elm in
  l ← RB_LEFT elm;
  r ← RB_RIGHT elm;
  '(color, parent, child) ←
    (if ((l =? NULL) || (r =? NULL))%N then
       child ← (if (l =? NULL)%N then RB_RIGHT elm else RB_LEFT elm);
       parent ← RB_PARENT elm;
       color ← RB_COLOR elm;
       rb_splice elm child parent;;
       mret (color, parent, child)
     else
       elm ← RB_RIGHT elm;
       fuel ← rb_fuel;
       elm ← rb_leftmost fuel elm;
       child ← RB_RIGHT elm;
       parent ← RB_PARENT elm;
       color ← RB_COLOR elm;
       rb_splice elm child parent;;
       ep ← RB_PARENT elm;
       let parent := if (ep =? old)%N then elm else parent in
       rb_replace elm old;;
       c_when (negb (parent =? NULL)%N) (rb_augment_up fuel parent);;
       mret (color, parent, child));
  c_when (color =? RB_BLACK)%Z (RB_REMOVE_COLOR parent child);;
  mret old.

(** ** Queries *)

Fixpoint rb_find_loop (fuel : nat) (elm tmp : ptr) : M ptr :=
  match fuel with
  | O => st_fail
  | S fuel =>
    if (tmp =? NULL)%N then mret NULL else
    comp ← compare elm tmp;
    if (comp <? 0)%Z then tmp ← RB_LEFT tmp; rb_find_loop fuel elm tmp
    else if (comp >? 0)%Z then tmp ← RB_RIGHT tmp; rb_find_loop fuel elm tmp
    else mret tmp
  end.
Definition RB_FIND (elm : ptr) : M ptr :=
  tmp ← RB_ROOT; fuel ← rb_fuel; rb_find_loop fuel elm tmp.

Fixpoint rb_nfind_loop (fuel : nat) (elm tmp res : ptr) : M ptr :=
  match fuel with
  | O => st_fail
  | S fuel =>
    if (tmp =? NULL)%N then mret res else
    comp ← compare elm tmp;
    if (comp <? 0)%Z then
      let res := tmp in
      tmp ← RB_LEFT tmp; rb_nfind_loop fuel elm tmp res
    else if (comp >? 0)%Z then
      tmp ← RB_RIGHT tmp; rb_nfind_loop fuel elm tmp res
    else mret tmp
  end.
Definition RB_NFIND (elm : ptr) : M ptr :=
  tmp ← RB_ROOT; fuel ← rb_fuel; rb_nfind_loop fuel elm tmp NULL.

(** [while (RB_PARENT(elm) && elm == RB_RIGHT(RB_PARENT(elm))) elm =
    RB_PARENT(elm); elm = RB_PARENT(elm);] of RB_NEXT, and its mirror image
    in RB_PREV. *)
Fixpoint rb_up_right (fuel : nat) (elm : ptr) : M ptr :=
  match fuel with
  | O => st_fail
  | S fuel =>
    p ← RB_PARENT elm;
    if (p =? NULL)%N then RB_PARENT elm else
    pr ← RB_RIGHT p;
    if (elm =? pr)%N then elm ← RB_PARENT elm; rb_up_right fuel elm
    else RB_PARENT elm
  end.
Fixpoint rb_up_left (fuel : nat) (elm : ptr) : M ptr :=
  match fuel with
  | O => st_fail
  | S fuel =>
    p ← RB_PARENT elm;
    if (p =? NULL)%N then RB_PARENT elm else
    pl ← RB_LEFT p;
    if (elm =? pl)%N then elm ← RB_PARENT elm; rb_up_left fuel elm
    else RB_PARENT elm
  end.

Definition RB_NEXT (elm : ptr) : M ptr :=
  fuel ← rb_fuel;
  r ← RB_RIGHT elm;
  if negb (r =? NULL)%N then
    elm ← RB_RIGHT elm; rb_leftmost fuel elm
  else
    p ← RB_PARENT elm;
    isl ← (if negb (p =? NULL)%N
           then p ← RB_PARENT elm; pl ← RB_LEFT p; mret (elm =? pl)%N
           else mret false);
    if (isl : bool) then RB_PARENT elm else rb_up_right fuel elm.

Definition RB_PREV (elm : ptr) : M ptr :=
  fuel ← rb_fuel;
  l ← RB_LEFT elm;
  if negb (l =? NULL)%N then
    elm ← RB_LEFT elm; rb_rightmost fuel elm
  else
    p ← RB_PARENT elm;
    isr ← (if negb (p =? NULL)%N
           then p ← RB_PARENT elm; pr ← RB_RIGHT p; mret (elm =? pr)%N
           else mret false);
    if (isr : bool) then RB_PARENT elm else rb_up_left fuel elm.

Fixpoint rb_minmax_loop (fuel : nat) (v : Z) (tmp parent : ptr) : M ptr :=
  match fuel with
  | O => st_fail
  | S fuel =>
    if (tmp =? NULL)%N then mret parent else
    let parent := tmp in
    tmp ← (if (v <? 0)%Z then RB_LEFT tmp else RB_RIGHT tmp);
    rb_minmax_loop fuel v tmp parent
  end.
Definition RB_MINMAX (v : Z) : M ptr :=
  tmp ← RB_ROOT; fuel ← rb_fuel; rb_minmax_loop fuel v tmp NULL.

Definition RB_NEGINF : Z := -1.
Definition RB_INF : Z := 1.
Definition RB_MIN : M ptr := RB_MINMAX RB_NEGINF.
Definition RB_MAX : M ptr := RB_MINMAX RB_INF.

(** [RB_FOREACH] and [RB_FOREACH_REVERSE]: the sequence of elements the
    loop body sees, for a body that leaves the tree alone. *)
Fixpoint rb_foreach_loop (fuel : nat) (step : ptr → M ptr) (x : ptr) : M (list ptr) :=
  match fuel with
  | O => st_fail
  | S fuel =>
    if (x =? NULL)%N then mret [] else
    y ← step x; l ← rb_foreach_loop fuel step y; mret (x :: l)
  end.
Definition RB_FOREACH : M (list ptr) :=
  fuel ← rb_fuel; x ← RB_MIN; rb_foreach_loop fuel RB_NEXT x.
Definition RB_FOREACH_REVERSE : M (list ptr) :=
  fuel ← rb_fuel; x ← RB_MAX; rb_foreach_loop fuel RB_PREV x.

(** The loops that read the next element in front of their body, which may
    take the current one out of the tree; the sequence of elements the body
    was run on. *)
Fixpoint rb_foreach_safe_loop (fuel : nat) (step : ptr → M ptr) (body : ptr → M unit) (x : ptr) : M (list ptr) :=
  match fuel with
  | O => st_fail
  | S fuel =>
    if (x =? NULL)%N then mret [] else
    y ← step x; body x;; l ← rb_foreach_safe_loop fuel step body y; mret (x :: l)
  end.
Definition RB_FOREACH_FROM (y : ptr) (body : ptr → M unit) : M (list ptr) :=
  fuel ← rb_fuel; rb_foreach_safe_loop fuel RB_NEXT body y.
Definition RB_FOREACH_SAFE (body : ptr → M unit) : M (list ptr) :=
  fuel ← rb_fuel; x ← RB_MIN; rb_foreach_safe_loop fuel RB_NEXT body x.
Definition RB_FOREACH_REVERSE_FROM (y : ptr) (body : ptr → M unit) : M (list ptr) :=
  fuel ← rb_fuel; rb_foreach_safe_loop fuel RB_PREV body y.
Definition RB_FOREACH_REVERSE_SAFE (body : ptr → M unit) : M (list ptr) :=
  fuel ← rb_fuel; x ← RB_MAX; rb_foreach_safe_loop fuel RB_PREV body x.
End code.
