(* ===== verification/RbRep.v ===== *)
(** * Red-black trees of [uv/tree.h]: the store represents a tree

    The abstract trees the store of RbTree.v represents, the zippers that
    focus on a subtree, and the specifications of the pointer-level
    primitives (field reads, recolouring, the two rotations) at the level of
    focused trees.  Everything above these lemmas reasons about zippers
    only. *)
From S2P Require Import Prelude RbTree.

(** ** Trees and zippers *)

Inductive color := Red | Black.
#[global] Instance color_eq_dec : EqDecision color.
Proof. solve_decision. Defined.

Definition code (c : color) : Z := match c with Red => RB_RED | Black => RB_BLACK end.

Section trees.
Context {K : Type}.

Inductive tree :=
  | E
  | T (c : color) (l : tree) (x : ptr) (k : K) (r : tree).

Definition root (t : tree) : ptr := match t with E => NULL | T _ _ x _ _ => x end.
Definition tcolor (t : tree) : color := match t with E => Black | T c _ _ _ _ => c end.

(** A frame is a node with one child missing: [FL] lacks the left one. *)
Inductive frame :=
  | FL (c : color) (x : ptr) (k : K) (r : tree)
  | FR (c : color) (l : tree) (x : ptr) (k : K).
Abbreviation ctx := (list frame).

Definition floc (f : frame) : ptr := match f with FL _ x _ _ | FR _ _ x _ => x end.
Definition fill (f : frame) (t : tree) : tree :=
  match f with FL c x k r => T c t x k r | FR c l x k => T c l x k t end.
(** The innermost frame comes first. *)
Fixpoint plug (c : ctx) (t : tree) : tree :=
  match c with [] => t | f :: c => plug c (fill f t) end.
Definition par (c : ctx) : ptr := match c with [] => NULL | f :: _ => floc f end.

Fixpoint locs (t : tree) : list ptr :=
  match t with E => [] | T _ l x _ r => x :: locs l ++ locs r end.
Definition flocs (f : frame) : list ptr :=
  match f with FL _ x _ r => x :: locs r | FR _ l x _ => x :: locs l end.
Definition clocs (c : ctx) : list ptr := concat (flocs <$> c).

(** The elements in key order. *)
Fixpoint inorder (t : tree) : list (ptr * K) :=
  match t with E => [] | T _ l x k r => inorder l ++ (x, k) :: inorder r end.
Definition fbefore (f : frame) : list (ptr * K) :=
  match f with FL _ _ _ _ => [] | FR _ l x k => inorder l ++ [(x, k)] end.
Definition fafter (f : frame) : list (ptr * K) :=
  match f with FL _ x k r => (x, k) :: inorder r | FR _ _ _ _ => [] end.
Fixpoint before (c : ctx) : list (ptr * K) :=
  match c with [] => [] | f :: c => before c ++ fbefore f end.
Fixpoint after (c : ctx) : list (ptr * K) :=
  match c with [] => [] | f :: c => fafter f ++ after c end.

Fixpoint depth (t : tree) : nat :=
  match t with E => O | T _ l _ _ r => S (max (depth l) (depth r)) end.

Lemma inorder_plug c t : inorder (plug c t) = before c ++ inorder t ++ after c.
Proof.
  revert t. induction c as [|[] c IH]; intros t; simpl.
  - by rewrite app_nil_r.
  - rewrite IH. simpl. by rewrite app_nil_r, <- !app_assoc.
  - rewrite IH. simpl. by rewrite <- !app_assoc.
Qed.

Lemma locs_plug c t : locs (plug c t) ≡ₚ clocs c ++ locs t.
Proof.
  revert t. induction c as [|[] c IH]; intros t; [done|simpl..];
    rewrite IH; unfold clocs; simpl; solve_Permutation.
Qed.

Lemma plug_app c1 c2 t : plug (c1 ++ c2) t = plug c2 (plug c1 t).
Proof. revert t. induction c1 as [|f c1 IH]; intros t; [done|apply IH]. Qed.

Lemma clocs_cons f c : clocs (f :: c) = flocs f ++ clocs c.
Proof. done. Qed.
Lemma clocs_app c1 c2 : clocs (c1 ++ c2) = clocs c1 ++ clocs c2.
Proof. unfold clocs. by rewrite fmap_app, concat_app. Qed.

Lemma locs_inorder t : locs t ≡ₚ (inorder t).*1.
Proof.
  induction t as [|c l IHl x k r IHr]; [done|]. simpl.
  rewrite fmap_app, fmap_cons, IHl, IHr. simpl. solve_Permutation.
Qed.

(** ** The store represents a tree *)

Fixpoint rep (h : gmap ptr (node K)) (p : ptr) (t : tree) : Prop :=
  match t with
  | E => True
  | T c l x k r =>
    h !! x = Some (mk_node k (mk_entry (root l) (root r) p (code c))) ∧
    rep h x l ∧ rep h x r
  end.

Fixpoint repc (h : gmap ptr (node K)) (hole : ptr) (c : ctx) : Prop :=
  match c with
  | [] => True
  | FL col x k r :: c =>
    h !! x = Some (mk_node k (mk_entry hole (root r) (par c) (code col))) ∧
    rep h x r ∧ repc h x c
  | FR col l x k :: c =>
    h !! x = Some (mk_node k (mk_entry (root l) hole (par c) (code col))) ∧
    rep h x l ∧ repc h x c
  end.

(** [foc F s c t]: the state [s] stores the tree [plug c t], all its nodes
    being distinct non-null objects, and agrees with [F] on every other
    object.  [F] is the rest of the store: a postcondition with the [F] of
    the precondition says that the code wrote to no object outside the
    tree. *)
Record foc (F : gmap ptr (node K)) (s : rb_state K) (c : ctx) (t : tree) : Prop := mk_foc {
  foc_root : rbh_root s = root (plug c t);
  foc_tree : rep (heap s) (par c) t;
  foc_ctx : repc (heap s) (root t) c;
  foc_nodup : NoDup (locs t ++ clocs c);
  foc_null : NULL ∉ locs t ++ clocs c;
  foc_frame : ∀ p, p ∉ locs t ++ clocs c → heap s !! p = F !! p;
}.

Lemma root_plug c t t' : c ≠ [] → root (plug c t) = root (plug c t').
Proof.
  destruct c as [|f c]; [done|]. intros _. simpl. revert f t t'.
  induction c as [|f' c IH]; intros f t t'; [by destruct f|]. simpl. apply IH.
Qed.

(** The root of a plugged context is one of its frames. *)
Lemma foc_outer_root c f t : root (plug (f :: c) t) ∈ clocs (f :: c).
Proof.
  revert f t. induction c as [|g c IH]; intros f t.
  - destruct f; simpl; rewrite clocs_cons; by left.
  - rewrite clocs_cons, elem_of_app. right. apply (IH g (fill f t)).
Qed.

Lemma root_plug_eq c t t' : root t = root t' → root (plug c t) = root (plug c t').
Proof. intros Hr. destruct c; [done|]. by apply root_plug. Qed.

Lemma locs_fill f c t : locs t ++ clocs (f :: c) ≡ₚ locs (fill f t) ++ clocs c.
Proof. destruct f; rewrite clocs_cons; simpl; solve_Permutation. Qed.

Lemma foc_fill F s f c t : foc F s (f :: c) t ↔ foc F s c (fill f t).
Proof.
  split; intros [Hroot Ht Hc Hnd Hnull Hfr].
  - setoid_rewrite locs_fill in Hfr. rewrite locs_fill in Hnd, Hnull.
    destruct f; simpl in *; destruct_and!; split; simpl; auto.
  - setoid_rewrite <- locs_fill in Hfr. rewrite <- locs_fill in Hnd, Hnull.
    destruct f; simpl in *; destruct_and!; split; simpl; auto.
Qed.

Lemma foc_plug F s c t : foc F s c t ↔ foc F s [] (plug c t).
Proof.
  revert t. induction c as [|f c IH]; intros t; [done|].
  rewrite foc_fill. apply IH.
Qed.

(** ** Single updates of the store *)

Definition upd (s : rb_state K) (p : ptr) (n : node K) : rb_state K :=
  mk_rb (rbh_root s) (<[p:=n]> (heap s)).

Lemma rep_insert_ne h p t x n : x ∉ locs t → rep h p t → rep (<[x:=n]> h) p t.
Proof.
  revert p. induction t as [|c l IHl y k r IHr]; intros p Hx; [done|].
  simpl in *. intros (Hy & Hl & Hr).
  rewrite not_elem_of_cons, not_elem_of_app in Hx. destruct Hx as (? & ? & ?).
  rewrite lookup_insert_ne by done. auto.
Qed.

Lemma repc_insert_ne h q c x n : x ∉ clocs c → repc h q c → repc (<[x:=n]> h) q c.
Proof.
  revert q. induction c as [|f c IH]; intros q Hx; [done|].
  rewrite clocs_cons in Hx. destruct f; simpl in *; intros (Hy & Hl & Hr);
    rewrite not_elem_of_cons, not_elem_of_app in Hx; destruct Hx as (? & ? & ?);
    (rewrite lookup_insert_ne by done); auto using rep_insert_ne.
Qed.

(** The node of a frame, and what changes when the hole is redirected. *)
Definition fnode (f : frame) (hole p : ptr) : node K :=
  match f with
  | FL col _ k r => mk_node k (mk_entry hole (root r) p (code col))
  | FR col l _ k => mk_node k (mk_entry (root l) hole p (code col))
  end.
Definition frep (h : gmap ptr (node K)) (f : frame) : Prop :=
  match f with FL _ x _ r => rep h x r | FR _ l x _ => rep h x l end.

Lemma repc_cons h q f c :
  repc h q (f :: c) ↔ h !! floc f = Some (fnode f q (par c)) ∧ frep h f ∧ repc h (floc f) c.
Proof. by destruct f. Qed.

Lemma frep_insert_ne h f x n : x ∉ flocs f → frep h f → frep (<[x:=n]> h) f.
Proof. destruct f; simpl; rewrite not_elem_of_cons; intros [??]; by apply rep_insert_ne. Qed.
Lemma frep_insert_floc h f n : NoDup (flocs f) → frep h f → frep (<[floc f:=n]> h) f.
Proof. destruct f; simpl; rewrite NoDup_cons; intros [??]; by apply rep_insert_ne. Qed.

Lemma floc_in_flocs f : floc f ∈ flocs f.
Proof. destruct f; simpl; set_solver. Qed.

(** Redirecting the hole of a context to [q']. *)
Lemma repc_rehole h q q' f c :
  NoDup (clocs (f :: c)) → repc h q (f :: c) →
  repc (<[floc f := fnode f q' (par c)]> h) q' (f :: c).
Proof.
  rewrite clocs_cons, NoDup_app. intros (Hf & Hd & Hc).
  rewrite !repc_cons. intros (Hx & Hr & Hrc). rewrite lookup_insert_eq.
  split; [done|]. split; [by apply frep_insert_floc|].
  apply repc_insert_ne; [|done]. apply Hd, floc_in_flocs.
Qed.

(** Giving a subtree a new parent. *)
Lemma rep_reparent h p p' c l x k r :
  NoDup (locs (T c l x k r)) → rep h p (T c l x k r) →
  rep (<[x := mk_node k (mk_entry (root l) (root r) p' (code c))]> h) p' (T c l x k r).
Proof.
  simpl. rewrite NoDup_cons, not_elem_of_app. intros ((? & ?) & ?) (? & ? & ?).
  rewrite lookup_insert_eq. auto using rep_insert_ne.
Qed.
End trees.
Arguments tree : clear implicits.
Arguments frame : clear implicits.
#[global] Instance tree_E_dec {K} (t : tree K) : Decision (t = E).
Proof. destruct t; [by left|by right]. Defined.
Abbreviation ctx K := (list (frame K)).
Abbreviation Rep F s t := (foc F s [] t).

(** ** Symbolic execution of the primitives *)
Section prims.
Context {K : Type}.
Implicit Types (s : rb_state K) (n : node K) (Q : unit → rb_state K → Prop).

Lemma wp_deref p s n (Q : node K → rb_state K → Prop) :
  heap s !! p = Some n → Q n s → wp (deref p) s Q.
Proof. intros. by eapply wp_gets. Qed.

Lemma wp_write p s n n' Q :
  heap s !! p = Some n → Q tt (upd s p n') → wp (write p n') s Q.
Proof. intros Hp HQ. eapply wp_mod; [|exact HQ]. by rewrite Hp. Qed.

Lemma wp_RB_LEFT p s n (Q : ptr → rb_state K → Prop) :
  heap s !! p = Some n → Q (rbe_left (field n)) s → wp (RB_LEFT p) s Q.
Proof. intros. by eapply wp_bind, wp_deref, wp_ret. Qed.
Lemma wp_RB_RIGHT p s n (Q : ptr → rb_state K → Prop) :
  heap s !! p = Some n → Q (rbe_right (field n)) s → wp (RB_RIGHT p) s Q.
Proof. intros. by eapply wp_bind, wp_deref, wp_ret. Qed.
Lemma wp_RB_PARENT p s n (Q : ptr → rb_state K → Prop) :
  heap s !! p = Some n → Q (rbe_parent (field n)) s → wp (RB_PARENT p) s Q.
Proof. intros. by eapply wp_bind, wp_deref, wp_ret. Qed.
Lemma wp_RB_COLOR p s n (Q : Z → rb_state K → Prop) :
  heap s !! p = Some n → Q (rbe_color (field n)) s → wp (RB_COLOR p) s Q.
Proof. intros. by eapply wp_bind, wp_deref, wp_ret. Qed.
Lemma wp_RB_ROOT s (Q : ptr → rb_state K → Prop) : Q (rbh_root s) s → wp RB_ROOT s Q.
Proof. intros. by apply wp_bind, wp_get, wp_ret. Qed.
Lemma wp_rb_fuel s (Q : nat → rb_state K → Prop) :
  Q (S (size (heap s))) s → wp rb_fuel s Q.
Proof. intros. by apply wp_bind, wp_get, wp_ret. Qed.
Lemma wp_set_RB_ROOT v s Q : Q tt (mk_rb v (heap s)) → wp (set_RB_ROOT v) s Q.
Proof. intros. by eapply wp_mod. Qed.

Lemma wp_set_RB_LEFT p v s n Q :
  heap s !! p = Some n →
  Q tt (upd s p (mk_node (val n) (mk_entry v (rbe_right (field n)) (rbe_parent (field n)) (rbe_color (field n))))) →
  wp (set_RB_LEFT p v) s Q.
Proof. intros. eapply wp_bind, wp_deref, wp_write; eauto. Qed.
Lemma wp_set_RB_RIGHT p v s n Q :
  heap s !! p = Some n →
  Q tt (upd s p (mk_node (val n) (mk_entry (rbe_left (field n)) v (rbe_parent (field n)) (rbe_color (field n))))) →
  wp (set_RB_RIGHT p v) s Q.
Proof. intros. eapply wp_bind, wp_deref, wp_write; eauto. Qed.
Lemma wp_set_RB_PARENT p v s n Q :
  heap s !! p = Some n →
  Q tt (upd s p (mk_node (val n) (mk_entry (rbe_left (field n)) (rbe_right (field n)) v (rbe_color (field n))))) →
  wp (set_RB_PARENT p v) s Q.
Proof. intros. eapply wp_bind, wp_deref, wp_write; eauto. Qed.
Lemma wp_set_RB_COLOR p v s n Q :
  heap s !! p = Some n →
  Q tt (upd s p (mk_node (val n) (mk_entry (rbe_left (field n)) (rbe_right (field n)) (rbe_parent (field n)) v))) →
  wp (set_RB_COLOR p v) s Q.
Proof. intros. eapply wp_bind, wp_deref, wp_write; eauto. Qed.
Lemma wp_copy_field p q s n o Q :
  heap s !! p = Some n → heap s !! q = Some o →
  Q tt (upd s p (mk_node (val n) (field o))) → wp (copy_field p q) s Q.
Proof. intros. do 2 (eapply wp_bind, wp_deref; [eassumption|]). eapply wp_write; eauto. Qed.
Lemma wp_compare (cmp : K → K → Z) a b s x y (Q : Z → rb_state K → Prop) :
  heap s !! a = Some x → heap s !! b = Some y →
  Q (cmp (val x) (val y)) s → wp (compare cmp a b) s Q.
Proof. intros. do 2 (eapply wp_bind, wp_deref; [eassumption|]). by apply wp_ret. Qed.
End prims.

(** Lookups in a store after a sequence of updates. *)
Ltac rb_lookup :=
  simpl;
  repeat first
    [ rewrite lookup_insert_eq
    | rewrite lookup_insert_ne by (first [assumption | apply not_eq_sym; assumption | congruence]) ];
  first [reflexivity | eassumption].

(** One step of symbolic execution that leaves the store alone, and one step
    of any kind. *)
Ltac rb_rstep :=
  lazymatch goal with
  | |- wp (mbind _ _) _ _ => apply wp_bind
  | |- wp (mret _) _ _ => apply wp_ret
  | |- wp RB_ROOT _ _ => apply wp_RB_ROOT
  | |- wp rb_fuel _ _ => apply wp_rb_fuel
  | |- wp (RB_LEFT _) _ _ => eapply wp_RB_LEFT; [solve [rb_lookup]|]
  | |- wp (RB_RIGHT _) _ _ => eapply wp_RB_RIGHT; [solve [rb_lookup]|]
  | |- wp (RB_PARENT _) _ _ => eapply wp_RB_PARENT; [solve [rb_lookup]|]
  | |- wp (RB_COLOR _) _ _ => eapply wp_RB_COLOR; [solve [rb_lookup]|]
  | |- wp (RB_AUGMENT _) _ _ => apply wp_ret
  | |- wp (c_when _ _) _ _ => apply wp_when
  | |- wp (RB_SET_BLACKRED _ _) _ _ => unfold RB_SET_BLACKRED
  | |- wp (compare _ _ _) _ _ => eapply wp_compare; [solve [rb_lookup]|solve [rb_lookup]|]
  end; simpl.
Ltac rb_wstep :=
  lazymatch goal with
  | |- wp (set_RB_ROOT _) _ _ => apply wp_set_RB_ROOT
  | |- wp (set_RB_LEFT _ _) _ _ => eapply wp_set_RB_LEFT; [solve [rb_lookup]|]
  | |- wp (set_RB_RIGHT _ _) _ _ => eapply wp_set_RB_RIGHT; [solve [rb_lookup]|]
  | |- wp (set_RB_PARENT _ _) _ _ => eapply wp_set_RB_PARENT; [solve [rb_lookup]|]
  | |- wp (set_RB_COLOR _ _) _ _ => eapply wp_set_RB_COLOR; [solve [rb_lookup]|]
  | |- wp (copy_field _ _) _ _ => eapply wp_copy_field; [solve [rb_lookup]|solve [rb_lookup]|]
  end; simpl.
Ltac rb_step := first [rb_rstep | rb_wstep].

(** Decide the pointer comparisons the context settles. *)
Ltac rb_cond :=
  repeat match goal with
  | |- context [(?p =? ?q)%N] =>
    first [ rewrite (proj2 (N.eqb_eq p q)) by congruence
          | rewrite (proj2 (N.eqb_neq p q)) by congruence ]
  end; simpl.
Ltac rb_run := rb_cond; repeat (rb_step; rb_cond).
Ltac rb_read := rb_cond; repeat (rb_rstep; rb_cond).

(** Close the final lookups of a case: [Hend] states the store an
    operation has to leave behind. *)
Ltac rot_finish Hend :=
  apply Hend; simpl;
    solve
      [ done | rb_cond; done | try intros _; rb_lookup
      | intros ? Hz; rewrite ?not_elem_of_cons in Hz; destruct_and? Hz; rb_lookup ].

Section specs.
Context {K : Type}.
Implicit Types (F : gmap ptr (node K)) (s : rb_state K) (t : tree K) (c : ctx K).

(** Two stores that agree on the nodes of a tree represent the same tree;
    a subtree may get a new parent, and a context a new hole. *)
Lemma rep_ext h h' p t :
  (∀ z, z ∈ locs t → h' !! z = h !! z) → rep h p t → rep h' p t.
Proof.
  revert p. induction t as [|col l IHl x k r IHr]; intros p Hh; [done|].
  simpl in *. intros (Hx & Hl & Hr). rewrite Hh by set_solver.
  split; [done|]. split; [apply IHl|apply IHr]; try done; intros; apply Hh; set_solver.
Qed.

Definition tnode t (p : ptr) : option (node K) :=
  match t with
  | E => None
  | T col l _ k r => Some (mk_node k (mk_entry (root l) (root r) p (code col)))
  end.

Lemma rep_reparent_ext h h' p p' t :
  NoDup (locs t) →
  (t ≠ E → h' !! root t = tnode t p') →
  (∀ z, z ∈ locs t → z ≠ root t → h' !! z = h !! z) → rep h p t → rep h' p' t.
Proof.
  destruct t as [|col l x k r]; [done|]. simpl. intros Hnd Ht Hh (Hx & Hl & Hr).
  rewrite NoDup_cons, not_elem_of_app in Hnd. destruct Hnd as ((Hxl & Hxr) & _).
  split; [by apply Ht|].
  split; (eapply rep_ext; [|done]); intros z Hz; apply Hh; try intros ->; set_solver.
Qed.

Lemma repc_ext h h' q c :
  (∀ z, z ∈ clocs c → h' !! z = h !! z) → repc h q c → repc h' q c.
Proof.
  revert q. induction c as [|f c IH]; intros q Hh; [done|].
  rewrite clocs_cons in Hh. rewrite !repc_cons. intros (Hx & Hf & Hc).
  rewrite Hh by (apply elem_of_app; left; apply floc_in_flocs).
  split; [done|]. split; [|apply IH; [|done]; set_solver].
  destruct f; simpl in *; (eapply rep_ext; [|done]); set_solver.
Qed.

Definition cnode c (q : ptr) : option (node K) :=
  match c with [] => None | f :: c => Some (fnode f q (par c)) end.

Lemma repc_rehole_ext h h' q q' c :
  NoDup (clocs c) →
  (c ≠ [] → h' !! par c = cnode c q') →
  (∀ z, z ∈ clocs c → z ≠ par c → h' !! z = h !! z) → repc h q c → repc h' q' c.
Proof.
  destruct c as [|f c]; [done|]. rewrite clocs_cons, NoDup_app, !repc_cons.
  intros (Hf & Hd & Hc) Hx Hh (_ & Hr & Hrc). simpl in *.
  split; [by apply Hx|]. pose proof (floc_in_flocs f) as Hin. split.
  - destruct f; simpl in *; rewrite NoDup_cons in Hf; destruct Hf as [Hf _];
      (eapply rep_ext; [|done]); intros z Hz; apply Hh; try intros ->; set_solver.
  - eapply repc_ext; [|done]. intros z Hz. apply Hh; [set_solver|].
    intros ->. by apply (Hd (floc f)).
Qed.

Lemma root_in t : t ≠ E → root t ∈ locs t.
Proof. destruct t; [done|]. intros _. simpl. set_solver. Qed.
Lemma par_in c : c ≠ [] → par c ∈ clocs c.
Proof.
  destruct c as [|f c]; [done|]. intros _. rewrite clocs_cons. simpl.
  apply elem_of_app. left. apply floc_in_flocs.
Qed.

Lemma foc_loc_ne F s c col l x k r : foc F s c (T col l x k r) → x ≠ NULL.
Proof. intros [_ _ _ _ Hn _]. simpl in Hn. set_solver. Qed.

(** Recolouring. *)
Lemma wp_recolor F s c col col' l x k r (Q : unit → rb_state K → Prop) :
  foc F s c (T col l x k r) →
  (∀ s', foc F s' c (T col' l x k r) → Q tt s') →
  wp (set_RB_COLOR x (code col')) s Q.
Proof.
  intros [Hroot (Hx & Hl & Hr) Hc Hnd Hnull Hfr] HQ.
  rb_step. apply HQ. simpl in *.
  pose proof Hnd as [[Hxl Hxr]%not_elem_of_app _]%NoDup_cons.
  rewrite not_elem_of_app in Hxl. destruct Hxl.
  split; simpl; auto using rep_insert_ne, repc_insert_ne.
  - rewrite Hroot. by apply root_plug_eq.
  - rewrite lookup_insert_eq. auto using rep_insert_ne.
  - intros p Hp. rewrite lookup_insert_ne by set_solver. auto.
Qed.

(** [NoDup] over concatenations as disequalities and non-memberships. *)
Lemma NoDup_split (l1 l2 : list ptr) :
  NoDup (l1 ++ l2) ↔ NoDup l1 ∧ NoDup l2 ∧ (∀ x, x ∈ l1 → x ∉ l2).
Proof. rewrite NoDup_app. naive_solver. Qed.

Definition oroot t : list ptr := match t with E => [] | T _ _ x _ _ => [x] end.
Definition opar c : list ptr := match c with [] => [] | f :: _ => [floc f] end.

Lemma oroot_in t z : z ∈ oroot t → z ∈ locs t.
Proof. destruct t; simpl; intros Hz; [done|set_solver]. Qed.
Lemma opar_in c z : z ∈ opar c → z ∈ clocs c.
Proof.
  destruct c as [|f c]; simpl; [by intros []%not_elem_of_nil|]. rewrite clocs_cons.
  intros ->%list_elem_of_singleton. pose proof (floc_in_flocs f). set_solver.
Qed.

(** What a rotation around [x] (parent) and [y] (child), moving the middle
    subtree [b], leaves in the store; shared by both directions. *)
Lemma foc_rotated F s s' c t t' x y (b : tree K) :
  foc F s c t →
  locs t' ≡ₚ locs t →
  root t = x → root t' = y →
  rbh_root s' = (if (par c =? NULL)%N then y else rbh_root s) →
  rep (heap s') (par c) t' →
  (c ≠ [] → heap s' !! par c = cnode c y) →
  x ∈ locs t → y ∈ locs t → (∀ z, z ∈ oroot b → z ∈ locs t) →
  (∀ z, z ∉ x :: y :: oroot b ++ opar c → heap s' !! z = heap s !! z) →
  foc F s' c t'.
Proof.
  intros [Hroot Ht Hc Hnd Hnull Hfr] Hlocs Hx Hy Hroot' Hrep Hpar Hxin Hyin Hbin Hh.
  pose proof (opar_in c) as Hpin.
  split; [|done| | | |].
  - rewrite Hroot'. destruct c as [|f c]; [done|]. simpl.
    assert (floc f ≠ NULL) as Hf.
    { intros Hf. apply Hnull, elem_of_app. right. apply Hpin. rewrite <- Hf. by left. }
    rewrite (proj2 (N.eqb_neq _ _) Hf), Hroot. by apply (root_plug (f :: c)).
  - rewrite Hy. apply NoDup_app in Hnd as (_ & Hd & Hnc).
    eapply (repc_rehole_ext (heap s)); [done|done| |done].
    intros z Hz Hzp. apply Hh. rewrite !not_elem_of_cons, not_elem_of_app.
    split_and!.
    + intros ->. by apply (Hd x).
    + intros ->. by apply (Hd y).
    + intros Hin. by apply (Hd z); [apply Hbin|].
    + destruct c; simpl in *; [apply not_elem_of_nil|by rewrite list_elem_of_singleton].
  - by rewrite Hlocs.
  - by rewrite Hlocs.
  - intros p. rewrite Hlocs. intros Hp. rewrite <- Hfr by done. apply Hh.
    rewrite not_elem_of_app in Hp. destruct Hp as [Hpt Hpc].
    rewrite !not_elem_of_cons, not_elem_of_app. split_and!; try (by intros ->); eauto.
Qed.

(** The nodes around a rotation are pairwise distinct. *)
Lemma nodup_rot (x y : ptr) (a b d cl : list ptr) :
  NoDup (x :: y :: a ++ b ++ d ++ cl) →
  x ≠ y ∧ NoDup b ∧
  (∀ z, z ∈ a → z ≠ x ∧ z ≠ y ∧ z ∉ b ∧ z ∉ cl) ∧
  (∀ z, z ∈ b → z ≠ x ∧ z ≠ y ∧ z ∉ cl) ∧
  (∀ z, z ∈ d → z ≠ x ∧ z ≠ y ∧ z ∉ b ∧ z ∉ cl) ∧
  (∀ z, z ∈ cl → z ≠ x ∧ z ≠ y ∧ z ∉ a ∧ z ∉ b ∧ z ∉ d).
Proof.
  rewrite !NoDup_cons, !NoDup_app, !not_elem_of_cons, !not_elem_of_app.
  setoid_rewrite not_elem_of_app. setoid_rewrite not_elem_of_app.
  intros ((Hxy & Hxa & Hxb & Hxd & Hxc) & (Hya & Hyb & Hyd & Hyc) & Ha & Hab & Hb & Hbd & Hd & Hdc & Hc).
  split; [done|]. split; [done|].
  split; [|split; [|split]]; intros z Hz; (split_and!; [by intros ->|by intros ->|..]).
  all: try (by apply Hab). all: try (by apply Hbd). all: try (by apply Hdc).
  all: intros Hz'; try (by apply (Hab z)); try (by apply (Hbd z)); try (by apply (Hdc z)); try (by destruct (Hab z Hz')); try (by destruct (Hbd z Hz')).
Qed.

Lemma neqb_par f c : NULL ∉ clocs (f :: c) → (par (f :: c) =? NULL)%N = false.
Proof.
  intros Hn. apply N.eqb_neq. intros Hf. apply Hn. rewrite <- Hf. by apply par_in.
Qed.

Lemma opar_ne c z : z ∉ opar c → c ≠ [] → z ≠ par c.
Proof. destruct c; simpl; [done|]. by rewrite list_elem_of_singleton. Qed.

Lemma NoDup_perm (l1 l2 : list ptr) : l1 ≡ₚ l2 → NoDup l1 → NoDup l2.
Proof. by intros ->. Qed.
Lemma not_in_perm (l1 l2 : list ptr) z : l1 ≡ₚ l2 → z ∉ l1 → z ∉ l2.
Proof. by intros ->. Qed.

(** The same with the null pointer added, for a focused tree whose nodes
    are [x], [y] and those of the subtrees [a], [b], [d]. *)
Lemma foc_rot_distinct F s c t x y (a b d : tree K) :
  foc F s c t → locs t ≡ₚ x :: y :: locs a ++ locs b ++ locs d →
  x ≠ y ∧ x ≠ NULL ∧ y ≠ NULL ∧ NoDup (locs b) ∧ NULL ∉ locs b ∧ NULL ∉ clocs c ∧
  (∀ z, z ∈ locs a → z ≠ x ∧ z ≠ y ∧ z ∉ locs b ∧ z ∉ clocs c) ∧
  (∀ z, z ∈ locs b → z ≠ x ∧ z ≠ y ∧ z ∉ clocs c) ∧
  (∀ z, z ∈ locs d → z ≠ x ∧ z ≠ y ∧ z ∉ locs b ∧ z ∉ clocs c) ∧
  (∀ z, z ∈ clocs c → z ≠ x ∧ z ≠ y ∧ z ∉ locs a ∧ z ∉ locs b ∧ z ∉ locs d).
Proof.
  intros [_ _ _ Hnd Hnull _] Hl.
  assert (locs t ++ clocs c ≡ₚ x :: y :: locs a ++ locs b ++ locs d ++ clocs c) as Hl'.
  { rewrite Hl. simpl. by rewrite <- !app_assoc. }
  eapply NoDup_perm in Hnd; [|exact Hl']. eapply not_in_perm in Hnull; [|exact Hl'].
  apply nodup_rot in Hnd as (? & ? & ? & ? & ? & ?).
  rewrite !not_elem_of_cons, !not_elem_of_app in Hnull.
  destruct Hnull as (? & ? & ? & ? & ? & ?). split_and!; auto.
Qed.

Definition frame_color (f : frame K) : color :=
  match f with FL col _ _ _ | FR col _ _ _ => col end.
Definition fsib (f : frame K) : tree K :=
  match f with FL _ _ _ r => r | FR _ l _ _ => l end.

(** The four cases of a rotation: the moved subtree and the context may be
    empty.  When they are not, their pointers differ from [x] and [y]. *)
Lemma rot_cases F s c t x y (a b d : tree K) :
  foc F s c t → locs t ≡ₚ x :: y :: locs a ++ locs b ++ locs d →
  (b ≠ E → root b ≠ x ∧ root b ≠ y ∧ root b ≠ NULL) ∧
  (c ≠ [] → par c ≠ x ∧ par c ≠ y ∧ par c ≠ NULL) ∧
  (b ≠ E → c ≠ [] → root b ≠ par c) ∧
  (∀ f c', c = f :: c' → root (fsib f) ≠ x).
Proof.
  intros Hf Hl. destruct (foc_rot_distinct _ _ _ _ _ _ _ _ _ Hf Hl)
    as (Hxy & Hx0 & Hy0 & Hndb & Hb0 & Hc0 & Hda & Hdb & Hdd & Hdc).
  split_and!.
  - intros Hb. pose proof (root_in b Hb) as Hi. destruct (Hdb _ Hi) as (? & ? & ?).
    split_and!; try done. by intros Heq; rewrite Heq in Hi.
  - intros Hc. pose proof (par_in c Hc) as Hi. destruct (Hdc _ Hi) as (? & ? & ?).
    split_and!; try done. by intros Heq; rewrite Heq in Hi.
  - intros Hb Hc Heq. pose proof (root_in b Hb) as Hi. destruct (Hdb _ Hi) as (_ & _ & Hn).
    apply Hn. rewrite Heq. by apply par_in.
  - intros f c' -> Heq. destruct (decide (root (fsib f) = NULL)); [congruence|].
    assert (root (fsib f) ∈ clocs (f :: c')) as Hi.
    { rewrite clocs_cons. apply elem_of_app. left.
      destruct f as [? ? ? [|]|? [|] ? ?]; try done; simpl; set_solver. }
    destruct (Hdc _ Hi) as (? & _). congruence.
Qed.

Lemma not_in_touched (b : tree K) c x y z :
  z ≠ x → z ≠ y → z ∉ locs b → z ∉ clocs c → z ∉ x :: y :: oroot b ++ opar c.
Proof.
  intros. rewrite !not_elem_of_cons, not_elem_of_app. split_and!; try done.
  - by intros ?%oroot_in.
  - by intros ?%opar_in.
Qed.

(** The moved subtree keeps its nodes apart from the parent of its root. *)
Lemma rep_moved s s' c x y (b : tree K) p p' :
  NoDup (locs b) → (∀ z, z ∈ locs b → z ≠ x ∧ z ≠ y ∧ z ∉ clocs c) →
  (b ≠ E → heap s' !! root b = tnode b p') →
  (∀ z, z ∉ x :: y :: oroot b ++ opar c → heap s' !! z = heap s !! z) →
  rep (heap s) p b → rep (heap s') p' b.
Proof.
  intros Hnd Hd Hb Hz. apply rep_reparent_ext; try done.
  intros z Hzb Hzr. apply Hz. destruct (Hd z Hzb) as (? & ? & Hc).
  rewrite !not_elem_of_cons, not_elem_of_app. split_and!; try done.
  - destruct b; simpl in *; [apply not_elem_of_nil|by rewrite list_elem_of_singleton].
  - by intros ?%opar_in.
Qed.

(** Split a rotation into its cases and turn the representation predicates
    into lookups. *)
Ltac rot_split b c Hbn Hcn Hbc Hsib Hb Hc :=
  (destruct b as [|? ? ? ? ?];
    [|destruct (Hbn ltac:(done)) as (? & ? & ?); simpl in Hb; destruct Hb as (Hb & _)]);
  (destruct c as [|f ?];
    [|destruct (Hcn ltac:(done)) as (? & ? & ?); apply repc_cons in Hc as (Hc & _);
      pose proof (Hsib _ _ eq_refl);
      try pose proof (Hbc ltac:(done) ltac:(done));
      destruct f; simpl in Hc]);
  simpl in *.

Lemma wp_ROTATE_LEFT F s c cx a x kx cy b y ky d (Q : ptr → rb_state K → Prop) :
  foc F s c (T cx a x kx (T cy b y ky d)) →
  (∀ s', foc F s' c (T cy (T cx a x kx b) y ky d) → Q y s') →
  wp (RB_ROTATE_LEFT x) s Q.
Proof.
  intros Hfoc HQ. pose proof Hfoc as [_ (Hx & Ha & Hy & Hb & Hd) Hc _ _ _].
  assert (locs (T cx a x kx (T cy b y ky d)) ≡ₚ x :: y :: locs a ++ locs b ++ locs d) as Hl
    by (simpl; solve_Permutation).
  pose proof (rot_cases _ _ _ _ _ _ _ _ _ Hfoc Hl) as (Hbn & Hcn & Hbc & Hsib).
  destruct (foc_rot_distinct _ _ _ _ _ _ _ _ _ Hfoc Hl)
    as (Hxy & Hx0 & Hy0 & Hndb & Hb0 & Hc0 & Hda & Hdb & Hdd & Hdc).
  assert (∀ s1, rbh_root s1 = (if (par c =? NULL)%N then y else rbh_root s) →
    heap s1 !! y = Some (mk_node ky (mk_entry x (root d) (par c) (code cy))) →
    heap s1 !! x = Some (mk_node kx (mk_entry (root a) (root b) y (code cx))) →
    (b ≠ E → heap s1 !! root b = tnode b x) →
    (c ≠ [] → heap s1 !! par c = cnode c y) →
    (∀ z, z ∉ x :: y :: oroot b ++ opar c → heap s1 !! z = heap s !! z) →
    Q y s1) as Hend.
  { intros s1 Hr1 Hy1 Hx1 Hb1 Hp1 Hz1. apply HQ.
    eapply (foc_rotated F s s1 c _ _ x y b); try done.
    - simpl. solve_Permutation.
    - simpl. split_and!; try done.
      + eapply rep_ext; [|exact Ha]. intros z Hz. apply Hz1. apply not_in_touched; by apply Hda.
      + by eapply rep_moved.
      + eapply rep_ext; [|exact Hd]. intros z Hz. apply Hz1. apply not_in_touched; by apply Hdd.
    - rewrite Hl. by left.
    - rewrite Hl. right. by left.
    - intros z Hz%oroot_in. rewrite Hl, !elem_of_cons, !elem_of_app. auto. }
  clear HQ Hfoc Hl Hndb Hb0 Hc0 Hda Hdb Hdd Hdc Ha Hd.
  unfold RB_ROTATE_LEFT. simpl root in *.
  rot_split b c Hbn Hcn Hbc Hsib Hb Hc; rb_run; rot_finish Hend.
Qed.

Lemma wp_ROTATE_RIGHT F s c cx d x kx cy b y ky a (Q : ptr → rb_state K → Prop) :
  foc F s c (T cx (T cy a y ky b) x kx d) →
  (∀ s', foc F s' c (T cy a y ky (T cx b x kx d)) → Q y s') →
  wp (RB_ROTATE_RIGHT x) s Q.
Proof.
  intros Hfoc HQ. pose proof Hfoc as [_ (Hx & (Hy & Ha & Hb) & Hd) Hc _ _ _].
  assert (locs (T cx (T cy a y ky b) x kx d) ≡ₚ x :: y :: locs a ++ locs b ++ locs d) as Hl
    by (simpl; solve_Permutation).
  pose proof (rot_cases _ _ _ _ _ _ _ _ _ Hfoc Hl) as (Hbn & Hcn & Hbc & Hsib).
  destruct (foc_rot_distinct _ _ _ _ _ _ _ _ _ Hfoc Hl)
    as (Hxy & Hx0 & Hy0 & Hndb & Hb0 & Hc0 & Hda & Hdb & Hdd & Hdc).
  assert (∀ s1, rbh_root s1 = (if (par c =? NULL)%N then y else rbh_root s) →
    heap s1 !! y = Some (mk_node ky (mk_entry (root a) x (par c) (code cy))) →
    heap s1 !! x = Some (mk_node kx (mk_entry (root b) (root d) y (code cx))) →
    (b ≠ E → heap s1 !! root b = tnode b x) →
    (c ≠ [] → heap s1 !! par c = cnode c y) →
    (∀ z, z ∉ x :: y :: oroot b ++ opar c → heap s1 !! z = heap s !! z) →
    Q y s1) as Hend.
  { intros s1 Hr1 Hy1 Hx1 Hb1 Hp1 Hz1. apply HQ.
    eapply (foc_rotated F s s1 c _ _ x y b); try done.
    - simpl. solve_Permutation.
    - simpl. split_and!; try done.
      + eapply rep_ext; [|exact Ha]. intros z Hz. apply Hz1. apply not_in_touched; by apply Hda.
      + by eapply rep_moved.
      + eapply rep_ext; [|exact Hd]. intros z Hz. apply Hz1. apply not_in_touched; by apply Hdd.
    - rewrite Hl. by left.
    - rewrite Hl. right. by left.
    - intros z Hz%oroot_in. rewrite Hl, !elem_of_cons, !elem_of_app. auto. }
  clear HQ Hfoc Hl Hndb Hb0 Hc0 Hda Hdb Hdd Hdc Ha Hd.
  unfold RB_ROTATE_RIGHT. simpl root in *.
  rot_split b c Hbn Hcn Hbc Hsib Hb Hc; rb_run; rot_finish Hend.
Qed.

(** ** Refocusing *)

Lemma foc_app F s c1 c2 t : foc F s (c1 ++ c2) t ↔ foc F s c2 (plug c1 t).
Proof. by rewrite foc_plug, plug_app, <- foc_plug. Qed.

(** The primitives on a node that lies below the focus, at the path [c1]. *)
Lemma wp_recolor_in F s c1 c col' col l x k r (Q : unit → rb_state K → Prop) :
  foc F s c (plug c1 (T col l x k r)) →
  (∀ s', foc F s' c (plug c1 (T col' l x k r)) → Q tt s') →
  wp (set_RB_COLOR x (code col')) s Q.
Proof.
  rewrite <- foc_app. intros Hf HQ. eapply wp_recolor; [exact Hf|].
  intros s' Hs'. apply HQ. by rewrite <- foc_app.
Qed.
Lemma wp_ROTATE_LEFT_in F s c1 c cx a x kx cy b y ky d (Q : ptr → rb_state K → Prop) :
  foc F s c (plug c1 (T cx a x kx (T cy b y ky d))) →
  (∀ s', foc F s' c (plug c1 (T cy (T cx a x kx b) y ky d)) → Q y s') →
  wp (RB_ROTATE_LEFT x) s Q.
Proof.
  rewrite <- foc_app. intros Hf HQ. eapply wp_ROTATE_LEFT; [exact Hf|].
  intros s' Hs'. apply HQ. by rewrite <- foc_app.
Qed.
Lemma wp_ROTATE_RIGHT_in F s c1 c cx d x kx cy b y ky a (Q : ptr → rb_state K → Prop) :
  foc F s c (plug c1 (T cx (T cy a y ky b) x kx d)) →
  (∀ s', foc F s' c (plug c1 (T cy a y ky (T cx b x kx d))) → Q y s') →
  wp (RB_ROTATE_RIGHT x) s Q.
Proof.
  rewrite <- foc_app. intros Hf HQ. eapply wp_ROTATE_RIGHT; [exact Hf|].
  intros s' Hs'. apply HQ. by rewrite <- foc_app.
Qed.

(** Nodes of a focused tree are not null, and differ from the sibling. *)
Lemma foc_ne_NULL F s c t : foc F s c t → t ≠ E → root t ≠ NULL.
Proof.
  intros [_ _ _ _ Hn _] Ht Hr. apply Hn, elem_of_app. left. rewrite <- Hr. by apply root_in.
Qed.
Lemma foc_sib_ne F s f c t : foc F s (f :: c) t → t ≠ E → root (fsib f) ≠ root t.
Proof.
  intros Hf Ht Heq. pose proof (foc_ne_NULL _ _ _ _ Hf Ht) as Hn.
  destruct Hf as [_ _ _ Hnd _ _]. apply NoDup_app in Hnd as (_ & Hd & _).
  apply (Hd (root t)); [by apply root_in|]. rewrite <- Heq, clocs_cons, elem_of_app. left.
  assert (fsib f ≠ E) as Hs by (intros Hs; rewrite Hs in Heq; simpl in Heq; congruence).
  destruct f; simpl in *; right; by apply root_in.
Qed.

(** The two colour tests on a possibly null pointer. *)
Lemma wp_nonnull_and_red F s c1 c u (Q : bool → rb_state K → Prop) :
  foc F s c (plug c1 u) →
  Q (bool_decide (tcolor u = Red)) s → wp (nonnull_and_red (root u)) s Q.
Proof.
  rewrite <- foc_app. intros Hf HQ. unfold nonnull_and_red.
  destruct u as [|col l x k r]; [by apply wp_ret|].
  pose proof (foc_ne_NULL _ _ _ _ Hf ltac:(done)) as Hn. destruct (foc_tree _ _ _ _ Hf) as (Hx & _).
  simpl in *. rb_cond. rb_run. by destruct col.
Qed.
Lemma wp_null_or_black F s c1 c u (Q : bool → rb_state K → Prop) :
  foc F s c (plug c1 u) →
  Q (bool_decide (tcolor u = Black)) s → wp (null_or_black (root u)) s Q.
Proof.
  rewrite <- foc_app. intros Hf HQ. unfold null_or_black.
  destruct u as [|col l x k r]; [by apply wp_ret|].
  pose proof (foc_ne_NULL _ _ _ _ Hf ltac:(done)) as Hn. destruct (foc_tree _ _ _ _ Hf) as (Hx & _).
  simpl in *. rb_cond. rb_run. by destruct col.
Qed.

(** ** Bounds: the store holds every node of the tree *)

Lemma rep_dom h p t z : rep h p t → z ∈ locs t → z ∈ dom h.
Proof.
  revert p. induction t as [|col l IHl x k r IHr]; intros p; [by intros _ []%not_elem_of_nil|].
  simpl. intros (Hx & Hl & Hr). rewrite elem_of_cons, elem_of_app. intros [->|[?|?]]; eauto.
  by apply elem_of_dom_2 in Hx.
Qed.
Lemma repc_dom h q c z : repc h q c → z ∈ clocs c → z ∈ dom h.
Proof.
  revert q. induction c as [|f c IH]; intros q; [by intros _ []%not_elem_of_nil|].
  rewrite repc_cons, clocs_cons, elem_of_app. intros (Hx & Hf & Hc) [Hz|Hz]; [|by eauto].
  destruct f; simpl in *; rewrite elem_of_cons in Hz; destruct Hz as [->|Hz];
    solve [by eapply elem_of_dom_2 | by eapply rep_dom].
Qed.

Lemma foc_size F s c t : foc F s c t → length (locs t ++ clocs c) ≤ size (heap s).
Proof.
  intros [_ Ht Hc Hnd _ _]. rewrite <- size_dom.
  transitivity (size (list_to_set (C := gset ptr) (locs t ++ clocs c))).
  - by rewrite size_list_to_set.
  - apply subseteq_size. intros z. rewrite elem_of_list_to_set, elem_of_app.
    intros [?|?]; eauto using rep_dom, repc_dom.
Qed.

Lemma length_clocs c : length c ≤ length (clocs c).
Proof.
  induction c as [|f c IH]; [done|]. rewrite clocs_cons, length_app. simpl.
  destruct f; simpl; lia.
Qed.
Lemma depth_locs t : depth t ≤ length (locs t).
Proof. induction t; simpl; [lia|]. rewrite length_app. lia. Qed.

Lemma foc_ctx_size F s c t : foc F s c t → length c ≤ size (heap s).
Proof.
  intros Hf. pose proof (foc_size _ _ _ _ Hf) as Hs. rewrite length_app in Hs.
  pose proof (length_clocs c). lia.
Qed.
Lemma foc_depth F s c t : foc F s c t → depth t ≤ size (heap s).
Proof.
  intros Hf. pose proof (foc_size _ _ _ _ Hf) as Hs. rewrite length_app in Hs.
  pose proof (depth_locs t). lia.
Qed.

(** ** Linking a new node *)
Lemma wp_rb_link F s c elm ne comp (Q : unit → rb_state K → Prop) :
  foc F s c E → heap s !! elm = Some ne → elm ≠ NULL → elm ∉ clocs c →
  match c with [] => True | FL _ _ _ _ :: _ => (comp < 0)%Z | FR _ _ _ _ :: _ => (0 < comp)%Z end →
  (∀ s', foc F s' c (T Red E elm (val ne) E) → Q tt s') →
  wp (rb_link elm (par c) comp) s Q.
Proof.
  intros [Hroot _ Hc Hnd Hnull Hfr] He He0 Hin Hcomp HQ. simpl in Hnd, Hnull, Hfr.
  assert (∀ s1, rbh_root s1 = (if (par c =? NULL)%N then elm else rbh_root s) →
    heap s1 !! elm = Some (mk_node (val ne) (mk_entry NULL NULL (par c) RB_RED)) →
    (c ≠ [] → heap s1 !! par c = cnode c elm) →
    (∀ z, z ∉ elm :: opar c → heap s1 !! z = heap s !! z) → Q tt s1) as Hend.
  { intros s1 Hr Hx Hp Hz. apply HQ. split; simpl; [|done| | | |].
    - rewrite Hr. destruct c as [|f c]; [done|].
      rewrite neqb_par by set_solver. rewrite Hroot. by apply (root_plug (f :: c)).
    - eapply (repc_rehole_ext (heap s)); try done. intros z Hzc Hzp. apply Hz.
      apply not_elem_of_cons. split; [by intros ->|].
      destruct c; simpl in *; [apply not_elem_of_nil|by rewrite list_elem_of_singleton].
    - by apply NoDup_cons.
    - apply not_elem_of_cons. split; [|done]. by apply not_eq_sym.
    - intros p [? Hpc]%not_elem_of_cons. rewrite <- Hfr by done. apply Hz.
      apply not_elem_of_cons. split; [done|]. by intros ?%opar_in. }
  clear HQ. unfold rb_link, RB_SET.
  destruct c as [|f c]; [rb_run; rot_finish Hend|].
  assert (floc f ≠ NULL ∧ floc f ≠ elm) as [Hf0 Hfe].
  { pose proof (floc_in_flocs f) as Hff. rewrite clocs_cons in Hnull, Hin. split; intros Heq; rewrite Heq in Hff;
      [apply Hnull|apply Hin]; apply elem_of_app; by left. }
  apply repc_cons in Hc as (Hc & _).
  destruct f; simpl in *;
    [rewrite (proj2 (Z.ltb_lt comp 0)) by done|rewrite (proj2 (Z.ltb_ge comp 0)) by lia]; rb_run;
    rot_finish Hend.
Qed.
End specs.

(** [foc_facts H]: the lookups and disequalities a focused tree gives. *)
Ltac foc_facts H :=
  pose proof (foc_tree _ _ _ _ H); pose proof (foc_ctx _ _ _ _ H);
  simpl in *; destruct_and?.
