(* ===== verification/RbOrder.v ===== *)
(** * Red-black trees of [uv/tree.h]: the order of the keys

    The contract of the comparison function, sorted sequences of elements,
    and the abstract operations on them that the tree operations refine:
    insertion into a sorted sequence, lookup, and lookup of the first element
    not below a key. *)
From S2P Require Import Prelude RbTree RbRep.
From stdpp Require Import sorting.

(** What tree.h expects of [cmp]: the sign of [cmp a b] is a total preorder. *)
Class CmpOrder {K} (cmp : K → K → Z) : Prop := {
  cmp_sym a b : (cmp a b < 0 ↔ 0 < cmp b a)%Z;
  cmp_le_trans a b c : (cmp a b ≤ 0 → cmp b c ≤ 0 → cmp a c ≤ 0)%Z;
}.

#[export] Instance Zsub_order : CmpOrder Z.sub.
Proof. split; intros; lia. Qed.

Section order.
Context {K : Type} (cmp : K → K → Z) `{!CmpOrder cmp}.
Implicit Types (t : tree K) (l : list (ptr * K)) (k : K).

Lemma cmp_lt_trans a b c : (cmp a b < 0 → cmp b c < 0 → cmp a c < 0)%Z.
Proof.
  intros Hab Hbc. destruct (decide (cmp a c < 0)%Z) as [|Hac]; [done|].
  assert (cmp c a ≤ 0)%Z as Hca by (pose proof (cmp_sym c a); pose proof (cmp_sym a c); lia).
  pose proof (cmp_le_trans c a b Hca ltac:(lia)). pose proof (cmp_sym b c). lia.
Qed.
Lemma cmp_refl a : cmp a a = 0%Z.
Proof. pose proof (cmp_sym a a). lia. Qed.
Lemma cmp_eq_lt a b c : (cmp a b = 0 → cmp b c < 0 → cmp a c < 0)%Z.
Proof.
  intros Hab Hbc. destruct (decide (cmp a c < 0)%Z) as [|Hac]; [done|].
  assert (cmp c a ≤ 0)%Z as Hca by (pose proof (cmp_sym c a); pose proof (cmp_sym a c); lia).
  pose proof (cmp_le_trans c a b Hca ltac:(lia)). pose proof (cmp_sym b c). lia.
Qed.
Lemma cmp_lt_eq a b c : (cmp a b < 0 → cmp b c = 0 → cmp a c < 0)%Z.
Proof.
  intros Hab Hbc. destruct (decide (cmp a c < 0)%Z) as [|Hac]; [done|].
  assert (cmp c a ≤ 0)%Z as Hca by (pose proof (cmp_sym c a); pose proof (cmp_sym a c); lia).
  assert (cmp b c ≤ 0)%Z as Hbc' by lia. pose proof (cmp_le_trans b c a Hbc' Hca). pose proof (cmp_sym a b). lia.
Qed.
Lemma cmp_eq_sym a b : cmp a b = 0%Z → cmp b a = 0%Z.
Proof. pose proof (cmp_sym a b). pose proof (cmp_sym b a). lia. Qed.

(** Strictly increasing keys. *)
Definition key_lt (a b : ptr * K) : Prop := (cmp a.2 b.2 < 0)%Z.
Abbreviation sorted := (StronglySorted key_lt).
Definition bst t : Prop := sorted (inorder t).

(** ** Abstract operations on the sequence of elements *)

(** Insertion before the first larger element. *)
Fixpoint insert_sorted (e : ptr * K) l : list (ptr * K) :=
  match l with
  | [] => [e]
  | a :: l' => if (cmp e.2 a.2 <? 0)%Z then e :: l else a :: insert_sorted e l'
  end.
(** The element with an equal key, and the first one not below. *)
Definition find_key k l : option (ptr * K) := head (filter (λ a, cmp k a.2 = 0%Z) l).
Definition find_geq k l : option (ptr * K) := head (filter (λ a, (cmp k a.2 ≤ 0)%Z) l).
Definition ptr_of (o : option (ptr * K)) : ptr := from_option fst NULL o.

Lemma insert_sorted_cons e a l :
  insert_sorted e (a :: l) = if (cmp e.2 a.2 <? 0)%Z then e :: a :: l else a :: insert_sorted e l.
Proof. done. Qed.

Lemma insert_sorted_app e l1 l2 :
  Forall (λ a, (0 < cmp e.2 a.2)%Z) l1 → Forall (λ a, (cmp e.2 a.2 < 0)%Z) l2 →
  insert_sorted e (l1 ++ l2) = l1 ++ e :: l2.
Proof.
  intros H1 H2. induction H1 as [|a l1 Ha H1 IH]; simpl app.
  - destruct H2 as [|a l2 Ha H2]; [done|]. rewrite insert_sorted_cons.
    by rewrite (proj2 (Z.ltb_lt _ _) Ha).
  - rewrite insert_sorted_cons, IH. simpl in Ha. destruct (Z.ltb_spec (cmp e.2 a.2) 0); [lia|done].
Qed.

(** Inserting a new key keeps the sequence sorted. *)
Lemma insert_sorted_sorted e l :
  sorted l → Forall (λ a, cmp e.2 a.2 ≠ 0%Z) l → sorted (insert_sorted e l).
Proof.
  intros Hl Hne. induction Hl as [|a l Hl IH Ha]; [by repeat constructor|].
  rewrite insert_sorted_cons.
  inversion Hne as [|?? Hae Hne']; subst. destruct (Z.ltb_spec (cmp e.2 a.2) 0) as [Hlt|Hge].
  - constructor; [by constructor|]. constructor; [done|].
    eapply Forall_impl; [exact Ha|]. intros b Hb. by eapply cmp_lt_trans.
  - constructor; [by apply IH|]. clear IH Hne'.
    assert (key_lt a e) as Hlt by (unfold key_lt; pose proof (cmp_sym a.2 e.2); lia).
    clear Hae Hge Hl Hne. induction Ha as [|b l Hb Ha IH]; [by repeat constructor|].
    rewrite insert_sorted_cons.
    destruct (cmp e.2 b.2 <? 0)%Z; by repeat constructor.
Qed.

Lemma insert_sorted_perm e l : insert_sorted e l ≡ₚ e :: l.
Proof.
  induction l as [|a l IH]; [done|]. rewrite insert_sorted_cons.
  destruct (cmp e.2 a.2 <? 0)%Z; [done|]. rewrite IH. apply Permutation_swap.
Qed.

(** Around a focus, the elements before a key and those after it. *)
Definition below k l : Prop := Forall (λ a, (0 < cmp k a.2)%Z) l.
Definition above k l : Prop := Forall (λ a, (cmp k a.2 < 0)%Z) l.

Lemma below_before k a l : sorted (l ++ [a]) → (0 < cmp k a.2)%Z → below k (l ++ [a]).
Proof.
  intros Hs Hk. apply Forall_app. split; [|by repeat constructor].
  apply Forall_forall. intros b Hb.
  assert (key_lt b a) as Hba by (eapply StronglySorted_app_1_elem_of; [exact Hs|done|by left]).
  unfold key_lt in Hba. pose proof (cmp_sym a.2 k). pose proof (cmp_sym b.2 k).
  enough (cmp b.2 k < 0)%Z by lia. eapply cmp_lt_trans; [exact Hba|]. lia.
Qed.
Lemma above_after k a l : sorted (a :: l) → (cmp k a.2 < 0)%Z → above k (a :: l).
Proof.
  intros Hs Hk. apply StronglySorted_cons in Hs as [Hal Hs]. constructor; [done|].
  eapply Forall_impl; [exact Hal|]. intros b Hb. by eapply cmp_lt_trans.
Qed.

(** An element with an equal key splits the sequence at the key. *)
Lemma sorted_equal_split k l1 a l2 :
  sorted (l1 ++ a :: l2) → cmp k a.2 = 0%Z → below k l1 ∧ above k l2.
Proof.
  intros Hs Hk. split; apply Forall_forall; intros b Hb.
  - assert (key_lt b a) as Hba by (eapply StronglySorted_app_1_elem_of; [exact Hs|done|by left]).
    apply cmp_eq_sym in Hk. pose proof (cmp_lt_eq _ _ _ Hba Hk). pose proof (cmp_sym b.2 k). lia.
  - apply StronglySorted_app_1_r, StronglySorted_cons in Hs as [Hs _].
    rewrite Forall_forall in Hs. by eapply cmp_eq_lt, Hs.
Qed.

Lemma filter_none (P : ptr * K → Prop) `{!∀ a, Decision (P a)} l :
  Forall (λ a, ¬ P a) l → filter P l = [].
Proof. induction 1; [done|]. by rewrite filter_cons_False. Qed.
Lemma filter_all (P : ptr * K → Prop) `{!∀ a, Decision (P a)} l :
  Forall P l → filter P l = l.
Proof. induction 1 as [|a l Ha Hl IH]; [done|]. by rewrite filter_cons_True, IH. Qed.

Lemma find_key_mid k l1 a l2 : below k l1 → cmp k a.2 = 0%Z → find_key k (l1 ++ a :: l2) = Some a.
Proof.
  intros H1 Ha. unfold find_key. rewrite filter_app, (filter_none _ l1).
  - by rewrite filter_cons_True.
  - eapply Forall_impl; [exact H1|]. intros b; simpl; lia.
Qed.
Lemma find_key_none k l1 l2 : below k l1 → above k l2 → find_key k (l1 ++ l2) = None.
Proof.
  intros H1 H2. unfold find_key. rewrite filter_none; [done|].
  apply Forall_app; split; [eapply Forall_impl; [exact H1|]|eapply Forall_impl; [exact H2|]];
    intros b; simpl; lia.
Qed.
Lemma find_geq_mid k l1 l2 : below k l1 → Forall (λ a, (cmp k a.2 ≤ 0)%Z) l2 → find_geq k (l1 ++ l2) = head l2.
Proof.
  intros H1 H2. unfold find_geq. rewrite filter_app, (filter_none _ l1), (filter_all _ l2); [done..|].
  eapply Forall_impl; [exact H1|]. intros b; simpl; lia.
Qed.
End order.
Abbreviation sorted cmp := (StronglySorted (key_lt cmp)).
