(* ===== verification/RbSplice.v ===== *)
(** * Red-black trees of [uv/tree.h]: taking a node out

    The walks to the outermost node of a subtree, the splice that takes out a
    node with at most one child, and the replacement of a node by its
    successor: the pointer surgery of RB_REMOVE before any rebalancing. *)
From S2P Require Import Prelude RbTree RbRep.

Section splice.
Context {K : Type}.
Implicit Types (F : gmap ptr (node K)) (s : rb_state K) (t : tree K) (c : ctx K).

(** ** Positions in a tree *)

Lemma before_app c1 c2 : before (c1 ++ c2) = before c2 ++ @before K c1.
Proof.
  induction c1 as [|f c1 IH]; simpl; [by rewrite app_nil_r|]. by rewrite IH, <- app_assoc.
Qed.
Lemma after_app c1 c2 : after (c1 ++ c2) = @after K c1 ++ after c2.
Proof. induction c1 as [|f c1 IH]; simpl; [done|]. by rewrite IH, <- app_assoc. Qed.

(** Every element of the sequence is the root of some focus. *)
Lemma focus_at t l1 p k l2 :
  inorder t = l1 ++ (p, k) :: l2 →
  ∃ c col l r, t = plug c (T col l p k r) ∧ l1 = before c ++ inorder l ∧ l2 = inorder r ++ after c.
Proof.
  revert l1 l2. induction t as [|col l IHl x kx r IHr]; intros l1 l2 Ht; simpl in Ht.
  { by destruct l1. }
  destruct (app_eq_inv _ _ _ _ Ht) as [(m & Hl & Hm)|(m & -> & Hm)].
  - destruct m as [|[p' k'] m]; simpl in Hm; injection Hm as <- <- ->.
    + exists [], col, l, r. simpl. rewrite !app_nil_r in *. by subst.
    + destruct (IHl _ _ Hl) as (c & col' & l' & r' & -> & -> & ->).
      exists (c ++ [FL col x kx r]), col', l', r'. rewrite plug_app, before_app, after_app. simpl.
      split_and!; try done. by rewrite app_nil_r, <- app_assoc.
  - destruct m as [|[p' k'] m]; simpl in Hm; injection Hm as <- <- Hr.
    + exists [], col, l, r. simpl. by rewrite !app_nil_r.
    + destruct (IHr _ _ Hr) as (c & col' & l' & r' & -> & -> & ->).
      exists (c ++ [FR col l x kx]), col', l', r'. rewrite plug_app, before_app, after_app. simpl.
      split_and!; [done| |by rewrite app_nil_r]. by rewrite <- !app_assoc.
Qed.

(** ** The walks down to the outermost node *)

Lemma rb_leftmost_ok F fuel s c t :
  depth t ≤ fuel → foc F s c t → t ≠ E →
  wp (rb_leftmost fuel (root t)) s (λ p s', s' = s ∧
    ∃ cL col k r, t = plug cL (T col E p k r) ∧ before cL = []).
Proof.
  revert c t. induction fuel as [|fuel IH]; intros c t Hd Hf Ht;
    (destruct t as [|col l x k r]; [done|]); simpl in Hd; [lia|].
  simpl. foc_facts Hf. rb_read. destruct l as [|lc ll lx lk lr].
  - rb_read. split; [done|]. by exists [], col, k, r.
  - pose proof (foc_ne_NULL F s (FL col x k r :: c) _ (proj2 (foc_fill F s (FL col x k r) c _) Hf) ltac:(done)) as Hn.
    simpl in Hn. simpl. rb_read.
    eapply wp_mono; [eapply (IH (FL col x k r :: c) (T lc ll lx lk lr)); [simpl in *; lia|by apply foc_fill|done]|].
    intros p s' [-> (cL & col' & k' & r' & Heq & Hb)]. split; [done|].
    exists (cL ++ [FL col x k r]), col', k', r'. by rewrite plug_app, before_app, Hb, Heq.
Qed.

Lemma rb_rightmost_ok F fuel s c t :
  depth t ≤ fuel → foc F s c t → t ≠ E →
  wp (rb_rightmost fuel (root t)) s (λ p s', s' = s ∧
    ∃ cR col l k, t = plug cR (T col l p k E) ∧ after cR = []).
Proof.
  revert c t. induction fuel as [|fuel IH]; intros c t Hd Hf Ht;
    (destruct t as [|col l x k r]; [done|]); simpl in Hd; [lia|].
  simpl. foc_facts Hf. rb_read. destruct r as [|rc rl rx rk rr].
  - rb_read. split; [done|]. by exists [], col, l, k.
  - pose proof (foc_ne_NULL F s (FR col l x k :: c) _ (proj2 (foc_fill F s (FR col l x k) c _) Hf) ltac:(done)) as Hn.
    simpl in Hn. simpl. rb_read.
    eapply wp_mono; [eapply (IH (FR col l x k :: c) (T rc rl rx rk rr)); [simpl in *; lia|by apply foc_fill|done]|].
    intros p s' [-> (cR & col' & l' & k' & Heq & Hb)]. split; [done|].
    exists (cR ++ [FR col l x k]), col', l', k'. by rewrite plug_app, after_app, Hb, Heq.
Qed.

(** The climb of the augmentation hook reads parents only. *)
Lemma rb_augment_up_ok F fuel s c t :
  length c ≤ fuel → foc F s c t → c ≠ [] →
  wp (rb_augment_up fuel (par c)) s (λ _ s', s' = s).
Proof.
  revert c t. induction fuel as [|fuel IH]; intros c t Hl Hf Hc;
    (destruct c as [|f c]; [done|]); simpl in Hl; [lia|].
  simpl. destruct (proj1 (repc_cons _ _ _ _) (foc_ctx _ _ _ _ Hf)) as (Hx & _).
  rb_read. assert (rbe_parent (field (fnode f (root t) (par c))) = par c) as -> by by destruct f.
  destruct c as [|g c]; [by rb_read|].
  rewrite (neqb_par g c); [|].
  - eapply (IH (g :: c) (fill f t)); [simpl in *; lia|exact (proj1 (foc_fill F s f (g :: c) t) Hf)|done].
  - pose proof (foc_null _ _ _ _ Hf) as Hn. rewrite clocs_cons in Hn.
    rewrite !not_elem_of_app in Hn. naive_solver.
Qed.

(** ** The splice *)

Lemma wp_rb_splice F s c col l x k r ch (Q : unit → rb_state K → Prop) :
  foc F s c (T col l x k r) → (l = E ∧ ch = r ∨ r = E ∧ ch = l) →
  (∀ s', foc (<[x := mk_node k (mk_entry (root l) (root r) (par c) (code col))]> F) s' c ch → Q tt s') →
  wp (rb_splice x (root ch) (par c)) s Q.
Proof.
  intros Hfoc Hch HQ. pose proof Hfoc as [Hroot (Hx & Hl & Hr) Hc Hnd Hnull Hfr].
  assert (rep (heap s) x ch) as Hrch by (destruct Hch as [[-> ->]|[-> ->]]; done).
  assert (locs (T col l x k r) = x :: locs ch) as Hlocs.
  { simpl. destruct Hch as [[-> ->]|[-> ->]]; simpl; by rewrite ?app_nil_r. }
  rewrite Hlocs in Hnd, Hnull, Hfr. simpl in Hnd, Hnull, Hfr.
  apply NoDup_cons in Hnd as [Hxin Hnd]. apply not_elem_of_cons in Hnull as [Hx0 Hnull].
  pose proof (proj1 (NoDup_app _ _) Hnd) as (Hndch & Hdis & Hndc).
  rewrite not_elem_of_app in Hxin. destruct Hxin as [Hxch Hxc].
  assert (∀ s1, rbh_root s1 = (if (par c =? NULL)%N then root ch else rbh_root s) →
    (ch ≠ E → heap s1 !! root ch = tnode ch (par c)) →
    (c ≠ [] → heap s1 !! par c = cnode c (root ch)) →
    (∀ z, z ∉ oroot ch ++ opar c → heap s1 !! z = heap s !! z) → Q tt s1) as Hend.
  { intros s1 Hr1 Ht1 Hp1 Hz1. apply HQ.
    assert (∀ z, z ∈ oroot ch → z = root ch) as Hor
      by (destruct ch; simpl; [by intros ? []%not_elem_of_nil|by intros ? ->%list_elem_of_singleton]).
    assert (∀ z, z ∈ opar c → z = par c) as Hop
      by (destruct c; simpl; [by intros ? []%not_elem_of_nil|by intros ? ->%list_elem_of_singleton]).
    split; [|..|done|done|].
    - rewrite Hr1. destruct c as [|f c]; [done|]. rewrite not_elem_of_app in Hnull.
      rewrite neqb_par by apply Hnull. rewrite Hroot. by apply (root_plug (f :: c)).
    - eapply (rep_reparent_ext (heap s)); try done. intros z Hzi Hzn. apply Hz1.
      rewrite not_elem_of_app. split; [by intros ?%Hor|]. intros ?%opar_in. by apply (Hdis z).
    - eapply (repc_rehole_ext (heap s)); try done. intros z Hzi Hzn. apply Hz1.
      rewrite not_elem_of_app. split; [|by intros ?%Hop]. intros ?%oroot_in. by apply (Hdis z).
    - intros p Hp. rewrite Hz1.
      2:{ rewrite not_elem_of_app in *. destruct Hp as [??]. split; [by intros ?%oroot_in|by intros ?%opar_in]. }
      destruct (decide (p = x)) as [->|Hpx]; [by rewrite lookup_insert_eq|].
      rewrite lookup_insert_ne by done. apply Hfr. by apply not_elem_of_cons. }
  assert (∀ f c', c = f :: c' → root (fsib f) ≠ x) as Hsib.
  { intros f c' ->. by eapply (foc_sib_ne F s f c' (T col l x k r)). }
  assert (c ≠ [] → par c ≠ NULL ∧ (ch ≠ E → root ch ≠ par c)) as Hcn.
  { intros Hc0. pose proof (par_in c Hc0) as Hi. split.
    - intros Hp. rewrite Hp in Hi. apply Hnull, elem_of_app. by right.
    - intros Hch0 Heq. apply (Hdis (root ch)); [by apply root_in|by rewrite Heq]. }
  assert (ch ≠ E → root ch ≠ NULL) as Hch0.
  { intros Hch0 Heq. apply Hnull, elem_of_app. left. rewrite <- Heq. by apply root_in. }
  clear HQ Hfoc Hroot Hnd Hnull Hfr Hlocs Hndch Hdis Hndc Hxch Hxc Hx0 Hx Hl Hr Hch.
  unfold rb_splice.
  (destruct ch as [|cc cl cx ck cr]; [clear Hrch Hch0|specialize (Hch0 ltac:(done)); destruct Hrch as (Hrch & _)]);
    (destruct c as [|f c]; [clear Hc Hsib Hcn|destruct (Hcn ltac:(done)) as [Hp0 Hcp]; clear Hcn;
       pose proof (Hsib _ _ eq_refl); apply repc_cons in Hc as (Hc & _); destruct f; simpl in Hc;
       try specialize (Hcp ltac:(done))]);
    simpl in *; rb_run; rot_finish Hend.
Qed.

(** ** The replacement *)

Lemma oroot_root z t : z ∈ oroot t → z = root t.
Proof. destruct t; simpl; [by intros []%not_elem_of_nil|by intros ->%list_elem_of_singleton]. Qed.
Lemma opar_par z c : z ∈ opar c → z = par c.
Proof. destruct c; simpl; [by intros []%not_elem_of_nil|by intros ->%list_elem_of_singleton]. Qed.
(** The tree with [e] in the place of [x]: the neighbours point to [e], and
    nothing else changed. *)
Lemma foc_replaced F s s1 c col l x k r e v :
  foc F s c (T col l x k r) → e ≠ NULL → e ∉ locs (T col l x k r) ++ clocs c →
  rbh_root s1 = (if (par c =? NULL)%N then e else rbh_root s) →
  heap s1 !! e = Some (mk_node v (mk_entry (root l) (root r) (par c) (code col))) →
  (l ≠ E → heap s1 !! root l = tnode l e) → (r ≠ E → heap s1 !! root r = tnode r e) →
  (c ≠ [] → heap s1 !! par c = cnode c e) →
  (∀ z, z ∉ e :: oroot l ++ oroot r ++ opar c → heap s1 !! z = heap s !! z) →
  foc (<[x := mk_node k (mk_entry (root l) (root r) (par c) (code col))]> F) s1 c (T col l e v r).
Proof.
  intros [Hroot (Hx & Hl & Hr) Hc Hnd Hnull Hfr] He0 Hein Hr1 He1 Hrl1 Hrr1 Hp1 Hz1. simpl in Hnd, Hnull, Hfr, Hein.
  apply NoDup_cons in Hnd as [Hxin Hnd]. apply not_elem_of_cons in Hnull as [Hx0 Hnull]. apply not_elem_of_cons in Hein as [Hex Hein].
  pose proof (proj1 (NoDup_app _ _) Hnd) as (Hndt & Hdis & Hndc). pose proof (proj1 (NoDup_app _ _) Hndt) as (Hndl & Hdlr & Hndr).
  setoid_rewrite not_elem_of_cons in Hz1. setoid_rewrite not_elem_of_app in Hz1. setoid_rewrite not_elem_of_app in Hz1.
  setoid_rewrite elem_of_app in Hdis. rewrite !not_elem_of_app in Hxin, Hein, Hnull.
  destruct Hxin as ((? & ?) & ?), Hein as ((? & ?) & ?), Hnull as ((? & ?) & Hnc).
  split; simpl.
  - rewrite Hr1. destruct c as [|f c]; [done|]. rewrite neqb_par by done. rewrite Hroot. by apply (root_plug (f :: c)).
  - split; [done|]. split; (eapply (rep_reparent_ext (heap s)); [done|done| |done]);
      intros z Hzi Hzn; apply Hz1; (split; [by intros ->|]).
    + split_and!; [by intros ?%oroot_root|by intros ?%oroot_in; apply (Hdlr z)|]. intros ?%opar_in. apply (Hdis z); auto.
    + split_and!; [by intros ?%oroot_in; apply (Hdlr z)|by intros ?%oroot_root|]. intros ?%opar_in. apply (Hdis z); auto.
  - eapply (repc_rehole_ext (heap s)); try done. intros z Hzi Hzn. apply Hz1.
    split_and!; [by intros ->|intros ?%oroot_in; apply (Hdis z); auto|intros ?%oroot_in; apply (Hdis z); auto|by intros ?%opar_par].
  - apply NoDup_cons. split; [|done]. rewrite !not_elem_of_app. auto.
  - apply not_elem_of_cons. rewrite !not_elem_of_app. auto.
  - intros p [Hpe Hp]%not_elem_of_cons. rewrite !not_elem_of_app in Hp. destruct Hp as ((? & ?) & ?).
    rewrite Hz1 by (split_and!; [done|by intros ?%oroot_in|by intros ?%oroot_in|by intros ?%opar_in]).
    destruct (decide (p = x)) as [->|Hpx]; [by rewrite lookup_insert_eq|].
    rewrite lookup_insert_ne by done. apply Hfr. rewrite not_elem_of_cons, !not_elem_of_app. auto.
Qed.

Lemma wp_rb_replace F s c col l x k r e ne (Q : unit → rb_state K → Prop) :
  foc F s c (T col l x k r) → l ≠ E → heap s !! e = Some ne → e ≠ NULL →
  e ∉ locs (T col l x k r) ++ clocs c →
  (∀ s', foc (<[x := mk_node k (mk_entry (root l) (root r) (par c) (code col))]> F) s' c
             (T col l e (val ne) r) → Q tt s') →
  wp (rb_replace e x) s Q.
Proof.
  intros Hfoc Hl0 He He0 Hein HQ. pose proof Hfoc as [Hroot (Hx & Hl & Hr) Hc Hnd Hnull Hfr].
  pose proof (λ s1 H1 H2 H3 H4 H5 H6, HQ s1 (foc_replaced F s s1 c col l x k r e (val ne) Hfoc He0 Hein H1 H2 H3 H4 H5 H6)) as Hend. simpl in Hnd, Hnull, Hein.
  apply NoDup_cons in Hnd as [Hxin Hnd]. apply not_elem_of_cons in Hnull as [Hx0 Hnull]. apply not_elem_of_cons in Hein as [Hex Hein].
  pose proof (proj1 (NoDup_app _ _) Hnd) as (Hndt & Hdis & _). pose proof (proj1 (NoDup_app _ _) Hndt) as (_ & Hdlr & _).
  assert (∀ f c', c = f :: c' → root (fsib f) ≠ x) as Hsib.
  { intros f c' ->. by eapply (foc_sib_ne F s f c' (T col l x k r)). }
  assert (∀ z, z ∈ (locs l ++ locs r) ++ clocs c → z ≠ NULL ∧ z ≠ x ∧ z ≠ e) as Hne by (intros z Hz; split_and!; by intros ->).
  assert (c ≠ [] → par c ≠ NULL ∧ par c ≠ x ∧ par c ≠ e) as Hcn by (intros Hc0; apply Hne, elem_of_app; right; by apply par_in).
  assert (∀ t, t ≠ E → (∀ z, z ∈ locs t → z ∈ locs l ++ locs r) → (root t ≠ NULL ∧ root t ≠ x ∧ root t ≠ e) ∧ (c ≠ [] → root t ≠ par c)) as Htn.
  { intros t Ht Hsub. specialize (Hsub _ (root_in t Ht)). split; [apply Hne, elem_of_app; by left|].
    intros Hc0 Heq. apply (Hdis (root t)); [done|]. rewrite Heq. by apply par_in. }
  assert (r ≠ E → root l ≠ root r) as Hlr.
  { intros Hr0 Heq. apply (Hdlr (root l)); [by apply root_in|]. rewrite Heq. by apply root_in. }
  destruct (Htn l Hl0) as [(? & ? & ?) Hlc]; [intros z Hz; apply elem_of_app; by left|].
  assert (r ≠ E → (root r ≠ NULL ∧ root r ≠ x ∧ root r ≠ e) ∧ (c ≠ [] → root r ≠ par c)) as Hrn
    by (intros Hr0; apply (Htn r Hr0); intros z Hz; apply elem_of_app; by right).
  clear Htn Hne Hxin Hnd Hnull Hein Hndt Hdis Hdlr Hfr HQ Hfoc Hroot. unfold rb_replace.
  destruct l as [|lc ll lx lk lr]; [done|]; destruct Hl as (Hl & _).
  (destruct r as [|rc rl rx rk rr]; [clear Hr Hrn Hlr|
     destruct (Hrn ltac:(done)) as [(? & ? & ?) Hrc]; specialize (Hlr ltac:(done)); destruct Hr as (Hr & _)]);
  (destruct c as [|f c]; [clear Hlc Hsib Hcn Hc|
     destruct (Hcn ltac:(done)) as (? & ? & ?); specialize (Hlc ltac:(done)); try specialize (Hrc ltac:(done));
     pose proof (Hsib _ _ eq_refl); apply repc_cons in Hc as (Hc & _); destruct f; simpl in Hc]);
  simpl in *; rb_run; rot_finish Hend.
Qed.
End splice.
