(* ===== verification/RbInsert.v ===== *)
(** * Red-black trees of [uv/tree.h]: insertion

    The balance invariant of a red-black tree and of a tree with a hole, and
    the correctness of RB_INSERT_COLOR and RB_INSERT: total correctness,
    preservation of the balance invariant, and the effect on the sorted
    sequence of elements. *)
From S2P Require Import Prelude RbTree RbRep RbOrder.
From stdpp Require Import sorting.

Ltac inorder_eq := simpl; repeat (rewrite <- !app_assoc; simpl); done.

Section balance.
Context {K : Type}.
Implicit Types (t : tree K) (c : ctx K) (n : nat).

(** [rbt col n t]: no red node has a red child, every path has [n] black
    nodes, and the root is [col]. *)
Inductive rbt : color → nat → tree K → Prop :=
  | rbt_E : rbt Black 0 E
  | rbt_R n l x k r : rbt Black n l → rbt Black n r → rbt Red n (T Red l x k r)
  | rbt_B n cl cr l x k r : rbt cl n l → rbt cr n r → rbt Black (S n) (T Black l x k r).

(** [rbc pc n c]: the context is balanced if its hole is filled with a tree
    of black height [n], black when [pc] is [Red].  The root is black, so
    the empty context counts as [Red]. *)
Inductive rbc : color → nat → ctx K → Prop :=
  | rbc_nil n : rbc Red n []
  | rbc_R n f c : frame_color f = Red → rbt Black n (fsib f) → rbc Black n c → rbc Red n (f :: c)
  | rbc_B n cs pc f c : frame_color f = Black → rbt cs n (fsib f) → rbc pc (S n) c → rbc Black n (f :: c).


#[local] Hint Constructors rbt rbc : core.

Lemma rbt_tcolor col n t : rbt col n t → tcolor t = col.
Proof. by destruct 1. Qed.

Lemma rbt_plug pc n c tc t :
  rbc pc n c → rbt tc n t → (pc = Red → tc = Black) → ∃ m, rbt Black m (plug c t).
Proof.
  intros Hc. revert tc t. induction Hc as [n|n f c Hf Hs Hc IH|n cs pc f c Hf Hs Hc IH];
    intros tc t Ht Hpc.
  - rewrite (Hpc eq_refl) in Ht. by exists n.
  - rewrite (Hpc eq_refl) in Ht. apply (IH Red (fill f t)); [|done].
    destruct f; simpl in *; subst; auto.
  - apply (IH Black (fill f t)); [|done]. destruct f; simpl in *; subst; eauto.
Qed.

Lemma plug_ne_E c t : t ≠ E → plug c t ≠ E.
Proof. revert t. induction c as [|f c IH]; intros t Ht; [done|]. apply IH. by destruct f. Qed.

Definition blacken t : tree K :=
  match t with E => E | T _ l x k r => T Black l x k r end.

Lemma inorder_blacken t : inorder (blacken t) = inorder t.
Proof. by destruct t. Qed.
Lemma blacken_Black n t : rbt Black n t → blacken t = t.
Proof. by inversion 1. Qed.
End balance.

#[export] Hint Constructors rbt rbc : rb.

Section insert_color.
Context {K : Type}.
Implicit Types (F : gmap ptr (node K)) (s : rb_state K) (t : tree K) (c : ctx K).

(** What the loop leaves behind: a tree with the same elements that is
    balanced once its root is black. *)
Definition fixed F (els : list (ptr * K)) s : Prop :=
  ∃ t n, Rep F s t ∧ t ≠ E ∧ inorder t = els ∧ rbt Black n (blacken t).

(** The iterations that continue above a recoloured grandparent, and the one
    that ends below a rotated one, resume the loop on a tree with the same
    elements. *)
Lemma wp_fixed_eq F (m : ST (rb_state K) unit) s els els' :
  els = els' → wp m s (λ _ s', fixed F els s') → wp m s (λ _ s', fixed F els' s').
Proof. by intros ->. Qed.

Lemma inorder_plug_eq c t t' : inorder t = inorder t' → inorder (plug c t) = inorder (plug c t').
Proof. intros H. by rewrite !inorder_plug, H. Qed.

(** The loop of one iteration less, assumed correct while we treat one
    iteration. *)
Definition loop_ok F fuel : Prop := ∀ s c l x k r n pc,
  length c < fuel →
  foc F s c (T Red l x k r) → rbt Black n l → rbt Black n r → rbc pc n c →
  wp (rb_insert_color_loop fuel x) s
     (λ _ s', fixed F (inorder (plug c (T Red l x k r))) s').

(** Red uncle on the right, then on the left: recolour and go on from the
    grandparent. *)
Lemma recolor_right_ok F fuel s c pl p kp pr g kg ul u ku ur n pc :
  loop_ok F fuel → length c < fuel →
  foc F s c (T Black (T Red pl p kp pr) g kg (T Red ul u ku ur)) →
  rbt Red n (T Red ul u ku ur) → rbt Black (S n) (T Black pl p kp pr) → rbc pc (S n) c →
  wp (set_RB_COLOR u RB_BLACK) s (λ _ s, wp (RB_SET_BLACKRED p g;; rb_insert_color_loop fuel g) s
     (λ _ s', fixed F (inorder (plug c (T Black (T Red pl p kp pr) g kg (T Red ul u ku ur)))) s')).
Proof.
  intros IH Hlen Hf Hu Hp Hc. inversion Hu; subst.
  eapply (wp_recolor_in F s [FR Black (T Red pl p kp pr) g kg] c Black); [exact Hf|].
  intros s1 Hs1. rb_read.
  eapply (wp_recolor_in F s1 [FL Black g kg (T Black ul u ku ur)] c Black); [exact Hs1|].
  intros s2 Hs2. eapply (wp_recolor F s2 c _ Red); [exact Hs2|]. intros s3 Hs3.
  eapply wp_fixed_eq; [|eapply (IH s3 c); eauto with rb]. by apply inorder_plug_eq.
Qed.

Lemma recolor_left_ok F fuel s c pl p kp pr g kg ul u ku ur n pc :
  loop_ok F fuel → length c < fuel →
  foc F s c (T Black (T Red ul u ku ur) g kg (T Red pl p kp pr)) →
  rbt Red n (T Red ul u ku ur) → rbt Black (S n) (T Black pl p kp pr) → rbc pc (S n) c →
  wp (set_RB_COLOR u RB_BLACK) s (λ _ s, wp (RB_SET_BLACKRED p g;; rb_insert_color_loop fuel g) s
     (λ _ s', fixed F (inorder (plug c (T Black (T Red ul u ku ur) g kg (T Red pl p kp pr)))) s')).
Proof.
  intros IH Hlen Hf Hu Hp Hc. inversion Hu; subst.
  eapply (wp_recolor_in F s [FL Black g kg (T Red pl p kp pr)] c Black); [exact Hf|].
  intros s1 Hs1. rb_read.
  eapply (wp_recolor_in F s1 [FR Black (T Black ul u ku ur) g kg] c Black); [exact Hs1|].
  intros s2 Hs2. eapply (wp_recolor F s2 c _ Red); [exact Hs2|]. intros s3 Hs3.
  eapply wp_fixed_eq; [|eapply (IH s3 c); eauto with rb]. by apply inorder_plug_eq.
Qed.

(** Black uncle: rotate the grandparent away from the red pair. *)
Lemma rotate_right_ok F fuel s c els l x k r p kp sib g kg u n pc :
  inorder (plug c (T Black (T Red (T Red l x k r) p kp sib) g kg u)) = els →
  loop_ok F fuel → S (length c) < fuel →
  foc F s c (T Black (T Red (T Red l x k r) p kp sib) g kg u) →
  rbt Black n l → rbt Black n r → rbt Black n sib → rbt Black n u → rbc pc (S n) c →
  wp (set_RB_COLOR p RB_BLACK) s (λ _ s, wp (set_RB_COLOR g RB_RED) s (λ _ s,
    wp (RB_ROTATE_RIGHT g;; rb_insert_color_loop fuel x) s
     (λ _ s', fixed F els s'))).
Proof.
  intros <- IH Hlen Hf Hl Hr Hs Hu Hc.
  eapply (wp_recolor_in F s [FL Black g kg u] c Black); [exact Hf|]. intros s1 Hs1.
  eapply (wp_recolor F s1 c _ Red); [exact Hs1|]. intros s2 Hs2. rb_read.
  eapply (wp_ROTATE_RIGHT F s2 c); [exact Hs2|]. intros s3 Hs3.
  apply (foc_fill F s3 (FL Black p kp (T Red sib g kg u))) in Hs3.
  eapply wp_fixed_eq; [|eapply (IH s3 _ _ _ _ _ n Black); [|exact Hs3|done|done|]; [done|]].
  - simpl. apply inorder_plug_eq; inorder_eq.
  - eapply rbc_B; simpl; eauto with rb.
Qed.

Lemma rotate_left_ok F fuel s c els l x k r p kp sib g kg u n pc :
  inorder (plug c (T Black u g kg (T Red sib p kp (T Red l x k r)))) = els →
  loop_ok F fuel → S (length c) < fuel →
  foc F s c (T Black u g kg (T Red sib p kp (T Red l x k r))) →
  rbt Black n l → rbt Black n r → rbt Black n sib → rbt Black n u → rbc pc (S n) c →
  wp (set_RB_COLOR p RB_BLACK) s (λ _ s, wp (set_RB_COLOR g RB_RED) s (λ _ s,
    wp (RB_ROTATE_LEFT g;; rb_insert_color_loop fuel x) s
     (λ _ s', fixed F els s'))).
Proof.
  intros <- IH Hlen Hf Hl Hr Hs Hu Hc.
  eapply (wp_recolor_in F s [FR Black u g kg] c Black); [exact Hf|]. intros s1 Hs1.
  eapply (wp_recolor F s1 c _ Red); [exact Hs1|]. intros s2 Hs2. rb_read.
  eapply (wp_ROTATE_LEFT F s2 c); [exact Hs2|]. intros s3 Hs3.
  apply (foc_fill F s3 (FR Black (T Red u g kg sib) p kp)) in Hs3.
  eapply wp_fixed_eq; [|eapply (IH s3 _ _ _ _ _ n Black); [|exact Hs3|done|done|]; [done|]].
  - simpl. apply inorder_plug_eq; inorder_eq.
  - eapply rbc_B; simpl; eauto with rb.
Qed.

Lemma rbt_not_red cu n t : rbt cu n t → tcolor t ≠ Red → rbt Black n t.
Proof. intros H Hn. pose proof (rbt_tcolor _ _ _ H). destruct cu; [congruence|done]. Qed.

Lemma rb_insert_color_loop_ok F fuel : loop_ok F fuel.
Proof.
  induction fuel as [|fuel IH]; intros s c l x k r n pc Hfuel Hf Hl Hr Hc; [lia|].
  simpl. pose proof (foc_ne_NULL _ _ _ _ Hf ltac:(done)) as Hx0; simpl in Hx0.
  destruct Hc as [n|n f c Hfc Hs Hc|n cs pc f c Hfc Hs Hc].
  - (* root *)
    foc_facts Hf. rb_run. exists (T Red l x k r), (S n). split_and!; try done. simpl. eauto with rb.
  - (* red parent *)
    destruct c as [|g c]; [inversion Hc|]. inversion Hc as [| |? cu pc' ? ? Hgc Hu Hc']; subst.
    pose proof (proj1 (foc_fill F s f (g :: c) _) Hf) as Hff.
    pose proof (foc_ne_NULL _ _ _ _ Hff ltac:(by destruct f)) as Hp0.
    pose proof (foc_sib_ne _ _ _ _ _ Hff ltac:(by destruct f)) as Hpu.
    pose proof (foc_sib_ne _ _ _ _ _ Hf ltac:(done)) as Hxs.
    pose proof (proj1 (foc_fill F s g c _) Hff) as Hg.
    pose proof (foc_ne_NULL _ _ _ _ Hg ltac:(by destruct g)) as Hg0.
    destruct f as [fc p kp sib|fc sib p kp]; simpl in Hfc; subst fc;
    destruct g as [gc g kg u|gc u g kg]; simpl in Hgc; subst gc; simpl in *;
    foc_facts Hf; rb_read.
    + eapply (wp_nonnull_and_red F s [FR Black _ g kg] c u); [exact Hg|].
      case_bool_decide as Hu'; rb_read.
      * destruct u as [|[] ul ux uk ur]; try done. inversion Hu; subst. simpl.
        eapply recolor_right_ok; eauto with rb. lia.
      * eapply rotate_right_ok; eauto using rbt_not_red. lia.
    + eapply (wp_nonnull_and_red F s [FL Black g kg _] c u); [exact Hg|].
      case_bool_decide as Hu'; rb_read.
      * destruct u as [|[] ul ux uk ur]; try done. inversion Hu; subst. simpl.
        eapply recolor_left_ok; eauto with rb. lia.
      * eapply (wp_ROTATE_RIGHT_in F s [FR Black u g kg] c); [exact Hg|]. intros s1 Hs1. rb_read.
        eapply rotate_left_ok; eauto using rbt_not_red with rb; [|lia].
        apply inorder_plug_eq; inorder_eq.
    + eapply (wp_nonnull_and_red F s [FR Black _ g kg] c u); [exact Hg|].
      case_bool_decide as Hu'; rb_read.
      * destruct u as [|[] ul ux uk ur]; try done. inversion Hu; subst. simpl.
        eapply recolor_right_ok; eauto with rb. lia.
      * eapply (wp_ROTATE_LEFT_in F s [FL Black g kg u] c); [exact Hg|]. intros s1 Hs1. rb_read.
        eapply rotate_right_ok; eauto using rbt_not_red with rb; [|lia].
        apply inorder_plug_eq; inorder_eq.
    + eapply (wp_nonnull_and_red F s [FL Black g kg _] c u); [exact Hg|].
      case_bool_decide as Hu'; rb_read.
      * destruct u as [|[] ul ux uk ur]; try done. inversion Hu; subst. simpl.
        eapply recolor_left_ok; eauto with rb. lia.
      * eapply rotate_left_ok; eauto using rbt_not_red. lia.
  - (* black parent *)
    pose proof (foc_ne_NULL _ _ _ _ (proj1 (foc_fill F s f c _) Hf) ltac:(by destruct f)) as Hp0.
    pose proof (proj1 (foc_plug F s (f :: c) _) Hf) as Hrep.
    destruct (rbt_plug Black n (f :: c) Red (T Red l x k r)) as [m Hm]; [eauto with rb..|].
    destruct f as [fc p kp sib|fc sib p kp]; simpl in Hfc; subst fc; foc_facts Hf; rb_read;
      (eexists _, m; split_and!; [exact Hrep|by apply plug_ne_E|done|by erewrite blacken_Black]).
Qed.
End insert_color.

(** ** The descent of RB_INSERT *)
Section search.
Context {K : Type} (cmp : K → K → Z) `{!CmpOrder cmp}.
Implicit Types (F : gmap ptr (node K)) (s : rb_state K) (t : tree K) (c : ctx K).

(** The hole is the child that [comp] selects. *)
Definition comp_ok (comp : Z) c : Prop :=
  match c with
  | [] => True
  | FL _ _ _ _ :: _ => (comp < 0)%Z
  | FR _ _ _ _ :: _ => (0 < comp)%Z
  end.

(** The bounds that descending around key [k] maintains. *)
Definition between (k : K) c : Prop := below cmp k (before c) ∧ above cmp k (after c).

Lemma between_left k c col l x kx r :
  sorted cmp (inorder (plug c (T col l x kx r))) → between k c → (cmp k kx < 0)%Z →
  between k (FL col x kx r :: c).
Proof.
  rewrite inorder_plug. simpl. intros Hs [Hb Ha] Hk. split; simpl; [by rewrite app_nil_r|].
  rewrite <- app_assoc in Hs. simpl in Hs.
  apply StronglySorted_app_1_r, StronglySorted_app_1_r in Hs. by apply above_after.
Qed.
Lemma between_right k c col l x kx r :
  sorted cmp (inorder (plug c (T col l x kx r))) → between k c → (0 < cmp k kx)%Z →
  between k (FR col l x kx :: c).
Proof.
  rewrite inorder_plug. simpl. intros Hs [Hb Ha] Hk. split; simpl; [|done].
  rewrite app_assoc. apply below_before; [done| |done].
  rewrite <- app_assoc. replace (before c ++ (inorder l ++ (x, kx) :: inorder r) ++ after c)
    with ((before c ++ inorder l ++ [(x, kx)]) ++ inorder r ++ after c) in Hs
    by (rewrite <- !app_assoc; done).
  by eapply StronglySorted_app_1_l.
Qed.

Lemma rb_insert_search_ok F fuel s c t elm ne comp :
  depth t < fuel → foc F s c t → heap s !! elm = Some ne →
  sorted cmp (inorder (plug c t)) → between (val ne) c → comp_ok comp c →
  wp (rb_insert_search cmp fuel elm (root t) (par c) comp) s (λ r s', s' = s ∧
    match r with
    | inl p => ∃ kp, find_key cmp (val ne) (inorder (plug c t)) = Some (p, kp)
    | inr (parent, comp) => ∃ c', plug c' E = plug c t ∧ par c' = parent ∧
        between (val ne) c' ∧ comp_ok comp c'
    end).
Proof.
  revert c t comp. induction fuel as [|fuel IH]; intros c t comp Hd Hf He Hs Hb Hc; [lia|].
  simpl. destruct t as [|col l x k r].
  - rb_cond. apply wp_ret. split; [done|]. by exists c.
  - pose proof (foc_ne_NULL _ _ _ _ Hf ltac:(done)) as Hx0. simpl in Hx0, Hd.
    foc_facts Hf. rb_read. destruct (Z.ltb_spec (cmp (val ne) k) 0) as [Hlt|Hge].
    + rb_read. apply (IH (FL col x k r :: c)); try done; [lia|by apply foc_fill|by eapply between_left].
    + rewrite Z.gtb_ltb. destruct (Z.ltb_spec 0 (cmp (val ne) k)) as [Hgt|Hle].
      * rb_read. apply (IH (FR col l x k :: c)); try done; [lia|by apply foc_fill|by eapply between_right].
      * assert (cmp (val ne) k = 0%Z) as Heq by lia.
        rb_read. split; [done|]. exists k. rewrite inorder_plug in *. simpl in *.
        rewrite <- app_assoc, app_assoc in *. simpl in *.
        apply (sorted_equal_split cmp (val ne)) in Hs as [Hs _]; [|done].
        by apply find_key_mid.
Qed.
End search.

(** ** RB_INSERT_COLOR and RB_INSERT *)
Section insert.
Context {K : Type} (cmp : K → K → Z) `{!CmpOrder cmp}.
Implicit Types (F : gmap ptr (node K)) (s : rb_state K) (t : tree K) (c : ctx K).

Lemma RB_INSERT_COLOR_ok F s c l x k r n pc :
  foc F s c (T Red l x k r) → rbt Black n l → rbt Black n r → rbc pc n c →
  wp (RB_INSERT_COLOR x) s (λ _ s', ∃ t n', Rep F s' t ∧ rbt Black n' t ∧
    inorder t = inorder (plug c (T Red l x k r))).
Proof.
  intros Hf Hl Hr Hc. unfold RB_INSERT_COLOR. apply wp_bind, wp_rb_fuel, wp_bind.
  eapply wp_mono; [eapply rb_insert_color_loop_ok; try done|].
  { pose proof (foc_ctx_size _ _ _ _ Hf). lia. }
  intros _ s1 (t & m & Ht & Hne & Hin & Hb). apply wp_bind, wp_RB_ROOT.
  rewrite (foc_root _ _ _ _ Ht). destruct t as [|col l' x' k' r']; [done|].
  eapply (wp_recolor F s1 [] _ Black); [exact Ht|]. intros s2 Hs2.
  exists (T Black l' x' k' r'), m. by rewrite <- Hin.
Qed.

(** The store [s] is a red-black tree whose elements, in key order, are
    [els]; outside its nodes it is [F]. *)
Definition rb_holds F s (els : list (ptr * K)) : Prop :=
  ∃ t n, Rep F s t ∧ rbt Black n t ∧ inorder t = els ∧ sorted cmp els.

Lemma rbt_unplug c t col m : rbt col m (plug c t) → c ≠ [] → col = Black →
  ∃ pc tc n, rbc pc n c ∧ rbt tc n t ∧ (pc = Red → tc = Black).
Proof.
  revert t. induction c as [|f c IH]; intros t Ht Hne ->; [done|]. simpl in Ht.
  destruct c as [|g c].
  - simpl in Ht. destruct f; simpl in Ht; inversion Ht; subst;
      eexists Black, _, _; (split; [by eapply rbc_B; eauto with rb|]); split; done.
  - destruct (IH (fill f t) Ht ltac:(done) eq_refl) as (pc & tc & n & Hc & Hft & Hpc).
    destruct f; simpl in Hft; inversion Hft; subst.
    all: try (destruct pc; [by specialize (Hpc eq_refl)|]).
    all: try (eexists Red, _, _; (split; [by apply rbc_R|]); by split).
    all: eexists Black, _, _; (split; [by eapply rbc_B|]); by split.
Qed.

Lemma rb_insert_ok F s els elm ne :
  rb_holds F s els → heap s !! elm = Some ne → elm ≠ NULL → elm ∉ els.*1 →
  wp (RB_INSERT cmp elm) s (λ r s',
    match find_key cmp (val ne) els with
    | Some (p, _) => r = p ∧ s' = s
    | None => r = NULL ∧ rb_holds F s' (insert_sorted cmp (elm, val ne) els)
    end).
Proof.
  intros (t & n & Ht & Hrb & <- & Hs) He He0 Hin. unfold RB_INSERT.
  rewrite <- locs_inorder in Hin.
  apply wp_bind, wp_RB_ROOT, wp_bind, wp_rb_fuel, wp_bind. rewrite (foc_root _ _ _ _ Ht).
  eapply wp_mono; [eapply (rb_insert_search_ok cmp F _ s [] t); try done|].
  { pose proof (foc_depth _ _ _ _ Ht). lia. }
  { split; constructor. }
  intros [p|[parent comp]] s' [-> Hr]; simpl in Hr.
  - destruct Hr as [kp ->]. by apply wp_ret.
  - destruct Hr as (c & Hpl & <- & [Hb Ha] & Hcomp). subst t.
    apply foc_plug in Ht. rewrite inorder_plug. simpl.
    rewrite find_key_none by done. rewrite locs_plug, app_nil_r in Hin.
    apply wp_bind. eapply wp_rb_link; try done. intros s1 Hs1. apply wp_bind.
    assert (∃ pc m, rbc pc m c ∧ rbt Black m (@E K)) as (pc & m & Hc & HE).
    { destruct c as [|f c]; [exists Red, 0; eauto with rb|].
      destruct (rbt_unplug _ _ _ _ Hrb) as (pc & tc & m & Hc & HE & _); [done..|].
      inversion HE; subst. by exists pc, 0. }
    eapply wp_mono; [by eapply RB_INSERT_COLOR_ok|].
    intros _ s2 (t' & n' & Ht' & Hrb' & Hin'). apply wp_ret. split; [done|].
    rewrite inorder_plug in Hin', Hs. simpl in Hin', Hs.
    rewrite insert_sorted_app by done. exists t', n'. split_and!; try done.
    rewrite <- (insert_sorted_app cmp (elm, val ne)) by done.
    apply insert_sorted_sorted; [done..|]. apply Forall_app.
    split; (eapply Forall_impl; [first [exact Hb|exact Ha]|]); intros a; simpl; lia.
Qed.
End insert.
