(* ===== verification/RbRemove.v ===== *)
(** * Red-black trees of [uv/tree.h]: removal

    The correctness of RB_REMOVE_COLOR and RB_REMOVE: total correctness,
    preservation of the balance invariant, and the effect on the sorted
    sequence of elements. *)
From S2P Require Import Prelude RbTree RbRep RbSplice RbOrder RbInsert.
From stdpp Require Import sorting.

Section remove_color.
Context {K : Type}.
Implicit Types (F : gmap ptr (node K)) (s : rb_state K) (t : tree K) (c : ctx K).

(** What the loop leaves behind: a focus [t] with [elm = root t], such that
    the tree is balanced once [t] is black. *)
Definition mended F (els : list (ptr * K)) (elm : ptr) s : Prop :=
  ∃ c t m, foc F s c t ∧ elm = root t ∧ inorder (plug c t) = els ∧ rbt Black m (plug c (blacken t)).

(** A focus one black node short of what its context needs. *)
Definition short n t : Prop :=
  rbt Black n t ∨ (tcolor t = Red ∧ rbt Black (S n) (blacken t)).

Definition rloop_ok F fuel : Prop := ∀ s c t n pc,
  (tcolor t = Black → c ≠ [] → length c < fuel) → 0 < fuel →
  foc F s c t → short n t → rbc pc (S n) c →
  wp (rb_remove_color_loop fuel (par c) (root t)) s (mended F (inorder (plug c t))).

Lemma wp_both_black F s c1 c col l x k r (Q : bool → rb_state K → Prop) :
  foc F s c (plug c1 (T col l x k r)) →
  Q (bool_decide (tcolor l = Black ∧ tcolor r = Black)) s → wp (both_black x) s Q.
Proof.
  rewrite <- foc_app. intros Hf HQ. unfold both_black. foc_facts Hf. rb_read.
  eapply (wp_null_or_black F s [FL col x k r] (c1 ++ c) l); [exact Hf|].
  rewrite bool_decide_and in HQ. destruct (bool_decide (tcolor l = Black)); rb_read; [|exact HQ].
  eapply (wp_null_or_black F s [FR col l x k] (c1 ++ c) r); [exact Hf|exact HQ].
Qed.

(** ** The blocks, for a deficient left child [t] under [p] *)

(** The black sibling: either the sibling itself, or its inner child once
    the red sibling has been rotated above the parent. *)
Lemma rb_sibling_right_ok F s c cp t p kp w (Q : ptr → rb_state K → Prop) n cw :
  foc F s (FL cp p kp w :: c) t → rbt cw (S n) w → rbc cp (S n) (FL cp p kp w :: c) →
  (∀ s' c' cp' l x k r, foc F s' c' (T cp' t p kp (T Black l x k r)) →
     rbt Black (S n) (T Black l x k r) →
     rbc cp' (S n) (FL cp' p kp (T Black l x k r) :: c') →
     (cp' = Red ∨ c' = c) →
     inorder (plug c' (T cp' t p kp (T Black l x k r))) = inorder (plug c (T cp t p kp w)) →
     Q x s') →
  wp (rb_sibling_right p) s Q.
Proof.
  intros Hf Hw Hc HQ. unfold rb_sibling_right. foc_facts Hf.
  pose proof Hf as Hpw. rewrite foc_fill in Hpw. simpl in Hpw.
  destruct w as [|[] l x k r]; simpl in *; destruct_and?; [inversion Hw| |].
  - (* red sibling *)
    inversion Hw as [|? ? ? ? ? Hl Hr|]; subst.
    inversion Hc as [|? ? ? ? Hs|? cs pc ? ? Hcp Hs Hc']; subst; simpl in *; subst; [inversion Hs|].
    rb_read. eapply (wp_recolor_in F s [FR Black t p kp] c Black); [exact Hpw|]. intros s1 Hs1.
    eapply (wp_recolor F s1 c _ Red); [exact Hs1|]. intros s2 Hs2. rb_read.
    eapply wp_ROTATE_LEFT; [exact Hs2|]. intros s3 Hs3. simpl in Hs3.
    pose proof Hs3 as Hs3'. apply (foc_fill F s3 (FL Black x k r)) in Hs3'.
    foc_facts Hs3. rb_read.
    inversion Hl as [| |? ? ? ll lx lk lr Hll Hlr]; subst. simpl.
    eapply (HQ s3 (FL Black x k r :: c) Red); eauto with rb.
    simpl. apply inorder_plug_eq. inorder_eq.
  - rb_read. inversion Hw; subst. eapply (HQ s c cp); eauto with rb.
Qed.

Lemma rb_far_right_ok F s c cp t p kp l x k r (Q : ptr → rb_state K → Prop) n :
  foc F s c (T cp t p kp (T Black l x k r)) → rbt Black (S n) (T Black l x k r) →
  ¬ (tcolor l = Black ∧ tcolor r = Black) →
  (∀ s' l' x' k' r', foc F s' c (T cp t p kp (T Black l' x' k' r')) →
     (∃ cl, rbt cl n l') → rbt Red n r' →
     inorder (T Black l' x' k' r') = inorder (T Black l x k r) →
     Q x' s') →
  wp (rb_far_right p x) s Q.
Proof.
  intros Hf Hw Hbb HQ. unfold rb_far_right. foc_facts Hf. rb_read.
  inversion Hw as [| |? cl cr ? ? ? ? Hl Hr]; subst.
  eapply (wp_null_or_black F s [FR Black l x k; FR cp t p kp] c r); [exact Hf|].
  destruct (decide (tcolor r = Black)) as [Hrb|Hrb].
  - rewrite bool_decide_true by done. rb_read.
    destruct l as [|[] ll lx lk lr]; simpl in *; try naive_solver.
    destruct_and?. inversion Hl; subst.
    assert (rbt Black n r) as Hr' by (eapply rbt_not_red; [exact Hr|congruence]).
    pose proof (foc_ne_NULL F s _ _
      (proj2 (foc_app F s [FL Black x k r; FR cp t p kp] c _) Hf) ltac:(done)) as Hlx; simpl in Hlx.
    rb_read. eapply (wp_recolor_in F s [FL Black x k r; FR cp t p kp] c Black); [exact Hf|].
    intros s1 Hs1. rb_read. eapply (wp_recolor_in F s1 [FR cp t p kp] c Red); [exact Hs1|].
    intros s2 Hs2. rb_read. eapply (wp_ROTATE_RIGHT_in F s2 [FR cp t p kp] c); [exact Hs2|].
    intros s3 Hs3. simpl in Hs3. foc_facts Hs3. rb_read.
    eapply HQ; eauto with rb. inorder_eq.
  - rewrite bool_decide_false by done. rb_read. eapply HQ; eauto.
    pose proof (rbt_tcolor _ _ _ Hr). destruct cr; [done|congruence].
Qed.

(** The last rotation: the red far child takes the missing black node. *)
Lemma rb_lift_right_ok F s c cp t p kp l x k r (Q : unit → rb_state K → Prop) n cl :
  foc F s c (T cp t p kp (T Black l x k r)) →
  rbt Black n t → rbt cl n l → rbt Red n r →
  (∀ s' t', foc F s' c t' → inorder t' = inorder (T cp t p kp (T Black l x k r)) →
     (cp = Black → rbt Black (S (S n)) t') → (cp = Red → rbt Red (S n) t') → Q tt s') →
  wp (rb_lift_right p x) s Q.
Proof.
  intros Hf Ht Hl Hr HQ. unfold rb_lift_right. foc_facts Hf.
  destruct r as [|[] rl rx rk rr]; inversion Hr; subst. simpl in *; destruct_and?.
  pose proof (foc_ne_NULL F s _ _
    (proj2 (foc_app F s [FR Black l x k; FR cp t p kp] c _) Hf) ltac:(done)) as Hrx; simpl in Hrx.
  rb_read. eapply (wp_recolor_in F s [FR cp t p kp] c cp); [exact Hf|]. intros s1 Hs1.
  rb_read. eapply (wp_recolor F s1 c _ Black); [exact Hs1|]. intros s2 Hs2.
  simpl in Hs2. foc_facts Hs2. rb_read.
  eapply (wp_recolor_in F s2 [FR cp l x k; FR Black t p kp] c Black); [exact Hs2|]. intros s3 Hs3.
  rb_read. eapply (wp_ROTATE_LEFT F s3 c); [exact Hs3|]. intros s4 Hs4. rb_read.
  eapply HQ; [exact Hs4|inorder_eq|intros ->; eauto with rb..].
Qed.

(** One iteration, once the sibling is black. *)
Lemma rb_mend_right_ok F fuel s c cp t p kp l x k r n :
  rloop_ok F fuel → (cp = Red ∨ length c < fuel) → 0 < fuel →
  foc F s c (T cp t p kp (T Black l x k r)) →
  rbt Black n t → rbt Black (S n) (T Black l x k r) →
  rbc cp (S n) (FL cp p kp (T Black l x k r) :: c) →
  wp (bb ← both_black x;
      if (bb : bool) then
        set_RB_COLOR x RB_RED;;
        parent ← RB_PARENT p; rb_remove_color_loop fuel parent p
      else
        tmp ← rb_far_right p x;
        rb_lift_right p tmp;;
        RB_ROOT) s (mended F (inorder (plug c (T cp t p kp (T Black l x k r))))).
Proof.
  intros IH Hfuel Hpos Hf Ht Hw Hc. inversion Hw; subst.
  apply wp_bind. eapply (wp_both_black F s [FR cp t p kp] c); [exact Hf|].
  case_bool_decide as Hbb.
  - destruct Hbb as [Hlb Hrb]. rb_read.
    eapply (wp_recolor_in F s [FR cp t p kp] c Red); [exact Hf|]. intros s1 Hs1.
    simpl in Hs1. foc_facts Hs1. rb_read.
    rewrite (inorder_plug_eq c _ (T cp t p kp (T Red l x k r))) by done.
    inversion Hc as [|? ? ? ? ? Hc'|? cs pc ? ? ? ? Hc']; subst; simpl in *; subst.
    + eapply (IH s1 c (T Red t p kp (T Red l x k r)) n); try done. right. split; [done|]. simpl.
      eapply rbt_B; [exact Ht|]. apply rbt_R; by eapply rbt_not_red; [|congruence].
    + eapply (IH s1 c (T Black t p kp (T Red l x k r)) (S n)); try done; [intros _ _; by destruct Hfuel|].
      left. eapply rbt_B; [exact Ht|]. apply rbt_R; by eapply rbt_not_red; [|congruence].
  - apply wp_bind. eapply rb_far_right_ok; [exact Hf|done|done|].
    intros s1 l' x' k' r' Hs1 [cl' Hl'] Hr' Hin. apply wp_bind.
    eapply rb_lift_right_ok; [exact Hs1|done..|]. intros s2 t' Hs2 Hin' HB HR.
    apply wp_RB_ROOT.
    assert (∃ m, rbt Black m (plug c t')) as [m Hm].
    { inversion Hc; subst; simpl in *; subst; (eapply rbt_plug; [done|..]); auto; done. }
    exists [], (plug c t'), m. simpl. split_and!.
    + by apply (foc_plug F s2 c).
    + by rewrite (foc_root _ _ _ _ Hs2).
    + apply inorder_plug_eq. rewrite Hin'. simpl in *. by rewrite Hin.
    + by erewrite blacken_Black.
Qed.

(** ** The mirror images, for a deficient right child *)

Lemma rb_sibling_left_ok F s c cp t p kp w (Q : ptr → rb_state K → Prop) n cw :
  foc F s (FR cp w p kp :: c) t → rbt cw (S n) w → rbc cp (S n) (FR cp w p kp :: c) →
  (∀ s' c' cp' l x k r, foc F s' c' (T cp' (T Black l x k r) p kp t) →
     rbt Black (S n) (T Black l x k r) →
     rbc cp' (S n) (FR cp' (T Black l x k r) p kp :: c') →
     (cp' = Red ∨ c' = c) →
     inorder (plug c' (T cp' (T Black l x k r) p kp t)) = inorder (plug c (T cp w p kp t)) →
     Q x s') →
  wp (rb_sibling_left p) s Q.
Proof.
  intros Hf Hw Hc HQ. unfold rb_sibling_left. foc_facts Hf.
  pose proof Hf as Hpw. rewrite foc_fill in Hpw. simpl in Hpw.
  destruct w as [|[] l x k r]; simpl in *; destruct_and?; [inversion Hw| |].
  - (* red sibling *)
    inversion Hw as [|? ? ? ? ? Hl Hr|]; subst.
    inversion Hc as [|? ? ? ? Hs|? cs pc ? ? Hcp Hs Hc']; subst; simpl in *; subst; [inversion Hs|].
    rb_read. eapply (wp_recolor_in F s [FL Black p kp t] c Black); [exact Hpw|]. intros s1 Hs1.
    eapply (wp_recolor F s1 c _ Red); [exact Hs1|]. intros s2 Hs2. rb_read.
    eapply wp_ROTATE_RIGHT; [exact Hs2|]. intros s3 Hs3. simpl in Hs3.
    pose proof Hs3 as Hs3'. apply (foc_fill F s3 (FR Black l x k)) in Hs3'.
    foc_facts Hs3. rb_read.
    inversion Hr as [| |? ? ? rl rx rk rr Hrl Hrr]; subst. simpl.
    eapply (HQ s3 (FR Black l x k :: c) Red); eauto with rb.
    simpl. apply inorder_plug_eq. inorder_eq.
  - rb_read. inversion Hw; subst. eapply (HQ s c cp); eauto with rb.
Qed.

Lemma rb_far_left_ok F s c cp t p kp l x k r (Q : ptr → rb_state K → Prop) n :
  foc F s c (T cp (T Black l x k r) p kp t) → rbt Black (S n) (T Black l x k r) →
  ¬ (tcolor l = Black ∧ tcolor r = Black) →
  (∀ s' l' x' k' r', foc F s' c (T cp (T Black l' x' k' r') p kp t) →
     rbt Red n l' → (∃ cr, rbt cr n r') →
     inorder (T Black l' x' k' r') = inorder (T Black l x k r) →
     Q x' s') →
  wp (rb_far_left p x) s Q.
Proof.
  intros Hf Hw Hbb HQ. unfold rb_far_left. foc_facts Hf. rb_read.
  inversion Hw as [| |? cl cr ? ? ? ? Hl Hr]; subst.
  eapply (wp_null_or_black F s [FL Black x k r; FL cp p kp t] c l); [exact Hf|].
  destruct (decide (tcolor l = Black)) as [Hlb|Hlb].
  - rewrite bool_decide_true by done. rb_read.
    destruct r as [|[] rl rx rk rr]; simpl in *; try naive_solver.
    destruct_and?. inversion Hr; subst.
    assert (rbt Black n l) as Hl' by (eapply rbt_not_red; [exact Hl|congruence]).
    pose proof (foc_ne_NULL F s _ _
      (proj2 (foc_app F s [FR Black l x k; FL cp p kp t] c _) Hf) ltac:(done)) as Hrx; simpl in Hrx.
    rb_read. eapply (wp_recolor_in F s [FR Black l x k; FL cp p kp t] c Black); [exact Hf|].
    intros s1 Hs1. rb_read. eapply (wp_recolor_in F s1 [FL cp p kp t] c Red); [exact Hs1|].
    intros s2 Hs2. rb_read. eapply (wp_ROTATE_LEFT_in F s2 [FL cp p kp t] c); [exact Hs2|].
    intros s3 Hs3. simpl in Hs3. foc_facts Hs3. rb_read.
    eapply HQ; eauto with rb. inorder_eq.
  - rewrite bool_decide_false by done. rb_read. eapply HQ; eauto.
    pose proof (rbt_tcolor _ _ _ Hl). destruct cl; [done|congruence].
Qed.

Lemma rb_lift_left_ok F s c cp t p kp l x k r (Q : unit → rb_state K → Prop) n cr :
  foc F s c (T cp (T Black l x k r) p kp t) →
  rbt Black n t → rbt Red n l → rbt cr n r →
  (∀ s' t', foc F s' c t' → inorder t' = inorder (T cp (T Black l x k r) p kp t) →
     (cp = Black → rbt Black (S (S n)) t') → (cp = Red → rbt Red (S n) t') → Q tt s') →
  wp (rb_lift_left p x) s Q.
Proof.
  intros Hf Ht Hl Hr HQ. unfold rb_lift_left. foc_facts Hf.
  destruct l as [|[] ll lx lk lr]; inversion Hl; subst. simpl in *; destruct_and?.
  pose proof (foc_ne_NULL F s _ _
    (proj2 (foc_app F s [FL Black x k r; FL cp p kp t] c _) Hf) ltac:(done)) as Hlx; simpl in Hlx.
  rb_read. eapply (wp_recolor_in F s [FL cp p kp t] c cp); [exact Hf|]. intros s1 Hs1.
  rb_read. eapply (wp_recolor F s1 c _ Black); [exact Hs1|]. intros s2 Hs2.
  simpl in Hs2. foc_facts Hs2. rb_read.
  eapply (wp_recolor_in F s2 [FL cp x k r; FL Black p kp t] c Black); [exact Hs2|]. intros s3 Hs3.
  rb_read. eapply (wp_ROTATE_RIGHT F s3 c); [exact Hs3|]. intros s4 Hs4. rb_read.
  eapply HQ; [exact Hs4|inorder_eq|intros ->; eauto with rb..].
Qed.

Lemma rb_mend_left_ok F fuel s c cp t p kp l x k r n :
  rloop_ok F fuel → (cp = Red ∨ length c < fuel) → 0 < fuel →
  foc F s c (T cp (T Black l x k r) p kp t) →
  rbt Black n t → rbt Black (S n) (T Black l x k r) →
  rbc cp (S n) (FR cp (T Black l x k r) p kp :: c) →
  wp (bb ← both_black x;
      if (bb : bool) then
        set_RB_COLOR x RB_RED;;
        parent ← RB_PARENT p; rb_remove_color_loop fuel parent p
      else
        tmp ← rb_far_left p x;
        rb_lift_left p tmp;;
        RB_ROOT) s (mended F (inorder (plug c (T cp (T Black l x k r) p kp t)))).
Proof.
  intros IH Hfuel Hpos Hf Ht Hw Hc. inversion Hw; subst.
  apply wp_bind. eapply (wp_both_black F s [FL cp p kp t] c); [exact Hf|].
  case_bool_decide as Hbb.
  - destruct Hbb as [Hlb Hrb]. rb_read.
    eapply (wp_recolor_in F s [FL cp p kp t] c Red); [exact Hf|]. intros s1 Hs1.
    simpl in Hs1. foc_facts Hs1. rb_read.
    rewrite (inorder_plug_eq c _ (T cp (T Red l x k r) p kp t)) by done.
    inversion Hc as [|? ? ? ? ? Hc'|? cs pc ? ? ? ? Hc']; subst; simpl in *; subst.
    + eapply (IH s1 c (T Red (T Red l x k r) p kp t) n); try done. right. split; [done|]. simpl.
      eapply rbt_B; [|exact Ht]. apply rbt_R; by eapply rbt_not_red; [|congruence].
    + eapply (IH s1 c (T Black (T Red l x k r) p kp t) (S n)); try done; [intros _ _; by destruct Hfuel|].
      left. eapply rbt_B; [|exact Ht]. apply rbt_R; by eapply rbt_not_red; [|congruence].
  - apply wp_bind. eapply rb_far_left_ok; [exact Hf|done|done|].
    intros s1 l' x' k' r' Hs1 Hl' [cr' Hr'] Hin. apply wp_bind.
    eapply rb_lift_left_ok; [exact Hs1|done..|]. intros s2 t' Hs2 Hin' HB HR.
    apply wp_RB_ROOT.
    assert (∃ m, rbt Black m (plug c t')) as [m Hm].
    { inversion Hc; subst; simpl in *; subst; (eapply rbt_plug; [done|..]); auto; done. }
    exists [], (plug c t'), m. simpl. split_and!.
    + by apply (foc_plug F s2 c).
    + by rewrite (foc_root _ _ _ _ Hs2).
    + apply inorder_plug_eq. rewrite Hin'. simpl in *. by rewrite Hin.
    + by erewrite blacken_Black.
Qed.

(** ** The loop *)

(** An empty tree at the root, a red focus, or the root itself end it. *)
Lemma root_plug_ne F s f c t : foc F s (f :: c) t → root (plug (f :: c) t) ≠ root t.
Proof.
  intros [_ _ _ Hnd Hn _] Heq.
  assert (plug (f :: c) t ≠ E) as Hne by (apply (plug_ne_E c); by destruct f).
  destruct t as [|col l x k r].
  - destruct (plug (f :: c) E) as [|col l x k r] eqn:Hp; [done|]. simpl in Heq. subst x.
    apply Hn. simpl. pose proof (locs_plug (f :: c) (@E K)) as Hl. rewrite Hp in Hl.
    simpl in Hl. rewrite app_nil_r in Hl. rewrite <- Hl. by left.
  - pose proof (foc_outer_root c f) as Hr.
    apply NoDup_app in Hnd as (_ & Hd & _). eapply Hd; [by apply root_in|].
    rewrite <- Heq. apply Hr.
Qed.

Lemma foc_sib_ne' F s f c t : foc F s (f :: c) t → fsib f ≠ E → root (fsib f) ≠ root t.
Proof.
  intros Hf Hs. destruct t as [|col l x k r]; [|by eapply foc_sib_ne].
  apply foc_fill in Hf. destruct f as [fc y ky sib|fc sib y ky]; simpl in *.
  - by eapply (foc_ne_NULL F s (FR fc E y ky :: c)), Hs; apply foc_fill.
  - by eapply (foc_ne_NULL F s (FL fc y ky E :: c)), Hs; apply foc_fill.
Qed.

Lemma rb_remove_color_loop_ok F fuel : rloop_ok F fuel.
Proof.
  induction fuel as [|fuel IH]; intros s c t n pc Hfuel Hpos Hf Hsh Hc; [lia|]. clear Hpos.
  simpl. apply wp_bind. eapply (wp_null_or_black F s [] c t); [exact Hf|]. rb_read.
  rewrite (foc_root _ _ _ _ Hf).
  destruct Hsh as [Ht|[Hred Ht]].
  2:{ rewrite bool_decide_false by congruence. rb_read.
      edestruct (rbt_plug pc (S n) c Black (blacken t)) as [m Hm]; [done..|].
      by exists c, t, m. }
  rewrite bool_decide_true by (by eapply rbt_tcolor).
  destruct c as [|f c].
  { simpl. rb_read. exists [], t, n. by erewrite blacken_Black. }
  pose proof (root_plug_ne _ _ _ _ _ Hf) as Hne.
  assert (length c < fuel) as Hlen.
  { specialize (Hfuel ltac:(by eapply rbt_tcolor) ltac:(done)). simpl in Hfuel. lia. }
  assert (∃ cs, rbt cs (S n) (fsib f)) as [cs Hs] by (inversion Hc; subst; eauto).
  assert (fsib f ≠ E) as Hse by (intros He; rewrite He in Hs; inversion Hs).
  pose proof (foc_sib_ne' _ _ _ _ _ Hf Hse) as Hsib.
  assert (rbc (frame_color f) (S n) (f :: c)) as Hc'.
  { inversion Hc as [|? ? ? Hcol|? ? ? ? ? Hcol]; subst; rewrite Hcol; [by apply rbc_R|by eapply rbc_B]. }
  rewrite (proj2 (N.eqb_neq _ _) (not_eq_sym Hne)).
  destruct f as [cp p kp w|cp w p kp]; simpl in Hs, Hse, Hsib, Hc'; foc_facts Hf; rb_read.
  - eapply rb_sibling_right_ok; [exact Hf|exact Hs|exact Hc'|].
    intros s' c' cp' l x k r Hf' Hw Hc'' Hor <-. eapply rb_mend_right_ok; try done; [|lia].
    destruct Hor as [->| ->]; [by left|by right].
  - eapply rb_sibling_left_ok; [exact Hf|exact Hs|exact Hc'|].
    intros s' c' cp' l x k r Hf' Hw Hc'' Hor <-. eapply rb_mend_left_ok; try done; [|lia].
    destruct Hor as [->| ->]; [by left|by right].
Qed.

Lemma RB_REMOVE_COLOR_ok F s c t n pc :
  foc F s c t → short n t → rbc pc (S n) c →
  wp (RB_REMOVE_COLOR (par c) (root t)) s (λ _ s', ∃ t' m,
    Rep F s' t' ∧ rbt Black m t' ∧ inorder t' = inorder (plug c t)).
Proof.
  intros Hf Ht Hc. unfold RB_REMOVE_COLOR. apply wp_bind, wp_rb_fuel, wp_bind.
  eapply wp_mono; [eapply rb_remove_color_loop_ok; try done; [|lia]|].
  { intros _ _. pose proof (foc_ctx_size _ _ _ _ Hf). lia. }
  intros elm s' (c' & t' & m & Hf' & -> & Hin & Hm). simpl.
  destruct t' as [|col l x k r].
  - rb_read. exists (plug c' E), m. split_and!; try done. by apply foc_plug in Hf'.
  - pose proof (foc_ne_NULL _ _ _ _ Hf' ltac:(done)) as Hx. simpl in Hx. simpl. rb_read.
    eapply (wp_recolor F s' c' _ Black); [exact Hf'|]. intros s2 Hs2.
    exists (plug c' (T Black l x k r)), m. split_and!; try done; [by apply foc_plug in Hs2|].
    rewrite <- Hin. by apply inorder_plug_eq.
Qed.
End remove_color.

(** ** RB_REMOVE *)
#[local] Arguments rb_leftmost : simpl never.
#[local] Arguments rb_augment_up : simpl never.
#[local] Arguments rb_remove_color_loop : simpl never.

Section remove.
Context {K : Type} (cmp : K → K → Z).
Implicit Types (F : gmap ptr (node K)) (s : rb_state K) (t : tree K) (c : ctx K).

Lemma rbt_short cc n t : rbt cc n t → short n t.
Proof.
  destruct 1; [left; eauto with rb|right|left; eauto with rb].
  split; [done|]. eapply rbt_B; eauto.
Qed.

Lemma rbt_at c t m : rbt Black m (plug c t) →
  ∃ pc tc n, rbc pc n c ∧ rbt tc n t ∧ (pc = Red → tc = Black).
Proof.
  intros Ht. destruct c as [|f c]; [exists Red, Black, m; eauto with rb|].
  by eapply rbt_unplug.
Qed.

(** Taking a node with a single child out of a balanced tree. *)
Lemma rb_unlink_ok F s c pc n col l x k r ch :
  foc F s c ch → rbc pc n c → rbt col n (T col l x k r) → (pc = Red → col = Black) →
  (l = E ∧ ch = r ∨ r = E ∧ ch = l) →
  wp (c_when (code col =? RB_BLACK)%Z (RB_REMOVE_COLOR (par c) (root ch))) s (λ _ s', ∃ t' m,
    Rep F s' t' ∧ rbt Black m t' ∧ inorder t' = inorder (plug c ch)).
Proof.
  intros Hf Hc Ht Hpc Hch. apply wp_when. inversion Ht; subst; simpl.
  - destruct pc; [by specialize (Hpc eq_refl)|].
    assert (rbt Black n ch) as Hb by (destruct Hch as [[_ ->]|[_ ->]]; done).
    destruct (rbt_plug Black n c Black ch) as [m Hm]; [done..|].
    exists (plug c ch), m. split_and!; try done. by apply foc_plug in Hf.
  - eapply RB_REMOVE_COLOR_ok; [exact Hf| |exact Hc].
    destruct Hch as [[-> ->]|[-> ->]]; by eapply rbt_short.
Qed.

(** Relabelling a node of a context keeps the balance. *)
Lemma rbc_relabel pc n c1 f g c :
  rbc pc n (c1 ++ f :: c) → frame_color f = frame_color g → fsib f = fsib g →
  rbc pc n (c1 ++ g :: c).
Proof.
  intros Hc Hcol Hsib. revert pc n Hc. induction c1 as [|h c1 IH]; intros pc n Hc; simpl in *.
  - inversion Hc; subst; [apply rbc_R|eapply rbc_B]; rewrite <- ?Hcol, <- ?Hsib; done.
  - inversion Hc; subst; [apply rbc_R|eapply rbc_B]; eauto.
Qed.

(** A node with at most one child: the splice and the rebalancing. *)
Lemma rb_remove_one_ok F s c col l x k r n m :
  foc F s c (T col l x k r) → rbt Black m (plug c (T col l x k r)) → (l = E ∨ r = E) →
  n = mk_node k (mk_entry (root l) (root r) (par c) (code col)) →
  wp (RB_REMOVE x) s (λ p s', p = x ∧ ∃ t' m', Rep (<[x:=n]> F) s' t' ∧ rbt Black m' t' ∧
    inorder t' = before c ++ inorder l ++ inorder r ++ after c).
Proof.
  intros Hf Hrb Hlr ->. unfold RB_REMOVE. foc_facts Hf. rb_read.
  assert (((root l =? NULL) || (root r =? NULL))%N = true) as ->.
  { destruct Hlr as [->| ->]; [done|]. by rewrite orb_true_r. }
  destruct (rbt_at _ _ _ Hrb) as (pc & tc & h & Hc & Ht & Hpc).
  pose proof (rbt_tcolor _ _ _ Ht); simpl in *; subst tc.
  assert (∃ ch, (l = E ∧ ch = r ∨ r = E ∧ ch = l) ∧
    (if (root l =? NULL)%N then root r else root l) = root ch) as (ch & Hch & Hroot).
  { destruct l as [|lc ll lx lk lr]; [exists r; auto|]. destruct Hlr as [| ->]; [done|].
    exists (T lc ll lx lk lr). split; [auto|].
    pose proof (foc_ne_NULL F s (FL col x k E :: c) _ (proj2 (foc_fill F s (FL col x k E) c _) Hf) ltac:(done)) as Hn.
    simpl in *. by rb_cond. }
  apply wp_bind, (wp_mono _ _ (λ p s', p = root ch ∧ s' = s)).
  { rewrite <- Hroot. destruct (root l =? NULL)%N; by rb_read. }
  intros ? ? [-> ->]. rb_read. eapply wp_rb_splice; [exact Hf|exact Hch|].
  intros s1 Hs1. apply wp_ret. simpl. apply wp_bind.
  assert (inorder l ++ inorder r = inorder ch) as Hin
    by (destruct Hch as [[-> ->]|[-> ->]]; simpl; by rewrite ?app_nil_r).
  apply (wp_mono _ _ _ _ (rb_unlink_ok _ s1 c pc h col l x k r ch Hs1 Hc Ht Hpc Hch)).
  intros _ s2 (t' & m' & Ht' & Hm' & Hin'). apply wp_ret. split; [done|].
  exists t', m'. split_and!; try done. by rewrite Hin', inorder_plug, <- Hin, <- app_assoc.
Qed.

Lemma nodup_notin_app (e : ptr) (A B C : list ptr) :
  NoDup ((e :: A ++ B) ++ C) → e ∉ A ∧ e ∉ B ∧ e ∉ C.
Proof.
  simpl. rewrite NoDup_cons, !not_elem_of_app. tauto.
Qed.

(** The successor's place: below the frames [cL] of the path that leads to
    it, the frame of [x] is relabelled to [e]. *)
Lemma succ_par F s cL (f : frame K) c t (e : ptr) (g : frame K) :
  foc F s (cL ++ f :: c) t → floc g = e →
  (if (par (cL ++ f :: c) =? floc f)%N then e else par (cL ++ f :: c)) = par (cL ++ g :: c).
Proof.
  intros Hf <-. destruct cL as [|h cL]; simpl; [by rewrite N.eqb_refl|].
  destruct (N.eqb_spec (floc h) (floc f)) as [Heq|]; [|done].
  pose proof (foc_nodup _ _ _ _ Hf) as Hnd. simpl in Hnd. rewrite clocs_cons, clocs_app in Hnd.
  apply NoDup_app in Hnd as (_ & _ & (_ & Hd & _)%NoDup_app).
  exfalso. apply (Hd (floc h) (floc_in_flocs h)). rewrite Heq, elem_of_app. right.
  rewrite clocs_cons, elem_of_app. left. apply floc_in_flocs.
Qed.

Lemma foc_frame_ext F F' s c t :
  foc F s c t → (∀ p, p ∉ locs t ++ clocs c → F' !! p = F !! p) → foc F' s c t.
Proof. intros [] HF. split; try done. intros p Hp. by rewrite HF by done; auto. Qed.

(** Two children: the successor [e] is spliced out of the right subtree and
    takes the place of [x]. *)
Lemma rb_succ_ok F s c col l x k cL ce e ke re :
  foc F s (cL ++ FR col l x k :: c) (T ce E e ke re) → l ≠ E →
  wp (rb_splice e (root re) (par (cL ++ FR col l x k :: c))) s (λ _ s',
    heap s' !! e = Some (mk_node ke (mk_entry NULL (root re) (par (cL ++ FR col l x k :: c)) (code ce))) ∧
    wp (rb_replace e x) s' (λ _ s'', ∃ n, val n = k ∧
      foc (<[x:=n]> F) s'' (cL ++ FR col l e ke :: c) re)).
Proof.
  intros Hf Hl. eapply wp_rb_splice; [exact Hf|by left|]. intros s1 Hs1.
  pose proof (foc_nodup _ _ _ _ Hf) as Hnd. pose proof (foc_null _ _ _ _ Hf) as Hnull. simpl in Hnd, Hnull.
  apply NoDup_cons in Hnd as [He _]. apply not_elem_of_cons in Hnull as [He0 _].
  assert (heap s1 !! e = Some (mk_node ke (mk_entry NULL (root re) (par (cL ++ FR col l x k :: c)) (code ce)))) as Hs1e.
  { rewrite (foc_frame _ _ _ _ Hs1) by done. apply lookup_insert_eq. }
  split; [done|]. apply foc_app, foc_fill in Hs1. simpl in Hs1.
  eapply wp_rb_replace; [exact Hs1|done|exact Hs1e|by apply not_eq_sym| |].
  - eapply not_in_perm; [|exact He]. rewrite clocs_app, clocs_cons. simpl. rewrite locs_plug.
    solve_Permutation.
  - intros s2 Hs2. exists (mk_node k (mk_entry (root l) (root (plug cL re)) (par c) (code col))). split; [done|].
    apply foc_app, foc_fill. eapply foc_frame_ext; [exact Hs2|].
    intros p Hp. simpl in Hp. rewrite not_elem_of_cons in Hp. destruct Hp as [Hpe _].
    destruct (decide (p = x)) as [->|Hpx]; [by rewrite !lookup_insert_eq|].
    by rewrite !lookup_insert_ne by done.
Qed.

Lemma rb_remove_two_ok F s c col l x k r m :
  foc F s c (T col l x k r) → rbt Black m (plug c (T col l x k r)) → l ≠ E → r ≠ E →
  wp (RB_REMOVE x) s (λ p s', p = x ∧ ∃ n t' m', val n = k ∧ Rep (<[x:=n]> F) s' t' ∧ rbt Black m' t' ∧
    inorder t' = before c ++ inorder l ++ inorder r ++ after c).
Proof.
  intros Hf Hrb Hl Hr. unfold RB_REMOVE.
  pose proof (foc_ne_NULL F s (FL col x k r :: c) l (proj2 (foc_fill F s (FL col x k r) c _) Hf) Hl) as Hl0.
  pose proof (foc_ne_NULL F s (FR col l x k :: c) r (proj2 (foc_fill F s (FR col l x k) c _) Hf) Hr) as Hr0.
  foc_facts Hf. rb_read.
  pose proof (proj2 (foc_fill F s (FR col l x k) c r) Hf) as Hfr.
  eapply wp_mono; [eapply rb_leftmost_ok; [|exact Hfr|exact Hr]|].
  { pose proof (foc_depth _ _ _ _ Hfr). simpl in *; lia. }
  intros e s1 [-> (cL & ce & ke & re & -> & HcL)]. simpl in Hfr.
  apply (foc_app F s cL (FR col l x k :: c)) in Hfr.
  foc_facts Hfr. rb_read.
  eapply wp_mono; [exact (rb_succ_ok F s c col l x k cL ce e ke re Hfr Hl)|].
  intros _ s1 [Hs1e Hrep]. rb_read. eapply wp_mono; [exact Hrep|]. clear Hrep Hs1e.
  intros _ s2 (n & Hn & Hs2). pose proof (succ_par _ _ _ _ _ _ e (FR col l e ke) Hfr eq_refl) as Hpar.
  simpl in Hpar. rewrite Hpar. clear Hpar.
  assert (par (cL ++ FR col l e ke :: c) ≠ NULL) as Hp0.
  { pose proof (foc_null _ _ _ _ Hs2) as Hnull. intros Heq. apply Hnull, elem_of_app. right.
    rewrite <- Heq. apply par_in. by destruct cL. }
  rb_read. eapply wp_mono; [eapply rb_augment_up_ok; [|exact Hs2|by destruct cL]|].
  { pose proof (foc_ctx_size _ _ _ _ Hfr). rewrite length_app in *. simpl in *. lia. }
  intros _ ? ->. apply wp_ret. simpl. apply wp_bind. clear Hp0.
  change (T col l x k (plug cL (T ce E e ke re))) with (fill (FR col l x k) (plug cL (T ce E e ke re))) in Hrb.
  change (plug c (fill (FR col l x k) (plug cL (T ce E e ke re))))
    with (plug (FR col l x k :: c) (plug cL (T ce E e ke re))) in Hrb.
  rewrite <- plug_app in Hrb.
  destruct (rbt_at _ _ _ Hrb) as (pc & tc & h & Hc & Ht & Hpc).
  pose proof (rbt_tcolor _ _ _ Ht) as Htc. simpl in Htc. subst tc.
  apply (rbc_relabel _ _ cL _ (FR col l e ke) c) in Hc; [|done..].
  eapply wp_mono; [exact (rb_unlink_ok _ s2 _ pc h ce E e ke re re Hs2 Hc Ht Hpc (or_introl (conj eq_refl eq_refl)))|].
  intros _ s3 (t' & m' & Ht' & Hm' & Hin'). apply wp_ret. split; [done|].
  exists n, t', m'. split_and!; try done.
  rewrite Hin', !inorder_plug, before_app, after_app, HcL. simpl. by rewrite <- !app_assoc.
Qed.

(** The removal of an element, at any place of the sequence. *)
Lemma rb_remove_ok F s l1 x k l2 :
  rb_holds cmp F s (l1 ++ (x, k) :: l2) →
  wp (RB_REMOVE x) s (λ p s', p = x ∧ ∃ n, val n = k ∧ rb_holds cmp (<[x:=n]> F) s' (l1 ++ l2)).
Proof.
  intros (t & m & Ht & Hm & Hin & Hs).
  destruct (focus_at _ _ _ _ _ Hin) as (c & col & l & r & -> & -> & ->). clear Hin.
  apply foc_plug in Ht.
  assert (sorted cmp ((before c ++ inorder l) ++ inorder r ++ after c)) as Hs'.
  { clear -Hs. induction (before c ++ inorder l) as [|a l1 IH]; simpl in *.
    - by apply StronglySorted_cons in Hs as [_ Hs].
    - apply StronglySorted_cons in Hs as [Ha Hs]. constructor; [by apply IH|].
      rewrite Forall_app, Forall_cons in Ha. rewrite Forall_app. naive_solver. }
  destruct (decide (root l = NULL ∨ root r = NULL)) as [Hlr|Hlr].
  - assert (l = E ∨ r = E) as Hlr'.
    { pose proof (foc_null _ _ _ _ Ht) as Hn. simpl in Hn.
      destruct l as [|? ? y ? ?], r as [|? ? z ? ?]; auto. simpl in *. exfalso. apply Hn.
      repeat setoid_rewrite elem_of_cons || setoid_rewrite elem_of_app. naive_solver. }
    eapply wp_mono; [by eapply rb_remove_one_ok|]. intros p s' [-> (t' & m' & Ht' & Hm' & Hin')].
    split; [done|]. eexists. split; [|exists t', m'; split_and!; try done]; [done|].
    by rewrite Hin', <- app_assoc.
  - eapply wp_mono; [eapply rb_remove_two_ok; [exact Ht|exact Hm|..]; intros ->; apply Hlr; auto|].
    intros p s' [-> (n & t' & m' & Hn & Ht' & Hm' & Hin')].
    split; [done|]. exists n. split; [done|]. exists t', m'. split_and!; try done.
    by rewrite Hin', <- app_assoc.
Qed.
End remove.
