(* ===== verification/RbQuery.v ===== *)
(** * Red-black trees of [uv/tree.h]: queries and traversals

    RB_FIND, RB_NFIND, RB_MINMAX, RB_NEXT, RB_PREV and RB_FOREACH against the
    sorted sequence of elements the tree holds, and the height bound that the
    introduction of tree.h promises, 2 lg (n + 1), as a bound on the number of
    iterations of the search loops. *)
From stdpp Require Import sorting.
From S2P Require Import Prelude RbTree RbRep RbSplice RbOrder RbInsert.

(** ** The height of a balanced tree *)
Section height.
Context {K : Type}.
Implicit Types (t : tree K).

Lemma rbt_depth col n t : rbt col n t → depth t ≤ 2 * n + match col with Red => 1 | Black => 0 end.
Proof.
  induction 1 as [|n l x k r Hl IHl Hr IHr|n cl cr l x k r Hl IHl Hr IHr]; simpl in *; [lia..|].
  destruct cl, cr; lia.
Qed.
Lemma rbt_size col n t : rbt col n t → 2 ^ n ≤ S (length (inorder t)).
Proof. induction 1; simpl in *; rewrite ?length_app; simpl; lia. Qed.

Lemma rbt_height n t : rbt Black n t → depth t ≤ 2 * Nat.log2 (S (length (inorder t))).
Proof.
  intros Ht. pose proof (rbt_depth _ _ _ Ht) as Hd. simpl in Hd. pose proof (rbt_size _ _ _ Ht).
  enough (n ≤ Nat.log2 (S (length (inorder t)))) by lia.
  apply Nat.log2_le_pow2; lia.
Qed.
End height.

#[local] Arguments rb_leftmost : simpl never.
#[local] Arguments rb_rightmost : simpl never.

Section query.
Context {K : Type} (cmp : K → K → Z) `{!CmpOrder cmp}.
Implicit Types (F : gmap ptr (node K)) (s : rb_state K) (t : tree K) (c : ctx K).

Lemma rb_find_loop_ok F fuel s c t elm ne :
  depth t < fuel → foc F s c t → heap s !! elm = Some ne →
  sorted cmp (inorder (plug c t)) → between cmp (val ne) c →
  wp (rb_find_loop cmp fuel elm (root t)) s (λ p s', s' = s ∧
    p = ptr_of (find_key cmp (val ne) (inorder (plug c t)))).
Proof.
  revert c t. induction fuel as [|fuel IH]; intros c t Hd Hf He Hs Hb; [lia|].
  simpl. destruct t as [|col l x k r].
  - rb_cond. apply wp_ret. split; [done|]. rewrite inorder_plug. destruct Hb as [Hb Ha]. simpl.
    by rewrite find_key_none.
  - pose proof (foc_ne_NULL _ _ _ _ Hf ltac:(done)) as Hx0. simpl in Hx0, Hd.
    foc_facts Hf. rb_read. destruct (Z.ltb_spec (cmp (val ne) k) 0) as [Hlt|Hge].
    + rb_read. apply (IH (FL col x k r :: c)); try done; [lia|by apply foc_fill|by eapply between_left].
    + rewrite Z.gtb_ltb. destruct (Z.ltb_spec 0 (cmp (val ne) k)) as [Hgt|Hle].
      * rb_read. apply (IH (FR col l x k :: c)); try done; [lia|by apply foc_fill|by eapply between_right].
      * assert (cmp (val ne) k = 0%Z) as Heq by lia.
        rb_read. split; [done|]. rewrite inorder_plug in *. simpl in *.
        rewrite <- app_assoc, app_assoc in *. simpl in *.
        apply (sorted_equal_split cmp (val ne)) in Hs as [Hs _]; [|done].
        by rewrite find_key_mid.
Qed.

(** The candidate the descent of RB_NFIND carries is the first element after
    the hole. *)
Lemma rb_nfind_loop_ok F fuel s c t elm ne :
  depth t < fuel → foc F s c t → heap s !! elm = Some ne →
  sorted cmp (inorder (plug c t)) → between cmp (val ne) c →
  wp (rb_nfind_loop cmp fuel elm (root t) (ptr_of (head (after c)))) s (λ p s', s' = s ∧
    p = ptr_of (find_geq cmp (val ne) (inorder (plug c t)))).
Proof.
  revert c t. induction fuel as [|fuel IH]; intros c t Hd Hf He Hs Hb; [lia|].
  simpl. destruct t as [|col l x k r].
  - rb_cond. apply wp_ret. split; [done|]. rewrite inorder_plug. destruct Hb as [Hb Ha]. simpl.
    rewrite find_geq_mid; try done. eapply Forall_impl; [exact Ha|]. intros a; simpl; lia.
  - pose proof (foc_ne_NULL _ _ _ _ Hf ltac:(done)) as Hx0. simpl in Hx0, Hd.
    foc_facts Hf. rb_read. destruct (Z.ltb_spec (cmp (val ne) k) 0) as [Hlt|Hge].
    + rb_read. apply (IH (FL col x k r :: c)); try done; [lia|by apply foc_fill|by eapply between_left].
    + rewrite Z.gtb_ltb. destruct (Z.ltb_spec 0 (cmp (val ne) k)) as [Hgt|Hle].
      * rb_read. apply (IH (FR col l x k :: c)); try done; [lia|by apply foc_fill|by eapply between_right].
      * assert (cmp (val ne) k = 0%Z) as Heq by lia.
        rb_read. split; [done|]. rewrite inorder_plug in *. simpl in *.
        rewrite <- app_assoc, app_assoc in *. simpl in *.
        apply (sorted_equal_split cmp (val ne)) in Hs as [Hs Ha]; [|done].
        rewrite find_geq_mid; try done. constructor; [simpl; lia|].
        eapply Forall_impl; [exact Ha|]. intros a; simpl; lia.
Qed.

Lemma between_nil k : between cmp k (@nil (frame K)).
Proof. split; constructor. Qed.

Lemma rb_find_ok F s els elm ne :
  rb_holds cmp F s els → heap s !! elm = Some ne →
  wp (RB_FIND cmp elm) s (λ p s', s' = s ∧ p = ptr_of (find_key cmp (val ne) els)).
Proof.
  intros (t & n & Ht & Hrb & <- & Hs) He. unfold RB_FIND. apply wp_bind, wp_RB_ROOT, wp_bind, wp_rb_fuel.
  rewrite (foc_root _ _ _ _ Ht). apply (rb_find_loop_ok F _ s [] t); try done; [|apply between_nil].
  pose proof (foc_depth _ _ _ _ Ht). lia.
Qed.

Lemma rb_nfind_ok F s els elm ne :
  rb_holds cmp F s els → heap s !! elm = Some ne →
  wp (RB_NFIND cmp elm) s (λ p s', s' = s ∧ p = ptr_of (find_geq cmp (val ne) els)).
Proof.
  intros (t & n & Ht & Hrb & <- & Hs) He. unfold RB_NFIND. apply wp_bind, wp_RB_ROOT, wp_bind, wp_rb_fuel.
  rewrite (foc_root _ _ _ _ Ht). apply (rb_nfind_loop_ok F _ s [] t); try done; [|apply between_nil].
  pose proof (foc_depth _ _ _ _ Ht). lia.
Qed.

(** Searches end after 2 lg (n + 1) + 1 iterations. *)
Lemma rb_find_log_ok F s els elm ne fuel :
  rb_holds cmp F s els → heap s !! elm = Some ne → 2 * Nat.log2 (S (length els)) < fuel →
  wp (rb_find_loop cmp fuel elm (rbh_root s)) s (λ p s', s' = s ∧ p = ptr_of (find_key cmp (val ne) els)).
Proof.
  intros (t & n & Ht & Hrb & <- & Hs) He Hfuel. rewrite (foc_root _ _ _ _ Ht).
  apply (rb_find_loop_ok F _ s [] t); try done; [|apply between_nil].
  pose proof (rbt_height _ _ Hrb). lia.
Qed.
Lemma rb_nfind_log_ok F s els elm ne fuel :
  rb_holds cmp F s els → heap s !! elm = Some ne → 2 * Nat.log2 (S (length els)) < fuel →
  wp (rb_nfind_loop cmp fuel elm (rbh_root s) NULL) s (λ p s', s' = s ∧ p = ptr_of (find_geq cmp (val ne) els)).
Proof.
  intros (t & n & Ht & Hrb & <- & Hs) He Hfuel. rewrite (foc_root _ _ _ _ Ht).
  apply (rb_nfind_loop_ok F _ s [] t); try done; [|apply between_nil].
  pose proof (rbt_height _ _ Hrb). lia.
Qed.

(** ** Extremes *)

Lemma rb_minmax_loop_min F fuel s c t :
  depth t < fuel → foc F s c t →
  wp (rb_minmax_loop fuel RB_NEGINF (root t) (par c)) s (λ p s', s' = s ∧
    (before c = [] → p = if decide (inorder t = []) then par c else ptr_of (head (inorder t)))).
Proof.
  revert c t. induction fuel as [|fuel IH]; intros c t Hd Hf; [lia|].
  simpl. destruct t as [|col l x k r]; [rb_read; by split|].
  pose proof (foc_ne_NULL _ _ _ _ Hf ltac:(done)) as Hx0. simpl in Hx0, Hd.
  foc_facts Hf. rb_read.
  eapply wp_mono; [apply (IH (FL col x k r :: c)); [lia|by apply foc_fill]|].
  intros p s' [-> Hp]. split; [done|]. intros Hb. simpl in Hp. rewrite Hb in Hp. rewrite Hp by done.
  by destruct (inorder l).
Qed.

Lemma rb_minmax_loop_max F fuel s c t :
  depth t < fuel → foc F s c t →
  wp (rb_minmax_loop fuel RB_INF (root t) (par c)) s (λ p s', s' = s ∧
    (after c = [] → p = if decide (inorder t = []) then par c else ptr_of (last (inorder t)))).
Proof.
  revert c t. induction fuel as [|fuel IH]; intros c t Hd Hf; [lia|].
  simpl. destruct t as [|col l x k r]; [rb_read; by split|].
  pose proof (foc_ne_NULL _ _ _ _ Hf ltac:(done)) as Hx0. simpl in Hx0, Hd.
  foc_facts Hf. rb_read.
  eapply wp_mono; [apply (IH (FR col l x k :: c)); [lia|by apply foc_fill]|].
  intros p s' [-> Hp]. split; [done|]. intros Hb. simpl in Hp. rewrite Hb in Hp. rewrite Hp by done.
  rewrite last_app, last_cons.
  destruct (inorder r) as [|a l']; [by destruct (inorder l)|].
  destruct (last (a :: l')) eqn:Hl; [|by apply last_None in Hl]. by destruct (inorder l).
Qed.

Lemma rb_min_ok F s els : rb_holds cmp F s els → wp RB_MIN s (λ p s', s' = s ∧ p = ptr_of (head els)).
Proof.
  intros (t & n & Ht & Hrb & <- & Hs). unfold RB_MIN, RB_MINMAX. apply wp_bind, wp_RB_ROOT, wp_bind, wp_rb_fuel.
  rewrite (foc_root _ _ _ _ Ht). pose proof (foc_depth _ _ _ _ Ht).
  eapply wp_mono; [apply (rb_minmax_loop_min F _ s [] t); [lia|done]|].
  intros p s' [-> Hp]. split; [done|]. rewrite Hp by done. simpl. by destruct (inorder t).
Qed.
Lemma rb_max_ok F s els : rb_holds cmp F s els → wp RB_MAX s (λ p s', s' = s ∧ p = ptr_of (last els)).
Proof.
  intros (t & n & Ht & Hrb & <- & Hs). unfold RB_MAX, RB_MINMAX. apply wp_bind, wp_RB_ROOT, wp_bind, wp_rb_fuel.
  rewrite (foc_root _ _ _ _ Ht). pose proof (foc_depth _ _ _ _ Ht).
  eapply wp_mono; [apply (rb_minmax_loop_max F _ s [] t); [lia|done]|].
  intros p s' [-> Hp]. split; [done|]. rewrite Hp by done. simpl. by destruct (inorder t).
Qed.

(** ** Neighbours *)

Lemma rb_up_right_ok F fuel s c t :
  length c < fuel → foc F s c t → t ≠ E →
  wp (rb_up_right fuel (root t)) s (λ p s', s' = s ∧ p = ptr_of (head (after c))).
Proof.
  revert c t. induction fuel as [|fuel IH]; intros c t Hd Hf Ht; [lia|].
  destruct t as [|col l x k r]; [done|]. simpl. foc_facts Hf. destruct c as [|f c]; [by rb_read|].
  pose proof (proj1 (foc_fill F s f c _) Hf) as Hff.
  pose proof (foc_ne_NULL _ _ _ _ Hff ltac:(by destruct f)) as Hp0.
  pose proof (foc_sib_ne _ _ _ _ _ Hf ltac:(done)) as Hsib.
  destruct f as [fc p kp sib|fc sib p kp]; simpl in *; destruct_and?; rb_read; [done|].
  apply (IH c (T fc sib p kp (T col l x k r))); [simpl in *; lia|done..].
Qed.
Lemma rb_up_left_ok F fuel s c t :
  length c < fuel → foc F s c t → t ≠ E →
  wp (rb_up_left fuel (root t)) s (λ p s', s' = s ∧ p = ptr_of (last (before c))).
Proof.
  revert c t. induction fuel as [|fuel IH]; intros c t Hd Hf Ht; [lia|].
  destruct t as [|col l x k r]; [done|]. simpl. foc_facts Hf. destruct c as [|f c]; [by rb_read|].
  pose proof (proj1 (foc_fill F s f c _) Hf) as Hff.
  pose proof (foc_ne_NULL _ _ _ _ Hff ltac:(by destruct f)) as Hp0.
  pose proof (foc_sib_ne _ _ _ _ _ Hf ltac:(done)) as Hsib.
  destruct f as [fc p kp sib|fc sib p kp]; simpl in *; destruct_and?; rb_read.
  - rewrite app_nil_r. apply (IH c (T fc (T col l x k r) p kp sib)); [simpl in *; lia|done..].
  - split; [done|]. by rewrite app_assoc, last_snoc.
Qed.

Lemma rb_next_focus_ok F s c col l x k r :
  foc F s c (T col l x k r) →
  wp (RB_NEXT x) s (λ p s', s' = s ∧ p = ptr_of (head (inorder r ++ after c))).
Proof.
  intros Hf. unfold RB_NEXT. foc_facts Hf. apply wp_bind, wp_rb_fuel. rb_read.
  destruct (decide (r = E)) as [->|Hr]; simpl.
  - pose proof (foc_ctx_size _ _ _ _ Hf) as Hsz.
    destruct c as [|f c]; [by rb_read|].
    pose proof (proj1 (foc_fill F s f c _) Hf) as Hff.
    pose proof (foc_ne_NULL _ _ _ _ Hff ltac:(by destruct f)) as Hp0.
    pose proof (foc_sib_ne _ _ _ _ _ Hf ltac:(done)) as Hsib.
    destruct f as [fc p kp sib|fc sib p kp]; simpl in Hp0, Hsib, Hsz; foc_facts Hf; rb_read; [done|].
    apply (rb_up_right_ok F (size (heap s)) s c (T fc sib p kp (T col l x k E))); [lia|done..].
  - pose proof (proj2 (foc_fill F s (FR col l x k) c r) Hf) as Hfr.
    pose proof (foc_ne_NULL _ _ _ _ Hfr Hr) as Hr0. rb_read.
    eapply wp_mono; [eapply rb_leftmost_ok; [|exact Hfr|done]|].
    { pose proof (foc_depth _ _ _ _ Hfr). lia. }
    intros p s' [-> (cL & lc & lk & lr & -> & Hb)]. split; [done|].
    by rewrite inorder_plug, Hb.
Qed.

Lemma rb_prev_focus_ok F s c col l x k r :
  foc F s c (T col l x k r) →
  wp (RB_PREV x) s (λ p s', s' = s ∧ p = ptr_of (last (before c ++ inorder l))).
Proof.
  intros Hf. unfold RB_PREV. foc_facts Hf. apply wp_bind, wp_rb_fuel. rb_read.
  destruct (decide (l = E)) as [->|Hl]; simpl.
  - rewrite app_nil_r. pose proof (foc_ctx_size _ _ _ _ Hf) as Hsz.
    destruct c as [|f c]; [by rb_read|].
    pose proof (proj1 (foc_fill F s f c _) Hf) as Hff.
    pose proof (foc_ne_NULL _ _ _ _ Hff ltac:(by destruct f)) as Hp0.
    pose proof (foc_sib_ne _ _ _ _ _ Hf ltac:(done)) as Hsib.
    destruct f as [fc p kp sib|fc sib p kp]; simpl in Hp0, Hsib, Hsz; foc_facts Hf; rb_read.
    + rewrite app_nil_r.
      apply (rb_up_left_ok F (size (heap s)) s c (T fc (T col E x k r) p kp sib)); [lia|done..].
    + split; [done|]. by rewrite app_assoc, last_snoc.
  - pose proof (proj2 (foc_fill F s (FL col x k r) c l) Hf) as Hfl.
    pose proof (foc_ne_NULL _ _ _ _ Hfl Hl) as Hl0. rb_read.
    eapply wp_mono; [eapply rb_rightmost_ok; [|exact Hfl|done]|].
    { pose proof (foc_depth _ _ _ _ Hfl). lia. }
    intros p s' [-> (cR & rc & rl & rk & -> & Ha)]. split; [done|].
    rewrite inorder_plug, Ha. simpl. by rewrite app_nil_r, !app_assoc, last_snoc.
Qed.

Lemma rb_next_ok F s l1 x k l2 :
  rb_holds cmp F s (l1 ++ (x, k) :: l2) → wp (RB_NEXT x) s (λ p s', s' = s ∧ p = ptr_of (head l2)).
Proof.
  intros (t & m & Ht & _ & Hin & _).
  destruct (focus_at _ _ _ _ _ Hin) as (c & col & l & r & -> & -> & ->).
  apply foc_plug in Ht. by eapply rb_next_focus_ok.
Qed.
Lemma rb_prev_ok F s l1 x k l2 :
  rb_holds cmp F s (l1 ++ (x, k) :: l2) → wp (RB_PREV x) s (λ p s', s' = s ∧ p = ptr_of (last l1)).
Proof.
  intros (t & m & Ht & _ & Hin & _).
  destruct (focus_at _ _ _ _ _ Hin) as (c & col & l & r & -> & -> & ->).
  apply foc_plug in Ht. by eapply rb_prev_focus_ok.
Qed.

(** ** Whole traversals *)

Lemma rb_holds_size F s els : rb_holds cmp F s els → length els ≤ size (heap s) ∧ NULL ∉ els.*1.
Proof.
  intros (t & m & Ht & _ & <- & _). pose proof (foc_size _ _ _ _ Ht) as Hsz.
  pose proof (foc_null _ _ _ _ Ht) as Hn. change (clocs (@nil (frame K))) with (@nil ptr) in Hsz, Hn.
  rewrite app_nil_r in Hsz, Hn. rewrite locs_inorder in Hn. split; [|done].
  by rewrite <- (length_fmap fst), <- locs_inorder.
Qed.

Lemma rb_foreach_loop_ok F s fuel l1 l2 :
  rb_holds cmp F s (l1 ++ l2) → length l2 < fuel →
  wp (rb_foreach_loop fuel RB_NEXT (ptr_of (head l2))) s (λ l s', s' = s ∧ l = l2.*1).
Proof.
  revert l1 l2. induction fuel as [|fuel IH]; intros l1 l2 Hh Hl; [lia|]. simpl.
  destruct l2 as [|[x k] l2]; simpl; [by rb_read|].
  pose proof (rb_holds_size _ _ _ Hh) as [_ Hn]. rewrite fmap_app, not_elem_of_app, fmap_cons, not_elem_of_cons in Hn.
  destruct Hn as (_ & Hx & _). simpl in Hx, Hl. rb_cond. apply wp_bind.
  eapply wp_mono; [by eapply rb_next_ok|]. intros p s' [-> ->]. apply wp_bind.
  eapply wp_mono; [apply (IH (l1 ++ [(x, k)]) l2); [by rewrite <- app_assoc|lia]|].
  intros l s' [-> ->]. by apply wp_ret.
Qed.
Lemma rb_foreach_reverse_loop_ok F s fuel l1 l2 :
  rb_holds cmp F s (l1 ++ l2) → length l1 < fuel →
  wp (rb_foreach_loop fuel RB_PREV (ptr_of (last l1))) s (λ l s', s' = s ∧ l = reverse (l1.*1)).
Proof.
  revert l1 l2. induction fuel as [|fuel IH]; intros l1 l2 Hh Hl; [lia|]. simpl.
  destruct l1 as [|[x k] l1 _] using rev_ind; simpl; [by rb_read|]. rewrite last_snoc. simpl.
  rewrite <- app_assoc in Hh. simpl in Hh.
  pose proof (rb_holds_size _ _ _ Hh) as [_ Hn]. rewrite fmap_app, not_elem_of_app, fmap_cons, not_elem_of_cons in Hn.
  destruct Hn as (_ & Hx & _). simpl in Hx. rewrite length_app in Hl; simpl in Hl. rb_cond. apply wp_bind.
  eapply wp_mono; [by eapply rb_prev_ok|]. intros p s' [-> ->]. apply wp_bind.
  eapply wp_mono; [apply (IH l1 ((x, k) :: l2)); [done|lia]|].
  intros l s' [-> ->]. apply wp_ret. split; [done|]. by rewrite fmap_app, reverse_app.
Qed.

Lemma rb_foreach_ok F s els :
  rb_holds cmp F s els → wp RB_FOREACH s (λ l s', s' = s ∧ l = els.*1).
Proof.
  intros Hh. unfold RB_FOREACH. apply wp_bind, wp_rb_fuel, wp_bind.
  eapply wp_mono; [by eapply rb_min_ok|]. intros x s' [-> ->].
  eapply (rb_foreach_loop_ok F s _ []); [done|]. pose proof (rb_holds_size _ _ _ Hh). lia.
Qed.
Lemma rb_foreach_reverse_ok F s els :
  rb_holds cmp F s els → wp RB_FOREACH_REVERSE s (λ l s', s' = s ∧ l = reverse (els.*1)).
Proof.
  intros Hh. unfold RB_FOREACH_REVERSE. apply wp_bind, wp_rb_fuel, wp_bind.
  eapply wp_mono; [by eapply rb_max_ok|]. intros x s' [-> ->].
  eapply (rb_foreach_reverse_loop_ok F s _ els []); [by rewrite app_nil_r|].
  pose proof (rb_holds_size _ _ _ Hh). lia.
Qed.
End query.
