(* ===== verification/RbRefine.v ===== *)
(** * Red-black trees of [uv/tree.h]: the abstract specification

    The contract of the RB_* macros as a machine over the sorted sequence of
    elements, and the simulation that ties the pointer code to it: a client
    that only inserts objects it has not linked, and removes or walks from
    objects it has, sees exactly the abstract machine. *)
From stdpp Require Import sorting.
From S2P Require Import Prelude RbTree RbRep RbSplice RbOrder RbInsert RbRemove RbQuery.

(** The calls a client makes; each yields a pointer. *)
Inductive rb_op :=
  | OpInsert (elm : ptr)
  | OpRemove (elm : ptr)
  | OpFind (elm : ptr)
  | OpNfind (elm : ptr)
  | OpNext (elm : ptr)
  | OpPrev (elm : ptr)
  | OpMin
  | OpMax.

Section refine.
Context {K : Type} (cmp : K → K → Z).
(** The objects of the client and their keys. *)
Context (keys : gmap ptr K).
Implicit Types (F : gmap ptr (node K)) (s : rb_state K) (els : list (ptr * K)).

Definition code_step (op : rb_op) : ST (rb_state K) ptr :=
  match op with
  | OpInsert elm => RB_INSERT cmp elm
  | OpRemove elm => RB_REMOVE elm
  | OpFind elm => RB_FIND cmp elm
  | OpNfind elm => RB_NFIND cmp elm
  | OpNext elm => RB_NEXT elm
  | OpPrev elm => RB_PREV elm
  | OpMin => RB_MIN
  | OpMax => RB_MAX
  end.

(** The neighbours of an object in the sequence. *)
Fixpoint split_at (p : ptr) els : option (list (ptr * K) * list (ptr * K)) :=
  match els with
  | [] => None
  | (q, k) :: els =>
    if decide (p = q) then Some ([], els)
    else '(l1, l2) ← split_at p els; Some ((q, k) :: l1, l2)
  end.

(** [None] is a call the contract forbids. *)
Definition spec_step (op : rb_op) els : option (ptr * list (ptr * K)) :=
  match op with
  | OpInsert elm =>
    k ← keys !! elm;
    match split_at elm els with
    | Some _ => None
    | None =>
      match find_key cmp k els with
      | Some (p, _) => Some (p, els)
      | None => Some (NULL, insert_sorted cmp (elm, k) els)
      end
    end
  | OpRemove elm => '(l1, l2) ← split_at elm els; Some (elm, l1 ++ l2)
  | OpFind elm => k ← keys !! elm; Some (ptr_of (find_key cmp k els), els)
  | OpNfind elm => k ← keys !! elm; Some (ptr_of (find_geq cmp k els), els)
  | OpNext elm => '(l1, l2) ← split_at elm els; Some (ptr_of (head l2), els)
  | OpPrev elm => '(l1, l2) ← split_at elm els; Some (ptr_of (last l1), els)
  | OpMin => Some (ptr_of (head els), els)
  | OpMax => Some (ptr_of (last els), els)
  end.

Fixpoint code_run (ops : list rb_op) : ST (rb_state K) (list ptr) :=
  match ops with
  | [] => mret []
  | op :: ops => p ← code_step op; ps ← code_run ops; mret (p :: ps)
  end.
Fixpoint spec_run (ops : list rb_op) els : option (list ptr * list (ptr * K)) :=
  match ops with
  | [] => Some ([], els)
  | op :: ops =>
    '(p, els) ← spec_step op els;
    '(ps, els) ← spec_run ops els;
    Some (p :: ps, els)
  end.

(** The simulation relation: the store holds the sequence, every linked
    object has the key of its payload, and every other object of the client
    is still allocated with its key. *)
Record rb_sim s els : Prop := mk_sim {
  sim_frame : gmap ptr (node K);
  sim_holds : rb_holds cmp sim_frame s els;
  sim_keys : ∀ p k, (p, k) ∈ els → keys !! p = Some k;
  sim_out : ∀ p k, keys !! p = Some k → p ∉ els.*1 → ∃ n, sim_frame !! p = Some n ∧ val n = k;
}.

Lemma split_at_Some p els l1 l2 : split_at p els = Some (l1, l2) → ∃ k, els = l1 ++ (p, k) :: l2.
Proof.
  revert l1. induction els as [|[q k] els IH]; intros l1; simpl; [done|].
  destruct (decide (p = q)) as [->|_]; [intros [= <- <-]; by exists k|].
  destruct (split_at p els) as [[m1 m2]|] eqn:Hsp; [|done]. intros [= <- <-].
  destruct (IH m1 eq_refl) as [k' ->]. by exists k'.
Qed.
Lemma split_at_None p els : split_at p els = None → p ∉ els.*1.
Proof.
  induction els as [|[q k] els IH]; simpl; [intros _; apply not_elem_of_nil|].
  destruct (decide (p = q)) as [|Hpq]; [done|].
  destruct (split_at p els) as [[m1 m2]|]; [done|]. intros _. apply not_elem_of_cons. auto.
Qed.

(** The payload of a client object, linked or not. *)
Lemma rb_sim_lookup s els p k : rb_sim s els → keys !! p = Some k →
  ∃ n, heap s !! p = Some n ∧ val n = k.
Proof.
  intros [F (t & m & Ht & Hm & Hin & Hs) Hk Hout] Hp.
  destruct (split_at p els) as [[l1 l2]|] eqn:Hsp.
  - destruct (split_at_Some _ _ _ _ Hsp) as [k' ->].
    assert (k' = k) as -> by (specialize (Hk p k'); rewrite Hk in Hp by (apply elem_of_app; right; by left); congruence).
    destruct (focus_at _ _ _ _ _ Hin) as (c & col & l & r & -> & _ & _). apply foc_plug in Ht.
    pose proof (foc_tree _ _ _ _ Ht) as (Hx & _). eexists. by split.
  - apply split_at_None in Hsp. destruct (Hout _ _ Hp Hsp) as (n & HF & Hn). exists n. split; [|done].
    rewrite <- HF. apply (foc_frame _ _ _ _ Ht). rewrite app_nil_r, locs_inorder. by rewrite Hin.
Qed.

Context `{!CmpOrder cmp} (keys_null : keys !! NULL = None).

Lemma insert_step_ok s els elm p els' :
  rb_sim s els → spec_step (OpInsert elm) els = Some (p, els') →
  wp (RB_INSERT cmp elm) s (λ r s', r = p ∧ rb_sim s' els').
Proof.
  intros Hsim Hstep. simpl in Hstep.
  destruct (keys !! elm) as [k|] eqn:Hk; [|done]. simpl in Hstep.
  destruct (split_at elm els) as [?|] eqn:Hsp; [done|]. apply split_at_None in Hsp.
  destruct (rb_sim_lookup _ _ _ _ Hsim Hk) as (ne & Hne & Hv).
  destruct Hsim as [F Hh Hkeys Hout].
  eapply wp_mono; [apply (rb_insert_ok cmp F s els elm ne Hh Hne); [by intros ->; congruence|done]|].
  intros r s' Hr. rewrite Hv in Hr. destruct (find_key cmp k els) as [[q kq]|] eqn:Hf.
  - injection Hstep as <- <-. destruct Hr as [-> ->]. split; [done|]. by exists F.
  - injection Hstep as <- <-. destruct Hr as [-> Hh']. split; [done|]. exists F; [done|..].
    + intros q kq. rewrite insert_sorted_perm, elem_of_cons. intros [[= -> ->]|Hq]; [done|by apply Hkeys].
    + intros q kq Hq. rewrite insert_sorted_perm, fmap_cons, not_elem_of_cons. intros [_ Hqe]. by apply Hout.
Qed.

Lemma remove_step_ok s els elm p els' :
  rb_sim s els → spec_step (OpRemove elm) els = Some (p, els') →
  wp (RB_REMOVE elm) s (λ r s', r = p ∧ rb_sim s' els').
Proof.
  intros [F Hh Hkeys Hout] Hstep. simpl in Hstep.
  destruct (split_at elm els) as [[l1 l2]|] eqn:Hsp; [|done]. injection Hstep as <- <-.
  destruct (split_at_Some _ _ _ _ Hsp) as [k ->].
  eapply wp_mono; [by eapply rb_remove_ok|]. intros r s' [-> (n & Hn & Hh')]. split; [done|].
  exists (<[elm:=n]> F); [done|..].
  - intros q kq Hq. apply Hkeys. rewrite elem_of_app, elem_of_cons in *. tauto.
  - intros q kq Hq Hnot. destruct (decide (q = elm)) as [->|Hqe].
    + exists n. rewrite lookup_insert_eq. split; [done|].
      rewrite (Hkeys elm k) in Hq by (apply elem_of_app; right; by left). congruence.
    + rewrite lookup_insert_ne by done. apply Hout; [done|].
      rewrite fmap_app, fmap_cons, not_elem_of_app, not_elem_of_cons in *. naive_solver.
Qed.

(** A query that leaves the store alone. *)
Lemma query_step_ok s els (m : ST (rb_state K) ptr) p :
  rb_sim s els → (∀ F, rb_holds cmp F s els → wp m s (λ r s', s' = s ∧ r = p)) →
  wp m s (λ r s', r = p ∧ rb_sim s' els).
Proof.
  intros Hsim Hm. pose proof Hsim as [F Hh _ _].
  eapply wp_mono; [by apply (Hm F)|]. by intros r s' [-> ->].
Qed.

Lemma step_ok op s els p els' :
  rb_sim s els → spec_step op els = Some (p, els') →
  wp (code_step op) s (λ r s', r = p ∧ rb_sim s' els').
Proof.
  intros Hsim Hstep. destruct op as [elm|elm|elm|elm|elm|elm| |].
  - by eapply insert_step_ok.
  - by eapply remove_step_ok.
  - simpl in *. destruct (keys !! elm) as [k|] eqn:Hk; [|done]. injection Hstep as <- <-.
    destruct (rb_sim_lookup _ _ _ _ Hsim Hk) as (n & Hn & <-).
    apply query_step_ok; [done|]. intros F Hh. by eapply rb_find_ok.
  - simpl in *. destruct (keys !! elm) as [k|] eqn:Hk; [|done]. injection Hstep as <- <-.
    destruct (rb_sim_lookup _ _ _ _ Hsim Hk) as (n & Hn & <-).
    apply query_step_ok; [done|]. intros F Hh. by eapply rb_nfind_ok.
  - simpl in *. destruct (split_at elm els) as [[l1 l2]|] eqn:Hsp; [|done]. injection Hstep as <- <-.
    destruct (split_at_Some _ _ _ _ Hsp) as [k Heq].
    apply query_step_ok; [done|]. intros F Hh. rewrite Heq in Hh. by eapply rb_next_ok.
  - simpl in *. destruct (split_at elm els) as [[l1 l2]|] eqn:Hsp; [|done]. injection Hstep as <- <-.
    destruct (split_at_Some _ _ _ _ Hsp) as [k Heq].
    apply query_step_ok; [done|]. intros F Hh. rewrite Heq in Hh. by eapply rb_prev_ok.
  - simpl in *. injection Hstep as <- <-. apply query_step_ok; [done|]. intros F Hh. by eapply rb_min_ok.
  - simpl in *. injection Hstep as <- <-. apply query_step_ok; [done|]. intros F Hh. by eapply rb_max_ok.
Qed.

Lemma run_ok ops s els ps els' :
  rb_sim s els → spec_run ops els = Some (ps, els') →
  wp (code_run ops) s (λ r s', r = ps ∧ rb_sim s' els').
Proof.
  revert s els ps. induction ops as [|op ops IH]; intros s els ps Hsim Hrun; simpl in *.
  - injection Hrun as <- <-. by apply wp_ret.
  - destruct (spec_step op els) as [[p els1]|] eqn:Hst; [|done]. simpl in Hrun.
    destruct (spec_run ops els1) as [[ps1 els2]|] eqn:Hr; [|done]. simpl in Hrun. injection Hrun as <- <-.
    apply wp_bind. eapply wp_mono; [by eapply step_ok|]. intros r s1 [-> Hs1].
    apply wp_bind. eapply wp_mono; [by eapply IH|]. intros r s2 [-> Hs2]. by apply wp_ret.
Qed.

(** The empty head over allocated objects. *)
Lemma init_sim s : (∀ p k, keys !! p = Some k → ∃ n, heap s !! p = Some n ∧ val n = k) →
  wp RB_INIT s (λ _ s', rb_sim s' []).
Proof.
  intros Hk. unfold RB_INIT. apply wp_set_RB_ROOT. exists (heap s).
  - exists E, 0. split_and!; [|constructor|done|constructor].
    split; simpl; try done; [constructor|apply not_elem_of_nil].
  - intros p k []%not_elem_of_nil.
  - intros p k Hp _. by apply Hk.
Qed.
End refine.
