(* ===== verification/RbTheorems.v ===== *)
(** * Red-black trees of [uv/tree.h]: the theorems

    The correctness statements of the [RB_*] macros, each with an instance on
    a concrete tree of seven objects keyed by [Z] and compared by
    subtraction, the comparison the users of the macros write. *)
From stdpp Require Import sorting.
From S2P Require Import Prelude RbTree RbRep RbSplice RbOrder RbInsert RbRemove RbQuery RbRefine.

(** ** A concrete tree *)

Definition ex_keys : gmap ptr Z :=
  list_to_map [(1, 50%Z); (2, 30%Z); (3, 80%Z); (4, 10%Z); (5, 40%Z); (6, 90%Z); (7, 50%Z)]%N.
(** The objects before any operation: their links hold garbage. *)
Definition ex_objects : rb_state Z := mk_rb 77%N ((λ k, mk_node k (mk_entry 9%N 9%N 9%N 9%Z)) <$> ex_keys).

(** The tree after inserting 50, 30, 80, 10: one black level over one red node. *)
Definition ex_tree : tree Z := T Black (T Black (T Red E 4%N 10%Z E) 2%N 30%Z E) 1%N 50%Z (T Black E 3%N 80%Z E).
Definition ex_state : rb_state Z :=
  match (RB_INIT;; code_run Z.sub [OpInsert 1; OpInsert 2; OpInsert 3; OpInsert 4]%N) ex_objects with
  | Some (_, s) => s
  | None => ex_objects
  end.
Definition ex_els : list (ptr * Z) := [(4%N, 10%Z); (2%N, 30%Z); (1%N, 50%Z); (3%N, 80%Z)].

Lemma ex_balanced : rbt Black 2 ex_tree.
Proof. unfold ex_tree. eauto 10 with rb. Qed.

Lemma ex_holds : rb_holds Z.sub (heap ex_state) ex_state ex_els.
Proof.
  exists ex_tree, 2. split_and!.
  - split; [reflexivity| |done| | |done].
    + vm_compute. repeat split.
    + apply (bool_decide_unpack _). vm_compute. exact I.
    + apply (bool_decide_unpack _). vm_compute. exact I.
  - exact ex_balanced.
  - reflexivity.
  - repeat constructor.
Qed.

Section theorems.
  Context {K : Type} (cmp : K → K → Z) `{!CmpOrder cmp}.
  Implicit Types (F : gmap ptr (node K)) (s : rb_state K) (els : list (ptr * K)).

(** C1. Refinement of the red-black tree macros: any sequence of calls that
    the contract allows (inserting unlinked objects, removing and walking from
    linked ones, searching with any object) runs without a memory error and
    without exhausting its loops, returns exactly the pointers the machine on
    sorted sequences returns, and ends in a store that holds the machine's
    sequence as a balanced red-black tree with every other object intact. *)
Theorem RB_refines_spec (keys : gmap ptr K) ops s els ps els' :
  keys !! NULL = None →
  rb_sim cmp keys s els →
  spec_run cmp keys ops els = Some (ps, els') →
  wp (code_run cmp ops) s (λ r s', r = ps ∧ rb_sim cmp keys s' els').
Proof. intros. by eapply run_ok. Qed.

(** RB_INSERT of an unlinked object: when an element with an equal key is
    linked, it is returned and no byte of the store changes; otherwise NULL is
    returned and the store holds, as a balanced red-black tree, the sequence
    with the object at its sorted place, no object outside the tree touched. *)
Theorem RB_INSERT_correct F s els elm ne :
  rb_holds cmp F s els → heap s !! elm = Some ne → elm ≠ NULL → elm ∉ els.*1 →
  wp (RB_INSERT cmp elm) s (λ r s',
    match find_key cmp (val ne) els with
    | Some (p, _) => r = p ∧ s' = s
    | None => r = NULL ∧ rb_holds cmp F s' (insert_sorted cmp (elm, val ne) els)
    end).
Proof. apply rb_insert_ok, _. Qed.

(** RB_REMOVE of a linked object returns it, and leaves a balanced
    red-black tree that holds the remaining elements in the same order; of the
    objects outside the remaining tree only the links of the removed one may
    differ. *)
Theorem RB_REMOVE_correct F s l1 x k l2 :
  rb_holds cmp F s (l1 ++ (x, k) :: l2) →
  wp (RB_REMOVE x) s (λ p s', p = x ∧ ∃ n, val n = k ∧ rb_holds cmp (<[x:=n]> F) s' (l1 ++ l2)).
Proof. apply rb_remove_ok. Qed.

(** RB_FIND returns the element with an equal key, NULL when there is
    none, within 2 lg (n + 1) + 1 iterations of its loop, and writes
    nothing. *)
Theorem RB_FIND_correct F s els elm ne fuel :
  rb_holds cmp F s els → heap s !! elm = Some ne → 2 * Nat.log2 (S (length els)) < fuel →
  wp (rb_find_loop cmp fuel elm (rbh_root s)) s (λ p s', s' = s ∧ p = ptr_of (find_key cmp (val ne) els)) ∧
  wp (RB_FIND cmp elm) s (λ p s', s' = s ∧ p = ptr_of (find_key cmp (val ne) els)).
Proof. split; [by eapply rb_find_log_ok|by eapply rb_find_ok]. Qed.

(** RB_NFIND returns the first element whose key is not below the search
    key, NULL when all are, and writes nothing. *)
Theorem RB_NFIND_correct F s els elm ne :
  rb_holds cmp F s els → heap s !! elm = Some ne →
  wp (RB_NFIND cmp elm) s (λ p s', s' = s ∧ p = ptr_of (find_geq cmp (val ne) els)).
Proof. apply rb_nfind_ok, _. Qed.

(** RB_NEXT and RB_PREV of a linked object return its neighbours in key
    order, NULL at the ends, and write nothing. *)
Theorem RB_NEXT_PREV_correct F s l1 x k l2 :
  rb_holds cmp F s (l1 ++ (x, k) :: l2) →
  wp (RB_NEXT x) s (λ p s', s' = s ∧ p = ptr_of (head l2)) ∧
  wp (RB_PREV x) s (λ p s', s' = s ∧ p = ptr_of (last l1)).
Proof. intros Hh. split; [by eapply rb_next_ok|by eapply rb_prev_ok]. Qed.

(** RB_FOREACH and RB_FOREACH_REVERSE terminate and visit every element
    exactly once, in increasing and decreasing key order, starting from RB_MIN
    and RB_MAX, which return the first and the last element. *)
Theorem RB_FOREACH_correct F s els :
  rb_holds cmp F s els →
  wp RB_MIN s (λ p s', s' = s ∧ p = ptr_of (head els)) ∧
  wp RB_MAX s (λ p s', s' = s ∧ p = ptr_of (last els)) ∧
  wp RB_FOREACH s (λ l s', s' = s ∧ l = els.*1) ∧
  wp RB_FOREACH_REVERSE s (λ l s', s' = s ∧ l = reverse (els.*1)).
Proof.
  intros Hh. split_and!.
  - by eapply rb_min_ok.
  - by eapply rb_max_ok.
  - by eapply rb_foreach_ok.
  - by eapply rb_foreach_reverse_ok.
Qed.

(** The loops for bodies that remove: from an element on, RB_FOREACH_FROM runs
    RB_REMOVE on it and all behind it, in order, and RB_FOREACH_SAFE leaves the
    empty tree. *)
Lemma rb_foreach_remove_loop F fuel s l1 l2 :
  rb_holds cmp F s (l1 ++ l2) → length l2 < fuel →
  wp (rb_foreach_safe_loop fuel RB_NEXT (λ x, RB_REMOVE x;; mret tt) (ptr_of (head l2))) s
    (λ l s', l = l2.*1 ∧ ∃ F', rb_holds cmp F' s' l1).
Proof.
  revert F s l2. induction fuel as [|fuel IH]; intros F s l2 Hh Hl; [lia|]. simpl.
  destruct l2 as [|[x k] l2]; simpl.
  { rewrite app_nil_r in Hh. apply wp_ret. split; [done|by exists F]. }
  pose proof (rb_holds_size _ _ _ _ Hh) as [_ Hn]. rewrite fmap_app, not_elem_of_app, fmap_cons, not_elem_of_cons in Hn.
  destruct Hn as (_ & Hx & _). simpl in Hx, Hl. destruct (N.eqb_spec x NULL) as [->|_]; [done|]. apply wp_bind.
  eapply wp_mono; [by eapply rb_next_ok|]. intros p s' [-> ->]. apply wp_bind, wp_bind.
  eapply wp_mono; [by eapply rb_remove_ok|]. intros p s1 [_ (n & _ & Hh1)]. apply wp_ret, wp_bind.
  eapply wp_mono; [apply (IH _ s1 l2 Hh1); lia|]. intros l s2 [-> Hs2]. by apply wp_ret.
Qed.
Theorem RB_FOREACH_remove F s l1 l2 :
  rb_holds cmp F s (l1 ++ l2) →
  wp (RB_FOREACH_FROM (ptr_of (head l2)) (λ x, RB_REMOVE x;; mret tt)) s (λ l s', l = l2.*1 ∧ ∃ F', rb_holds cmp F' s' l1) ∧
  wp (RB_FOREACH_SAFE (λ x, RB_REMOVE x;; mret tt)) s (λ l s', l = (l1 ++ l2).*1 ∧ ∃ F', rb_holds cmp F' s' []).
Proof.
  intros Hh. pose proof (rb_holds_size _ _ _ _ Hh) as [Hsz _]. split; apply wp_bind, wp_rb_fuel.
  - eapply rb_foreach_remove_loop; [done|]. rewrite length_app in Hsz. lia.
  - apply wp_bind. eapply wp_mono; [by eapply rb_min_ok|]. intros x s' [-> ->]. eapply (rb_foreach_remove_loop F _ s [] (l1 ++ l2)); [done|lia].
Qed.
End theorems.

(** C23. The bound that the introduction of tree.h states: after any sequence
    of calls that the contract allows, the loops of RB_FIND and RB_NFIND have
    found their answer after at most 2 lg (n + 1) + 1 iterations, for n
    elements. *)
Theorem RB_search_bound {K} (cmp : K → K → Z) `{!CmpOrder cmp} (keys : gmap ptr K) ops s els ps els' :
  keys !! NULL = None → rb_sim cmp keys s els → spec_run cmp keys ops els = Some (ps, els') →
  wp (code_run cmp ops) s (λ _ s', ∀ elm ne fuel, heap s' !! elm = Some ne → 2 * Nat.log2 (S (length els')) < fuel →
    wp (rb_find_loop cmp fuel elm (rbh_root s')) s' (λ p s'', s'' = s' ∧ p = ptr_of (find_key cmp (val ne) els')) ∧
    wp (rb_nfind_loop cmp fuel elm (rbh_root s') NULL) s' (λ p s'', s'' = s' ∧ p = ptr_of (find_geq cmp (val ne) els'))).
Proof.
  intros Hk Hs Hr. eapply wp_mono; [by eapply run_ok|]. intros _ s' [_ [F Hh _ _]] elm ne fuel He Hf. split.
  - by eapply rb_find_log_ok.
  - by eapply rb_nfind_log_ok.
Qed.

(** ** The theorems on the concrete tree *)

Lemma ex_sim : rb_sim Z.sub ex_keys ex_state ex_els.
Proof.
  exists (heap ex_state); [exact ex_holds|..].
  - intros p k Hp. unfold ex_els in Hp. rewrite !elem_of_cons in Hp.
    destruct Hp as [[= -> ->]|[[= -> ->]|[[= -> ->]|[[= -> ->]|[]%not_elem_of_nil]]]]; reflexivity.
  - intros p k Hp _. apply elem_of_list_to_map_2 in Hp. rewrite !elem_of_cons in Hp.
    destruct Hp as [[= -> ->]|[[= -> ->]|[[= -> ->]|[[= -> ->]|[[= -> ->]|[[= -> ->]|[[= -> ->]|[]%not_elem_of_nil]]]]]]];
      (eexists; split; [vm_compute; reflexivity|reflexivity]).
Qed.
Lemma RB_refines_spec_witness :
  wp (code_run Z.sub [OpInsert 5; OpInsert 7; OpRemove 1; OpFind 7; OpNext 5; OpMax]%N) ex_state
    (λ r s', r = [0; 1; 1; 0; 3; 3]%N ∧
             rb_sim Z.sub ex_keys s' [(4%N, 10%Z); (2%N, 30%Z); (5%N, 40%Z); (3%N, 80%Z)]).
Proof. apply (RB_refines_spec Z.sub ex_keys _ ex_state ex_els); [reflexivity|exact ex_sim|reflexivity]. Defined.

Lemma RB_INSERT_correct_witness :
  wp (RB_INSERT Z.sub 5%N) ex_state (λ r s', r = NULL ∧
    rb_holds Z.sub (heap ex_state) s' [(4%N, 10%Z); (2%N, 30%Z); (5%N, 40%Z); (1%N, 50%Z); (3%N, 80%Z)]).
Proof.
  apply (RB_INSERT_correct Z.sub (heap ex_state) ex_state ex_els 5%N (mk_node 40%Z (mk_entry 9%N 9%N 9%N 9%Z)) ex_holds);
    [reflexivity|done|]. apply (bool_decide_unpack _). vm_compute. exact I.
Defined.

Lemma RB_REMOVE_correct_witness :
  wp (RB_REMOVE 1%N) ex_state (λ p s', p = 1%N ∧ ∃ n, val n = 50%Z ∧
    rb_holds Z.sub (<[1%N:=n]> (heap ex_state)) s' [(4%N, 10%Z); (2%N, 30%Z); (3%N, 80%Z)]).
Proof.
  exact (RB_REMOVE_correct Z.sub (heap ex_state) ex_state [(4%N, 10%Z); (2%N, 30%Z)] 1%N 50%Z [(3%N, 80%Z)] ex_holds).
Defined.

Lemma RB_FIND_correct_witness :
  wp (rb_find_loop Z.sub 5 7%N (rbh_root ex_state)) ex_state (λ p s', s' = ex_state ∧ p = 1%N) ∧
  wp (RB_FIND Z.sub 7%N) ex_state (λ p s', s' = ex_state ∧ p = 1%N).
Proof.
  apply (RB_FIND_correct Z.sub (heap ex_state) ex_state ex_els 7%N (mk_node 50%Z (mk_entry 9%N 9%N 9%N 9%Z)) 5 ex_holds);
    [reflexivity|]. apply Nat.ltb_lt. reflexivity.
Defined.

Lemma RB_NFIND_correct_witness :
  wp (RB_NFIND Z.sub 5%N) ex_state (λ p s', s' = ex_state ∧ p = 1%N).
Proof.
  apply (RB_NFIND_correct Z.sub (heap ex_state) ex_state ex_els 5%N (mk_node 40%Z (mk_entry 9%N 9%N 9%N 9%Z)) ex_holds).
  reflexivity.
Defined.

Lemma RB_NEXT_PREV_correct_witness :
  wp (RB_NEXT 2%N) ex_state (λ p s', s' = ex_state ∧ p = 1%N) ∧
  wp (RB_PREV 2%N) ex_state (λ p s', s' = ex_state ∧ p = 4%N).
Proof.
  exact (RB_NEXT_PREV_correct Z.sub (heap ex_state) ex_state [(4%N, 10%Z)] 2%N 30%Z [(1%N, 50%Z); (3%N, 80%Z)] ex_holds).
Defined.

Lemma RB_FOREACH_correct_witness :
  wp RB_MIN ex_state (λ p s', s' = ex_state ∧ p = 4%N) ∧
  wp RB_MAX ex_state (λ p s', s' = ex_state ∧ p = 3%N) ∧
  wp RB_FOREACH ex_state (λ l s', s' = ex_state ∧ l = [4; 2; 1; 3]%N) ∧
  wp RB_FOREACH_REVERSE ex_state (λ l s', s' = ex_state ∧ l = [3; 1; 2; 4]%N).
Proof. exact (RB_FOREACH_correct Z.sub (heap ex_state) ex_state ex_els ex_holds). Defined.

Lemma RB_search_bound_witness :
  wp (code_run Z.sub [OpInsert 5; OpRemove 1; OpInsert 7]%N) ex_state (λ _ s', ∀ elm ne fuel, heap s' !! elm = Some ne → 4 < fuel →
    wp (rb_find_loop Z.sub fuel elm (rbh_root s')) s' (λ p s'', s'' = s' ∧ p = ptr_of (find_key Z.sub (val ne) [(4%N, 10%Z); (2%N, 30%Z); (5%N, 40%Z); (7%N, 50%Z); (3%N, 80%Z)])) ∧
    wp (rb_nfind_loop Z.sub fuel elm (rbh_root s') NULL) s' (λ p s'', s'' = s' ∧ p = ptr_of (find_geq Z.sub (val ne) [(4%N, 10%Z); (2%N, 30%Z); (5%N, 40%Z); (7%N, 50%Z); (3%N, 80%Z)]))).
Proof.
  apply (RB_search_bound Z.sub ex_keys [OpInsert 5; OpRemove 1; OpInsert 7]%N ex_state ex_els [0; 1; 0]%N [(4%N, 10%Z); (2%N, 30%Z); (5%N, 40%Z); (7%N, 50%Z); (3%N, 80%Z)]); [reflexivity|exact ex_sim|reflexivity].
Defined.
