(* ===== verification/SplayTree.v ===== *)
(** * Splay trees of [uv/tree.h]: the code

    The [SPLAY_*] macros of src/libuv_helper/uv/tree.h, translated statement
    by statement over a store of objects, as RbTree.v does for the [RB_*]
    macros.  The local variable [struct type __node] of the splaying
    functions is an object of the store for as long as the function runs: it
    gets an address of its own, which [SPLAY_LINKLEFT] and [SPLAY_LINKRIGHT]
    write through, and its payload is indeterminate. *)
From S2P Require Import Prelude RbTree.

(** [SPLAY_ENTRY(type)] *)
Record SPLAY_ENTRY := mk_sentry { spe_left : ptr; spe_right : ptr }.

(** [struct type]; the payload is [None] while it is indeterminate. *)
Record snode (K : Type) := mk_snode { sval : option K; sfield : SPLAY_ENTRY }.
Arguments mk_snode {_} _ _.
Arguments sval {_} _.
Arguments sfield {_} _.

(** [SPLAY_HEAD(name, type)] together with the store. *)
Record splay_state (K : Type) := mk_sp { sph_root : ptr; sheap : gmap ptr (snode K) }.
Arguments mk_sp {_} _ _.
Arguments sph_root {_} _.
Arguments sheap {_} _.

Section code.
Context {K : Type}.
Variable cmp : K → K → Z.

Abbreviation M := (ST (splay_state K)).

(** ** Access to the fields *)
Definition sderef (p : ptr) : M (snode K) := st_gets (λ s, sheap s !! p).
Definition swrite (p : ptr) (n : snode K) : M unit :=
  st_mod (λ s, _ ← sheap s !! p; Some (mk_sp (sph_root s) (<[p:=n]> (sheap s)))).

Definition SPLAY_LEFT (elm : ptr) : M ptr := n ← sderef elm; mret (spe_left (sfield n)).
Definition SPLAY_RIGHT (elm : ptr) : M ptr := n ← sderef elm; mret (spe_right (sfield n)).
Definition SPLAY_ROOT : M ptr := s ← st_get; mret (sph_root s).
Definition SPLAY_EMPTY : M bool := r ← SPLAY_ROOT; mret (r =? NULL)%N.
Definition set_SPLAY_LEFT (elm v : ptr) : M unit :=
  n ← sderef elm; swrite elm (mk_snode (sval n) (mk_sentry v (spe_right (sfield n)))).
Definition set_SPLAY_RIGHT (elm v : ptr) : M unit :=
  n ← sderef elm; swrite elm (mk_snode (sval n) (mk_sentry (spe_left (sfield n)) v)).
Definition set_SPLAY_ROOT (v : ptr) : M unit := st_mod (λ s, Some (mk_sp v (sheap s))).

(** [(cmp)(a, b)]; it reads both payloads. *)
Definition payload (p : ptr) : M K := n ← sderef p; st_gets (λ _, sval n).
Definition scompare (a b : ptr) : M Z := x ← payload a; y ← payload b; mret (cmp x y).

(** A local [struct type]: its address, different from NULL and from every
    object's (its links are assigned before they are read); and the end of its
    lifetime. *)
Definition new_local : M ptr := λ s,
  let p := fresh ({[NULL]} ∪ dom (sheap s)) in
  Some (p, mk_sp (sph_root s) (<[p := mk_snode None (mk_sentry NULL NULL)]> (sheap s))).
Definition end_local (p : ptr) : M unit :=
  st_mod (λ s, Some (mk_sp (sph_root s) (delete p (sheap s)))).

(** Enough iterations for any loop over the store. *)
Definition sp_fuel : M nat := s ← st_get; mret (S (size (sheap s))).

Definition SPLAY_INIT : M unit := set_SPLAY_ROOT NULL.

(** ** The macros on the root *)
Definition SPLAY_ROTATE_RIGHT (tmp : ptr) : M unit :=
  r ← SPLAY_ROOT; tr ← SPLAY_RIGHT tmp; set_SPLAY_LEFT r tr;;
  r ← SPLAY_ROOT; set_SPLAY_RIGHT tmp r;;
  set_SPLAY_ROOT tmp.
Definition SPLAY_ROTATE_LEFT (tmp : ptr) : M unit :=
  r ← SPLAY_ROOT; tl ← SPLAY_LEFT tmp; set_SPLAY_RIGHT r tl;;
  r ← SPLAY_ROOT; set_SPLAY_LEFT tmp r;;
  set_SPLAY_ROOT tmp.
(** The value is what the macro leaves in its argument [tmp]. *)
Definition SPLAY_LINKLEFT (tmp : ptr) : M ptr :=
  r ← SPLAY_ROOT; set_SPLAY_LEFT tmp r;;
  tmp ← SPLAY_ROOT;
  r ← SPLAY_ROOT; l ← SPLAY_LEFT r; set_SPLAY_ROOT l;;
  mret tmp.
Definition SPLAY_LINKRIGHT (tmp : ptr) : M ptr :=
  r ← SPLAY_ROOT; set_SPLAY_RIGHT tmp r;;
  tmp ← SPLAY_ROOT;
  r ← SPLAY_ROOT; l ← SPLAY_RIGHT r; set_SPLAY_ROOT l;;
  mret tmp.
Definition SPLAY_ASSEMBLE (node __left __right : ptr) : M unit :=
  r ← SPLAY_ROOT; rl ← SPLAY_LEFT r; set_SPLAY_RIGHT __left rl;;
  r ← SPLAY_ROOT; rr ← SPLAY_RIGHT r; set_SPLAY_LEFT __right rr;;
  r ← SPLAY_ROOT; nr ← SPLAY_RIGHT node; set_SPLAY_LEFT r nr;;
  r ← SPLAY_ROOT; nl ← SPLAY_LEFT node; set_SPLAY_RIGHT r nl.

(** ** name##_SPLAY

    The loop; its values are [__left] and [__right] at the end.  [stop] says
    that the [break] after the rotation is taken. *)
Fixpoint splay_loop (fuel : nat) (elm __left __right : ptr) : M (ptr * ptr) :=
  match fuel with
  | O => st_fail
  | S fuel =>
    r ← SPLAY_ROOT;
    comp ← scompare elm r;
    if (comp =? 0)%Z then mret (__left, __right)
    else if (comp <? 0)%Z then
      r ← SPLAY_ROOT;
      tmp ← SPLAY_LEFT r;
      if (tmp =? NULL)%N then mret (__left, __right) else
      c ← scompare elm tmp;
      stop ← (if (c <? 0)%Z then
                SPLAY_ROTATE_RIGHT tmp;;
                r ← SPLAY_ROOT; l ← SPLAY_LEFT r; mret (l =? NULL)%N
              else mret false);
      if (stop : bool) then mret (__left, __right) else
      __right ← SPLAY_LINKLEFT __right;
      splay_loop fuel elm __left __right
    else
      r ← SPLAY_ROOT;
      tmp ← SPLAY_RIGHT r;
      if (tmp =? NULL)%N then mret (__left, __right) else
      c ← scompare elm tmp;
      stop ← (if (c >? 0)%Z then
                SPLAY_ROTATE_LEFT tmp;;
                r ← SPLAY_ROOT; l ← SPLAY_RIGHT r; mret (l =? NULL)%N
              else mret false);
      if (stop : bool) then mret (__left, __right) else
      __left ← SPLAY_LINKRIGHT __left;
      splay_loop fuel elm __left __right
  end.

Definition SPLAY (elm : ptr) : M unit :=
  fuel ← sp_fuel;
  node ← new_local;
  set_SPLAY_RIGHT node NULL;; set_SPLAY_LEFT node NULL;;
  '(__left, __right) ← splay_loop fuel elm node node;
  SPLAY_ASSEMBLE node __left __right;;
  end_local node.

(** ** name##_SPLAY_MINMAX *)
Fixpoint splay_minmax_loop (fuel : nat) (comp : Z) (__left __right : ptr) : M (ptr * ptr) :=
  match fuel with
  | O => st_fail
  | S fuel =>
    if (comp <? 0)%Z then
      r ← SPLAY_ROOT;
      tmp ← SPLAY_LEFT r;
      if (tmp =? NULL)%N then mret (__left, __right) else
      stop ← (if (comp <? 0)%Z then
                SPLAY_ROTATE_RIGHT tmp;;
                r ← SPLAY_ROOT; l ← SPLAY_LEFT r; mret (l =? NULL)%N
              else mret false);
      if (stop : bool) then mret (__left, __right) else
      __right ← SPLAY_LINKLEFT __right;
      splay_minmax_loop fuel comp __left __right
    else if (comp >? 0)%Z then
      r ← SPLAY_ROOT;
      tmp ← SPLAY_RIGHT r;
      if (tmp =? NULL)%N then mret (__left, __right) else
      stop ← (if (comp >? 0)%Z then
                SPLAY_ROTATE_LEFT tmp;;
                r ← SPLAY_ROOT; l ← SPLAY_RIGHT r; mret (l =? NULL)%N
              else mret false);
      if (stop : bool) then mret (__left, __right) else
      __left ← SPLAY_LINKRIGHT __left;
      splay_minmax_loop fuel comp __left __right
    else splay_minmax_loop fuel comp __left __right
  end.

Definition SPLAY_MINMAX (comp : Z) : M unit :=
  fuel ← sp_fuel;
  node ← new_local;
  set_SPLAY_RIGHT node NULL;; set_SPLAY_LEFT node NULL;;
  '(__left, __right) ← splay_minmax_loop fuel comp node node;
  SPLAY_ASSEMBLE node __left __right;;
  end_local node.

(** ** The operations *)
Definition SPLAY_INSERT (elm : ptr) : M ptr :=
  empty ← SPLAY_EMPTY;
  if (empty : bool) then
    set_SPLAY_RIGHT elm NULL;; set_SPLAY_LEFT elm NULL;;
    set_SPLAY_ROOT elm;; mret NULL
  else
    SPLAY elm;;
    r ← SPLAY_ROOT;
    comp ← scompare elm r;
    if (comp <? 0)%Z then
      r ← SPLAY_ROOT; rl ← SPLAY_LEFT r; set_SPLAY_LEFT elm rl;;
      r ← SPLAY_ROOT; set_SPLAY_RIGHT elm r;;
      r ← SPLAY_ROOT; set_SPLAY_LEFT r NULL;;
      set_SPLAY_ROOT elm;; mret NULL
    else if (comp >? 0)%Z then
      r ← SPLAY_ROOT; rr ← SPLAY_RIGHT r; set_SPLAY_RIGHT elm rr;;
      r ← SPLAY_ROOT; set_SPLAY_LEFT elm r;;
      r ← SPLAY_ROOT; set_SPLAY_RIGHT r NULL;;
      set_SPLAY_ROOT elm;; mret NULL
    else SPLAY_ROOT.

Definition SPLAY_REMOVE (elm : ptr) : M ptr :=
  empty ← SPLAY_EMPTY;
  if (empty : bool) then mret NULL else
  SPLAY elm;;
  r ← SPLAY_ROOT;
  comp ← scompare elm r;
  if (comp =? 0)%Z then
    r ← SPLAY_ROOT;
    l ← SPLAY_LEFT r;
    (if (l =? NULL)%N then
       r ← SPLAY_ROOT; rr ← SPLAY_RIGHT r; set_SPLAY_ROOT rr
     else
       r ← SPLAY_ROOT; tmp ← SPLAY_RIGHT r;
       r ← SPLAY_ROOT; l ← SPLAY_LEFT r; set_SPLAY_ROOT l;;
       SPLAY elm;;
       r ← SPLAY_ROOT; set_SPLAY_RIGHT r tmp);;
    mret elm
  else mret NULL.

Definition SPLAY_FIND (elm : ptr) : M ptr :=
  empty ← SPLAY_EMPTY;
  if (empty : bool) then mret NULL else
  SPLAY elm;;
  r ← SPLAY_ROOT;
  comp ← scompare elm r;
  if (comp =? 0)%Z then SPLAY_ROOT else mret NULL.

(** [while (SPLAY_LEFT(elm) != NULL) elm = SPLAY_LEFT(elm);] *)
Fixpoint splay_leftmost (fuel : nat) (elm : ptr) : M ptr :=
  match fuel with
  | O => st_fail
  | S fuel =>
    l ← SPLAY_LEFT elm;
    if negb (l =? NULL)%N then elm ← SPLAY_LEFT elm; splay_leftmost fuel elm
    else mret elm
  end.
Definition SPLAY_NEXT (elm : ptr) : M ptr :=
  fuel ← sp_fuel;
  SPLAY elm;;
  r ← SPLAY_RIGHT elm;
  if negb (r =? NULL)%N then elm ← SPLAY_RIGHT elm; splay_leftmost fuel elm
  else mret NULL.

Definition SPLAY_MIN_MAX (v : Z) : M ptr := SPLAY_MINMAX v;; SPLAY_ROOT.
Definition SPLAY_NEGINF : Z := -1.
Definition SPLAY_INF : Z := 1.
Definition SPLAY_MIN : M ptr :=
  empty ← SPLAY_EMPTY; if (empty : bool) then mret NULL else SPLAY_MIN_MAX SPLAY_NEGINF.
Definition SPLAY_MAX : M ptr :=
  empty ← SPLAY_EMPTY; if (empty : bool) then mret NULL else SPLAY_MIN_MAX SPLAY_INF.

(** [SPLAY_FOREACH(x, name, head) body]: the loop with a body that only
    records the elements it is run for. *)
Fixpoint splay_foreach_loop (fuel : nat) (x : ptr) : M (list ptr) :=
  match fuel with
  | O => st_fail
  | S fuel =>
    if negb (x =? NULL)%N then
      x' ← SPLAY_NEXT x; xs ← splay_foreach_loop fuel x'; mret (x :: xs)
    else mret []
  end.
Definition SPLAY_FOREACH : M (list ptr) :=
  x ← SPLAY_MIN; fuel ← sp_fuel; splay_foreach_loop fuel x.
End code.

(** Seven objects, inserted in order, looked up, removed and walked over. *)
Definition sp_objects : splay_state Z :=
  mk_sp 77%N (list_to_map [(1, mk_snode (Some 50%Z) (mk_sentry 9 9));
    (2, mk_snode (Some 30%Z) (mk_sentry 9 9)); (3, mk_snode (Some 80%Z) (mk_sentry 9 9));
    (4, mk_snode (Some 10%Z) (mk_sentry 9 9)); (5, mk_snode (Some 40%Z) (mk_sentry 9 9))]%N).
Example splay_example :
  fst <$> (SPLAY_INIT;;
    a ← SPLAY_INSERT Z.sub 1%N; SPLAY_INSERT Z.sub 2%N;; SPLAY_INSERT Z.sub 3%N;;
    SPLAY_INSERT Z.sub 4%N;; b ← SPLAY_INSERT Z.sub 5%N; c ← SPLAY_INSERT Z.sub 2%N;
    l1 ← SPLAY_FOREACH Z.sub; d ← SPLAY_REMOVE Z.sub 2%N; l2 ← SPLAY_FOREACH Z.sub;
    e ← SPLAY_FIND Z.sub 2%N; mx ← SPLAY_MAX; mret (a, b, c, d, e, mx, l1, l2)) sp_objects
  = Some (0, 0, 2, 2, 0, 3, [4; 2; 5; 1; 3], [4; 5; 1; 3])%N.
Proof. vm_compute. reflexivity. Qed.
