(* ===== verification/SplayRep.v ===== *)
(** * Splay trees of [uv/tree.h]: the store and the splaying step

    A store holds a list of cells (an object with its content) when the
    objects are distinct and every other object is as in the store before:
    the list is a separating conjunction up to permutation, and a read or a
    write uses one of its cells.  Trees and the two partial trees a top-down
    splay builds are lists of cells, and the macros [SPLAY_ROTATE_*],
    [SPLAY_LINK*] and [SPLAY_ASSEMBLE] are specified on them. *)
From S2P Require Import Prelude RbTree SplayTree.

Section cells.
Context {K : Type}.
Abbreviation cell := (ptr * snode K)%type.
Implicit Types (F : gmap ptr (snode K)) (s : splay_state K) (cs : list cell) (n : snode K).

(** [ek] is an object whose payload does not change while the code runs. *)
Record holds F s (ek : ptr * K) cs : Prop := mk_holds {
  h_nodup : NoDup cs.*1;
  h_null : NULL ∉ cs.*1;
  h_cells : Forall (λ c, sheap s !! c.1 = Some c.2) cs;
  h_frame : ∀ p, p ∉ cs.*1 → sheap s !! p = F !! p;
  h_elm : sval <$> sheap s !! ek.1 = Some (Some ek.2);
}.

#[global] Instance holds_proper F s ek : Proper ((≡ₚ) ==> iff) (holds F s ek).
Proof.
  enough (∀ cs cs', cs ≡ₚ cs' → holds F s ek cs → holds F s ek cs') as H by (split; by apply H).
  intros cs cs' Hp [Hd Hn Hc Hf He]. assert (Hp1 : cs.*1 ≡ₚ cs'.*1) by (by rewrite Hp).
  split; [by rewrite <- Hp1|by rewrite <- Hp1|by rewrite <- Hp| |done].
  intros p. rewrite <- Hp1. apply Hf.
Qed.

Definition supd s p n : splay_state K := mk_sp (sph_root s) (<[p:=n]> (sheap s)).
Definition with_root s r : splay_state K := mk_sp r (sheap s).

Lemma holds_root F s ek cs r : holds F s ek cs → holds F (with_root s r) ek cs.
Proof. by intros []. Qed.

Lemma holds_lookup F s ek p n cs : holds F s ek ((p, n) :: cs) → sheap s !! p = Some n.
Proof. intros [_ _ H _ _]. by apply Forall_cons in H as [H _]. Qed.

Lemma holds_upd F s ek p n n' cs : sval n' = sval n →
  holds F s ek ((p, n) :: cs) → holds F (supd s p n') ek ((p, n') :: cs).
Proof.
  intros Hv [Hd Hn Hc Hf He]. apply Forall_cons in Hc as [Hp Hc]. simpl in Hp.
  pose proof Hd as Hd'. rewrite fmap_cons, NoDup_cons in Hd'. destruct Hd' as [Hpn _].
  split; simpl; [done|done| | |].
  - constructor; [by rewrite lookup_insert_eq|].
    apply Forall_forall. intros c Hin. simpl. rewrite lookup_insert_ne.
    + rewrite Forall_forall in Hc. by apply Hc.
    + intros ->. apply Hpn, list_elem_of_fmap. by exists c.
  - intros q Hq. simpl in Hf. rewrite lookup_insert_ne; [by apply Hf|].
    intros ->. apply Hq. by left.
  - destruct (decide (p = ek.1)) as [->|]; [|by rewrite lookup_insert_ne].
    rewrite Hp in He. rewrite lookup_insert_eq. simpl in *. by rewrite Hv.
Qed.

(** ** Reads and writes *)
Lemma swp_deref p s n (Q : snode K → splay_state K → Prop) :
  sheap s !! p = Some n → Q n s → wp (sderef p) s Q.
Proof. intros. by eapply wp_gets. Qed.
Lemma wp_SPLAY_LEFT p s n (Q : ptr → splay_state K → Prop) :
  sheap s !! p = Some n → Q (spe_left (sfield n)) s → wp (SPLAY_LEFT p) s Q.
Proof. intros. by eapply wp_bind, swp_deref, wp_ret. Qed.
Lemma wp_SPLAY_RIGHT p s n (Q : ptr → splay_state K → Prop) :
  sheap s !! p = Some n → Q (spe_right (sfield n)) s → wp (SPLAY_RIGHT p) s Q.
Proof. intros. by eapply wp_bind, swp_deref, wp_ret. Qed.
Lemma wp_SPLAY_ROOT s (Q : ptr → splay_state K → Prop) : Q (sph_root s) s → wp SPLAY_ROOT s Q.
Proof. intros. by apply wp_bind, wp_get, wp_ret. Qed.
Lemma wp_set_SPLAY_ROOT v s Q : Q tt (with_root s v) → wp (set_SPLAY_ROOT v) s Q.
Proof. intros. by eapply wp_mod. Qed.
Lemma wp_sp_fuel s (Q : nat → splay_state K → Prop) :
  Q (S (size (sheap s))) s → wp sp_fuel s Q.
Proof. intros. by apply wp_bind, wp_get, wp_ret. Qed.
Lemma wp_swrite p s n n' Q :
  sheap s !! p = Some n → Q tt (supd s p n') → wp (swrite p n') s Q.
Proof. intros Hp HQ. eapply wp_mod; [|exact HQ]. by rewrite Hp. Qed.
Lemma wp_set_SPLAY_LEFT p v s n Q :
  sheap s !! p = Some n →
  Q tt (supd s p (mk_snode (sval n) (mk_sentry v (spe_right (sfield n))))) →
  wp (set_SPLAY_LEFT p v) s Q.
Proof. intros. eapply wp_bind, swp_deref, wp_swrite; eauto. Qed.
Lemma wp_set_SPLAY_RIGHT p v s n Q :
  sheap s !! p = Some n →
  Q tt (supd s p (mk_snode (sval n) (mk_sentry (spe_left (sfield n)) v))) →
  wp (set_SPLAY_RIGHT p v) s Q.
Proof. intros. eapply wp_bind, swp_deref, wp_swrite; eauto. Qed.
Lemma wp_scompare (cmp : K → K → Z) a b s x y (Q : Z → splay_state K → Prop) :
  sval <$> sheap s !! a = Some (Some x) → sval <$> sheap s !! b = Some (Some y) →
  Q (cmp x y) s → wp (scompare cmp a b) s Q.
Proof.
  intros Ha Hb HQ. apply fmap_Some in Ha as (na & Ha & Hxa). apply fmap_Some in Hb as (nb & Hb & Hyb).
  eapply wp_bind, wp_bind, swp_deref; [exact Ha|]. eapply wp_gets; [by rewrite <- Hxa|].
  eapply wp_bind, wp_bind, swp_deref; [exact Hb|]. eapply wp_gets; [by rewrite <- Hyb|].
  by apply wp_ret.
Qed.
End cells.

(** ** Trees *)
Section trees.
Context {K : Type}.
Abbreviation cell := (ptr * snode K)%type.
Implicit Types (F : gmap ptr (snode K)) (s : splay_state K) (cs : list cell).

Inductive stree :=
  | SE
  | SN (l : stree) (x : ptr) (k : K) (r : stree).

Definition sroot (t : stree) : ptr := match t with SE => NULL | SN _ x _ _ => x end.
Definition cellof (x : ptr) (k : option K) (l r : ptr) : cell := (x, mk_snode k (mk_sentry l r)).
Fixpoint cells (t : stree) : list cell :=
  match t with
  | SE => []
  | SN l x k r => cellof x (Some k) (sroot l) (sroot r) :: cells l ++ cells r
  end.
Fixpoint sinorder (t : stree) : list (ptr * K) :=
  match t with SE => [] | SN l x k r => sinorder l ++ (x, k) :: sinorder r end.

(** The left partial tree, innermost element first: each element with its
    left subtree; its right child is the next one, and that of the innermost
    one is [hole].  The right partial tree is the mirror image. *)
Abbreviation lzip := (list (stree * ptr * K)).
Fixpoint lcells (hole : ptr) (z : lzip) : list cell :=
  match z with
  | [] => []
  | (l, x, k) :: z => cellof x (Some k) (sroot l) hole :: cells l ++ lcells x z
  end.
Fixpoint rcells (hole : ptr) (z : lzip) : list cell :=
  match z with
  | [] => []
  | (r, x, k) :: z => cellof x (Some k) hole (sroot r) :: cells r ++ rcells x z
  end.
(** The innermost element, or [&__node]; the outermost one, or the hole. *)
Definition inner (node : ptr) (z : lzip) : ptr := match z with [] => node | (_, x, _) :: _ => x end.
Fixpoint outer (hole : ptr) (z : lzip) : ptr := match z with [] => hole | (_, x, _) :: z => outer x z end.

Fixpoint lbuild (z : lzip) (t : stree) : stree :=
  match z with [] => t | (l, x, k) :: z => lbuild z (SN l x k t) end.
Fixpoint rbuild (z : lzip) (t : stree) : stree :=
  match z with [] => t | (r, x, k) :: z => rbuild z (SN t x k r) end.

Fixpoint lseq (z : lzip) : list (ptr * K) :=
  match z with [] => [] | (l, x, k) :: z => lseq z ++ sinorder l ++ [(x, k)] end.
Fixpoint rseq (z : lzip) : list (ptr * K) :=
  match z with [] => [] | (r, x, k) :: z => (x, k) :: sinorder r ++ rseq z end.

Lemma sroot_lbuild z t : sroot (lbuild z t) = outer (sroot t) z.
Proof. revert t. induction z as [|[[l x] k] z IH]; intros t; [done|apply IH]. Qed.
Lemma sroot_rbuild z t : sroot (rbuild z t) = outer (sroot t) z.
Proof. revert t. induction z as [|[[l x] k] z IH]; intros t; [done|apply IH]. Qed.
Lemma cells_lbuild z t : cells (lbuild z t) ≡ₚ cells t ++ lcells (sroot t) z.
Proof.
  revert t. induction z as [|[[l x] k] z IH]; intros t; simpl; [by rewrite app_nil_r|].
  rewrite IH. simpl. solve_Permutation.
Qed.
Lemma cells_rbuild z t : cells (rbuild z t) ≡ₚ cells t ++ rcells (sroot t) z.
Proof.
  revert t. induction z as [|[[l x] k] z IH]; intros t; simpl; [by rewrite app_nil_r|].
  rewrite IH. simpl. solve_Permutation.
Qed.
Lemma inorder_lbuild z t : sinorder (lbuild z t) = lseq z ++ sinorder t.
Proof.
  revert t. induction z as [|[[l x] k] z IH]; intros t; simpl; [done|].
  rewrite IH. simpl. by rewrite <- !app_assoc.
Qed.
Lemma inorder_rbuild z t : sinorder (rbuild z t) = sinorder t ++ rseq z.
Proof.
  revert t. induction z as [|[[l x] k] z IH]; intros t; simpl; [by rewrite app_nil_r|].
  rewrite IH. simpl. by rewrite <- !app_assoc.
Qed.
Lemma cells_inorder t : (cells t).*1 ≡ₚ (sinorder t).*1.
Proof.
  induction t as [|l IHl x k r IHr]; [done|]. simpl.
  rewrite !fmap_app, fmap_cons, IHl, IHr. simpl. solve_Permutation.
Qed.

(** ** A splay in progress *)

(** The middle tree [t], the partial trees, and [__node] at [nd], whose right
    child is the outermost element of the left tree and whose left child that
    of the right tree; [hl] and [hr] are the stale contents of the holes. *)
Definition config (nd hl hr : ptr) (lz rz : lzip) (t : stree) : list cell :=
  cellof nd None (outer hr rz) (outer hl lz) :: cells t ++ lcells hl lz ++ rcells hr rz.

Record splaying F s ek (nd hl hr : ptr) lz rz t : Prop := mk_splaying {
  sp_holds : holds F s ek (config nd hl hr lz rz t);
  sp_root : sph_root s = sroot t;
}.
End trees.
Arguments stree : clear implicits.
Abbreviation lzip K := (list (stree K * ptr * K)).

(** ** The macros on a splay in progress *)
Section prims.
Context {K : Type}.
Implicit Types (F : gmap ptr (snode K)) (s : splay_state K) (t l r : stree K) (lz rz : lzip K).

Lemma holds_in F s ek cs p n : holds F s ek cs → (p, n) ∈ cs → sheap s !! p = Some n.
Proof. intros [_ _ H _ _] Hin. rewrite Forall_forall in H. by apply (H (p, n)). Qed.

(** Write to one of the cells. *)
Lemma wp_holds_right F s ek cs p kv a b v rest (Q : unit → splay_state K → Prop) :
  holds F s ek cs → cs ≡ₚ cellof p kv a b :: rest →
  (∀ s', holds F s' ek (cellof p kv a v :: rest) → sph_root s' = sph_root s → Q tt s') →
  wp (set_SPLAY_RIGHT p v) s Q.
Proof.
  intros H Hp HQ. rewrite Hp in H. eapply wp_set_SPLAY_RIGHT; [by eapply holds_lookup|].
  apply HQ; [|done]. by apply (holds_upd F s ek p (mk_snode kv (mk_sentry a b)) _ rest).
Qed.
Lemma wp_holds_left F s ek cs p kv a b v rest (Q : unit → splay_state K → Prop) :
  holds F s ek cs → cs ≡ₚ cellof p kv a b :: rest →
  (∀ s', holds F s' ek (cellof p kv v b :: rest) → sph_root s' = sph_root s → Q tt s') →
  wp (set_SPLAY_LEFT p v) s Q.
Proof.
  intros H Hp HQ. rewrite Hp in H. eapply wp_set_SPLAY_LEFT; [by eapply holds_lookup|].
  apply HQ; [|done]. by apply (holds_upd F s ek p (mk_snode kv (mk_sentry a b)) _ rest).
Qed.
Lemma wp_holds_get_left F s ek cs p kv a b (Q : ptr → splay_state K → Prop) :
  holds F s ek cs → cellof p kv a b ∈ cs → Q a s → wp (SPLAY_LEFT p) s Q.
Proof. intros H Hin HQ. eapply wp_SPLAY_LEFT; [by eapply holds_in|done]. Qed.
Lemma wp_holds_get_right F s ek cs p kv a b (Q : ptr → splay_state K → Prop) :
  holds F s ek cs → cellof p kv a b ∈ cs → Q b s → wp (SPLAY_RIGHT p) s Q.
Proof. intros H Hin HQ. eapply wp_SPLAY_RIGHT; [by eapply holds_in|done]. Qed.
End prims.

(** Membership of a cell in a list of cells. *)
Ltac scell_go :=
  lazymatch goal with
  | |- _ ∈ _ :: _ => first [apply list_elem_of_here | apply list_elem_of_further; scell_go]
  | |- _ ∈ _ ++ _ => apply elem_of_app; first [left; scell_go | right; scell_go]
  end.
Ltac scell := unfold config; simpl; scell_go.
(** Symbolic execution of a read, from the cells of [H]. *)
Ltac sp_read H :=
  lazymatch goal with
  | |- wp (mbind _ _) _ _ => apply wp_bind; sp_read H
  | |- wp (mret _) _ _ => apply wp_ret
  | |- wp SPLAY_ROOT _ _ => apply wp_SPLAY_ROOT
  | |- wp (set_SPLAY_ROOT _) _ _ => apply wp_set_SPLAY_ROOT
  | |- wp (SPLAY_LEFT _) _ _ => eapply (wp_holds_get_left _ _ _ _ _ _ _ _ _ H); [scell|]
  | |- wp (SPLAY_RIGHT _) _ _ => eapply (wp_holds_get_right _ _ _ _ _ _ _ _ _ H); [scell|]
  end.

Section pull.
Context {A : Type}.
Implicit Types (l : list A).
Lemma pull_cons (a b : A) l r : l ≡ₚ a :: r → b :: l ≡ₚ a :: b :: r.
Proof. intros ->. apply Permutation_swap. Qed.
Lemma pull_app_l (a : A) l1 l2 r : l1 ≡ₚ a :: r → l1 ++ l2 ≡ₚ a :: (r ++ l2).
Proof. by intros ->. Qed.
Lemma pull_app_r (a : A) l1 l2 r : l2 ≡ₚ a :: r → l1 ++ l2 ≡ₚ a :: (l1 ++ r).
Proof. intros ->. symmetry. apply Permutation_middle. Qed.
End pull.
(** Moves an element of a concrete list of cells to its front: solves
    [cs ≡ₚ a :: ?rest]. *)
Ltac pull :=
  lazymatch goal with
  | |- ?b :: ?l ≡ₚ ?a :: _ => first [unify b a; reflexivity | apply pull_cons; pull]
  | |- ?l1 ++ ?l2 ≡ₚ ?a :: _ => first [apply pull_app_l; pull | apply pull_app_r; pull]
  end.
(** The cells after a write, in the order of the new configuration. *)
Ltac sp_perm H := revert H; apply holds_proper; unfold config; simpl; solve_Permutation.

Section steps.
Context {K : Type}.
Implicit Types (F : gmap ptr (snode K)) (s : splay_state K) (t l r : stree K) (lz rz : lzip K).

(** Redirecting the holes of the partial trees. *)
Lemma wp_left_hole F s ek nd hl hr lz rz t v (Q : unit → splay_state K → Prop) :
  holds F s ek (config nd hl hr lz rz t) →
  (∀ s', holds F s' ek (config nd v hr lz rz t) → sph_root s' = sph_root s → Q tt s') →
  wp (set_SPLAY_RIGHT (inner nd lz) v) s Q.
Proof.
  intros H HQ. destruct lz as [|[[l x] k] lz]; simpl.
  - unfold config in H, HQ. eapply wp_holds_right; [exact H|reflexivity|]. exact HQ.
  - eapply (wp_holds_right _ _ _ _ x (Some k) (sroot l) hl); [exact H|unfold config; simpl; pull|].
    intros s' H' Hr. apply HQ; [|done]. sp_perm H'.
Qed.
Lemma wp_right_hole F s ek nd hl hr lz rz t v (Q : unit → splay_state K → Prop) :
  holds F s ek (config nd hl hr lz rz t) →
  (∀ s', holds F s' ek (config nd hl v lz rz t) → sph_root s' = sph_root s → Q tt s') →
  wp (set_SPLAY_LEFT (inner nd rz) v) s Q.
Proof.
  intros H HQ. destruct rz as [|[[r x] k] rz]; simpl.
  - unfold config in H, HQ. eapply wp_holds_left; [exact H|reflexivity|]. exact HQ.
  - eapply (wp_holds_left _ _ _ _ x (Some k) hr (sroot r)); [exact H|unfold config; simpl; pull|].
    intros s' H' Hr. apply HQ; [|done]. sp_perm H'.
Qed.

Lemma wp_SPLAY_ROTATE_RIGHT F s ek nd hl hr lz rz a y ky b x k r (Q : unit → splay_state K → Prop) :
  splaying F s ek nd hl hr lz rz (SN (SN a y ky b) x k r) →
  (∀ s', splaying F s' ek nd hl hr lz rz (SN a y ky (SN b x k r)) → Q tt s') →
  wp (SPLAY_ROTATE_RIGHT y) s Q.
Proof.
  intros [H Hr] HQ. unfold SPLAY_ROTATE_RIGHT. do 2 sp_read H. rewrite Hr. simpl.
  apply wp_bind. eapply (wp_holds_left _ _ _ _ x (Some k)); [exact H|unfold config; simpl; pull|].
  intros s1 H1 Hr1. sp_read H1. rewrite Hr1, Hr. simpl.
  apply wp_bind. eapply (wp_holds_right _ _ _ _ y (Some ky)); [exact H1|pull|].
  intros s2 H2 Hr2. sp_read H2. apply HQ. split; [|done]. apply (holds_root _ _ _ _ y) in H2. sp_perm H2.
Qed.
Lemma wp_SPLAY_ROTATE_LEFT F s ek nd hl hr lz rz a y ky b x k l (Q : unit → splay_state K → Prop) :
  splaying F s ek nd hl hr lz rz (SN l x k (SN a y ky b)) →
  (∀ s', splaying F s' ek nd hl hr lz rz (SN (SN l x k a) y ky b) → Q tt s') →
  wp (SPLAY_ROTATE_LEFT y) s Q.
Proof.
  intros [H Hr] HQ. unfold SPLAY_ROTATE_LEFT. do 2 sp_read H. rewrite Hr. simpl.
  apply wp_bind. eapply (wp_holds_right _ _ _ _ x (Some k)); [exact H|unfold config; simpl; pull|].
  intros s1 H1 Hr1. sp_read H1. rewrite Hr1, Hr. simpl.
  apply wp_bind. eapply (wp_holds_left _ _ _ _ y (Some ky)); [exact H1|pull|].
  intros s2 H2 Hr2. sp_read H2. apply HQ. split; [|done]. apply (holds_root _ _ _ _ y) in H2. sp_perm H2.
Qed.

Lemma wp_LINKLEFT F s ek nd hl hr lz rz l x k r (Q : ptr → splay_state K → Prop) :
  splaying F s ek nd hl hr lz rz (SN l x k r) →
  (∀ s', splaying F s' ek nd hl (sroot l) lz ((r, x, k) :: rz) l → Q x s') →
  wp (SPLAY_LINKLEFT (inner nd rz)) s Q.
Proof.
  intros [H Hr] HQ. unfold SPLAY_LINKLEFT. sp_read H. rewrite Hr. simpl.
  apply wp_bind. eapply wp_right_hole; [exact H|]. intros s1 H1 Hr1.
  do 2 sp_read H1. rewrite Hr1, Hr. simpl. sp_read H1. sp_read H1. apply wp_ret. apply HQ.
  split; [|done]. apply (holds_root _ _ _ _ (sroot l)) in H1. sp_perm H1.
Qed.
Lemma wp_LINKRIGHT F s ek nd hl hr lz rz l x k r (Q : ptr → splay_state K → Prop) :
  splaying F s ek nd hl hr lz rz (SN l x k r) →
  (∀ s', splaying F s' ek nd (sroot r) hr ((l, x, k) :: lz) rz r → Q x s') →
  wp (SPLAY_LINKRIGHT (inner nd lz)) s Q.
Proof.
  intros [H Hr] HQ. unfold SPLAY_LINKRIGHT. sp_read H. rewrite Hr. simpl.
  apply wp_bind. eapply wp_left_hole; [exact H|]. intros s1 H1 Hr1.
  do 2 sp_read H1. rewrite Hr1, Hr. simpl. sp_read H1. sp_read H1. apply wp_ret. apply HQ.
  split; [|done]. apply (holds_root _ _ _ _ (sroot r)) in H1. sp_perm H1.
Qed.

(** The tree [SPLAY_ASSEMBLE] leaves, with [__node] still allocated. *)
Definition assembled lz rz l (x : ptr) (k : K) r : stree K := SN (lbuild lz l) x k (rbuild rz r).
Lemma wp_ASSEMBLE F s ek nd hl hr lz rz l x k r (Q : unit → splay_state K → Prop) :
  splaying F s ek nd hl hr lz rz (SN l x k r) →
  (∀ s' a b, holds F s' ek (cellof nd None a b :: cells (assembled lz rz l x k r)) →
    sph_root s' = x → Q tt s') →
  wp (SPLAY_ASSEMBLE nd (inner nd lz) (inner nd rz)) s Q.
Proof.
  intros [H Hr] HQ. unfold SPLAY_ASSEMBLE. sp_read H. rewrite Hr. simpl. sp_read H.
  apply wp_bind. eapply wp_left_hole; [exact H|]. intros s1 H1 Hr1.
  sp_read H1. rewrite Hr1, Hr. simpl. sp_read H1.
  apply wp_bind. eapply wp_right_hole; [exact H1|]. intros s2 H2 Hr2.
  sp_read H2. rewrite Hr2, Hr1, Hr. simpl. sp_read H2.
  apply wp_bind. eapply (wp_holds_left _ _ _ _ x (Some k)); [exact H2|unfold config; simpl; pull|].
  intros s3 H3 Hr3. sp_read H3. rewrite Hr3, Hr2, Hr1, Hr. simpl. sp_read H3.
  eapply (wp_holds_right _ _ _ _ x (Some k)); [exact H3|pull|].
  intros s4 H4 Hr4. apply (HQ s4 (outer (sroot r) rz) (outer (sroot l) lz)); [|by rewrite Hr4, Hr3, Hr2, Hr1, Hr].
  revert H4. apply holds_proper. simpl. rewrite sroot_lbuild, sroot_rbuild, cells_lbuild, cells_rbuild.
  solve_Permutation.
Qed.
End steps.
