(* ===== verification/SplayOps.v ===== *)
(** * Splay trees of [uv/tree.h]: splaying and the operations

    Splaying keeps the sequence of elements and brings to the root the
    element with the key, or one of its neighbours in the order; from that
    follow the specifications of the operations. *)
From stdpp Require Import sorting.
From S2P Require Import Prelude RbTree RbRep RbOrder SplayTree SplayRep.

(** ** The local variable, comparisons, fuel *)
Section locals.
Context {K : Type}.
Implicit Types (F : gmap ptr (snode K)) (s : splay_state K) (t l r : stree K) (lz rz : lzip K).

Lemma holds_dom F s ek cs p : holds F s ek cs → p ∈ cs.*1 → p ∈ dom (sheap s).
Proof.
  intros [_ _ H _ _] (c & -> & Hc)%list_elem_of_fmap. rewrite Forall_forall in H.
  apply elem_of_dom. eexists. by apply H.
Qed.

Lemma wp_new_local F s ek cs (Q : ptr → splay_state K → Prop) :
  holds F s ek cs →
  (∀ nd s', F !! nd = None → holds F s' ek (cellof nd None NULL NULL :: cs) →
    sph_root s' = sph_root s → Q nd s') →
  wp new_local s Q.
Proof.
  intros H HQ. unfold new_local.
  set (nd := fresh ({[NULL]} ∪ dom (sheap s))).
  assert (nd ∉ ({[NULL]} ∪ dom (sheap s) : gset ptr)) as Hnd by apply is_fresh.
  apply not_elem_of_union in Hnd as [Hnull%not_elem_of_singleton Hdom].
  assert (nd ∉ cs.*1) as Hcs by (intros Hin; apply Hdom; by eapply holds_dom).
  exists nd, (mk_sp (sph_root s) (<[nd := mk_snode None (mk_sentry NULL NULL)]> (sheap s))).
  split; [reflexivity|]. clearbody nd. pose proof (not_elem_of_dom_1 _ _ Hdom) as Hnone.
  destruct H as [Hd Hn Hc Hf He]. apply HQ; [by rewrite <- Hf| |done].
  split; simpl.
  - by constructor.
  - apply not_elem_of_cons. by split.
  - constructor; [by rewrite lookup_insert_eq|]. eapply Forall_impl; [exact Hc|].
    intros c Hl. simpl in *. rewrite lookup_insert_ne; [done|]. intros ->. by rewrite Hnone in Hl.
  - intros p [Hp1 Hp2]%not_elem_of_cons. rewrite lookup_insert_ne by done. by apply Hf.
  - rewrite lookup_insert_ne; [done|]. intros ->. by rewrite Hnone in He.
Qed.

Lemma wp_end_local F s ek cs nd a b (Q : unit → splay_state K → Prop) :
  F !! nd = None → holds F s ek (cellof nd None a b :: cs) →
  (∀ s', holds F s' ek cs → sph_root s' = sph_root s → Q tt s') →
  wp (end_local nd) s Q.
Proof.
  intros HF H HQ. eapply wp_mod; [reflexivity|]. pose proof (holds_lookup _ _ _ _ _ _ H) as Hl.
  destruct H as [Hd Hn Hc Hf He]. simpl in Hd, Hn.
  apply NoDup_cons in Hd as [Hnd Hd]. apply not_elem_of_cons in Hn as [_ Hn].
  apply Forall_cons in Hc as [_ Hc]. apply HQ; [|done]. split; simpl; [done|done| | |].
  - apply Forall_forall. intros c Hin. rewrite Forall_forall in Hc. rewrite lookup_delete_ne; [by apply Hc|].
    intros ->. apply Hnd, list_elem_of_fmap. by exists c.
  - intros p Hp. destruct (decide (nd = p)) as [->|]; [by rewrite lookup_delete_eq|].
    rewrite lookup_delete_ne by done. apply Hf. simpl. by apply not_elem_of_cons.
  - rewrite lookup_delete_ne; [done|]. intros ->. by rewrite Hl in He.
Qed.

Lemma wp_compare_cell (cmp : K → K → Z) F s ek cs p k a b (Q : Z → splay_state K → Prop) :
  holds F s ek cs → cellof p (Some k) a b ∈ cs → Q (cmp ek.2 k) s →
  wp (scompare cmp ek.1 p) s Q.
Proof.
  intros H Hin HQ. eapply wp_scompare; [by destruct H| |exact HQ].
  by rewrite (holds_in _ _ _ _ _ _ H Hin).
Qed.

Lemma holds_size F s ek cs : holds F s ek cs → (length cs ≤ size (sheap s))%nat.
Proof.
  intros H. rewrite <- (length_fmap fst), <- (size_list_to_set (C:=gset ptr)), <- size_dom.
  - apply subseteq_size. intros p Hp%elem_of_list_to_set. by eapply holds_dom.
  - by destruct H.
Qed.

Lemma sroot_null F s ek cs t : holds F s ek cs → cells t ⊆ cs → (sroot t =? NULL)%N = true → t = SE.
Proof.
  intros [_ Hn _ _ _] Hsub Hr%N.eqb_eq. destruct t as [|l x k r]; [done|]. simpl in Hr. subst x.
  exfalso. apply Hn, list_elem_of_fmap. eexists (_, _). split; [reflexivity|]. apply Hsub. by left.
Qed.
Lemma sroot_nonnull F s ek cs l x k r :
  holds F s ek cs → cells (SN l x k r) ⊆ cs → (x =? NULL)%N = false.
Proof.
  intros H Hsub. apply N.eqb_neq. intros ->. destruct H as [_ Hn _ _ _].
  apply Hn, list_elem_of_fmap. eexists (_, _). split; [reflexivity|]. apply Hsub. by left.
Qed.
End locals.

(** Equality of sequences up to associativity. *)
Ltac seq_eq := repeat (simpl; rewrite <- ?app_assoc); reflexivity.
(** Comparison of the number of cells. *)
Ltac sp_len H :=
  repeat (simpl in H; rewrite ?length_app in H); repeat (simpl; rewrite ?length_app); lia.
(** [t]'s cells are among those of a splay in progress around it. *)
Ltac ssub := intros ? ?; unfold config; simpl in *; set_solver.
Ltac sp_cmp H := apply wp_bind; eapply (wp_compare_cell _ _ _ _ _ _ _ _ _ _ H); [scell|].

(** ** The splaying loop *)
Section splay.
Context {K : Type} (cmp : K → K → Z) `{!CmpOrder cmp}.
Context (F : gmap ptr (snode K)) (elm : ptr) (ke : K) (nd : ptr).
Implicit Types (s : splay_state K) (t l r : stree K) (lz rz : lzip K).
Abbreviation ek := (elm, ke).

(** What is known when a loop ends: the elements are those at its start, and
    the key lies between the two sides of the root. *)
Definition splayed els (lr : ptr * ptr) s : Prop := ∃ hl hr lz rz l x k r,
  lr = (inner nd lz, inner nd rz) ∧
  splaying F s ek nd hl hr lz rz (SN l x k r) ∧
  lseq lz ++ (sinorder l ++ (x, k) :: sinorder r) ++ rseq rz = els ∧
  below cmp ke (lseq lz ++ sinorder l) ∧ above cmp ke (sinorder r ++ rseq rz).

Lemma splay_stop s hl hr lz rz l x k r :
  splaying F s ek nd hl hr lz rz (SN l x k r) →
  below cmp ke (lseq lz) → above cmp ke (rseq rz) →
  sorted cmp (sinorder l ++ (x, k) :: sinorder r) →
  (cmp ke k = 0 ∨ (cmp ke k < 0 ∧ l = SE) ∨ (0 < cmp ke k ∧ r = SE))%Z →
  splayed (lseq lz ++ (sinorder l ++ (x, k) :: sinorder r) ++ rseq rz)
    (inner nd lz, inner nd rz) s.
Proof.
  intros Hsp Hb Ha Hs Hc. exists hl, hr, lz, rz, l, x, k, r. split; [done|]. split; [done|].
  split; [done|]. unfold below, above in *. rewrite !Forall_app.
  destruct Hc as [Hc|[[Hc ->]|[Hc ->]]].
  - destruct (sorted_equal_split cmp ke _ (x, k) _ Hs Hc). auto.
  - split_and!; [done|constructor| |done]. by apply (above_after cmp ke (x, k)) in Hs; [inversion Hs|].
  - split_and!; [done| |constructor|done].
    by apply (below_before cmp ke (x, k)), Forall_app in Hs as [? _].
Qed.

(** Sorted parts of a sorted sequence. *)
Lemma sorted_app_l (l1 l2 : list (ptr * K)) : sorted cmp (l1 ++ l2) → sorted cmp l1.
Proof. apply StronglySorted_app_1_l. Qed.
Lemma sorted_app_r (l1 l2 : list (ptr * K)) : sorted cmp (l1 ++ l2) → sorted cmp l2.
Proof. apply StronglySorted_app_1_r. Qed.

(** A link moves the root and one side of it to a partial tree. *)
Lemma link_above rz x k r l : above cmp ke (rseq rz) → (cmp ke k < 0)%Z →
  sorted cmp (sinorder l ++ (x, k) :: sinorder r) → above cmp ke (rseq ((r, x, k) :: rz)).
Proof.
  intros Ha Hc Hs. simpl. apply (Forall_app_2 _ ((x, k) :: sinorder r)); [|done].
  eapply (above_after cmp ke (x, k)), Hc. by eapply sorted_app_r.
Qed.
Lemma link_below lz x k r l : below cmp ke (lseq lz) → (0 < cmp ke k)%Z →
  sorted cmp (sinorder l ++ (x, k) :: sinorder r) → below cmp ke (lseq ((l, x, k) :: lz)).
Proof.
  intros Ha Hc Hs. simpl. apply Forall_app_2; [done|].
  apply (below_before cmp ke (x, k)); [|exact Hc]. eapply sorted_app_l.
  rewrite <- app_assoc. exact Hs.
Qed.

Lemma splay_loop_ok fuel s hl hr lz rz t :
  (length (cells t) < fuel)%nat → t ≠ SE →
  splaying F s ek nd hl hr lz rz t →
  below cmp ke (lseq lz) → above cmp ke (rseq rz) → sorted cmp (sinorder t) →
  wp (splay_loop cmp fuel elm (inner nd lz) (inner nd rz)) s
    (splayed (lseq lz ++ sinorder t ++ rseq rz)).
Proof.
  revert s hl hr lz rz t. induction fuel as [|fuel IH]; intros s hl hr lz rz t Hfuel Ht Hsp Hb Ha Hs; [lia|].
  destruct t as [|l x k r]; [done|]. cbn [splay_loop]. pose proof Hsp as [H Hr].
  sp_read H. rewrite Hr. cbn [sroot]. sp_cmp H. cbn [snd].
  destruct (Z.eqb_spec (cmp ke k) 0) as [Hc0|Hc0]; [apply wp_ret, (splay_stop _ hl hr); auto|].
  destruct (Z.ltb_spec (cmp ke k) 0) as [Hc|Hc].
  - sp_read H. rewrite Hr. cbn [sroot]. sp_read H.
    destruct (sroot l =? NULL)%N eqn:Hl.
    { apply (sroot_null _ _ _ _ _ H) in Hl as ->; [|ssub]. apply wp_ret, (splay_stop _ hl hr); auto. }
    destruct l as [|a y ky b]; [done|]. cbn [sroot]. sp_cmp H. cbn [snd].
    destruct (Z.ltb_spec (cmp ke ky) 0) as [Hy|Hy].
    + apply wp_bind, wp_bind. eapply wp_SPLAY_ROTATE_RIGHT; [exact Hsp|]. intros s1 Hsp1.
      pose proof Hsp1 as [H1 Hr1]. sp_read H1. rewrite Hr1. cbn [sroot]. sp_read H1. apply wp_ret.
      assert (Hs1 : sorted cmp (sinorder a ++ (y, ky) :: sinorder (SN b x k r)))
        by (simpl in *; by rewrite <- app_assoc in Hs).
      replace (lseq lz ++ _ ++ _) with (lseq lz ++ sinorder (SN a y ky (SN b x k r)) ++ rseq rz)
        by seq_eq.
      destruct (sroot a =? NULL)%N eqn:Han.
      { apply (sroot_null _ _ _ _ _ H1) in Han as ->; [|ssub]. apply wp_ret, (splay_stop _ hl hr); auto. }
      apply wp_bind. eapply wp_LINKLEFT; [exact Hsp1|]. intros s2 Hsp2.
      replace (lseq lz ++ _ ++ _) with (lseq lz ++ sinorder a ++ rseq ((SN b x k r, y, ky) :: rz))
        by seq_eq.
      apply (IH s2 hl (sroot a) lz ((SN b x k r, y, ky) :: rz) a); [| |done..| |].
      * sp_len Hfuel.
      * by intros ->.
      * by eapply link_above.
      * by eapply sorted_app_l.
    + apply wp_bind, wp_ret, wp_bind. eapply wp_LINKLEFT; [exact Hsp|]. intros s2 Hsp2.
      replace (lseq lz ++ _ ++ _) with (lseq lz ++ sinorder (SN a y ky b) ++ rseq ((r, x, k) :: rz))
        by seq_eq.
      apply (IH s2 hl y lz ((r, x, k) :: rz) (SN a y ky b)); [|done..| |].
      * sp_len Hfuel.
      * by eapply link_above.
      * by eapply sorted_app_l.
  - assert (0 < cmp ke k)%Z as Hc' by lia.
    sp_read H. rewrite Hr. cbn [sroot]. sp_read H.
    destruct (sroot r =? NULL)%N eqn:Hl.
    { apply (sroot_null _ _ _ _ _ H) in Hl as ->; [|ssub]. apply wp_ret, (splay_stop _ hl hr); auto. }
    destruct r as [|a y ky b]; [done|]. cbn [sroot]. sp_cmp H. cbn [snd].
    destruct (Z.gtb_spec (cmp ke ky) 0) as [Hy|Hy].
    + apply wp_bind, wp_bind. eapply wp_SPLAY_ROTATE_LEFT; [exact Hsp|]. intros s1 Hsp1.
      pose proof Hsp1 as [H1 Hr1]. sp_read H1. rewrite Hr1. cbn [sroot]. sp_read H1. apply wp_ret.
      assert (Hs1 : sorted cmp (sinorder (SN l x k a) ++ (y, ky) :: sinorder b))
        by (simpl in *; by rewrite <- app_assoc).
      replace (lseq lz ++ _ ++ _) with (lseq lz ++ sinorder (SN (SN l x k a) y ky b) ++ rseq rz)
        by seq_eq.
      destruct (sroot b =? NULL)%N eqn:Han.
      { apply (sroot_null _ _ _ _ _ H1) in Han as ->; [|ssub]. apply wp_ret, (splay_stop _ hl hr); auto. }
      apply wp_bind. eapply wp_LINKRIGHT; [exact Hsp1|]. intros s2 Hsp2.
      replace (lseq lz ++ _ ++ _) with (lseq ((SN l x k a, y, ky) :: lz) ++ sinorder b ++ rseq rz)
        by seq_eq.
      apply (IH s2 (sroot b) hr ((SN l x k a, y, ky) :: lz) rz b); [| |done| |done|].
      * sp_len Hfuel.
      * by intros ->.
      * by eapply link_below.
      * by eapply sorted_app_r in Hs1; inversion Hs1.
    + apply wp_bind, wp_ret, wp_bind. eapply wp_LINKRIGHT; [exact Hsp|]. intros s2 Hsp2.
      replace (lseq lz ++ _ ++ _) with (lseq ((l, x, k) :: lz) ++ sinorder (SN a y ky b) ++ rseq rz)
        by seq_eq.
      apply (IH s2 y hr ((l, x, k) :: lz) rz (SN a y ky b)); [|done|done| |done|].
      * sp_len Hfuel.
      * by eapply link_below.
      * eapply sorted_app_r in Hs; by inversion Hs.
Qed.
End splay.

(** ** Splaying with an extreme: the loop goes down one side only *)
Section minmax.
Context {K : Type} (F : gmap ptr (snode K)) (ek : ptr * K) (nd : ptr).
Implicit Types (s : splay_state K) (t l r : stree K) (lz rz : lzip K).

Lemma minmax_neg_ok fuel comp s hl hr rz t :
  (comp < 0)%Z → (length (cells t) < fuel)%nat → t ≠ SE →
  splaying F s ek nd hl hr [] rz t →
  wp (splay_minmax_loop fuel comp nd (inner nd rz)) s (λ lr s', ∃ hr' rz' x k r,
    lr = (nd, inner nd rz') ∧ splaying F s' ek nd hl hr' [] rz' (SN SE x k r) ∧
    (x, k) :: sinorder r ++ rseq rz' = sinorder t ++ rseq rz).
Proof.
  intros Hcomp. revert s hr rz t. induction fuel as [|fuel IH]; intros s hr rz t Hfuel Ht Hsp; [lia|].
  destruct t as [|l x k r]; [done|]. cbn [splay_minmax_loop]. pose proof Hsp as [H Hr].
  rewrite (proj2 (Z.ltb_lt _ _) Hcomp). sp_read H. rewrite Hr. cbn [sroot]. sp_read H.
  destruct (sroot l =? NULL)%N eqn:Hl.
  { apply (sroot_null _ _ _ _ _ H) in Hl as ->; [|ssub]. apply wp_ret. by exists hr, rz, x, k, r. }
  destruct l as [|a y ky b]; [done|]. cbn [sroot].
  apply wp_bind, wp_bind. eapply wp_SPLAY_ROTATE_RIGHT; [exact Hsp|]. intros s1 Hsp1.
  pose proof Hsp1 as [H1 Hr1]. sp_read H1. rewrite Hr1. cbn [sroot]. sp_read H1. apply wp_ret.
  destruct (sroot a =? NULL)%N eqn:Han.
  { apply (sroot_null _ _ _ _ _ H1) in Han as ->; [|ssub]. apply wp_ret.
    exists hr, rz, y, ky, (SN b x k r). split; [done|]. split; [done|]. seq_eq. }
  apply wp_bind. eapply (wp_LINKLEFT _ _ _ _ _ _ []); [exact Hsp1|]. intros s2 Hsp2.
  replace (sinorder _ ++ rseq rz) with (sinorder a ++ rseq ((SN b x k r, y, ky) :: rz)) by seq_eq.
  apply (IH s2 (sroot a) ((SN b x k r, y, ky) :: rz) a); [sp_len Hfuel|by intros ->|done].
Qed.
Lemma minmax_pos_ok fuel comp s hl hr lz t :
  (0 < comp)%Z → (length (cells t) < fuel)%nat → t ≠ SE →
  splaying F s ek nd hl hr lz [] t →
  wp (splay_minmax_loop fuel comp (inner nd lz) nd) s (λ lr s', ∃ hl' lz' l x k,
    lr = (inner nd lz', nd) ∧ splaying F s' ek nd hl' hr lz' [] (SN l x k SE) ∧
    lseq lz' ++ sinorder l ++ [(x, k)] = lseq lz ++ sinorder t).
Proof.
  intros Hcomp. revert s hl lz t. induction fuel as [|fuel IH]; intros s hl lz t Hfuel Ht Hsp; [lia|].
  destruct t as [|l x k r]; [done|]. cbn [splay_minmax_loop]. pose proof Hsp as [H Hr].
  destruct (Z.ltb_spec comp 0) as [?|_]; [lia|]. destruct (Z.gtb_spec comp 0) as [_|?]; [|lia].
  sp_read H. rewrite Hr. cbn [sroot]. sp_read H.
  destruct (sroot r =? NULL)%N eqn:Hl.
  { apply (sroot_null _ _ _ _ _ H) in Hl as ->; [|ssub]. apply wp_ret. by exists hl, lz, l, x, k. }
  destruct r as [|a y ky b]; [done|]. cbn [sroot].
  apply wp_bind, wp_bind. eapply wp_SPLAY_ROTATE_LEFT; [exact Hsp|]. intros s1 Hsp1.
  pose proof Hsp1 as [H1 Hr1]. sp_read H1. rewrite Hr1. cbn [sroot]. sp_read H1. apply wp_ret.
  destruct (sroot b =? NULL)%N eqn:Han.
  { apply (sroot_null _ _ _ _ _ H1) in Han as ->; [|ssub]. apply wp_ret.
    exists hl, lz, (SN l x k a), y, ky. split; [done|]. split; [done|]. seq_eq. }
  apply wp_bind. eapply (wp_LINKRIGHT _ _ _ _ _ _ _ []); [exact Hsp1|]. intros s2 Hsp2.
  replace (lseq lz ++ _) with (lseq ((SN l x k a, y, ky) :: lz) ++ sinorder b) by seq_eq.
  apply (IH s2 (sroot b) ((SN l x k a, y, ky) :: lz) b); [sp_len Hfuel|by intros ->|done].
Qed.
End minmax.

(** ** The operations *)
Section ops.
Context {K : Type} (cmp : K → K → Z) `{!CmpOrder cmp}.
Implicit Types (F : gmap ptr (snode K)) (s : splay_state K) (t l r : stree K) (ek : ptr * K).

(** The store holds the tree [t], and the object [ek]. *)
Record srep F s ek t : Prop := mk_srep {
  srep_holds : holds F s ek (cells t);
  srep_root : sph_root s = sroot t;
}.

(** Setting up [__node]. *)
Lemma wp_splay_start {A} F s ek t (body : ptr → ST (splay_state K) A) Q :
  srep F s ek t →
  (∀ nd s', F !! nd = None → splaying F s' ek nd NULL NULL [] [] t → wp (body nd) s' Q) →
  wp (node ← new_local; set_SPLAY_RIGHT node NULL;; set_SPLAY_LEFT node NULL;; body node) s Q.
Proof.
  intros [H Hr] HQ. apply wp_bind. eapply wp_new_local; [exact H|]. intros nd s1 Hnd H1 Hr1.
  apply wp_bind. eapply wp_holds_right; [exact H1|reflexivity|]. intros s2 H2 Hr2.
  apply wp_bind. eapply wp_holds_left; [exact H2|reflexivity|]. intros s3 H3 Hr3.
  apply HQ; [done|]. split; [|by rewrite Hr3, Hr2, Hr1]. sp_perm H3.
Qed.

(** Joining the partial trees and leaving. *)
Lemma wp_splay_end F s ek nd hl hr lz rz l x k r (Q : unit → splay_state K → Prop) :
  F !! nd = None → splaying F s ek nd hl hr lz rz (SN l x k r) →
  (∀ s', srep F s' ek (assembled lz rz l x k r) → Q tt s') →
  wp (SPLAY_ASSEMBLE nd (inner nd lz) (inner nd rz);; end_local nd) s Q.
Proof.
  intros Hnd Hsp HQ. apply wp_bind. eapply wp_ASSEMBLE; [exact Hsp|]. intros s1 a b H1 Hr1.
  eapply wp_end_local; [exact Hnd|exact H1|]. intros s2 H2 Hr2. apply HQ. split; [done|].
  by rewrite Hr2, Hr1.
Qed.

Lemma cells_size F s ek t : srep F s ek t → (length (cells t) < S (size (sheap s)))%nat.
Proof. intros [H%holds_size _]. lia. Qed.

Lemma sinorder_nonempty t : t ≠ SE → sinorder t ≠ [].
Proof. destruct t; [done|]. intros _. simpl. by destruct (sinorder t1). Qed.

Lemma SPLAY_ok F s elm ke t :
  srep F s (elm, ke) t → t ≠ SE → sorted cmp (sinorder t) →
  wp (SPLAY cmp elm) s (λ _ s', ∃ l x k r, srep F s' (elm, ke) (SN l x k r) ∧
    sinorder l ++ (x, k) :: sinorder r = sinorder t ∧
    below cmp ke (sinorder l) ∧ above cmp ke (sinorder r)).
Proof.
  intros Hrep Ht Hs. apply wp_bind, wp_sp_fuel.
  pose proof (cells_size _ _ _ _ Hrep) as Hsz.
  eapply wp_splay_start; [exact Hrep|]. intros nd s1 Hnd Hsp. apply wp_bind.
  eapply wp_mono; [by apply (splay_loop_ok cmp F elm ke nd _ s1 NULL NULL [] [] t);
    try apply Forall_nil_2|].
  intros lr s2 (hl & hr & lz & rz & l & x & k & r & -> & Hsp2 & Hseq & Hb & Ha).
  eapply wp_splay_end; [done|exact Hsp2|]. intros s3 Hrep3.
  exists (lbuild lz l), x, k, (rbuild rz r). rewrite inorder_lbuild, inorder_rbuild.
  split; [exact Hrep3|]. split; [|done]. simpl in Hseq. rewrite app_nil_r in Hseq.
  rewrite <- Hseq. seq_eq.
Qed.

Lemma SPLAY_MINMAX_neg F s ek comp t :
  (comp < 0)%Z → srep F s ek t → t ≠ SE →
  wp (SPLAY_MINMAX comp) s (λ _ s', ∃ x k r, srep F s' ek (SN SE x k r) ∧
    (x, k) :: sinorder r = sinorder t).
Proof.
  intros Hcomp Hrep Ht. apply wp_bind, wp_sp_fuel. pose proof (cells_size _ _ _ _ Hrep) as Hsz.
  eapply wp_splay_start; [exact Hrep|]. intros nd s1 Hnd Hsp. apply wp_bind.
  eapply wp_mono; [by eapply (minmax_neg_ok F ek nd _ _ s1 NULL NULL [])|].
  intros lr s2 (hr & rz & x & k & r & -> & Hsp2 & Hseq).
  eapply (wp_splay_end _ _ _ _ _ _ []); [done|exact Hsp2|]. intros s3 Hrep3.
  exists x, k, (rbuild rz r). rewrite inorder_rbuild. split; [exact Hrep3|].
  by rewrite Hseq, app_nil_r.
Qed.
Lemma SPLAY_MINMAX_pos F s ek comp t :
  (0 < comp)%Z → srep F s ek t → t ≠ SE →
  wp (SPLAY_MINMAX comp) s (λ _ s', ∃ l x k, srep F s' ek (SN l x k SE) ∧
    sinorder l ++ [(x, k)] = sinorder t).
Proof.
  intros Hcomp Hrep Ht. apply wp_bind, wp_sp_fuel. pose proof (cells_size _ _ _ _ Hrep) as Hsz.
  eapply wp_splay_start; [exact Hrep|]. intros nd s1 Hnd Hsp. apply wp_bind.
  eapply wp_mono; [by eapply (minmax_pos_ok F ek nd _ _ s1 NULL NULL [])|].
  intros lr s2 (hl & lz & l & x & k & -> & Hsp2 & Hseq).
  eapply (wp_splay_end _ _ _ _ _ _ _ []); [done|exact Hsp2|]. intros s3 Hrep3.
  exists (lbuild lz l), x, k. rewrite inorder_lbuild. split; [exact Hrep3|].
  rewrite <- app_assoc. exact Hseq.
Qed.

(** ** Cells that enter and leave *)

(** [holds] without the object of interest. *)
Definition owns F s (cs : list (ptr * snode K)) : Prop :=
  NoDup cs.*1 ∧ NULL ∉ cs.*1 ∧ Forall (λ c, sheap s !! c.1 = Some c.2) cs ∧
  ∀ p, p ∉ cs.*1 → sheap s !! p = F !! p.
Lemma holds_owns F s ek cs :
  holds F s ek cs ↔ owns F s cs ∧ sval <$> sheap s !! ek.1 = Some (Some ek.2).
Proof. split; [intros []; by repeat split|intros [(? & ? & ? & ?) ?]; by split]. Qed.

Lemma holds_claim F s ek cs p n :
  holds F s ek cs → p ∉ cs.*1 → p ≠ NULL → sheap s !! p = Some n → holds F s ek ((p, n) :: cs).
Proof.
  intros [Hd Hn Hc Hf He] Hp Hnull Hpn. split; simpl; [by constructor|by apply not_elem_of_cons|by constructor| |done].
  intros q [_ Hq]%not_elem_of_cons. by apply Hf.
Qed.
Lemma holds_claim_elm F s elm ke cs :
  holds F s (elm, ke) cs → elm ∉ cs.*1 → elm ≠ NULL →
  ∃ a b, holds F s (elm, ke) (cellof elm (Some ke) a b :: cs).
Proof.
  intros H Hout Hnull. pose proof H as [_ _ _ _ He].
  apply fmap_Some in He as ([kv [a b]] & Hn & Hkv). simpl in *. subst kv.
  exists a, b. by apply holds_claim.
Qed.
Lemma holds_release F s ek cs p n : holds F s ek ((p, n) :: cs) → holds (<[p:=n]> F) s ek cs.
Proof.
  intros H. pose proof (holds_lookup _ _ _ _ _ _ H) as Hp. destruct H as [Hd Hn Hc Hf He]. simpl in Hd, Hn.
  apply NoDup_cons in Hd as [Hpc Hd]. apply not_elem_of_cons in Hn as [_ Hn].
  apply Forall_cons in Hc as [_ Hc]. split; [done..| |done].
  intros q Hq. destruct (decide (p = q)) as [->|Hpq].
  - by rewrite lookup_insert_eq.
  - rewrite lookup_insert_ne by done. apply Hf. simpl. by apply not_elem_of_cons.
Qed.

(** Working on some of the cells only. *)
Lemma holds_focus F s ek cs1 cs2 : holds F s ek (cs1 ++ cs2) → holds (sheap s) s ek cs1.
Proof.
  intros [Hd Hn Hc Hf He]. rewrite fmap_app in *. split; [|set_solver| |done..].
  - by apply NoDup_app in Hd as (? & _).
  - by apply Forall_app in Hc as [? _].
Qed.
Lemma holds_unfocus F s s' ek cs1 cs1' cs2 :
  holds F s ek (cs1 ++ cs2) → holds (sheap s) s' ek cs1' → cs1'.*1 ≡ₚ cs1.*1 →
  holds F s' ek (cs1' ++ cs2).
Proof.
  intros [Hd Hn Hc Hf He] [Hd' Hn' Hc' Hf' He'] Hp. rewrite fmap_app in *.
  assert (∀ p, p ∈ cs2.*1 → p ∉ cs1'.*1) as Hout.
  { apply NoDup_app in Hd as (_ & Hd & _). intros p H2 H1. rewrite Hp in H1. by apply (Hd p). }
  split; rewrite ?fmap_app; [|by rewrite Hp| | |done].
  - by rewrite Hp.
  - apply Forall_app in Hc as [_ Hc]. apply Forall_app. split; [done|].
    rewrite Forall_forall in *. intros c Hin. rewrite Hf'; [by apply Hc|].
    apply Hout, list_elem_of_fmap. by exists c.
  - intros p. rewrite Hp, not_elem_of_app. intros [H1 H2]. rewrite Hf' by (by rewrite Hp).
    apply Hf. by apply not_elem_of_app.
Qed.

(** ** The store holds a sorted sequence as a splay tree *)

Definition splay_holds F s (els : list (ptr * K)) : Prop := ∃ t,
  sinorder t = els ∧ sorted cmp els ∧ sph_root s = sroot t ∧ owns F s (cells t).
(** The payload of an object. *)
Definition has_key s p k : Prop := sval <$> sheap s !! p = Some (Some k).

Lemma splay_holds_srep F s els p k : splay_holds F s els → has_key s p k →
  ∃ t, srep F s (p, k) t ∧ sinorder t = els ∧ sorted cmp els.
Proof.
  intros (t & Ht & Hs & Hr & Ho) Hk. exists t. split; [|done]. split; [|done]. by apply holds_owns.
Qed.
Lemma srep_splay_holds F s ek t els : srep F s ek t → sinorder t = els → sorted cmp els →
  splay_holds F s els ∧ has_key s ek.1 ek.2.
Proof. intros [[Ho Hk]%holds_owns Hr] <- Hs. split; [|done]. by exists t. Qed.

Lemma srep_empty F s ek t : srep F s ek t → (sph_root s =? NULL)%N = true → t = SE.
Proof. intros [H ->]. by apply (sroot_null _ _ _ _ _ H). Qed.

(** Every linked object has the key of its element. *)
Lemma splay_holds_key F s els p k : splay_holds F s els → (p, k) ∈ els → has_key s p k.
Proof.
  intros (t & <- & _ & _ & _ & _ & Hc & _) Hin. unfold has_key.
  enough (∃ a b, cellof p (Some k) a b ∈ cells t) as (a & b & Hp).
  { rewrite Forall_forall in Hc. specialize (Hc _ Hp). simpl in Hc. by rewrite Hc. }
  clear Hc. induction t as [|l IHl x kx r IHr]; simpl in Hin; [by apply not_elem_of_nil in Hin|].
  rewrite elem_of_app, elem_of_cons in Hin. simpl. setoid_rewrite elem_of_cons. setoid_rewrite elem_of_app.
  destruct Hin as [H|[[= -> ->]|H]]; [destruct (IHl H) as (a & b & ?)|eauto|destruct (IHr H) as (a & b & ?)]; eauto.
Qed.
End ops.
