(* ===== verification/SplayTheorems.v ===== *)
(** * Splay trees of [uv/tree.h]: the theorems

    The specifications of the [SPLAY_*] operations on the sorted sequence of
    elements a store holds, each with an instance on the tree of
    SplayTree.v's five objects. *)
From stdpp Require Import sorting.
From S2P Require Import Prelude RbTree RbRep RbOrder SplayTree SplayRep SplayOps.

Section theorems.
Context {K : Type} (cmp : K → K → Z) `{!CmpOrder cmp}.
Implicit Types (F : gmap ptr (snode K)) (s : splay_state K) (els : list (ptr * K)).

Lemma wp_SPLAY_EMPTY s (Q : bool → splay_state K → Prop) :
  Q (sph_root s =? NULL)%N s → wp SPLAY_EMPTY s Q.
Proof. intros. by apply wp_bind, wp_SPLAY_ROOT, wp_ret. Qed.

(** The comparison with the root after splaying. *)
Lemma find_key_splayed ke l x k r :
  below cmp ke l → above cmp ke r →
  find_key cmp ke (l ++ (x, k) :: r) = if decide (cmp ke k = 0%Z) then Some (x, k) else None.
Proof.
  intros Hb Ha. destruct (decide _) as [H0|H0]; [by apply find_key_mid|].
  destruct (decide (cmp ke k < 0)%Z) as [Hlt|Hge].
  - apply find_key_none; [done|]. by constructor.
  - rewrite cons_middle, app_assoc. apply find_key_none; [|done].
    apply Forall_app_2; [done|]. repeat constructor. simpl. lia.
Qed.

(** SPLAY_FIND returns the element with the key of [elm] (NULL when there
    is none) and leaves a found element at the root; the elements and their
    order are unchanged, and so is every object outside the tree. *)
Theorem SPLAY_FIND_correct F s els elm ke :
  splay_holds cmp F s els → has_key s elm ke →
  wp (SPLAY_FIND cmp elm) s (λ r s', r = ptr_of (find_key cmp ke els) ∧
    (r ≠ NULL → sph_root s' = r) ∧ splay_holds cmp F s' els ∧ has_key s' elm ke).
Proof.
  intros Hh Hk. destruct (splay_holds_srep _ _ _ _ _ _ Hh Hk) as (t & Hrep & Ht & Hs).
  apply wp_bind, wp_SPLAY_EMPTY. destruct (sph_root s =? NULL)%N eqn:Hr.
  { apply (srep_empty _ _ _ _ Hrep) in Hr as ->. simpl in Ht. subst els. by apply wp_ret. }
  assert (t ≠ SE) as Hne by (intros ->; destruct Hrep as [_ Hroot]; by rewrite Hroot in Hr).
  apply wp_bind. eapply wp_mono; [apply (SPLAY_ok cmp F _ elm ke t); [done|done|by rewrite Ht]|].
  intros _ s1 (l & x & k & r & Hrep1 & Hseq & Hb & Ha). pose proof Hrep1 as [H1 Hr1].
  rewrite <- Ht, <- Hseq in *. rewrite find_key_splayed by done.
  destruct (srep_splay_holds cmp _ _ _ _ _ Hrep1 eq_refl Hs) as [Hh1 Hk1].
  sp_read H1. rewrite Hr1. cbn [sroot]. sp_cmp H1. cbn [snd].
  destruct (Z.eqb_spec (cmp ke k) 0) as [Hc|Hc].
  - sp_read H1. by rewrite decide_True.
  - apply wp_ret. by rewrite decide_False.
Qed.

(** A tree is splayed and the store focused on its root. *)
Lemma wp_splay_root {A} F s els elm ke t (k : ST (splay_state K) A) Q :
  srep F s (elm, ke) t → t ≠ SE → sinorder t = els → sorted cmp els →
  (∀ s1 l x kx r, srep F s1 (elm, ke) (SN l x kx r) → els = sinorder l ++ (x, kx) :: sinorder r →
    below cmp ke (sinorder l) → above cmp ke (sinorder r) → wp k s1 Q) →
  wp (SPLAY cmp elm;; k) s Q.
Proof.
  intros Hrep Hne Ht Hs HQ. apply wp_bind.
  eapply wp_mono; [apply (SPLAY_ok cmp F _ elm ke t); [done|done|by rewrite Ht]|].
  intros _ s1 (l & x & kx & r & Hrep1 & Hseq & Hb & Ha). eapply HQ; [exact Hrep1|by rewrite Hseq|done..].
Qed.

Lemma cells_locs t : (cells t).*1 ≡ₚ (@sinorder K t).*1.
Proof. apply cells_inorder. Qed.

(** The object becomes the root, above the two parts of the splayed tree. *)
Lemma insert_at_root F s elm ke l x k r :
  srep F s (elm, ke) (SN l x k r) → elm ∉ (sinorder (SN l x k r)).*1 → elm ≠ NULL →
  sorted cmp (sinorder l ++ (x, k) :: sinorder r) →
  below cmp ke (sinorder l) → above cmp ke (sinorder r) → cmp ke k ≠ 0%Z →
  ∀ Q : ptr → splay_state K → Prop,
  (∀ s', splay_holds cmp F s' (insert_sorted cmp (elm, ke) (sinorder l ++ (x, k) :: sinorder r)) →
    has_key s' elm ke → Q NULL s') →
  wp (if (cmp ke k <? 0)%Z then
        r ← SPLAY_ROOT; rl ← SPLAY_LEFT r; set_SPLAY_LEFT elm rl;;
        r ← SPLAY_ROOT; set_SPLAY_RIGHT elm r;;
        r ← SPLAY_ROOT; set_SPLAY_LEFT r NULL;;
        set_SPLAY_ROOT elm;; mret NULL
      else
        r ← SPLAY_ROOT; rr ← SPLAY_RIGHT r; set_SPLAY_RIGHT elm rr;;
        r ← SPLAY_ROOT; set_SPLAY_LEFT elm r;;
        r ← SPLAY_ROOT; set_SPLAY_RIGHT r NULL;;
        set_SPLAY_ROOT elm;; mret NULL) s Q.
Proof.
  intros [H Hr] Hout Hnull Hs Hb Ha Hc Q HQ.
  assert (Hs' : sorted cmp (insert_sorted cmp (elm, ke) (sinorder l ++ (x, k) :: sinorder r))).
  { apply insert_sorted_sorted; [done..|]. apply Forall_app_2; [|constructor; [exact Hc|]];
      (eapply Forall_impl; [eassumption|]); simpl; lia. }
  destruct (holds_claim_elm _ _ _ _ _ H) as (a & b & Hcl); [by rewrite cells_locs|done|].
  destruct (Z.ltb_spec (cmp ke k) 0) as [Hlt|Hge].
  - sp_read Hcl. rewrite Hr. cbn [sroot]. sp_read Hcl.
    apply wp_bind. eapply wp_holds_left; [exact Hcl|reflexivity|]. intros s2 H2 Hr2.
    sp_read H2. rewrite Hr2, Hr. cbn [sroot].
    apply wp_bind. eapply wp_holds_right; [exact H2|reflexivity|]. intros s3 H3 Hr3.
    sp_read H3. rewrite Hr3, Hr2, Hr. cbn [sroot].
    apply wp_bind. eapply (wp_holds_left _ _ _ _ x (Some k)); [exact H3|simpl; pull|]. intros s4 H4 Hr4.
    sp_read H4. apply wp_ret. apply (holds_root _ _ _ _ elm) in H4.
    rewrite insert_sorted_app in Hs', HQ; [|done|by constructor|done|by constructor].
    destruct (srep_splay_holds cmp F (with_root s4 elm) (elm, ke) (SN l elm ke (SN SE x k r))
      _ ltac:(split; [sp_perm H4|done]) eq_refl Hs'); by apply HQ.
  - assert (Hb' : below cmp ke (sinorder l ++ [(x, k)]))
      by (apply Forall_app_2; [done|repeat constructor; simpl; lia]).
    rewrite cons_middle, app_assoc, insert_sorted_app in Hs', HQ; [|done..].
    sp_read Hcl. rewrite Hr. cbn [sroot]. sp_read Hcl.
    apply wp_bind. eapply wp_holds_right; [exact Hcl|reflexivity|]. intros s2 H2 Hr2.
    sp_read H2. rewrite Hr2, Hr. cbn [sroot].
    apply wp_bind. eapply wp_holds_left; [exact H2|reflexivity|]. intros s3 H3 Hr3.
    sp_read H3. rewrite Hr3, Hr2, Hr. cbn [sroot].
    apply wp_bind. eapply (wp_holds_right _ _ _ _ x (Some k)); [exact H3|simpl; pull|]. intros s4 H4 Hr4.
    sp_read H4. apply wp_ret. apply (holds_root _ _ _ _ elm) in H4.
    destruct (srep_splay_holds cmp F (with_root s4 elm) (elm, ke) (SN (SN l x k SE) elm ke r)
      _ ltac:(split; [sp_perm H4|done]) eq_refl Hs'); by apply HQ.
Qed.

(** C24. SPLAY_INSERT of an unlinked object: when an element with an equal key
    is linked it is returned and the elements are unchanged; otherwise NULL is
    returned and the tree holds the sequence with the object at its sorted
    place.  No object outside the tree is written to. *)
Theorem SPLAY_INSERT_correct F s els elm ke :
  splay_holds cmp F s els → has_key s elm ke → elm ∉ els.*1 → elm ≠ NULL →
  wp (SPLAY_INSERT cmp elm) s (λ r s',
    match find_key cmp ke els with
    | Some (p, _) => r = p ∧ splay_holds cmp F s' els
    | None => r = NULL ∧ splay_holds cmp F s' (insert_sorted cmp (elm, ke) els)
    end ∧ has_key s' elm ke).
Proof.
  intros Hh Hk Helm Hnull. destruct (splay_holds_srep _ _ _ _ _ _ Hh Hk) as (t & Hrep & Ht & Hs).
  apply wp_bind, wp_SPLAY_EMPTY. destruct (sph_root s =? NULL)%N eqn:Hr.
  - apply (srep_empty _ _ _ _ Hrep) in Hr as ->. simpl in Ht. subst els. destruct Hrep as [H _].
    destruct (holds_claim_elm _ _ _ _ _ H) as (a & b & Hcl); [done|done|].
    apply wp_bind. eapply wp_holds_right; [exact Hcl|reflexivity|]. intros s1 H1 _.
    apply wp_bind. eapply wp_holds_left; [exact H1|reflexivity|]. intros s2 H2 _.
    sp_read H2. apply wp_ret. simpl. apply (holds_root _ _ _ _ elm) in H2.
    destruct (srep_splay_holds cmp F (with_root s2 elm) (elm, ke) (SN SE elm ke SE) [(elm, ke)]) as [??];
      [by split|done|repeat constructor|done].
  - assert (t ≠ SE) as Hne by (intros ->; destruct Hrep as [_ Hroot]; by rewrite Hroot in Hr).
    eapply wp_splay_root; [exact Hrep|done..|]. clear Hr. intros s1 l x k r Hrep1 -> Hb Ha.
    rewrite find_key_splayed by done. pose proof Hrep1 as [H1 Hr1].
    sp_read H1. rewrite Hr1. cbn [sroot]. sp_cmp H1. cbn [snd].
    destruct (decide (cmp ke k = 0)%Z) as [H0|H0].
    + rewrite H0. simpl. sp_read H1.
      destruct (srep_splay_holds cmp F s1 (elm, ke) (SN l x k r) _ Hrep1 eq_refl Hs). by rewrite Hr1.
    + assert (Hbr : ∀ (m1 m2 m3 : ST (splay_state K) ptr),
        (if (cmp ke k <? 0)%Z then m1 else if (cmp ke k >? 0)%Z then m2 else m3)
        = (if (cmp ke k <? 0)%Z then m1 else m2)).
      { intros m1 m2 m3. destruct (Z.ltb_spec (cmp ke k) 0); [done|].
        destruct (Z.gtb_spec (cmp ke k) 0); [done|lia]. }
      rewrite Hbr. eapply insert_at_root; [exact Hrep1|done..|]. intros s2 Hh2 Hk2. by split.
Qed.

Lemma sorted_drop (l1 : list (ptr * K)) a l2 : sorted cmp (l1 ++ a :: l2) → sorted cmp (l1 ++ l2).
Proof.
  induction l1 as [|b l1 IH]; simpl; intros Hs; inversion Hs as [|?? Hs' Hb]; subst; [done|].
  constructor; [by apply IH|]. apply Forall_app in Hb as [Hb1 Hb2]. apply Forall_cons in Hb2 as [_ Hb2].
  by apply Forall_app_2.
Qed.

(** Nothing lies on both sides of a key. *)
Lemma below_above_nil ke (l : list (ptr * K)) : below cmp ke l → above cmp ke l → l = [].
Proof. intros Hb Ha. destruct l as [|a l]; [done|]. inversion Hb; inversion Ha; lia. Qed.
Lemma sinorder_nil (t : stree K) : sinorder t = [] → t = SE.
Proof. destruct t; [done|]. simpl. by destruct (sinorder t1). Qed.

(** The root is unlinked and the two subtrees are joined. *)
Lemma remove_root {A} F s elm ke l x k r (m : ST (splay_state K) A) Q :
  srep F s (elm, ke) (SN l x k r) →
  sorted cmp (sinorder l ++ (x, k) :: sinorder r) → below cmp ke (sinorder l) →
  (∀ s' n, sval n = Some k → splay_holds cmp (<[x:=n]> F) s' (sinorder l ++ sinorder r) →
    has_key s' elm ke → wp m s' Q) →
  wp (r ← SPLAY_ROOT; l ← SPLAY_LEFT r;
      (if (l =? NULL)%N then r ← SPLAY_ROOT; rr ← SPLAY_RIGHT r; set_SPLAY_ROOT rr
       else
         r ← SPLAY_ROOT; tmp ← SPLAY_RIGHT r;
         r ← SPLAY_ROOT; l ← SPLAY_LEFT r; set_SPLAY_ROOT l;;
         SPLAY cmp elm;;
         r ← SPLAY_ROOT; set_SPLAY_RIGHT r tmp);; m) s Q.
Proof.
  intros [H Hr] Hs Hb HQ. apply sorted_drop in Hs as Hs'.
  sp_read H. rewrite Hr. cbn [sroot]. sp_read H. apply wp_bind. destruct (sroot l =? NULL)%N eqn:Hl.
  - apply (sroot_null _ _ _ _ _ H) in Hl as ->; [|ssub].
    sp_read H. rewrite Hr. cbn [sroot]. sp_read H. sp_read H.
    apply holds_release, (holds_root _ _ _ _ (sroot r)) in H.
    destruct (srep_splay_holds cmp _ _ (elm, ke) r _ (mk_srep _ _ _ _ H eq_refl) eq_refl Hs') as [Hh Hk].
    eapply HQ; [|exact Hh|exact Hk]. reflexivity.
  - sp_read H. rewrite Hr. cbn [sroot]. sp_read H. sp_read H. rewrite Hr. cbn [sroot]. do 2 sp_read H.
    apply (holds_root _ _ _ _ (sroot l)) in H. set (s2 := with_root s (sroot l)) in *.
    assert (H2 : holds F s2 (elm, ke) (cells l ++ cellof x (Some k) (sroot l) (sroot r) :: cells r)) by sp_perm H.
    assert (l ≠ SE) as Hne by (by intros ->).
    eapply (wp_splay_root (sheap s2)); [split; [by eapply holds_focus|done]|done|reflexivity|by eapply sorted_app_l|].
    intros s3 l2 x2 k2 r2 [H3 Hr3] Hseq Hb2 Ha2.
    assert (r2 = SE) as ->.
    { apply sinorder_nil, (below_above_nil ke); [|done]. rewrite Hseq in Hb.
      apply Forall_app in Hb as [_ Hb]. by apply Forall_cons in Hb as [_ Hb]. }
    eapply holds_unfocus in H3; [|exact H2|by rewrite !cells_locs, Hseq]. simpl in H3.
    sp_read H3. rewrite Hr3. cbn [sroot].
    eapply (wp_holds_right _ _ _ _ x2 (Some k2)); [exact H3|pull|]. intros s4 H4 Hr4.
    assert (H5 : holds F s4 (elm, ke) (cellof x (Some k) (sroot l) (sroot r) :: cells (SN l2 x2 k2 r)))
      by sp_perm H4.
    apply holds_release in H5.
    assert (Hr5 : sph_root s4 = sroot (SN l2 x2 k2 r)) by (by rewrite Hr4, Hr3).
    assert (Hseq5 : sinorder (SN l2 x2 k2 r) = sinorder l ++ sinorder r) by (simpl; rewrite Hseq; seq_eq).
    destruct (srep_splay_holds cmp _ _ (elm, ke) _ _ (mk_srep _ _ _ _ H5 Hr5) Hseq5 Hs') as [Hh Hk].
    eapply HQ; [|exact Hh|exact Hk]. reflexivity.
Qed.

(** C25. SPLAY_REMOVE unlinks the element whose key is equal to [elm]'s and
    returns [elm], or returns NULL and keeps the elements when there is none.
    The object unlinked is the one of the tree ([p]), which need not be the
    object [elm] that is returned; only its links are changed outside the
    tree. *)
Theorem SPLAY_REMOVE_correct F s els elm ke :
  splay_holds cmp F s els → has_key s elm ke →
  wp (SPLAY_REMOVE cmp elm) s (λ r s',
    match find_key cmp ke els with
    | Some (p, k) => r = elm ∧ ∃ l1 l2 n, els = l1 ++ (p, k) :: l2 ∧ sval n = Some k ∧
        splay_holds cmp (<[p:=n]> F) s' (l1 ++ l2)
    | None => r = NULL ∧ splay_holds cmp F s' els
    end ∧ has_key s' elm ke).
Proof.
  intros Hh Hk. destruct (splay_holds_srep _ _ _ _ _ _ Hh Hk) as (t & Hrep & Ht & Hs).
  apply wp_bind, wp_SPLAY_EMPTY. destruct (sph_root s =? NULL)%N eqn:Hr.
  { apply (srep_empty _ _ _ _ Hrep) in Hr as ->. simpl in Ht. subst els. by apply wp_ret. }
  assert (t ≠ SE) as Hne by (intros ->; destruct Hrep as [_ Hroot]; by rewrite Hroot in Hr).
  eapply wp_splay_root; [exact Hrep|done..|]. clear Hr. intros s1 l x k r Hrep1 -> Hb Ha.
  rewrite find_key_splayed by done. pose proof Hrep1 as [H1 Hr1].
  sp_read H1. rewrite Hr1. cbn [sroot]. sp_cmp H1. cbn [snd].
  destruct (Z.eqb_spec (cmp ke k) 0) as [Hc|Hc].
  - rewrite decide_True by done.
    eapply remove_root; [exact Hrep1|done..|]. intros s2 n Hn Hh2 Hk2. apply wp_ret.
    split; [|done]. split; [done|]. by exists (sinorder l), (sinorder r), n.
  - rewrite decide_False by done. apply wp_ret.
    destruct (srep_splay_holds cmp F s1 (elm, ke) (SN l x k r) _ Hrep1 eq_refl Hs). by split.
Qed.

(** ** Walking *)
Lemma splay_leftmost_ok F s ek t cs fuel :
  holds F s ek cs → cells t ⊆ cs → t ≠ SE → (length (cells t) < fuel)%nat →
  wp (splay_leftmost fuel (sroot t)) s (λ p s', p = ptr_of (head (sinorder t)) ∧ s' = s).
Proof.
  intros H. revert t. induction fuel as [|fuel IH]; intros t Hsub Hne Hfuel; [lia|].
  destruct t as [|l x k r]; [done|]. cbn [splay_leftmost sroot].
  assert (Hx : cellof x (Some k) (sroot l) (sroot r) ∈ cs) by (apply Hsub; by left).
  apply wp_bind. eapply wp_holds_get_left; [exact H|exact Hx|].
  destruct l as [|a y ky b]; [by apply wp_ret|].
  assert (Hl : cells (SN a y ky b) ⊆ cs) by (intros c Hc; apply Hsub; simpl in *; set_solver).
  cbn [sroot]. rewrite (sroot_nonnull _ _ _ _ _ _ _ _ H Hl). simpl negb. cbv iota.
  apply wp_bind. eapply wp_holds_get_left; [exact H|exact Hx|]. cbn [sroot].
  eapply wp_mono; [apply (IH (SN a y ky b)); [done|done|sp_len Hfuel]|].
  intros p s' [-> ->]. split; [|done]. simpl. by destruct (sinorder a).
Qed.

Lemma NoDup_split_eq (l1 l2 m1 m2 : list (ptr * K)) p k k' :
  l1 ++ (p, k) :: l2 = m1 ++ (p, k') :: m2 → NoDup (l1 ++ (p, k) :: l2).*1 → l1 = m1 ∧ l2 = m2.
Proof.
  revert m1. induction l1 as [|a l1 IH]; intros [|b m1] Heq Hnd; simpl in *.
  - by injection Heq.
  - injection Heq as <- ->. apply NoDup_cons in Hnd as [Hnd _]. exfalso. apply Hnd.
    rewrite fmap_app. apply elem_of_app. right. by left.
  - injection Heq as -> <-. apply NoDup_cons in Hnd as [Hnd _]. exfalso. apply Hnd.
    rewrite fmap_app. apply elem_of_app. right. by left.
  - injection Heq as <- Heq. apply NoDup_cons in Hnd as [_ Hnd].
    destruct (IH m1 Heq Hnd) as [-> ->]. done.
Qed.

Lemma SPLAY_NEXT_ok F s l1 elm ke l2 :
  splay_holds cmp F s (l1 ++ (elm, ke) :: l2) →
  wp (SPLAY_NEXT cmp elm) s (λ r s', r = ptr_of (head l2) ∧
    splay_holds cmp F s' (l1 ++ (elm, ke) :: l2)).
Proof.
  intros Hh. assert (Hin : (elm, ke) ∈ l1 ++ (elm, ke) :: l2) by set_solver.
  pose proof (splay_holds_key _ _ _ _ _ _ Hh Hin) as Hk.
  destruct (splay_holds_srep _ _ _ _ _ _ Hh Hk) as (t & Hrep & Ht & Hs).
  apply wp_bind, wp_sp_fuel.
  assert (t ≠ SE) as Hne by (intros ->; by destruct l1).
  pose proof (cells_size _ _ _ _ Hrep) as Hsz.
  assert (Hnd : NoDup (l1 ++ (elm, ke) :: l2).*1) by (rewrite <- Ht, <- cells_locs; by destruct Hrep as [[]]).
  eapply wp_splay_root; [exact Hrep|done..|]. intros s1 l x k r Hrep1 Hseq Hb Ha.
  pose proof Hrep1 as [H1 Hr1].
  assert (Hx : (elm, ke) = (x, k)).
  { unfold below, above in Hb, Ha. rewrite Forall_forall in Hb, Ha.
    rewrite Hseq, elem_of_app, elem_of_cons in Hin. destruct Hin as [Hin|[Heq|Hin]]; [|done|];
      [apply Hb in Hin|apply Ha in Hin]; simpl in Hin; pose proof (cmp_refl cmp ke); lia. }
  injection Hx as -> ->. destruct (NoDup_split_eq _ _ _ _ _ _ _ Hseq Hnd) as [-> ->].
  destruct (srep_splay_holds cmp F s1 (x, k) (SN l x k r) _ Hrep1 eq_refl Hs) as [Hh1 _].
  sp_read H1. destruct r as [|a y ky b]; [by apply wp_ret|].
  cbn [sroot]. rewrite (sroot_nonnull _ _ _ _ a y ky b H1) by ssub. simpl negb. cbv iota.
  sp_read H1. cbn [sroot]. eapply wp_mono.
  - eapply (splay_leftmost_ok _ _ _ (SN a y ky b)); [exact H1|ssub|done|].
    rewrite <- (length_fmap fst), cells_locs, length_fmap in Hsz |- *.
    rewrite Ht in Hsz. rewrite length_app in Hsz. simpl length in *. lia.
  - intros p s2 [-> ->]. done.
Qed.

(** An element of the store as the object of interest. *)
Lemma splay_holds_any F s els : splay_holds cmp F s els → els ≠ [] →
  ∃ ek t, srep F s ek t ∧ t ≠ SE ∧ sinorder t = els ∧ sorted cmp els.
Proof.
  intros Hh Hne. destruct els as [|[p k] els]; [done|].
  assert (has_key s p k) as Hk by (eapply splay_holds_key; [exact Hh|by left]).
  destruct (splay_holds_srep _ _ _ _ _ _ Hh Hk) as (t & Hrep & Ht & Hs).
  exists (p, k), t. split_and!; [done| |done..]. by intros ->.
Qed.
Lemma splay_holds_root F s els : splay_holds cmp F s els →
  (sph_root s =? NULL)%N = match els with [] => true | _ => false end.
Proof.
  intros Hh. destruct els as [|e els].
  - destruct Hh as (t & Ht%sinorder_nil & _ & -> & _). by subst.
  - destruct (splay_holds_any _ _ _ Hh) as (ek & t & [H Hr] & Hne & _ & _); [done|].
    destruct t as [|l x k r]; [done|]. rewrite Hr. eapply sroot_nonnull; [exact H|done].
Qed.

Lemma SPLAY_MIN_ok F s els : splay_holds cmp F s els →
  wp SPLAY_MIN s (λ p s', p = ptr_of (head els) ∧ sph_root s' = p ∧ splay_holds cmp F s' els).
Proof.
  intros Hh. apply wp_bind, wp_SPLAY_EMPTY. rewrite (splay_holds_root _ _ _ Hh).
  destruct els as [|e els].
  - apply wp_ret. pose proof (splay_holds_root _ _ _ Hh) as Hr. by apply N.eqb_eq in Hr.
  - destruct (splay_holds_any _ _ _ Hh) as (ek & t & Hrep & Hne & Ht & Hs); [done|].
    apply wp_bind. eapply wp_mono; [by apply (SPLAY_MINMAX_neg F s ek)|].
    intros _ s1 (x & k & r & Hrep1 & Hseq). apply wp_SPLAY_ROOT. rewrite Ht in Hseq.
    injection Hseq as <- <-. destruct (srep_splay_holds cmp F s1 ek (SN SE x k r) _ Hrep1 eq_refl Hs).
    destruct Hrep1 as [_ ->]. done.
Qed.
Lemma SPLAY_MAX_ok F s els : splay_holds cmp F s els →
  wp SPLAY_MAX s (λ p s', p = ptr_of (last els) ∧ sph_root s' = p ∧ splay_holds cmp F s' els).
Proof.
  intros Hh. apply wp_bind, wp_SPLAY_EMPTY. rewrite (splay_holds_root _ _ _ Hh).
  destruct els as [|e els].
  - apply wp_ret. pose proof (splay_holds_root _ _ _ Hh) as Hr. by apply N.eqb_eq in Hr.
  - destruct (splay_holds_any _ _ _ Hh) as (ek & t & Hrep & Hne & Ht & Hs); [done|].
    apply wp_bind. eapply wp_mono; [by apply (SPLAY_MINMAX_pos F s ek)|].
    intros _ s1 (l & x & k & Hrep1 & Hseq). apply wp_SPLAY_ROOT. rewrite Ht in Hseq.
    rewrite <- Hseq in Hs |- *. rewrite last_snoc.
    destruct (srep_splay_holds cmp F s1 ek (SN l x k SE) _ Hrep1 eq_refl Hs).
    destruct Hrep1 as [_ ->]. done.
Qed.

Lemma splay_foreach_loop_ok F fuel s l1 l2 : (length l2 < fuel)%nat →
  splay_holds cmp F s (l1 ++ l2) →
  wp (splay_foreach_loop cmp fuel (ptr_of (head l2))) s
    (λ xs s', xs = l2.*1 ∧ splay_holds cmp F s' (l1 ++ l2)).
Proof.
  revert s l1 l2. induction fuel as [|fuel IH]; intros s l1 l2 Hfuel Hh; [lia|].
  destruct l2 as [|[p k] l2]; [by apply wp_ret|]. cbn [splay_foreach_loop head ptr_of from_option fst].
  assert (Hp : (p =? NULL)%N = false).
  { apply N.eqb_neq. intros ->. destruct Hh as (t & Ht & _ & _ & _ & Hn & _). apply Hn.
    rewrite cells_locs, Ht, fmap_app. apply elem_of_app. right. by left. }
  rewrite Hp. apply wp_bind. eapply wp_mono; [by apply (SPLAY_NEXT_ok F)|].
  intros p' s1 [-> Hh1]. apply wp_bind. rewrite cons_middle, app_assoc in Hh1.
  eapply wp_mono; [apply (IH s1 (l1 ++ [(p, k)]) l2); [simpl in Hfuel; lia|exact Hh1]|].
  intros xs s2 [-> Hh2]. apply wp_ret. rewrite <- app_assoc in Hh2. done.
Qed.

Lemma splay_holds_length F s els : splay_holds cmp F s els → (length els ≤ size (sheap s))%nat.
Proof.
  intros Hh. destruct (decide (els = [])) as [->|Hne]; [simpl; lia|].
  destruct (splay_holds_any _ _ _ Hh Hne) as (ek & t & [H%holds_size _] & _ & <- & _).
  by rewrite <- (length_fmap fst (sinorder t)), <- cells_locs, length_fmap.
Qed.

(** SPLAY_MIN and SPLAY_MAX return the first and the last element in key
    order (NULL for an empty tree) and leave it at the root; the elements and
    every object outside the tree are unchanged. *)
Theorem SPLAY_MIN_MAX_correct F s els :
  splay_holds cmp F s els →
  wp SPLAY_MIN s (λ p s', p = ptr_of (head els) ∧ sph_root s' = p ∧ splay_holds cmp F s' els) ∧
  wp SPLAY_MAX s (λ p s', p = ptr_of (last els) ∧ sph_root s' = p ∧ splay_holds cmp F s' els).
Proof. split; [by apply SPLAY_MIN_ok|by apply SPLAY_MAX_ok]. Qed.

(** SPLAY_FOREACH terminates and visits every element of the tree once, in
    key order, although every step of it restructures the tree. *)
Theorem SPLAY_FOREACH_correct F s els :
  splay_holds cmp F s els →
  wp (SPLAY_FOREACH cmp) s (λ xs s', xs = els.*1 ∧ splay_holds cmp F s' els).
Proof.
  intros Hh. apply wp_bind. eapply wp_mono; [by apply (SPLAY_MIN_ok F)|].
  intros p s1 (-> & _ & Hh1). apply wp_bind, wp_sp_fuel.
  apply (splay_foreach_loop_ok F _ s1 [] els); [|done].
  pose proof (splay_holds_length _ _ _ Hh1). lia.
Qed.
End theorems.

(** ** Instances *)

(** The store after inserting 50, 30, 80 and 10; the object 5 (key 40) is not
    linked. *)
Definition sx_state : splay_state Z :=
  match (SPLAY_INIT;; SPLAY_INSERT Z.sub 1%N;; SPLAY_INSERT Z.sub 2%N;;
         SPLAY_INSERT Z.sub 3%N;; SPLAY_INSERT Z.sub 4%N) sp_objects with
  | Some (_, s) => s
  | None => sp_objects
  end.
Definition sx_els : list (ptr * Z) := [(4%N, 10%Z); (2%N, 30%Z); (1%N, 50%Z); (3%N, 80%Z)].
Definition sx_tree : stree Z := SN SE 4%N 10%Z (SN SE 2%N 30%Z (SN SE 1%N 50%Z (SN SE 3%N 80%Z SE))).

Lemma sx_holds : splay_holds Z.sub (sheap sx_state) sx_state sx_els.
Proof.
  exists sx_tree. split_and!; [reflexivity|repeat constructor|vm_compute; reflexivity|].
  split_and!.
  - apply (bool_decide_unpack _). vm_compute. exact I.
  - apply (bool_decide_unpack _). vm_compute. exact I.
  - repeat (apply Forall_cons; split; [vm_compute; reflexivity|]). apply Forall_nil_2.
  - done.
Qed.
Lemma sx_key : has_key sx_state 5%N 40%Z.
Proof. vm_compute. reflexivity. Qed.

Lemma SPLAY_INSERT_correct_witness :
  wp (SPLAY_INSERT Z.sub 5%N) sx_state (λ r s', r = NULL ∧
    splay_holds Z.sub (sheap sx_state) s'
      [(4%N, 10%Z); (2%N, 30%Z); (5%N, 40%Z); (1%N, 50%Z); (3%N, 80%Z)]).
Proof.
  eapply wp_mono.
  - apply (SPLAY_INSERT_correct Z.sub (sheap sx_state) sx_state sx_els 5%N 40%Z);
      [exact sx_holds|exact sx_key| |discriminate].
    apply (bool_decide_unpack _). vm_compute. exact I.
  - intros r s' [H _]. exact H.
Defined.
Lemma SPLAY_REMOVE_correct_witness :
  wp (SPLAY_REMOVE Z.sub 2%N) sx_state (λ r s', r = 2%N ∧ ∃ n, sval n = Some 30%Z ∧
    splay_holds Z.sub (<[2%N:=n]> (sheap sx_state)) s' [(4%N, 10%Z); (1%N, 50%Z); (3%N, 80%Z)]).
Proof.
  eapply wp_mono.
  - apply (SPLAY_REMOVE_correct Z.sub (sheap sx_state) sx_state sx_els 2%N 30%Z);
      [exact sx_holds|vm_compute; reflexivity].
  - intros r s' [[-> (l1 & l2 & n & Heq & Hn & Hh)] _]. split; [reflexivity|]. exists n.
    split; [exact Hn|]. unfold sx_els in Heq. destruct l1 as [|? [|? [|? [|? l1]]]];
      simpl in *; simplify_eq; [exact Hh|]. by destruct l1.
Defined.
Lemma SPLAY_FIND_correct_witness :
  wp (SPLAY_FIND Z.sub 1%N) sx_state (λ r s', r = 1%N ∧ sph_root s' = 1%N).
Proof.
  eapply wp_mono.
  - apply (SPLAY_FIND_correct Z.sub (sheap sx_state) sx_state sx_els 1%N 50%Z);
      [exact sx_holds|vm_compute; reflexivity].
  - intros r s' (-> & Hr & _). split; [reflexivity|]. apply Hr. discriminate.
Defined.
Lemma SPLAY_MIN_MAX_correct_witness :
  wp SPLAY_MIN sx_state (λ p s', p = 4%N ∧ sph_root s' = p ∧ splay_holds Z.sub (sheap sx_state) s' sx_els) ∧
  wp SPLAY_MAX sx_state (λ p s', p = 3%N ∧ sph_root s' = p ∧ splay_holds Z.sub (sheap sx_state) s' sx_els).
Proof. exact (SPLAY_MIN_MAX_correct Z.sub (sheap sx_state) sx_state sx_els sx_holds). Defined.
Lemma SPLAY_FOREACH_correct_witness :
  wp (SPLAY_FOREACH Z.sub) sx_state (λ xs s', xs = [4; 2; 1; 3]%N ∧
    splay_holds Z.sub (sheap sx_state) s' sx_els).
Proof. exact (SPLAY_FOREACH_correct Z.sub (sheap sx_state) sx_state sx_els sx_holds). Defined.
