(* ===== verification/CLayout.v ===== *)
(** * C types and their layout

    The part of the C type system that the headers under
    src/libuv_helper use, with the layout rules of the System V ABI for a
    64-bit target (LP64): sizes, alignments and member offsets.  Types that
    come from system headers are opaque; a platform gives their size and
    alignment as an instance of [SysTypes].  The lemmas are the facts about
    layouts that the component files share: members are aligned and do not
    overlap, and two structures with a common initial sequence of members
    agree on its offsets. *)
From stdpp Require Import sorting.
From S2P Require Import Prelude.
#[local] Open Scope N_scope.

Inductive ctype :=
  | Tvoid
  | Tint (signed : bool) (bytes : N)
  | Tfloat (bytes : N)
  | Tenum (name : string)
  (** a pointer, to an object or to a function, with the pointed-to type *)
  | Tptr (to : string)
  | Tarr (t : ctype) (n : N)
  | Tstruct (name : string) (fs : list (string * ctype))
  | Tunion (name : string) (fs : list (string * ctype))
  (** a type of a system header *)
  | Tsys (name : string).
Abbreviation members := (list (string * ctype)).

(** LP64 *)
Definition c_char := Tint true 1.
Definition c_uchar := Tint false 1.
Definition c_short := Tint true 2.
Definition c_int := Tint true 4.
Definition c_uint := Tint false 4.
Definition c_long := Tint true 8.
Definition c_ulong := Tint false 8.
Definition c_double := Tfloat 8.
Definition size_t := c_ulong.
Definition ssize_t := c_long.
Definition int32_t := c_int.
Definition int64_t := c_long.
Definition uint64_t := c_ulong.

(** Sizes and alignments of the types of system headers; alignments are
    powers of two and divide sizes, as C requires of complete types. *)
Class SysTypes := {
  sys_size : string → N;
  sys_log_align : string → N;
  sys_size_align n : (2 ^ sys_log_align n | sys_size n);
}.

Definition align_up (x a : N) : N := (x + a - 1) / a * a.

Section layout.
Context `{SysTypes}.

(** The base-2 logarithm of the alignment. *)
Fixpoint log_alignof (t : ctype) : N :=
  match t with
  | Tvoid => 0
  | Tint _ b | Tfloat b => N.log2 b
  | Tenum _ => 2
  | Tptr _ => 3
  | Tarr t _ => log_alignof t
  | Tstruct _ fs | Tunion _ fs => foldr (λ f a, N.max (log_alignof f.2) a) 0 fs
  | Tsys n => sys_log_align n
  end.
Definition alignof (t : ctype) : N := 2 ^ log_alignof t.

Fixpoint sizeof (t : ctype) : N :=
  match t with
  | Tvoid => 0
  | Tint _ b | Tfloat b => b
  | Tenum _ => 4
  | Tptr _ => 8
  | Tarr t n => n * sizeof t
  | Tstruct _ fs =>
    align_up (foldl (λ off f, align_up off (alignof f.2) + sizeof f.2) 0 fs) (alignof t)
  | Tunion _ fs => align_up (foldr (λ f m, N.max (sizeof f.2) m) 0 fs) (alignof t)
  | Tsys n => sys_size n
  end.

(** The members of a structure with their offsets, from offset [off] on, and
    the offset after the last one. *)
Fixpoint layout (off : N) (fs : members) : list (string * ctype * N) :=
  match fs with
  | [] => []
  | (x, t) :: fs =>
    let o := align_up off (alignof t) in
    (x, t, o) :: layout (o + sizeof t) fs
  end.
Definition layout_end (off : N) (fs : members) : N :=
  foldl (λ off f, align_up off (alignof f.2) + sizeof f.2) off fs.

Definition members_of (t : ctype) : members :=
  match t with Tstruct _ fs | Tunion _ fs => fs | _ => [] end.
Definition offsets (t : ctype) : list (string * ctype * N) :=
  match t with
  | Tstruct _ fs => layout 0 fs
  | Tunion _ fs => (λ f, (f, 0)) <$> fs
  | _ => []
  end.

(** [offsetof t x], with the type of the member. *)
Definition offsetof (t : ctype) (x : string) : option (ctype * N) :=
  match filter (λ f, f.1.1 = x) (offsets t) with
  | (_, u, o) :: _ => Some (u, o)
  | [] => None
  end.
End layout.

(** Scalars have a power of two as their size. *)
Fixpoint ctype_ok (t : ctype) : Prop :=
  match t with
  | Tint _ b | Tfloat b => b = 2 ^ N.log2 b
  | Tarr t _ => ctype_ok t
  | Tstruct _ fs | Tunion _ fs => foldr (λ f P, ctype_ok f.2 ∧ P) True fs
  | _ => True
  end.

Section induction.
Variable P : ctype → Prop.
Hypothesis Pvoid : P Tvoid.
Hypothesis Pint : ∀ s b, P (Tint s b).
Hypothesis Pfloat : ∀ b, P (Tfloat b).
Hypothesis Penum : ∀ n, P (Tenum n).
Hypothesis Pptr : ∀ n, P (Tptr n).
Hypothesis Parr : ∀ t n, P t → P (Tarr t n).
Hypothesis Pstruct : ∀ n fs, Forall (λ f, P f.2) fs → P (Tstruct n fs).
Hypothesis Punion : ∀ n fs, Forall (λ f, P f.2) fs → P (Tunion n fs).
Hypothesis Psys : ∀ n, P (Tsys n).

Fixpoint ctype_ind_nested (t : ctype) : P t :=
  match t with
  | Tvoid => Pvoid
  | Tint s b => Pint s b
  | Tfloat b => Pfloat b
  | Tenum n => Penum n
  | Tptr n => Pptr n
  | Tarr t n => Parr t n (ctype_ind_nested t)
  | Tstruct n fs =>
    Pstruct n fs ((fix go (fs : members) : Forall (λ f, P f.2) fs := match fs with
      | [] => @List.Forall_nil _ _
      | f :: fs => @List.Forall_cons _ _ f fs (ctype_ind_nested f.2) (go fs) end) fs)
  | Tunion n fs =>
    Punion n fs ((fix go (fs : members) : Forall (λ f, P f.2) fs := match fs with
      | [] => @List.Forall_nil _ _
      | f :: fs => @List.Forall_cons _ _ f fs (ctype_ind_nested f.2) (go fs) end) fs)
  | Tsys n => Psys n
  end.
End induction.

(** ** Facts about layouts *)

Lemma align_up_spec x a : 0 < a → (a | align_up x a) ∧ x ≤ align_up x a ∧ align_up x a < x + a.
Proof.
  intros Ha. unfold align_up. split; [by exists ((x + a - 1) / a)|].
  pose proof (N.div_mod (x + a - 1) a ltac:(lia)). pose proof (N.mod_lt (x + a - 1) a ltac:(lia)).
  rewrite (N.mul_comm _ a). generalize dependent ((x + a - 1) `mod` a). intros r Hq Hr.
  generalize dependent (a * ((x + a - 1) / a)). intros q Hq. lia.
Qed.

Lemma align_up_id x a : 0 < a → (a | x) → align_up x a = x.
Proof.
  intros Ha [k ->]. unfold align_up. replace (k * a + a - 1) with (k * a + (a - 1)) by lia.
  rewrite N.div_add_l by lia. rewrite N.div_small by lia. lia.
Qed.

#[global] Arguments layout_end : simpl never.
#[global] Arguments align_up : simpl never.

Section facts.
Context `{SysTypes}.

Lemma alignof_pos t : 0 < alignof t.
Proof. unfold alignof. apply N.neq_0_lt_0, N.pow_nonzero. lia. Qed.

Lemma pow2_divide m n : m ≤ n → (2 ^ m | 2 ^ n).
Proof. intros Hmn. exists (2 ^ (n - m)). rewrite <- N.pow_add_r. f_equal. lia. Qed.

Lemma log_alignof_member (f : string * ctype) (fs : members) : f ∈ fs → log_alignof f.2 ≤ foldr (λ f a, N.max (log_alignof f.2) a) 0 fs.
Proof. induction 1; simpl; lia. Qed.

(** The alignment of a structure or union serves all its members. *)
Lemma alignof_member t (f : string * ctype) : f ∈ members_of t → (alignof f.2 | alignof t).
Proof.
  destruct t; simpl; intros Hf; try by apply not_elem_of_nil in Hf.
  all: apply pow2_divide, log_alignof_member, Hf.
Qed.

Lemma sizeof_aligned t : ctype_ok t → (alignof t | sizeof t).
Proof.
  induction t as [|s b|b|n|n|t n IH|n fs IH|n fs IH|n] using ctype_ind_nested; intros Hok; simpl.
  - by exists 0.
  - exists 1. unfold alignof. simpl in *. lia.
  - exists 1. unfold alignof. simpl in *. lia.
  - by exists 1.
  - by exists 1.
  - destruct (IH Hok) as [k ->]. exists (n * k). unfold alignof. simpl. lia.
  - apply align_up_spec, alignof_pos.
  - apply align_up_spec, alignof_pos.
  - apply sys_size_align.
Qed.

Lemma layout_end_cons off x t fs :
  layout_end off ((x, t) :: fs) = layout_end (align_up off (alignof t) + sizeof t) fs.
Proof. done. Qed.
Lemma layout_end_ge off fs : off ≤ layout_end off fs.
Proof.
  revert off. induction fs as [|[x t] fs IH]; intros off; [unfold layout_end; simpl; lia|].
  rewrite layout_end_cons. specialize (IH (align_up off (alignof t) + sizeof t)).
  pose proof (align_up_spec off (alignof t) (alignof_pos t)). lia.
Qed.

(** Every member starts at an aligned offset and ends before the structure. *)
Lemma layout_bounds off fs x t o :
  (x, t, o) ∈ layout off fs →
  (x, t) ∈ fs ∧ (alignof t | o) ∧ off ≤ o ∧ o + sizeof t ≤ layout_end off fs.
Proof.
  revert off. induction fs as [|[y u] fs IH]; intros off; simpl; [by intros []%not_elem_of_nil|].
  rewrite layout_end_cons.
  pose proof (align_up_spec off (alignof u) (alignof_pos u)) as (Hd & Hle & _).
  rewrite elem_of_cons. intros [[= -> -> ->]|Hin].
  - split; [by left|]. split; [done|]. split; [done|]. apply layout_end_ge.
  - destruct (IH _ Hin) as (Hf & Ha & Ho & He). split; [by right|]. split; [done|]. split; [lia|done].
Qed.

(** Earlier members end before later ones start. *)
Definition before_member (f g : string * ctype * N) : Prop := f.2 + sizeof f.1.2 ≤ g.2.
Lemma layout_sorted off fs : StronglySorted before_member (layout off fs).
Proof.
  revert off. induction fs as [|[y u] fs IH]; intros off; simpl; constructor; [apply IH|].
  apply Forall_forall. intros [[x t] o] Hin. destruct (layout_bounds _ _ _ _ _ Hin) as (_ & _ & Ho & _).
  exact Ho.
Qed.

Lemma layout_app off fs gs : layout off (fs ++ gs) = layout off fs ++ layout (layout_end off fs) gs.
Proof.
  revert off. induction fs as [|[y u] fs IH]; intros off; simpl; [done|]. by rewrite IH.
Qed.
Lemma layout_end_app off fs gs : layout_end off (fs ++ gs) = layout_end (layout_end off fs) gs.
Proof. unfold layout_end. by rewrite foldl_app. Qed.

(** The layout of a structure: members are aligned, inside the structure and
    pairwise disjoint. *)
Lemma struct_layout_ok n fs :
  StronglySorted before_member (offsets (Tstruct n fs)) ∧
  Forall (λ f, (alignof f.1.2 | f.2) ∧ (alignof f.1.2 | alignof (Tstruct n fs)) ∧
               f.2 + sizeof f.1.2 ≤ sizeof (Tstruct n fs)) (offsets (Tstruct n fs)).
Proof.
  split; [apply layout_sorted|]. apply Forall_forall. intros [[x t] o] Hin.
  destruct (layout_bounds _ _ _ _ _ Hin) as (Hf & Ha & _ & He). simpl. split_and!; [done| |].
  - by apply (alignof_member (Tstruct n fs) (x, t)).
  - etransitivity; [exact He|]. apply align_up_spec, alignof_pos.
Qed.

(** A member of a common initial sequence has the same type and offset in
    both structures. *)
Lemma offsetof_prefix n n' fs gs x r :
  offsetof (Tstruct n fs) x = Some r → offsetof (Tstruct n' (fs ++ gs)) x = Some r.
Proof.
  unfold offsetof. simpl. rewrite layout_app, filter_app.
  by destruct (filter _ (layout 0 fs)) as [|[[y u] o] l].
Qed.

Lemma sizeof_prefix n n' fs gs : sizeof (Tstruct n fs) ≤ sizeof (Tstruct n' (fs ++ gs)).
Proof.
  change (align_up (layout_end 0 fs) (alignof (Tstruct n fs)) ≤
    align_up (layout_end 0 (fs ++ gs)) (alignof (Tstruct n' (fs ++ gs)))).
  assert (alignof (Tstruct n fs) | alignof (Tstruct n' (fs ++ gs))) as Ha.
  { apply pow2_divide. simpl. rewrite foldr_app.
    generalize (foldr (λ f a, N.max (log_alignof f.2) a) 0 gs). intros m.
    induction fs as [|f fs IH]; simpl; lia. }
  pose proof (layout_end_ge (layout_end 0 fs) gs) as Hge. rewrite <- layout_end_app in Hge.
  pose proof (align_up_spec (layout_end 0 (fs ++ gs)) _ (alignof_pos (Tstruct n' (fs ++ gs)))) as ([k Hk] & Hle & _).
  destruct Ha as [j Hj]. pose proof (alignof_pos (Tstruct n fs)) as Hpos.
  pose proof (align_up_spec (layout_end 0 fs) _ Hpos) as ([i Hi] & _ & Hlt).
  rewrite Hi, Hk, Hj in *. set (a := alignof (Tstruct n fs)) in *.
  destruct (N.le_gt_cases i (k * j)); nia.
Qed.
End facts.

(** ** Prototypes

    A declaration of a header is a name, a result type and the types of the
    parameters; the tables of UvApi.v and GcApi.v are lists of these.  A
    parameter declared as an array or as a function has the pointer type C
    gives it, and the names of callback typedefs (themselves pointers to
    functions) are written [Tptr "uv_close_cb"]. *)

Record fproto := mk_fproto {
  p_name : string; p_ret : ctype; p_args : list ctype; p_variadic : bool }.
Definition proto n r a := mk_fproto n r a false.
Definition vproto n r a := mk_fproto n r a true.

Definition find_proto (n : string) (l : list fproto) : option fproto :=
  snd <$> list_find (λ p, p_name p = n) l.

Lemma find_proto_Some n l p : find_proto n l = Some p → p_name p = n ∧ p ∈ l.
Proof.
  unfold find_proto. intros ([i q] & Hq & [= ->])%fmap_Some.
  apply list_find_Some in Hq as (Hi & Hn & _). split; [done|].
  by eapply list_elem_of_lookup_2.
Qed.
