(* ===== verification/UvTypes.v ===== *)
(** * The data types of libuv: uv.h, unix.h, linux.h, threadpool.h

    The structures, unions and enumerations of src/libuv_helper/uv.h with the
    member lists of uv/unix.h, uv/linux.h and uv/threadpool.h, as the
    preprocessor assembles them on Linux.  The class hierarchy of libuv is
    the sharing of the [UV_*_FIELDS] macros: a handle is used through a
    pointer to [uv_handle_t], so the macros have to lay their members out at
    the same offsets in every structure; the lemmas at the end show it for
    every platform. *)
From S2P Require Import Prelude CLayout.
#[local] Open Scope N_scope.

Definition ptr_to (t : string) : ctype := Tptr t.
Definition pair_of (t : string) : ctype := Tarr (Tptr t) 2.

(** ** threadpool.h *)
Definition uv__work : ctype := Tstruct "uv__work" [
  ("work", ptr_to "void (struct uv__work *w)");
  ("done", ptr_to "void (struct uv__work *w, int status)");
  ("loop", ptr_to "struct uv_loop_s");
  ("wq", pair_of "void")].

(** ** linux.h *)
Definition UV_PLATFORM_FS_EVENT_FIELDS : members := [
  ("watchers", pair_of "void"); ("wd", c_int)].

(** ** unix.h: types *)
Definition uv__io_s : ctype := Tstruct "uv__io_s" [
  ("cb", ptr_to "uv__io_cb");
  ("pending_queue", pair_of "void");
  ("watcher_queue", pair_of "void");
  ("pevents", c_uint);
  ("events", c_uint);
  ("fd", c_int)
  (* UV_IO_PRIVATE_PLATFORM_FIELDS is empty *)].
Definition uv__io_t := uv__io_s.
Definition UV_PLATFORM_LOOP_FIELDS : members := [
  ("inotify_read_watcher", uv__io_t);
  ("inotify_watchers", ptr_to "void");
  ("inotify_fd", c_int)].
Definition UV_STREAM_PRIVATE_PLATFORM_FIELDS : members := [].

Definition uv_buf_t : ctype := Tstruct "uv_buf_t" [("base", ptr_to "char"); ("len", size_t)].

Definition uv_file := c_int.
Definition uv_os_sock_t := c_int.
Definition uv_os_fd_t := c_int.
Definition uv_pid_t := Tsys "pid_t".

Definition uv_once_t := Tsys "pthread_once_t".
Definition uv_thread_t := Tsys "pthread_t".
Definition uv_mutex_t := Tsys "pthread_mutex_t".
Definition uv_rwlock_t := Tsys "pthread_rwlock_t".
Definition UV_PLATFORM_SEM_T := Tsys "sem_t".
Definition uv_sem_t := UV_PLATFORM_SEM_T.
Definition uv_cond_t := Tsys "pthread_cond_t".
Definition uv_key_t := Tsys "pthread_key_t".

(** The barrier of the platforms without PTHREAD_BARRIER_SERIAL_THREAD, and
    the one of those that have it. *)
Definition _uv_barrier : ctype := Tstruct "_uv_barrier" [
  ("mutex", uv_mutex_t); ("cond", uv_cond_t);
  ("threshold", c_uint); ("in", c_uint); ("out", c_uint)].
Definition uv_barrier_t := Tsys "pthread_barrier_t".

Definition uv_gid_t := Tsys "gid_t".
Definition uv_uid_t := Tsys "uid_t".
Definition UV_DIR_PRIVATE_FIELDS : members := [("dir", ptr_to "DIR")].
Definition uv_lib_t : ctype := Tstruct "uv_lib_t" [("handle", ptr_to "void"); ("errmsg", ptr_to "char")].

(** The host-name bounds unix.h defines when netdb.h does not. *)
Definition NI_MAXHOST : N := 1025.
Definition NI_MAXSERV : N := 32.

(** ** unix.h: private members of the requests and handles *)
Definition UV_REQ_PRIVATE_FIELDS : members := [].
Definition UV_WRITE_PRIVATE_FIELDS : members := [
  ("queue", pair_of "void");
  ("write_index", c_uint);
  ("bufs", ptr_to "uv_buf_t");
  ("nbufs", c_uint);
  ("error", c_int);
  ("bufsml", Tarr uv_buf_t 4)].
Definition UV_CONNECT_PRIVATE_FIELDS : members := [("queue", pair_of "void")].
Definition UV_SHUTDOWN_PRIVATE_FIELDS : members := [].
Definition UV_UDP_SEND_PRIVATE_FIELDS : members := [
  ("queue", pair_of "void");
  ("addr", Tsys "struct sockaddr_storage");
  ("nbufs", c_uint);
  ("bufs", ptr_to "uv_buf_t");
  ("status", ssize_t);
  ("send_cb", ptr_to "uv_udp_send_cb");
  ("bufsml", Tarr uv_buf_t 4)].
Definition UV_HANDLE_PRIVATE_FIELDS : members := [
  ("next_closing", ptr_to "uv_handle_t"); ("flags", c_uint)].
Definition UV_STREAM_PRIVATE_FIELDS : members := [
  ("connect_req", ptr_to "uv_connect_t");
  ("shutdown_req", ptr_to "uv_shutdown_t");
  ("io_watcher", uv__io_t);
  ("write_queue", pair_of "void");
  ("write_completed_queue", pair_of "void");
  ("connection_cb", ptr_to "uv_connection_cb");
  ("delayed_error", c_int);
  ("accepted_fd", c_int);
  ("queued_fds", ptr_to "void")] ++ UV_STREAM_PRIVATE_PLATFORM_FIELDS.
Definition UV_TCP_PRIVATE_FIELDS : members := [].
Definition UV_UDP_PRIVATE_FIELDS : members := [
  ("alloc_cb", ptr_to "uv_alloc_cb");
  ("recv_cb", ptr_to "uv_udp_recv_cb");
  ("io_watcher", uv__io_t);
  ("write_queue", pair_of "void");
  ("write_completed_queue", pair_of "void")].
Definition UV_PIPE_PRIVATE_FIELDS : members := [("pipe_fname", ptr_to "const char")].
Definition UV_POLL_PRIVATE_FIELDS : members := [("io_watcher", uv__io_t)].
Definition UV_PREPARE_PRIVATE_FIELDS : members := [
  ("prepare_cb", ptr_to "uv_prepare_cb"); ("queue", pair_of "void")].
Definition UV_CHECK_PRIVATE_FIELDS : members := [
  ("check_cb", ptr_to "uv_check_cb"); ("queue", pair_of "void")].
Definition UV_IDLE_PRIVATE_FIELDS : members := [
  ("idle_cb", ptr_to "uv_idle_cb"); ("queue", pair_of "void")].
Definition UV_ASYNC_PRIVATE_FIELDS : members := [
  ("async_cb", ptr_to "uv_async_cb"); ("queue", pair_of "void"); ("pending", c_int)].
Definition UV_TIMER_PRIVATE_FIELDS : members := [
  ("timer_cb", ptr_to "uv_timer_cb");
  ("heap_node", Tarr (ptr_to "void") 3);
  ("timeout", uint64_t);
  ("repeat", uint64_t);
  ("start_id", uint64_t)].
Definition UV_GETADDRINFO_PRIVATE_FIELDS : members := [
  ("work_req", uv__work);
  ("cb", ptr_to "uv_getaddrinfo_cb");
  ("hints", ptr_to "struct addrinfo");
  ("hostname", ptr_to "char");
  ("service", ptr_to "char");
  ("addrinfo", ptr_to "struct addrinfo");
  ("retcode", c_int)].
Definition UV_GETNAMEINFO_PRIVATE_FIELDS : members := [
  ("work_req", uv__work);
  ("getnameinfo_cb", ptr_to "uv_getnameinfo_cb");
  ("storage", Tsys "struct sockaddr_storage");
  ("flags", c_int);
  ("host", Tarr c_char NI_MAXHOST);
  ("service", Tarr c_char NI_MAXSERV);
  ("retcode", c_int)].
Definition UV_PROCESS_PRIVATE_FIELDS : members := [("queue", pair_of "void"); ("status", c_int)].
Definition UV_FS_PRIVATE_FIELDS : members := [
  ("new_path", ptr_to "const char");
  ("file", uv_file);
  ("flags", c_int);
  ("mode", Tsys "mode_t");
  ("nbufs", c_uint);
  ("bufs", ptr_to "uv_buf_t");
  ("off", Tsys "off_t");
  ("uid", uv_uid_t);
  ("gid", uv_gid_t);
  ("atime", c_double);
  ("mtime", c_double);
  ("work_req", uv__work);
  ("bufsml", Tarr uv_buf_t 4)].
Definition UV_WORK_PRIVATE_FIELDS : members := [("work_req", uv__work)].
Definition UV_TTY_PRIVATE_FIELDS : members := [
  ("orig_termios", Tsys "struct termios"); ("mode", c_int)].
(** [RB_ENTRY(type)] of tree.h as a C type. *)
Definition RB_ENTRY_ctype (type : string) : ctype := Tstruct "" [
  ("rbe_left", ptr_to ("struct " +:+ type));
  ("rbe_right", ptr_to ("struct " +:+ type));
  ("rbe_parent", ptr_to ("struct " +:+ type));
  ("rbe_color", c_int)].
Definition UV_SIGNAL_PRIVATE_FIELDS : members := [
  ("tree_entry", Tstruct "" [
    ("rbe_left", ptr_to "struct uv_signal_s");
    ("rbe_right", ptr_to "struct uv_signal_s");
    ("rbe_parent", ptr_to "struct uv_signal_s");
    ("rbe_color", c_int)]);
  ("caught_signals", c_uint);
  ("dispatched_signals", c_uint)].
Definition UV_FS_EVENT_PRIVATE_FIELDS : members :=
  [("cb", ptr_to "uv_fs_event_cb")] ++ UV_PLATFORM_FS_EVENT_FIELDS.

(** ** uv.h: requests *)
Definition UV_REQ_FIELDS : members := [
  ("data", ptr_to "void");
  ("type", Tenum "uv_req_type");
  ("reserved", Tarr (ptr_to "void") 6)] ++ UV_REQ_PRIVATE_FIELDS.
Definition uv_req_s : ctype := Tstruct "uv_req_s" UV_REQ_FIELDS.

Definition uv_shutdown_s : ctype := Tstruct "uv_shutdown_s" (UV_REQ_FIELDS ++ [
  ("handle", ptr_to "uv_stream_t");
  ("cb", ptr_to "uv_shutdown_cb")] ++ UV_SHUTDOWN_PRIVATE_FIELDS).
Definition uv_write_s : ctype := Tstruct "uv_write_s" (UV_REQ_FIELDS ++ [
  ("cb", ptr_to "uv_write_cb");
  ("send_handle", ptr_to "uv_stream_t");
  ("handle", ptr_to "uv_stream_t")] ++ UV_WRITE_PRIVATE_FIELDS).
Definition uv_connect_s : ctype := Tstruct "uv_connect_s" (UV_REQ_FIELDS ++ [
  ("cb", ptr_to "uv_connect_cb");
  ("handle", ptr_to "uv_stream_t")] ++ UV_CONNECT_PRIVATE_FIELDS).
Definition uv_udp_send_s : ctype := Tstruct "uv_udp_send_s" (UV_REQ_FIELDS ++ [
  ("handle", ptr_to "uv_udp_t");
  ("cb", ptr_to "uv_udp_send_cb")] ++ UV_UDP_SEND_PRIVATE_FIELDS).
Definition uv_getaddrinfo_s : ctype := Tstruct "uv_getaddrinfo_s" (UV_REQ_FIELDS ++ [
  ("loop", ptr_to "uv_loop_t")] ++ UV_GETADDRINFO_PRIVATE_FIELDS).
Definition uv_getnameinfo_s : ctype := Tstruct "uv_getnameinfo_s" (UV_REQ_FIELDS ++ [
  ("loop", ptr_to "uv_loop_t")] ++ UV_GETNAMEINFO_PRIVATE_FIELDS).
Definition uv_work_s : ctype := Tstruct "uv_work_s" (UV_REQ_FIELDS ++ [
  ("loop", ptr_to "uv_loop_t");
  ("work_cb", ptr_to "uv_work_cb");
  ("after_work_cb", ptr_to "uv_after_work_cb")] ++ UV_WORK_PRIVATE_FIELDS).

Definition uv_timespec_t : ctype := Tstruct "uv_timespec_t" [("tv_sec", c_long); ("tv_nsec", c_long)].
Definition uv_stat_t : ctype := Tstruct "uv_stat_t" [
  ("st_dev", uint64_t); ("st_mode", uint64_t); ("st_nlink", uint64_t); ("st_uid", uint64_t);
  ("st_gid", uint64_t); ("st_rdev", uint64_t); ("st_ino", uint64_t); ("st_size", uint64_t);
  ("st_blksize", uint64_t); ("st_blocks", uint64_t); ("st_flags", uint64_t); ("st_gen", uint64_t);
  ("st_atim", uv_timespec_t); ("st_mtim", uv_timespec_t); ("st_ctim", uv_timespec_t);
  ("st_birthtim", uv_timespec_t)].
Definition uv_fs_s : ctype := Tstruct "uv_fs_s" (UV_REQ_FIELDS ++ [
  ("fs_type", Tenum "uv_fs_type");
  ("loop", ptr_to "uv_loop_t");
  ("cb", ptr_to "uv_fs_cb");
  ("result", ssize_t);
  ("ptr", ptr_to "void");
  ("path", ptr_to "const char");
  ("statbuf", uv_stat_t)] ++ UV_FS_PRIVATE_FIELDS).
Definition uv_random_s : ctype := Tstruct "uv_random_s" (UV_REQ_FIELDS ++ [
  ("loop", ptr_to "uv_loop_t");
  ("status", c_int);
  ("buf", ptr_to "void");
  ("buflen", size_t);
  ("cb", ptr_to "uv_random_cb");
  ("work_req", uv__work)]).

(** ** uv.h: handles *)
Definition UV_HANDLE_FIELDS : members := [
  ("data", ptr_to "void");
  ("loop", ptr_to "uv_loop_t");
  ("type", Tenum "uv_handle_type");
  ("close_cb", ptr_to "uv_close_cb");
  ("handle_queue", pair_of "void");
  ("u", Tunion "" [("fd", c_int); ("reserved", Tarr (ptr_to "void") 4)])] ++ UV_HANDLE_PRIVATE_FIELDS.
Definition uv_handle_s : ctype := Tstruct "uv_handle_s" UV_HANDLE_FIELDS.

Definition UV_STREAM_FIELDS : members := [
  ("write_queue_size", size_t);
  ("alloc_cb", ptr_to "uv_alloc_cb");
  ("read_cb", ptr_to "uv_read_cb")] ++ UV_STREAM_PRIVATE_FIELDS.
Definition uv_stream_s : ctype := Tstruct "uv_stream_s" (UV_HANDLE_FIELDS ++ UV_STREAM_FIELDS).
Definition uv_tcp_s : ctype :=
  Tstruct "uv_tcp_s" (UV_HANDLE_FIELDS ++ UV_STREAM_FIELDS ++ UV_TCP_PRIVATE_FIELDS).
Definition uv_udp_s : ctype := Tstruct "uv_udp_s" (UV_HANDLE_FIELDS ++ [
  ("send_queue_size", size_t); ("send_queue_count", size_t)] ++ UV_UDP_PRIVATE_FIELDS).
Definition uv_tty_s : ctype :=
  Tstruct "uv_tty_s" (UV_HANDLE_FIELDS ++ UV_STREAM_FIELDS ++ UV_TTY_PRIVATE_FIELDS).
Definition uv_pipe_s : ctype :=
  Tstruct "uv_pipe_s" (UV_HANDLE_FIELDS ++ UV_STREAM_FIELDS ++ [("ipc", c_int)] ++ UV_PIPE_PRIVATE_FIELDS).
Definition uv_poll_s : ctype :=
  Tstruct "uv_poll_s" (UV_HANDLE_FIELDS ++ [("poll_cb", ptr_to "uv_poll_cb")] ++ UV_POLL_PRIVATE_FIELDS).
Definition uv_prepare_s : ctype := Tstruct "uv_prepare_s" (UV_HANDLE_FIELDS ++ UV_PREPARE_PRIVATE_FIELDS).
Definition uv_check_s : ctype := Tstruct "uv_check_s" (UV_HANDLE_FIELDS ++ UV_CHECK_PRIVATE_FIELDS).
Definition uv_idle_s : ctype := Tstruct "uv_idle_s" (UV_HANDLE_FIELDS ++ UV_IDLE_PRIVATE_FIELDS).
Definition uv_async_s : ctype := Tstruct "uv_async_s" (UV_HANDLE_FIELDS ++ UV_ASYNC_PRIVATE_FIELDS).
Definition uv_timer_s : ctype := Tstruct "uv_timer_s" (UV_HANDLE_FIELDS ++ UV_TIMER_PRIVATE_FIELDS).
Definition uv_process_s : ctype := Tstruct "uv_process_s" (UV_HANDLE_FIELDS ++ [
  ("exit_cb", ptr_to "uv_exit_cb"); ("pid", c_int)] ++ UV_PROCESS_PRIVATE_FIELDS).
Definition uv_fs_event_s : ctype :=
  Tstruct "uv_fs_event_s" (UV_HANDLE_FIELDS ++ [("path", ptr_to "char")] ++ UV_FS_EVENT_PRIVATE_FIELDS).
Definition uv_fs_poll_s : ctype := Tstruct "uv_fs_poll_s" (UV_HANDLE_FIELDS ++ [("poll_ctx", ptr_to "void")]).
Definition uv_signal_s : ctype := Tstruct "uv_signal_s" (UV_HANDLE_FIELDS ++ [
  ("signal_cb", ptr_to "uv_signal_cb"); ("signum", c_int)] ++ UV_SIGNAL_PRIVATE_FIELDS).

(** ** uv.h: the loop *)
Definition UV_LOOP_PRIVATE_FIELDS : members := [
  ("flags", c_ulong);
  ("backend_fd", c_int);
  ("pending_queue", pair_of "void");
  ("watcher_queue", pair_of "void");
  ("watchers", ptr_to "uv__io_t *");
  ("nwatchers", c_uint);
  ("nfds", c_uint);
  ("wq", pair_of "void");
  ("wq_mutex", uv_mutex_t);
  ("wq_async", uv_async_s);
  ("cloexec_lock", uv_rwlock_t);
  ("closing_handles", ptr_to "uv_handle_t");
  ("process_handles", pair_of "void");
  ("prepare_handles", pair_of "void");
  ("check_handles", pair_of "void");
  ("idle_handles", pair_of "void");
  ("async_handles", pair_of "void");
  ("async_unused", ptr_to "void (void)");
  ("async_io_watcher", uv__io_t);
  ("async_wfd", c_int);
  ("timer_heap", Tstruct "" [("min", ptr_to "void"); ("nelts", c_uint)]);
  ("timer_counter", uint64_t);
  ("time", uint64_t);
  ("signal_pipefd", Tarr c_int 2);
  ("signal_io_watcher", uv__io_t);
  ("child_watcher", uv_signal_s);
  ("emfile_fd", c_int)] ++ UV_PLATFORM_LOOP_FIELDS.
Definition uv_loop_s : ctype := Tstruct "uv_loop_s" ([
  ("data", ptr_to "void");
  ("active_handles", c_uint);
  ("handle_queue", pair_of "void");
  ("active_reqs", Tunion "" [("unused", ptr_to "void"); ("count", c_uint)]);
  ("internal_fields", ptr_to "void");
  ("stop_flag", c_uint)] ++ UV_LOOP_PRIVATE_FIELDS).

(** ** uv.h: the other structures *)
Definition uv_stdio_container_s : ctype := Tstruct "uv_stdio_container_s" [
  ("flags", Tenum "uv_stdio_flags");
  ("data", Tunion "" [("stream", ptr_to "uv_stream_t"); ("fd", c_int)])].
Definition uv_process_options_s : ctype := Tstruct "uv_process_options_s" [
  ("exit_cb", ptr_to "uv_exit_cb");
  ("file", ptr_to "const char");
  ("args", ptr_to "char *");
  ("env", ptr_to "char *");
  ("cwd", ptr_to "const char");
  ("flags", c_uint);
  ("stdio_count", c_int);
  ("stdio", ptr_to "uv_stdio_container_t");
  ("uid", uv_uid_t);
  ("gid", uv_gid_t)].
Definition uv_cpu_times_s : ctype := Tstruct "uv_cpu_times_s" [
  ("user", uint64_t); ("nice", uint64_t); ("sys", uint64_t); ("idle", uint64_t); ("irq", uint64_t)].
Definition uv_cpu_info_s : ctype := Tstruct "uv_cpu_info_s" [
  ("model", ptr_to "char"); ("speed", c_int); ("cpu_times", uv_cpu_times_s)].
Definition uv_interface_address_s : ctype := Tstruct "uv_interface_address_s" [
  ("name", ptr_to "char");
  ("phys_addr", Tarr c_char 6);
  ("is_internal", c_int);
  ("address", Tunion "" [("address4", Tsys "struct sockaddr_in"); ("address6", Tsys "struct sockaddr_in6")]);
  ("netmask", Tunion "" [("netmask4", Tsys "struct sockaddr_in"); ("netmask6", Tsys "struct sockaddr_in6")])].
Definition uv_passwd_s : ctype := Tstruct "uv_passwd_s" [
  ("username", ptr_to "char"); ("uid", c_long); ("gid", c_long); ("shell", ptr_to "char");
  ("homedir", ptr_to "char")].
Definition uv_utsname_s : ctype := Tstruct "uv_utsname_s" [
  ("sysname", Tarr c_char 256); ("release", Tarr c_char 256); ("version", Tarr c_char 256);
  ("machine", Tarr c_char 256)].
Definition uv_statfs_s : ctype := Tstruct "uv_statfs_s" [
  ("f_type", uint64_t); ("f_bsize", uint64_t); ("f_blocks", uint64_t); ("f_bfree", uint64_t);
  ("f_bavail", uint64_t); ("f_files", uint64_t); ("f_ffree", uint64_t); ("f_spare", Tarr uint64_t 4)].
Definition uv_dirent_s : ctype := Tstruct "uv_dirent_s" [
  ("name", ptr_to "const char"); ("type", Tenum "uv_dirent_type_t")].
Definition uv_timeval_t : ctype := Tstruct "uv_timeval_t" [("tv_sec", c_long); ("tv_usec", c_long)].
Definition uv_timeval64_t : ctype := Tstruct "uv_timeval64_t" [("tv_sec", int64_t); ("tv_usec", int32_t)].
Definition uv_rusage_t : ctype := Tstruct "uv_rusage_t" [
  ("ru_utime", uv_timeval_t); ("ru_stime", uv_timeval_t);
  ("ru_maxrss", uint64_t); ("ru_ixrss", uint64_t); ("ru_idrss", uint64_t); ("ru_isrss", uint64_t);
  ("ru_minflt", uint64_t); ("ru_majflt", uint64_t); ("ru_nswap", uint64_t); ("ru_inblock", uint64_t);
  ("ru_oublock", uint64_t); ("ru_msgsnd", uint64_t); ("ru_msgrcv", uint64_t); ("ru_nsignals", uint64_t);
  ("ru_nvcsw", uint64_t); ("ru_nivcsw", uint64_t)].
Definition uv_env_item_s : ctype := Tstruct "uv_env_item_s" [("name", ptr_to "char"); ("value", ptr_to "char")].
Definition uv_dir_s : ctype := Tstruct "uv_dir_s" ([
  ("dirents", ptr_to "uv_dirent_t"); ("nentries", size_t);
  ("reserved", Tarr (ptr_to "void") 4)] ++ UV_DIR_PRIVATE_FIELDS).
Definition uv_thread_options_s : ctype := Tstruct "uv_thread_options_s" [
  ("flags", c_uint); ("stack_size", size_t)].

(** ** The maps of the concrete types *)
Definition UV_HANDLE_TYPE_MAP : list (string * string) := [
  ("ASYNC", "async");
  ("CHECK", "check");
  ("FS_EVENT", "fs_event");
  ("FS_POLL", "fs_poll");
  ("HANDLE", "handle");
  ("IDLE", "idle");
  ("NAMED_PIPE", "pipe");
  ("POLL", "poll");
  ("PREPARE", "prepare");
  ("PROCESS", "process");
  ("STREAM", "stream");
  ("TCP", "tcp");
  ("TIMER", "timer");
  ("TTY", "tty");
  ("UDP", "udp");
  ("SIGNAL", "signal")].
Definition UV_REQ_TYPE_MAP : list (string * string) := [
  ("REQ", "req");
  ("CONNECT", "connect");
  ("WRITE", "write");
  ("SHUTDOWN", "shutdown");
  ("UDP_SEND", "udp_send");
  ("FS", "fs");
  ("WORK", "work");
  ("GETADDRINFO", "getaddrinfo");
  ("GETNAMEINFO", "getnameinfo");
  ("RANDOM", "random")].

(** The typedefs [typedef struct uv_X_s uv_X_t]. *)
Definition uv_handle_typedefs : members := [
  ("uv_loop_t", uv_loop_s);
  ("uv_handle_t", uv_handle_s);
  ("uv_dir_t", uv_dir_s);
  ("uv_stream_t", uv_stream_s);
  ("uv_tcp_t", uv_tcp_s);
  ("uv_udp_t", uv_udp_s);
  ("uv_pipe_t", uv_pipe_s);
  ("uv_tty_t", uv_tty_s);
  ("uv_poll_t", uv_poll_s);
  ("uv_timer_t", uv_timer_s);
  ("uv_prepare_t", uv_prepare_s);
  ("uv_check_t", uv_check_s);
  ("uv_idle_t", uv_idle_s);
  ("uv_async_t", uv_async_s);
  ("uv_process_t", uv_process_s);
  ("uv_fs_event_t", uv_fs_event_s);
  ("uv_fs_poll_t", uv_fs_poll_s);
  ("uv_signal_t", uv_signal_s)].
Definition uv_req_typedefs : members := [
  ("uv_req_t", uv_req_s);
  ("uv_getaddrinfo_t", uv_getaddrinfo_s);
  ("uv_getnameinfo_t", uv_getnameinfo_s);
  ("uv_shutdown_t", uv_shutdown_s);
  ("uv_write_t", uv_write_s);
  ("uv_connect_t", uv_connect_s);
  ("uv_udp_send_t", uv_udp_send_s);
  ("uv_fs_t", uv_fs_s);
  ("uv_work_t", uv_work_s);
  ("uv_random_t", uv_random_s)].
Definition uv_other_typedefs : members := [
  ("uv_env_item_t", uv_env_item_s);
  ("uv_cpu_info_t", uv_cpu_info_s);
  ("uv_interface_address_t", uv_interface_address_s);
  ("uv_dirent_t", uv_dirent_s);
  ("uv_passwd_t", uv_passwd_s);
  ("uv_utsname_t", uv_utsname_s);
  ("uv_statfs_t", uv_statfs_s)].

Definition typedef (ts : members) (n : string) : option ctype := assoc n ts.

(** [#define XX(_, name) uv_ ## name ## _t name;] over a type map. *)
Definition map_members (ts : members) (m : list (string * string)) : members :=
  omap (λ e, t ← typedef ts ("uv_" +:+ e.2 +:+ "_t"); Some (e.2, t)) m.
Definition uv_any_handle : ctype :=
  Tunion "uv_any_handle" (map_members uv_handle_typedefs UV_HANDLE_TYPE_MAP).
Definition uv_any_req : ctype :=
  Tunion "uv_any_req" (map_members uv_req_typedefs UV_REQ_TYPE_MAP).

(** Every structure of the headers. *)
Definition uv_structs : list ctype :=
  [uv__work; uv__io_s; uv_buf_t; _uv_barrier; uv_lib_t; uv_timespec_t; uv_stat_t; uv_stdio_container_s;
   uv_process_options_s; uv_cpu_times_s; uv_timeval_t; uv_timeval64_t; uv_rusage_t; uv_thread_options_s] ++
  (snd <$> uv_handle_typedefs) ++ (snd <$> uv_req_typedefs) ++ (snd <$> uv_other_typedefs).
