(* ===== verification/UvErrno.v ===== *)
(** * The error codes of libuv: uv/errno.h and [uv_errno_t]

    errno.h gives every error a negative code: the negated [errno] value
    where the system defines one, a fallback in the -4000s otherwise, and
    fixed codes for the resolver errors and the two pseudo errors.  uv.h
    makes an enumeration of them with [UV_ERRNO_MAP].  The [errno] values of
    the system are a parameter; what POSIX says of them is the record
    [posix_errno].  The lemmas show that the codes then are negative, above
    [UV_ERRNO_MAX] and pairwise distinct, which is what a [switch] over them
    and the test [err < 0] rely on. *)
From S2P Require Import Prelude.
#[local] Open Scope Z_scope.

(** What the preprocessor knows of the system. *)
Record platform := mk_platform {
  sys_errno : string → option Z;   (** the [errno] macros *)
  EDOM : Z;
  win32 : bool;                    (** [_WIN32] *)
  bsd_like : bool;                 (** [__APPLE__], [__DragonFly__], [__FreeBSD__], ... *)
}.

Definition UV__ERR (p : platform) (x : Z) : Z := if EDOM p >? 0 then - x else x.

Definition UV__EOF : Z := -4095.
Definition UV__UNKNOWN : Z := -4094.

(** The codes that are the same on every system. *)
Definition fixed_codes : list (string * Z) := [
  ("EOF", UV__EOF); ("UNKNOWN", UV__UNKNOWN);
  ("EAI_ADDRFAMILY", -3000); ("EAI_AGAIN", -3001); ("EAI_BADFLAGS", -3002); ("EAI_CANCELED", -3003);
  ("EAI_FAIL", -3004); ("EAI_FAMILY", -3005); ("EAI_MEMORY", -3006); ("EAI_NODATA", -3007);
  ("EAI_NONAME", -3008); ("EAI_OVERFLOW", -3009); ("EAI_SERVICE", -3010); ("EAI_SOCKTYPE", -3011);
  ("EAI_BADHINTS", -3013); ("EAI_PROTOCOL", -3014)].

(** The fallbacks: each entry [(X, v)] is the block
    [#if defined(X) && !defined(_WIN32)] [# define UV__X UV__ERR(X)] [#else]
    [# define UV__X v] [#endif]. *)
Definition errno_codes1 : list (string * Z) := [
  ("E2BIG", -4093); ("EACCES", -4092); ("EADDRINUSE", -4091); ("EADDRNOTAVAIL", -4090);
  ("EAFNOSUPPORT", -4089); ("EAGAIN", -4088); ("EALREADY", -4084); ("EBADF", -4083);
  ("EBUSY", -4082); ("ECANCELED", -4081); ("ECHARSET", -4080); ("ECONNABORTED", -4079);
  ("ECONNREFUSED", -4078); ("ECONNRESET", -4077); ("EDESTADDRREQ", -4076); ("EEXIST", -4075);
  ("EFAULT", -4074); ("EHOSTUNREACH", -4073); ("EINTR", -4072); ("EINVAL", -4071);
  ("EIO", -4070); ("EISCONN", -4069); ("EISDIR", -4068)].
Definition errno_codes2 : list (string * Z) := [
  ("ELOOP", -4067); ("EMFILE", -4066); ("EMSGSIZE", -4065); ("ENAMETOOLONG", -4064);
  ("ENETDOWN", -4063); ("ENETUNREACH", -4062); ("ENFILE", -4061); ("ENOBUFS", -4060);
  ("ENODEV", -4059); ("ENOENT", -4058); ("ENOMEM", -4057); ("ENONET", -4056);
  ("ENOSPC", -4055); ("ENOSYS", -4054); ("ENOTCONN", -4053); ("ENOTDIR", -4052);
  ("ENOTEMPTY", -4051); ("ENOTSOCK", -4050); ("ENOTSUP", -4049); ("EPERM", -4048);
  ("EPIPE", -4047); ("EPROTO", -4046); ("EPROTONOSUPPORT", -4045)].
Definition errno_codes3 : list (string * Z) := [
  ("EPROTOTYPE", -4044); ("EROFS", -4043); ("ESHUTDOWN", -4042); ("ESPIPE", -4041);
  ("ESRCH", -4040); ("ETIMEDOUT", -4039); ("ETXTBSY", -4038); ("EXDEV", -4037);
  ("EFBIG", -4036); ("ENOPROTOOPT", -4035); ("ERANGE", -4034); ("ENXIO", -4033);
  ("EMLINK", -4032); ("EHOSTDOWN", -4031); ("EREMOTEIO", -4030); ("ENOTTY", -4029);
  ("EFTYPE", -4028); ("EILSEQ", -4027); ("EOVERFLOW", -4026); ("ESOCKTNOSUPPORT", -4025)].
Definition errno_codes : list (string * Z) := errno_codes1 ++ errno_codes2 ++ errno_codes3.

(** The system's code for [n], if the header uses it. *)
Definition sys_code (p : platform) (n : string) : option Z :=
  if win32 p then None else v ← sys_errno p n; Some (UV__ERR p v).

(** The [#else] branch; EHOSTDOWN has one more case. *)
Definition fallback_code (p : platform) (n : string) (fb : Z) : Z :=
  if decide (n = "EHOSTDOWN") then if bsd_like p then -64 else fb else fb.

(** [UV__X] *)
Definition UV__code (p : platform) (n : string) : option Z :=
  match assoc n fixed_codes with
  | Some v => Some v
  | None =>
    fb ← assoc n errno_codes;
    Some (match sys_code p n with Some v => v | None => fallback_code p n fb end)
  end.

(** ** uv.h: the map of names to messages, and the enumeration *)
Definition UV_ERRNO_MAP : list (string * string) := [
  ("E2BIG", "argument list too long");
  ("EACCES", "permission denied");
  ("EADDRINUSE", "address already in use");
  ("EADDRNOTAVAIL", "address not available");
  ("EAFNOSUPPORT", "address family not supported");
  ("EAGAIN", "resource temporarily unavailable");
  ("EAI_ADDRFAMILY", "address family not supported");
  ("EAI_AGAIN", "temporary failure");
  ("EAI_BADFLAGS", "bad ai_flags value");
  ("EAI_BADHINTS", "invalid value for hints");
  ("EAI_CANCELED", "request canceled");
  ("EAI_FAIL", "permanent failure");
  ("EAI_FAMILY", "ai_family not supported");
  ("EAI_MEMORY", "out of memory");
  ("EAI_NODATA", "no address");
  ("EAI_NONAME", "unknown node or service");
  ("EAI_OVERFLOW", "argument buffer overflow");
  ("EAI_PROTOCOL", "resolved protocol is unknown");
  ("EAI_SERVICE", "service not available for socket type");
  ("EAI_SOCKTYPE", "socket type not supported");
  ("EALREADY", "connection already in progress");
  ("EBADF", "bad file descriptor");
  ("EBUSY", "resource busy or locked");
  ("ECANCELED", "operation canceled");
  ("ECHARSET", "invalid Unicode character");
  ("ECONNABORTED", "software caused connection abort");
  ("ECONNREFUSED", "connection refused");
  ("ECONNRESET", "connection reset by peer");
  ("EDESTADDRREQ", "destination address required");
  ("EEXIST", "file already exists");
  ("EFAULT", "bad address in system call argument");
  ("EFBIG", "file too large");
  ("EHOSTUNREACH", "host is unreachable");
  ("EINTR", "interrupted system call");
  ("EINVAL", "invalid argument");
  ("EIO", "i/o error");
  ("EISCONN", "socket is already connected");
  ("EISDIR", "illegal operation on a directory");
  ("ELOOP", "too many symbolic links encountered");
  ("EMFILE", "too many open files");
  ("EMSGSIZE", "message too long");
  ("ENAMETOOLONG", "name too long");
  ("ENETDOWN", "network is down");
  ("ENETUNREACH", "network is unreachable");
  ("ENFILE", "file table overflow");
  ("ENOBUFS", "no buffer space available");
  ("ENODEV", "no such device");
  ("ENOENT", "no such file or directory");
  ("ENOMEM", "not enough memory");
  ("ENONET", "machine is not on the network");
  ("ENOPROTOOPT", "protocol not available");
  ("ENOSPC", "no space left on device");
  ("ENOSYS", "function not implemented");
  ("ENOTCONN", "socket is not connected");
  ("ENOTDIR", "not a directory");
  ("ENOTEMPTY", "directory not empty");
  ("ENOTSOCK", "socket operation on non-socket");
  ("ENOTSUP", "operation not supported on socket");
  ("EOVERFLOW", "value too large for defined data type");
  ("EPERM", "operation not permitted");
  ("EPIPE", "broken pipe");
  ("EPROTO", "protocol error");
  ("EPROTONOSUPPORT", "protocol not supported");
  ("EPROTOTYPE", "protocol wrong type for socket");
  ("ERANGE", "result too large");
  ("EROFS", "read-only file system");
  ("ESHUTDOWN", "cannot send after transport endpoint shutdown");
  ("ESPIPE", "invalid seek");
  ("ESRCH", "no such process");
  ("ETIMEDOUT", "connection timed out");
  ("ETXTBSY", "text file is busy");
  ("EXDEV", "cross-device link not permitted");
  ("UNKNOWN", "unknown error");
  ("EOF", "end of file");
  ("ENXIO", "no such device or address");
  ("EMLINK", "too many links");
  ("EHOSTDOWN", "host is down");
  ("EREMOTEIO", "remote I/O error");
  ("ENOTTY", "inappropriate ioctl for device");
  ("EFTYPE", "inappropriate file type or format");
  ("EILSEQ", "illegal byte sequence");
  ("ESOCKTNOSUPPORT", "socket type not supported")].

Definition UV_ERRNO_MAX : Z := UV__EOF - 1.
Definition uv_errno_t (p : platform) : list (string * Z) :=
  omap (λ e, v ← UV__code p e.1; Some ("UV_" +:+ e.1, v)) UV_ERRNO_MAP ++ [("UV_ERRNO_MAX", UV_ERRNO_MAX)].

(** ** What POSIX says of [errno] *)

(** The values are non-zero, of the sign of [EDOM], small, and distinct for
    distinct errors of the table; and EHOSTDOWN is 64 where errno.h says it
    always is, so no other error is. *)
Record posix_errno (p : platform) : Prop := {
  errno_range n v : n ∈ errno_codes.*1 → sys_errno p n = Some v → -3000 < UV__ERR p v < 0;
  errno_inj n m v : n ∈ errno_codes.*1 → m ∈ errno_codes.*1 →
    sys_errno p n = Some v → sys_errno p m = Some v → n = m;
  errno_hostdown n v : bsd_like p = true → sys_errno p "EHOSTDOWN" = None → n ∈ errno_codes.*1 →
    sys_errno p n = Some v → UV__ERR p v ≠ -64;
}.

Section codes.
Context (p : platform) (Hp : posix_errno p).

Lemma errno_codes_distinct : NoDup errno_codes.*2.
Proof. bdone. Qed.
Lemma fixed_codes_distinct : NoDup fixed_codes.*2.
Proof. bdone. Qed.
Lemma errno_codes_range : Forall (λ e, -4094 < e.2 < -4000) errno_codes.
Proof. bdone. Qed.
Lemma fixed_codes_range : Forall (λ e, -4095 ≤ e.2 ≤ -3000 ∧ ¬ (-4094 < e.2 < -4000)) fixed_codes.
Proof. bdone. Qed.

Lemma UV__ERR_inj x y : UV__ERR p x = UV__ERR p y → x = y.
Proof. unfold UV__ERR. destruct (EDOM p >? 0); lia. Qed.

(** The three kinds of codes live in disjoint ranges. *)
Inductive code_kind (n : string) (v : Z) : Prop :=
  | kind_fixed : assoc n fixed_codes = Some v → code_kind n v
  | kind_sys x : n ∈ errno_codes.*1 → win32 p = false → sys_errno p n = Some x → v = UV__ERR p x → code_kind n v
  | kind_bsd : n = "EHOSTDOWN" → v = -64 → bsd_like p = true → sys_code p n = None → code_kind n v
  | kind_fallback : assoc n errno_codes = Some v → code_kind n v.

Lemma UV__code_kind n v : UV__code p n = Some v → code_kind n v.
Proof.
  unfold UV__code. destruct (assoc n fixed_codes) as [w|] eqn:Hf; [intros [= <-]; by apply kind_fixed|].
  destruct (assoc n errno_codes) as [fb|] eqn:He; [|done]. simpl. intros [= <-].
  assert (n ∈ errno_codes.*1) as Hn by (apply assoc_is_Some; by eexists).
  destruct (sys_code p n) as [w|] eqn:Hs.
  - unfold sys_code in Hs. destruct (win32 p) eqn:Hw; [done|].
    destruct (sys_errno p n) as [x|] eqn:Hx; [|done]. injection Hs as <-. by eapply kind_sys.
  - unfold fallback_code. destruct (decide (n = "EHOSTDOWN")) as [->|_]; [|by apply kind_fallback].
    destruct (bsd_like p) eqn:Hb; [by apply kind_bsd|by apply kind_fallback].
Qed.

Lemma kind_range n v : code_kind n v →
  (-4095 ≤ v ≤ -3000 ∧ ¬ (-4094 < v < -4000)) ∨ (-3000 < v < 0) ∨ (-4094 < v < -4000).
Proof.
  intros [Hf|x Hn _ Hx ->| -> -> _ _|Hf].
  - left. apply assoc_elem in Hf. pose proof fixed_codes_range as Hr. rewrite Forall_forall in Hr.
    apply (Hr _ Hf).
  - right. left. by eapply errno_range.
  - right. left. lia.
  - right. right. apply assoc_elem in Hf. pose proof errno_codes_range as Hr. rewrite Forall_forall in Hr.
    apply (Hr _ Hf).
Qed.

Lemma UV__code_range n v : UV__code p n = Some v → UV_ERRNO_MAX < v < 0.
Proof. intros Hv%UV__code_kind%kind_range. unfold UV_ERRNO_MAX, UV__EOF. lia. Qed.

Lemma fixed_range n v : assoc n fixed_codes = Some v → -4095 ≤ v ≤ -3000 ∧ ¬ (-4094 < v < -4000).
Proof. intros Hf%assoc_elem. pose proof fixed_codes_range as Hr. rewrite Forall_forall in Hr. apply (Hr _ Hf). Qed.
Lemma fallback_range n v : assoc n errno_codes = Some v → -4094 < v < -4000.
Proof. intros Hf%assoc_elem. pose proof errno_codes_range as Hr. rewrite Forall_forall in Hr. apply (Hr _ Hf). Qed.

(** EHOSTDOWN is the only error with the code -64 of the BSDs. *)
Lemma hostdown_only m x : bsd_like p = true → sys_code p "EHOSTDOWN" = None → win32 p = false →
  m ∈ errno_codes.*1 → sys_errno p m = Some x → UV__ERR p x ≠ -64.
Proof.
  intros Hb Hs Hw Hm Hx. eapply errno_hostdown; try done.
  unfold sys_code in Hs. rewrite Hw in Hs. by destruct (sys_errno p "EHOSTDOWN").
Qed.

Lemma UV__code_inj n m v : UV__code p n = Some v → UV__code p m = Some v → n = m.
Proof.
  intros Hn%UV__code_kind Hm%UV__code_kind.
  destruct Hn as [Hf|x Hn Hw Hx ->| -> -> Hb Hs|Hf]; destruct Hm as [Hf'|y Hm Hw' Hy Heq| -> Heq Hb' Hs'|Hf'];
    try (pose proof (fixed_range _ _ Hf)); try (pose proof (fixed_range _ _ Hf'));
    try (pose proof (fallback_range _ _ Hf)); try (pose proof (fallback_range _ _ Hf'));
    try (pose proof (errno_range p Hp _ _ Hn Hx)); try (pose proof (errno_range p Hp _ _ Hm Hy)); try lia.
  - eapply assoc_inj; [apply fixed_codes_distinct|done..].
  - apply UV__ERR_inj in Heq. subst y. by eapply errno_inj.
  - by destruct (hostdown_only n x Hb' Hs' Hw Hn Hx).
  - by destruct (hostdown_only m y Hb Hs Hw' Hm Hy).
  - done.
  - eapply assoc_inj; [apply errno_codes_distinct|done..].
Qed.
End codes.

(** Every name of the map has a code on every platform. *)
Lemma UV_ERRNO_MAP_total p e : e ∈ UV_ERRNO_MAP → is_Some (UV__code p e.1).
Proof.
  intros He. assert (Forall (λ e, is_Some (assoc e.1 fixed_codes) ∨ is_Some (assoc e.1 errno_codes)) UV_ERRNO_MAP) as Hall.
  { assert (Forall (λ e, bool_decide (is_Some (assoc e.1 fixed_codes)) || bool_decide (is_Some (assoc e.1 errno_codes)) = true)
      UV_ERRNO_MAP) as H by bdone.
    eapply Forall_impl; [exact H|]. intros x [Hx|Hx]%orb_true_iff; apply bool_decide_eq_true in Hx; auto. }
  rewrite Forall_forall in Hall. unfold UV__code. destruct (Hall e He) as [[v ->]|[v Hv]]; [by eexists|].
  destruct (assoc e.1 fixed_codes); [by eexists|]. rewrite Hv. by eexists.
Qed.

Lemma UV_ERRNO_MAP_names : NoDup UV_ERRNO_MAP.*1.
Proof. bdone. Qed.

Lemma omap_length {A B} (f : A → option B) l : (∀ x, x ∈ l → is_Some (f x)) → length (omap f l) = length l.
Proof.
  induction l as [|x l IH]; intros Hf; [done|]. simpl.
  destruct (Hf x) as [y ->]; [by left|]. simpl. f_equal. apply IH. intros z Hz. apply Hf. by right.
Qed.
Lemma uv_errno_t_length p : length (uv_errno_t p) = 83%nat.
Proof.
  unfold uv_errno_t. rewrite length_app, omap_length; [reflexivity|].
  intros e He. destruct (UV_ERRNO_MAP_total p e He) as [v ->]. by eexists.
Qed.
