(* ===== verification/UvEnums.v ===== *)
(** * The enumerations and constants of uv.h

    C numbers the enumerators of an enumeration: one without an explicit
    value is one more than the enumerator before it, the first is 0.  The
    handle and request types are generated from the same maps as the unions
    [uv_any_handle] and [uv_any_req]. *)
From S2P Require Import Prelude CLayout UvTypes.
#[local] Open Scope Z_scope.

(** An enumerator and its explicit value, if it has one. *)
Abbreviation enumerators := (list (string * option Z)).

Fixpoint enum_from (next : Z) (es : enumerators) : list (string * Z) :=
  match es with
  | [] => []
  | (n, v) :: es => let v := default next v in (n, v) :: enum_from (v + 1) es
  end.
Definition enum (es : enumerators) : list (string * Z) := enum_from 0 es.


Definition uv_handle_type : list (string * Z) := enum (
  [("UV_UNKNOWN_HANDLE", Some 0)] ++
  ((λ e, ("UV_" +:+ e.1, None)) <$> UV_HANDLE_TYPE_MAP) ++
  [("UV_FILE", None); ("UV_HANDLE_TYPE_MAX", None)]).
Definition uv_req_type : list (string * Z) := enum (
  [("UV_UNKNOWN_REQ", Some 0)] ++
  ((λ e, ("UV_" +:+ e.1, None)) <$> UV_REQ_TYPE_MAP) ++
  (* UV_REQ_TYPE_PRIVATE is empty *)
  [("UV_REQ_TYPE_MAX", None)]).
Definition uv_loop_option : list (string * Z) := enum [
  ("UV_LOOP_BLOCK_SIGNAL", Some 0); ("UV_METRICS_IDLE_TIME", None)].
Definition uv_run_mode : list (string * Z) := enum [
  ("UV_RUN_DEFAULT", Some 0); ("UV_RUN_ONCE", None); ("UV_RUN_NOWAIT", None)].
Definition uv_membership : list (string * Z) := enum [
  ("UV_LEAVE_GROUP", Some 0); ("UV_JOIN_GROUP", None)].
Definition uv_tcp_flags : list (string * Z) := enum [("UV_TCP_IPV6ONLY", Some 1)].
Definition uv_udp_flags : list (string * Z) := enum [
  ("UV_UDP_IPV6ONLY", Some 1); ("UV_UDP_PARTIAL", Some 2); ("UV_UDP_REUSEADDR", Some 4);
  ("UV_UDP_MMSG_CHUNK", Some 8); ("UV_UDP_MMSG_FREE", Some 16); ("UV_UDP_LINUX_RECVERR", Some 32);
  ("UV_UDP_RECVMMSG", Some 256)].
Definition uv_tty_mode_t : list (string * Z) := enum [
  ("UV_TTY_MODE_NORMAL", None); ("UV_TTY_MODE_RAW", None); ("UV_TTY_MODE_IO", None)].
Definition uv_tty_vtermstate_t : list (string * Z) := enum [
  ("UV_TTY_SUPPORTED", None); ("UV_TTY_UNSUPPORTED", None)].
Definition uv_poll_event : list (string * Z) := enum [
  ("UV_READABLE", Some 1); ("UV_WRITABLE", Some 2); ("UV_DISCONNECT", Some 4); ("UV_PRIORITIZED", Some 8)].
Definition uv_stdio_flags : list (string * Z) := enum [
  ("UV_IGNORE", Some 0x00); ("UV_CREATE_PIPE", Some 0x01); ("UV_INHERIT_FD", Some 0x02);
  ("UV_INHERIT_STREAM", Some 0x04); ("UV_READABLE_PIPE", Some 0x10); ("UV_WRITABLE_PIPE", Some 0x20);
  ("UV_NONBLOCK_PIPE", Some 0x40); ("UV_OVERLAPPED_PIPE", Some 0x40)].
Definition uv_process_flags : list (string * Z) := enum [
  ("UV_PROCESS_SETUID", Some (Z.shiftl 1 0)); ("UV_PROCESS_SETGID", Some (Z.shiftl 1 1));
  ("UV_PROCESS_WINDOWS_VERBATIM_ARGUMENTS", Some (Z.shiftl 1 2)); ("UV_PROCESS_DETACHED", Some (Z.shiftl 1 3));
  ("UV_PROCESS_WINDOWS_HIDE", Some (Z.shiftl 1 4)); ("UV_PROCESS_WINDOWS_HIDE_CONSOLE", Some (Z.shiftl 1 5));
  ("UV_PROCESS_WINDOWS_HIDE_GUI", Some (Z.shiftl 1 6))].
Definition uv_dirent_type_t : list (string * Z) := enum [
  ("UV_DIRENT_UNKNOWN", None); ("UV_DIRENT_FILE", None); ("UV_DIRENT_DIR", None); ("UV_DIRENT_LINK", None);
  ("UV_DIRENT_FIFO", None); ("UV_DIRENT_SOCKET", None); ("UV_DIRENT_CHAR", None); ("UV_DIRENT_BLOCK", None)].
Definition uv_fs_type : list (string * Z) := enum (("UV_FS_UNKNOWN", Some (-1)) :: ((λ n, (n, None)) <$> [
  "UV_FS_CUSTOM"; "UV_FS_OPEN"; "UV_FS_CLOSE"; "UV_FS_READ"; "UV_FS_WRITE"; "UV_FS_SENDFILE";
  "UV_FS_STAT"; "UV_FS_LSTAT"; "UV_FS_FSTAT"; "UV_FS_FTRUNCATE"; "UV_FS_UTIME"; "UV_FS_FUTIME";
  "UV_FS_ACCESS"; "UV_FS_CHMOD"; "UV_FS_FCHMOD"; "UV_FS_FSYNC"; "UV_FS_FDATASYNC"; "UV_FS_UNLINK";
  "UV_FS_RMDIR"; "UV_FS_MKDIR"; "UV_FS_MKDTEMP"; "UV_FS_RENAME"; "UV_FS_SCANDIR"; "UV_FS_LINK";
  "UV_FS_SYMLINK"; "UV_FS_READLINK"; "UV_FS_CHOWN"; "UV_FS_FCHOWN"; "UV_FS_REALPATH"; "UV_FS_COPYFILE";
  "UV_FS_LCHOWN"; "UV_FS_OPENDIR"; "UV_FS_READDIR"; "UV_FS_CLOSEDIR"; "UV_FS_STATFS"; "UV_FS_MKSTEMP";
  "UV_FS_LUTIME"])).
Definition uv_fs_event : list (string * Z) := enum [("UV_RENAME", Some 1); ("UV_CHANGE", Some 2)].
Definition uv_fs_event_flags : list (string * Z) := enum [
  ("UV_FS_EVENT_WATCH_ENTRY", Some 1); ("UV_FS_EVENT_STAT", Some 2); ("UV_FS_EVENT_RECURSIVE", Some 4)].
Definition uv_thread_create_flags : list (string * Z) := enum [
  ("UV_THREAD_NO_FLAGS", Some 0x00); ("UV_THREAD_HAS_STACK_SIZE", Some 0x01)].

(** The flags of uv_fs_copyfile and uv_fs_symlink. *)
Definition uv_fs_copyfile_flags : list (string * Z) := [
  ("UV_FS_COPYFILE_EXCL", 0x0001); ("UV_FS_COPYFILE_FICLONE", 0x0002); ("UV_FS_COPYFILE_FICLONE_FORCE", 0x0004)].
Definition uv_fs_symlink_flags : list (string * Z) := [
  ("UV_FS_SYMLINK_DIR", 0x0001); ("UV_FS_SYMLINK_JUNCTION", 0x0002)].

(** The process priorities, on IBM i PASE and elsewhere. *)
Definition uv_priorities (pase : bool) : list (string * Z) :=
  if pase then [
    ("UV_PRIORITY_LOW", 39); ("UV_PRIORITY_BELOW_NORMAL", 15); ("UV_PRIORITY_NORMAL", 0);
    ("UV_PRIORITY_ABOVE_NORMAL", -4); ("UV_PRIORITY_HIGH", -7); ("UV_PRIORITY_HIGHEST", -10)]
  else [
    ("UV_PRIORITY_LOW", 19); ("UV_PRIORITY_BELOW_NORMAL", 10); ("UV_PRIORITY_NORMAL", 0);
    ("UV_PRIORITY_ABOVE_NORMAL", -7); ("UV_PRIORITY_HIGH", -14); ("UV_PRIORITY_HIGHEST", -20)].

(** The bound on interface names: IF_NAMESIZE, IFNAMSIZ or 16, and one byte
    for the terminator. *)
Definition UV_IF_NAMESIZE (if_namesize ifnamsiz : option Z) : Z :=
  match if_namesize with
  | Some n => n + 1
  | None => match ifnamsiz with Some n => n + 1 | None => 16 + 1 end
  end.
Definition UV_MAXHOSTNAMESIZE (maxhostnamelen : option Z) : Z :=
  match maxhostnamelen with Some n => n + 1 | None => 256 end.

(** ** Facts about enumerations *)

(** The enumerator at position [i] of a run without explicit values. *)
Lemma enum_from_auto next ns i n :
  ns !! i = Some n → enum_from next ((λ n, (n, None)) <$> ns) !! i = Some (n, next + Z.of_nat i).
Proof.
  revert next i. induction ns as [|m ns IH]; intros next i; [done|]. destruct i as [|i]; simpl.
  - intros [= ->]. do 2 f_equal. lia.
  - intros Hi. etransitivity; [exact (IH (next + 1) i Hi)|]. do 2 f_equal. lia.
Qed.
Lemma enum_from_app next es es' :
  enum_from next (es ++ es') =
  enum_from next es ++ enum_from (default next ((λ e, e.2 + 1) <$> last (enum_from next es))) es'.
Proof.
  revert next. induction es as [|[n v] es IH]; intros next; [done|]. simpl. rewrite IH.
  f_equal. destruct es as [|[m w] es]; [done|]. simpl.
  by destruct (last (enum_from (default (default next v + 1) w + 1) es)) eqn:Hl; rewrite ?last_cons, ?Hl.
Qed.

(** Two flags share no bit. *)
Definition disjoint_flags (fs : list (string * Z)) : Prop :=
  ∀ i j f g, i ≠ j → fs !! i = Some f → fs !! j = Some g → Z.land f.2 g.2 = 0.
Fixpoint disjoint_flags_b (acc : Z) (fs : list (string * Z)) : bool :=
  match fs with
  | [] => true
  | f :: fs => (Z.land acc f.2 =? 0) && disjoint_flags_b (Z.lor acc f.2) fs
  end.

Lemma disjoint_flags_acc acc fs : disjoint_flags_b acc fs = true →
  disjoint_flags fs ∧ ∀ f, f ∈ fs → Z.land acc f.2 = 0.
Proof.
  revert acc. induction fs as [|h fs IH]; intros acc; simpl.
  - intros _. split; [by intros ? ? ? ? ? [=]|by intros ? []%not_elem_of_nil].
  - intros [Hh%Z.eqb_eq Hfs]%andb_true_iff. destruct (IH _ Hfs) as [Hd Hacc].
    assert (∀ f, f ∈ fs → Z.land acc f.2 = 0 ∧ Z.land h.2 f.2 = 0) as Hor.
    { intros f Hf. specialize (Hacc f Hf). rewrite Z.land_lor_distr_l in Hacc.
      by apply Z.lor_eq_0_iff in Hacc. }
    split.
    + intros [|i] [|j] f g Hij Hf Hg; simpl in *; try done.
      * injection Hf as <-. apply Hor. by eapply list_elem_of_lookup_2.
      * injection Hg as <-. rewrite Z.land_comm. apply Hor. by eapply list_elem_of_lookup_2.
      * eapply Hd; [|done..]. congruence.
    + intros f [->|Hf]%elem_of_cons; [done|]. by apply Hor.
Qed.
Lemma disjoint_flags_dec fs : disjoint_flags_b 0 fs = true → disjoint_flags fs.
Proof. intros H. by apply (disjoint_flags_acc 0). Qed.
