(* ===== verification/UvTheorems.v ===== *)
(** * libuv's types, error codes and flags: the theorems

    What the C code of the runtime and the generated code rely on when they
    handle libuv objects through base pointers, compare error codes and test
    flag words, for every platform; the instances are the 64-bit Linux the
    compiler targets. *)
From stdpp Require Import sorting.
From S2P Require Import Prelude CLayout UvTypes UvErrno UvEnums.

(** ** 64-bit Linux with glibc *)

Definition linux_types : list (string * (N * N)) := [
  ("pid_t", (4, 2)); ("pthread_once_t", (4, 2)); ("pthread_t", (8, 3)); ("pthread_mutex_t", (40, 3));
  ("pthread_rwlock_t", (56, 3)); ("sem_t", (32, 3)); ("pthread_cond_t", (48, 3)); ("pthread_key_t", (4, 2));
  ("pthread_barrier_t", (32, 3)); ("gid_t", (4, 2)); ("uid_t", (4, 2)); ("mode_t", (4, 2)); ("off_t", (8, 3));
  ("struct sockaddr", (16, 1)); ("struct sockaddr_in", (16, 2)); ("struct sockaddr_in6", (28, 2));
  ("struct sockaddr_storage", (128, 3)); ("struct termios", (60, 2))]%N.
Definition linux_size (n : string) : N := default 0%N (fst <$> assoc n linux_types).
Definition linux_log_align (n : string) : N := default 0%N (snd <$> assoc n linux_types).
Lemma linux_size_align n : (2 ^ linux_log_align n | linux_size n)%N.
Proof.
  unfold linux_log_align, linux_size. destruct (assoc n linux_types) as [[s a]|] eqn:Ha; [|by exists 0%N].
  apply assoc_elem in Ha. cbn [fst snd fmap option_fmap option_map default].
  assert (Forall (λ e, (e.2.1 `mod` 2 ^ e.2.2 = 0)%N) linux_types) as Hall by bdone.
  rewrite Forall_forall in Hall. specialize (Hall _ Ha). by apply N.Lcm0.mod_divide.
Qed.
#[export] Instance linux_sys : SysTypes := {|
  sys_size := linux_size; sys_log_align := linux_log_align; sys_size_align := linux_size_align |}.

Definition linux_errno : list (string * Z) := [
  ("E2BIG", 7); ("EACCES", 13); ("EADDRINUSE", 98); ("EADDRNOTAVAIL", 99); ("EAFNOSUPPORT", 97);
  ("EAGAIN", 11); ("EALREADY", 114); ("EBADF", 9); ("EBUSY", 16); ("ECANCELED", 125);
  ("ECONNABORTED", 103); ("ECONNREFUSED", 111); ("ECONNRESET", 104); ("EDESTADDRREQ", 89); ("EEXIST", 17);
  ("EFAULT", 14); ("EFBIG", 27); ("EHOSTUNREACH", 113); ("EINTR", 4); ("EINVAL", 22); ("EIO", 5);
  ("EISCONN", 106); ("EISDIR", 21); ("ELOOP", 40); ("EMFILE", 24); ("EMSGSIZE", 90); ("ENAMETOOLONG", 36);
  ("ENETDOWN", 100); ("ENETUNREACH", 101); ("ENFILE", 23); ("ENOBUFS", 105); ("ENODEV", 19); ("ENOENT", 2);
  ("ENOMEM", 12); ("ENONET", 64); ("ENOSPC", 28); ("ENOSYS", 38); ("ENOTCONN", 107); ("ENOTDIR", 20);
  ("ENOTEMPTY", 39); ("ENOTSOCK", 88); ("ENOTSUP", 95); ("EPERM", 1); ("EPIPE", 32); ("EPROTO", 71);
  ("EPROTONOSUPPORT", 93); ("EPROTOTYPE", 91); ("EROFS", 30); ("ESHUTDOWN", 108); ("ESPIPE", 29);
  ("ESRCH", 3); ("ETIMEDOUT", 110); ("ETXTBSY", 26); ("EXDEV", 18); ("ENOPROTOOPT", 92); ("ERANGE", 34);
  ("ENXIO", 6); ("EMLINK", 31); ("EHOSTDOWN", 112); ("EREMOTEIO", 121); ("ENOTTY", 25); ("EILSEQ", 84);
  ("EOVERFLOW", 75); ("ESOCKTNOSUPPORT", 94)]%Z.
Definition linux : platform := mk_platform (λ n, assoc n linux_errno) 33 false false.

Lemma linux_posix : posix_errno linux.
Proof.
  split.
  - intros n v _ Hv. apply assoc_elem in Hv.
    assert (Forall (λ e, (-3000 < UV__ERR linux e.2 < 0)%Z) linux_errno) as Hall by bdone.
    rewrite Forall_forall in Hall. apply (Hall _ Hv).
  - intros n m v _ _. apply assoc_inj. bdone.
  - done.
Qed.

(** ** Subclasses *)

(** Every member of [base] is at the same offset, with the same type, in
    [t], and [t] has room for a [base]. *)
Definition subclass `{SysTypes} (base t : ctype) : Prop :=
  (∀ x r, offsetof base x = Some r → offsetof t x = Some r) ∧ (sizeof base ≤ sizeof t)%N.

Lemma subclass_prefix `{SysTypes} n n' fs gs : subclass (Tstruct n fs) (Tstruct n' (fs ++ gs)).
Proof. split; [apply offsetof_prefix|apply sizeof_prefix]. Qed.
Lemma subclass_refl `{SysTypes} t : subclass t t.
Proof. by split. Qed.
Lemma sizeof_union `{SysTypes} n (fs : members) f : f ∈ fs → (sizeof f.2 ≤ sizeof (Tunion n fs))%N.
Proof.
  intros Hin. simpl. transitivity (foldr (λ f m, N.max (sizeof f.2) m) 0%N fs).
  - induction Hin; simpl; lia.
  - apply align_up_spec, alignof_pos.
Qed.

Ltac each_member H :=
  repeat (apply elem_of_cons in H; destruct H as [H|H]; [injection H as -> ->|]); try by apply not_elem_of_nil in H.

Lemma uv_handle_subclass `{SysTypes} n t : (n, t) ∈ members_of uv_any_handle → subclass uv_handle_s t.
Proof. intros Hin. vm_compute in Hin. each_member Hin; apply (subclass_prefix _ _ UV_HANDLE_FIELDS). Qed.
Lemma uv_req_subclass `{SysTypes} n t : (n, t) ∈ members_of uv_any_req → subclass uv_req_s t.
Proof. intros Hin. vm_compute in Hin. each_member Hin; apply (subclass_prefix _ _ UV_REQ_FIELDS). Qed.

(** C28. Every handle type of [uv_any_handle] can be used through a
    [uv_handle_t *], and every request type of [uv_any_req] through a
    [uv_req_t *], on every platform: the base members have the same types and
    offsets, the object is at least as large as the base, and the union is
    large enough for it; [uv_tcp_t], [uv_tty_t] and [uv_pipe_t] can moreover be
    used through a [uv_stream_t *]. *)
Theorem uv_subclass_layout `{SysTypes} n t :
  ((n, t) ∈ members_of uv_any_handle → subclass uv_handle_s t ∧ (sizeof t ≤ sizeof uv_any_handle)%N) ∧
  ((n, t) ∈ members_of uv_any_req → subclass uv_req_s t ∧ (sizeof t ≤ sizeof uv_any_req)%N) ∧
  (t ∈ [uv_tcp_s; uv_tty_s; uv_pipe_s] → subclass uv_stream_s t).
Proof.
  split_and!.
  - intros Hin. split; [by eapply uv_handle_subclass|]. by apply (sizeof_union _ _ (n, t)).
  - intros Hin. split; [by eapply uv_req_subclass|]. by apply (sizeof_union _ _ (n, t)).
  - intros Hin.
    repeat (apply elem_of_cons in Hin; destruct Hin as [-> |Hin];
      [apply (subclass_prefix _ _ (UV_HANDLE_FIELDS ++ UV_STREAM_FIELDS))|]).
    by apply not_elem_of_nil in Hin.
Qed.

Lemma uv_subclass_layout_witness :
  offsetof uv_timer_s "close_cb" = Some (Tptr "uv_close_cb", 24%N) ∧
  subclass uv_handle_s uv_timer_s ∧ subclass uv_req_s uv_connect_s ∧ subclass uv_stream_s uv_tcp_s.
Proof.
  destruct (uv_subclass_layout "timer" uv_timer_s) as (H1 & _ & _).
  destruct (uv_subclass_layout "connect" uv_connect_s) as (_ & H2 & _).
  destruct (uv_subclass_layout "tcp" uv_tcp_s) as (_ & _ & H3).
  assert (subclass uv_handle_s uv_timer_s) as Ht by (apply H1; apply list_elem_of_In; vm_compute; tauto).
  split_and!; [apply Ht; vm_compute; reflexivity|exact Ht| |].
  - apply H2. apply list_elem_of_In. vm_compute. tauto.
  - apply H3. by left.
Defined.

(** Memory safety of member accesses: in every structure of the headers,
    on every platform, each member starts at a multiple of its alignment, the
    alignment of the structure serves it, it ends before the structure does,
    and two members never overlap. *)
Theorem uv_structs_layout `{SysTypes} t :
  t ∈ uv_structs →
  StronglySorted before_member (offsets t) ∧
  Forall (λ f, (alignof f.1.2 | f.2)%N ∧ (alignof f.1.2 | alignof t)%N ∧ (f.2 + sizeof f.1.2 ≤ sizeof t)%N) (offsets t).
Proof.
  assert (Forall (λ t, match t with Tstruct _ _ => True | _ => False end) uv_structs) as Hs
    by (vm_compute; repeat constructor).
  rewrite Forall_forall in Hs. intros Ht. specialize (Hs t Ht).
  destruct t as [| | | | | |n fs| |]; try done. apply struct_layout_ok.
Qed.

(** The sizes libuv itself documents for 64-bit Linux. *)
Lemma uv_structs_layout_witness :
  Forall (λ f, (f.2 + sizeof f.1.2 ≤ sizeof uv_loop_s)%N) (offsets uv_loop_s) ∧
  sizeof <$> [uv_handle_s; uv_timer_s; uv_tcp_s; uv_async_s; uv_work_s; uv_fs_s; uv_loop_s; uv_buf_t] =
  [96; 152; 248; 128; 128; 440; 848; 16]%N.
Proof.
  split; [|vm_compute; reflexivity].
  assert (uv_loop_s ∈ uv_structs) as Hin.
  { unfold uv_structs. rewrite !elem_of_app. right. left. by left. }
  eapply Forall_impl; [exact (proj2 (uv_structs_layout uv_loop_s Hin))|]. by intros f (_ & _ & Hf).
Defined.

(** The link member that unix.h spells out for [uv_signal_t] is exactly
    the structure [RB_ENTRY(uv_signal_s)] of tree.h, as its comment says, so the
    RB_* macros work on signal handles; and [uv_buf_t] has the layout of the
    [struct iovec] of writev(2), as its comment promises. *)
Theorem uv_signal_tree_entry `{SysTypes} :
  assoc "tree_entry" UV_SIGNAL_PRIVATE_FIELDS = Some (RB_ENTRY_ctype "uv_signal_s") ∧
  (snd <$> offsets (RB_ENTRY_ctype "uv_signal_s")) = [0; 8; 16; 24]%N ∧
  (λ f, (sizeof f.1.2, f.2)) <$> offsets uv_buf_t =
  (λ f, (sizeof f.1.2, f.2)) <$> offsets (Tstruct "iovec" [("iov_base", Tptr "void"); ("iov_len", size_t)]).
Proof. done. Qed.

(** The numbering of the handle and request types: the [i]-th entry of the
    type map has the code [i + 1] in the enumeration and is the [i]-th member of
    the union, codes are distinct, [UV_FILE] and the MAX codes follow. *)
Theorem uv_type_codes i :
  (∀ e, UV_HANDLE_TYPE_MAP !! i = Some e →
    assoc ("UV_" +:+ e.1) uv_handle_type = Some (Z.of_nat i + 1)%Z ∧
    fst <$> members_of uv_any_handle !! i = Some e.2) ∧
  (∀ e, UV_REQ_TYPE_MAP !! i = Some e →
    assoc ("UV_" +:+ e.1) uv_req_type = Some (Z.of_nat i + 1)%Z ∧
    fst <$> members_of uv_any_req !! i = Some e.2) ∧
  NoDup uv_handle_type.*2 ∧ NoDup uv_req_type.*2 ∧
  assoc "UV_FILE" uv_handle_type = Some 17%Z ∧ assoc "UV_HANDLE_TYPE_MAX" uv_handle_type = Some 18%Z ∧
  assoc "UV_REQ_TYPE_MAX" uv_req_type = Some 11%Z.
Proof.
  split_and!; try reflexivity; try bdone.
  - intros e He. do 16 (destruct i as [|i]; [injection He as <-; split; vm_compute; reflexivity|]). done.
  - intros e He. do 10 (destruct i as [|i]; [injection He as <-; split; vm_compute; reflexivity|]). done.
Qed.

(** ** Error codes *)

(** On every platform whose [errno] values are as POSIX says, every name of
    [UV_ERRNO_MAP] has an enumerator, the enumerators are negative and above
    [UV_ERRNO_MAX], and different names have different codes: an error is
    recognised by [err < 0], and a [switch] over the codes has no duplicate
    case. *)
Theorem uv_errno_codes p :
  posix_errno p →
  (∀ e, e ∈ UV_ERRNO_MAP → ∃ v, UV__code p e.1 = Some v ∧ (UV_ERRNO_MAX < v < 0)%Z) ∧
  (∀ n m v, UV__code p n = Some v → UV__code p m = Some v → n = m) ∧
  NoDup UV_ERRNO_MAP.*1 ∧ length (uv_errno_t p) = 83.
Proof.
  intros Hp. split_and!.
  - intros e He. destruct (UV_ERRNO_MAP_total p e He) as [v Hv]. exists v. split; [done|].
    by eapply UV__code_range.
  - intros n m v. by apply UV__code_inj.
  - apply UV_ERRNO_MAP_names.
  - apply uv_errno_t_length.
Qed.

Lemma uv_errno_codes_witness :
  (∃ v, UV__code linux "EAGAIN" = Some v ∧ (UV_ERRNO_MAX < v < 0)%Z) ∧
  (∀ n, UV__code linux n = Some (-2)%Z → n = "ENOENT") ∧
  UV__code linux "ECHARSET" = Some (-4080)%Z.
Proof.
  destruct (uv_errno_codes linux linux_posix) as (H1 & H2 & _ & _). split_and!.
  - apply (H1 ("EAGAIN", "resource temporarily unavailable")). apply list_elem_of_In. vm_compute. tauto.
  - intros n Hn. apply (H2 _ _ (-2)%Z Hn). reflexivity.
  - reflexivity.
Defined.

(** ** Flags *)

(** A selection of flags, as the word that carries them. *)
Definition flag_word (sel : list (string * Z)) : Z := foldr (λ f w, Z.lor f.2 w) 0%Z sel.

Lemma flag_word_disjoint fs sel g : disjoint_flags fs → sel ⊆ fs → g ∈ fs →
  (g ∉ sel → Z.land (flag_word sel) g.2 = 0%Z) ∧ (g ∈ sel → Z.land (flag_word sel) g.2 = g.2).
Proof.
  intros Hd Hsel Hg. induction sel as [|f sel IH]; simpl.
  { split; [done|by intros []%not_elem_of_nil]. }
  destruct IH as [IH0 IH1]; [by intros x Hx; apply Hsel; right|].
  assert (f ≠ g → Z.land f.2 g.2 = 0%Z) as Hfg.
  { intros Hne. apply list_elem_of_lookup_1 in Hg as [j Hj].
    destruct (list_elem_of_lookup_1 fs f) as [i Hi]; [apply Hsel; by left|].
    eapply (Hd i j); [|done..]. intros ->. by simplify_eq. }
  rewrite Z.land_lor_distr_l, not_elem_of_cons, elem_of_cons. split.
  - intros [Hne Hnot]. rewrite Hfg by congruence. rewrite IH0 by done. done.
  - destruct (decide (f = g)) as [->|Hne]; intros Hin.
    + rewrite Z.land_diag. destruct (decide (g ∈ sel)) as [Hs|Hs]; [rewrite IH1 by done|rewrite IH0 by done].
      * apply Z.lor_diag.
      * apply Z.lor_0_r.
    + rewrite Hfg by done. rewrite IH1; [done|]. destruct Hin; [congruence|done].
Qed.

(** The flag words of uv.h; the stdio flags without the compatibility alias
    of [UV_NONBLOCK_PIPE] and the zero flag. *)
Definition uv_flag_words : list (list (string * Z)) := [
  uv_udp_flags; uv_poll_event; uv_process_flags; uv_fs_event; uv_fs_event_flags;
  take 6 (drop 1 uv_stdio_flags); uv_fs_copyfile_flags; uv_fs_symlink_flags].

(** Round trip of flag words: for each of the flag enumerations of uv.h, any
    selection of flags combined with [|] is read back exactly by testing each
    flag with [&], a selected flag giving itself and any other giving 0. *)
Theorem uv_flags_roundtrip fs sel g :
  fs ∈ uv_flag_words → sel ⊆ fs → g ∈ fs →
  (0 < g.2)%Z ∧ (Z.land (flag_word sel) g.2 ≠ 0%Z ↔ g ∈ sel) ∧
  (g ∈ sel → Z.land (flag_word sel) g.2 = g.2).
Proof.
  intros Hfs Hsel Hg.
  assert (Forall (λ fs, disjoint_flags_b 0 fs = true ∧ Forall (λ f, (0 < f.2)%Z) fs) uv_flag_words) as Hall by bdone.
  rewrite Forall_forall in Hall. destruct (Hall _ Hfs) as [Hd%disjoint_flags_dec Hpos].
  rewrite Forall_forall in Hpos. specialize (Hpos g Hg).
  destruct (flag_word_disjoint fs sel g Hd Hsel Hg) as [H0 H1].
  split_and!; [done| |done]. split.
  - intros Hne. destruct (decide (g ∈ sel)); [done|]. by destruct Hne; apply H0.
  - intros Hin. rewrite H1 by done. lia.
Qed.

Lemma uv_flags_roundtrip_witness :
  (Z.land (flag_word [("UV_READABLE", 1%Z); ("UV_PRIORITIZED", 8%Z)]) 8 ≠ 0)%Z ∧
  ¬ (Z.land (flag_word [("UV_READABLE", 1%Z); ("UV_PRIORITIZED", 8%Z)]) 2 ≠ 0)%Z.
Proof.
  assert (uv_poll_event ∈ uv_flag_words) as Hin by (right; by left).
  assert ([("UV_READABLE", 1%Z); ("UV_PRIORITIZED", 8%Z)] ⊆ uv_poll_event) as Hsub.
  { intros x Hx. rewrite !elem_of_cons in Hx. destruct Hx as [->|[->|[]%not_elem_of_nil]];
      apply list_elem_of_In; vm_compute; tauto. }
  split.
  - apply (uv_flags_roundtrip _ _ ("UV_PRIORITIZED", 8%Z) Hin Hsub); [apply list_elem_of_In; vm_compute; tauto|].
    right. by left.
  - intros H. apply (uv_flags_roundtrip _ _ ("UV_WRITABLE", 2%Z) Hin Hsub) in H.
    + rewrite !elem_of_cons in H. by destruct H as [[=]|[[=]|[]%not_elem_of_nil]].
    + apply list_elem_of_In; vm_compute; tauto.
Defined.
