(* ===== verification/Memory.v ===== *)
(** * Byte memory

    The memory the C glue code reads and writes: bytes at addresses, present
    where an object is allocated, and the blocks the collector handed out.
    Integers and pointers are stored little-endian.  An access to an absent
    byte fails, so a total-correctness statement includes that every access is
    inside an allocated object. *)
From S2P Require Import Prelude.
#[local] Open Scope N_scope.

Abbreviation addr := N.

(** How a block was allocated: [GC_malloc], or [GC_malloc_uncollectable]. *)
Inductive gc_kind := Collectable | Uncollectable.
#[global] Instance gc_kind_eq_dec : EqDecision gc_kind.
Proof. solve_decision. Defined.

Record mem := mk_mem {
  bytes : gmap addr Z;
  blocks : gmap addr (N * gc_kind);
}.

Fixpoint le_split (n : nat) (v : Z) : list Z :=
  match n with
  | O => []
  | S n => (v mod 256)%Z :: le_split n (v / 256)%Z
  end.
Fixpoint le_combine (bs : list Z) : Z :=
  match bs with
  | [] => 0%Z
  | b :: bs => (b + 256 * le_combine bs)%Z
  end.

Fixpoint load_bytes (n : nat) (a : addr) (h : gmap addr Z) : option (list Z) :=
  match n with
  | O => Some []
  | S n => b ← h !! a; bs ← load_bytes n (a + 1) h; Some (b :: bs)
  end.
Fixpoint store_bytes (bs : list Z) (a : addr) (h : gmap addr Z) : option (gmap addr Z) :=
  match bs with
  | [] => Some h
  | b :: bs => _ ← h !! a; store_bytes bs (a + 1) (<[a:=b]> h)
  end.

(** An [n]-byte unsigned load and store. *)
Definition load (n : nat) (a : addr) : ST mem Z :=
  st_gets (λ m, le_combine <$> load_bytes n a (bytes m)).
Definition store (n : nat) (a : addr) (v : Z) : ST mem unit :=
  st_mod (λ m, h ← store_bytes (le_split n v) a (bytes m); Some (mk_mem h (blocks m))).

(** A pointer-sized load and store. *)
Definition load_ptr (a : addr) : ST mem addr := v ← load 8 a; mret (Z.to_N v).
Definition store_ptr (a : addr) (p : addr) : ST mem unit := store 8 a (Z.of_N p).

(** ** Facts *)

(** Addresses [a], ..., [a + n - 1] are allocated. *)
Definition valid (n : N) (a : addr) (h : gmap addr Z) : Prop :=
  ∀ i, a ≤ i < a + n → is_Some (h !! i).
Definition outside (a : addr) (n : N) (i : addr) : Prop := i < a ∨ a + n ≤ i.
(** Every byte is a byte. *)
Definition bytes_ok (h : gmap addr Z) : Prop := map_Forall (λ _ b, (0 ≤ b < 256)%Z) h.

Lemma length_le_split n v : length (le_split n v) = n.
Proof. revert v. induction n; intros v; simpl; auto. Qed.

Lemma le_combine_split n v : le_combine (le_split n v) = (v mod 256 ^ Z.of_nat n)%Z.
Proof.
  revert v. induction n as [|n IH]; intros v; simpl; [by rewrite Z.mod_1_r|].
  rewrite IH, Nat2Z.inj_succ, Z.pow_succ_r by lia.
  pose proof (Z.pow_pos_nonneg 256 (Z.of_nat n) ltac:(lia) ltac:(lia)).
  rewrite Z.rem_mul_r by lia. done.
Qed.

Lemma le_split_bytes n v : Forall (λ b, (0 ≤ b < 256)%Z) (le_split n v).
Proof.
  revert v. induction n as [|n IH]; intros v; simpl; constructor; [|apply IH].
  apply Z.mod_pos_bound. lia.
Qed.

Lemma load_bytes_ext n a h h' :
  (∀ i, a ≤ i < a + N.of_nat n → h' !! i = h !! i) → load_bytes n a h' = load_bytes n a h.
Proof.
  revert a. induction n as [|n IH]; intros a Hh; simpl; [done|].
  rewrite Hh by lia. rewrite IH; [done|]. intros i Hi. apply Hh. lia.
Qed.

Lemma load_bytes_valid n a h : valid (N.of_nat n) a h → ∃ bs, load_bytes n a h = Some bs ∧ length bs = n.
Proof.
  revert a. induction n as [|n IH]; intros a Hv; [by exists []|].
  destruct (Hv a ltac:(lia)) as [b Hb]. destruct (IH (a + 1)) as (bs & Hbs & Hl).
  { intros i Hi. apply Hv. lia. }
  exists (b :: bs). simpl. rewrite Hb. simpl. rewrite Hbs. simpl. split; [done|]. lia.
Qed.

Lemma store_bytes_spec bs a h :
  valid (N.of_nat (length bs)) a h →
  ∃ h', store_bytes bs a h = Some h' ∧
    (∀ i, outside a (N.of_nat (length bs)) i → h' !! i = h !! i) ∧
    load_bytes (length bs) a h' = Some bs ∧ dom h' = dom h.
Proof.
  revert a h. induction bs as [|b bs IH]; intros a h Hv; [by exists h|]. simpl length in *.
  destruct (Hv a ltac:(lia)) as [c Hc].
  destruct (IH (a + 1) (<[a:=b]> h)) as (h' & Hst & Hout & Hld & Hdom).
  { intros i Hi. rewrite lookup_insert_ne by lia. apply Hv. lia. }
  exists h'. simpl. rewrite Hc. simpl. rewrite Hst. split; [done|]. split.
  - intros i Hi. unfold outside in *. rewrite Hout by lia. rewrite lookup_insert_ne; [done|lia].
  - rewrite Hld. rewrite Hout by (unfold outside; lia). rewrite lookup_insert_eq. split; [done|].
    rewrite Hdom. apply dom_insert_lookup_L. by eexists.
Qed.

Lemma store_bytes_ok bs a h h' :
  store_bytes bs a h = Some h' → Forall (λ b, (0 ≤ b < 256)%Z) bs → bytes_ok h → bytes_ok h'.
Proof.
  revert a h. induction bs as [|b bs IH]; intros a h Hst Hbs Hh; simpl in *; [by simplify_eq|].
  destruct (h !! a); [|done]. simpl in Hst. inversion Hbs; subst.
  eapply IH; [exact Hst|done|]. by apply map_Forall_insert_2.
Qed.

Lemma le_combine_range bs : Forall (λ b, (0 ≤ b < 256)%Z) bs →
  (0 ≤ le_combine bs < 256 ^ Z.of_nat (length bs))%Z.
Proof.
  induction 1 as [|b bs Hb Hbs IH]; [done|]. simpl length.
  rewrite Nat2Z.inj_succ, Z.pow_succ_r by lia. simpl. lia.
Qed.

Section rules.
Implicit Types (m : mem).

(** A load of allocated memory yields the value of its bytes. *)
Lemma wp_load n a m (Q : Z → mem → Prop) :
  valid (N.of_nat n) a (bytes m) →
  (∀ bs, load_bytes n a (bytes m) = Some bs → length bs = n → Q (le_combine bs) m) → wp (load n a) m Q.
Proof.
  intros Hv HQ. destruct (load_bytes_valid _ _ _ Hv) as (bs & Hbs & Hl).
  eapply wp_gets; [by rewrite Hbs|]. by apply HQ.
Qed.

(** A store changes the bytes it covers only, and loads them back. *)
Lemma wp_store n a v m (Q : unit → mem → Prop) :
  valid (N.of_nat n) a (bytes m) →
  (∀ m', blocks m' = blocks m → dom (bytes m') = dom (bytes m) →
     (∀ i, outside a (N.of_nat n) i → bytes m' !! i = bytes m !! i) →
     load n a m' = Some ((v mod 256 ^ Z.of_nat n)%Z, m') →
     (bytes_ok (bytes m) → bytes_ok (bytes m')) → Q tt m') →
  wp (store n a v) m Q.
Proof.
  intros Hv HQ. destruct (store_bytes_spec (le_split n v) a (bytes m)) as (h' & Hst & Hout & Hld & Hdom).
  { by rewrite length_le_split. }
  rewrite length_le_split in *. eapply wp_mod; [by rewrite Hst|].
  apply HQ; simpl; try done.
  - unfold load, st_gets. simpl. rewrite Hld. simpl. by rewrite le_combine_split.
  - intros Hok. eapply store_bytes_ok; [exact Hst|apply le_split_bytes|done].
Qed.

(** A load elsewhere is not affected. *)
Lemma load_frame n a m m' b k x m1 :
  (∀ i, outside a k i → bytes m' !! i = bytes m !! i) →
  b + N.of_nat n ≤ a ∨ a + k ≤ b →
  load n b m = Some (x, m1) → load n b m' = Some (x, m').
Proof.
  intros Hout Hd. unfold load, st_gets.
  rewrite (load_bytes_ext n b (bytes m) (bytes m')) by (intros i Hi; apply Hout; unfold outside; lia).
  destruct (load_bytes n b (bytes m)); [|done]. simpl. by intros [= -> _].
Qed.

Lemma valid_dom n a h h' : dom h' = dom h → valid n a h → valid n a h'.
Proof. intros Hd Hv i Hi. apply elem_of_dom. rewrite Hd. apply elem_of_dom. by apply Hv. Qed.
Lemma valid_sub n a k o h : valid n a h → o + k ≤ n → valid k (a + o) h.
Proof. intros Hv Ho i Hi. apply Hv. lia. Qed.
End rules.
