(* ===== verification/UvUtil.v ===== *)
(** * The C glue of the runtime: uvutil.c

    src/libuv_helper/uvutil.c is the C code the compiled programs link
    against: constructors that allocate libuv objects from the garbage
    collector, accessors for members the generated code cannot name, and the
    allocator that makes libuv itself allocate from the collector.  The
    collector and libuv are not in the repository beyond their headers: the
    class [Collector] states what gc.h says of the functions used, [LibUv]
    what uv.h and the libuv documentation say, and the functions of uvutil.c
    are translated over them and the byte memory of Memory.v, with the
    structure layouts of UvTypes.v. *)
From S2P Require Import Prelude CLayout UvTypes Memory.
#[local] Open Scope N_scope.

Definition NULLP : addr := 0.
Definition SIZE_MAX1 : N := 2 ^ 64.

(** ** What the collector promises *)

(** [p] is a new block of [n] cleared bytes, at an address that is a multiple
    of 16, the bytes of every other object are unchanged. *)
Record fresh_block (m : mem) (p : addr) (n : N) (k : gc_kind) (m' : mem) : Prop := mk_fresh {
  fresh_null : p ≠ NULLP;
  fresh_align : (16 | p);
  fresh_range : p + n < SIZE_MAX1;
  fresh_new : ∀ i, p ≤ i < p + n → bytes m !! i = None;
  fresh_zero : ∀ i, p ≤ i < p + n → bytes m' !! i = Some 0%Z;
  fresh_rest : ∀ i, outside p n i → bytes m' !! i = bytes m !! i;
  fresh_blocks : blocks m !! p = None ∧ blocks m' = <[p:=(n, k)]> (blocks m);
}.

Class Collector := {
  GC_malloc : N → ST mem addr;
  GC_malloc_uncollectable : N → ST mem addr;
  GC_realloc : addr → N → ST mem addr;
  GC_free : addr → ST mem unit;
  (** gc.h: allocation returns cleared memory, NULL when out of memory. *)
  GC_malloc_spec n m : wp (GC_malloc n) m (λ p m',
    (p = NULLP ∧ m' = m) ∨ fresh_block m p n Collectable m');
  GC_malloc_uncollectable_spec n m : wp (GC_malloc_uncollectable n) m (λ p m',
    (p = NULLP ∧ m' = m) ∨ fresh_block m p n Uncollectable m');
}.

(** ** The state of the program outside the collected memory *)

(** The functions libuv allocates with, by the name of their C function. *)
Record allocator := mk_allocator {
  malloc_func : string; realloc_func : string; calloc_func : string; free_func : string }.

Record world := mk_world {
  memory : mem;
  uv_alloc : allocator;
  stdout : string;
}.

Definition lift {A} (f : ST mem A) : ST world A := λ w,
  match f (memory w) with
  | Some (a, m) => Some (a, mk_world m (uv_alloc w) (stdout w))
  | None => None
  end.

Class LibUv := {
  (** installs the four allocation functions; only a NULL function makes it
      fail, and uvutil.c passes none *)
  uv_replace_allocator : string → string → string → string → ST world Z;
  uv_replace_allocator_spec m r c f w :
    wp (uv_replace_allocator m r c f) w (λ err w', err = 0%Z ∧
      w' = mk_world (memory w) (mk_allocator m r c f) (stdout w));
  (** the name of an error code *)
  uv_err_name : Z → string;
  (** fills [*cpu_infos] and [*count]; the value is the error code, the array
      and the count *)
  uv_cpu_info : ST world (Z * addr * Z);
  uv_free_cpu_info : addr → Z → ST world unit;
  (** An [int] error code; on success freeing the array gives back the memory
      it took, and the count is a positive [int]. *)
  uv_cpu_info_spec w : wp uv_cpu_info w (λ r w', let '(err, infos, count) := r in
    (- 2 ^ 31 ≤ err < 2 ^ 31)%Z ∧
    if (err =? 0)%Z
    then (0 < count < 2 ^ 31)%Z ∧ wp (uv_free_cpu_info infos count) w' (λ _ w'', w'' = w)
    else w' = w);
}.

(** [printf("%s", s)] *)
Definition printf_s (s : string) : ST world unit :=
  st_mod (λ w, Some (mk_world (memory w) (uv_alloc w) (stdout w +:+ s))).
Section uvutil.
Context `{SysTypes} `{Collector} `{LibUv}.

(** gc.h: [GC_MALLOC(sz)] is [GC_malloc(sz)] unless GC_DEBUG is defined. *)
Definition GC_MALLOC (sz : N) : ST mem addr := GC_malloc sz.

(** ** Constructors *)
Definition new_timer2 : ST mem addr := GC_MALLOC (sizeof uv_timer_s).
Definition new_tcp : ST mem addr := GC_MALLOC (sizeof uv_tcp_s).
Definition new_addr : ST mem addr := GC_MALLOC (sizeof (Tsys "struct sockaddr_in")).
Definition new_idle : ST mem addr := GC_MALLOC (sizeof uv_idle_s).
Definition new_write : ST mem addr := GC_MALLOC (sizeof uv_write_s).
Definition new_async : ST mem addr := GC_MALLOC (sizeof uv_async_s).
Definition new_conn : ST mem addr := GC_malloc_uncollectable (sizeof uv_connect_s).
Definition new_pthread_cond_t : ST mem addr := GC_MALLOC (sizeof (Tsys "pthread_cond_t")).
Definition new_pthread_mutex_t : ST mem addr := GC_MALLOC (sizeof (Tsys "pthread_mutex_t")).
Definition new_buf_t : ST mem addr := GC_MALLOC (sizeof uv_buf_t).

(** ** Member access *)

(** [&p->x] for a pointer [p] to the structure [t]. *)
Definition member (t : ctype) (p : addr) (x : string) : addr :=
  p + match offsetof t x with Some (_, o) => o | None => 0 end.

(** [t->handle] *)
Definition get_conn_stream (t : addr) : ST mem addr := load_ptr (member uv_connect_s t "handle").
Definition get_tcp_data (t : addr) : ST mem addr := load_ptr (member uv_tcp_s t "data").
Definition set_tcp_data (t data : addr) : ST mem unit := store_ptr (member uv_tcp_s t "data") data.
Definition get_buf_data (t : addr) : ST mem addr := load_ptr (member uv_buf_t t "base").
Definition get_buf_len (t : addr) : ST mem Z := load 8 (member uv_buf_t t "len").
Definition set_buf_data (t data : addr) : ST mem unit := store_ptr (member uv_buf_t t "base") data.
Definition set_buf_len (t : addr) (len : Z) : ST mem unit := store 8 (member uv_buf_t t "len") len.

(** ** The allocator of libuv *)

(** [(count) * (size)] in size_t. *)
Definition GC_calloc (count size : N) : ST mem addr :=
  GC_malloc_uncollectable ((count * size) `mod` SIZE_MAX1).
Definition replace_allocator : ST world unit :=
  uv_replace_allocator "GC_malloc_uncollectable" "GC_realloc" "GC_calloc" "GC_free";;
  mret tt.

Definition print_uv_err (err : Z) : ST world unit := printf_s (uv_err_name err).

Definition get_available_parallelism : ST world Z :=
  '(err, cpu_infos, count) ← uv_cpu_info;
  if negb (err =? 0)%Z then mret (-1)%Z else
  uv_free_cpu_info cpu_infos count;;
  mret count.
End uvutil.

(** ** Specifications *)
Section specs.
Context `{SysTypes} `{Collector} `{LibUv}.
Implicit Types (m : mem) (p : addr).

(** What each constructor is to allocate: the type in its [sizeof], and a block
    that the collector may reclaim unless the code asks otherwise. *)
Definition constructors : list (ctype * gc_kind * ST mem addr) := [
  (uv_timer_s, Collectable, new_timer2); (uv_tcp_s, Collectable, new_tcp);
  (Tsys "struct sockaddr_in", Collectable, new_addr); (uv_idle_s, Collectable, new_idle);
  (uv_write_s, Collectable, new_write); (uv_async_s, Collectable, new_async);
  (uv_connect_s, Uncollectable, new_conn); (Tsys "pthread_cond_t", Collectable, new_pthread_cond_t);
  (Tsys "pthread_mutex_t", Collectable, new_pthread_mutex_t); (uv_buf_t, Collectable, new_buf_t)].

Lemma constructor_ok t k f m :
  (t, k, f) ∈ constructors →
  wp f m (λ p m', (p = NULLP ∧ m' = m) ∨ fresh_block m p (sizeof t) k m').
Proof.
  intros Hf. unfold constructors in Hf. rewrite !elem_of_cons in Hf.
  repeat (destruct Hf as [[= -> -> ->]|Hf];
    [first [apply GC_malloc_spec|apply GC_malloc_uncollectable_spec]|]).
  by apply not_elem_of_nil in Hf.
Qed.

Lemma bytes_ok_fresh m p n k m' : fresh_block m p n k m' → bytes_ok (bytes m) → bytes_ok (bytes m').
Proof.
  intros Hf Hok i b Hb. destruct (decide (p ≤ i < p + n)) as [Hi|Hi].
  - rewrite (fresh_zero _ _ _ _ _ Hf i Hi) in Hb. simplify_eq. lia.
  - rewrite (fresh_rest _ _ _ _ _ Hf i) in Hb by (unfold outside; lia). by eapply Hok.
Qed.
Lemma valid_fresh m p n k m' : fresh_block m p n k m' → valid n p (bytes m').
Proof. intros Hf i Hi. rewrite (fresh_zero _ _ _ _ _ Hf i Hi). by eexists. Qed.

(** [p] points to an allocated object of type [t]. *)
Definition points_to m p (t : ctype) : Prop := valid (sizeof t) p (bytes m) ∧ bytes_ok (bytes m).

Lemma get_ptr_ok t x ty o p m :
  points_to m p t → offsetof t x = Some (ty, o) → o + 8 ≤ sizeof t →
  wp (load_ptr (member t p x)) m (λ r m', m' = m ∧ load 8 (p + o) m = Some (Z.of_N r, m)).
Proof.
  intros [Hv Hok] Ho Hs. unfold member. rewrite Ho. unfold load_ptr. apply wp_bind, wp_load.
  { by eapply valid_sub. }
  intros bs Hbs Hl. apply wp_ret. split; [done|]. unfold load, st_gets. rewrite Hbs. simpl.
  rewrite Z2N.id; [done|]. apply le_combine_range.
  clear -Hbs Hok. revert Hbs. generalize (p + o) 8%nat. intros a n. revert a bs.
  induction n as [|n IH]; intros a bs; simpl; [intros [= <-]; constructor|].
  destruct (bytes m !! a) as [b|] eqn:Hb; [|done]. simpl.
  destruct (load_bytes n (a + 1) (bytes m)) as [bs'|] eqn:Hbs; [|done]. simpl. intros [= <-].
  constructor; [by eapply Hok|by eapply IH].
Qed.
End specs.
