(* ===== verification/UvUtilTheorems.v ===== *)
(** * The C glue of the runtime: the theorems

    Memory safety and functional correctness of src/libuv_helper/uvutil.c
    over any collector that satisfies [Collector], with a concrete collector
    as an instance: one that hands out increasing addresses. *)
From stdpp Require Import sorting.
From S2P Require Import Prelude CLayout UvTypes UvEnums UvErrno UvTheorems Memory UvUtil.
#[local] Open Scope N_scope.

(** ** A concrete collector *)

Fixpoint clear (n : nat) (a : addr) (h : gmap addr Z) : gmap addr Z :=
  match n with O => h | S n => clear n (a + 1) (<[a:=0%Z]> h) end.
Definition above_keys {A} (h : gmap addr A) : N := map_fold (λ k _ acc, N.max (k + 1) acc) 0 h.
Definition bump_addr (m : mem) : addr :=
  16 * (N.max (above_keys (bytes m)) (above_keys (blocks m)) / 16 + 1).
Definition bump_malloc (k : gc_kind) (n : N) : ST mem addr := λ m,
  let p := bump_addr m in
  if decide (p + n < SIZE_MAX1)
  then Some (p, mk_mem (clear (N.to_nat n) p (bytes m)) (<[p:=(n, k)]> (blocks m)))
  else Some (NULLP, m).

Lemma clear_lookup n a h i :
  clear n a h !! i = if decide (a ≤ i < a + N.of_nat n) then Some 0%Z else h !! i.
Proof.
  revert a h. induction n as [|n IH]; intros a h; simpl.
  - rewrite decide_False by lia. done.
  - rewrite IH. destruct (decide (a + 1 ≤ i < a + 1 + N.of_nat n)) as [Hi|Hi].
    + by rewrite decide_True by lia.
    + destruct (decide (i = a)) as [->|Hia].
      * rewrite lookup_insert_eq, decide_True by lia. done.
      * rewrite lookup_insert_ne by done. by rewrite decide_False by lia.
Qed.
Lemma above_keys_spec {A} (h : gmap addr A) k : is_Some (h !! k) → k < above_keys h.
Proof.
  unfold above_keys.
  apply (map_fold_weak_ind (λ acc h, is_Some (h !! k) → k < acc)); [by intros []|].
  intros i x h' acc Hi IH Hk. destruct (decide (k = i)) as [->|Hne]; [lia|].
  rewrite lookup_insert_ne in Hk by done. specialize (IH Hk). lia.
Qed.

Lemma bump_spec k n m : wp (bump_malloc k n) m (λ p m', (p = NULLP ∧ m' = m) ∨ fresh_block m p n k m').
Proof.
  unfold wp, bump_malloc. cbv beta zeta. destruct (decide (bump_addr m + n < SIZE_MAX1)) as [Hlt|].
  2:{ eexists _, _. split; [done|]. by left. }
  eexists _, _. split; [done|]. right.
  assert (∀ i, bump_addr m ≤ i → bytes m !! i = None ∧ blocks m !! i = None) as Hout.
  { intros i Hi. unfold bump_addr in Hi.
    assert (∀ t, t < 16 * (t / 16 + 1)) as Hgt
      by (intros t; pose proof (N.div_mod t 16 ltac:(done)); pose proof (N.mod_lt t 16 ltac:(done));
          generalize dependent (t `mod` 16); generalize dependent (t / 16); intros; lia).
    specialize (Hgt (N.max (above_keys (bytes m)) (above_keys (blocks m)))).
    generalize dependent (N.max (above_keys (bytes m)) (above_keys (blocks m)) / 16). intros q Hi Hgt.
    split; apply eq_None_not_Some; intros Hs%above_keys_spec; lia. }
  split; simpl.
  - unfold bump_addr, NULLP. apply N.neq_mul_0. split; [done|]. rewrite N.add_1_r. apply N.neq_succ_0.
  - unfold bump_addr. apply N.divide_factor_l.
  - done.
  - intros i Hi. apply Hout. lia.
  - intros i Hi. rewrite clear_lookup. rewrite decide_True; [done|lia].
  - intros i Hi. rewrite clear_lookup. rewrite decide_False; [done|]. unfold outside in Hi. lia.
  - split; [apply Hout; lia|done].
Qed.

#[export] Instance bump_collector : Collector := {|
  GC_malloc := bump_malloc Collectable;
  GC_malloc_uncollectable := bump_malloc Uncollectable;
  GC_realloc _ n := bump_malloc Uncollectable n;
  GC_free _ := mret tt;
  GC_malloc_spec := bump_spec Collectable;
  GC_malloc_uncollectable_spec := bump_spec Uncollectable;
|}.

Definition empty_mem : mem := mk_mem ∅ ∅.
Lemma empty_ok : bytes_ok (bytes empty_mem).
Proof. by apply map_Forall_empty. Qed.

Section theorems.
Context `{SysTypes} `{Collector}.
Implicit Types (m : mem) (p : addr).

(** The structures uvutil.c allocates need no more than the alignment of a
    collector block. *)
Lemma constructor_align t k f g : (t, k, f) ∈ constructors → g ∈ offsets t → (alignof g.1.2 | 16).
Proof.
  intros Hf Hg. apply (pow2_divide _ 4).
  assert (log_alignof t ≤ 3 ∨ offsets t = []) as [Ha|Ha].
  { unfold constructors in Hf. rewrite !elem_of_cons in Hf.
    repeat (destruct Hf as [[= -> -> ->]|Hf]; [first [right; reflexivity|left; vm_compute; discriminate]|]).
    by apply not_elem_of_nil in Hf. }
  - assert (∃ n fs, t = Tstruct n fs) as (n & fs & ->).
    { unfold constructors in Hf. rewrite !elem_of_cons in Hf.
      repeat (destruct Hf as [[= -> -> ->]|Hf]; [try by eexists _, _|]); try by apply not_elem_of_nil in Hf.
      all: by apply not_elem_of_nil in Hg. }
    destruct g as [[x ty] o]. destruct (layout_bounds _ _ _ _ _ Hg) as (Hin & _).
    pose proof (log_alignof_member _ _ Hin) as Hle. simpl in *. lia.
  - rewrite Ha in Hg. by apply not_elem_of_nil in Hg.
Qed.

Lemma constructor_member t k f g : (t, k, f) ∈ constructors → g ∈ offsets t → (alignof g.1.2 | g.2) ∧ g.2 + sizeof g.1.2 ≤ sizeof t.
Proof.
  intros Hf Hg. unfold constructors in Hf. rewrite !elem_of_cons in Hf.
  repeat (destruct Hf as [[= -> -> ->]|Hf]; [first [by apply not_elem_of_nil in Hg|
    match type of Hg with _ ∈ offsets (?t) => let t' := eval hnf in t in
      match t' with Tstruct ?n ?fs =>
        pose proof (proj2 (struct_layout_ok n fs)) as Hall; rewrite Forall_forall in Hall;
        destruct (Hall g Hg) as (? & _ & ?); by split end end]|]).
  by apply not_elem_of_nil in Hf.
Qed.

(** C27. Each constructor of uvutil.c ([new_timer2], [new_tcp], ..., [new_buf_t])
    either returns NULL and changes nothing, or returns a new block of the size
    of its type: an uncollectable one for [new_conn], a collectable one for the
    others.  The block is cleared, its address is a multiple of the type's
    alignment (up to the 16 bytes the collector aligns to), every member of a
    structure is inside of it and aligned, and every byte outside of it is
    unchanged. *)
Theorem uvutil_constructors t k f m :
  (t, k, f) ∈ constructors → log_alignof t ≤ 4 →
  wp f m (λ p m', (p = NULLP ∧ m' = m) ∨
    (p ≠ NULLP ∧ (alignof t | p) ∧ blocks m' = <[p:=(sizeof t, k)]> (blocks m) ∧
     (∀ i, p ≤ i < p + sizeof t → bytes m !! i = None ∧ bytes m' !! i = Some 0%Z) ∧
     (∀ i, outside p (sizeof t) i → bytes m' !! i = bytes m !! i) ∧
     Forall (λ g, valid (sizeof g.1.2) (p + g.2) (bytes m') ∧ (alignof g.1.2 | p + g.2)) (offsets t))).
Proof.
  intros Hf Hlog. eapply wp_mono; [by apply constructor_ok|].
  intros p m' [[-> ->]|Hfresh]; [by left|]. right. pose proof Hfresh as [Hn Hal _ Hnew Hz Hrest [_ Hb]].
  split_and!; try done; [by transitivity 16; [by apply (pow2_divide _ 4)|]|intros i Hi; split; auto|].
  apply Forall_forall. intros g Hg. destruct (constructor_member t k f g Hf Hg) as [Hga Hgs]. split.
  - eapply valid_sub; [|exact Hgs]. by eapply valid_fresh.
  - apply N.divide_add_r; [|done]. transitivity 16; [by eapply constructor_align|done].
Qed.

(** Reading back a pointer-sized member. *)
Lemma wp_load_known a v m (Q : Z → mem → Prop) : load 8 a m = Some (v, m) → Q v m → wp (load 8 a) m Q.
Proof. intros Hl HQ. by exists v, m. Qed.
Lemma wp_load_ptr a v m (Q : addr → mem → Prop) : load 8 a m = Some (v, m) → Q (Z.to_N v) m → wp (load_ptr a) m Q.
Proof. intros Hl HQ. apply wp_bind. eapply wp_load_known; [exact Hl|]. by apply wp_ret. Qed.
Lemma ptr_mod (d : addr) : d < SIZE_MAX1 → (Z.of_N d `mod` 256 ^ Z.of_nat 8)%Z = Z.of_N d.
Proof. intros Hd. apply Z.mod_small. unfold SIZE_MAX1 in Hd. change (256 ^ Z.of_nat 8)%Z with (2 ^ 64)%Z. lia. Qed.

(** The offsets uvutil.c uses do not depend on the platform's types. *)
Lemma tcp_data_member t : member uv_tcp_s t "data" = t + 0.
Proof. vm_compute. reflexivity. Qed.
Lemma handle_data_member t : member uv_handle_s t "data" = t + 0.
Proof. vm_compute. reflexivity. Qed.
Lemma buf_base_member t : member uv_buf_t t "base" = t + 0.
Proof. vm_compute. reflexivity. Qed.
Lemma buf_len_member t : member uv_buf_t t "len" = t + 8.
Proof. vm_compute. reflexivity. Qed.
Lemma sizeof_tcp : sizeof uv_tcp_s = 248.
Proof. vm_compute. reflexivity. Qed.
Lemma sizeof_buf : sizeof uv_buf_t = 16.
Proof. vm_compute. reflexivity. Qed.

(** [set_tcp_data] and [get_tcp_data]: on an allocated [uv_tcp_t] the pointer
    stored is the pointer read, the store changes the eight bytes of the [data]
    member and no other, and it is the member libuv reads through a
    [uv_handle_t *]. *)
Theorem tcp_data_roundtrip m t data :
  points_to m t uv_tcp_s → data < SIZE_MAX1 →
  wp (set_tcp_data t data;; get_tcp_data t) m (λ r m', r = data ∧ points_to m' t uv_tcp_s ∧
    blocks m' = blocks m ∧ (∀ i, outside (member uv_handle_s t "data") 8 i → bytes m' !! i = bytes m !! i)).
Proof.
  unfold points_to, set_tcp_data, get_tcp_data, store_ptr.
  rewrite tcp_data_member, handle_data_member, sizeof_tcp. intros [Hv Hok] Hd. apply wp_bind.
  assert (valid 8 (t + 0) (bytes m)) as Hv8 by (apply (valid_sub 248); [done|lia]).
  apply wp_store; [exact Hv8|]. intros m' Hb Hdom Hout Hld Hok'.
  eapply wp_load_ptr; [exact Hld|]. rewrite ptr_mod by done. rewrite N2Z.id.
  split; [done|]. split; [|by split]. split; [by eapply valid_dom|by apply Hok'].
Qed.

(** The accessors of [uv_buf_t]: [set_buf_data] and [set_buf_len], in either
    order, are read back by [get_buf_data] and [get_buf_len], the length modulo
    2^64; neither setter disturbs the other member or any byte outside the
    structure. *)
Theorem buf_accessors_roundtrip m t data len :
  points_to m t uv_buf_t → data < SIZE_MAX1 →
  wp (set_buf_data t data;; set_buf_len t len;; d ← get_buf_data t; l ← get_buf_len t; mret (d, l)) m
    (λ r m', r = (data, (len `mod` 2 ^ 64)%Z) ∧ points_to m' t uv_buf_t ∧
      (∀ i, outside t 16 i → bytes m' !! i = bytes m !! i)) ∧
  wp (set_buf_len t len;; set_buf_data t data;; d ← get_buf_data t; l ← get_buf_len t; mret (d, l)) m
    (λ r m', r = (data, (len `mod` 2 ^ 64)%Z) ∧ points_to m' t uv_buf_t ∧
      (∀ i, outside t 16 i → bytes m' !! i = bytes m !! i)).
Proof.
  unfold points_to, set_buf_data, set_buf_len, get_buf_data, get_buf_len, store_ptr.
  rewrite buf_base_member, buf_len_member, sizeof_buf. intros [Hv Hok] Hd.
  assert (∀ m', dom (bytes m') = dom (bytes m) → valid 8 (t + 0) (bytes m') ∧ valid 8 (t + 8) (bytes m')) as Hv'.
  { intros m' Hdom. assert (valid 16 t (bytes m')) by by eapply valid_dom. split; apply (valid_sub 16); [done|lia|done|lia]. }
  split.
  - apply wp_bind. apply wp_store; [by apply (Hv' m)|]. intros m1 _ Hdom1 Hout1 Hld1 Hok1.
    apply wp_bind. apply wp_store; [by apply (Hv' m1)|]. intros m2 _ Hdom2 Hout2 Hld2 Hok2.
    pose proof (load_frame 8 (t + 8) m1 m2 (t + 0) 8 _ _ Hout2 ltac:(lia) Hld1) as Hld1'.
    apply wp_bind. eapply wp_load_ptr; [exact Hld1'|]. rewrite ptr_mod, N2Z.id by done.
    apply wp_bind. eapply wp_load_known; [exact Hld2|]. apply wp_ret. split; [done|].
    split; [split; [eapply valid_dom; [|exact Hv]; congruence|auto]|].
    intros i Hi. unfold outside in *. rewrite Hout2, Hout1 by lia. done.
  - apply wp_bind. apply wp_store; [by apply (Hv' m)|]. intros m1 _ Hdom1 Hout1 Hld1 Hok1.
    apply wp_bind. apply wp_store; [by apply (Hv' m1)|]. intros m2 _ Hdom2 Hout2 Hld2 Hok2.
    pose proof (load_frame 8 (t + 0) m1 m2 (t + 8) 8 _ _ Hout2 ltac:(lia) Hld1) as Hld1'.
    apply wp_bind. eapply wp_load_ptr; [exact Hld2|]. rewrite ptr_mod, N2Z.id by done.
    apply wp_bind. eapply wp_load_known; [exact Hld1'|]. apply wp_ret. split; [done|].
    split; [split; [eapply valid_dom; [|exact Hv]; congruence|auto]|].
    intros i Hi. unfold outside in *. rewrite Hout2, Hout1 by lia. done.
Qed.

(** C26. [GC_calloc] as libuv's calloc.  When [count * size] fits in size_t it
    returns NULL and changes nothing, or an uncollectable block in which each of
    the [count] objects lies whole and cleared, with nothing outside of it
    changed.  When the product does not fit, the block has only the wrapped
    size, and the last byte of the last object lies outside of it, where calloc
    has to return NULL. *)
Theorem GC_calloc_correct count size m :
  (count * size < SIZE_MAX1 → wp (GC_calloc count size) m (λ p m',
    (p = NULLP ∧ m' = m) ∨
    (p ≠ NULLP ∧ blocks m' = <[p:=(count * size, Uncollectable)]> (blocks m) ∧
     (∀ i j, i < count → j < size → bytes m !! (p + i * size + j) = None ∧ bytes m' !! (p + i * size + j) = Some 0%Z) ∧
     (∀ a, outside p (count * size) a → bytes m' !! a = bytes m !! a)))) ∧
  (SIZE_MAX1 ≤ count * size → wp (GC_calloc count size) m (λ p m',
    (p = NULLP ∧ m' = m) ∨
    (fresh_block m p ((count * size) `mod` SIZE_MAX1) Uncollectable m' ∧
     outside p ((count * size) `mod` SIZE_MAX1) (p + (count - 1) * size + (size - 1))))).
Proof.
  unfold GC_calloc. split; intros Hlt; (eapply wp_mono; [apply GC_malloc_uncollectable_spec|]; intros p m' [?|Hf]; [by left|right]).
  - rewrite N.mod_small in Hf by done. destruct Hf as [Hn _ _ Hnew Hz Hrest [_ Hb]]. split_and!; [done|done| |done].
    intros i j Hi Hj. assert (p ≤ p + i * size + j < p + count * size) by nia. split; auto.
  - split; [exact Hf|]. pose proof (N.mod_lt (count * size) SIZE_MAX1 ltac:(done)) as Hmod. right.
    generalize dependent ((count * size) `mod` SIZE_MAX1). intros n _ Hn. assert (count ≠ 0 ∧ size ≠ 0) as [Hc Hs] by (unfold SIZE_MAX1 in *; nia).
    assert ((count - 1) * size + (size - 1) = count * size - 1) as Heq by nia. lia.
Qed.
End theorems.

Section uv_theorems.
Context `{LibUv}.

(** [get_available_parallelism] returns the positive number of processors
    libuv reports, or -1 when libuv reports an error, and in both cases leaves
    the world as it was: the processor array is released exactly once on
    success and never touched on error. *)
Theorem available_parallelism_correct w :
  wp get_available_parallelism w (λ n w', w' = w ∧ (n = -1 ∨ 0 < n < 2 ^ 31)%Z).
Proof.
  unfold get_available_parallelism. apply wp_bind. eapply wp_mono; [apply uv_cpu_info_spec|].
  intros [[err infos] count] w' [_ Hr]. destruct (err =? 0)%Z; simpl.
  - destruct Hr as [Hc Hfree]. apply wp_bind. eapply wp_mono; [exact Hfree|]. intros _ w'' ->.
    apply wp_ret. auto.
  - subst w'. apply wp_ret. auto.
Qed.

(** After [replace_allocator] libuv allocates, resizes and releases all its
    memory with the collector's uncollectable functions, and nothing else of
    the program changes. *)
Theorem replace_allocator_correct w :
  wp replace_allocator w (λ _ w', memory w' = memory w ∧ stdout w' = stdout w ∧
    uv_alloc w' = mk_allocator "GC_malloc_uncollectable" "GC_realloc" "GC_calloc" "GC_free").
Proof.
  unfold replace_allocator. apply wp_bind. eapply wp_mono; [apply uv_replace_allocator_spec|].
  intros err w' [_ ->]. by apply wp_ret.
Qed.
End uv_theorems.

(** ** Instances *)

Lemma uvutil_constructors_witness :
  wp new_tcp empty_mem (λ p m', (p = NULLP ∧ m' = empty_mem) ∨
    (p ≠ NULLP ∧ (8 | p) ∧ blocks m' = {[p:=(248, Collectable)]} ∧
     (∀ i, p ≤ i < p + 248 → bytes empty_mem !! i = None ∧ bytes m' !! i = Some 0%Z) ∧
     (∀ i, outside p 248 i → bytes m' !! i = bytes empty_mem !! i) ∧
     Forall (λ g, valid (sizeof g.1.2) (p + g.2) (bytes m') ∧ (alignof g.1.2 | p + g.2)) (offsets uv_tcp_s))) ∧
  wp new_pthread_mutex_t empty_mem (λ p m', (p = NULLP ∧ m' = empty_mem) ∨
    (p ≠ NULLP ∧ (8 | p) ∧ blocks m' = {[p:=(40, Collectable)]} ∧
     (∀ i, p ≤ i < p + 40 → bytes empty_mem !! i = None ∧ bytes m' !! i = Some 0%Z) ∧
     (∀ i, outside p 40 i → bytes m' !! i = bytes empty_mem !! i) ∧ Forall (λ g, valid (sizeof g.1.2) (p + g.2) (bytes m') ∧ (alignof g.1.2 | p + g.2)) (offsets (Tsys "pthread_mutex_t")))).
Proof.
  split.
  - apply (uvutil_constructors uv_tcp_s Collectable new_tcp empty_mem); [right; by left|]. vm_compute. discriminate.
  - assert (alignof (Tsys "pthread_mutex_t") = 8) as Ha by (vm_compute; reflexivity).
    assert (sizeof (Tsys "pthread_mutex_t") = 40) as Hs by (vm_compute; reflexivity). rewrite <- Ha, <- Hs.
    apply (uvutil_constructors (Tsys "pthread_mutex_t") Collectable new_pthread_mutex_t empty_mem); [do 8 right; by left|]. vm_compute. discriminate.
Defined.

(** A memory with one cleared object at address 16. *)
Definition one_object (n : nat) : mem := mk_mem (clear n 16 ∅) {[16 := (N.of_nat n, Collectable)]}.
Lemma one_object_ok `{SysTypes} n t : sizeof t = N.of_nat n → points_to (one_object n) 16 t.
Proof.
  intros Hs. split.
  - intros i Hi. simpl. rewrite clear_lookup. rewrite decide_True; [by eexists|lia].
  - intros i b. simpl. rewrite clear_lookup. destruct (decide _); [|by rewrite lookup_empty]. intros [= <-]. lia.
Qed.

Lemma tcp_data_roundtrip_witness :
  wp (set_tcp_data 16 4711;; get_tcp_data 16) (one_object 248) (λ r m', r = 4711 ∧ points_to m' 16 uv_tcp_s ∧
    blocks m' = blocks (one_object 248) ∧
    (∀ i, outside (member uv_handle_s 16 "data") 8 i → bytes m' !! i = bytes (one_object 248) !! i)).
Proof. exact (tcp_data_roundtrip (one_object 248) 16 4711 (one_object_ok 248 uv_tcp_s sizeof_tcp) eq_refl). Defined.

Lemma buf_accessors_roundtrip_witness :
  wp (set_buf_data 16 4711;; set_buf_len 16 (-1);; d ← get_buf_data 16; l ← get_buf_len 16; mret (d, l)) (one_object 16)
    (λ r m', r = (4711, 18446744073709551615%Z) ∧ points_to m' 16 uv_buf_t ∧
      (∀ i, outside 16 16 i → bytes m' !! i = bytes (one_object 16) !! i)).
Proof.
  exact (proj1 (buf_accessors_roundtrip (one_object 16) 16 4711 (-1) (one_object_ok 16 uv_buf_t sizeof_buf) eq_refl)).
Defined.

Lemma GC_calloc_correct_witness :
  wp (GC_calloc 3 8) empty_mem (λ p m',
    (p = NULLP ∧ m' = empty_mem) ∨
    (p ≠ NULLP ∧ blocks m' = {[p:=(24, Uncollectable)]} ∧
     (∀ i j, i < 3 → j < 8 → bytes empty_mem !! (p + i * 8 + j) = None ∧ bytes m' !! (p + i * 8 + j) = Some 0%Z) ∧
     (∀ a, outside p 24 a → bytes m' !! a = bytes empty_mem !! a))) ∧
  wp (GC_calloc (2 ^ 61 + 1) 8) empty_mem (λ p m',
    (p = NULLP ∧ m' = empty_mem) ∨ (fresh_block empty_mem p 8 Uncollectable m' ∧ outside p 8 (p + 2 ^ 61 * 8 + 7))).
Proof.
  split.
  - apply (proj1 (GC_calloc_correct 3 8 empty_mem)). reflexivity.
  - apply (proj2 (GC_calloc_correct (2 ^ 61 + 1) 8 empty_mem)). vm_compute. discriminate.
Defined.

(** A libuv that reports four processors. *)
#[local] Program Instance four_cpus : LibUv := {|
  uv_replace_allocator m r c f := λ w, Some (0%Z, mk_world (memory w) (mk_allocator m r c f) (stdout w));
  uv_err_name _ := "UNKNOWN";
  uv_cpu_info := λ w, Some ((0%Z, 4096, 4%Z), w);
  uv_free_cpu_info _ _ := mret tt;
|}.
Next Obligation. intros m r c f w. by eexists _, _. Qed.
Next Obligation.
  intros w. eexists _, _. split; [done|]. split; [done|]. split; [done|]. by apply wp_ret.
Qed.

Definition some_world : world := mk_world empty_mem (mk_allocator "malloc" "realloc" "calloc" "free") "".

Lemma available_parallelism_correct_witness :
  wp get_available_parallelism some_world (λ n w', w' = some_world ∧ (n = -1 ∨ 0 < n < 2 ^ 31)%Z) ∧
  get_available_parallelism some_world = Some (4%Z, some_world).
Proof. split; [apply (available_parallelism_correct some_world)|reflexivity]. Defined.

Lemma replace_allocator_correct_witness :
  wp replace_allocator some_world (λ _ w', memory w' = memory some_world ∧ stdout w' = stdout some_world ∧
    uv_alloc w' = mk_allocator "GC_malloc_uncollectable" "GC_realloc" "GC_calloc" "GC_free").
Proof. apply (replace_allocator_correct some_world). Defined.
