(* ===== verification/UvApi.v ===== *)
(** * The functions of uv.h

    The prototypes of every function libuv_helper/uv.h exports, in the order
    and the groups of the header, and its callback types.  libuv's code is
    not in the repository (libuv/ is an empty submodule directory); the
    header is what the C glue and the runtime written in calc are compiled
    against. *)
From S2P Require Import Prelude CLayout UvTypes.

Definition uv_api_version : list fproto := [
  proto "uv_version" c_uint [];
  proto "uv_version_string" (Tptr "const char") []].

Definition uv_api_loop : list fproto := [
  proto "uv_library_shutdown" Tvoid [];
  proto "uv_replace_allocator" c_int [Tptr "uv_malloc_func"; Tptr "uv_realloc_func"; Tptr "uv_calloc_func";
    Tptr "uv_free_func"];
  proto "uv_default_loop" (Tptr "uv_loop_t") [];
  proto "uv_loop_init" c_int [Tptr "uv_loop_t"];
  proto "uv_loop_close" c_int [Tptr "uv_loop_t"];
  proto "uv_loop_new" (Tptr "uv_loop_t") [];
  proto "uv_loop_delete" Tvoid [Tptr "uv_loop_t"];
  proto "uv_loop_size" size_t [];
  proto "uv_loop_alive" c_int [Tptr "const uv_loop_t"];
  vproto "uv_loop_configure" c_int [Tptr "uv_loop_t"; Tenum "uv_loop_option"];
  proto "uv_loop_fork" c_int [Tptr "uv_loop_t"];
  proto "uv_run" c_int [Tptr "uv_loop_t"; Tenum "uv_run_mode"];
  proto "uv_stop" Tvoid [Tptr "uv_loop_t"];
  proto "uv_ref" Tvoid [Tptr "uv_handle_t"];
  proto "uv_unref" Tvoid [Tptr "uv_handle_t"];
  proto "uv_has_ref" c_int [Tptr "const uv_handle_t"];
  proto "uv_update_time" Tvoid [Tptr "uv_loop_t"];
  proto "uv_now" uint64_t [Tptr "const uv_loop_t"];
  proto "uv_backend_fd" c_int [Tptr "const uv_loop_t"];
  proto "uv_backend_timeout" c_int [Tptr "const uv_loop_t"]].

Definition uv_api_err : list fproto := [
  proto "uv_translate_sys_error" c_int [c_int];
  proto "uv_strerror" (Tptr "const char") [c_int];
  proto "uv_strerror_r" (Tptr "char") [c_int; Tptr "char"; size_t];
  proto "uv_err_name" (Tptr "const char") [c_int];
  proto "uv_err_name_r" (Tptr "char") [c_int; Tptr "char"; size_t]].

Definition uv_api_shutdown : list fproto := [
  proto "uv_shutdown" c_int [Tptr "uv_shutdown_t"; Tptr "uv_stream_t"; Tptr "uv_shutdown_cb"]].

Definition uv_api_handle : list fproto := [
  proto "uv_handle_size" size_t [Tenum "uv_handle_type"];
  proto "uv_handle_get_type" (Tenum "uv_handle_type") [Tptr "const uv_handle_t"];
  proto "uv_handle_type_name" (Tptr "const char") [Tenum "uv_handle_type"];
  proto "uv_handle_get_data" (Tptr "void") [Tptr "const uv_handle_t"];
  proto "uv_handle_get_loop" (Tptr "uv_loop_t") [Tptr "const uv_handle_t"];
  proto "uv_handle_set_data" Tvoid [Tptr "uv_handle_t"; Tptr "void"];
  proto "uv_req_size" size_t [Tenum "uv_req_type"];
  proto "uv_req_get_data" (Tptr "void") [Tptr "const uv_req_t"];
  proto "uv_req_set_data" Tvoid [Tptr "uv_req_t"; Tptr "void"];
  proto "uv_req_get_type" (Tenum "uv_req_type") [Tptr "const uv_req_t"];
  proto "uv_req_type_name" (Tptr "const char") [Tenum "uv_req_type"];
  proto "uv_is_active" c_int [Tptr "const uv_handle_t"];
  proto "uv_walk" Tvoid [Tptr "uv_loop_t"; Tptr "uv_walk_cb"; Tptr "void"];
  proto "uv_print_all_handles" Tvoid [Tptr "uv_loop_t"; Tptr "FILE"];
  proto "uv_print_active_handles" Tvoid [Tptr "uv_loop_t"; Tptr "FILE"];
  proto "uv_close" Tvoid [Tptr "uv_handle_t"; Tptr "uv_close_cb"];
  proto "uv_send_buffer_size" c_int [Tptr "uv_handle_t"; Tptr "int"];
  proto "uv_recv_buffer_size" c_int [Tptr "uv_handle_t"; Tptr "int"];
  proto "uv_fileno" c_int [Tptr "const uv_handle_t"; Tptr "uv_os_fd_t"];
  proto "uv_buf_init" uv_buf_t [Tptr "char"; c_uint];
  proto "uv_pipe" c_int [Tptr "uv_file"; c_int; c_int];
  proto "uv_socketpair" c_int [c_int; c_int; Tptr "uv_os_sock_t"; c_int; c_int]].

Definition uv_api_stream : list fproto := [
  proto "uv_stream_get_write_queue_size" size_t [Tptr "const uv_stream_t"];
  proto "uv_listen" c_int [Tptr "uv_stream_t"; c_int; Tptr "uv_connection_cb"];
  proto "uv_accept" c_int [Tptr "uv_stream_t"; Tptr "uv_stream_t"];
  proto "uv_read_start" c_int [Tptr "uv_stream_t"; Tptr "uv_alloc_cb"; Tptr "uv_read_cb"];
  proto "uv_read_stop" c_int [Tptr "uv_stream_t"];
  proto "uv_write" c_int [Tptr "uv_write_t"; Tptr "uv_stream_t"; Tptr "const uv_buf_t"; c_uint;
    Tptr "uv_write_cb"];
  proto "uv_write2" c_int [Tptr "uv_write_t"; Tptr "uv_stream_t"; Tptr "const uv_buf_t"; c_uint;
    Tptr "uv_stream_t"; Tptr "uv_write_cb"];
  proto "uv_try_write" c_int [Tptr "uv_stream_t"; Tptr "const uv_buf_t"; c_uint];
  proto "uv_try_write2" c_int [Tptr "uv_stream_t"; Tptr "const uv_buf_t"; c_uint; Tptr "uv_stream_t"]].

Definition uv_api_stream_state : list fproto := [
  proto "uv_is_readable" c_int [Tptr "const uv_stream_t"];
  proto "uv_is_writable" c_int [Tptr "const uv_stream_t"];
  proto "uv_stream_set_blocking" c_int [Tptr "uv_stream_t"; c_int];
  proto "uv_is_closing" c_int [Tptr "const uv_handle_t"]].

Definition uv_api_tcp_init : list fproto := [
  proto "uv_tcp_init" c_int [Tptr "uv_loop_t"; Tptr "uv_tcp_t"];
  proto "uv_tcp_init_ex" c_int [Tptr "uv_loop_t"; Tptr "uv_tcp_t"; c_uint];
  proto "uv_tcp_open" c_int [Tptr "uv_tcp_t"; uv_os_sock_t];
  proto "uv_tcp_nodelay" c_int [Tptr "uv_tcp_t"; c_int];
  proto "uv_tcp_keepalive" c_int [Tptr "uv_tcp_t"; c_int; c_uint];
  proto "uv_tcp_simultaneous_accepts" c_int [Tptr "uv_tcp_t"; c_int]].

Definition uv_api_tcp : list fproto := [
  proto "uv_tcp_bind" c_int [Tptr "uv_tcp_t"; Tptr "const struct sockaddr"; c_uint];
  proto "uv_tcp_getsockname" c_int [Tptr "const uv_tcp_t"; Tptr "struct sockaddr"; Tptr "int"];
  proto "uv_tcp_getpeername" c_int [Tptr "const uv_tcp_t"; Tptr "struct sockaddr"; Tptr "int"];
  proto "uv_tcp_close_reset" c_int [Tptr "uv_tcp_t"; Tptr "uv_close_cb"];
  proto "uv_tcp_connect" c_int [Tptr "uv_connect_t"; Tptr "uv_tcp_t"; Tptr "const struct sockaddr";
    Tptr "uv_connect_cb"]].

Definition uv_api_udp : list fproto := [
  proto "uv_udp_init" c_int [Tptr "uv_loop_t"; Tptr "uv_udp_t"];
  proto "uv_udp_init_ex" c_int [Tptr "uv_loop_t"; Tptr "uv_udp_t"; c_uint];
  proto "uv_udp_open" c_int [Tptr "uv_udp_t"; uv_os_sock_t];
  proto "uv_udp_bind" c_int [Tptr "uv_udp_t"; Tptr "const struct sockaddr"; c_uint];
  proto "uv_udp_connect" c_int [Tptr "uv_udp_t"; Tptr "const struct sockaddr"];
  proto "uv_udp_getpeername" c_int [Tptr "const uv_udp_t"; Tptr "struct sockaddr"; Tptr "int"];
  proto "uv_udp_getsockname" c_int [Tptr "const uv_udp_t"; Tptr "struct sockaddr"; Tptr "int"];
  proto "uv_udp_set_membership" c_int [Tptr "uv_udp_t"; Tptr "const char"; Tptr "const char";
    Tenum "uv_membership"];
  proto "uv_udp_set_source_membership" c_int [Tptr "uv_udp_t"; Tptr "const char"; Tptr "const char";
    Tptr "const char"; Tenum "uv_membership"];
  proto "uv_udp_set_multicast_loop" c_int [Tptr "uv_udp_t"; c_int];
  proto "uv_udp_set_multicast_ttl" c_int [Tptr "uv_udp_t"; c_int];
  proto "uv_udp_set_multicast_interface" c_int [Tptr "uv_udp_t"; Tptr "const char"];
  proto "uv_udp_set_broadcast" c_int [Tptr "uv_udp_t"; c_int];
  proto "uv_udp_set_ttl" c_int [Tptr "uv_udp_t"; c_int];
  proto "uv_udp_send" c_int [Tptr "uv_udp_send_t"; Tptr "uv_udp_t"; Tptr "const uv_buf_t"; c_uint;
    Tptr "const struct sockaddr"; Tptr "uv_udp_send_cb"];
  proto "uv_udp_try_send" c_int [Tptr "uv_udp_t"; Tptr "const uv_buf_t"; c_uint; Tptr "const struct sockaddr"];
  proto "uv_udp_recv_start" c_int [Tptr "uv_udp_t"; Tptr "uv_alloc_cb"; Tptr "uv_udp_recv_cb"];
  proto "uv_udp_using_recvmmsg" c_int [Tptr "const uv_udp_t"];
  proto "uv_udp_recv_stop" c_int [Tptr "uv_udp_t"];
  proto "uv_udp_get_send_queue_size" size_t [Tptr "const uv_udp_t"];
  proto "uv_udp_get_send_queue_count" size_t [Tptr "const uv_udp_t"]].

Definition uv_api_tty : list fproto := [
  proto "uv_tty_init" c_int [Tptr "uv_loop_t"; Tptr "uv_tty_t"; uv_file; c_int];
  proto "uv_tty_set_mode" c_int [Tptr "uv_tty_t"; Tenum "uv_tty_mode_t"];
  proto "uv_tty_reset_mode" c_int [];
  proto "uv_tty_get_winsize" c_int [Tptr "uv_tty_t"; Tptr "int"; Tptr "int"];
  proto "uv_tty_set_vterm_state" Tvoid [Tenum "uv_tty_vtermstate_t"];
  proto "uv_tty_get_vterm_state" c_int [Tptr "uv_tty_vtermstate_t"]].

Definition uv_api_guess : list fproto := [
  proto "uv_guess_handle" (Tenum "uv_handle_type") [uv_file]].

Definition uv_api_pipe : list fproto := [
  proto "uv_pipe_init" c_int [Tptr "uv_loop_t"; Tptr "uv_pipe_t"; c_int];
  proto "uv_pipe_open" c_int [Tptr "uv_pipe_t"; uv_file];
  proto "uv_pipe_bind" c_int [Tptr "uv_pipe_t"; Tptr "const char"];
  proto "uv_pipe_connect" Tvoid [Tptr "uv_connect_t"; Tptr "uv_pipe_t"; Tptr "const char";
    Tptr "uv_connect_cb"];
  proto "uv_pipe_getsockname" c_int [Tptr "const uv_pipe_t"; Tptr "char"; Tptr "size_t"];
  proto "uv_pipe_getpeername" c_int [Tptr "const uv_pipe_t"; Tptr "char"; Tptr "size_t"];
  proto "uv_pipe_pending_instances" Tvoid [Tptr "uv_pipe_t"; c_int];
  proto "uv_pipe_pending_count" c_int [Tptr "uv_pipe_t"];
  proto "uv_pipe_pending_type" (Tenum "uv_handle_type") [Tptr "uv_pipe_t"];
  proto "uv_pipe_chmod" c_int [Tptr "uv_pipe_t"; c_int]].

Definition uv_api_poll : list fproto := [
  proto "uv_poll_init" c_int [Tptr "uv_loop_t"; Tptr "uv_poll_t"; c_int];
  proto "uv_poll_init_socket" c_int [Tptr "uv_loop_t"; Tptr "uv_poll_t"; uv_os_sock_t];
  proto "uv_poll_start" c_int [Tptr "uv_poll_t"; c_int; Tptr "uv_poll_cb"];
  proto "uv_poll_stop" c_int [Tptr "uv_poll_t"]].

Definition uv_api_prepare : list fproto := [
  proto "uv_prepare_init" c_int [Tptr "uv_loop_t"; Tptr "uv_prepare_t"];
  proto "uv_prepare_start" c_int [Tptr "uv_prepare_t"; Tptr "uv_prepare_cb"];
  proto "uv_prepare_stop" c_int [Tptr "uv_prepare_t"]].

Definition uv_api_check : list fproto := [
  proto "uv_check_init" c_int [Tptr "uv_loop_t"; Tptr "uv_check_t"];
  proto "uv_check_start" c_int [Tptr "uv_check_t"; Tptr "uv_check_cb"];
  proto "uv_check_stop" c_int [Tptr "uv_check_t"]].

Definition uv_api_idle : list fproto := [
  proto "uv_idle_init" c_int [Tptr "uv_loop_t"; Tptr "uv_idle_t"];
  proto "uv_idle_start" c_int [Tptr "uv_idle_t"; Tptr "uv_idle_cb"];
  proto "uv_idle_stop" c_int [Tptr "uv_idle_t"]].

Definition uv_api_async : list fproto := [
  proto "uv_async_init" c_int [Tptr "uv_loop_t"; Tptr "uv_async_t"; Tptr "uv_async_cb"];
  proto "uv_async_send" c_int [Tptr "uv_async_t"]].

Definition uv_api_timer : list fproto := [
  proto "uv_timer_init" c_int [Tptr "uv_loop_t"; Tptr "uv_timer_t"];
  proto "uv_timer_start" c_int [Tptr "uv_timer_t"; Tptr "uv_timer_cb"; uint64_t; uint64_t];
  proto "uv_timer_stop" c_int [Tptr "uv_timer_t"];
  proto "uv_timer_again" c_int [Tptr "uv_timer_t"];
  proto "uv_timer_set_repeat" Tvoid [Tptr "uv_timer_t"; uint64_t];
  proto "uv_timer_get_repeat" uint64_t [Tptr "const uv_timer_t"];
  proto "uv_timer_get_due_in" uint64_t [Tptr "const uv_timer_t"]].

Definition uv_api_getaddrinfo : list fproto := [
  proto "uv_getaddrinfo" c_int [Tptr "uv_loop_t"; Tptr "uv_getaddrinfo_t"; Tptr "uv_getaddrinfo_cb";
    Tptr "const char"; Tptr "const char"; Tptr "const struct addrinfo"];
  proto "uv_freeaddrinfo" Tvoid [Tptr "struct addrinfo"]].

Definition uv_api_getnameinfo : list fproto := [
  proto "uv_getnameinfo" c_int [Tptr "uv_loop_t"; Tptr "uv_getnameinfo_t"; Tptr "uv_getnameinfo_cb";
    Tptr "const struct sockaddr"; c_int]].

Definition uv_api_process : list fproto := [
  proto "uv_spawn" c_int [Tptr "uv_loop_t"; Tptr "uv_process_t"; Tptr "const uv_process_options_t"];
  proto "uv_process_kill" c_int [Tptr "uv_process_t"; c_int];
  proto "uv_kill" c_int [c_int; c_int];
  proto "uv_process_get_pid" uv_pid_t [Tptr "const uv_process_t"]].

Definition uv_api_work : list fproto := [
  proto "uv_queue_work" c_int [Tptr "uv_loop_t"; Tptr "uv_work_t"; Tptr "uv_work_cb"; Tptr "uv_after_work_cb"];
  proto "uv_cancel" c_int [Tptr "uv_req_t"]].

Definition uv_api_title : list fproto := [
  proto "uv_setup_args" (Tptr "char *") [c_int; Tptr "char *"];
  proto "uv_get_process_title" c_int [Tptr "char"; size_t];
  proto "uv_set_process_title" c_int [Tptr "const char"];
  proto "uv_resident_set_memory" c_int [Tptr "size_t"];
  proto "uv_uptime" c_int [Tptr "double"];
  proto "uv_get_osfhandle" uv_os_fd_t [c_int];
  proto "uv_open_osfhandle" c_int [uv_os_fd_t]].

Definition uv_api_os : list fproto := [
  proto "uv_getrusage" c_int [Tptr "uv_rusage_t"];
  proto "uv_os_homedir" c_int [Tptr "char"; Tptr "size_t"];
  proto "uv_os_tmpdir" c_int [Tptr "char"; Tptr "size_t"];
  proto "uv_os_get_passwd" c_int [Tptr "uv_passwd_t"];
  proto "uv_os_free_passwd" Tvoid [Tptr "uv_passwd_t"];
  proto "uv_os_getpid" uv_pid_t [];
  proto "uv_os_getppid" uv_pid_t []].

Definition uv_api_priority : list fproto := [
  proto "uv_os_getpriority" c_int [uv_pid_t; Tptr "int"];
  proto "uv_os_setpriority" c_int [uv_pid_t; c_int];
  proto "uv_cpu_info" c_int [Tptr "uv_cpu_info_t *"; Tptr "int"];
  proto "uv_free_cpu_info" Tvoid [Tptr "uv_cpu_info_t"; c_int];
  proto "uv_interface_addresses" c_int [Tptr "uv_interface_address_t *"; Tptr "int"];
  proto "uv_free_interface_addresses" Tvoid [Tptr "uv_interface_address_t"; c_int]].

Definition uv_api_environ : list fproto := [
  proto "uv_os_environ" c_int [Tptr "uv_env_item_t *"; Tptr "int"];
  proto "uv_os_free_environ" Tvoid [Tptr "uv_env_item_t"; c_int];
  proto "uv_os_getenv" c_int [Tptr "const char"; Tptr "char"; Tptr "size_t"];
  proto "uv_os_setenv" c_int [Tptr "const char"; Tptr "const char"];
  proto "uv_os_unsetenv" c_int [Tptr "const char"]].

Definition uv_api_hostname : list fproto := [
  proto "uv_os_gethostname" c_int [Tptr "char"; Tptr "size_t"];
  proto "uv_os_uname" c_int [Tptr "uv_utsname_t"];
  proto "uv_metrics_idle_time" uint64_t [Tptr "uv_loop_t"]].

Definition uv_api_fs1 : list fproto := [
  proto "uv_fs_get_type" (Tenum "uv_fs_type") [Tptr "const uv_fs_t"];
  proto "uv_fs_get_result" ssize_t [Tptr "const uv_fs_t"];
  proto "uv_fs_get_system_error" c_int [Tptr "const uv_fs_t"];
  proto "uv_fs_get_ptr" (Tptr "void") [Tptr "const uv_fs_t"];
  proto "uv_fs_get_path" (Tptr "const char") [Tptr "const uv_fs_t"];
  proto "uv_fs_get_statbuf" (Tptr "uv_stat_t") [Tptr "uv_fs_t"];
  proto "uv_fs_req_cleanup" Tvoid [Tptr "uv_fs_t"];
  proto "uv_fs_close" c_int [Tptr "uv_loop_t"; Tptr "uv_fs_t"; uv_file; Tptr "uv_fs_cb"];
  proto "uv_fs_open" c_int [Tptr "uv_loop_t"; Tptr "uv_fs_t"; Tptr "const char"; c_int; c_int;
    Tptr "uv_fs_cb"];
  proto "uv_fs_read" c_int [Tptr "uv_loop_t"; Tptr "uv_fs_t"; uv_file; Tptr "const uv_buf_t"; c_uint;
    int64_t; Tptr "uv_fs_cb"];
  proto "uv_fs_unlink" c_int [Tptr "uv_loop_t"; Tptr "uv_fs_t"; Tptr "const char"; Tptr "uv_fs_cb"];
  proto "uv_fs_write" c_int [Tptr "uv_loop_t"; Tptr "uv_fs_t"; uv_file; Tptr "const uv_buf_t"; c_uint;
    int64_t; Tptr "uv_fs_cb"]].

Definition uv_api_fs2 : list fproto := [
  proto "uv_fs_copyfile" c_int [Tptr "uv_loop_t"; Tptr "uv_fs_t"; Tptr "const char"; Tptr "const char";
    c_int; Tptr "uv_fs_cb"];
  proto "uv_fs_mkdir" c_int [Tptr "uv_loop_t"; Tptr "uv_fs_t"; Tptr "const char"; c_int; Tptr "uv_fs_cb"];
  proto "uv_fs_mkdtemp" c_int [Tptr "uv_loop_t"; Tptr "uv_fs_t"; Tptr "const char"; Tptr "uv_fs_cb"];
  proto "uv_fs_mkstemp" c_int [Tptr "uv_loop_t"; Tptr "uv_fs_t"; Tptr "const char"; Tptr "uv_fs_cb"];
  proto "uv_fs_rmdir" c_int [Tptr "uv_loop_t"; Tptr "uv_fs_t"; Tptr "const char"; Tptr "uv_fs_cb"];
  proto "uv_fs_scandir" c_int [Tptr "uv_loop_t"; Tptr "uv_fs_t"; Tptr "const char"; c_int; Tptr "uv_fs_cb"];
  proto "uv_fs_scandir_next" c_int [Tptr "uv_fs_t"; Tptr "uv_dirent_t"];
  proto "uv_fs_opendir" c_int [Tptr "uv_loop_t"; Tptr "uv_fs_t"; Tptr "const char"; Tptr "uv_fs_cb"];
  proto "uv_fs_readdir" c_int [Tptr "uv_loop_t"; Tptr "uv_fs_t"; Tptr "uv_dir_t"; Tptr "uv_fs_cb"];
  proto "uv_fs_closedir" c_int [Tptr "uv_loop_t"; Tptr "uv_fs_t"; Tptr "uv_dir_t"; Tptr "uv_fs_cb"];
  proto "uv_fs_stat" c_int [Tptr "uv_loop_t"; Tptr "uv_fs_t"; Tptr "const char"; Tptr "uv_fs_cb"];
  proto "uv_fs_fstat" c_int [Tptr "uv_loop_t"; Tptr "uv_fs_t"; uv_file; Tptr "uv_fs_cb"];
  proto "uv_fs_rename" c_int [Tptr "uv_loop_t"; Tptr "uv_fs_t"; Tptr "const char"; Tptr "const char";
    Tptr "uv_fs_cb"];
  proto "uv_fs_fsync" c_int [Tptr "uv_loop_t"; Tptr "uv_fs_t"; uv_file; Tptr "uv_fs_cb"];
  proto "uv_fs_fdatasync" c_int [Tptr "uv_loop_t"; Tptr "uv_fs_t"; uv_file; Tptr "uv_fs_cb"];
  proto "uv_fs_ftruncate" c_int [Tptr "uv_loop_t"; Tptr "uv_fs_t"; uv_file; int64_t; Tptr "uv_fs_cb"];
  proto "uv_fs_sendfile" c_int [Tptr "uv_loop_t"; Tptr "uv_fs_t"; uv_file; uv_file; int64_t; size_t;
    Tptr "uv_fs_cb"];
  proto "uv_fs_access" c_int [Tptr "uv_loop_t"; Tptr "uv_fs_t"; Tptr "const char"; c_int; Tptr "uv_fs_cb"];
  proto "uv_fs_chmod" c_int [Tptr "uv_loop_t"; Tptr "uv_fs_t"; Tptr "const char"; c_int; Tptr "uv_fs_cb"];
  proto "uv_fs_utime" c_int [Tptr "uv_loop_t"; Tptr "uv_fs_t"; Tptr "const char"; c_double; c_double;
    Tptr "uv_fs_cb"];
  proto "uv_fs_futime" c_int [Tptr "uv_loop_t"; Tptr "uv_fs_t"; uv_file; c_double; c_double; Tptr "uv_fs_cb"];
  proto "uv_fs_lutime" c_int [Tptr "uv_loop_t"; Tptr "uv_fs_t"; Tptr "const char"; c_double; c_double;
    Tptr "uv_fs_cb"];
  proto "uv_fs_lstat" c_int [Tptr "uv_loop_t"; Tptr "uv_fs_t"; Tptr "const char"; Tptr "uv_fs_cb"];
  proto "uv_fs_link" c_int [Tptr "uv_loop_t"; Tptr "uv_fs_t"; Tptr "const char"; Tptr "const char";
    Tptr "uv_fs_cb"]].

Definition uv_api_fs3 : list fproto := [
  proto "uv_fs_symlink" c_int [Tptr "uv_loop_t"; Tptr "uv_fs_t"; Tptr "const char"; Tptr "const char"; c_int;
    Tptr "uv_fs_cb"];
  proto "uv_fs_readlink" c_int [Tptr "uv_loop_t"; Tptr "uv_fs_t"; Tptr "const char"; Tptr "uv_fs_cb"];
  proto "uv_fs_realpath" c_int [Tptr "uv_loop_t"; Tptr "uv_fs_t"; Tptr "const char"; Tptr "uv_fs_cb"];
  proto "uv_fs_fchmod" c_int [Tptr "uv_loop_t"; Tptr "uv_fs_t"; uv_file; c_int; Tptr "uv_fs_cb"];
  proto "uv_fs_chown" c_int [Tptr "uv_loop_t"; Tptr "uv_fs_t"; Tptr "const char"; uv_uid_t; uv_gid_t;
    Tptr "uv_fs_cb"];
  proto "uv_fs_fchown" c_int [Tptr "uv_loop_t"; Tptr "uv_fs_t"; uv_file; uv_uid_t; uv_gid_t; Tptr "uv_fs_cb"];
  proto "uv_fs_lchown" c_int [Tptr "uv_loop_t"; Tptr "uv_fs_t"; Tptr "const char"; uv_uid_t; uv_gid_t;
    Tptr "uv_fs_cb"];
  proto "uv_fs_statfs" c_int [Tptr "uv_loop_t"; Tptr "uv_fs_t"; Tptr "const char"; Tptr "uv_fs_cb"]].

Definition uv_api_fs_poll : list fproto := [
  proto "uv_fs_poll_init" c_int [Tptr "uv_loop_t"; Tptr "uv_fs_poll_t"];
  proto "uv_fs_poll_start" c_int [Tptr "uv_fs_poll_t"; Tptr "uv_fs_poll_cb"; Tptr "const char"; c_uint];
  proto "uv_fs_poll_stop" c_int [Tptr "uv_fs_poll_t"];
  proto "uv_fs_poll_getpath" c_int [Tptr "uv_fs_poll_t"; Tptr "char"; Tptr "size_t"]].

Definition uv_api_signal : list fproto := [
  proto "uv_signal_init" c_int [Tptr "uv_loop_t"; Tptr "uv_signal_t"];
  proto "uv_signal_start" c_int [Tptr "uv_signal_t"; Tptr "uv_signal_cb"; c_int];
  proto "uv_signal_start_oneshot" c_int [Tptr "uv_signal_t"; Tptr "uv_signal_cb"; c_int];
  proto "uv_signal_stop" c_int [Tptr "uv_signal_t"];
  proto "uv_loadavg" Tvoid [Tptr "double"]].

Definition uv_api_fs_event : list fproto := [
  proto "uv_fs_event_init" c_int [Tptr "uv_loop_t"; Tptr "uv_fs_event_t"];
  proto "uv_fs_event_start" c_int [Tptr "uv_fs_event_t"; Tptr "uv_fs_event_cb"; Tptr "const char"; c_uint];
  proto "uv_fs_event_stop" c_int [Tptr "uv_fs_event_t"];
  proto "uv_fs_event_getpath" c_int [Tptr "uv_fs_event_t"; Tptr "char"; Tptr "size_t"];
  proto "uv_ip4_addr" c_int [Tptr "const char"; c_int; Tptr "struct sockaddr_in"];
  proto "uv_ip6_addr" c_int [Tptr "const char"; c_int; Tptr "struct sockaddr_in6"];
  proto "uv_ip4_name" c_int [Tptr "const struct sockaddr_in"; Tptr "char"; size_t];
  proto "uv_ip6_name" c_int [Tptr "const struct sockaddr_in6"; Tptr "char"; size_t];
  proto "uv_ip_name" c_int [Tptr "const struct sockaddr"; Tptr "char"; size_t];
  proto "uv_inet_ntop" c_int [c_int; Tptr "const void"; Tptr "char"; size_t];
  proto "uv_inet_pton" c_int [c_int; Tptr "const char"; Tptr "void"]].

Definition uv_api_random : list fproto := [
  proto "uv_random" c_int [Tptr "uv_loop_t"; Tptr "uv_random_t"; Tptr "void"; size_t; c_uint;
    Tptr "uv_random_cb"]].

Definition uv_api_sync : list fproto := [
  proto "uv_if_indextoname" c_int [c_uint; Tptr "char"; Tptr "size_t"];
  proto "uv_if_indextoiid" c_int [c_uint; Tptr "char"; Tptr "size_t"];
  proto "uv_exepath" c_int [Tptr "char"; Tptr "size_t"];
  proto "uv_cwd" c_int [Tptr "char"; Tptr "size_t"];
  proto "uv_chdir" c_int [Tptr "const char"];
  proto "uv_get_free_memory" uint64_t [];
  proto "uv_get_total_memory" uint64_t [];
  proto "uv_get_constrained_memory" uint64_t [];
  proto "uv_hrtime" uint64_t [];
  proto "uv_sleep" Tvoid [c_uint];
  proto "uv_disable_stdio_inheritance" Tvoid [];
  proto "uv_dlopen" c_int [Tptr "const char"; Tptr "uv_lib_t"];
  proto "uv_dlclose" Tvoid [Tptr "uv_lib_t"];
  proto "uv_dlsym" c_int [Tptr "uv_lib_t"; Tptr "const char"; Tptr "void *"];
  proto "uv_dlerror" (Tptr "const char") [Tptr "const uv_lib_t"];
  proto "uv_mutex_init" c_int [Tptr "uv_mutex_t"];
  proto "uv_mutex_init_recursive" c_int [Tptr "uv_mutex_t"];
  proto "uv_mutex_destroy" Tvoid [Tptr "uv_mutex_t"];
  proto "uv_mutex_lock" Tvoid [Tptr "uv_mutex_t"];
  proto "uv_mutex_trylock" c_int [Tptr "uv_mutex_t"];
  proto "uv_mutex_unlock" Tvoid [Tptr "uv_mutex_t"];
  proto "uv_rwlock_init" c_int [Tptr "uv_rwlock_t"];
  proto "uv_rwlock_destroy" Tvoid [Tptr "uv_rwlock_t"];
  proto "uv_rwlock_rdlock" Tvoid [Tptr "uv_rwlock_t"];
  proto "uv_rwlock_tryrdlock" c_int [Tptr "uv_rwlock_t"];
  proto "uv_rwlock_rdunlock" Tvoid [Tptr "uv_rwlock_t"];
  proto "uv_rwlock_wrlock" Tvoid [Tptr "uv_rwlock_t"];
  proto "uv_rwlock_trywrlock" c_int [Tptr "uv_rwlock_t"];
  proto "uv_rwlock_wrunlock" Tvoid [Tptr "uv_rwlock_t"];
  proto "uv_sem_init" c_int [Tptr "uv_sem_t"; c_uint];
  proto "uv_sem_destroy" Tvoid [Tptr "uv_sem_t"];
  proto "uv_sem_post" Tvoid [Tptr "uv_sem_t"];
  proto "uv_sem_wait" Tvoid [Tptr "uv_sem_t"];
  proto "uv_sem_trywait" c_int [Tptr "uv_sem_t"];
  proto "uv_cond_init" c_int [Tptr "uv_cond_t"];
  proto "uv_cond_destroy" Tvoid [Tptr "uv_cond_t"];
  proto "uv_cond_signal" Tvoid [Tptr "uv_cond_t"];
  proto "uv_cond_broadcast" Tvoid [Tptr "uv_cond_t"];
  proto "uv_barrier_init" c_int [Tptr "uv_barrier_t"; c_uint];
  proto "uv_barrier_destroy" Tvoid [Tptr "uv_barrier_t"];
  proto "uv_barrier_wait" c_int [Tptr "uv_barrier_t"];
  proto "uv_cond_wait" Tvoid [Tptr "uv_cond_t"; Tptr "uv_mutex_t"];
  proto "uv_cond_timedwait" c_int [Tptr "uv_cond_t"; Tptr "uv_mutex_t"; uint64_t];
  proto "uv_once" Tvoid [Tptr "uv_once_t"; Tptr "void (void)"];
  proto "uv_key_create" c_int [Tptr "uv_key_t"];
  proto "uv_key_delete" Tvoid [Tptr "uv_key_t"];
  proto "uv_key_get" (Tptr "void") [Tptr "uv_key_t"];
  proto "uv_key_set" Tvoid [Tptr "uv_key_t"; Tptr "void"];
  proto "uv_gettimeofday" c_int [Tptr "uv_timeval64_t"]].

Definition uv_api_thread_create : list fproto := [
  proto "uv_thread_create" c_int [Tptr "uv_thread_t"; Tptr "uv_thread_cb"; Tptr "void"]].

Definition uv_api_thread : list fproto := [
  proto "uv_thread_create_ex" c_int [Tptr "uv_thread_t"; Tptr "const uv_thread_options_t";
    Tptr "uv_thread_cb"; Tptr "void"];
  proto "uv_thread_self" uv_thread_t [];
  proto "uv_thread_join" c_int [Tptr "uv_thread_t"];
  proto "uv_thread_equal" c_int [Tptr "const uv_thread_t"; Tptr "const uv_thread_t"]].

Definition uv_api_loop_data : list fproto := [
  proto "uv_loop_get_data" (Tptr "void") [Tptr "const uv_loop_t"];
  proto "uv_loop_set_data" Tvoid [Tptr "uv_loop_t"; Tptr "void"]].

Definition uv_cb_alloc : list fproto := [
  proto "uv_malloc_func" (Tptr "void") [size_t];
  proto "uv_realloc_func" (Tptr "void") [Tptr "void"; size_t];
  proto "uv_calloc_func" (Tptr "void") [size_t; size_t];
  proto "uv_free_func" Tvoid [Tptr "void"]].

Definition uv_cb_main : list fproto := [
  proto "uv_alloc_cb" Tvoid [Tptr "uv_handle_t"; size_t; Tptr "uv_buf_t"];
  proto "uv_read_cb" Tvoid [Tptr "uv_stream_t"; ssize_t; Tptr "const uv_buf_t"];
  proto "uv_write_cb" Tvoid [Tptr "uv_write_t"; c_int];
  proto "uv_connect_cb" Tvoid [Tptr "uv_connect_t"; c_int];
  proto "uv_shutdown_cb" Tvoid [Tptr "uv_shutdown_t"; c_int];
  proto "uv_connection_cb" Tvoid [Tptr "uv_stream_t"; c_int];
  proto "uv_close_cb" Tvoid [Tptr "uv_handle_t"];
  proto "uv_poll_cb" Tvoid [Tptr "uv_poll_t"; c_int; c_int];
  proto "uv_timer_cb" Tvoid [Tptr "uv_timer_t"];
  proto "uv_async_cb" Tvoid [Tptr "uv_async_t"];
  proto "uv_prepare_cb" Tvoid [Tptr "uv_prepare_t"];
  proto "uv_check_cb" Tvoid [Tptr "uv_check_t"];
  proto "uv_idle_cb" Tvoid [Tptr "uv_idle_t"];
  proto "uv_exit_cb" Tvoid [Tptr "uv_process_t"; int64_t; c_int];
  proto "uv_walk_cb" Tvoid [Tptr "uv_handle_t"; Tptr "void"];
  proto "uv_fs_cb" Tvoid [Tptr "uv_fs_t"];
  proto "uv_work_cb" Tvoid [Tptr "uv_work_t"];
  proto "uv_after_work_cb" Tvoid [Tptr "uv_work_t"; c_int];
  proto "uv_getaddrinfo_cb" Tvoid [Tptr "uv_getaddrinfo_t"; c_int; Tptr "struct addrinfo"];
  proto "uv_getnameinfo_cb" Tvoid [Tptr "uv_getnameinfo_t"; c_int; Tptr "const char"; Tptr "const char"];
  proto "uv_random_cb" Tvoid [Tptr "uv_random_t"; c_int; Tptr "void"; size_t]].

Definition uv_cb_fs_event : list fproto := [
  proto "uv_fs_event_cb" Tvoid [Tptr "uv_fs_event_t"; Tptr "const char"; c_int; c_int];
  proto "uv_fs_poll_cb" Tvoid [Tptr "uv_fs_poll_t"; c_int; Tptr "const uv_stat_t"; Tptr "const uv_stat_t"];
  proto "uv_signal_cb" Tvoid [Tptr "uv_signal_t"; c_int]].

Definition uv_cb_udp : list fproto := [
  proto "uv_udp_send_cb" Tvoid [Tptr "uv_udp_send_t"; c_int];
  proto "uv_udp_recv_cb" Tvoid [Tptr "uv_udp_t"; ssize_t; Tptr "const uv_buf_t";
    Tptr "const struct sockaddr"; c_uint]].

Definition uv_cb_thread : list fproto := [
  proto "uv_thread_cb" Tvoid [Tptr "void"]].

Definition uv_api : list fproto :=
  uv_api_version ++ uv_api_loop ++ uv_api_err ++ uv_api_shutdown ++ uv_api_handle ++ uv_api_stream
  ++ uv_api_stream_state ++ uv_api_tcp_init ++ uv_api_tcp ++ uv_api_udp ++ uv_api_tty ++
  uv_api_guess ++ uv_api_pipe ++ uv_api_poll ++ uv_api_prepare ++ uv_api_check ++ uv_api_idle ++
  uv_api_async ++ uv_api_timer ++ uv_api_getaddrinfo ++ uv_api_getnameinfo ++ uv_api_process ++
  uv_api_work ++ uv_api_title ++ uv_api_os ++ uv_api_priority ++ uv_api_environ ++ uv_api_hostname
  ++ uv_api_fs1 ++ uv_api_fs2 ++ uv_api_fs3 ++ uv_api_fs_poll ++ uv_api_signal ++ uv_api_fs_event ++
  uv_api_random ++ uv_api_sync ++ uv_api_thread_create ++ uv_api_thread ++ uv_api_loop_data.
Definition uv_callbacks : list fproto :=
  uv_cb_alloc ++ uv_cb_main ++ uv_cb_fs_event ++ uv_cb_udp ++ uv_cb_thread.
