(* ===== verification/GcApi.v ===== *)
(** * The functions of gc.h and uvutil.h

    The prototypes of libuv_helper/gc/gc.h in the order of the header (the
    declarations of a GCC build for Linux with threads: the functions for
    Windows and Amiga, and the ones that need GC_REQUIRE_WCSDUP, are left
    out), its callback types, structures and enumerations, the allocation
    macros in their plain and their debugging form, the thread functions of
    gc_pthread_redirects.h, and the prototypes of libuv_helper/uvutil.h. *)
From S2P Require Import Prelude CLayout UvTypes UvEnums.

(** Words of a platform other than 64-bit Windows. *)
Definition GC_word := c_ulong.
Definition GC_signed_word := c_long.

Definition GC_EventType : list (string * Z) := enum [
  ("GC_EVENT_START", None); ("GC_EVENT_MARK_START", None);
  ("GC_EVENT_MARK_END", None); ("GC_EVENT_RECLAIM_START", None);
  ("GC_EVENT_RECLAIM_END", None); ("GC_EVENT_END", None);
  ("GC_EVENT_PRE_STOP_WORLD", None); ("GC_EVENT_POST_STOP_WORLD", None);
  ("GC_EVENT_PRE_START_WORLD", None); ("GC_EVENT_POST_START_WORLD", None);
  ("GC_EVENT_THREAD_SUSPENDED", None); ("GC_EVENT_THREAD_UNSUSPENDED", None)].
Definition GC_ToggleRefStatus : list (string * Z) := enum [
  ("GC_TOGGLE_REF_DROP", None); ("GC_TOGGLE_REF_STRONG", None);
  ("GC_TOGGLE_REF_WEAK", None)].

Definition GC_timeval_s : ctype := Tstruct "GC_timeval_s" [
  ("tv_ms", c_ulong); ("tv_nsec", c_ulong)].
Definition GC_prof_stats_s : ctype := Tstruct "GC_prof_stats_s" [
  ("heapsize_full", GC_word); ("free_bytes_full", GC_word); ("unmapped_bytes", GC_word);
  ("bytes_allocd_since_gc", GC_word); ("allocd_bytes_before_gc", GC_word);
  ("non_gc_bytes", GC_word); ("gc_no", GC_word); ("markers_m1", GC_word);
  ("bytes_reclaimed_since_gc", GC_word); ("reclaimed_bytes_before_gc", GC_word);
  ("expl_freed_bytes_since_gc", GC_word); ("obtained_from_os_bytes", GC_word)].
(** [ia64]: the processors with a register stack. *)
Definition GC_stack_base (ia64 : bool) : ctype := Tstruct "GC_stack_base" (
  [("mem_base", Tptr "void")] ++ (if ia64 then [("reg_base", Tptr "void")] else [])).

(** The parameters that say where a debugging allocation was made; the
    return address only where GC_ADD_CALLER is defined. *)
Definition GC_EXTRA_PARAMS (add_caller : bool) : list ctype :=
  (if add_caller then [GC_word] else []) ++ [Tptr "const char"; c_int].

Definition gc_api_config : list fproto := [
  proto "GC_get_version" c_uint [];
  proto "GC_get_gc_no" GC_word [];
  proto "GC_get_parallel" c_int [];
  proto "GC_set_markers_count" Tvoid [c_uint];
  proto "GC_set_oom_fn" Tvoid [Tptr "GC_oom_func"];
  proto "GC_get_oom_fn" (Tptr "GC_oom_func") [];
  proto "GC_set_on_heap_resize" Tvoid [Tptr "GC_on_heap_resize_proc"];
  proto "GC_get_on_heap_resize" (Tptr "GC_on_heap_resize_proc") [];
  proto "GC_set_on_collection_event" Tvoid [Tptr "GC_on_collection_event_proc"];
  proto "GC_get_on_collection_event" (Tptr "GC_on_collection_event_proc") [];
  proto "GC_set_on_thread_event" Tvoid [Tptr "GC_on_thread_event_proc"];
  proto "GC_get_on_thread_event" (Tptr "GC_on_thread_event_proc") [];
  proto "GC_set_find_leak" Tvoid [c_int];
  proto "GC_get_find_leak" c_int [];
  proto "GC_set_all_interior_pointers" Tvoid [c_int];
  proto "GC_get_all_interior_pointers" c_int [];
  proto "GC_set_finalize_on_demand" Tvoid [c_int];
  proto "GC_get_finalize_on_demand" c_int []].

Definition gc_api_heap_config : list fproto := [
  proto "GC_set_java_finalization" Tvoid [c_int];
  proto "GC_get_java_finalization" c_int [];
  proto "GC_set_finalizer_notifier" Tvoid [Tptr "GC_finalizer_notifier_proc"];
  proto "GC_get_finalizer_notifier" (Tptr "GC_finalizer_notifier_proc") [];
  proto "GC_set_dont_expand" Tvoid [c_int];
  proto "GC_get_dont_expand" c_int [];
  proto "GC_set_full_freq" Tvoid [c_int];
  proto "GC_get_full_freq" c_int [];
  proto "GC_set_non_gc_bytes" Tvoid [GC_word];
  proto "GC_get_non_gc_bytes" GC_word [];
  proto "GC_set_no_dls" Tvoid [c_int];
  proto "GC_get_no_dls" c_int [];
  proto "GC_set_free_space_divisor" Tvoid [GC_word];
  proto "GC_get_free_space_divisor" GC_word [];
  proto "GC_set_max_retries" Tvoid [GC_word];
  proto "GC_get_max_retries" GC_word []].

Definition gc_api_tuning : list fproto := [
  proto "GC_set_dont_precollect" Tvoid [c_int];
  proto "GC_get_dont_precollect" c_int [];
  proto "GC_set_time_limit" Tvoid [c_ulong];
  proto "GC_get_time_limit" c_ulong [];
  proto "GC_set_time_limit_tv" Tvoid [GC_timeval_s];
  proto "GC_get_time_limit_tv" GC_timeval_s [];
  proto "GC_set_allocd_bytes_per_finalizer" Tvoid [GC_word];
  proto "GC_get_allocd_bytes_per_finalizer" GC_word [];
  proto "GC_start_performance_measurement" Tvoid [];
  proto "GC_get_full_gc_total_time" c_ulong [];
  proto "GC_set_pages_executable" Tvoid [c_int];
  proto "GC_get_pages_executable" c_int [];
  proto "GC_set_min_bytes_allocd" Tvoid [size_t];
  proto "GC_get_min_bytes_allocd" size_t [];
  proto "GC_set_rate" Tvoid [c_int];
  proto "GC_get_rate" c_int [];
  proto "GC_set_max_prior_attempts" Tvoid [c_int];
  proto "GC_get_max_prior_attempts" c_int [];
  proto "GC_set_disable_automatic_collection" Tvoid [c_int];
  proto "GC_get_disable_automatic_collection" c_int []].

Definition gc_api_alloc : list fproto := [
  proto "GC_set_handle_fork" Tvoid [c_int];
  proto "GC_atfork_prepare" Tvoid [];
  proto "GC_atfork_parent" Tvoid [];
  proto "GC_atfork_child" Tvoid [];
  proto "GC_init" Tvoid [];
  proto "GC_is_init_called" c_int [];
  proto "GC_deinit" Tvoid [];
  proto "GC_malloc" (Tptr "void") [size_t];
  proto "GC_malloc_atomic" (Tptr "void") [size_t];
  proto "GC_strdup" (Tptr "char") [Tptr "const char"];
  proto "GC_strndup" (Tptr "char") [Tptr "const char"; size_t];
  proto "GC_malloc_uncollectable" (Tptr "void") [size_t];
  proto "GC_malloc_stubborn" (Tptr "void") [size_t];
  proto "GC_memalign" (Tptr "void") [size_t; size_t];
  proto "GC_posix_memalign" c_int [Tptr "void *"; size_t; size_t];
  proto "GC_free" Tvoid [Tptr "void"];
  proto "GC_change_stubborn" Tvoid [Tptr "const void"];
  proto "GC_end_stubborn_change" Tvoid [Tptr "const void"];
  proto "GC_base" (Tptr "void") [Tptr "void"];
  proto "GC_is_heap_ptr" c_int [Tptr "const void"];
  proto "GC_size" size_t [Tptr "const void"];
  proto "GC_realloc" (Tptr "void") [Tptr "void"; size_t];
  proto "GC_expand_hp" c_int [size_t];
  proto "GC_set_max_heap_size" Tvoid [GC_word]].

Definition gc_api_roots : list fproto := [
  proto "GC_exclude_static_roots" Tvoid [Tptr "void"; Tptr "void"];
  proto "GC_clear_exclusion_table" Tvoid [];
  proto "GC_clear_roots" Tvoid [];
  proto "GC_add_roots" Tvoid [Tptr "void"; Tptr "void"];
  proto "GC_remove_roots" Tvoid [Tptr "void"; Tptr "void"];
  proto "GC_register_displacement" Tvoid [size_t];
  proto "GC_debug_register_displacement" Tvoid [size_t];
  proto "GC_gcollect" Tvoid [];
  proto "GC_gcollect_and_unmap" Tvoid [];
  proto "GC_try_to_collect" c_int [Tptr "GC_stop_func"];
  proto "GC_set_stop_func" Tvoid [Tptr "GC_stop_func"];
  proto "GC_get_stop_func" (Tptr "GC_stop_func") [];
  proto "GC_get_heap_size" size_t [];
  proto "GC_get_free_bytes" size_t [];
  proto "GC_get_unmapped_bytes" size_t [];
  proto "GC_get_bytes_since_gc" size_t [];
  proto "GC_get_expl_freed_bytes_since_gc" size_t [];
  proto "GC_get_total_bytes" size_t [];
  proto "GC_get_obtained_from_os_bytes" size_t [];
  proto "GC_get_heap_usage_safe" Tvoid [Tptr "GC_word"; Tptr "GC_word"; Tptr "GC_word"; Tptr "GC_word";
    Tptr "GC_word"]].

Definition gc_api_stats : list fproto := [
  proto "GC_get_prof_stats" size_t [Tptr "struct GC_prof_stats_s"; size_t];
  proto "GC_get_prof_stats_unsafe" size_t [Tptr "struct GC_prof_stats_s"; size_t];
  proto "GC_get_size_map_at" size_t [c_int];
  proto "GC_get_memory_use" size_t [];
  proto "GC_disable" Tvoid [];
  proto "GC_is_disabled" c_int [];
  proto "GC_enable" Tvoid [];
  proto "GC_set_manual_vdb_allowed" Tvoid [c_int];
  proto "GC_get_manual_vdb_allowed" c_int [];
  proto "GC_enable_incremental" Tvoid [];
  proto "GC_is_incremental_mode" c_int [];
  proto "GC_incremental_protection_needs" c_int [];
  proto "GC_start_incremental_collection" Tvoid [];
  proto "GC_collect_a_little" c_int []].

Definition gc_api_debug (add_caller : bool) : list fproto := [
  proto "GC_malloc_ignore_off_page" (Tptr "void") [size_t];
  proto "GC_malloc_atomic_ignore_off_page" (Tptr "void") [size_t];
  proto "GC_malloc_atomic_uncollectable" (Tptr "void") [size_t];
  proto "GC_debug_malloc_atomic_uncollectable" (Tptr "void") ([size_t] ++ GC_EXTRA_PARAMS add_caller);
  proto "GC_debug_malloc" (Tptr "void") ([size_t] ++ GC_EXTRA_PARAMS add_caller);
  proto "GC_debug_malloc_atomic" (Tptr "void") ([size_t] ++ GC_EXTRA_PARAMS add_caller);
  proto "GC_debug_strdup" (Tptr "char") ([Tptr "const char"] ++ GC_EXTRA_PARAMS add_caller);
  proto "GC_debug_strndup" (Tptr "char") ([Tptr "const char"; size_t] ++ GC_EXTRA_PARAMS add_caller);
  proto "GC_debug_malloc_uncollectable" (Tptr "void") ([size_t] ++ GC_EXTRA_PARAMS add_caller);
  proto "GC_debug_malloc_stubborn" (Tptr "void") ([size_t] ++ GC_EXTRA_PARAMS add_caller);
  proto "GC_debug_malloc_ignore_off_page" (Tptr "void") ([size_t] ++ GC_EXTRA_PARAMS add_caller);
  proto "GC_debug_malloc_atomic_ignore_off_page" (Tptr "void") ([size_t] ++ GC_EXTRA_PARAMS add_caller);
  proto "GC_debug_free" Tvoid [Tptr "void"];
  proto "GC_debug_realloc" (Tptr "void") ([Tptr "void"; size_t] ++ GC_EXTRA_PARAMS add_caller);
  proto "GC_debug_change_stubborn" Tvoid [Tptr "const void"];
  proto "GC_debug_end_stubborn_change" Tvoid [Tptr "const void"];
  proto "GC_debug_malloc_replacement" (Tptr "void") [size_t];
  proto "GC_debug_realloc_replacement" (Tptr "void") [Tptr "void"; size_t]].

Definition gc_api_finalizer : list fproto := [
  proto "GC_register_finalizer" Tvoid [Tptr "void"; Tptr "GC_finalization_proc"; Tptr "void";
    Tptr "GC_finalization_proc *"; Tptr "void *"];
  proto "GC_debug_register_finalizer" Tvoid [Tptr "void"; Tptr "GC_finalization_proc"; Tptr "void";
    Tptr "GC_finalization_proc *"; Tptr "void *"];
  proto "GC_register_finalizer_ignore_self" Tvoid [Tptr "void"; Tptr "GC_finalization_proc"; Tptr "void";
    Tptr "GC_finalization_proc *"; Tptr "void *"];
  proto "GC_debug_register_finalizer_ignore_self" Tvoid [Tptr "void"; Tptr "GC_finalization_proc";
    Tptr "void"; Tptr "GC_finalization_proc *"; Tptr "void *"];
  proto "GC_register_finalizer_no_order" Tvoid [Tptr "void"; Tptr "GC_finalization_proc"; Tptr "void";
    Tptr "GC_finalization_proc *"; Tptr "void *"];
  proto "GC_debug_register_finalizer_no_order" Tvoid [Tptr "void"; Tptr "GC_finalization_proc"; Tptr "void";
    Tptr "GC_finalization_proc *"; Tptr "void *"];
  proto "GC_register_finalizer_unreachable" Tvoid [Tptr "void"; Tptr "GC_finalization_proc"; Tptr "void";
    Tptr "GC_finalization_proc *"; Tptr "void *"];
  proto "GC_debug_register_finalizer_unreachable" Tvoid [Tptr "void"; Tptr "GC_finalization_proc";
    Tptr "void"; Tptr "GC_finalization_proc *"; Tptr "void *"]].

Definition gc_api_links : list fproto := [
  proto "GC_register_disappearing_link" c_int [Tptr "void *"];
  proto "GC_general_register_disappearing_link" c_int [Tptr "void *"; Tptr "const void"];
  proto "GC_move_disappearing_link" c_int [Tptr "void *"; Tptr "void *"];
  proto "GC_unregister_disappearing_link" c_int [Tptr "void *"];
  proto "GC_register_long_link" c_int [Tptr "void *"; Tptr "const void"];
  proto "GC_move_long_link" c_int [Tptr "void *"; Tptr "void *"];
  proto "GC_unregister_long_link" c_int [Tptr "void *"];
  proto "GC_set_toggleref_func" Tvoid [Tptr "GC_toggleref_func"];
  proto "GC_get_toggleref_func" (Tptr "GC_toggleref_func") [];
  proto "GC_toggleref_add" c_int [Tptr "void"; c_int];
  proto "GC_set_await_finalize_proc" Tvoid [Tptr "GC_await_finalize_proc"];
  proto "GC_get_await_finalize_proc" (Tptr "GC_await_finalize_proc") []].

Definition gc_api_invoke : list fproto := [
  proto "GC_should_invoke_finalizers" c_int [];
  proto "GC_invoke_finalizers" c_int [];
  proto "GC_set_warn_proc" Tvoid [Tptr "GC_warn_proc"];
  proto "GC_get_warn_proc" (Tptr "GC_warn_proc") [];
  proto "GC_ignore_warn_proc" Tvoid [Tptr "char"; GC_word];
  proto "GC_set_log_fd" Tvoid [c_int];
  proto "GC_set_abort_func" Tvoid [Tptr "GC_abort_func"];
  proto "GC_get_abort_func" (Tptr "GC_abort_func") [];
  proto "GC_abort_on_oom" Tvoid [];
  proto "GC_alloc_lock" Tvoid [];
  proto "GC_alloc_unlock" Tvoid [];
  proto "GC_call_with_alloc_lock" (Tptr "void") [Tptr "GC_fn_type"; Tptr "void"];
  proto "GC_call_with_stack_base" (Tptr "void") [Tptr "GC_stack_base_func"; Tptr "void"]].

Definition gc_api_threads : list fproto := [
  proto "GC_use_threads_discovery" Tvoid [];
  proto "GC_set_suspend_signal" Tvoid [c_int];
  proto "GC_set_thr_restart_signal" Tvoid [c_int];
  proto "GC_get_suspend_signal" c_int [];
  proto "GC_get_thr_restart_signal" c_int [];
  proto "GC_start_mark_threads" Tvoid [];
  proto "GC_allow_register_threads" Tvoid [];
  proto "GC_register_my_thread" c_int [Tptr "const struct GC_stack_base"];
  proto "GC_thread_is_registered" c_int [];
  proto "GC_register_altstack" Tvoid [Tptr "void"; GC_word; Tptr "void"; GC_word];
  proto "GC_unregister_my_thread" c_int [];
  proto "GC_stop_world_external" Tvoid [];
  proto "GC_start_world_external" Tvoid [];
  proto "GC_do_blocking" (Tptr "void") [Tptr "GC_fn_type"; Tptr "void"];
  proto "GC_call_with_gc_active" (Tptr "void") [Tptr "GC_fn_type"; Tptr "void"];
  proto "GC_get_stack_base" c_int [Tptr "struct GC_stack_base"];
  proto "GC_get_my_stackbottom" (Tptr "void") [Tptr "struct GC_stack_base"];
  proto "GC_set_stackbottom" Tvoid [Tptr "void"; Tptr "const struct GC_stack_base"]].

Definition gc_api_pointers : list fproto := [
  proto "GC_same_obj" (Tptr "void") [Tptr "void"; Tptr "void"];
  proto "GC_pre_incr" (Tptr "void") [Tptr "void *"; c_long];
  proto "GC_post_incr" (Tptr "void") [Tptr "void *"; c_long];
  proto "GC_is_visible" (Tptr "void") [Tptr "void"];
  proto "GC_is_valid_displacement" (Tptr "void") [Tptr "void"];
  proto "GC_dump" Tvoid [];
  proto "GC_dump_named" Tvoid [Tptr "const char"];
  proto "GC_dump_regions" Tvoid [];
  proto "GC_dump_finalization" Tvoid [];
  proto "GC_ptr_store_and_dirty" Tvoid [Tptr "void"; Tptr "const void"];
  proto "GC_debug_ptr_store_and_dirty" Tvoid [Tptr "void"; Tptr "const void"];
  proto "GC_malloc_many" (Tptr "void") [size_t];
  proto "GC_register_has_static_roots_callback" Tvoid [Tptr "GC_has_static_roots_func"]].

Definition gc_cb_config : list fproto := [
  proto "GC_oom_func" (Tptr "void") [size_t];
  proto "GC_on_heap_resize_proc" Tvoid [GC_word];
  proto "GC_on_collection_event_proc" Tvoid [Tenum "GC_EventType"];
  proto "GC_on_thread_event_proc" Tvoid [Tenum "GC_EventType"; Tptr "void"]].
Definition gc_cb_notifier : list fproto := [
  proto "GC_finalizer_notifier_proc" Tvoid []].
Definition gc_cb_stop : list fproto := [
  proto "GC_stop_func" c_int []].
Definition gc_cb_finalization : list fproto := [
  proto "GC_finalization_proc" Tvoid [Tptr "void"; Tptr "void"]].
Definition gc_cb_toggleref : list fproto := [
  proto "GC_toggleref_func" (Tenum "GC_ToggleRefStatus") [Tptr "void"];
  proto "GC_await_finalize_proc" Tvoid [Tptr "void"]].
Definition gc_cb_warn : list fproto := [
  proto "GC_warn_proc" Tvoid [Tptr "char"; GC_word];
  proto "GC_abort_func" Tvoid [Tptr "const char"]].
Definition gc_cb_fn : list fproto := [
  proto "GC_fn_type" (Tptr "void") [Tptr "void"];
  proto "GC_stack_base_func" (Tptr "void") [Tptr "struct GC_stack_base"; Tptr "void"]].
Definition gc_cb_roots : list fproto := [
  proto "GC_has_static_roots_func" c_int [Tptr "const char"; Tptr "void"; size_t]].
Definition gc_callbacks : list fproto :=
  gc_cb_config ++ gc_cb_notifier ++ gc_cb_stop ++ gc_cb_finalization ++ gc_cb_toggleref ++ gc_cb_warn ++ gc_cb_fn ++ gc_cb_roots.

Definition uvutil_api : list fproto := [
  proto "new_timer2" (Tptr "uv_timer_t") [];
  proto "new_tcp" (Tptr "uv_tcp_t") [];
  proto "new_addr" (Tptr "struct sockaddr_in") [];
  proto "new_idle" (Tptr "uv_idle_t") [];
  proto "new_write" (Tptr "uv_write_t") [];
  proto "new_async" (Tptr "uv_async_t") [];
  proto "new_conn" (Tptr "uv_connect_t") [];
  proto "get_conn_stream" (Tptr "uv_stream_t") [Tptr "uv_connect_t"];
  proto "get_tcp_data" (Tptr "void") [Tptr "uv_tcp_t"];
  proto "set_tcp_data" Tvoid [Tptr "uv_tcp_t"; Tptr "void"];
  proto "GC_calloc" (Tptr "void") [size_t; size_t];
  proto "replace_allocator" Tvoid [];
  proto "new_pthread_cond_t" (Tptr "pthread_cond_t") [];
  proto "new_pthread_mutex_t" (Tptr "pthread_mutex_t") [];
  proto "print_uv_err" Tvoid [c_int];
  proto "new_buf_t" (Tptr "uv_buf_t") [];
  proto "get_buf_data" (Tptr "char") [Tptr "uv_buf_t"];
  proto "get_buf_len" c_ulong [Tptr "uv_buf_t"];
  proto "set_buf_data" Tvoid [Tptr "uv_buf_t"; Tptr "char"];
  proto "set_buf_len" Tvoid [Tptr "uv_buf_t"; c_ulong];
  proto "get_available_parallelism" c_int []].

Definition gc_api (add_caller : bool) : list fproto :=
  gc_api_config ++ gc_api_heap_config ++ gc_api_tuning ++ gc_api_alloc ++ gc_api_roots ++
  gc_api_stats ++ gc_api_debug add_caller ++ gc_api_finalizer ++ gc_api_links ++ gc_api_invoke ++
  gc_api_threads ++ gc_api_pointers.

(** The thread functions of gc_pthread_redirects.h, which replace the POSIX
    ones in code that includes gc.h after defining GC_THREADS.  [no_x] are
    the macros GC_NO_DLOPEN, GC_NO_PTHREAD_SIGMASK and GC_NO_PTHREAD_CANCEL,
    [have_exit] is GC_HAVE_PTHREAD_EXIT. *)
Definition gc_pthread_api (no_dlopen no_sigmask no_cancel have_exit : bool) : list fproto :=
  (if no_dlopen then [] else [proto "GC_dlopen" (Tptr "void") [Tptr "const char"; c_int]]) ++
  (if no_sigmask then [] else
    [proto "GC_pthread_sigmask" c_int [c_int; Tptr "const sigset_t"; Tptr "sigset_t"]]) ++
  [proto "GC_pthread_create" c_int [Tptr "pthread_t"; Tptr "const pthread_attr_t";
    Tptr "void *(void *)"; Tptr "void"];
   proto "GC_pthread_join" c_int [Tsys "pthread_t"; Tptr "void *"];
   proto "GC_pthread_detach" c_int [Tsys "pthread_t"]] ++
  (if no_cancel then [] else [proto "GC_pthread_cancel" c_int [Tsys "pthread_t"]]) ++
  (if have_exit then [proto "GC_pthread_exit" Tvoid [Tptr "void"]] else []).
(** The names redefined, with the function each stands for. *)
Definition gc_pthread_redirects (no_dlopen no_sigmask no_cancel have_exit : bool) :
    list (string * string) :=
  [("pthread_create", "GC_pthread_create"); ("pthread_join", "GC_pthread_join");
   ("pthread_detach", "GC_pthread_detach")] ++
  (if no_sigmask then [] else [("pthread_sigmask", "GC_pthread_sigmask")]) ++
  (if no_dlopen then [] else [("dlopen", "GC_dlopen")]) ++
  (if no_cancel then [] else [("pthread_cancel", "GC_pthread_cancel")]) ++
  (if have_exit then [("pthread_exit", "GC_pthread_exit")] else []).

(** ** The allocation macros

    An argument of an expansion: a parameter of the macro, a parameter passed
    through GC_base, or GC_EXTRAS (the place of the call). *)
Inductive marg := Par (i : nat) | Base (i : nat) | Extras.
Record gmacro := mk_macro { mc_name : string; mc_arity : nat; mc_callee : string; mc_args : list marg }.
(** [f] called with the [k] parameters, and with the place after them. *)
Definition pass n k f := mk_macro n k f (Par <$> seq 0 k).
Definition pass_ex n k f := mk_macro n k f ((Par <$> seq 0 k) ++ [Extras]).

Definition gc_malloc_macros (replacement debug : bool) : list gmacro :=
  if replacement then [
    pass "GC_MALLOC" 1 "GC_debug_malloc_replacement";
    pass "GC_REALLOC" 2 "GC_debug_realloc_replacement"]
  else if debug then [
    pass_ex "GC_MALLOC" 1 "GC_debug_malloc"; pass_ex "GC_REALLOC" 2 "GC_debug_realloc"]
  else [pass "GC_MALLOC" 1 "GC_malloc"; pass "GC_REALLOC" 2 "GC_realloc"].
Definition gc_debug_macros : list gmacro := [
  pass_ex "GC_MALLOC_ATOMIC" 1 "GC_debug_malloc_atomic";
  pass_ex "GC_STRDUP" 1 "GC_debug_strdup";
  pass_ex "GC_STRNDUP" 2 "GC_debug_strndup";
  pass_ex "GC_MALLOC_ATOMIC_UNCOLLECTABLE" 1 "GC_debug_malloc_atomic_uncollectable";
  pass_ex "GC_MALLOC_UNCOLLECTABLE" 1 "GC_debug_malloc_uncollectable";
  pass_ex "GC_MALLOC_IGNORE_OFF_PAGE" 1 "GC_debug_malloc_ignore_off_page";
  pass_ex "GC_MALLOC_ATOMIC_IGNORE_OFF_PAGE" 1 "GC_debug_malloc_atomic_ignore_off_page";
  pass "GC_FREE" 1 "GC_debug_free";
  pass "GC_REGISTER_FINALIZER" 5 "GC_debug_register_finalizer";
  pass "GC_REGISTER_FINALIZER_IGNORE_SELF" 5 "GC_debug_register_finalizer_ignore_self";
  pass "GC_REGISTER_FINALIZER_NO_ORDER" 5 "GC_debug_register_finalizer_no_order";
  pass "GC_REGISTER_FINALIZER_UNREACHABLE" 5 "GC_debug_register_finalizer_unreachable";
  pass "GC_END_STUBBORN_CHANGE" 1 "GC_debug_end_stubborn_change";
  pass "GC_PTR_STORE_AND_DIRTY" 2 "GC_debug_ptr_store_and_dirty";
  mk_macro "GC_GENERAL_REGISTER_DISAPPEARING_LINK" 2 "GC_general_register_disappearing_link"
    [Par 0; Base 1];
  mk_macro "GC_REGISTER_LONG_LINK" 2 "GC_register_long_link" [Par 0; Base 1];
  pass "GC_REGISTER_DISPLACEMENT" 1 "GC_debug_register_displacement"].
Definition gc_plain_macros : list gmacro := [
  pass "GC_MALLOC_ATOMIC" 1 "GC_malloc_atomic";
  pass "GC_STRDUP" 1 "GC_strdup";
  pass "GC_STRNDUP" 2 "GC_strndup";
  pass "GC_MALLOC_ATOMIC_UNCOLLECTABLE" 1 "GC_malloc_atomic_uncollectable";
  pass "GC_MALLOC_UNCOLLECTABLE" 1 "GC_malloc_uncollectable";
  pass "GC_MALLOC_IGNORE_OFF_PAGE" 1 "GC_malloc_ignore_off_page";
  pass "GC_MALLOC_ATOMIC_IGNORE_OFF_PAGE" 1 "GC_malloc_atomic_ignore_off_page";
  pass "GC_FREE" 1 "GC_free";
  pass "GC_REGISTER_FINALIZER" 5 "GC_register_finalizer";
  pass "GC_REGISTER_FINALIZER_IGNORE_SELF" 5 "GC_register_finalizer_ignore_self";
  pass "GC_REGISTER_FINALIZER_NO_ORDER" 5 "GC_register_finalizer_no_order";
  pass "GC_REGISTER_FINALIZER_UNREACHABLE" 5 "GC_register_finalizer_unreachable";
  pass "GC_END_STUBBORN_CHANGE" 1 "GC_end_stubborn_change";
  pass "GC_PTR_STORE_AND_DIRTY" 2 "GC_ptr_store_and_dirty";
  pass "GC_GENERAL_REGISTER_DISAPPEARING_LINK" 2 "GC_general_register_disappearing_link";
  pass "GC_REGISTER_LONG_LINK" 2 "GC_register_long_link";
  pass "GC_REGISTER_DISPLACEMENT" 1 "GC_register_displacement"].
Definition gc_macros (replacement debug : bool) : list gmacro :=
  gc_malloc_macros replacement debug ++ (if debug then gc_debug_macros else gc_plain_macros).
