(* ===== verification/Ffi.v ===== *)
(** * Calls between calc and C

    The runtime written in calc declares the functions of libuv, of the
    collector and of uvutil.c it calls, as functions without a body; the
    compiler turns a declaration into an LLVM declaration and nothing compares
    it with the C header.  This file states when a declaration agrees with
    its prototype: for whatever values are passed, and whatever the calling
    convention leaves unspecified (the upper bits of a register that holds a
    narrower value, the registers of arguments that were not passed), both
    sides read the same values.  [e_conforms] decides it from the types;
    [e_conforms_spec] is the proof that it does. *)
From S2P Require Import Prelude CLayout UvTypes UvApi GcApi.
#[local] Open Scope Z_scope.

(** ** Declarations of calc *)

(** The LLVM types of parameters and results: [TYPE_RES_INT] and the sized
    integers, pointers (functions are pointers too), no value. *)
Inductive calc_ty := CInt (bits : Z) | CPtr | CVoid.
Definition int := CInt 64.
Definition int32 := CInt 32.
Definition int64 := CInt 64.
Definition byte := CInt 8.

Record extern := mk_extern { e_name : string; e_args : list calc_ty; e_ret : calc_ty }.

Definition coro_externs : list extern := [
  mk_extern "get_available_parallelism" [] int].
Definition sync_externs : list extern := [
  mk_extern "new_pthread_mutex_t" [] CPtr;
  mk_extern "new_pthread_cond_t" [] CPtr].
Definition thread_externs : list extern := [
  mk_extern "GC_pthread_create" [CPtr; CPtr; CPtr; CPtr] int32].
Definition stream_externs : list extern := [
  mk_extern "uv_accept" [CPtr; CPtr] int32;
  mk_extern "uv_read_start" [CPtr; CPtr; CPtr] int32;
  mk_extern "new_buf_t" [] CPtr;
  mk_extern "get_buf_data" [CPtr] CPtr;
  mk_extern "get_buf_len" [CPtr] int;
  mk_extern "set_buf_data" [CPtr; CPtr] CVoid;
  mk_extern "set_buf_len" [CPtr; int] CVoid;
  mk_extern "uv_listen" [CPtr; int32; CPtr] int32;
  mk_extern "uv_close" [CPtr; CPtr] CVoid].
Definition tcp_externs : list extern := [
  mk_extern "get_conn_stream" [CPtr] CPtr;
  mk_extern "new_conn" [] CPtr;
  mk_extern "new_tcp" [] CPtr;
  mk_extern "new_addr" [] CPtr;
  mk_extern "uv_ip4_addr" [CPtr; int32; CPtr] int32;
  mk_extern "uv_tcp_bind" [CPtr; CPtr; int32] int32;
  mk_extern "get_tcp_data" [CPtr] CPtr;
  mk_extern "set_tcp_data" [CPtr; CPtr] CVoid;
  mk_extern "uv_write" [CPtr; CPtr; CPtr; int; CPtr] int32;
  mk_extern "new_write" [] CPtr;
  mk_extern "uv_buf_init" [CPtr; int] CPtr;
  mk_extern "uv_read_stop" [CPtr] int32;
  mk_extern "print_uv_err" [int] CVoid].
Definition tcpclient_externs : list extern := [
  mk_extern "uv_tcp_connect" [CPtr; CPtr; CPtr; CPtr] int32].
Definition time_externs : list extern := [
  mk_extern "new_timer2" [] CPtr;
  mk_extern "uv_timer_start" [CPtr; CPtr; int64; int64] int;
  mk_extern "uv_timer_stop" [CPtr] int].
Definition uv_externs : list extern := [
  mk_extern "uv_timer_init" [CPtr; CPtr] int;
  mk_extern "uv_tcp_init" [CPtr; CPtr] int32;
  mk_extern "uv_idle_init" [CPtr; CPtr] int32;
  mk_extern "uv_idle_start" [CPtr; CPtr] int32;
  mk_extern "uv_idle_stop" [CPtr] int32;
  mk_extern "uv_default_loop" [] CPtr;
  mk_extern "new_async" [] CPtr;
  mk_extern "uv_async_init" [CPtr; CPtr; CPtr] int32;
  mk_extern "uv_async_send" [CPtr] int32;
  mk_extern "uv_run" [CPtr; int] int32;
  mk_extern "new_idle" [] CPtr;
  mk_extern "replace_allocator" [] CVoid].
Definition runtime_externs : list extern := [
  mk_extern "GC_reachable_here" [CPtr] CVoid;
  mk_extern "GC_set_pages_executable" [int32] CVoid;
  mk_extern "GC_base" [CPtr] CPtr;
  mk_extern "GC_free" [CPtr] CVoid;
  mk_extern "GC_register_finalizer_unreachable" [CPtr; CPtr; CPtr; CPtr; CPtr] CVoid;
  mk_extern "GC_set_java_finalization" [int32] CVoid;
  mk_extern "GC_malloc_uncollectable" [int] CPtr;
  mk_extern "GC_debug_malloc" [int] CPtr;
  mk_extern "GC_init" [] CVoid;
  mk_extern "GC_remove_roots" [CPtr; CPtr] CVoid;
  mk_extern "GC_add_roots" [CPtr; CPtr] CVoid].
(** Declared by the compiler itself. *)
Definition std_externs : list extern := [mk_extern "GC_malloc" [int] CPtr].
Definition calc_externs : list extern :=
  std_externs ++ runtime_externs ++ coro_externs ++ sync_externs ++ thread_externs ++
  uv_externs ++ stream_externs ++ tcp_externs ++ tcpclient_externs ++ time_externs.

(** The functions of calc that C code calls back, with the C type of the
    parameter they are passed as. *)
Definition stream_callbacks : list extern := [
  mk_extern "uv_alloc_cb" [CPtr; int; CPtr] CVoid;
  mk_extern "uv_read_cb" [CPtr; int; CPtr] CVoid;
  mk_extern "uv_connection_cb" [CPtr; int32] CVoid;
  mk_extern "uv_close_cb" [CPtr] CVoid].
Definition tcp_callbacks : list extern := [mk_extern "uv_write_cb" [CPtr; int32] CVoid].
Definition tcpclient_callbacks : list extern := [mk_extern "uv_connect_cb" [CPtr; int32] CVoid].
Definition time_callbacks : list extern := [mk_extern "uv_timer_cb" [CPtr] CVoid].
Definition uv_callbacks_calc : list extern := [
  mk_extern "uv_idle_cb" [CPtr] CVoid;
  mk_extern "uv_async_cb" [CPtr] CVoid].
Definition runtime_callbacks : list extern := [mk_extern "GC_finalization_proc" [CPtr; CPtr] CVoid].
Definition calc_callbacks : list extern :=
  stream_callbacks ++ tcp_callbacks ++ tcpclient_callbacks ++ time_callbacks ++
  uv_callbacks_calc ++ runtime_callbacks.

(** The prototypes of the headers, in the configuration of gc.h given. *)
Definition headers (add_caller no_dlopen no_sigmask no_cancel have_exit : bool) : list fproto :=
  uvutil_api ++ uv_api ++ gc_api add_caller ++
  gc_pthread_api no_dlopen no_sigmask no_cancel have_exit.

(** ** The calling convention *)

(** The width of the values of a type that are passed in one integer
    register (System V, 64-bit); [None] for no value, floating point,
    structures and types of system headers. *)
Definition c_bits (t : ctype) : option Z :=
  match t with
  | Tint _ b => Some (8 * Z.of_N b)
  | Tenum _ => Some 32
  | Tptr _ => Some 64
  | _ => None
  end.
Definition calc_bits (t : calc_ty) : option Z :=
  match t with CInt w => Some w | CPtr => Some 64 | CVoid => None end.

(** A register that holds the [w]-bit value [v]; [j] is what its other bits
    happen to be.  Reading a [w]-bit value from a register. *)
Definition put (w v j : Z) : Z := v mod 2 ^ w + 2 ^ w * (j mod 2 ^ (64 - w)).
Definition get (w r : Z) : Z := r mod 2 ^ w.

(** The registers of a call with the arguments [args] (values with the junk of
    their registers) of widths [ws], and [rest], the registers after them;
    what a function with parameters of widths [ws] reads. *)
Definition call_regs (ws : list Z) (args : list (Z * Z)) (rest : list Z) : list Z :=
  zip_with (λ w a, put w a.1 a.2) ws args ++ rest.
Definition read_regs (ws : list Z) (regs : list Z) : list Z := zip_with get ws regs.

(** The callee, with parameters of widths [to], reads what the caller, with
    arguments of widths [from], passed: each value at the callee's width. *)
Definition args_agree (from to : list Z) : Prop :=
  length from = length to ∧
  ∀ args rest, length args = length from →
    read_regs to (call_regs from args rest) = zip_with (λ w a, a.1 mod 2 ^ w) to args.
Definition ret_agrees (from to : Z) : Prop :=
  ∀ v j, get to (put from v j) = v mod 2 ^ to.

(** A declaration agrees with a prototype: calc calls, C returns. *)
Definition agrees (d : extern) (p : fproto) : Prop :=
  p_variadic p = false ∧
  (∃ ds cs, mapM calc_bits (e_args d) = Some ds ∧ mapM c_bits (p_args p) = Some cs ∧
    args_agree ds cs) ∧
  (e_ret d = CVoid ∨
   ∃ dr cr, calc_bits (e_ret d) = Some dr ∧ c_bits (p_ret p) = Some cr ∧ ret_agrees cr dr).
(** A callback agrees with its C type: C calls, calc returns. *)
Definition cb_agrees (d : extern) (p : fproto) : Prop :=
  p_variadic p = false ∧
  (∃ ds cs, mapM calc_bits (e_args d) = Some ds ∧ mapM c_bits (p_args p) = Some cs ∧
    args_agree cs ds) ∧
  (p_ret p = Tvoid ∨
   ∃ dr cr, calc_bits (e_ret d) = Some dr ∧ c_bits (p_ret p) = Some cr ∧ ret_agrees dr cr).

(** ** The decision from the types alone *)

Definition widths_ok (from to : list Z) : bool :=
  Nat.eqb (length from) (length to) && forallb (λ p, p.2 <=? p.1) (zip from to).
Definition is_void (t : calc_ty) : bool := match t with CVoid => true | _ => false end.
Definition is_Tvoid (t : ctype) : bool := match t with Tvoid => true | _ => false end.

Definition opt_ok {A B} (f : A → B → bool) (a : option A) (b : option B) : bool :=
  match a, b with Some a, Some b => f a b | _, _ => false end.

Definition e_conforms (d : extern) (p : fproto) : bool :=
  negb (p_variadic p) &&
  opt_ok widths_ok (mapM calc_bits (e_args d)) (mapM c_bits (p_args p)) &&
  (is_void (e_ret d) || opt_ok Z.leb (calc_bits (e_ret d)) (c_bits (p_ret p))).
Definition cb_conforms (d : extern) (p : fproto) : bool :=
  negb (p_variadic p) &&
  opt_ok widths_ok (mapM c_bits (p_args p)) (mapM calc_bits (e_args d)) &&
  (is_Tvoid (p_ret p) || opt_ok Z.leb (c_bits (p_ret p)) (calc_bits (e_ret d))).

(** Widths of machine types. *)
Definition width_ok (w : Z) : Prop := 0 < w ≤ 64.
Definition extern_wf (d : extern) : Prop :=
  Forall (λ t, ∀ w, calc_bits t = Some w → width_ok w) (e_ret d :: e_args d).
Definition proto_wf (p : fproto) : Prop :=
  Forall (λ t, ∀ w, c_bits t = Some w → width_ok w) (p_ret p :: p_args p).

(** ** The decision is right *)

Lemma get_put w wd v j : 0 ≤ w ≤ wd → get w (put wd v j) = v mod 2 ^ w.
Proof.
  intros Hw. unfold get, put.
  assert (2 ^ wd = 2 ^ w * 2 ^ (wd - w)) as Hp by (rewrite <- Z.pow_add_r by lia; f_equal; lia).
  assert (0 < 2 ^ w) by (apply Z.pow_pos_nonneg; lia).
  assert (0 < 2 ^ (wd - w)) by (apply Z.pow_pos_nonneg; lia).
  rewrite Hp at 2. rewrite <- Z.mul_assoc, (Z.mul_comm (2 ^ w)), Z.mod_add by lia.
  rewrite Hp, <- Znumtheory.Zmod_div_mod; [done|lia|nia|by exists (2 ^ (wd - w)); lia].
Qed.

(** The junk above a narrower value is seen. *)
Lemma get_put_junk w wd : 0 < wd < w → w ≤ 64 → get w (put wd 0 1) ≠ 0.
Proof.
  intros Hw H64. unfold get, put. rewrite Z.mod_0_l by (apply Z.pow_nonzero; lia).
  rewrite (Z.mod_small 1); [|split; [lia|apply Z.pow_gt_1; lia]].
  rewrite Z.add_0_l, Z.mul_1_r, Z.mod_small; [apply Z.pow_nonzero; lia|].
  split; [apply Z.pow_nonneg; lia|apply Z.pow_lt_mono_r; lia].
Qed.

Lemma ret_agrees_iff from to :
  width_ok from → width_ok to → ret_agrees from to ↔ to ≤ from.
Proof.
  unfold width_ok. intros Hf Ht. split.
  - intros H. destruct (decide (to ≤ from)) as [|Hn]; [done|].
    exfalso. apply (get_put_junk to from); [lia..|].
    rewrite H. apply Z.mod_0_l, Z.pow_nonzero; lia.
  - intros Hle v j. apply get_put. lia.
Qed.

Lemma args_agree_iff from to :
  Forall width_ok from → Forall width_ok to →
  args_agree from to ↔ widths_ok from to = true.
Proof.
  unfold args_agree, widths_ok. rewrite andb_true_iff, Nat.eqb_eq. intros Hf Ht. split.
  - intros [Hl H]. split; [done|].
    specialize (H (replicate (length from) (0, 1)) [] ltac:(apply length_replicate)).
    revert to Ht Hl H. induction Hf as [|f from Hf _ IH]; intros [|t to] Ht Hl H; try done.
    apply Forall_cons in Ht as [Ht Hts]. cbn in H. injection H as Hh Htl.
    cbn [zip forallb zip_with]. apply andb_true_iff. split; [|apply IH; [done|by injection Hl|done]].
    apply Z.leb_le, (ret_agrees_iff f t Hf Ht). cbn.
    destruct (decide (t ≤ f)) as [|Hn]; [intros v j; apply get_put; unfold width_ok in *; lia|].
    exfalso. unfold width_ok in *. apply (get_put_junk t f); [lia..|].
    rewrite Hh. apply Z.mod_0_l, Z.pow_nonzero; lia.
  - intros [Hl H]. split; [done|]. intros args rest Ha.
    revert args Ha to Ht Hl H. induction Hf as [|f from Hf _ IH]; intros [|a args] Ha [|t to] Ht Hl H; try done.
    apply Forall_cons in Ht as [Ht Hts]. cbn in H. apply andb_true_iff in H as [H1 H2].
    apply Z.leb_le in H1. cbn. f_equal; [apply get_put; unfold width_ok in *; cbn in *; lia|].
    apply IH; [by injection Ha|done|by injection Hl|done].
Qed.

Lemma mapM_widths {A} (f : A → option Z) l ws :
  Forall (λ t, ∀ w, f t = Some w → width_ok w) l → mapM f l = Some ws → Forall width_ok ws.
Proof.
  intros Hl Hm. apply mapM_Some in Hm. revert Hl. induction Hm; intros Hl; [done|].
  apply Forall_cons in Hl as [H1 H2]. constructor; eauto.
Qed.

Lemma opt_ok_iff {A B} (f : A → B → bool) a b :
  opt_ok f a b = true ↔ ∃ x y, a = Some x ∧ b = Some y ∧ f x y = true.
Proof. destruct a, b; cbn; naive_solver. Qed.

Lemma opt_args_agree {A B} (f : A → option Z) (g : B → option Z) la lb :
  Forall (λ t, ∀ w, f t = Some w → width_ok w) la →
  Forall (λ t, ∀ w, g t = Some w → width_ok w) lb →
  opt_ok widths_ok (mapM f la) (mapM g lb) = true ↔
  ∃ x y, mapM f la = Some x ∧ mapM g lb = Some y ∧ args_agree x y.
Proof.
  intros Ha Hb. rewrite opt_ok_iff.
  split; intros (x & y & Hx & Hy & H); exists x, y; (split; [done|]); (split; [done|]);
    by apply args_agree_iff; eauto using mapM_widths.
Qed.

Lemma opt_ret_agrees from to :
  (∀ w, from = Some w → width_ok w) → (∀ w, to = Some w → width_ok w) →
  opt_ok Z.leb to from = true ↔ ∃ t f, to = Some t ∧ from = Some f ∧ ret_agrees f t.
Proof.
  intros Hf Ht. rewrite opt_ok_iff.
  split; intros (t & f & Hx & Hy & H); exists t, f; (split; [done|]); (split; [done|]);
    [apply Z.leb_le in H|apply Z.leb_le]; by apply ret_agrees_iff; eauto.
Qed.

Lemma is_void_iff t : is_void t = true ↔ t = CVoid.
Proof. by destruct t. Qed.
Lemma is_Tvoid_iff t : is_Tvoid t = true ↔ t = Tvoid.
Proof. by destruct t. Qed.

Lemma e_conforms_spec d p : extern_wf d → proto_wf p → e_conforms d p = true ↔ agrees d p.
Proof.
  intros [Hdr Hd]%Forall_cons [Hpr Hp]%Forall_cons. unfold e_conforms, agrees.
  rewrite !andb_true_iff, negb_true_iff, orb_true_iff, is_void_iff,
    (opt_args_agree _ _ _ _ Hd Hp), (opt_ret_agrees _ _ Hpr Hdr).
  tauto.
Qed.

Lemma cb_conforms_spec d p : extern_wf d → proto_wf p → cb_conforms d p = true ↔ cb_agrees d p.
Proof.
  intros [Hdr Hd]%Forall_cons [Hpr Hp]%Forall_cons. unfold cb_conforms, cb_agrees.
  rewrite !andb_true_iff, negb_true_iff, orb_true_iff, is_Tvoid_iff, opt_ok_iff.
  assert (Ha : opt_ok widths_ok (mapM c_bits (p_args p)) (mapM calc_bits (e_args d)) = true ↔
    ∃ ds cs, mapM calc_bits (e_args d) = Some ds ∧ mapM c_bits (p_args p) = Some cs ∧ args_agree cs ds)
    by (rewrite (opt_args_agree _ _ _ _ Hp Hd); naive_solver).
  assert (Hr : opt_ok Z.leb (c_bits (p_ret p)) (calc_bits (e_ret d)) = true ↔
    ∃ dr cr, calc_bits (e_ret d) = Some dr ∧ c_bits (p_ret p) = Some cr ∧ ret_agrees dr cr)
    by (rewrite (opt_ret_agrees _ _ Hdr Hpr); naive_solver).
  rewrite <- opt_ok_iff, Ha, Hr. tauto.
Qed.

(** The well-formedness of concrete tables is decided by evaluation. *)
Definition width_okb (w : option Z) : bool :=
  match w with Some w => (0 <? w) && (w <=? 64) | None => true end.
Definition extern_wfb (d : extern) : bool :=
  forallb (λ t, width_okb (calc_bits t)) (e_ret d :: e_args d).
Definition proto_wfb (p : fproto) : bool :=
  forallb (λ t, width_okb (c_bits t)) (p_ret p :: p_args p).

Lemma wfb_sound {A} (f : A → option Z) l :
  forallb (λ t, width_okb (f t)) l = true → Forall (λ t, ∀ w, f t = Some w → width_ok w) l.
Proof.
  intros H. rewrite List.forallb_forall in H. apply Forall_forall. intros t Ht w Hw.
  specialize (H t ltac:(by apply list_elem_of_In)). rewrite Hw in H.
  unfold width_okb in H. unfold width_ok. lia.
Qed.
Lemma extern_wfb_sound d : extern_wfb d = true → extern_wf d.
Proof. apply wfb_sound. Qed.
Lemma proto_wfb_sound p : proto_wfb p = true → proto_wf p.
Proof. apply wfb_sound. Qed.
