(* ===== verification/FfiTheorems.v ===== *)
(** * Theorems about the boundary between calc and C *)
From S2P Require Import Prelude CLayout UvTypes UvApi GcApi Ffi.
#[local] Open Scope Z_scope.

(** ** The debugging variants of the allocation macros *)

(** What an argument of the type [from] may be passed as. *)
Definition assignable (from to : ctype) : bool :=
  match from, to with
  | Tptr a, Tptr b => String.eqb a b || String.eqb ("const " +:+ a) b
  | Tint s a, Tint s' b => Bool.eqb s s' && (a =? b)%N
  | _, _ => false
  end.
Definition same_ret (a b : ctype) : bool :=
  match a, b with Tvoid, Tvoid => true | _, _ => assignable a b end.
(** The types of an argument of an expansion, [ps] being the types of the
    macro's arguments. *)
Definition marg_types (add_caller : bool) (ps : list ctype) (a : marg) : list ctype :=
  match a with
  | Par i => option_list (ps !! i)
  | Base i => match ps !! i with Some (Tptr _) => [Tptr "void"] | _ => [] end
  | Extras => GC_EXTRA_PARAMS add_caller
  end.
Definition all_assignable (from to : list ctype) : bool :=
  Nat.eqb (length from) (length to) && forallb (λ p, assignable p.1 p.2) (zip from to).
(** The expansion of [m] is well typed for every argument list the function
    [plain] stands for accepts, with the same result. *)
Definition macro_ok (add_caller : bool) (plain m : gmacro) : bool :=
  String.eqb (mc_name plain) (mc_name m) && Nat.eqb (mc_arity plain) (mc_arity m) &&
  match find_proto (mc_callee plain) (gc_api add_caller), find_proto (mc_callee m) (gc_api add_caller) with
  | Some p, Some q =>
    Nat.eqb (length (p_args p)) (mc_arity m) &&
    all_assignable (mc_args m ≫= marg_types add_caller (p_args p)) (p_args q) &&
    same_ret (p_ret q) (p_ret p)
  | _, _ => false
  end.

(** Whatever GC_DEBUG, GC_DEBUG_REPLACEMENT and GC_ADD_CALLER are, every
    allocation macro of gc.h expands to a call of a function the header
    declares, with as many arguments as its prototype has and of assignable
    types, and with the result type of the plain function: turning debugging
    on never changes how the macros are used. *)
Theorem gc_macros_typed replacement debug add_caller :
  Forall2 (λ plain m, macro_ok add_caller plain m = true)
    (gc_macros false false) (gc_macros replacement debug).
Proof. destruct replacement, debug, add_caller; repeat constructor. Qed.

(** ** The declarations of calc *)

(** The declarations that do not agree with the headers. *)
Definition mismatched : list string := [
  (* a macro of gc.h for GCC, and no function *)
  "GC_reachable_here";
  (* the place of the call is not passed *)
  "GC_debug_malloc";
  (* an int of C read as 64 bits *)
  "get_available_parallelism"; "uv_timer_init"; "uv_timer_start"; "uv_timer_stop";
  (* a structure returned by value, read as a pointer *)
  "uv_buf_init"].

Definition extern_ok (hs : list fproto) (d : extern) : bool :=
  extern_wfb d &&
  match find_proto (e_name d) hs with
  | Some p => proto_wfb p && Bool.eqb (e_conforms d p) (negb (bool_decide (e_name d ∈ mismatched)))
  | None => bool_decide (e_name d ∈ mismatched)
  end.

Lemma extern_ok_sound hs d : extern_ok hs d = true →
  e_name d ∉ mismatched ↔ ∃ p, find_proto (e_name d) hs = Some p ∧ agrees d p.
Proof.
  unfold extern_ok. intros [Hd%extern_wfb_sound H]%andb_true_iff.
  destruct (find_proto _ _) as [p|].
  - apply andb_true_iff in H as [Hp%proto_wfb_sound H%Bool.eqb_prop].
    rewrite <- bool_decide_not in H.
    rewrite <- (bool_decide_eq_true (e_name d ∉ mismatched)), <- H, (e_conforms_spec d p Hd Hp).
    naive_solver.
  - apply bool_decide_eq_true in H. naive_solver.
Qed.

(** C29. Of the functions of libuv, the collector and uvutil.c the runtime
    declares, a declaration agrees with the prototype of the C header exactly
    when it is not one of the seven of [mismatched], in every configuration of
    gc.h: then C reads the arguments calc passes and calc the result C
    returns, whatever the unspecified bits of the registers are; for the
    seven no prototype exists or some register contents make the two sides
    read different values. *)
Theorem calc_externs_agree add_caller no_dlopen no_sigmask no_cancel have_exit :
  Forall (λ d, e_name d ∉ mismatched ↔
    ∃ p, find_proto (e_name d) (headers add_caller no_dlopen no_sigmask no_cancel have_exit) = Some p ∧
      agrees d p) calc_externs.
Proof.
  eapply Forall_impl; [|intros d; apply extern_ok_sound].
  apply Forall_forall. intros d Hd. apply list_elem_of_In in Hd. revert d Hd.
  apply List.forallb_forall.
  destruct add_caller, no_dlopen, no_sigmask, no_cancel, have_exit; vm_compute; reflexivity.
Qed.

Definition callback_ok (d : extern) : bool :=
  extern_wfb d &&
  match find_proto (e_name d) (uv_callbacks ++ gc_callbacks) with
  | Some p => proto_wfb p && cb_conforms d p
  | None => false
  end.

(** Every function of calc that C code calls back has a type that agrees
    with the callback type of the C header. *)
Theorem calc_callbacks_agree :
  Forall (λ d, ∃ p, find_proto (e_name d) (uv_callbacks ++ gc_callbacks) = Some p ∧ cb_agrees d p)
    calc_callbacks.
Proof.
  apply (Forall_impl (λ d, callback_ok d = true)).
  - apply Forall_forall. intros d Hd. apply list_elem_of_In in Hd. revert d Hd.
    apply List.forallb_forall. vm_compute. reflexivity.
  - intros d [Hd%extern_wfb_sound H]%andb_true_iff. destruct (find_proto _ _) as [p|]; [|done].
    apply andb_true_iff in H as [Hp%proto_wfb_sound H]. exists p. split; [done|].
    by apply cb_conforms_spec.
Qed.

Definition signed (w v : Z) : Z := (v + 2 ^ (w - 1)) mod 2 ^ w - 2 ^ (w - 1).

(** What the three timer functions' declarations lead to: when C returns a
    32-bit error code (negative, as all of libuv's are) in a register whose
    upper half is clear, calc reads a positive number; and when C returns 0,
    some contents of the upper half make calc read another number. *)
Theorem timer_result_misread err d p :
  d ∈ [mk_extern "uv_timer_init" [CPtr; CPtr] int; mk_extern "uv_timer_start" [CPtr; CPtr; int64; int64] int;
       mk_extern "uv_timer_stop" [CPtr] int] →
  find_proto (e_name d) uv_api = Some p →
  - 2 ^ 31 ≤ err < 0 →
  ∃ from to, c_bits (p_ret p) = Some from ∧ calc_bits (e_ret d) = Some to ∧
    signed to (get to (put from err 0)) = err + 2 ^ 32 ∧
    0 < signed to (get to (put from err 0)) ∧
    ∃ j, signed to (get to (put from 0 j)) ≠ 0.
Proof.
  intros Hd Hp Herr. exists 32, 64.
  assert (c_bits (p_ret p) = Some 32 ∧ calc_bits (e_ret d) = Some 64) as [-> ->].
  { rewrite !elem_of_cons in Hd. destruct Hd as [-> | [-> | [-> | []%not_elem_of_nil]]];
      vm_compute in Hp; injection Hp as <-; done. }
  assert (signed 64 (get 64 (put 32 err 0)) = err + 2 ^ 32) as Hs.
  { unfold signed, get, put. rewrite (Z.mod_0_l (2 ^ (64 - 32))) by done.
    rewrite <- (Z.mod_add err 1) by done.
    rewrite (Z.mod_small (err + _)), Z.mul_0_r, Z.add_0_r by lia.
    rewrite (Z.mod_small (err + _)), Z.mod_small by lia. lia. }
  rewrite Hs. repeat split; [lia|]. exists 1. by vm_compute.
Qed.
Lemma timer_result_misread_witness :
  ∃ p, find_proto "uv_timer_init" uv_api = Some p ∧
  ∃ from to, c_bits (p_ret p) = Some from ∧ calc_bits int = Some to ∧
    signed to (get to (put from (-22) 0)) = -22 + 2 ^ 32 ∧
    0 < signed to (get to (put from (-22) 0)) ∧
    ∃ j, signed to (get to (put from 0 j)) ≠ 0.
Proof.
  eexists. split; [vm_compute; reflexivity|].
  apply (timer_result_misread (-22) (mk_extern "uv_timer_init" [CPtr; CPtr] int));
    [by left|vm_compute; reflexivity|lia].
Defined.
