(* ===== verification/Lexer.v ===== *)
(** * The lexer of the compiler: lexer.go

    src/compiler/lexer/lexer.go, translated function by function.  The state
    is the list of runes of the input (Unicode code points) and the position
    in it; a position may pass the end of the input, as reading at the end
    advances it too.  A function returns normally, stops the compiler with
    [panic] or with [log.Fatalf], or, in the model only, runs out of fuel. *)
From S2P Require Import Prelude.
#[local] Open Scope Z_scope.

(** ** Token codes *)
Definition TYPE_INT : Z := 0.
Definition TYPE_PLUS : Z := 1.
Definition TYPE_SUB : Z := 2.
Definition TYPE_MUL : Z := 3.
Definition TYPE_DIV : Z := 4.
Definition TYPE_LP : Z := 5.
Definition TYPE_RP : Z := 6.
Definition TYPE_ASSIGN : Z := 7.
Definition TYPE_RES_VAR : Z := 8.
Definition TYPE_RES_INT : Z := 9.
Definition TYPE_NL : Z := 10.
Definition TYPE_VAR : Z := 11.
Definition TYPE_FLOAT : Z := 12.
Definition TYPE_RES_FLOAT : Z := 13.
Definition TYPE_RES_FUNC : Z := 14.
Definition TYPE_LB : Z := 15.
Definition TYPE_RB : Z := 16.
Definition TYPE_COMMA : Z := 17.
Definition TYPE_RES_RET : Z := 18.
Definition TYPE_RES_VOID : Z := 19.
Definition TYPE_RES_TRUE : Z := 20.
Definition TYPE_RES_FALSE : Z := 21.
Definition TYPE_AND : Z := 22.
Definition TYPE_OR : Z := 23.
Definition TYPE_EQ : Z := 24.
Definition TYPE_RES_BOOL : Z := 25.
Definition TYPE_LG : Z := 26.
Definition TYPE_SM : Z := 27.
Definition TYPE_LEQ : Z := 28.
Definition TYPE_SEQ : Z := 29.
Definition TYPE_NOT : Z := 30.
Definition TYPE_NEQ : Z := 31.
Definition TYPE_RES_IF : Z := 32.
Definition TYPE_RES_EL : Z := 33.
Definition TYPE_DEAS : Z := 34.
Definition TYPE_RES_FOR : Z := 35.
Definition TYPE_SEMI : Z := 36.
Definition TYPE_RES_BR : Z := 37.
Definition TYPE_RES_CO : Z := 38.
Definition TYPE_RES_TYPE : Z := 39.
Definition TYPE_RES_STRUCT : Z := 40.
Definition TYPE_COLON : Z := 41.
Definition TYPE_LSB : Z := 42.
Definition TYPE_RSB : Z := 43.
Definition TYPE_ESP : Z := 44.
Definition TYPE_RES_INT32 : Z := 45.
Definition TYPE_RES_FLOAT32 : Z := 46.
Definition TYPE_RES_INT64 : Z := 47.
Definition TYPE_RES_FLOAT64 : Z := 48.
Definition TYPE_RES_BYTE : Z := 49.
Definition TYPE_DOT : Z := 50.
Definition TYPE_RES_THIS : Z := 51.
Definition TYPE_RES_INTERFACE : Z := 52.
Definition TYPE_RES_NIL : Z := 53.
Definition TYPE_RES_PKG : Z := 54.
Definition TYPE_STR : Z := 55.
Definition TYPE_RES_STR : Z := 56.
Definition TYPE_RES_IMPORT : Z := 57.
Definition TYPE_RES_OP : Z := 58.
Definition TYPE_PS : Z := 59.
Definition TYPE_SHL : Z := 60.
Definition TYPE_SHR : Z := 61.
Definition TYPE_BIT_OR : Z := 62.
Definition TYPE_BIT_XOR : Z := 63.
Definition TYPE_RES_YIELD : Z := 64.
Definition TYPE_RES_ASYNC : Z := 65.
Definition TYPE_RES_AWAIT : Z := 66.

(** A rune, and the runes of an ASCII string. *)
Abbreviation rune := Z.
Definition of_ascii (c : Ascii.ascii) : rune := Z.of_N (Ascii.N_of_ascii c).
Fixpoint runes_of (s : string) : list rune :=
  match s with EmptyString => [] | String c s => of_ascii c :: runes_of s end.

Definition reserved : list (string * Z) := [
  ("var", TYPE_RES_VAR); ("int", TYPE_RES_INT); ("float", TYPE_RES_FLOAT);
  ("func", TYPE_RES_FUNC); ("return", TYPE_RES_RET); ("void", TYPE_RES_VOID);
  ("true", TYPE_RES_TRUE); ("false", TYPE_RES_FALSE); ("bool", TYPE_RES_BOOL);
  ("if", TYPE_RES_IF); ("else", TYPE_RES_EL); ("for", TYPE_RES_FOR);
  ("break", TYPE_RES_BR); ("continue", TYPE_RES_CO); ("type", TYPE_RES_TYPE);
  ("struct", TYPE_RES_STRUCT); ("int32", TYPE_RES_INT32); ("int64", TYPE_RES_INT64);
  ("float32", TYPE_RES_FLOAT32); ("float64", TYPE_RES_FLOAT64); ("byte", TYPE_RES_BYTE);
  ("this", TYPE_RES_THIS); ("interface", TYPE_RES_INTERFACE); ("nil", TYPE_RES_NIL);
  ("package", TYPE_RES_PKG); ("string", TYPE_RES_STR); ("import", TYPE_RES_IMPORT);
  ("op", TYPE_RES_OP); ("yield", TYPE_RES_YIELD); ("async", TYPE_RES_ASYNC);
  ("await", TYPE_RES_AWAIT)].
Definition reservedTypes : list (string * Z) := [
  ("int", TYPE_RES_INT); ("float", TYPE_RES_FLOAT); ("void", TYPE_RES_VOID);
  ("bool", TYPE_RES_BOOL); ("int32", TYPE_RES_INT32); ("int64", TYPE_RES_INT64);
  ("float32", TYPE_RES_FLOAT32); ("float64", TYPE_RES_FLOAT64); ("byte", TYPE_RES_BYTE);
  ("string", TYPE_RES_STR)].
(** Lookup of a token in one of the maps. *)
Definition lookup_word (token : list rune) (m : list (string * Z)) : option Z :=
  snd <$> head (filter (λ e, runes_of e.1 = token) m).
Definition IsResType (token : list rune) : option Z := lookup_word token reservedTypes.

(** ** The state *)
Record Lexer := mk_lexer { runes : list rune; pos : nat }.

Inductive outcome (A : Type) :=
  | Ret (a : A) (l : Lexer)
  | Panic
  | Fatal
  | NoFuel.
Arguments Ret {_} _ _.
Arguments Panic {_}.
Arguments Fatal {_}.
Arguments NoFuel {_}.
Definition LM (A : Type) : Type := Lexer → outcome A.
#[global] Instance LM_ret : MRet LM := λ A a l, Ret a l.
#[global] Instance LM_bind : MBind LM := λ A B k m l,
  match m l with Ret a l => k a l | Panic => Panic | Fatal => Fatal | NoFuel => NoFuel end.

Definition SetInput (s : list rune) : Lexer := mk_lexer s 0.

(** The rune at the position, 0 with [end] set at the end of the input. *)
Definition Peek : LM (rune * bool) := λ l,
  match runes l !! pos l with Some ch => Ret (ch, false) l | None => Ret (0, true) l end.
Definition set_pos (p : nat) : LM unit := λ l, Ret tt (mk_lexer (runes l) p).
(** [l.pos++] and [l.pos--] *)
Definition pos_inc : LM unit := λ l, Ret tt (mk_lexer (runes l) (S (pos l))).
Definition pos_dec : LM unit := λ l, Ret tt (mk_lexer (runes l) (pred (pos l))).
Definition getCh : LM (rune * bool) := r ← Peek; pos_inc;; mret r.

Definition SetCheckpoint : LM nat := λ l, Ret (pos l) l.
Definition GobackTo (c : nat) : LM unit := set_pos c.
Definition GetPos : LM nat := SetCheckpoint.

(** Runes of the source's character literals. *)
Definition ch (s : string) : rune := match s with String c _ => of_ascii c | EmptyString => 0 end.
Definition ch_nl : rune := 10.
Definition ch_cr : rune := 13.
Definition ch_tab : rune := 9.
Definition ch_space : rune := 32.
Definition ch_quote : rune := 34.
Definition ch_backslash : rune := 92.

Definition isLetter (c : rune) : bool :=
  ((97 <=? c) && (c <=? 122)) || ((65 <=? c) && (c <=? 90)).
Definition isLetterOrUnderscore (c : rune) : bool := isLetter c || (c =? 95).
Definition isNum (c : rune) : bool := (48 <=? c) && (c <=? 57).

(** Enough iterations for any loop over the input. *)
Definition lex_fuel : LM nat := λ l, Ret (S (S (length (runes l)))) l.
Definition no_fuel {A} : LM A := λ _, NoFuel.
Definition panic {A} : LM A := λ _, Panic.
Definition fatal {A} : LM A := λ _, Fatal.

Fixpoint getChSkipEmpty (fuel : nat) : LM (rune * bool) :=
  match fuel with
  | O => no_fuel
  | S fuel =>
    '(c, e) ← getCh;
    if (e : bool) then mret (c, e)
    else if (c =? ch_space) || (c =? ch_tab) then getChSkipEmpty fuel
    else mret (c, e)
  end.

(** ** Scan *)

(** The value of an escaped rune; [None] is the panic. *)
Definition unescape (c : rune) : option rune :=
  if (c =? ch_quote) || (c =? 39) then Some c
  else if c =? ch "t" then Some ch_tab
  else if c =? ch "n" then Some ch_nl
  else if c =? ch "r" then Some ch_cr
  else if c =? ch_backslash then Some ch_backslash
  else if c =? ch "0" then Some 0
  else None.

(** The loop over a string literal, after its opening quote. *)
Fixpoint scan_string (fuel : nat) (i : list rune) : LM (list rune) :=
  match fuel with
  | O => no_fuel
  | S fuel =>
    '(c, e) ← getCh;
    if (e : bool) then mret i
    else if c =? ch_backslash then
      '(c, e) ← getCh;
      if (e : bool) then mret i
      else match unescape c with
           | Some c => scan_string fuel (i ++ [c])
           | None => panic
           end
    else if c =? ch_quote then mret i
    else scan_string fuel (i ++ [c])
  end.

(** The loops over an identifier and over a number. *)
Fixpoint scan_ident (fuel : nat) (i : list rune) : LM (list rune) :=
  match fuel with
  | O => no_fuel
  | S fuel =>
    '(c, e) ← getCh;
    if (e : bool) then mret i
    else if negb (isLetterOrUnderscore c) && negb (isNum c) then pos_dec;; mret i
    else scan_ident fuel (i ++ [c])
  end.
Fixpoint scan_num (fuel : nat) (t : Z) (i : list rune) : LM (Z * list rune) :=
  match fuel with
  | O => no_fuel
  | S fuel =>
    '(c, e) ← getCh;
    if (e : bool) then mret (t, i)
    else if c =? ch "." then scan_num fuel TYPE_FLOAT (i ++ [c])
    else if negb (isNum c) then pos_dec;; mret (t, i)
    else scan_num fuel t (i ++ [c])
  end.
(** The loop over a comment; whether it found the end of the line. *)
Fixpoint skip_comment (fuel : nat) : LM bool :=
  match fuel with
  | O => no_fuel
  | S fuel =>
    '(c, e) ← getCh;
    if (e : bool) then mret false
    else if c =? ch_nl then mret true
    else skip_comment fuel
  end.

(** [if ne, _ := l.Peek(); ne == c { l.getCh(); return two }; return one] *)
Definition one_or_two (c : rune) (two one : Z * list rune * bool) : LM (Z * list rune * bool) :=
  '(ne, _) ← Peek;
  if ne =? c then getCh;; mret two else mret one.
(** The same with two alternatives. *)
Definition one_or_two2 (c1 : rune) (two1 : Z * list rune * bool) (c2 : rune)
    (two2 one : Z * list rune * bool) : LM (Z * list rune * bool) :=
  '(ne, _) ← Peek;
  if ne =? c1 then getCh;; mret two1
  else if ne =? c2 then getCh;; mret two2
  else mret one.

(** The final switch, for a rune other than a slash. *)
Definition scan_punct (c : rune) : LM (Z * list rune * bool) :=
  let t code s := (code, runes_of s, false) in
  if c =? ch "+" then mret (t TYPE_PLUS "+")
  else if c =? ch "-" then mret (t TYPE_SUB "-")
  else if c =? ch "*" then mret (t TYPE_MUL "*")
  else if c =? ch "(" then mret (t TYPE_LP "(")
  else if c =? ch ")" then mret (t TYPE_RP ")")
  else if c =? ch "=" then one_or_two (ch "=") (t TYPE_EQ "==") (t TYPE_ASSIGN "=")
  else if c =? ch_nl then mret (TYPE_NL, [ch_nl], false)
  else if c =? ch_cr then
    '(c, e) ← Peek;
    if negb e && (c =? ch_nl) then pos_inc;; mret (TYPE_NL, [ch_nl], e) else fatal
  else if c =? ch "{" then mret (t TYPE_LB "{")
  else if c =? ch "}" then mret (t TYPE_RB "}")
  else if c =? ch "," then mret (t TYPE_COMMA ",")
  else if c =? ch "&" then one_or_two (ch "&") (t TYPE_AND "&&") (t TYPE_ESP "&")
  else if c =? ch "|" then one_or_two (ch "|") (t TYPE_OR "||") (t TYPE_OR "|")
  else if c =? ch ">" then
    one_or_two2 (ch "=") (t TYPE_LEQ ">=") (ch ">") (t TYPE_SHR ">>") (t TYPE_LG ">")
  else if c =? ch "<" then
    one_or_two2 (ch "=") (t TYPE_SEQ "<=") (ch "<") (t TYPE_SHL "<<") (t TYPE_SM "<")
  else if c =? ch "!" then one_or_two (ch "=") (t TYPE_NEQ "!=") (t TYPE_NOT "!")
  else if c =? ch ":" then one_or_two (ch "=") (t TYPE_DEAS ":=") (t TYPE_COLON ":")
  else if c =? ch ";" then mret (t TYPE_SEMI ";")
  else if c =? ch "[" then mret (t TYPE_LSB "[")
  else if c =? ch "]" then mret (t TYPE_RSB "]")
  else if c =? ch "." then mret (t TYPE_DOT ".")
  else if c =? ch "%" then mret (t TYPE_PS "%")
  else if c =? ch "^" then mret (t TYPE_BIT_XOR "^")
  else fatal.

(** The body of Scan after its first rune; [start] is [goto START]. *)
Definition scan_from (start : LM (Z * list rune * bool)) (c : rune) : LM (Z * list rune * bool) :=
  fuel ← lex_fuel;
  if c =? ch_quote then i ← scan_string fuel []; mret (TYPE_STR, i, false)
  else if isLetterOrUnderscore c then
    token ← scan_ident fuel [c];
    match lookup_word token reserved with
    | Some tp => mret (tp, token, false)
    | None => mret (TYPE_VAR, token, false)
    end
  else if isNum c then
    '(next, _) ← Peek;
    i ← (if (c =? ch "0") && ((next =? ch "b") || (next =? ch "o") || (next =? ch "x"))
         then getCh;; mret [c; next] else mret [c]);
    '(t, i) ← scan_num fuel TYPE_INT i;
    mret (t, i, false)
  else if c =? ch "/" then
    '(ne, _) ← Peek;
    if ne =? ch "/" then
      nl ← skip_comment fuel;
      if (nl : bool) then start else mret (-1, [], true)
    else mret (TYPE_DIV, runes_of "/", false)
  else scan_punct c.

Fixpoint scan_loop (fuel : nat) : LM (Z * list rune * bool) :=
  match fuel with
  | O => no_fuel
  | S fuel =>
    k ← lex_fuel;
    '(c, e) ← getChSkipEmpty k;
    if (e : bool) then mret (0, [], e) else scan_from (scan_loop fuel) c
  end.
Definition Scan : LM (Z * list rune * bool) := fuel ← lex_fuel; scan_loop fuel.

(** ** The other methods *)
Definition PeekToken : LM (Z * list rune * bool) :=
  c ← SetCheckpoint; t ← Scan; GobackTo c;; mret t.

Inductive lex_error := ErrEOS | ErrTYPE.
Definition scan_type_token (code : Z) : LM (list rune + lex_error) :=
  c0 ← SetCheckpoint;
  '(c, t, e) ← Scan;
  if c =? code then mret (inl t)
  else if (e : bool) then mret (inr ErrEOS)
  else GobackTo c0;; mret (inr ErrTYPE).
Definition ScanType (code : Z) : LM (list rune + lex_error) :=
  if code =? TYPE_LG then
    chp ← SetCheckpoint;
    fuel ← lex_fuel;
    '(c, e) ← getChSkipEmpty fuel;
    if (e : bool) then mret (inr ErrEOS)
    else if c =? ch ">" then mret (inl (runes_of ">"))
    else GobackTo chp;; scan_type_token code
  else scan_type_token code.

(** ** The tokens of an input

    A driver: all the tokens up to the end of the input. *)
Fixpoint lex_all (fuel : nat) : LM (list (Z * list rune)) :=
  match fuel with
  | O => no_fuel
  | S fuel =>
    '(c, t, e) ← Scan;
    if (e : bool) then mret [] else ts ← lex_all fuel; mret ((c, t) :: ts)
  end.
Definition tokens (s : list rune) : outcome (list (Z * list rune)) :=
  lex_all (S (S (length s))) (SetInput s).

Example tokens_example :
  tokens (runes_of "x := a.b(10, 0x2) // c") =
  Ret [(TYPE_VAR, runes_of "x"); (TYPE_DEAS, runes_of ":="); (TYPE_VAR, runes_of "a");
       (TYPE_DOT, runes_of "."); (TYPE_VAR, runes_of "b"); (TYPE_LP, runes_of "(");
       (TYPE_INT, runes_of "10"); (TYPE_COMMA, runes_of ","); (TYPE_INT, runes_of "0x2");
       (TYPE_RP, runes_of ")")] (mk_lexer (runes_of "x := a.b(10, 0x2) // c") 23).
Proof. vm_compute. reflexivity. Qed.

(** ** SkipLn

    [rune_cap n] is the capacity the Go runtime gives to a slice of [n] runes:
    slicing beyond the length is allowed up to it.  The result is the text up
    to the next line end and the number of the line; without a line end the
    loop does not stop. *)
Definition count_nl (s : list rune) : nat := length (filter (λ c, c = ch_nl) s).
Fixpoint skip_ln_loop (fuel prevpos line : nat) : LM (list rune * nat) :=
  match fuel with
  | O => no_fuel
  | S fuel =>
    '(code, _, _) ← PeekToken;
    if code =? TYPE_NL then
      s ← (λ l, Ret (take (pos l - prevpos) (drop prevpos (runes l))) l);
      Scan;; mret (s, line)
    else Scan;; skip_ln_loop fuel prevpos line
  end.
Definition SkipLn (rune_cap : nat → nat) : LM (list rune * nat) := λ l,
  if (pos l <=? rune_cap (length (runes l)))%nat then
    skip_ln_loop (S (S (length (runes l)))) (pos l) (S (count_nl (take (pos l) (runes l)))) l
  else Panic.
