(* ===== verification/LexerTheorems.v ===== *)
(** * Theorems about the lexer *)
From S2P Require Import Prelude Lexer.
#[local] Open Scope Z_scope.

(** ** Progress and termination

    [ok m l Q]: from [l], [m] does not run out of fuel, and if it returns
    normally [Q] holds. *)
Definition ok {A} (m : LM A) (l : Lexer) (Q : A → Lexer → Prop) : Prop :=
  match m l with Ret a l' => Q a l' | Panic | Fatal => True | NoFuel => False end.

Lemma ok_ret {A} (a : A) l (Q : A → Lexer → Prop) : Q a l → ok (mret a) l Q.
Proof. done. Qed.
Lemma ok_bind {A B} (m : LM A) (k : A → LM B) l Q :
  ok m l (λ a l', ok (k a) l' Q) → ok (m ≫= k) l Q.
Proof. unfold ok, mbind, LM_bind. by destruct (m l). Qed.
Lemma ok_mono {A} (m : LM A) l (Q Q' : A → Lexer → Prop) :
  ok m l Q → (∀ a l', Q a l' → Q' a l') → ok m l Q'.
Proof. unfold ok. destruct (m l); auto. Qed.

(** The runes left, and a move that reads at most to one past the end. *)
Definition left_of (l : Lexer) : nat := length (runes l) - pos l.
Definition moved (l l' : Lexer) : Prop :=
  runes l' = runes l ∧ (pos l ≤ pos l')%nat ∧ (pos l' ≤ S (max (pos l) (length (runes l))))%nat.

Lemma Peek_ok l : ok Peek l (λ '(c, e) l', l' = l ∧
  (e = false → (pos l < length (runes l))%nat) ∧ (e = true → c = 0 ∧ (length (runes l) ≤ pos l)%nat)).
Proof.
  unfold ok, Peek. destruct (runes l !! pos l) eqn:H.
  - split; [done|]. split; [|done]. intros _. by apply lookup_lt_Some in H.
  - split; [done|]. split; [done|]. intros _. by apply lookup_ge_None in H.
Qed.
Lemma getCh_ok l : ok getCh l (λ '(c, e) l', runes l' = runes l ∧ pos l' = S (pos l) ∧
  (e = false → (pos l < length (runes l))%nat)).
Proof.
  apply ok_bind. eapply ok_mono; [apply Peek_ok|]. intros [c e] ? (-> & He & _).
  by apply ok_bind, ok_ret.
Qed.

(** Runs one read of a loop. *)
Ltac lex_read :=
  apply ok_bind; (eapply ok_mono; [apply getCh_ok|]);
  let c := fresh "c" in let e := fresh "e" in let l := fresh "l" in
  let Hr := fresh "Hr" in let Hp := fresh "Hp" in let He := fresh "He" in
  intros [c e] l (Hr & Hp & He); destruct e;
  [clear He|specialize (He eq_refl)].
Lemma getChSkipEmpty_ok fuel l : (left_of l < fuel)%nat →
  ok (getChSkipEmpty fuel) l (λ '(c, e) l', moved l l' ∧ (pos l < pos l')%nat ∧
    (e = false → (pos l' ≤ length (runes l))%nat)).
Proof.
  revert l. induction fuel as [|fuel IH]; intros l Hf; [lia|]. cbn [getChSkipEmpty]. lex_read.
  - apply ok_ret. unfold moved. rewrite Hr. repeat split; [lia..|done].
  - destruct (_ || _).
    + eapply ok_mono; [apply IH; unfold left_of in *; rewrite Hr; lia|].
      intros [c' e] l' ((H1 & H2 & H3) & H4 & H5). unfold moved. rewrite Hr in *.
      repeat split; [done|lia|lia|lia|done].
    + apply ok_ret. unfold moved. rewrite Hr. repeat split; [lia..|intros _; lia].
Qed.

(** The loops over the inside of a token: they start inside the input or at
    its end. *)
Definition within (l l' : Lexer) : Prop :=
  runes l' = runes l ∧ (pos l ≤ pos l')%nat ∧ (pos l' ≤ S (length (runes l)))%nat.

Ltac lex_solve := unfold within, moved, left_of in *; simpl in *; destruct_and?;
  repeat match goal with H : runes _ = runes _ |- _ => rewrite H in *; clear H end;
  repeat split; try done; lia.

Lemma skip_comment_ok fuel l : (left_of l < fuel)%nat → (pos l ≤ length (runes l))%nat →
  ok (skip_comment fuel) l (λ b l', within l l' ∧ (b = true → (pos l' ≤ length (runes l))%nat)).
Proof.
  revert l. induction fuel as [|fuel IH]; intros l Hf Hl; [lia|]. cbn [skip_comment]. lex_read.
  - apply ok_ret. split; [lex_solve|done].
  - destruct (c =? ch_nl).
    + apply ok_ret. split; [lex_solve|intros _; lia].
    + eapply ok_mono; [apply IH; lex_solve|]. intros b l' [H Hb].
      split; [lex_solve|intros Hbt; specialize (Hb Hbt); by rewrite Hr in Hb].
Qed.
Lemma scan_ident_ok fuel i l : (left_of l < fuel)%nat → (pos l ≤ length (runes l))%nat →
  ok (scan_ident fuel i) l (λ _ l', within l l').
Proof.
  revert l i. induction fuel as [|fuel IH]; intros l i Hf Hl; [lia|]. cbn [scan_ident]. lex_read.
  - apply ok_ret. lex_solve.
  - destruct (_ && _).
    + apply ok_bind, ok_ret. lex_solve.
    + eapply ok_mono; [apply IH; lex_solve|]. intros j l' H. lex_solve.
Qed.
Lemma scan_num_ok fuel t i l : (left_of l < fuel)%nat → (pos l ≤ length (runes l))%nat →
  ok (scan_num fuel t i) l (λ _ l', within l l').
Proof.
  revert l t i. induction fuel as [|fuel IH]; intros l t i Hf Hl; [lia|]. cbn [scan_num]. lex_read.
  - apply ok_ret. lex_solve.
  - destruct (c =? ch "."); [|destruct (negb _)].
    + eapply ok_mono; [apply IH; lex_solve|]. intros j l' H. lex_solve.
    + apply ok_bind, ok_ret. lex_solve.
    + eapply ok_mono; [apply IH; lex_solve|]. intros j l' H. lex_solve.
Qed.
Lemma scan_string_ok fuel i l : (left_of l < fuel)%nat → (pos l ≤ length (runes l))%nat →
  ok (scan_string fuel i) l (λ _ l', within l l').
Proof.
  revert l i. induction fuel as [|fuel IH]; intros l i Hf Hl; [lia|]. cbn [scan_string]. lex_read.
  - apply ok_ret. lex_solve.
  - destruct (c =? ch_backslash); [|destruct (c =? ch_quote)].
    + lex_read; [apply ok_ret; lex_solve|]. destruct (unescape c0); [|done].
      eapply ok_mono; [apply IH; lex_solve|]. intros j l' H. lex_solve.
    + apply ok_ret. lex_solve.
    + eapply ok_mono; [apply IH; lex_solve|]. intros j l' H. lex_solve.
Qed.

Lemma one_or_two2_ok c1 t1 c2 t2 t l : (pos l ≤ length (runes l))%nat →
  ok (one_or_two2 c1 t1 c2 t2 t) l (λ _ l', within l l').
Proof.
  intros Hl. apply ok_bind. eapply ok_mono; [apply Peek_ok|]. intros [c e] ? (-> & _ & _).
  destruct (c =? c1); [|destruct (c =? c2)]; [| |apply ok_ret; lex_solve];
    (lex_read; apply ok_ret; lex_solve).
Qed.
Lemma one_or_two_ok c1 t1 t l : (pos l ≤ length (runes l))%nat →
  ok (one_or_two c1 t1 t) l (λ _ l', within l l').
Proof.
  intros Hl. apply ok_bind. eapply ok_mono; [apply Peek_ok|]. intros [c e] ? (-> & _ & _).
  destruct (c =? c1); [|apply ok_ret; lex_solve]. lex_read; apply ok_ret; lex_solve.
Qed.
Lemma ok_if {A} (b : bool) (m1 m2 : LM A) l Q : ok m1 l Q → ok m2 l Q → ok (if b then m1 else m2) l Q.
Proof. by destruct b. Qed.
Lemma within_refl l : (pos l ≤ length (runes l))%nat → within l l.
Proof. intros Hl. lex_solve. Qed.
Lemma scan_punct_ok c l : (pos l ≤ length (runes l))%nat →
  ok (scan_punct c) l (λ _ l', within l l').
Proof.
  intros Hl. unfold scan_punct. cbv zeta.
  repeat (apply ok_if; [first
    [ by apply ok_ret, within_refl
    | by apply one_or_two_ok
    | by apply one_or_two2_ok
    | apply ok_bind; eapply ok_mono; [apply Peek_ok|]; intros [c' e] ? (-> & He & _);
      destruct e; [done|]; specialize (He eq_refl); apply ok_if; [|done];
      apply ok_bind, ok_ret; lex_solve ]|]).
  done.
Qed.

Lemma lex_fuel_ok l (Q : nat → Lexer → Prop) : Q (S (S (length (runes l)))) l → ok lex_fuel l Q.
Proof. done. Qed.
Lemma left_of_fuel l : (left_of l < S (S (length (runes l))))%nat.
Proof. unfold left_of. lia. Qed.

Lemma scan_from_ok start c l : (pos l ≤ length (runes l))%nat →
  (∀ l', within l l' → (pos l' ≤ length (runes l))%nat →
    ok start l' (λ '(_, _, e) l'', moved l' l'')) →
  ok (scan_from start c) l (λ '(_, _, e) l', moved l l').
Proof.
  intros Hl Hstart. apply ok_bind, lex_fuel_ok. pose proof (left_of_fuel l) as Hf.
  apply ok_if; [|apply ok_if; [|apply ok_if; [|apply ok_if]]].
  - apply ok_bind. eapply ok_mono; [by apply scan_string_ok|]. intros i l' H. apply ok_ret. lex_solve.
  - apply ok_bind. eapply ok_mono; [by apply scan_ident_ok|]. intros i l' H.
    destruct (lookup_word i reserved); apply ok_ret; lex_solve.
  - apply ok_bind. eapply ok_mono; [apply Peek_ok|]. intros [next e] ? (-> & He & Hend).
    apply ok_bind. eapply (ok_mono _ _ (λ _ l', within l l' ∧ (pos l' ≤ length (runes l))%nat)).
    { destruct (_ && _) eqn:Hpre; [|apply ok_ret; split; [by apply within_refl|done]].
      assert (e = false) as -> by (destruct e; [|done]; destruct (Hend eq_refl) as [-> _]; by rewrite andb_false_r in Hpre).
      specialize (He eq_refl). lex_read; apply ok_ret; split; lex_solve. }
    intros i l1 [H1 H1']. apply ok_bind. eapply ok_mono.
    { apply scan_num_ok; destruct H1 as (Hr & _ & _); unfold left_of in *; rewrite Hr; lia. }
    intros [t j] l2 H2. apply ok_ret. lex_solve.
  - apply ok_bind. eapply ok_mono; [apply Peek_ok|]. intros [ne e] ? (-> & He & Hend). apply ok_if.
    + apply ok_bind. eapply ok_mono; [by apply skip_comment_ok|]. intros nl l1 [H1 Hnl].
      destruct nl; [|apply ok_ret; lex_solve].
      eapply ok_mono; [apply Hstart; [done|by apply Hnl]|]. intros [[? ?] ?] l2 H2. lex_solve.
    + apply ok_ret. lex_solve.
  - eapply ok_mono; [by apply scan_punct_ok|]. intros [[? ?] ?] l1 H1. lex_solve.
Qed.

(** [Scan] reads something, and at most to one past the end. *)
Definition advanced (l l' : Lexer) (eos : bool) : Prop :=
  moved l l' ∧ (pos l < pos l')%nat ∧ (eos = false → (pos l < length (runes l))%nat).

Lemma scan_loop_ok fuel l : (left_of l < fuel)%nat →
  ok (scan_loop fuel) l (λ '(_, _, e) l', advanced l l' e).
Proof.
  revert l. induction fuel as [|fuel IH]; intros l Hf; [lia|]. cbn [scan_loop].
  apply ok_bind, lex_fuel_ok, ok_bind.
  eapply ok_mono; [apply getChSkipEmpty_ok, left_of_fuel|]. intros [c e] l1 (H1 & H2 & H3).
  destruct e; [by apply ok_ret|]. specialize (H3 eq_refl).
  assert (Hr : runes l1 = runes l) by apply H1.
  eapply ok_mono; [apply scan_from_ok; [by rewrite Hr|]|].
  - intros l2 (Hr2 & Hp2 & _) Hl2. eapply ok_mono; [apply IH; unfold left_of in *; rewrite Hr2, Hr in *; lia|].
    intros [[? ?] ?] l3 [H _]. exact H.
  - intros [[? ?] e] l2 Hm. unfold advanced. split; [|split; [|intros _]]; lex_solve.
Qed.
Lemma Scan_ok l : ok Scan l (λ '(_, _, e) l', advanced l l' e).
Proof. apply ok_bind, lex_fuel_ok, scan_loop_ok, left_of_fuel. Qed.

Lemma lex_all_ok fuel l : (left_of l < fuel)%nat → ok (lex_all fuel) l (λ _ _, True).
Proof.
  revert l. induction fuel as [|fuel IH]; intros l Hf; [lia|]. cbn [lex_all].
  apply ok_bind. eapply ok_mono; [apply Scan_ok|]. intros [[c t] e] l1 ((Hr & _ & _) & Hp & He).
  destruct e; [done|]. specialize (He eq_refl).
  apply ok_bind. eapply ok_mono; [apply IH; unfold left_of in *; rewrite Hr; lia|]. by intros.
Qed.

(** Termination of the lexer: on every input and from every position (also
    past the end) Scan stops, with a token, at the end of the input, or with
    the compiler stopped by an error.  A token or the end is found by reading
    at least one rune and at most to one past the end, the input is not
    changed, and a token is only found when a rune was left; so any program
    that scans until the end of the input terminates, after at most as many
    calls as there are runes. *)
Theorem Scan_terminates l :
  match Scan l with
  | Ret (_, _, eos) l' =>
    runes l' = runes l ∧ (pos l < pos l' ≤ S (max (pos l) (length (runes l))))%nat ∧
    (eos = false → (pos l < length (runes l))%nat)
  | Panic | Fatal => True
  | NoFuel => False
  end ∧ ∀ s, tokens s ≠ NoFuel.
Proof.
  split.
  - pose proof (Scan_ok l) as H. unfold ok in H. destruct (Scan l) as [[[c t] e] l'| | |]; try done.
    destruct H as ((? & ? & ?) & ? & ?). done.
  - intros s Hs. pose proof (lex_all_ok (S (S (length s))) (SetInput s)) as H.
    unfold ok in H. unfold tokens in Hs. rewrite Hs in H. apply H. unfold left_of. simpl. lia.
Qed.

(** ** Printing tokens and reading them back *)

(** The text of a string literal with the value [s]. *)
Definition escape_rune (c : rune) : list rune :=
  if c =? ch_quote then [ch_backslash; ch_quote]
  else if c =? ch_backslash then [ch_backslash; ch_backslash]
  else if c =? ch_nl then [ch_backslash; ch "n"]
  else if c =? ch_cr then [ch_backslash; ch "r"]
  else if c =? ch_tab then [ch_backslash; ch "t"]
  else if c =? 0 then [ch_backslash; ch "0"]
  else [c].
Definition escape (s : list rune) : list rune := s ≫= escape_rune.

(** The tokens with one spelling. *)
Definition punctuation : list (Z * string) := [
  (TYPE_PLUS, "+"); (TYPE_SUB, "-"); (TYPE_MUL, "*"); (TYPE_DIV, "/"); (TYPE_LP, "("); (TYPE_RP, ")");
  (TYPE_ASSIGN, "="); (TYPE_EQ, "=="); (TYPE_LB, "{"); (TYPE_RB, "}"); (TYPE_COMMA, ",");
  (TYPE_ESP, "&"); (TYPE_AND, "&&"); (TYPE_OR, "||"); (TYPE_LG, ">"); (TYPE_LEQ, ">="); (TYPE_SHR, ">>");
  (TYPE_SM, "<"); (TYPE_SEQ, "<="); (TYPE_SHL, "<<"); (TYPE_NOT, "!"); (TYPE_NEQ, "!=");
  (TYPE_COLON, ":"); (TYPE_DEAS, ":="); (TYPE_SEMI, ";"); (TYPE_LSB, "["); (TYPE_RSB, "]");
  (TYPE_DOT, "."); (TYPE_PS, "%"); (TYPE_BIT_XOR, "^")].

Definition ident_rune (c : rune) : bool := isLetterOrUnderscore c || isNum c.
Definition is_ident (w : list rune) : bool :=
  match w with c :: w => isLetterOrUnderscore c && forallb ident_rune w | [] => false end.
Definition num_rune (c : rune) : bool := isNum c || (c =? ch ".").

(** A number with a point in it is a float. *)
Definition num_type (w : list rune) : Z := if bool_decide (ch "." ∈ w) then TYPE_FLOAT else TYPE_INT.

(** The tokens a program is made of, with their texts; a number may have one
    of the prefixes 0b, 0o and 0x, followed by decimal digits and points. *)
Inductive wf_token : Z * list rune → Prop :=
  | wf_punct c s : (c, s) ∈ punctuation → wf_token (c, runes_of s)
  | wf_nl : wf_token (TYPE_NL, [ch_nl])
  | wf_keyword s c : (s, c) ∈ reserved → wf_token (c, runes_of s)
  | wf_ident w : is_ident w = true → lookup_word w reserved = None → wf_token (TYPE_VAR, w)
  | wf_num c w : isNum c = true → forallb num_rune w = true → wf_token (num_type w, c :: w)
  | wf_num_prefix p w : p ∈ [ch "b"; ch "o"; ch "x"] → forallb num_rune w = true →
      wf_token (num_type w, ch "0" :: p :: w)
  | wf_str s : wf_token (TYPE_STR, s).

Definition render (t : Z * list rune) : list rune :=
  if t.1 =? TYPE_STR then ch_quote :: escape t.2 ++ [ch_quote] else t.2.
(** Tokens separated by a space. *)
Definition render_all (ts : list (Z * list rune)) : list rune := ts ≫= λ t, render t ++ [ch_space].

(** The lexer after [pre], with [s] to come. *)
Definition st (pre s : list rune) : Lexer := mk_lexer (pre ++ s) (length pre).

Lemma lexer_eq l l' : runes l = runes l' → pos l = pos l' → l = l'.
Proof. destruct l, l'. by intros [= ->] [= ->]. Qed.

Lemma st_step pre c s : mk_lexer (pre ++ c :: s) (S (length pre)) = st (pre ++ [c]) s.
Proof. apply lexer_eq; simpl; [by rewrite <- app_assoc|rewrite length_app; simpl; lia]. Qed.
Lemma st_app pre w s : st pre (w ++ s) = mk_lexer (pre ++ w ++ s) (length pre).
Proof. done. Qed.

Lemma lookup_st (pre : list rune) c s : (pre ++ c :: s) !! length pre = Some c.
Proof. rewrite lookup_app_r by lia. by rewrite Nat.sub_diag. Qed.
Lemma Peek_st pre c s : Peek (st pre (c :: s)) = Ret (c, false) (st pre (c :: s)).
Proof. unfold Peek, st. simpl. by rewrite lookup_st. Qed.
Lemma getCh_st pre c s : getCh (st pre (c :: s)) = Ret (c, false) (st (pre ++ [c]) s).
Proof. unfold getCh, mbind, LM_bind. rewrite Peek_st. simpl. unfold pos_inc. simpl. by rewrite st_step. Qed.
Lemma getCh_bind {A} (k : rune * bool → LM A) pre c s :
  (getCh ≫= k) (st pre (c :: s)) = k (c, false) (st (pre ++ [c]) s).
Proof. unfold mbind at 1, LM_bind at 1. by rewrite getCh_st. Qed.
Lemma Peek_bind {A} (k : rune * bool → LM A) pre c s :
  (Peek ≫= k) (st pre (c :: s)) = k (c, false) (st pre (c :: s)).
Proof. unfold mbind at 1, LM_bind at 1. by rewrite Peek_st. Qed.
Lemma unread_st {A} (m : LM A) pre c s : (pos_dec;; m) (st (pre ++ [c]) s) = m (st pre (c :: s)).
Proof.
  unfold mbind, LM_bind, pos_dec. simpl. f_equal.
  apply lexer_eq; simpl; [by rewrite <- app_assoc|rewrite length_app; simpl; lia].
Qed.

Lemma scan_ident_run w fuel i pre d s :
  forallb ident_rune w = true → ident_rune d = false → (length w < fuel)%nat →
  scan_ident fuel i (st pre (w ++ d :: s)) = Ret (i ++ w) (st (pre ++ w) (d :: s)).
Proof.
  revert fuel i pre. induction w as [|c w IH]; intros fuel i pre Hw Hd Hf; (destruct fuel as [|fuel]; [simpl in Hf; lia|]).
  - cbn [scan_ident app]. rewrite getCh_bind. cbn beta iota.
    unfold ident_rune in Hd. apply orb_false_iff in Hd as [-> ->]. cbn [negb andb].
    rewrite unread_st. by rewrite !app_nil_r.
  - simpl in Hw. apply andb_true_iff in Hw as [Hc Hw]. cbn [scan_ident]. simpl app. rewrite getCh_bind. cbn beta iota.
    unfold ident_rune in Hc. rewrite <- negb_orb, Hc. cbn [negb].
    rewrite IH by (done || simpl in Hf; lia). by rewrite <- !app_assoc.
Qed.

Lemma scan_num_run w fuel t i pre d s :
  forallb num_rune w = true → num_rune d = false → (length w < fuel)%nat →
  scan_num fuel t i (st pre (w ++ d :: s)) =
  Ret (if bool_decide (ch "." ∈ w) then TYPE_FLOAT else t, i ++ w) (st (pre ++ w) (d :: s)).
Proof.
  revert fuel t i pre. induction w as [|c w IH]; intros fuel t i pre Hw Hd Hf; (destruct fuel as [|fuel]; [simpl in Hf; lia|]).
  - cbn [scan_num app]. rewrite getCh_bind. cbn beta iota.
    unfold num_rune in Hd. apply orb_false_iff in Hd as [-> ->]. cbn [negb].
    rewrite unread_st. rewrite !app_nil_r. by rewrite bool_decide_eq_false_2 by apply not_elem_of_nil.
  - simpl in Hw. apply andb_true_iff in Hw as [Hc Hw]. cbn [scan_num]. simpl app. rewrite getCh_bind. cbn beta iota.
    destruct (Z.eqb_spec c (ch ".")) as [->|Hne].
    + rewrite IH by (done || simpl in Hf; lia). rewrite <- !app_assoc.
      rewrite (bool_decide_eq_true_2 (_ ∈ _ :: w)) by (by left). by destruct (bool_decide _).
    + unfold num_rune in Hc. rewrite (proj2 (Z.eqb_neq _ _) Hne), orb_false_r in Hc. rewrite Hc. cbn [negb].
      rewrite IH by (done || simpl in Hf; lia). rewrite <- !app_assoc.
      rewrite (bool_decide_ext (ch "." ∈ c :: w) (ch "." ∈ w)); [done|].
      rewrite elem_of_cons. naive_solver.
Qed.

Lemma escape_rune_spec c :
  (∃ e, escape_rune c = [ch_backslash; e] ∧ unescape e = Some c) ∨
  (escape_rune c = [c] ∧ c ≠ ch_quote ∧ c ≠ ch_backslash).
Proof.
  unfold escape_rune.
  repeat match goal with |- context [if c =? ?k then _ else _] =>
    destruct (Z.eqb_spec c k) as [->|?]; [left; eexists; split; reflexivity|] end.
  by right.
Qed.
Lemma scan_string_escape fuel i pre e c s : unescape e = Some c →
  scan_string (S fuel) i (st pre (ch_backslash :: e :: s)) =
  scan_string fuel (i ++ [c]) (st (pre ++ [ch_backslash; e]) s).
Proof.
  intros He. cbn [scan_string]. rewrite getCh_bind. cbn beta iota. rewrite Z.eqb_refl.
  rewrite getCh_bind. cbn beta iota. by rewrite He, <- app_assoc.
Qed.
Lemma scan_string_plain fuel i pre c s : c ≠ ch_quote → c ≠ ch_backslash →
  scan_string (S fuel) i (st pre (c :: s)) = scan_string fuel (i ++ [c]) (st (pre ++ [c]) s).
Proof.
  intros H1 H2. cbn [scan_string]. rewrite getCh_bind. cbn beta iota.
  by rewrite (proj2 (Z.eqb_neq _ _) H2), (proj2 (Z.eqb_neq _ _) H1).
Qed.

Lemma scan_string_run v fuel i pre s : (length (escape v) < fuel)%nat →
  scan_string fuel i (st pre (escape v ++ ch_quote :: s)) =
  Ret (i ++ v) (st (pre ++ escape v ++ [ch_quote]) s).
Proof.
  revert fuel i pre. induction v as [|c v IH]; intros fuel i pre Hf; (destruct fuel as [|fuel]; [simpl in Hf; lia|]).
  - cbn [scan_string]. simpl app. rewrite getCh_bind. cbn. by rewrite app_nil_r.
  - change (escape (c :: v)) with (escape_rune c ++ escape v) in *. rewrite length_app in Hf.
    rewrite <- app_assoc. destruct (escape_rune_spec c) as [(e & Hc & He)|(Hc & H1 & H2)];
      rewrite Hc in *; simpl in Hf; simpl app.
    + rewrite (scan_string_escape _ _ _ _ _ _ He), IH by lia. by rewrite <- !app_assoc.
    + rewrite scan_string_plain, IH by (done || lia). by rewrite <- !app_assoc.
Qed.

(** ** One token *)

Lemma app_one (pre : list rune) : pre = pre ++ [].
Proof. by rewrite app_nil_r. Qed.

Ltac scan_compute :=
  lazy -[getCh Peek st app]; rewrite ?Peek_st;
  lazy -[getCh Peek st app]; rewrite ?getCh_st; lazy -[getCh Peek st app].

Lemma scan_from_punct start c0 s0 P s : (c0, s0) ∈ punctuation →
  ∃ c w, runes_of s0 = c :: w ∧ (c =? ch_space) || (c =? ch_tab) = false ∧
    scan_from start c (st P (w ++ ch_space :: s)) = Ret (c0, c :: w, false) (st (P ++ w) (ch_space :: s)).
Proof.
  intros Hin. unfold punctuation in Hin.
  repeat (apply elem_of_cons in Hin as [Hin|Hin];
    [injection Hin as -> ->; eexists _, _; split; [reflexivity|split; [reflexivity|]];
     cbn [app runes_of]; scan_compute; rewrite ?app_nil_r; reflexivity|]).
  by apply not_elem_of_nil in Hin.
Qed.

Lemma lex_fuel_bind {A} (k : nat → LM A) l : (lex_fuel ≫= k) l = k (S (S (length (runes l)))) l.
Proof. done. Qed.
Lemma bind_Ret {A B} (m : LM A) (k : A → LM B) l a l' : m l = Ret a l' → (m ≫= k) l = k a l'.
Proof. intros H. unfold mbind, LM_bind. by rewrite H. Qed.

Lemma length_st pre s : length (runes (st pre s)) = (length pre + length s)%nat.
Proof. simpl. by rewrite length_app. Qed.

Lemma letter_not_quote c : isLetterOrUnderscore c = true → (c =? ch_quote) = false.
Proof. unfold isLetterOrUnderscore, isLetter, ch_quote. lia. Qed.
Lemma num_not_letter c : isNum c = true → isLetterOrUnderscore c = false ∧ (c =? ch_quote) = false.
Proof. unfold isLetterOrUnderscore, isLetter, isNum, ch_quote. lia. Qed.
Lemma space_not_ident : ident_rune ch_space = false.
Proof. done. Qed.

Lemma scan_from_ident start c w P s : is_ident (c :: w) = true →
  scan_from start c (st P (w ++ ch_space :: s)) =
  Ret (default TYPE_VAR (lookup_word (c :: w) reserved), c :: w, false) (st (P ++ w) (ch_space :: s)).
Proof.
  intros [Hc Hw]%andb_true_iff. unfold scan_from. rewrite lex_fuel_bind.
  rewrite letter_not_quote, Hc by done.
  erewrite bind_Ret; [|apply scan_ident_run; [done|done|rewrite length_st, length_app; simpl; lia]].
  simpl app. by destruct (lookup_word _ _).
Qed.

Lemma scan_from_num start c w P s : isNum c = true → forallb num_rune w = true →
  scan_from start c (st P (w ++ ch_space :: s)) =
  Ret (num_type w, c :: w, false) (st (P ++ w) (ch_space :: s)).
Proof.
  intros Hc Hw. unfold scan_from. rewrite lex_fuel_bind.
  destruct (num_not_letter c Hc) as [-> ->]. rewrite Hc.
  assert (∃ d w', w ++ ch_space :: s = d :: w' ∧ (num_rune d = true ∨ d = ch_space)) as (d & w' & Hd & Hnd).
  { destruct w as [|d w]; simpl in *; [eauto|]. apply andb_true_iff in Hw as [Hd _]. eauto. }
  rewrite Hd, Peek_bind, <- Hd. cbn beta iota.
  replace ((d =? ch "b") || (d =? ch "o") || (d =? ch "x")) with false.
  2: { destruct Hnd as [Hn| ->]; [|done]. unfold num_rune, isNum in Hn.
       change (ch ".") with 46 in Hn. change (ch "b") with 98. change (ch "o") with 111.
       change (ch "x") with 120. lia. }
  rewrite andb_false_r. erewrite bind_Ret; [|reflexivity].
  erewrite bind_Ret; [|apply scan_num_run; [done|done|rewrite length_st, length_app; simpl; lia]]. done.
Qed.

Lemma scan_from_prefix start p w P s : p ∈ [ch "b"; ch "o"; ch "x"] → forallb num_rune w = true →
  scan_from start (ch "0") (st P (p :: w ++ ch_space :: s)) =
  Ret (num_type w, ch "0" :: p :: w, false) (st (P ++ p :: w) (ch_space :: s)).
Proof.
  intros Hp Hw. unfold scan_from. rewrite lex_fuel_bind.
  change (ch "0" =? ch_quote) with false. change (isLetterOrUnderscore (ch "0")) with false.
  change (isNum (ch "0")) with true. cbv iota. rewrite Peek_bind. cbn beta iota.
  assert ((p =? ch "b") || (p =? ch "o") || (p =? ch "x") = true) as ->.
  { rewrite !elem_of_cons in Hp. destruct Hp as [-> | [-> | [-> | []%not_elem_of_nil]]]; reflexivity. }
  change (ch "0" =? ch "0") with true. cbn [andb].
  erewrite (bind_Ret (getCh;; mret [ch "0"; p])); [|rewrite getCh_bind; reflexivity].
  erewrite bind_Ret; [|apply scan_num_run; [done|done|rewrite length_st; simpl; rewrite length_app; simpl; lia]].
  cbn. by rewrite <- app_assoc.
Qed.

Lemma scan_from_str start v P s :
  scan_from start ch_quote (st P (escape v ++ ch_quote :: s)) =
  Ret (TYPE_STR, v, false) (st (P ++ escape v ++ [ch_quote]) s).
Proof.
  unfold scan_from. rewrite lex_fuel_bind. change (ch_quote =? ch_quote) with true. cbv iota.
  erewrite bind_Ret; [|apply scan_string_run; rewrite length_st, length_app; simpl; lia]. done.
Qed.

Lemma scan_loop_S fuel : scan_loop (S fuel) =
  (k ← lex_fuel; '(c, e) ← getChSkipEmpty k;
   if (e : bool) then mret (0, [], e) else scan_from (scan_loop fuel) c).
Proof. done. Qed.

(** Blanks before a token are skipped. *)
Lemma Scan_first sp c s pre : sp = [] ∨ sp = [ch_space] → (c =? ch_space) || (c =? ch_tab) = false →
  ∃ fuel, Scan (st pre (sp ++ c :: s)) = scan_from (scan_loop fuel) c (st (pre ++ sp ++ [c]) s).
Proof.
  intros Hsp Hc. exists (S (length (runes (st pre (sp ++ c :: s))))).
  unfold Scan. rewrite lex_fuel_bind, scan_loop_S, lex_fuel_bind.
  destruct Hsp as [-> | ->]; cbn [getChSkipEmpty app].
  - erewrite bind_Ret; [|rewrite getCh_bind; cbn beta iota; rewrite Hc; reflexivity]. reflexivity.
  - erewrite bind_Ret; [|rewrite getCh_bind; cbn beta iota;
      change ((ch_space =? ch_space) || (ch_space =? ch_tab)) with true; cbv iota;
      rewrite getCh_bind; cbn beta iota; rewrite Hc; reflexivity].
    rewrite <- app_assoc. reflexivity.
Qed.

(** ** All tokens *)

Lemma reserved_ok s c : (s, c) ∈ reserved →
  is_ident (runes_of s) = true ∧ lookup_word (runes_of s) reserved = Some c ∧ c ≠ TYPE_STR.
Proof.
  intros Hin. apply list_elem_of_In in Hin.
  assert (Hall : forallb (λ e, is_ident (runes_of e.1) &&
    bool_decide (lookup_word (runes_of e.1) reserved = Some e.2) && negb (e.2 =? TYPE_STR)) reserved = true)
    by (vm_compute; reflexivity).
  rewrite List.forallb_forall in Hall. specialize (Hall _ Hin). cbn [fst snd] in Hall.
  rewrite !andb_true_iff, negb_true_iff, Z.eqb_neq in Hall. destruct Hall as [[H1 H2%bool_decide_eq_true] H3].
  done.
Qed.
Lemma punctuation_not_str c s : (c, s) ∈ punctuation → (c =? TYPE_STR) = false.
Proof.
  intros Hin. apply list_elem_of_In in Hin.
  assert (Hall : forallb (λ e, negb (e.1 =? TYPE_STR)) punctuation = true) by (vm_compute; reflexivity).
  rewrite List.forallb_forall in Hall. specialize (Hall _ Hin). by apply negb_true_iff in Hall.
Qed.

Lemma num_type_not_str w : (num_type w =? TYPE_STR) = false.
Proof. unfold num_type. by destruct (bool_decide _). Qed.

Lemma ident_not_blank c w : is_ident (c :: w) = true → (c =? ch_space) || (c =? ch_tab) = false.
Proof. unfold is_ident, isLetterOrUnderscore, isLetter, ch_space, ch_tab. intros [H _]%andb_true_iff. lia. Qed.
Lemma num_not_blank c : isNum c = true → (c =? ch_space) || (c =? ch_tab) = false.
Proof. unfold isNum, ch_space, ch_tab. lia. Qed.

(** A token followed by a space. *)
Lemma Scan_token t sp pre s : wf_token t → sp = [] ∨ sp = [ch_space] →
  Scan (st pre (sp ++ render t ++ ch_space :: s)) =
  Ret (t.1, t.2, false) (st (pre ++ sp ++ render t) (ch_space :: s)).
Proof.
  intros Ht Hsp. unfold render. destruct Ht as [c s0 Hin| |s0 c Hin|w Hw Hl|c w Hc Hw|p w Hp Hw|v]; cbn [fst snd].
  - rewrite (punctuation_not_str _ _ Hin).
    destruct (scan_from_punct (scan_loop 0) c s0 pre s Hin) as (c1 & w & Hs0 & Hb & _). rewrite Hs0.
    destruct (Scan_first sp c1 (w ++ ch_space :: s) pre Hsp Hb) as [fuel Hscan]. cbn [app]. rewrite Hscan.
    destruct (scan_from_punct (scan_loop fuel) c s0 (pre ++ sp ++ [c1]) s Hin) as (c2 & w2 & Hs2 & _ & Hsc).
    rewrite Hs0 in Hs2. injection Hs2 as <- <-. rewrite Hsc. by rewrite <- !app_assoc.
  - change (TYPE_NL =? TYPE_STR) with false. cbv iota.
    destruct (Scan_first sp ch_nl (ch_space :: s) pre Hsp) as [fuel Hscan]; [done|]. cbn [app]. rewrite Hscan.
    reflexivity.
  - destruct (reserved_ok _ _ Hin) as (Hid & Hlk & Hne). rewrite (proj2 (Z.eqb_neq _ _) Hne).
    destruct (runes_of s0) as [|c1 w]; [done|].
    destruct (Scan_first sp c1 (w ++ ch_space :: s) pre Hsp) as [fuel Hscan]; [by eapply ident_not_blank|].
    cbn [app]. rewrite Hscan, scan_from_ident, Hlk by done. by rewrite <- !app_assoc.
  - change (TYPE_VAR =? TYPE_STR) with false. cbv iota. destruct w as [|c1 w]; [done|].
    destruct (Scan_first sp c1 (w ++ ch_space :: s) pre Hsp) as [fuel Hscan]; [by eapply ident_not_blank|].
    cbn [app]. rewrite Hscan, scan_from_ident, Hl by done. by rewrite <- !app_assoc.
  - rewrite num_type_not_str. cbv iota.
    destruct (Scan_first sp c (w ++ ch_space :: s) pre Hsp) as [fuel Hscan]; [by eapply num_not_blank|].
    cbn [app]. rewrite Hscan, scan_from_num by done. by rewrite <- !app_assoc.
  - rewrite num_type_not_str. cbv iota.
    destruct (Scan_first sp (ch "0") (p :: w ++ ch_space :: s) pre Hsp) as [fuel Hscan]; [done|].
    cbn [app]. rewrite Hscan, scan_from_prefix by done. by rewrite <- !app_assoc.
  - change (TYPE_STR =? TYPE_STR) with true. cbv iota. cbn [app]. rewrite <- app_assoc.
    destruct (Scan_first sp ch_quote (escape v ++ ch_quote :: ch_space :: s) pre Hsp) as [fuel Hscan]; [done|].
    cbn [app]. rewrite Hscan, scan_from_str. by rewrite <- !app_assoc.
Qed.

Lemma getChSkipEmpty_end pre f :
  getChSkipEmpty (S f) (st pre []) = Ret (0, true) (mk_lexer (pre ++ []) (S (length pre))).
Proof.
  cbn [getChSkipEmpty].
  rewrite (bind_Ret getCh _ _ (0, true) (mk_lexer (pre ++ []) (S (length pre)))); [done|].
  unfold getCh. rewrite (bind_Ret Peek _ _ (0, true) (st pre [])); [done|].
  unfold Peek, st. simpl. by rewrite lookup_ge_None_2 by (rewrite length_app; simpl; lia).
Qed.
Lemma Scan_nil pre : Scan (st pre []) = Ret (0, [], true) (mk_lexer (pre ++ []) (S (length pre))).
Proof.
  unfold Scan. rewrite lex_fuel_bind, scan_loop_S, lex_fuel_bind.
  erewrite bind_Ret; [|apply getChSkipEmpty_end]. reflexivity.
Qed.
Lemma Scan_end sp pre : sp = [] ∨ sp = [ch_space] → ∃ l, Scan (st pre sp) = Ret (0, [], true) l.
Proof.
  intros [-> | ->]; [eexists; apply Scan_nil|].
  unfold Scan. rewrite lex_fuel_bind, scan_loop_S, lex_fuel_bind. eexists.
  erewrite bind_Ret; [|cbn [getChSkipEmpty]; rewrite getCh_bind; cbn beta iota;
    change ((ch_space =? ch_space) || (ch_space =? ch_tab)) with true; cbv iota; apply getChSkipEmpty_end].
  reflexivity.
Qed.

Lemma lex_all_render ts fuel sp pre : Forall wf_token ts → sp = [] ∨ sp = [ch_space] →
  (length ts < fuel)%nat → ∃ l, lex_all fuel (st pre (sp ++ render_all ts)) = Ret ts l.
Proof.
  revert fuel sp pre. induction ts as [|t ts IH]; intros fuel sp pre Hts Hsp Hf;
    (destruct fuel as [|fuel]; [simpl in Hf; lia|]); cbn [lex_all].
  - cbn [render_all mbind list_bind]. rewrite app_nil_r. destruct (Scan_end sp pre Hsp) as [l Hl].
    eexists. by erewrite bind_Ret by exact Hl.
  - apply Forall_cons in Hts as [Ht Hts].
    assert (Hr : render_all (t :: ts) = render t ++ ch_space :: render_all ts)
      by (unfold render_all; cbn; by rewrite <- app_assoc).
    rewrite Hr. erewrite bind_Ret; [|by apply Scan_token].
    destruct (IH fuel [ch_space] (pre ++ sp ++ render t) Hts) as [l Hl]; [by right|simpl in Hf; lia|].
    cbn beta iota. exists l. cbn [app] in Hl. erewrite bind_Ret; [|exact Hl]. cbn. by destruct t.
Qed.

(** C20. Round trip of the lexer: a sequence of tokens of the language written
    out with spaces between them (identifiers, keywords, integers with or
    without a base prefix, floats, every operator, line ends, and string
    literals of arbitrary contents with their escapes) is read back as exactly
    that sequence, string literals with their values. *)
Theorem lex_roundtrip ts :
  Forall wf_token ts → ∃ l, tokens (render_all ts) = Ret ts l.
Proof.
  intros Hts. destruct (lex_all_render ts (S (S (length (render_all ts)))) [] [] Hts) as [l Hl]; [by left| |by exists l].
  enough (length ts ≤ length (render_all ts))%nat by lia. clear Hts. induction ts as [|t ts IH]; [done|].
  unfold render_all in *. cbn. rewrite !length_app. simpl. lia.
Qed.
Lemma lex_roundtrip_witness :
  ∃ l, tokens (render_all [(TYPE_RES_RET, runes_of "return"); (TYPE_VAR, runes_of "x1");
    (TYPE_SHL, runes_of "<<"); (TYPE_INT, runes_of "0x12"); (TYPE_NL, [ch_nl]);
    (TYPE_STR, [ch_quote; ch_backslash; 955])]) =
  Ret [(TYPE_RES_RET, runes_of "return"); (TYPE_VAR, runes_of "x1");
    (TYPE_SHL, runes_of "<<"); (TYPE_INT, runes_of "0x12"); (TYPE_NL, [ch_nl]);
    (TYPE_STR, [ch_quote; ch_backslash; 955])] l.
Proof.
  apply lex_roundtrip.
  apply Forall_cons_2; [apply (wf_keyword "return"); apply (bool_decide_unpack _); vm_compute; exact I|].
  apply Forall_cons_2; [apply wf_ident; vm_compute; reflexivity|].
  apply Forall_cons_2; [apply (wf_punct _ "<<"); apply (bool_decide_unpack _); vm_compute; exact I|].
  apply Forall_cons_2; [apply (wf_num_prefix (ch "x") (runes_of "12"));
    [apply (bool_decide_unpack _); vm_compute; exact I|reflexivity]|].
  apply Forall_cons_2; [apply wf_nl|].
  apply Forall_cons_2; [apply wf_str|]. apply Forall_nil_2.
Defined.

(** ** The other methods *)

Lemma PeekToken_run l :
  match Scan l with
  | Ret t _ => PeekToken l = Ret t l
  | Panic => PeekToken l = Panic
  | Fatal => PeekToken l = Fatal
  | NoFuel => False
  end.
Proof.
  pose proof (Scan_ok l) as H. unfold ok in H. unfold PeekToken.
  rewrite (bind_Ret SetCheckpoint _ _ (pos l) l eq_refl).
  unfold mbind, LM_bind. destruct (Scan l) as [[[c t] e] l'| | |]; try done.
  destruct H as [(Hr & _ & _) _]. cbn. f_equal. by apply lexer_eq.
Qed.
(** PeekToken answers what Scan would and leaves the lexer where it was. *)
Theorem PeekToken_correct l :
  match Scan l with
  | Ret t _ => PeekToken l = Ret t l
  | Panic => PeekToken l = Panic
  | Fatal => PeekToken l = Fatal
  | NoFuel => False
  end.
Proof. apply PeekToken_run. Qed.

(** ScanType, for a type other than TYPE_LG: a token of the type is read
    and its text returned; a token of another type is not read (the position
    is restored) and the result is ErrTYPE; at the end of the input the result
    is ErrEOS, except that ScanType(TYPE_INT) then succeeds with an empty text,
    because Scan returns the code 0 there and 0 is TYPE_INT. *)
Theorem ScanType_correct code l : code ≠ TYPE_LG →
  match Scan l with
  | Ret (c, t, eos) l' =>
    ScanType code l =
      if c =? code then Ret (inl t) l'
      else if (eos : bool) then Ret (inr ErrEOS) l'
      else Ret (inr ErrTYPE) l
  | Panic => ScanType code l = Panic
  | Fatal => ScanType code l = Fatal
  | NoFuel => False
  end ∧
  (∀ pre, ScanType TYPE_INT (st pre []) = Ret (inl []) (mk_lexer (pre ++ []) (S (length pre)))).
Proof.
  intros Hlg. assert (Heq : ∀ code l, code ≠ TYPE_LG → ScanType code l = scan_type_token code l).
  { intros c l0 Hc. unfold ScanType. by rewrite (proj2 (Z.eqb_neq _ _) Hc). }
  split.
  - rewrite Heq by done. pose proof (Scan_ok l) as H. unfold ok in H. unfold scan_type_token.
    rewrite (bind_Ret SetCheckpoint _ _ (pos l) l eq_refl).
    unfold mbind, LM_bind. destruct (Scan l) as [[[c t] e] l'| | |]; try done.
    destruct H as [(Hr & _ & _) _]. destruct (c =? code); [done|]. destruct e; [done|].
    cbn. f_equal. by apply lexer_eq.
  - intros pre. rewrite Heq by done. unfold scan_type_token.
    rewrite (bind_Ret SetCheckpoint _ (st pre []) (length pre) (st pre []) eq_refl).
    erewrite bind_Ret; [|apply Scan_nil]. reflexivity.
Qed.
Lemma ScanType_correct_witness :
  ScanType TYPE_COMMA (SetInput (runes_of " , x")) = Ret (inl (runes_of ",")) (mk_lexer (runes_of " , x") 2) ∧
  ScanType TYPE_VAR (SetInput (runes_of " , x")) = Ret (inr ErrTYPE) (SetInput (runes_of " , x")) ∧
  ScanType TYPE_VAR (SetInput []) = Ret (inr ErrEOS) (mk_lexer [] 1).
Proof.
  split_and!.
  - destruct (ScanType_correct TYPE_COMMA (SetInput (runes_of " , x"))) as [H _]; [discriminate|]. exact H.
  - destruct (ScanType_correct TYPE_VAR (SetInput (runes_of " , x"))) as [H _]; [discriminate|]. exact H.
  - destruct (ScanType_correct TYPE_VAR (SetInput [])) as [H _]; [discriminate|]. exact H.
Defined.

(** ScanType(TYPE_LG) takes a single closing bracket: after blanks it reads
    one ">" whatever follows, so of ">>" or ">=" only the first rune. *)
Theorem ScanType_close_bracket pre sp s : sp = [] ∨ sp = [ch_space] →
  ScanType TYPE_LG (st pre (sp ++ ch ">" :: s)) = Ret (inl (runes_of ">")) (st (pre ++ sp ++ [ch ">"]) s).
Proof.
  intros Hsp. unfold ScanType. change (TYPE_LG =? TYPE_LG) with true. cbv iota.
  rewrite (bind_Ret SetCheckpoint _ (st pre (sp ++ ch ">" :: s)) (length pre) (st pre (sp ++ ch ">" :: s)) eq_refl), lex_fuel_bind.
  destruct Hsp as [-> | ->]; cbn [getChSkipEmpty app].
  - erewrite bind_Ret; [|rewrite getCh_bind; reflexivity]. reflexivity.
  - erewrite bind_Ret; [|rewrite getCh_bind; cbn beta iota;
      change ((ch_space =? ch_space) || (ch_space =? ch_tab)) with true; cbv iota;
      rewrite getCh_bind; reflexivity].
    rewrite <- app_assoc. reflexivity.
Qed.
Lemma ScanType_close_bracket_witness :
  ScanType TYPE_LG (SetInput (runes_of ">>()")) = Ret (inl (runes_of ">")) (mk_lexer (runes_of ">>()") 1).
Proof. exact (ScanType_close_bracket [] [] (runes_of ">()") (or_introl eq_refl)). Defined.

(** ** Every token read is a token of the language *)

(** [gives m Q]: every value [m] returns satisfies [Q]. *)
Definition gives {A} (m : LM A) (Q : A → Prop) : Prop :=
  ∀ l, match m l with Ret a _ => Q a | _ => True end.

Lemma gives_ret {A} (a : A) (Q : A → Prop) : Q a → gives (mret a) Q.
Proof. by intros H l. Qed.
Lemma gives_bind {A B} (m : LM A) (k : A → LM B) (R : A → Prop) Q :
  gives m R → (∀ a, R a → gives (k a) Q) → gives (m ≫= k) Q.
Proof.
  intros Hm Hk l. specialize (Hm l). unfold mbind, LM_bind. destruct (m l); try done. by apply Hk.
Qed.
Lemma gives_any {A} (m : LM A) : gives m (λ _, True).
Proof. intros l. by destruct (m l). Qed.
Lemma gives_seq {A B} (m : LM A) (k : A → LM B) Q : (∀ a, gives (k a) Q) → gives (m ≫= k) Q.
Proof. intros Hk. by eapply gives_bind; [apply gives_any|]. Qed.
Lemma gives_if {A} (b : bool) (m1 m2 : LM A) Q :
  (b = true → gives m1 Q) → (b = false → gives m2 Q) → gives (if b then m1 else m2) Q.
Proof. destruct b; auto. Qed.

Lemma forallb_snoc {A} (f : A → bool) w c : forallb f (w ++ [c]) = forallb f w && f c.
Proof. rewrite List.forallb_app. simpl. by rewrite andb_true_r. Qed.

Lemma scan_ident_gives fuel c w : is_ident (c :: w) = true →
  gives (scan_ident fuel (c :: w)) (λ i, is_ident i = true).
Proof.
  revert w. induction fuel as [|fuel IH]; intros w Hw; [by intros l|]. cbn [scan_ident].
  apply gives_seq. intros [c' e]. apply gives_if; intros _; [by apply gives_ret|].
  apply gives_if; [intros _; apply gives_seq; intros _; by apply gives_ret|]. intros Hc.
  apply (IH (w ++ [c'])). unfold is_ident in *. rewrite forallb_snoc. apply andb_true_iff in Hw as [-> ->].
  rewrite <- negb_orb in Hc. by apply negb_false_iff in Hc.
Qed.

Lemma num_type_snoc w c : num_type (w ++ [c]) = if c =? ch "." then TYPE_FLOAT else num_type w.
Proof.
  unfold num_type. destruct (Z.eqb_spec c (ch ".")) as [->|Hne].
  - rewrite bool_decide_eq_true_2; [done|]. apply elem_of_app. right. by left.
  - rewrite (bool_decide_ext (ch "." ∈ w ++ [c]) (ch "." ∈ w)); [done|].
    rewrite elem_of_app, elem_of_cons. split; [|tauto]. intros [?|[?|[]%not_elem_of_nil]]; [done|congruence].
Qed.
Lemma scan_num_gives fuel i0 w : forallb num_rune w = true →
  gives (scan_num fuel (num_type w) (i0 ++ w))
    (λ '(t, i), ∃ w', i = i0 ++ w' ∧ forallb num_rune w' = true ∧ t = num_type w').
Proof.
  revert w. induction fuel as [|fuel IH]; intros w Hw; [by intros l|]. cbn [scan_num].
  apply gives_seq. intros [c e]. apply gives_if; intros _; [apply gives_ret; eauto|].
  pose proof (IH (w ++ [c])) as Hc. rewrite num_type_snoc, forallb_snoc, Hw, app_assoc in Hc. unfold num_rune in Hc.
  apply gives_if; intros Hdot; rewrite Hdot in Hc.
  - apply Hc. by rewrite orb_true_r.
  - apply gives_if; intros Hn; [apply gives_seq; intros _; apply gives_ret; eauto|].
    apply Hc. apply negb_false_iff in Hn. by rewrite Hn.
Qed.

(** A token, or a single bar, which gets the code of the double one. *)
Definition read_token (r : Z * list rune * bool) : Prop :=
  let '(c, t, e) := r in e = false → wf_token (c, t) ∨ (c, t) = (TYPE_OR, runes_of "|").

Lemma read_punct c s : (c, s) ∈ punctuation → read_token (c, runes_of s, false).
Proof. intros H _. left. by apply wf_punct. Qed.

Lemma one_or_two_gives c two one Q : Q two → Q one → gives (one_or_two c two one) Q.
Proof.
  intros H2 H1. apply gives_seq. intros [ne e]. apply gives_if; intros _; [apply gives_seq; intros _|]; by apply gives_ret.
Qed.
Lemma one_or_two2_gives c1 two1 c2 two2 one Q :
  Q two1 → Q two2 → Q one → gives (one_or_two2 c1 two1 c2 two2 one) Q.
Proof.
  intros H1 H2 H. apply gives_seq. intros [ne e].
  repeat (apply gives_if; intros _; [apply gives_seq; intros _; by apply gives_ret|]). by apply gives_ret.
Qed.

Ltac in_punctuation := apply read_punct, (bool_decide_unpack _); vm_compute; exact I.
Lemma scan_punct_gives c : gives (scan_punct c) read_token.
Proof.
  unfold scan_punct. cbv zeta.
  repeat (apply gives_if; intros _; [first
    [ apply gives_ret; first [in_punctuation | intros _; left; apply wf_nl]
    | apply one_or_two_gives; [in_punctuation | first [in_punctuation | by right]]
    | apply one_or_two2_gives; in_punctuation
    | idtac ]|]); [|by intros l].
  apply gives_seq. intros [c' e]. apply gives_if; intros _; [|by intros l].
  apply gives_seq. intros _. apply gives_ret. intros _. left. apply wf_nl.
Qed.

Lemma lookup_word_in w m c : lookup_word w m = Some c → ∃ s, (s, c) ∈ m ∧ w = runes_of s.
Proof.
  unfold lookup_word. intros H. apply fmap_Some in H as ([s c'] & H & ->).
  apply head_Some_elem_of, list_elem_of_filter in H as [<- Hin]. by exists s.
Qed.

Lemma scan_from_gives start c : gives start read_token → gives (scan_from start c) read_token.
Proof.
  intros Hstart. apply gives_seq. intros fuel.
  apply gives_if; intros _; [apply gives_seq; intros i; apply gives_ret; intros _; left; apply wf_str|].
  apply gives_if; intros Hc.
  { eapply gives_bind; [apply scan_ident_gives; unfold is_ident; by rewrite Hc|]. intros w Hw.
    destruct (lookup_word w reserved) as [tp|] eqn:Hl; apply gives_ret; intros _; left; [|by apply wf_ident].
    apply lookup_word_in in Hl as (s & Hin & ->). by apply wf_keyword. }
  apply gives_if; intros Hn.
  { apply gives_seq. intros [next e].
    assert (Hnum : ∀ i0, (∀ w, forallb num_rune w = true → wf_token (num_type w, i0 ++ w)) →
      gives ('(t, i) ← scan_num fuel TYPE_INT i0; mret (t, i, false)) read_token).
    { intros i0 Hi0. pose proof (scan_num_gives fuel i0 [] eq_refl) as Hg.
      rewrite app_nil_r in Hg. change (num_type []) with TYPE_INT in Hg. eapply gives_bind; [exact Hg|].
      intros [t i] (w & -> & Hw & ->). apply gives_ret. intros _. left. auto. }
    eapply (gives_bind _ _ (λ i0, ∀ w, forallb num_rune w = true → wf_token (num_type w, i0 ++ w))); [|exact Hnum].
    apply gives_if; intros Hp.
    - apply gives_seq. intros _. apply gives_ret. intros w Hw. apply andb_true_iff in Hp as [H0 Hp].
      apply Z.eqb_eq in H0 as ->. apply wf_num_prefix; [|done].
      rewrite !orb_true_iff, !Z.eqb_eq in Hp. destruct Hp as [[-> | ->] | ->]; apply (bool_decide_unpack _); exact I.
    - apply gives_ret. intros w Hw. by apply wf_num. }
  apply gives_if; intros _; [|apply scan_punct_gives].
  apply gives_seq. intros [ne e]. apply gives_if; intros _; [|apply gives_ret; in_punctuation].
  apply gives_seq. intros nl. destruct nl; [done|]. by apply gives_ret.
Qed.
Lemma scan_loop_gives fuel : gives (scan_loop fuel) read_token.
Proof.
  induction fuel as [|fuel IH]; [by intros l|]. cbn [scan_loop]. apply gives_seq. intros k.
  apply gives_seq. intros [c e]. apply gives_if; intros He; [apply gives_ret; by rewrite He|].
  by apply scan_from_gives.
Qed.

Lemma wf_token_not_bit_or t : ¬ wf_token (TYPE_BIT_OR, t).
Proof.
  intros H. inversion H as [c s Hin| |s c Hin| |c w ? ? Ht|p w ? ? Ht|].
  - assert (Hall : Forall (λ e, e.1 ≠ TYPE_BIT_OR) punctuation)
      by (apply (bool_decide_unpack _); vm_compute; exact I).
    by apply (proj1 (Forall_forall _ _) Hall) in Hin.
  - assert (Hall : Forall (λ e, e.2 ≠ TYPE_BIT_OR) reserved)
      by (apply (bool_decide_unpack _); vm_compute; exact I).
    by apply (proj1 (Forall_forall _ _) Hall) in Hin.
  - unfold num_type in Ht. by destruct (bool_decide _).
  - unfold num_type in Ht. by destruct (bool_decide _).
Qed.

(** Every token Scan returns is a token of the language: its code and text
    are those of an operator, a keyword, an identifier that is not a keyword,
    a number (a float exactly when there is a point in it), a line end or a
    string literal; with one exception, a single bar, which is given the code
    of the double bar.  So no input makes Scan return TYPE_BIT_OR, the code
    the parser expects for the bitwise or. *)
Theorem Scan_sound l :
  match Scan l with
  | Ret (c, t, eos) _ => eos = false →
      (wf_token (c, t) ∨ (c, t) = (TYPE_OR, runes_of "|")) ∧ c ≠ TYPE_BIT_OR
  | _ => True
  end.
Proof.
  assert (H : gives Scan read_token) by (apply gives_seq; intros fuel; apply scan_loop_gives).
  specialize (H l). destruct (Scan l) as [[[c t] e] l'| | |]; try done. intros He.
  specialize (H He). split; [done|]. intros ->. destruct H as [H|[=]]. by apply wf_token_not_bit_or in H.
Qed.
Lemma Scan_sound_witness :
  (wf_token (TYPE_OR, runes_of "|") ∨ (TYPE_OR, runes_of "|") = (TYPE_OR, runes_of "|")) ∧ TYPE_OR ≠ TYPE_BIT_OR.
Proof. exact (Scan_sound (SetInput (runes_of "| b")) eq_refl). Defined.
