(* ===== verification/Ast.v ===== *)
(** * The abstract syntax: src/compiler/ast

    The nodes the parser builds, with the fields it sets; the other fields of
    the Go structures belong to the code generator and are nil or zero here,
    and the file name and the lexer kept for error messages are left out.
    A Go map is the list of its entries, with one entry for a key
    ([map_set]).  A Go pointer that may be nil is an option. *)
From S2P Require Import Prelude Lexer.
#[local] Open Scope Z_scope.

(** Identifiers and texts of tokens. *)
Abbreviation text := (list rune).

(** [m[k] = v] *)
Fixpoint map_set {A} (k : text) (v : A) (m : list (text * A)) : list (text * A) :=
  match m with
  | [] => [(k, v)]
  | (k', v') :: m => if decide (k' = k) then (k, v) :: m else (k', v') :: map_set k v m
  end.
(** [m[k]], with its second result. *)
Fixpoint map_get {A} (k : text) (m : list (text * A)) : option A :=
  match m with
  | [] => None
  | (k', v) :: m => if decide (k' = k) then Some v else map_get k m
  end.

(** ** Types

    [ParamNode] has an identifier and a type; [ParamsNode] a list of these and
    the flag [Ext].  Of [FuncNode] an interface uses [Params] and [RetType]. *)
Inductive TypeNode :=
  | BasicTypeNode (ResType : Z) (CustomTp : list text) (PtrLevel : nat)
      (Generics : list TypeNode) (Pkg : text)
  | FuncTypeNode (Params : list (text * TypeNode)) (Ext : bool) (Ret : option TypeNode) (ptrlevel : nat)
  | ArrayTypeNode (Len : Z) (ElmType : TypeNode) (PtrLevel : nat)
  | StructDefNode (ptrlevel : nat) (Orderedfields : list (text * TypeNode))
  | InterfaceDefNode (ptrlevel : nat)
      (Funcs : list (text * (list (text * TypeNode) * bool * TypeNode))) (OrderedIDS : list text).

Abbreviation ParamsNode := (list (text * TypeNode) * bool)%type.

Definition SetPtrLevel (i : nat) (n : TypeNode) : TypeNode :=
  match n with
  | BasicTypeNode r c _ g p => BasicTypeNode r c i g p
  | FuncTypeNode a e r _ => FuncTypeNode a e r i
  | ArrayTypeNode len e _ => ArrayTypeNode len e i
  | StructDefNode _ f => StructDefNode i f
  | InterfaceDefNode _ f o => InterfaceDefNode i f o
  end.

(** ** Constants: integers of a width, floats given by their text *)
Inductive Value :=
  | IntVal (bits : Z) (v : Z)
  | FloatVal (double : bool) (t : text).

(** ** Expressions and statements

    [BinNode] also stands for assignments.  A [VarBlockNode] of the chain
    [a.b.c] has the next block in [Next]. *)
Inductive ExpNode : Set :=
  | BinNode (Op : Z) (Left Right : ExpNode)
  | NumNode (Val : Value)
  | UnaryNode (Op : Z) (Child : ExpNode)
  | VarExp (b : VarBlockNode)
  | StringNode (Str : text)
  | BoolConstNode (Val : bool)
  | CompareNode (Op : Z) (Left Right : ExpNode)
  | BoolExpNode (Op : Z) (Left Right : ExpNode)
  | NotNode (Bool : ExpNode)
  | AwaitNode (Exp : ExpNode)
  | NilNode
  | CallFuncNode (Params : list ExpNode) (FnNode : ExpNode) (Next : option ExpNode)
      (Generics : list TypeNode)
  | InlineFuncNode (Fntype : TypeNode) (Body : Node) (Async : bool)
  | TakePtrNode (N : ExpNode)
  | TakeValNode (Level : nat) (N : ExpNode)
  | ArrayInitNode (Type_ : TypeNode) (Vals : list ExpNode)
  | StructInitNode (TP : TypeNode) (Fields : list (text * ExpNode))
with VarBlockNode : Set :=
  | mk_VarBlockNode (Token : text) (Idxs : list ExpNode) (Next : option VarBlockNode) (Pos : nat)
with Node : Set :=
  | ExpSt (e : ExpNode)
  | SLNode (Children : list Node)
  | ErrSTNode (Line : nat) (Src : text)
  | EmptyNode
  | DefineNode (ID : text) (TP : TypeNode)
  | RetNode (Exp : option ExpNode)
  | DefAndAssignNode (ValNode : ExpNode) (ID : text)
  | IfNode (BoolExp : ExpNode) (Statements : Node)
  | IfElseNode (BoolExp : ExpNode) (Statements ElSt : Node)
  | ForNode (Bool : option ExpNode) (DefineAssign Assign : option Node) (Statements : Node)
  | BreakNode
  | ContinueNode
  | YieldNode (Exp : option ExpNode).
