(* ===== verification/ParserTypes.v ===== *)
(** * The parser, part 1: numbers, types, headers of declarations

    src/compiler/parser: [ParseInt] and the catching functions of parser.go,
    types.go, the type definitions of typedef.go, the parameters of func.go,
    and package.go.

    A Go function with results [(node, err)] is a computation that returns
    [inl node] or [inr err]; one that panics is [Panic].  A panic carries no
    lexer state: every [recover] of the parser resets the position it saved.
    Functions that call themselves through others take the recursive ones as
    arguments, and [allTypes] ties them together with fuel. *)
From S2P Require Import Prelude Lexer Ast.
#[local] Open Scope Z_scope.

(** ** Errors *)

(** An error of the lexer, or one made by [fmt.Errorf]. *)
Inductive perr := ELex (e : lex_error) | EOther.
Abbreviation PM A := (LM (A + perr)).

(** [x, err := m; if err != nil { return nil, err }] and the same with
    [panic(err)]; [m ||| k] goes on with [k] after an error. *)
Declare Scope parser_scope.
Definition bind_err {A B} (m : PM A) (k : A → PM B) : PM B :=
  r ← m; match r with inl x => k x | inr e => mret (inr e) end.
Definition bind_panic {A B} (m : PM A) (k : A → LM B) : LM B :=
  r ← m; match r with inl x => k x | inr _ => panic end.
Definition on_err {A B} (m : PM A) (ok : A → LM B) (err : perr → LM B) : LM B :=
  r ← m; match r with inl x => ok x | inr e => err e end.
Notation "x ←? m ; k" := (bind_err m (λ x, k))
  (at level 20, m at level 100, k at level 200, right associativity) : parser_scope.
Notation "x ←! m ; k" := (bind_panic m (λ x, k))
  (at level 20, m at level 100, k at level 200, right associativity) : parser_scope.
Notation "' x ←? m ; k" := (bind_err m (λ x, k))
  (at level 20, x pattern, m at level 100, k at level 200, right associativity) : parser_scope.
#[local] Open Scope parser_scope.

Definition ret_ok {A} (x : A) : PM A := mret (inl x).
Definition ret_err {A} (e : perr) : PM A := mret (inr e).

Definition scan_type (code : Z) : PM text :=
  r ← Lexer.ScanType code; mret (match r with inl t => inl t | inr e => inr (ELex e) end).

(** [defer func() { if err != nil { p.lexer.GobackTo(ch) } }()] *)
Definition restoring {A} (m : PM A) : PM A :=
  c ← SetCheckpoint;
  r ← m;
  match r with inl x => ret_ok x | inr e => GobackTo c;; ret_err e end.

(** [recover]: the deferred function runs from the state the panic left, in
    which only the position may have changed. *)
Definition recovering {A} (m : LM A) (handler : LM A) : LM A := λ l,
  match m l with Panic => handler l | o => o end.

Definition runWithCatch {A} (f : LM A) : PM A :=
  recovering (x ← f; ret_ok x) (ret_err EOther).
Definition runWithCatch2 {A} (f : PM A) : PM A :=
  c ← SetCheckpoint;
  r ← recovering f (ret_err EOther);
  match r with inl x => ret_ok x | inr e => GobackTo c;; ret_err e end.
Definition runWithCatchExp {A} (f : LM A) : PM A := runWithCatch f.
Definition runWithCatch2Exp {A} (f : PM A) : PM A := runWithCatch2 f.

(** A list of alternatives, in order; the last error is the result. *)
Fixpoint first_of {A} (m : PM A) (ms : list (PM A)) : PM A :=
  match ms with
  | [] => m
  | m' :: ms => on_err m ret_ok (λ _, first_of m' ms)
  end.

(** ** Numbers

    [strconv.ParseUint] and [strconv.ParseInt] for the bases the parser uses,
    and [strconv.Atoi]; [None] is a syntax error, a value out of range is
    reported with [inr]. *)
Definition digit_value (c : rune) : option Z :=
  if isNum c then Some (c - 48)
  else if (97 <=? c) && (c <=? 122) then Some (c - 97 + 10)
  else if (65 <=? c) && (c <=? 90) then Some (c - 65 + 10)
  else None.
Fixpoint digits_value (base : Z) (acc : Z) (s : text) : option Z :=
  match s with
  | [] => Some acc
  | c :: s =>
    match digit_value c with
    | Some d => if d <? base then digits_value base (acc * base + d) s else None
    | None => None
    end
  end.
Definition numeral (base : Z) (s : text) : option Z :=
  match s with [] => None | _ => digits_value base 0 s end.
(** [strconv.ParseUint(s, base, bw)] *)
Definition ParseUint (s : text) (base bw : Z) : option Z :=
  n ← numeral base s; if n <? 2 ^ bw then Some n else None.
(** [strconv.ParseInt(s, base, bw)] *)
Definition strconv_ParseInt (s : text) (base bw : Z) : option Z :=
  match s with
  | c :: s' =>
    if c =? ch "-" then n ← numeral base s'; if n <=? 2 ^ (bw - 1) then Some (- n) else None
    else n ← numeral base (if c =? ch "+" then s' else s); if n <? 2 ^ (bw - 1) then Some n else None
  | [] => None
  end.
(** [v, _ := strconv.Atoi(s)]: the error is dropped, the value is 0 for a
    syntax error and the nearest value for one out of range. *)
Definition Atoi (s : text) : Z :=
  let (neg, d) := match s with
    | c :: s' => if c =? ch "-" then (true, s') else if c =? ch "+" then (false, s') else (false, s)
    | [] => (false, []) end in
  match numeral 10 d with
  | None => 0
  | Some n => if (neg : bool) then - Z.min n (2 ^ 63) else Z.min n (2 ^ 63 - 1)
  end.
(** [int64(x)] of a [uint64] *)
Definition int64_of_uint64 (n : Z) : Z := if n <? 2 ^ 63 then n else n - 2 ^ 64.

(** The loop of [ParseInt] over the widths. *)
Fixpoint parse_int_loop (fuel : nat) (s : text) (base bw : Z) : option (Z * Z) :=
  match fuel with
  | O => None
  | S fuel =>
    match (if negb (base =? 10) then int64_of_uint64 <$> ParseUint s base bw
           else strconv_ParseInt s base bw) with
    | Some re => Some (re, bw)
    | None => if bw =? 64 then None else parse_int_loop fuel s base (bw * 2)
    end
  end.
(** The value and the width of an integer literal; [None] is the error. *)
Definition ParseInt (s : text) : option (Z * Z) :=
  let '(base, s) :=
    if (2 <? Z.of_nat (length s)) then
      if decide (take 2 s = runes_of "0x") then (16, drop 2 s)
      else if decide (take 2 s = runes_of "0b") then (2, drop 2 s)
      else if decide (take 2 s = runes_of "0o") then (8, drop 2 s)
      else (10, s)
    else (10, s) in
  parse_int_loop 4 s base 8.

(** [strconv.ParseFloat(t, bits)] on a text of digits and points, as the lexer
    reads them: it is a float when there is one point, no base prefix, and the
    value does not round to infinity.  The result keeps the text. *)
Fixpoint float_parts (s : text) (m : Z) (d : option nat) : option (Z * nat) :=
  match s with
  | [] => Some (m, default 0%nat d)
  | c :: s =>
    if c =? ch "." then match d with None => float_parts s m (Some 0%nat) | Some _ => None end
    else if isNum c then float_parts s (m * 10 + (c - 48)) (S <$> d)
    else None
  end.
(** The least value that rounds to infinity. *)
Definition float_limit (double : bool) : Z :=
  if double then 2 ^ 1024 - 2 ^ 970 else 2 ^ 128 - 2 ^ 103.
Definition ParseFloat (t : text) (double : bool) : bool :=
  match float_parts t 0 None with
  | Some (m, d) => m <? float_limit double * 10 ^ Z.of_nat d
  | None => false
  end.

(** ** Types *)
Record Parser := mk_parser { imp : list (text * text); mod_ : text }.

Definition empty : LM Node := _ ←! scan_type TYPE_NL; mret EmptyNode.

(** [for { _, err = ScanType(TYPE_MUL); if err != nil { break }; level++ }] *)
Fixpoint scan_stars (fuel : nat) (level : nat) : LM nat :=
  match fuel with
  | O => no_fuel
  | S fuel => on_err (scan_type TYPE_MUL) (λ _, scan_stars fuel (S level)) (λ _, mret level)
  end.

Fixpoint generic_params_loop (fuel : nat) (n : list text) : PM (list text) :=
  match fuel with
  | O => no_fuel
  | S fuel =>
    on_err (scan_type TYPE_LG) (λ _, ret_ok n) (λ _,
      _ ←? scan_type TYPE_COMMA;
      t ←? scan_type TYPE_VAR;
      generic_params_loop fuel (n ++ [t]))
  end.
Definition genericParams : PM (list text) := restoring (
  _ ←? scan_type TYPE_SM;
  t ←? scan_type TYPE_VAR;
  fuel ← lex_fuel; generic_params_loop fuel [t]).

Section types.
Context (p : Parser) (allTypes : PM TypeNode).

Definition funcParam : LM (text * TypeNode) :=
  t ←! scan_type TYPE_VAR; tp ←! allTypes; mret (t, tp).
Definition extFuncParam : PM (text * TypeNode) :=
  _ ←? scan_type TYPE_RES_THIS; n ← funcParam; ret_ok n.
(** Whether an error is ErrEOS *)
Definition is_eos (e : perr) : bool := match e with ELex ErrEOS => true | _ => false end.

Fixpoint func_params_loop (fuel : nat) (params : list (text * TypeNode)) : LM (list (text * TypeNode)) :=
  match fuel with
  | O => no_fuel
  | S fuel =>
    on_err (scan_type TYPE_RP) (λ _, mret params) (λ e,
      if is_eos e then panic else
      _ ←! scan_type TYPE_COMMA;
      n ← funcParam; func_params_loop fuel (params ++ [n]))
  end.
Definition funcParams : LM ParamsNode :=
  _ ←! scan_type TYPE_LP;
  on_err (scan_type TYPE_RP) (λ _, mret ([], false)) (λ e,
    if is_eos e then panic else
    '(n, ext) ← on_err extFuncParam (λ n, mret (n, true)) (λ _, n ← funcParam; mret (n, false));
    fuel ← lex_fuel; params ← func_params_loop fuel [n]; mret (params, ext)).

Fixpoint generic_call_loop (fuel : nat) (n : list TypeNode) : PM (list TypeNode) :=
  match fuel with
  | O => no_fuel
  | S fuel =>
    on_err (scan_type TYPE_LG) (λ _, ret_ok n) (λ _,
      _ ←? scan_type TYPE_COMMA;
      t ←? allTypes;
      generic_call_loop fuel (n ++ [t]))
  end.
Definition genericCallParams : PM (list TypeNode) := restoring (
  _ ←? scan_type TYPE_SM;
  t ←? allTypes;
  fuel ← lex_fuel; generic_call_loop fuel [t]).
(** [generic, _ := p.genericCallParams()] *)
Definition opt_generics : LM (list TypeNode) := on_err genericCallParams mret (λ _, mret []).

Definition arrayTypes : PM TypeNode := restoring (
  _ ←? scan_type TYPE_LSB;
  len ← on_err (scan_type TYPE_INT) (λ t, mret (Atoi t)) (λ _, mret (-1));
  _ ←? scan_type TYPE_RSB;
  tn ←? allTypes;
  ret_ok (ArrayTypeNode len tn 0)).

Definition basicTypes : PM TypeNode := restoring (
  '(code, t, eos) ← Scan;
  if (eos : bool) then ret_err (ELex ErrEOS) else
  match IsResType t with
  | Some co => ret_ok (BasicTypeNode co [] 0 [] [])
  | None =>
    if code =? TYPE_VAR then
      tp ←? on_err (scan_type TYPE_DOT)
        (λ _, t' ←? scan_type TYPE_VAR; ret_ok [default [] (map_get t (imp p)); t'])
        (λ _, ret_ok [t]);
      generic ← opt_generics;
      ret_ok (BasicTypeNode 0 tp 0 generic (mod_ p))
    else ret_err EOther
  end).

Definition funcTypes : PM TypeNode :=
  _ ←? scan_type TYPE_RES_FUNC;
  '(args, ext) ← funcParams;
  ret ← on_err allTypes (λ t, mret (Some t)) (λ _, mret None);
  ret_ok (FuncTypeNode args ext ret 0).

Fixpoint struct_fields (fuel : nat) (ofs : list (text * TypeNode)) : LM (list (text * TypeNode)) :=
  match fuel with
  | O => no_fuel
  | S fuel =>
    on_err (scan_type TYPE_RB) (λ _, mret ofs) (λ _,
      on_err (scan_type TYPE_VAR)
        (λ t, f ←! allTypes; struct_fields fuel (ofs ++ [(t, f)]))
        (λ _, _ ← empty; struct_fields fuel ofs))
  end.
Definition structType : PM TypeNode :=
  _ ←? scan_type TYPE_RES_STRUCT;
  _ ←? scan_type TYPE_LB;
  fuel ← lex_fuel; ofs ← struct_fields fuel [];
  ret_ok (StructDefNode 0 ofs).

Fixpoint interface_funcs (fuel : nat)
    (fields : list (text * (list (text * TypeNode) * bool * TypeNode))) (names : list text) :
    LM (list (text * (list (text * TypeNode) * bool * TypeNode)) * list text) :=
  match fuel with
  | O => no_fuel
  | S fuel =>
    on_err (scan_type TYPE_RB) (λ _, mret (fields, names)) (λ _,
      on_err (scan_type TYPE_VAR)
        (λ t, ps ← funcParams; ret ←! allTypes; _ ← empty;
          interface_funcs fuel (map_set t (ps, ret) fields) (names ++ [t]))
        (λ _, _ ← empty; interface_funcs fuel fields names))
  end.
Definition interfaceType : PM TypeNode :=
  _ ←? scan_type TYPE_RES_INTERFACE;
  _ ←? scan_type TYPE_LB;
  fuel ← lex_fuel; '(fields, names) ← interface_funcs fuel [] [];
  ret_ok (InterfaceDefNode 0 fields names).

Definition allTypes_body : PM TypeNode :=
  fuel ← lex_fuel; ptrLevel ← scan_stars fuel 0;
  n ←? first_of structType [interfaceType; basicTypes; arrayTypes; funcTypes];
  ret_ok (SetPtrLevel ptrLevel n).
End types.

Fixpoint allTypes_fuel (p : Parser) (fuel : nat) : PM TypeNode :=
  match fuel with
  | O => no_fuel
  | S fuel => allTypes_body p (allTypes_fuel p fuel)
  end.
(** Every recursive call comes after a token was read. *)
Definition allTypes (p : Parser) : PM TypeNode := fuel ← lex_fuel; allTypes_fuel p fuel.

(** ** Headers: package.go *)

(** The file part of [path.Split] *)
Fixpoint path_file (s : text) : text :=
  match s with
  | [] => []
  | c :: s' => if existsb (Z.eqb 47) s then path_file s' else s
  end.
Definition pkgDeclare : PM text :=
  _ ←? scan_type TYPE_RES_PKG;
  t ←? scan_type TYPE_VAR;
  _ ←? runWithCatch empty;
  ret_ok t.
Fixpoint import_loop (fuel : nat) (im : list (text * text)) : PM (list (text * text)) :=
  match fuel with
  | O => no_fuel
  | S fuel =>
    on_err (scan_type TYPE_RP) (λ _, ret_ok im) (λ _,
    on_err (scan_type TYPE_NL) (λ _, import_loop fuel im) (λ _,
      str ←? scan_type TYPE_STR;
      on_err (scan_type TYPE_VAR)
        (λ v, import_loop fuel (map_set v str im))
        (λ _, import_loop fuel (map_set (path_file str) str im))))
  end.
Definition importStatement : PM (list (text * text)) :=
  _ ←? scan_type TYPE_RES_IMPORT;
  on_err (scan_type TYPE_STR) (λ str, ret_ok [(path_file str, str)]) (λ _,
    _ ←? scan_type TYPE_LP;
    fuel ← lex_fuel; import_loop fuel []).
