(* ===== verification/ParserExp.v ===== *)
(** * The parser, part 2: expressions and statements

    The functions of numeric.go, string.go, bool.go, func.go and parser.go
    that read expressions and statements.  They are mutually recursive; a
    function that is called again before it returned is taken from the record
    [knot], and [parser_knot] ties the functions together with fuel.  A knot
    call comes after at least one token was read. *)
From S2P Require Import Prelude Lexer Ast ParserTypes.
#[local] Open Scope Z_scope.
#[local] Open Scope parser_scope.

Record knot := mk_knot {
  k_exp : LM ExpNode;
  k_allexp : LM ExpNode;
  k_boolean : PM ExpNode;
  k_boolexp : PM ExpNode;
  k_callFunc : LM ExpNode;
  k_ifstatement : PM Node;
  k_statementBlock : PM Node }.

Definition strExp : PM ExpNode := str ←? scan_type TYPE_STR; ret_ok (StringNode str).
Definition nilExp : PM ExpNode := _ ←? scan_type TYPE_RES_NIL; ret_ok NilNode.

(** The value of a number token; [None] is the panic of a malformed one. *)
Definition number_value (code : Z) (t1 : text) : option Value :=
  if code =? TYPE_FLOAT then
    if ParseFloat t1 false then Some (FloatVal false t1)
    else if ParseFloat t1 true then Some (FloatVal true t1) else None
  else '(i, tp) ← ParseInt t1; Some (IntVal tp i).

Section exp.
Context (p : Parser) (K : knot).

(** ** Variables *)

Fixpoint idx_loop (fuel : nat) (idxs : list ExpNode) : PM (list ExpNode) :=
  match fuel with
  | O => no_fuel
  | S fuel =>
    on_err (scan_type TYPE_LSB)
      (λ _, e ← k_allexp K; _ ←? scan_type TYPE_RSB; idx_loop fuel (idxs ++ [e]))
      (λ _, ret_ok idxs)
  end.
(** A block without its [Next]. *)
Definition varBlock : PM (text * list ExpNode * nat) :=
  pos ← GetPos;
  t ←? scan_type TYPE_VAR;
  fuel ← lex_fuel; idxs ←? idx_loop fuel [];
  ret_ok (t, idxs, pos).

(** [curr.Next, err = p.varBlock(); curr = curr.Next] *)
Fixpoint chain_loop (fuel : nat) (blocks : list (text * list ExpNode * nat)) :
    PM (list (text * list ExpNode * nat)) :=
  match fuel with
  | O => no_fuel
  | S fuel =>
    on_err (scan_type TYPE_DOT)
      (λ _, b ←? varBlock; chain_loop fuel (blocks ++ [b]))
      (λ _, ret_ok blocks)
  end.
Fixpoint link (blocks : list (text * list ExpNode * nat)) : option VarBlockNode :=
  match blocks with
  | [] => None
  | (t, idxs, pos) :: bs => Some (mk_VarBlockNode t idxs (link bs) pos)
  end.
Definition varChain : PM ExpNode :=
  '(t, idxs, pos) ←? varBlock;
  let t := default t (map_get t (imp p)) in
  fuel ← lex_fuel; bs ←? chain_loop fuel [];
  ret_ok (VarExp (mk_VarBlockNode t idxs (link bs) pos)).

(** ** Calls *)

Fixpoint call_params_loop (fuel : nat) (params : list ExpNode) : LM (list ExpNode) :=
  match fuel with
  | O => no_fuel
  | S fuel =>
    on_err (scan_type TYPE_RP) (λ _, mret params) (λ e,
      if is_eos e then panic else
      _ ←! scan_type TYPE_COMMA;
      e ← k_allexp K; call_params_loop fuel (params ++ [e]))
  end.
Fixpoint call_next_loop (fuel : nat) (next : option ExpNode) : LM (option ExpNode) :=
  match fuel with
  | O => no_fuel
  | S fuel =>
    on_err (scan_type TYPE_DOT)
      (λ _, inner ← on_err (runWithCatchExp (k_callFunc K)) mret
              (λ _, n ←! varChain; mret n);
            call_next_loop fuel (Some inner))
      (λ _, mret next)
  end.
Definition callFunc : LM ExpNode :=
  fnnode ←! runWithCatch2Exp varChain;
  generics ← opt_generics (allTypes p);
  _ ←! scan_type TYPE_LP;
  params ← on_err (scan_type TYPE_RP) (λ _, mret []) (λ e,
    if is_eos e then panic else
    a ← k_allexp K; fuel ← lex_fuel; call_params_loop fuel [a]);
  fuel ← lex_fuel; next ← call_next_loop fuel None;
  mret (CallFuncNode params fnnode next generics).

(** ** Initialisers *)

Fixpoint array_vals_loop (fuel : nat) (vals : list ExpNode) : PM (list ExpNode) :=
  match fuel with
  | O => no_fuel
  | S fuel =>
    on_err (scan_type TYPE_RB) (λ _, ret_ok vals) (λ _,
    on_err (scan_type TYPE_NL) (λ _, array_vals_loop fuel vals) (λ _,
      e ← k_allexp K;
      on_err (scan_type TYPE_COMMA)
        (λ _, array_vals_loop fuel (vals ++ [e]))
        (λ _, _ ←? scan_type TYPE_RB; ret_ok (vals ++ [e]))))
  end.
Definition arrayInit : PM ExpNode :=
  tp ←? arrayTypes (allTypes p);
  _ ←? scan_type TYPE_LB;
  fuel ← lex_fuel; vals ←? array_vals_loop fuel [];
  ret_ok (ArrayInitNode tp vals).

(** A name never contains a point, so the test for one never fires; it is
    kept as in the code. *)
Fixpoint struct_vals_loop (fuel : nat) (fields : list (text * ExpNode)) : PM (list (text * ExpNode)) :=
  match fuel with
  | O => no_fuel
  | S fuel =>
    on_err (scan_type TYPE_RB) (λ _, ret_ok fields) (λ _,
    on_err (scan_type TYPE_VAR)
      (λ t,
        if existsb (Z.eqb (ch ".")) t then panic else
        _ ←? scan_type TYPE_COLON;
        e ← k_allexp K;
        on_err (scan_type TYPE_COMMA)
          (λ _, struct_vals_loop fuel (map_set t e fields))
          (λ _, _ ←? scan_type TYPE_RB; ret_ok (map_set t e fields)))
      (λ _, _ ← empty; struct_vals_loop fuel fields))
  end.
Definition structInit : PM ExpNode :=
  tp ←? allTypes p;
  _ ←? scan_type TYPE_LB;
  fuel ← lex_fuel; fields ←? struct_vals_loop fuel [];
  ret_ok (StructInitNode tp fields).

Definition takePtrExp : PM ExpNode :=
  _ ←? scan_type TYPE_ESP;
  node ←? first_of (runWithCatch2Exp arrayInit)
    [runWithCatch2Exp structInit; runWithCatch2Exp varChain];
  ret_ok (TakePtrNode node).
(** The deferred function drops the node of level 0. *)
Definition takeValExp : PM ExpNode :=
  fuel ← lex_fuel; level ← scan_stars fuel 0;
  node ←? first_of (runWithCatch2Exp arrayInit)
    [runWithCatch2Exp structInit; runWithCatchExp callFunc; runWithCatch2Exp varChain];
  ret_ok (if (level =? 0)%nat then node else TakeValNode level node).

(** ** Arithmetic *)

Definition number : LM ExpNode :=
  on_err (runWithCatch2Exp strExp) mret (λ _,
    c ← SetCheckpoint;
    on_err (runWithCatch2Exp takeValExp) mret (λ _,
      '(code, t1, eos) ← Scan;
      if (eos : bool) then panic
      else if (code =? TYPE_FLOAT) || (code =? TYPE_INT) then
        match number_value code t1 with Some v => mret (NumNode v) | None => panic end
      else
        GobackTo c;;
        _ ←! scan_type TYPE_LP;
        i ← k_exp K;
        _ ←! scan_type TYPE_RP;
        mret i)).

Definition symbol : LM ExpNode :=
  c ← SetCheckpoint;
  '(code, _, eos) ← Scan;
  if (eos : bool) then panic
  else if (code =? TYPE_PLUS) || (code =? TYPE_SUB) then n ← number; mret (UnaryNode code n)
  else GobackTo c;; number.

(** [ops] is the condition of the loops of factor, addedFactor and exp: the
    end of the input is excluded for their first operator only. *)
Fixpoint binary_loop (fuel : nat) (ops : bool → Z → bool) (operand : LM ExpNode) (a : ExpNode) : LM ExpNode :=
  match fuel with
  | O => no_fuel
  | S fuel =>
    c ← SetCheckpoint;
    '(code, _, eos) ← Scan;
    if ops eos code then b ← operand; binary_loop fuel ops operand (BinNode code a b)
    else if (eos : bool) then mret a else GobackTo c;; mret a
  end.
Definition binary (ops : bool → Z → bool) (operand : LM ExpNode) : LM ExpNode :=
  a ← operand; fuel ← lex_fuel; binary_loop fuel ops operand a.
Definition factor_ops (eos : bool) (code : Z) : bool :=
  (negb eos && (code =? TYPE_DIV)) || (code =? TYPE_MUL) || (code =? TYPE_PS).
Definition added_ops (eos : bool) (code : Z) : bool :=
  (negb eos && (code =? TYPE_PLUS)) || (code =? TYPE_SUB).
Definition shift_ops (eos : bool) (code : Z) : bool :=
  (negb eos && (code =? TYPE_SHL)) || (code =? TYPE_SHR).
Definition factor : LM ExpNode := binary factor_ops symbol.
Definition addedFactor : LM ExpNode := binary added_ops factor.
Definition exp : LM ExpNode := binary shift_ops addedFactor.

(** ** Booleans *)

Definition boolean : PM ExpNode := restoring (
  on_err (scan_type TYPE_RES_TRUE) (λ _, ret_ok (BoolConstNode true)) (λ _,
  on_err (scan_type TYPE_RES_FALSE) (λ _, ret_ok (BoolConstNode false)) (λ _,
  on_err (runWithCatchExp exp) ret_ok (λ _,
  on_err nilExp ret_ok (λ _,
    '(code, _, eos) ← Scan;
    if (eos : bool) then ret_err (ELex ErrEOS)
    else if code =? TYPE_NOT then node ←? k_boolean K; ret_ok (NotNode node)
    else if code =? TYPE_LP then
      node ←? k_boolexp K; _ ←? scan_type TYPE_RP; ret_ok node
    else ret_err EOther))))).

Definition compare_op (code : Z) : bool :=
  existsb (Z.eqb code) [TYPE_EQ; TYPE_NEQ; TYPE_LG; TYPE_SM; TYPE_LEQ; TYPE_SEQ].
Fixpoint compare_loop (fuel : nat) (node : ExpNode) : PM ExpNode :=
  match fuel with
  | O => no_fuel
  | S fuel =>
    check ← SetCheckpoint;
    '(code, _, eos) ← Scan;
    if (eos : bool) then ret_err (ELex ErrEOS)
    else if compare_op code then
      right ←? runWithCatch2Exp boolean; compare_loop fuel (CompareNode code node right)
    else GobackTo check;; ret_ok node
  end.
Definition compare : PM ExpNode := restoring (
  node ←? runWithCatch2Exp boolean;
  fuel ← lex_fuel; compare_loop fuel node).

Definition bit_op (code : Z) : bool := existsb (Z.eqb code) [TYPE_BIT_OR; TYPE_ESP; TYPE_BIT_XOR].
Fixpoint bit_loop (fuel : nat) (node : ExpNode) : PM ExpNode :=
  match fuel with
  | O => no_fuel
  | S fuel =>
    check ← SetCheckpoint;
    '(code, _, eos) ← Scan;
    if (eos : bool) then ret_ok node
    else if bit_op code then
      right ←? compare; bit_loop fuel (BinNode code node right)
    else GobackTo check;; ret_ok node
  end.
Definition bitOp : PM ExpNode := restoring (
  node ←? compare; fuel ← lex_fuel; bit_loop fuel node).

Definition boolexp : PM ExpNode := restoring (
  node ←? bitOp;
  cp ← SetCheckpoint;
  '(co, _, eos) ← Scan;
  if (eos : bool) then ret_err (ELex ErrEOS)
  else if (co =? TYPE_AND) || (co =? TYPE_OR) then
    right ←? compare; ret_ok (BoolExpNode co node right)
  else GobackTo cp;; ret_ok node).

(** ** Any expression *)

Definition inlineFunc : PM ExpNode :=
  fntp ←? funcTypes (allTypes p);
  async ← on_err (scan_type TYPE_RES_ASYNC) (λ _, mret true) (λ _, mret false);
  body ←? runWithCatch2 (k_statementBlock K);
  ret_ok (InlineFuncNode fntp body async).

Definition allexp : LM ExpNode :=
  on_err (scan_type TYPE_RES_AWAIT) (λ _, e ← k_allexp K; mret (AwaitNode e)) (λ _,
  on_err (runWithCatch2Exp takePtrExp) mret (λ _,
  on_err (runWithCatch2Exp inlineFunc) mret (λ _,
  n ←! boolexp; mret n))).

(** ** Statements *)

Definition assign : PM Node := restoring (
  fuel ← lex_fuel; level ← scan_stars fuel 0;
  node ←? runWithCatch2Exp varChain;
  _ ←? scan_type TYPE_ASSIGN;
  r ← allexp;
  ret_ok (ExpSt (BinNode TYPE_ASSIGN (TakeValNode level node) r))).

(** The deferred function reads the end of the line after a success. *)
Definition define : PM Node :=
  n ←? restoring (
    _ ←? scan_type TYPE_RES_VAR;
    id ←? scan_type TYPE_VAR;
    tp ←! allTypes p;
    ret_ok (DefineNode id tp));
  _ ← empty; ret_ok n.

Definition defineAndAssign : PM Node := restoring (
  id ←? on_err (scan_type TYPE_RES_VAR)
    (λ _, id ←? scan_type TYPE_VAR; _ ←? scan_type TYPE_ASSIGN; ret_ok id)
    (λ _, id ←? scan_type TYPE_VAR; _ ←? scan_type TYPE_DEAS; ret_ok id);
  val ← allexp;
  ret_ok (DefAndAssignNode val id)).

Definition breakST : PM Node := _ ←? scan_type TYPE_RES_BR; _ ← empty; ret_ok BreakNode.
Definition continueST : PM Node := _ ←? scan_type TYPE_RES_CO; _ ← empty; ret_ok ContinueNode.
Definition returnST : PM Node :=
  _ ←? scan_type TYPE_RES_RET;
  on_err (runWithCatch empty) (λ _, ret_ok (RetNode None)) (λ _,
  e ← allexp; ret_ok (RetNode (Some e))).
Definition yield : PM Node :=
  _ ←? scan_type TYPE_RES_YIELD;
  e ← on_err (runWithCatchExp allexp) (λ e, mret (Some e)) (λ _, mret None);
  _ ← empty; ret_ok (YieldNode e).

Definition ifstatement : PM Node :=
  _ ←? scan_type TYPE_RES_IF;
  be ←? boolexp;
  statements ←? k_statementBlock K;
  on_err (scan_type TYPE_RES_EL)
    (λ _,
      elst ←? first_of (k_ifstatement K) [k_statementBlock K];
      ret_ok (IfElseNode be statements elst))
    (λ _, ret_ok (IfNode be statements)).

(** [x, _ := m] *)
Definition ignore_err {A} (m : PM A) : LM (option A) := on_err m (λ x, mret (Some x)) (λ _, mret None).

Definition forloop : PM Node :=
  _ ←? scan_type TYPE_RES_FOR;
  def ← on_err (runWithCatch2 defineAndAssign) (λ n, mret (Some n)) (λ _,
        ignore_err (runWithCatch2 assign));
  on_err (scan_type TYPE_SEMI)
    (λ _,
      b ← ignore_err boolexp;
      _ ←? scan_type TYPE_SEMI;
      a ← ignore_err assign;
      st ←? k_statementBlock K;
      ret_ok (ForNode b def a st))
    (λ _, st ←? k_statementBlock K; ret_ok (ForNode None def None st)).

(** A statement that cannot be parsed becomes an [ErrSTNode] with the text up
    to the end of the line; [rune_cap] as in [SkipLn]. *)
Definition err_statement (rune_cap : nat → nat) (ch1 : nat) : LM Node :=
  GobackTo ch1;;
  '(src, ln) ← SkipLn rune_cap;
  mret (ErrSTNode ln src).
Definition statement_body (rune_cap : nat → nat) (ch1 : nat) : LM Node :=
  on_err (scan_type TYPE_RES_AWAIT) (λ _, e ← allexp; mret (ExpSt (AwaitNode e))) (λ _,
  on_err (first_of (runWithCatch2 continueST)
      [runWithCatch2 breakST; runWithCatch2 yield; runWithCatch2 forloop;
       runWithCatch2 defineAndAssign; runWithCatch2 ifstatement; runWithCatch2 assign;
       runWithCatch2 define; runWithCatch2 returnST]) mret (λ _,
    c0 ← SetCheckpoint;
    '(c, _, _) ← Scan;
    if c =? TYPE_VAR then GobackTo c0;; cf ← callFunc; _ ← empty; mret (ExpSt cf)
    else if c =? TYPE_NL then GobackTo c0;; empty
    else err_statement rune_cap ch1)).
Definition statement (rune_cap : nat → nat) : LM Node :=
  ch1 ← SetCheckpoint;
  recovering (statement_body rune_cap ch1) (err_statement rune_cap ch1).

Fixpoint statement_loop (rune_cap : nat → nat) (fuel : nat) (children : list Node) : LM (list Node) :=
  match fuel with
  | O => no_fuel
  | S fuel =>
    n ← statement rune_cap;
    '(c, _, _) ← PeekToken;
    if c =? TYPE_RB then mret (children ++ [n]) else statement_loop rune_cap fuel (children ++ [n])
  end.
Definition statementList (rune_cap : nat → nat) : LM Node :=
  fuel ← lex_fuel; ch ← statement_loop rune_cap fuel []; mret (SLNode ch).
Definition statementBlock (rune_cap : nat → nat) : PM Node :=
  _ ←? scan_type TYPE_LB;
  n ← statementList rune_cap;
  _ ←? scan_type TYPE_RB;
  ret_ok n.
End exp.

(** ** The knot *)
Section parser.
Context (p : Parser) (rune_cap : nat → nat).

Definition no_knot : knot :=
  mk_knot no_fuel no_fuel no_fuel no_fuel no_fuel no_fuel no_fuel.
Definition tie (K : knot) : knot := {|
  k_exp := exp p K; k_allexp := allexp p K; k_boolean := boolean p K; k_boolexp := boolexp p K;
  k_callFunc := callFunc p K; k_ifstatement := ifstatement p K;
  k_statementBlock := statementBlock p K rune_cap |}.
Fixpoint parser_knot (fuel : nat) : knot :=
  match fuel with O => no_knot | S fuel => tie (parser_knot fuel) end.

Definition parse_allexp : LM ExpNode := fuel ← lex_fuel; allexp p (parser_knot fuel).
Definition parse_statement : LM Node := fuel ← lex_fuel; statement p (parser_knot fuel) rune_cap.
Definition parse_statementBlock : PM Node :=
  fuel ← lex_fuel; statementBlock p (parser_knot fuel) rune_cap.
End parser.

Example parse_example :
  parse_allexp (mk_parser [] []) id (SetInput (runes_of "a . b [ i + 1 ] * ( 2 - f ( x , 3 ) ) == y ;")) =
  Ret (CompareNode TYPE_EQ
    (BinNode TYPE_MUL
      (VarExp (mk_VarBlockNode (runes_of "a") []
        (Some (mk_VarBlockNode (runes_of "b")
          [BinNode TYPE_PLUS (VarExp (mk_VarBlockNode (runes_of "i") [] None 7)) (NumNode (IntVal 8 1))] None 3)) 0))
      (BinNode TYPE_SUB (NumNode (IntVal 8 2))
        (CallFuncNode [VarExp (mk_VarBlockNode (runes_of "x") [] None 27); NumNode (IntVal 8 3)]
          (VarExp (mk_VarBlockNode (runes_of "f") [] None 23)) None [])))
    (VarExp (mk_VarBlockNode (runes_of "y") [] None 40)))
   (mk_lexer (runes_of "a . b [ i + 1 ] * ( 2 - f ( x , 3 ) ) == y ;") 42).
Proof. vm_compute. reflexivity. Qed.
