(* ===== verification/ParserTheorems.v ===== *)
(** * Theorems about the parser: numbers, positions, termination of types *)
From S2P Require Import Prelude Lexer LexerTheorems Ast ParserTypes ParserExp.
#[local] Open Scope Z_scope.
#[local] Open Scope parser_scope.

(** ** Integer literals *)

Lemma digit_value_nonneg c d : digit_value c = Some d → 0 <= d.
Proof.
  unfold digit_value, isNum. intros H.
  repeat match type of H with context [if ?b then _ else _] => destruct b eqn:? end; simplify_eq; lia.
Qed.
Lemma digits_value_nonneg base acc s n : 0 <= base → 0 <= acc → digits_value base acc s = Some n → 0 <= n.
Proof.
  intros Hb. revert acc. induction s as [|c s IH]; intros acc Hacc; cbn [digits_value]; [by intros [= <-]|].
  destruct (digit_value c) as [d|] eqn:Hd; [|done]. destruct (d <? base); [|done].
  apply IH. apply digit_value_nonneg in Hd. nia.
Qed.
Lemma numeral_nonneg base s n : 0 <= base → numeral base s = Some n → 0 <= n.
Proof. intros Hb. unfold numeral. destruct s; [done|]. by apply digits_value_nonneg. Qed.

(** The widths [ParseInt] tries. *)
Definition widths : list Z := [8; 16; 32; 64].

Lemma parse_int_decimal s n : (∀ bw, strconv_ParseInt s 10 bw = if n <? 2 ^ (bw - 1) then Some n else None) →
  match parse_int_loop 4 s 10 8 with
  | Some (v, bw) => v = n ∧ bw ∈ widths ∧ n < 2 ^ (bw - 1) ∧ (bw = 8 ∨ 2 ^ (bw / 2 - 1) <= n)
  | None => 2 ^ 63 <= n
  end.
Proof.
  intros Hs. cbn [parse_int_loop]. rewrite !Hs. change (10 =? 10) with true. cbn [negb].
  cbn -[Z.ltb Z.pow]. rewrite ?Z.pow_pos_fold.
  repeat match goal with |- context [if ?a <? ?b then _ else _] => destruct (Z.ltb_spec a b) end.
  all: first [assumption | (split_and!; [done | bdone | assumption | first [by left | right; assumption]])].
Qed.
Lemma parse_int_based s base n : base ≠ 10 → numeral base s = Some n → 0 <= n →
  match parse_int_loop 4 s base 8 with
  | Some (v, bw) => v mod 2 ^ bw = n ∧ bw ∈ widths ∧ n < 2 ^ bw ∧ (bw = 8 ∨ 2 ^ (bw / 2) <= n)
  | None => 2 ^ 64 <= n
  end.
Proof.
  intros Hb Hn Hpos. cbn [parse_int_loop]. unfold ParseUint. rewrite Hn, (proj2 (Z.eqb_neq _ _) Hb).
  cbn -[Z.ltb Z.pow int64_of_uint64 Z.modulo]. rewrite ?Z.pow_pos_fold.
  repeat match goal with |- context [if ?a <? ?b then _ else _] => destruct (Z.ltb_spec a b) end;
    cbn -[Z.ltb Z.pow int64_of_uint64 Z.modulo]; rewrite ?Z.pow_pos_fold; try assumption.
  all: split_and!; [|bdone|assumption|first [by left | right; assumption]].
  all: unfold int64_of_uint64; destruct (Z.ltb_spec n (2 ^ 63)); [by rewrite Z.mod_small|].
  all: try lia. rewrite <- (Z_mod_plus_full _ 1), Z.mul_1_l, Z.sub_add. by apply Z.mod_small.
Qed.

Lemma strconv_ParseInt_digits c w n bw : isNum c = true → numeral 10 (c :: w) = Some n →
  strconv_ParseInt (c :: w) 10 bw = if n <? 2 ^ (bw - 1) then Some n else None.
Proof.
  intros Hc Hn. unfold strconv_ParseInt.
  assert (Hm : c =? ch "-" = false) by (unfold isNum in Hc; change (ch "-") with 45; lia).
  assert (Hp : c =? ch "+" = false) by (unfold isNum in Hc; change (ch "+") with 43; lia).
  by rewrite Hm, Hp, Hn.
Qed.
(** A text of digits has no base prefix. *)
Lemma no_prefix c w p : isNum c = true → forallb isNum w = true →
  isNum p = false → take 2 (c :: w) = [ch "0"; p] → False.
Proof. intros Hc Hw Hp Ht. destruct w as [|d w]; simplify_eq/=. by rewrite Hp in Hw. Qed.
Lemma ParseInt_no_prefix c w : isNum c = true → forallb isNum w = true →
  ParseInt (c :: w) = parse_int_loop 4 (c :: w) 10 8.
Proof.
  intros Hc Hw. unfold ParseInt. destruct (2 <? _); [|done].
  repeat (destruct (decide _) as [Ht|_]; [exfalso; by eapply no_prefix in Ht|]). done.
Qed.

(** The prefixes and their bases. *)
Definition prefixes : list (string * Z) := [("0x", 16); ("0b", 2); ("0o", 8)].
Lemma ParseInt_prefix pre base w : (pre, base) ∈ prefixes → w ≠ [] →
  ParseInt (runes_of pre ++ w) = parse_int_loop 4 w base 8 ∧ base ≠ 10 ∧ 0 <= base.
Proof.
  intros Hin Hw. destruct w as [|c w]; [done|]. unfold prefixes in Hin.
  assert (Hlen : ∀ c1 c2, 2 <? Z.of_nat (length (c1 :: c2 :: c :: w)) = true) by (intros; apply Z.ltb_lt; cbn [length]; lia).
  repeat (apply elem_of_cons in Hin as [Hin|Hin];
    [injection Hin as -> ->; split; [|done]; unfold ParseInt; cbn [runes_of app]; rewrite Hlen;
     repeat (destruct (decide _) as [Ht|Ht]; [try discriminate Ht|]); done|]).
  by apply not_elem_of_nil in Hin.
Qed.

(** C30. The value and the width of an integer literal.  A decimal literal gets
    its value and the narrowest of the widths 8, 16, 32 and 64 in which the
    value is representable as a signed number, and is rejected from 2^63 on.
    A literal with one of the prefixes 0x, 0b and 0o gets the narrowest width
    in which its value is representable as an unsigned number (so 0b11111111
    has eight bits although 255 has sixteen), the bits of the constant are the
    value's, and it is rejected from 2^64 on. *)
Theorem ParseInt_correct :
  (∀ c w n, isNum c = true → forallb isNum w = true → numeral 10 (c :: w) = Some n →
    match ParseInt (c :: w) with
    | Some (v, bw) => v = n ∧ bw ∈ widths ∧ n < 2 ^ (bw - 1) ∧ (bw = 8 ∨ 2 ^ (bw / 2 - 1) <= n)
    | None => 2 ^ 63 <= n
    end) ∧
  (∀ pre base w n, (pre, base) ∈ prefixes → numeral base w = Some n →
    match ParseInt (runes_of pre ++ w) with
    | Some (v, bw) => v mod 2 ^ bw = n ∧ bw ∈ widths ∧ n < 2 ^ bw ∧ (bw = 8 ∨ 2 ^ (bw / 2) <= n)
    | None => 2 ^ 64 <= n
    end).
Proof.
  split.
  - intros c w n Hc Hw Hn. rewrite ParseInt_no_prefix by done. apply parse_int_decimal.
    intros bw. by apply strconv_ParseInt_digits.
  - intros pre base w n Hin Hn.
    destruct (ParseInt_prefix pre base w Hin) as (-> & Hb & Hpos); [by intros ->|].
    apply parse_int_based; [done..|]. by eapply numeral_nonneg.
Qed.
Lemma ParseInt_correct_witness :
  (let '(v, bw) := default (0, 0) (ParseInt (runes_of "255")) in
   v = 255 ∧ bw ∈ widths ∧ 255 < 2 ^ (bw - 1) ∧ (bw = 8 ∨ 2 ^ (bw / 2 - 1) <= 255)) ∧
  (let '(v, bw) := default (0, 0) (ParseInt (runes_of "0b" ++ runes_of "11111111")) in
   v mod 2 ^ bw = 255 ∧ bw ∈ widths ∧ 255 < 2 ^ bw ∧ (bw = 8 ∨ 2 ^ (bw / 2) <= 255)) ∧
  snd <$> ParseInt (runes_of "255") = Some 16 ∧ snd <$> ParseInt (runes_of "0b11111111") = Some 8.
Proof.
  destruct ParseInt_correct as [H1 H2]. split_and!; [| |reflexivity..].
  - exact (H1 (ch "2") (runes_of "55") 255 eq_refl eq_refl eq_refl).
  - refine (H2 "0b"%string 2 (runes_of "11111111") 255 _ eq_refl). bdone.
Defined.

(** ** Positions

    [keeps R c m]: run on the input [R] from a position not before [c], [m]
    leaves the input and a position not before [c]. *)
Create HintDb keeps.
Definition keeps {A} (R : text) (c : nat) (m : LM A) : Prop :=
  ∀ l, runes l = R → (c ≤ pos l)%nat →
    match m l with Ret _ l' => runes l' = R ∧ (c ≤ pos l')%nat | _ => True end.

Section keeps.
Context (R : text) (c : nat).

Lemma keeps_ret {A} (a : A) : keeps R c (mret a).
Proof. by intros l. Qed.
Lemma keeps_bind {A B} (m : LM A) (k : A → LM B) :
  keeps R c m → (∀ a, keeps R c (k a)) → keeps R c (m ≫= k).
Proof.
  intros Hm Hk l Hr Hp. specialize (Hm l Hr Hp). unfold mbind, LM_bind. destruct (m l); try done.
  destruct Hm. by apply Hk.
Qed.
Lemma keeps_cp {B} (k : nat → LM B) :
  (∀ c', (c ≤ c')%nat → keeps R c (k c')) → keeps R c (SetCheckpoint ≫= k).
Proof. intros Hk l Hr Hp. unfold mbind, LM_bind, SetCheckpoint. by apply Hk. Qed.
Lemma keeps_goback c' : (c ≤ c')%nat → keeps R c (GobackTo c').
Proof. by intros Hc l Hr Hp. Qed.
Lemma keeps_reads {A} (m : LM A) :
  (∀ l, match m l with Ret _ l' => runes l' = runes l ∧ (pos l ≤ pos l')%nat | _ => True end) → keeps R c m.
Proof.
  intros Hm l Hr Hp. specialize (Hm l). destruct (m l); try done. destruct Hm as [-> ?]. split; [done|lia].
Qed.
Lemma keeps_panic {A} : keeps R c (@panic A).
Proof. done. Qed.
Lemma keeps_no_fuel {A} : keeps R c (@no_fuel A).
Proof. done. Qed.
Lemma keeps_Scan : keeps R c Scan.
Proof.
  apply keeps_reads. intros l. pose proof (Scan_ok l) as H. unfold ok in H.
  destruct (Scan l) as [[[? ?] ?] l'| | |]; try done. destruct H as [(? & ? & ?) _]. done.
Qed.
Lemma keeps_lex_fuel : keeps R c lex_fuel.
Proof. by apply keeps_reads. Qed.
Lemma keeps_GetPos : keeps R c GetPos.
Proof. by apply keeps_reads. Qed.
Lemma keeps_recovering {A} (m h : LM A) : keeps R c m → keeps R c h → keeps R c (recovering m h).
Proof.
  intros Hm Hh l Hr Hp. specialize (Hm l Hr Hp). unfold recovering. destruct (m l); try done. by apply Hh.
Qed.
Lemma keeps_getChSkipEmpty fuel : keeps R c (getChSkipEmpty fuel).
Proof.
  induction fuel as [|fuel IH]; [by intros l|]. cbn [getChSkipEmpty]. apply keeps_bind.
  - apply keeps_reads. intros l. pose proof (getCh_ok l) as H. unfold ok in H.
    destruct (getCh l) as [[? ?] l'| | |]; try done. destruct H as (? & ? & _). split; [done|lia].
  - intros [x e]. destruct e; [apply keeps_ret|]. destruct (_ || _); [done|apply keeps_ret].
Qed.
Lemma keeps_on_err {A B} (m : PM A) (ok : A → LM B) (err : perr → LM B) :
  keeps R c m → (∀ a, keeps R c (ok a)) → (∀ e, keeps R c (err e)) → keeps R c (on_err m ok err).
Proof. intros Hm Hok Herr. apply keeps_bind; [done|]. by intros [a|e]. Qed.
Lemma keeps_bind_err {A B} (m : PM A) (k : A → PM B) :
  keeps R c m → (∀ a, keeps R c (k a)) → keeps R c (bind_err m k).
Proof. intros Hm Hk. apply keeps_bind; [done|]. intros [a|e]; [done|apply keeps_ret]. Qed.
Lemma keeps_bind_panic {A B} (m : PM A) (k : A → LM B) :
  keeps R c m → (∀ a, keeps R c (k a)) → keeps R c (bind_panic m k).
Proof. intros Hm Hk. apply keeps_bind; [done|]. intros [a|e]; [done|apply keeps_panic]. Qed.
End keeps.

(** Splits a computation into its parts. *)
Ltac keeps_step :=
  match goal with
  | |- keeps _ _ (mret _) => apply keeps_ret
  | |- keeps _ _ (ret_ok _) => apply keeps_ret
  | |- keeps _ _ (ret_err _) => apply keeps_ret
  | |- keeps _ _ panic => apply keeps_panic
  | |- keeps _ _ no_fuel => apply keeps_no_fuel
  | |- keeps _ _ (SetCheckpoint ≫= _) => apply keeps_cp; intros ? ?
  | |- keeps _ _ (GobackTo _) => apply keeps_goback; lia
  | |- keeps _ _ (_ ≫= _) => apply keeps_bind; [|intros ?]
  | |- keeps _ _ (on_err _ _ _) => apply keeps_on_err; [|intros ?|intros ?]
  | |- keeps _ _ (bind_err _ _) => apply keeps_bind_err; [|intros ?]
  | |- keeps _ _ (bind_panic _ _) => apply keeps_bind_panic; [|intros ?]
  | |- keeps _ _ (let '(_, _) := ?x in _) => destruct x
  | |- keeps _ _ (if ?b then _ else _) => destruct b
  | |- keeps _ _ (match ?x with _ => _ end) => destruct x
  | |- keeps _ _ _ => solve [eauto with keeps]
  end.
Ltac keep := repeat keeps_step.
#[export] Hint Resolve keeps_Scan keeps_lex_fuel keeps_GetPos keeps_getChSkipEmpty : keeps.

(** *** Combinators and types *)
Section keeps_types.
Context (R : text) (c : nat).

Lemma keeps_ScanType code : keeps R c (ScanType code).
Proof. unfold ScanType, scan_type_token. keep. Qed.
#[local] Hint Resolve keeps_ScanType : keeps.
Lemma keeps_scan_type code : keeps R c (scan_type code).
Proof. unfold scan_type. keep. Qed.
#[local] Hint Resolve keeps_scan_type : keeps.
Lemma keeps_PeekToken : keeps R c PeekToken.
Proof. unfold PeekToken. keep. Qed.
Lemma keeps_restoring {A} (m : PM A) : keeps R c m → keeps R c (restoring m).
Proof. intros Hm. unfold restoring. keep. Qed.
Lemma keeps_runWithCatch {A} (f : LM A) : keeps R c f → keeps R c (runWithCatch f).
Proof. intros Hm. unfold runWithCatch. apply keeps_recovering; keep. Qed.
Lemma keeps_runWithCatch2 {A} (f : PM A) : keeps R c f → keeps R c (runWithCatch2 f).
Proof.
  intros Hm. unfold runWithCatch2. apply keeps_cp. intros c' Hc. apply keeps_bind; [|intros []; keep].
  apply keeps_recovering; keep.
Qed.
Lemma keeps_first_of {A} (m : PM A) ms :
  keeps R c m → Forall (keeps R c) ms → keeps R c (first_of m ms).
Proof.
  intros Hm Hms. revert m Hm. induction Hms as [|m' ms Hm' Hms IH]; intros m Hm; [done|]. cbn [first_of].
  apply keeps_on_err; [done|intros; apply keeps_ret|]. intros _. by apply IH.
Qed.
Lemma keeps_empty : keeps R c empty.
Proof. unfold empty. keep. Qed.
#[local] Hint Resolve keeps_empty keeps_restoring keeps_runWithCatch keeps_runWithCatch2 : keeps.
Lemma keeps_scan_stars fuel n : keeps R c (scan_stars fuel n).
Proof. revert n. induction fuel; intros; cbn [scan_stars]; keep. Qed.
Lemma keeps_genericParams : keeps R c genericParams.
Proof.
  assert (Hloop : ∀ fuel n, keeps R c (generic_params_loop fuel n))
    by (induction fuel; intros; cbn [generic_params_loop]; keep).
  apply keeps_restoring. keep.
Qed.

Context (p : Parser) (rec : PM TypeNode) (Hrec : keeps R c rec).
#[local] Hint Resolve Hrec keeps_scan_stars : keeps.
Lemma keeps_funcParam : keeps R c (funcParam rec).
Proof. unfold funcParam. keep. Qed.
#[local] Hint Resolve keeps_funcParam : keeps.
Lemma keeps_funcParams : keeps R c (funcParams rec).
Proof.
  assert (Hloop : ∀ fuel n, keeps R c (func_params_loop rec fuel n))
    by (induction fuel; intros; cbn [func_params_loop]; keep).
  unfold funcParams, extFuncParam. keep.
Qed.
Lemma keeps_genericCallParams : keeps R c (genericCallParams rec).
Proof.
  assert (Hloop : ∀ fuel n, keeps R c (generic_call_loop rec fuel n))
    by (induction fuel; intros; cbn [generic_call_loop]; keep).
  apply keeps_restoring. keep.
Qed.
#[local] Hint Resolve keeps_funcParams keeps_genericCallParams : keeps.
Lemma keeps_opt_generics : keeps R c (opt_generics rec).
Proof. unfold opt_generics. keep. Qed.
#[local] Hint Resolve keeps_opt_generics : keeps.
Lemma keeps_arrayTypes : keeps R c (arrayTypes rec).
Proof. apply keeps_restoring. keep. Qed.
Lemma keeps_basicTypes : keeps R c (basicTypes p rec).
Proof. apply keeps_restoring. keep. Qed.
Lemma keeps_funcTypes : keeps R c (funcTypes rec).
Proof. unfold funcTypes. keep. Qed.
Lemma keeps_structType : keeps R c (structType rec).
Proof.
  assert (Hloop : ∀ fuel n, keeps R c (struct_fields rec fuel n))
    by (induction fuel; intros; cbn [struct_fields]; keep).
  unfold structType. keep.
Qed.
Lemma keeps_interfaceType : keeps R c (interfaceType rec).
Proof.
  assert (Hloop : ∀ fuel f n, keeps R c (interface_funcs rec fuel f n))
    by (induction fuel; intros; cbn [interface_funcs]; keep).
  unfold interfaceType. keep.
Qed.
Lemma keeps_allTypes_body : keeps R c (allTypes_body p rec).
Proof.
  unfold allTypes_body. keeps_step; [keep|]. keeps_step; [keep|].
  apply keeps_bind_err; [|intros; keep]. apply keeps_first_of; [apply keeps_structType|].
  repeat apply Forall_cons_2; eauto using Forall_nil_2, keeps_interfaceType, keeps_basicTypes, keeps_arrayTypes, keeps_funcTypes.
Qed.
End keeps_types.
#[export] Hint Resolve keeps_scan_type keeps_PeekToken keeps_restoring keeps_runWithCatch
  keeps_runWithCatch2 keeps_empty keeps_scan_stars keeps_opt_generics keeps_arrayTypes
  keeps_funcTypes keeps_genericCallParams : keeps.

Lemma keeps_allTypes R c p : keeps R c (allTypes p).
Proof.
  unfold allTypes. keeps_step; [keep|].
  match goal with |- keeps _ _ (allTypes_fuel _ ?n) => induction n end; [by intros l|].
  by apply keeps_allTypes_body.
Qed.
#[export] Hint Resolve keeps_allTypes : keeps.

(** *** Expressions and statements *)
Definition knot_keeps (R : text) (c : nat) (K : knot) : Prop :=
  keeps R c (k_exp K) ∧ keeps R c (k_allexp K) ∧ keeps R c (k_boolean K) ∧ keeps R c (k_boolexp K) ∧
  keeps R c (k_callFunc K) ∧ keeps R c (k_ifstatement K) ∧ keeps R c (k_statementBlock K).

Section keeps_exp.
Context (p : Parser) (rune_cap : nat → nat) (R : text) (c : nat) (K : knot) (HK : knot_keeps R c K).

Lemma k_exp_keeps : keeps R c (k_exp K). Proof. apply HK. Qed.
Lemma k_allexp_keeps : keeps R c (k_allexp K). Proof. apply HK. Qed.
Lemma k_boolean_keeps : keeps R c (k_boolean K). Proof. apply HK. Qed.
Lemma k_boolexp_keeps : keeps R c (k_boolexp K). Proof. apply HK. Qed.
Lemma k_callFunc_keeps : keeps R c (k_callFunc K). Proof. apply HK. Qed.
Lemma k_ifstatement_keeps : keeps R c (k_ifstatement K). Proof. apply HK. Qed.
Lemma k_statementBlock_keeps : keeps R c (k_statementBlock K). Proof. apply HK. Qed.
#[local] Hint Resolve k_exp_keeps k_allexp_keeps k_boolean_keeps k_boolexp_keeps k_callFunc_keeps
  k_ifstatement_keeps k_statementBlock_keeps : keeps.

(** The same, into the functions that catch. *)
Ltac keeps_step2 :=
  match goal with
  | |- keeps _ _ (restoring _) => apply keeps_restoring
  | |- keeps _ _ (runWithCatch _) => apply keeps_runWithCatch
  | |- keeps _ _ (runWithCatchExp _) => apply keeps_runWithCatch
  | |- keeps _ _ (runWithCatch2 _) => apply keeps_runWithCatch2
  | |- keeps _ _ (runWithCatch2Exp _) => apply keeps_runWithCatch2
  | _ => keeps_step
  end.
Ltac keep ::= repeat keeps_step2.
(** Alternatives. *)
Ltac keep_alts := apply keeps_first_of; [|repeat apply Forall_cons_2; [..|apply Forall_nil_2]]; eauto with keeps.

Lemma keeps_varBlock : keeps R c (varBlock K).
Proof.
  assert (Hloop : ∀ fuel n, keeps R c (idx_loop K fuel n)) by (induction fuel; intros; cbn [idx_loop]; keep).
  unfold varBlock. keep.
Qed.
#[local] Hint Resolve keeps_varBlock : keeps.
Lemma keeps_varChain : keeps R c (varChain p K).
Proof.
  assert (Hloop : ∀ fuel n, keeps R c (chain_loop K fuel n)) by (induction fuel; intros; cbn [chain_loop]; keep).
  unfold varChain. keep.
Qed.
#[local] Hint Resolve keeps_varChain : keeps.
Lemma keeps_callFunc : keeps R c (callFunc p K).
Proof.
  assert (Hparams : ∀ fuel n, keeps R c (call_params_loop K fuel n))
    by (induction fuel; intros; cbn [call_params_loop]; keep).
  assert (Hnext : ∀ fuel n, keeps R c (call_next_loop p K fuel n))
    by (induction fuel; intros; cbn [call_next_loop]; unfold runWithCatchExp; keep).
  unfold callFunc, runWithCatch2Exp. keep.
Qed.
Lemma keeps_arrayInit : keeps R c (arrayInit p K).
Proof.
  assert (Hloop : ∀ fuel n, keeps R c (array_vals_loop K fuel n))
    by (induction fuel; intros; cbn [array_vals_loop]; keep).
  unfold arrayInit. keep.
Qed.
Lemma keeps_structInit : keeps R c (structInit p K).
Proof.
  assert (Hloop : ∀ fuel n, keeps R c (struct_vals_loop K fuel n))
    by (induction fuel; intros; cbn [struct_vals_loop]; keep).
  unfold structInit. keep.
Qed.
#[local] Hint Resolve keeps_callFunc keeps_arrayInit keeps_structInit : keeps.
Lemma keeps_takePtrExp : keeps R c (takePtrExp p K).
Proof. unfold takePtrExp, runWithCatch2Exp. keeps_step; [keep|]. keeps_step; [keep_alts|keep]. Qed.
Lemma keeps_takeValExp : keeps R c (takeValExp p K).
Proof.
  unfold takeValExp, runWithCatch2Exp, runWithCatchExp. keeps_step; [keep|]. keeps_step; [keep|].
  keeps_step; [keep_alts|keep].
Qed.
#[local] Hint Resolve keeps_takePtrExp keeps_takeValExp : keeps.
Lemma keeps_number : keeps R c (number p K).
Proof. unfold number, runWithCatch2Exp, strExp. keep. Qed.
#[local] Hint Resolve keeps_number : keeps.
Lemma keeps_symbol : keeps R c (symbol p K).
Proof. unfold symbol. keep. Qed.
#[local] Hint Resolve keeps_symbol : keeps.
Lemma keeps_binary ops operand : keeps R c operand → keeps R c (binary ops operand).
Proof.
  intros Hop. assert (Hloop : ∀ fuel a, keeps R c (binary_loop fuel ops operand a))
    by (induction fuel; intros; cbn [binary_loop]; keep).
  unfold binary. keep.
Qed.
Lemma keeps_exp : keeps R c (exp p K).
Proof. repeat apply keeps_binary. keep. Qed.
#[local] Hint Resolve keeps_exp : keeps.
Lemma keeps_boolean : keeps R c (boolean p K).
Proof. apply keeps_restoring. unfold runWithCatchExp, nilExp. keep. Qed.
#[local] Hint Resolve keeps_boolean : keeps.
Lemma keeps_compare : keeps R c (compare p K).
Proof.
  assert (Hloop : ∀ fuel n, keeps R c (compare_loop p K fuel n))
    by (induction fuel; intros; cbn [compare_loop]; unfold runWithCatch2Exp; keep).
  apply keeps_restoring. unfold runWithCatch2Exp. keep.
Qed.
#[local] Hint Resolve keeps_compare : keeps.
Lemma keeps_bitOp : keeps R c (bitOp p K).
Proof.
  assert (Hloop : ∀ fuel n, keeps R c (bit_loop p K fuel n)) by (induction fuel; intros; cbn [bit_loop]; keep).
  apply keeps_restoring. keep.
Qed.
#[local] Hint Resolve keeps_bitOp : keeps.
Lemma keeps_boolexp : keeps R c (boolexp p K).
Proof. apply keeps_restoring. keep. Qed.
Lemma keeps_inlineFunc : keeps R c (inlineFunc p K).
Proof. unfold inlineFunc. keep. Qed.
#[local] Hint Resolve keeps_boolexp keeps_inlineFunc : keeps.
Lemma keeps_allexp : keeps R c (allexp p K).
Proof. unfold allexp, runWithCatch2Exp. keep. Qed.
#[local] Hint Resolve keeps_allexp : keeps.

Lemma keeps_assign : keeps R c (assign p K).
Proof. apply keeps_restoring. unfold runWithCatch2Exp. keep. Qed.
Lemma keeps_define : keeps R c (define p).
Proof. unfold define. keep. Qed.
Lemma keeps_defineAndAssign : keeps R c (defineAndAssign p K).
Proof. apply keeps_restoring. keep. Qed.
#[local] Hint Resolve keeps_assign keeps_define keeps_defineAndAssign : keeps.
Lemma keeps_ifstatement : keeps R c (ifstatement p K).
Proof. unfold ifstatement. do 3 (keeps_step; [keep|]). keeps_step; [keep| |keep]. keeps_step; [keep_alts|keep]. Qed.
Lemma keeps_forloop : keeps R c (forloop p K).
Proof. unfold forloop, ignore_err. keep. Qed.
#[local] Hint Resolve keeps_ifstatement keeps_forloop : keeps.

Lemma keeps_SkipLn : keeps R c (SkipLn rune_cap).
Proof.
  assert (Hloop : ∀ fuel p n, keeps R c (skip_ln_loop fuel p n)).
  { induction fuel; intros; cbn [skip_ln_loop]; keep. by apply keeps_reads. }
  intros l. unfold SkipLn. destruct (_ <=? _)%nat; [|done]. apply Hloop.
Qed.
#[local] Hint Resolve keeps_SkipLn : keeps.
Lemma keeps_statement : keeps R c (statement p K rune_cap).
Proof.
  unfold statement. keeps_step. apply keeps_recovering; [|unfold err_statement; keep].
  unfold statement_body. keeps_step; [keep..|]. keeps_step; [|keep|unfold err_statement; keep].
  keep_alts; apply keeps_runWithCatch2; unfold continueST, breakST, yield, returnST, runWithCatchExp; keep.
Qed.
#[local] Hint Resolve keeps_statement : keeps.
Lemma keeps_statementBlock : keeps R c (statementBlock p K rune_cap).
Proof.
  assert (Hloop : ∀ fuel n, keeps R c (statement_loop p K rune_cap fuel n))
    by (induction fuel; intros; cbn [statement_loop]; keep).
  unfold statementBlock, statementList. keep.
Qed.
Lemma knot_keeps_tie : knot_keeps R c (tie p rune_cap K).
Proof. unfold knot_keeps, tie. cbn. split_and!; eauto using keeps_statementBlock with keeps. Qed.
End keeps_exp.

Lemma parser_knot_keeps p rune_cap R c fuel : knot_keeps R c (parser_knot p rune_cap fuel).
Proof. induction fuel as [|fuel IH]; [by repeat split|]. by apply knot_keeps_tie. Qed.

(** ** Errors restore the position *)

(** Where [m] returns an error, the lexer is as before. *)
Definition backtracks {A} (m : PM A) : Prop :=
  ∀ l, match m l with Ret (inr _) l' => l' = l | _ => True end.
Lemma restoring_backtracks {A} (m : PM A) : (∀ R c, keeps R c (restoring m)) → backtracks (restoring m).
Proof.
  intros Hm l. specialize (Hm (runes l) (pos l) l eq_refl (le_n _)). revert Hm.
  unfold restoring, mbind, LM_bind, SetCheckpoint.
  destruct (m l) as [[a|e] l'| | |]; try done. intros [Hr _]. by apply lexer_eq.
Qed.
Lemma runWithCatch_backtracks {A} (m : LM A) : backtracks (runWithCatch m).
Proof.
  intros l. unfold runWithCatch, recovering, mbind, LM_bind. by destruct (m l).
Qed.
Lemma runWithCatch2_backtracks {A} (m : PM A) : (∀ R c, keeps R c (runWithCatch2 m)) → backtracks (runWithCatch2 m).
Proof.
  intros Hm l. specialize (Hm (runes l) (pos l) l eq_refl (le_n _)). revert Hm.
  unfold runWithCatch2, recovering, mbind, LM_bind, SetCheckpoint.
  destruct (m l) as [[a|e] l'| | |]; try done; [|by intros; apply lexer_eq].
  intros [Hr _]. by apply lexer_eq.
Qed.

(** The headers of a file *)
Lemma keeps_pkgDeclare R c : keeps R c pkgDeclare.
Proof. unfold pkgDeclare. keep. Qed.
Lemma keeps_importStatement R c : keeps R c importStatement.
Proof.
  assert (Hloop : ∀ fuel im, keeps R c (import_loop fuel im)) by (induction fuel; intros; cbn [import_loop]; keep).
  unfold importStatement. keep.
Qed.

(** C21. The position invariant of the parser.  Reading an expression, a
    statement, a block, a type or one of the headers of a file leaves the input
    as it is and the position not before where it was, through all the
    backtracking.  The functions that
    promise to restore the position when they return an error do so exactly
    (boolexp, bitOp, compare, boolean, assign, defineAndAssign, arrayTypes,
    basicTypes, genericCallParams), as does everything run by runWithCatch2,
    also when it panics. *)
Theorem parser_positions p rune_cap fuel :
  let K := parser_knot p rune_cap fuel in
  (∀ l, match allexp p K l with Ret _ l' => runes l' = runes l ∧ (pos l ≤ pos l')%nat | _ => True end) ∧
  (∀ l, match statement p K rune_cap l with Ret _ l' => runes l' = runes l ∧ (pos l ≤ pos l')%nat | _ => True end) ∧
  (∀ l, match statementBlock p K rune_cap l with Ret _ l' => runes l' = runes l ∧ (pos l ≤ pos l')%nat | _ => True end) ∧
  (∀ l, match allTypes p l with Ret _ l' => runes l' = runes l ∧ (pos l ≤ pos l')%nat | _ => True end) ∧
  (∀ l, match pkgDeclare l with Ret _ l' => runes l' = runes l ∧ (pos l ≤ pos l')%nat | _ => True end) ∧
  (∀ l, match importStatement l with Ret _ l' => runes l' = runes l ∧ (pos l ≤ pos l')%nat | _ => True end) ∧
  (backtracks (boolexp p K) ∧ backtracks (bitOp p K) ∧ backtracks (compare p K) ∧ backtracks (boolean p K) ∧
   backtracks (assign p K) ∧ backtracks (defineAndAssign p K) ∧ backtracks (arrayTypes (allTypes p)) ∧
   backtracks (basicTypes p (allTypes p)) ∧ backtracks (genericCallParams (allTypes p))) ∧
  (backtracks (runWithCatch2 (takeValExp p K)) ∧ backtracks (runWithCatch2 (inlineFunc p K)) ∧
   backtracks (runWithCatch2 (ifstatement p K)) ∧ backtracks (runWithCatch2 (forloop p K)) ∧
   backtracks (runWithCatch (exp p K))).
Proof.
  cbv zeta. pose proof (λ R c, parser_knot_keeps p rune_cap R c fuel) as HK.
  set (K := parser_knot p rune_cap fuel) in *.
  split_and!; try apply runWithCatch_backtracks.
  1-6: intros l.
  - by apply (keeps_allexp p _ _ K (HK _ _)).
  - by apply (keeps_statement p _ _ _ K (HK _ _)).
  - by apply (keeps_statementBlock p _ _ _ K (HK _ _)).
  - by apply keeps_allTypes.
  - by apply keeps_pkgDeclare.
  - by apply keeps_importStatement.
  - apply restoring_backtracks; intros; by apply (keeps_boolexp p _ _ K).
  - apply restoring_backtracks; intros; by apply (keeps_bitOp p _ _ K).
  - apply restoring_backtracks; intros; by apply (keeps_compare p _ _ K).
  - apply restoring_backtracks; intros; by apply (keeps_boolean p _ _ K).
  - apply restoring_backtracks; intros; by apply (keeps_assign p _ _ K).
  - apply restoring_backtracks; intros; by apply (keeps_defineAndAssign p _ _ K).
  - apply restoring_backtracks; intros; by apply keeps_arrayTypes, keeps_allTypes.
  - apply restoring_backtracks; intros; by apply keeps_basicTypes, keeps_allTypes.
  - apply restoring_backtracks; intros; by apply keeps_genericCallParams, keeps_allTypes.
  - apply runWithCatch2_backtracks; intros; by apply keeps_runWithCatch2, keeps_takeValExp.
  - apply runWithCatch2_backtracks; intros; by apply keeps_runWithCatch2, keeps_inlineFunc.
  - apply runWithCatch2_backtracks; intros; by apply keeps_runWithCatch2, keeps_ifstatement.
  - apply runWithCatch2_backtracks; intros; by apply keeps_runWithCatch2, keeps_forloop.
Qed.
