(* ===== verification/ParserTerm.v ===== *)
(** * Termination of the parser

    A measure for every function of the parser: the number of runes left.  The
    functions of types.go always terminate; the functions for expressions and
    statements terminate unless SkipLn, which reports a statement that cannot
    be parsed, does not find a line end. *)
From S2P Require Import Prelude Lexer LexerTheorems Ast ParserTypes ParserExp ParserTheorems.
#[local] Open Scope Z_scope.
#[local] Open Scope parser_scope.

(** ** Progress of the lexer *)

(** The codes of the end of the input. *)
Definition end_code (r : Z * text * bool) : Prop := let '(c, _, e) := r in e = true → c = 0 ∨ c = -1.
Lemma scan_punct_end c : gives (scan_punct c) end_code.
Proof.
  unfold scan_punct. cbv zeta.
  repeat (apply gives_if; intros _; [first
    [ by apply gives_ret | by apply one_or_two_gives | by apply one_or_two2_gives | idtac ]|]); [|by intros l].
  apply gives_seq. intros [c' e]. apply gives_if; intros He; [|by intros l].
  apply gives_seq. intros _. apply gives_ret. by destruct e.
Qed.
Lemma scan_loop_end fuel : gives (scan_loop fuel) end_code.
Proof.
  induction fuel as [|fuel IH]; [by intros ?|]. cbn [scan_loop].
  apply gives_seq. intros k. apply gives_seq. intros [c e]. apply gives_if; intros He; [apply gives_ret; by left|].
  unfold scan_from. apply gives_seq. intros k'.
  apply gives_if; intros _; [by apply gives_seq; intros i; apply gives_ret|].
  apply gives_if; intros _; [apply gives_seq; intros i; destruct (lookup_word _ _); by apply gives_ret|].
  apply gives_if; intros _.
  { apply gives_seq; intros [? ?]; apply gives_seq; intros ?; apply gives_seq; intros [? ?]; by apply gives_ret. }
  apply gives_if; intros _; [|apply scan_punct_end].
  apply gives_seq; intros [ne e']. apply gives_if; intros _; [|by apply gives_ret].
  apply gives_seq. intros [|]; [done|]. apply gives_ret. by right.
Qed.

(** A code only a token can have; [read]: a rune was left and was read. *)
Definition token_code (code : Z) : Prop := code ≠ 0 ∧ code ≠ -1.
Definition read (l l' : Lexer) : Prop :=
  runes l' = runes l ∧ (pos l ≤ pos l')%nat ∧ (left_of l' < left_of l)%nat.

Lemma Scan_reads l :
  match Scan l with
  | Ret (c, _, _) l' => runes l' = runes l ∧ (pos l ≤ pos l')%nat ∧ (token_code c → read l l')
  | NoFuel => False
  | _ => True
  end.
Proof.
  pose proof (Scan_ok l) as H. unfold LexerTheorems.ok in H.
  assert (He : gives Scan end_code) by (apply gives_seq; intros; apply scan_loop_end). specialize (He l).
  destruct (Scan l) as [[[c t] e] l'| | |]; try done. destruct H as ((Hr & Hp & _) & Hlt & Hleft).
  split_and!; [done..|]. intros [Hc1 Hc2]. destruct e; [by destruct (He eq_refl)|].
  specialize (Hleft eq_refl). unfold read, left_of. rewrite Hr. split_and!; [done|lia|lia].
Qed.

Lemma scan_type_token_reads code l :
  match scan_type_token code l with
  | Ret (inl _) l' => token_code code → read l l'
  | Ret (inr _) _ | Panic | Fatal => True
  | NoFuel => False
  end.
Proof.
  unfold scan_type_token. rewrite (bind_Ret SetCheckpoint _ _ (pos l) l eq_refl).
  pose proof (Scan_reads l) as H. unfold mbind, LM_bind.
  destruct (Scan l) as [[[c t] e] l'| | |]; try done.
  destruct (Z.eqb_spec c code) as [->|_]; [by destruct H as (? & ? & ?)|]. by destruct e.
Qed.
Lemma scan_type_reads code l :
  match scan_type code l with
  | Ret (inl _) l' => token_code code → read l l'
  | Ret (inr _) _ | Panic | Fatal => True
  | NoFuel => False
  end.
Proof.
  unfold scan_type, mbind, LM_bind, ScanType. pose proof (scan_type_token_reads code l) as Htok.
  destruct (code =? TYPE_LG); [|by destruct (scan_type_token code l) as [[?|?] ?| | |]].
  rewrite (bind_Ret SetCheckpoint _ _ (pos l) l eq_refl), lex_fuel_bind.
  pose proof (getChSkipEmpty_ok (S (S (length (runes l)))) l (left_of_fuel l)) as H. unfold LexerTheorems.ok in H.
  unfold mbind, LM_bind.
  destruct (getChSkipEmpty _ l) as [[c e] l'| | |]; try done. destruct H as ((Hr & Hp & _) & Hlt & He).
  destruct e; [done|]. specialize (He eq_refl). destruct (c =? ch ">").
  - intros _. unfold read, left_of. rewrite Hr in *. split_and!; [done|lia|lia].
  - change (GobackTo (pos l) l') with (Ret tt (mk_lexer (runes l') (pos l))).
    replace (mk_lexer (runes l') (pos l)) with l by (by apply lexer_eq). cbn beta iota.
    by destruct (scan_type_token code l) as [[?|?] ?| | |].
Qed.

Lemma left_of_mono l l' : runes l' = runes l → (pos l ≤ pos l')%nat → (left_of l' ≤ left_of l)%nat.
Proof. unfold left_of. intros ->. lia. Qed.

(** ** Terminating computations

    On the input [R], from a state with at most [q] runes left, [m] does not
    run out of fuel (unless [D]); when it returns [a], fewer than [B a] runes
    are left.  [res b e] bounds a successful result by [b], an error by [e]. *)
Create HintDb term.
Section term.
Context (R : text) (D : Prop).

Definition term {A} (B : A → nat) (q : nat) (m : LM A) : Prop :=
  ∀ l, runes l = R → (left_of l ≤ q)%nat →
    match m l with
    | Ret a l' => runes l' = R ∧ (left_of l' < B a)%nat
    | NoFuel => D
    | _ => True
    end.
Definition res {A} (b e : nat) (r : A + perr) : nat := match r with inl _ => b | inr _ => e end.

Lemma term_mono {A} (B B' : A → nat) q q' (m : LM A) :
  term B q m → (q' ≤ q)%nat → (∀ a, B a ≤ B' a)%nat → term B' q' m.
Proof.
  intros Hm Hq HB l Hr Hl. specialize (Hm l Hr ltac:(lia)). destruct (m l) as [a l'| | |]; try done.
  specialize (HB a). destruct Hm. split; [done|lia].
Qed.
Lemma term_ret {A} (B : A → nat) q a : (q < B a)%nat → term B q (mret a).
Proof. intros Ha l Hr Hl. split; [done|lia]. Qed.
Lemma term_panic {A} (B : A → nat) q : term B q panic.
Proof. done. Qed.
Lemma term_bind_eat {A B'} (B : B' → nat) b q (m : LM A) (k : A → LM B') :
  term (λ _, b) q m → (∀ a q', (q' < b)%nat → term B q' (k a)) → term B q (m ≫= k).
Proof.
  intros Hm Hk l Hr Hl. specialize (Hm l Hr Hl). unfold mbind, LM_bind. destruct (m l) as [a l'| | |]; try done.
  destruct Hm as [Hr' Hl']. by apply (Hk a (left_of l')).
Qed.
Lemma term_bind {A B'} (B : B' → nat) q (m : LM A) (k : A → LM B') :
  term (λ _, S q) q m → (∀ a, term B q (k a)) → term B q (m ≫= k).
Proof.
  intros Hm Hk. apply (term_bind_eat B (S q)); [done|]. intros a q' Hq.
  eapply term_mono; [apply Hk|lia|done].
Qed.
Lemma term_fuel {B'} (B : B' → nat) q (k : nat → LM B') :
  (∀ fuel q', (q' ≤ q)%nat → (q' < fuel)%nat → term B q' (k fuel)) → term B q (lex_fuel ≫= k).
Proof.
  intros Hk l Hr Hl. rewrite lex_fuel_bind. by apply (Hk _ (left_of l)); [|apply left_of_fuel|..].
Qed.
Lemma term_cp {B'} (B : B' → nat) q (k : nat → LM B') :
  (∀ c q', (q' ≤ q)%nat → q' = (length R - c)%nat → term B q' (k c)) → term B q (SetCheckpoint ≫= k).
Proof.
  intros Hk l Hr Hl. unfold mbind, LM_bind, SetCheckpoint. apply (Hk _ (left_of l)); [done| |done|done].
  unfold left_of. by rewrite Hr.
Qed.
Lemma term_goback {B'} (B : B' → nat) q q' c (k : unit → LM B') :
  q' = (length R - c)%nat → term B q' (k tt) → term B q (GobackTo c ≫= k).
Proof.
  intros -> Hk l Hr Hl. unfold mbind, LM_bind, GobackTo, set_pos. apply Hk; [done|].
  unfold left_of. cbn. by rewrite Hr.
Qed.
Lemma term_recovering {A} (B : A → nat) q (m h : LM A) : term B q m → term B q h → term B q (recovering m h).
Proof.
  intros Hm Hh l Hr Hl. specialize (Hm l Hr Hl). unfold recovering. destruct (m l); try done. by apply Hh.
Qed.

Lemma term_on_err_eat {A B'} (B : B' → nat) b q (m : PM A) (ok : A → LM B') (err : perr → LM B') :
  term (res b (S q)) q m → (∀ a q', (q' < b)%nat → term B q' (ok a)) → (∀ e, term B q (err e)) →
  term B q (on_err m ok err).
Proof.
  intros Hm Hok Herr l Hr Hl. specialize (Hm l Hr Hl). unfold on_err, mbind, LM_bind.
  destruct (m l) as [[a|e] l'| | |]; try done; destruct Hm as [Hr' Hl']; cbn [res] in Hl'.
  - by apply (Hok a (left_of l')).
  - apply Herr; [done|lia].
Qed.
Lemma term_on_err {A B'} (B : B' → nat) q (m : PM A) (ok : A → LM B') (err : perr → LM B') :
  term (res (S q) (S q)) q m → (∀ a, term B q (ok a)) → (∀ e, term B q (err e)) → term B q (on_err m ok err).
Proof.
  intros Hm Hok Herr. apply (term_on_err_eat B (S q)); [done| |done]. intros a q' Hq.
  eapply term_mono; [apply Hok|lia|done].
Qed.
Lemma term_bind_err_eat {A B'} (B : B' + perr → nat) b q (m : PM A) (k : A → PM B') :
  term (res b (S q)) q m → (∀ a q', (q' < b)%nat → term B q' (k a)) → (∀ e, q < B (inr e))%nat →
  term B q (bind_err m k).
Proof. intros Hm Hk He. apply (term_on_err_eat B b q m k); [done..|]. intros e. by apply term_ret. Qed.
Lemma term_bind_err {A B'} (B : B' + perr → nat) q (m : PM A) (k : A → PM B') :
  term (res (S q) (S q)) q m → (∀ a, term B q (k a)) → (∀ e, q < B (inr e))%nat → term B q (bind_err m k).
Proof. intros Hm Hk He. apply (term_on_err B q m k); [done..|]. intros e. by apply term_ret. Qed.
Lemma term_bind_panic {A B'} (B : B' → nat) q (m : PM A) (k : A → LM B') :
  term (res (S q) (S q)) q m → (∀ a, term B q (k a)) → term B q (bind_panic m k).
Proof. intros Hm Hk. apply (term_on_err B q m k); [done..|]. intros e. apply term_panic. Qed.

Lemma term_restoring {A} (B : A + perr → nat) q (m : PM A) :
  term B q m → (∀ e, q < B (inr e))%nat → term B q (restoring m).
Proof.
  intros Hm He l Hr Hl. specialize (Hm l Hr Hl). unfold restoring, mbind, LM_bind, SetCheckpoint.
  destruct (m l) as [[a|e] l'| | |]; try done. destruct Hm as [Hr' _]. split; [done|].
  specialize (He e). unfold left_of in *. cbn. rewrite Hr'. rewrite Hr in Hl. lia.
Qed.
Lemma term_runWithCatch {A} (B : A + perr → nat) q (f : LM A) :
  term (λ a, B (inl a)) q f → (∀ e, q < B (inr e))%nat → term B q (runWithCatch f).
Proof.
  intros Hm He. apply term_recovering; [|by apply term_ret]. intros l Hr Hl. specialize (Hm l Hr Hl).
  unfold mbind, LM_bind. by destruct (f l).
Qed.
Lemma term_runWithCatch2 {A} (B : A + perr → nat) q (f : PM A) :
  term B q f → (∀ e, q < B (inr e))%nat → term B q (runWithCatch2 f).
Proof.
  intros Hm He. apply (term_restoring B q (recovering f (ret_err EOther))); [|done].
  apply term_recovering; [done|by apply term_ret].
Qed.
Lemma term_first_of {A} b e q (m : PM A) ms : (S q ≤ e)%nat →
  term (res b (S q)) q m → Forall (term (res b (S q)) q) ms → term (res b e) q (first_of m ms).
Proof.
  intros He Hm Hms. revert m Hm. induction Hms as [|m' ms Hm' Hms IH]; intros m Hm; cbn [first_of].
  - eapply term_mono; [exact Hm|done|]. intros []; cbn; lia.
  - apply (term_on_err_eat _ b); [done| |intros _; by apply IH]. intros a q' Hq. by apply term_ret.
Qed.

(** *** Tokens *)
Lemma term_Scan {B'} (B : B' → nat) q (k : Z * text * bool → LM B') :
  (∀ c t e q', (q' ≤ q)%nat → (token_code c → (q' < q)%nat) → term B q' (k (c, t, e))) →
  term B q (Scan ≫= k).
Proof.
  intros Hk l Hr Hl. pose proof (Scan_reads l) as H. unfold mbind, LM_bind.
  destruct (Scan l) as [[[c t] e] l'| | |]; try done. destruct H as (Hr' & Hp & Hread).
  pose proof (left_of_mono _ _ Hr' Hp). apply (Hk c t e (left_of l')); [lia| |congruence|done].
  intros Hc. destruct (Hread Hc) as (_ & _ & ?). lia.
Qed.
Lemma term_tok {B'} (B : B' → nat) q code (ok : text → LM B') (err : perr → LM B') : token_code code →
  (∀ t q', (q' < q)%nat → term B q' (ok t)) → (∀ e, term B q (err e)) →
  term B q (on_err (scan_type code) ok err).
Proof.
  intros Hcode Hok Herr l Hr Hl. pose proof (scan_type_reads code l) as Hread.
  pose proof (keeps_scan_type (runes l) (pos l) code l eq_refl (le_n _)) as Hs. unfold on_err, mbind, LM_bind.
  destruct (scan_type code l) as [[t|e] l'| | |]; try done; destruct Hs as [Hr' Hp].
  - destruct (Hread Hcode) as (_ & _ & Hlt). apply (Hok t (left_of l')); [lia|congruence|done].
  - pose proof (left_of_mono _ _ Hr' Hp). apply Herr; [congruence|lia].
Qed.
Lemma term_tok_err {B'} (B : B' + perr → nat) q code (k : text → PM B') : token_code code →
  (∀ t q', (q' < q)%nat → term B q' (k t)) → (∀ e, q < B (inr e))%nat →
  term B q (bind_err (scan_type code) k).
Proof. intros Hc Hk He. apply (term_tok B q code k); [done..|]. intros e. by apply term_ret. Qed.
Lemma term_tok_panic {B'} (B : B' → nat) q code (k : text → LM B') : token_code code →
  (∀ t q', (q' < q)%nat → term B q' (k t)) → term B q (bind_panic (scan_type code) k).
Proof. intros Hc Hk. apply (term_tok B q code k); [done..|]. intros e. apply term_panic. Qed.
Lemma term_empty {B'} (B : B' → nat) q (k : Node → LM B') :
  (∀ q', (q' < q)%nat → term B q' (k EmptyNode)) → term B q (empty ≫= k).
Proof.
  intros Hk. assert (H : term B q (bind_panic (scan_type TYPE_NL) (λ _, k EmptyNode)))
    by (apply term_tok_panic; [by split|intros; by apply Hk]).
  intros l Hr Hl. specialize (H l Hr Hl). revert H. unfold empty, bind_panic, mbind, LM_bind.
  by destruct (scan_type TYPE_NL l) as [[?|?] ?| | |].
Qed.
Lemma term_empty_last (B : Node → nat) q : (∀ q', q' < q → q' < B EmptyNode)%nat → term B q empty.
Proof. intros HB. apply term_tok_panic; [by split|]. intros t q' Hq. by apply term_ret, HB. Qed.
(** A token that may be the end of the input. *)
Lemma term_scan_type q code : term (res (S q) (S q)) q (scan_type code).
Proof.
  intros l Hr Hl. pose proof (scan_type_reads code l) as Hread.
  pose proof (keeps_scan_type (runes l) (pos l) code l eq_refl (le_n _)) as Hs.
  destruct (scan_type code l) as [[t|e] l'| | |]; try done; destruct Hs as [Hr' Hp];
    pose proof (left_of_mono _ _ Hr' Hp); (split; [congruence|cbn; lia]).
Qed.
Lemma term_PeekToken {B'} (B : B' → nat) q (k : Z * text * bool → LM B') :
  (∀ t, term B q (k t)) → term B q (PeekToken ≫= k).
Proof.
  intros Hk l Hr Hl. pose proof (PeekToken_run l) as H. unfold mbind, LM_bind.
  destruct (Scan l) as [t l'| | |]; [|by rewrite H..|done]. rewrite H. by apply Hk.
Qed.
End term.

Ltac token_code := split; discriminate.
Ltac term_side := intros; cbn [res]; lia.
(** Splits a computation into its parts and solves the bounds. *)
Ltac tstep :=
  match goal with
  | |- term _ _ _ _ (mret _) => apply term_ret; term_side
  | |- term _ _ _ _ (ret_ok _) => apply term_ret; term_side
  | |- term _ _ _ _ (ret_err _) => apply term_ret; term_side
  | |- term _ _ _ _ panic => apply term_panic
  | |- term _ _ _ _ (scan_type _) => apply term_scan_type
  | |- term _ _ _ _ (restoring _) => apply term_restoring; [|term_side]
  | |- term _ _ _ _ (runWithCatch _) => apply term_runWithCatch; [|term_side]
  | |- term _ _ _ _ (runWithCatchExp _) => apply term_runWithCatch; [|term_side]
  | |- term _ _ _ _ (runWithCatch2 _) => apply term_runWithCatch2; [|term_side]
  | |- term _ _ _ _ (runWithCatch2Exp _) => apply term_runWithCatch2; [|term_side]
  | |- term _ _ _ _ (first_of _ _) => apply term_first_of; [term_side| |repeat apply Forall_cons_2; [..|apply Forall_nil_2]]
  | |- term _ _ _ _ (lex_fuel ≫= _) => apply term_fuel; intros ? ? ? ?
  | |- term _ _ _ _ (SetCheckpoint ≫= _) => apply term_cp; intros ? ? ? ?
  | |- term _ _ _ _ (GetPos ≫= _) => apply (term_cp _ _ _ _); intros ? ? ? ?
  | |- term _ _ _ _ (GobackTo _ ≫= _) => eapply term_goback; [eassumption|]
  | |- term _ _ _ _ (Scan ≫= _) => apply term_Scan; intros ? ? ? ? ? ?; cbv beta iota
  | |- term _ _ _ _ (PeekToken ≫= _) => apply term_PeekToken; intros [[? ?] ?]
  | |- term _ _ _ _ (empty ≫= _) => apply term_empty; intros ? ?
  | |- term _ _ _ _ empty => apply term_empty_last; term_side
  | |- term _ _ _ _ (on_err (scan_type _) _ _) => apply term_tok; [token_code|intros ? ? ?|intros ?]
  | |- term _ _ _ _ (bind_err (scan_type _) _) => apply term_tok_err; [token_code|intros ? ? ?|term_side]
  | |- term _ _ _ _ (bind_panic (scan_type _) _) => apply term_tok_panic; [token_code|intros ? ? ?]
  | |- term _ _ _ _ (on_err _ _ _) => apply term_on_err; [|intros ?|intros ?]
  | |- term _ _ _ _ (bind_err _ _) => apply term_bind_err; [|intros ?|term_side]
  | |- term _ _ _ _ (bind_panic _ _) => apply term_bind_panic; [|intros ?]
  | |- term _ _ _ _ (_ ≫= _) => apply term_bind; [|intros ?]
  | |- term _ _ _ _ (let '(_, _) := ?x in _) => destruct x
  | |- term _ _ _ _ (if ?b then _ else _) => destruct b eqn:?
  | |- term _ _ _ _ (match ?x with _ => _ end) => destruct x
  | H : ∀ _, _ |- term _ _ _ ?q _ =>
    eapply (term_mono _ _ _ _ q q); [apply H; lia|lia|first [intros [?|?]; cbn [res]; lia | intros ?; cbn [res]; lia]]
  end.
Ltac tauto_term := repeat tstep.
(** A loop: by induction on its fuel. *)
Ltac term_loop f := let fuel := fresh "fuel" in let IH := fresh "IH" in
  intros fuel; induction fuel as [|fuel IH]; intros; [lia|]; cbn [f]; tauto_term.

(** ** Types *)
Section types.
Context (R : text) (D : Prop) (p : Parser).
Abbreviation termP q m := (term R D (res (S q) (S q)) q m).
Abbreviation termL q m := (term R D (λ _, S q) q m).

Lemma term_scan_stars fuel q k : (q < fuel)%nat → termL q (scan_stars fuel k).
Proof. revert fuel q k. term_loop scan_stars. Qed.

Section rec.
Context (rec : PM TypeNode) (n : nat) (Hrec : ∀ q, (q < n)%nat → termP q rec).

Lemma term_funcParam q : (q ≤ n)%nat → termL q (funcParam rec).
Proof. intros Hn. unfold funcParam. tauto_term. Qed.
Lemma term_funcParams q : (q ≤ n)%nat → termL q (funcParams rec).
Proof.
  intros Hn. pose proof term_funcParam as Hparam.
  assert (Hloop : ∀ fuel q ps, (q < fuel)%nat → (q ≤ n)%nat → termL q (func_params_loop rec fuel ps))
    by (term_loop func_params_loop).
  unfold funcParams, extFuncParam. tauto_term.
Qed.
Lemma term_genericCallParams q : (q ≤ n)%nat → termP q (genericCallParams rec).
Proof.
  intros Hn.
  assert (Hloop : ∀ fuel q ps, (q < fuel)%nat → (q ≤ n)%nat → termP q (generic_call_loop rec fuel ps))
    by (term_loop generic_call_loop).
  unfold genericCallParams. tauto_term.
Qed.
Lemma term_opt_generics q : (q ≤ n)%nat → termL q (opt_generics rec).
Proof. intros Hn. pose proof term_genericCallParams. unfold opt_generics. tauto_term. Qed.
Lemma term_arrayTypes q : (q ≤ n)%nat → termP q (arrayTypes rec).
Proof.
  intros Hn. unfold arrayTypes. do 2 tstep. apply term_bind; [|intros ?; tauto_term].
  apply term_on_err; intros; tauto_term.
Qed.
Lemma term_basicTypes q : (q ≤ n)%nat → termP q (basicTypes p rec).
Proof. intros Hn. pose proof term_opt_generics. unfold basicTypes. tauto_term. Qed.
(** What follows the arguments of a function type. *)
Lemma term_funcTypes q : (q ≤ n)%nat → term R D (res q (S q)) q (funcTypes rec).
Proof. intros Hn. pose proof term_funcParams. unfold funcTypes. tauto_term. Qed.
Lemma term_structType q : (q ≤ n)%nat → termP q (structType rec).
Proof.
  intros Hn.
  assert (Hloop : ∀ fuel q fs, (q < fuel)%nat → (q ≤ n)%nat → termL q (struct_fields rec fuel fs))
    by (term_loop struct_fields).
  unfold structType. tauto_term.
Qed.
Lemma term_interfaceType q : (q ≤ n)%nat → termP q (interfaceType rec).
Proof.
  intros Hn. pose proof term_funcParams.
  assert (Hloop : ∀ fuel q fs ns, (q < fuel)%nat → (q ≤ n)%nat → termL q (interface_funcs rec fuel fs ns))
    by (term_loop interface_funcs).
  unfold interfaceType. tauto_term.
Qed.
Lemma term_allTypes_body : termP n (allTypes_body p rec).
Proof.
  pose proof term_scan_stars. pose proof term_structType. pose proof term_interfaceType.
  pose proof term_basicTypes. pose proof term_arrayTypes. pose proof term_funcTypes.
  unfold allTypes_body. tauto_term.
Qed.
End rec.

Lemma term_allTypes_fuel fuel q : (q < fuel)%nat → termP q (allTypes_fuel p fuel).
Proof.
  revert q. induction fuel as [|fuel IH]; intros q Hn; [lia|]. cbn [allTypes_fuel].
  apply term_allTypes_body. intros q' Hq. apply IH. lia.
Qed.
Lemma term_allTypes q : termP q (allTypes p).
Proof. pose proof term_allTypes_fuel. unfold allTypes. tauto_term. Qed.
End types.

(** ** Expressions and statements *)

Section exp.
Context (R : text) (D : Prop) (p : Parser) (rune_cap : nat → nat).
Abbreviation termP q m := (term R D (res (S q) (S q)) q m).
Abbreviation termL q m := (term R D (λ _, S q) q m).

Record knot_term (q : nat) (K : knot) : Prop := {
  kt_exp : termL q (k_exp K); kt_allexp : termL q (k_allexp K);
  kt_boolean : termP q (k_boolean K); kt_boolexp : termP q (k_boolexp K);
  kt_callFunc : termL q (k_callFunc K); kt_ifstatement : termP q (k_ifstatement K);
  kt_statementBlock : termP q (k_statementBlock K) }.

Context (K : knot) (n : nat) (HK : ∀ q, (q < n)%nat → knot_term q K).
Lemma rec_exp q : (q < n)%nat → termL q (k_exp K). Proof. intros. by apply HK. Qed.
Lemma rec_allexp q : (q < n)%nat → termL q (k_allexp K). Proof. intros. by apply HK. Qed.
Lemma rec_boolean q : (q < n)%nat → termP q (k_boolean K). Proof. intros. by apply HK. Qed.
Lemma rec_boolexp q : (q < n)%nat → termP q (k_boolexp K). Proof. intros. by apply HK. Qed.
Lemma rec_callFunc q : (q < n)%nat → termL q (k_callFunc K). Proof. intros. by apply HK. Qed.
Lemma rec_ifstatement q : (q < n)%nat → termP q (k_ifstatement K). Proof. intros. by apply HK. Qed.
Lemma rec_statementBlock q : (q < n)%nat → termP q (k_statementBlock K). Proof. intros. by apply HK. Qed.

Lemma term_opt_generics_all q : termL q (opt_generics (allTypes p)).
Proof. apply (term_opt_generics R D (allTypes p) q); [intros; apply term_allTypes|done]. Qed.
Lemma term_arrayTypes_all q : termP q (arrayTypes (allTypes p)).
Proof. apply (term_arrayTypes R D (allTypes p) q); [intros; apply term_allTypes|done]. Qed.
Lemma term_funcTypes_all q : term R D (res q (S q)) q (funcTypes (allTypes p)).
Proof. apply (term_funcTypes R D (allTypes p) q); [intros; apply term_allTypes|done]. Qed.

Lemma term_varBlock q : (q ≤ n)%nat → termP q (varBlock K).
Proof.
  intros Hn. pose proof rec_allexp.
  assert (Hloop : ∀ fuel q idxs, (q < fuel)%nat → (q ≤ n)%nat → termP q (idx_loop K fuel idxs))
    by (term_loop idx_loop).
  unfold varBlock. tauto_term.
Qed.
Lemma term_varChain q : (q ≤ n)%nat → termP q (varChain p K).
Proof.
  intros Hn. pose proof term_varBlock.
  assert (Hloop : ∀ fuel q bs, (q < fuel)%nat → (q ≤ n)%nat → termP q (chain_loop K fuel bs))
    by (term_loop chain_loop).
  unfold varChain. tauto_term.
Qed.
Lemma term_callFunc q : (q ≤ n)%nat → termL q (callFunc p K).
Proof.
  intros Hn. pose proof term_varChain. pose proof rec_allexp. pose proof rec_callFunc.
  pose proof term_opt_generics_all.
  assert (Hparams : ∀ fuel q ps, (q < fuel)%nat → (q ≤ n)%nat → termL q (call_params_loop K fuel ps))
    by (term_loop call_params_loop).
  assert (Hnext : ∀ fuel q o, (q < fuel)%nat → (q ≤ n)%nat → termL q (call_next_loop p K fuel o))
    by (term_loop call_next_loop).
  unfold callFunc. tauto_term.
Qed.
Lemma term_arrayInit q : (q ≤ n)%nat → termP q (arrayInit p K).
Proof.
  intros Hn. pose proof rec_allexp. pose proof term_arrayTypes_all.
  assert (Hloop : ∀ fuel q vs, (q < fuel)%nat → (q < n)%nat → termP q (array_vals_loop K fuel vs))
    by (term_loop array_vals_loop).
  unfold arrayInit. tauto_term.
Qed.
Lemma term_structInit q : (q ≤ n)%nat → termP q (structInit p K).
Proof.
  intros Hn. pose proof rec_allexp. pose proof (term_allTypes R D p).
  assert (Hloop : ∀ fuel q fs, (q < fuel)%nat → (q ≤ n)%nat → termP q (struct_vals_loop K fuel fs))
    by (term_loop struct_vals_loop).
  unfold structInit. tauto_term.
Qed.
Lemma term_takePtrExp q : (q ≤ n)%nat → termP q (takePtrExp p K).
Proof.
  intros Hn. pose proof term_arrayInit. pose proof term_structInit. pose proof term_varChain.
  unfold takePtrExp. tauto_term.
Qed.
Lemma term_takeValExp q : (q ≤ n)%nat → termP q (takeValExp p K).
Proof.
  intros Hn. pose proof term_arrayInit. pose proof term_structInit. pose proof term_varChain.
  pose proof term_callFunc. pose proof (term_scan_stars R D). unfold takeValExp. tauto_term.
Qed.
Lemma term_number q : (q ≤ n)%nat → termL q (number p K).
Proof.
  intros Hn. pose proof term_takeValExp. pose proof rec_exp. unfold number, strExp. tauto_term.
Qed.
Lemma term_symbol q : (q ≤ n)%nat → termL q (symbol p K).
Proof. intros Hn. pose proof term_number. unfold symbol. tauto_term. Qed.

(** A binary operator is a token. *)
Lemma factor_ops_token e c : factor_ops e c = true → token_code c.
Proof. unfold factor_ops, token_code, TYPE_DIV, TYPE_MUL, TYPE_PS. lia. Qed.
Lemma added_ops_token e c : added_ops e c = true → token_code c.
Proof. unfold added_ops, token_code, TYPE_PLUS, TYPE_SUB. lia. Qed.
Lemma shift_ops_token e c : shift_ops e c = true → token_code c.
Proof. unfold shift_ops, token_code, TYPE_SHL, TYPE_SHR. lia. Qed.
Lemma term_binary ops operand q : (∀ e c, ops e c = true → token_code c) →
  (∀ q, (q ≤ n)%nat → termL q operand) → (q ≤ n)%nat → termL q (binary ops operand).
Proof.
  intros Hops Hop Hn.
  assert (Hloop : ∀ fuel q a, (q < fuel)%nat → (q ≤ n)%nat → termL q (binary_loop fuel ops operand a)).
  { intros fuel. induction fuel as [|fuel IH]; intros q' a Hf Hq; [lia|]. cbn [binary_loop].
    tstep. apply term_Scan. intros code t e q2 Hq2 Htok. cbv beta iota. tstep; [|tauto_term].
    specialize (Htok ltac:(eauto)). tauto_term. }
  unfold binary. tauto_term.
Qed.
Lemma term_exp q : (q ≤ n)%nat → termL q (exp p K).
Proof.
  apply term_binary; [apply shift_ops_token|]. intros q'. apply term_binary; [apply added_ops_token|].
  intros q''. apply term_binary; [apply factor_ops_token|]. apply term_symbol.
Qed.

Lemma term_boolean q : (q ≤ n)%nat → termP q (boolean p K).
Proof.
  intros Hn. pose proof term_exp. pose proof rec_boolean. pose proof rec_boolexp.
  unfold boolean, nilExp. do 5 (tstep; [tauto_term..|]).
  apply term_Scan. intros c t e' q' Hq' Htok. cbv beta iota. tstep; [tauto_term|].
  tstep; [|tstep; [|tauto_term]].
  all: match goal with
    | E : (?c =? _) = true, H : token_code ?c → _ |- _ =>
      apply Z.eqb_eq in E; subst c; specialize (H ltac:(token_code))
    end; tauto_term.
Qed.
Lemma compare_op_token c : compare_op c = true → token_code c.
Proof.
  unfold compare_op, token_code. cbn [existsb].
  unfold TYPE_EQ, TYPE_NEQ, TYPE_LG, TYPE_SM, TYPE_LEQ, TYPE_SEQ. lia.
Qed.
Lemma term_compare q : (q ≤ n)%nat → termP q (compare p K).
Proof.
  intros Hn. pose proof term_boolean.
  assert (Hloop : ∀ fuel q node, (q < fuel)%nat → (q ≤ n)%nat → termP q (compare_loop p K fuel node)).
  { intros fuel. induction fuel as [|fuel IH]; intros q' node Hf Hq; [lia|]. cbn [compare_loop].
    tstep. apply term_Scan. intros code t e q2 Hq2 Htok. cbv beta iota. tstep; [tauto_term|]. tstep; [|tauto_term].
    specialize (Htok ltac:(by apply compare_op_token)). tauto_term. }
  unfold compare. tauto_term.
Qed.
Lemma bit_op_token c : bit_op c = true → token_code c.
Proof. unfold bit_op, token_code. cbn [existsb]. unfold TYPE_BIT_OR, TYPE_ESP, TYPE_BIT_XOR. lia. Qed.
Lemma term_bitOp q : (q ≤ n)%nat → termP q (bitOp p K).
Proof.
  intros Hn. pose proof term_compare.
  assert (Hloop : ∀ fuel q node, (q < fuel)%nat → (q ≤ n)%nat → termP q (bit_loop p K fuel node)).
  { intros fuel. induction fuel as [|fuel IH]; intros q' node Hf Hq; [lia|]. cbn [bit_loop].
    tstep. apply term_Scan. intros code t e q2 Hq2 Htok. cbv beta iota. tstep; [tauto_term|]. tstep; [|tauto_term].
    specialize (Htok ltac:(by apply bit_op_token)). tauto_term. }
  unfold bitOp. tauto_term.
Qed.
Lemma term_boolexp q : (q ≤ n)%nat → termP q (boolexp p K).
Proof. intros Hn. pose proof term_compare. pose proof term_bitOp. unfold boolexp. tauto_term. Qed.
(** The body of a function comes after its type. *)
Lemma term_inlineFunc q : (q ≤ n)%nat → termP q (inlineFunc p K).
Proof.
  intros Hn. pose proof rec_statementBlock. unfold inlineFunc.
  apply (term_bind_err_eat _ _ _ q); [apply term_funcTypes_all| |term_side].
  intros a q' Hq'. apply term_bind; [|intros b; tauto_term]. tauto_term.
Qed.
Lemma term_allexp q : (q ≤ n)%nat → termL q (allexp p K).
Proof.
  intros Hn. pose proof rec_allexp. pose proof term_takePtrExp. pose proof term_inlineFunc.
  pose proof term_boolexp. unfold allexp. tauto_term.
Qed.

(** *** Statements: each reads a token *)
Abbreviation eats q m := (term R D (res q (S q)) q m).
Lemma term_assign q : (q ≤ n)%nat → eats q (assign p K).
Proof.
  intros Hn. pose proof term_allexp. pose proof term_varChain. pose proof (term_scan_stars R D).
  unfold assign. tauto_term.
Qed.
Lemma term_define q : eats q (define p).
Proof. pose proof (term_allTypes R D p). unfold define. tauto_term. Qed.
Lemma term_defineAndAssign q : (q ≤ n)%nat → eats q (defineAndAssign p K).
Proof.
  intros Hn. pose proof term_allexp. unfold defineAndAssign. tstep.
  apply (term_bind_err_eat _ _ _ q); [tauto_term|intros id q' Hq'; tauto_term|term_side].
Qed.
Lemma term_ifstatement q : (q ≤ n)%nat → eats q (ifstatement p K).
Proof.
  intros Hn. pose proof term_boolexp. pose proof rec_statementBlock. pose proof rec_ifstatement.
  unfold ifstatement. tauto_term.
Qed.
Lemma term_forloop q : (q ≤ n)%nat → eats q (forloop p K).
Proof.
  intros Hn. pose proof term_boolexp. pose proof rec_statementBlock. pose proof term_assign.
  pose proof term_defineAndAssign. unfold forloop, ignore_err. tauto_term.
Qed.
Lemma term_breakST q : eats q breakST.
Proof. unfold breakST. tauto_term. Qed.
Lemma term_continueST q : eats q continueST.
Proof. unfold continueST. tauto_term. Qed.
Lemma term_returnST q : (q ≤ n)%nat → eats q (returnST p K).
Proof. intros Hn. pose proof term_allexp. unfold returnST. tauto_term. Qed.
Lemma term_yield q : (q ≤ n)%nat → eats q (yield p K).
Proof. intros Hn. pose proof term_allexp. unfold yield. tauto_term. Qed.

(** SkipLn reads at least the line end. *)
Lemma skip_ln_loop_reads fuel prev line l :
  match skip_ln_loop fuel prev line l with Ret _ l' => read l l' | _ => True end.
Proof.
  revert l. induction fuel as [|fuel IH]; intros l; [done|]. cbn [skip_ln_loop].
  pose proof (PeekToken_run l) as Hp. pose proof (Scan_reads l) as Hs. unfold mbind, LM_bind.
  destruct (Scan l) as [[[c t] e] l'| | |] eqn:Hscan; [|by rewrite Hp..|done]. rewrite Hp.
  destruct Hs as (Hr & Hpos & Htok). destruct (Z.eqb_spec c TYPE_NL) as [->|_]; rewrite Hscan.
  - apply Htok. token_code.
  - specialize (IH l'). destruct (skip_ln_loop fuel prev line l'); try done. destruct IH as (Hr' & Hp' & Hl').
    unfold read. pose proof (left_of_mono _ _ Hr Hpos). split_and!; [congruence|lia|lia].
Qed.
Lemma err_statement_at l0 l q : runes l0 = R → runes l = R → (left_of l ≤ q)%nat →
  (SkipLn rune_cap l = NoFuel → D) →
  match err_statement rune_cap (pos l) l0 with
  | Ret _ l' => runes l' = R ∧ (left_of l' < q)%nat
  | NoFuel => D
  | _ => True
  end.
Proof.
  intros Hr0 Hr Hq HD.
  assert (Hl : mk_lexer (runes l0) (pos l) = l) by (apply lexer_eq; cbn; congruence).
  unfold err_statement, mbind, LM_bind, GobackTo, set_pos. rewrite Hl. clear Hl Hr0.
  revert HD. unfold SkipLn. destruct (_ <=? _)%nat; [|done].
  pose proof (skip_ln_loop_reads (S (S (length (runes l)))) (pos l) (S (count_nl (take (pos l) (runes l)))) l) as H.
  destruct (skip_ln_loop _ _ _ l) as [[? ?] l'| | |]; try done; [|auto]. intros _.
  destruct H as (Hr' & _ & ?). cbn. split; [congruence|lia].
Qed.
(** A statement: when it does not end, SkipLn does not, called where the
    statement starts. *)
Lemma statement_at q l : (q ≤ n)%nat → runes l = R → (left_of l ≤ q)%nat →
  (SkipLn rune_cap l = NoFuel → D) →
  match statement p K rune_cap l with
  | Ret _ l' => runes l' = R ∧ (left_of l' < q)%nat
  | NoFuel => D
  | _ => True
  end.
Proof.
  intros Hn Hr Hq HD. unfold statement. rewrite (bind_Ret SetCheckpoint _ l (pos l) l eq_refl).
  assert (Herr : term R D (λ _, q) (left_of l) (err_statement rune_cap (pos l))).
  { intros l0 Hr0 _. by apply err_statement_at. }
  assert (Hc : left_of l = (length R - pos l)%nat) by (unfold left_of; by rewrite Hr).
  enough (term R D (λ _, q) (left_of l) (statement_body p K rune_cap (pos l))) as Hbody
    by (by apply (term_recovering R D (λ _, q) (left_of l))).
  revert Herr Hq Hc. generalize (left_of l) (pos l). clear l Hr HD. intros q' c Herr Hq Hc.
  unfold statement_body. pose proof term_allexp. tstep; [tauto_term|].
  apply (term_on_err_eat _ _ _ q'); [|intros a q2 Hq2; tauto_term|].
  - pose proof term_assign. pose proof term_define. pose proof term_defineAndAssign.
    pose proof term_ifstatement. pose proof term_forloop. pose proof term_breakST.
    pose proof term_continueST. pose proof term_returnST. pose proof term_yield. tauto_term.
  - intros e'. pose proof term_callFunc. tstep. tstep. tstep; [tauto_term|]. tstep; [tauto_term|].
    eapply term_mono; [exact Herr|lia|done].
Qed.

(** [In_block l]: a statement of a block starts at [l]. *)
Context (In_block : Lexer → Prop).
Context (Hopen : ∀ l t l', runes l = R → scan_type TYPE_LB l = Ret (inl t) l' → In_block l').
Context (Hnext : ∀ l nd l' c w e, In_block l → statement p K rune_cap l = Ret nd l' →
  PeekToken l' = Ret (c, w, e) l' → c ≠ TYPE_RB → In_block l').
Context (HD : ∀ l, In_block l → SkipLn rune_cap l = NoFuel → D).

Lemma statement_loop_at fuel q l ns : (q ≤ n)%nat → runes l = R → (left_of l ≤ q)%nat → (left_of l < fuel)%nat →
  In_block l →
  match statement_loop p K rune_cap fuel ns l with
  | Ret _ l' => runes l' = R ∧ (left_of l' ≤ q)%nat
  | NoFuel => D
  | _ => True
  end.
Proof.
  intros Hn. revert q l ns Hn. induction fuel as [|fuel IH]; intros q l ns Hn Hr Hq Hf Hin; [lia|].
  cbn [statement_loop]. pose proof (statement_at (left_of l) l ltac:(lia) Hr (le_n _) (HD l Hin)) as Hst.
  unfold mbind, LM_bind. destruct (statement p K rune_cap l) as [nd l'| | |] eqn:Hs; try done.
  destruct Hst as [Hr' Hl']. pose proof (PeekToken_run l') as Hp.
  destruct (Scan l') as [[[c w] e] l2| | |]; [|by rewrite Hp..|done]. rewrite Hp.
  destruct (Z.eqb_spec c TYPE_RB) as [->|Hc]; [cbn; split; [done|lia]|].
  apply (IH q l'); [done..|lia|lia|by eapply Hnext].
Qed.
Lemma term_statementBlock q : (q ≤ n)%nat → termP q (statementBlock p K rune_cap).
Proof.
  intros Hn l Hr Hl. unfold statementBlock, bind_err at 1, on_err. unfold mbind at 1, LM_bind at 1.
  pose proof (scan_type_reads TYPE_LB l) as Hread.
  pose proof (keeps_scan_type (runes l) (pos l) TYPE_LB l eq_refl (le_n _)) as Hk.
  destruct (scan_type TYPE_LB l) as [[t|e] l1| | |] eqn:Hs; try done.
  - destruct (Hread ltac:(by split)) as (Hr1 & _ & Hl1).
    pose proof (statement_loop_at (S (S (length (runes l1)))) q l1 [] Hn ltac:(congruence) ltac:(lia)
      (left_of_fuel l1) (Hopen _ _ _ Hr Hs)) as Hloop.
    unfold statementList. unfold mbind at 1, LM_bind at 1. rewrite lex_fuel_bind. unfold mbind at 1, LM_bind at 1.
    destruct (statement_loop _ _ _ _ _ l1) as [ch l2| | |]; try done. destruct Hloop as [Hr2 Hl2]. cbn beta iota.
    assert (Ht : term R D (res (S q) (S q)) q (_ ←? scan_type TYPE_RB; ret_ok (SLNode ch))) by tauto_term.
    by apply Ht.
  - destruct Hk as [Hr' Hp]. pose proof (left_of_mono _ _ Hr' Hp). split; [congruence|cbn; lia].
Qed.

Lemma term_tie : knot_term n (tie p rune_cap K).
Proof.
  split; cbn.
  - by apply term_exp.
  - by apply term_allexp.
  - by apply term_boolean.
  - by apply term_boolexp.
  - by apply term_callFunc.
  - eapply term_mono; [by apply term_ifstatement|done|]. intros []; cbn; lia.
  - by apply term_statementBlock.
Qed.
End exp.

(** [in_block R l]: on the input [R], a statement of a block starts at [l]:
    an opening brace was read just before, or a statement of the block that no
    closing brace follows. *)
Inductive in_block (p : Parser) (rune_cap : nat → nat) (R : text) : Lexer → Prop :=
  | in_block_open l t l' : runes l = R → scan_type TYPE_LB l = Ret (inl t) l' → in_block p rune_cap R l'
  | in_block_next l fuel nd l' c w e : in_block p rune_cap R l →
      statement p (parser_knot p rune_cap fuel) rune_cap l = Ret nd l' →
      PeekToken l' = Ret (c, w, e) l' → c ≠ TYPE_RB → in_block p rune_cap R l'.
(** A statement of a block starts where SkipLn does not stop. *)
Definition block_stuck (p : Parser) (rune_cap : nat → nat) (R : text) : Prop :=
  ∃ l, in_block p rune_cap R l ∧ SkipLn rune_cap l = NoFuel.
Lemma block_stuck_intro p rune_cap R l : in_block p rune_cap R l → SkipLn rune_cap l = NoFuel → block_stuck p rune_cap R.
Proof. intros. by exists l. Qed.
Lemma parser_knot_term p rune_cap R fuel q : (q < fuel)%nat →
  knot_term R (block_stuck p rune_cap R) q (parser_knot p rune_cap fuel).
Proof.
  revert q. induction fuel as [|fuel IH]; intros q Hq; [lia|]. cbn [parser_knot].
  apply (term_tie R _ p rune_cap (parser_knot p rune_cap fuel) q) with (In_block := in_block p rune_cap R).
  - intros q' Hq'. apply IH. lia.
  - intros *. apply in_block_open.
  - intros *. apply in_block_next.
  - intros l. apply block_stuck_intro.
Qed.

(** Termination of the parser of types: on every input and from every
    position, allTypes returns a type or an error or panics; the number of
    runes bounds the depth of its recursion and the length of its loops. *)
Theorem allTypes_terminates p l : allTypes p l ≠ NoFuel.
Proof.
  intros H. pose proof (term_allTypes (runes l) False p (left_of l) l eq_refl (le_n _)) as Hs.
  by rewrite H in Hs.
Qed.

(** ** Where SkipLn does not stop *)

(** Scanning at the end of the input only moves the position. *)
Lemma Scan_at_end l : (length (runes l) ≤ pos l)%nat →
  Scan l = Ret (0, [], true) (mk_lexer (runes l) (S (pos l))).
Proof.
  intros Hl. assert (Hg : getCh l = Ret (0, true) (mk_lexer (runes l) (S (pos l)))).
  { unfold getCh. rewrite (bind_Ret Peek _ l (0, true) l); [done|].
    unfold Peek. by rewrite (proj2 (lookup_ge_None _ _)). }
  unfold Scan. rewrite lex_fuel_bind, scan_loop_S, lex_fuel_bind.
  rewrite (bind_Ret _ _ l (0, true) (mk_lexer (runes l) (S (pos l)))); [done|].
  cbn [getChSkipEmpty]. by rewrite (bind_Ret getCh _ _ _ _ Hg).
Qed.
Lemma skip_ln_loop_step fuel prev line l c t e l' : Scan l = Ret (c, t, e) l' → c ≠ TYPE_NL →
  skip_ln_loop (S fuel) prev line l = skip_ln_loop fuel prev line l'.
Proof.
  intros Hs Hc. pose proof (PeekToken_run l) as Hp. rewrite Hs in Hp. cbn [skip_ln_loop].
  rewrite (bind_Ret PeekToken _ _ _ _ Hp). cbv beta iota. rewrite (proj2 (Z.eqb_neq _ _) Hc).
  by rewrite (bind_Ret Scan _ _ _ _ Hs).
Qed.
Lemma skip_ln_loop_end fuel prev line l : (length (runes l) ≤ pos l)%nat →
  skip_ln_loop fuel prev line l = NoFuel.
Proof.
  revert l. induction fuel as [|fuel IH]; intros l Hl; [done|].
  rewrite (skip_ln_loop_step _ _ _ _ _ _ _ _ (Scan_at_end l Hl)) by done. apply IH. simpl. lia.
Qed.
(** More fuel does not help. *)
Lemma skip_ln_loop_stuck f prev line l : (left_of l < f)%nat →
  skip_ln_loop f prev line l = NoFuel → ∀ fuel, skip_ln_loop fuel prev line l = NoFuel.
Proof.
  revert l. induction f as [|f IH]; intros l Hf Hstuck fuel; [lia|].
  destruct (decide (length (runes l) ≤ pos l)%nat) as [Hend|Hin]; [by apply skip_ln_loop_end|].
  destruct fuel as [|fuel]; [done|]. pose proof (PeekToken_run l) as Hp. pose proof (Scan_ok l) as Hok.
  unfold LexerTheorems.ok in Hok. destruct (Scan l) as [[[c t] e] l'| | |] eqn:Hs; [| | |done].
  - destruct Hok as ((Hr & _ & _) & Hlt & _). destruct (decide (c = TYPE_NL)) as [->|Hc].
    + revert Hstuck. cbn [skip_ln_loop]. rewrite !(bind_Ret PeekToken _ _ _ _ Hp). cbv beta iota.
      change (TYPE_NL =? TYPE_NL) with true. cbv iota. unfold mbind, LM_bind. by rewrite Hs.
    + rewrite (skip_ln_loop_step _ _ _ _ _ _ _ _ Hs Hc) in Hstuck.
      rewrite (skip_ln_loop_step _ _ _ _ _ _ _ _ Hs Hc). apply IH; [|done].
      unfold left_of in *. rewrite Hr. lia.
  - revert Hstuck. cbn [skip_ln_loop]. unfold mbind, LM_bind. by rewrite Hp.
  - revert Hstuck. cbn [skip_ln_loop]. unfold mbind, LM_bind. by rewrite Hp.
Qed.

(** The loop of SkipLn, called at [l], does not stop. *)
Definition skips_for_ever (l : Lexer) : Prop :=
  ∀ fuel, skip_ln_loop fuel (pos l) (S (count_nl (take (pos l) (runes l)))) l = NoFuel.
Lemma SkipLn_stuck rune_cap l : SkipLn rune_cap l = NoFuel → skips_for_ever l.
Proof.
  unfold SkipLn. destruct (_ <=? _)%nat; [|done]. intros Hs fuel.
  eapply skip_ln_loop_stuck; [apply left_of_fuel|exact Hs].
Qed.

(** C6. Termination of the parser.  Reading an expression, a statement or a
    block runs out of fuel on no input, with one exception: the loop of SkipLn,
    which looks for the end of a line after a statement that cannot be parsed,
    does not stop, whatever the fuel, called at the statement given or at a
    statement of a block.  So an input without an opening brace is always
    parsed, and a block that is not closed before the end of the input never
    is. *)
Theorem parser_terminates p rune_cap l :
  (parse_allexp p rune_cap l = NoFuel ∨ parse_statementBlock p rune_cap l = NoFuel →
   ∃ l', in_block p rune_cap (runes l) l' ∧ skips_for_ever l') ∧
  (parse_statement p rune_cap l = NoFuel →
   ∃ l', (l' = l ∨ in_block p rune_cap (runes l) l') ∧ skips_for_ever l').
Proof.
  set (R := runes l) in *. pose proof (left_of_fuel l) as Hf. fold R in Hf.
  assert (HK : ∀ q, (q < left_of l)%nat → knot_term R (block_stuck p rune_cap R) q (parser_knot p rune_cap (S (S (length R)))))
    by (intros q Hq; apply parser_knot_term; lia).
  unfold parse_allexp, parse_statement, parse_statementBlock. rewrite !lex_fuel_bind. fold R. split.
  - intros H. enough (block_stuck p rune_cap R) as (l' & Hin & Hs) by (exists l'; eauto using SkipLn_stuck).
    destruct H as [H|H].
    + pose proof (term_allexp R _ p _ _ HK _ (le_n _) l eq_refl (le_n _)) as Ht. by rewrite H in Ht.
    + pose proof (term_statementBlock R _ p _ _ _ HK (in_block p rune_cap R) (in_block_open p rune_cap R)
        (λ l nd, in_block_next p rune_cap R l _ nd) (block_stuck_intro p rune_cap R) _ (le_n _) l eq_refl (le_n _)) as Ht.
      by rewrite H in Ht.
  - intros H. destruct (SkipLn rune_cap l) eqn:Hs; [| | |exists l; eauto using SkipLn_stuck].
    all: enough (block_stuck p rune_cap R) as (l' & Hin & Hs') by (exists l'; eauto using SkipLn_stuck).
    all: pose proof (statement_at R (block_stuck p rune_cap R) p rune_cap _ _ HK _ l (le_n _) eq_refl (le_n _)) as Ht; rewrite H in Ht; apply Ht.
    all: by rewrite Hs.
Qed.
(** A statement and a block that never end, and an expression that does. *)
Lemma parser_terminates_witness :
  (∃ l', in_block (mk_parser [] []) (λ n, n + 8)%nat (runes_of "{ x") l' ∧ skips_for_ever l') ∧
  parse_allexp (mk_parser [] []) (λ n, n + 8)%nat (SetInput (runes_of "f ( x")) ≠ NoFuel.
Proof.
  split.
  - apply (parser_terminates (mk_parser [] []) (λ n, n + 8)%nat (SetInput (runes_of "{ x"))).
    right. vm_compute. reflexivity.
  - vm_compute. discriminate.
Defined.
