(* ===== verification/ParserTokens.v ===== *)
(** * The lexer as a stream of tokens

    A lexer state [l] is at the tokens [ts] when the rest of the input is
    their texts separated by spaces; on such states the functions of the lexer
    that the parser calls work token by token. *)
From S2P Require Import Prelude Lexer LexerTheorems Ast ParserTypes ParserTheorems Grammar.
#[local] Open Scope Z_scope.
#[local] Open Scope parser_scope.

Definition tk (l : Lexer) (ts : list tok) : Prop :=
  Forall wf_token ts ∧ ∃ pre sp, (sp = [] ∨ sp = [ch_space]) ∧ l = st pre (sp ++ render_all ts).

Lemma tk_start ts : Forall wf_token ts → tk (SetInput (render_all ts)) ts.
Proof. intros H. split; [done|]. exists [], []. split; [by left|done]. Qed.
Lemma render_cons t ts : render_all (t :: ts) = render t ++ ch_space :: render_all ts.
Proof. unfold render_all. cbn. by rewrite <- app_assoc. Qed.

Lemma tk_Scan l t ts : tk l (t :: ts) →
  ∃ l', Scan l = Ret (t.1, t.2, false) l' ∧ tk l' ts ∧ ∀ A (m : LM A), (GobackTo (pos l);; m) l' = m l.
Proof.
  intros (Hwf & pre & sp & Hsp & ->). apply Forall_cons in Hwf as [Ht Hts]. rewrite render_cons.
  exists (st (pre ++ sp ++ render t) (ch_space :: render_all ts)). split_and!.
  - by apply Scan_token.
  - split; [done|]. exists (pre ++ sp ++ render t), [ch_space]. split; [by right|done].
  - intros A m. unfold mbind, LM_bind, GobackTo, set_pos. f_equal. apply lexer_eq; [|done].
    simpl. by rewrite <- !app_assoc.
Qed.

(** Enough fuel for any loop over the tokens. *)
Lemma tk_fuel l ts : tk l ts → (length ts < S (S (length (runes l))))%nat.
Proof.
  intros (_ & pre & sp & _ & ->). simpl. rewrite !length_app.
  enough (length ts ≤ length (render_all ts))%nat by lia.
  induction ts as [|t ts IH]; [done|]. rewrite render_cons, length_app. simpl. lia.
Qed.

Lemma tk_peek l t ts : tk l (t :: ts) → PeekToken l = Ret (t.1, t.2, false) l.
Proof.
  intros H. pose proof (PeekToken_run l) as Hp. destruct (tk_Scan _ _ _ H) as (l' & Hs & _). by rewrite Hs in Hp.
Qed.

(** A token of the asked type, and of another. *)
Lemma scan_hit l c t ts : c ≠ TYPE_LG → tk l ((c, t) :: ts) →
  ∃ l', scan_type c l = Ret (inl t) l' ∧ tk l' ts.
Proof.
  intros Hc H. destruct (tk_Scan _ _ _ H) as (l' & Hs & Hl' & _). exists l'. split; [|done].
  unfold scan_type, ScanType, scan_type_token. rewrite (proj2 (Z.eqb_neq _ _) Hc).
  unfold mbind, LM_bind. cbn [SetCheckpoint]. unfold SetCheckpoint. rewrite Hs. cbn. by rewrite Z.eqb_refl.
Qed.
Lemma scan_miss l c t ts : c ≠ TYPE_LG → tk l (t :: ts) → t.1 ≠ c →
  scan_type c l = Ret (inr (ELex ErrTYPE)) l.
Proof.
  intros Hc H Ht. destruct (tk_Scan _ _ _ H) as (l' & Hs & _ & Hback).
  unfold scan_type, ScanType. rewrite (proj2 (Z.eqb_neq _ _) Hc). unfold scan_type_token.
  assert (Hm : (SetCheckpoint ≫= λ c0, '(c1, t0, e) ← Scan;
    if c1 =? c then mret (inl t0) else if (e : bool) then mret (inr ErrEOS) else GobackTo c0;; mret (inr ErrTYPE)) l =
    Ret (inr ErrTYPE : list rune + lex_error) l).
  { rewrite (bind_Ret SetCheckpoint _ l (pos l) l eq_refl). rewrite (bind_Ret Scan _ _ _ _ Hs). cbv beta iota.
    rewrite (proj2 (Z.eqb_neq _ _) Ht). by rewrite Hback. }
  by rewrite (bind_Ret _ _ _ _ _ Hm).
Qed.

(** ** Runs

    [m] from [l] returns a value that [P] holds of, and the lexer is then at
    the tokens [rest]. *)
Definition runs {A} (m : LM A) (l : Lexer) (P : A → Prop) (rest : list tok) : Prop :=
  ∃ a l', m l = Ret a l' ∧ P a ∧ tk l' rest.
(** [m] returns an error and leaves the lexer where it was; [m] panics. *)
Definition errs {A} (m : PM A) (l : Lexer) : Prop := ∃ e, m l = Ret (inr e) l.
Definition panics {A} (m : LM A) (l : Lexer) : Prop := m l = Panic.
(** The successful results of a function with an error. *)
Definition good {A} (P : A → Prop) (r : A + perr) : Prop := match r with inl a => P a | inr _ => False end.

Lemma runs_ret {A} (a : A) l (P : A → Prop) ts : tk l ts → P a → runs (mret a) l P ts.
Proof. intros. by exists a, l. Qed.
Lemma runs_mono {A} (m : LM A) l (P Q : A → Prop) ts : runs m l P ts → (∀ a, P a → Q a) → runs m l Q ts.
Proof. intros (a & l' & Hm & HP & Hl) HPQ. exists a, l'. eauto. Qed.
Lemma runs_bind {A B} (m : LM A) (k : A → LM B) l (P : A → Prop) (Q : B → Prop) ts ts' :
  runs m l P ts → (∀ a l', P a → tk l' ts → runs (k a) l' Q ts') → runs (m ≫= k) l Q ts'.
Proof.
  intros (a & l' & Hm & HP & Hl) Hk. unfold runs. rewrite (bind_Ret m k l a l' Hm). by apply Hk.
Qed.
Lemma runs_at {A B} (m : LM A) (k : A → LM B) l a l' (Q : B → Prop) ts :
  m l = Ret a l' → runs (k a) l' Q ts → runs (m ≫= k) l Q ts.
Proof. intros Hm Hk. unfold runs. by rewrite (bind_Ret m k l a l' Hm). Qed.
Lemma runs_fuel {B} (k : nat → LM B) l (Q : B → Prop) ts :
  runs (k (S (S (length (runes l))))) l Q ts → runs (lex_fuel ≫= k) l Q ts.
Proof. done. Qed.
Lemma runs_bind_err {A B} (m : PM A) (k : A → PM B) l (P : A → Prop) (Q : B + perr → Prop) ts ts' :
  runs m l (good P) ts → (∀ a l', P a → tk l' ts → runs (k a) l' Q ts') → runs (bind_err m k) l Q ts'.
Proof. intros Hm Hk. eapply runs_bind; [exact Hm|]. intros [a|e] l' HP Hl; [by apply Hk|done]. Qed.
Lemma runs_bind_panic {A B} (m : PM A) (k : A → LM B) l (P : A → Prop) (Q : B → Prop) ts ts' :
  runs m l (good P) ts → (∀ a l', P a → tk l' ts → runs (k a) l' Q ts') → runs (bind_panic m k) l Q ts'.
Proof. intros Hm Hk. eapply runs_bind; [exact Hm|]. intros [a|e] l' HP Hl; [by apply Hk|done]. Qed.
Lemma runs_on_ok {A B} (m : PM A) (ok : A → LM B) (err : perr → LM B) l (P : A → Prop) (Q : B → Prop) ts ts' :
  runs m l (good P) ts → (∀ a l', P a → tk l' ts → runs (ok a) l' Q ts') → runs (on_err m ok err) l Q ts'.
Proof. intros Hm Hk. eapply runs_bind; [exact Hm|]. intros [a|e] l' HP Hl; [by apply Hk|done]. Qed.
Lemma runs_on_err {A B} (m : PM A) (ok : A → LM B) (err : perr → LM B) l (Q : B → Prop) ts :
  errs m l → (∀ e, runs (err e) l Q ts) → runs (on_err m ok err) l Q ts.
Proof. intros [e He] Hk. eapply runs_at; [exact He|]. apply Hk. Qed.
Lemma runs_tok {B} c t ts (k : text → PM B) l (Q : B + perr → Prop) ts' : c ≠ TYPE_LG → tk l ((c, t) :: ts) →
  (∀ l', tk l' ts → runs (k t) l' Q ts') → runs (bind_err (scan_type c) k) l Q ts'.
Proof.
  intros Hc Hl Hk. destruct (scan_hit _ _ _ _ Hc Hl) as (l' & Hs & Hl'). eapply runs_at; [exact Hs|]. by apply Hk.
Qed.
Lemma runs_tok_panic {B} c t ts (k : text → LM B) l (Q : B → Prop) ts' : c ≠ TYPE_LG → tk l ((c, t) :: ts) →
  (∀ l', tk l' ts → runs (k t) l' Q ts') → runs (bind_panic (scan_type c) k) l Q ts'.
Proof.
  intros Hc Hl Hk. destruct (scan_hit _ _ _ _ Hc Hl) as (l' & Hs & Hl'). eapply runs_at; [exact Hs|]. by apply Hk.
Qed.
Lemma runs_tok_on {B} c t ts (ok : text → LM B) (err : perr → LM B) l (Q : B → Prop) ts' :
  c ≠ TYPE_LG → tk l ((c, t) :: ts) →
  (∀ l', tk l' ts → runs (ok t) l' Q ts') → runs (on_err (scan_type c) ok err) l Q ts'.
Proof.
  intros Hc Hl Hk. destruct (scan_hit _ _ _ _ Hc Hl) as (l' & Hs & Hl'). eapply runs_at; [exact Hs|]. by apply Hk.
Qed.
Lemma runs_miss_on {B} c t ts (ok : text → LM B) (err : perr → LM B) l (Q : B → Prop) ts' :
  c ≠ TYPE_LG → tk l (t :: ts) → t.1 ≠ c →
  runs (err (ELex ErrTYPE)) l Q ts' → runs (on_err (scan_type c) ok err) l Q ts'.
Proof. intros Hc Hl Ht Hk. eapply runs_at; [by eapply scan_miss|]. exact Hk. Qed.
Lemma runs_restoring {A} (m : PM A) l (P : A → Prop) ts : runs m l (good P) ts → runs (restoring m) l (good P) ts.
Proof.
  intros ([a|e] & l' & Hm & HP & Hl); [|done]. exists (inl a), l'. split; [|done].
  unfold restoring, mbind, LM_bind, SetCheckpoint. by rewrite Hm.
Qed.
Lemma runs_catch2 {A} (m : PM A) l (P : A → Prop) ts : runs m l (good P) ts → runs (runWithCatch2 m) l (good P) ts.
Proof.
  intros ([a|e] & l' & Hm & HP & Hl); [|done]. exists (inl a), l'. split; [|done].
  unfold runWithCatch2, recovering, mbind, LM_bind, SetCheckpoint. by rewrite Hm.
Qed.
Lemma runs_catch {A} (m : LM A) l (P : A → Prop) ts : runs m l P ts → runs (runWithCatch m) l (good P) ts.
Proof.
  intros (a & l' & Hm & HP & Hl). exists (inl a), l'. split; [|done].
  unfold runWithCatch, recovering, mbind, LM_bind. by rewrite Hm.
Qed.

(** ** Failures *)
Lemma errs_tok {B} c t ts (k : text → PM B) l : c ≠ TYPE_LG → tk l (t :: ts) → t.1 ≠ c →
  errs (bind_err (scan_type c) k) l.
Proof.
  intros Hc Hl Ht. eexists. unfold bind_err. by rewrite (bind_Ret _ _ _ _ _ (scan_miss _ _ _ _ Hc Hl Ht)).
Qed.
Lemma errs_bind {A B} (m : PM A) (k : A → PM B) l : errs m l → errs (bind_err m k) l.
Proof. intros [e He]. exists e. unfold bind_err. by rewrite (bind_Ret _ _ _ _ _ He). Qed.
Lemma errs_restoring {A} (m : PM A) l : errs m l → errs (restoring m) l.
Proof.
  intros [e He]. exists e. unfold restoring, mbind, LM_bind, SetCheckpoint. rewrite He. cbn. f_equal. by apply lexer_eq.
Qed.
(** A restored error, or a panic caught, leaves the lexer where it was. *)
Lemma errs_restored {A} (m : PM A) l e l' : m l = Ret (inr e) l' → runes l' = runes l → errs (restoring m) l.
Proof.
  intros He Hr. exists e. unfold restoring, mbind, LM_bind, SetCheckpoint. rewrite He. cbn. f_equal. by apply lexer_eq.
Qed.
Lemma errs_catch2 {A} (m : PM A) l e l' : m l = Ret (inr e) l' → runes l' = runes l → errs (runWithCatch2 m) l.
Proof.
  intros He Hr. exists e. unfold runWithCatch2, recovering, mbind, LM_bind, SetCheckpoint. rewrite He. cbn.
  f_equal. by apply lexer_eq.
Qed.
Lemma errs_catch2_panic {A} (m : PM A) l : panics m l → errs (runWithCatch2 m) l.
Proof.
  intros Hm. exists EOther. unfold runWithCatch2, recovering, mbind, LM_bind, SetCheckpoint. rewrite Hm. cbn.
  f_equal. by apply lexer_eq.
Qed.
Lemma errs_catch_panic {A} (m : LM A) l : panics m l → errs (runWithCatch m) l.
Proof. intros Hm. exists EOther. unfold runWithCatch, recovering, mbind, LM_bind. by rewrite Hm. Qed.
Lemma errs_first_of {A} (m : PM A) ms l : errs m l → Forall (λ m, errs m l) ms → errs (first_of m ms) l.
Proof.
  intros Hm Hms. revert m Hm. induction Hms as [|m' ms Hm' _ IH]; intros m Hm; [done|]. cbn [first_of].
  destruct Hm as [e He]. destruct (IH m' Hm') as [e' He']. exists e'. unfold on_err.
  by rewrite (bind_Ret _ _ _ _ _ He).
Qed.
Lemma runs_first_of {A} (m m' : PM A) ms l (P : A → Prop) ts :
  errs m l → runs (first_of m' ms) l (good P) ts → runs (first_of m (m' :: ms)) l (good P) ts.
Proof. intros Hm Hk. cbn [first_of]. apply runs_on_err; [done|]. by intros _. Qed.
Lemma runs_first_hit {A} (m : PM A) ms l (P : A → Prop) ts :
  runs m l (good P) ts → runs (first_of m ms) l (good P) ts.
Proof.
  intros Hm. destruct ms as [|m' ms]; [done|]. cbn [first_of]. eapply runs_on_ok; [exact Hm|].
  intros a l' HP Hl. by apply runs_ret.
Qed.
Lemma panics_bind {A B} (m : LM A) (k : A → LM B) l : panics m l → panics (m ≫= k) l.
Proof. unfold panics, mbind, LM_bind. by intros ->. Qed.
Lemma panics_at {A B} (m : LM A) (k : A → LM B) l a l' : m l = Ret a l' → panics (k a) l' → panics (m ≫= k) l.
Proof. intros Hm Hk. unfold panics. by rewrite (bind_Ret m k l a l' Hm). Qed.
