(* ===== verification/ParserFail.v ===== *)
(** * What the parser does not read

    The alternatives of the parser that fail on the sentences of the grammar,
    and leave the lexer where it was: types, type arguments, initialisers and
    calls where there are none; and arithmetic where the tokens are boolean. *)
From S2P Require Import Prelude Lexer LexerTheorems Ast ParserTypes ParserExp ParserTheorems Grammar ParserTokens.
#[local] Open Scope Z_scope.
#[local] Open Scope parser_scope.

(** The code of a token is not one of a list, by computation. *)
Ltac code_neq :=
  first
    [ discriminate
    | intros ?E; match goal with
      | H : ?x ∈ _, E : ?x = _ |- _ => rewrite E in H; revert H; apply (bool_decide_unpack _); vm_compute; exact I
      | H : ?x ∉ _, E : ?x = _ |- _ => apply H; rewrite E; apply (bool_decide_unpack _); vm_compute; exact I
      end ].

(** ** Words of types *)
Lemma res_type_reserved w c : IsResType w = Some c → lookup_word w reserved = Some c.
Proof.
  intros H. apply lookup_word_in in H as (s & Hin & ->).
  assert (Hall : Forall (λ e, lookup_word (runes_of e.1) reserved = Some e.2) reservedTypes) by bdone.
  by apply (proj1 (Forall_forall _ _) Hall (s, c)).
Qed.
Lemma wf_res_type c w : wf_token (c, w) → IsResType w ≠ None → c = TYPE_STR ∨ c ∈ reservedTypes.*2.
Proof.
  intros H Hres. destruct (IsResType w) as [c'|] eqn:Hw; [clear Hres|done].
  inversion H as [c0 s Hin E1| |s c0 Hin E1|w0 Hid Hl E1|c0 w0 Hc Hw0 E1|p0 w0 Hp Hw0 E1|w0 E1]; subst.
  - exfalso. assert (Hall : Forall (λ e, IsResType (runes_of e.2) = None) punctuation) by bdone.
    pose proof (proj1 (Forall_forall _ _) Hall _ Hin) as Hn. cbn [snd] in Hn. by rewrite Hn in Hw.
  - done.
  - right. pose proof (res_type_reserved _ _ Hw) as Hl. destruct (reserved_ok _ _ Hin) as (_ & Hl' & _).
    rewrite Hl in Hl'. injection Hl' as ->. apply lookup_word_in in Hw as (s' & Hin' & _).
    by apply (list_elem_of_fmap_2' snd _ (s', c)).
  - apply res_type_reserved in Hw. by rewrite Hl in Hw.
  - exfalso. apply res_type_reserved, lookup_word_in in Hw as (s & Hin & Hs).
    destruct (reserved_ok _ _ Hin) as (Hid & _). rewrite <- Hs in Hid. simpl in Hid.
    apply andb_true_iff in Hid as [Hid _]. by rewrite (proj1 (num_not_letter c0 Hc)) in Hid.
  - exfalso. apply res_type_reserved, lookup_word_in in Hw as (s & Hin & Hs).
    destruct (reserved_ok _ _ Hin) as (Hid & _). by rewrite <- Hs in Hid.
  - by left.
Qed.
Definition type_codes : list Z :=
  [TYPE_MUL; TYPE_RES_STRUCT; TYPE_RES_INTERFACE; TYPE_VAR; TYPE_LSB; TYPE_RES_FUNC; TYPE_STR] ++ reservedTypes.*2.
Lemma no_type_start t : wf_token t → t.1 ∉ type_codes → not_type_start t = true.
Proof.
  intros Hwf Ht. destruct t as [c w]. cbn [fst] in Ht. unfold not_type_start. apply andb_true_iff. split.
  - apply negb_true_iff. apply not_true_iff_false. intros H. apply List.existsb_exists in H as (x & Hx & E).
    apply Z.eqb_eq in E as <-. apply list_elem_of_In in Hx. apply Ht. unfold type_codes. apply elem_of_app. left.
    cbn [fst] in Hx. rewrite !elem_of_cons in *. tauto.
  - apply bool_decide_eq_true_2. destruct (decide (IsResType w = None)) as [|Hn]; [done|]. exfalso. apply Ht.
    unfold type_codes. apply elem_of_app. destruct (wf_res_type c w Hwf Hn) as [-> |Hin]; [left; bdone|by right].
Qed.
Lemma not_type_start_codes t c : not_type_start t = true →
  c ∈ [TYPE_MUL; TYPE_RES_STRUCT; TYPE_RES_INTERFACE; TYPE_VAR; TYPE_LSB; TYPE_RES_FUNC] → t.1 ≠ c.
Proof.
  intros [H _]%andb_true_iff Hc E. apply negb_true_iff in H. apply not_true_iff_false in H. apply H.
  apply List.existsb_exists. exists c. rewrite E, Z.eqb_refl. split; [|done]. by apply list_elem_of_In.
Qed.

Section fail.
Context (p : Parser).

Lemma stars_none fuel k l t ts : tk l (t :: ts) → t.1 ≠ TYPE_MUL →
  scan_stars (S fuel) k l = Ret k l.
Proof.
  intros Hl Ht. cbn [scan_stars]. unfold on_err.
  assert (Hlg : TYPE_MUL ≠ TYPE_LG) by discriminate.
  by rewrite (bind_Ret _ _ _ _ _ (scan_miss _ _ _ _ Hlg Hl Ht)).
Qed.

(** No type starts here. *)
Definition fails_types (rec : PM TypeNode) : Prop :=
  ∀ l t ts, tk l (t :: ts) → not_type_start t = true → errs rec l.
Lemma types_fail_fuel f : fails_types (allTypes_fuel p (S f)).
Proof.
  intros l t ts Hl Ht. pose proof (not_type_start_codes t) as Hc.
  unfold errs. cbn [allTypes_fuel]. unfold allTypes_body. rewrite lex_fuel_bind.
  rewrite (bind_Ret _ _ _ _ _ (stars_none _ _ _ _ _ Hl (Hc TYPE_MUL Ht ltac:(bdone)))).
  apply errs_bind, errs_first_of.
  - eapply errs_tok; [discriminate|exact Hl|]. by apply Hc; [|bdone].
  - repeat apply Forall_cons_2; [..|apply Forall_nil_2].
    + eapply errs_tok; [discriminate|exact Hl|]. by apply Hc; [|bdone].
    + destruct (tk_Scan _ _ _ Hl) as (l' & Hs & Hl' & _).
      apply (errs_restored _ _ EOther l').
      * rewrite (bind_Ret _ _ _ _ _ Hs). cbv beta iota.
        apply andb_true_iff in Ht as [Hn Hr%bool_decide_eq_true]. rewrite Hr.
        destruct (Z.eqb_spec t.1 TYPE_VAR) as [E|_]; [|done]. exfalso. revert Hn. rewrite E. done.
      * pose proof (keeps_Scan (runes l) (pos l) l eq_refl (le_n _)) as Hr. rewrite Hs in Hr. apply Hr.
    + apply errs_restoring. eapply errs_tok; [discriminate|exact Hl|]. by apply Hc; [|bdone].
    + eapply errs_tok; [discriminate|exact Hl|]. by apply Hc; [|bdone].
Qed.

Lemma types_fail : fails_types (allTypes p).
Proof. intros l t ts Hl Ht. unfold errs, allTypes. rewrite lex_fuel_bind. by eapply types_fail_fuel. Qed.

(** ** What may follow *)

Definition hd_code (ts : list tok) : Z := match ts with t :: _ => t.1 | [] => -1 end.
(** What may follow a name: no initialiser, and no type argument. *)
Definition no_struct1 (ts : list tok) : Prop :=
  ts ≠ [] ∧ hd_code ts ≠ TYPE_LB ∧ (hd_code ts = TYPE_SM → starts_no_type (tail ts) = true).
(** The same for a name or a qualified name. *)
Definition no_struct (ts : list tok) : Prop :=
  match ts with
  | (c, w) :: ts' =>
    if c =? TYPE_DOT then match ts' with (c', _) :: ts' => c' = TYPE_VAR ∧ no_struct1 ts' | [] => False end
    else no_struct1 ts
  | [] => False
  end.

Lemma generics_none rec l ts : fails_types rec →
  tk l ts → ts ≠ [] → (hd_code ts = TYPE_SM → starts_no_type (tail ts) = true) → opt_generics rec l = Ret [] l.
Proof.
  intros Hrec Hl Hne Hsm. destruct ts as [|[c w] ts]; [done|]. cbn [hd_code tail fst] in Hsm.
  assert (Herr : errs (genericCallParams rec) l).
  { destruct (decide (c = TYPE_SM)) as [->|Hc].
    - specialize (Hsm eq_refl). assert (HLG : TYPE_SM ≠ TYPE_LG) by discriminate.
      destruct (scan_hit _ _ _ _ HLG Hl) as (l1 & Hs & Hl1).
      destruct ts as [|t ts]; [done|]. destruct (Hrec _ _ _ Hl1 Hsm) as [e He].
      apply (errs_restored _ _ e l1).
      + unfold bind_err. rewrite (bind_Ret _ _ _ _ _ Hs). by rewrite (bind_Ret _ _ _ _ _ He).
      + pose proof (keeps_scan_type (runes l) (pos l) TYPE_SM l eq_refl (le_n _)) as Hr. rewrite Hs in Hr. apply Hr.
    - apply errs_restoring. by eapply errs_tok. }
  destruct Herr as [e He]. unfold opt_generics, on_err. by rewrite (bind_Ret _ _ _ _ _ He).
Qed.

(** A name, qualified or not, is a type; what follows it stays. *)
Definition after_name (ts : list tok) : list tok :=
  match ts with t :: _ :: ts' => if t.1 =? TYPE_DOT then ts' else ts | _ => ts end.
Lemma after_name_spec ts : no_struct ts → no_struct1 (after_name ts).
Proof.
  unfold no_struct, after_name. destruct ts as [|[c w] [|[c' w'] ts]]; cbn [fst]; [done| |];
    destruct (c =? TYPE_DOT); try done. by intros [_ ?].
Qed.
Lemma basic_name rec l w ts : fails_types rec → tk l ((TYPE_VAR, w) :: ts) → no_struct ts →
  runs (basicTypes p rec) l (good (λ _, True)) (after_name ts).
Proof.
  intros Hrec Hl Hts. apply runs_restoring. destruct (tk_Scan _ _ _ Hl) as (l1 & Hs & Hl1 & _).
  eapply runs_at; [exact Hs|]. cbv beta iota. cbn [fst snd].
  assert (Hres : IsResType w = None).
  { destruct Hl as [Hwf _]. apply Forall_cons in Hwf as [Hwf _].
    destruct (decide (IsResType w = None)) as [|Hn]; [done|]. exfalso.
    destruct (wf_res_type _ _ Hwf Hn) as [|Hin]; [done|]. revert Hin. bdone. }
  rewrite Hres. change (TYPE_VAR =? TYPE_VAR) with true. cbv iota.
  assert (Hgen : ∀ l2 tp, tk l2 (after_name ts) →
    runs (generic ← opt_generics rec; ret_ok (BasicTypeNode 0 tp 0 generic (mod_ p))) l2
      (good (λ _, True)) (after_name ts)).
  { intros l2 tp Hl2. destruct (after_name_spec _ Hts) as (Hne & _ & Hsm).
    eapply runs_at; [by eapply generics_none|]. by apply runs_ret. }
  eapply (runs_bind_err _ _ _ (λ _, True)); [|intros tp l2 _; apply Hgen].
  destruct ts as [|[c w1] ts]; [done|]. unfold no_struct in Hts. unfold after_name. cbn [fst].
  destruct (Z.eqb_spec c TYPE_DOT) as [->|Hc].
  - destruct ts as [|[c' w2] ts]; [done|]. destruct Hts as [-> _].
    eapply runs_tok_on; [discriminate|exact Hl1|]. intros l2 Hl2.
    eapply runs_tok; [discriminate|exact Hl2|]. intros l3 Hl3. by apply runs_ret.
  - eapply runs_miss_on; [discriminate|exact Hl1|done|]. apply runs_ret; [|done]. by destruct ts.
Qed.
Lemma name_type l w ts : tk l ((TYPE_VAR, w) :: ts) → no_struct ts →
  runs (allTypes p) l (good (λ _, True)) (after_name ts).
Proof.
  intros Hl Hts. apply runs_fuel. cbn [allTypes_fuel]. unfold allTypes_body. apply runs_fuel.
  eapply runs_at; [eapply stars_none; [exact Hl|discriminate]|].
  eapply (runs_bind_err _ _ _ (λ _, True)); [|intros n l2 _ Hl2; by apply runs_ret].
  apply runs_first_of; [by eapply errs_tok|]. apply runs_first_of; [by eapply errs_tok|].
  apply runs_first_hit. apply (basic_name _ _ w); [apply types_fail_fuel|done..].
Qed.

(** ** Initialisers *)
Lemma arrayInit_fails K l t ts : tk l (t :: ts) → t.1 ≠ TYPE_LSB → errs (runWithCatch2 (arrayInit p K)) l.
Proof.
  intros Hl Ht. assert (H : errs (arrayInit p K) l)
    by (apply errs_bind, errs_restoring; by eapply errs_tok).
  destruct H as [e He]. by eapply errs_catch2.
Qed.
Lemma structInit_fails_name K l w ts : tk l ((TYPE_VAR, w) :: ts) → no_struct ts →
  errs (runWithCatch2 (structInit p K)) l.
Proof.
  intros Hl Hts. destruct (name_type _ _ _ Hl Hts) as ([tp|] & l1 & Htp & HP & Hl1); [|done].
  destruct (after_name_spec _ Hts) as (Hne & Hlb & _). destruct (after_name ts) as [|t ts1]; [done|].
  assert (HLG : TYPE_LB ≠ TYPE_LG) by discriminate.
  apply (errs_catch2 _ _ (ELex ErrTYPE) l1).
  - unfold structInit, bind_err. rewrite (bind_Ret _ _ _ _ _ Htp). cbv iota.
    by rewrite (bind_Ret _ _ _ _ _ (scan_miss _ _ _ _ HLG Hl1 Hlb)).
  - pose proof (keeps_allTypes (runes l) (pos l) p l eq_refl (le_n _)) as Hr. rewrite Htp in Hr. apply Hr.
Qed.
Lemma structInit_fails K l t ts : tk l (t :: ts) → not_type_start t = true →
  errs (runWithCatch2 (structInit p K)) l.
Proof.
  intros Hl Ht. assert (H : errs (structInit p K) l) by (apply errs_bind; by eapply types_fail).
  destruct H as [e He]. by eapply errs_catch2.
Qed.

(** ** Names and calls *)
Lemma varChain_fails K l t ts : tk l (t :: ts) → t.1 ≠ TYPE_VAR → errs (varChain p K) l.
Proof.
  intros Hl Ht. apply errs_bind. unfold errs, varBlock. rewrite (bind_Ret GetPos _ l (pos l) l eq_refl).
  by eapply errs_tok.
Qed.
Lemma callFunc_fails K l t ts : tk l (t :: ts) → t.1 ≠ TYPE_VAR → panics (callFunc p K) l.
Proof.
  intros Hl Ht. destruct (varChain_fails K _ _ _ Hl Ht) as [e He].
  assert (Hc : errs (runWithCatch2 (varChain p K)) l) by (by eapply errs_catch2).
  destruct Hc as [e' He']. eapply panics_at; [exact He'|]. done.
Qed.
(** A chain that is not followed by arguments is not a call. *)
Lemma callFunc_no_args K l ts : runs (varChain p K) l (good (λ _, True)) ts → no_struct1 ts →
  hd_code ts ≠ TYPE_LP → panics (callFunc p K) l.
Proof.
  intros Hrun (Hne & _ & Hsm) Hlp. apply runs_catch2 in Hrun as ([f|] & l1 & Hf & HP & Hl1); [|done].
  eapply panics_at; [exact Hf|]. cbv iota.
  eapply panics_at; [eapply generics_none; [apply types_fail|done..]|].
  destruct ts as [|t ts]; [done|]. assert (HLG : TYPE_LP ≠ TYPE_LG) by discriminate.
  eapply panics_at; [exact (scan_miss _ _ _ _ HLG Hl1 Hlp)|]. done.
Qed.

(** ** No operand starts here *)
Lemma takeVal_fails K l t ts : tk l (t :: ts) → not_type_start t = true →
  errs (runWithCatch2 (takeValExp p K)) l.
Proof.
  intros Hl Ht. pose proof (not_type_start_codes t) as Hc.
  assert (Hv : t.1 ≠ TYPE_VAR) by (apply Hc; [done|bdone]).
  assert (H : errs (takeValExp p K) l).
  { unfold errs, takeValExp. rewrite lex_fuel_bind.
    rewrite (bind_Ret _ _ _ _ _ (stars_none _ _ _ _ _ Hl (Hc TYPE_MUL Ht ltac:(bdone)))).
    apply errs_bind, errs_first_of; [eapply arrayInit_fails; [exact Hl|by apply Hc; [|bdone]]|].
    repeat apply Forall_cons_2; [..|apply Forall_nil_2].
    - by eapply structInit_fails.
    - by eapply errs_catch_panic, callFunc_fails.
    - destruct (varChain_fails K _ _ _ Hl Hv) as [e He]. by eapply errs_catch2. }
  destruct H as [e He]. by eapply errs_catch2.
Qed.
Lemma strExp_fails l t ts : tk l (t :: ts) → t.1 ≠ TYPE_STR → errs (runWithCatch2 strExp) l.
Proof.
  intros Hl Ht. assert (H : errs strExp l) by (by eapply errs_tok). destruct H as [e He]. by eapply errs_catch2.
Qed.

(** [number] after its first two alternatives *)
Definition number_rest (K : knot) (c : nat) : LM ExpNode :=
  '(code, t1, eos) ← Scan;
  if (eos : bool) then panic
  else if (code =? TYPE_FLOAT) || (code =? TYPE_INT) then
    match number_value code t1 with Some v => mret (NumNode v) | None => panic end
  else
    GobackTo c;;
    _ ←! scan_type TYPE_LP;
    i ← k_exp K;
    _ ←! scan_type TYPE_RP;
    mret i.
Lemma number_other K l t ts : tk l (t :: ts) → t.1 ≠ TYPE_STR → not_type_start t = true →
  number p K l = number_rest K (pos l) l.
Proof.
  intros Hl Hs Ht. destruct (strExp_fails _ _ _ Hl Hs) as [e He]. destruct (takeVal_fails K _ _ _ Hl Ht) as [e' He'].
  unfold number, on_err, runWithCatch2Exp. rewrite (bind_Ret _ _ _ _ _ He). cbv iota.
  rewrite (bind_Ret SetCheckpoint _ l (pos l) l eq_refl). by rewrite (bind_Ret _ _ _ _ _ He').
Qed.
(** A token no number starts with. *)
Lemma number_fails K l t ts : tk l (t :: ts) → not_type_start t = true →
  t.1 ∉ [TYPE_STR; TYPE_FLOAT; TYPE_INT; TYPE_LP] → panics (number p K) l.
Proof.
  intros Hl Ht Hc. unfold panics. rewrite (number_other _ _ _ _ Hl); [|code_neq|done].
  destruct (tk_Scan _ _ _ Hl) as (l1 & Hs & Hl1 & Hback). unfold number_rest. rewrite (bind_Ret _ _ _ _ _ Hs).
  cbv beta iota. rewrite (proj2 (Z.eqb_neq t.1 TYPE_FLOAT)), (proj2 (Z.eqb_neq t.1 TYPE_INT)) by code_neq.
  cbn [orb]. rewrite Hback. assert (HLG : TYPE_LP ≠ TYPE_LG) by discriminate.
  assert (Hlp : t.1 ≠ TYPE_LP) by code_neq.
  unfold bind_panic. by rewrite (bind_Ret _ _ _ _ _ (scan_miss _ _ _ _ HLG Hl Hlp)).
Qed.
(** The arithmetic levels fail where their first operand does. *)
Lemma symbol_fails K l t ts : tk l (t :: ts) → t.1 ∉ [TYPE_PLUS; TYPE_SUB] →
  panics (number p K) l → panics (symbol p K) l.
Proof.
  intros Hl Hc Hn. unfold panics, symbol. rewrite (bind_Ret SetCheckpoint _ l (pos l) l eq_refl).
  destruct (tk_Scan _ _ _ Hl) as (l1 & Hs & Hl1 & Hback). rewrite (bind_Ret _ _ _ _ _ Hs). cbv beta iota.
  rewrite (proj2 (Z.eqb_neq t.1 TYPE_PLUS)), (proj2 (Z.eqb_neq t.1 TYPE_SUB)) by code_neq.
  cbn [orb]. by rewrite Hback.
Qed.
Lemma exp_fails K l : panics (symbol p K) l → panics (exp p K) l.
Proof. intros H. by do 3 apply panics_bind. Qed.
End fail.
