(* ===== verification/ParserComplete.v ===== *)
(** * The parser reads the grammar

    Every sentence of the grammar of Grammar.v, followed by a token that does
    not continue it, is read to its tree by the function of its nonterminal. *)
From S2P Require Import Prelude Lexer LexerTheorems Ast ParserTypes ParserExp ParserTheorems Grammar ParserTokens ParserFail.
#[local] Open Scope Z_scope.
#[local] Open Scope parser_scope.

(** ** First tokens *)
Definition num_starts : list Z := [TYPE_INT; TYPE_FLOAT; TYPE_STR; TYPE_VAR; TYPE_LP; TYPE_MUL].
Definition bin_starts : list Z := num_starts ++ [TYPE_PLUS; TYPE_SUB].
Definition bool_starts : list Z := bin_starts ++ [TYPE_RES_TRUE; TYPE_RES_FALSE; TYPE_RES_NIL; TYPE_NOT].

Lemma hd_app ts x : hd_code ts ≠ -1 → hd_code (ts ++ x) = hd_code ts.
Proof. by destruct ts. Qed.
Lemma hd_in ts (L : list Z) : hd_code ts ∈ L → -1 ∉ L → ∃ t ts', ts = t :: ts' ∧ t.1 ∈ L.
Proof. destruct ts as [|t ts]; [done|]. eauto. Qed.
(** Membership in a longer list of codes. *)
Lemma codes_app_l (c : Z) l k : c ∈ l → c ∈ l ++ k.
Proof. intros. apply elem_of_app. by left. Qed.

Section starts.
Context (p : Parser).

(** A name and what may follow it in a chain or a call. *)
Lemma idxs_hd tl idxs : g_idxs p tl idxs → tl = [] ∨ hd_code tl = TYPE_LSB.
Proof. destruct 1; [by left|by right]. Qed.
Lemma blocks_hd tl b : g_blocks p tl b → tl = [] ∨ hd_code tl = TYPE_DOT.
Proof. destruct 1; [by left|by right]. Qed.
Lemma no_struct1_hd ts c : hd_code ts = c → c ∈ [TYPE_LSB; TYPE_DOT; TYPE_LP] → no_struct1 ts.
Proof.
  intros Hc Hin. unfold no_struct1. rewrite Hc. split_and!.
  - intros ->. revert Hin. rewrite <- Hc. bdone.
  - intros ->. revert Hin. bdone.
  - intros ->. exfalso. revert Hin. bdone.
Qed.
Lemma no_struct1_app ts tl X : tl = [] ∨ hd_code tl = TYPE_LSB → ts = [] ∨ hd_code ts = TYPE_DOT →
  no_struct1 X → no_struct1 (tl ++ ts ++ X).
Proof.
  intros [-> |Htl] Hts HX; [destruct Hts as [-> |Hts]; [done|]|].
  - apply (no_struct1_hd _ TYPE_DOT); [|bdone]. simpl. by rewrite hd_app, Hts by (by rewrite Hts).
  - apply (no_struct1_hd _ TYPE_LSB); [|bdone]. by rewrite hd_app, Htl by (by rewrite Htl).
Qed.
Lemma no_struct_intro ts : no_struct1 ts → hd_code ts ≠ TYPE_DOT → no_struct ts.
Proof.
  destruct ts as [|[c w] ts]; [by intros [? _]|]. cbn. intros H Hc. by rewrite (proj2 (Z.eqb_neq _ _) Hc).
Qed.
Lemma chain_start ts e : g_var_chain p ts e →
  ∃ w tl, ts = (TYPE_VAR, w) :: tl ∧
    ∀ X, no_struct1 X → hd_code X ≠ TYPE_DOT → no_struct (tl ++ X).
Proof.
  destruct 1 as [ts0 t idxs tl b Hb Hbs]. inversion Hb as [t0 tl0 idxs0 Hi]; subst.
  exists t, (tl0 ++ tl). split; [done|]. intros X HX Hdot. rewrite <- app_assoc.
  pose proof (idxs_hd _ _ Hi) as Hh. destruct Hh as [-> |Hh].
  - destruct Hbs as [|ts1 t1 idxs1 tl1 b1 Hb1 Hbs1]; [by apply no_struct_intro|].
    inversion Hb1 as [t2 tl2 idxs2 Hi2]; subst. cbn. split; [done|]. rewrite <- !app_assoc.
    apply no_struct1_app; [by eapply idxs_hd|by eapply blocks_hd|done].
  - apply no_struct_intro.
    + apply (no_struct1_hd _ TYPE_LSB); [|bdone]. by rewrite hd_app, Hh by (by rewrite Hh).
    + by rewrite hd_app, Hh by (by rewrite Hh).
Qed.
Lemma call_start ts e : g_call p ts e →
  ∃ w tl, ts = (TYPE_VAR, w) :: tl ∧ ∀ X, no_struct (tl ++ X).
Proof.
  destruct 1 as [ts0 f args es tl next Hc _ _]. destruct (chain_start _ _ Hc) as (w & tl0 & -> & Hs).
  exists w, (tl0 ++ t_LP :: args ++ tl). split; [done|]. intros X. rewrite <- app_assoc. apply Hs; [|done].
  by apply (no_struct1_hd _ TYPE_LP); [|bdone].
Qed.
Lemma number_start ts e : g_number p ts e → hd_code ts ∈ num_starts.
Proof.
  destruct 1 as [c t v [-> | ->] _|s|n ts e H|n ts e H|ts e _]; try bdone.
  - destruct n; [|bdone]. destruct (chain_start _ _ H) as (w & tl & -> & _). bdone.
  - destruct n; [|bdone]. destruct (call_start _ _ H) as (w & tl & -> & _). bdone.
Qed.
Lemma hd_app_in ts x (L : list Z) : hd_code ts ∈ L → -1 ∉ L → hd_code (ts ++ x) ∈ L.
Proof. intros H HL. rewrite hd_app; [done|]. by intros E; rewrite E in H. Qed.
Lemma sign_start op ts : op ∈ sign_ops → hd_code (sym op :: ts) ∈ [TYPE_PLUS; TYPE_SUB].
Proof.
  intros Hop. assert (Hall : Forall (λ o : Z * string, o.1 ∈ [TYPE_PLUS; TYPE_SUB]) sign_ops) by bdone.
  by apply (proj1 (Forall_forall _ _) Hall).
Qed.
Lemma bin_start k ts e : g_bin p k ts e → hd_code ts ∈ bin_starts.
Proof.
  induction 1 as [ts e H|op ts e Hop _|k ts a tl e _ _ IH _].
  - apply codes_app_l. by eapply number_start.
  - apply elem_of_app. right. by apply sign_start.
  - by apply hd_app_in; [|bdone].
Qed.
Lemma boolean_start a ts e : g_boolean p a ts e → hd_code ts ∈ bool_starts.
Proof. destruct 1; try bdone. apply codes_app_l. by eapply bin_start. Qed.
Lemma compare_start a ts e : g_compare p a ts e → hd_code ts ∈ bool_starts.
Proof. destruct 1; [|apply hd_app_in; [|bdone]]; by eapply boolean_start. Qed.
Lemma bit_start a ts e : g_bit p a ts e → hd_code ts ∈ bool_starts.
Proof. destruct 1; [|apply hd_app_in; [|bdone]]; by eapply compare_start. Qed.
Lemma boolexp_start a ts e : g_boolexp p a ts e → hd_code ts ∈ bool_starts.
Proof. destruct 1; [|apply hd_app_in; [|bdone]]; by eapply bit_start. Qed.
Lemma all_start ts e : g_all p ts e → hd_code ts ∈ bool_starts ++ [TYPE_RES_AWAIT; TYPE_ESP].
Proof. destruct 1; try bdone. apply codes_app_l. by eapply boolexp_start. Qed.

(** ** Following tokens *)

(** [fol bad ts]: the first of [ts] does not continue an operand, nor is its
    code in [bad]. *)
Definition fol (bad : list Z) (ts : list tok) : Prop :=
  no_struct1 ts ∧ hd_code ts ∉ [TYPE_DOT; TYPE_LSB; TYPE_LP] ++ bad.
Fixpoint level_codes (k : nat) : list Z :=
  match k with O => [] | S k => level_codes k ++ (bin_ops k).*1 end.
Definition compare_codes : list Z := level_codes 3 ++ compare_ops.*1.
Definition bit_codes : list Z := compare_codes ++ [TYPE_BIT_OR; TYPE_ESP; TYPE_BIT_XOR].
Definition logic_codes : list Z := bit_codes ++ logic_ops.*1.

Lemma fol_app b b' ts : fol (b ++ b') ts → fol b ts.
Proof. intros [H1 H2]. split; [done|]. intros H. apply H2. rewrite app_assoc. by apply codes_app_l. Qed.
Lemma fol_nil b ts : fol b ts → fol [] ts.
Proof. intros H. by apply (fol_app [] b). Qed.
Lemma fol_intro b ts : ts ≠ [] → hd_code ts ∉ [TYPE_LB; TYPE_SM; TYPE_DOT; TYPE_LSB; TYPE_LP] ++ b → fol b ts.
Proof.
  intros Hne Hc. split; [split_and!; [done|..]|].
  - intros E. apply Hc. rewrite E. by left.
  - intros E. exfalso. apply Hc. rewrite E. right. by left.
  - intros H. apply Hc. by right; right.
Qed.
(** Operators, none of them a less-than sign. *)
Lemma fol_op b ops op ts : op ∈ ops →
  Forall (λ o : Z * string, o.1 ∉ [TYPE_LB; TYPE_SM; TYPE_DOT; TYPE_LSB; TYPE_LP] ++ b) ops →
  fol b (sym op :: ts).
Proof. intros Hop Hall. apply fol_intro; [done|]. by apply (proj1 (Forall_forall _ _) Hall). Qed.
Lemma fol_compare_op op ts : op ∈ compare_ops → (op.1 = TYPE_SM → starts_no_type ts = true) →
  fol (level_codes 3) (sym op :: ts).
Proof.
  intros Hop Hsm. split; [split_and!; [done|..|exact Hsm]|].
  - assert (Hall : Forall (λ o : Z * string, o.1 ≠ TYPE_LB) compare_ops) by bdone.
    by apply (proj1 (Forall_forall _ _) Hall).
  - assert (Hall : Forall (λ o : Z * string, o.1 ∉ [TYPE_DOT; TYPE_LSB; TYPE_LP] ++ level_codes 3) compare_ops) by bdone.
    by apply (proj1 (Forall_forall _ _) Hall).
Qed.
Lemma starts_no_type_app ts x : starts_no_type ts = true → starts_no_type (ts ++ x) = true.
Proof. by destruct ts. Qed.

Lemma tail_fol k a tl e rest : (k < 3)%nat → g_tail p k a tl e → fol (level_codes (S k)) rest →
  fol (level_codes k) (tl ++ rest).
Proof.
  intros Hk Ht. revert Hk. destruct Ht as [|k a op ts b tl' e Hop _ _]; intros Hk Hr; [by eapply fol_app|].
  cbn [app]. eapply fol_op; [exact Hop|].
  destruct k as [|[|[|k]]]; [bdone..|lia].
Qed.
Lemma cmp_tail_fol e0 tl e rest : g_cmp_tail p e0 tl e → fol compare_codes rest → fol (level_codes 3) (tl ++ rest).
Proof.
  intros [|? op a ts b tl' ? Hop Hsm _ _] Hr; [by eapply fol_app|].
  cbn [app]. apply fol_compare_op; [done|]. intros E. rewrite <- app_assoc. by apply starts_no_type_app, Hsm.
Qed.
Lemma bit_tail_fol e0 tl e rest : g_bit_tail p e0 tl e → fol bit_codes rest → fol compare_codes (tl ++ rest).
Proof.
  intros [|? op a ts b tl' ? Hop _ _] Hr; [by eapply fol_app|]. cbn [app]. eapply fol_op; [exact Hop|bdone].
Qed.
End starts.

(** ** The arithmetic levels as one family *)
Definition level_ops (k : nat) : bool → Z → bool :=
  match k with 0%nat => factor_ops | 1%nat => added_ops | _ => shift_ops end.
Fixpoint bin_parser (p : Parser) (K : knot) (k : nat) : LM ExpNode :=
  match k with O => symbol p K | S k => binary (level_ops k) (bin_parser p K k) end.
Lemma exp_bin p K : exp p K = bin_parser p K 3.
Proof. done. Qed.
Lemma level_ops_in k op : (k < 3)%nat → op ∈ bin_ops k → level_ops k false op.1 = true.
Proof.
  intros Hk Hop. assert (Hall : Forall (λ o : Z * string, level_ops k false o.1 = true) (bin_ops k)).
  { destruct k as [|[|[|k]]]; [bdone..|lia]. }
  by apply (proj1 (Forall_forall _ _) Hall).
Qed.
Lemma level_ops_out k c : (k < 3)%nat → c ∉ level_codes (S k) → level_ops k false c = false.
Proof.
  intros Hk Hc. apply not_true_iff_false. intros Ht. apply Hc.
  destruct k as [|[|[|k]]]; [..|lia]; revert Ht;
    unfold level_ops, factor_ops, added_ops, shift_ops; rewrite !orb_true_iff, ?andb_true_iff, !Z.eqb_eq.
  - intros [[[_ ->]| ->]| ->]; bdone.
  - intros [[_ ->]| ->]; bdone.
  - intros [[_ ->]| ->]; bdone.
Qed.

(** The same for several codes at once. *)
Ltac code_in :=
  match goal with
  | H : ?x ∈ ?L |- ?x ∉ ?L' =>
    assert (Hall : Forall (λ c, c ∉ L') L) by bdone; exact (proj1 (Forall_forall _ _) Hall x H)
  end.
(** ** Statements, one for each nonterminal *)
Section complete.
Context (p : Parser) (cap : nat → nat).
Abbreviation PK f := (parser_knot p cap f).
(** [reads m n ts P F]: with fuel [n] or more, [m] reads [ts] to a value of
    [P], for any rest allowed by [F]. *)
Definition reads {A} (m : nat → LM A) (ts : list tok) (P : A → Prop) (F : list tok → Prop) : Prop :=
  ∀ f l rest, (length ts ≤ f)%nat → tk l (ts ++ rest) → F rest → runs (m f) l P rest.
Definition is_exp (e : ExpNode) (x : ExpNode) : Prop := erase x = e.
Definition no_op (codes : list Z) (rest : list tok) : Prop := rest ≠ [] ∧ hd_code rest ∉ codes.

Definition P_number ts e := reads (λ f, number p (PK f)) ts (is_exp e) (fol []).
Definition P_bin k ts e := (k ≤ 3)%nat → reads (λ f, bin_parser p (PK f) k) ts (is_exp e) (fol (level_codes k)).
Definition P_tail k a tl e := (k < 3)%nat → ∀ fuel a', (length tl < fuel)%nat → erase a' = a →
  reads (λ f, binary_loop fuel (level_ops k) (bin_parser p (PK f) k) a') tl (is_exp e) (fol (level_codes (S k))).
Definition P_block ts (b : text * list ExpNode) :=
  reads (λ f, varBlock (PK f)) ts (good (λ '(t, i, _), t = b.1 ∧ map erase i = b.2)) (no_op [TYPE_LSB]).
Definition P_idxs tl idxs := ∀ fuel acc, (length tl < fuel)%nat →
  reads (λ f, idx_loop (PK f) fuel acc) tl (good (λ r, map erase r = map erase acc ++ idxs)) (no_op [TYPE_LSB]).
Definition P_blocks tl b := ∀ fuel acc, (length tl < fuel)%nat →
  reads (λ f, chain_loop (PK f) fuel acc) tl
    (good (λ r, ∃ bs, r = acc ++ bs ∧ (erase_block <$> link bs) = b)) (no_op [TYPE_LSB; TYPE_DOT]).
Definition P_var_chain ts e :=
  reads (λ f, varChain p (PK f)) ts (good (is_exp e)) (no_op [TYPE_LSB; TYPE_DOT]).
Definition P_call ts e := reads (λ f, callFunc p (PK f)) ts (is_exp e) (fol []).
(** The arguments after the opening parenthesis *)
Definition call_args (K : knot) : LM (list ExpNode) :=
  on_err (scan_type TYPE_RP) (λ _, mret []) (λ e,
    if is_eos e then panic else a ← k_allexp K; fuel ← lex_fuel; call_params_loop K fuel [a]).
Definition P_args args es :=
  reads (λ f, call_args (PK f)) args (λ r, map erase r = es) (λ rest, rest ≠ []).
Definition P_more_args tl es := ∀ fuel acc, (length tl < fuel)%nat →
  reads (λ f, call_params_loop (PK f) fuel acc) tl (λ r, map erase r = map erase acc ++ es) (λ rest, rest ≠ []).
Definition P_next tl next := ∀ fuel, (length tl < fuel)%nat →
  reads (λ f, call_next_loop p (PK f) fuel None) tl (λ r, (erase <$> r) = next) (fol []).
(** Arithmetic read from boolean tokens panics or stops before a token that is
    not a closing parenthesis. *)
Definition P_bad ts := ∀ f l rest, (length ts ≤ f)%nat → tk l (ts ++ rest) →
  panics (exp p (PK f)) l ∨
  ∃ t ts', runs (exp p (PK f)) l (λ _, True) (t :: ts') ∧ t.1 ≠ TYPE_RP.
Definition P_flag (a : bool) ts e := if a then P_bin 3 ts e else P_bad ts.
Definition P_boolean a ts e :=
  reads (λ f, boolean p (PK f)) ts (good (is_exp e)) (fol (level_codes 3)) ∧ P_flag a ts e.
Definition P_compare a ts e :=
  reads (λ f, compare p (PK f)) ts (good (is_exp e)) (fol compare_codes) ∧ P_flag a ts e.
Definition P_cmp_tail e0 tl e := ∀ fuel a', (length tl < fuel)%nat → erase a' = e0 →
  reads (λ f, compare_loop p (PK f) fuel a') tl (good (is_exp e)) (fol compare_codes).
Definition P_bit a ts e :=
  reads (λ f, bitOp p (PK f)) ts (good (is_exp e)) (fol bit_codes) ∧ P_flag a ts e.
Definition P_bit_tail e0 tl e := ∀ fuel a', (length tl < fuel)%nat → erase a' = e0 →
  reads (λ f, bit_loop p (PK f) fuel a') tl (good (is_exp e)) (fol bit_codes).
Definition P_boolexp a ts e :=
  reads (λ f, boolexp p (PK f)) ts (good (is_exp e)) (fol logic_codes) ∧ P_flag a ts e.
Definition P_all ts e := reads (λ f, allexp p (PK f)) ts (is_exp e) (fol logic_codes).

(** ** Numbers *)

Lemma no_type_codes t L : wf_token t → t.1 ∈ L → Forall (λ c, c ∉ type_codes) L → not_type_start t = true.
Proof. intros Hwf Ht HL. apply no_type_start; [done|]. by apply (proj1 (Forall_forall _ _) HL). Qed.
Lemma tk_wf l t ts : tk l (t :: ts) → wf_token t.
Proof. intros [H _]. by apply Forall_cons in H as [H _]. Qed.
Lemma fol_ne b ts : fol b ts → ts ≠ [].
Proof. by intros [[H _] _]. Qed.
Lemma fol_no_op b c ts : fol b ts → (∀ x, x ∈ c → x ∈ [TYPE_DOT; TYPE_LSB; TYPE_LP]) → no_op c ts.
Proof.
  intros [[Hne _] Hc] Hin. split; [done|]. intros H. apply Hc. apply codes_app_l. by apply Hin.
Qed.
Lemma fol_no_struct b ts : fol b ts → no_struct1 ts ∧ hd_code ts ≠ TYPE_DOT ∧ hd_code ts ≠ TYPE_LP.
Proof.
  intros [H Hc]. split; [done|]. split; intros E; apply Hc, codes_app_l; rewrite E; bdone.
Qed.

Lemma C_num c t v : c = TYPE_FLOAT ∨ c = TYPE_INT → number_value c t = Some v → P_number [(c, t)] (NumNode v).
Proof.
  intros Hc Hv f l rest _ Hl _. cbn [app] in Hl.
  assert (Hin : c ∈ [TYPE_FLOAT; TYPE_INT]) by (destruct Hc as [-> | ->]; bdone).
  assert (Ht : not_type_start (c, t) = true)
    by (apply (no_type_codes _ [TYPE_FLOAT; TYPE_INT]); [by eapply tk_wf|done|bdone]).
  assert (Hs : c ≠ TYPE_STR) by code_neq.
  unfold runs. rewrite (number_other _ _ _ _ _ Hl); [|done|done]. unfold number_rest. clear Hs.
  destruct (tk_Scan _ _ _ Hl) as (l1 & Hs & Hl1 & _). rewrite (bind_Ret _ _ _ _ _ Hs). cbv beta iota. cbn [fst snd].
  assert ((c =? TYPE_FLOAT) || (c =? TYPE_INT) = true) as -> by (destruct Hc as [-> | ->]; done).
  rewrite Hv. by exists (NumNode v), l1.
Qed.
Lemma C_str s : P_number [(TYPE_STR, s)] (StringNode s).
Proof.
  intros f l rest _ Hl _. cbn [app] in Hl. unfold number.
  eapply (runs_on_ok _ _ _ _ (λ x, x = StringNode s)); [|intros a l1 -> Hl1; by apply runs_ret].
  apply runs_catch2. eapply runs_tok; [discriminate|exact Hl|]. intros l1 Hl1. by apply runs_ret.
Qed.

(** Stars *)
Lemma stars_run n fuel k l ts : tk l (replicate n t_MUL ++ ts) → ts ≠ [] → hd_code ts ≠ TYPE_MUL → (n < fuel)%nat →
  runs (scan_stars fuel k) l (λ x, x = (k + n)%nat) ts.
Proof.
  revert fuel k l. induction n as [|n IH]; intros fuel k l Hl Hne Hm Hf; (destruct fuel as [|fuel]; [lia|]).
  - destruct ts as [|t ts]; [done|]. unfold runs. rewrite (stars_none _ _ _ _ _ Hl Hm). exists k, l.
    split_and!; [done|lia|done].
  - cbn [replicate app scan_stars] in *. eapply runs_tok_on; [discriminate|exact Hl|].
    intros l1 Hl1. eapply runs_mono; [apply IH; [done..|lia]|]. cbn. intros; lia.
Qed.

(** A value behind stars: [H] reads the name or the call. *)
Lemma read_take_val K n ts w tl rest l e :
  tk l (replicate n t_MUL ++ ts ++ rest) → ts = (TYPE_VAR, w) :: tl → no_struct (tl ++ rest) →
  (∀ l', tk l' (ts ++ rest) →
    runs (first_of (runWithCatchExp (callFunc p K)) [runWithCatch2Exp (varChain p K)]) l' (good (is_exp e)) rest) →
  runs (number p K) l (is_exp (if (n =? 0)%nat then e else TakeValNode n e)) rest.
Proof.
  intros Hl -> Hns H. unfold number. apply runs_on_err.
  { destruct n; eapply strExp_fails; [exact Hl|discriminate|exact Hl|discriminate]. }
  intros _. eapply runs_at; [reflexivity|].
  eapply (runs_on_ok _ _ _ _ (is_exp (if (n =? 0)%nat then e else TakeValNode n e))); [|intros a l1 Ha Hl1; by apply runs_ret].
  apply runs_catch2. unfold takeValExp. apply runs_fuel.
  eapply runs_bind; [apply stars_run; [exact Hl|done|done|]|].
  { pose proof (tk_fuel _ _ Hl) as Hf. rewrite length_app, length_replicate in Hf. lia. }
  cbn beta. intros level l1 Hlev Hl1. assert (level = n) as -> by lia. cbn [app] in Hl1.
  eapply (runs_bind_err _ _ _ (is_exp e)).
  - apply runs_first_of; [eapply arrayInit_fails; [exact Hl1|discriminate]|].
    apply runs_first_of; [by eapply structInit_fails_name|]. by apply H.
  - intros a l2 Ha Hl2. apply runs_ret; [done|]. cbn. unfold is_exp in *. subst e. by destruct (n =? 0)%nat.
Qed.
Lemma C_var n ts e : g_var_chain p ts e → P_var_chain ts e →
  P_number (replicate n t_MUL ++ ts) (if (n =? 0)%nat then e else TakeValNode n e).
Proof.
  intros Hg Hc f l rest Hf Hl Hr. rewrite <- app_assoc in Hl. rewrite length_app in Hf.
  destruct (chain_start _ _ _ Hg) as (w & tl & Hts & Hs). destruct (fol_no_struct _ _ Hr) as (H1 & H2 & H3).
  eapply read_take_val; [exact Hl|exact Hts|by apply Hs|]. intros l1 Hl1.
  assert (Hchain : runs (varChain p (PK f)) l1 (good (is_exp e)) rest).
  { apply Hc; [lia|done|]. eapply fol_no_op; [exact Hr|set_solver]. }
  apply runs_first_of.
  - apply errs_catch_panic. apply (callFunc_no_args _ _ _ rest); [|done..].
    eapply runs_mono; [exact Hchain|]. by intros [].
  - by apply runs_first_hit, runs_catch2.
Qed.
Lemma C_callee n ts e : g_call p ts e → P_call ts e →
  P_number (replicate n t_MUL ++ ts) (if (n =? 0)%nat then e else TakeValNode n e).
Proof.
  intros Hg Hc f l rest Hf Hl Hr. rewrite <- app_assoc in Hl. rewrite length_app in Hf.
  destruct (call_start _ _ _ Hg) as (w & tl & Hts & Hs).
  eapply read_take_val; [exact Hl|exact Hts|by apply Hs|]. intros l1 Hl1.
  apply runs_first_hit, runs_catch. apply Hc; [lia|done..].
Qed.
(** [number] at a parenthesis *)
Lemma number_paren K l ts : tk l (t_LP :: ts) → ∃ l1, tk l1 ts ∧
  number p K l = (i ← k_exp K; _ ←! scan_type TYPE_RP; mret i) l1.
Proof.
  intros Hl. rewrite (number_other _ _ _ _ _ Hl); [|discriminate|bdone]. unfold number_rest.
  destruct (tk_Scan _ _ _ Hl) as (l1 & Hs & Hl1 & Hback). rewrite (bind_Ret _ _ _ _ _ Hs).
  change (t_LP.1 =? TYPE_FLOAT) with false. change (t_LP.1 =? TYPE_INT) with false. cbn [orb]. cbv beta iota.
  rewrite Hback. assert (HLG : TYPE_LP ≠ TYPE_LG) by discriminate.
  destruct (scan_hit _ _ _ _ HLG Hl) as (l2 & Hs2 & Hl2). exists l2. split; [done|].
  unfold bind_panic at 1. by rewrite (bind_Ret _ _ _ _ _ Hs2).
Qed.
Lemma C_paren ts e : P_bin 3 ts e → P_number (t_LP :: ts ++ [t_RP]) e.
Proof.
  intros H f l rest Hf Hl Hr. cbn [app] in Hl. rewrite <- app_assoc in Hl.
  destruct (number_paren (PK f) _ _ Hl) as (l1 & Hl1 & Heq). unfold runs. rewrite Heq.
  cbn [length] in Hf. rewrite length_app in Hf. destruct f as [|f]; [lia|].
  change (k_exp (PK (S f))) with (bin_parser p (PK f) 3).
  eapply runs_bind; [apply (H (le_n _)); [lia|exact Hl1|]|].
  - by apply fol_intro; [|bdone].
  - intros a l2 Ha Hl2. eapply runs_tok_panic; [discriminate|exact Hl2|]. intros l3 Hl3. by apply runs_ret.
Qed.

(** ** Arithmetic *)
Lemma C_plain ts e : g_number p ts e → P_number ts e → P_bin 0 ts e.
Proof.
  intros Hg H _ f l rest Hf Hl Hr. pose proof (number_start _ _ _ Hg) as Hst.
  destruct (hd_in _ _ Hst ltac:(bdone)) as (t & ts' & Hts & Ht). cbn [bin_parser]. unfold symbol.
  eapply runs_at; [reflexivity|]. pose proof Hl as Hl0. rewrite Hts in Hl0. cbn [app] in Hl0.
  destruct (tk_Scan _ _ _ Hl0) as (l1 & Hs & Hl1 & Hback). eapply runs_at; [exact Hs|]. cbv beta iota.
  rewrite (proj2 (Z.eqb_neq t.1 TYPE_PLUS)), (proj2 (Z.eqb_neq t.1 TYPE_SUB)) by code_neq. cbn [orb].
  unfold runs. rewrite Hback. by apply H.
Qed.
Lemma C_sign op ts e : op ∈ sign_ops → P_number ts e → P_bin 0 (sym op :: ts) (UnaryNode op.1 e).
Proof.
  intros Hop H _ f l rest Hf Hl Hr. cbn [app length] in *. cbn [bin_parser]. unfold symbol.
  eapply runs_at; [reflexivity|]. destruct (tk_Scan _ _ _ Hl) as (l1 & Hs & Hl1 & _).
  eapply runs_at; [exact Hs|]. cbv beta iota.
  assert (Hall : Forall (λ o : Z * string, ((o.1 =? TYPE_PLUS) || (o.1 =? TYPE_SUB)) = true) sign_ops) by bdone.
  rewrite (proj1 (Forall_forall _ _) Hall op Hop : (((sym op).1 =? TYPE_PLUS) || ((sym op).1 =? TYPE_SUB)) = true).
  eapply runs_bind; [apply H; [lia|done..]|]. intros a l2 Ha Hl2. apply runs_ret; [done|].
  unfold is_exp in *. cbn. by rewrite Ha.
Qed.
Lemma C_level k ts a tl e : (k < 3)%nat → g_tail p k a tl e → P_bin k ts a → P_tail k a tl e →
  P_bin (S k) (ts ++ tl) e.
Proof.
  intros Hk Hg Hb Ht _ f l rest Hf Hl Hr. rewrite <- app_assoc in Hl. rewrite length_app in Hf.
  cbn [bin_parser]. unfold binary. eapply runs_bind; [apply (Hb ltac:(lia)); [lia|exact Hl|by eapply tail_fol]|].
  intros x l1 Hx Hl1. apply runs_fuel. pose proof (tk_fuel _ _ Hl1) as Hfuel. rewrite length_app in Hfuel.
  apply (Ht Hk); [lia|exact Hx|lia|done..].
Qed.
Lemma C_tail_nil k a : P_tail k a [] a.
Proof.
  intros Hk fuel a' Hfuel Ha f l rest _ Hl Hr. destruct fuel as [|fuel]; [simpl in Hfuel; lia|].
  cbn [app] in Hl. cbn [binary_loop]. eapply runs_at; [reflexivity|].
  pose proof (fol_ne _ _ Hr) as Hne. destruct rest as [|t rest]; [done|].
  destruct (tk_Scan _ _ _ Hl) as (l1 & Hs & Hl1 & Hback). eapply runs_at; [exact Hs|]. cbv beta iota.
  rewrite level_ops_out; [|done|].
  - unfold runs. rewrite Hback. by apply runs_ret.
  - intros Hin. destruct Hr as [_ Hc]. apply Hc. apply elem_of_app. by right.
Qed.
Lemma C_tail_cons k a op ts b tl e : op ∈ bin_ops k → g_tail p k (BinNode op.1 a b) tl e →
  P_bin k ts b → P_tail k (BinNode op.1 a b) tl e → P_tail k a (sym op :: ts ++ tl) e.
Proof.
  intros Hop Hg Hb Ht Hk fuel a' Hfuel Ha f l rest Hf Hl Hr. cbn [app length] in *. rewrite <- app_assoc in Hl.
  rewrite length_app in *. destruct fuel as [|fuel]; [lia|]. cbn [binary_loop].
  eapply runs_at; [reflexivity|]. destruct (tk_Scan _ _ _ Hl) as (l1 & Hs & Hl1 & _).
  eapply runs_at; [exact Hs|]. cbv beta iota. change ((sym op).1) with op.1. rewrite level_ops_in by done.
  eapply runs_bind; [apply (Hb ltac:(lia)); [lia|exact Hl1|by eapply tail_fol]|].
  intros x l2 Hx Hl2. apply (Ht Hk); [lia| |lia|done..]. cbn. by rewrite Ha, Hx.
Qed.

(** ** Names *)
Lemma C_block t tl idxs : P_idxs tl idxs → P_block ((TYPE_VAR, t) :: tl) (t, idxs).
Proof.
  intros H f l rest Hf Hl Hr. cbn [app length] in *. unfold varBlock. eapply runs_at; [reflexivity|].
  eapply runs_tok; [discriminate|exact Hl|]. intros l1 Hl1. apply runs_fuel.
  pose proof (tk_fuel _ _ Hl1) as Hfuel. rewrite length_app in Hfuel.
  eapply runs_bind_err; [apply H; [|lia|exact Hl1|done]; lia|].
  intros r l2 Hr2 Hl2. apply runs_ret; [done|]. by cbn in *.
Qed.
(** A token that is not [c] ends a loop of [scan_type c]. *)
Lemma no_op_hd codes c rest : no_op codes rest → c ∈ codes → ∃ t ts, rest = t :: ts ∧ t.1 ≠ c.
Proof. intros [Hne Hc] Hin. destruct rest as [|t ts]; [done|]. exists t, ts. split; [done|]. intros E. by rewrite <- E in Hin. Qed.
Lemma C_idxs_nil : P_idxs [] [].
Proof.
  intros fuel acc Hfuel f l rest _ Hl Hr. destruct fuel as [|fuel]; [simpl in Hfuel; lia|]. cbn [app idx_loop] in *.
  destruct (no_op_hd _ TYPE_LSB _ Hr) as (t & ts & -> & Ht); [bdone|].
  eapply runs_miss_on; [discriminate|exact Hl|exact Ht|]. apply runs_ret; [done|]. cbn. by rewrite app_nil_r.
Qed.
(** What ends an expression inside brackets or parentheses *)
Lemma closing_fol t ts : t ∈ [t_RSB; t_RP; t_COMMA] → fol logic_codes (t :: ts).
Proof.
  intros Ht. apply fol_intro; [done|]. cbn [hd_code].
  assert (Hall : Forall (λ t : tok, t.1 ∉ [TYPE_LB; TYPE_SM; TYPE_DOT; TYPE_LSB; TYPE_LP] ++ logic_codes) [t_RSB; t_RP; t_COMMA])
    by bdone.
  by apply (proj1 (Forall_forall _ _) Hall).
Qed.
Lemma C_idxs_cons ts e tl idxs : P_all ts e → P_idxs tl idxs → P_idxs (t_LSB :: ts ++ t_RSB :: tl) (e :: idxs).
Proof.
  intros He Ht fuel acc Hfuel f l rest Hf Hl Hr. cbn [app length] in *. rewrite <- app_assoc in Hl. cbn [app] in Hl.
  rewrite length_app in *. cbn [length] in *. destruct fuel as [|fuel]; [lia|]. destruct f as [|f]; [lia|]. cbn [idx_loop].
  eapply runs_tok_on; [discriminate|exact Hl|]. intros l1 Hl1.
  eapply runs_bind; [apply He; [|exact Hl1|]; [lia|apply closing_fol; bdone]|].
  intros x l2 Hx Hl2. eapply runs_tok; [discriminate|exact Hl2|]. intros l3 Hl3.
  eapply runs_mono; [apply Ht; [lia|lia|done|done]|]. intros [r|]; [|done]. cbn. intros ->.
  rewrite map_app, <- app_assoc. cbn. by rewrite Hx.
Qed.
Lemma C_blocks_nil : P_blocks [] None.
Proof.
  intros fuel acc Hfuel f l rest _ Hl Hr. destruct fuel as [|fuel]; [simpl in Hfuel; lia|]. cbn [app chain_loop] in *.
  destruct (no_op_hd _ TYPE_DOT _ Hr) as (t & ts & -> & Ht); [bdone|].
  eapply runs_miss_on; [discriminate|exact Hl|exact Ht|]. apply runs_ret; [done|].
  exists []. by rewrite app_nil_r.
Qed.
Lemma blocks_no_op tl b rest : g_blocks p tl b → no_op [TYPE_LSB; TYPE_DOT] rest → no_op [TYPE_LSB] (tl ++ rest).
Proof.
  intros [|ts t idxs tl' b' _ _] [Hne Hc]; cbn [app]; (split; [done|]); [|bdone].
  intros H%list_elem_of_singleton. apply Hc. rewrite H. by left.
Qed.
Lemma C_blocks_cons ts t idxs tl b : g_blocks p tl b → P_block ts (t, idxs) → P_blocks tl b →
  P_blocks (t_DOT :: ts ++ tl) (Some (mk_VarBlockNode t idxs b 0)).
Proof.
  intros Hg Hb Ht fuel acc Hfuel f l rest Hf Hl Hr. cbn [app length] in *. rewrite <- app_assoc in Hl.
  rewrite length_app in *. destruct fuel as [|fuel]; [lia|]. cbn [chain_loop].
  eapply runs_tok_on; [discriminate|exact Hl|]. intros l1 Hl1.
  eapply runs_bind_err; [apply Hb; [lia|exact Hl1|by eapply blocks_no_op]|].
  intros [[t' i'] pos'] l2 [-> Hi] Hl2. cbn [fst snd] in *.
  eapply runs_mono; [apply Ht; [lia|lia|done|done]|]. intros [r|]; [|done]. intros (bs & -> & Hbs).
  eexists. split; [by rewrite <- app_assoc|]. cbn. rewrite <- Hbs, Hi. by destruct (link bs).
Qed.
Lemma C_chain ts t idxs tl b : g_blocks p tl b → P_block ts (t, idxs) → P_blocks tl b →
  P_var_chain (ts ++ tl) (VarExp (mk_VarBlockNode (imported p t) idxs b 0)).
Proof.
  intros Hg Hb Ht f l rest Hf Hl Hr. rewrite <- app_assoc in Hl. rewrite length_app in Hf. unfold varChain.
  eapply runs_bind_err; [apply Hb; [lia|exact Hl|by eapply blocks_no_op]|].
  intros [[t' i'] pos'] l1 [-> Hi] Hl1. cbn [fst snd] in *. apply runs_fuel.
  pose proof (tk_fuel _ _ Hl1) as Hfuel. rewrite length_app in Hfuel.
  eapply runs_bind_err; [apply Ht; [|lia|exact Hl1|done]; lia|].
  intros bs l2 (bs' & -> & Hbs) Hl2. apply runs_ret; [done|]. unfold is_exp, good. cbn. cbn in Hbs.
  rewrite Hi. unfold imported. destruct (link bs') as [b'|]; cbn in *; by subst b.
Qed.

(** ** Calls *)
Lemma next_fol tl next rest : g_next p tl next → fol [] rest → tl ++ rest ≠ [].
Proof. intros [] Hr; [by eapply fol_ne|done..]. Qed.
Lemma C_call ts fe args es tl next : g_next p tl next → P_var_chain ts fe → P_args args es → P_next tl next →
  P_call (ts ++ t_LP :: args ++ tl) (CallFuncNode es fe next []).
Proof.
  intros Hgn Hc Ha Hn f l rest Hf Hl Hr. rewrite <- app_assoc in Hl. cbn [app] in Hl. rewrite <- app_assoc in Hl.
  rewrite length_app in Hf. cbn [length] in Hf. rewrite length_app in Hf. unfold callFunc.
  eapply runs_bind_panic; [apply runs_catch2, Hc; [lia|exact Hl|]|].
  { split; [done|]. apply (bool_decide_unpack _); vm_compute; exact I. }
  intros fn l1 Hfn Hl1. eapply runs_at.
  { eapply generics_none; [apply types_fail|exact Hl1|done|discriminate]. }
  eapply runs_tok_panic; [discriminate|exact Hl1|]. intros l2 Hl2.
  eapply runs_bind; [apply Ha; [lia|exact Hl2|by eapply next_fol]|]. intros ps l3 Hps Hl3. apply runs_fuel.
  pose proof (tk_fuel _ _ Hl3) as Hfuel. rewrite length_app in Hfuel.
  eapply runs_bind; [apply Hn; [|lia|exact Hl3|done]; lia|]. intros nx l4 Hnx Hl4. apply runs_ret; [done|].
  unfold is_exp in *. cbn. rewrite Hps, Hfn. destruct nx; cbn in *; by subst next.
Qed.
Lemma C_args_none : P_args [t_RP] [].
Proof.
  intros f l rest _ Hl _. cbn [app] in Hl. unfold call_args.
  eapply runs_tok_on; [discriminate|exact Hl|]. intros l1 Hl1. by apply runs_ret.
Qed.
Lemma more_args_fol tl es rest : g_more_args p tl es → fol logic_codes (tl ++ rest).
Proof. intros []; cbn [app]; apply closing_fol; bdone. Qed.
Lemma C_args_some ts e tl es : g_all p ts e → g_more_args p tl es → P_all ts e → P_more_args tl es →
  P_args (ts ++ tl) (e :: es).
Proof.
  intros Hg Hgm He Hm f l rest Hf Hl Hr. rewrite <- app_assoc in Hl. rewrite length_app in Hf. unfold call_args.
  destruct (hd_in _ _ (all_start _ _ _ Hg) ltac:(bdone)) as (t & ts' & Hts & Ht).
  pose proof Hl as Hl0. rewrite Hts in Hl0. cbn [app] in Hl0.
  eapply runs_miss_on; [discriminate|exact Hl0|code_neq|]. cbn [is_eos].
  assert (Hlen : (0 < length tl)%nat) by (destruct Hgm; simpl; lia). destruct f as [|f]; [lia|].
  eapply runs_bind; [apply He; [|exact Hl|by eapply more_args_fol]; lia|].
  intros x l1 Hx Hl1. apply runs_fuel. pose proof (tk_fuel _ _ Hl1) as Hfuel. rewrite length_app in Hfuel.
  eapply runs_mono; [apply Hm; [|lia|exact Hl1|done]; lia|]. cbn. intros r ->. by rewrite Hx.
Qed.
Lemma C_args_end : P_more_args [t_RP] [].
Proof.
  intros fuel acc Hfuel f l rest _ Hl _. destruct fuel as [|fuel]; [lia|]. cbn [app call_params_loop] in *.
  eapply runs_tok_on; [discriminate|exact Hl|]. intros l1 Hl1. apply runs_ret; [done|]. by rewrite app_nil_r.
Qed.
Lemma C_args_comma ts e tl es : g_more_args p tl es → P_all ts e → P_more_args tl es →
  P_more_args (t_COMMA :: ts ++ tl) (e :: es).
Proof.
  intros Hgm He Hm fuel acc Hfuel f l rest Hf Hl Hr. cbn [app length] in *. rewrite <- app_assoc in Hl.
  rewrite length_app in *. destruct fuel as [|fuel]; [lia|]. destruct f as [|f]; [lia|]. cbn [call_params_loop].
  eapply runs_miss_on; [discriminate|exact Hl|discriminate|]. cbn [is_eos].
  eapply runs_tok_panic; [discriminate|exact Hl|]. intros l1 Hl1.
  eapply runs_bind; [apply He; [|exact Hl1|by eapply more_args_fol]; lia|].
  intros x l2 Hx Hl2. eapply runs_mono; [apply Hm; [lia|lia|exact Hl2|done]|]. cbn. intros r ->.
  rewrite map_app, <- app_assoc. cbn. by rewrite Hx.
Qed.
(** The loop over what follows a call goes around once more and stops. *)
Lemma next_stop K fuel o l rest : (0 < fuel)%nat → tk l rest → fol [] rest →
  runs (call_next_loop p K fuel o) l (λ r, r = o) rest.
Proof.
  intros Hf Hl Hr. destruct fuel as [|fuel]; [lia|]. cbn [call_next_loop].
  destruct (no_op_hd [TYPE_DOT] TYPE_DOT rest) as (t & ts & -> & Ht); [|bdone|].
  { eapply fol_no_op; [exact Hr|set_solver]. }
  eapply runs_miss_on; [discriminate|exact Hl|exact Ht|]. by apply runs_ret.
Qed.
Lemma C_next_none : P_next [] None.
Proof.
  intros fuel Hfuel f l rest _ Hl Hr. eapply runs_mono; [by apply next_stop|]. by intros r ->.
Qed.
Lemma next_dot ts e fuel f l rest :
  (2 ≤ fuel)%nat → tk l (t_DOT :: ts ++ rest) → fol [] rest →
  (∀ l1, tk l1 (ts ++ rest) → runs (on_err (runWithCatchExp (k_callFunc (PK f))) mret
     (λ _, n ←! varChain p (PK f); mret n)) l1 (is_exp e) rest) →
  runs (call_next_loop p (PK f) fuel None) l (λ r, (erase <$> r) = Some e) rest.
Proof.
  intros Hfuel Hl Hr H. destruct fuel as [|fuel]; [lia|]. cbn [call_next_loop].
  eapply runs_tok_on; [discriminate|exact Hl|]. intros l1 Hl1.
  eapply runs_bind; [by apply H|]. intros x l2 Hx Hl2.
  eapply runs_mono; [apply next_stop; [lia|done..]|]. intros r ->. cbn. by rewrite Hx.
Qed.
Lemma C_next_call ts e : P_call ts e → P_next (t_DOT :: ts) (Some e).
Proof.
  intros Hc fuel Hfuel f l rest Hf Hl Hr. cbn [app length] in *.
  destruct f as [|f]; [lia|]. eapply next_dot; [|exact Hl|done|]; [|intros l1 Hl1].
  - lia.
  - eapply runs_on_ok; [apply runs_catch, Hc; [lia|exact Hl1|done]|]. intros a l2 Ha Hl2. by apply runs_ret.
Qed.
Lemma C_next_var ts e : g_var_chain p ts e → P_var_chain ts e → P_next (t_DOT :: ts) (Some e).
Proof.
  intros Hg Hc fuel Hfuel f l rest Hf Hl Hr. cbn [app length] in *.
  destruct (chain_start _ _ _ Hg) as (w & tl & Hts & _). destruct (fol_no_struct _ _ Hr) as (H1 & H2 & H3).
  assert (Hno : no_op [TYPE_LSB; TYPE_DOT] rest) by (eapply fol_no_op; [exact Hr|set_solver]).
  destruct f as [|f]; [lia|]. eapply next_dot; [|exact Hl|done|]; [|intros l1 Hl1].
  - subst ts. cbn [length] in *. lia.
  - apply runs_on_err.
    + apply errs_catch_panic. change (k_callFunc (PK (S f))) with (callFunc p (PK f)).
      apply (callFunc_no_args _ _ _ rest); [|done..].
      eapply runs_mono; [apply Hc; [lia|exact Hl1|done]|]. by intros [].
    + intros _. eapply runs_bind_panic; [apply Hc; [lia|exact Hl1|done]|]. intros a l2 Ha Hl2. by apply runs_ret.
Qed.

(** ** Booleans *)

(** Arithmetic panics at a token no number starts with. *)
Lemma exp_fails_at K l t ts : tk l (t :: ts) →
  t.1 ∈ [TYPE_RES_TRUE; TYPE_RES_FALSE; TYPE_RES_NIL; TYPE_NOT] → panics (exp p K) l.
Proof.
  intros Hl Ht. apply exp_fails. eapply symbol_fails; [exact Hl|code_in|]. eapply number_fails; [exact Hl| |code_in].
  eapply no_type_codes; [by eapply tk_wf|exact Ht|bdone].
Qed.
(** Arithmetic panics at a parenthesis around what is not arithmetic. *)
Lemma exp_fails_paren f l ts rest : P_bad ts → (length ts < f)%nat → tk l (t_LP :: ts ++ t_RP :: rest) →
  panics (exp p (PK f)) l.
Proof.
  intros Hbad Hf Hl. apply exp_fails. eapply symbol_fails; [exact Hl|bdone|].
  destruct (number_paren (PK f) _ _ Hl) as (l1 & Hl1 & Heq). unfold panics. rewrite Heq.
  destruct f as [|f]; [lia|]. change (k_exp (PK (S f))) with (exp p (PK f)).
  destruct (Hbad f l1 (t_RP :: rest)) as [Hp|(t & ts' & (x & l2 & Hx & _ & Hl2) & Ht)]; [lia|done|..].
  - by apply panics_bind.
  - eapply panics_at; [exact Hx|]. assert (HLG : TYPE_RP ≠ TYPE_LG) by discriminate.
    eapply panics_at; [exact (scan_miss _ _ _ _ HLG Hl2 Ht)|]. done.
Qed.

Lemma C_arith ts e : g_bin p 3 ts e → P_bin 3 ts e → P_boolean true ts e.
Proof.
  intros Hg H. split; [|done]. intros f l rest Hf Hl Hr. apply runs_restoring.
  destruct (hd_in _ _ (bin_start _ _ _ _ Hg) ltac:(bdone)) as (t & ts' & Hts & Ht).
  pose proof Hl as Hl0. rewrite Hts in Hl0. cbn [app] in Hl0.
  eapply runs_miss_on; [discriminate|exact Hl0|code_neq|]. eapply runs_miss_on; [discriminate|exact Hl0|code_neq|].
  eapply runs_on_ok; [apply runs_catch, (H (le_n _)); [exact Hf|exact Hl|exact Hr]|].
  intros a l1 Ha Hl1. by apply runs_ret.
Qed.
Lemma bad_at t : t.1 ∈ [TYPE_RES_TRUE; TYPE_RES_FALSE; TYPE_RES_NIL; TYPE_NOT] → ∀ ts, P_bad (t :: ts).
Proof. intros Ht ts f l rest _ Hl. left. by eapply exp_fails_at. Qed.
Lemma C_true : P_boolean false [t_TRUE] (BoolConstNode true).
Proof.
  split; [|by apply bad_at; bdone]. intros f l rest _ Hl _. apply runs_restoring.
  eapply runs_tok_on; [discriminate|exact Hl|]. intros l1 Hl1. by apply runs_ret.
Qed.
Lemma C_false : P_boolean false [t_FALSE] (BoolConstNode false).
Proof.
  split; [|by apply bad_at; bdone]. intros f l rest _ Hl _. apply runs_restoring.
  eapply runs_miss_on; [discriminate|exact Hl|discriminate|].
  eapply runs_tok_on; [discriminate|exact Hl|]. intros l1 Hl1. by apply runs_ret.
Qed.
Lemma C_nil : P_boolean false [t_NIL] NilNode.
Proof.
  split; [|by apply bad_at; bdone]. intros f l rest _ Hl _. apply runs_restoring.
  eapply runs_miss_on; [discriminate|exact Hl|discriminate|].
  eapply runs_miss_on; [discriminate|exact Hl|discriminate|].
  apply runs_on_err; [eapply errs_catch_panic, exp_fails_at; [exact Hl|bdone]|]. intros _.
  eapply (runs_on_ok _ _ _ _ (λ x, x = NilNode)); [|intros a l1 -> Hl1; by apply runs_ret].
  eapply runs_tok; [discriminate|exact Hl|]. intros l1 Hl1. by apply runs_ret.
Qed.
(** A boolean that is neither a constant nor arithmetic *)
Lemma boolean_other f l t ts (P : ExpNode → Prop) rest : tk l (t :: ts) →
  t.1 ∉ [TYPE_RES_TRUE; TYPE_RES_FALSE; TYPE_RES_NIL] → panics (exp p (PK f)) l →
  (∀ l1, tk l1 ts → runs
    (if t.1 =? TYPE_NOT then node ←? k_boolean (PK f); ret_ok (NotNode node)
     else if t.1 =? TYPE_LP then node ←? k_boolexp (PK f); _ ←? scan_type TYPE_RP; ret_ok node
     else ret_err EOther) l1 (good P) rest) →
  runs (boolean p (PK f)) l (good P) rest.
Proof.
  intros Hl Ht Hexp H. apply runs_restoring.
  eapply runs_miss_on; [discriminate|exact Hl|code_neq|]. eapply runs_miss_on; [discriminate|exact Hl|code_neq|].
  apply runs_on_err; [by apply errs_catch_panic|]. intros _.
  apply runs_on_err; [eapply errs_tok; [discriminate|exact Hl|code_neq]|]. intros _.
  destruct (tk_Scan _ _ _ Hl) as (l1 & Hs & Hl1 & _). eapply runs_at; [exact Hs|]. by apply H.
Qed.
Lemma C_not a ts e : P_boolean a ts e → P_boolean false (t_NOT :: ts) (NotNode e).
Proof.
  intros [H _]. split; [|by apply bad_at; bdone]. intros f l rest Hf Hl Hr. cbn [app length] in *.
  destruct f as [|f]; [lia|].
  eapply boolean_other; [exact Hl|bdone|eapply exp_fails_at; [exact Hl|bdone]|]. intros l1 Hl1.
  change (t_NOT.1 =? TYPE_NOT) with true. cbv iota.
  eapply runs_bind_err; [apply H; [lia|exact Hl1|done]|]. intros x l2 Hx Hl2. apply runs_ret; [done|].
  unfold is_exp, good in *. cbn. by rewrite Hx.
Qed.
Lemma C_paren_bool ts e : P_boolexp false ts e → P_boolean false (t_LP :: ts ++ [t_RP]) e.
Proof.
  intros [H Hbad]. split.
  - intros f l rest Hf Hl Hr. cbn [app length] in *. rewrite <- app_assoc in Hl. cbn [app] in Hl. rewrite length_app in Hf.
    cbn [length] in Hf. destruct f as [|f]; [lia|].
    eapply boolean_other; [exact Hl|bdone|eapply exp_fails_paren; [exact Hbad| |exact Hl]; lia|]. intros l1 Hl1.
    change (t_LP.1 =? TYPE_NOT) with false. change (t_LP.1 =? TYPE_LP) with true. cbv iota.
    eapply runs_bind_err; [apply H; [|exact Hl1|apply closing_fol; bdone]; lia|]. intros x l2 Hx Hl2.
    eapply runs_tok; [discriminate|exact Hl2|]. intros l3 Hl3. by apply runs_ret.
  - intros f l rest Hf Hl. cbn [app length] in *. rewrite <- app_assoc in Hl. cbn [app] in Hl. rewrite length_app in Hf.
    cbn [length] in Hf. left. eapply exp_fails_paren; [exact Hbad| |exact Hl]; lia.
Qed.

(** Arithmetic followed by an operator that is not arithmetic stops there;
    what starts with boolean tokens is bad whatever follows. *)
Lemma flag_more a ts e op tl : P_flag a ts e →
  (∀ rest, fol (level_codes 3) (sym op :: tl ++ rest)) → op.1 ≠ TYPE_RP → P_bad (ts ++ sym op :: tl).
Proof.
  intros Hflag Hfol Hop f l rest Hf Hl. rewrite <- app_assoc in Hl. rewrite length_app in Hf. cbn [app] in Hl.
  destruct a; cbn [P_flag] in Hflag.
  - right. exists (sym op), (tl ++ rest). split; [|exact Hop]. eapply runs_mono; [|by intros].
    rewrite exp_bin. apply (Hflag (le_n _)); [lia|exact Hl|apply Hfol].
  - eapply Hflag; [|exact Hl]. lia.
Qed.
Lemma ops_code ops op c : op ∈ ops → Forall (λ o : Z * string, o.1 ≠ c) ops → op.1 ≠ c.
Proof. intros Hop Hall. by apply (proj1 (Forall_forall _ _) Hall). Qed.

(** *** Comparisons *)
Lemma C_cmp_nil e : P_cmp_tail e [] e.
Proof.
  intros fuel a' Hfuel Ha f l rest _ Hl Hr. destruct fuel as [|fuel]; [simpl in Hfuel; lia|].
  cbn [app compare_loop] in *. eapply runs_at; [reflexivity|].
  pose proof (fol_ne _ _ Hr) as Hne. destruct rest as [|t rest]; [done|].
  destruct (tk_Scan _ _ _ Hl) as (l1 & Hs & Hl1 & Hback). eapply runs_at; [exact Hs|]. cbv beta iota.
  destruct (compare_op t.1) eqn:Hc; [|unfold runs; rewrite Hback; by apply runs_ret].
  exfalso. unfold compare_op in Hc. apply List.existsb_exists in Hc as (x & Hx & E). apply Z.eqb_eq in E.
  destruct Hr as [_ Hout]. apply Hout, elem_of_app. right. apply elem_of_app. right. cbn [hd_code]. rewrite E.
  apply list_elem_of_In in Hx. exact Hx.
Qed.
Lemma C_cmp_cons e0 op a ts b tl e : op ∈ compare_ops → (op.1 = TYPE_SM → starts_no_type ts = true) →
  g_cmp_tail p (CompareNode op.1 e0 b) tl e → P_boolean a ts b → P_cmp_tail (CompareNode op.1 e0 b) tl e →
  P_cmp_tail e0 (sym op :: ts ++ tl) e.
Proof.
  intros Hop Hsm Hg [Hb _] Ht fuel a' Hfuel Ha f l rest Hf Hl Hr. cbn [app length] in *. rewrite <- app_assoc in Hl.
  rewrite length_app in *. destruct fuel as [|fuel]; [lia|]. cbn [compare_loop].
  eapply runs_at; [reflexivity|]. destruct (tk_Scan _ _ _ Hl) as (l1 & Hs & Hl1 & _).
  eapply runs_at; [exact Hs|]. cbv beta iota.
  assert (Hall : Forall (λ o : Z * string, compare_op o.1 = true) compare_ops) by bdone.
  rewrite (proj1 (Forall_forall _ _) Hall op Hop : compare_op (sym op).1 = true).
  eapply runs_bind_err; [apply runs_catch2, Hb; [lia|exact Hl1|by eapply cmp_tail_fol]|].
  intros x l2 Hx Hl2. apply Ht; [lia| |lia|done..]. cbn. unfold is_exp in Hx. by rewrite Ha, Hx.
Qed.
Lemma compare_from a ts e0 tl e : P_boolean a ts e0 → P_cmp_tail e0 tl e → g_cmp_tail p e0 tl e →
  reads (λ f, compare p (PK f)) (ts ++ tl) (good (is_exp e)) (fol compare_codes).
Proof.
  intros [H _] Ht Hg f l rest Hf Hl Hr. rewrite <- app_assoc in Hl. rewrite length_app in Hf. apply runs_restoring.
  eapply runs_bind_err; [apply runs_catch2, H; [lia|exact Hl|by eapply cmp_tail_fol]|].
  intros x l1 Hx Hl1. apply runs_fuel. pose proof (tk_fuel _ _ Hl1) as Hfuel. rewrite length_app in Hfuel.
  apply Ht; [lia|exact Hx|lia|done..].
Qed.
Lemma C_compare_one a ts e : P_boolean a ts e → P_compare a ts e.
Proof.
  intros H. split; [|apply H]. rewrite <- (app_nil_r ts).
  eapply compare_from; [exact H|apply C_cmp_nil|constructor].
Qed.
Lemma C_compare_more a ts e0 tl e : g_cmp_tail p e0 tl e → tl ≠ [] → P_boolean a ts e0 → P_cmp_tail e0 tl e →
  P_compare false (ts ++ tl) e.
Proof.
  intros Hg Hne H Ht. split; [by eapply compare_from|]. destruct H as [_ Hflag].
  destruct Hg as [|e0 op a' ts' b tl e Hop Hsm _ _]; [done|]. eapply flag_more; [exact Hflag| |].
  - intros rest. rewrite <- app_assoc. apply fol_compare_op; [done|]. intros E. by apply starts_no_type_app, Hsm.
  - eapply ops_code; [exact Hop|bdone].
Qed.

(** *** Bit operations *)
Lemma C_bit_nil e : P_bit_tail e [] e.
Proof.
  intros fuel a' Hfuel Ha f l rest _ Hl Hr. destruct fuel as [|fuel]; [simpl in Hfuel; lia|].
  cbn [app bit_loop] in *. eapply runs_at; [reflexivity|].
  pose proof (fol_ne _ _ Hr) as Hne. destruct rest as [|t rest]; [done|].
  destruct (tk_Scan _ _ _ Hl) as (l1 & Hs & Hl1 & Hback). eapply runs_at; [exact Hs|]. cbv beta iota.
  destruct (bit_op t.1) eqn:Hc; [|unfold runs; rewrite Hback; by apply runs_ret].
  exfalso. unfold bit_op in Hc. apply List.existsb_exists in Hc as (x & Hx & E). apply Z.eqb_eq in E.
  destruct Hr as [_ Hout]. apply Hout, elem_of_app. right. apply elem_of_app. right. cbn [hd_code]. rewrite E.
  apply list_elem_of_In in Hx. exact Hx.
Qed.
Lemma C_bit_cons e0 op a ts b tl e : op ∈ bit_ops → g_bit_tail p (BinNode op.1 e0 b) tl e →
  P_compare a ts b → P_bit_tail (BinNode op.1 e0 b) tl e → P_bit_tail e0 (sym op :: ts ++ tl) e.
Proof.
  intros Hop Hg [Hb _] Ht fuel a' Hfuel Ha f l rest Hf Hl Hr. cbn [app length] in *. rewrite <- app_assoc in Hl.
  rewrite length_app in *. destruct fuel as [|fuel]; [lia|]. cbn [bit_loop].
  eapply runs_at; [reflexivity|]. destruct (tk_Scan _ _ _ Hl) as (l1 & Hs & Hl1 & _).
  eapply runs_at; [exact Hs|]. cbv beta iota.
  assert (Hall : Forall (λ o : Z * string, bit_op o.1 = true) bit_ops) by bdone.
  rewrite (proj1 (Forall_forall _ _) Hall op Hop : bit_op (sym op).1 = true).
  eapply runs_bind_err; [apply Hb; [lia|exact Hl1|by eapply bit_tail_fol]|].
  intros x l2 Hx Hl2. apply Ht; [lia| |lia|done..]. cbn. unfold is_exp in Hx. by rewrite Ha, Hx.
Qed.
Lemma bit_from a ts e0 tl e : P_compare a ts e0 → P_bit_tail e0 tl e → g_bit_tail p e0 tl e →
  reads (λ f, bitOp p (PK f)) (ts ++ tl) (good (is_exp e)) (fol bit_codes).
Proof.
  intros [H _] Ht Hg f l rest Hf Hl Hr. rewrite <- app_assoc in Hl. rewrite length_app in Hf. apply runs_restoring.
  eapply runs_bind_err; [apply H; [lia|exact Hl|by eapply bit_tail_fol]|].
  intros x l1 Hx Hl1. apply runs_fuel. pose proof (tk_fuel _ _ Hl1) as Hfuel. rewrite length_app in Hfuel.
  apply Ht; [lia|exact Hx|lia|done..].
Qed.
Lemma C_bit_one a ts e : P_compare a ts e → P_bit a ts e.
Proof.
  intros H. split; [|apply H]. rewrite <- (app_nil_r ts). eapply bit_from; [exact H|apply C_bit_nil|constructor].
Qed.
Lemma C_bit_more a ts e0 tl e : g_bit_tail p e0 tl e → tl ≠ [] → P_compare a ts e0 → P_bit_tail e0 tl e →
  P_bit false (ts ++ tl) e.
Proof.
  intros Hg Hne H Ht. split; [by eapply bit_from|]. destruct H as [_ Hflag].
  destruct Hg as [|e0 op a' ts' b tl e Hop _ _]; [done|]. eapply flag_more; [exact Hflag| |].
  - intros rest. eapply fol_op; [exact Hop|bdone].
  - eapply ops_code; [exact Hop|bdone].
Qed.

(** *** Logic *)
Lemma C_boolexp_one a ts e : P_bit a ts e → P_boolexp a ts e.
Proof.
  intros [H Hflag]. split; [|done]. intros f l rest Hf Hl Hr. apply runs_restoring.
  eapply runs_bind_err; [apply H; [exact Hf|exact Hl|by eapply fol_app]|]. intros x l1 Hx Hl1.
  eapply runs_at; [reflexivity|]. pose proof (fol_ne _ _ Hr) as Hne. destruct rest as [|t rest]; [done|].
  destruct (tk_Scan _ _ _ Hl1) as (l2 & Hs & Hl2 & Hback). eapply runs_at; [exact Hs|]. cbv beta iota.
  destruct Hr as [_ Hout]. cbn [hd_code] in Hout.
  rewrite (proj2 (Z.eqb_neq t.1 TYPE_AND)), (proj2 (Z.eqb_neq t.1 TYPE_OR)) by code_neq. cbn [orb].
  unfold runs. rewrite Hback. by apply runs_ret.
Qed.
Lemma C_logic a0 a1 ts0 op ts1 e0 e1 : op ∈ logic_ops → P_bit a0 ts0 e0 → P_compare a1 ts1 e1 →
  P_boolexp false (ts0 ++ sym op :: ts1) (BoolExpNode op.1 e0 e1).
Proof.
  intros Hop [H0 Hflag] [H1 _]. split.
  - intros f l rest Hf Hl Hr. rewrite <- app_assoc in Hl. cbn [app] in Hl. rewrite length_app in Hf. cbn [length] in Hf.
    apply runs_restoring. eapply runs_bind_err; [apply H0; [|exact Hl|eapply fol_op; [exact Hop|bdone]]; lia|].
    intros x l1 Hx Hl1. eapply runs_at; [reflexivity|].
    destruct (tk_Scan _ _ _ Hl1) as (l2 & Hs & Hl2 & Hback). eapply runs_at; [exact Hs|]. cbv beta iota.
    assert (Hall : Forall (λ o : Z * string, ((o.1 =? TYPE_AND) || (o.1 =? TYPE_OR)) = true) logic_ops) by bdone.
    rewrite (proj1 (Forall_forall _ _) Hall op Hop : (((sym op).1 =? TYPE_AND) || ((sym op).1 =? TYPE_OR)) = true).
    eapply runs_bind_err; [apply H1; [lia|exact Hl2|]|].
    + eapply fol_app. unfold logic_codes, bit_codes in Hr. rewrite <- !app_assoc in Hr. exact Hr.
    + intros y l3 Hy Hl3. apply runs_ret; [done|]. unfold is_exp, good in *. cbn. by rewrite Hx, Hy.
  - eapply flag_more; [exact Hflag| |].
    + intros rest. eapply fol_op; [exact Hop|bdone].
    + eapply ops_code; [exact Hop|bdone].
Qed.

(** ** All expressions *)
Lemma C_await ts e : P_all ts e → P_all (t_AWAIT :: ts) (AwaitNode e).
Proof.
  intros H f l rest Hf Hl Hr. cbn [app length] in *. destruct f as [|f]; [lia|].
  eapply runs_tok_on; [discriminate|exact Hl|]. intros l1 Hl1.
  eapply runs_bind; [apply H; [lia|exact Hl1|done]|]. intros x l2 Hx Hl2. apply runs_ret; [done|].
  unfold is_exp in *. cbn. by rewrite Hx.
Qed.
Lemma C_take_ptr ts e : g_var_chain p ts e → P_var_chain ts e → P_all (t_ESP :: ts) (TakePtrNode e).
Proof.
  intros Hg H f l rest Hf Hl Hr. cbn [app length] in *.
  destruct (chain_start _ _ _ Hg) as (w & tl & Hts & Hs). destruct (fol_no_struct _ _ Hr) as (H1 & H2 & H3).
  eapply runs_miss_on; [discriminate|exact Hl|discriminate|].
  eapply (runs_on_ok _ _ _ _ (is_exp (TakePtrNode e))); [|intros a l1 Ha Hl1; by apply runs_ret].
  apply runs_catch2. eapply runs_tok; [discriminate|exact Hl|]. intros l1 Hl1.
  pose proof Hl1 as Hl0. rewrite Hts in Hl0. cbn [app] in Hl0.
  eapply (runs_bind_err _ _ _ (is_exp e)).
  - apply runs_first_of; [eapply arrayInit_fails; [exact Hl0|discriminate]|].
    apply runs_first_of; [eapply structInit_fails_name; [exact Hl0|by apply Hs]|].
    apply runs_first_hit, runs_catch2. apply H; [lia|exact Hl1|].
    eapply fol_no_op; [exact Hr|set_solver].
  - intros x l2 Hx Hl2. apply runs_ret; [done|]. unfold is_exp, good in *. cbn. by rewrite Hx.
Qed.
Lemma C_boolexp_all a ts e : g_boolexp p a ts e → P_boolexp a ts e → P_all ts e.
Proof.
  intros Hg [H _] f l rest Hf Hl Hr.
  destruct (hd_in _ _ (boolexp_start _ _ _ _ Hg) ltac:(bdone)) as (t & ts' & Hts & Ht).
  pose proof Hl as Hl0. rewrite Hts in Hl0. cbn [app] in Hl0.
  eapply runs_miss_on; [discriminate|exact Hl0|code_neq|].
  apply runs_on_err.
  { assert (Hp : errs (takePtrExp p (PK f)) l) by (eapply errs_tok; [discriminate|exact Hl0|code_neq]).
    destruct Hp as [x Hx]. by eapply errs_catch2. }
  intros _. apply runs_on_err.
  { assert (Hp : errs (inlineFunc p (PK f)) l)
      by (apply errs_bind; eapply errs_tok; [discriminate|exact Hl0|code_neq]).
    destruct Hp as [x Hx]. by eapply errs_catch2. }
  intros _. eapply runs_bind_panic; [apply H; [exact Hf|exact Hl|exact Hr]|].
  intros x l1 Hx Hl1. by apply runs_ret.
Qed.
End complete.

(** ** Every sentence is read to its tree *)
Lemma grammar_read p cap ts e : g_all p ts e → P_all p cap ts e.
Proof.
  revert ts e.
  apply (g_all_ind' p (P_number p cap) (P_bin p cap) (P_tail p cap) (P_block p cap) (P_idxs p cap)
    (P_blocks p cap) (P_var_chain p cap) (P_call p cap) (P_args p cap) (P_more_args p cap) (P_next p cap)
    (P_boolean p cap) (P_compare p cap) (P_cmp_tail p cap) (P_bit p cap) (P_bit_tail p cap)
    (P_boolexp p cap) (P_all p cap)).
  all: eauto using C_num, C_str, C_var, C_callee, C_paren, C_plain, C_sign, C_level, C_tail_nil, C_tail_cons,
    C_block, C_idxs_nil, C_idxs_cons, C_blocks_nil, C_blocks_cons, C_chain, C_call, C_args_none, C_args_some,
    C_args_end, C_args_comma, C_next_none, C_next_call, C_next_var.
  all: eauto using C_arith, C_true, C_false, C_nil, C_not, C_paren_bool, C_compare_one, C_compare_more,
    C_cmp_nil, C_cmp_cons, C_bit_one, C_bit_more, C_bit_nil, C_bit_cons, C_boolexp_one, C_logic,
    C_await, C_take_ptr, C_boolexp_all.
Qed.
