(* ===== verification/GrammarTheorems.v ===== *)
(** * The grammar and the parser

    The parser reads every sentence of the grammar of expressions to its tree;
    so the grammar gives no token list two trees. *)
From S2P Require Import Prelude Lexer LexerTheorems Ast ParserTypes ParserExp ParserTheorems.
From S2P Require Import Grammar ParserTokens ParserFail ParserComplete.
#[local] Open Scope Z_scope.
#[local] Open Scope parser_scope.

(** Well-formed tokens, computed. *)
Definition wf_tokenb (t : tok) : bool :=
  bool_decide (t ∈ map (λ '(c, s), (c, runes_of s)) punctuation) ||
  bool_decide (t ∈ map (λ '(s, c), (c, runes_of s)) reserved) ||
  ((t.1 =? TYPE_VAR) && is_ident t.2 && bool_decide (lookup_word t.2 reserved = None)) ||
  match t.2 with c :: w => isNum c && forallb num_rune w && (t.1 =? num_type w) | [] => false end.
Definition t_semi : tok := (TYPE_SEMI, runes_of ";").

(** [a - b * ( 1 + c ) > d && x] *)
Definition sample_name (s : string) : ExpNode := VarExp (mk_VarBlockNode (runes_of s) [] None 0).
Definition sample : list tok :=
  [(TYPE_VAR, runes_of "a"); (TYPE_SUB, runes_of "-"); (TYPE_VAR, runes_of "b"); (TYPE_MUL, runes_of "*");
   (TYPE_LP, runes_of "("); (TYPE_INT, runes_of "1"); (TYPE_PLUS, runes_of "+"); (TYPE_VAR, runes_of "c");
   (TYPE_RP, runes_of ")"); (TYPE_LG, runes_of ">"); (TYPE_VAR, runes_of "d"); (TYPE_AND, runes_of "&&");
   (TYPE_VAR, runes_of "x")].
Definition sample_tree : ExpNode :=
  BoolExpNode TYPE_AND
    (CompareNode TYPE_LG
       (BinNode TYPE_SUB (sample_name "a")
          (BinNode TYPE_MUL (sample_name "b") (BinNode TYPE_PLUS (NumNode (IntVal 8 1)) (sample_name "c"))))
       (sample_name "d"))
    (sample_name "x").
(** The tree that subtracts before it multiplies *)
Definition wrong_tree : ExpNode :=
  BoolExpNode TYPE_AND
    (CompareNode TYPE_LG
       (BinNode TYPE_MUL (BinNode TYPE_SUB (sample_name "a") (sample_name "b"))
          (BinNode TYPE_PLUS (NumNode (IntVal 8 1)) (sample_name "c")))
       (sample_name "d"))
    (sample_name "x").
Definition no_imports : Parser := mk_parser [] [].

Lemma wf_tokenb_wf t : wf_tokenb t = true → wf_token t.
Proof.
  destruct t as [c s]. unfold wf_tokenb. rewrite !orb_true_iff, !andb_true_iff, !bool_decide_eq_true, Z.eqb_eq. cbn [fst snd].
  intros [[[H|H]|[[-> Hi] Hn]]|H].
  - apply list_elem_of_fmap in H as ([c' s'] & [= -> ->] & H). by apply wf_punct.
  - apply list_elem_of_fmap in H as ([s' c'] & [= -> ->] & H). by apply wf_keyword.
  - by apply wf_ident.
  - destruct s as [|r w]; [done|]. rewrite !andb_true_iff, Z.eqb_eq in H. destruct H as [[Hr Hw] ->]. by apply wf_num.
Qed.
Lemma wf_tokens ts : forallb wf_tokenb ts = true → Forall wf_token ts.
Proof.
  intros H. apply Forall_forall. intros t Ht. apply wf_tokenb_wf.
  rewrite forallb_forall in H. by apply H, list_elem_of_In.
Qed.
Lemma semi_fol : fol logic_codes [t_semi].
Proof. apply fol_intro; [done|]. bdone. Qed.

(** A sentence, its texts separated by spaces and followed by tokens that do
    not continue it. *)
Lemma read_sentence p cap ts e rest : g_all p ts e → Forall wf_token (ts ++ rest) → fol logic_codes rest →
  runs (parse_allexp p cap) (SetInput (render_all (ts ++ rest))) (is_exp e) rest.
Proof.
  intros Hg Hwf Hr. pose proof (tk_start _ Hwf) as Hl. unfold parse_allexp. apply runs_fuel.
  apply (grammar_read p cap ts e Hg); [|exact Hl|exact Hr].
  pose proof (tk_fuel _ _ Hl) as Hf. rewrite length_app in Hf. lia.
Qed.

(** ** Sentences *)

(** A number at a level of arithmetic, as a comparison and as an expression. *)
Lemma g_up p k ts e : (k ≤ 3)%nat → g_number p ts e → g_bin p k ts e.
Proof.
  intros Hk H. induction k as [|k IH]; [by apply g_plain|]. rewrite <- (app_nil_r ts).
  apply (g_level p k ts e); [lia|apply IH; lia|constructor].
Qed.
Lemma g_raise p k j ts e : (k ≤ j)%nat → (j ≤ 3)%nat → g_bin p k ts e → g_bin p j ts e.
Proof.
  intros Hkj Hj H. induction Hkj as [|j Hkj IH]; [done|]. rewrite <- (app_nil_r ts).
  apply (g_level p j ts e); [lia|apply IH; lia|constructor].
Qed.
(** An operator of level [k] between operands of that level. *)
Lemma g_bin_op p k op ts1 ts2 e1 e2 : (k < 3)%nat → op ∈ bin_ops k → g_bin p k ts1 e1 → g_bin p k ts2 e2 →
  g_bin p (S k) (ts1 ++ sym op :: ts2) (BinNode op.1 e1 e2).
Proof.
  intros Hk Hop H1 H2. eapply g_level; [done|exact H1|]. rewrite <- (app_nil_r ts2).
  eapply g_tail_cons; [done|exact H2|constructor].
Qed.
Lemma g_name w : g_number no_imports [(TYPE_VAR, runes_of w)] (sample_name w).
Proof.
  apply (g_var no_imports 0 [(TYPE_VAR, runes_of w)]). unfold sample_name.
  apply (g_chain no_imports [(TYPE_VAR, runes_of w)] (runes_of w) [] [] None); [|constructor].
  apply g_block_intro. constructor.
Qed.
Lemma sample_sentence : g_all no_imports sample sample_tree.
Proof.
  eapply g_boolexp_all. apply (g_logic _ false true (removelast (removelast sample)) (TYPE_AND, "&&") [(TYPE_VAR, runes_of "x")]).
  { bdone. }
  2: apply g_compare_one, g_arith, g_up; [lia|apply g_name].
  apply g_bit_one.
  eapply (g_compare_more _ true (take 9 sample) _ (drop 9 (removelast (removelast sample)))); [apply g_arith| |done].
  - apply (g_raise _ 2); [lia..|]. apply (g_bin_op _ 1 (TYPE_SUB, "-") [(TYPE_VAR, runes_of "a")]); [lia|bdone|apply g_up; [lia|apply g_name]|].
    apply (g_bin_op _ 0 (TYPE_MUL, "*") [(TYPE_VAR, runes_of "b")]); [lia|bdone|apply g_plain, g_name|].
    apply g_plain. apply (g_paren _ (take 3 (drop 5 sample))). apply (g_raise _ 2); [lia..|].
    apply (g_bin_op _ 1 (TYPE_PLUS, "+") [(TYPE_INT, runes_of "1")]); [lia|bdone|apply g_up|apply g_up; [lia|apply g_name]]; [lia|].
    by apply g_num; [right|].
  - apply (g_cmp_cons _ _ (TYPE_LG, ">") true [(TYPE_VAR, runes_of "d")] (sample_name "d") []); [bdone|done| |constructor].
    apply g_arith, g_up; [lia|apply g_name].
Qed.

(** ** The theorems *)

(** C3. The parser reads every sentence of the grammar of expressions, with its
    tokens separated by spaces and followed by a token that does not continue
    it, to the tree the grammar gives, and stops at that token. *)
Theorem parse_grammar p cap ts e rest :
  g_all p ts e → Forall wf_token (ts ++ rest) → fol logic_codes rest →
  ∃ e' l', parse_allexp p cap (SetInput (render_all (ts ++ rest))) = Ret e' l' ∧ erase e' = e ∧ tk l' rest.
Proof. apply read_sentence. Qed.
Lemma parse_grammar_witness :
  ∃ e' l', parse_allexp no_imports id (SetInput (render_all (sample ++ [t_semi]))) = Ret e' l' ∧
    erase e' = sample_tree ∧ tk l' [t_semi].
Proof. apply parse_grammar; [apply sample_sentence|by apply wf_tokens|apply semi_fol]. Defined.

(** C22. The grammar of expressions is unambiguous, and the parser decides the
    tree: what it returns on a sentence is the one tree of that sentence, so
    precedence and associativity are those of the grammar. *)
Theorem grammar_unambiguous p cap ts rest e' l' :
  Forall wf_token (ts ++ rest) → fol logic_codes rest → (∃ e, g_all p ts e) →
  parse_allexp p cap (SetInput (render_all (ts ++ rest))) = Ret e' l' →
  ∀ e, g_all p ts e ↔ e = erase e'.
Proof.
  intros Hwf Hr [e0 H0] Hp. assert (Hall : ∀ e, g_all p ts e → e = erase e').
  { intros e He. destruct (read_sentence p cap ts e rest He Hwf Hr) as (a & l & Ha & Hea & _).
    rewrite Ha in Hp. injection Hp as -> _. by rewrite <- Hea. }
  intros e. split; [apply Hall|]. intros ->. by rewrite <- (Hall e0 H0).
Qed.
Lemma grammar_unambiguous_witness : ¬ g_all no_imports sample wrong_tree.
Proof.
  intros H. assert (E : wrong_tree = sample_tree); [|discriminate E].
  assert (Hwf : Forall wf_token (sample ++ [t_semi])) by (by apply wf_tokens).
  destruct (read_sentence no_imports id sample sample_tree [t_semi] sample_sentence Hwf semi_fol) as (e' & l' & Hp & <- & _).
  apply (grammar_unambiguous no_imports id sample [t_semi] e' l' Hwf semi_fol); [|exact Hp|exact H].
  exists sample_tree. apply sample_sentence.
Defined.
