(* ===== verification/Escape.v ===== *)
(** * Escape analysis: src/compiler/ast/ast.go

    Before the statements of a block are compiled, [SLNode.calc] decides which
    of its variables and initialisers are allocated by the collector instead of
    on the stack.  It walks over the statements, notes for every name the right
    hand sides assigned to it ([escMap]) and the names whose values leave the
    block ([escPoint]), and follows the assignments from the latter
    ([findEsc]).  Variables used in closures are on the heap in any case.

    A Go map from names to [bool] is the set of its keys; the node an [escNode]
    or [setAlloc] refers to is its path from the statement list.  The order in
    which Go runs over a map is not specified: it is the parameter [order] for
    [escPoint]; the fields of a structure initialiser, a map too, are visited
    in the order of the list. *)
From S2P Require Import Prelude Lexer Ast.
#[local] Open Scope Z_scope.

Definition path := list nat.

(** ** travel

    The expressions a call of [travel] visits, in order, with their paths.
    Every function passed to it returns true, so bodies of function literals
    are always visited.  A variable's indices and the elements of an array
    initialiser are not. *)
Section travel.
#[local] Open Scope nat_scope.
Fixpoint visits (p : path) (e : ExpNode) : list (path * ExpNode) :=
  (p, e) ::
  match e with
  | BinNode _ l r | CompareNode _ l r | BoolExpNode _ l r => visits (p ++ [0]) l ++ visits (p ++ [1]) r
  | UnaryNode _ c | NotNode c | AwaitNode c | TakePtrNode c | TakeValNode _ c => visits (p ++ [0]) c
  | CallFuncNode ps fn next _ =>
    (fix go i ps := match ps with [] => [] | a :: ps => visits (p ++ [i]) a ++ go (S i) ps end) 0 ps ++
    match next with Some n => visits (p ++ [length ps]) n | None => [] end ++
    visits (p ++ [S (length ps)]) fn
  | InlineFuncNode _ body _ => visits_node (p ++ [0]) body
  | StructInitNode _ fs =>
    (fix go i fs := match fs with [] => [] | (_, a) :: fs => visits (p ++ [i]) a ++ go (S i) fs end) 0 fs
  | NumNode _ | VarExp _ | StringNode _ | BoolConstNode _ | NilNode | ArrayInitNode _ _ => []
  end
with visits_node (p : path) (n : Node) : list (path * ExpNode) :=
  match n with
  | ExpSt e => visits p e
  | SLNode ch =>
    (fix go i ch := match ch with [] => [] | c :: ch => visits_node (p ++ [i]) c ++ go (S i) ch end) 0 ch
  | RetNode e | YieldNode e => match e with Some e => visits (p ++ [0]) e | None => [] end
  | DefAndAssignNode v _ => visits (p ++ [0]) v
  | IfNode b st => visits (p ++ [0]) b ++ visits_node (p ++ [1]) st
  | IfElseNode b st el => visits (p ++ [0]) b ++ visits_node (p ++ [1]) st ++ visits_node (p ++ [2]) el
  | ForNode b d a st =>
    match b with Some b => visits (p ++ [0]) b | None => [] end ++
    match d with Some d => visits_node (p ++ [1]) d | None => [] end ++
    match a with Some a => visits_node (p ++ [2]) a | None => [] end ++ visits_node (p ++ [3]) st
  | ErrSTNode _ _ | EmptyNode | DefineNode _ _ | BreakNode | ContinueNode => []
  end.
End travel.

(** The names of the variables visited. *)
Definition var_of (e : ExpNode) : option text :=
  match e with VarExp (mk_VarBlockNode t _ _ _) => Some t | _ => None end.
Definition visited_vars (e : ExpNode) : list text := omap (λ v, var_of v.2) (visits [] e).

(** ** State *)
Inductive escNode := EscVar (token : text) | EscInit (initNode : path).
#[global] Instance escNode_eq_dec : EqDecision escNode.
Proof. solve_decision. Defined.

Record esc := mk_esc {
  escMap : gmap text (list escNode);
  defMap : gset text;
  escPoint : gset text;
  heapAllocTable : gset text;
  closuredef : gset text;
  closurevar : gset text;
  closureVars : gmap path (gset text);
  allocOnHeap : gset path }.
Definition esc_empty : esc := mk_esc ∅ ∅ ∅ ∅ ∅ ∅ ∅ ∅.

Definition set_map m s := mk_esc m (defMap s) (escPoint s) (heapAllocTable s) (closuredef s) (closurevar s) (closureVars s) (allocOnHeap s).
Definition set_def d s := mk_esc (escMap s) d (escPoint s) (heapAllocTable s) (closuredef s) (closurevar s) (closureVars s) (allocOnHeap s).
Definition set_point e s := mk_esc (escMap s) (defMap s) e (heapAllocTable s) (closuredef s) (closurevar s) (closureVars s) (allocOnHeap s).
Definition set_heap h s := mk_esc (escMap s) (defMap s) (escPoint s) h (closuredef s) (closurevar s) (closureVars s) (allocOnHeap s).
Definition set_cdef c s := mk_esc (escMap s) (defMap s) (escPoint s) (heapAllocTable s) c (closurevar s) (closureVars s) (allocOnHeap s).
Definition set_cvar c s := mk_esc (escMap s) (defMap s) (escPoint s) (heapAllocTable s) (closuredef s) c (closureVars s) (allocOnHeap s).
Definition set_cvars c s := mk_esc (escMap s) (defMap s) (escPoint s) (heapAllocTable s) (closuredef s) (closurevar s) c (allocOnHeap s).
Definition setAlloc p s := mk_esc (escMap s) (defMap s) (escPoint s) (heapAllocTable s) (closuredef s) (closurevar s) (closureVars s) ({[p]} ∪ allocOnHeap s).

(** [escMap[name] = append(escMap[name], v)] *)
Definition add_esc (name : text) (v : escNode) (s : esc) : esc :=
  set_map (<[name := default [] (escMap s !! name) ++ [v]]> (escMap s)) s.
Definition add_point (name : text) (s : esc) : esc := set_point ({[name]} ∪ escPoint s) s.
Definition add_def (name : text) (s : esc) : esc := set_def ({[name]} ∪ defMap s) s.
Definition add_heap (name : text) (s : esc) : esc := set_heap ({[name]} ∪ heapAllocTable s) s.

(** [if !defMap[t] { t = "extern.." + t }] *)
Definition extern (t : text) : text := runes_of "extern.." ++ t.
Definition esc_name (s : esc) (t : text) : text := if decide (t ∈ defMap s) then t else extern t.

(** ** Closures: [travel] and [trf]

    [ctravel e] is [e.travel(trf)].  At a function literal [trf] travels over
    the body with an empty [closurevar], records it as the literal's
    [closureVars], and adds it to the outer one; then [travel] itself goes on
    with the body. *)
Definition in_closure (p : path) (body : esc → esc) (s : esc) : esc :=
  let old := closurevar s in
  let s1 := body (set_cvar ∅ s) in
  set_cvar (closurevar s1 ∪ old) (set_cvars (<[p := closurevar s1]> (closureVars s1)) s1).
Definition closure_def (id : text) (s : esc) : esc := set_cdef ({[id]} ∪ closuredef s) s.
Definition closure_var (t : text) (s : esc) : esc :=
  if decide (t ∈ closuredef s) then s else set_cvar ({[t]} ∪ closurevar s) (add_heap t s).

Section ctravel.
#[local] Open Scope nat_scope.
Fixpoint ctravel (p : path) (e : ExpNode) (s : esc) : esc :=
  match e with
  | VarExp (mk_VarBlockNode t _ _ _) => closure_var t s
  | InlineFuncNode _ body _ =>
    ctravel_node (p ++ [0]) body (in_closure p (ctravel_node (p ++ [0]) body) s)
  | BinNode _ l r | CompareNode _ l r | BoolExpNode _ l r => ctravel (p ++ [1]) r (ctravel (p ++ [0]) l s)
  | UnaryNode _ c | NotNode c | AwaitNode c | TakePtrNode c | TakeValNode _ c => ctravel (p ++ [0]) c s
  | CallFuncNode ps fn next _ =>
    let s := (fix go i ps s := match ps with [] => s | a :: ps => go (S i) ps (ctravel (p ++ [i]) a s) end) 0 ps s in
    let s := match next with Some n => ctravel (p ++ [length ps]) n s | None => s end in
    ctravel (p ++ [S (length ps)]) fn s
  | StructInitNode _ fs =>
    (fix go i fs s := match fs with [] => s | (_, a) :: fs => go (S i) fs (ctravel (p ++ [i]) a s) end) 0 fs s
  | NumNode _ | StringNode _ | BoolConstNode _ | NilNode | ArrayInitNode _ _ => s
  end
with ctravel_node (p : path) (n : Node) (s : esc) : esc :=
  match n with
  | ExpSt e => ctravel p e s
  | SLNode ch =>
    (fix go i ch s := match ch with [] => s | c :: ch => go (S i) ch (ctravel_node (p ++ [i]) c s) end) 0 ch s
  | DefineNode id _ => closure_def id s
  | DefAndAssignNode v id => ctravel (p ++ [0]) v (closure_def id s)
  | RetNode e | YieldNode e => match e with Some e => ctravel (p ++ [0]) e s | None => s end
  | IfNode b st => ctravel_node (p ++ [1]) st (ctravel (p ++ [0]) b s)
  | IfElseNode b st el => ctravel_node (p ++ [2]) el (ctravel_node (p ++ [1]) st (ctravel (p ++ [0]) b s))
  | ForNode b d a st =>
    let s := match b with Some b => ctravel (p ++ [0]) b s | None => s end in
    let s := match d with Some d => ctravel_node (p ++ [1]) d s | None => s end in
    let s := match a with Some a => ctravel_node (p ++ [2]) a s | None => s end in
    ctravel_node (p ++ [3]) st s
  | ErrSTNode _ _ | EmptyNode | BreakNode | ContinueNode => s
  end.
End ctravel.

(** [if r, ok := e.( *InlineFuncNode); ok { travel(r) }] *)
Definition travel_closure (p : path) (e : ExpNode) (s : esc) : esc :=
  match e with InlineFuncNode _ body _ => in_closure p (ctravel_node (p ++ [0%nat]) body) s | _ => s end.

(** ** The walk over the statements *)

(** [getVarNode]: the variable or initialiser under [*] and [&], if any. *)
Fixpoint getVarNode (p : path) (e : ExpNode) : option (path * ExpNode) :=
  match e with
  | TakeValNode _ n | TakePtrNode n => getVarNode (p ++ [0%nat]) n
  | VarExp _ | ArrayInitNode _ _ | StructInitNode _ _ | StringNode _ => Some (p, e)
  | _ => None
  end.
Definition is_init (e : ExpNode) : bool :=
  match e with ArrayInitNode _ _ | StructInitNode _ _ | StringNode _ => true | _ => false end.

(** The arguments of a call escape.  [None] is the panic of the assertion
    [node.FnNode.( *VarBlockNode)]. *)
Definition escape_arg (s : esc) (v : path * ExpNode) : esc :=
  match var_of v.2 with
  | Some t => add_point (esc_name s t) s
  | None => if is_init v.2 then setAlloc v.1 s else s
  end.
Fixpoint callfanf_args (p : path) (fnpath : path) (fn : ExpNode) (i : nat) (ps : list ExpNode) (s : esc) : option esc :=
  match ps with
  | [] => Some s
  | v :: ps =>
    let s := travel_closure (p ++ [i]) v s in
    let s := foldl escape_arg s (visits (p ++ [i]) v) in
    match var_of fn with
    | Some t => callfanf_args p fnpath fn (S i) ps (add_point t (setAlloc fnpath s))
    | None => None
    end
  end.
Definition callfanf (p : path) (e : ExpNode) (s : esc) : option esc :=
  match e with
  | CallFuncNode ps fn _ _ => callfanf_args p (p ++ [S (length ps)]) fn 0 ps s
  | _ => Some s
  end.

(** What is assigned to [name] *)
Definition add_value (name : text) (rv : path * ExpNode) (e : ExpNode) (s : esc) : esc :=
  match var_of rv.2 with
  | Some t => add_esc name (EscVar (esc_name s t)) s
  | None =>
    foldl (λ s t, add_esc name (EscVar (esc_name s t)) s) (add_esc name (EscInit rv.1) s) (visited_vars e)
  end.
Definition return_value (rv : path * ExpNode) (e : ExpNode) (s : esc) : esc :=
  match var_of rv.2 with
  | Some t => add_point (esc_name s t) s
  | None => foldl (λ s t, add_point (esc_name s t) s) (setAlloc rv.1 s) (visited_vars e)
  end.

(** One child of the list, at the path [p]. *)
Definition esc_statement (p : path) (n : Node) (s : esc) : option esc :=
  match n with
  | ExpSt (BinNode op l r) =>
    if op =? TYPE_ASSIGN then
      let s := travel_closure (p ++ [1%nat]) r s in
      lv ← getVarNode (p ++ [0%nat]) l;
      lt ← var_of lv.2;
      match getVarNode (p ++ [1%nat]) r with
      | None => callfanf (p ++ [1%nat]) r s
      | Some rv => Some (add_value (esc_name s lt) rv r s)
      end
    else Some s
  | ExpSt e => callfanf p e s
  | DefAndAssignNode v id =>
    let s := travel_closure (p ++ [0%nat]) v (add_def id s) in
    match getVarNode (p ++ [0%nat]) v with
    | None => callfanf (p ++ [0%nat]) v s
    | Some rv => Some (add_value id rv v s)
    end
  | DefineNode id _ => Some (add_def id s)
  | RetNode (Some e) =>
    let s := travel_closure (p ++ [0%nat]) e s in
    match getVarNode (p ++ [0%nat]) e with
    | None => callfanf (p ++ [0%nat]) e s
    | Some rv => Some (return_value rv e s)
    end
  | _ => Some s
  end.
Fixpoint esc_statements (i : nat) (ch : list Node) (s : esc) : option esc :=
  match ch with
  | [] => Some s
  | n :: ch => s ← esc_statement [i] n s; esc_statements (S i) ch s
  end.

(** ** Following the assignments

    [findEsc next] with the maps of the state; [None]: out of fuel. *)
Fixpoint findEsc (fuel : nat) (next : list escNode) (s : esc) : option esc :=
  match fuel with
  | O => None
  | S fuel =>
    (fix go next s :=
      match next with
      | [] => Some s
      | EscVar t :: next =>
        if decide (t ∈ defMap s) then
          s ← findEsc fuel (default [] (escMap s !! t)) (set_map (delete t (escMap s)) (add_heap t s));
          go next s
        else go next s
      | EscInit p :: next => go next (setAlloc p s)
      end) next s
  end.
(** One name of [escPoint] *)
Definition follow (v : text) (s : esc) : option esc :=
  let s := if decide (v ∈ defMap s) then add_heap v s else s in
  findEsc (S (S (size (escMap s)))) (default [] (escMap s !! v)) (set_map (delete v (escMap s)) s).
Fixpoint follow_all (vs : list text) (s : esc) : option esc :=
  match vs with [] => Some s | v :: vs => s ← follow v s; follow_all vs s end.

(** [for v := range f.Params { escPoint["extern.."+v.LocalName] = true }] *)
Definition param_points (params : list text) (s : esc) : esc :=
  foldl (λ s v, add_point (extern v) s) s params.

Definition contains (sub s : text) : bool :=
  existsb (λ k, bool_decide (take (length sub) (drop k s) = sub)) (seq 0 (S (length s))).
(** The functions of the allocator are not analysed. *)
Definition skips_analysis (ident : text) : bool :=
  contains (runes_of "heapalloc") ident || contains (runes_of "heapfree") ident || contains (runes_of "MallocList") ident.

(** The analysis of a list of statements in a function of the given name and
    parameters; [order] is the order of the map [escPoint]. *)
Definition analyse (order : gset text → list text) (ident : text) (params : list text) (ch : list Node) : option esc :=
  if skips_analysis ident then Some esc_empty
  else
    s ← esc_statements 0 ch esc_empty;
    let s := param_points params s in
    follow_all (order (escPoint s)) s.
