(* ===== verification/EscapeTheorems.v ===== *)
(** * Escape analysis: the result

    What [analyse] puts on the heap is the closure of the escape points under
    the assignments noted, in any order of the maps. *)
From S2P Require Import Prelude Lexer Ast Escape.
From stdpp Require Import relations.
#[local] Open Scope Z_scope.

(** ** The graph of assignments

    [flow M D v w]: the variable [w] of the block is assigned to [v];
    [assigned M v x]: the node [x] is. *)
Definition assigned (M : gmap text (list escNode)) (v : text) (x : escNode) : Prop :=
  ∃ l, M !! v = Some l ∧ x ∈ l.
Definition flow (M : gmap text (list escNode)) (D : gset text) : relation text :=
  λ v w, assigned M v (EscVar w) ∧ w ∈ D.
(** A name whose value may leave the block *)
Definition escapes (s : esc) (x : text) : Prop :=
  ∃ v, v ∈ escPoint s ∧ rtc (flow (escMap s) (defMap s)) v x.

(** What is reached from a list of nodes *)
Definition reached (M : gmap text (list escNode)) (D : gset text) (next : list escNode) (x : text) : Prop :=
  ∃ t, EscVar t ∈ next ∧ t ∈ D ∧ rtc (flow M D) t x.
Definition reached_init (M : gmap text (list escNode)) (D : gset text) (next : list escNode) (p : path) : Prop :=
  EscInit p ∈ next ∨ ∃ t, reached M D next t ∧ assigned M t (EscInit p).

(** A node that was followed *)
Definition followed (s : esc) (x : escNode) : Prop :=
  match x with
  | EscVar t => t ∈ defMap s → t ∈ heapAllocTable s ∧ escMap s !! t = None
  | EscInit p => p ∈ allocOnHeap s
  end.
(** The state [s'] after following [next] from [s] *)
Record explored (next : list escNode) (s s' : esc) : Prop := mk_explored {
  ex_def : defMap s' = defMap s;
  ex_point : escPoint s' = escPoint s;
  ex_map : escMap s' ⊆ escMap s;
  ex_heap : heapAllocTable s ⊆ heapAllocTable s';
  ex_alloc : allocOnHeap s ⊆ allocOnHeap s';
  ex_next : ∀ x, x ∈ next → followed s' x;
  ex_closed : ∀ v x, assigned (escMap s) v x → escMap s' !! v = None → followed s' x;
  ex_heap_only : ∀ x, x ∈ heapAllocTable s' →
    x ∈ heapAllocTable s ∨ x ∈ defMap s ∧ reached (escMap s) (defMap s) next x;
  ex_alloc_only : ∀ p, p ∈ allocOnHeap s' →
    p ∈ allocOnHeap s ∨ reached_init (escMap s) (defMap s) next p }.

Lemma assigned_mono M M' v x : M' ⊆ M → assigned M' v x → assigned M v x.
Proof. intros HM (l & Hl & Hx). exists l. split; [|done]. by eapply lookup_weaken. Qed.
Lemma flow_mono M M' D v w : M' ⊆ M → flow M' D v w → flow M D v w.
Proof. intros HM [Ha Hw]. split; [by eapply assigned_mono|done]. Qed.
Lemma rtc_flow_mono M M' D v w : M' ⊆ M → rtc (flow M' D) v w → rtc (flow M D) v w.
Proof. intros HM. induction 1; [done|]. eapply rtc_l; [by eapply flow_mono|done]. Qed.
Lemma reached_mono M M' D next next' x : M' ⊆ M → (∀ y, y ∈ next' → y ∈ next) →
  reached M' D next' x → reached M D next x.
Proof. intros HM Hn (t & Ht & HD & Hr). exists t. split_and!; [by apply Hn|done|by eapply rtc_flow_mono]. Qed.
Lemma reached_init_mono M M' D next next' p : M' ⊆ M → (∀ y, y ∈ next' → y ∈ next) →
  reached_init M' D next' p → reached_init M D next p.
Proof.
  intros HM Hn [Hp|(t & Ht & Ha)]; [left; by apply Hn|right].
  exists t. split; [by eapply reached_mono|by eapply assigned_mono].
Qed.
Lemma assigned_default M v x : x ∈ default [] (M !! v) ↔ assigned M v x.
Proof.
  unfold assigned. destruct (M !! v) as [l|] eqn:E; cbn; [|set_solver].
  split; [eauto|]. by intros (l' & [= ->] & Hx).
Qed.
(** Following what is assigned to a variable that is reached *)
Lemma reached_step M D next t x : EscVar t ∈ next → t ∈ D → reached M D (default [] (M !! t)) x → reached M D next x.
Proof.
  intros Ht HD (w & Hw & Hwd & Hr). exists t. split_and!; [done|done|]. eapply rtc_l; [|exact Hr].
  split; [by apply assigned_default|done].
Qed.
Lemma reached_init_step M D next t p : EscVar t ∈ next → t ∈ D →
  reached_init M D (default [] (M !! t)) p → reached_init M D next p.
Proof.
  intros Ht HD [Hp|(w & Hw & Ha)]; right.
  - exists t. split; [by exists t|by apply assigned_default].
  - exists w. split; [by eapply reached_step|done].
Qed.

Lemma followed_mono s s' x : defMap s' = defMap s → escMap s' ⊆ escMap s →
  heapAllocTable s ⊆ heapAllocTable s' → allocOnHeap s ⊆ allocOnHeap s' → followed s x → followed s' x.
Proof.
  intros Hd Hm Hh Ha. destruct x as [t|p]; cbn; [|set_solver]. rewrite Hd. intros H Ht.
  destruct (H Ht) as [H1 H2]. split; [set_solver|]. by eapply lookup_weaken_None.
Qed.
Lemma explored_nil s : explored [] s s.
Proof.
  split; [done..|set_solver| |by left|by left].
  intros v x (l & Hl & _) Hn. congruence.
Qed.
(** One node and then the rest *)
Lemma explored_cons x next s s1 s2 : explored [x] s s1 → explored next s1 s2 → explored (x :: next) s s2.
Proof.
  intros [d1 p1 m1 h1 a1 n1 c1 ho1 ao1] [d2 p2 m2 h2 a2 n2 c2 ho2 ao2].
  assert (Hf : ∀ y, followed s1 y → followed s2 y) by (intros y; by apply followed_mono).
  split; [congruence|congruence|by etrans|set_solver|set_solver|..].
  - intros y [->|Hy]%elem_of_cons; [apply Hf, n1; set_solver|by apply n2].
  - intros v y (l & Hl & Hy) Hv. destruct (escMap s1 !! v) as [l'|] eqn:E.
    + apply (c2 v y); [|exact Hv]. pose proof (lookup_weaken _ _ _ _ E m1). exists l'. split; [done|]. congruence.
    + apply Hf. apply (c1 v y); [by exists l|done].
  - intros y Hy. destruct (ho2 y Hy) as [Hy1|[Hd Hr]].
    + destruct (ho1 y Hy1) as [?|[??]]; [by left|right]. split; [done|]. eapply reached_mono; [reflexivity| |eassumption]. set_solver.
    + right. rewrite d1 in Hd, Hr. split; [done|]. eapply reached_mono; [exact m1| |exact Hr]. set_solver.
  - intros p Hp. destruct (ao2 p Hp) as [Hp1|Hr].
    + destruct (ao1 p Hp1) as [?|?]; [by left|right]. eapply reached_init_mono; [reflexivity| |eassumption]. set_solver.
    + right. rewrite d1 in Hr. eapply reached_init_mono; [exact m1| |exact Hr]. set_solver.
Qed.
(** A variable: its entry is taken out and followed. *)
Lemma explored_var t s s1 : t ∈ defMap s →
  explored (default [] (escMap s !! t)) (set_map (delete t (escMap s)) (add_heap t s)) s1 →
  explored [EscVar t] s s1.
Proof.
  intros Ht [d1 p1 m1 h1 a1 n1 c1 ho1 ao1]. cbn in *.
  pose proof (delete_subseteq (escMap s) t) as Hdel.
  split; [done|done|by etrans|set_solver|done|..].
  - intros x ->%list_elem_of_singleton. intros _. split; [set_solver|].
    eapply lookup_weaken_None; [|exact m1]. apply lookup_delete_eq.
  - intros v x Ha Hv. destruct (decide (v = t)) as [->|Hne]; [by apply n1, assigned_default|].
    apply (c1 v x); [|done]. destruct Ha as (l & Hl & Hx). exists l. by rewrite lookup_delete_ne.
  - intros x Hx. destruct (ho1 x Hx) as [Hx1|[Hd Hr]].
    + apply elem_of_union in Hx1 as [->%elem_of_singleton|Hx1]; [|by left]. right. split; [done|].
      exists t. split_and!; [set_solver|done|done].
    + right. split; [done|]. eapply (reached_step _ _ _ t); [set_solver|done|].
      by eapply reached_mono; [exact Hdel| |exact Hr].
  - intros p Hp. destruct (ao1 p Hp) as [?|Hr]; [by left|right].
    eapply (reached_init_step _ _ _ t); [set_solver|done|]. by eapply reached_init_mono; [exact Hdel| |exact Hr].
Qed.

(** [findEsc] stops: a call that follows a name takes its entry out of the map. *)
Lemma findEsc_ok fuel next s : (next = [] ∧ (0 < fuel)%nat ∨ (S (size (escMap s)) < fuel)%nat) →
  ∃ s', findEsc fuel next s = Some s' ∧ explored next s s'.
Proof.
  revert next s. induction fuel as [|fuel IH]; intros next s; [lia|].
  revert s. induction next as [|x next IHn]; intros s Hf; [exists s; by split; [|apply explored_nil]|].
  destruct Hf as [[? _]|Hf]; [done|].
  assert (Hrest : ∀ s1, explored [x] s s1 → ∃ s', findEsc (S fuel) next s1 = Some s' ∧ explored (x :: next) s s').
  { intros s1 H1. destruct (IHn s1) as (s' & Hs' & He).
    - right. pose proof (subseteq_size (dom (escMap s1)) (dom (escMap s)) (subseteq_dom _ _ (ex_map _ _ _ H1))) as Hsz.
      rewrite !size_dom in Hsz. lia.
    - exists s'. split; [done|]. by eapply explored_cons. }
  destruct x as [t|p].
  - change (findEsc (S fuel) (EscVar t :: next) s) with
      (if decide (t ∈ defMap s) then
         findEsc fuel (default [] (escMap s !! t)) (set_map (delete t (escMap s)) (add_heap t s)) ≫= findEsc (S fuel) next
       else findEsc (S fuel) next s).
    destruct (decide (t ∈ defMap s)) as [Ht|Ht].
    + destruct (IH (default [] (escMap s !! t)) (set_map (delete t (escMap s)) (add_heap t s))) as (s1 & Hs1 & He1).
      { cbn. destruct (escMap s !! t) as [l|] eqn:E; [right|left; split; [done|lia]].
        assert (Hin : is_Some (escMap s !! t)) by (rewrite E; eauto).
        pose proof (map_size_ne_0_lookup_2 _ _ Hin). rewrite (map_size_delete_Some _ _ Hin). lia. }
      rewrite Hs1. apply Hrest. by apply explored_var.
    + apply Hrest. split; [done..| | |by left|by left].
      * intros x ->%list_elem_of_singleton. done.
      * intros v x (l & Hl & _) Hn. congruence.
  - change (findEsc (S fuel) (EscInit p :: next) s) with (findEsc (S fuel) next (setAlloc p s)).
    apply Hrest. split; [done..|cbn; set_solver| | |by left|].
    + intros x ->%list_elem_of_singleton. cbn. set_solver.
    + intros v x (l & Hl & _) Hn. cbn in Hn. congruence.
    + cbn. intros q [->%elem_of_singleton|?]%elem_of_union; [right; left; set_solver|by left].
Qed.

(** ** All escape points *)
Definition from (s : esc) (vs : list text) (x : text) : Prop :=
  ∃ v, v ∈ vs ∧ rtc (flow (escMap s) (defMap s)) v x.
(** The state [s'] after following the names [vs] from [s] *)
Record pursued (vs : list text) (s s' : esc) : Prop := mk_pursued {
  pu_def : defMap s' = defMap s;
  pu_map : escMap s' ⊆ escMap s;
  pu_heap : heapAllocTable s ⊆ heapAllocTable s';
  pu_alloc : allocOnHeap s ⊆ allocOnHeap s';
  pu_start : ∀ v, v ∈ vs → escMap s' !! v = None ∧ (v ∈ defMap s → v ∈ heapAllocTable s');
  pu_closed : ∀ v x, assigned (escMap s) v x → escMap s' !! v = None → followed s' x;
  pu_heap_only : ∀ x, x ∈ heapAllocTable s' → x ∈ heapAllocTable s ∨ x ∈ defMap s ∧ from s vs x;
  pu_alloc_only : ∀ p, p ∈ allocOnHeap s' →
    p ∈ allocOnHeap s ∨ ∃ t, from s vs t ∧ assigned (escMap s) t (EscInit p) }.

Lemma from_mono s s' vs vs' x : escMap s' ⊆ escMap s → defMap s' = defMap s → (∀ v, v ∈ vs' → v ∈ vs) →
  from s' vs' x → from s vs x.
Proof.
  intros Hm Hd Hvs (v & Hv & Hr). exists v. split; [by apply Hvs|]. rewrite Hd in Hr. by eapply rtc_flow_mono.
Qed.
Lemma reached_from s v x : reached (escMap s) (defMap s) (default [] (escMap s !! v)) x → from s [v] x.
Proof.
  intros (t & Ht & Hd & Hr). exists v. split; [set_solver|]. eapply rtc_l; [|exact Hr].
  split; [by apply assigned_default|done].
Qed.

Lemma follow_ok v s : ∃ s', follow v s = Some s' ∧ pursued [v] s s'.
Proof.
  unfold follow. set (s0 := if decide (v ∈ defMap s) then add_heap v s else s).
  assert (Hm0 : escMap s0 = escMap s) by (unfold s0; by destruct (decide _)).
  assert (Hd0 : defMap s0 = defMap s) by (unfold s0; by destruct (decide _)).
  assert (Ha0 : allocOnHeap s0 = allocOnHeap s) by (unfold s0; by destruct (decide _)).
  assert (Hh0 : ∀ x, x ∈ heapAllocTable s0 ↔ x ∈ heapAllocTable s ∨ x = v ∧ v ∈ defMap s).
  { intros x. unfold s0. destruct (decide _); cbn; set_solver. }
  pose proof (delete_subseteq (escMap s) v) as Hdel.
  destruct (findEsc_ok (S (S (size (escMap s0)))) (default [] (escMap s0 !! v)) (set_map (delete v (escMap s0)) s0))
    as (s' & Hs' & [d1 p1 m1 h1 a1 n1 c1 ho1 ao1]).
  { right. cbn. pose proof (subseteq_size (dom (delete v (escMap s0))) (dom (escMap s0)) (subseteq_dom _ _ (delete_subseteq _ _))) as Hsz.
    rewrite !size_dom in Hsz. lia. }
  exists s'. split; [exact Hs'|]. cbn in *. rewrite Hm0, ?Hd0, ?Ha0 in *. split; [done|by etrans|set_solver|done|..].
  - intros w ->%list_elem_of_singleton. split; [|set_solver].
    eapply lookup_weaken_None; [|exact m1]. apply lookup_delete_eq.
  - intros w x Ha Hw. destruct (decide (w = v)) as [->|Hne]; [by apply n1, assigned_default|].
    apply (c1 w x); [|done]. destruct Ha as (l & Hl & Hx). exists l. by rewrite lookup_delete_ne.
  - intros x Hx. destruct (ho1 x Hx) as [[?|[-> ?]]%Hh0|[Hd Hr]]; [by left|right|right].
    + split; [done|]. exists v. split; [set_solver|done].
    + split; [done|]. apply reached_from. eapply reached_mono; [exact Hdel| |exact Hr]. done.
  - intros p Hp. destruct (ao1 p Hp) as [?|[Hi|(t & Ht & Hi)]]; [by left|right..].
    + exists v. split; [exists v; split; [set_solver|done]|by apply assigned_default].
    + exists t. split; [|by eapply assigned_mono].
      apply reached_from. eapply reached_mono; [exact Hdel| |exact Ht]. done.
Qed.
Lemma pursued_cons v vs s s1 s2 : pursued [v] s s1 → pursued vs s1 s2 → pursued (v :: vs) s s2.
Proof.
  intros [d1 m1 h1 a1 n1 c1 ho1 ao1] [d2 m2 h2 a2 n2 c2 ho2 ao2].
  assert (Hf : ∀ y, followed s1 y → followed s2 y) by (intros y; by apply followed_mono).
  split; [congruence|by etrans|set_solver|set_solver|..].
  - intros w [->|Hw]%elem_of_cons; [|rewrite <- d1; by apply n2].
    destruct (n1 v ltac:(set_solver)) as [H1 H2]. split; [by eapply lookup_weaken_None|set_solver].
  - intros w y (l & Hl & Hy) Hw. destruct (escMap s1 !! w) as [l'|] eqn:E.
    + apply (c2 w y); [|exact Hw]. pose proof (lookup_weaken _ _ _ _ E m1). exists l'. split; [done|]. congruence.
    + apply Hf. apply (c1 w y); [by exists l|done].
  - intros y Hy. destruct (ho2 y Hy) as [Hy1|[Hd Hr]].
    + destruct (ho1 y Hy1) as [?|[? Hr]]; [by left|right]. split; [done|]. eapply from_mono; [reflexivity|done| |exact Hr]. set_solver.
    + right. rewrite d1 in Hd. split; [done|]. eapply from_mono; [exact m1|done| |exact Hr]. set_solver.
  - intros p Hp. destruct (ao2 p Hp) as [Hp1|(t & Hr & Ha)].
    + destruct (ao1 p Hp1) as [?|(t & Hr & Ha)]; [by left|right]. exists t. split; [|done].
      eapply from_mono; [reflexivity|done| |exact Hr]. set_solver.
    + right. exists t. split; [|by eapply assigned_mono]. eapply from_mono; [exact m1|done| |exact Hr]. set_solver.
Qed.
Lemma follow_all_ok vs s : ∃ s', follow_all vs s = Some s' ∧ pursued vs s s'.
Proof.
  revert s. induction vs as [|v vs IH]; intros s.
  - exists s. split; [done|]. split; [done..| | |by left|by left].
    + intros v. set_solver.
    + intros v x (l & Hl & _) Hn. congruence.
  - destruct (follow_ok v s) as (s1 & Hs1 & H1). destruct (IH s1) as (s2 & Hs2 & H2).
    exists s2. cbn [follow_all]. rewrite Hs1. split; [done|by eapply pursued_cons].
Qed.

(** What is reached from the names followed was followed. *)
Lemma pursued_rtc vs s s' v x : pursued vs s s' → v ∈ vs → rtc (flow (escMap s) (defMap s)) v x →
  escMap s' !! x = None ∧ (x ∈ defMap s → x ∈ heapAllocTable s').
Proof.
  intros [d m h a n c ho ao] Hv. apply (rtc_ind_r (λ x, escMap s' !! x = None ∧ (x ∈ defMap s → x ∈ heapAllocTable s'))).
  - by apply n.
  - intros y z _ [Hyz Hz] [Hy _]. pose proof (c y _ Hyz Hy) as Hf. cbn in Hf. rewrite d in Hf.
    destruct (Hf Hz) as [H1 H2]. by split.
Qed.

(** The result in terms of the state the walk over the statements leaves *)
Lemma analyse_ok order ident params ch s : skips_analysis ident = false → (∀ X, order X ≡ₚ elements X) →
  param_points params <$> esc_statements 0 ch esc_empty = Some s →
  ∃ s', analyse order ident params ch = Some s' ∧
    (∀ x, x ∈ heapAllocTable s' ↔ x ∈ heapAllocTable s ∨ x ∈ defMap s ∧ escapes s x) ∧
    (∀ p, p ∈ allocOnHeap s' ↔ p ∈ allocOnHeap s ∨ ∃ t, escapes s t ∧ assigned (escMap s) t (EscInit p)).
Proof.
  intros Hid Horder Hs. unfold analyse. rewrite Hid.
  destruct (esc_statements 0 ch esc_empty) as [s0|]; [|done]. cbn in *. injection Hs as ->.
  destruct (follow_all_ok (order (escPoint s)) s) as (s' & Hs' & Hp). exists s'. split; [done|].
  assert (Hin : ∀ v, v ∈ order (escPoint s) ↔ v ∈ escPoint s) by (intros v; rewrite Horder; apply elem_of_elements).
  assert (Hfrom : ∀ x, from s (order (escPoint s)) x ↔ escapes s x).
  { intros x. split; intros (v & Hv & Hr); exists v; (split; [by apply Hin|done]). }
  split.
  - intros x. split.
    + intros Hx. destruct (pu_heap_only _ _ _ Hp x Hx) as [?|[Hd Hf]]; [by left|right]. split; [done|by apply Hfrom].
    + intros [Hx|[Hd (v & Hv & Hr)]]; [by apply (pu_heap _ _ _ Hp)|].
      by apply (pursued_rtc _ _ _ v x Hp); [apply Hin|..].
  - intros p. split.
    + intros Hx. destruct (pu_alloc_only _ _ _ Hp p Hx) as [?|(t & Hf & Ha)]; [by left|right].
      exists t. split; [by apply Hfrom|done].
    + intros [Hx|(t & (v & Hv & Hr) & Ha)]; [by apply (pu_alloc _ _ _ Hp)|].
      destruct (pursued_rtc _ _ _ v t Hp (proj2 (Hin v) Hv) Hr) as [Hn _].
      exact (pu_closed _ _ _ Hp t _ Ha Hn).
Qed.

(** C7. The escape analysis computes the closure of the escape points under the
    assignments of the block: a variable is put on the heap exactly when a
    closure uses it, or it is defined in the block and its value may reach an
    escape point; an initialiser likewise.  The analysis ends, and the order
    in which the maps are run over does not matter. *)
Theorem escape_closure order order' ident params ch s : skips_analysis ident = false →
  (∀ X, order X ≡ₚ elements X) → (∀ X, order' X ≡ₚ elements X) →
  param_points params <$> esc_statements 0 ch esc_empty = Some s →
  ∃ s1 s2, analyse order ident params ch = Some s1 ∧ analyse order' ident params ch = Some s2 ∧
    heapAllocTable s1 = heapAllocTable s2 ∧ allocOnHeap s1 = allocOnHeap s2 ∧
    (∀ x, x ∈ heapAllocTable s1 ↔ x ∈ heapAllocTable s ∨ x ∈ defMap s ∧ escapes s x) ∧
    (∀ p, p ∈ allocOnHeap s1 ↔ p ∈ allocOnHeap s ∨ ∃ t, escapes s t ∧ assigned (escMap s) t (EscInit p)).
Proof.
  intros Hid Ho Ho' Hs. destruct (analyse_ok order ident params ch s Hid Ho Hs) as (s1 & H1 & Hh1 & Ha1).
  destruct (analyse_ok order' ident params ch s Hid Ho' Hs) as (s2 & H2 & Hh2 & Ha2).
  exists s1, s2. split_and!; [done|done| | |done|done]; apply set_eq.
  - intros x. by rewrite Hh1, Hh2.
  - intros p. by rewrite Ha1, Ha2.
Qed.
(** [x := 1; p := &x; return p], the map run over in two orders *)
Definition ret_block : list Node :=
  let v s := VarExp (mk_VarBlockNode (runes_of s) [] None 0) in
  [DefAndAssignNode (NumNode (IntVal 8 1)) (runes_of "x"); DefAndAssignNode (TakePtrNode (v "x"%string)) (runes_of "p");
   RetNode (Some (v "p"%string))].
Lemma escape_closure_witness :
  ∃ s1 s2, analyse elements (runes_of "@m.g") [runes_of "a"] ret_block = Some s1 ∧
    analyse (λ X, reverse (elements X)) (runes_of "@m.g") [runes_of "a"] ret_block = Some s2 ∧
    heapAllocTable s1 = heapAllocTable s2 ∧ runes_of "x" ∈ heapAllocTable s1.
Proof.
  destruct (param_points [runes_of "a"] <$> esc_statements 0 ret_block esc_empty) as [s|] eqn:E; [|done].
  destruct (escape_closure elements (λ X, reverse (elements X)) (runes_of "@m.g") [runes_of "a"] ret_block s)
    as (s1 & s2 & H1 & H2 & Hh & _ & Hx & _); [reflexivity|done|intros X; apply reverse_Permutation|exact E|].
  exists s1, s2. split_and!; [exact H1|exact H2|exact Hh|]. apply Hx. right. revert E. vm_compute.
  intros [= <-]. split; [apply (bool_decide_unpack _); vm_compute; exact I|].
  exists (runes_of "p"). split; [apply (bool_decide_unpack _); vm_compute; exact I|]. apply rtc_once.
  split; [eexists; split; [vm_compute; reflexivity|left]|apply (bool_decide_unpack _); vm_compute; exact I].
Defined.
