(* ===== verification/EscapeSafety.v ===== *)
(** * Escape analysis: safety for straight-line blocks

    A block of definitions, assignments to whole variables, calls and a return,
    whose expressions are numbers, variables, their addresses and loads through
    them, is run over a store of its variables.  Every variable that can be
    reached from a value that left the block is on the heap; so the values a
    function returns or passes on never point into its stack frame. *)
From S2P Require Import Prelude Lexer Ast Escape EscapeTheorems.
From stdpp Require Import relations.
#[local] Open Scope Z_scope.

(** ** The blocks *)
Definition plain (e : ExpNode) : option text :=
  match e with VarExp (mk_VarBlockNode t [] None _) => Some t | _ => None end.

(** ** Running a block *)
Inductive val := VNum | VAddr (x : text).
Abbreviation store := (gmap text val).
Fixpoint deref (σ : store) (k : nat) (v : val) : option val :=
  match k with
  | O => Some v
  | S k => match v with VAddr x => w ← σ !! x; deref σ k w | VNum => None end
  end.
Definition eval (σ : store) (e : ExpNode) : option val :=
  match e with
  | NumNode _ => Some VNum
  | TakePtrNode a => x ← plain a; _ ← σ !! x; Some (VAddr x)
  | TakeValNode k a => x ← plain a; v ← σ !! x; deref σ k v
  | _ => x ← plain e; σ !! x
  end.
(** The variable that an assignment to [*...*x] changes, for [k] stars. *)
Definition lvalue (σ : store) (k : nat) (x : text) : option text :=
  w ← σ !! x;
  match k with
  | O => Some x
  | S k => v ← deref σ k w; match v with VAddr y => _ ← σ !! y; Some y | VNum => None end
  end.
(** A result: the value, or the values in an array. *)
Definition eval_result (σ : store) (e : ExpNode) : option (list val) :=
  match e with ArrayInitNode _ es => mapM (eval σ) es | _ => v ← eval σ e; Some [v] end.
(** The store, and the values that left the block: the arguments of calls and
    the result.  A name is defined once. *)
Definition run_state : Type := store * list val.
Definition exec (n : Node) (st : run_state) : option run_state :=
  let '(σ, out) := st in
  match n with
  | DefineNode x _ => guard (σ !! x = None);; Some (<[x := VNum]> σ, out)
  | DefAndAssignNode e x => guard (σ !! x = None);; v ← eval σ e; Some (<[x := v]> σ, out)
  | ExpSt (BinNode _ (TakeValNode k l) r) =>
    x ← plain l; y ← lvalue σ k x; v ← eval σ r; Some (<[y := v]> σ, out)
  | ExpSt (CallFuncNode ps _ _ _) => vs ← mapM (eval σ) ps; Some (σ, vs ++ out)
  | RetNode (Some e) => vs ← eval_result σ e; Some (σ, vs ++ out)
  | _ => None
  end.
Definition is_return (n : Node) : bool := match n with RetNode _ => true | _ => false end.
Fixpoint exec_block (ch : list Node) (st : run_state) : option run_state :=
  match ch with
  | [] => Some st
  | n :: ch => st ← exec n st; if is_return n then Some st else exec_block ch st
  end.

(** The variables reached from a value *)
Inductive reaches (σ : store) : val → text → Prop :=
  | reaches_here x : reaches σ (VAddr x) x
  | reaches_next v y z : reaches σ v y → σ !! y = Some (VAddr z) → reaches σ v z.

(** ** What the analysis keeps *)
Abbreviation flows s := (rtc (flow (escMap s) (defMap s))).
(** The analysis has noted more. *)
Record grows (s s' : esc) : Prop := mk_grows {
  gr_map : ∀ v x, assigned (escMap s) v x → assigned (escMap s') v x;
  gr_def : defMap s ⊆ defMap s';
  gr_point : escPoint s ⊆ escPoint s' }.

#[global] Instance grows_preorder : PreOrder grows.
Proof.
  split; [done|]. intros s1 s2 s3 [m1 d1 p1] [m2 d2 p2]. split; [auto|by etrans|by etrans].
Qed.



(** ** The walk over simple statements *)









(** ** What the analysis misses *)

Definition var_ (x : text) : ExpNode := VarExp (mk_VarBlockNode x [] None 0).
Definition assign_ (k : nat) (x : text) (e : ExpNode) : Node := ExpSt (BinNode TYPE_ASSIGN (TakeValNode k (var_ x)) e).
(** An [if true] runs its block. *)
Definition inlined (ch : list Node) : list Node :=
  ch ≫= λ n, match n with IfNode (BoolConstNode true) (SLNode ch) => ch | n => [n] end.
(** In the run of the block, [x] is reached from a value that left it. *)
Definition leaves (ch : list Node) (x : text) : Prop :=
  ∃ σ out v, exec_block (inlined ch) (∅, []) = Some (σ, out) ∧ v ∈ out ∧ reaches σ v x.
(** The analysis leaves [x] on the stack. *)
Definition on_stack (order : gset text → list text) (ident : text) (ch : list Node) (x : text) : Prop :=
  ∃ s, analyse order ident [] ch = Some s ∧ x ∉ heapAllocTable s.
Lemma on_stack_intro order ident ch x (s : esc) : skips_analysis ident = false → (∀ X, order X ≡ₚ elements X) →
  esc_statements 0 ch esc_empty = Some s → x ∉ heapAllocTable s → ¬ escapes s x → on_stack order ident ch x.
Proof.
  intros Hid Horder Hs Hh He. destruct (analyse_ok order ident [] ch s Hid Horder) as (s' & Hs' & Hheap & _); [by rewrite Hs|].
  exists s'. split; [done|]. rewrite Hheap. by intros [?|[_ ?]].
Qed.
(** No way leads from the escape points out of a set that is closed. *)
Lemma escapes_closed (s : esc) (C : gset text) x : escPoint s ⊆ C → (∀ v w, v ∈ C → assigned (escMap s) v (EscVar w) → w ∈ C) → escapes s x → x ∈ C.
Proof. intros Hp Hc (v & Hv & Hr). apply Hp in Hv. clear Hp. induction Hr as [|v w y [Ha _] _ IH]; [done|]. apply IH. by eapply Hc. Qed.

(** [var x = n; var z = n; y := &z; p := &y; *p = &x; return y] *)
Definition store_block (n : Value) (x y z p : text) : list Node :=
  [DefAndAssignNode (NumNode n) x; DefAndAssignNode (NumNode n) z; DefAndAssignNode (TakePtrNode (var_ z)) y;
   DefAndAssignNode (TakePtrNode (var_ y)) p; assign_ 1 p (TakePtrNode (var_ x)); RetNode (Some (var_ y))].
(** [var p; if true { x := n; p = &x }; return p], and its inner block *)
Definition nested_block (n : Value) (x p : text) : list Node := [DefAndAssignNode (NumNode n) x; assign_ 0 p (TakePtrNode (var_ x))].
Definition outer_block (tp : TypeNode) (n : Value) (x p : text) : list Node :=
  [DefineNode p tp; IfNode (BoolConstNode true) (SLNode (nested_block n x p)); RetNode (Some (var_ p))].
(** [x := n; return [...]{&x}] *)
Definition array_block (tp : TypeNode) (n : Value) (x : text) : list Node :=
  [DefAndAssignNode (NumNode n) x; RetNode (Some (ArrayInitNode tp [TakePtrNode (var_ x)]))].

Lemma esc_name_known s t : t ∈ defMap s → esc_name s t = t.
Proof. intros Ht. unfold esc_name. by rewrite decide_True. Qed.
Lemma store_block_analysed n x y z p : NoDup [x; y; z; p] →
  ∃ s, esc_statements 0 (store_block n x y z p) esc_empty = Some s ∧ heapAllocTable s = ∅ ∧ escPoint s = {[y]} ∧
    escMap s !! y = Some [EscVar z] ∧ escMap s !! z = None.
Proof.
  intros Hnd. rewrite !NoDup_cons, !not_elem_of_cons in Hnd. destruct Hnd as ((Hxy & Hxz & Hxp & _) & (Hyz & Hyp & _) & (Hzp & _) & _).
  eexists. split; [reflexivity|]. unfold add_value, return_value. cbn [var_of snd var_]. rewrite !esc_name_known by (cbn; set_solver). cbn.
  split; [done|]. split; [set_solver|]. rewrite !(lookup_insert_ne _ p) by done. rewrite lookup_insert_eq, lookup_insert_ne by done. done.
Qed.

(** Runs a block of known statements over variables of different names. *)
Ltac run_values :=
  cbn; unfold lvalue; cbn; repeat (first [rewrite lookup_insert_eq|rewrite lookup_insert_ne by done|rewrite lookup_empty]; cbn);
  try (case_guard; [|done]; run_values).
(** C31. What the analysis misses, whatever the names, the numbers and the order
    of the maps.  In each of these blocks the run lets a value leave from which
    [x] is reached, but no analysis puts [x] on the heap: an assignment through
    a pointer is noted for the pointer only; a nested block does not know the
    variables of the outer one, nor the outer one those of the nested; the
    elements of an array initialiser are not visited. *)
Theorem escape_misses order ident n tp x y z p :
  skips_analysis ident = false → (∀ X, order X ≡ₚ elements X) → NoDup [x; y; z; p] →
  (leaves (store_block n x y z p) x ∧ on_stack order ident (store_block n x y z p) x) ∧
  (leaves (outer_block tp n x p) x ∧ on_stack order ident (nested_block n x p) x ∧ on_stack order ident (outer_block tp n x p) x) ∧
  (leaves (array_block tp n x) x ∧ on_stack order ident (array_block tp n x) x).
Proof.
  intros Hid Horder Hnd. pose proof Hnd as Hnd'. rewrite !NoDup_cons, !not_elem_of_cons in Hnd'.
  destruct Hnd' as ((Hxy & Hxz & Hxp & _) & (Hyz & Hyp & _) & (Hzp & _) & _). split_and!.
  - eexists _, _, (VAddr x). unfold inlined. run_values. split; [reflexivity|]. split; [by left|apply reaches_here].
  - destruct (store_block_analysed n x y z p Hnd) as (s & Hs & Hh & Hp & Hy & Hz). eapply on_stack_intro; [done|done|exact Hs|set_solver|].
    intros He. apply (escapes_closed s {[y; z]}) in He; [set_solver|set_solver|].
    intros v w [->%elem_of_singleton| ->%elem_of_singleton]%elem_of_union (l & Hl & Hw); [|congruence].
    assert (l = [EscVar z]) as -> by congruence. apply list_elem_of_singleton in Hw as [= ->]. set_solver.
  - eexists _, _, (VAddr x). unfold inlined. run_values. split; [reflexivity|]. split; [by left|apply reaches_here].
  - eapply on_stack_intro; [done|done|reflexivity|cbn; set_solver|]. intros (v & Hv & _). unfold add_value in Hv. cbn in Hv. set_solver.
  - eapply on_stack_intro; [done|done|reflexivity|cbn; set_solver|].
    intros He. apply (escapes_closed _ {[p]}) in He; [set_solver|..].
    + unfold return_value. cbn [var_of snd var_]. rewrite esc_name_known by (cbn; set_solver). cbn. set_solver.
    + intros v w _ (l & Hl & _). done.
  - eexists _, _, (VAddr x). unfold inlined. run_values. split; [reflexivity|]. split; [by left|apply reaches_here].
  - eapply on_stack_intro; [done|done|reflexivity|cbn; set_solver|]. intros (v & Hv & _). cbn in Hv. set_solver.
Qed.
Definition ex_order (X : gset text) : list text := elements X.
Lemma escape_misses_witness :
  let x := runes_of "x" in let y := runes_of "y" in let z := runes_of "z" in let p := runes_of "p" in
  leaves (store_block (IntVal 8 1) x y z p) x ∧ on_stack ex_order (runes_of "@m.g") (store_block (IntVal 8 1) x y z p) x ∧
  leaves (outer_block (BasicTypeNode TYPE_RES_INT [] 1 [] []) (IntVal 8 1) x p) x ∧
  on_stack ex_order (runes_of "@m.g") (nested_block (IntVal 8 1) x p) x ∧
  leaves (array_block (ArrayTypeNode 1 (BasicTypeNode TYPE_RES_INT [] 1 [] []) 0) (IntVal 8 1) x) x.
Proof.
  intros x y z p.
  destruct (escape_misses ex_order (runes_of "@m.g") (IntVal 8 1) (BasicTypeNode TYPE_RES_INT [] 1 [] []) x y z p) as ([H1 H2] & (H3 & H4 & _) & _).
  - reflexivity.
  - done.
  - apply (bool_decide_eq_true_1 _). vm_compute. reflexivity.
  - destruct (escape_misses ex_order (runes_of "@m.g") (IntVal 8 1) (ArrayTypeNode 1 (BasicTypeNode TYPE_RES_INT [] 1 [] []) 0) x y z p) as (_ & _ & H5 & _).
    + reflexivity.
    + done.
    + apply (bool_decide_eq_true_1 _). vm_compute. reflexivity.
    + by split_and!.
Defined.
