(* ===== verification/GcInline.v ===== *)
(** * Inline allocation: gc_tiny_fl.h and gc_inline.h

    The macros a program that allocates often uses to take objects from free
    lists of its own, an array of GC_TINY_FREELISTS pointers, and to refill
    them from the collector.  The collector's functions are the class
    [TinyCollector]: the operations first, then what gc.h, gc_mark.h and
    gc_inline.h say of them.  Pointers are 64 bits wide; GC_EXPECT,
    GC_PREFETCH_FOR_WRITE and GC_reachable_here only inform the compiler and
    the collector, they have no effect on the memory and are left out. *)
From S2P Require Import Prelude CLayout UvTypes Memory UvUtil.
#[local] Open Scope N_scope.

(** ** gc_tiny_fl.h *)

(** The bytes of a granule, by the macros the compiler predefines. *)
Definition GC_GRANULE_BYTES_of (defined : string → bool) : N :=
  if defined "__LP64__" || defined "_LP64" || defined "_WIN64" || defined "__s390x__"
     || (defined "__x86_64__" && negb (defined "__ILP32__"))
     || defined "__alpha__" || defined "__powerpc64__" || defined "__arch64__"
  then 16 else 8.
Definition GC_GRANULE_WORDS : N := 2.
Definition GC_TINY_FREELISTS_of (granule_bytes : N) : N := if granule_bytes =? 16 then 25 else 33.

(** x86-64 Linux *)
Definition linux_x86_64 (macro : string) : bool :=
  bool_decide (macro ∈ ["__LP64__"; "_LP64"; "__x86_64__"]).
Definition GC_GRANULE_BYTES : N := Eval vm_compute in GC_GRANULE_BYTES_of linux_x86_64.
Definition GC_TINY_FREELISTS : N := Eval vm_compute in GC_TINY_FREELISTS_of GC_GRANULE_BYTES.

(** Arithmetic of size_t and GC_word, and a word read as a GC_signed_word. *)
Definition word (n : N) : N := n `mod` SIZE_MAX1.
Definition signed_word (n : N) : Z :=
  if n <? 2 ^ 63 then Z.of_N n else (Z.of_N n - 2 ^ 64)%Z.

Definition GC_WORDS_TO_GRANULES (n : N) : N :=
  if GC_GRANULE_WORDS =? 2 then N.shiftr n 1 else word (n * 8) / GC_GRANULE_BYTES.
Definition GC_RAW_BYTES_FROM_INDEX (i : N) : N := word (i * GC_GRANULE_BYTES).

(** ** The collector's functions *)

Definition GC_I_PTRFREE : N := 0.
Definition GC_I_NORMAL : N := 1.

(** [ps] are objects linked through their first word from the pointer [p]. *)
Fixpoint linked (m : mem) (p : addr) (ps : list addr) : Prop :=
  match ps with
  | [] => p = NULLP
  | q :: ps => p = q ∧ ∃ next, load_ptr q m = Some (next, m) ∧ linked m next ps
  end.

Definition region : Type := addr * N.
Definition apart (r s : region) : Prop := r.1 + r.2 ≤ s.1 ∨ s.1 + s.2 ≤ r.1.
Fixpoint separate (l : list region) : Prop :=
  match l with
  | [] => True
  | r :: l => Forall (apart r) l ∧ separate l
  end.

(** An object of [n] bytes of the heap, whose addresses start at [lo]. *)
Record heap_object (lo : addr) (m : mem) (p : addr) (n : N) : Prop := mk_heap_object {
  ho_low : lo ≤ p;
  ho_align : (16 | p);
  ho_range : p + n < SIZE_MAX1;
  ho_valid : valid n p (bytes m);
  ho_block : blocks m !! p = Some (n, Collectable);
}.

Definition zeroed (m : mem) (p : addr) (n : N) : Prop :=
  ∀ i, p ≤ i < p + n → bytes m !! i = Some 0%Z.

(** From [m] to [m'] the objects [ps] of [n] bytes were allocated; apart from
    them only the [k] bytes at [slot] may have changed. *)
Record allocated (lo : addr) (m : mem) (ps : list addr) (n slot k : N) (m' : mem) : Prop := mk_allocated {
  al_objects : ∀ p, p ∈ ps → heap_object lo m' p n;
  al_separate : separate ((λ p, (p, n)) <$> ps);
  al_new : ∀ p i, p ∈ ps → p ≤ i < p + n → bytes m !! i = None;
  al_rest : ∀ i, outside slot k i → (∀ p, p ∈ ps → outside p n i) → bytes m' !! i = bytes m !! i;
  al_slot : ∀ i, ¬ outside slot k i → is_Some (bytes m !! i) → is_Some (bytes m' !! i);
  al_blocks : ∀ p, is_Some (blocks m !! p) → blocks m' !! p = blocks m !! p;
  al_ok : bytes_ok (bytes m) → bytes_ok (bytes m');
}.

Class TinyCollector := {
  GC_generic_malloc_many : N → N → addr → ST mem unit;
  GC_malloc_kind : N → N → ST mem addr;
  GC_end_stubborn_change : addr → ST mem unit;
  GC_ptr_store_and_dirty : addr → addr → ST mem unit;
  GC_size : addr → ST mem N;
  (** what [GC_get_oom_fn] returns *)
  GC_oom_fn : N → ST mem addr;
  (** gc_mark.h: a bound of the heap *)
  GC_least_plausible_heap_addr : addr;
  GC_least_plausible_pos : 0 < GC_least_plausible_heap_addr;
  (** gc_inline.h: stores a list of newly allocated objects in [*result]; they
      are linked through the first word and cleared but for it (gc_mark.h),
      unless the kind is free of pointers.  There are none when memory is
      short. *)
  GC_generic_malloc_many_spec lb k result m :
    valid 8 result (bytes m) → bytes_ok (bytes m) →
    wp (GC_generic_malloc_many lb k result) m (λ _ m', ∃ p ps,
      allocated GC_least_plausible_heap_addr m ps lb result 8 m' ∧
      load_ptr result m' = Some (p, m') ∧ linked m' p ps ∧
      (k ≠ GC_I_PTRFREE → ∀ q, q ∈ ps → zeroed m' (q + 8) (lb - 8)));
  (** a new object, cleared unless the kind is free of pointers *)
  GC_malloc_kind_spec lb k m :
    bytes_ok (bytes m) →
    wp (GC_malloc_kind lb k) m (λ p m', (p = NULLP ∧ m' = m) ∨
      (allocated GC_least_plausible_heap_addr m [p] lb 0 0 m' ∧
       (k ≠ GC_I_PTRFREE → zeroed m' p lb)));
  (** gc.h: tells the collector of a change, matters to it only *)
  GC_end_stubborn_change_spec p m : wp (GC_end_stubborn_change p) m (λ _ m', m' = m);
  (** gc.h: equivalent to GC_PTR_STORE, GC_END_STUBBORN_CHANGE and GC_reachable_here *)
  GC_ptr_store_and_dirty_spec p q m Q :
    wp (store_ptr p q) m Q → wp (GC_ptr_store_and_dirty p q) m Q;
  (** gc.h: the size of the object, perhaps larger than requested *)
  GC_size_spec p n m : blocks m !! p = Some (n, Collectable) →
    wp (GC_size p) m (λ s m', n ≤ s ∧ m' = m);
  (** gc.h: by default this just returns NULL *)
  GC_oom_fn_spec n m : wp (GC_oom_fn n) m (λ p m', p = NULLP ∧ m' = m);
}.

(** ** gc_inline.h *)
Section inline.
Context `{TinyCollector} (NDEBUG : bool).

(** An assertion that does not hold stops the program. *)
Definition GC_ASSERT (expr : ST mem bool) : ST mem unit :=
  if NDEBUG then mret tt else b ← expr; if (b : bool) then mret tt else st_fail.

Definition GC_FAST_M_AO_STORE (my_fl next : addr) : ST mem unit := store_ptr my_fl next.

(** The [for (;;)] of GC_FAST_MALLOC_GRANS.  [init] runs with [result] the
    new object. *)
Fixpoint fast_malloc_loop (fuel : nat) (granules num_direct kind : N) (default_expr : ST mem addr)
    (init : addr → ST mem unit) (my_fl my_entry : addr) : ST mem addr :=
  match fuel with
  | O => st_fail
  | S fuel =>
    if word (num_direct + GC_TINY_FREELISTS + 1) <? my_entry then
      next ← load_ptr my_entry;
      GC_FAST_M_AO_STORE my_fl next;;
      init my_entry;;
      c_when (negb (kind =? GC_I_PTRFREE)) (GC_end_stubborn_change my_fl);;
      GC_ASSERT (sz ← GC_size my_entry; mret (word (granules * GC_GRANULE_BYTES) <=? sz));;
      GC_ASSERT (if kind =? GC_I_PTRFREE then mret true
                 else w ← load_ptr (my_entry + 8); mret (w =? 0));;
      mret my_entry
    else if (signed_word my_entry - signed_word num_direct <=? 0)%Z && negb (my_entry =? NULLP) then
      GC_FAST_M_AO_STORE my_fl (word (my_entry + granules + 1));;
      default_expr
    else
      GC_generic_malloc_many (if granules =? 0 then GC_GRANULE_BYTES
                              else GC_RAW_BYTES_FROM_INDEX granules) kind my_fl;;
      my_entry ← load_ptr my_fl;
      if my_entry =? NULLP then GC_oom_fn (word (granules * GC_GRANULE_BYTES))
      else fast_malloc_loop fuel granules num_direct kind default_expr init my_fl my_entry
  end.

(** [tiny_fl + granules] is an address of an array of pointers. *)
Definition GC_FAST_MALLOC_GRANS (granules : N) (tiny_fl : addr) (num_direct kind : N)
    (default_expr : ST mem addr) (init : addr → ST mem unit) : ST mem addr :=
  if GC_TINY_FREELISTS <=? granules then default_expr
  else
    let my_fl := tiny_fl + 8 * granules in
    my_entry ← load_ptr my_fl;
    fast_malloc_loop 2 granules num_direct kind default_expr init my_fl my_entry.

Definition GC_WORDS_TO_WHOLE_GRANULES (n : N) : N :=
  GC_WORDS_TO_GRANULES (word (n + GC_GRANULE_WORDS - 1)).

Definition GC_MALLOC_WORDS_KIND (n : N) (tiny_fl : addr) (kind : N) (init : addr → ST mem unit) : ST mem addr :=
  let granules := GC_WORDS_TO_WHOLE_GRANULES n in
  GC_FAST_MALLOC_GRANS granules tiny_fl 0 kind
    (GC_malloc_kind (word (granules * GC_GRANULE_BYTES)) kind) init.

(** Clears the link of the object [result]. *)
Definition clear_link (result : addr) : ST mem unit := store_ptr result 0.

Definition GC_MALLOC_WORDS (n : N) (tiny_fl : addr) : ST mem addr :=
  GC_MALLOC_WORDS_KIND n tiny_fl GC_I_NORMAL clear_link.
Definition GC_MALLOC_ATOMIC_WORDS (n : N) (tiny_fl : addr) : ST mem addr :=
  GC_MALLOC_WORDS_KIND n tiny_fl GC_I_PTRFREE (λ _, mret tt).

Definition GC_CONS (first second : N) (tiny_fl : addr) : ST mem addr :=
  let l := first in
  let r := second in
  result ← GC_MALLOC_WORDS_KIND 2 tiny_fl GC_I_NORMAL (λ _, mret tt);
  c_when (negb (result =? NULLP))
    (store_ptr result l;; GC_ptr_store_and_dirty (result + 8) r);;
  mret result.
End inline.
