(* ===== verification/GcInlineRep.v ===== *)
(** * The state of the inline allocator

    The invariant of an array of free lists over the byte memory: each entry
    is a counter or heads a list of objects, and the array, the objects on
    the lists and the memory of the client are apart from each other.  The
    lemmas say how the invariant changes when memory apart from it is
    written, when an object is taken from a list, when a counter is raised
    and when a list is refilled. *)
From S2P Require Import Prelude CLayout UvTypes Memory UvUtil GcInline.
#[local] Open Scope N_scope.

(** ** Regions *)

Lemma apart_sym r s : apart r s → apart s r.
Proof. unfold apart. lia. Qed.

Lemma separate_perm l k : l ≡ₚ k → separate l → separate k.
Proof.
  induction 1 as [|r l k Hlk IH|r s l|]; simpl; [done| | |by auto].
  - intros [Hr Hl]. split; [by rewrite <- Hlk|by apply IH].
  - rewrite !Forall_cons. intros [[Hsr Hr] [Hs Hl]]. repeat split; first [done|by apply apart_sym].
Qed.
Lemma separate_app l k :
  separate (l ++ k) ↔ separate l ∧ separate k ∧ ∀ r s, r ∈ l → s ∈ k → apart r s.
Proof.
  induction l as [|r l IH]; simpl.
  - split; [|by intros (_ & Hk & _)]. intros Hk. repeat split; [done|].
    intros r s Hr. by apply not_elem_of_nil in Hr.
  - rewrite Forall_app, IH, !Forall_forall. split.
    + intros [[Hrl Hrk] (Hl & Hk & Hlk)]. repeat split; try done.
      intros r' s [->|Hr]%elem_of_cons Hs; [by apply Hrk|by apply Hlk].
    + intros ([Hrl Hl] & Hk & Hlk). repeat split; try done.
      * intros s Hs. apply Hlk; [by left|done].
      * intros r' s Hr Hs. apply Hlk; [by right|done].
Qed.
Lemma separate_elem l k r s : separate (l ++ r :: k) → s ∈ l ++ k → apart r s.
Proof.
  intros Hs Hin. eapply separate_perm in Hs; [|symmetry; apply Permutation_middle].
  destruct Hs as [Hr _]. by eapply Forall_forall in Hr.
Qed.

(** Memory in use is apart from memory that was not allocated. *)
Lemma apart_fresh h a n p k :
  0 < n → 0 < k → valid n a h → (∀ i, p ≤ i < p + k → h !! i = None) → apart (a, n) (p, k).
Proof.
  intros Hn Hk Hv Hf. unfold apart. simpl.
  destruct (decide (a + n ≤ p)); [by left|]. destruct (decide (p + k ≤ a)); [by right|].
  destruct (Hv (N.max a p)) as [b Hb]; [lia|]. rewrite Hf in Hb by lia. done.
Qed.

(** ** Loads and stores of pointers *)

(** The two memories hold the same bytes in a region. *)
Definition same_on (m m' : mem) (r : region) : Prop :=
  ∀ i, r.1 ≤ i < r.1 + r.2 → bytes m' !! i = bytes m !! i.
(** Only the [n] bytes at [a] may differ. *)
Record wrote (m : mem) (a : addr) (n : N) (m' : mem) : Prop := mk_wrote {
  wr_same : ∀ i, outside a n i → bytes m' !! i = bytes m !! i;
  wr_dom : dom (bytes m') = dom (bytes m);
  wr_blocks : blocks m' = blocks m;
  wr_ok : bytes_ok (bytes m) → bytes_ok (bytes m');
}.

Lemma load_ptr_bytes a m :
  load_ptr a m = match load_bytes 8 a (bytes m) with
                 | Some bs => Some (Z.to_N (le_combine bs), m)
                 | None => None
                 end.
Proof. unfold load_ptr, load, st_gets, mbind, ST_bind. by destruct (load_bytes 8 a (bytes m)). Qed.
Lemma load_ptr_same a m m' x :
  same_on m m' (a, 8) → load_ptr a m = Some (x, m) → load_ptr a m' = Some (x, m').
Proof.
  intros Hs. rewrite !load_ptr_bytes. rewrite (load_bytes_ext 8 a (bytes m) (bytes m')) by (intros i Hi; apply Hs; simpl; lia).
  destruct (load_bytes 8 a (bytes m)); [|done]. by intros [= ->].
Qed.
Lemma wp_load_ptr_known a x m (Q : addr → mem → Prop) :
  load_ptr a m = Some (x, m) → Q x m → wp (load_ptr a) m Q.
Proof. intros Hl HQ. by exists x, m. Qed.
Lemma load_ptr_valid a m : valid 8 a (bytes m) → ∃ x, load_ptr a m = Some (x, m).
Proof.
  intros Hv. rewrite load_ptr_bytes. destruct (load_bytes_valid 8 a (bytes m)) as (bs & -> & _); [done|]. by eexists.
Qed.
Lemma wp_store_ptr a v m (Q : unit → mem → Prop) :
  valid 8 a (bytes m) →
  (∀ m', wrote m a 8 m' → (v < SIZE_MAX1 → load_ptr a m' = Some (v, m')) → Q tt m') →
  wp (store_ptr a v) m Q.
Proof.
  intros Hv HQ. unfold store_ptr. apply wp_store; [done|]. intros m' Hb Hd Ho Hl Hok.
  apply HQ; [by split|]. intros Hlt. unfold load_ptr, mbind, ST_bind. rewrite Hl.
  assert (Z.of_N v `mod` 256 ^ Z.of_nat 8 = Z.of_N v)%Z as ->.
  { apply Z.mod_small. change (256 ^ Z.of_nat 8)%Z with (Z.of_N SIZE_MAX1). lia. }
  by rewrite N2Z.id.
Qed.
Lemma load_ptr_zeroed m p : zeroed m p 8 → load_ptr p m = Some (0, m).
Proof.
  intros Hz. rewrite load_ptr_bytes. do 8 (simpl; rewrite Hz by lia). done.
Qed.

Lemma wrote_same m a n m' r : wrote m a n m' → apart (a, n) r → same_on m m' r.
Proof. intros Hw Ha i Hi. apply (wr_same _ _ _ _ Hw). unfold apart, outside in *. simpl in *. lia. Qed.
Lemma wrote_valid m a n m' k b : wrote m a n m' → valid k b (bytes m) → valid k b (bytes m').
Proof. intros Hw. apply valid_dom. apply Hw. Qed.
Lemma wrote_refl m a n : wrote m a n m.
Proof. by split. Qed.
Lemma wrote_trans m a n m' m'' : wrote m a n m' → wrote m' a n m'' → wrote m a n m''.
Proof.
  intros [S1 D1 B1 O1] [S2 D2 B2 O2]. split; [|congruence|congruence|by auto].
  intros i Hi. by rewrite S2, S1.
Qed.
Lemma wrote_sub m a n m' b k : wrote m b k m' → a ≤ b → b + k ≤ a + n → wrote m a n m'.
Proof. intros [S D B O] Hl Hr. split; [|done..]. intros i Hi. apply S. unfold outside in *. lia. Qed.
Lemma same_on_sub m m' a n b k : same_on m m' (a, n) → a ≤ b → b + k ≤ a + n → same_on m m' (b, k).
Proof. intros Hs Hl Hr i Hi. apply Hs. simpl in *. lia. Qed.
Lemma zeroed_same m m' a n : same_on m m' (a, n) → zeroed m a n → zeroed m' a n.
Proof. intros Hs Hz i Hi. rewrite Hs by done. by apply Hz. Qed.
Lemma zeroed_sub m a n b k : zeroed m a n → a ≤ b → b + k ≤ a + n → zeroed m b k.
Proof. intros Hz Hl Hr i Hi. apply Hz. lia. Qed.

Lemma linked_same m m' p ps :
  (∀ q, q ∈ ps → same_on m m' (q, 8)) → linked m p ps → linked m' p ps.
Proof.
  revert p. induction ps as [|q ps IH]; intros p Hs; simpl; [done|]. intros (-> & next & Hl & Hn).
  split; [done|]. exists next. split.
  - eapply load_ptr_same; [|done]. apply Hs. by left.
  - apply IH; [|done]. intros q' Hq'. apply Hs. by right.
Qed.
Lemma heap_object_same lo m m' p n :
  valid n p (bytes m') → blocks m' !! p = blocks m !! p → heap_object lo m p n → heap_object lo m' p n.
Proof. intros Hv Hb [L A R V B]. split; try done. by rewrite Hb. Qed.

(** ** The array of free lists *)

(** The objects of list [i] are [i] granules large; those of list 0 are 1. *)
Definition osz (i : N) : N := if i =? 0 then GC_GRANULE_BYTES else i * GC_GRANULE_BYTES.
Definition list_regions (i : N) (ps : list addr) : list region := (λ p, (p, osz i)) <$> ps.
Fixpoint free_regions (i : N) (free : list (list addr)) : list region :=
  match free with
  | [] => []
  | ps :: free => list_regions i ps ++ free_regions (i + 1) free
  end.

(** An entry heads the list of its objects; one without objects may be a
    counter, which exceeds [num_direct] by at most the size it counts. *)
Definition entry_ok (m : mem) (num_direct i e : N) (ps : list addr) : Prop :=
  linked m e ps ∨ ps = [] ∧ e ≤ num_direct + i + 1.

Definition array_region (tiny_fl : addr) : region := (tiny_fl, 8 * GC_TINY_FREELISTS).

(** [live]: the memory of the client; [free]: the objects of each list. *)
Record tiny_inv (lo : addr) (num_direct kind : N) (tiny_fl : addr)
    (live : list region) (free : list (list addr)) (m : mem) : Prop := mk_tiny_inv {
  ti_length : length free = N.to_nat GC_TINY_FREELISTS;
  ti_ok : bytes_ok (bytes m);
  ti_array : valid (8 * GC_TINY_FREELISTS) tiny_fl (bytes m);
  ti_entries : ∀ i ps, free !! i = Some ps → ∃ e,
    load_ptr (tiny_fl + 8 * N.of_nat i) m = Some (e, m) ∧ entry_ok m num_direct (N.of_nat i) e ps;
  ti_separate : separate (array_region tiny_fl :: live ++ free_regions 0 free);
  ti_free : ∀ p n, (p, n) ∈ free_regions 0 free → heap_object lo m p n;
  ti_clear : ∀ p n, (p, n) ∈ free_regions 0 free → kind ≠ GC_I_PTRFREE → zeroed m (p + 8) (n - 8);
  ti_live : ∀ p n, (p, n) ∈ live → 0 < n ∧ valid n p (bytes m);
}.

Lemma osz_ge i : 16 ≤ osz i.
Proof. unfold osz. destruct (N.eqb_spec i 0); [done|]. unfold GC_GRANULE_BYTES. lia. Qed.

Lemma free_regions_lookup free i ps k :
  free !! i = Some ps → ∃ A, free_regions k free ≡ₚ list_regions (k + N.of_nat i) ps ++ A ∧
    ∀ ps', free_regions k (<[i:=ps']> free) ≡ₚ list_regions (k + N.of_nat i) ps' ++ A.
Proof.
  revert i k. induction free as [|qs free IH]; intros [|i] k Hi; try done.
  - simpl in Hi. simplify_eq. exists (free_regions (k + 1) free). simpl. by rewrite N.add_0_r.
  - destruct (IH i (k + 1) Hi) as (A & HA & HA'). exists (list_regions k qs ++ A).
    replace (k + N.of_nat (S i)) with (k + 1 + N.of_nat i) by lia. simpl. split.
    + rewrite HA. solve_Permutation.
    + intros ps'. rewrite HA'. solve_Permutation.
Qed.
Lemma free_regions_elem free i ps p :
  free !! i = Some ps → p ∈ ps → (p, osz (N.of_nat i)) ∈ free_regions 0 free.
Proof.
  intros Hi Hp. destruct (free_regions_lookup free i ps 0 Hi) as (A & -> & _).
  apply elem_of_app. left. by apply (list_elem_of_fmap_2 (λ p, (p, osz (N.of_nat i)))).
Qed.
Lemma free_regions_size p n k free : (p, n) ∈ free_regions k free → 16 ≤ n.
Proof.
  revert k. induction free as [|ps free IH]; intros k; simpl; [by intros ?%not_elem_of_nil|].
  rewrite elem_of_app. intros [Hp|Hp]; [|by eapply IH].
  unfold list_regions in Hp. apply list_elem_of_fmap in Hp as (q & [= _ ->] & _). apply osz_ge.
Qed.

(** The entry of an index is apart from the other entries. *)
Lemma entry_apart tiny_fl (i j : nat) :
  i ≠ j → apart (tiny_fl + 8 * N.of_nat i, 8) (tiny_fl + 8 * N.of_nat j, 8).
Proof. unfold apart. simpl. lia. Qed.
Lemma entry_in_array tiny_fl (i : nat) :
  (i < N.to_nat GC_TINY_FREELISTS)%nat →
  tiny_fl ≤ tiny_fl + 8 * N.of_nat i ∧ tiny_fl + 8 * N.of_nat i + 8 ≤ tiny_fl + 8 * GC_TINY_FREELISTS.
Proof. unfold GC_TINY_FREELISTS. lia. Qed.

(** ** What an allocation keeps *)

Lemma allocated_same lo m ps n slot k m' a b :
  allocated lo m ps n slot k m' → valid b a (bytes m) → apart (slot, k) (a, b) → same_on m m' (a, b).
Proof.
  intros HA Hv Hap i Hi. simpl in Hi. apply (al_rest _ _ _ _ _ _ _ HA).
  - unfold apart, outside in *. simpl in *. lia.
  - intros p Hp. unfold outside. destruct (decide (i < p)); [by left|]. destruct (decide (p + n ≤ i)); [by right|].
    destruct (Hv i Hi) as [x Hx]. rewrite (al_new _ _ _ _ _ _ _ HA p i Hp) in Hx by lia. done.
Qed.
Lemma allocated_dom lo m ps n slot k m' : allocated lo m ps n slot k m' → dom (bytes m) ⊆ dom (bytes m').
Proof.
  intros HA i. rewrite !elem_of_dom. intros Hi.
  destruct (decide (i < slot ∨ slot + k ≤ i)) as [Ho|Ho]; [|by apply (al_slot _ _ _ _ _ _ _ HA)].
  rewrite (allocated_same lo m ps n slot k m' i 1 HA).
  - done.
  - intros j Hj. by replace j with i by lia.
  - unfold apart. simpl. lia.
  - simpl. lia.
Qed.
Lemma allocated_apart lo m ps n slot k m' a b p :
  allocated lo m ps n slot k m' → 0 < b → 0 < n → valid b a (bytes m) → p ∈ ps → apart (a, b) (p, n).
Proof. intros HA Hb Hn Hv Hp. eapply apart_fresh; [done..|]. intros i Hi. by eapply al_new. Qed.

Section inv.
Context {lo : addr} {num_direct kind : N} {tiny_fl : addr}.
Implicit Types (m : mem) (p : addr) (live : list region) (free : list (list addr)).
#[local] Notation inv := (tiny_inv lo num_direct kind tiny_fl).

Lemma ti_index live free m i ps : inv live free m → free !! i = Some ps → (i < N.to_nat GC_TINY_FREELISTS)%nat.
Proof. intros HI Hi. rewrite <- (ti_length _ _ _ _ _ _ _ HI). by eapply lookup_lt_Some. Qed.

Lemma ti_entry_valid live free m i ps : inv live free m → free !! i = Some ps →
  valid 8 (tiny_fl + 8 * N.of_nat i) (bytes m).
Proof.
  intros HI Hi. pose proof (entry_in_array tiny_fl i (ti_index _ _ _ _ _ HI Hi)).
  intros j Hj. apply (ti_array _ _ _ _ _ _ _ HI). lia.
Qed.

(** What is apart: the array from the rest, the client's memory from the objects. *)
Lemma ti_apart_array live free m r : inv live free m → r ∈ live ++ free_regions 0 free →
  apart (array_region tiny_fl) r.
Proof. intros HI Hr. destruct (ti_separate _ _ _ _ _ _ _ HI) as [HF _]. by eapply Forall_forall in HF. Qed.
Lemma ti_apart_free live free m r s : inv live free m → r ∈ live → s ∈ free_regions 0 free → apart r s.
Proof.
  intros HI Hr Hs. destruct (ti_separate _ _ _ _ _ _ _ HI) as [_ HF].
  apply separate_app in HF as (_ & _ & HF). by apply HF.
Qed.

(** Memory that is the same on the array and the free objects keeps the
    invariant, whatever became of the client's memory. *)
Lemma ti_same live free m m' :
  inv live free m → same_on m m' (array_region tiny_fl) →
  (∀ r, r ∈ free_regions 0 free → same_on m m' r) →
  (∀ p, is_Some (blocks m !! p) → blocks m' !! p = blocks m !! p) →
  bytes_ok (bytes m') → (∀ p n, (p, n) ∈ live → valid n p (bytes m')) → inv live free m'.
Proof.
  intros HI Harr Hfree Hbl Hok Hlive. destruct HI as [L O A E S F C V]. split; try done.
  - intros i Hi. rewrite (Harr i Hi). by apply A.
  - intros i ps Hi. destruct (E i ps Hi) as (e & He & Heok). exists e. split.
    + eapply load_ptr_same; [|done].
      pose proof (entry_in_array tiny_fl i ltac:(rewrite <- L; by eapply lookup_lt_Some)).
      eapply same_on_sub; [exact Harr|lia|lia].
    + destruct Heok as [Hl|Hc]; [left|by right]. eapply linked_same; [|done]. intros q Hq.
      pose proof (free_regions_elem _ _ _ _ Hi Hq) as Hin. pose proof (osz_ge (N.of_nat i)).
      eapply same_on_sub; [by apply Hfree|lia|lia].
  - intros p n Hp. eapply heap_object_same; [| |by apply F].
    + intros i Hi. rewrite (Hfree _ Hp i Hi). by apply (F p n Hp).
    + apply Hbl. rewrite (ho_block _ _ _ _ (F p n Hp)). by eexists.
  - intros p n Hp Hk. eapply zeroed_same; [|by apply C]. pose proof (free_regions_size _ _ _ _ Hp).
    eapply same_on_sub; [by apply Hfree|lia|lia].
  - intros p n Hp. split; [by apply (V p n)|by apply Hlive].
Qed.

(** The client may write its own memory. *)
Lemma ti_client_write live free m m' r a k :
  inv live free m → r ∈ live → r.1 ≤ a → a + k ≤ r.1 + r.2 → wrote m a k m' → inv live free m'.
Proof.
  intros HI Hr Hl Hu Hw.
  assert (∀ s, apart r s → same_on m m' s) as Hs.
  { intros s Ha. apply (wrote_same m r.1 r.2); [by eapply wrote_sub|by destruct r]. }
  apply (ti_same _ _ _ _ HI).
  - apply Hs, apart_sym. eapply ti_apart_array; [done|]. apply elem_of_app. by left.
  - intros s Hin. apply Hs. by eapply ti_apart_free.
  - intros p _. by rewrite (wr_blocks _ _ _ _ Hw).
  - apply (wr_ok _ _ _ _ Hw), HI.
  - intros p n Hp. eapply wrote_valid; [done|]. by apply (ti_live _ _ _ _ _ _ _ HI).
Qed.

(** A new entry for list [i]: the objects on the lists keep their bytes, those
    that are new are cleared objects of the heap. *)
Lemma ti_update live live' free m m' i ps ps' e :
  inv live free m → free !! i = Some ps →
  (∀ j, (j < N.to_nat GC_TINY_FREELISTS)%nat → j ≠ i → same_on m m' (tiny_fl + 8 * N.of_nat j, 8)) →
  (∀ r, r ∈ free_regions 0 free → same_on m m' r) →
  dom (bytes m) ⊆ dom (bytes m') → bytes_ok (bytes m') →
  (∀ p, is_Some (blocks m !! p) → blocks m' !! p = blocks m !! p) →
  load_ptr (tiny_fl + 8 * N.of_nat i) m' = Some (e, m') → entry_ok m' num_direct (N.of_nat i) e ps' →
  separate (array_region tiny_fl :: live' ++ free_regions 0 (<[i:=ps']> free)) →
  (∀ p n, (p, n) ∈ free_regions 0 (<[i:=ps']> free) → (p, n) ∈ free_regions 0 free ∨
     heap_object lo m' p n ∧ (kind ≠ GC_I_PTRFREE → zeroed m' (p + 8) (n - 8))) →
  (∀ p n, (p, n) ∈ live' → 0 < n ∧ valid n p (bytes m')) →
  inv live' (<[i:=ps']> free) m'.
Proof.
  intros HI Hi Hother Hfree Hdom Hok Hbl Hload He Hsep Hnew Hlive.
  pose proof (ti_index _ _ _ _ _ HI Hi) as Hilt. destruct HI as [L O A E S F C V].
  assert (∀ k a, valid k a (bytes m) → valid k a (bytes m')) as Hvalid.
  { intros k a Hv j Hj. apply elem_of_dom, Hdom, elem_of_dom. by apply Hv. }
  split; try done.
  - by rewrite length_insert.
  - by apply Hvalid.
  - intros j qs Hj. destruct (decide (j = i)) as [->|Hji].
    { rewrite list_lookup_insert_eq in Hj by (by rewrite L). simplify_eq. by exists e. }
    rewrite list_lookup_insert_ne in Hj by done. destruct (E j qs Hj) as (e' & He' & Hok'). exists e'. split.
    + eapply load_ptr_same; [|done]. apply Hother; [|done]. rewrite <- L. by eapply lookup_lt_Some.
    + destruct Hok' as [Hl|Hc]; [left|by right]. eapply linked_same; [|done]. intros q Hq.
      pose proof (free_regions_elem _ _ _ _ Hj Hq) as Hin. pose proof (osz_ge (N.of_nat j)).
      eapply same_on_sub; [by apply Hfree|lia|lia].
  - intros p n Hp. destruct (Hnew p n Hp) as [Hold|[Hn _]]; [|done].
    eapply heap_object_same; [apply Hvalid, (F p n Hold)| |by apply F].
    apply Hbl. rewrite (ho_block _ _ _ _ (F p n Hold)). by eexists.
  - intros p n Hp Hk. destruct (Hnew p n Hp) as [Hold|[_ Hn]]; [|by apply Hn].
    eapply zeroed_same; [|by apply C]. pose proof (free_regions_size _ _ _ _ Hold).
    eapply same_on_sub; [by apply Hfree|lia|lia].
Qed.

(** Writing one entry. *)
Lemma ti_set_entry live live' free m m' i ps ps' e :
  inv live free m → free !! i = Some ps →
  wrote m (tiny_fl + 8 * N.of_nat i) 8 m' →
  load_ptr (tiny_fl + 8 * N.of_nat i) m' = Some (e, m') → entry_ok m' num_direct (N.of_nat i) e ps' →
  live ++ free_regions 0 free ≡ₚ live' ++ free_regions 0 (<[i:=ps']> free) →
  (∀ r, r ∈ free_regions 0 (<[i:=ps']> free) → r ∈ free_regions 0 free) →
  inv live' (<[i:=ps']> free) m'.
Proof.
  intros HI Hi Hw Hload He Hperm Hsub. pose proof (entry_in_array tiny_fl i (ti_index _ _ _ _ _ HI Hi)) as Hin.
  apply (ti_update live live' free m m' i ps ps' e); try done.
  - intros j Hj Hji. eapply wrote_same; [done|]. by apply entry_apart.
  - intros r Hr. eapply wrote_same; [done|]. assert (apart (array_region tiny_fl) r) as Ha.
    { eapply ti_apart_array; [done|]. apply elem_of_app. by right. }
    unfold apart, array_region in *. simpl in *. lia.
  - by rewrite (wr_dom _ _ _ _ Hw).
  - apply (wr_ok _ _ _ _ Hw), HI.
  - intros p _. by rewrite (wr_blocks _ _ _ _ Hw).
  - eapply separate_perm; [|apply HI]. by rewrite Hperm.
  - intros p n Hp. left. by apply Hsub.
  - intros p n Hp. assert ((p, n) ∈ live ++ free_regions 0 free) as Hold.
    { rewrite Hperm. apply elem_of_app. by left. }
    apply elem_of_app in Hold as [Hold|Hold].
    + destruct (ti_live _ _ _ _ _ _ _ HI p n Hold) as [H0 Hv]. split; [done|]. by eapply wrote_valid.
    + pose proof (free_regions_size _ _ _ _ Hold). split; [lia|].
      eapply wrote_valid; [done|]. by apply (ti_free _ _ _ _ _ _ _ HI).
Qed.

(** Taking the first object of list [i]: it becomes memory of the client. *)
Lemma ti_pop live free m m' i p ps next :
  inv live free m → free !! i = Some (p :: ps) → linked m next ps →
  wrote m (tiny_fl + 8 * N.of_nat i) 8 m' → load_ptr (tiny_fl + 8 * N.of_nat i) m' = Some (next, m') →
  inv ((p, osz (N.of_nat i)) :: live) (<[i:=ps]> free) m'.
Proof.
  intros HI Hi Hn Hw Hl. destruct (free_regions_lookup free i (p :: ps) 0 Hi) as (A & HA & HA').
  pose proof (entry_in_array tiny_fl i (ti_index _ _ _ _ _ HI Hi)) as Hin.
  apply (ti_set_entry live _ free m m' i (p :: ps) ps next); try done.
  - left. eapply linked_same; [|done]. intros q Hq. eapply wrote_same; [done|].
    assert (apart (array_region tiny_fl) (q, osz (N.of_nat i))) as Ha.
    { eapply ti_apart_array; [done|]. apply elem_of_app. right. apply (free_regions_elem _ _ _ _ Hi). by right. }
    pose proof (osz_ge (N.of_nat i)). unfold apart, array_region in *. simpl in *. lia.
  - rewrite HA, HA'. simpl. solve_Permutation.
  - intros r. rewrite HA, HA'. simpl. intros Hr. by right.
Qed.

(** Raising a counter. *)
Lemma ti_count live free m m' i e :
  inv live free m → free !! i = Some [] → e ≤ num_direct + N.of_nat i + 1 →
  wrote m (tiny_fl + 8 * N.of_nat i) 8 m' → load_ptr (tiny_fl + 8 * N.of_nat i) m' = Some (e, m') →
  inv live free m'.
Proof.
  intros HI Hi He Hw Hl. rewrite <- (list_insert_id free i [] Hi).
  apply (ti_set_entry live live free m m' i [] [] e); try done.
  - by right.
  - by rewrite list_insert_id.
  - by rewrite list_insert_id.
Qed.

(** Every region the invariant speaks of is in use. *)
Lemma ti_region live free m r : inv live free m → r ∈ array_region tiny_fl :: live ++ free_regions 0 free →
  0 < r.2 ∧ valid r.2 r.1 (bytes m).
Proof.
  intros HI. destruct r as [p n]. rewrite elem_of_cons, elem_of_app. intros [[= -> ->]|[Hr|Hr]].
  - split; [done|apply HI].
  - by apply (ti_live _ _ _ _ _ _ _ HI).
  - pose proof (free_regions_size _ _ _ _ Hr). simpl. split; [lia|]. by apply (ti_free _ _ _ _ _ _ _ HI).
Qed.

(** New objects are apart from every region. *)
Lemma ti_fresh live free m m' ps n slot k :
  inv live free m → allocated lo m ps n slot k m' → 0 < n →
  ∀ r s, r ∈ array_region tiny_fl :: live ++ free_regions 0 free → s ∈ (λ p, (p, n)) <$> ps → apart r s.
Proof.
  intros HI HA Hn [a b] s Hr Hs. apply list_elem_of_fmap in Hs as (p & -> & Hp).
  destruct (ti_region _ _ _ _ HI Hr). by eapply allocated_apart.
Qed.

(** A list without objects gets the objects of a refill. *)
Lemma ti_refill live free m m' i e ps :
  inv live free m → free !! i = Some [] →
  allocated lo m ps (osz (N.of_nat i)) (tiny_fl + 8 * N.of_nat i) 8 m' →
  load_ptr (tiny_fl + 8 * N.of_nat i) m' = Some (e, m') → linked m' e ps →
  (kind ≠ GC_I_PTRFREE → ∀ q, q ∈ ps → zeroed m' (q + 8) (osz (N.of_nat i) - 8)) →
  inv live (<[i:=ps]> free) m'.
Proof.
  intros HI Hi HA Hl Hlk Hz. destruct (free_regions_lookup free i [] 0 Hi) as (A & HP & HP'). rewrite N.add_0_l in HP, HP'.
  pose proof (entry_in_array tiny_fl i (ti_index _ _ _ _ _ HI Hi)) as Hin. pose proof (osz_ge (N.of_nat i)) as Hosz.
  assert (∀ r, r ∈ live ++ free_regions 0 free → same_on m m' r) as Hsame.
  { intros [a b] Hr. eapply allocated_same; [done|exact (proj2 (ti_region _ _ _ (a, b) HI ltac:(by right)))|].
    pose proof (ti_apart_array _ _ _ _ HI Hr) as Ha. unfold apart, array_region in *. simpl in *. lia. }
  apply (ti_update live live free m m' i [] ps e); try done.
  - intros j Hj Hji. eapply allocated_same; [done| |by apply entry_apart].
    intros x Hx. apply (ti_array _ _ _ _ _ _ _ HI). pose proof (entry_in_array tiny_fl j Hj). lia.
  - intros r Hr. apply Hsame. apply elem_of_app. by right.
  - by eapply allocated_dom.
  - eapply al_ok; [done|apply HI].
  - intros p Hp. by eapply al_blocks.
  - by left.
  - eapply separate_perm with ((array_region tiny_fl :: live ++ free_regions 0 free) ++ list_regions (N.of_nat i) ps).
    { rewrite HP, HP'. simpl. solve_Permutation. }
    apply separate_app. split; [apply HI|]. split; [eapply al_separate; exact HA|].
    eapply ti_fresh; [done|exact HA|lia].
  - intros p n. rewrite HP, HP'. unfold list_regions. simpl. rewrite elem_of_app. intros [Hp|Hp]; [|by left].
    apply list_elem_of_fmap in Hp as (q & [= -> ->] & Hq). right. split; [by eapply al_objects|].
    intros Hk. by apply Hz.
  - intros p n Hp. destruct (ti_live _ _ _ _ _ _ _ HI p n Hp) as [H0 Hv]. split; [done|].
    intros x Hx. apply elem_of_dom. eapply allocated_dom; [done|]. apply elem_of_dom. by apply Hv.
Qed.

(** An object allocated otherwise becomes memory of the client. *)
Lemma ti_alloc live free m m' p n :
  inv live free m → 0 < n → allocated lo m [p] n 0 0 m' → inv ((p, n) :: live) free m'.
Proof.
  intros HI Hn HA.
  assert (∀ r, r ∈ array_region tiny_fl :: live ++ free_regions 0 free → same_on m m' r) as Hsame.
  { intros [a b] Hr. eapply allocated_same; [done|exact (proj2 (ti_region _ _ _ (a, b) HI Hr))|]. left. simpl. lia. }
  assert (inv live free m') as HI'.
  { apply (ti_same live free m m' HI).
    - apply Hsame. by left.
    - intros r Hr. apply Hsame. right. apply elem_of_app. by right.
    - intros q Hq. by eapply al_blocks.
    - eapply al_ok; [done|apply HI].
    - intros q k Hq x Hx. apply elem_of_dom. eapply allocated_dom; [done|]. apply elem_of_dom.
      by apply (ti_live _ _ _ _ _ _ _ HI q k Hq). }
  split; try apply HI'.
  - eapply separate_perm with ((array_region tiny_fl :: live ++ free_regions 0 free) ++ [(p, n)]); [solve_Permutation|].
    apply separate_app. split; [apply HI|]. split; [simpl; by split|].
    eapply (ti_fresh live free m m' [p]); done.
  - intros q k [[= -> ->]|Hq]%elem_of_cons.
    + split; [done|]. apply (al_objects _ _ _ _ _ _ _ HA). by left.
    + by apply (ti_live _ _ _ _ _ _ _ HI').
Qed.
End inv.
