(* ===== verification/GcInlineTheorems.v ===== *)
(** * Theorems on the inline allocator

    What GC_FAST_MALLOC_GRANS, GC_MALLOC_WORDS and GC_CONS of gc_inline.h
    return and leave behind, and the refinement: a client that allocates,
    reads and writes through them sees objects that are apart from each other
    and keep what was written to them. *)
From S2P Require Import Prelude CLayout UvTypes Memory UvUtil GcInline GcInlineRep.
#[local] Open Scope N_scope.

Section fast_malloc.
Context `{TinyCollector} {NDEBUG : bool} {num_direct kind : N} {tiny_fl : addr}.
Context {default_expr : ST mem addr} {init : addr → ST mem unit} {dsize : N}.
Context {I : addr → mem → Prop}.
Implicit Types (m : mem) (p : addr) (live : list region) (free : list (list addr)).
#[local] Notation lo := GC_least_plausible_heap_addr.
#[local] Notation inv := (tiny_inv lo num_direct kind tiny_fl).

(** The counters stay below the addresses of objects, and in the signed range. *)
Hypothesis direct_small : num_direct + GC_TINY_FREELISTS + 1 < N.min lo (2 ^ 63).
(** [init] writes the first word of the object only and establishes [I]. *)
Hypothesis init_spec : ∀ m p, valid 8 p (bytes m) → wp (init p) m (λ _ m', wrote m p 8 m' ∧ I p m').
(** [default_expr] allocates [dsize] bytes, where it is used. *)
Definition default_spec (granules : N) : Prop :=
  GC_TINY_FREELISTS ≤ granules ∨ 0 < num_direct →
  0 < dsize ∧ ∀ m, bytes_ok (bytes m) → wp default_expr m (λ p m', (p = NULLP ∧ m' = m) ∨
    (allocated lo m [p] dsize 0 0 m' ∧ (kind ≠ GC_I_PTRFREE → zeroed m' p dsize))).

(** The result: NULL, or an object that is now the client's.  The memory the
    client had is unchanged. *)
Definition fast_malloc_post (granules : N) live m (p : addr) (m' : mem) : Prop :=
  (∀ r, r ∈ live → same_on m m' r) ∧
  ((p = NULLP ∧ ∃ free', inv live free' m') ∨
   (∃ n free', heap_object lo m' p n ∧ inv ((p, n) :: live) free' m' ∧
     ((granules < GC_TINY_FREELISTS ∧ n = osz granules ∧ I p m' ∧
       (kind ≠ GC_I_PTRFREE → zeroed m' (p + 8) (n - 8))) ∨
      ((GC_TINY_FREELISTS ≤ granules ∨ 0 < num_direct) ∧ n = dsize ∧
       (kind ≠ GC_I_PTRFREE → zeroed m' p n))))).

Lemma wp_assert (e : ST mem bool) m (Q : unit → mem → Prop) :
  wp e m (λ b m', b = true ∧ m' = m) → Q tt m → wp (GC_ASSERT NDEBUG e) m Q.
Proof.
  intros He HQ. unfold GC_ASSERT. destruct NDEBUG; [by apply wp_ret|]. apply wp_bind.
  eapply wp_mono; [exact He|]. intros b m' [-> ->]. by apply wp_ret.
Qed.

Lemma default_ok granules live free m :
  default_spec granules → GC_TINY_FREELISTS ≤ granules ∨ 0 < num_direct → inv live free m →
  wp default_expr m (fast_malloc_post granules live m).
Proof.
  intros Hd Hg HI. destruct (Hd Hg) as [H0 Hspec].
  eapply wp_mono; [apply Hspec, HI|]. intros p m' [[-> ->]|[HA Hz]].
  - split; [by intros r _ i _|]. left. split; [done|]. by exists free.
  - split.
    { intros [a b] Hr. eapply allocated_same; [exact HA|by apply (ti_live _ _ _ _ _ _ _ HI)|]. left. simpl. lia. }
    right. exists dsize, free. split; [eapply al_objects; [exact HA|by left]|]. split; [by eapply ti_alloc|]. by right.
Qed.

Lemma low_word : word (num_direct + GC_TINY_FREELISTS + 1) = num_direct + GC_TINY_FREELISTS + 1.
Proof. unfold word. apply N.mod_small. unfold SIZE_MAX1. lia. Qed.

(** What follows the initialisation does not change the memory, and the
    assertions hold. *)
Lemma finish_ok granules p m :
  heap_object lo m p (osz granules) → (kind ≠ GC_I_PTRFREE → zeroed m (p + 8) (osz granules - 8)) →
  ∀ my_fl, wp (c_when (negb (kind =? GC_I_PTRFREE)) (GC_end_stubborn_change my_fl);;
    GC_ASSERT NDEBUG (sz ← GC_size p; mret (word (granules * GC_GRANULE_BYTES) <=? sz));;
    GC_ASSERT NDEBUG (if kind =? GC_I_PTRFREE then mret true
                      else w ← load_ptr (p + 8); mret (w =? 0));;
    mret p) m (λ q m', q = p ∧ m' = m).
Proof.
  intros HO Hz my_fl. pose proof (osz_ge granules). apply wp_bind.
  apply wp_mono with (Q := λ _ m', m' = m).
  { apply wp_when. destruct (negb (kind =? GC_I_PTRFREE)); [apply GC_end_stubborn_change_spec|done]. }
  intros [] m' ->. apply wp_bind, wp_assert.
  - apply wp_bind. eapply wp_mono; [apply (GC_size_spec p), (ho_block _ _ _ _ HO)|]. intros sz m3 [Hsz ->].
    apply wp_ret. split; [|done]. apply N.leb_le. etrans; [|exact Hsz].
    unfold word. etrans; [apply N.Div0.mod_le|]. unfold osz. by destruct (N.eqb_spec granules 0) as [->|].
  - apply wp_bind, wp_assert; [|by apply wp_ret]. destruct (N.eqb_spec kind GC_I_PTRFREE) as [|Hk]; [by apply wp_ret|].
    apply wp_bind. apply (wp_load_ptr_known _ 0); [|by apply wp_ret]. apply load_ptr_zeroed.
    eapply zeroed_sub; [by apply Hz|lia|lia].
Qed.

(** The first object of a list is taken. *)
Lemma pop_ok fuel (i : nat) p ps live free m :
  inv live free m → free !! i = Some (p :: ps) → linked m p (p :: ps) →
  wp (fast_malloc_loop NDEBUG (S fuel) (N.of_nat i) num_direct kind default_expr init
        (tiny_fl + 8 * N.of_nat i) p) m (fast_malloc_post (N.of_nat i) live m).
Proof.
  intros HI Hi (_ & next & Hnext & Hlk). pose proof (free_regions_elem _ _ _ p Hi ltac:(by left)) as Hin.
  pose proof (ti_free _ _ _ _ _ _ _ HI _ _ Hin) as HO. pose proof (osz_ge (N.of_nat i)) as Hosz.
  pose proof (ho_low _ _ _ _ HO). pose proof (ti_index _ _ _ _ _ HI Hi) as Hlt.
  cbn [fast_malloc_loop]. rewrite low_word.
  destruct (N.ltb_spec (num_direct + GC_TINY_FREELISTS + 1) p); [|lia].
  apply wp_bind. eapply wp_load_ptr_known; [exact Hnext|].
  apply wp_bind, wp_store_ptr; [by eapply ti_entry_valid|]. intros m1 Hw1 Hl1.
  assert (next < SIZE_MAX1) as Hnlt.
  { destruct ps as [|q ps]; [by rewrite Hlk|]. destruct Hlk as [-> _].
    pose proof (free_regions_elem _ _ _ q Hi ltac:(right; by left)) as Hq.
    pose proof (ho_range _ _ _ _ (ti_free _ _ _ _ _ _ _ HI _ _ Hq)). lia. }
  specialize (Hl1 Hnlt). pose proof (ti_pop _ _ _ _ _ _ _ _ HI Hi Hlk Hw1 Hl1) as HI1.
  apply wp_bind. eapply wp_mono.
  { apply init_spec. eapply wrote_valid; [exact Hw1|]. intros j Hj. apply (ho_valid _ _ _ _ HO). lia. }
  intros [] m2 [Hw2 HI2].
  assert (inv ((p, osz (N.of_nat i)) :: live) (<[i:=ps]> free) m2) as HInv2.
  { apply (ti_client_write _ _ m1 m2 (p, osz (N.of_nat i)) p 8 HI1); [by left|cbn [fst snd]; lia..|exact Hw2]. }
  assert (heap_object lo m2 p (osz (N.of_nat i))) as HO2.
  { eapply heap_object_same; [| |exact HO].
    - eapply wrote_valid; [exact Hw2|]. eapply wrote_valid; [exact Hw1|]. apply HO.
    - by rewrite (wr_blocks _ _ _ _ Hw2), (wr_blocks _ _ _ _ Hw1). }
  assert (apart (tiny_fl + 8 * N.of_nat i, 8) (p, osz (N.of_nat i))) as Hap.
  { assert (apart (array_region tiny_fl) (p, osz (N.of_nat i))) as Ha.
    { eapply ti_apart_array; [exact HI|]. apply elem_of_app. by right. }
    pose proof (entry_in_array tiny_fl i Hlt). unfold apart, array_region in *. simpl in *. lia. }
  assert (kind ≠ GC_I_PTRFREE → zeroed m2 (p + 8) (osz (N.of_nat i) - 8)) as Hz2.
  { intros Hk. eapply zeroed_same; [|eapply zeroed_same; [|by apply (ti_clear _ _ _ _ _ _ _ HI)]].
    - eapply wrote_same; [exact Hw2|]. left. simpl. lia.
    - eapply wrote_same; [exact Hw1|]. unfold apart in *. simpl in *. lia. }
  eapply wp_mono; [by apply finish_ok|]. intros q m' [-> ->]. split.
  - intros r Hr j Hj. rewrite (wrote_same m1 p 8 m2 r Hw2), (wrote_same m _ 8 m1 r Hw1); try done.
    + assert (apart (array_region tiny_fl) r) as Ha by (eapply ti_apart_array; [exact HI|]; apply elem_of_app; by left).
      pose proof (entry_in_array tiny_fl i Hlt). unfold apart, array_region in *. simpl in *. lia.
    + pose proof (ti_apart_free _ _ _ _ _ HI Hr Hin) as Ha. unfold apart in *. cbn [fst snd] in *. lia.
  - right. exists (osz (N.of_nat i)), (<[i:=ps]> free). split; [done|]. split; [done|]. left.
    split; [lia|]. done.
Qed.

(** A small counter is raised and the object allocated otherwise. *)
Lemma count_ok fuel (i : nat) e live free m :
  default_spec (N.of_nat i) → inv live free m → free !! i = Some [] → 0 < e ≤ num_direct →
  wp (fast_malloc_loop NDEBUG (S fuel) (N.of_nat i) num_direct kind default_expr init
        (tiny_fl + 8 * N.of_nat i) e) m (fast_malloc_post (N.of_nat i) live m).
Proof.
  intros Hd HI Hi He. pose proof (ti_index _ _ _ _ _ HI Hi) as Hlt. unfold GC_TINY_FREELISTS in Hlt.
  cbn [fast_malloc_loop]. rewrite low_word.
  destruct (N.ltb_spec (num_direct + GC_TINY_FREELISTS + 1) e); [lia|]. unfold signed_word.
  rewrite !(proj2 (N.ltb_lt _ _)) by (change (2 ^ 63) with 9223372036854775808 in *; lia).
  rewrite (proj2 (Z.leb_le _ _)) by lia. rewrite (proj2 (N.eqb_neq _ _)) by (unfold NULLP; lia).
  assert (word (e + N.of_nat i + 1) = e + N.of_nat i + 1) as ->.
  { apply N.mod_small. unfold SIZE_MAX1, GC_TINY_FREELISTS in *. lia. }
  apply wp_bind, wp_store_ptr; [by eapply ti_entry_valid|]. intros m1 Hw1 Hl1.
  assert (inv live free m1) as HI1.
  { eapply ti_count with (i := i); [exact HI|exact Hi| |exact Hw1|apply Hl1]; unfold SIZE_MAX1, GC_TINY_FREELISTS in *; lia. }
  eapply wp_mono; [apply (default_ok _ _ _ _ Hd ltac:(right; lia) HI1)|].
  intros p m' [Hs Hp]. split; [|exact Hp]. intros r Hr j Hj. rewrite (Hs r Hr j Hj).
  eapply (wrote_same m _ 8 m1 r Hw1); [|done].
  assert (apart (array_region tiny_fl) r) as Ha by (eapply ti_apart_array; [exact HI|]; apply elem_of_app; by left).
  unfold apart, array_region, GC_TINY_FREELISTS in *. simpl in *. lia.
Qed.

(** Without a small counter the list is refilled, and the second round takes
    an object from it. *)
Lemma refill_ok fuel (i : nat) e live free m :
  inv live free m → free !! i = Some [] → e = 0 ∨ num_direct < e ≤ num_direct + N.of_nat i + 1 →
  wp (fast_malloc_loop NDEBUG (S (S fuel)) (N.of_nat i) num_direct kind default_expr init
        (tiny_fl + 8 * N.of_nat i) e) m (fast_malloc_post (N.of_nat i) live m).
Proof.
  intros HI Hi He. pose proof (ti_index _ _ _ _ _ HI Hi) as Hlt.
  remember (S fuel) as fuel' eqn:Hfuel. cbn [fast_malloc_loop]. rewrite low_word.
  destruct (N.ltb_spec (num_direct + GC_TINY_FREELISTS + 1) e); [unfold GC_TINY_FREELISTS in *; lia|].
  assert ((signed_word e - signed_word num_direct <=? 0)%Z && negb (e =? NULLP) = false) as ->.
  { destruct He as [->|He]; [apply andb_false_r|]. apply andb_false_iff. left. apply Z.leb_gt. unfold signed_word.
    unfold GC_TINY_FREELISTS in Hlt.
    rewrite !(proj2 (N.ltb_lt _ _)) by (unfold GC_TINY_FREELISTS in *; change (2 ^ 63) with 9223372036854775808 in *; lia). lia. }
  assert ((if N.of_nat i =? 0 then GC_GRANULE_BYTES else GC_RAW_BYTES_FROM_INDEX (N.of_nat i)) = osz (N.of_nat i)) as ->.
  { unfold osz, GC_RAW_BYTES_FROM_INDEX, word. destruct (N.of_nat i =? 0); [done|].
    apply N.mod_small. unfold GC_GRANULE_BYTES, SIZE_MAX1, GC_TINY_FREELISTS in *. lia. }
  apply wp_bind. eapply wp_mono.
  { apply GC_generic_malloc_many_spec; [by eapply ti_entry_valid|apply HI]. }
  intros [] m1 (p & ps & HA & Hl & Hlk & Hz).
  pose proof (ti_refill _ _ _ _ _ _ _ HI Hi HA Hl Hlk Hz) as HI1.
  assert (∀ r, r ∈ live → same_on m m1 r) as Hsame.
  { intros [a b] Hr. eapply allocated_same; [exact HA|by apply (ti_live _ _ _ _ _ _ _ HI)|].
    assert (apart (array_region tiny_fl) (a, b)) as Ha by (eapply ti_apart_array; [exact HI|]; apply elem_of_app; by left).
    unfold apart, array_region, GC_TINY_FREELISTS in *. simpl in *. lia. }
  apply wp_bind. eapply wp_load_ptr_known; [exact Hl|]. destruct ps as [|q ps].
  - simpl in Hlk. subst p. simpl. eapply wp_mono; [apply GC_oom_fn_spec|]. intros p m' [-> ->].
    split; [done|]. left. split; [done|]. by eexists.
  - pose proof (al_objects _ _ _ _ _ _ _ HA q ltac:(by left)) as HO. pose proof (proj1 Hlk) as ->.
    pose proof (ho_low _ _ _ _ HO). pose proof GC_least_plausible_pos.
    rewrite (proj2 (N.eqb_neq _ _)) by (unfold NULLP; lia). subst fuel'.
    eapply wp_mono.
    { apply (pop_ok fuel i q ps live (<[i:=q :: ps]> free)); [exact HI1| |exact Hlk].
      apply list_lookup_insert_eq. by rewrite (ti_length _ _ _ _ _ _ _ HI). }
    intros p' m' [Hs Hp]. split; [|exact Hp]. intros r Hr j Hj. by rewrite (Hs r Hr j Hj), (Hsame r Hr j Hj).
Qed.

Lemma fast_malloc_ok granules live free m :
  default_spec granules → inv live free m →
  wp (GC_FAST_MALLOC_GRANS NDEBUG granules tiny_fl num_direct kind default_expr init) m
    (fast_malloc_post granules live m).
Proof.
  intros Hd HI. unfold GC_FAST_MALLOC_GRANS. destruct (N.leb_spec GC_TINY_FREELISTS granules) as [Hg|Hg].
  { apply (default_ok _ _ _ _ Hd ltac:(by left) HI). }
  rewrite <- (N2Nat.id granules). set (i := N.to_nat granules).
  destruct (free !! i) as [ps|] eqn:Hi.
  2:{ apply lookup_ge_None in Hi. rewrite (ti_length _ _ _ _ _ _ _ HI) in Hi. subst i. lia. }
  destruct (ti_entries _ _ _ _ _ _ _ HI i ps Hi) as (e & He & Hok).
  apply wp_bind. eapply wp_load_ptr_known; [exact He|].
  assert (ps = [] → e ≤ num_direct + N.of_nat i + 1) as Hcount.
  { intros ->. destruct Hok as [->|[_ ?]]; [unfold NULLP; lia|done]. }
  destruct ps as [|p ps].
  - specialize (Hcount eq_refl). destruct (decide (0 < e ≤ num_direct)).
    + eapply count_ok; [|exact HI|exact Hi|done]. subst i. by rewrite N2Nat.id.
    + eapply refill_ok; [exact HI|exact Hi|lia].
  - destruct Hok as [Hlk|[? _]]; [|done]. pose proof (proj1 Hlk) as ->. by apply (pop_ok 1 i p ps live free).
Qed.
End fast_malloc.

(** ** The allocation macros *)

(** The bytes of an object of [n] words. *)
Definition words_size (n : N) : N := osz ((n + 1) / 2).

Lemma words_size_ge n : 8 * n ≤ words_size n.
Proof.
  unfold words_size, osz, GC_GRANULE_BYTES. pose proof (N.div_mod (n + 1) 2 ltac:(done)).
  pose proof (N.mod_lt (n + 1) 2 ltac:(done)). destruct (N.eqb_spec ((n + 1) / 2) 0); lia.
Qed.
Lemma whole_granules n : n + 1 < SIZE_MAX1 → GC_WORDS_TO_WHOLE_GRANULES n = (n + 1) / 2.
Proof.
  intros Hn. unfold GC_WORDS_TO_WHOLE_GRANULES, GC_WORDS_TO_GRANULES, GC_GRANULE_WORDS, word. simpl.
  replace (n + 2 - 1) with (n + 1) by lia. rewrite N.mod_small by done.
  by rewrite N.shiftr_div_pow2.
Qed.

Lemma load_bytes_lookup n a h bs i x :
  load_bytes n a h = Some bs → bs !! i = Some x → h !! (a + N.of_nat i) = Some x.
Proof.
  revert a bs i. induction n as [|n IH]; intros a bs i; simpl; [by intros [= <-]|].
  destruct (h !! a) as [b|] eqn:Hb; [|done]. simpl.
  destruct (load_bytes n (a + 1) h) as [bs'|] eqn:Hbs; [|done]. simpl. intros [= <-].
  destruct i as [|i]; simpl; [intros [= <-]; by rewrite N.add_0_r|].
  intros Hx. rewrite <- (IH _ _ _ Hbs Hx). f_equal. lia.
Qed.
Lemma wp_clear_link p m : valid 8 p (bytes m) → wp (clear_link p) m (λ _ m', wrote m p 8 m' ∧ zeroed m' p 8).
Proof.
  intros Hv. destruct (store_bytes_spec (le_split 8 0) p (bytes m)) as (h' & Hst & Hout & Hld & Hdom); [done|].
  unfold clear_link, store_ptr, store. change (Z.of_N 0) with 0%Z.
  eapply wp_mod; [cbv beta; by rewrite Hst|]. split; [split; try done|].
  - intros Hok. eapply store_bytes_ok; [exact Hst|apply le_split_bytes|done].
  - intros i Hi. simpl. replace i with (p + N.of_nat (N.to_nat (i - p))) by lia.
    eapply load_bytes_lookup; [exact Hld|]. change (le_split 8 0) with (replicate 8 0%Z).
    apply lookup_replicate_2. lia.
Qed.
Lemma zeroed_app m p n k : zeroed m p n → zeroed m (p + n) (k - n) → zeroed m p k.
Proof. intros H1 H2 i Hi. destruct (decide (i < p + n)); [apply H1|apply H2]; lia. Qed.

Section macros.
Context `{TinyCollector} {NDEBUG : bool} {tiny_fl : addr}.
Implicit Types (m : mem) (p : addr) (live : list region) (free : list (list addr)).
#[local] Notation lo := GC_least_plausible_heap_addr.

(** Objects lie above the values of a cleared entry's counters. *)
Hypothesis heap_high : GC_TINY_FREELISTS + 1 < lo.

(** The result of an allocation of [size] bytes that establishes [Q] of the
    object: NULL, or an object of the client's own. *)
Definition malloc_post (kind size : N) (Q : addr → mem → Prop) live m (p : addr) (m' : mem) : Prop :=
  (∀ r, r ∈ live → same_on m m' r) ∧
  ((p = NULLP ∧ ∃ free', tiny_inv lo 0 kind tiny_fl live free' m') ∨
   (heap_object lo m' p size ∧ Q p m' ∧ ∃ free', tiny_inv lo 0 kind tiny_fl ((p, size) :: live) free' m')).

Lemma malloc_words_kind_ok n kind init (I Q : addr → mem → Prop) live free m :
  n + 1 < 2 ^ 61 →
  (∀ m p, valid 8 p (bytes m) → wp (init p) m (λ _ m', wrote m p 8 m' ∧ I p m')) →
  (∀ m p, I p m → (kind ≠ GC_I_PTRFREE → zeroed m (p + 8) (words_size n - 8)) → Q p m) →
  (∀ m p, (kind ≠ GC_I_PTRFREE → zeroed m p (words_size n)) → GC_TINY_FREELISTS ≤ (n + 1) / 2 → Q p m) →
  tiny_inv lo 0 kind tiny_fl live free m →
  wp (GC_MALLOC_WORDS_KIND NDEBUG n tiny_fl kind init) m (malloc_post kind (words_size n) Q live m).
Proof.
  intros Hn Hinit HI HD Hinv. unfold GC_MALLOC_WORDS_KIND. rewrite whole_granules by (unfold SIZE_MAX1; lia).
  set (g := (n + 1) / 2). assert (g ≤ n + 1) as Hg by (apply N.Div0.div_le_upper_bound; lia).
  assert (g * 16 < SIZE_MAX1) as Hg16.
  { pose proof (N.Div0.mul_div_le (n + 1) 2) as Hmd. fold g in Hmd. unfold SIZE_MAX1. lia. }
  assert (GC_TINY_FREELISTS ≤ g → word (g * GC_GRANULE_BYTES) = osz g) as Hsize.
  { unfold word, osz, GC_GRANULE_BYTES, GC_TINY_FREELISTS. intros Hle. rewrite N.mod_small by done.
    by rewrite (proj2 (N.eqb_neq _ _)) by lia. }
  eapply wp_mono; [eapply (fast_malloc_ok (dsize := word (g * GC_GRANULE_BYTES)) (I := I)) with (free := free)|].
  - unfold GC_TINY_FREELISTS in *. lia.
  - exact Hinit.
  - intros [Hle|?]; [|lia]. split; [rewrite (Hsize Hle); pose proof (osz_ge g); lia|]. intros m1. apply GC_malloc_kind_spec.
  - exact Hinv.
  - intros p m' [Hs [Hnull|(k & free' & HO & Hi & Hcase)]]; (split; [exact Hs|]); [by left|]. right.
    destruct Hcase as [(_ & -> & HIp & Hz)|([Hle|?] & Hk & Hz)]; [| |lia].
    + split; [done|]. split; [by apply HI|]. by exists free'.
    + rewrite Hk, (Hsize Hle) in *. split; [done|]. split; [by apply HD|]. by exists free'.
Qed.

Lemma GC_MALLOC_WORDS_ok n live free m :
  n + 1 < 2 ^ 61 → tiny_inv lo 0 GC_I_NORMAL tiny_fl live free m →
  wp (GC_MALLOC_WORDS NDEBUG n tiny_fl) m
    (malloc_post GC_I_NORMAL (words_size n) (λ p m', zeroed m' p (words_size n)) live m).
Proof.
  intros Hn HI. pose proof (osz_ge ((n + 1) / 2)) as Hsize. fold (words_size n) in Hsize.
  apply malloc_words_kind_ok with (I := λ p m', zeroed m' p 8) (free := free); try done.
  - intros m1 p Hv. by apply wp_clear_link.
  - intros m1 p H8 Hz. eapply zeroed_app; [exact H8|by apply Hz].
  - intros m1 p Hz _. by apply Hz.
Qed.

Lemma GC_CONS_ok first second live free m :
  first < SIZE_MAX1 → second < SIZE_MAX1 → tiny_inv lo 0 GC_I_NORMAL tiny_fl live free m →
  wp (GC_CONS NDEBUG first second tiny_fl) m
    (malloc_post GC_I_NORMAL 16 (λ p m', load_ptr p m' = Some (first, m') ∧
       load_ptr (p + 8) m' = Some (second, m')) live m).
Proof.
  intros H1 H2 HI. unfold GC_CONS. apply wp_bind. eapply wp_mono.
  { apply malloc_words_kind_ok with (I := λ _ _, True) (Q := λ _ _, True) (free := free); try done.
    intros m1 p _. apply wp_ret. split; [apply wrote_refl|done]. }
  intros p m1 [Hs [[-> Hnull]|(HO & _ & free' & HI1)]].
  - apply wp_bind, wp_when. simpl. apply wp_ret. split; [exact Hs|]. by left.
  - change (words_size 2) with 16 in *. pose proof (ho_low _ _ _ _ HO).
    apply wp_bind, wp_when. rewrite (proj2 (N.eqb_neq _ _)) by (unfold NULLP; lia). simpl.
    apply wp_bind, wp_store_ptr; [intros j Hj; apply (ho_valid _ _ _ _ HO); lia|]. intros m2 Hw2 Hl2.
    apply GC_ptr_store_and_dirty_spec, wp_store_ptr.
    { eapply wrote_valid; [exact Hw2|]. intros j Hj. apply (ho_valid _ _ _ _ HO). lia. }
    intros m3 Hw3 Hl3. apply wp_ret.
    assert (wrote m1 p 16 m3) as Hw.
    { eapply wrote_trans; eapply wrote_sub; first [exact Hw2|exact Hw3|lia]. }
    split; [|right; split; [|split; [split|]]].
    + intros r Hr j Hj. rewrite (wrote_same m1 p 16 m3 r Hw); [exact (Hs r Hr j Hj)| |done].
      pose proof (ti_separate _ _ _ _ _ _ _ HI1) as [_ [HF _]]. rewrite Forall_app, !Forall_forall in HF.
      exact (proj1 HF r Hr).
    + eapply heap_object_same; [|by rewrite (wr_blocks _ _ _ _ Hw)|exact HO]. eapply wrote_valid; [exact Hw|apply HO].
    + eapply load_ptr_same; [|by apply Hl2]. eapply wrote_same; [exact Hw3|]. right. simpl. lia.
    + by apply Hl3.
    + exists free'. apply (ti_client_write _ _ m1 m3 (p, 16) p 16 HI1); [by left|simpl; lia|simpl; lia|exact Hw].
Qed.
End macros.

(** ** The client's view *)

(** Objects with the words they hold. *)
Abbreviation heap := (gmap addr (list N)).
Definition heap_regions (h : heap) : list region :=
  (λ o : addr * list N, (o.1, 8 * N.of_nat (length o.2))) <$> map_to_list h.

(** What a client does: allocate, write and read a word of an object. *)
Inductive op :=
  | MallocWords (n : N)
  | Cons (first second : N)
  | SetWord (p : addr) (i : nat) (v : N)
  | GetWord (p : addr) (i : nat).

(** Sizes of an address space, words of 64 bits, and words inside objects. *)
Definition op_ok (h : heap) (o : op) : Prop :=
  match o with
  | MallocWords n => n + 1 < 2 ^ 61
  | Cons a b => a < SIZE_MAX1 ∧ b < SIZE_MAX1
  | SetWord p i v => (∃ ws, h !! p = Some ws ∧ (i < length ws)%nat) ∧ v < SIZE_MAX1
  | GetWord p i => ∃ ws, h !! p = Some ws ∧ (i < length ws)%nat
  end.

(** A new object of the contents [ws], apart from every other. *)
Definition new_object (h : heap) (p : addr) (ws : list N) : Prop :=
  p ≠ NULLP ∧ (16 | p) ∧ p + 8 * N.of_nat (length ws) < SIZE_MAX1 ∧ h !! p = None ∧
  Forall (apart (p, 8 * N.of_nat (length ws))) (heap_regions h).

(** The abstract allocator. *)
Inductive heap_step (h : heap) : op → N → heap → Prop :=
  | step_null o : (∃ n, o = MallocWords n) ∨ (∃ a b, o = Cons a b) → heap_step h o NULLP h
  | step_malloc n p ws : ws = replicate (N.to_nat (words_size n / 8)) 0 → new_object h p ws →
      heap_step h (MallocWords n) p (<[p:=ws]> h)
  | step_cons a b p : new_object h p [a; b] → heap_step h (Cons a b) p (<[p:=[a; b]]> h)
  | step_set p i v ws : h !! p = Some ws → heap_step h (SetWord p i v) 0 (<[p:=<[i:=v]> ws]> h)
  | step_get p i ws w : h !! p = Some ws → ws !! i = Some w → heap_step h (GetWord p i) w h.

(** A client that goes on by what it got. *)
Inductive client :=
  | Done
  | Do (o : op) (k : N → client).

(** The client stays inside its objects, whatever the allocator answers. *)
Fixpoint client_ok (h : heap) (c : client) : Prop :=
  match c with
  | Done => True
  | Do o k => op_ok h o ∧ ∀ r h', heap_step h o r h' → client_ok h' (k r)
  end.
Inductive heap_run : heap → client → list N → heap → Prop :=
  | run_done h : heap_run h Done [] h
  | run_do h o k r h' rs h'' :
      heap_step h o r h' → heap_run h' (k r) rs h'' → heap_run h (Do o k) (r :: rs) h''.

Section refinement.
Context `{TinyCollector} {NDEBUG : bool} {tiny_fl : addr}.
Implicit Types (m : mem) (h : heap).
#[local] Notation lo := GC_least_plausible_heap_addr.

Definition run_op (o : op) : ST mem N :=
  match o with
  | MallocWords n => GC_MALLOC_WORDS NDEBUG n tiny_fl
  | Cons a b => GC_CONS NDEBUG a b tiny_fl
  | SetWord p i v => store_ptr (p + 8 * N.of_nat i) v;; mret 0
  | GetWord p i => load_ptr (p + 8 * N.of_nat i)
  end.
Fixpoint run_client (c : client) : ST mem (list N) :=
  match c with
  | Done => mret []
  | Do o k => r ← run_op o; rs ← run_client (k r); mret (r :: rs)
  end.

(** The memory holds the client's objects and their words. *)
Definition heap_rep (h : heap) m : Prop :=
  (∃ free, tiny_inv lo 0 GC_I_NORMAL tiny_fl (heap_regions h) free m) ∧
  ∀ p ws i w, h !! p = Some ws → ws !! i = Some w →
    load_ptr (p + 8 * N.of_nat i) m = Some (w, m).

Lemma heap_regions_elem h p ws :
  h !! p = Some ws → (p, 8 * N.of_nat (length ws)) ∈ heap_regions h.
Proof.
  intros Hp. apply (list_elem_of_fmap_2 (λ o : addr * list N, (o.1, 8 * N.of_nat (length o.2))) _ (p, ws)).
  by apply elem_of_map_to_list.
Qed.
Lemma heap_regions_insert h p ws : h !! p = None →
  heap_regions (<[p:=ws]> h) ≡ₚ (p, 8 * N.of_nat (length ws)) :: heap_regions h.
Proof. intros Hp. unfold heap_regions. by rewrite map_to_list_insert. Qed.
Lemma heap_regions_delete h p ws : h !! p = Some ws →
  heap_regions h ≡ₚ (p, 8 * N.of_nat (length ws)) :: heap_regions (delete p h).
Proof. intros Hp. rewrite <- (insert_delete_id h p ws Hp) at 1. apply heap_regions_insert, lookup_delete_eq. Qed.

Lemma tiny_inv_perm nd kind live live' free m :
  live ≡ₚ live' → tiny_inv lo nd kind tiny_fl live free m → tiny_inv lo nd kind tiny_fl live' free m.
Proof.
  intros Hp [L O A E S F C V]. split; try done.
  - eapply separate_perm; [|exact S]. by rewrite Hp.
  - intros p n Hin. apply V. by rewrite Hp.
Qed.

(** The words of objects whose bytes stayed the same. *)
Definition heap_words h m : Prop :=
  ∀ p ws i w, h !! p = Some ws → ws !! i = Some w → load_ptr (p + 8 * N.of_nat i) m = Some (w, m).
Lemma word_same m m' p (ws : list N) i w :
  same_on m m' (p, 8 * N.of_nat (length ws)) → ws !! i = Some w →
  load_ptr (p + 8 * N.of_nat i) m = Some (w, m) → load_ptr (p + 8 * N.of_nat i) m' = Some (w, m').
Proof.
  intros Hs Hi. apply load_ptr_same. apply lookup_lt_Some in Hi. eapply same_on_sub; [exact Hs|lia|lia].
Qed.
Lemma heap_words_same h m m' :
  (∀ r, r ∈ heap_regions h → same_on m m' r) → heap_words h m → heap_words h m'.
Proof. intros Hs Hw p ws i w Hp Hi. eapply word_same; [by apply Hs, heap_regions_elem|done|by eapply Hw]. Qed.

Lemma new_object_ok h m m' p ws free :
  (0 < length ws)%nat → heap_words h m → (∀ r, r ∈ heap_regions h → same_on m m' r) →
  heap_object lo m' p (8 * N.of_nat (length ws)) →
  tiny_inv lo 0 GC_I_NORMAL tiny_fl ((p, 8 * N.of_nat (length ws)) :: heap_regions h) free m' →
  (∀ i w, ws !! i = Some w → load_ptr (p + 8 * N.of_nat i) m' = Some (w, m')) →
  new_object h p ws ∧ heap_rep (<[p:=ws]> h) m'.
Proof.
  intros Hlen Hw Hs HO HI Hnew. pose proof (ti_separate _ _ _ _ _ _ _ HI) as [_ [HF _]].
  rewrite Forall_app in HF. destruct HF as [HF _]. pose proof (ho_low _ _ _ _ HO). pose proof GC_least_plausible_pos.
  assert (h !! p = None) as Hnone.
  { apply eq_None_not_Some. intros [ws' Hp]. pose proof (heap_regions_elem h p ws' Hp) as Hin.
    rewrite Forall_forall in HF. pose proof (HF _ Hin) as Ha.
    destruct (ti_live _ _ _ _ _ _ _ HI p _ ltac:(right; exact Hin)) as [H0' _].
    unfold apart in Ha. cbn [fst snd] in Ha. lia. }
  split.
  - split; [unfold NULLP; lia|]. split; [apply HO|]. split; [apply HO|]. by split.
  - split; [exists free; eapply tiny_inv_perm; [symmetry; by apply heap_regions_insert|done]|].
    intros q ws' i w Hq Hi. destruct (decide (q = p)) as [->|Hne].
    + rewrite lookup_insert_eq in Hq. simplify_eq. by apply Hnew.
    + rewrite lookup_insert_ne in Hq by done. eapply heap_words_same; [exact Hs|exact Hw|exact Hq|exact Hi].
Qed.

Lemma set_ok h m m' p ws i v :
  heap_rep h m → h !! p = Some ws → (i < length ws)%nat → wrote m (p + 8 * N.of_nat i) 8 m' →
  load_ptr (p + 8 * N.of_nat i) m' = Some (v, m') → heap_rep (<[p:=<[i:=v]> ws]> h) m'.
Proof.
  intros [[free HI] Hw] Hp Hi Hwr Hl. pose proof (heap_regions_elem h p ws Hp) as Hin.
  assert (heap_regions (<[p:=<[i:=v]> ws]> h) ≡ₚ heap_regions h) as Hperm.
  { rewrite (heap_regions_delete _ p (<[i:=v]> ws)) by apply lookup_insert_eq.
    rewrite delete_insert_eq, length_insert. by rewrite <- heap_regions_delete. }
  split.
  - exists free. eapply tiny_inv_perm; [symmetry; exact Hperm|].
    apply (ti_client_write _ _ m m' _ (p + 8 * N.of_nat i) 8 HI Hin); [cbn [fst snd]; lia..|exact Hwr].
  - intros q ws' j w Hq Hj. destruct (decide (q = p)) as [->|Hne].
    + rewrite lookup_insert_eq in Hq. simplify_eq. destruct (decide (j = i)) as [->|Hji].
      * rewrite list_lookup_insert_eq in Hj by done. by simplify_eq.
      * rewrite list_lookup_insert_ne in Hj by done. eapply load_ptr_same; [|by eapply Hw].
        eapply wrote_same; [exact Hwr|]. unfold apart. simpl. lia.
    + rewrite lookup_insert_ne in Hq by done. eapply word_same; [|exact Hj|by eapply Hw].
      eapply wrote_same; [exact Hwr|].
      pose proof (ti_separate _ _ _ _ _ _ _ HI) as [_ HS]. apply separate_app in HS as [HS _].
      eapply separate_perm in HS; [|by apply (heap_regions_delete h p ws)]. destruct HS as [HF _].
      rewrite Forall_forall in HF.
      pose proof (HF _ (heap_regions_elem (delete p h) q ws' ltac:(by rewrite lookup_delete_ne))) as Ha.
      unfold apart in *. cbn [fst snd] in *. lia.
Qed.
(** A cleared array holds empty lists. *)
Lemma linked_free_regions_nil i n : free_regions i (replicate n []) = [].
Proof. revert i. induction n as [|n IH]; intros i; simpl; auto. Qed.
Lemma cleared_array nd kind live m :
  bytes_ok (bytes m) → zeroed m tiny_fl (8 * GC_TINY_FREELISTS) →
  separate (array_region tiny_fl :: live) → (∀ p n, (p, n) ∈ live → 0 < n ∧ valid n p (bytes m)) →
  tiny_inv lo nd kind tiny_fl live (replicate (N.to_nat GC_TINY_FREELISTS) []) m.
Proof.
  intros Hok Hz Hsep Hlive. split; rewrite ?linked_free_regions_nil, ?app_nil_r; try done.
  - intros i Hi. rewrite Hz by done. by eexists.
  - intros i ps [-> Hi]%lookup_replicate. exists 0. pose proof (entry_in_array tiny_fl i Hi).
    split; [apply load_ptr_zeroed; eapply zeroed_sub; [exact Hz|lia|lia]|by left].
  - by intros p n Hp%not_elem_of_nil.
  - by intros p n Hp%not_elem_of_nil.
Qed.

Hypothesis heap_high : GC_TINY_FREELISTS + 1 < lo.

Lemma words_size_words n : 8 * N.of_nat (N.to_nat (words_size n / 8)) = words_size n.
Proof.
  rewrite N2Nat.id. unfold words_size, osz, GC_GRANULE_BYTES. destruct ((n + 1) / 2 =? 0); [done|].
  replace ((n + 1) / 2 * 16) with ((n + 1) / 2 * 2 * 8) by lia. rewrite N.div_mul by done. lia.
Qed.

Lemma step_refines h m o :
  heap_rep h m → op_ok h o → wp (run_op o) m (λ r m', ∃ h', heap_step h o r h' ∧ heap_rep h' m').
Proof.
  intros HR Ho. destruct HR as [[free HI] Hw]. destruct o as [n|a b|p i v|p i]; simpl in Ho |- *.
  - eapply wp_mono; [by eapply GC_MALLOC_WORDS_ok|]. intros p m' [Hs [[-> [free' HI']]|(HO & Hz & free' & HI')]].
    + exists h. split; [apply step_null; eauto|]. split; [by exists free'|by eapply heap_words_same].
    + exists (<[p:=replicate (N.to_nat (words_size n / 8)) 0]> h).
      pose proof (osz_ge ((n + 1) / 2)) as Hsize. fold (words_size n) in Hsize. pose proof (words_size_words n) as Hsw.
      remember (N.to_nat (words_size n / 8)) as len eqn:Hlen.
      destruct (new_object_ok h m m' p (replicate len 0) free') as [Hnew Hrep];
        rewrite ?length_replicate, ?Hsw; try done; [lia| |split; [apply step_malloc; [by rewrite Hlen|done]|done]].
      intros i w [-> Hi]%lookup_replicate. apply load_ptr_zeroed. eapply zeroed_sub; [exact Hz|lia|lia].
  - destruct Ho. eapply wp_mono; [by eapply GC_CONS_ok|]. intros p m' [Hs [[-> [free' HI']]|(HO & [Ha Hb] & free' & HI')]].
    + exists h. split; [apply step_null; eauto|]. split; [by exists free'|by eapply heap_words_same].
    + exists (<[p:=[a; b]]> h). destruct (new_object_ok h m m' p [a; b] free') as [Hnew Hrep]; try done; [simpl; lia| |].
      * intros [|[|i]] w; simpl; intros [= <-]; [by rewrite N.add_0_r|done].
      * split; [by apply step_cons|done].
  - destruct Ho as [(ws & Hp & Hi) Hv]. apply wp_bind, wp_store_ptr.
    { destruct (ti_live _ _ _ _ _ _ _ HI _ _ (heap_regions_elem h p ws Hp)) as [_ Hval].
      intros j Hj. apply Hval. lia. }
    intros m' Hwr Hl. apply wp_ret. exists (<[p:=<[i:=v]> ws]> h). split; [by apply step_set|].
    eapply set_ok; [by split; [exists free|]|exact Hp|exact Hi|exact Hwr|by apply Hl].
  - destruct Ho as (ws & Hp & Hi). destruct (lookup_lt_is_Some_2 ws i Hi) as [w Hwi].
    exists w, m. split; [by eapply Hw|]. exists h. split; [by eapply step_get|]. split; [by exists free|exact Hw].
Qed.

(** The whole run of a client. *)
Lemma client_refines c h m :
  heap_rep h m → client_ok h c → wp (run_client c) m (λ rs m', ∃ h', heap_run h c rs h' ∧ heap_rep h' m').
Proof.
  revert h m. induction c as [|o k IH]; intros h m HR Hc; simpl.
  - apply wp_ret. exists h. split; [constructor|done].
  - destruct Hc as [Ho Hk]. apply wp_bind. eapply wp_mono; [by apply step_refines|]. intros r m1 (h1 & Hs & HR1).
    apply wp_bind. eapply wp_mono; [apply (IH r h1 m1 HR1); by apply Hk|]. intros rs m2 (h2 & Hrun & HR2).
    apply wp_ret. exists h2. split; [by econstructor|done].
Qed.
End refinement.

(** ** The theorems *)
Section theorems.
Context `{TinyCollector} (NDEBUG : bool) (tiny_fl : addr).
Implicit Types (m : mem) (p : addr) (live : list region) (free : list (list addr)).
#[local] Notation lo := GC_least_plausible_heap_addr.

(** C8. A client of the inline allocator, which allocates words and pairs and
    reads and writes the words of its objects, runs without a failed
    assertion or an access outside allocated memory, and every answer it gets
    is one of the abstract allocator: NULL or a new object that is aligned,
    cleared (or holding the pair) and apart from all the others, and the value
    last written to a word.  The free lists need only be cleared before. *)
Theorem tiny_client_refines m c :
  GC_TINY_FREELISTS + 1 < lo → bytes_ok (bytes m) → zeroed m tiny_fl (8 * GC_TINY_FREELISTS) →
  client_ok ∅ c →
  wp (run_client (NDEBUG := NDEBUG) (tiny_fl := tiny_fl) c) m
    (λ rs m', ∃ h', heap_run ∅ c rs h' ∧ heap_rep (tiny_fl := tiny_fl) h' m').
Proof.
  intros Hlo Hok Hz Hc. apply client_refines; [done| |exact Hc]. split; [|by intros p ws i w].
  eexists. apply cleared_array; try done; by intros p n Hp%not_elem_of_nil.
Qed.

(** GC_FAST_MALLOC_GRANS keeps the invariant of the free lists, for any
    number of granules, kind and count of directly allocated granules: it
    returns NULL, or an object of the heap large enough that was on no list
    and in no memory of the client and now is the client's; the memory the
    client had is unchanged. *)
Theorem GC_FAST_MALLOC_GRANS_correct granules num_direct kind default_expr dsize live free m :
  num_direct + GC_TINY_FREELISTS + 1 < N.min lo (2 ^ 63) → granules * GC_GRANULE_BYTES ≤ dsize → 0 < dsize →
  (∀ m, bytes_ok (bytes m) → wp default_expr m (λ p m', (p = NULLP ∧ m' = m) ∨
     (allocated lo m [p] dsize 0 0 m' ∧ (kind ≠ GC_I_PTRFREE → zeroed m' p dsize)))) →
  tiny_inv lo num_direct kind tiny_fl live free m →
  wp (GC_FAST_MALLOC_GRANS NDEBUG granules tiny_fl num_direct kind default_expr clear_link) m
    (λ p m', (∀ r, r ∈ live → same_on m m' r) ∧
      ((p = NULLP ∧ ∃ free', tiny_inv lo num_direct kind tiny_fl live free' m') ∨
       (∃ n free', granules * GC_GRANULE_BYTES ≤ n ∧ heap_object lo m' p n ∧
          tiny_inv lo num_direct kind tiny_fl ((p, n) :: live) free' m' ∧
          (kind ≠ GC_I_PTRFREE → zeroed m' p n)))).
Proof.
  intros Hd Hsize H0 Hdef HI. eapply wp_mono.
  { eapply (fast_malloc_ok (dsize := dsize) (I := λ p m, zeroed m p 8)); [exact Hd|intros m1 p1; apply wp_clear_link| |exact HI].
    intros _. by split. }
  intros p m' [Hs [Hnull|(n & free' & HO & HI' & Hc)]]; (split; [exact Hs|]); [by left|]. right.
  exists n, free'. destruct Hc as [(_ & -> & H8 & Hz)|(_ & -> & Hz)]; [|done].
  split; [unfold osz; by destruct (N.eqb_spec granules 0) as [->|]|]. split; [done|]. split; [done|].
  intros Hk. eapply zeroed_app; [exact H8|by apply Hz].
Qed.

(** GC_MALLOC_WORDS returns NULL or a cleared object of at least [n]
    words, GC_MALLOC_ATOMIC_WORDS one that may hold anything, and GC_CONS one
    of two words that hold its arguments. *)
Theorem gc_inline_macros_correct n first second live free m kind :
  GC_TINY_FREELISTS + 1 < lo → n + 1 < 2 ^ 61 → first < SIZE_MAX1 → second < SIZE_MAX1 →
  tiny_inv lo 0 kind tiny_fl live free m →
  8 * n ≤ words_size n ∧
  (kind = GC_I_NORMAL →
     wp (GC_MALLOC_WORDS NDEBUG n tiny_fl) m
       (malloc_post (tiny_fl := tiny_fl) kind (words_size n) (λ p m', zeroed m' p (words_size n)) live m) ∧
     wp (GC_CONS NDEBUG first second tiny_fl) m
       (malloc_post (tiny_fl := tiny_fl) kind 16 (λ p m', load_ptr p m' = Some (first, m') ∧
          load_ptr (p + 8) m' = Some (second, m')) live m)) ∧
  (kind = GC_I_PTRFREE →
     wp (GC_MALLOC_ATOMIC_WORDS NDEBUG n tiny_fl) m
       (malloc_post (tiny_fl := tiny_fl) kind (words_size n) (λ _ _, True) live m)).
Proof.
  intros Hlo Hn H1 H2 HI. split; [apply words_size_ge|]. split; intros ->.
  - split; [by eapply GC_MALLOC_WORDS_ok|by eapply GC_CONS_ok].
  - eapply malloc_words_kind_ok with (I := λ _ _, True); try done.
    intros m1 p _. apply wp_ret. split; [apply wrote_refl|done].
Qed.
End theorems.

(** The bytes the object for [n] words is allocated with. *)
Definition words_allocated (n : N) : N :=
  let granules := GC_WORDS_TO_WHOLE_GRANULES n in
  if GC_TINY_FREELISTS <=? granules then word (granules * GC_GRANULE_BYTES) else osz granules.

(** The object GC_MALLOC_WORDS asks for holds [n] words exactly when [n]
    is below 2^61 - 1: the size is computed in size_t without a check, and
    from there on a smaller object is allocated. *)
Theorem GC_MALLOC_WORDS_bounds n :
  n < SIZE_MAX1 → 8 * n ≤ words_allocated n ↔ n + 1 < 2 ^ 61.
Proof.
  intros Hn. unfold words_allocated. split.
  - intros Hle. destruct (N.leb_spec GC_TINY_FREELISTS (GC_WORDS_TO_WHOLE_GRANULES n)) as [Hg|Hg].
    + assert (∃ q, word (GC_WORDS_TO_WHOLE_GRANULES n * GC_GRANULE_BYTES) = 16 * q) as [q Hq].
      { exists (GC_WORDS_TO_WHOLE_GRANULES n `mod` 2 ^ 60). unfold word, GC_GRANULE_BYTES.
        change SIZE_MAX1 with (2 ^ 60 * 16). rewrite N.Div0.mul_mod_distr_r. lia. }
      assert (16 * q < SIZE_MAX1) as Hlt by (rewrite <- Hq; by apply N.mod_lt).
      rewrite Hq in Hle. unfold SIZE_MAX1 in Hlt. lia.
    + unfold osz, GC_GRANULE_BYTES, GC_TINY_FREELISTS in *.
      destruct (N.eqb_spec (GC_WORDS_TO_WHOLE_GRANULES n) 0); lia.
  - intros Hn1. rewrite whole_granules by (unfold SIZE_MAX1; lia). pose proof (words_size_ge n) as Hge. unfold words_size in Hge.
    destruct (N.leb_spec GC_TINY_FREELISTS ((n + 1) / 2)) as [Hg|Hg]; [|done].
    unfold osz, GC_TINY_FREELISTS, word in *. rewrite N.mod_small.
    + by rewrite (proj2 (N.eqb_neq _ _)) in Hge by lia.
    + pose proof (N.Div0.mul_div_le (n + 1) 2). unfold SIZE_MAX1, GC_GRANULE_BYTES. lia.
Qed.
