(* ===== verification/GcInlineInst.v ===== *)
(** * Instances of the theorems on the inline allocator

    A collector that takes every object from above all memory in use, one at
    a time, satisfies the laws of [TinyCollector]; with it the theorems of
    GcInlineTheorems.v are applied to concrete memories and clients. *)
From S2P Require Import Prelude CLayout UvTypes Memory UvUtil UvUtilTheorems GcInline GcInlineRep GcInlineTheorems.
#[local] Open Scope N_scope.

Definition heap_low : addr := 4096.
Definition heap_top (m : mem) : addr :=
  16 * (N.max heap_low (N.max (above_keys (bytes m)) (above_keys (blocks m))) / 16 + 1).
Definition heap_alloc (n : N) (m : mem) : option (addr * mem) :=
  let p := heap_top m in
  if decide (p + n < SIZE_MAX1)
  then Some (p, mk_mem (clear (N.to_nat n) p (bytes m)) (<[p:=(n, Collectable)]> (blocks m)))
  else None.

Lemma heap_top_above m i : heap_top m ≤ i →
  heap_low ≤ i ∧ bytes m !! i = None ∧ blocks m !! i = None.
Proof.
  unfold heap_top. set (t := N.max heap_low _). intros Hi.
  pose proof (N.div_mod t 16 ltac:(done)). pose proof (N.mod_lt t 16 ltac:(done)).
  assert (t < i) as Hti by lia. split; [lia|]. split; apply eq_None_not_Some; intros Hs%above_keys_spec; lia.
Qed.

Lemma heap_alloc_ok n m p m1 : heap_alloc n m = Some (p, m1) →
  allocated heap_low m [p] n 0 0 m1 ∧ zeroed m1 p n.
Proof.
  unfold heap_alloc. set (q := heap_top m). cbv zeta. destruct (decide (q + n < SIZE_MAX1)) as [Hlt|]; [|done].
  intros [= <- <-]. assert (zeroed (mk_mem (clear (N.to_nat n) q (bytes m)) (<[q:=(n, Collectable)]> (blocks m))) q n) as Hz.
  { intros i Hi. simpl. rewrite clear_lookup, decide_True; [done|lia]. }
  split; [|done]. split.
  - intros p ->%list_elem_of_singleton. split; [by apply (heap_top_above m)|apply N.divide_factor_l|done| |].
    + intros i Hi. rewrite Hz by done. by eexists.
    + apply lookup_insert_eq.
  - by split.
  - intros p i ->%list_elem_of_singleton Hi. apply (heap_top_above m). unfold q in Hi. lia.
  - intros i _ Ho. simpl. rewrite clear_lookup, decide_False; [done|].
    specialize (Ho q ltac:(by left)). unfold outside in Ho. lia.
  - intros i Ho. unfold outside in Ho. lia.
  - intros p [b Hp]. simpl. rewrite lookup_insert_ne; [done|]. intros <-.
    destruct (heap_top_above m q) as (_ & _ & Hb); [reflexivity|]. by rewrite Hb in Hp.
  - intros Hok i b. simpl. rewrite clear_lookup. case_decide; [intros [= <-]; lia|by apply Hok].
Qed.

(** A store after an allocation. *)
Lemma wrote_allocated lo m ps n m1 a k m2 :
  allocated lo m ps n 0 0 m1 → wrote m1 a k m2 → allocated lo m ps n a k m2.
Proof.
  intros HA Hw. split.
  - intros p Hp. pose proof (al_objects _ _ _ _ _ _ _ HA p Hp) as HO.
    eapply heap_object_same; [eapply wrote_valid; [exact Hw|apply HO]|by rewrite (wr_blocks _ _ _ _ Hw)|exact HO].
  - apply (al_separate _ _ _ _ _ _ _ HA).
  - apply (al_new _ _ _ _ _ _ _ HA).
  - intros i Ho Hp. rewrite (wr_same _ _ _ _ Hw i Ho). apply (al_rest _ _ _ _ _ _ _ HA); [right; lia|done].
  - intros i _ Hi. apply elem_of_dom. rewrite (wr_dom _ _ _ _ Hw). eapply allocated_dom; [exact HA|]. by apply elem_of_dom.
  - intros p Hp. rewrite (wr_blocks _ _ _ _ Hw). by eapply al_blocks.
  - intros Hok. apply (wr_ok _ _ _ _ Hw). by eapply al_ok.
Qed.
Lemma allocated_none lo m n : allocated lo m [] n 0 0 m.
Proof.
  split; try done.
  - by intros p Hp%not_elem_of_nil.
  - by intros p i Hp%not_elem_of_nil.
Qed.

Definition heap_malloc_kind (lb k : N) : ST mem addr := λ m,
  match heap_alloc lb m with
  | Some (p, m1) => Some (p, m1)
  | None => Some (NULLP, m)
  end.
(** One object at a time, none smaller than its link. *)
Definition heap_malloc_many (lb k : N) (result : addr) : ST mem unit := λ m,
  match (if 8 <=? lb then heap_alloc lb m else None) with
  | Some (p, m1) => store_ptr result p m1
  | None => store_ptr result NULLP m
  end.

Lemma heap_malloc_many_spec lb k result m :
  valid 8 result (bytes m) → bytes_ok (bytes m) →
  wp (heap_malloc_many lb k result) m (λ _ m', ∃ p ps,
    allocated heap_low m ps lb result 8 m' ∧
    load_ptr result m' = Some (p, m') ∧ linked m' p ps ∧
    (k ≠ GC_I_PTRFREE → ∀ q, q ∈ ps → zeroed m' (q + 8) (lb - 8))).
Proof.
  intros Hv Hok. unfold heap_malloc_many, wp.
  assert (wp (store_ptr result NULLP) m (λ _ m', ∃ p ps,
    allocated heap_low m ps lb result 8 m' ∧ load_ptr result m' = Some (p, m') ∧ linked m' p ps ∧
    (k ≠ GC_I_PTRFREE → ∀ q, q ∈ ps → zeroed m' (q + 8) (lb - 8)))) as Hnone.
  { apply wp_store_ptr; [done|]. intros m' Hw Hl. exists NULLP, [].
    split; [eapply wrote_allocated; [apply allocated_none|done]|]. split; [by apply Hl|].
    split; [done|]. by intros _ q Hq%not_elem_of_nil. }
  destruct (N.leb_spec 8 lb) as [Hlb|Hlb]; [destruct (heap_alloc lb m) as [[p m1]|] eqn:Ha|].
  - apply heap_alloc_ok in Ha as [HA Hz]. pose proof (al_objects _ _ _ _ _ _ _ HA p ltac:(by left)) as HO.
    apply (wp_store_ptr result p m1).
    { intros i Hi. apply elem_of_dom. eapply allocated_dom; [exact HA|]. apply elem_of_dom. by apply Hv. }
    intros m2 Hw Hl. assert (apart (result, 8) (p, lb)) as Hap.
    { eapply allocated_apart; [exact HA|lia|lia|exact Hv|by left]. }
    assert (zeroed m2 p lb) as Hz2 by (eapply zeroed_same; [by eapply wrote_same|done]).
    exists p, [p]. split; [by eapply wrote_allocated|].
    split; [apply Hl; pose proof (ho_range _ _ _ _ HO); lia|]. split.
    + split; [done|]. exists 0. split; [|done]. apply load_ptr_zeroed. eapply zeroed_sub; [exact Hz2|lia|lia].
    + intros _ q ->%list_elem_of_singleton. eapply zeroed_sub; [exact Hz2|lia|lia].
  - exact Hnone.
  - exact Hnone.
Qed.

Lemma heap_malloc_kind_spec lb k m :
  bytes_ok (bytes m) →
  wp (heap_malloc_kind lb k) m (λ p m', (p = NULLP ∧ m' = m) ∨
    (allocated heap_low m [p] lb 0 0 m' ∧ (k ≠ GC_I_PTRFREE → zeroed m' p lb))).
Proof.
  intros _. unfold heap_malloc_kind, wp. destruct (heap_alloc lb m) as [[p m1]|] eqn:Ha.
  - apply heap_alloc_ok in Ha as [HA Hz]. exists p, m1. split; [done|]. by right.
  - exists NULLP, m. split; [done|]. by left.
Qed.

Lemma heap_size_spec p n m : blocks m !! p = Some (n, Collectable) →
  wp (st_gets (λ m, fst <$> blocks m !! p)) m (λ s m', n ≤ s ∧ m' = m).
Proof. intros Hb. eapply wp_gets; [cbv beta; by rewrite Hb|]. split; [apply N.le_refl|done]. Qed.
Lemma heap_store_spec p q m (Q : unit → mem → Prop) : wp (store_ptr p q) m Q → wp (store_ptr p q) m Q.
Proof. done. Qed.
Lemma heap_nop_spec (p : addr) m : wp (mret tt : ST mem unit) m (λ _ m', m' = m).
Proof. by apply wp_ret. Qed.
Lemma heap_oom_spec (n : N) m : wp (mret NULLP : ST mem addr) m (λ p m', p = NULLP ∧ m' = m).
Proof. by apply wp_ret. Qed.

#[local] Instance heap_collector : TinyCollector := {|
  GC_generic_malloc_many := heap_malloc_many;
  GC_malloc_kind := heap_malloc_kind;
  GC_end_stubborn_change _ := mret tt;
  GC_ptr_store_and_dirty := store_ptr;
  GC_size p := st_gets (λ m, fst <$> blocks m !! p);
  GC_oom_fn _ := mret NULLP;
  GC_least_plausible_heap_addr := heap_low;
  GC_least_plausible_pos := eq_refl;
  GC_generic_malloc_many_spec := heap_malloc_many_spec;
  GC_malloc_kind_spec := heap_malloc_kind_spec;
  GC_end_stubborn_change_spec := heap_nop_spec;
  GC_ptr_store_and_dirty_spec := heap_store_spec;
  GC_size_spec := heap_size_spec;
  GC_oom_fn_spec := heap_oom_spec;
|}.

(** ** Instances *)

(** A cleared array of free lists at 512. *)
Definition fl_mem : mem := mk_mem (clear 200 512 ∅) ∅.
Lemma fl_mem_zeroed : zeroed fl_mem 512 (8 * GC_TINY_FREELISTS).
Proof.
  intros i Hi. unfold fl_mem. cbn [bytes]. rewrite clear_lookup. rewrite decide_True; [done|].
  unfold GC_TINY_FREELISTS in Hi. lia.
Qed.
Lemma fl_mem_ok : bytes_ok (bytes fl_mem).
Proof. intros i b. unfold fl_mem. cbn [bytes]. rewrite clear_lookup. case_decide; [intros [= <-]; lia|done]. Qed.
Lemma fl_mem_inv nd kind : tiny_inv heap_low nd kind 512 [] (replicate (N.to_nat GC_TINY_FREELISTS) []) fl_mem.
Proof.
  refine (cleared_array (tiny_fl := 512) nd kind [] fl_mem fl_mem_ok fl_mem_zeroed _ _); [simpl; by split|].
  by intros p n Hp%not_elem_of_nil.
Qed.

(** A client that makes a pair, an object of three words, writes the second
    word of the object and reads the pair. *)
Definition some_client : client :=
  Do (Cons 5 6) (λ p, Do (MallocWords 3) (λ q,
    if (p =? 0) || (q =? 0) then Done
    else Do (SetWord q 1 p) (λ _, Do (GetWord p 0) (λ _, Done)))).
Lemma some_client_ok : client_ok ∅ some_client.
Proof.
  split; [by split|]. intros p h1 H1. split; [done|]. intros q h2 H2.
  destruct (N.eqb_spec p 0) as [->|Hp]; [done|]. destruct (N.eqb_spec q 0) as [->|Hq]; [done|]. cbn [orb].
  inversion H1 as [o _| |a b p' Hnew|a b c|]; subst; [done|].
  inversion H2 as [o _|n q' ws -> Hnew'| |a b c|]; subst; [done|].
  destruct Hnew as (_ & _ & Hrange & _). destruct Hnew' as (_ & _ & _ & Hq' & _).
  assert (p ≠ q) as Hpq by (intros ->; by rewrite lookup_insert_eq in Hq').
  split.
  { split; [|simpl in Hrange; lia]. eexists. split; [apply lookup_insert_eq|]. vm_compute. lia. }
  intros r h3 H3. inversion H3 as [o [[? ?]|[? [? ?]]]| | |q' i v ws Hws|]; subst; [done..|].
  split; [|done]. exists [5; 6]. split; [|simpl; lia].
  by rewrite !lookup_insert_ne by done; rewrite lookup_insert_eq.
Qed.

Lemma tiny_client_refines_witness : ∃ rs m' h',
  run_client (NDEBUG := false) (tiny_fl := 512) some_client fl_mem = Some (rs, m') ∧
  heap_run ∅ some_client rs h' ∧ length rs = 4%nat.
Proof.
  destruct (tiny_client_refines false 512 fl_mem some_client) as (rs & m' & Hrun & h' & Hh & _).
  - done.
  - apply fl_mem_ok.
  - apply fl_mem_zeroed.
  - apply some_client_ok.
  - exists rs, m', h'. split; [exact Hrun|]. split; [exact Hh|].
    assert ((length <$> (fst <$> run_client (NDEBUG := false) (tiny_fl := 512) some_client fl_mem)) = Some 4%nat) as Hlen
      by (vm_compute; reflexivity).
    rewrite Hrun in Hlen. by injection Hlen.
Defined.

Lemma GC_FAST_MALLOC_GRANS_correct_witness :
  wp (GC_FAST_MALLOC_GRANS false 2 512 0 GC_I_NORMAL (heap_malloc_kind 32 GC_I_NORMAL) clear_link) fl_mem
    (λ p m', p = NULLP ∨ ∃ n, 32 ≤ n ∧ zeroed m' p n).
Proof.
  eapply wp_mono.
  - apply (GC_FAST_MALLOC_GRANS_correct false 512 2 0 GC_I_NORMAL (heap_malloc_kind 32 GC_I_NORMAL) 32 []
             (replicate (N.to_nat GC_TINY_FREELISTS) []) fl_mem).
    + done.
    + done.
    + done.
    + intros m. apply heap_malloc_kind_spec.
    + apply fl_mem_inv.
  - intros p m' [_ [[-> _]|(n & free & Hn & _ & _ & Hz)]]; [by left|]. right. exists n. split; [exact Hn|by apply Hz].
Defined.

Lemma gc_inline_macros_correct_witness :
  8 * 3 ≤ words_size 3 ∧ wp (GC_MALLOC_WORDS false 3 512) fl_mem (λ p m', p = NULLP ∨ zeroed m' p 32).
Proof.
  destruct (gc_inline_macros_correct false 512 3 5 6 [] (replicate (N.to_nat GC_TINY_FREELISTS) []) fl_mem GC_I_NORMAL)
    as (Hsize & HN & _); try done.
  - apply fl_mem_inv.
  - split; [exact Hsize|]. destruct (HN eq_refl) as [HM _]. eapply wp_mono; [exact HM|].
    intros p m' [_ [[-> _]|(_ & Hz & _)]]; [by left|by right].
Defined.

Lemma GC_MALLOC_WORDS_bounds_witness : 8 * (2 ^ 61 - 2) ≤ words_allocated (2 ^ 61 - 2).
Proof. apply (GC_MALLOC_WORDS_bounds (2 ^ 61 - 2)); [vm_compute; reflexivity|vm_compute; reflexivity]. Defined.
