(* ===== verification/LinkedList.v ===== *)
(** * The runtime's doubly linked list: linkedlist.calc

    src/runtime/linkedlist/linkedlist.calc holds the queues of the coroutine
    scheduler and of the event loop.  Nodes live in a store; a nil pointer is
    [None] and a use of it fails.  The lists are related to sequences, and a
    program that works on one gets the answers of the sequence operations. *)
From S2P Require Import Prelude.

Section list.
Context {T : Type}.

Abbreviation loc := positive.
Record Node := mk_Node { val : T; next : option loc; prev : option loc }.
(** [int] is 64 bits wide. *)
Record List := mk_List { first : option loc; tail : option loc; len : Z }.
Record store := mk_store { nodes : gmap loc Node; li : List }.

Definition int_wrap (z : Z) : Z := ((z + 2 ^ 63) `mod` 2 ^ 64 - 2 ^ 63)%Z.

(** ** Reading and writing through pointers *)
Definition deref (p : option loc) : ST store Node :=
  st_gets (λ s, l ← p; nodes s !! l).
Definition update (p : option loc) (f : Node → Node) : ST store unit :=
  st_mod (λ s, l ← p; n ← nodes s !! l; Some (mk_store (<[l:=f n]> (nodes s)) (li s))).
Definition set_next (q : option loc) (n : Node) : Node := mk_Node (val n) q (prev n).
Definition set_prev (q : option loc) (n : Node) : Node := mk_Node (val n) (next n) q.
Definition get_li : ST store List := st_gets (λ s, Some (li s)).
Definition upd_li (f : List → List) : ST store unit :=
  st_mod (λ s, Some (mk_store (nodes s) (f (li s)))).
Definition set_first (p : option loc) : ST store unit := upd_li (λ l, mk_List p (tail l) (len l)).
Definition set_tail (p : option loc) : ST store unit := upd_li (λ l, mk_List (first l) p (len l)).
Definition set_len (z : Z) : ST store unit := upd_li (λ l, mk_List (first l) (tail l) z).
(** [&Node<T>{val:t}] *)
Definition new_node (t : T) : ST store (option loc) := λ s,
  let l := fresh (dom (nodes s)) in
  Some (Some l, mk_store (<[l:=mk_Node t None None]> (nodes s)) (li s)).

(** ** The operations *)

Definition UnShift (t : T) : ST store unit :=
  l ← get_li;
  set_len (int_wrap (len l + 1));;
  n ← new_node t;
  if first l is None then set_first n;; set_tail n
  else
    update n (set_next (first l));;
    update (first l) (set_prev n);;
    set_first n.

Definition Push (t : T) : ST store unit :=
  l ← get_li;
  set_len (int_wrap (len l + 1));;
  n ← new_node t;
  if first l is None then set_first n;; set_tail n
  else
    update (tail l) (set_next n);;
    update n (set_prev (tail l));;
    set_tail n.

Definition Len : ST store Z := l ← get_li; mret (len l).

(** [for n = li.first; i != index; n = n.next { i = i + 1 }] *)
Fixpoint index_loop (fuel : nat) (i index : Z) (n : option loc) : ST store (option loc) :=
  match fuel with
  | O => st_fail
  | S fuel =>
    if (i =? index)%Z then mret n
    else nd ← deref n; index_loop fuel (int_wrap (i + 1)) index (next nd)
  end.
Definition IndexOp (index : Z) : ST store T :=
  l ← get_li;
  s ← st_get;
  n ← index_loop (S (size (nodes s))) 0 index (first l);
  nd ← deref n; mret (val nd).

Definition remove (n : option loc) : ST store unit :=
  l ← get_li;
  set_len (int_wrap (len l - 1));;
  nd ← deref n;
  match prev nd, next nd with
  | None, None => set_first None;; set_tail None
  | None, Some _ => set_first (next nd);; update (next nd) (set_prev None)
  | Some _, None => set_tail (prev nd);; update (prev nd) (set_next None)
  | Some _, Some _ => update (prev nd) (set_next (next nd));; update (next nd) (set_prev (prev nd))
  end.

Definition Shift : ST store T :=
  l ← get_li;
  let n := first l in
  nd ← deref n;
  remove n;;
  mret (val nd).
Definition Pop : ST store T :=
  l ← get_li;
  let n := tail l in
  remove n;;
  nd ← deref n;
  mret (val nd).

(** [&List<T>{}] *)
Definition New : List := mk_List None None 0.

(** ** Lists as sequences *)

(** The link before index [i] of the locations [ls]. *)
Definition before (ls : list loc) (i : nat) : option loc :=
  match i with O => None | S j => ls !! j end.

(** The nodes at [ls] hold [vs] and are linked in both directions. *)
Record is_list (s : store) (ls : list loc) (vs : list T) : Prop := mk_is_list {
  il_nodup : NoDup ls;
  il_length : length ls = length vs;
  il_node : ∀ i l v, ls !! i = Some l → vs !! i = Some v →
    nodes s !! l = Some (mk_Node v (ls !! S i) (before ls i));
  il_first : first (li s) = ls !! O;
  il_tail : tail (li s) = before ls (length ls);
  il_len : len (li s) = Z.of_nat (length ls);
}.

(** Nodes of other lists keep their contents. *)
Definition others_kept (s : store) (ls : list loc) (s' : store) : Prop :=
  ∀ l, l ∉ ls → is_Some (nodes s !! l) → nodes s' !! l = nodes s !! l.

(** From a list at [ls] to one at [ls'] that uses only its nodes and new ones. *)
Definition framed (s : store) (ls : list loc) (s' : store) (ls' : list loc) : Prop :=
  others_kept s ls s' ∧ ∀ l, l ∈ ls' → l ∈ ls ∨ nodes s !! l = None.

Section rules.
Implicit Types (s : store) (Q : unit → store → Prop).

Lemma wp_li_deref s l n (Q : Node → store → Prop) : nodes s !! l = Some n → Q n s → wp (deref (Some l)) s Q.
Proof. intros Hl HQ. eapply wp_gets; [exact Hl|exact HQ]. Qed.
Lemma wp_update s l n f Q :
  nodes s !! l = Some n → Q tt (mk_store (<[l:=f n]> (nodes s)) (li s)) → wp (update (Some l) f) s Q.
Proof. intros Hl HQ. eapply wp_mod; [|exact HQ]. simpl. by rewrite Hl. Qed.
Lemma wp_upd_li s f Q : Q tt (mk_store (nodes s) (f (li s))) → wp (upd_li f) s Q.
Proof. intros HQ. by eapply wp_mod. Qed.
Lemma wp_get_li s (Q : List → store → Prop) : Q (li s) s → wp get_li s Q.
Proof. intros HQ. by eapply wp_gets. Qed.
Lemma wp_new_node s t (Q : option loc → store → Prop) :
  (∀ l, nodes s !! l = None → Q (Some l) (mk_store (<[l:=mk_Node t None None]> (nodes s)) (li s))) →
  wp (new_node t) s Q.
Proof.
  intros HQ. eexists _, _. split; [reflexivity|]. apply HQ. apply not_elem_of_dom, is_fresh.
Qed.
End rules.

Lemma int_wrap_small z : (- 2 ^ 63 ≤ z < 2 ^ 63)%Z → int_wrap z = z.
Proof. intros Hz. unfold int_wrap. rewrite Z.mod_small by lia. lia. Qed.

Lemma is_list_lookup s ls vs i l : is_list s ls vs → ls !! i = Some l →
  ∃ v, vs !! i = Some v ∧ nodes s !! l = Some (mk_Node v (ls !! S i) (before ls i)).
Proof.
  intros HL Hi. destruct (lookup_lt_is_Some_2 vs i) as [v Hv].
  { rewrite <- (il_length _ _ _ HL). by eapply lookup_lt_Some. }
  exists v. split; [done|]. by apply (il_node _ _ _ HL).
Qed.
Lemma is_list_new_ne s ls vs i l k : is_list s ls vs → nodes s !! k = None → ls !! i = Some l → l ≠ k.
Proof. intros HL Hk Hi ->. destruct (is_list_lookup _ _ _ _ _ HL Hi) as (v & _ & Hv). by rewrite Hk in Hv. Qed.
Lemma is_list_fresh s ls vs k : is_list s ls vs → nodes s !! k = None → k ∉ ls.
Proof. intros HL Hk [i Hi]%list_elem_of_lookup. by eapply is_list_new_ne. Qed.

(** The first node of a list gets both ends. *)
Lemma is_list_singleton h l t f : f = mk_List (Some l) (Some l) 1 → is_list (mk_store (<[l:=mk_Node t None None]> h) f) [l] [t].
Proof.
  intros ->. split; try done; [apply NoDup_singleton|].
  intros [|i] l' v; simpl; [|done]. intros [= <-] [= <-]. by rewrite lookup_insert_eq.
Qed.

Lemma Push_ok s ls vs t :
  is_list s ls vs → (Z.of_nat (length vs) + 1 < 2 ^ 63)%Z →
  wp (Push t) s (λ _ s', ∃ l, nodes s !! l = None ∧ is_list s' (ls ++ [l]) (vs ++ [t]) ∧ others_kept s ls s').
Proof.
  intros HL Hlen. pose proof (il_length _ _ _ HL) as Hll. unfold Push, set_len, set_first, set_tail.
  apply wp_bind, wp_get_li, wp_bind, wp_upd_li, wp_bind, wp_new_node. simpl. intros k Hk.
  pose proof (is_list_fresh _ _ _ _ HL Hk) as Hkls. rewrite (il_len _ _ _ HL), Hll, int_wrap_small by lia.
  rewrite (il_first _ _ _ HL), (il_tail _ _ _ HL).
  destruct (length ls) as [|n] eqn:Hn.
  { apply nil_length_inv in Hn. subst ls. destruct vs; [|done]. simpl.
    apply wp_bind, wp_upd_li, wp_upd_li. exists k. split; [done|]. split.
    - by apply is_list_singleton.
    - intros l _ [nd Hnd]. simpl. rewrite lookup_insert_ne; [done|]. intros ->. by rewrite Hk in Hnd. }
  destruct (lookup_lt_is_Some_2 ls 0) as [l0 Hl0]; [lia|].
  destruct (lookup_lt_is_Some_2 ls n) as [lt Hlt]; [lia|]. rewrite Hl0. simpl. rewrite Hlt.
  destruct (is_list_lookup _ _ _ _ _ HL Hlt) as (v & Hv & Hnode).
  rewrite (lookup_ge_None_2 ls (S n)) in Hnode by lia.
  pose proof (is_list_new_ne _ _ _ _ _ _ HL Hk Hlt) as Hne.
  apply wp_bind. eapply wp_update; [simpl; by rewrite lookup_insert_ne|].
  apply wp_bind. eapply wp_update; [simpl; by rewrite lookup_insert_ne, lookup_insert_eq|].
  apply wp_upd_li. exists k. split; [done|]. unfold set_prev, set_next. simpl. split.
  - split; simpl.
    + apply NoDup_app. split; [apply HL|]. split; [|apply NoDup_singleton]. by intros x Hx ->%list_elem_of_singleton.
    + rewrite !length_app. simpl. lia.
    + intros i l w Hi Hw. destruct (decide (i < length ls)%nat) as [Hi'|Hi'].
      * rewrite lookup_app_l in Hi by lia. rewrite lookup_app_l in Hw by lia. pose proof (is_list_new_ne _ _ _ _ _ _ HL Hk Hi) as Hlk.
        rewrite lookup_insert_ne by done. pose proof (il_node _ _ _ HL i l w Hi Hw) as Hl.
        assert (before (ls ++ [k]) i = before ls i) as ->.
        { destruct i as [|i]; [done|]. simpl. by rewrite lookup_app_l by lia. }
        destruct (decide (i = n)) as [->|Hil].
        -- rewrite Hlt in Hi. simplify_eq. rewrite lookup_insert_eq.
           rewrite lookup_app_r by lia. by replace (S n - length ls)%nat with O by lia.
        -- rewrite lookup_insert_ne by (intros <-; apply Hil; by eapply NoDup_lookup; [apply HL|exact Hi|exact Hlt]).
           rewrite lookup_insert_ne by done. by rewrite lookup_app_l by lia.
      * rewrite lookup_app_r in Hi by lia. rewrite lookup_app_r in Hw by lia. replace (length vs) with (length ls) in Hw by lia.
        destruct (i - length ls)%nat as [|j] eqn:Hj; simpl in Hi, Hw; [|done]. simplify_eq.
        assert (i = S n) as -> by lia. rewrite lookup_insert_eq.
        rewrite lookup_ge_None_2 by (rewrite length_app; simpl; lia).
        simpl. rewrite lookup_app_l by lia. rewrite Hlt. by simplify_eq.
    + rewrite lookup_app_l by lia. by rewrite Hl0.
    + rewrite length_app, Nat.add_1_r. simpl. rewrite lookup_app_r by lia. by rewrite Nat.sub_diag.
    + rewrite length_app. simpl. lia.
  - intros l Hl [nd Hn']. simpl. rewrite !lookup_insert_ne; [done|..].
    + intros ->. by rewrite Hk in Hn'.
    + intros ->. apply Hl. by eapply list_elem_of_lookup_2.
    + intros ->. by rewrite Hk in Hn'.
Qed.

Lemma UnShift_ok s ls vs t :
  is_list s ls vs → (Z.of_nat (length vs) + 1 < 2 ^ 63)%Z →
  wp (UnShift t) s (λ _ s', ∃ l, nodes s !! l = None ∧ is_list s' (l :: ls) (t :: vs) ∧ others_kept s ls s').
Proof.
  intros HL Hlen. pose proof (il_length _ _ _ HL) as Hll. unfold UnShift, set_len, set_first, set_tail.
  apply wp_bind, wp_get_li, wp_bind, wp_upd_li, wp_bind, wp_new_node. simpl. intros k Hk.
  pose proof (is_list_fresh _ _ _ _ HL Hk) as Hkls. rewrite (il_len _ _ _ HL), Hll, int_wrap_small by lia.
  rewrite (il_first _ _ _ HL).
  destruct (ls !! 0) as [l0|] eqn:Hl0.
  2:{ apply lookup_ge_None in Hl0. destruct ls; [|simpl in Hl0; lia]. destruct vs; [|done]. simpl.
    apply wp_bind, wp_upd_li, wp_upd_li. exists k. split; [done|]. split.
    - by apply is_list_singleton.
    - intros l _ [nd Hnd]. simpl. rewrite lookup_insert_ne; [done|]. intros ->. by rewrite Hk in Hnd. }
  destruct (is_list_lookup _ _ _ _ _ HL Hl0) as (v & Hv & Hnode).
  pose proof (is_list_new_ne _ _ _ _ _ _ HL Hk Hl0) as Hne.
  apply wp_bind. eapply wp_update; [simpl; by rewrite lookup_insert_eq|].
  apply wp_bind. eapply wp_update; [simpl; by rewrite !lookup_insert_ne|].
  apply wp_upd_li. exists k. split; [done|]. unfold set_prev, set_next. simpl. split.
  - split; simpl.
    + apply NoDup_cons. split; [done|apply HL].
    + by f_equal.
    + intros [|i] l w Hi Hw; simpl in Hi, Hw.
      * simplify_eq. rewrite lookup_insert_ne by done. rewrite lookup_insert_eq. simpl. by rewrite Hl0.
      * pose proof (is_list_new_ne _ _ _ _ _ _ HL Hk Hi) as Hlk. pose proof (il_node _ _ _ HL i l w Hi Hw) as Hl.
        destruct i as [|i]; simpl.
        -- rewrite Hl0 in Hi. simplify_eq. by rewrite lookup_insert_eq.
        -- rewrite lookup_insert_ne by (intros <-; by pose proof (NoDup_lookup _ _ _ _ (il_nodup _ _ _ HL) Hi Hl0)).
           rewrite !lookup_insert_ne by done. exact Hl.
    + done.
    + destruct (length ls) as [|n] eqn:Hn; [by apply lookup_lt_Some in Hl0; lia|].
      rewrite (il_tail _ _ _ HL), Hn. done.
    + lia.
  - intros l Hl [nd Hn']. simpl. rewrite !lookup_insert_ne; [done|..].
    + intros ->. by rewrite Hk in Hn'.
    + intros ->. by rewrite Hk in Hn'.
    + intros ->. apply Hl. by eapply list_elem_of_lookup_2.
Qed.

(** The nodes around index [i] skip it: the store holds the list without it. *)
Lemma delete_is_list s s' ls vs i :
  is_list s ls vs → (i < length ls)%nat →
  (∀ j l v, j ≠ i → ls !! j = Some l → vs !! j = Some v →
     nodes s' !! l = Some (mk_Node v (if decide (S j = i) then ls !! S i else ls !! S j)
                                     (if decide (j = S i) then before ls i else before ls j))) →
  first (li s') = (if decide (i = O) then ls !! 1%nat else ls !! O) →
  tail (li s') = (if decide (S i = length ls) then before ls i else before ls (length ls)) →
  len (li s') = (Z.of_nat (length ls) - 1)%Z → is_list s' (delete i ls) (delete i vs).
Proof.
  intros HL Hi Hnodes Hf Ht Hn. pose proof (il_length _ _ _ HL) as Hll.
  assert (length (delete i ls) = length ls - 1)%nat as Hd by (by rewrite length_delete by by apply lookup_lt_is_Some_2).
  split.
  - eapply sublist_NoDup; [apply HL|apply sublist_delete].
  - rewrite Hd, length_delete by (apply lookup_lt_is_Some_2; lia). lia.
  - intros j l v Hl Hv. destruct (decide (j < i)%nat) as [Hji|Hji].
    + rewrite list_lookup_delete_lt in Hl by done. rewrite list_lookup_delete_lt in Hv by done.
      rewrite (Hnodes j l v) by (done || lia). rewrite (decide_False (P := j = S i)) by lia. f_equal. f_equal.
      * destruct (decide (S j = i)) as [<-|Hne]; [by rewrite list_lookup_delete_ge by lia|by rewrite list_lookup_delete_lt by lia].
      * destruct j as [|j]; [done|]. simpl. by rewrite list_lookup_delete_lt by lia.
    + rewrite list_lookup_delete_ge in Hl by lia. rewrite list_lookup_delete_ge in Hv by lia.
      rewrite (Hnodes (S j) l v) by (done || lia). rewrite (decide_False (P := S (S j) = i)) by lia. f_equal. f_equal.
      * by rewrite list_lookup_delete_ge by lia.
      * destruct (decide (S j = S i)) as [[= ->]|Hne].
        -- destruct i as [|i]; [done|]. simpl. by rewrite list_lookup_delete_lt by lia.
        -- destruct j as [|j]; [lia|]. simpl. by rewrite list_lookup_delete_ge by lia.
  - rewrite Hf. destruct (decide (i = O)) as [->|Hne]; [by rewrite list_lookup_delete_ge by lia|by rewrite list_lookup_delete_lt by lia].
  - rewrite Ht, Hd. destruct (length ls) as [|n] eqn:Hlen; [lia|]. simpl. rewrite Nat.sub_0_r.
    destruct (decide (S i = S n)) as [[= <-]|Hne].
    + destruct i as [|i]; [done|]. simpl. by rewrite list_lookup_delete_lt by lia.
    + destruct n as [|n]; [lia|]. simpl. by rewrite list_lookup_delete_ge by lia.
  - rewrite Hn, Hd. lia.
Qed.

Lemma remove_ok s ls vs i l v :
  is_list s ls vs → ls !! i = Some l → vs !! i = Some v → (Z.of_nat (length vs) < 2 ^ 63)%Z →
  wp (remove (Some l)) s (λ _ s', is_list s' (delete i ls) (delete i vs) ∧ others_kept s ls s' ∧
    ∃ nd, nodes s' !! l = Some nd ∧ val nd = v).
Proof.
  intros HL Hi Hv Hlen. pose proof (il_length _ _ _ HL) as Hll. pose proof (il_nodup _ _ _ HL) as Hnd.
  pose proof (lookup_lt_Some _ _ _ Hi) as Hlt. pose proof (il_node _ _ _ HL i l v Hi Hv) as Hnode.
  assert (∀ j k l', ls !! j = Some l' → ls !! k = Some l' → j = k) as Hinj by (intros; by eapply NoDup_lookup).
  unfold remove, set_len, set_first, set_tail.
  apply wp_bind, wp_get_li, wp_bind, wp_upd_li, wp_bind. eapply wp_li_deref; [simpl; exact Hnode|]. cbn [prev next].
  rewrite (il_len _ _ _ HL), int_wrap_small by lia. destruct i as [|i]; cbn [before].
  - destruct (ls !! 1%nat) as [l1|] eqn:Hl1.
    + destruct (is_list_lookup _ _ _ _ _ HL Hl1) as (v1 & Hv1 & Hn1). pose proof (lookup_lt_Some _ _ _ Hl1).
      apply wp_bind, wp_upd_li. eapply wp_update; [exact Hn1|]. simpl. split; [|split].
      * eapply (delete_is_list s _ ls vs 0 HL Hlt); cbn [nodes li first tail len]; try done.
        -- intros j lj vj Hj Hlj Hvj. rewrite (decide_False (P := S j = O)) by lia.
           destruct (decide (j = 1%nat)) as [->|Hj1].
           ++ rewrite Hl1 in Hlj. simplify_eq. by rewrite lookup_insert_eq.
           ++ rewrite lookup_insert_ne by (intros ->; by eapply Hj1, Hinj). by apply (il_node _ _ _ HL).
        -- rewrite decide_False by lia. apply HL.
      * intros k Hk _. simpl. rewrite lookup_insert_ne; [done|]. intros ->. apply Hk. by eapply list_elem_of_lookup_2.
      * exists (mk_Node v (Some l1) None). rewrite lookup_insert_ne; [done|]. intros ->. by pose proof (Hinj _ _ _ Hi Hl1).
    + apply lookup_ge_None in Hl1. apply wp_bind, wp_upd_li, wp_upd_li. simpl. split; [|split].
      * eapply (delete_is_list s _ ls vs 0 HL Hlt); cbn [nodes li first tail len]; try done.
        -- intros j lj vj Hj Hlj. apply lookup_lt_Some in Hlj. lia.
        -- by rewrite lookup_ge_None_2 by lia.
        -- by rewrite decide_True by lia.
      * by intros k _ _.
      * by eexists.
  - destruct (lookup_lt_is_Some_2 ls i) as [lp Hlp]; [lia|]. rewrite Hlp.
    destruct (is_list_lookup _ _ _ _ _ HL Hlp) as (vp & Hvp & Hnp).
    assert (lp ≠ l) as Hpl by (intros ->; pose proof (Hinj _ _ _ Hi Hlp); lia).
    destruct (ls !! S (S i)) as [ln|] eqn:Hln.
    + destruct (is_list_lookup _ _ _ _ _ HL Hln) as (vn & Hvn & Hnn). pose proof (lookup_lt_Some _ _ _ Hln).
      assert (ln ≠ l ∧ ln ≠ lp) as [Hnl Hnp'] by (split; intros ->; [pose proof (Hinj _ _ _ Hi Hln)|pose proof (Hinj _ _ _ Hlp Hln)]; lia).
      apply wp_bind. eapply wp_update; [exact Hnp|]. eapply wp_update; [simpl; by rewrite lookup_insert_ne|]. simpl. split; [|split].
      * eapply (delete_is_list s _ ls vs (S i) HL Hlt); cbn [nodes li first tail len]; try done.
        -- intros j lj vj Hj Hlj Hvj. destruct (decide (j = i)) as [->|Hji]; [|destruct (decide (j = S (S i))) as [->|Hjn]].
           ++ rewrite Hlp in Hlj. simplify_eq. rewrite lookup_insert_ne, lookup_insert_eq by done.
              rewrite decide_True by done. rewrite decide_False by lia. by rewrite Hln.
           ++ rewrite Hln in Hlj. simplify_eq. rewrite lookup_insert_eq. rewrite decide_False by lia.
              unfold set_prev. simpl. by rewrite Hlp.
           ++ rewrite !lookup_insert_ne by (intros ->; (by eapply Hji, Hinj) || by eapply Hjn, Hinj).
              rewrite decide_False by lia. by apply (il_node _ _ _ HL).
        -- apply HL.
        -- rewrite decide_False by lia. apply HL.
      * intros k Hk _. simpl. rewrite !lookup_insert_ne; [done|..]; intros ->; apply Hk; by eapply list_elem_of_lookup_2.
      * eexists. by rewrite !lookup_insert_ne by done.
    + apply lookup_ge_None in Hln. apply wp_bind, wp_upd_li. eapply wp_update; [exact Hnp|]. simpl. split; [|split].
      * eapply (delete_is_list s _ ls vs (S i) HL Hlt); cbn [nodes li first tail len]; try done.
        -- intros j lj vj Hj Hlj Hvj. pose proof (lookup_lt_Some _ _ _ Hlj).
           rewrite (decide_False (P := j = S (S i))) by lia. destruct (decide (j = i)) as [->|Hji].
           ++ rewrite Hlp in Hlj. simplify_eq. rewrite lookup_insert_eq. rewrite decide_True by done.
              by rewrite (lookup_ge_None_2 ls (S (S i))) by lia.
           ++ rewrite lookup_insert_ne by (intros ->; by eapply Hji, Hinj). rewrite decide_False by lia. by apply (il_node _ _ _ HL).
        -- apply HL.
        -- rewrite decide_True by lia. cbn [before]. by rewrite Hlp.
      * intros k Hk _. simpl. rewrite lookup_insert_ne; [done|]. intros ->. apply Hk. by eapply list_elem_of_lookup_2.
      * eexists. by rewrite lookup_insert_ne by done.
Qed.

Lemma wp_first s ls vs (Q : List → store → Prop) : is_list s ls vs → Q (mk_List (ls !! O) (before ls (length ls)) (Z.of_nat (length ls))) s → wp get_li s Q.
Proof.
  intros HL HQ. apply wp_get_li. rewrite <- (il_first _ _ _ HL), <- (il_tail _ _ _ HL), <- (il_len _ _ _ HL) in HQ.
  by destruct (li s).
Qed.

Lemma Shift_ok s ls v vs :
  is_list s ls (v :: vs) → (Z.of_nat (length (v :: vs)) < 2 ^ 63)%Z →
  wp Shift s (λ r s', r = v ∧ is_list s' (delete O ls) vs ∧ others_kept s ls s').
Proof.
  intros HL Hlen. destruct (lookup_lt_is_Some_2 ls 0) as [l Hl]; [by rewrite (il_length _ _ _ HL); simpl; lia|].
  unfold Shift. apply wp_bind. eapply wp_first; [exact HL|]. cbn [first]. rewrite Hl.
  apply wp_bind. eapply wp_li_deref; [by eapply il_node|]. apply wp_bind.
  eapply wp_mono; [by eapply remove_ok|]. intros [] s' (HL' & Ho & _). by apply wp_ret.
Qed.
Lemma Pop_ok s ls v vs :
  is_list s ls (vs ++ [v]) → (Z.of_nat (length (vs ++ [v])) < 2 ^ 63)%Z →
  wp Pop s (λ r s', r = v ∧ is_list s' (delete (length vs) ls) vs ∧ others_kept s ls s').
Proof.
  intros HL Hlen. pose proof (il_length _ _ _ HL) as Hll. rewrite length_app in Hll. simpl in Hll.
  destruct (lookup_lt_is_Some_2 ls (length vs)) as [l Hl]; [lia|].
  unfold Pop. apply wp_bind. eapply wp_first; [exact HL|]. cbn [tail].
  replace (length ls) with (S (length vs)) by lia. cbn [before]. rewrite Hl. apply wp_bind.
  assert ((vs ++ [v]) !! length vs = Some v) as Hv by (rewrite lookup_app_r by lia; by rewrite Nat.sub_diag).
  eapply wp_mono; [by eapply remove_ok|]. intros [] s' (HL' & Ho & nd & Hnd & Hval).
  rewrite delete_middle in HL'. rewrite app_nil_r in HL'.
  apply wp_bind. eapply wp_li_deref; [exact Hnd|]. by apply wp_ret.
Qed.

Lemma is_list_size s ls vs : is_list s ls vs → (length ls ≤ size (nodes s))%nat.
Proof.
  intros HL. rewrite <- size_dom. rewrite <- (size_list_to_set (C := gset positive) ls) by apply HL.
  apply subseteq_size. intros l Hl%elem_of_list_to_set. apply list_elem_of_lookup in Hl as [i Hi].
  destruct (is_list_lookup _ _ _ _ _ HL Hi) as (v & _ & Hn). apply elem_of_dom. by eexists.
Qed.
Lemma index_loop_ok fuel s ls vs index (i : nat) :
  is_list s ls vs → (Z.of_nat (length ls) < 2 ^ 63)%Z → (i ≤ length ls)%nat → (length ls - i < fuel)%nat →
  index_loop fuel (Z.of_nat i) index (ls !! i) s =
    if decide (Z.of_nat i ≤ index < Z.of_nat (length ls))%Z then Some (ls !! Z.to_nat index, s)
    else if decide (index = Z.of_nat (length ls))%Z then Some (None, s) else None.
Proof.
  intros HL Hlen. revert i. induction fuel as [|fuel IH]; intros i Hi Hf; [lia|]. cbn [index_loop].
  destruct (Z.eqb_spec (Z.of_nat i) index) as [<-|Hne].
  - destruct (decide (i = length ls)) as [->|Hil].
    + rewrite decide_False by lia. rewrite decide_True by done. by rewrite lookup_ge_None_2 by lia.
    + rewrite decide_True by lia. by rewrite Nat2Z.id.
  - destruct (decide (i = length ls)) as [->|Hil].
    + rewrite (lookup_ge_None_2 ls (length ls)) by lia. by rewrite decide_False, decide_False by lia.
    + destruct (lookup_lt_is_Some_2 ls i) as [l Hl]; [lia|]. destruct (is_list_lookup _ _ _ _ _ HL Hl) as (v & _ & Hn).
      rewrite Hl. unfold mbind, ST_bind, deref, st_gets. simpl. rewrite Hn. cbn [next].
      rewrite int_wrap_small by lia. replace (Z.of_nat i + 1)%Z with (Z.of_nat (S i)) by lia. rewrite IH by lia.
      destruct (decide (Z.of_nat (S i) ≤ index < Z.of_nat (length ls))%Z).
      * by rewrite decide_True by lia.
      * by rewrite (decide_False (P := (Z.of_nat i ≤ index < _)%Z)) by lia.
Qed.
Lemma IndexOp_ok s ls vs index :
  is_list s ls vs → (Z.of_nat (length vs) < 2 ^ 63)%Z →
  IndexOp index s = if decide (0 ≤ index)%Z then (v ← vs !! Z.to_nat index; Some (v, s)) else None.
Proof.
  intros HL Hlen. pose proof (il_length _ _ _ HL) as Hll. pose proof (is_list_size _ _ _ HL) as Hsz.
  unfold IndexOp, mbind, ST_bind, get_li, st_gets, st_get. rewrite (il_first _ _ _ HL).
  rewrite (index_loop_ok _ s ls vs index 0 HL) by lia. destruct (decide (0 ≤ index)%Z) as [Hi|Hi].
  - destruct (decide (Z.of_nat 0 ≤ index < Z.of_nat (length ls))%Z) as [Hin|Hin].
    + destruct (lookup_lt_is_Some_2 ls (Z.to_nat index)) as [l Hl]; [lia|].
      destruct (is_list_lookup _ _ _ _ _ HL Hl) as (v & Hv & Hn). rewrite Hl. unfold deref, st_gets. simpl.
      rewrite Hn, Hv. done.
    + rewrite (lookup_ge_None_2 vs) by lia. simpl. case_decide; done.
  - rewrite decide_False by lia. by rewrite decide_False by lia.
Qed.

(** ** Programs on a list *)

Inductive list_op := OPush (t : T) | OUnShift (t : T) | OShift | OPop | OLen | OIndex (i : Z).
Inductive list_ans := ANone | AVal (t : T) | ALen (z : Z).

Definition run_op (o : list_op) : ST store list_ans :=
  match o with
  | OPush t => Push t;; mret ANone
  | OUnShift t => UnShift t;; mret ANone
  | OShift => v ← Shift; mret (AVal v)
  | OPop => v ← Pop; mret (AVal v)
  | OLen => n ← Len; mret (ALen n)
  | OIndex i => v ← IndexOp i; mret (AVal v)
  end.
Fixpoint run_ops (os : list list_op) : ST store (list list_ans) :=
  match os with
  | [] => mret []
  | o :: os => a ← run_op o; rest ← run_ops os; mret (a :: rest)
  end.

(** The same operations on sequences. *)
Definition seq_op (o : list_op) (vs : list T) : option (list_ans * list T) :=
  match o with
  | OPush t => Some (ANone, vs ++ [t])
  | OUnShift t => Some (ANone, t :: vs)
  | OShift => match vs with [] => None | v :: vs => Some (AVal v, vs) end
  | OPop => match reverse vs with [] => None | v :: rs => Some (AVal v, reverse rs) end
  | OLen => Some (ALen (Z.of_nat (length vs)), vs)
  | OIndex i => if decide (0 ≤ i)%Z then v ← vs !! Z.to_nat i; Some (AVal v, vs) else None
  end.
Fixpoint seq_ops (os : list list_op) (vs : list T) : option (list list_ans * list T) :=
  match os with
  | [] => Some ([], vs)
  | o :: os => '(a, vs) ← seq_op o vs; '(rest, vs) ← seq_ops os vs; Some (a :: rest, vs)
  end.

Lemma framed_refl s ls : framed s ls s ls.
Proof. split; [by intros l|]. intros l Hl. by left. Qed.
Lemma framed_trans s ls s1 ls1 s2 ls2 : framed s ls s1 ls1 → framed s1 ls1 s2 ls2 → framed s ls s2 ls2.
Proof.
  intros [Ho Hn] [Ho1 Hn1]. split.
  - intros l Hl [nd Hnd]. assert (l ∉ ls1) as Hl1 by (intros [?|?]%Hn; [done|congruence]).
    pose proof (Ho l Hl ltac:(by eexists)) as Heq. rewrite <- Heq. apply Ho1; [done|]. rewrite Heq. by eexists.
  - intros l [Hl|Hl]%Hn1; [by apply Hn|]. destruct (decide (l ∈ ls)) as [|Hls]; [by left|right].
    destruct (nodes s !! l) as [nd|] eqn:Hnd; [|done]. rewrite (Ho l Hls) in Hl by by eexists. congruence.
Qed.
Lemma framed_sublist s ls s' ls' : others_kept s ls s' → ls' ⊆ ls → framed s ls s' ls'.
Proof. intros Ho Hs. split; [done|]. intros l Hl. left. by apply Hs. Qed.
Lemma delete_subseteq_list {A} i (l : list A) : delete i l ⊆ l.
Proof. intros x Hx. eapply sublist_subseteq; [apply sublist_delete|exact Hx]. Qed.

Lemma run_op_refines o s ls vs :
  is_list s ls vs → (Z.of_nat (length vs) + 1 < 2 ^ 63)%Z →
  match seq_op o vs with
  | Some (a, vs') => wp (run_op o) s (λ a' s', a' = a ∧ ∃ ls', is_list s' ls' vs' ∧ framed s ls s' ls')
  | None => run_op o s = None
  end.
Proof.
  intros HL Hlen. destruct o as [t|t| | | |i]; cbn [seq_op run_op].
  - apply wp_bind. eapply wp_mono; [by apply Push_ok|]. intros [] s' (l & Hfr & HL' & Ho). apply wp_ret. split; [done|]. eexists. split; [exact HL'|]. split; [done|].
    intros x [?|Hx]%elem_of_app; [by left|]. apply list_elem_of_singleton in Hx as ->. by right.
  - apply wp_bind. eapply wp_mono; [by apply UnShift_ok|]. intros [] s' (l & Hfr & HL' & Ho). apply wp_ret. split; [done|]. eexists. split; [exact HL'|]. split; [done|].
    intros x [->|?]%elem_of_cons; [by right|by left].
  - destruct vs as [|v vs].
    + unfold Shift, mbind, ST_bind, get_li, st_gets. rewrite (il_first _ _ _ HL).
      apply il_length in HL. by destruct ls.
    + apply wp_bind. eapply wp_mono; [eapply Shift_ok; [exact HL|lia]|]. intros r s' (-> & HL' & Ho). apply wp_ret. split; [done|]. eexists. split; [exact HL'|]. apply framed_sublist; [done|apply delete_subseteq_list].
  - destruct (reverse vs) as [|v rs] eqn:Hr; apply (f_equal reverse) in Hr; rewrite reverse_involutive in Hr; subst vs.
    + unfold Pop, mbind, ST_bind, get_li, st_gets. rewrite (il_tail _ _ _ HL).
      apply il_length in HL. by destruct ls.
    + rewrite reverse_cons in *. apply wp_bind. eapply wp_mono; [eapply Pop_ok; [exact HL|lia]|].
      intros r s' (-> & HL' & Ho). apply wp_ret. split; [done|]. eexists. split; [exact HL'|]. apply framed_sublist; [done|apply delete_subseteq_list].
  - apply wp_bind. unfold Len. apply wp_bind. eapply wp_first; [exact HL|]. apply wp_ret, wp_ret.
    rewrite <- (il_length _ _ _ HL). split; [done|]. eexists. split; [exact HL|apply framed_refl].
  - pose proof (IndexOp_ok s ls vs i HL ltac:(lia)) as Hix. unfold mbind, ST_bind, wp.
    destruct (decide (0 ≤ i)%Z); [|by rewrite Hix].
    destruct (vs !! Z.to_nat i) as [v|]; simpl in Hix |- *; rewrite Hix; [|done].
    exists (AVal v), s. split; [done|]. split; [done|]. eexists. split; [exact HL|apply framed_refl].
Qed.
Lemma seq_op_length o vs a vs' : seq_op o vs = Some (a, vs') → (length vs' ≤ length vs + 1)%nat.
Proof.
  destruct o as [t|t| | | |i]; simpl.
  - intros [= _ <-]. rewrite length_app. simpl. lia.
  - intros [= _ <-]. simpl. lia.
  - destruct vs; [done|]. intros [= _ <-]. simpl. lia.
  - destruct (reverse vs) eqn:Hr; [done|]. intros [= _ <-]. apply (f_equal length) in Hr.
    rewrite length_reverse in Hr. simpl in Hr. rewrite length_reverse. lia.
  - intros [= _ <-]. lia.
  - case_decide; [|done]. destruct (vs !! _); simpl; [|done]. intros [= _ <-]. lia.
Qed.

(** C17. A program that pushes, unshifts, shifts, pops, counts and indexes a
    list of the runtime gets exactly the answers of the same operations on a
    sequence; it uses a nil pointer exactly when the sequence operation is
    undefined; the counter is the number of elements as long as it fits 64
    bits; and at the end the list is linked in both directions, made of nodes it
    had and of new ones, while the nodes of other lists are as they were. *)
Theorem linkedlist_refines os s ls vs :
  is_list s ls vs → (Z.of_nat (length vs + length os) < 2 ^ 63)%Z →
  match seq_ops os vs with
  | Some (rs, vs') => wp (run_ops os) s (λ rs' s', rs' = rs ∧ ∃ ls', is_list s' ls' vs' ∧ framed s ls s' ls')
  | None => run_ops os s = None
  end.
Proof.
  revert s ls vs. induction os as [|o os IH]; intros s ls vs HL Hlen; cbn [seq_ops run_ops].
  { apply wp_ret. split; [done|]. exists ls. split; [done|apply framed_refl]. }
  simpl in Hlen. pose proof (run_op_refines o s ls vs HL ltac:(lia)) as Ho.
  destruct (seq_op o vs) as [[a vs1]|] eqn:Hop; simpl.
  2:{ unfold mbind, ST_bind. by rewrite Ho. }
  pose proof (seq_op_length _ _ _ _ Hop). destruct Ho as (a' & s1 & Hrun & -> & ls1 & HL1 & Hfr1).
  specialize (IH s1 ls1 vs1 HL1 ltac:(lia)). destruct (seq_ops os vs1) as [[rs vs2]|]; simpl.
  - apply wp_bind. exists a, s1. split; [exact Hrun|]. apply wp_bind. eapply wp_mono; [exact IH|].
    intros rs' s2 (-> & ls2 & HL2 & Hfr2). apply wp_ret. split; [done|]. exists ls2. split; [done|by eapply framed_trans].
  - unfold mbind, ST_bind. rewrite Hrun. by rewrite IH.
Qed.
End list.
#[global] Arguments Node : clear implicits.
#[global] Arguments store : clear implicits.

(** ** An instance *)

(** An empty list next to a node of another one. *)
Definition empty_list : store nat := mk_store {[7%positive := mk_Node 42%nat None None]} New.
Lemma empty_list_ok : is_list empty_list [] [].
Proof. split; try done. apply NoDup_nil_2. Qed.
Lemma linkedlist_refines_witness :
  wp (run_ops [OPush 1; OPush 2; OUnShift 0; OIndex 2; OPop; OShift; OLen; OShift]%nat) empty_list
    (λ rs s', rs = [ANone; ANone; ANone; AVal 2; AVal 2; AVal 0; ALen 1; AVal 1]%nat ∧ nodes s' !! 7%positive = Some (mk_Node 42%nat None None)).
Proof.
  eapply wp_mono.
  - apply (linkedlist_refines [OPush 1; OPush 2; OUnShift 0; OIndex 2; OPop; OShift; OLen; OShift]%nat empty_list [] []).
    + apply empty_list_ok.
    + reflexivity.
  - intros rs s [-> (ls & _ & Ho & _)]. split; [done|]. rewrite (Ho 7%positive); [done|apply not_elem_of_nil|by eexists].
Defined.
