(* ===== verification/Coro.v ===== *)
(** * Coroutines: the scheduler and await

    An async function of calc becomes a state machine: an object of the heap,
    its context, with the fields the code generator lays out in
    src/compiler/ast/generator.go and function.go, and a function StepNext
    that jumps to the block whose address the context holds.
    src/runtime/coro/coro.calc schedules them: a queue under a mutex and a
    condition variable, and a worker per processor that takes a state machine
    from the queue and calls StepNext while it answers true.

    The functions of coro.calc and the code that src/compiler/ast emits for
    await and return are programs ([prog]) of operations on the shared memory,
    one per access.  Threads interleave between any two operations.  The
    mutexes and the condition variable behave as pthread promises: a wait may
    end without a signal, and a signal wakes any one of the waiting threads.
    The list of tasks behaves as a sequence, which LinkedList.v proves of the
    runtime's list. *)
From S2P Require Import Prelude.

(** ** Shared memory *)

Abbreviation thread_id := nat.
Abbreviation task_id := nat.

(** The statements of an async function as far as tasks are concerned: one
    that touches no task, [x := f()] for the async function number [f], and
    [await x].  Every function ends with a return. *)
Inductive instr :=
  | IStep
  | ICall (x : string) (f : nat)
  | IAwait (x : string).

(** The context of a state machine. [creator], the state machine that called
    the function, is not in the code: it names the only owner of a task. *)
Record ctx := mk_ctx {
  nextTask : option task_id;
  mutex : option thread_id;
  end_ : bool;
  locals : gmap string task_id;
  (** the address of a block: a function and a statement, or its exit *)
  nextBlock : nat * option nat;
  creator : option task_id;
}.

Record shared := mk_shared {
  ctxs : list ctx;
  tasks : list task_id;
  mu : option thread_id;
  waiting : gset thread_id;
  (** the statements that ran, latest first; not in the code *)
  trace : list (task_id * nat);
}.

Definition upd_ctx (s : shared) (t : task_id) (c : ctx) : shared :=
  mk_shared (<[t:=c]> (ctxs s)) (tasks s) (mu s) (waiting s) (trace s).
Definition with_tasks (s : shared) (q : list task_id) : shared :=
  mk_shared (ctxs s) q (mu s) (waiting s) (trace s).
Definition with_mu (s : shared) (m : option thread_id) : shared :=
  mk_shared (ctxs s) (tasks s) m (waiting s) (trace s).
Definition with_waiting (s : shared) (w : gset thread_id) : shared :=
  mk_shared (ctxs s) (tasks s) (mu s) w (trace s).

Definition with_next (c : ctx) n := mk_ctx n (mutex c) (end_ c) (locals c) (nextBlock c) (creator c).
Definition with_mutex (c : ctx) m := mk_ctx (nextTask c) m (end_ c) (locals c) (nextBlock c) (creator c).
Definition with_block (c : ctx) b := mk_ctx (nextTask c) (mutex c) (end_ c) (locals c) b (creator c).
Definition with_locals (c : ctx) l := mk_ctx (nextTask c) (mutex c) (end_ c) l (nextBlock c) (creator c).
(** SetDone stores true and clears the fields behind it. *)
Definition with_done (c : ctx) := mk_ctx (nextTask c) (mutex c) true ∅ (nextBlock c) (creator c).

(** ** Operations *)

Inductive op : Set → Type :=
  | LockDs : op unit
  | UnLockDs : op unit
  | CondSleep : op unit
  | CondWake : op unit
  | CondSignal : op unit
  | TasksLen : op nat
  | TasksPush (t : task_id) : op unit
  | TasksShift : op task_id
  | NewCtx (by_ : option task_id) (f : nat) : op task_id
  | MuLock (t : task_id) : op unit
  | MuUnLock (t : task_id) : op unit
  | GetDone (t : task_id) : op bool
  | SetDone (t : task_id) : op unit
  | GetContinuous (t : task_id) : op (option task_id)
  | SetNext (t u : task_id) : op unit
  | GetBlock (t : task_id) : op (nat * option nat)
  | SetBlock (t : task_id) (b : nat * option nat) : op unit
  | GetLocal (t : task_id) (x : string) : op task_id
  | SetLocal (t : task_id) (x : string) (u : task_id) : op unit
  | Run (t : task_id) (pc : nat) : op unit.

(** An operation crashes or goes on to one of several outcomes; without an
    outcome the thread has to wait. *)
Inductive outcome (X : Type) :=
  | Crash
  | Go (l : list (X * shared)).
Arguments Crash {X}.
Arguments Go {X} l.

Definition at_ctx {X} (s : shared) (t : task_id) (f : ctx → outcome X) : outcome X :=
  match ctxs s !! t with Some c => f c | None => Crash end.

Definition exec {X : Set} (i : thread_id) (o : op X) (s : shared) : outcome X :=
  match o in op X return outcome X with
  | LockDs => match mu s with None => Go [(tt, with_mu s (Some i))] | Some _ => Go [] end
  | UnLockDs => if decide (mu s = Some i) then Go [(tt, with_mu s None)] else Crash
  | CondSleep => if decide (mu s = Some i)
      then Go [(tt, with_waiting (with_mu s None) ({[i]} ∪ waiting s))] else Crash
  | CondWake => if decide (i ∈ waiting s) then Go [] else Go [(tt, s)]
  | CondSignal => Go (if decide (waiting s = ∅) then [(tt, s)]
      else (λ j, (tt, with_waiting s (waiting s ∖ {[j]}))) <$> elements (waiting s))
  | TasksLen => Go [(length (tasks s), s)]
  | TasksPush t => Go [(tt, with_tasks s (tasks s ++ [t]))]
  | TasksShift => match tasks s with [] => Crash | t :: q => Go [(t, with_tasks s q)] end
  | NewCtx by_ f => Go [(length (ctxs s),
      mk_shared (ctxs s ++ [mk_ctx None None false ∅ (f, Some O) by_]) (tasks s) (mu s) (waiting s) (trace s))]
  | MuLock t => at_ctx s t (λ c,
      match mutex c with None => Go [(tt, upd_ctx s t (with_mutex c (Some i)))] | Some _ => Go [] end)
  | MuUnLock t => at_ctx s t (λ c,
      if decide (mutex c = Some i) then Go [(tt, upd_ctx s t (with_mutex c None))] else Crash)
  | GetDone t => at_ctx s t (λ c, Go [(end_ c, s)])
  | SetDone t => at_ctx s t (λ c, Go [(tt, upd_ctx s t (with_done c))])
  | GetContinuous t => at_ctx s t (λ c, Go [(nextTask c, s)])
  | SetNext t u => at_ctx s t (λ c, Go [(tt, upd_ctx s t (with_next c (Some u)))])
  | GetBlock t => at_ctx s t (λ c, Go [(nextBlock c, s)])
  | SetBlock t b => at_ctx s t (λ c, Go [(tt, upd_ctx s t (with_block c b))])
  | GetLocal t x => at_ctx s t (λ c, match locals c !! x with Some u => Go [(u, s)] | None => Crash end)
  | SetLocal t x u => at_ctx s t (λ c, Go [(tt, upd_ctx s t (with_locals c (<[x:=u]> (locals c))))])
  | Run t pc => Go [(tt, mk_shared (ctxs s) (tasks s) (mu s) (waiting s) ((t, pc) :: trace s))]
  end.

(** ** Programs *)

Inductive prog (A : Type) : Type :=
  | Ret (a : A)
  | Vis {X : Set} (o : op X) (k : X → prog A).
Arguments Ret {A} a.
Arguments Vis {A X} o k.

Definition call {X : Set} (o : op X) : prog X := Vis o Ret.
Fixpoint prog_bind {A B} (p : prog A) (f : A → prog B) : prog B :=
  match p with
  | Ret a => f a
  | Vis o k => Vis o (λ x, prog_bind (k x) f)
  end.
#[export] Instance prog_ret : MRet prog := λ A a, Ret a.
#[export] Instance prog_mbind : MBind prog := λ A B f p, prog_bind p f.

(** *** coro.calc *)

(** QueueTask of the default scheduler. *)
Definition QueueTask (st : task_id) : prog unit :=
  call LockDs;;
  call (TasksPush st);;
  call CondSignal;;
  call UnLockDs.

Definition QueueTaskIfPossible (st : option task_id) : prog bool :=
  match st with
  | None => mret false
  | Some st => QueueTask st;; mret true
  end.

(** The function also zeroes the first word of its own copy of the interface
    value [st], which nothing reads afterwards. *)
Definition TryQueueContinuous (st : task_id) : prog unit :=
  call (MuLock st);;
  call (SetDone st);;
  c ← call (GetContinuous st);
  QueueTaskIfPossible c;;
  call (MuUnLock st).

Definition LockST (st : task_id) : prog unit := call (MuLock st).
Definition UnLockST (st : task_id) : prog unit := call (MuUnLock st).
Definition IsDone (st : task_id) : prog bool := call (GetDone st).

(** The worker of Exec: [ds.mu.Lock()], then the test of its inner loop, which
    waits and tests again ([None]) or takes a task. *)
Definition worker_lock : prog (option task_id) := call LockDs;; mret None.
Definition worker_test : prog (option task_id) :=
  n ← call TasksLen;
  if decide (n = O) then
    call CondSleep;; call CondWake;; call LockDs;; mret None
  else
    t ← call TasksShift;
    call UnLockDs;;
    mret (Some t).

(** *** The code of async functions *)

(** AwaitNode.calc: lock the task; if it is not done, store this state machine
    as its continuation; unlock; store the block behind the await; leave
    StepNext, which is called again if the task was done. *)
Definition await_ (self : task_id) (x : string) (behind : nat * option nat) : prog bool :=
  st ← call (GetLocal self x);
  LockST st;;
  b ← IsDone st;
  (if b : bool then mret tt else call (SetNext st self));;
  UnLockST st;;
  call (SetBlock self behind);;
  mret b.

(** RetNode.calc in an async function. *)
Definition return_ (self : task_id) (f : nat) : prog bool :=
  call (SetBlock self (f, None));;
  TryQueueContinuous self;;
  mret false.

(** A call of an async function makes its context and queues it
    (buildGenerator and CallFuncNode.calc). *)
Definition call_async (by_ : option task_id) (f : nat) : prog task_id :=
  st ← call (NewCtx by_ f);
  QueueTask st;;
  mret st.

(** The statements from number [pc] on. *)
Fixpoint run_block (self : task_id) (f pc : nat) (sts : list instr) : prog bool :=
  match sts with
  | [] => return_ self f
  | IStep :: sts => call (Run self pc);; run_block self f (S pc) sts
  | ICall x g :: sts =>
      st ← call_async (Some self) g;
      call (SetLocal self x st);;
      run_block self f (S pc) sts
  | IAwait x :: _ => await_ self x (f, Some (S pc))
  end.

Section program.
(** The bodies of the async functions and the calls of the main function. *)
Context (bodies : list (list instr)).
Definition body (f : nat) : list instr := default [] (bodies !! f).

(** StepNext jumps to the block of the context. *)
Definition StepNext (self : task_id) : prog bool :=
  '(f, b) ← call (GetBlock self);
  match b with
  | None => mret false
  | Some pc => run_block self f pc (drop pc (body f))
  end.

Fixpoint main_prog (calls : list nat) : prog unit :=
  match calls with
  | [] => mret tt
  | f :: calls => call_async None f;; main_prog calls
  end.

(** ** Threads *)

Inductive thread :=
  | Main (p : prog unit)
  | Fetching (p : prog (option task_id))
  | Stepping (t : task_id) (p : prog bool).

(** What a worker does next when a part of its loop is done. *)
Definition settle (th : thread) : thread :=
  match th with
  | Fetching (Ret None) => Fetching worker_test
  | Fetching (Ret (Some t)) => Stepping t (StepNext t)
  | Stepping t (Ret true) => Stepping t (StepNext t)
  | Stepping t (Ret false) => Fetching worker_lock
  | _ => th
  end.

Definition outcome_map {X Y} (f : X → Y) (r : outcome X) : outcome Y :=
  match r with
  | Crash => Crash
  | Go l => Go ((λ '(x, s), (f x, s)) <$> l)
  end.

(** One operation of a thread. *)
Definition step_prog {A} (i : thread_id) (p : prog A) (s : shared) : outcome (prog A) :=
  match p with
  | Ret _ => Go []
  | Vis o k => outcome_map k (exec i o s)
  end.
Definition step_thread (i : thread_id) (th : thread) (s : shared) : outcome thread :=
  match th with
  | Main p => outcome_map Main (step_prog i p s)
  | Fetching p => outcome_map (λ p, settle (Fetching p)) (step_prog i p s)
  | Stepping t p => outcome_map (λ p, settle (Stepping t p)) (step_prog i p s)
  end.

Record config := mk_config { mem_ : shared; threads : list thread }.

Inductive cstep : config → config → Prop :=
  | cstep_thread s ths i th outs th' s' :
      ths !! i = Some th → step_thread i th s = Go outs → (th', s') ∈ outs →
      cstep (mk_config s ths) (mk_config s' (<[i:=th']> ths))
  | cstep_spurious s ths i :
      i ∈ waiting s → cstep (mk_config s ths) (mk_config (with_waiting s (waiting s ∖ {[i]})) ths).

Definition crashed (c : config) : Prop :=
  ∃ i th, threads c !! i = Some th ∧ step_thread i th (mem_ c) = Crash.
(** No thread has anything to do. *)
Definition stuck (c : config) : Prop :=
  ∀ i th, threads c !! i = Some th → step_thread i th (mem_ c) = Go [].

(** The main function and [n] workers. *)
Definition init (calls : list nat) (n : nat) : config :=
  mk_config (mk_shared [] [] None ∅ []) (Main (main_prog calls) :: replicate n (Fetching worker_lock)).

(** A schedule: which thread moves, and to which of its outcomes. *)
Fixpoint run_schedule (sched : list (nat * nat)) (c : config) : option config :=
  match sched with
  | [] => Some c
  | (i, j) :: sched =>
      th ← threads c !! i;
      match step_thread i th (mem_ c) with
      | Crash => None
      | Go outs => '(th', s') ← outs !! j;
          run_schedule sched (mk_config s' (<[i:=th']> (threads c)))
      end
  end.
End program.
