(* ===== verification/CoroInv.v ===== *)
(** * The invariant of the coroutine scheduler

    Each thread has a ghost state: what part of a critical section of the
    queue it is in, which task's mutex it holds and what it knows of that
    task, and the tasks whose run it is responsible for.  The invariant says
    that these agree with the shared memory, above all that each task that is
    not done is in exactly one place: in the queue, in the hands of a thread,
    or stored as the continuation of another task that is not done.  The
    lemmas say how the parts of the invariant follow the updates of memory
    and ghosts. *)
From S2P Require Import Prelude Coro.

(** ** Ghost states *)

(** The critical section of the queue: nothing known, known empty, known not
    empty, and a task pushed but nobody woken yet. *)
Inductive ds_phase := DsFree | DsHeld | DsEmpty | DsFull | DsPushed.
(** The mutex of a task: held; held and seen not done; held and just done. *)
Inductive st_phase := StFree | StHeld (t : task_id) | StUndone (t : task_id) | StDone (t : task_id).
#[export] Instance ds_phase_eq_dec : EqDecision ds_phase.
Proof. solve_decision. Defined.

Definition st_task (p : st_phase) : option task_id :=
  match p with StFree => None | StHeld t | StUndone t | StDone t => Some t end.

Record ghost := mk_ghost {
  g_main : bool;
  (** it sleeps on the condition variable *)
  g_wait : bool;
  g_ds : ds_phase;
  g_st : st_phase;
  (** the task it runs, and one it is about to queue *)
  g_run : option task_id;
  g_pend : option task_id;
  (** the task it runs is on its way out *)
  g_exit : bool;
  (** task, function and statement: the locals assigned before are there *)
  g_pc : option (task_id * nat * nat);
  (** a task in a local of the second *)
  g_child : option (task_id * task_id);
}.
Definition idle (main : bool) : ghost := mk_ghost main false DsFree StFree None None false None None.
Definition sleeping : ghost := mk_ghost false true DsFree StFree None None false None None.
Definition running (t : task_id) : ghost := mk_ghost false false DsFree StFree (Some t) None false None None.
Definition holding (d : ds_phase) : ghost := mk_ghost false false d StFree None None false None None.

Definition opt_list {A} (o : option A) : list A := match o with Some a => [a] | None => [] end.
Definition g_toks (g : ghost) : list task_id := opt_list (g_run g) ++ opt_list (g_pend g).

Definition live (s : shared) (t : task_id) : Prop := ∃ c, ctxs s !! t = Some c ∧ end_ c = false.
(** A task that is not done keeps its continuation. *)
Definition next_toks (c : ctx) : list task_id := if end_ c then [] else opt_list (nextTask c).

Abbreviation ghosts := (gmap thread_id ghost).
Definition ghost_toks (G : ghosts) : list task_id := (map_to_list G).*2 ≫= g_toks.
Definition tokens (s : shared) (G : ghosts) : list task_id :=
  tasks s ++ ghost_toks G ++ (ctxs s ≫= next_toks).

(** The variables assigned by the calls before a statement. *)
Definition called (sts : list instr) : list string :=
  omap (λ st, match st with ICall x _ => Some x | _ => None end) sts.

Section inv.
Context (bodies : list (list instr)).
#[local] Notation body := (body bodies).

Definition has_locals (c : ctx) (f pc : nat) : Prop :=
  ∀ x, x ∈ called (take pc (body f)) → is_Some (locals c !! x).

(** Every plain statement before [pc] has run. *)
Definition ran (s : shared) (t : task_id) (f pc : nat) : Prop :=
  ∀ q, q < pc → body f !! q = Some IStep → (t, q) ∈ trace s.
Definition ran_all (s : shared) (t : task_id) (c : ctx) : Prop :=
  ran s t (nextBlock c).1 (length (body (nextBlock c).1)).

(** With a single worker, thread 1: what it is about to run of a task, or the
    block it will continue at, lies behind all that ran of it. *)
Definition at_work (G : ghosts) (t : task_id) (pc : nat) : Prop :=
  ∃ g f, G !! 1%nat = Some g ∧ g_pc g = Some (t, f, pc).
Definition single (G : ghosts) : Prop := ∀ i, is_Some (G !! i) → i ≤ 1.
Record once (s : shared) (G : ghosts) : Prop := mk_once {
  on_nodup : NoDup (trace s);
  on_task : ∀ t q, (t, q) ∈ trace s → t < length (ctxs s);
  on_work : ∀ t q pc, (t, q) ∈ trace s → at_work G t pc → q < pc;
  on_block : ∀ t q c pc, (t, q) ∈ trace s → (∀ pc', ¬ at_work G t pc') →
    ctxs s !! t = Some c → (nextBlock c).2 = Some pc → q < pc;
}.

(** ** The invariant *)

Record ctx_ok (s : shared) (t : task_id) (c : ctx) : Prop := mk_ctx_ok {
  co_block : ∀ pc, (nextBlock c).2 = Some pc → end_ c = false → has_locals c (nextBlock c).1 pc;
  co_locals : ∀ x u, locals c !! x = Some u → ∃ cu, ctxs s !! u = Some cu ∧ creator cu = Some t;
  co_next : ∀ u, nextTask c = Some u → creator c = Some u;
  co_creator : ∀ u, creator c = Some u → u < t;
  co_ran : ∀ pc, (nextBlock c).2 = Some pc → ran s t (nextBlock c).1 pc;
  co_end : end_ c = true → ran_all s t c;
}.

Record ghost_ok (s : shared) (g : ghost) : Prop := mk_ghost_ok {
  go_empty : g_ds g = DsEmpty → tasks s = [];
  go_full : g_ds g = DsFull → tasks s ≠ [];
  go_undone : ∀ t, g_st g = StUndone t → ∃ c, ctxs s !! t = Some c ∧ end_ c = false;
  go_done : ∀ t, g_st g = StDone t → ∃ c, ctxs s !! t = Some c ∧ end_ c = true ∧ nextTask c = g_pend g;
  go_pc : ∀ t f pc, g_pc g = Some (t, f, pc) →
    ∃ c, ctxs s !! t = Some c ∧ (nextBlock c).1 = f ∧ (end_ c = false → has_locals c f pc) ∧ ran s t f pc;
  go_child : ∀ u t, g_child g = Some (u, t) → ∃ c, ctxs s !! u = Some c ∧ creator c = Some t;
  go_main : g_main g = true → g_run g = None;
  go_exit : g_exit g = true → ∀ t, g_run g = Some t → ∃ c, ctxs s !! t = Some c ∧ ran_all s t c;
}.

Record I (s : shared) (G : ghosts) : Prop := mk_I {
  I_mu : ∀ i, mu s = Some i ↔ ∃ g, G !! i = Some g ∧ g_ds g ≠ DsFree;
  I_mutex : ∀ t i, (∃ c, ctxs s !! t = Some c ∧ mutex c = Some i) ↔
                   ∃ g, G !! i = Some g ∧ st_task (g_st g) = Some t;
  I_ghost : ∀ i g, G !! i = Some g → ghost_ok s g;
  I_waiting : ∀ i, i ∈ waiting s → G !! i = Some sleeping;
  I_worker : ∃ i g, G !! i = Some g ∧ g_main g = false;
  I_main : ∀ i g, G !! i = Some g → g_main g = true ↔ i = O;
  I_awake : tasks s = [] ∨ (∃ i g, G !! i = Some g ∧ g_main g = false ∧ i ∉ waiting s) ∨
            (∃ i g, G !! i = Some g ∧ g_ds g = DsPushed);
  I_nodup : NoDup (tokens s G);
  I_live : ∀ t, t ∈ tokens s G ↔ live s t;
  I_exit : ∀ t c, ctxs s !! t = Some c → end_ c = false → (nextBlock c).2 = None →
           ∃ i g, G !! i = Some g ∧ g_run g = Some t ∧ g_exit g = true;
  I_ctx : ∀ t c, ctxs s !! t = Some c → ctx_ok s t c;
  I_once : single G → once s G;
}.

(** ** Tokens *)

Lemma bind_insert {A B} (f : A → list B) (l : list A) i x : l !! i = Some x →
  ∃ R, l ≫= f ≡ₚ f x ++ R ∧ ∀ y, <[i:=y]> l ≫= f ≡ₚ f y ++ R.
Proof.
  revert i. induction l as [|a l IH]; intros [|i] Hi; try done; simpl in Hi.
  - simplify_eq. exists (l ≫= f). done.
  - destruct (IH i Hi) as (R & HR & HR'). exists (f a ++ R). simpl. split.
    + rewrite HR. solve_Permutation.
    + intros y. rewrite HR'. solve_Permutation.
Qed.
Lemma ghost_toks_insert G i g : G !! i = Some g →
  ∃ R, ghost_toks G ≡ₚ g_toks g ++ R ∧ ∀ g', ghost_toks (<[i:=g']> G) ≡ₚ g_toks g' ++ R.
Proof.
  intros Hi. exists (ghost_toks (delete i G)). unfold ghost_toks. split.
  - rewrite <- (insert_delete_id G i g Hi) at 1. by rewrite map_to_list_insert by apply lookup_delete_eq.
  - intros g'. rewrite <- insert_delete_eq. by rewrite map_to_list_insert by apply lookup_delete_eq.
Qed.
Lemma ghost_toks_elem G i g t : G !! i = Some g → t ∈ g_toks g → t ∈ ghost_toks G.
Proof. intros Hi Ht. destruct (ghost_toks_insert G i g Hi) as (R & -> & _). apply elem_of_app. by left. Qed.

Lemma g_toks_run g t : g_run g = Some t → t ∈ g_toks g.
Proof. intros Hr. unfold g_toks. rewrite Hr. simpl. by left. Qed.
Lemma g_toks_pend g t : g_pend g = Some t → t ∈ g_toks g.
Proof. intros Hp. unfold g_toks. rewrite Hp. apply elem_of_app. right. by left. Qed.

Lemma bind_nodup {A B} (f : A → list B) (l : list A) i j x y b :
  NoDup (l ≫= f) → l !! i = Some x → l !! j = Some y → b ∈ f x → b ∈ f y → i = j.
Proof.
  revert i j. induction l as [|a l IH]; intros i j Hn Hi Hj Hx Hy; [done|]. simpl in Hn.
  apply NoDup_app in Hn as (_ & Hd & Hn).
  assert (∀ k z, l !! k = Some z → b ∈ f z → b ∈ (l ≫= f)) as Hin.
  { intros k z Hk Hz. apply list_elem_of_bind. exists z. split; [done|]. by eapply list_elem_of_lookup_2. }
  destruct i as [|i], j as [|j]; simplify_eq/=; [done| | |f_equal; by apply IH].
  - destruct (Hd b); eauto.
  - destruct (Hd b); eauto.
Qed.

Section facts.
Context {s : shared} {G : ghosts}.
Hypothesis HI : I s G.

Lemma I_run_live i g t : G !! i = Some g → t ∈ g_toks g → live s t.
Proof.
  intros Hi Ht. apply (I_live _ _ HI). unfold tokens. rewrite !elem_of_app. right. left. by eapply ghost_toks_elem.
Qed.
(** A token is in one place only. *)
Lemma tok_not_queued i g t : G !! i = Some g → t ∈ g_toks g → t ∉ tasks s.
Proof.
  intros Hi Ht Hq. pose proof (I_nodup _ _ HI) as Hn. unfold tokens in Hn. apply NoDup_app in Hn as (_ & Hn & _).
  apply (Hn t Hq). apply elem_of_app. left. by eapply ghost_toks_elem.
Qed.
Lemma tok_not_next i g t u c : G !! i = Some g → t ∈ g_toks g → ctxs s !! u = Some c → end_ c = false →
  nextTask c ≠ Some t.
Proof.
  intros Hi Ht Hu Hc Hnext. pose proof (I_nodup _ _ HI) as Hn. unfold tokens in Hn.
  apply NoDup_app in Hn as (_ & _ & Hn). apply NoDup_app in Hn as (_ & Hn & _).
  apply (Hn t); [by eapply ghost_toks_elem|]. apply list_elem_of_bind. exists c. split.
  - unfold next_toks. rewrite Hc, Hnext. by left.
  - by eapply list_elem_of_lookup_2.
Qed.
Lemma tok_one_thread i j g g' t : G !! i = Some g → G !! j = Some g' → t ∈ g_toks g → t ∈ g_toks g' → i = j.
Proof.
  intros Hi Hj Ht Ht'. destruct (decide (i = j)) as [|Hne]; [done|]. exfalso.
  pose proof (I_nodup _ _ HI) as Hn. unfold tokens in Hn.
  apply NoDup_app in Hn as (_ & _ & Hn). apply NoDup_app in Hn as (Hn & _ & _).
  unfold ghost_toks in Hn. rewrite <- (insert_delete_id G i g Hi) in Hn.
  rewrite map_to_list_insert in Hn by apply lookup_delete_eq. simpl in Hn. apply NoDup_app in Hn as (_ & Hn & _).
  apply (Hn t Ht). apply (ghost_toks_elem (delete i G) j g'); [by rewrite lookup_delete_ne|done].
Qed.
(** What the tokens say of the shared memory alone. *)
Lemma tokens_queue :
  NoDup (tasks s) ∧ (∀ t, t ∈ tasks s → live s t) ∧
  ∀ u c t, ctxs s !! u = Some c → end_ c = false → nextTask c = Some t →
    live s t ∧ t ∉ tasks s ∧
    ∀ u' c', ctxs s !! u' = Some c' → end_ c' = false → nextTask c' = Some t → u' = u.
Proof.
  pose proof (I_nodup _ _ HI) as Hn. unfold tokens in Hn. apply NoDup_app in Hn as (Hq & Hd & Hn).
  apply NoDup_app in Hn as (_ & _ & Hn).
  assert (∀ u c t, ctxs s !! u = Some c → end_ c = false → nextTask c = Some t → t ∈ ctxs s ≫= next_toks) as Hin.
  { intros u c t Hu He Ht. apply list_elem_of_bind. exists c. split; [|by eapply list_elem_of_lookup_2].
    unfold next_toks. rewrite He, Ht. by left. }
  split; [done|]. split; [intros t Ht; apply (I_live _ _ HI); unfold tokens; set_solver|].
  intros u c t Hu He Ht. pose proof (Hin u c t Hu He Ht) as Htok. split; [|split].
  - apply (I_live _ _ HI). unfold tokens. set_solver.
  - intros Hq'. apply (Hd t Hq'). set_solver.
  - intros u' c' Hu' He' Ht'. apply (bind_nodup next_toks (ctxs s) u' u c' c t Hn Hu' Hu); unfold next_toks;
      [rewrite He', Ht'|rewrite He, Ht]; by left.
Qed.
(** The two mutual exclusions. *)
Lemma mu_unique i j g g' : G !! i = Some g → G !! j = Some g' → g_ds g ≠ DsFree → g_ds g' ≠ DsFree → i = j.
Proof.
  intros Hi Hj Hd Hd'. assert (mu s = Some i) by (apply (I_mu _ _ HI); eauto).
  assert (mu s = Some j) by (apply (I_mu _ _ HI); eauto). congruence.
Qed.
Lemma mutex_unique i j g g' t : G !! i = Some g → G !! j = Some g' → st_task (g_st g) = Some t →
  st_task (g_st g') = Some t → i = j.
Proof.
  intros Hi Hj Hd Hd'. destruct (proj2 (I_mutex _ _ HI t i)) as (c & Hc & Hm); [eauto|].
  destruct (proj2 (I_mutex _ _ HI t j)) as (c' & Hc' & Hm'); [eauto|]. congruence.
Qed.
Lemma live_exit_not i g t c : G !! i = Some g → g_run g = Some t → g_exit g = false → ctxs s !! t = Some c →
  (nextBlock c).2 ≠ None.
Proof.
  intros Hi Hr He Ht Hb. destruct (I_run_live i g t Hi (g_toks_run _ _ Hr)) as (c' & Hc' & Hlive). simplify_eq.
  destruct (I_exit _ _ HI t c Ht Hlive Hb) as (j & g' & Hj & Hr' & He').
  pose proof (tok_one_thread i j g g' t Hi Hj (g_toks_run _ _ Hr) (g_toks_run _ _ Hr')) as ->. congruence.
Qed.
End facts.

(** ** How the parts follow an update *)

Section update.
Context {s s' : shared} {G : ghosts} {i : thread_id} {g g' : ghost}.
Hypothesis HI : I s G.
Hypothesis Hg : G !! i = Some g.
#[local] Notation G' := (<[i:=g']> G).

Lemma lookup_others j gj : G' !! j = Some gj → (j = i ∧ gj = g') ∨ (j ≠ i ∧ G !! j = Some gj).
Proof.
  destruct (decide (j = i)) as [->|Hne]; [rewrite lookup_insert_eq; intros [= ->]; by left|].
  rewrite lookup_insert_ne by done. by right.
Qed.

Lemma up_mu :
  (∀ j, j ≠ i → mu s' = Some j ↔ mu s = Some j) → (mu s' = Some i ↔ g_ds g' ≠ DsFree) →
  ∀ j, mu s' = Some j ↔ ∃ gj, G' !! j = Some gj ∧ g_ds gj ≠ DsFree.
Proof.
  intros Hj Hi j. destruct (decide (j = i)) as [->|Hne].
  - rewrite Hi, lookup_insert_eq. naive_solver.
  - rewrite (Hj j Hne), lookup_insert_ne by done. apply HI.
Qed.
Lemma up_mutex :
  (∀ t j, j ≠ i → (∃ c, ctxs s' !! t = Some c ∧ mutex c = Some j) ↔ (∃ c, ctxs s !! t = Some c ∧ mutex c = Some j)) →
  (∀ t, (∃ c, ctxs s' !! t = Some c ∧ mutex c = Some i) ↔ st_task (g_st g') = Some t) →
  ∀ t j, (∃ c, ctxs s' !! t = Some c ∧ mutex c = Some j) ↔ ∃ gj, G' !! j = Some gj ∧ st_task (g_st gj) = Some t.
Proof.
  intros Hj Hi t j. destruct (decide (j = i)) as [->|Hne].
  - rewrite Hi, lookup_insert_eq. naive_solver.
  - rewrite (Hj t j Hne), lookup_insert_ne by done. apply HI.
Qed.
Lemma up_ghost :
  (∀ j gj, j ≠ i → G !! j = Some gj → ghost_ok s gj → ghost_ok s' gj) → ghost_ok s' g' →
  ∀ j gj, G' !! j = Some gj → ghost_ok s' gj.
Proof.
  intros Hj Hi j gj [[-> ->]|[Hne Hl]]%lookup_others; [done|]. apply (Hj j); [done..|]. by apply (I_ghost _ _ HI j).
Qed.
Lemma up_waiting :
  (∀ j, j ∈ waiting s' → j ≠ i → j ∈ waiting s) → (i ∈ waiting s' → g' = sleeping) →
  ∀ j, j ∈ waiting s' → G' !! j = Some sleeping.
Proof.
  intros Hj Hi j Hin. destruct (decide (j = i)) as [->|Hne].
  - rewrite lookup_insert_eq. f_equal. auto.
  - rewrite lookup_insert_ne by done. by apply HI, Hj.
Qed.
Lemma not_waiting : g_wait g = false → i ∉ waiting s.
Proof. intros Hw Hin. apply (I_waiting _ _ HI) in Hin. assert (g = sleeping) as -> by congruence. done. Qed.
Lemma up_worker : g_main g' = g_main g → ∃ j gj, G' !! j = Some gj ∧ g_main gj = false.
Proof.
  intros Hm. destruct (I_worker _ _ HI) as (j & gj & Hj & Hmj). exists j. destruct (decide (j = i)) as [->|Hne].
  - exists g'. rewrite lookup_insert_eq. split; [done|congruence].
  - exists gj. by rewrite lookup_insert_ne.
Qed.
Lemma up_main : g_main g' = g_main g → ∀ j gj, G' !! j = Some gj → g_main gj = true ↔ j = O.
Proof. intros Hm j gj [[-> ->]|[Hne Hj]]%lookup_others; [rewrite Hm|]; by apply (I_main _ _ HI). Qed.
Lemma up_awake :
  tasks s' = tasks s → waiting s' ⊆ waiting s → g_main g' = g_main g → (g_ds g = DsPushed → g_ds g' = DsPushed) →
  tasks s' = [] ∨ (∃ j gj, G' !! j = Some gj ∧ g_main gj = false ∧ j ∉ waiting s') ∨
    (∃ j gj, G' !! j = Some gj ∧ g_ds gj = DsPushed).
Proof.
  intros Ht Hw Hm Hd. rewrite Ht. destruct (I_awake _ _ HI) as [Hq|[(j & gj & Hj & Hmj & Hwj)|(j & gj & Hj & Hdj)]]; [by left|right; left|right; right].
  - exists j. destruct (decide (j = i)) as [->|Hne].
    + exists g'. rewrite lookup_insert_eq. split; [done|]. split; [congruence|set_solver].
    + exists gj. rewrite lookup_insert_ne by done. split; [done|]. split; [done|set_solver].
  - exists j. destruct (decide (j = i)) as [->|Hne].
    + exists g'. rewrite lookup_insert_eq. split; [done|]. apply Hd. congruence.
    + exists gj. by rewrite lookup_insert_ne.
Qed.
(** The thread that moves is an awake worker. *)
Lemma up_awake_worker :
  g_main g' = false → i ∉ waiting s' →
  tasks s' = [] ∨ (∃ j gj, G' !! j = Some gj ∧ g_main gj = false ∧ j ∉ waiting s') ∨
    (∃ j gj, G' !! j = Some gj ∧ g_ds gj = DsPushed).
Proof. intros Hm Hw. right. left. exists i, g'. by rewrite lookup_insert_eq. Qed.

Lemma up_tokens_same :
  tokens s' G' ≡ₚ tokens s G → (∀ t, live s' t ↔ live s t) →
  NoDup (tokens s' G') ∧ ∀ t, t ∈ tokens s' G' ↔ live s' t.
Proof.
  intros Hp Hl. split; [rewrite Hp; apply HI|]. intros t. rewrite Hp, Hl. apply HI.
Qed.
Lemma tokens_ghost : g_toks g' = g_toks g → tasks s' = tasks s → ctxs s' = ctxs s → tokens s' G' ≡ₚ tokens s G.
Proof.
  intros Hg' Ht Hc. unfold tokens. rewrite Ht, Hc. destruct (ghost_toks_insert G i g Hg) as (R & -> & ->). by rewrite Hg'.
Qed.
Lemma up_exit :
  (∀ t c', ctxs s' !! t = Some c' → end_ c' = false → (nextBlock c').2 = None →
     (g_run g' = Some t ∧ g_exit g' = true) ∨ ∃ c, ctxs s !! t = Some c ∧ end_ c = false ∧ (nextBlock c).2 = None) →
  (∀ t, g_run g = Some t → g_exit g = true → (g_run g' = Some t ∧ g_exit g' = true) ∨ ¬ live s' t) →
  ∀ t c', ctxs s' !! t = Some c' → end_ c' = false → (nextBlock c').2 = None →
    ∃ j gj, G' !! j = Some gj ∧ g_run gj = Some t ∧ g_exit gj = true.
Proof.
  intros Hc Hi t c' Ht He Hb. destruct (Hc t c' Ht He Hb) as [[Hr Hx]|(c & Hct & Hce & Hcb)].
  { exists i, g'. by rewrite lookup_insert_eq. }
  destruct (I_exit _ _ HI t c Hct Hce Hcb) as (j & gj & Hj & Hr & Hx).
  destruct (decide (j = i)) as [->|Hne].
  - assert (gj = g) as -> by congruence. destruct (Hi t Hr Hx) as [[Hr' Hx']|Hnl].
    + exists i, g'. by rewrite lookup_insert_eq.
    + destruct Hnl. by exists c'.
  - exists j, gj. by rewrite lookup_insert_ne.
Qed.
Lemma single_insert : single G' → single G.
Proof.
  intros Hs j Hj. apply Hs. destruct (decide (j = i)) as [->|Hne]; [rewrite lookup_insert_eq; by eexists|by rewrite lookup_insert_ne].
Qed.
Lemma at_work_same : g_pc g' = g_pc g → ∀ t pc, at_work G' t pc ↔ at_work G t pc.
Proof.
  intros Hpc t pc. unfold at_work. destruct (decide (1%nat = i)) as [->|Hne]; [|by rewrite lookup_insert_ne].
  rewrite lookup_insert_eq, Hg. split; intros (g0 & f & [= <-] & Hp); eexists _, f; (split; [done|congruence]).
Qed.
Lemma up_once :
  trace s' = trace s → g_pc g' = g_pc g → length (ctxs s) ≤ length (ctxs s') →
  (∀ t c', t < length (ctxs s) → ctxs s' !! t = Some c' → ∃ c, ctxs s !! t = Some c ∧ (nextBlock c').2 = (nextBlock c).2) →
  single G' → once s' G'.
Proof.
  intros Ht Hpc Hlen Hc Hs. destruct (I_once _ _ HI (single_insert Hs)) as [N T W B].
  split; rewrite ?Ht; [done| | |].
  - intros t q Hq. specialize (T t q Hq). lia.
  - intros t q pc Hq Hw. apply (W t q pc Hq). by apply at_work_same.
  - intros t q c' pc Hq Hw Hc' Hb. destruct (Hc t c' (T t q Hq) Hc') as (c & Hct & Hbc).
    apply (B t q c pc Hq); [|done|congruence]. intros pc' Hw'. apply (Hw pc'). by apply at_work_same.
Qed.
End update.

Lemma ran_mono s s' t f pc : trace s ⊆ trace s' → ran s t f pc → ran s' t f pc.
Proof. intros Ht Hr q Hq Hst. by apply Ht, Hr. Qed.
Lemma ghost_ok_same s s' g : tasks s' = tasks s → ctxs s' = ctxs s → trace s ⊆ trace s' → ghost_ok s g → ghost_ok s' g.
Proof.
  intros Ht Hc Htr [E F U D P C M X]. split; rewrite ?Ht, ?Hc; try done.
  - intros t f pc Hp. destruct (P t f pc Hp) as (c & Hct & Hf & Hl & Hr). exists c. repeat split; try done. by eapply ran_mono.
  - intros Hx t Hr. destruct (X Hx t Hr) as (c & Hct & Hra). exists c. split; [done|]. by eapply ran_mono.
Qed.
Lemma ctx_ok_same s s' t c : ctxs s' = ctxs s → trace s ⊆ trace s' → ctx_ok s t c → ctx_ok s' t c.
Proof.
  intros Hc Htr [B L N C R X]. split; rewrite ?Hc; try done.
  - intros pc Hb. eapply ran_mono; [done|by apply R].
  - intros He. eapply ran_mono; [done|by apply X].
Qed.

(** Operations that leave the tasks alone. *)
Lemma I_same_gen s s' G i g g' :
  I s G → G !! i = Some g → tasks s' = tasks s → ctxs s' = ctxs s → trace s ⊆ trace s' →
  (∀ j, j ≠ i → mu s' = Some j ↔ mu s = Some j) → (mu s' = Some i ↔ g_ds g' ≠ DsFree) →
  (∀ j, j ∈ waiting s' → j ≠ i → j ∈ waiting s) → (i ∈ waiting s' → g' = sleeping) → g_main g' = g_main g →
  (tasks s' = [] ∨ (∃ j gj, <[i:=g']> G !! j = Some gj ∧ g_main gj = false ∧ j ∉ waiting s') ∨
    (∃ j gj, <[i:=g']> G !! j = Some gj ∧ g_ds gj = DsPushed)) →
  st_task (g_st g') = st_task (g_st g) → g_toks g' = g_toks g →
  (g_exit g = true → g_run g' = g_run g ∧ g_exit g' = true) → ghost_ok s' g' →
  (single (<[i:=g']> G) → once s' (<[i:=g']> G)) →
  I s' (<[i:=g']> G).
Proof.
  intros HI Hg Ht Hc Htr Hmuj Hmui Hwj Hwi Hmain Hawake Hst Htok Hexit Hok Honce.
  assert (∀ t, live s' t ↔ live s t) as Hlive by (intros t; unfold live; by rewrite Hc).
  destruct (up_tokens_same HI (tokens_ghost Hg Htok Ht Hc) Hlive) as [Hnd Hl].
  split; try done.
  - by apply (up_mu HI).
  - apply (up_mutex HI); intros t; rewrite Hc; [done|]. rewrite Hst, (I_mutex _ _ HI t i). naive_solver.
  - apply (up_ghost HI); [|done]. intros j gj _ _. by apply ghost_ok_same.
  - by apply (up_waiting HI).
  - by apply (up_worker HI Hg).
  - by apply (up_main HI Hg).
  - apply (up_exit HI Hg).
    + intros t c'. rewrite Hc. intros Ht' He Hb. right. by exists c'.
    + intros t Hr Hx. left. destruct (Hexit Hx) as [-> ->]. done.
  - intros t c. rewrite Hc. intros Ht'. eapply ctx_ok_same; [exact Hc|exact Htr|]. by apply (I_ctx _ _ HI).
Qed.
Lemma I_same s s' G i g g' :
  I s G → G !! i = Some g → tasks s' = tasks s → ctxs s' = ctxs s → trace s' = trace s →
  (∀ j, j ≠ i → mu s' = Some j ↔ mu s = Some j) → (mu s' = Some i ↔ g_ds g' ≠ DsFree) →
  (∀ j, j ∈ waiting s' → j ≠ i → j ∈ waiting s) → (i ∈ waiting s' → g' = sleeping) → g_main g' = g_main g →
  (tasks s' = [] ∨ (∃ j gj, <[i:=g']> G !! j = Some gj ∧ g_main gj = false ∧ j ∉ waiting s') ∨
    (∃ j gj, <[i:=g']> G !! j = Some gj ∧ g_ds gj = DsPushed)) →
  st_task (g_st g') = st_task (g_st g) → g_toks g' = g_toks g →
  (g_exit g = true → g_run g' = g_run g ∧ g_exit g' = true) → ghost_ok s' g' → g_pc g' = g_pc g →
  I s' (<[i:=g']> G).
Proof.
  intros HI Hg Ht Hc Htr. intros. eapply I_same_gen; try done; [by rewrite Htr|].
  apply (up_once HI Hg); try done; [by rewrite Hc|]. intros t c' _. rewrite Hc. intros Hct. by exists c'.
Qed.

(** ** Updates of one context *)

Section one.
Context {s : shared} {G : ghosts} {i : thread_id} {g g' : ghost} {t : task_id} {c c' : ctx}.
Hypothesis HI : I s G.
Hypothesis Hg : G !! i = Some g.
Hypothesis Ht : ctxs s !! t = Some c.
#[local] Notation s' := (upd_ctx s t c').
#[local] Notation G' := (<[i:=g']> G).

Lemma lookup_upd u cu : ctxs s' !! u = Some cu → (u = t ∧ cu = c') ∨ (u ≠ t ∧ ctxs s !! u = Some cu).
Proof.
  simpl. destruct (decide (u = t)) as [->|Hne].
  - rewrite list_lookup_insert_eq by (by eapply lookup_lt_Some). intros [= ->]. by left.
  - rewrite list_lookup_insert_ne by done. by right.
Qed.
Lemma lookup_upd_eq : ctxs s' !! t = Some c'.
Proof. simpl. apply list_lookup_insert_eq. by eapply lookup_lt_Some. Qed.
Lemma lookup_upd_ne u : u ≠ t → ctxs s' !! u = ctxs s !! u.
Proof. intros Hne. simpl. by apply list_lookup_insert_ne. Qed.

Lemma live_upd u : u ≠ t → live s' u ↔ live s u.
Proof. intros Hne. unfold live. by rewrite lookup_upd_ne. Qed.
Lemma live_upd_eq : live s' t ↔ end_ c' = false.
Proof. unfold live. rewrite lookup_upd_eq. naive_solver. Qed.

(** The tokens of the threads and of the continuations, apart from those of
    the thread and the context at hand. *)
Lemma tokens_upd : ∃ R, tokens s G ≡ₚ g_toks g ++ next_toks c ++ R ∧ tokens s' G' ≡ₚ g_toks g' ++ next_toks c' ++ R.
Proof.
  destruct (ghost_toks_insert G i g Hg) as (R1 & H1 & H1'). destruct (bind_insert next_toks (ctxs s) t c Ht) as (R2 & H2 & H2').
  exists (tasks s ++ R1 ++ R2). unfold tokens. simpl. rewrite H1, H1', H2, H2'. split; solve_Permutation.
Qed.

(** The tokens move between the thread and the context. *)
Lemma upd_tokens_same :
  end_ c' = end_ c → g_toks g' ++ next_toks c' ≡ₚ g_toks g ++ next_toks c →
  NoDup (tokens s' G') ∧ ∀ u, u ∈ tokens s' G' ↔ live s' u.
Proof.
  intros He Hp. apply (up_tokens_same HI).
  - destruct tokens_upd as (R & -> & ->). rewrite !(assoc_L (++)), Hp. done.
  - intros u. destruct (decide (u = t)) as [->|Hut]; [|by apply live_upd]. rewrite live_upd_eq, He. unfold live. rewrite Ht. naive_solver.
Qed.

(** The trace, when the thread and the block stay where they are. *)
Lemma upd_once_same : g_pc g' = g_pc g → (nextBlock c').2 = (nextBlock c).2 → single G' → once s' G'.
Proof.
  intros Hpc Hb. apply (up_once HI Hg); [done|done|simpl; by rewrite length_insert|].
  intros u cu _ Hu. apply lookup_upd in Hu as [[-> ->]|[_ Hu]]; [by exists c|by exists cu].
Qed.

(** What stays true of the other threads. *)
Hypothesis Hcreator : creator c' = creator c.
Hypothesis Hfun : (nextBlock c').1 = (nextBlock c).1.
Hypothesis Hend : end_ c = true → end_ c' = true.
Hypothesis Hdom : end_ c' = false → ∀ x, is_Some (locals c !! x) → is_Some (locals c' !! x).

Lemma has_locals_upd f pc : (end_ c = false → has_locals c f pc) → end_ c' = false → has_locals c' f pc.
Proof.
  intros Hh He x Hx. apply (Hdom He). apply Hh; [|done]. destruct (end_ c) eqn:Hc; [|done]. by rewrite Hend in He.
Qed.
Lemma ghost_ok_upd_gen gj :
  (st_task (g_st gj) = Some t → end_ c' = end_ c ∧ nextTask c' = nextTask c) → ghost_ok s gj → ghost_ok s' gj.
Proof.
  intros Hsame [E F U D P C M X]. split; try done.
  - intros u Hu. destruct (U u Hu) as (cu & Hcu & Heu). destruct (decide (u = t)) as [->|Hut].
    + exists c'. split; [apply lookup_upd_eq|]. rewrite (proj1 (Hsame ltac:(by rewrite Hu))). congruence.
    + exists cu. by rewrite lookup_upd_ne.
  - intros u Hu. destruct (D u Hu) as (cu & Hcu & Heu & Hnu). destruct (decide (u = t)) as [->|Hut].
    + exists c'. split; [apply lookup_upd_eq|]. destruct (Hsame ltac:(by rewrite Hu)) as [-> ->]. by assert (cu = c) as -> by congruence.
    + exists cu. by rewrite lookup_upd_ne.
  - intros u f pc Hu. destruct (P u f pc Hu) as (cu & Hcu & Hfu & Hlu & Hru). destruct (decide (u = t)) as [->|Hut].
    + assert (cu = c) as -> by congruence. exists c'. split; [apply lookup_upd_eq|]. split; [congruence|].
      split; [by apply has_locals_upd|done].
    + exists cu. by rewrite lookup_upd_ne.
  - intros u w Hu. destruct (C u w Hu) as (cu & Hcu & Hw). destruct (decide (u = t)) as [->|Hut].
    + assert (cu = c) as -> by congruence. exists c'. split; [apply lookup_upd_eq|congruence].
    + exists cu. by rewrite lookup_upd_ne.
  - intros Hx u Hr. destruct (X Hx u Hr) as (cu & Hcu & Hra). destruct (decide (u = t)) as [->|Hut].
    + assert (cu = c) as -> by congruence. exists c'. split; [apply lookup_upd_eq|]. unfold ran_all. rewrite Hfun. exact Hra.
    + exists cu. by rewrite lookup_upd_ne.
Qed.
Hypothesis Hlock : end_ c' ≠ end_ c ∨ nextTask c' ≠ nextTask c → st_task (g_st g) = Some t.

Lemma ghost_ok_upd j gj : j ≠ i → G !! j = Some gj → ghost_ok s gj → ghost_ok s' gj.
Proof.
  intros Hne Hj. apply ghost_ok_upd_gen. intros Hst. assert (st_task (g_st g) ≠ Some t) as Hno.
  { intros Hst'. by apply Hne, (mutex_unique HI j i gj g t). }
  split; apply dec_stable; intros ?; apply Hno, Hlock; auto.
Qed.
Lemma ctx_ok_upd_other u cu : ctx_ok s u cu → ctx_ok s' u cu.
Proof.
  intros [B L N C R X]. split; try done. intros x w Hx. destruct (L x w Hx) as (cw & Hcw & Hcr).
  destruct (decide (w = t)) as [->|Hwt].
  - assert (cw = c) as -> by congruence. exists c'. split; [apply lookup_upd_eq|congruence].
  - exists cw. by rewrite lookup_upd_ne.
Qed.

Lemma I_upd :
  g_wait g = false → g_ds g' = g_ds g → g_main g' = g_main g →
  (∀ j, j ≠ i → mutex c' = Some j ↔ mutex c = Some j) →
  (mutex c' = Some i ↔ st_task (g_st g') = Some t) →
  (∀ u, u ≠ t → st_task (g_st g') = Some u ↔ st_task (g_st g) = Some u) →
  ctx_ok s' t c' → ghost_ok s' g' →
  (NoDup (tokens s' G') ∧ ∀ u, u ∈ tokens s' G' ↔ live s' u) →
  (end_ c' = false → (nextBlock c').2 = None →
     (g_run g' = Some t ∧ g_exit g' = true) ∨ (end_ c = false ∧ (nextBlock c).2 = None)) →
  (∀ u, g_run g = Some u → g_exit g = true → (g_run g' = Some u ∧ g_exit g' = true) ∨ (u = t ∧ end_ c' = true)) →
  (single G' → once s' G') →
  I s' G'.
Proof.
  intros Hw Hds Hmain Hmj Hmi Hst Hctx Hok [Hnd Hlive] Hexit Hexit' Honce. split; try done.
  - apply (up_mu HI); [done|]. rewrite Hds. simpl. rewrite (I_mu _ _ HI i). naive_solver.
  - apply (up_mutex HI).
    + intros u j Hj. destruct (decide (u = t)) as [->|Hut].
      * rewrite lookup_upd_eq, Ht. specialize (Hmj j Hj). naive_solver.
      * by rewrite lookup_upd_ne.
    + intros u. destruct (decide (u = t)) as [->|Hut].
      * rewrite lookup_upd_eq. rewrite <- Hmi. naive_solver.
      * rewrite lookup_upd_ne, (Hst u Hut), (I_mutex _ _ HI u i) by done. naive_solver.
  - apply (up_ghost HI); [|done]. apply ghost_ok_upd.
  - apply (up_waiting HI); [done|]. simpl. intros Hin. by destruct (not_waiting HI Hg Hw).
  - by apply (up_worker HI Hg).
  - by apply (up_main HI Hg).
  - apply (up_awake HI Hg); try done. by rewrite Hds.
  - apply (up_exit HI Hg).
    + intros u cu Hu He Hb. apply lookup_upd in Hu as [[-> ->]|[Hut Hu]].
      * destruct (Hexit He Hb) as [Hx|[Hx Hy]]; [by left|]. right. by exists c.
      * right. by exists cu.
    + intros u Hr Hx. destruct (Hexit' u Hr Hx) as [?|[-> He]]; [by left|]. right. rewrite live_upd_eq. by rewrite He.
  - intros u cu Hu. apply lookup_upd in Hu as [[-> ->]|[Hut Hu]]; [done|]. apply ctx_ok_upd_other. by apply (I_ctx _ _ HI).
Qed.

End one.
End inv.
