(* ===== verification/CoroLogic.v ===== *)
(** * A logic for the programs of the scheduler

    [safe i p g Q]: from every state of the invariant in which thread [i] has
    the ghost state [g], whatever the other threads do in between, the program
    [p] does not crash, keeps the invariant, takes locks in order (a task's
    mutex before that of the queue, one task at a time), and ends in a ghost
    state that satisfies [Q].  One rule for each operation. *)
From S2P Require Import Prelude Coro CoroInv.

Section logic.
Context (bodies : list (list instr)).
#[local] Notation body := (body bodies).
#[local] Notation I := (I bodies).

(** Operations that may have to wait do so only in these ghost states. *)
Definition may_wait {X : Set} (o : op X) (g : ghost) : Prop :=
  match o with
  | LockDs => g_ds g = DsFree
  | MuLock _ => g_ds g = DsFree ∧ g_st g = StFree
  | CondWake => g = sleeping
  | _ => True
  end.

Fixpoint safe {A} (i : thread_id) (p : prog A) (g : ghost) (Q : A → ghost → Prop) : Prop :=
  match p with
  | Ret a => Q a g
  | Vis o k => may_wait o g ∧ ∀ s G, I s G → G !! i = Some g →
      match exec i o s with
      | Crash => False
      | Go outs => ∀ x s', (x, s') ∈ outs → ∃ g', I s' (<[i:=g']> G) ∧ safe i (k x) g' Q
      end
  end.

Lemma safe_mono {A} i (p : prog A) g (Q Q' : A → ghost → Prop) :
  safe i p g Q → (∀ a g, Q a g → Q' a g) → safe i p g Q'.
Proof.
  intros Hs HQ. revert g Hs. induction p as [a|X o k IH]; intros g; simpl; [apply HQ|].
  intros [Hm Hs]. split; [done|]. intros s G HI Hg. specialize (Hs s G HI Hg).
  destruct (exec i o s); [done|]. intros x s' Hx. destruct (Hs x s' Hx) as (g' & HI' & Hk). exists g'. auto.
Qed.
Lemma safe_bind {A B} i (p : prog A) (f : A → prog B) g Q :
  safe i p g (λ a g', safe i (f a) g' Q) → safe i (p ≫= f) g Q.
Proof.
  revert g. change (p ≫= f) with (prog_bind p f). induction p as [a|X o k IH]; intros g; simpl; [done|].
  intros [Hm Hs]. split; [done|]. intros s G HI Hg. specialize (Hs s G HI Hg).
  destruct (exec i o s); [done|]. intros x s' Hx. destruct (Hs x s' Hx) as (g' & HI' & Hk). exists g'. auto.
Qed.

(** An operation: it keeps the invariant for some new ghost state from which
    the rest is safe. *)
Definition op_safe {X : Set} (i : thread_id) (o : op X) (g : ghost) (Q : X → ghost → Prop) : Prop :=
  may_wait o g ∧ ∀ s G, I s G → G !! i = Some g →
    match exec i o s with
    | Crash => False
    | Go outs => ∀ x s', (x, s') ∈ outs → ∃ g', I s' (<[i:=g']> G) ∧ Q x g'
    end.
Lemma safe_call {X : Set} i (o : op X) g Q : op_safe i o g Q → safe i (call o) g Q.
Proof. done. Qed.
Lemma safe_op {X : Set} {A} i (o : op X) (f : X → prog A) g Q :
  op_safe i o g (λ x g', safe i (f x) g' Q) → safe i (call o ≫= f) g Q.
Proof. intros Ho. by apply safe_bind, safe_call. Qed.

Lemma op_safe_mono {X : Set} i (o : op X) g (Q Q' : X → ghost → Prop) :
  op_safe i o g Q → (∀ x g, Q x g → Q' x g) → op_safe i o g Q'.
Proof. intros Ho HQ. by apply (safe_mono i (call o) g Q Q'). Qed.

(** ** The mutex and the condition variable of the queue *)

(** The ghost with another phase of the queue's critical section. *)
Definition set_ds (d : ds_phase) (g : ghost) : ghost :=
  mk_ghost (g_main g) (g_wait g) d (g_st g) (g_run g) (g_pend g) (g_exit g) (g_pc g) (g_child g).

Lemma ghost_ok_set_ds s g d : ghost_ok bodies s g → (d = DsEmpty → tasks s = []) → (d = DsFull → tasks s ≠ []) →
  ghost_ok bodies s (set_ds d g).
Proof. intros [E F U D P C M X] He Hf. by split. Qed.

Lemma op_LockDs i g : g_ds g = DsFree → g_wait g = false → op_safe i LockDs g (λ _ g', g' = set_ds DsHeld g).
Proof.
  intros Hd Hw. split; [done|]. intros s G HI Hg. simpl. destruct (mu s) eqn:Hmu; [by intros x s' ?%not_elem_of_nil|].
  intros x s' [= -> ->]%list_elem_of_singleton. eexists. split; [|reflexivity].
  eapply I_same; try done.
  - intros j Hj. simpl. rewrite Hmu. naive_solver.
  - simpl. intros Hin. by destruct (not_waiting bodies HI Hg Hw).
  - apply (up_awake bodies HI Hg); try done. by rewrite Hd.
  - apply ghost_ok_set_ds; [|done..]. apply (ghost_ok_same _ s); [done..|]. by apply (I_ghost _ _ _ HI i).
Qed.
Lemma op_UnLockDs i g : g_ds g ≠ DsFree → g_ds g ≠ DsPushed → g_wait g = false →
  op_safe i UnLockDs g (λ _ g', g' = set_ds DsFree g).
Proof.
  intros Hd Hp Hw. split; [done|]. intros s G HI Hg. simpl.
  assert (mu s = Some i) as Hmu by (apply (I_mu _ _ _ HI); eauto). rewrite decide_True by done.
  intros x s' [= -> ->]%list_elem_of_singleton. eexists. split; [|reflexivity].
  eapply I_same; try done.
  - intros j Hj. simpl. rewrite Hmu. naive_solver.
  - simpl. intros Hin. by destruct (not_waiting bodies HI Hg Hw).
  - by apply (up_awake bodies HI Hg).
  - apply ghost_ok_set_ds; [|done..]. apply (ghost_ok_same _ s); [done..|]. by apply (I_ghost _ _ _ HI i).
Qed.
Lemma op_TasksLen i g : g_ds g = DsHeld → g_wait g = false →
  op_safe i TasksLen g (λ n g', g' = set_ds (if decide (n = O) then DsEmpty else DsFull) g).
Proof.
  intros Hd Hw. split; [done|]. intros s G HI Hg. simpl.
  intros x s' [= -> ->]%list_elem_of_singleton. eexists. split; [|reflexivity].
  eapply I_same; try done.
  - rewrite (I_mu _ _ _ HI i). split; [intros _; simpl; by case_decide|]. intros _. exists g. by rewrite Hd.
  - intros Hin. by destruct (not_waiting bodies HI Hg Hw).
  - apply (up_awake bodies HI Hg); try done. by rewrite Hd.
  - apply ghost_ok_set_ds; [by apply (I_ghost _ _ _ HI i)|..]; case_decide as Hl; try done; intros _.
    + by apply nil_length_inv.
    + intros Ht. by rewrite Ht in Hl.
Qed.
Lemma op_CondSignal i g : g_ds g = DsPushed → g_wait g = false →
  op_safe i CondSignal g (λ _ g', g' = set_ds DsHeld g).
Proof.
  intros Hd Hw. split; [done|]. intros s G HI Hg. simpl. pose proof (not_waiting bodies HI Hg Hw) as Hni.
  assert (∀ x s', (x, s') ∈ (if decide (waiting s = ∅) then [(tt, s)]
      else (λ j, (tt, with_waiting s (waiting s ∖ {[j]}))) <$> elements (waiting s)) →
    ∃ w, s' = with_waiting s w ∧ w ⊆ waiting s ∧ ∃ j gj, G !! j = Some gj ∧ g_main gj = false ∧ j ∉ w) as Houts.
  { intros x s'. case_decide as He.
    - intros [= _ ->]%list_elem_of_singleton. exists (waiting s). split; [by destruct s|]. split; [done|].
      destruct (I_worker _ _ _ HI) as (j & gj & Hj & Hm). exists j, gj. rewrite He. set_solver.
    - intros (j & [= _ ->] & Hj%elem_of_elements)%list_elem_of_fmap. eexists. split; [done|]. split; [set_solver|].
      exists j, sleeping. split; [by apply (I_waiting _ _ _ HI)|]. split; [done|set_solver]. }
  intros x s' Hx. destruct (Houts x s' Hx) as (w & -> & Hsub & j & gj & Hj & Hm & Hjw).
  eexists. split; [|reflexivity]. eapply I_same; try done.
  - rewrite (I_mu _ _ _ HI i). simpl. split; [done|]. intros _. exists g. by rewrite Hd.
  - simpl. set_solver.
  - simpl. set_solver.
  - right. left. exists j. destruct (decide (j = i)) as [->|Hne].
    + eexists. rewrite lookup_insert_eq. split; [done|]. split; [|done]. simpl. congruence.
    + exists gj. by rewrite lookup_insert_ne.
  - apply ghost_ok_set_ds; [|done..]. apply (ghost_ok_same _ s); [done..|]. by apply (I_ghost _ _ _ HI i).
Qed.

(** Sleeping needs an empty queue and nothing else at hand. *)
Lemma op_CondSleep i : op_safe i CondSleep (holding DsEmpty) (λ _ g', g' = sleeping).
Proof.
  split; [done|]. intros s G HI Hg. simpl.
  assert (mu s = Some i) as Hmu by (apply (I_mu _ _ _ HI); by exists (holding DsEmpty)). rewrite decide_True by done.
  intros x s' [= -> ->]%list_elem_of_singleton. eexists. split; [|reflexivity].
  eapply I_same; try done.
  - intros j Hj. simpl. rewrite Hmu. naive_solver.
  - simpl. set_solver.
  - left. by apply (I_ghost _ _ _ HI i _ Hg).
Qed.
Lemma op_CondWake i : op_safe i CondWake sleeping (λ _ g', g' = idle false).
Proof.
  split; [done|]. intros s G HI Hg. simpl. destruct (decide (i ∈ waiting s)) as [|Hnw]; [by intros x s' ?%not_elem_of_nil|].
  intros x s' [= -> ->]%list_elem_of_singleton. eexists. split; [|reflexivity].
  eapply I_same; try done.
  - rewrite (I_mu _ _ _ HI i). split; [|done]. intros (g & Hg' & Hd). assert (g = sleeping) as -> by congruence. by destruct Hd.
  - by apply (up_awake bodies HI Hg).
Qed.

(** ** The queue *)

(** The ghost with another task at hand to queue. *)
Definition set_pend (o : option task_id) (g : ghost) : ghost :=
  mk_ghost (g_main g) (g_wait g) (g_ds g) (g_st g) (g_run g) o (g_exit g) (g_pc g) (g_child g).

(** Updates of the queue by the thread in its critical section. *)
Lemma I_queue s G i g g' q :
  I s G → G !! i = Some g → g_ds g ≠ DsFree → g_wait g = false → g_ds g' ≠ DsFree → g_main g' = g_main g →
  st_task (g_st g') = st_task (g_st g) → g_exit g = false →
  g_main g' = false ∨ g_ds g' = DsPushed →
  g_pc g' = g_pc g → ghost_ok bodies (with_tasks s q) g' → tokens (with_tasks s q) (<[i:=g']> G) ≡ₚ tokens s G →
  I (with_tasks s q) (<[i:=g']> G).
Proof.
  intros HI Hg Hd Hw Hd' Hm Hst Hx Haw Hpc Hok Htok. assert (mu s = Some i) as Hmu by (apply (I_mu _ _ _ HI); eauto).
  destruct (up_tokens_same bodies HI Htok) as [Hnd Hl]; [done|]. split; try done.
  - apply (up_mu bodies HI); done.
  - apply (up_mutex bodies HI); [done|]. intros t. rewrite Hst. simpl. rewrite (I_mutex _ _ _ HI t i). naive_solver.
  - apply (up_ghost bodies HI); [|done]. intros j gj Hne Hj [E F U D P C M X].
    assert (g_ds gj = DsFree) as Hf.
    { destruct (decide (g_ds gj = DsFree)) as [|Hn]; [done|]. by destruct Hne; apply (mu_unique bodies HI j i gj g). }
    split; try done; by rewrite Hf.
  - apply (up_waiting bodies HI); [done|]. intros Hin. by destruct (not_waiting bodies HI Hg Hw).
  - by apply (up_worker bodies HI Hg).
  - by apply (up_main bodies HI Hg).
  - right. destruct Haw as [Haw|Haw]; [left|right]; exists i, g'; rewrite lookup_insert_eq; [|done].
    split; [done|]. split; [done|]. by apply (not_waiting bodies HI Hg Hw).
  - apply (up_exit bodies HI Hg).
    + intros t c Ht He Hb. right. by exists c.
    + intros t _ Hx'. congruence.
  - intros t c Ht. eapply (ctx_ok_same _ s); [done|done|]. by apply (I_ctx _ _ _ HI).
  - apply (up_once bodies HI Hg); try done. intros t c _ Hc. by exists c.
Qed.

Lemma op_TasksPush i g t : g_ds g = DsHeld → g_pend g = Some t → g_wait g = false → g_exit g = false →
  (∀ u, g_st g ≠ StDone u) → op_safe i (TasksPush t) g (λ _ g', g' = set_ds DsPushed (set_pend None g)).
Proof.
  intros Hd Hp Hw Hx Hst. split; [done|]. intros s G HI Hg. simpl.
  intros x s' [= _ ->]%list_elem_of_singleton. eexists. split; [|reflexivity].
  apply (I_queue s G i g); try done; [by rewrite Hd|by right| |].
  - destruct (I_ghost _ _ _ HI i g Hg) as [E F U D P C M X]. split; try done. intros u Hu. by destruct (Hst u).
  - unfold tokens. simpl. destruct (ghost_toks_insert G i g Hg) as (R & -> & ->). unfold g_toks. simpl. rewrite Hp. simpl.
    solve_Permutation.
Qed.
Lemma op_TasksShift i : op_safe i TasksShift (holding DsFull) (λ t g', g' = set_ds DsHeld (running t)).
Proof.
  split; [done|]. intros s G HI Hg. simpl. destruct (tasks s) as [|t q] eqn:Hq.
  { by apply (go_full _ _ _ (I_ghost _ _ _ HI i _ Hg)). }
  intros x s' [= -> ->]%list_elem_of_singleton. eexists. split; [|reflexivity].
  apply (I_queue s G i (holding DsFull)); try done; [by left|].
  unfold tokens. simpl. rewrite Hq. destruct (ghost_toks_insert G i _ Hg) as (R & -> & ->). simpl. solve_Permutation.
Qed.

(** ** New contexts *)

Definition new_child (by_ : option task_id) (u : task_id) (g : ghost) : ghost :=
  mk_ghost (g_main g) (g_wait g) (g_ds g) (g_st g) (g_run g) (Some u) (g_exit g) (g_pc g) ((λ t, (u, t)) <$> by_).

Lemma op_NewCtx i g f : g_pend g = None → g_wait g = false → (∀ u, g_st g ≠ StDone u) →
  op_safe i (NewCtx (g_run g) f) g (λ u g', g' = new_child (g_run g) u g).
Proof.
  intros Hp Hw Hst. split; [done|]. intros s G HI Hg. simpl.
  intros x s' [= -> ->]%list_elem_of_singleton. eexists. split; [|reflexivity].
  set (c := mk_ctx None None false ∅ (f, Some O) (g_run g)). set (n := length (ctxs s)).
  set (s' := mk_shared (ctxs s ++ [c]) (tasks s) (mu s) (waiting s) (trace s)).
  assert (∀ t cu, ctxs s !! t = Some cu → ctxs s' !! t = Some cu) as Hold by (intros t cu Ht; simpl; by apply lookup_app_l_Some).
  assert (∀ t cu, ctxs s' !! t = Some cu → ctxs s !! t = Some cu ∨ (t = n ∧ cu = c)) as Hnew.
  { intros t cu. simpl. intros [[_ Ht]|[-> <-]]%lookup_snoc_Some; [by left|by right]. }
  assert (ctxs s' !! n = Some c) as Hn by (simpl; rewrite lookup_app_r by done; unfold n; by rewrite Nat.sub_diag).
  assert (∀ t, live s' t ↔ t = n ∨ live s t) as Hlive.
  { intros t. unfold live. split.
    - intros (cu & Hcu & He). destruct (Hnew t cu Hcu) as [Ht|[-> _]]; eauto.
    - intros [->|(cu & Hcu & He)]; [by exists c|]. exists cu. auto. }
  assert (∀ t, live s t → t < n)%nat as Hlt by (intros t (cu & Hcu & _); by eapply lookup_lt_Some).
  assert (tokens s' (<[i:=new_child (g_run g) n g]> G) ≡ₚ n :: tokens s G) as Htok.
  { unfold tokens. simpl. destruct (ghost_toks_insert G i g Hg) as (R & -> & ->). rewrite bind_app. simpl.
    unfold g_toks. simpl. rewrite Hp. solve_Permutation. }
  split.
  - apply (up_mu bodies HI); [done|]. simpl. rewrite (I_mu _ _ _ HI i). naive_solver.
  - assert (∀ t j, (∃ cu, ctxs s' !! t = Some cu ∧ mutex cu = Some j) ↔ (∃ cu, ctxs s !! t = Some cu ∧ mutex cu = Some j)) as Hm.
    { intros t j. split; intros (cu & Hcu & Hmu); [|exists cu; auto]. destruct (Hnew t cu Hcu) as [Ht|[-> ->]]; [by exists cu|done]. }
    apply (up_mutex bodies HI); [done|]. intros t. rewrite Hm. simpl. rewrite (I_mutex _ _ _ HI t i). naive_solver.
  - apply (up_ghost bodies HI).
    + intros j gj _ _ [E F U D P C M X]. split; try done.
      * intros t Ht. destruct (U t Ht) as (cu & Hcu & Hu). eauto.
      * intros t Ht. destruct (D t Ht) as (cu & Hcu & Hu). eauto.
      * intros t f' pc Ht. destruct (P t f' pc Ht) as (cu & Hcu & Hu). eauto.
      * intros u t Ht. destruct (C u t Ht) as (cu & Hcu & Hu). eauto.
      * intros Hx t Ht. destruct (X Hx t Ht) as (cu & Hcu & Hu). eauto.
    + destruct (I_ghost _ _ _ HI i g Hg) as [E F U D P C M X]. split; try done.
      * intros t Ht. destruct (U t Ht) as (cu & Hcu & Hu). eauto.
      * intros t Ht. by destruct (Hst t).
      * intros t f' pc Ht. destruct (P t f' pc Ht) as (cu & Hcu & Hu). eauto.
      * simpl. intros u t. destruct (g_run g) as [r|]; [|done]. intros [= <- <-]. by exists c.
      * intros Hx t Ht. destruct (X Hx t Ht) as (cu & Hcu & Hu). eauto.
  - apply (up_waiting bodies HI); [done|]. intros Hin. by destruct (not_waiting bodies HI Hg Hw).
  - by apply (up_worker bodies HI Hg).
  - by apply (up_main bodies HI Hg).
  - by apply (up_awake bodies HI Hg).
  - rewrite Htok. apply NoDup_cons. split; [|apply HI]. intros Hin. apply (I_live _ _ _ HI), Hlt in Hin. lia.
  - intros t. rewrite Htok, elem_of_cons, Hlive. by rewrite (I_live _ _ _ HI).
  - apply (up_exit bodies HI Hg).
    + intros t cu Hcu He Hb. destruct (Hnew t cu Hcu) as [Ht|[-> ->]]; [right; by exists cu|done].
    + intros t Hr Hx. by left.
  - intros t cu Hcu. destruct (Hnew t cu Hcu) as [Ht|[-> ->]].
    + destruct (I_ctx _ _ _ HI t cu Ht) as [B L N C R Z]. split; try done.
      intros y u Hy. destruct (L y u Hy) as (cu' & Hcu' & Hcr). eauto.
    + split; try done.
      * simpl. intros pc [= <-] _ y Hy. by apply not_elem_of_nil in Hy.
      * simpl. intros u Hu. apply Hlt. by eapply (I_run_live bodies HI i g), g_toks_run.
      * simpl. intros pc [= <-] q Hq. lia.
  - apply (up_once bodies HI Hg); try done; [simpl; rewrite length_app; lia|].
    intros t cu Ht Hcu. destruct (Hnew t cu Hcu) as [Hct|[-> _]]; [by exists cu|unfold n in Ht; lia].
Qed.

(** ** Statements *)

Definition set_pc (o : option (task_id * nat * nat)) (g : ghost) : ghost :=
  mk_ghost (g_main g) (g_wait g) (g_ds g) (g_st g) (g_run g) (g_pend g) (g_exit g) o (g_child g).

Lemma called_take_S f pc st : body f !! pc = Some st → called (take (S pc) (body f)) = called (take pc (body f)) ++ called [st].
Proof. intros Hst. rewrite (take_S_r _ _ _ Hst). unfold called. apply omap_app. Qed.

(** With a single worker, the thread that is not the main one. *)
Lemma single_one s G i g g' : I s G → G !! i = Some g → g_main g = false → single (<[i:=g']> G) → i = 1%nat.
Proof.
  intros HI Hg Hm Hs. assert (i ≠ O) as Hi.
  { intros ->. pose proof (proj2 (I_main _ _ _ HI O g Hg) eq_refl). congruence. }
  assert (i ≤ 1)%nat; [|lia]. apply Hs. rewrite lookup_insert_eq. by eexists.
Qed.
Lemma at_work_one G g t pc : at_work (<[1%nat:=g]> G) t pc ↔ ∃ f, g_pc g = Some (t, f, pc).
Proof.
  unfold at_work. rewrite lookup_insert_eq. split; [intros (g0 & f & [= <-] & Hp); by exists f|]. intros [f Hp]. by exists g, f.
Qed.
Lemma at_work_lookup (G : ghosts) g t pc : G !! 1%nat = Some g → at_work G t pc ↔ ∃ f, g_pc g = Some (t, f, pc).
Proof. intros Hg. unfold at_work. rewrite Hg. split; [intros (g0 & f & [= <-] & Hp); by exists f|]. intros [f Hp]. by exists g, f. Qed.

Lemma op_Run i g t f pc : g_wait g = false → g_main g = false → g_pc g = Some (t, f, pc) → body f !! pc = Some IStep →
  op_safe i (Run t pc) g (λ _ g', g' = set_pc (Some (t, f, S pc)) g).
Proof.
  intros Hw Hmain Hpc Hst. split; [done|]. intros s G HI Hg. simpl.
  intros x s' [= _ ->]%list_elem_of_singleton. eexists. split; [|reflexivity].
  destruct (I_ghost _ _ _ HI i g Hg) as [E F U D P C M X]. destruct (P t f pc Hpc) as (c & Hc & Hf & Hl & Hr).
  eapply I_same_gen; try done.
  - simpl. set_solver.
  - simpl. rewrite (I_mu _ _ _ HI i). naive_solver.
  - intros Hin. by destruct (not_waiting bodies HI Hg Hw).
  - by apply (up_awake bodies HI Hg).
  - split; try done.
    + simpl. intros t' f' pc' [= <- <- <-]. exists c. split; [done|]. split; [done|]. split.
      * unfold has_locals in *. by rewrite (called_take_S _ _ _ Hst), app_nil_r.
      * intros q Hq Hqs. simpl. destruct (decide (q = pc)) as [->|Hne]; [by left|]. right. apply Hr; [lia|done].
    + intros Hx t' Ht'. destruct (X Hx t' Ht') as (c' & Hc' & Hra). exists c'. split; [done|].
      intros q Hq Hqs. right. by apply Hra.
  - intros Hs. pose proof (single_one s G i g _ HI Hg Hmain Hs) as ->.
    destruct (I_once _ _ _ HI (single_insert Hs)) as [N T W B]. split; simpl.
    + apply NoDup_cons. split; [|done]. intros Hin. pose proof (W t pc pc Hin) as Hlt.
      specialize (Hlt (proj2 (at_work_lookup G g t pc Hg) (ex_intro _ f Hpc))). lia.
    + intros t' q [[= -> ->]|Hin]%elem_of_cons; [by eapply lookup_lt_Some|by eapply T].
    + intros t' q pc' Hin [f' Hp']%at_work_one. simpl in Hp'. injection Hp' as <- <- <-.
      apply elem_of_cons in Hin as [[= ->]|Hin]; [lia|]. pose proof (W t q pc Hin (proj2 (at_work_lookup G g t pc Hg) (ex_intro _ f Hpc))). lia.
    + intros t' q c' pc' Hin Hnw Hc' Hb. assert (t' ≠ t) as Hne.
      { intros ->. apply (Hnw (S pc)), at_work_one. by exists f. }
      apply elem_of_cons in Hin as [[= -> _]|Hin]; [done|]. apply (B t' q c' pc' Hin); [|done|done].
      intros pc0 [f0 Hp0]%(at_work_lookup G g t' pc0 Hg). congruence.
Qed.

(** ** Reading a context *)

Definition set_st (p : st_phase) (g : ghost) : ghost :=
  mk_ghost (g_main g) (g_wait g) (g_ds g) p (g_run g) (g_pend g) (g_exit g) (g_pc g) (g_child g).
Definition set_child (o : option (task_id * task_id)) (g : ghost) : ghost :=
  mk_ghost (g_main g) (g_wait g) (g_ds g) (g_st g) (g_run g) (g_pend g) (g_exit g) (g_pc g) o.

(** What a thread learns without a change of memory. *)
Lemma I_learn_gen s G i g g' :
  I s G → G !! i = Some g → g_wait g = false → g_ds g' = g_ds g → g_main g' = g_main g →
  st_task (g_st g') = st_task (g_st g) → g_toks g' = g_toks g → g_run g' = g_run g → g_exit g' = g_exit g →
  ghost_ok bodies s g' → (single (<[i:=g']> G) → once s (<[i:=g']> G)) → I s (<[i:=g']> G).
Proof.
  intros HI Hg Hw Hd Hm Hst Htok Hr Hx Hok Honce. eapply I_same_gen; try done.
  - rewrite Hd, (I_mu _ _ _ HI i). naive_solver.
  - intros Hin. by destruct (not_waiting bodies HI Hg Hw).
  - apply (up_awake bodies HI Hg); try done. by rewrite Hd.
  - intros Hxt. by rewrite Hr, Hx.
Qed.
Lemma I_learn s G i g g' :
  I s G → G !! i = Some g → g_wait g = false → g_ds g' = g_ds g → g_main g' = g_main g →
  st_task (g_st g') = st_task (g_st g) → g_toks g' = g_toks g → g_run g' = g_run g → g_exit g' = g_exit g →
  ghost_ok bodies s g' → g_pc g' = g_pc g → I s (<[i:=g']> G).
Proof.
  intros HI Hg Hw Hd Hm Hst Htok Hr Hx Hok Hpc. eapply I_learn_gen; try done.
  apply (up_once bodies HI Hg); try done. intros t c _ Hc. by exists c.
Qed.

(** A task the thread runs, or found in a local, has a context. *)
Definition knows (g : ghost) (t : task_id) : Prop := g_run g = Some t ∨ ∃ u, g_child g = Some (t, u).
Lemma knows_ctx s G i g t : I s G → G !! i = Some g → knows g t → ∃ c, ctxs s !! t = Some c.
Proof.
  intros HI Hg [Hr|[u Hc]].
  - destruct (I_run_live bodies HI i g t Hg (g_toks_run _ _ Hr)) as (c & Hc & _). eauto.
  - destruct (go_child _ _ _ (I_ghost _ _ _ HI i g Hg) _ _ Hc) as (c & Hct & _). eauto.
Qed.
Lemma held_ctx s G i g t : I s G → G !! i = Some g → st_task (g_st g) = Some t →
  ∃ c, ctxs s !! t = Some c ∧ mutex c = Some i.
Proof. intros HI Hg Hst. apply (I_mutex _ _ _ HI). eauto. Qed.

Lemma op_GetDone i g t : g_st g = StHeld t → g_wait g = false →
  op_safe i (GetDone t) g (λ b g', g' = set_st (if b then StHeld t else StUndone t) g).
Proof.
  intros Hst Hw. split; [done|]. intros s G HI Hg. simpl. unfold at_ctx.
  destruct (held_ctx s G i g t HI Hg) as (c & Hc & _); [by rewrite Hst|]. rewrite Hc.
  intros b s' [= -> ->]%list_elem_of_singleton. eexists. split; [|reflexivity].
  apply (I_learn s G i g); try done; [rewrite Hst; simpl; by destruct (end_ c)|].
  destruct (I_ghost _ _ _ HI i g Hg) as [E F U D P C M X]. split; try done; simpl.
  - intros t'. destruct (end_ c) eqn:He; [done|]. intros [= <-]. by exists c.
  - intros t'. by destruct (end_ c).
Qed.
Lemma op_GetContinuous i g t : g_st g = StDone t → g_wait g = false →
  op_safe i (GetContinuous t) g (λ o g', o = g_pend g ∧ g' = set_st (StHeld t) g).
Proof.
  intros Hst Hw. split; [done|]. intros s G HI Hg. simpl. unfold at_ctx.
  destruct (go_done _ _ _ (I_ghost _ _ _ HI i g Hg) t Hst) as (c & Hc & _ & Hn). rewrite Hc.
  intros b s' [= -> ->]%list_elem_of_singleton. eexists. split; [|split; [exact Hn|reflexivity]].
  apply (I_learn s G i g); try done; [by rewrite Hst|].
  destruct (I_ghost _ _ _ HI i g Hg) as [E F U D P C M X]. by split.
Qed.
Lemma op_GetBlock i t : op_safe i (GetBlock t) (running t)
  (λ b g', ∃ f pc, b = (f, Some pc) ∧ g' = set_pc (Some (t, f, pc)) (running t)).
Proof.
  split; [done|]. intros s G HI Hg. simpl. unfold at_ctx.
  pose proof (I_run_live bodies HI i _ t Hg (g_toks_run (running t) t eq_refl)) as Hl.
  destruct (Hl) as (c & Hc & _). rewrite Hc.
  intros b s' [= -> ->]%list_elem_of_singleton.
  pose proof (live_exit_not bodies HI i _ t c Hg eq_refl eq_refl Hc) as Hb.
  destruct (nextBlock c) as [f [pc|]] eqn:Hbl; [|done]. eexists. split; [|by exists f, pc].
  pose proof (I_ctx _ _ _ HI t c Hc) as Hok. destruct Hl as (c' & Hc' & Hl). assert (c' = c) as -> by congruence.
  apply (I_learn_gen s G i (running t)); try done.
  - split; try done. simpl. intros t' f' pc' [= <- <- <-]. exists c. split; [done|]. split; [by rewrite Hbl|].
    pose proof (co_block _ _ _ _ Hok pc) as Hb1. pose proof (co_ran _ _ _ _ Hok pc) as Hb2. rewrite Hbl in Hb1, Hb2. auto.
  - intros Hs. pose proof (single_one s G i _ _ HI Hg eq_refl Hs) as ->.
    destruct (I_once _ _ _ HI (single_insert Hs)) as [N T W B].
    assert (∀ t' pc', ¬ at_work G t' pc') as Hnone by (intros t' pc' [f0 Hp0]%(at_work_lookup G _ t' pc' Hg); done).
    split; try done.
    + intros t' q pc' Hin [f' Hp']%at_work_one. simpl in Hp'. injection Hp' as <- <- <-.
      apply (B t q c pc Hin); [done|done|by rewrite Hbl].
    + intros t' q c' pc' Hin _. by apply (B t' q c' pc' Hin).
Qed.
Lemma op_GetLocal i g t x f pc : g_run g = Some t → g_wait g = false → g_pc g = Some (t, f, pc) →
  x ∈ called (take pc (body f)) →
  op_safe i (GetLocal t x) g (λ u g', g' = set_child (Some (u, t)) g).
Proof.
  intros Hr Hw Hpc Hx. split; [done|]. intros s G HI Hg. simpl. unfold at_ctx.
  destruct (I_run_live bodies HI i _ t Hg (g_toks_run _ _ Hr)) as (c & Hc & Hl). rewrite Hc.
  destruct (go_pc _ _ _ (I_ghost _ _ _ HI i g Hg) _ _ _ Hpc) as (c' & Hc' & _ & Hloc & _). simplify_eq.
  destruct (Hloc Hl x Hx) as [u Hu]. rewrite Hu.
  intros b s' [= -> ->]%list_elem_of_singleton. eexists. split; [|reflexivity].
  apply (I_learn s G i g); try done. destruct (I_ghost _ _ _ HI i g Hg) as [E F U D P C M X]. split; try done.
  simpl. intros u' t' [= <- <-]. exact (co_locals _ _ _ _ (I_ctx _ _ _ HI t c Hc) x u Hu).
Qed.

(** ** The mutex of a task *)

(** An update of one context that concerns neither its end nor its
    continuation. *)
Lemma I_upd_same s G i g g' t c c' :
  I s G → G !! i = Some g → ctxs s !! t = Some c →
  creator c' = creator c → (nextBlock c').1 = (nextBlock c).1 → end_ c' = end_ c → nextTask c' = nextTask c →
  (∀ x, is_Some (locals c !! x) → is_Some (locals c' !! x)) →
  g_wait g = false → g_ds g' = g_ds g → g_main g' = g_main g → g_toks g' = g_toks g → g_run g' = g_run g →
  (∀ j, j ≠ i → mutex c' = Some j ↔ mutex c = Some j) →
  (mutex c' = Some i ↔ st_task (g_st g') = Some t) →
  (∀ u, u ≠ t → st_task (g_st g') = Some u ↔ st_task (g_st g) = Some u) →
  ctx_ok bodies (upd_ctx s t c') t c' →
  (ghost_ok bodies (upd_ctx s t c') g → ghost_ok bodies (upd_ctx s t c') g') →
  (end_ c' = false → (nextBlock c').2 = None → (g_run g' = Some t ∧ g_exit g' = true) ∨ (nextBlock c).2 = None) →
  (g_exit g = true → g_exit g' = true) →
  (single (<[i:=g']> G) → once (upd_ctx s t c') (<[i:=g']> G)) →
  I (upd_ctx s t c') (<[i:=g']> G).
Proof.
  intros HI Hg Hc Hcr Hf He Hn Hl Hw Hd Hm Htok Hr Hmj Hmi Hst Hctx Hok Hx Hx' Honce.
  assert (next_toks c' = next_toks c) as Hnt by (unfold next_toks; by rewrite He, Hn).
  apply (I_upd bodies HI Hg Hc); try done.
  - by rewrite He.
  - intros [Hne|Hne]; by destruct Hne.
  - apply Hok, (ghost_ok_upd_gen bodies Hc Hcr Hf); [by rewrite He|by intros _|done|by apply (I_ghost _ _ _ HI i)].
  - apply (upd_tokens_same bodies HI Hg Hc He). by rewrite Htok, Hnt.
  - intros He' Hb. destruct (Hx He' Hb) as [?|?]; [by left|right; split; congruence].
  - intros u Hu Hxe. left. rewrite Hr. auto.
Qed.

(** Its own condition, when the locals and the block stay. *)
Lemma ctx_ok_upd_same s t c c' :
  ctxs s !! t = Some c → ctx_ok bodies s t c → creator c' = creator c → nextBlock c' = nextBlock c → end_ c' = end_ c →
  nextTask c' = nextTask c → locals c' = locals c → ctx_ok bodies (upd_ctx s t c') t c'.
Proof.
  intros Hc Hok Hcr Hb He Hn Hl. assert (ctx_ok bodies (upd_ctx s t c') t c) as [B L N C R Z].
  { by apply (ctx_ok_upd_other bodies Hc Hcr). }
  split; unfold has_locals, ran_all in *; rewrite ?Hcr, ?Hb, ?He, ?Hn, ?Hl; done.
Qed.

Lemma op_MuLock i g t : g_ds g = DsFree → g_st g = StFree → g_wait g = false → knows g t →
  op_safe i (MuLock t) g (λ _ g', g' = set_st (StHeld t) g).
Proof.
  intros Hd Hst Hw Hk. split; [done|]. intros s G HI Hg. simpl. unfold at_ctx.
  destruct (knows_ctx s G i g t HI Hg Hk) as [c Hc]. rewrite Hc.
  destruct (mutex c) eqn:Hm; [by intros x s' ?%not_elem_of_nil|].
  intros x s' [= _ ->]%list_elem_of_singleton. eexists. split; [|reflexivity].
  apply (I_upd_same s G i g _ t c); try done.
  - intros j Hj. simpl. rewrite Hm. naive_solver.
  - intros u Hu. simpl. rewrite Hst. naive_solver.
  - apply (ctx_ok_upd_same s t c); try done. by apply (I_ctx _ _ _ HI).
  - by intros [E F U D P C M X].
  - intros _ Hb. by right.
  - by apply (upd_once_same bodies HI Hg Hc).
Qed.
Lemma op_MuUnLock i g t : st_task (g_st g) = Some t → g_wait g = false →
  op_safe i (MuUnLock t) g (λ _ g', g' = set_st StFree g).
Proof.
  intros Hst Hw. split; [done|]. intros s G HI Hg. simpl. unfold at_ctx.
  destruct (held_ctx s G i g t HI Hg Hst) as (c & Hc & Hm). rewrite Hc, decide_True by done.
  intros x s' [= _ ->]%list_elem_of_singleton. eexists. split; [|reflexivity].
  apply (I_upd_same s G i g _ t c); try done.
  - intros j Hj. simpl. rewrite Hm. naive_solver.
  - intros u Hu. simpl. rewrite Hst. naive_solver.
  - apply (ctx_ok_upd_same s t c); try done. by apply (I_ctx _ _ _ HI).
  - by intros [E F U D P C M X].
  - intros _ Hb. by right.
  - by apply (upd_once_same bodies HI Hg Hc).
Qed.

(** ** Blocks and locals *)

Lemma mutex_self s G i g t c : I s G → G !! i = Some g → ctxs s !! t = Some c →
  mutex c = Some i ↔ st_task (g_st g) = Some t.
Proof.
  intros HI Hg Hc. split.
  - intros Hm. destruct (proj1 (I_mutex _ _ _ HI t i)) as (g0 & Hg0 & Hst); [eauto|]. congruence.
  - intros Hst. destruct (held_ctx s G i g t HI Hg Hst) as (c0 & Hc0 & Hm). congruence.
Qed.

(** The trace, when the thread at work on the task moves on. *)
Lemma upd_once s G i g g' t f pc c c' :
  I s G → G !! i = Some g → ctxs s !! t = Some c → g_main g = false → g_pc g = Some (t, f, pc) →
  (∀ t' f' pc', g_pc g' = Some (t', f', pc') → t' = t ∧ pc ≤ pc') →
  (∀ pc', g_pc g' = None → (nextBlock c').2 = Some pc' → pc ≤ pc') →
  single (<[i:=g']> G) → once (upd_ctx s t c') (<[i:=g']> G).
Proof.
  intros HI Hg Hc Hmain Hpc Hpc' Hb' Hs. pose proof (single_one s G i g _ HI Hg Hmain Hs) as ->.
  destruct (I_once _ _ _ HI (single_insert Hs)) as [N T W B].
  assert (∀ q, (t, q) ∈ trace s → q < pc) as Hpast.
  { intros q Hq. apply (W t q pc Hq), (at_work_lookup G g t pc Hg). by exists f. }
  split; [done|..].
  - intros t' q Hq. simpl. rewrite length_insert. by eapply T.
  - intros t' q pc' Hin [f' Hp']%at_work_one. destruct (Hpc' _ _ _ Hp') as [-> Hle]. specialize (Hpast q Hin). lia.
  - intros t' q c0 pc0 Hin Hnw Hc0 Hb. apply (lookup_upd Hc) in Hc0 as [[-> ->]|[Hne Hc0]].
    + destruct (g_pc g') as [[[t' f'] pc']|] eqn:Hp'.
      * destruct (Hpc' _ _ _ eq_refl) as [-> _]. destruct (Hnw pc'). apply at_work_one. by exists f'.
      * specialize (Hpast q Hin). specialize (Hb' pc0 eq_refl Hb). lia.
    + apply (B t' q c0 pc0 Hin); [|done|done]. intros pc1 [f1 Hp1]%(at_work_lookup G g t' pc1 Hg). congruence.
Qed.
(** A statement other than a plain one needs no run. *)
Lemma ran_S s t f pc st : body f !! pc = Some st → st ≠ IStep → ran bodies s t f pc → ran bodies s t f (S pc).
Proof.
  intros Hst Hne Hr q Hq Hqs. apply Hr; [|done]. destruct (decide (q = pc)) as [->|]; [congruence|lia].
Qed.

(** The address of the block behind an await. *)
Lemma op_SetBlock i g t f pc x : g_wait g = false → g_main g = false → g_exit g = false → g_pc g = Some (t, f, pc) →
  body f !! pc = Some (IAwait x) →
  op_safe i (SetBlock t (f, Some (S pc))) g (λ _ g', g' = set_child None (set_pc None g)).
Proof.
  intros Hw Hmain Hx Hpc Hst. split; [done|]. intros s G HI Hg. simpl. unfold at_ctx.
  destruct (go_pc _ _ _ (I_ghost _ _ _ HI i g Hg) _ _ _ Hpc) as (c & Hc & Hf & Hloc & Hr). rewrite Hc.
  intros y s' [= _ ->]%list_elem_of_singleton. eexists. split; [|reflexivity].
  destruct (I_ctx _ _ _ HI t c Hc) as [B L N C R Z].
  apply (I_upd_same s G i g _ t c); try done.
  - exact (mutex_self s G i g t c HI Hg Hc).
  - destruct (ctx_ok_upd_other bodies Hc (c' := with_block c (f, Some (S pc))) eq_refl t c) as [B' L' N' C' R' Z']; [done|].
    split; try done.
    + simpl. intros pc0 [= <-] He. unfold has_locals. rewrite (called_take_S _ _ _ Hst), app_nil_r. by apply Hloc.
    + simpl. intros pc0 [= <-]. by apply (ran_S _ _ _ _ _ Hst).
    + intros He. specialize (Z' He). unfold ran_all in *. simpl. by rewrite Hf in Z'.
  - intros [E F U D P C' M X]. split; try done.
  - apply (upd_once s G i g _ t f pc c); try done. simpl. intros pc0 _ [= <-]. lia.
Qed.
Lemma op_SetExit i g t f pc : g_wait g = false → g_main g = false → g_run g = Some t → g_pc g = Some (t, f, pc) →
  length (body f) ≤ pc →
  op_safe i (SetBlock t (f, None)) g
    (λ _ g', g' = mk_ghost (g_main g) (g_wait g) (g_ds g) (g_st g) (g_run g) (g_pend g) true None None).
Proof.
  intros Hw Hmain Hr Hpc Hlen. split; [done|]. intros s G HI Hg. simpl. unfold at_ctx.
  destruct (go_pc _ _ _ (I_ghost _ _ _ HI i g Hg) _ _ _ Hpc) as (c & Hc & Hf & Hloc & Hran). rewrite Hc.
  assert (∀ q, q < length (body f) → body f !! q = Some IStep → (t, q) ∈ trace s) as Hall by (intros q Hq; apply Hran; lia).
  intros x s' [= _ ->]%list_elem_of_singleton. eexists. split; [|reflexivity].
  destruct (I_ctx _ _ _ HI t c Hc) as [B L N C R Z].
  apply (I_upd_same s G i g _ t c); try done.
  - exact (mutex_self s G i g t c HI Hg Hc).
  - by destruct (ctx_ok_upd_other bodies Hc (c' := with_block c (f, None)) eq_refl t c) as [B' L' N' C' R' Z'].
  - intros [E F U D P C' M X]. split; try done. simpl. intros _ t'. rewrite Hr. intros [= <-].
    exists (with_block c (f, None)). split; [by apply (lookup_upd_eq Hc)|done].
  - intros _ _. by left.
  - by apply (upd_once s G i g _ t f pc c).
Qed.
Lemma op_SetLocal i g t x u f g0 pc : g_wait g = false → g_main g = false → g_run g = Some t → g_pc g = Some (t, f, pc) →
  g_child g = Some (u, t) → body f !! pc = Some (ICall x g0) →
  op_safe i (SetLocal t x u) g (λ _ g', g' = set_pc (Some (t, f, S pc)) g).
Proof.
  intros Hw Hmain Hr Hpc Hch Hst. split; [done|]. intros s G HI Hg. simpl. unfold at_ctx.
  destruct (I_ghost _ _ _ HI i g Hg) as [E F U D P C M X].
  destruct (P _ _ _ Hpc) as (c & Hc & Hf & Hloc & Hran). rewrite Hc.
  intros y s' [= _ ->]%list_elem_of_singleton. eexists. split; [|reflexivity].
  set (c' := with_locals c (<[x:=u]> (locals c))).
  assert (∀ y, is_Some (locals c !! y) → is_Some (locals c' !! y)) as Hdom.
  { intros z Hz. simpl. destruct (decide (z = x)) as [->|Hne]; [rewrite lookup_insert_eq; by eexists|by rewrite lookup_insert_ne]. }
  apply (I_upd_same s G i g _ t c); try done.
  - exact (mutex_self s G i g t c HI Hg Hc).
  - destruct (ctx_ok_upd_other bodies Hc (c' := c') eq_refl t c) as [B' L' N' C' R' Z']; [by apply (I_ctx _ _ _ HI)|].
    split; try done.
    + intros pc0 Hb He z Hz. apply Hdom. by apply (B' pc0 Hb He).
    + simpl. intros z w. destruct (decide (z = x)) as [->|Hne].
      * rewrite lookup_insert_eq. intros [= <-]. destruct (C _ _ Hch) as (cu & Hcu & Hcr).
        destruct (decide (u = t)) as [->|Hut].
        -- exists c'. split; [by apply (lookup_upd_eq Hc)|]. simpl. congruence.
        -- exists cu. split; [by rewrite list_lookup_insert_ne|done].
      * rewrite lookup_insert_ne by done. apply L'.
  - intros [E' F' U' D' P' C' M' X']. split; try done. simpl. intros t' f' pc' [= <- <- <-].
    exists c'. split; [by apply (lookup_upd_eq Hc)|]. split; [done|]. split; [|by apply (ran_S _ _ _ _ _ Hst)]. intros He z.
    rewrite (called_take_S _ _ _ Hst), elem_of_app. simpl. intros [Hz| ->%list_elem_of_singleton].
    + by apply Hdom, Hloc.
    + simpl. rewrite lookup_insert_eq. by eexists.
  - intros _ Hb. by right.
  - apply (upd_once s G i g _ t f pc c); try done. simpl. intros t' f' pc' [= <- <- <-]. split; [done|lia].
Qed.

(** ** The end of a task and its continuation *)

Lemma op_SetDone i g t : g_wait g = false → g_exit g = true → g_pc g = None → g_st g = StHeld t → g_run g = Some t → g_pend g = None →
  op_safe i (SetDone t) g
    (λ _ g', ∃ c, g' = mk_ghost (g_main g) (g_wait g) (g_ds g) (StDone t) None c false None None).
Proof.
  intros Hw Hx Hpc Hst Hr Hp. split; [done|]. intros s G HI Hg. simpl. unfold at_ctx.
  destruct (I_run_live bodies HI i g t Hg (g_toks_run _ _ Hr)) as (c & Hc & He). rewrite Hc.
  intros x s' [= _ ->]%list_elem_of_singleton. eexists. split; [|by exists (nextTask c)].
  set (g' := mk_ghost _ _ _ _ _ _ _ _ _). destruct (tokens_upd Hg Hc (g' := g') (c' := with_done c)) as (R & HR & HR').
  assert (tokens s G ≡ₚ t :: tokens (upd_ctx s t (with_done c)) (<[i:=g']> G)) as Htok.
  { rewrite HR, HR'. unfold g_toks, next_toks. simpl. rewrite He, Hr, Hp. simpl. solve_Permutation. }
  pose proof (I_nodup _ _ _ HI) as Hnd. rewrite Htok in Hnd. apply NoDup_cons in Hnd as [Hnt Hnd].
  destruct (I_ctx _ _ _ HI t c Hc) as [B L N C R0 Z].
  assert (ran_all bodies s t c) as Hra.
  { destruct (go_exit _ _ _ (I_ghost _ _ _ HI i g Hg) Hx t Hr) as (c0 & Hc0 & Hra). by assert (c0 = c) as -> by congruence. }
  apply (I_upd bodies HI Hg Hc); try done.
  - intros _. by rewrite Hst.
  - rewrite (mutex_self s G i g t c HI Hg Hc), Hst. done.
  - intros u Hu. rewrite Hst. naive_solver.
  - destruct (I_ghost _ _ _ HI i g Hg) as [E F U D P C' M X]. subst g'. split; try done.
    simpl. intros t' [= <-]. exists (with_done c). split; [by apply (lookup_upd_eq Hc)|]. done.
  - split; [done|]. intros u. destruct (decide (u = t)) as [->|Hut].
    + rewrite (live_upd_eq Hc). by split.
    + rewrite live_upd by done. rewrite <- (I_live _ _ _ HI u), Htok, elem_of_cons. naive_solver.
  - intros u Hu _. right. split; [congruence|done].
  - by apply (upd_once_same bodies HI Hg Hc).
Qed.

Lemma op_SetNext i g t u : g_wait g = false → g_exit g = false → g_st g = StUndone u → g_run g = Some t →
  g_pend g = None → g_child g = Some (u, t) →
  op_safe i (SetNext u t) g
    (λ _ g', g' = mk_ghost (g_main g) (g_wait g) (g_ds g) (StHeld u) None None false (g_pc g) (g_child g)).
Proof.
  intros Hw Hx Hst Hr Hp Hch. split; [done|]. intros s G HI Hg. simpl. unfold at_ctx.
  destruct (I_ghost _ _ _ HI i g Hg) as [E F U D P C M X].
  destruct (U u Hst) as (c & Hc & He). rewrite Hc.
  intros x s' [= _ ->]%list_elem_of_singleton. eexists. split; [|reflexivity].
  destruct (I_ctx _ _ _ HI u c Hc) as [B L N C0 R Z].
  assert (creator c = Some t) as Hcr by (destruct (C _ _ Hch) as (c0 & Hc0 & Hcr0); congruence).
  assert (nextTask c = None) as Hn.
  { destruct (nextTask c) as [w|] eqn:Hw'; [|done]. pose proof (N w eq_refl) as Hw2.
    destruct (tok_not_next bodies HI i g t u c Hg (g_toks_run _ _ Hr) Hc He). congruence. }
  apply (I_upd bodies HI Hg Hc); try done.
  - intros _. by rewrite Hst.
  - rewrite (mutex_self s G i g u c HI Hg Hc), Hst. done.
  - intros w Hw'. by rewrite Hst.
  - destruct (ctx_ok_upd_other bodies Hc (c' := with_next c (Some t)) eq_refl u c) as [B' L' N' C' R' Z']; [done|].
    split; try done. simpl. congruence.
  - split; try done.
    + simpl. intros t' f pc Hpc. destruct (P _ _ _ Hpc) as (c0 & Hc0 & Hf & Hl). destruct (decide (t' = u)) as [->|Hne].
      * assert (c0 = c) as -> by congruence. exists (with_next c (Some t)). split; [by apply (lookup_upd_eq Hc)|done].
      * exists c0. by rewrite list_lookup_insert_ne.
    + simpl. intros u' t'. rewrite Hch. intros [= <- <-]. exists (with_next c (Some t)).
      split; [by apply (lookup_upd_eq Hc)|done].
  - apply (upd_tokens_same bodies HI Hg Hc); [done|]. unfold g_toks, next_toks. simpl. by rewrite He, Hr, Hp, Hn.
  - intros He' Hb. by right.
  - congruence.
  - by apply (upd_once_same bodies HI Hg Hc).
Qed.
End logic.
