(* ===== verification/CoroTheorems.v ===== *)
(** * Theorems on the coroutine scheduler

    No execution crashes or deadlocks: when no thread can move, every task
    that was ever started is done, whatever the interleaving.  Tasks are never
    lost or queued twice.  And one thing goes wrong: a state machine that is
    continued before the thread that left it has stored the block behind the
    await runs the statements before the await again. *)
From S2P Require Import Prelude Coro CoroInv CoroLogic.

(** Every awaited variable was assigned by a call before. *)
Definition wf_body (b : list instr) : Prop :=
  ∀ pc x, b !! pc = Some (IAwait x) → x ∈ called (take pc b).

Section programs.
Context (bodies : list (list instr)).
Hypothesis wf : Forall wf_body bodies.
#[local] Notation body := (body bodies).
#[local] Notation I := (I bodies).
#[local] Notation safe := (safe bodies).

Lemma body_wf f : wf_body (body f).
Proof.
  unfold Coro.body. destruct (bodies !! f) as [b|] eqn:Hb; simpl.
  - rewrite Forall_lookup in wf. by eapply wf.
  - intros pc x. by rewrite lookup_nil.
Qed.

(** Solves an equation between ghosts. *)
Ltac ghost_eq := match goal with g : ghost |- _ => destruct g end; simpl in *; simplify_eq; reflexivity.

Lemma safe_QueueTask i g t :
  g_ds g = DsFree → g_pend g = Some t → g_wait g = false → g_exit g = false → (∀ u, g_st g ≠ StDone u) →
  safe i (QueueTask t) g (λ _ g', g' = set_pend None g).
Proof.
  intros Hd Hp Hw Hx Hst. unfold QueueTask.
  apply safe_op. eapply op_safe_mono; [by apply op_LockDs|]. intros _ g1 ->.
  apply safe_op. eapply op_safe_mono; [by apply op_TasksPush|]. intros _ g2 ->.
  apply safe_op. eapply op_safe_mono; [by apply op_CondSignal|]. intros _ g3 ->.
  apply safe_call. eapply op_safe_mono; [by apply op_UnLockDs|]. intros _ g4 ->. ghost_eq.
Qed.

Lemma safe_call_async i g f :
  g_ds g = DsFree → g_pend g = None → g_wait g = false → g_exit g = false → (∀ u, g_st g ≠ StDone u) →
  safe i (call_async (g_run g) f) g (λ u g', g' = set_child ((λ t, (u, t)) <$> g_run g) g).
Proof.
  intros Hd Hp Hw Hx Hst. unfold call_async.
  apply safe_op. eapply op_safe_mono; [by apply op_NewCtx|]. intros u g1 ->.
  apply safe_bind. eapply safe_mono; [by apply safe_QueueTask|]. intros _ g2 ->. simpl. ghost_eq.
Qed.

(** A task that stored its exit. *)
Definition leaving (t : task_id) : ghost := mk_ghost false false DsFree StFree (Some t) None true None None.

Lemma safe_TryQueueContinuous i t : safe i (TryQueueContinuous t) (leaving t) (λ _ g', g' = idle false).
Proof.
  unfold TryQueueContinuous.
  apply safe_op. eapply op_safe_mono; [by apply op_MuLock; [..|left]|]. intros _ g1 ->.
  apply safe_op. eapply op_safe_mono; [by eapply op_SetDone|]. intros _ g2 [c ->].
  apply safe_op. eapply op_safe_mono; [by eapply op_GetContinuous|]. intros o g3 [-> ->]. simpl g_pend.
  apply safe_bind. apply safe_mono with (Q := λ _ g', g' = set_st (StHeld t) (idle false)).
  - destruct c as [u|]; [|done]. apply safe_bind. eapply safe_mono; [by apply safe_QueueTask|]. by intros _ g4 ->.
  - intros b g4 ->. apply safe_call. eapply op_safe_mono; [by eapply op_MuUnLock|]. by intros _ g5 ->.
Qed.

(** Before statement [pc] of function [f]. *)
Definition at_pc (t : task_id) (f pc : nat) ch : ghost := set_child ch (set_pc (Some (t, f, pc)) (running t)).
Definition step_post (t : task_id) (b : bool) (g : ghost) : Prop := g = if b then running t else idle false.

Lemma safe_await i t f pc x ch :
  body f !! pc = Some (IAwait x) → safe i (await_ t x (f, Some (S pc))) (at_pc t f pc ch) (step_post t).
Proof.
  intros Hst. unfold await_, LockST, UnLockST, IsDone.
  apply safe_op. eapply op_safe_mono; [by apply op_GetLocal with (f := f) (pc := pc); [..|apply body_wf]|]. intros u g1 ->.
  apply safe_op. eapply op_safe_mono; [apply op_MuLock; try done; right; by exists t|]. intros _ g2 ->.
  apply safe_op. eapply op_safe_mono; [by apply op_GetDone|]. intros b g3 ->.
  apply safe_bind. apply safe_mono with (Q := λ _ g', g' = mk_ghost false false DsFree (StHeld u)
    (if b then Some t else None) None false (Some (t, f, pc)) (Some (u, t))).
  { destruct b; [done|]. apply safe_call. eapply op_safe_mono; [by eapply op_SetNext|]. by intros _ g4 ->. }
  intros _ g4 ->.
  apply safe_op. eapply op_safe_mono; [by eapply op_MuUnLock|]. intros _ g5 ->.
  apply safe_op. eapply op_safe_mono; [by apply op_SetBlock with (pc := pc) (x := x)|].
  intros _ g6 ->. by destruct b.
Qed.

Lemma safe_return i t f pc ch : length (body f) ≤ pc → safe i (return_ t f) (at_pc t f pc ch) (step_post t).
Proof.
  intros Hlen. unfold return_. apply safe_op. eapply op_safe_mono; [by eapply op_SetExit|]. intros _ g1 ->.
  apply safe_bind. eapply safe_mono; [by apply safe_TryQueueContinuous|]. by intros _ g2 ->.
Qed.

Lemma safe_run_block i t f pc sts ch :
  sts = drop pc (body f) → safe i (run_block t f pc sts) (at_pc t f pc ch) (step_post t).
Proof.
  revert pc ch. induction sts as [|st sts IH]; intros pc ch Hsts; [by apply safe_return, drop_nil_inv|].
  assert (body f !! pc = Some st) as Hst.
  { rewrite <- (Nat.add_0_r pc), <- lookup_drop, <- Hsts. done. }
  rewrite (drop_S _ _ _ Hst) in Hsts. injection Hsts as Hrest.
  destruct st as [|x f'|x]; cbn [run_block].
  - apply safe_op. eapply op_safe_mono; [by eapply op_Run|]. intros _ g ->. by apply IH.
  - apply safe_bind. eapply safe_mono; [by apply (safe_call_async i (at_pc t f pc ch))|]. intros u g ->.
    apply safe_op. eapply op_safe_mono; [by eapply op_SetLocal|]. intros _ g ->. by apply IH.
  - by apply safe_await.
Qed.

Lemma safe_StepNext i t : safe i (StepNext bodies t) (running t) (step_post t).
Proof.
  unfold StepNext. apply safe_op. eapply op_safe_mono; [by apply op_GetBlock|].
  intros [f b] g (f' & pc & [= -> ->] & ->). by apply (safe_run_block i t f' pc _ None).
Qed.

Lemma safe_worker_lock i : safe i worker_lock (idle false) (λ r g, r = None ∧ g = holding DsHeld).
Proof. unfold worker_lock. apply safe_op. eapply op_safe_mono; [by apply op_LockDs|]. by intros _ g ->. Qed.
Definition fetch_post (r : option task_id) (g : ghost) : Prop :=
  g = match r with None => holding DsHeld | Some t => running t end.
Lemma safe_worker_test i : safe i worker_test (holding DsHeld) fetch_post.
Proof.
  unfold worker_test. apply safe_op. eapply op_safe_mono; [by apply op_TasksLen|]. intros n g ->.
  destruct (decide (n = O)).
  - apply safe_op. eapply op_safe_mono; [by apply op_CondSleep|]. intros _ g ->.
    apply safe_op. eapply op_safe_mono; [by apply op_CondWake|]. intros _ g ->.
    apply safe_op. eapply op_safe_mono; [by apply op_LockDs|]. by intros _ g ->.
  - apply safe_op. eapply op_safe_mono; [by apply op_TasksShift|]. intros t g ->.
    apply safe_op. eapply op_safe_mono; [by apply op_UnLockDs|]. by intros _ g ->.
Qed.
Lemma safe_main i calls : safe i (main_prog calls) (idle true) (λ _ g, g = idle true).
Proof.
  induction calls as [|f calls IH]; [done|]. cbn [main_prog].
  apply safe_bind. eapply safe_mono; [by apply (safe_call_async i (idle true))|]. by intros u g ->.
Qed.
End programs.

(** ** Soundness: the invariant of whole configurations *)
Section sound.
Context (bodies : list (list instr)).
Hypothesis wf : Forall wf_body bodies.
#[local] Notation body := (body bodies).
#[local] Notation I := (I bodies).
#[local] Notation safe := (safe bodies).
#[local] Notation step_thread := (step_thread bodies).

Definition is_op {A} (p : prog A) : Prop := match p with Ret _ => False | Vis _ _ => True end.
Definition thread_ok (i : thread_id) (th : thread) (g : ghost) : Prop :=
  match th with
  | Main p => safe i p g (λ _ g', g' = idle true)
  | Fetching p => is_op p ∧ safe i p g fetch_post
  | Stepping t p => is_op p ∧ safe i p g (step_post t)
  end.
Definition config_ok (c : config) : Prop :=
  ∃ G, I (mem_ c) G ∧ (∀ i, is_Some (G !! i) ↔ is_Some (threads c !! i)) ∧
    ∀ i th g, threads c !! i = Some th → G !! i = Some g → thread_ok i th g.

Lemma step_prog_ok {A} i (p : prog A) g Q s G :
  safe i p g Q → I s G → G !! i = Some g →
  match step_prog i p s with
  | Crash => False
  | Go outs => ∀ p' s', (p', s') ∈ outs → ∃ g', I s' (<[i:=g']> G) ∧ safe i p' g' Q
  end.
Proof.
  intros Hs HI Hg. destruct p as [a|X o k]; simpl; [by intros p' s' ?%not_elem_of_nil|].
  destruct Hs as [_ Hs]. specialize (Hs s G HI Hg). destruct (exec i o s) as [|outs]; [done|]. simpl.
  intros p' s' ([x s1] & [= -> ->] & Hin)%list_elem_of_fmap. by apply Hs.
Qed.
Lemma outcome_map_ok {X Y} (f : X → Y) (r : outcome X) (P : Y → shared → Prop) :
  match r with Crash => False | Go outs => ∀ x s, (x, s) ∈ outs → P (f x) s end →
  match outcome_map f r with Crash => False | Go outs => ∀ y s, (y, s) ∈ outs → P y s end.
Proof. destruct r as [|outs]; [done|]. simpl. intros HP y s ([x s1] & [= -> ->] & Hin)%list_elem_of_fmap. by apply HP. Qed.

Lemma settle_fetching i p g : safe i p g fetch_post → thread_ok i (settle bodies (Fetching p)) g.
Proof.
  destruct p as [[t|]|X o k]; [intros ->..|by split]; cbn [settle thread_ok].
  - split; [done|]. by apply safe_StepNext.
  - split; [done|]. by apply safe_worker_test.
Qed.
Lemma settle_stepping i t p g : safe i p g (step_post t) → thread_ok i (settle bodies (Stepping t p)) g.
Proof.
  destruct p as [[|]|X o k]; [intros ->..|by split]; cbn [settle thread_ok].
  - split; [done|]. by apply safe_StepNext.
  - split; [done|]. eapply safe_mono; [by apply safe_worker_lock|]. by intros r g [-> ->].
Qed.

Lemma step_thread_ok i th g s G :
  thread_ok i th g → I s G → G !! i = Some g →
  match step_thread i th s with
  | Crash => False
  | Go outs => ∀ th' s', (th', s') ∈ outs → ∃ g', I s' (<[i:=g']> G) ∧ thread_ok i th' g'
  end.
Proof.
  intros Hok HI Hg. destruct th as [p|p|t p]; unfold Coro.step_thread; apply outcome_map_ok.
  - exact (step_prog_ok i p g _ s G Hok HI Hg).
  - destruct Hok as [_ Hok]. pose proof (step_prog_ok i p g _ s G Hok HI Hg) as Hs. destruct (step_prog i p s); [done|].
    intros p' s' Hin. destruct (Hs p' s' Hin) as (g' & HI' & Hp'). exists g'. split; [done|]. by apply settle_fetching.
  - destruct Hok as [_ Hok]. pose proof (step_prog_ok i p g _ s G Hok HI Hg) as Hs. destruct (step_prog i p s); [done|].
    intros p' s' Hin. destruct (Hs p' s' Hin) as (g' & HI' & Hp'). exists g'. split; [done|]. by apply settle_stepping.
Qed.

Lemma config_no_crash c : config_ok c → ¬ crashed bodies c.
Proof.
  intros (G & HI & Hdom & Hth) (i & th & Hi & Hcr). destruct (proj2 (Hdom i)) as [g Hg]; [by eexists|].
  pose proof (step_thread_ok i th g _ G (Hth i th g Hi Hg) HI Hg) as Hs. by rewrite Hcr in Hs.
Qed.

(** A wait that ends without a signal. *)
Lemma spurious_ok s G i : I s G → i ∈ waiting s → I (with_waiting s (waiting s ∖ {[i]})) G.
Proof.
  intros HI Hin. pose proof (I_waiting _ _ _ HI i Hin) as Hg. rewrite <- (insert_id G i sleeping Hg).
  eapply I_same; try done.
  - simpl. rewrite (I_mu _ _ _ HI i). split; [|done]. intros (g & Hg' & Hd). assert (g = sleeping) as -> by congruence. by destruct Hd.
  - simpl. set_solver.
  - right. left. exists i, sleeping. rewrite lookup_insert_eq. simpl. set_solver.
Qed.

Lemma cstep_ok c c' : config_ok c → cstep bodies c c' → config_ok c'.
Proof.
  intros (G & HI & Hdom & Hth) Hstep. destruct Hstep as [s ths i th outs th' s' Hi Hst Hin|s ths i Hin]; simpl in *.
  - destruct (proj2 (Hdom i)) as [g Hg]; [by eexists|].
    pose proof (step_thread_ok i th g s G (Hth i th g Hi Hg) HI Hg) as Hs. rewrite Hst in Hs.
    destruct (Hs th' s' Hin) as (g' & HI' & Hok'). exists (<[i:=g']> G). split; [exact HI'|]. simpl. split.
    + intros j. destruct (decide (j = i)) as [->|Hne].
      * rewrite lookup_insert_eq, list_lookup_insert_eq by (by eapply lookup_lt_Some). split; by eexists.
      * rewrite lookup_insert_ne, list_lookup_insert_ne by done. apply Hdom.
    + intros j thj gj. destruct (decide (j = i)) as [->|Hne].
      * rewrite lookup_insert_eq, list_lookup_insert_eq by (by eapply lookup_lt_Some). by intros [= <-] [= <-].
      * rewrite lookup_insert_ne, list_lookup_insert_ne by done. apply Hth.
  - exists G. split; [by apply spurious_ok|]. by split.
Qed.

Lemma init_ok calls n : 0 < n → config_ok (init calls n).
Proof.
  intros Hn. set (gs := idle true :: replicate n (idle false)).
  assert (∀ i, (map_seq 0 gs : ghosts) !! i = gs !! i) as Hlk by (intros i; by rewrite lookup_map_seq_0).
  assert (∀ i g, (map_seq 0 gs : ghosts) !! i = Some g → ∃ b, g = idle b) as Hidle.
  { intros i g. rewrite Hlk. destruct i as [|i]; simpl; [intros [= <-]; eauto|]. intros [-> _]%lookup_replicate. eauto. }
  assert (ghost_toks (map_seq 0 gs) = []) as Htok.
  { unfold ghost_toks. assert (∀ l : list (thread_id * ghost), (∀ o, o ∈ l → ∃ b, o.2 = idle b) → l.*2 ≫= g_toks = []) as Hl.
    { induction l as [|[j g] l IH]; intros Hall; [done|]. simpl. destruct (Hall (j, g) ltac:(by left)) as [b Hb].
      simpl in Hb. subst g. simpl. apply IH. intros o Ho. apply Hall. by right. }
    apply Hl. intros [j g] Hj%elem_of_map_to_list. by apply (Hidle j). }
  generalize dependent (map_seq 0 gs : ghosts). intros G0 Hlk Hidle Htok. exists G0. split; [|split].
  - split; simpl.
    + intros i. split; [done|]. intros (g & Hg & Hd). destruct (Hidle i g Hg) as [b ->]. by destruct Hd.
    + intros t i. split; [by intros (c & Hc & _)|]. intros (g & Hg & Hs). by destruct (Hidle i g Hg) as [b ->].
    + intros i g Hg. destruct (Hidle i g Hg) as [b ->]. by split.
    + set_solver.
    + exists 1%nat, (idle false). rewrite Hlk. destruct n; [lia|done].
    + intros i g. rewrite Hlk. destruct i as [|i]; simpl; [by intros [= <-]|]. by intros [-> _]%lookup_replicate.
    + by left.
    + unfold tokens. rewrite Htok. apply NoDup_nil_2.
    + intros t. unfold tokens. rewrite Htok. split; [by intros ?%not_elem_of_nil|by intros (c & Hc & _)].
    + done.
    + done.
    + intros _. split; simpl; [apply NoDup_nil_2|by intros t q ?%not_elem_of_nil|by intros t q pc ?%not_elem_of_nil|by intros t q c pc ?%not_elem_of_nil].
  - intros i. rewrite Hlk. simpl. destruct i as [|i]; [by split|]. simpl. by rewrite !lookup_lt_is_Some, !length_replicate.
  - intros i th g. rewrite Hlk. simpl. destruct i as [|i]; simpl.
    + intros [= <-] [= <-]. apply safe_main.
    + intros [-> _]%lookup_replicate [-> _]%lookup_replicate. split; [done|].
      eapply safe_mono; [by apply safe_worker_lock|]. by intros r g [-> ->].
Qed.

Lemma reachable_ok calls n c : 0 < n → rtc (cstep bodies) (init calls n) c → config_ok c.
Proof.
  intros Hn Hr. remember (init calls n) as c0 eqn:Hc0. assert (config_ok c0) as Hok by (subst; by apply init_ok).
  clear Hc0. induction Hr; [done|]. apply IHHr. by eapply cstep_ok.
Qed.

(** ** When nothing can move *)

(** A thread that has to wait waits for the queue's mutex, for the mutex of a
    task, or sleeps. *)
Lemma blocked_cases {X : Set} i (o : op X) g s : may_wait o g → exec i o s = Go [] →
  (g_ds g = DsFree ∧ mu s ≠ None) ∨
  (g_ds g = DsFree ∧ g_st g = StFree ∧ ∃ t c, ctxs s !! t = Some c ∧ mutex c ≠ None) ∨
  (g = sleeping ∧ i ∈ waiting s).
Proof.
  intros Hm He. destruct o; simpl in He, Hm; unfold at_ctx in He;
    try (destruct (ctxs s !! t) as [c|] eqn:Hc; [|done]); try done.
  - left. by destruct (mu s).
  - by case_decide.
  - by case_decide.
  - case_decide; [|done]. right. by right.
  - case_decide; [done|]. injection He as He. apply fmap_nil_inv, elements_empty_inv in He. set_solver.
  - by destruct (tasks s).
  - right. left. destruct Hm as [Hd Hst]. split; [done|]. split; [done|]. exists t, c. by destruct (mutex c).
  - by case_decide.
  - by destruct (locals c !! x).
Qed.

Section stuck.
Context {s : shared} {ths : list thread} {G : ghosts}.
Hypothesis HI : I s G.
Hypothesis Hdom : ∀ i, is_Some (G !! i) ↔ is_Some (ths !! i).
Hypothesis Hth : ∀ i th g, ths !! i = Some th → G !! i = Some g → thread_ok i th g.
Hypothesis Hstuck : stuck bodies (mk_config s ths).

Lemma outcome_map_nil {X Y} (f : X → Y) (r : outcome X) : outcome_map f r = Go [] → r = Go [].
Proof. destruct r as [|[|x l]]; simpl; [done..|]. by destruct x. Qed.

Lemma stuck_prog {A} i (p : prog A) g Q : safe i p g Q → step_prog i p s = Go [] →
  (∃ a, p = Ret a) ∨ (g_ds g = DsFree ∧ mu s ≠ None) ∨
  (g_ds g = DsFree ∧ g_st g = StFree ∧ ∃ t c, ctxs s !! t = Some c ∧ mutex c ≠ None) ∨
  (g = sleeping ∧ i ∈ waiting s).
Proof.
  destruct p as [a|X o k]; [left; by exists a|]. intros [Hm _] He. right.
  apply (blocked_cases i o); [done|]. by apply outcome_map_nil in He.
Qed.
Lemma stuck_thread i g : G !! i = Some g →
  (g = idle true ∧ ths !! i = Some (Main (Ret tt))) ∨ (g_ds g = DsFree ∧ mu s ≠ None) ∨
  (g_ds g = DsFree ∧ g_st g = StFree ∧ ∃ t c, ctxs s !! t = Some c ∧ mutex c ≠ None) ∨
  (g = sleeping ∧ i ∈ waiting s).
Proof.
  intros Hg. destruct (proj1 (Hdom i)) as [th Hi]; [by eexists|]. pose proof (Hth i th g Hi Hg) as Hok.
  pose proof (Hstuck i th Hi) as Hs. unfold Coro.step_thread in Hs. simpl in Hs.
  destruct th as [p|p|t p]; apply outcome_map_nil in Hs.
  - destruct (stuck_prog i p g _ Hok Hs) as [[[] ->]|?]; [left|by right]. by split.
  - destruct Hok as [Hop Hok]. destruct (stuck_prog i p g _ Hok Hs) as [[a ->]|?]; [done|by right].
  - destruct Hok as [Hop Hok]. destruct (stuck_prog i p g _ Hok Hs) as [[a ->]|?]; [done|by right].
Qed.

(** The holder of the queue's mutex could move, then the holder of a task's;
    so nobody holds one. *)
Lemma stuck_mu : mu s = None.
Proof.
  destruct (mu s) as [j|] eqn:Hmu; [|done]. exfalso. destruct (proj1 (I_mu _ _ _ HI j) Hmu) as (g & Hg & Hd).
  destruct (stuck_thread j g Hg) as [[-> _]|[[? _]|[[? _]|[-> _]]]]; done.
Qed.
Lemma stuck_mutex t c : ctxs s !! t = Some c → mutex c = None.
Proof.
  intros Hc. destruct (mutex c) as [j|] eqn:Hm; [|done]. exfalso.
  destruct (proj1 (I_mutex _ _ _ HI t j)) as (g & Hg & Hst); [by exists c|].
  destruct (stuck_thread j g Hg) as [[-> _]|[[_ Hmu]|[(_ & Hf & _)|[-> _]]]]; [done|by rewrite stuck_mu in Hmu| |done].
  by rewrite Hf in Hst.
Qed.
Lemma stuck_asleep i g : G !! i = Some g → (g = idle true ∧ ths !! i = Some (Main (Ret tt))) ∨ (g = sleeping ∧ i ∈ waiting s).
Proof.
  intros Hg. destruct (stuck_thread i g Hg) as [?|[[_ Hmu]|[(_ & _ & t & c & Hc & Hm)|?]]]; [by left| | |by right].
  - by rewrite stuck_mu in Hmu.
  - by rewrite (stuck_mutex t c Hc) in Hm.
Qed.
Lemma stuck_queue : tasks s = [].
Proof.
  destruct (I_awake _ _ _ HI) as [?|[(i & g & Hg & Hm & Hw)|(i & g & Hg & Hd)]]; [done|exfalso..];
    destruct (stuck_asleep i g Hg) as [[-> _]|[-> Hw']]; done.
Qed.

(** A task that is not done would be the continuation of a younger one. *)
Lemma stuck_done t c : ctxs s !! t = Some c → end_ c = true.
Proof.
  assert (∀ n t, length (ctxs s) - t ≤ n → ¬ live s t)%nat as Hnone.
  { induction n as [|n IH]; intros u Hu Hl.
    - destruct Hl as (cu & Hcu & _). apply lookup_lt_Some in Hcu. lia.
    - assert (u ∈ tokens s G) as Htok by (by apply (I_live _ _ _ HI)). unfold tokens in Htok.
      rewrite stuck_queue in Htok. simpl in Htok. apply elem_of_app in Htok as [Htok|Htok].
      + apply list_elem_of_bind in Htok as (g & Hug & Hgin). apply list_elem_of_fmap in Hgin as ([i g'] & -> & Hin%elem_of_map_to_list).
        simpl in Hug. destruct (stuck_asleep i g' Hin) as [[-> _]|[-> _]]; by apply not_elem_of_nil in Hug.
      + apply list_elem_of_bind in Htok as (cw & Huw & Hcw). apply list_elem_of_lookup in Hcw as [w Hw].
        unfold next_toks in Huw. destruct (end_ cw) eqn:He; [by apply not_elem_of_nil in Huw|].
        destruct (nextTask cw) as [u'|] eqn:Hn; [|by apply not_elem_of_nil in Huw].
        apply list_elem_of_singleton in Huw. subst u'. pose proof (I_ctx _ _ _ HI w cw Hw) as Hok.
        pose proof (co_creator _ _ _ _ Hok _ (co_next _ _ _ _ Hok _ Hn)) as Hlt.
        apply (IH w); [|by exists cw]. apply lookup_lt_Some in Hw. lia. }
  intros Hc. destruct (end_ c) eqn:He; [done|]. destruct (Hnone (length (ctxs s)) t); [lia|]. by exists c.
Qed.
End stuck.

(** The threads keep their number and the first stays the main one. *)
Lemma cstep_threads c c' : cstep bodies c c' → length (threads c') = length (threads c).
Proof. intros [s ths i th outs th' s' Hi Hst Hin|s ths i Hin]; simpl; [apply length_insert|done]. Qed.
Lemma reachable_length calls n c : rtc (cstep bodies) (init calls n) c → length (threads c) = S n.
Proof.
  intros Hr. transitivity (length (threads (init calls n))); [|simpl; by rewrite length_replicate].
  induction Hr as [|c1 c2 c3 Hstep _ IH]; [done|]. rewrite IH. by apply cstep_threads.
Qed.
Lemma cstep_main c c' : cstep bodies c c' → (∃ p, threads c !! O = Some (Main p)) → ∃ p, threads c' !! O = Some (Main p).
Proof.
  intros [s ths i th outs th' s' Hi Hst Hin|s ths i Hin] [p Hp]; simpl in *; [|by eexists].
  destruct i as [|i]; [|rewrite list_lookup_insert_ne by done; by eexists].
  assert (th = Main p) as -> by congruence. unfold Coro.step_thread, outcome_map in Hst. destruct (step_prog 0 p s); [done|].
  injection Hst as <-. apply list_elem_of_fmap in Hin as ([q s1] & [= -> ->] & _). exists q.
  apply list_lookup_insert_eq. by eapply lookup_lt_Some.
Qed.
Lemma reachable_main calls n c : rtc (cstep bodies) (init calls n) c → ∃ p, threads c !! O = Some (Main p).
Proof.
  intros Hr. assert (∃ p, threads (init calls n) !! O = Some (Main p)) as Hm by (by eexists).
  induction Hr as [|c1 c2 c3 Hstep _ IH]; [done|]. by apply IH, (cstep_main c1).
Qed.

(** C4. Coroutines never deadlock and no task is lost: whatever the
    interleaving of the main function and any positive number of workers, when
    no thread can move the main function is at its end, the queue is empty,
    and every task that was ever started is done and has run every statement
    of its function.  The bodies may call and await tasks in any way in which
    a variable is assigned before it is awaited. *)
Theorem coro_all_done calls n c :
  0 < n → rtc (cstep bodies) (init calls n) c → stuck bodies c →
  threads c !! O = Some (Main (Ret tt)) ∧ tasks (mem_ c) = [] ∧
  ∀ t x, ctxs (mem_ c) !! t = Some x →
    end_ x = true ∧ ∀ pc, body (nextBlock x).1 !! pc = Some IStep → (t, pc) ∈ trace (mem_ c).
Proof.
  intros Hn Hr Hs. destruct (reachable_main calls n c Hr) as [p Hp].
  destruct (reachable_ok calls n c Hn Hr) as (G & HI & Hdom & Hth). destruct c as [s ths]. simpl in *. split; [|split].
  - destruct (proj2 (Hdom O)) as [g Hg]; [by eexists|].
    destruct (stuck_asleep HI Hdom Hth Hs O g Hg) as [[_ ?]|[-> _]]; [done|].
    by pose proof (proj2 (I_main _ _ _ HI O _ Hg) eq_refl).
  - by apply (stuck_queue HI Hdom Hth Hs).
  - intros t x Hx. pose proof (stuck_done HI Hdom Hth Hs t x Hx) as He. split; [done|].
    intros pc Hpc. apply (co_end _ _ _ _ (I_ctx _ _ _ HI t x Hx) He); [|done]. by eapply lookup_lt_Some.
Qed.

(** C18. With one worker no statement runs twice: in every reachable state the
    statements that ran, of all tasks, are different. *)
Theorem coro_runs_once calls c :
  rtc (cstep bodies) (init calls 1) c → NoDup (trace (mem_ c)).
Proof.
  intros Hr. destruct (reachable_ok calls 1 c ltac:(lia) Hr) as (G & HI & Hdom & _).
  apply (on_nodup _ _ (I_once _ _ _ HI ltac:(intros i [th Hi%lookup_lt_Some]%Hdom; rewrite (reachable_length calls 1 c Hr) in Hi; lia))).
Qed.

(** C19. The scheduler's bookkeeping: in every reachable state of any number of
    workers no thread is at an access that goes wrong (a task that does not
    exist, an empty queue, a mutex that another thread holds), no task is
    queued twice or queued when it is done, and a task stored as a
    continuation is not done, is not queued, and is the continuation of one
    task only. *)
Theorem coro_safe calls n c :
  0 < n → rtc (cstep bodies) (init calls n) c →
  ¬ crashed bodies c ∧ NoDup (tasks (mem_ c)) ∧ (∀ t, t ∈ tasks (mem_ c) → live (mem_ c) t) ∧
  ∀ u x t, ctxs (mem_ c) !! u = Some x → end_ x = false → nextTask x = Some t →
    live (mem_ c) t ∧ t ∉ tasks (mem_ c) ∧
    ∀ u' x', ctxs (mem_ c) !! u' = Some x' → end_ x' = false → nextTask x' = Some t → u' = u.
Proof.
  intros Hn Hr. pose proof (reachable_ok calls n c Hn Hr) as Hok. split; [by apply config_no_crash|].
  destruct Hok as (G & HI & _). destruct (tokens_queue bodies HI) as (Hnd & Hl & Hnext).
  split; [done|]. split; [done|]. exact Hnext.
Qed.
End sound.

(** ** Schedules *)

Lemma run_schedule_reachable bodies sched c c' : run_schedule bodies sched c = Some c' → rtc (cstep bodies) c c'.
Proof.
  revert c. induction sched as [|[i j] sched IH]; intros c; simpl; [by intros [= ->]|].
  destruct (threads c !! i) as [th|] eqn:Hi; [|done]. simpl. destruct (step_thread bodies i th (mem_ c)) as [|outs] eqn:Hst; [done|].
  destruct (outs !! j) as [[th' s']|] eqn:Hj; [|done]. simpl. intros Hr. eapply rtc_l; [|by apply IH].
  destruct c as [s ths]. eapply cstep_thread; [done..|]. by eapply list_elem_of_lookup_2.
Qed.

(** A function that calls another and awaits it twice over. *)
Definition demo_bodies : list (list instr) :=
  [[IStep; ICall "x" 1; IAwait "x"; IStep]; [IStep]].
Definition demo_end (n : nat) (sched : list (nat * nat)) : config :=
  default (init [] 0) (run_schedule demo_bodies sched (init [0] n)).
Lemma demo_end_reachable n sched :
  match run_schedule demo_bodies sched (init [0%nat] n) with Some _ => true | None => false end = true →
  rtc (cstep demo_bodies) (init [0%nat] n) (demo_end n sched).
Proof.
  intros Hr. apply run_schedule_reachable with (sched := sched). unfold demo_end. by destruct (run_schedule demo_bodies sched (init [0%nat] n)).
Qed.
Lemma demo_wf : Forall wf_body demo_bodies.
Proof.
  repeat constructor; intros pc x; do 5 (destruct pc as [|pc]; [try discriminate; by intros [= <-]; left|]); by destruct pc.
Qed.

(** C32. With two workers a statement can run twice: await unlocks the task
    before it stores the block behind itself, so that another worker can run
    the awaited task to its end, take its continuation from the queue and
    enter it at the block of the first entry.  Here statement 0 of task 0 runs
    again after task 1. *)
Theorem await_race :
  Forall wf_body demo_bodies ∧
  ∃ c, rtc (cstep demo_bodies) (init [0%nat] 2) c ∧ trace (mem_ c) = [(0, 0); (1, 0); (0, 0)]%nat.
Proof.
  split; [apply demo_wf|]. exists (demo_end 2 (replicate 5 (0, 0) ++ replicate 17 (1, 0) ++ replicate 26 (2, 0))%nat). split.
  - apply demo_end_reachable. vm_compute. reflexivity.
  - vm_compute. reflexivity.
Qed.

(** ** Witnesses *)

(** The main function starts task 0, then one worker does all the rest. *)
Definition demo_sched : list (nat * nat) := (replicate 5 (0, 0) ++ replicate 47 (1, 0))%nat.
Lemma demo_reachable : rtc (cstep demo_bodies) (init [0%nat] 1) (demo_end 1 demo_sched).
Proof. apply demo_end_reachable. vm_compute. reflexivity. Qed.
Lemma demo_stuck : stuck demo_bodies (demo_end 1 demo_sched).
Proof. intros i th. destruct i as [|[|i]]; vm_compute; by intros [= <-]. Qed.

Lemma coro_all_done_witness :
  ∃ c, tasks (mem_ c) = [] ∧ ∀ t x, ctxs (mem_ c) !! t = Some x →
    end_ x = true ∧ ∀ pc, body demo_bodies (nextBlock x).1 !! pc = Some IStep → (t, pc) ∈ trace (mem_ c).
Proof.
  exists (demo_end 1 demo_sched).
  exact (proj2 (coro_all_done demo_bodies demo_wf [0%nat] 1 _ (le_n 1) demo_reachable demo_stuck)).
Defined.
Lemma coro_runs_once_witness : NoDup (trace (mem_ (demo_end 1 demo_sched))).
Proof. exact (coro_runs_once demo_bodies demo_wf [0%nat] _ demo_reachable). Defined.
Lemma coro_safe_witness : ¬ crashed demo_bodies (demo_end 1 demo_sched).
Proof. exact (proj1 (coro_safe demo_bodies demo_wf [0%nat] 1 _ (le_n 1) demo_reachable)). Defined.
