(* ===== verification/Ir.v ===== *)
(** * The intermediate code the compiler builds

    src/compiler/ast builds LLVM code with a library, github.com/llir/llvm,
    which is not in the repository: blocks are Go objects with a list of
    instructions and a terminator, which the code generator also reads.  The
    class [Llir] states what the library documents of the operations used; an
    instruction and a block are known by a number, standing for the pointer to
    the Go object.  The instructions are those the modelled part of the
    generator builds, and run as LLVM's language reference says, on integers
    of their width.  A run stops where the reference leaves the behaviour
    undefined. *)
From S2P Require Import Prelude.
#[local] Open Scope Z_scope.

(** ** Types, values, instructions *)

Inductive type := IntType (BitSize : Z) | PointerType (ElemType : type) | VoidType.
#[export] Instance type_eq_dec : EqDecision type.
Proof. solve_decision. Defined.

Inductive value :=
  | ConstInt (BitSize X : Z)
  | Inst (r : nat) (t : type)
  | Param (i : nat) (t : type).
Definition Type_ (v : value) : type :=
  match v with ConstInt w _ => IntType w | Inst _ t => t | Param _ t => t end.

Inductive binop := Add | Sub | Mul | SDiv | SRem | Shl | AShr | And | Or | Xor.
Inductive ipred := IPredEQ | IPredNE | IPredSGT | IPredSGE | IPredSLT | IPredSLE.

Inductive inst :=
  | Alloca (t : type)
  | CallHeapalloc (t : type)
  | Load (t : type) (src : value)
  | Store (src dst : value)
  | Bin (op : binop) (l r : value)
  | ICmp (p : ipred) (l r : value)
  | ZExt (v : value) (w : Z).
Inductive terminator :=
  | Br (b : nat)
  | CondBr (c : value) (t f : nat)
  | Ret (v : option value).

Definition is_alloc (i : inst) : bool := match i with Alloca _ | CallHeapalloc _ => true | _ => false end.

(** ** The library *)

Class Llir := {
  Func : Type;
  NewFunc : Func;
  Blocks : Func → list nat;
  Insts : Func → nat → list (nat * inst);
  Term : Func → nat → option terminator;
  NewBlock : Func → nat * Func;
  NewInst : Func → nat → inst → nat * Func;
  SetTerm : Func → nat → terminator → Func;
  (** a new function has no blocks *)
  NewFunc_spec : Blocks NewFunc = [];
  (** a new block is appended to the function, empty *)
  NewBlock_spec f b f' : NewBlock f = (b, f') →
    b ∉ Blocks f ∧ Blocks f' = Blocks f ++ [b] ∧ Insts f' b = [] ∧ Term f' b = None ∧
    ∀ b', b' ≠ b → Insts f' b' = Insts f b' ∧ Term f' b' = Term f b';
  (** a new instruction is appended to its block, as an object of its own *)
  NewInst_spec f b i r f' : NewInst f b i = (r, f') → b ∈ Blocks f →
    (∀ b', b' ∈ Blocks f → r ∉ (Insts f b').*1) ∧ Blocks f' = Blocks f ∧
    Insts f' b = Insts f b ++ [(r, i)] ∧ (∀ b', b' ≠ b → Insts f' b' = Insts f b') ∧
    ∀ b', Term f' b' = Term f b';
  (** the terminator of a block can be replaced *)
  SetTerm_spec f b t : b ∈ Blocks f →
    Blocks (SetTerm f b t) = Blocks f ∧ Term (SetTerm f b t) b = Some t ∧
    (∀ b', Insts (SetTerm f b t) b' = Insts f b') ∧
    ∀ b', b' ≠ b → Term (SetTerm f b t) b' = Term f b';
}.

(** ** Integers of a width

    An integer of [w] bits is kept as the number from 0 to [2^w - 1] with its
    bits. *)

Definition wrap (w z : Z) : Z := z `mod` 2 ^ w.
Definition signed (w z : Z) : Z := if z <? 2 ^ (w - 1) then z else z - 2 ^ w.

(** [None]: the result is undefined or poison. *)
Definition bin_int (op : binop) (w a b : Z) : option Z :=
  match op with
  | Add => Some (wrap w (a + b))
  | Sub => Some (wrap w (a - b))
  | Mul => Some (wrap w (a * b))
  | SDiv => if (b =? 0) || ((signed w a =? - 2 ^ (w - 1)) && (signed w b =? -1)) then None
            else Some (wrap w (signed w a `quot` signed w b))
  | SRem => if (b =? 0) || ((signed w a =? - 2 ^ (w - 1)) && (signed w b =? -1)) then None
            else Some (wrap w (signed w a `rem` signed w b))
  | Shl => if b <? w then Some (wrap w (Z.shiftl a b)) else None
  | AShr => if b <? w then Some (wrap w (Z.shiftr (signed w a) b)) else None
  | And => Some (Z.land a b)
  | Or => Some (Z.lor a b)
  | Xor => Some (Z.lxor a b)
  end.
Definition icmp_int (p : ipred) (w a b : Z) : bool :=
  match p with
  | IPredEQ => a =? b
  | IPredNE => negb (a =? b)
  | IPredSGT => signed w b <? signed w a
  | IPredSGE => signed w b <=? signed w a
  | IPredSLT => signed w a <? signed w b
  | IPredSLE => signed w a <=? signed w b
  end.

(** ** Running a function *)

Inductive val := VInt (w z : Z) | VPtr (l : nat) | VUndef.

Record state := mk_state { blk : nat; idx : nat; regs : gmap nat val; mem : gmap nat val }.

Section run.
Context `{Llir} (F : Func) (args : list val).

(** An operand at the type of its instruction: a constant is written without
    its own type. *)
Definition operand (ρ : gmap nat val) (t : type) (v : value) : option val :=
  match v with
  | ConstInt _ z => match t with IntType w => Some (VInt w (wrap w z)) | _ => None end
  | Inst r t' => if decide (t' = t) then ρ !! r else None
  | Param i t' => if decide (t' = t) then args !! i else None
  end.

Definition exec_bin (op : binop) (w : Z) (a b : val) : option val :=
  match a, b with
  | VInt wa x, VInt wb y => if decide (wa = w ∧ wb = w) then VInt w <$> bin_int op w x y else None
  | VPtr _, _ | _, VPtr _ => None
  | _, _ => match op with SDiv | SRem | Shl | AShr => None | _ => Some VUndef end
  end.
Definition exec_icmp (p : ipred) (w : Z) (a b : val) : option val :=
  match a, b with
  | VInt wa x, VInt wb y => if decide (wa = w ∧ wb = w) then Some (VInt 1 (Z.b2z (icmp_int p w x y))) else None
  | VPtr _, _ | _, VPtr _ => None
  | _, _ => Some VUndef
  end.

(** Cleared memory of a type, and uninitialised memory. *)
Definition zero_of (t : type) : val := match t with IntType w => VInt w 0 | _ => VUndef end.

(** The new registers and memory. *)
Definition exec_inst (r : nat) (i : inst) (ρ m : gmap nat val) : option (gmap nat val * gmap nat val) :=
  match i with
  | Alloca t => let l := fresh (dom m) in Some (<[r:=VPtr l]> ρ, <[l:=VUndef]> m)
  | CallHeapalloc t => let l := fresh (dom m) in Some (<[r:=VPtr l]> ρ, <[l:=zero_of t]> m)
  | Load t src =>
      match operand ρ (PointerType t) src with
      | Some (VPtr l) => v ← m !! l; Some (<[r:=v]> ρ, m)
      | _ => None
      end
  | Store src dst =>
      v ← operand ρ (Type_ src) src;
      match operand ρ (PointerType (Type_ src)) dst with
      | Some (VPtr l) => _ ← m !! l; Some (ρ, <[l:=v]> m)
      | _ => None
      end
  | Bin op x y =>
      match Type_ x with
      | IntType w => a ← operand ρ (IntType w) x; b ← operand ρ (IntType w) y; v ← exec_bin op w a b; Some (<[r:=v]> ρ, m)
      | _ => None
      end
  | ICmp p x y =>
      match Type_ x with
      | IntType w => a ← operand ρ (IntType w) x; b ← operand ρ (IntType w) y; v ← exec_icmp p w a b; Some (<[r:=v]> ρ, m)
      | _ => None
      end
  | ZExt x w' =>
      match Type_ x with
      | IntType w => a ← operand ρ (IntType w) x;
          if decide (w < w') then
            match a with
            | VInt _ z => Some (<[r:=VInt w' z]> ρ, m)
            | VUndef => Some (<[r:=VUndef]> ρ, m)
            | VPtr _ => None
            end
          else None
      | _ => None
      end
  end.

Inductive result := Next (s : state) | Returned (v : option val).

Definition step (s : state) : option result :=
  match Insts F (blk s) !! idx s with
  | Some (r, i) => '(ρ, m) ← exec_inst r i (regs s) (mem s); Some (Next (mk_state (blk s) (S (idx s)) ρ m))
  | None =>
      match Term F (blk s) with
      | Some (Br b) => Some (Next (mk_state b 0 (regs s) (mem s)))
      | Some (CondBr c t f) =>
          match operand (regs s) (IntType 1) c with
          | Some (VInt 1 z) => Some (Next (mk_state (if z =? 1 then t else f) 0 (regs s) (mem s)))
          | _ => None
          end
      | Some (Ret None) => Some (Returned None)
      | Some (Ret (Some v)) => v ← operand (regs s) (Type_ v) v; Some (Returned (Some v))
      | None => None
      end
  end.

(** [Some None]: out of fuel; [None]: the run goes wrong. *)
Fixpoint run (fuel : nat) (s : state) : option (option (option val)) :=
  match fuel with
  | O => Some None
  | S fuel =>
      match step s with
      | Some (Next s) => run fuel s
      | Some (Returned v) => Some (Some v)
      | None => None
      end
  end.
Definition start : option state := b ← head (Blocks F); Some (mk_state b 0 ∅ ∅).
Definition run_func (fuel : nat) : option (option (option val)) := s ← start; run fuel s.

(** ** Facts on runs *)

Definition next_step (s s' : state) : Prop := step s = Some (Next s').
Lemma run_star s s' fuel : rtc next_step s s' → ∃ k, run (k + fuel) s = run fuel s'.
Proof.
  induction 1 as [s|s s1 s2 Hs _ [k IH]]; [by exists O|]. exists (S k). simpl. unfold next_step in Hs. by rewrite Hs.
Qed.
Lemma run_add fuel k s : run fuel s ≠ Some None → run (k + fuel) s = run fuel s.
Proof.
  revert k s. induction fuel as [|fuel IH]; intros k s; [done|]. rewrite Nat.add_succ_r. simpl.
  destruct (step s) as [[s'|v]|]; [|done..]. apply IH.
Qed.
(** A run that comes back to a state never ends. *)
Lemma run_cycle s : tc next_step s s → ∀ fuel, run fuel s = Some None.
Proof.
  intros Hc fuel. assert (∀ n s', rtc next_step s s' → rtc next_step s' s → run n s' = Some None) as Hn; [|by apply Hn].
  induction n as [|n IH]; intros s' H1 H2; [done|]. simpl.
  assert (∃ s'', next_step s' s'' ∧ rtc next_step s'' s) as (s'' & Hs & H3).
  { inversion H2; subst; [|by eexists]. inversion Hc; subst; [by eexists|]. eexists. split; [done|]. by apply tc_rtc. }
  pose proof Hs as Hs'. unfold next_step in Hs'. rewrite Hs'. apply IH; [|done]. by eapply rtc_r.
Qed.
End run.

(** ** Facts on integers *)

Lemma wrap_range w z : 0 ≤ w → 0 ≤ wrap w z < 2 ^ w.
Proof. intros Hw. apply Z.mod_pos_bound. lia. Qed.
Lemma wrap_small w z : 0 ≤ z < 2 ^ w → wrap w z = z.
Proof. apply Z.mod_small. Qed.
