(* ===== verification/IrInst.v ===== *)
(** * An implementation of the library of Ir.v

    A function is the list of its blocks, a block is known by its position,
    and an instruction by a number above those in use. *)
From S2P Require Import Prelude Ir.

Record ir_block := mk_ir_block { ib_insts : list (nat * inst); ib_term : option terminator }.
Definition ir_insts (f : list ir_block) (b : nat) : list (nat * inst) :=
  match f !! b with Some k => ib_insts k | None => [] end.
Definition ir_term (f : list ir_block) (b : nat) : option terminator := k ← f !! b; ib_term k.
Definition ir_fresh (f : list ir_block) : nat :=
  S (foldr Nat.max 0 (f ≫= λ k, (ib_insts k).*1)).
Definition ir_new_inst (f : list ir_block) (b : nat) (i : inst) : nat * list ir_block :=
  (ir_fresh f, alter (λ k, mk_ir_block (ib_insts k ++ [(ir_fresh f, i)]) (ib_term k)) b f).
Definition ir_set_term (f : list ir_block) (b : nat) (t : terminator) : list ir_block :=
  alter (λ k, mk_ir_block (ib_insts k) (Some t)) b f.

Lemma foldr_max_ge (l : list nat) x : x ∈ l → x ≤ foldr Nat.max 0 l.
Proof. induction l as [|y l IH]; [by intros ?%not_elem_of_nil|]. intros [->|Hx]%elem_of_cons; simpl; [lia|]. specialize (IH Hx). lia. Qed.
Lemma ir_block_in (f : list ir_block) (b : nat) : b ∈ seq 0 (length f) ↔ is_Some (f !! b).
Proof. rewrite elem_of_seq, lookup_lt_is_Some. lia. Qed.

#[global, program] Instance ir_lists : Llir := {|
  Func := list ir_block;
  NewFunc := [];
  Blocks f := seq 0 (length f);
  Insts := ir_insts;
  Term := ir_term;
  NewBlock f := (length f, f ++ [mk_ir_block [] None]);
  NewInst := ir_new_inst;
  SetTerm := ir_set_term;
|}.
Next Obligation. done. Qed.
Next Obligation.
  intros f b f' [= <- <-]. split; [rewrite elem_of_seq; lia|]. split; [rewrite length_app, seq_app; done|].
  unfold ir_insts, ir_term. rewrite (lookup_app_r f) by done. rewrite Nat.sub_diag. split; [done|]. split; [done|].
  intros b' Hb'. destruct (decide (b' < length f)%nat) as [Hl|Hl]; [by rewrite lookup_app_l|].
  rewrite (lookup_ge_None_2 f b'), (lookup_ge_None_2 (f ++ _) b') by (rewrite ?length_app; simpl; lia). done.
Qed.
Next Obligation.
  intros f b i r f' [= <- <-] [k Hk]%ir_block_in. split; [|split].
  - intros b' [k' Hk']%ir_block_in Hr. unfold ir_insts in Hr. rewrite Hk' in Hr.
    assert (ir_fresh f ∈ f ≫= λ k, (ib_insts k).*1) as Hin%foldr_max_ge; [|unfold ir_fresh in Hin; lia].
    apply list_elem_of_bind. exists k'. split; [done|]. by eapply list_elem_of_lookup_2.
  - by rewrite length_alter.
  - unfold ir_insts, ir_term. rewrite list_lookup_alter_eq, Hk. split; [done|]. split.
    + intros b' Hb'. by rewrite list_lookup_alter_ne by done.
    + intros b'. destruct (decide (b' = b)) as [->|Hne]; [by rewrite list_lookup_alter_eq, Hk|by rewrite list_lookup_alter_ne by done].
Qed.
Next Obligation.
  intros f b t [k Hk]%ir_block_in. unfold ir_set_term. split; [by rewrite length_alter|].
  unfold ir_insts, ir_term. split; [by rewrite list_lookup_alter_eq, Hk|]. split.
  - intros b'. destruct (decide (b' = b)) as [->|Hne]; [by rewrite list_lookup_alter_eq, Hk|by rewrite list_lookup_alter_ne by done].
  - intros b' Hb'. by rewrite list_lookup_alter_ne by done.
Qed.
