(* ===== verification/Codegen.v ===== *)
(** * The code generator: expressions and statements on integers

    The [calc] methods of src/compiler/ast for numbers, truth values, local
    variables, arithmetic, comparisons, definitions, assignments, if, for,
    break, continue, return and functions (ast.go, cond.go, loop.go,
    function.go, alloc.go, scope.go), over the library of Ir.v and with the
    escape analysis of Escape.v.  The state is the function that is built, the
    chain of scopes from the current one to the global one, and the number of
    errors reported.  A Go panic ends a statement: [SLNode.calc] recovers,
    counts it and goes on with the next one. *)
From S2P Require Import Prelude Lexer Ast Escape Ir.
#[local] Open Scope Z_scope.

(** ** Scopes *)

Record Scope := mk_Scope {
  vartable : list (text * value);
  block : option nat;
  continueBlock : option nat;
  breakBlock : option nat;
  heapTable : gset text;
}.

Inductive res (A : Type) := Ok (a : A) | Panic | NotModelled.
Arguments Ok {A} a.
Arguments Panic {A}.
Arguments NotModelled {A}.

Section codegen.
Context `{Llir}.

Record cg := mk_cg { fn : Func; scopes : list Scope; errn : nat }.
Definition CG (A : Type) : Type := cg → res A * cg.
#[export] Instance CG_ret : MRet CG := λ A a s, (Ok a, s).
#[export] Instance CG_bind : MBind CG := λ A B k m s,
  match m s with
  | (Ok a, s') => k a s'
  | (Panic, s') => (Panic, s')
  | (NotModelled, s') => (NotModelled, s')
  end.
Definition panic {A} : CG A := λ s, (Panic, s).
Definition not_modelled {A} : CG A := λ s, (NotModelled, s).

Definition set_fn (f : Func) (s : cg) : cg := mk_cg f (scopes s) (errn s).
Definition set_scopes (l : list Scope) (s : cg) : cg := mk_cg (fn s) l (errn s).
(** A field of the current scope. *)
Definition scope_get {A} (f : Scope → A) : CG A := λ s,
  match scopes s with sc :: _ => (Ok (f sc), s) | [] => (Panic, s) end.
Definition scope_mod (f : Scope → Scope) : CG unit := λ s,
  match scopes s with sc :: l => (Ok tt, set_scopes (f sc :: l) s) | [] => (Panic, s) end.
Definition with_block (b : nat) (sc : Scope) : Scope := mk_Scope (vartable sc) (Some b) (continueBlock sc) (breakBlock sc) (heapTable sc).
Definition with_loop (c b : nat) (sc : Scope) : Scope := mk_Scope (vartable sc) (block sc) (Some c) (Some b) (heapTable sc).
Definition set_block (b : nat) : CG unit := scope_mod (with_block b).
Definition set_loop (c b : nat) : CG unit := scope_mod (with_loop c b).
Definition set_heap_table (h : gset text) : CG unit := scope_mod (λ sc, mk_Scope (vartable sc) (block sc) (continueBlock sc) (breakBlock sc) h).

(** [m] in a child of the current scope that starts at block [b]. *)
Definition addChildScope (b : nat) (sc : Scope) : Scope := mk_Scope [] (Some b) (continueBlock sc) (breakBlock sc) ∅.
Definition in_child {A} (b : nat) (m : CG A) : CG A := λ s,
  match scopes s with
  | sc :: _ =>
      match m (set_scopes (addChildScope b sc :: scopes s) s) with
      | (Ok a, s') => (Ok a, set_scopes (tail (scopes s')) s')
      | r => r
      end
  | [] => (Panic, s)
  end.
(** [defer func() { if recover() != nil { errn++ } }()] *)
Definition recovering (m : CG unit) : CG unit := λ s,
  match m s with
  | (Panic, s') => (Ok tt, mk_cg (fn s') (drop (length (scopes s') - length (scopes s)) (scopes s')) (S (errn s')))
  | r => r
  end.

(** *** Names: getFullName *)

Context (Pkgname : text).

Definition externMap : list text :=
  runes_of <$> ["printf"; "memset"; "GC_malloc"; "GC_debug_malloc"; "GC_malloc_uncollectable"; "memcpy"; "Sleep";
                "llvm.init.trampoline"; "llvm.adjust.trampoline"; "malloc"]%string.
(** [strings.Replace]: a backslash and 22 becomes a quotation mark. *)
Fixpoint unquote (id : text) : text :=
  match id with
  | 92 :: 50 :: 50 :: id => 34 :: unquote id
  | c :: id => c :: unquote id
  | [] => []
  end.
Definition getFullName (id : text) : CG text :=
  match id with
  | [] => panic
  | c :: _ =>
      if c =? ch "{" then mret id
      else
        let id := unquote id in
        if decide (id ∈ externMap) then mret id
        else
          let p := Pkgname ++ [ch "."] in
          if decide (take (length p) id = p) then mret id else mret (p ++ id)
  end.

(** A variable that is in the scope already keeps its value, the error is
    dropped. *)
Definition addVar (id : text) (v : value) : CG unit :=
  id ← getFullName id;
  t ← scope_get vartable;
  match map_get id t with
  | Some _ => mret tt
  | None => scope_mod (λ sc, mk_Scope ((id, v) :: vartable sc) (block sc) (continueBlock sc) (breakBlock sc) (heapTable sc))
  end.
Fixpoint search (id : text) (l : list Scope) : option value :=
  match l with
  | [] => None
  | sc :: l => match map_get id (vartable sc) with Some v => Some v | None => search id l end
  end.
(** Generic functions are not searched; without one the error makes the caller
    panic. *)
Definition searchVar (id : text) : CG value :=
  mbind (M:=CG) (λ id s, match search id (scopes s) with Some v => (Ok v, s) | None => (Panic, s) end) (getFullName id).

(** ** Building code *)

(** A method of a nil block panics. *)
Definition cur_block : CG nat := b ← scope_get block; match b with Some b => mret b | None => panic end.
Definition emit_at (b : nat) (t : type) (i : inst) : CG value := λ s,
  let (r, f) := NewInst (fn s) b i in (Ok (Inst r t), set_fn f s).
(** [s.block.New...] *)
Definition emit (t : type) (i : inst) : CG value := b ← cur_block; emit_at b t i.
Definition new_block : CG nat := λ s, let (b, f) := NewBlock (fn s) in (Ok b, set_fn f s).
Definition set_term (b : nat) (t : terminator) : CG unit := λ s, (Ok tt, set_fn (SetTerm (fn s) b t) s).
Definition get_term (b : nat) : CG (option terminator) := λ s, (Ok (Term (fn s) b), s).

Definition zero : value := ConstInt 32 0.

Definition loadIfVar (l : value) : CG value :=
  match Type_ l with PointerType t => emit t (Load t l) | _ => mret l end.

(** Integers that are not truth values are extended to the widest. *)
Definition is_int (v : value) : bool := match Type_ v with IntType w => negb (w =? 1) | _ => false end.
Definition BitSize_of (v : value) : Z := match Type_ v with IntType w => w | _ => 0 end.
Fixpoint extend_all (maxI : Z) (ts : list value) : CG (list value) :=
  match ts with
  | [] => mret []
  | v :: ts =>
      v' ← (if BitSize_of v =? maxI then mret v else emit (IntType maxI) (ZExt v maxI));
      re ← extend_all maxI ts;
      mret (v' :: re)
  end.
(** There are no floats here: the first result of the function is false. *)
Definition hasFloatType (ts : list value) : CG (list value) :=
  if forallb is_int ts then extend_all (foldr Z.max 8 (BitSize_of <$> ts)) ts else mret ts.
Definition hasFloatType2 (l r : value) : CG (value * value) :=
  re ← hasFloatType [l; r];
  match re with [l; r] => mret (l, r) | _ => panic end.

(** Callers panic with the error. *)
Definition implicitCast (v : value) (target : type) : CG value :=
  if decide (Type_ v = target) then mret v
  else
    match Type_ v, target with
    | IntType w, IntType w' => if w' <? w then panic else emit target (ZExt v w')
    | IntType _, _ => panic
    | _, _ => not_modelled
    end.
Definition store (r lptr : value) : CG value :=
  match Type_ lptr with
  | PointerType e =>
      if decide (Type_ r = e) then b ← cur_block; emit_at b VoidType (Store r lptr);; mret lptr else panic
  | _ => panic
  end.

Definition first_block : CG nat := λ s,
  match Blocks (fn s) with b :: _ => (Ok b, s) | [] => (Panic, s) end.
Definition gcmalloc (t : type) : CG value := cur_block;; b ← first_block; emit_at b (PointerType t) (CallHeapalloc t).
Definition stackAlloc (t : type) : CG value := cur_block;; b ← first_block; emit_at b (PointerType t) (Alloca t).
Definition autoAlloc (id : text) (t : type) : CG value :=
  h ← scope_get heapTable;
  if decide (id ∈ h) then gcmalloc t else stackAlloc t.

(** ** Types *)

Definition typedic (r : Z) : option type :=
  if r =? TYPE_RES_INT then Some (IntType 64)
  else if r =? TYPE_RES_BOOL then Some (IntType 1)
  else if r =? TYPE_RES_INT32 then Some (IntType 32)
  else if r =? TYPE_RES_INT64 then Some (IntType 64)
  else if r =? TYPE_RES_BYTE then Some (IntType 8)
  else if r =? TYPE_RES_VOID then Some VoidType
  else None.
Definition BasicTypeNode_calc (t : TypeNode) : CG type :=
  match t with
  | BasicTypeNode r [] n _ _ =>
      match typedic r with Some t => mret (Nat.iter n PointerType t) | None => not_modelled end
  | _ => not_modelled
  end.

(** ** Expressions *)

Definition arith_op (o : Z) : option binop :=
  if o =? TYPE_PLUS then Some Add
  else if o =? TYPE_DIV then Some SDiv
  else if o =? TYPE_MUL then Some Mul
  else if o =? TYPE_SUB then Some Sub
  else if o =? TYPE_PS then Some SRem
  else if o =? TYPE_SHL then Some Shl
  else if o =? TYPE_SHR then Some AShr
  else if o =? TYPE_BIT_OR then Some Or
  else if o =? TYPE_BIT_XOR then Some Xor
  else if o =? TYPE_ESP then Some And
  else None.
Definition comparedic (o : Z) : option ipred :=
  if o =? TYPE_EQ then Some IPredEQ
  else if o =? TYPE_NEQ then Some IPredNE
  else if o =? TYPE_LG then Some IPredSGT
  else if o =? TYPE_LEQ then Some IPredSGE
  else if o =? TYPE_SM then Some IPredSLT
  else if o =? TYPE_SEQ then Some IPredSLE
  else None.

Definition BinNode_calc (op : Z) (calc_left calc_right : CG value) : CG value :=
  rawR ← calc_right;
  r ← loadIfVar rawR;
  rawL ← calc_left;
  l ← loadIfVar rawL;
  '(l, r) ← hasFloatType2 l r;
  if op =? TYPE_ASSIGN then
    match Type_ rawL with
    | PointerType t => r1 ← implicitCast r t; store r1 rawL;; mret zero
    | _ => panic
    end
  else
    match arith_op op with
    | Some o => emit (Type_ l) (Bin o l r)
    | None => panic
    end.
Definition UnaryNode_calc (op : Z) (calc_child : CG value) : CG value :=
  c ← calc_child;
  c ← loadIfVar c;
  if op =? TYPE_PLUS then mret c
  else if op =? TYPE_SUB then hasFloatType [c];; emit (Type_ zero) (Bin Sub zero c)
  else panic.
Definition CompareNode_calc (op : Z) (calc_left calc_right : CG value) : CG value :=
  l ← calc_left; l ← loadIfVar l;
  r ← calc_right; r ← loadIfVar r;
  '(l, r) ← hasFloatType2 l r;
  match Type_ l, Type_ r, comparedic op with
  | IntType _, IntType _, Some p => emit (IntType 1) (ICmp p l r)
  | _, _, _ => not_modelled
  end.
Definition BoolExpNode_calc (op : Z) (calc_left calc_right : CG value) : CG value :=
  l ← calc_left; l ← loadIfVar l;
  r ← calc_right; r ← loadIfVar r;
  emit (Type_ l) (Bin (if op =? TYPE_AND then And else Or) l r).
Definition NotNode_calc (calc_bool : CG value) : CG value :=
  v ← calc_bool; v ← loadIfVar v;
  emit (IntType 1) (ICmp IPredEQ v (ConstInt 1 0)).
(** [for i := 0; i < n.Level; i++ { v = s.block.NewLoad(getElmType(v.Type()), v) }] *)
Fixpoint TakeValNode_calc (level : nat) (calc_node : CG value) : CG value :=
  match level with
  | O => calc_node
  | S level =>
      v ← TakeValNode_calc level calc_node;
      match Type_ v with PointerType t => emit t (Load t v) | _ => panic end
  end.
Definition VarBlockNode_calc (b : VarBlockNode) : CG value :=
  match b with
  | mk_VarBlockNode t [] None _ => searchVar t
  | _ => not_modelled
  end.

Fixpoint ExpNode_calc (e : ExpNode) : CG value :=
  match e with
  | NumNode (IntVal w z) => mret (ConstInt w z)
  | BoolConstNode b => mret (ConstInt 1 (Z.b2z b))
  | VarExp b => VarBlockNode_calc b
  | UnaryNode op c => UnaryNode_calc op (ExpNode_calc c)
  | BinNode op l r => BinNode_calc op (ExpNode_calc l) (ExpNode_calc r)
  | CompareNode op l r => CompareNode_calc op (ExpNode_calc l) (ExpNode_calc r)
  | BoolExpNode op l r => BoolExpNode_calc op (ExpNode_calc l) (ExpNode_calc r)
  | NotNode b => NotNode_calc (ExpNode_calc b)
  | TakeValNode level e => TakeValNode_calc level (ExpNode_calc e)
  | _ => not_modelled
  end.

(** ** Statements

    The function the statements belong to: its name in the module, its
    parameters and its result; and the order in which Go runs over the escape
    points. *)
Context (ident : text) (params : list text) (RetType : type) (order : gset text → list text).

Definition DefineNode_calc (id : text) (t : TypeNode) : CG unit :=
  tp ← BasicTypeNode_calc t;
  v ← autoAlloc id tp;
  addVar id v.

Definition DefAndAssignNode_calc (e : ExpNode) (id : text) : CG unit :=
  rawval ← ExpNode_calc e;
  val ← loadIfVar rawval;
  let tp := match Type_ val with IntType w => if w =? 1 then IntType 1 else IntType 64 | t => t end in
  v ← autoAlloc id tp;
  val1 ← implicitCast val tp;
  store val1 v;;
  addVar id v.

Definition RetNode_calc (e : option ExpNode) : CG unit :=
  match e with
  | None => b ← cur_block; set_term b (Ret None)
  | Some e =>
      ret ← ExpNode_calc e;
      l ← loadIfVar ret;
      v ← implicitCast l RetType;
      b ← cur_block;
      set_term b (Ret (Some v))
  end.

Definition cond_br (e : ExpNode) (t f : nat) : CG unit :=
  v ← ExpNode_calc e; v ← loadIfVar v;
  b ← cur_block; set_term b (CondBr v t f).
(** [if b.Term == nil { b.NewBr(end) }] *)
Definition close_block (b end_ : nat) : CG unit :=
  t ← get_term b; match t with None => set_term b (Br end_) | Some _ => mret tt end.
(** [if s.parent.block != nil { end.NewBr(s.parent.block) }] *)
Definition br_parent (end_ : nat) : CG unit := λ s,
  match scopes s with
  | _ :: p :: _ => match block p with Some b => set_term end_ (Br b) s | None => (Ok tt, s) end
  | _ => (Panic, s)
  end.

Definition IfNode_calc (cond : ExpNode) (statements : CG unit) : CG unit :=
  tt_ ← new_block;
  in_child tt_ statements;;
  end_ ← new_block;
  cond_br cond tt_ end_;;
  set_block end_;;
  close_block tt_ end_;;
  br_parent end_.

Definition IfElseNode_calc (cond : ExpNode) (statements elst : CG unit) : CG unit :=
  tt_ ← new_block;
  tf ← new_block;
  end_ ← new_block;
  cond_br cond tt_ tf;;
  set_block end_;;
  in_child tt_ statements;;
  in_child tf elst;;
  close_block tt_ end_;;
  close_block tf end_;;
  br_parent end_.

(** The loop variable stays in the scope: the code that is to move it looks it
    up under its short name, under which nothing is stored. *)
Definition ForNode_calc (cond : option ExpNode) (define_assign assign : option (CG unit)) (statements : CG unit) : CG unit :=
  c ← new_block;
  body ← new_block;
  end_ ← new_block;
  set_loop c end_;;
  match define_assign with Some d => d | None => mret tt end;;
  match cond with
  | Some e => cond_br e body end_
  | None => b ← cur_block; set_term b (Br body)
  end;;
  set_block end_;;
  child_block ← in_child body (statements;; cur_block);
  in_child c (
    match assign with Some a => a | None => mret tt end;;
    match cond with
    | Some e => v ← ExpNode_calc e; v ← loadIfVar v; set_term c (CondBr v body end_)
    | None => set_term c (Br body)
    end);;
  set_term child_block (Br c).

Definition BreakNode_calc : CG unit :=
  t ← scope_get breakBlock;
  match t with None => panic | Some t => b ← cur_block; set_term b (Br t) end.
Definition ContinueNode_calc : CG unit :=
  t ← scope_get continueBlock;
  match t with None => panic | Some t => b ← cur_block; set_term b (Br t) end.
Definition ErrSTNode_calc : CG unit := λ s, (Ok tt, mk_cg (fn s) (scopes s) (S (errn s))).

(** [for _, v := range n.Children { recovering(v.calc(m, f, s)) }] *)
Definition calc_children (calc : Node → CG unit) : list Node → CG unit :=
  fix go ch := match ch with [] => mret tt | n :: ch => recovering (calc n);; go ch end.
Definition SLNode_calc (children : list Node) (calcs : CG unit) : CG unit :=
  match analyse order ident params children with
  | None => panic
  | Some s => set_heap_table (heapAllocTable s);; calcs
  end.

Fixpoint Node_calc (n : Node) : CG unit :=
  match n with
  | ExpSt e => ExpNode_calc e;; mret tt
  | SLNode ch => SLNode_calc ch (calc_children Node_calc ch)
  | ErrSTNode _ _ => ErrSTNode_calc
  | EmptyNode => mret tt
  | DefineNode id t => DefineNode_calc id t
  | RetNode e => RetNode_calc e
  | DefAndAssignNode e id => DefAndAssignNode_calc e id
  | IfNode b st => IfNode_calc b (Node_calc st)
  | IfElseNode b st el => IfElseNode_calc b (Node_calc st) (Node_calc el)
  | ForNode b d a st => ForNode_calc b (Node_calc <$> d) (Node_calc <$> a) (Node_calc st)
  | BreakNode => BreakNode_calc
  | ContinueNode => ContinueNode_calc
  | YieldNode _ => not_modelled
  end.
End codegen.

(** ** Functions *)

Record FuncNode := mk_FuncNode {
  Params : list (text * TypeNode);
  ID : text;
  RetType_ : TypeNode;
  Statements : Node;
}.

Section func.
Context `{Llir} (Pkgname : text) (order : gset text → list text).

Fixpoint types_calc (ps : list TypeNode) : CG (list type) :=
  match ps with [] => mret [] | p :: ps => t ← BasicTypeNode_calc p; ts ← types_calc ps; mret (t :: ts) end.
(** Each parameter gets a variable on the heap. *)
Fixpoint bind_params (i : nat) (ps : list (text * type)) : CG unit :=
  match ps with
  | [] => mret tt
  | (id, t) :: ps =>
      ptr ← gcmalloc t;
      store (Param i t) ptr;;
      addVar Pkgname id ptr;;
      bind_params (S i) ps
  end.

(** The function that is built for a declaration with a body that is neither
    generic nor async, with the number of errors. *)
Definition FuncNode_calc (n : FuncNode) : CG Func :=
  ts ← types_calc (Params n).*2;
  tp ← BasicTypeNode_calc (RetType_ n);
  ident ← getFullName Pkgname (ID n);
  (λ s,
    let (b, f) := NewBlock NewFunc in
    match (in_child b
      (bind_params 0 (zip (Params n).*1 ts);;
       Node_calc Pkgname ident (Params n).*1 tp order (Statements n))) (set_fn f s) with
    | (Ok _, s') => (Ok (fn s'), s')
    | (Panic, s') => (Panic, s')
    | (NotModelled, s') => (NotModelled, s')
    end) : CG Func.
End func.
