(* ===== verification/CodegenSem.v ===== *)
(** * What generated code is to do

    The meaning of the statements whose code Codegen.v generates, on integers
    of a width and truth values (width 1), and the shapes of statements that
    the generator handles.  [exec] is the reference the generated code is
    compared with: blocks have their own variables, a loop variable lives as
    long as its loop, break and continue concern the innermost loop, return
    ends the function. *)
From S2P Require Import Prelude Lexer Ast Escape Ir Codegen.
#[local] Open Scope Z_scope.

(** ** Expressions

    The result of an expression: its width and its value, a number from 0 to
    [2^w - 1].  Operands of different widths are extended by zeros. *)

(** A variable: its width, and its value once it has one. *)
Abbreviation locals := (gmap text (Z * option Z)).
Abbreviation env := (list locals).
Fixpoint env_lookup (x : text) (ρ : env) : option (Z * option Z) :=
  match ρ with [] => None | f :: ρ => match f !! x with Some v => Some v | None => env_lookup x ρ end end.
Fixpoint env_update (x : text) (v : Z * option Z) (ρ : env) : env :=
  match ρ with
  | [] => []
  | f :: ρ => match f !! x with Some _ => <[x:=v]> f :: ρ | None => f :: env_update x v ρ end
  end.

(** The width two operands are extended to. *)
Definition join (w w' : Z) : option Z :=
  if (w =? 1) || (w' =? 1) then if w =? w' then Some w else None else Some (8 `max` (w `max` w')).
(** The number a literal was written with. *)
Fixpoint literal (e : ExpNode) : option Z :=
  match e with
  | NumNode (IntVal _ z) => Some z
  | UnaryNode op c => if op =? TYPE_PLUS then literal c else None
  | _ => None
  end.

Section eval.
Context (ρ : env).
Definition eval_var (b : VarBlockNode) : option (Z * Z) :=
  match b with
  | mk_VarBlockNode x [] None _ => '(w, v) ← env_lookup x ρ; z ← v; Some (w, z)
  | _ => None
  end.
Fixpoint eval (e : ExpNode) : option (Z * Z) :=
  match e with
  | NumNode (IntVal w z) => Some (w, wrap w z)
  | BoolConstNode b => Some (1, Z.b2z b)
  | VarExp b => eval_var b
  | UnaryNode op c =>
      if op =? TYPE_PLUS then eval c
      else if op =? TYPE_SUB then
        (** the minus sign makes 32 bits of a literal *)
        match literal c with
        | Some z => Some (32, wrap 32 (- wrap 32 z))
        | None => '(w, z) ← eval c; if w =? 32 then Some (32, wrap 32 (- z)) else None
        end
      else None
  | BinNode op l r =>
      if op =? TYPE_ASSIGN then None
      else
        o ← arith_op op;
        '(wl, a) ← eval l; '(wr, b) ← eval r;
        w ← join wl wr; z ← bin_int o w a b; Some (w, z)
  | CompareNode op l r =>
      p ← comparedic op;
      '(wl, a) ← eval l; '(wr, b) ← eval r;
      w ← join wl wr; Some (1, Z.b2z (icmp_int p w a b))
  | BoolExpNode op l r =>
      '(wl, a) ← eval l; '(wr, b) ← eval r;
      if (wl =? 1) && (wr =? 1) then Some (1, if op =? TYPE_AND then Z.land a b else Z.lor a b) else None
  | NotNode e => '(w, a) ← eval e; if w =? 1 then Some (1, Z.b2z (a =? 0)) else None
  | TakeValNode O e => eval e
  | _ => None
  end.
End eval.

(** ** Statements *)

Inductive outcome := ONormal | OBreak | OContinue | OReturn (v : option (Z * Z)).

Definition width_of (t : TypeNode) : option Z :=
  match t with
  | BasicTypeNode r [] 0 _ _ => match typedic r with Some (IntType w) => Some w | _ => None end
  | _ => None
  end.
Definition set_top (x : text) (v : Z * option Z) (ρ : env) : option env :=
  match ρ with f :: ρ => Some (<[x:=v]> f :: ρ) | [] => None end.
Definition del_top (x : text) (ρ : env) : env :=
  match ρ with f :: ρ => delete x f :: ρ | [] => [] end.
Definition eval_bool (ρ : env) (e : ExpNode) : option bool :=
  '(w, z) ← eval ρ e; if w =? 1 then Some (z =? 1) else None.
(** The value of a result of another width. *)
Definition convert (t : type) (v : Z * Z) : option (Z * Z) :=
  match t with IntType w => if v.1 <=? w then Some (w, v.2) else None | _ => None end.

Section exec.
Context (RetType : type).

(** The variable on the left of an assignment: the parser puts it into a
    [TakeValNode] without a level. *)
Fixpoint target (e : ExpNode) : option text :=
  match e with
  | VarExp (mk_VarBlockNode x [] None _) => Some x
  | TakeValNode O e => target e
  | _ => None
  end.
Definition exec_assign (ρ : env) (e : ExpNode) : option env :=
  match e with
  | BinNode op l r =>
      if op =? TYPE_ASSIGN then
        x ← target l;
        v ← eval ρ r;
        '(w, _) ← env_lookup x ρ;
        v ← convert (IntType w) v;
        Some (env_update x (w, Some v.2) ρ)
      else None
  | _ => None
  end.

Section with_exec.
Context (exec : env → Node → option (outcome * env)).
Fixpoint exec_list (ρ : env) (ch : list Node) : option (outcome * env) :=
  match ch with
  | [] => Some (ONormal, ρ)
  | n :: ch =>
      '(o, ρ) ← exec ρ n;
      match o with ONormal => exec_list ρ ch | _ => Some (o, ρ) end
  end.
(** A block has its own variables. *)
Definition exec_block (ρ : env) (n : Node) : option (outcome * env) :=
  '(o, ρ) ← exec (∅ :: ρ) n; Some (o, tail ρ).
Definition exec_opt_block (ρ : env) (n : option Node) : option env :=
  match n with
  | None => Some ρ
  | Some n => '(o, ρ) ← exec_block ρ n; match o with ONormal => Some ρ | _ => None end
  end.
Fixpoint exec_loop (fuel : nat) (cond : option ExpNode) (assign : option Node) (body : Node) (ρ : env) : option (outcome * env) :=
  match fuel with
  | O => None
  | S fuel =>
      c ← match cond with None => Some true | Some e => eval_bool ρ e end;
      if c : bool then
        '(o, ρ) ← exec_block ρ body;
        match o with
        | ONormal | OContinue => ρ ← exec_opt_block ρ assign; exec_loop fuel cond assign body ρ
        | OBreak => Some (ONormal, ρ)
        | OReturn v => Some (OReturn v, ρ)
        end
      else Some (ONormal, ρ)
  end.
End with_exec.

(** The variable a loop defines. *)
Definition loop_var (d : option Node) : option text :=
  match d with Some (DefAndAssignNode _ x) => Some x | _ => None end.

(** [None]: out of fuel, or the program goes wrong. *)
Fixpoint exec (fuel : nat) (ρ : env) (n : Node) : option (outcome * env) :=
  match fuel with
  | O => None
  | S fuel =>
      match n with
      | ExpSt e => ρ ← exec_assign ρ e; Some (ONormal, ρ)
      | SLNode ch => exec_list (exec fuel) ρ ch
      | EmptyNode => Some (ONormal, ρ)
      | DefineNode x t => w ← width_of t; ρ ← set_top x (w, None) ρ; Some (ONormal, ρ)
      | DefAndAssignNode e x =>
          '(w, z) ← eval ρ e;
          ρ ← set_top x (if w =? 1 then 1 else 64, Some z) ρ;
          if w <=? 64 then Some (ONormal, ρ) else None
      | RetNode None => Some (OReturn None, ρ)
      | RetNode (Some e) => v ← eval ρ e; v ← convert RetType v; Some (OReturn (Some v), ρ)
      | IfNode b st => c ← eval_bool ρ b; if c : bool then exec_block (exec fuel) ρ st else Some (ONormal, ρ)
      | IfElseNode b st el => c ← eval_bool ρ b; exec_block (exec fuel) ρ (if c : bool then st else el)
      | ForNode b d a st =>
          '(o, ρ) ← match d with Some d => exec fuel ρ d | None => Some (ONormal, ρ) end;
          match o with
          | ONormal =>
              '(o, ρ) ← exec_loop (exec fuel) fuel b a st ρ;
              Some (o, match loop_var d with Some x => del_top x ρ | None => ρ end)
          | _ => None
          end
      | BreakNode => Some (OBreak, ρ)
      | ContinueNode => Some (OContinue, ρ)
      | _ => None
      end
  end.
End exec.

(** A call of a function, which has no variables around it: the value it
    returns. *)
Definition exec_func (fuel : nat) (f : FuncNode) (args : list Z) : option (option (Z * Z)) :=
  ws ← mapM (λ p, width_of p.2) (Params f);
  r ← match RetType_ f with
      | BasicTypeNode r [] 0 _ _ => typedic r
      | _ => None
      end;
  let fr : locals := list_to_map (zip (Params f).*1 (zip ws (Some <$> args))) in
  if decide (length args = length ws) then
    '(o, _) ← exec r fuel [fr; ∅] (Statements f);
    match o with OReturn v => Some v | _ => None end
  else None.

(** ** The shapes the generator handles

    A list of statements is straight when it has no statement that branches;
    it may end with a return, a break or a continue, and empty statements. *)
Definition is_empty (n : Node) : bool := match n with EmptyNode => true | _ => false end.
Definition branches (n : Node) : bool :=
  match n with IfNode _ _ | IfElseNode _ _ _ | ForNode _ _ _ _ => true | _ => false end.
Definition is_for (n : Node) : bool := match n with ForNode _ _ _ _ => true | _ => false end.
Definition leaves (n : Node) : bool :=
  match n with RetNode _ | BreakNode | ContinueNode => true | _ => false end.
Fixpoint ends (p : Node → bool) (ch : list Node) : bool :=
  match ch with
  | [] => false
  | n :: ch => if forallb is_empty ch then p n else ends p ch
  end.
(** The last statement that branches. *)
Definition last_branch (ch : list Node) : option Node := last (filter (λ n, branches n = true) ch).

Definition children_of (n : Node) : list Node := match n with SLNode ch => ch | n => [n] end.
(** The body of an if without else: nothing joins the end of an inner branch. *)
Definition if_shape (n : Node) : bool :=
  ends leaves (children_of n) || forallb (λ n, negb (branches n)) (children_of n).
(** The bodies of an if with else: nothing joins the end of an inner loop. *)
Definition ifelse_shape (n : Node) : bool :=
  ends leaves (children_of n) ||
  match last_branch (children_of n) with Some n => negb (is_for n) | None => true end.
(** The body of a loop: the jump back replaces a break or a return at its end. *)
Definition for_shape (n : Node) : bool := negb (ends leaves (children_of n)).

(** Names of variables: no dot, brace or backslash. *)
Definition plain (x : text) : bool :=
  match x with
  | [] => false
  | _ => forallb (λ c, negb ((c =? ch ".") || (c =? ch "{") || (c =? 92))) x
  end.

(** The names of each scope so far, innermost first; a loop leaves the name of
    its variable.  A name is defined once in a scope, and a loop variable is
    new in all enclosing scopes.  Behind a loop, break and continue have no
    place: they would leave that loop again ([lp]). *)
Abbreviation names := (list (list text)).
Definition define (x : text) (t : names) : option names :=
  match t with
  | cur :: t => if decide (plain x = true ∧ x ∉ cur) then Some ((x :: cur) :: t) else None
  | [] => None
  end.
Definition is_list (n : Node) : bool := match n with SLNode _ => true | _ => false end.
Definition children_ok (node_ok : bool → names → Node → option names) : bool → names → list Node → option names :=
  fix go lp t ch {struct ch} :=
    match ch with
    | [] => Some t
    | n :: ch =>
        if is_list n then None
        else
          t ← node_ok lp t n;
          if leaves n then if forallb is_empty ch then Some t else None
          else go (lp && negb (is_for n)) t ch
    end.
Definition block_ok (node_ok : bool → names → Node → option names) (lp : bool) (t : names) (n : Node) : bool :=
  match
    match n with
    | SLNode ch => children_ok node_ok lp ([] :: t) ch
    | _ => node_ok lp ([] :: t) n
    end
  with Some _ => true | None => false end.
Definition is_assign (n : option Node) : bool :=
  match n with None | Some (ExpSt _) => true | _ => false end.
Fixpoint node_ok (lp : bool) (t : names) (n : Node) : option names :=
  match n with
  | ExpSt _ | EmptyNode | RetNode _ => Some t
  | BreakNode | ContinueNode => if lp then Some t else None
  | DefineNode x _ | DefAndAssignNode _ x => define x t
  | IfNode _ st => if if_shape st && block_ok node_ok lp t st then Some t else None
  | IfElseNode _ st el =>
      if ifelse_shape st && block_ok node_ok lp t st && ifelse_shape el && block_ok node_ok lp t el then Some t else None
  | ForNode _ d a st =>
      t ← match d with
          | Some (DefAndAssignNode _ x) => if decide (x ∈ concat t) then None else define x t
          | d => if is_assign d then Some t else None
          end;
      if for_shape st && block_ok node_ok true t st && is_assign a then Some t else None
  | _ => None
  end.
(** Functions: the body is a list that ends with a return (and line ends). *)
Definition func_ok (f : FuncNode) : bool :=
  match Statements f with
  | SLNode ch =>
      ends (λ n, match n with RetNode _ => true | _ => false end) ch &&
      bool_decide (NoDup (Params f).*1) && forallb plain (Params f).*1 &&
      match children_ok node_ok false [reverse (Params f).*1; []] ch with Some _ => true | None => false end
  | _ => false
  end.
