(* ===== verification/CodegenDemo.v ===== *)
(** * Programs for the code generator

    Small functions, read by the parser of ParserExp.v, on which the generator
    of Codegen.v is evaluated with the implementation IrInst.v of the library. *)
From S2P Require Import Prelude Lexer Ast ParserTypes ParserExp Escape Ir IrInst Codegen CodegenSem.
#[local] Open Scope Z_scope.

(** The body of a function, as the parser reads it. *)
Definition demo_body (src : string) : Node :=
  match parse_statementBlock (mk_parser [] []) id (SetInput (runes_of src)) with Lexer.Ret (inl n) _ => n | _ => EmptyNode end.

Definition demo_pkg : text := runes_of "main".
Definition demo_int : TypeNode := BasicTypeNode TYPE_RES_INT [] 0 [] [].
(** A function of integers with the result [int]. *)
Definition demo_func (ps : list string) (src : string) : FuncNode :=
  mk_FuncNode ((λ x, (runes_of x, demo_int)) <$> ps) (runes_of "f") demo_int (demo_body src).
Definition demo_global : Scope := mk_Scope [] None None None ∅.
Definition demo_start : cg := mk_cg NewFunc [demo_global] 0.
Definition demo_gen (f : FuncNode) : res Func * cg := FuncNode_calc demo_pkg elements f demo_start.
(** The code that is generated without an error. *)
Definition demo_code (f : FuncNode) : option Func :=
  match demo_gen f with (Ok F, s) => if decide (errn s = 0%nat) then Some F else None | _ => None end.

(** The sum of the numbers below [n], without 3. *)
Definition demo_sum : FuncNode := demo_func ["n"%string] "{
  s := 0
  for i := 0; i < n; i = i + 1 {
    if i == 3 {
      continue
    }
    s = s + i
  }
  return s
}".
Definition demo_return (ps : list string) (e : ExpNode) : FuncNode :=
  mk_FuncNode ((λ x, (runes_of x, demo_int)) <$> ps) (runes_of "f") demo_int (SLNode [RetNode (Some e)]).
(** (n + 2) * n *)
Definition demo_poly : ExpNode :=
  BinNode TYPE_MUL (BinNode TYPE_PLUS (VarExp (mk_VarBlockNode (runes_of "n") [] None 0)) (NumNode (IntVal 8 2))) (VarExp (mk_VarBlockNode (runes_of "n") [] None 0)).

(** 100 * 3 *)
Definition demo_product : ExpNode := BinNode TYPE_MUL (NumNode (IntVal 8 100)) (NumNode (IntVal 8 3)).

(** The state after some steps. *)
Fixpoint demo_steps `{Llir} (F : Func) (args : list val) (k : nat) (s : state) : option state :=
  match k with
  | O => Some s
  | S k => match step F args s with Some (Next s) => demo_steps F args k s | _ => None end
  end.
Lemma demo_steps_rtc `{Llir} F args k s s' : demo_steps F args k s = Some s' → rtc (next_step F args) s s'.
Proof.
  revert s. induction k as [|k IH]; simpl; intros s; [by intros [= ->]|].
  destruct (step F args s) as [[s1|]|] eqn:Hs; [|done..]. intros H1%IH. by eapply rtc_l.
Qed.
Lemma demo_steps_tc `{Llir} F args k s s' : demo_steps F args (S k) s = Some s' → tc (next_step F args) s s'.
Proof.
  simpl. destruct (step F args s) as [[s1|]|] eqn:Hs; [|done..]. intros H1%demo_steps_rtc. by eapply tc_rtc_r; [eapply (tc_once _ s s1 Hs)|].
Qed.
(** A run that comes back never ends. *)
Lemma demo_loops `{Llir} F args s0 k s c : start F = Some s0 → demo_steps F args k s0 = Some s → demo_steps F args (S c) s = Some s →
  ∀ fuel, run_func F args fuel = Some None.
Proof.
  intros H0 Hk%demo_steps_rtc Hc%demo_steps_tc fuel. unfold run_func. rewrite H0. simpl.
  destruct (run_star F args s0 s fuel Hk) as [j Hj]. rewrite (run_cycle F args s Hc fuel) in Hj.
  destruct (run F args fuel s0) as [[v|]|] eqn:Hr; [|done|]; pose proof (run_add F args fuel j s0) as Ha; rewrite Hr, Hj in Ha; by discriminate Ha.
Qed.

(** ** A function of the runtime

    src/runtime/strings/utf8.calc has one function, [IsUTF8Head].  Its body is
    read by the parser, its code generated and run: for every byte it tells
    whether the byte starts a code point (its two highest bits are not 10). *)

(** The function without its comments. *)
Definition IsUTF8Head : FuncNode :=
  mk_FuncNode [(runes_of "b", BasicTypeNode TYPE_RES_BYTE [] 0 [] [])] (runes_of "IsUTF8Head") (BasicTypeNode TYPE_RES_BOOL [] 0 [] [])
    (demo_body "{
    return (b & 0b11000000) != 0b10000000
}").

#[local] Instance val_eq_dec : EqDecision val.
Proof. solve_decision. Defined.
(** The code for each byte. *)
Definition head_table (F : Func) : bool :=
  forallb (λ b, bool_decide (run_func F [VInt 8 b] 10 = Some (Some (Some (VInt 1 (Z.b2z (negb (Z.testbit b 7 && negb (Z.testbit b 6))))))))) (seqZ 0 256).

(** C36. The code generated for [IsUTF8Head] answers for every byte whether it
    starts a code point of UTF-8. *)
Theorem IsUTF8Head_correct : func_ok IsUTF8Head = true ∧ ∃ F, demo_code IsUTF8Head = Some F ∧
  ∀ b, 0 ≤ b < 256 → run_func F [VInt 8 b] 10 = Some (Some (Some (VInt 1 (Z.b2z (negb (Z.testbit b 7 && negb (Z.testbit b 6))))))).
Proof.
  split; [by vm_compute|]. eexists. split; [vm_compute; reflexivity|]. intros b Hb.
  match goal with |- run_func ?F _ _ = _ => assert (head_table F = true) as Ht by (vm_compute; reflexivity) end.
  unfold head_table in Ht. rewrite forallb_forall in Ht. specialize (Ht b). rewrite bool_decide_eq_true in Ht. apply Ht.
  apply list_elem_of_In, elem_of_seqZ. lia.
Qed.
