(* ===== verification/CodegenFrame.v ===== *)
(** * What code generation leaves alone

    A call of the generator appends to the current block and to blocks it
    makes, allocates in the first block of the function, and keeps everything
    else: instructions, terminators of other blocks, enclosing scopes.
    [spec m s Q]: if [m] runs from [s] without a panic or an error, it ends in
    [Q]. *)
From S2P Require Import Prelude Lexer Ast Escape Ir Codegen CodegenSem.

(** ** Rules for the generator's monad *)

Section frame.
Context `{Llir}.
Implicit Types (s : cg).

Definition mono {A} (m : CG A) : Prop := ∀ s r s', m s = (r, s') → errn s ≤ errn s'.
Definition spec {A} (m : CG A) s (Q : A → cg → Prop) : Prop :=
  ∀ a s', m s = (Ok a, s') → errn s' = errn s → Q a s'.

Lemma mono_ret {A} (a : A) : mono (mret a).
Proof. by intros s r s' [= <- <-]. Qed.
Lemma mono_bind {A B} (m : CG A) (k : A → CG B) : mono m → (∀ a, mono (k a)) → mono (m ≫= k).
Proof.
  intros Hm Hk s r s' Hr. unfold mbind, CG_bind in Hr. destruct (m s) as [[a| |] s1] eqn:Hs; simplify_eq; [|by eapply Hm..].
  etrans; [by eapply Hm|by eapply Hk].
Qed.
Lemma mono_panic {A} : mono (panic (A:=A)).
Proof. by intros s r s' [= <- <-]. Qed.
Lemma mono_not_modelled {A} : mono (not_modelled (A:=A)).
Proof. by intros s r s' [= <- <-]. Qed.
Lemma mono_scope_get {A} (f : Scope → A) : mono (scope_get f).
Proof. intros s r s'. unfold scope_get. by destruct (scopes s) as [|sc l]; intros [= <- <-]. Qed.
Lemma mono_scope_mod f : mono (scope_mod f).
Proof. intros s r s'. unfold scope_mod. by destruct (scopes s) as [|sc l]; intros [= <- <-]. Qed.
Lemma mono_in_child {A} b (m : CG A) : mono m → mono (in_child b m).
Proof.
  intros Hm s r s'. unfold in_child. destruct (scopes s) as [|sc l]; [by intros [= <- <-]|].
  destruct (m _) as [o s1] eqn:Hs. apply Hm in Hs. simpl in Hs. by destruct o; intros [= <- <-].
Qed.
Lemma mono_recovering m : mono m → mono (recovering m).
Proof.
  intros Hm s r s'. unfold recovering. destruct (m s) as [o s1] eqn:Hs. apply Hm in Hs.
  destruct o; intros [= <- <-]; simpl; lia.
Qed.
Lemma mono_emit_at b t i : mono (emit_at b t i).
Proof. intros s r s'. unfold emit_at. destruct (NewInst _ _ _). by intros [= <- <-]. Qed.
Lemma mono_new_block : mono new_block.
Proof. intros s r s'. unfold new_block. destruct (NewBlock _). by intros [= <- <-]. Qed.
Lemma mono_set_term b t : mono (set_term b t).
Proof. by intros s r s' [= <- <-]. Qed.
Lemma mono_get_term b : mono (get_term b).
Proof. by intros s r s' [= <- <-]. Qed.
Lemma mono_first_block : mono first_block.
Proof. intros s r s'. unfold first_block. by destruct (Blocks _); intros [= <- <-]. Qed.
Lemma mono_br_parent b : mono (br_parent b).
Proof.
  intros s r s'. unfold br_parent. destruct (scopes s) as [|sc [|p l]]; [by intros [= <- <-]..|].
  destruct (block p); [|by intros [= <- <-]]. by intros [= <- <-].
Qed.
Lemma mono_ErrST : mono ErrSTNode_calc.
Proof. intros s r s' [= <- <-]. simpl. lia. Qed.
End frame.

Create HintDb cg_mono.
#[export] Hint Resolve mono_ret mono_panic mono_not_modelled mono_scope_get mono_scope_mod mono_in_child
  mono_recovering mono_emit_at mono_new_block mono_set_term mono_get_term mono_first_block mono_br_parent mono_ErrST : cg_mono.

(** Walks through a computation. *)
Ltac mono_tac :=
  repeat first
    [ assumption
    | solve [eauto 3 with cg_mono nocore]
    | apply mono_bind; [|intros ?]
    | apply mono_in_child
    | apply mono_recovering
    | progress intros
    | case_match ].

Section mono.
Context `{Llir} (Pkgname : text).

Lemma mono_emit t i : mono (emit t i).
Proof. unfold emit, cur_block. mono_tac. Qed.
Lemma mono_cur_block : mono cur_block.
Proof. unfold cur_block. mono_tac. Qed.
Lemma mono_getFullName x : mono (getFullName Pkgname x).
Proof. unfold getFullName. mono_tac. Qed.
Lemma mono_addVar x v : mono (addVar Pkgname x v).
Proof. unfold addVar. apply mono_bind; [apply mono_getFullName|]. mono_tac. Qed.
Lemma mono_searchVar x : mono (searchVar Pkgname x).
Proof.
  unfold searchVar. apply mono_bind; [apply mono_getFullName|]. intros a s r s'. by destruct (search _ _); intros [= <- <-].
Qed.
Lemma mono_loadIfVar v : mono (loadIfVar v).
Proof. unfold loadIfVar. destruct (Type_ v); [apply mono_ret|apply mono_emit|apply mono_ret]. Qed.
Lemma mono_extend_all w ts : mono (extend_all w ts).
Proof.
  induction ts as [|v ts IH]; [apply mono_ret|]. simpl. apply mono_bind; [destruct (_ =? _)%Z; [apply mono_ret|apply mono_emit]|].
  intros v'. apply mono_bind; [done|]. intros re. apply mono_ret.
Qed.
Lemma mono_hasFloatType ts : mono (hasFloatType ts).
Proof. unfold hasFloatType. destruct (forallb _ _); [apply mono_extend_all|apply mono_ret]. Qed.
Lemma mono_hasFloatType2 l r : mono (hasFloatType2 l r).
Proof. unfold hasFloatType2. apply mono_bind; [apply mono_hasFloatType|]. mono_tac. Qed.
Lemma mono_implicitCast v t : mono (implicitCast v t).
Proof. unfold implicitCast. pose proof mono_emit. mono_tac. Qed.
Lemma mono_store r l : mono (store r l).
Proof. unfold store. pose proof mono_cur_block. mono_tac. Qed.
Lemma mono_autoAlloc x t : mono (autoAlloc x t).
Proof. unfold autoAlloc, gcmalloc, stackAlloc. pose proof mono_cur_block. mono_tac. Qed.
Lemma mono_type t : mono (BasicTypeNode_calc t).
Proof. unfold BasicTypeNode_calc. mono_tac. Qed.
End mono.
#[export] Hint Resolve mono_emit mono_cur_block mono_getFullName mono_addVar mono_searchVar mono_loadIfVar mono_hasFloatType
  mono_hasFloatType2 mono_implicitCast mono_store mono_autoAlloc mono_type : cg_mono.

Section mono_nodes.
Context `{Llir} (Pkgname ident : text) (params : list text) (RetType : type) (order : gset text → list text).
#[local] Notation ExpNode_calc := (ExpNode_calc Pkgname).
#[local] Notation Node_calc := (Node_calc Pkgname ident params RetType order).

Lemma mono_BinNode op l r : mono l → mono r → mono (BinNode_calc op l r).
Proof. intros Hl Hr. unfold BinNode_calc. mono_tac. Qed.
Lemma mono_UnaryNode op c : mono c → mono (UnaryNode_calc op c).
Proof. intros Hc. unfold UnaryNode_calc. mono_tac. Qed.
Lemma mono_CompareNode op l r : mono l → mono r → mono (CompareNode_calc op l r).
Proof. intros Hl Hr. unfold CompareNode_calc. mono_tac. Qed.
Lemma mono_BoolExpNode op l r : mono l → mono r → mono (BoolExpNode_calc op l r).
Proof. intros Hl Hr. unfold BoolExpNode_calc. mono_tac. Qed.
Lemma mono_NotNode b : mono b → mono (NotNode_calc b).
Proof. intros Hb. unfold NotNode_calc. mono_tac. Qed.
Lemma mono_TakeValNode level m : mono m → mono (TakeValNode_calc level m).
Proof. intros Hm. induction level as [|level IH]; [done|]. simpl. pose proof mono_emit. mono_tac. Qed.
Lemma mono_exp e : mono (ExpNode_calc e).
Proof.
  revert e. fix IH 1. intros e. destruct e; cbn [Codegen.ExpNode_calc]; try (by apply mono_not_modelled).
  - apply mono_BinNode; apply IH.
  - destruct Val; [apply mono_ret|apply mono_not_modelled].
  - apply mono_UnaryNode, IH.
  - unfold VarBlockNode_calc. mono_tac.
  - apply mono_ret.
  - apply mono_CompareNode; apply IH.
  - apply mono_BoolExpNode; apply IH.
  - apply mono_NotNode, IH.
  - apply mono_TakeValNode, IH.
Qed.
Lemma mono_cond_br e a b : mono (cond_br Pkgname e a b).
Proof. unfold cond_br. pose proof mono_exp. mono_tac. Qed.

Lemma mono_close_block a b : mono (close_block a b).
Proof. unfold close_block. mono_tac. Qed.
Lemma mono_set_block b : mono (set_block b).
Proof. apply mono_scope_mod. Qed.
Lemma mono_set_loop b c : mono (set_loop b c).
Proof. apply mono_scope_mod. Qed.
Lemma mono_set_heap_table h : mono (set_heap_table h).
Proof. apply mono_scope_mod. Qed.
#[local] Hint Resolve mono_exp mono_cond_br mono_close_block mono_set_block mono_set_loop mono_set_heap_table : cg_mono.

Lemma mono_IfNode b st : mono st → mono (IfNode_calc Pkgname b st).
Proof. intros Hst. unfold IfNode_calc. mono_tac. Qed.
Lemma mono_IfElseNode b st el : mono st → mono el → mono (IfElseNode_calc Pkgname b st el).
Proof. intros Hst Hel. unfold IfElseNode_calc. mono_tac. Qed.
Lemma mono_ForNode b d a st : from_option mono True d → from_option mono True a → mono st → mono (ForNode_calc Pkgname b d a st).
Proof.
  intros Hd Ha Hst. unfold ForNode_calc.
  assert (mono (match d with Some d => d | None => mret tt end)) by (destruct d; [done|apply mono_ret]).
  assert (mono (match a with Some a => a | None => mret tt end)) by (destruct a; [done|apply mono_ret]). mono_tac.
Qed.
Lemma mono_calc_children (calc : Node → CG unit) ch : Forall (λ n, mono (calc n)) ch → mono (calc_children calc ch).
Proof. induction 1 as [|n ch Hn Hch IH]; simpl; [apply mono_ret|]. apply mono_bind; [by apply mono_recovering|done]. Qed.
Lemma mono_SLNode ch m : mono m → mono (SLNode_calc ident params order ch m).
Proof. intros Hm. unfold SLNode_calc. mono_tac. Qed.

(** Induction on the statements in a statement. *)
Lemma Node_ind_children (P : Node → Prop) :
  (∀ e, P (ExpSt e)) → (∀ ch, Forall P ch → P (SLNode ch)) → (∀ l s, P (ErrSTNode l s)) → P EmptyNode →
  (∀ x t, P (DefineNode x t)) → (∀ e, P (RetNode e)) → (∀ e x, P (DefAndAssignNode e x)) →
  (∀ b st, P st → P (IfNode b st)) → (∀ b st el, P st → P el → P (IfElseNode b st el)) →
  (∀ b d a st, from_option P True d → from_option P True a → P st → P (ForNode b d a st)) →
  P BreakNode → P ContinueNode → (∀ e, P (YieldNode e)) → ∀ n, P n.
Proof.
  intros H1 H2 H3 H4 H5 H6 H7 H8 H9 H10 H11 H12 H13. fix IH 1. intros n. destruct n as [e|ch|l s| |x t|e|e x|b st|b st el|b d a st| | |e].
  - apply H1.
  - apply H2. induction ch as [|n ch IHch]; constructor; [apply IH|exact IHch].
  - apply H3.
  - apply H4.
  - apply H5.
  - apply H6.
  - apply H7.
  - apply H8, IH.
  - apply H9; apply IH.
  - apply H10; [destruct d as [d|]; [apply IH|exact Logic.I]|destruct a as [a|]; [apply IH|exact Logic.I]|apply IH].
  - apply H11.
  - apply H12.
  - apply H13.
Qed.

Lemma mono_Node n : mono (Node_calc n).
Proof.
  induction n as [e|ch IH|l s| |x t|e|e x|b st IH|b st el IHs IHe|b d a st IHd IHa IH| | |e] using Node_ind_children; cbn [Codegen.Node_calc].
  - mono_tac.
  - apply mono_SLNode, mono_calc_children, IH.
  - mono_tac.
  - mono_tac.
  - unfold DefineNode_calc. mono_tac.
  - unfold RetNode_calc. mono_tac.
  - unfold DefAndAssignNode_calc. mono_tac.
  - by apply mono_IfNode.
  - by apply mono_IfElseNode.
  - apply mono_ForNode; [by destruct d|by destruct a|done].
  - unfold BreakNode_calc. mono_tac.
  - unfold ContinueNode_calc. mono_tac.
  - mono_tac.
Qed.
End mono_nodes.

(** ** Rules for [spec] *)
Section rules.
Context `{Llir}.
Implicit Types (s : cg).

Lemma spec_ret {A} (a : A) s (Q : A → cg → Prop) : Q a s → spec (mret a) s Q.
Proof. by intros HQ a' s' [= <- <-] _. Qed.
Lemma spec_bind {A B} (m : CG A) (k : A → CG B) s Q :
  mono m → (∀ a, mono (k a)) → spec m s (λ a s', spec (k a) s' Q) → spec (m ≫= k) s Q.
Proof.
  intros Hm Hk Hs b s' Hr He. unfold mbind, CG_bind in Hr. destruct (m s) as [[a| |] s1] eqn:Hms; simplify_eq.
  pose proof (Hm _ _ _ Hms). pose proof (Hk a _ _ _ Hr). by apply (Hs a s1 Hms ltac:(lia) b s' Hr ltac:(lia)).
Qed.
Lemma spec_mono {A} (m : CG A) s (Q Q' : A → cg → Prop) : spec m s Q → (∀ a s', Q a s' → Q' a s') → spec m s Q'.
Proof. intros Hs HQ a s' Hr He. by apply HQ, (Hs a s'). Qed.
Lemma spec_panic {A} s (Q : A → cg → Prop) : spec panic s Q.
Proof. done. Qed.
Lemma spec_not_modelled {A} s (Q : A → cg → Prop) : spec not_modelled s Q.
Proof. done. Qed.
Lemma spec_recovering (m : CG unit) s Q : mono m → spec m s Q → spec (recovering m) s Q.
Proof.
  intros Hm Hs a s' Hr He. unfold recovering in Hr. destruct (m s) as [[[]| |] s1] eqn:Hms; simplify_eq; [by apply Hs|].
  simpl in He. apply Hm in Hms. lia.
Qed.
Lemma spec_scope_get {A} (f : Scope → A) s Q : (∀ sc l, scopes s = sc :: l → Q (f sc) s) → spec (scope_get f) s Q.
Proof. intros HQ a s' Hr _. unfold scope_get in Hr. destruct (scopes s) as [|sc l] eqn:Hs; simplify_eq. by eapply HQ. Qed.
Lemma spec_scope_mod f s (Q : unit → cg → Prop) :
  (∀ sc l, scopes s = sc :: l → Q tt (set_scopes (f sc :: l) s)) → spec (scope_mod f) s Q.
Proof. intros HQ a s' Hr _. unfold scope_mod in Hr. destruct (scopes s) as [|sc l] eqn:Hs; simplify_eq. by eapply HQ. Qed.

(** The block code is appended to. *)
Definition cur s : option nat := match scopes s with sc :: _ => block sc | [] => None end.
Lemma spec_cur_block s Q : (∀ b, cur s = Some b → Q b s) → spec cur_block s Q.
Proof.
  intros HQ a s' Hr _. unfold cur_block, mbind, CG_bind, scope_get in Hr. unfold cur in HQ.
  destruct (scopes s) as [|sc l]; [done|]. destruct (block sc); [|done]. injection Hr as <- <-. by apply HQ.
Qed.
Lemma spec_emit_at b t i s (Q : value → cg → Prop) :
  (∀ r f, NewInst (fn s) b i = (r, f) → Q (Inst r t) (set_fn f s)) → spec (emit_at b t i) s Q.
Proof. intros HQ a s' Hr _. unfold emit_at in Hr. destruct (NewInst _ _ _) eqn:Hn. simplify_eq. by apply HQ. Qed.
Lemma spec_new_block s Q : (∀ b f, NewBlock (fn s) = (b, f) → Q b (set_fn f s)) → spec new_block s Q.
Proof. intros HQ a s' Hr _. unfold new_block in Hr. destruct (NewBlock _) eqn:Hn. simplify_eq. by apply HQ. Qed.
Lemma spec_set_term b t s (Q : unit → cg → Prop) : Q tt (set_fn (SetTerm (fn s) b t) s) → spec (set_term b t) s Q.
Proof. by intros HQ a s' [= <- <-] _. Qed.
Lemma spec_in_child {A} b (m : CG A) s Q :
  (∀ sc l, scopes s = sc :: l → spec m (set_scopes (addChildScope b sc :: sc :: l) s) (λ a s', Q a (set_scopes (tail (scopes s')) s'))) →
  spec (in_child b m) s Q.
Proof.
  intros HQ a s' Hr He. unfold in_child in Hr. destruct (scopes s) as [|sc l] eqn:Hs; [done|].
  destruct (m _) as [o s1] eqn:Hm. destruct o; simplify_eq. by apply (HQ sc l eq_refl a s1 Hm).
Qed.
End rules.

#[export] Hint Resolve mono_exp mono_cond_br mono_close_block mono_set_block mono_set_loop mono_set_heap_table mono_Node : cg_mono.
(** A bind whose parts are monotone by the walk above. *)
Ltac cg_bind := apply spec_bind; [mono_tac|intros; mono_tac|].

(** ** Names *)
Section names.
Context `{Llir} (Pkgname : text).
#[local] Open Scope Z_scope.

Definition full (x : text) : option text :=
  match x with
  | [] => None
  | c :: _ =>
      Some (if c =? ch "{" then x
      else
        let x := unquote x in
        if decide (x ∈ externMap) then x
        else
          let p := Pkgname ++ [ch "."] in
          if decide (take (length p) x = p) then x else p ++ x)
  end.
Lemma getFullName_full x (s : cg) : getFullName Pkgname x s = (match full x with Some y => Ok y | None => Panic end, s).
Proof. unfold getFullName, full. destruct x as [|c x]; [done|]. case_match; [done|]. by repeat case_decide. Qed.
Lemma spec_full x (s : cg) Q : (∀ y, full x = Some y → Q y s) → spec (getFullName Pkgname x) s Q.
Proof. intros HQ a s' Hr _. rewrite getFullName_full in Hr. destruct (full x) eqn:Hf; simplify_eq. by apply HQ. Qed.

Definition dotless (x : text) : Prop := Forall (λ c, c ≠ ch ".") x.
Lemma plain_spec x : plain x = true → x ≠ [] ∧ Forall (λ c, c ≠ ch "." ∧ c ≠ ch "{" ∧ c ≠ 92) x.
Proof.
  unfold plain. destruct x as [|c x]; [done|]. intros Hp. split; [done|]. 
  rewrite forallb_forall in Hp. apply Forall_forall. intros d Hd%list_elem_of_In. specialize (Hp d Hd).
  apply negb_true_iff in Hp. rewrite !orb_false_iff, !Z.eqb_neq in Hp. naive_solver.
Qed.
Lemma unquote_plain x : Forall (λ c, c ≠ 92) x → unquote x = x.
Proof.
  induction 1 as [|c x Hc Hx IH]; [done|]. simpl. 
  assert (unquote (c :: x) = c :: unquote x) as Hu.
  { simpl. destruct c as [|p|p]; try done. do 7 (destruct p as [p|p|]; try done). }
  simpl in Hu. rewrite Hu. by f_equal.
Qed.
Lemma full_plain x : plain x = true →
  full x = Some (if decide (x ∈ externMap) then x else Pkgname ++ ch "." :: x).
Proof.
  intros [Hne Hx]%plain_spec. destruct x as [|c x]; [done|]. unfold full.
  assert ((c =? ch "{") = false) as -> by (apply Z.eqb_neq; inversion Hx; naive_solver).
  rewrite unquote_plain by (eapply Forall_impl; [done|]; naive_solver). f_equal. cbv zeta. case_decide; [done|].
  rewrite decide_False; [by rewrite <- app_assoc|]. intros Ht.
  assert (ch "." ∈ c :: x) as Hin; [|rewrite Forall_forall in Hx; by apply Hx in Hin as (? & _)].
  rewrite <- (take_drop (length (Pkgname ++ [ch "."])) (c :: x)), Ht. set_solver.
Qed.
Lemma full_inj x y z : plain x = true → plain y = true → full x = Some z → full y = Some z → x = y.
Proof.
  intros Hx Hy. rewrite !full_plain by done.
  assert (∀ x y, plain x = true → x = Pkgname ++ ch "." :: y → False) as Hno.
  { intros a b [_ Ha]%plain_spec ->. rewrite Forall_forall in Ha. destruct (Ha (ch ".")); [set_solver|done]. }
  do 2 case_decide; intros [= <-] [= He]; [done|..].
  - by destruct (Hno x y).
  - by destruct (Hno y x).
  - by apply app_inv_head in He as [= ->].
Qed.
End names.
