(* ===== verification/CodegenExp.v ===== *)
(** * Generated code for expressions

    The code of an expression is appended to the current block; running it
    leaves the memory alone and gives the value that [eval] gives. *)
From S2P Require Import Prelude Lexer Ast Escape Ir Codegen CodegenSem CodegenFrame.
#[local] Open Scope Z_scope.

Section exp.
Context `{Llir} (Pkgname : text).
Implicit Types (s : cg).
#[local] Notation ExpNode_calc := (ExpNode_calc Pkgname).
#[local] Notation full := (full Pkgname).

(** ** Code that is appended to a block *)

Definition known (f : Func) (r : nat) : Prop := ∃ b k i, b ∈ Blocks f ∧ Insts f b !! k = Some (r, i).
(** An instruction is in one place. *)
Definition uniq (f : Func) : Prop := ∀ r b k i b' k' i', b ∈ Blocks f → b' ∈ Blocks f →
  Insts f b !! k = Some (r, i) → Insts f b' !! k' = Some (r, i') → b = b' ∧ k = k'.

Record eff s s' (B : nat) (cs : list (nat * inst)) : Prop := mk_eff {
  ef_scopes : scopes s' = scopes s;
  ef_blocks : Blocks (fn s') = Blocks (fn s);
  ef_cur : Insts (fn s') B = Insts (fn s) B ++ cs;
  ef_other : ∀ b, b ≠ B → Insts (fn s') b = Insts (fn s) b;
  ef_term : ∀ b, Term (fn s') b = Term (fn s) b;
  ef_new : ∀ r, r ∈ cs.*1 → ¬ known (fn s) r;
  ef_uniq : uniq (fn s) → uniq (fn s');
  ef_plain : Forall (λ x, is_alloc x.2 = false) cs;
}.
Lemma eff_known s s' B cs r : eff s s' B cs → known (fn s) r → known (fn s') r.
Proof.
  intros E (b & k & i & Hb & Hk). exists b, k, i. rewrite (ef_blocks _ _ _ _ E). split; [done|].
  destruct (decide (b = B)) as [->|Hne]; [|by rewrite (ef_other _ _ _ _ E)].
  rewrite (ef_cur _ _ _ _ E). by apply lookup_app_l_Some.
Qed.
Lemma eff_refl s B : eff s s B [].
Proof. split; try done; [by rewrite app_nil_r|by intros r ?%not_elem_of_nil]. Qed.
Lemma eff_trans s s1 s2 B cs1 cs2 : eff s s1 B cs1 → eff s1 s2 B cs2 → eff s s2 B (cs1 ++ cs2).
Proof.
  intros E1 E2. pose proof (λ r, eff_known _ _ _ _ r E1) as Hk. destruct E1, E2. split; try congruence; try (by apply Forall_app).
  - rewrite ef_cur1, ef_cur0. by rewrite (assoc_L (++)).
  - intros b Hb. rewrite ef_other1, ef_other0; done.
  - intros r. rewrite fmap_app, elem_of_app. intros [Hr|Hr]; [by apply ef_new0|]. intros Hr'. by apply (ef_new1 r Hr), Hk.
  - auto.
Qed.
Lemma NewInst_uniq f b i r f' : NewInst f b i = (r, f') → b ∈ Blocks f → ¬ known f r ∧ (uniq f → uniq f').
Proof.
  intros Hn Hb. destruct (NewInst_spec f b i r f' Hn Hb) as (Hnew & Hbl & Hcur & Hoth & _).
  assert (¬ known f r) as Hk.
  { intros (b' & k & i' & Hb' & Hk). apply (Hnew b' Hb'), list_elem_of_fmap. exists (r, i'). split; [done|]. by eapply list_elem_of_lookup_2. }
  split; [done|]. intros Hu.
  assert (∀ b' k' r' i', b' ∈ Blocks f → Insts f' b' !! k' = Some (r', i') →
    (Insts f b' !! k' = Some (r', i') ∧ r' ≠ r) ∨ (b' = b ∧ k' = length (Insts f b) ∧ r' = r)) as Hcase.
  { intros b' k' r' i' Hb' Hl. destruct (decide (b' = b)) as [->|Hne].
    - rewrite Hcur in Hl. apply lookup_snoc_Some in Hl as [[_ Hl]|[-> [= -> ->]]]; [left|by right].
      split; [done|]. intros ->. apply Hk. by exists b, k', i'.
    - rewrite (Hoth b' Hne) in Hl. left. split; [done|]. intros ->. apply Hk. by exists b', k', i'. }
  intros r' b1 k1 i1 b2 k2 i2. rewrite Hbl. intros Hb1 Hb2 H1 H2.
  destruct (Hcase _ _ _ _ Hb1 H1) as [[H1' Hr1]|(-> & -> & ->)], (Hcase _ _ _ _ Hb2 H2) as [[H2' Hr2]|(-> & -> & Hr2)]; try done.
  by apply (Hu r' b1 k1 i1 b2 k2 i2).
Qed.
Lemma eff_emit s B i r f : is_alloc i = false → NewInst (fn s) B i = (r, f) → B ∈ Blocks (fn s) → eff s (set_fn f s) B [(r, i)].
Proof.
  intros Hi Hn HB. destruct (NewInst_spec _ _ _ _ _ Hn HB) as (_ & Hbl & Hcur & Hoth & Ht).
  destruct (NewInst_uniq _ _ _ _ _ Hn HB) as [Hk Hu]. split; simpl; try done; [|by repeat constructor].
  by intros r' [-> |[]%elem_of_nil]%elem_of_cons.
Qed.
Lemma eff_cur_block s s' B cs : eff s s' B cs → cur s' = cur s.
Proof. intros E. unfold cur. by rewrite (ef_scopes _ _ _ _ E). Qed.

(** ** Running it *)

Fixpoint exec_insts (args : list val) (cs : list (nat * inst)) (ρ m : gmap nat val) : option (gmap nat val * gmap nat val) :=
  match cs with
  | [] => Some (ρ, m)
  | (r, i) :: cs => '(ρ, m) ← exec_inst args r i ρ m; exec_insts args cs ρ m
  end.
Lemma exec_insts_app args cs1 cs2 ρ m :
  exec_insts args (cs1 ++ cs2) ρ m = '(ρ, m) ← exec_insts args cs1 ρ m; exec_insts args cs2 ρ m.
Proof. revert ρ m. induction cs1 as [|[r i] cs IH]; intros ρ m; simpl; [done|]. destruct (exec_inst _ _ _ _ _) as [[ρ1 m1]|]; simpl; [apply IH|done]. Qed.

(** Only the registers of the code change. *)
Definition same_but (cs : list (nat * inst)) (ρ ρ' : gmap nat val) : Prop := ∀ r, r ∉ cs.*1 → ρ' !! r = ρ !! r.
Lemma same_but_refl ρ : same_but [] ρ ρ.
Proof. done. Qed.
Lemma same_but_trans cs1 cs2 ρ ρ1 ρ2 : same_but cs1 ρ ρ1 → same_but cs2 ρ1 ρ2 → same_but (cs1 ++ cs2) ρ ρ2.
Proof. intros H1 H2 r. rewrite fmap_app, not_elem_of_app. intros [Hr1 Hr2]. by rewrite H2, H1. Qed.
Lemma same_but_insert r i ρ v : same_but [(r, i)] ρ (<[r:=v]> ρ).
Proof. intros r' Hr. rewrite lookup_insert_ne; [done|]. intros ->. apply Hr. by left. Qed.

Definition val_known (f : Func) (v : value) : Prop := ∀ r t, v = Inst r t → known f r.
Lemma val_known_eff s s' B cs v : eff s s' B cs → val_known (fn s) v → val_known (fn s') v.
Proof. intros E Hv r t ->. eapply eff_known; [exact E|]. by eapply Hv. Qed.
Lemma val_known_emit s B i r f t : NewInst (fn s) B i = (r, f) → B ∈ Blocks (fn s) → val_known f (Inst r t).
Proof.
  intros Hn HB r' t' [= <- <-]. destruct (NewInst_spec _ _ _ _ _ Hn HB) as (_ & Hbl & Hcur & _).
  exists B, (length (Insts (fn s) B)), i. rewrite Hbl, Hcur. split; [done|]. rewrite lookup_app_r by done. by rewrite Nat.sub_diag.
Qed.

(** The value has this width and is this number, or is undefined. *)
Definition val_of (w : Z) (o : option Z) : val := match o with Some z => VInt w z | None => VUndef end.
Definition hasv (args : list val) (ρ : gmap nat val) (v : value) (w : Z) (o : option Z) : Prop :=
  Type_ v = IntType w ∧ operand args ρ (IntType w) v = Some (val_of w o).
Definition has args ρ v w z : Prop := hasv args ρ v w (Some z).
Lemma operand_same args s s' B cs ρ ρ' t v : eff s s' B cs → same_but cs ρ ρ' → val_known (fn s) v →
  operand args ρ' t v = operand args ρ t v.
Proof.
  intros E Hsame Hv. destruct v as [|r t'|]; [done| |done]. simpl. case_decide; [|done]. apply Hsame. intros Hr.
  by eapply (ef_new _ _ _ _ E r Hr), Hv.
Qed.
Lemma has_same args s s' B cs ρ ρ' v w o : eff s s' B cs → same_but cs ρ ρ' → val_known (fn s) v →
  hasv args ρ v w o → hasv args ρ' v w o.
Proof. intros E Hsame Hv [Ht Hop]. split; [done|]. by rewrite (operand_same _ _ _ _ _ _ _ _ _ E Hsame Hv). Qed.

(** ** Variables *)

(** What the memory of a variable holds: anything of its type before the
    variable has a value. *)
Definition cell (w : Z) (v : option Z) (c : val) : Prop :=
  match v with Some z => c = VInt w z | None => c = VUndef ∨ ∃ z, c = VInt w z end.
Definition var_match (ev : env) (l : list Scope) (ρ m : gmap nat val) : Prop :=
  ∀ x w v, env_lookup x ev = Some (w, v) →
    ∃ y r p c, full x = Some y ∧ search y l = Some (Inst r (PointerType (IntType w))) ∧
      ρ !! r = Some (VPtr p) ∧ m !! p = Some c ∧ cell w v c.
Definition tab_known s : Prop := ∀ y v, search y (scopes s) = Some v → val_known (fn s) v.
Lemma tab_known_eff s s' B cs : eff s s' B cs → tab_known s → tab_known s'.
Proof. intros E Ht y v. rewrite (ef_scopes _ _ _ _ E). intros Hs. eapply val_known_eff; [exact E|]. by eapply Ht. Qed.
Lemma var_match_same s s' B cs ev ρ ρ' m : eff s s' B cs → tab_known s → same_but cs ρ ρ' →
  var_match ev (scopes s) ρ m → var_match ev (scopes s') ρ' m.
Proof.
  intros E Ht Hsame Hm x w v Hx. destruct (Hm x w v Hx) as (y & r & p & c & Hy & Hs & Hr & Hp & Hc).
  exists y, r, p, c. rewrite (ef_scopes _ _ _ _ E). split; [done|]. split; [done|]. split; [|done].
  rewrite (Hsame r); [done|]. intros Hin. apply (ef_new _ _ _ _ E r Hin). by eapply Ht.
Qed.

(** ** The parts of an expression *)

(** [v] is the value of [e], computed by code appended to [B]. *)
Definition rvalue s (e : ExpNode) (B : nat) (v : value) s' : Prop :=
  ∃ cs, eff s s' B cs ∧ val_known (fn s') v ∧ (∀ z, literal e = Some z → ∃ w, v = ConstInt w z) ∧
    ∀ args ev ρ m w z, var_match ev (scopes s) ρ m → eval ev e = Some (w, z) →
      ∃ ρ', exec_insts args cs ρ m = Some (ρ', m) ∧ same_but cs ρ ρ' ∧ has args ρ' v w z.

Lemma spec_emit t i s B (Q : value → cg → Prop) :
  is_alloc i = false → cur s = Some B → B ∈ Blocks (fn s) →
  (∀ r f, eff s (set_fn f s) B [(r, i)] → val_known f (Inst r t) → Q (Inst r t) (set_fn f s)) → spec (emit t i) s Q.
Proof.
  intros Hi Hc HB HQ. unfold emit. cg_bind. apply spec_cur_block. intros b Hb. assert (b = B) as -> by congruence.
  apply spec_emit_at. intros r f Hn. apply HQ; [by eapply eff_emit|by eapply val_known_emit].
Qed.

(** A value that needs no load. *)
Lemma load_int v s (Q : value → cg → Prop) : (∀ t, Type_ v ≠ PointerType t) → Q v s → spec (loadIfVar v) s Q.
Proof. intros Ht HQ. unfold loadIfVar. destruct (Type_ v) eqn:Hv; [by apply spec_ret|by destruct (Ht t)|by apply spec_ret]. Qed.

Lemma extend_one v w' s B :
  cur s = Some B → B ∈ Blocks (fn s) → val_known (fn s) v →
  spec (if BitSize_of v =? w' then mret v else emit (IntType w') (ZExt v w')) s (λ v' s', ∃ cs, eff s s' B cs ∧ val_known (fn s') v' ∧
    ∀ args ρ m w o, hasv args ρ v w o → w ≤ w' →
      ∃ ρ', exec_insts args cs ρ m = Some (ρ', m) ∧ same_but cs ρ ρ' ∧ hasv args ρ' v' w' o).
Proof.
  intros Hc HB Hv. destruct (BitSize_of v =? w') eqn:Hw.
  - apply spec_ret. exists []. split; [apply eff_refl|]. split; [done|]. intros args ρ m w o [Ht Hop] _.
    exists ρ. split; [done|]. split; [done|]. apply Z.eqb_eq in Hw. unfold BitSize_of in Hw. rewrite Ht in Hw. subst w'. by split.
  - apply (spec_emit _ _ _ B); [done..|]. intros r f E Hr. eexists. split; [done|]. split; [done|].
    intros args ρ m w o [Ht Hop] Hle. apply Z.eqb_neq in Hw. unfold BitSize_of in Hw. rewrite Ht in Hw.
    exists (<[r:=val_of w' o]> ρ). simpl. rewrite Ht, Hop. simpl. rewrite decide_True by lia.
    split; [by destruct o|]. split; [apply same_but_insert|].
    split; [done|]. simpl. rewrite decide_True by done. by rewrite lookup_insert_eq.
Qed.

Lemma join_spec w w' k : join w w' = Some k →
  ((w = 1 ∨ w' = 1) ∧ w = w' ∧ k = w) ∨ (w ≠ 1 ∧ w' ≠ 1 ∧ k = foldr Z.max 8 [w; w'] ∧ w ≤ k ∧ w' ≤ k).
Proof.
  unfold join. destruct (Z.eqb_spec w 1), (Z.eqb_spec w' 1); simpl; try (case_match eqn:He; [apply Z.eqb_eq in He|]; naive_solver).
  intros [= <-]. right. lia.
Qed.
(** Both operands at the width they are joined to. *)
Definition joined (l r : value) s (B : nat) (lr : value * value) s' : Prop :=
  ∃ cs, eff s s' B cs ∧ val_known (fn s') lr.1 ∧ val_known (fn s') lr.2 ∧
    ∀ args ρ m wl a wr b, hasv args ρ l wl a → hasv args ρ r wr b →
      ∃ ρ' wl' wr', exec_insts args cs ρ m = Some (ρ', m) ∧ same_but cs ρ ρ' ∧ hasv args ρ' lr.1 wl' a ∧ hasv args ρ' lr.2 wr' b ∧
        ∀ w, join wl wr = Some w → wl' = w ∧ wr' = w.
Lemma is_int_has args ρ v w o : hasv args ρ v w o → is_int v = negb (w =? 1).
Proof. intros [Ht _]. unfold is_int. by rewrite Ht. Qed.
Lemma extend_two l r s B :
  cur s = Some B → B ∈ Blocks (fn s) → val_known (fn s) l → val_known (fn s) r → is_int l = true → is_int r = true →
  spec (extend_all (foldr Z.max 8 (BitSize_of <$> [l; r])) [l; r]) s (λ re s', ∃ l' r', re = [l'; r'] ∧ joined l r s B (l', r') s').
Proof.
  intros Hc HB Hl Hr Hil Hir. cbn [extend_all]. set (W := foldr _ _ _).
  cg_bind. eapply spec_mono; [by eapply extend_one|]. intros l' s1 (cs1 & E1 & Hl' & Hx1).
  cg_bind. cg_bind. eapply spec_mono.
  { eapply extend_one; [by erewrite eff_cur_block|by rewrite (ef_blocks _ _ _ _ E1)|by eapply val_known_eff]. }
  intros r' s2 (cs2 & E2 & Hr' & Hx2). cg_bind. do 3 apply spec_ret. exists l', r'. split; [done|].
  exists (cs1 ++ cs2). split; [by eapply eff_trans|]. split; [by eapply val_known_eff|]. split; [done|].
  intros args ρ m wl a wr b Ha Hb. rewrite (is_int_has _ _ _ _ _ Ha) in Hil. rewrite (is_int_has _ _ _ _ _ Hb) in Hir.
  apply negb_true_iff, Z.eqb_neq in Hil, Hir.
  assert (wl ≤ W ∧ wr ≤ W) as (Hwl & Hwr).
  { unfold W, BitSize_of. simpl. rewrite (proj1 Ha), (proj1 Hb). lia. }
  destruct (Hx1 args ρ m wl a Ha Hwl) as (ρ1 & Hr1 & Hs1 & Ha1).
  destruct (Hx2 args ρ1 m wr b) as (ρ2 & Hr2 & Hs2 & Hb2); [by apply (has_same args s s1 B cs1 ρ)|done|].
  exists ρ2, W, W. rewrite exec_insts_app, Hr1. simpl. split; [done|]. split; [by eapply same_but_trans|].
  split; [by apply (has_same args s1 s2 B cs2 ρ1)|]. split; [done|].
  intros w Hj. destruct (join_spec _ _ _ Hj) as [[[?|?] _]|(_ & _ & -> & ? & ?)]; [congruence..|]. unfold W, BitSize_of. simpl.
  by rewrite (proj1 Ha), (proj1 Hb).
Qed.
Lemma join_operands l r s B :
  cur s = Some B → B ∈ Blocks (fn s) → val_known (fn s) l → val_known (fn s) r →
  spec (hasFloatType2 l r) s (joined l r s B).
Proof.
  intros Hc HB Hl Hr. unfold hasFloatType2, hasFloatType. cg_bind. destruct (forallb is_int [l; r]) eqn:Hi.
  - simpl in Hi. rewrite andb_true_r in Hi. apply andb_true_iff in Hi as [Hil Hir].
    eapply spec_mono; [by apply extend_two|]. intros re s' (l' & r' & -> & Hj). by apply spec_ret.
  - do 2 apply spec_ret. exists []. split; [apply eff_refl|]. split; [done|]. split; [done|].
    intros args ρ m wl a wr b Ha Hb. exists ρ, wl, wr. do 4 (split; [done|]). intros w Hj.
    simpl in Hi. rewrite (is_int_has _ _ _ _ _ Ha), (is_int_has _ _ _ _ _ Hb), andb_true_r in Hi.
    destruct (join_spec _ _ _ Hj) as [(_ & -> & ->)|(Hw & Hw' & _)]; [done|].
    apply Z.eqb_neq in Hw, Hw'. by rewrite Hw, Hw' in Hi.
Qed.

(** ** The nodes

    The value of an expression is loaded when it is a variable. *)
Definition computes (m : CG value) (e : ExpNode) : Prop := ∀ s B, cur s = Some B → B ∈ Blocks (fn s) → tab_known s →
  spec m s (λ v0 s0, spec (loadIfVar v0) s0 (rvalue s e B)).
(** What is known behind a first operand. *)
Lemma rvalue_next s e B v s' : cur s = Some B → B ∈ Blocks (fn s) → tab_known s → rvalue s e B v s' →
  cur s' = Some B ∧ B ∈ Blocks (fn s') ∧ tab_known s' ∧ val_known (fn s') v.
Proof.
  intros Hc HB Ht (cs & E & Hv & _). rewrite (eff_cur_block _ _ _ _ E), (ef_blocks _ _ _ _ E).
  split; [done|]. split; [done|]. split; [by eapply tab_known_eff|done].
Qed.
(** The value of a node that computes an integer itself. *)
Lemma computes_int s e B v s' (Q : value → cg → Prop) :
  (∀ t, Type_ v ≠ PointerType t) → rvalue s e B v s' → spec (loadIfVar v) s' (rvalue s e B).
Proof. intros Ht Hr. by apply load_int. Qed.

Lemma computes_number w z : computes (mret (ConstInt w z)) (NumNode (IntVal w z)).
Proof.
  intros s B Hc HB Ht. apply spec_ret, load_int; [done|]. exists []. split; [apply eff_refl|]. split; [done|].
  split; [intros z' [= <-]; by exists w|]. intros args ev ρ m w' z' _ [= <- <-]. by exists ρ.
Qed.
Lemma computes_bool b : computes (mret (ConstInt 1 (Z.b2z b))) (BoolConstNode b).
Proof.
  intros s B Hc HB Ht. apply spec_ret, load_int; [done|]. exists []. split; [apply eff_refl|]. split; [done|].
  split; [done|]. intros args ev ρ m w' z' _ [= <- <-]. exists ρ. do 3 (split; [done|]). simpl. by destruct b.
Qed.
Lemma computes_var b : computes (VarBlockNode_calc Pkgname b) (VarExp b).
Proof.
  intros s B Hc HB Ht. destruct b as [x [|] [|] p]; simpl; try done. unfold searchVar. cg_bind; [|].
  { intros s1 r s2. by destruct (search _ _); intros [= <- <-]. }
  apply spec_full. intros y Hy v0 s0 Hv0 _. destruct (search y (scopes s)) as [v1|] eqn:Hs; [|done]. injection Hv0 as <- <-.
  unfold loadIfVar. destruct (Type_ v1) as [w|t|] eqn:Hty.
  - apply spec_ret. exists []. split; [apply eff_refl|]. split; [by eapply Ht|]. split; [done|].
    intros args ev ρ m w' z Hm He. simpl in He. destruct (env_lookup x ev) as [[w1 [z1|]]|] eqn:Hx; simplify_eq/=.
    destruct (Hm x w' (Some z) Hx) as (y' & r & p' & c & Hy' & Hs' & _). simplify_eq.
  - apply (spec_emit _ _ _ B); [done..|]. intros r f E Hr. eexists. split; [done|]. split; [done|]. split; [done|].
    intros args ev ρ m w' z Hm He. simpl in He. destruct (env_lookup x ev) as [[w1 [z1|]]|] eqn:Hx; simplify_eq/=.
    destruct (Hm x w' (Some z) Hx) as (y' & r' & p' & c & Hy' & Hs' & Hr' & Hp' & Hc'). simplify_eq/=.
    eexists. rewrite decide_True by done. rewrite Hr'. simpl. rewrite Hp'. simpl. split; [done|]. split; [apply same_but_insert|].
    split; [done|]. simpl. rewrite decide_True by done. by rewrite lookup_insert_eq.
  - apply spec_ret. exists []. split; [apply eff_refl|]. split; [by eapply Ht|]. split; [done|].
    intros args ev ρ m w' z Hm He. simpl in He. destruct (env_lookup x ev) as [[w1 [z1|]]|] eqn:Hx; simplify_eq/=.
    destruct (Hm x w' (Some z) Hx) as (y' & r & p' & c & Hy' & Hs' & _). simplify_eq.
Qed.

(** Two operands, one after the other. *)
Definition both s (e1 e2 : ExpNode) (B : nat) (v1 v2 : value) s' : Prop :=
  ∃ cs, eff s s' B cs ∧ val_known (fn s') v1 ∧ val_known (fn s') v2 ∧
    ∀ args ev ρ m w1 z1 w2 z2, var_match ev (scopes s) ρ m → eval ev e1 = Some (w1, z1) → eval ev e2 = Some (w2, z2) →
      ∃ ρ', exec_insts args cs ρ m = Some (ρ', m) ∧ same_but cs ρ ρ' ∧ has args ρ' v1 w1 z1 ∧ has args ρ' v2 w2 z2.
Lemma computes_pair {A} (m1 m2 : CG value) e1 e2 s B (k : value → value → value → value → CG A) Q :
  mono m1 → mono m2 → (∀ a b c d, mono (k a b c d)) → computes m1 e1 → computes m2 e2 →
  cur s = Some B → B ∈ Blocks (fn s) → tab_known s →
  (∀ r1 v1 r2 v2 s', cur s' = Some B → B ∈ Blocks (fn s') → tab_known s' → both s e1 e2 B v1 v2 s' → spec (k r1 v1 r2 v2) s' Q) →
  spec (r1 ← m1; v1 ← loadIfVar r1; r2 ← m2; v2 ← loadIfVar r2; k r1 v1 r2 v2) s Q.
Proof.
  intros Hm1 Hm2 Hmk H1 H2 Hc HB Ht HQ.
  cg_bind. eapply spec_mono; [by apply H1|]. intros r1 s1 Hs1. cg_bind. eapply spec_mono; [exact Hs1|]. intros v1 s2 R1.
  destruct (rvalue_next _ _ _ _ _ Hc HB Ht R1) as (Hc2 & HB2 & Ht2 & Hv1).
  cg_bind. eapply spec_mono; [by apply H2|]. intros r2 s3 Hs3. cg_bind. eapply spec_mono; [exact Hs3|]. intros v2 s4 R2.
  destruct (rvalue_next _ _ _ _ _ Hc2 HB2 Ht2 R2) as (Hc4 & HB4 & Ht4 & Hv2). apply HQ; [done..|].
  destruct R1 as (cs1 & E1 & _ & _ & X1), R2 as (cs2 & E2 & _ & _ & X2).
  exists (cs1 ++ cs2). split; [by eapply eff_trans|]. split; [by eapply val_known_eff|]. split; [done|].
  intros args ev ρ m w1 z1 w2 z2 Hm He1 He2. destruct (X1 args ev ρ m w1 z1 Hm He1) as (ρ1 & Hr1 & Hsame1 & Hh1).
  destruct (X2 args ev ρ1 m w2 z2) as (ρ2 & Hr2 & Hsame2 & Hh2); [by apply (var_match_same s s2 B cs1 ev ρ)|done|].
  exists ρ2. rewrite exec_insts_app, Hr1. simpl. split; [done|]. split; [by eapply same_but_trans|].
  split; [by apply (has_same args s2 s4 B cs2 ρ1)|done].
Qed.

(** Code appended behind other code. *)
Lemma exec_insts_2 args cs1 cs2 ρ m ρ1 m1 :
  exec_insts args cs1 ρ m = Some (ρ1, m1) → exec_insts args (cs1 ++ cs2) ρ m = exec_insts args cs2 ρ1 m1.
Proof. intros H1. by rewrite exec_insts_app, H1. Qed.

(** An instruction that leaves the result of the expression. *)
Lemma emit_result s s1 e B cs i t : is_alloc i = false →
  cur s1 = Some B → B ∈ Blocks (fn s1) → eff s s1 B cs → literal e = None →
  (∀ r args ev ρ m w z, var_match ev (scopes s) ρ m → eval ev e = Some (w, z) →
     ∃ ρ1, exec_insts args cs ρ m = Some (ρ1, m) ∧ same_but cs ρ ρ1 ∧ t = IntType w ∧
       exec_inst args r i ρ1 m = Some (<[r:=VInt w z]> ρ1, m)) →
  spec (emit t i) s1 (λ v0 s0, spec (loadIfVar v0) s0 (rvalue s e B)).
Proof.
  intros Hal Hc HB E Hlit X. apply (spec_emit _ _ _ B); [done..|]. intros r f E1 Hr.
  unfold loadIfVar. simpl. destruct t as [w0|t|].
  - apply spec_ret. exists (cs ++ [(r, i)]). split; [by eapply eff_trans|]. split; [done|]. split; [by rewrite Hlit|].
    intros args ev ρ m w z Hm He. destruct (X r args ev ρ m w z Hm He) as (ρ1 & Hr1 & Hsame & [= ->] & Hi).
    exists (<[r:=VInt w z]> ρ1). rewrite (exec_insts_2 _ _ _ _ _ _ _ Hr1). simpl. rewrite Hi. simpl. split; [done|].
    split; [eapply same_but_trans; [done|apply same_but_insert]|]. split; [done|]. simpl. rewrite decide_True by done. by rewrite lookup_insert_eq.
  - apply (spec_emit _ _ _ B); [done|done|by rewrite (ef_blocks _ _ _ _ E1)|]. intros r' f' E2 Hr'.
    eexists. split; [eapply eff_trans; [exact E|]; eapply eff_trans; [exact E1|exact E2]|]. split; [done|]. split; [by rewrite Hlit|].
    intros args ev ρ m w z Hm He. by destruct (X r args ev ρ m w z Hm He) as (ρ1 & _ & _ & [=] & _).
  - apply spec_ret. exists (cs ++ [(r, i)]). split; [by eapply eff_trans|]. split; [done|]. split; [by rewrite Hlit|].
    intros args ev ρ m w z Hm He. by destruct (X r args ev ρ m w z Hm He) as (ρ1 & _ & _ & [=] & _).
Qed.

Lemma both_sym s e1 e2 B v1 v2 s' : both s e1 e2 B v1 v2 s' → both s e2 e1 B v2 v1 s'.
Proof.
  intros (cs & E & H1 & H2 & X). exists cs. do 3 (split; [done|]). intros args ev ρ m w1 z1 w2 z2 Hm He1 He2.
  destruct (X args ev ρ m w2 z2 w1 z1 Hm He2 He1) as (ρ' & ? & ? & ? & ?). by exists ρ'.
Qed.
(** The code of two operands and of their extension. *)
Lemma both_joined s e1 e2 B v1 v2 s1 lr s2 :
  both s e1 e2 B v1 v2 s1 → joined v1 v2 s1 B lr s2 →
  ∃ cs, eff s s2 B cs ∧
    ∀ args ev ρ m w1 z1 w2 z2 w, var_match ev (scopes s) ρ m → eval ev e1 = Some (w1, z1) → eval ev e2 = Some (w2, z2) →
      join w1 w2 = Some w →
      ∃ ρ', exec_insts args cs ρ m = Some (ρ', m) ∧ same_but cs ρ ρ' ∧ has args ρ' lr.1 w z1 ∧ has args ρ' lr.2 w z2.
Proof.
  intros (cs1 & E1 & _ & _ & X1) (cs2 & E2 & _ & _ & X2). exists (cs1 ++ cs2). split; [by eapply eff_trans|].
  intros args ev ρ m w1 z1 w2 z2 w Hm He1 He2 Hj. destruct (X1 args ev ρ m w1 z1 w2 z2 Hm He1 He2) as (ρ1 & Hr1 & Hs1 & Hh1 & Hh2).
  destruct (X2 args ρ1 m w1 _ w2 _ Hh1 Hh2) as (ρ2 & wl & wr & Hr2 & Hs2 & Hl & Hr & Hw). destruct (Hw w Hj) as [-> ->]. exists ρ2.
  rewrite (exec_insts_2 _ _ _ _ _ _ _ Hr1). split; [done|]. split; [by eapply same_but_trans|]. done.
Qed.
Lemma joined_next v1 v2 s B lr s' : cur s = Some B → B ∈ Blocks (fn s) → joined v1 v2 s B lr s' →
  cur s' = Some B ∧ B ∈ Blocks (fn s').
Proof. intros Hc HB (cs & E & _). by rewrite (eff_cur_block _ _ _ _ E), (ef_blocks _ _ _ _ E). Qed.

Lemma computes_BinNode op l r m1 m2 : op ≠ TYPE_ASSIGN → mono m1 → mono m2 → computes m1 l → computes m2 r →
  computes (BinNode_calc op m1 m2) (BinNode op l r).
Proof.
  intros Hop Hm1 Hm2 H1 H2 s B Hc HB Ht. unfold BinNode_calc.
  apply (computes_pair m2 m1 r l s B); [done|done|mono_tac|done..|]. intros r1 v1 r2 v2 s1 Hc1 HB1 Ht1 Hb%both_sym.
  cg_bind. eapply spec_mono; [apply (join_operands _ _ _ B); [done|done|by destruct Hb as (? & _ & ? & _)|by destruct Hb as (? & _ & _ & ? & _)]|].
  intros [l' r'] s2 Hj. destruct (joined_next _ _ _ _ _ _ Hc1 HB1 Hj) as [Hc2 HB2].
  destruct (both_joined _ _ _ _ _ _ _ _ _ Hb Hj) as (cs & E & X). apply Z.eqb_neq in Hop. rewrite Hop.
  destruct (arith_op op) as [o|] eqn:Ho; [|by apply spec_panic].
  apply (emit_result s s2 _ B cs); [done..|]. intros rr args ev ρ m w z Hm He. simpl in He. rewrite Hop, Ho in He. simpl in He.
  destruct (eval ev l) as [[wl a]|] eqn:Hl; [|done]. destruct (eval ev r) as [[wr b]|] eqn:Hr; [|done]. simpl in He.
  destruct (join wl wr) as [w0|] eqn:Hw; [|done]. simpl in He. destruct (bin_int o w0 a b) as [z0|] eqn:Hz; [|done]. injection He as <- <-.
  destruct (X args ev ρ m wl a wr b w0 Hm Hl Hr Hw) as (ρ1 & Hx & Hsame & [Hl1 Hl2] & [Hr1 Hr2]). simpl in *.
  exists ρ1. do 3 (split; [done|]). cbn [exec_inst]. rewrite Hl1, Hl2, Hr2. simpl. rewrite decide_True by done. by rewrite Hz.
Qed.
Lemma computes_CompareNode op l r m1 m2 : mono m1 → mono m2 → computes m1 l → computes m2 r →
  computes (CompareNode_calc op m1 m2) (CompareNode op l r).
Proof.
  intros Hm1 Hm2 H1 H2 s B Hc HB Ht. unfold CompareNode_calc.
  apply (computes_pair m1 m2 l r s B); [done|done|mono_tac|done..|]. intros r1 v1 r2 v2 s1 Hc1 HB1 Ht1 Hb.
  cg_bind. eapply spec_mono; [apply (join_operands _ _ _ B); [done|done|by destruct Hb as (? & _ & ? & _)|by destruct Hb as (? & _ & _ & ? & _)]|].
  intros [l' r'] s2 Hj. destruct (joined_next _ _ _ _ _ _ Hc1 HB1 Hj) as [Hc2 HB2].
  destruct (both_joined _ _ _ _ _ _ _ _ _ Hb Hj) as (cs & E & X).
  destruct (Type_ l') eqn:Htl; try by apply spec_not_modelled. destruct (Type_ r') eqn:Htr; try by apply spec_not_modelled.
  destruct (comparedic op) as [p|] eqn:Ho; [|by apply spec_not_modelled].
  apply (emit_result s s2 _ B cs); [done..|]. intros rr args ev ρ m w z Hm He. simpl in He. rewrite Ho in He. simpl in He.
  destruct (eval ev l) as [[wl a]|] eqn:Hl; [|done]. destruct (eval ev r) as [[wr b]|] eqn:Hr; [|done]. simpl in He.
  destruct (join wl wr) as [w0|] eqn:Hw; [|done]. injection He as <- <-.
  destruct (X args ev ρ m wl a wr b w0 Hm Hl Hr Hw) as (ρ1 & Hx & Hsame & [Hl1 Hl2] & [Hr1 Hr2]). simpl in *.
  exists ρ1. do 3 (split; [done|]). cbn [exec_inst]. rewrite Hl1, Hl2, Hr2. simpl. by rewrite decide_True by done.
Qed.
Lemma computes_BoolExpNode op l r m1 m2 : mono m1 → mono m2 → computes m1 l → computes m2 r →
  computes (BoolExpNode_calc op m1 m2) (BoolExpNode op l r).
Proof.
  intros Hm1 Hm2 H1 H2 s B Hc HB Ht. unfold BoolExpNode_calc.
  apply (computes_pair m1 m2 l r s B); [done|done|mono_tac|done..|]. intros r1 v1 r2 v2 s1 Hc1 HB1 Ht1 (cs & E & _ & _ & X).
  apply (emit_result s s1 _ B cs); [done..|]. intros rr args ev ρ m w z Hm He. simpl in He.
  destruct (eval ev l) as [[wl a]|] eqn:Hl; [|done]. destruct (eval ev r) as [[wr b]|] eqn:Hr; [|done]. simpl in He.
  destruct (Z.eqb_spec wl 1) as [->|]; [|done]. destruct (Z.eqb_spec wr 1) as [->|]; [|done]. injection He as <- <-.
  destruct (X args ev ρ m _ a _ b Hm Hl Hr) as (ρ1 & Hx & Hsame & [Hl1 Hl2] & [Hr1 Hr2]).
  exists ρ1. do 3 (split; [done|]). cbn [exec_inst]. rewrite Hl1, Hl2, Hr2. simpl. by destruct (op =? TYPE_AND).
Qed.

(** A value that is taken over as it is. *)
Lemma rvalue_same s e e' B v s' : cur s' = Some B → B ∈ Blocks (fn s') →
  (∀ ev wz, eval ev e' = Some wz → eval ev e = Some wz) → (∀ z, literal e' = Some z → literal e = Some z) → rvalue s e B v s' →
  spec (loadIfVar v) s' (rvalue s e' B).
Proof.
  intros Hc HB He Hl (cs & E & Hv & Hlit & X). unfold loadIfVar. destruct (Type_ v) as [w0|t|] eqn:Hty.
  2: { apply (spec_emit _ _ _ B); [done..|]. intros r f E1 Hr. exists (cs ++ [(r, Load t v)]). split; [by eapply eff_trans|].
    split; [done|]. split.
    - intros z Hz%Hl. destruct (Hlit z Hz) as [w ->]. done.
    - intros args ev ρ m w z Hm Hz. apply (He ev) in Hz. destruct (X args ev ρ m w z Hm Hz) as (ρ' & _ & _ & [Ht _]). congruence. }
  all: apply spec_ret; exists cs; split; [done|]; split; [done|]; split; [intros z Hz%Hl; by apply Hlit|]; intros args ev ρ m w z Hm Hz; apply (He ev) in Hz; exact (X args ev ρ m w z Hm Hz).
Qed.
Lemma literal_eval ev e z : literal e = Some z → ∃ w z', eval ev e = Some (w, z').
Proof.
  revert z. induction e; intros z Hz; try done; simpl in *.
  - destruct Val; [by eexists _, _|done].
  - destruct (Op =? TYPE_PLUS); [eauto|done].
Qed.
Lemma check_one v s B : cur s = Some B → B ∈ Blocks (fn s) → val_known (fn s) v →
  spec (hasFloatType [v]) s (λ _ s', ∃ cs, eff s s' B cs ∧
    ∀ args ρ m w z, has args ρ v w z → ∃ ρ', exec_insts args cs ρ m = Some (ρ', m) ∧ same_but cs ρ ρ').
Proof.
  intros Hc HB Hv. unfold hasFloatType. destruct (forallb is_int [v]).
  - cbn [extend_all]. cg_bind. eapply spec_mono; [by eapply extend_one|]. intros v' s1 (cs & E & _ & X).
    cg_bind. do 2 apply spec_ret. exists cs. split; [done|]. intros args ρ m w z Hh.
    destruct (X args ρ m w _ Hh) as (ρ' & ? & ? & _); [|by exists ρ']. simpl. unfold BitSize_of. rewrite (proj1 Hh). lia.
  - apply spec_ret. exists []. split; [apply eff_refl|]. intros args ρ m w z _. by exists ρ.
Qed.

Lemma computes_UnaryNode op c m : mono m → computes m c → computes (UnaryNode_calc op m) (UnaryNode op c).
Proof.
  intros Hm1 H1 s B Hc HB Ht. unfold UnaryNode_calc. cg_bind. eapply spec_mono; [by apply H1|]. intros v0 s0 H0.
  cg_bind. eapply spec_mono; [exact H0|]. intros v s1 R. destruct (rvalue_next _ _ _ _ _ Hc HB Ht R) as (Hc1 & HB1 & Ht1 & Hv1).
  destruct (op =? TYPE_PLUS) eqn:Hp.
  - apply spec_ret. apply (rvalue_same s c); [done|done|intros ev wz; simpl; by rewrite Hp|intros z; simpl; by rewrite Hp|done].
  - destruct (op =? TYPE_SUB) eqn:Hsub; [|by apply spec_panic]. cg_bind. eapply spec_mono; [by apply check_one|].
    intros _ s2 (cs2 & E2 & X2). destruct R as (cs1 & E1 & _ & Hlit & X1).
    apply (emit_result s s2 _ B (cs1 ++ cs2)); [done|by rewrite (eff_cur_block _ _ _ _ E2)|by rewrite (ef_blocks _ _ _ _ E2)|by eapply eff_trans|simpl; by rewrite Hp|].
    intros r args ev ρ mm w z Hm He. simpl in He. rewrite Hp, Hsub in He.
    assert (∃ w1 z1, eval ev c = Some (w1, z1)) as (w1 & z1 & Hec).
    { destruct (literal c) as [zl|] eqn:Hl; [by eapply literal_eval|]. destruct (eval ev c) as [[w1 z1]|]; [by eexists _, _|done]. }
    destruct (X1 args ev ρ mm w1 z1 Hm Hec) as (ρ1 & Hr1 & Hs1 & Hh1). destruct (X2 args ρ1 mm w1 z1 Hh1) as (ρ2 & Hr2 & Hs2).
    exists ρ2. rewrite (exec_insts_2 _ _ _ _ _ _ _ Hr1). split; [done|]. split; [by eapply same_but_trans|].
    destruct (literal c) as [zl|] eqn:Hl.
    + injection He as <- <-. split; [done|]. destruct (Hlit zl eq_refl) as [w0 ->]. done.
    + rewrite Hec in He. simpl in He. destruct (Z.eqb_spec w1 32) as [->|]; [|done]. injection He as <- <-. split; [done|].
      assert (has args ρ2 v 32 z1) as [_ Hop] by (by apply (has_same args s1 s2 B cs2 ρ1)). cbn [exec_inst]. simpl Type_. cbn iota. rewrite Hop. done.
Qed.
Lemma computes_NotNode c m : mono m → computes m c → computes (NotNode_calc m) (NotNode c).
Proof.
  intros Hm1 H1 s B Hc HB Ht. unfold NotNode_calc. cg_bind. eapply spec_mono; [by apply H1|]. intros v0 s0 H0.
  cg_bind. eapply spec_mono; [exact H0|]. intros v s1 R. destruct (rvalue_next _ _ _ _ _ Hc HB Ht R) as (Hc1 & HB1 & Ht1 & Hv1).
  destruct R as (cs & E & _ & _ & X). apply (emit_result s s1 _ B cs); [done..|].
  intros r args ev ρ mm w z Hm He. simpl in He. destruct (eval ev c) as [[w1 z1]|] eqn:Hec; [|done]. simpl in He.
  destruct (Z.eqb_spec w1 1) as [->|]; [|done]. injection He as <- <-.
  destruct (X args ev ρ mm _ z1 Hm Hec) as (ρ1 & Hr1 & Hs1 & [Ht2 Hop]). exists ρ1. do 3 (split; [done|]).
  cbn [exec_inst]. rewrite Ht2, Hop. simpl. done.
Qed.

(** ** Assignments *)

Lemma cast_spec v t s B : cur s = Some B → B ∈ Blocks (fn s) → val_known (fn s) v →
  spec (implicitCast v t) s (λ v' s', ∃ cs, eff s s' B cs ∧ val_known (fn s') v' ∧ Type_ v' = t ∧
    ∀ args ρ m w z, has args ρ v w z →
      ∃ ρ' w', exec_insts args cs ρ m = Some (ρ', m) ∧ same_but cs ρ ρ' ∧ t = IntType w' ∧ has args ρ' v' w' z).
Proof.
  intros Hc HB Hv. unfold implicitCast. case_decide as Hd.
  - apply spec_ret. exists []. split; [apply eff_refl|]. do 2 (split; [done|]). intros args ρ m w z Hh.
    exists ρ, w. do 2 (split; [done|]). split; [|done]. rewrite <- Hd. apply Hh.
  - destruct (Type_ v) as [w| |] eqn:Hty, t as [w'| |]; try apply spec_not_modelled; try apply spec_panic.
    destruct (w' <? w) eqn:Hlt; [apply spec_panic|]. apply Z.ltb_ge in Hlt.
    apply (spec_emit _ _ _ B); [done..|]. intros r f E Hr. eexists. split; [done|]. do 2 (split; [done|]).
    intros args ρ m w0 z [Hw0 Hop]. rewrite Hty in Hw0. injection Hw0 as <-.
    eexists _, w'. simpl. rewrite Hty, Hop. simpl. rewrite decide_True by (destruct (decide (w = w')); [congruence|lia]).
    split; [done|]. split; [apply same_but_insert|]. do 2 (split; [done|]). simpl. rewrite decide_True by done. by rewrite lookup_insert_eq.
Qed.
Lemma store_spec r l s B : cur s = Some B → B ∈ Blocks (fn s) →
  spec (store r l) s (λ v s', v = l ∧ ∃ i, eff s s' B [(i, Store r l)] ∧ Type_ l = PointerType (Type_ r)).
Proof.
  intros Hc HB. unfold store. destruct (Type_ l) as [|t|] eqn:Hl; try apply spec_panic. case_decide as Hd; [|apply spec_panic].
  cg_bind. apply spec_cur_block. intros b Hb. assert (b = B) as -> by congruence.
  cg_bind. apply spec_emit_at. intros i f Hn. apply spec_ret. split; [done|]. exists i. rewrite Hd. split; [by apply eff_emit|done].
Qed.

(** The conversion of the value and the store. *)
Definition assign_code s B (r lptr : value) s' : Prop :=
  ∃ cs t, eff s s' B cs ∧ Type_ lptr = PointerType t ∧
    ∀ args ρ m w z p c, val_known (fn s) lptr → has args ρ r w z → operand args ρ (Type_ lptr) lptr = Some (VPtr p) → m !! p = Some c →
      ∃ ρ' w', t = IntType w' ∧ exec_insts args cs ρ m = Some (ρ', <[p:=VInt w' z]> m) ∧ same_but cs ρ ρ'.
Lemma cast_store_spec r t lptr s B : cur s = Some B → B ∈ Blocks (fn s) → val_known (fn s) r →
  Type_ lptr = PointerType t →
  spec (r1 ← implicitCast r t; store r1 lptr) s (λ v s', v = lptr ∧ assign_code s B r lptr s').
Proof.
  intros Hc HB Hr Ht. cg_bind. eapply spec_mono; [by apply cast_spec|]. intros r1 s1 (cs & E & Hr1 & Htr1 & X).
  eapply spec_mono; [apply (store_spec _ _ _ B)|].
  { by rewrite (eff_cur_block _ _ _ _ E). }
  { by rewrite (ef_blocks _ _ _ _ E). }
  intros v s2 (-> & i & E2 & Hti). split; [done|]. exists (cs ++ [(i, Store r1 lptr)]), t. split; [by eapply eff_trans|]. split; [done|].
  intros args ρ m w z p c Hl Hh Hp Hm. destruct (X args ρ m w z Hh) as (ρ1 & w' & Hx & Hsame & -> & Hh1).
  exists ρ1, w'. split; [done|]. rewrite exec_insts_app, Hx. simpl. rewrite Htr1, (proj2 Hh1). simpl.
  rewrite <- Ht, (operand_same args s s1 B cs ρ ρ1), Hp, Hm by done. simpl. split; [done|].
  intros r' Hr'. apply Hsame. rewrite fmap_app, not_elem_of_app in Hr'. naive_solver.
Qed.

Lemma computes_assign l r m1 m2 : mono m1 → mono m2 → computes m1 l → computes m2 r →
  computes (BinNode_calc TYPE_ASSIGN m1 m2) (BinNode TYPE_ASSIGN l r).
Proof.
  intros Hm1 Hm2 H1 H2 s B Hc HB Ht. unfold BinNode_calc.
  apply (computes_pair m2 m1 r l s B); [done|done|mono_tac|done..|]. intros r1 v1 r2 v2 s1 Hc1 HB1 Ht1 (cs1 & E1 & Hv1 & Hv2 & _).
  cg_bind. eapply spec_mono; [by apply (join_operands _ _ _ B)|]. intros [l' r'] s2 Hj.
  destruct (joined_next _ _ _ _ _ _ Hc1 HB1 Hj) as [Hc2 HB2]. destruct Hj as (cs2 & E2 & Hl' & Hr' & _).
  destruct (Type_ r2) as [|t|] eqn:Ht2; simpl; rewrite ?Ht2; try apply spec_panic.
  assert (spec (x ← (r1 ← implicitCast r' t; store r1 r2); mret zero) s2 (λ v0 s0, spec (loadIfVar v0) s0 (rvalue s (BinNode TYPE_ASSIGN l r) B))) as Hq.
  { cg_bind. eapply spec_mono; [by apply (cast_store_spec r' t r2 s2 B)|]. intros v s3 (-> & cs3 & t' & E3 & _).
    apply spec_ret, load_int; [done|]. eexists. split; [eapply eff_trans; [exact E1|eapply eff_trans; [exact E2|exact E3]]|]. done. }
  intros v s' Hr He. apply (Hq v s'); [|done]. rewrite <- Hr. unfold mbind, CG_bind. by destruct (implicitCast r' t s2) as [[?| |] ?].
Qed.
Lemma cell_val w v c : cell w v c → ∃ o, c = val_of w o.
Proof. destruct v as [z|]; [intros ->; by exists (Some z)|]. intros [-> |[z ->]]; [by exists None|by exists (Some z)]. Qed.
(** An assignment to a variable stores the value in the cell of the variable. *)
Lemma assign_var x p0 r m2 s B : mono m2 → computes m2 r → cur s = Some B → B ∈ Blocks (fn s) → tab_known s →
  spec (BinNode_calc TYPE_ASSIGN (VarBlockNode_calc Pkgname (mk_VarBlockNode x [] None p0)) m2) s (λ _ s', ∃ cs, eff s s' B cs ∧
    ∀ args ev ρ m w z w1 v1, var_match ev (scopes s) ρ m → eval ev r = Some (w, z) → env_lookup x ev = Some (w1, v1) →
      ∃ y rg p ρ', full x = Some y ∧ search y (scopes s) = Some (Inst rg (PointerType (IntType w1))) ∧ ρ !! rg = Some (VPtr p) ∧
        exec_insts args cs ρ m = Some (ρ', <[p:=VInt w1 z]> m) ∧ same_but cs ρ ρ').
Proof.
  intros Hm2 H2 Hc HB Ht. unfold BinNode_calc. cg_bind. eapply spec_mono; [by apply H2|]. intros r0 s0 H0.
  cg_bind. eapply spec_mono; [exact H0|]. intros v s1 R. destruct (rvalue_next _ _ _ _ _ Hc HB Ht R) as (Hc1 & HB1 & Ht1 & Hv1).
  destruct R as (cs1 & E1 & _ & _ & X1).
  cg_bind. simpl. unfold searchVar. cg_bind; [|].
  { intros s2 r1 s3. by destruct (search _ _); intros [= <- <-]. }
  apply spec_full. intros y Hy v0 s2 Hv0 _. destruct (search y (scopes s1)) as [rawL|] eqn:Hs; [|done]. injection Hv0 as <- <-.
  rewrite (ef_scopes _ _ _ _ E1) in Hs.
  assert (val_known (fn s1) rawL) as HkL by (eapply Ht1; by rewrite (ef_scopes _ _ _ _ E1)).
  cg_bind. unfold loadIfVar. destruct (Type_ rawL) as [wL|t|] eqn:HtL.
  1, 3: apply spec_ret; cg_bind; eapply spec_mono; [apply (join_operands _ _ _ B); done|]; intros [l' r'] s3 _; simpl; apply spec_panic.
  apply (spec_emit _ _ _ B); [done..|]. intros rl f E2 Hkl. set (s2 := set_fn f s1) in *.
  assert (cur s2 = Some B) as Hc2 by by rewrite (eff_cur_block _ _ _ _ E2).
  assert (B ∈ Blocks (fn s2)) as HB2 by by rewrite (ef_blocks _ _ _ _ E2).
  cg_bind. eapply spec_mono; [apply (join_operands _ _ _ B); [done..|by eapply val_known_eff]|]. intros [l' r'] s3 Hj.
  destruct (joined_next _ _ _ _ _ _ Hc2 HB2 Hj) as [Hc3 HB3]. destruct Hj as (cs3 & E3 & Hkl' & Hkr' & X3). simpl in Hkr', X3.
  simpl.
  assert (spec (_ ← (r1 ← implicitCast r' t; store r1 rawL); mret zero) s3 (λ _ s', ∃ cs4, eff s3 s' B cs4 ∧ assign_code s3 B r' rawL s')) as Hq.
  { cg_bind. eapply spec_mono; [by apply (cast_store_spec r' t rawL s3 B)|]. intros v3 s4 (-> & A). apply spec_ret. pose proof A as A'.
    destruct A as (cs4 & t' & E4 & _). by exists cs4. }
  intros v' s' Hr He. destruct (Hq v' s') as (_ & _ & cs4 & t' & E4 & Htt' & X4); [|done|].
  { rewrite <- Hr. unfold mbind, CG_bind. by destruct (implicitCast r' t s3) as [[?| |] ?]. }
  exists (cs1 ++ [(rl, Load t rawL)] ++ cs3 ++ cs4). split; [eapply eff_trans; [exact E1|]; eapply eff_trans; [exact E2|]; by eapply eff_trans|].
  intros args ev ρ m w z w1 v1 Hm Hev Hx. destruct (Hm x w1 v1 Hx) as (y' & rg & p & c & Hy' & Hs' & Hrg & Hp & Hcell).
  assert (y' = y) as -> by congruence. assert (rawL = Inst rg (PointerType (IntType w1))) as -> by congruence. simpl in HtL. injection HtL as <-.
  destruct (X1 args ev ρ m w z Hm Hev) as (ρ1 & Hx1 & Hs1 & Hv). destruct (cell_val _ _ _ Hcell) as [o ->].
  assert (∀ s' cs ρ', eff s s' B cs → same_but cs ρ ρ' → ρ' !! rg = Some (VPtr p)) as Hrg'.
  { intros s4 cs ρ' E Hsame. rewrite Hsame; [done|]. intros Hin. eapply (ef_new _ _ _ _ E); [exact Hin|]. by eapply Ht. }
  pose proof (Hrg' _ _ _ E1 Hs1) as Hrg1.
  set (ρ2 := <[rl:=val_of w1 o]> ρ1). assert (same_but (cs1 ++ [(rl, Load (IntType w1) (Inst rg (PointerType (IntType w1))))]) ρ ρ2) as Hs2.
  { eapply same_but_trans; [exact Hs1|apply same_but_insert]. }
  destruct (X3 args ρ2 m w1 o w (Some z)) as (ρ3 & wl & wr & Hx3 & Hs3 & _ & Hr3 & _).
  { split; [done|]. simpl. rewrite decide_True by done. unfold ρ2. by rewrite lookup_insert_eq. }
  { eapply has_same; [exact E2|apply same_but_insert|exact Hv1|exact Hv]. }
  pose proof (eff_trans _ _ _ _ _ _ E1 E2) as E12. pose proof (eff_trans _ _ _ _ _ _ E12 E3) as E13.
  assert (ρ3 !! rg = Some (VPtr p)) as Hrg3 by (eapply Hrg'; [exact E13|by eapply same_but_trans]).
  destruct (X4 args ρ3 m wr z p (val_of w1 o)) as (ρ4 & w' & Ht' & Hx4 & Hs4).
  { eapply val_known_eff; [exact E3|]. eapply val_known_eff; [exact E2|exact HkL]. }
  { done. }
  { simpl. by rewrite decide_True. }
  { done. }
  simpl in Htt'. injection Htt' as <-. injection Ht' as <-.
  exists y, rg, p, ρ4. do 3 (split; [done|]). split; [|eapply same_but_trans; [exact Hs1|]; eapply same_but_trans; [apply same_but_insert|]; eapply same_but_trans; [exact Hs3|exact Hs4]].
  rewrite (exec_insts_2 _ _ _ _ _ _ _ Hx1). rewrite (exec_insts_2 _ _ _ ρ1 m ρ2 m).
  - by rewrite (exec_insts_2 _ _ _ _ _ _ _ Hx3).
  - simpl. rewrite decide_True by done. rewrite Hrg1. simpl. by rewrite Hp.
Qed.
Lemma computes_TakeValNode level c m : mono m → computes m c → computes (TakeValNode_calc level m) (TakeValNode level c).
Proof.
  intros Hm H1. induction level as [|level IH]; intros s B Hc HB Ht; simpl.
  - eapply spec_mono; [by apply H1|]. intros v0 s0 H0. eapply spec_mono; [exact H0|]. intros v s1 (cs & E & Hv & _ & X). by exists cs.
  - pose proof (mono_TakeValNode level m Hm) as Hml. cg_bind. eapply spec_mono; [by apply IH|]. intros v0 s0 H0.
    unfold loadIfVar in H0. destruct (Type_ v0); try apply spec_panic. eapply spec_mono; [exact H0|]. intros v s1 R.
    destruct (rvalue_next _ _ _ _ _ Hc HB Ht R) as (Hc1 & HB1 & _ & _). by apply (rvalue_same s (TakeValNode level c)).
Qed.
(** The code of every expression computes what [eval] says. *)
Lemma exp_computes e : computes (ExpNode_calc e) e.
Proof.
  revert e. fix IH 1. intros e. destruct e; cbn [Codegen.ExpNode_calc]; try (intros s B _ _ _; apply spec_not_modelled).
  - destruct (decide (Op = TYPE_ASSIGN)) as [->|Hop].
    + apply computes_assign; [apply mono_exp..|apply IH|apply IH].
    + apply computes_BinNode; [done|apply mono_exp..|apply IH|apply IH].
  - destruct Val; [apply computes_number|intros s B _ _ _; apply spec_not_modelled].
  - apply computes_UnaryNode; [apply mono_exp|apply IH].
  - apply computes_var.
  - apply computes_bool.
  - apply computes_CompareNode; [apply mono_exp..|apply IH|apply IH].
  - apply computes_BoolExpNode; [apply mono_exp..|apply IH|apply IH].
  - apply computes_NotNode; [apply mono_exp|apply IH].
  - apply computes_TakeValNode; [apply mono_exp|apply IH].
Qed.
Lemma exp_rvalue e s B : cur s = Some B → B ∈ Blocks (fn s) → tab_known s →
  spec (v ← ExpNode_calc e; loadIfVar v) s (rvalue s e B).
Proof. intros Hc HB Ht. cg_bind. by apply exp_computes. Qed.

(** ** All code of an expression goes to the current block *)
Definition appends {A} (m : CG A) : Prop := mono m ∧ ∀ s B, cur s = Some B → B ∈ Blocks (fn s) →
  spec m s (λ _ s', ∃ cs, eff s s' B cs).
Lemma appends_keep {A} (m : CG A) : mono m → (∀ s, spec m s (λ _ s', s' = s)) → appends m.
Proof. intros Hm Hs. split; [done|]. intros s B _ _. eapply spec_mono; [apply Hs|]. intros _ s' ->. exists []. apply eff_refl. Qed.
Lemma appends_ret {A} (a : A) : appends (mret a).
Proof. apply appends_keep; [apply mono_ret|]. intros s. by apply spec_ret. Qed.
Lemma appends_bind {A C} (m : CG A) (k : A → CG C) : appends m → (∀ a, appends (k a)) → appends (m ≫= k).
Proof.
  intros [Hm Hs] Hk. split; [apply mono_bind; [done|]; intros a; apply Hk|]. intros s B Hc HB.
  apply spec_bind; [done|intros a; apply Hk|]. eapply spec_mono; [by apply Hs|]. intros a s1 (cs1 & E1).
  eapply spec_mono; [apply (proj2 (Hk a) s1 B)|].
  { by rewrite (eff_cur_block _ _ _ _ E1). }
  { by rewrite (ef_blocks _ _ _ _ E1). }
  intros c s2 (cs2 & E2). eexists. by eapply eff_trans.
Qed.
Lemma appends_emit t i : is_alloc i = false → appends (emit t i).
Proof. intros Hi. split; [apply mono_emit|]. intros s B Hc HB. apply (spec_emit _ _ _ B); [done..|]. intros r f E _. by eexists. Qed.
Lemma appends_panic {A} : appends (panic (A:=A)).
Proof. by apply appends_keep; [apply mono_panic|]. Qed.
Lemma appends_not_modelled {A} : appends (not_modelled (A:=A)).
Proof. by apply appends_keep; [apply mono_not_modelled|]. Qed.
Lemma appends_getFullName x : appends (getFullName Pkgname x).
Proof. apply appends_keep; [apply mono_getFullName|]. intros s. by apply spec_full. Qed.
Lemma appends_searchVar x : appends (searchVar Pkgname x).
Proof.
  unfold searchVar. apply appends_bind; [apply appends_getFullName|]. intros y. apply appends_keep.
  - intros s r s'. by destruct (search _ _); intros [= <- <-].
  - intros s a s'. by destruct (search _ _); intros [= <- <-].
Qed.
Lemma appends_loadIfVar v : appends (loadIfVar v).
Proof. unfold loadIfVar. destruct (Type_ v); [apply appends_ret|by apply appends_emit|apply appends_ret]. Qed.
Lemma appends_extend_all w ts : appends (extend_all w ts).
Proof.
  induction ts as [|v ts IH]; [apply appends_ret|]. simpl. apply appends_bind; [destruct (_ =? _); [apply appends_ret|by apply appends_emit]|].
  intros v'. apply appends_bind; [done|]. intros re. apply appends_ret.
Qed.
Lemma appends_hasFloatType ts : appends (hasFloatType ts).
Proof. unfold hasFloatType. destruct (forallb _ _); [apply appends_extend_all|apply appends_ret]. Qed.
Lemma appends_hasFloatType2 l r : appends (hasFloatType2 l r).
Proof.
  unfold hasFloatType2. apply appends_bind; [apply appends_hasFloatType|]. intros re.
  destruct re as [|? [|? [|]]]; first [apply appends_ret|apply appends_panic].
Qed.
Lemma appends_implicitCast v t : appends (implicitCast v t).
Proof.
  unfold implicitCast. case_decide; [apply appends_ret|]. destruct (Type_ v), t; try apply appends_not_modelled; try apply appends_panic.
  destruct (_ <? _); [apply appends_panic|by apply appends_emit].
Qed.
Lemma appends_store r l : appends (store r l).
Proof.
  split; [apply mono_store|]. intros s B Hc HB. eapply spec_mono; [by apply store_spec|]. intros v s' (_ & i & E & _). by eexists.
Qed.
End exp.

Create HintDb cg_appends.
#[export] Hint Resolve appends_ret appends_panic appends_not_modelled appends_getFullName appends_searchVar appends_loadIfVar
  appends_hasFloatType appends_hasFloatType2 appends_implicitCast appends_store : cg_appends.
Ltac appends_tac :=
  repeat first
    [ assumption
    | solve [eauto 2 with cg_appends nocore]
    | apply appends_emit; reflexivity
    | apply appends_bind; [|intros ?]
    | progress intros
    | case_match ].
Section exp_appends.
Context `{Llir} (Pkgname : text).
Lemma appends_TakeValNode level m : appends m → appends (TakeValNode_calc level m).
Proof. intros Hm. induction level as [|level IH]; [done|]. simpl. appends_tac. Qed.
Lemma exp_appends e : appends (ExpNode_calc Pkgname e).
Proof.
  revert e. fix IH 1. intros e. destruct e; cbn [Codegen.ExpNode_calc]; try (apply appends_not_modelled).
  - pose proof (IH e1). pose proof (IH e2). unfold BinNode_calc. appends_tac.
  - destruct Val; [apply appends_ret|apply appends_not_modelled].
  - pose proof (IH e). unfold UnaryNode_calc. appends_tac.
  - unfold VarBlockNode_calc. appends_tac.
  - apply appends_ret.
  - pose proof (IH e1). pose proof (IH e2). unfold CompareNode_calc. appends_tac.
  - pose proof (IH e1). pose proof (IH e2). unfold BoolExpNode_calc. appends_tac.
  - pose proof (IH e). unfold NotNode_calc. appends_tac.
  - apply appends_TakeValNode, IH.
Qed.
End exp_appends.
