(* ===== verification/CodegenExt.v ===== *)
(** * How code generation extends a function

    [ext e M f f']: the function [f] has become [f']; of the blocks of [f] only
    those in [M] got code or another terminator, but allocations are appended to
    the first block [e].  Every call of the generator extends the function at
    the current block only, and leaves it or a new block as the current one. *)
From S2P Require Import Prelude Lexer Ast Escape Ir Codegen CodegenSem CodegenFrame CodegenExp.

Section ext.
Context `{Llir}.
Implicit Types (s : cg) (f : Func) (M : nat → Prop).

(** ** Extensions *)

Definition allocs (l : list (nat * inst)) : Prop := Forall (λ x, is_alloc x.2 = true) l.
Record agree (e : nat) f f' (b : nat) : Prop := mk_agree {
  ag_term : Term f' b = Term f b;
  ag_insts : ∃ al, Insts f' b = Insts f b ++ al ∧ allocs al ∧ (b = e ∨ al = []);
}.
Record ext (e : nat) M f f' : Prop := mk_ext {
  ex_blocks : Blocks f `prefix_of` Blocks f';
  ex_agree : ∀ b, b ∈ Blocks f → ¬ M b → agree e f f' b;
  ex_insts : ∀ b, b ∈ Blocks f → Insts f b `prefix_of` Insts f' b;
  ex_uniq : uniq f → uniq f';
}.
Lemma agree_refl e f b : agree e f f b.
Proof. split; [done|]. exists []. rewrite app_nil_r. split; [done|]. split; [constructor|by right]. Qed.
Lemma agree_trans e f f1 f2 b : agree e f f1 b → agree e f1 f2 b → agree e f f2 b.
Proof.
  intros [T1 (a1 & I1 & A1 & H1)] [T2 (a2 & I2 & A2 & H2)]. split; [congruence|]. exists (a1 ++ a2).
  rewrite I2, I1, (assoc_L (++)). split; [done|]. split; [by apply Forall_app|]. destruct H1 as [| ->]; [by left|]. destruct H2 as [| ->]; [by left|by right].
Qed.
Lemma ext_refl e M f : ext e M f f.
Proof. split; [done|intros; apply agree_refl|done|done]. Qed.
Lemma ext_in e M f f' b : ext e M f f' → b ∈ Blocks f → b ∈ Blocks f'.
Proof. intros X Hb. destruct (ex_blocks _ _ _ _ X) as [k ->]. apply elem_of_app. by left. Qed.
Lemma ext_trans e M1 M2 M f f1 f2 : ext e M1 f f1 → ext e M2 f1 f2 →
  (∀ b, b ∈ Blocks f → M1 b → M b) → (∀ b, b ∈ Blocks f → M2 b → M b) → ext e M f f2.
Proof.
  intros X1 X2 H1 H2. split.
  - etrans; [by eapply ex_blocks|by eapply ex_blocks].
  - intros b Hb HM. eapply agree_trans; [eapply ex_agree; [done|done|naive_solver]|]. eapply ex_agree; [done|by eapply ext_in|naive_solver].
  - intros b Hb. etrans; [by eapply ex_insts|]. eapply ex_insts; [done|by eapply ext_in].
  - intros Hu. eapply ex_uniq; [done|]. by eapply ex_uniq.
Qed.
Lemma ext_weaken e M M' f f' : ext e M f f' → (∀ b, b ∈ Blocks f → M b → M' b) → ext e M' f f'.
Proof. intros X HM. eapply ext_trans; [exact X|apply (ext_refl e M)|done|done]. Qed.
Lemma ext_step e M M' f f1 f2 : ext e M f f1 → ext e M' f1 f2 → (∀ b, b ∈ Blocks f → M' b → M b) → ext e M f f2.
Proof. intros X1 X2 HM. by eapply ext_trans. Qed.
Lemma ext_step0 e M f f1 f2 : ext e M f f1 → ext e (λ _, False) f1 f2 → ext e M f f2.
Proof. intros X1 X2. by eapply ext_step. Qed.
Lemma ext_term e M f f' b : ext e M f f' → b ∈ Blocks f → ¬ M b → Term f' b = Term f b.
Proof. intros X Hb HM. by destruct (ex_agree _ _ _ _ X b Hb HM). Qed.
Lemma ext_same e M f f' b : ext e M f f' → b ∈ Blocks f → ¬ M b → b ≠ e → Insts f' b = Insts f b.
Proof. intros X Hb HM He. destruct (ex_agree _ _ _ _ X b Hb HM) as [_ (al & -> & _ & [-> | ->])]; [done|]. by rewrite app_nil_r. Qed.
Lemma ext0_term e f f' b : ext e (λ _, False) f f' → b ∈ Blocks f → Term f' b = Term f b.
Proof. intros X Hb. by apply (ext_term e (λ _, False)); [| |intros []]. Qed.
Lemma ext0_same e f f' b : ext e (λ _, False) f f' → b ∈ Blocks f → b ≠ e → Insts f' b = Insts f b.
Proof. intros X Hb. by apply (ext_same e (λ _, False)); [| |intros []]. Qed.
Lemma ext_head e M f f' b : ext e M f f' → head (Blocks f) = Some b → head (Blocks f') = Some b.
Proof. intros X. destruct (ex_blocks _ _ _ _ X) as [k ->]. by destruct (Blocks f). Qed.

(** *** The operations of the library *)

Lemma ext_inst e b i r f f' : NewInst f b i = (r, f') → b ∈ Blocks f → ext e (λ b', b' = b) f f'.
Proof.
  intros Hn Hb. destruct (NewInst_spec _ _ _ _ _ Hn Hb) as (_ & Hbl & Hcur & Hoth & Ht). split.
  - by rewrite Hbl.
  - intros b' Hb' Hne. split; [done|]. exists []. rewrite app_nil_r. split; [by apply Hoth|]. split; [constructor|by right].
  - intros b' Hb'. destruct (decide (b' = b)) as [->|Hne]; [rewrite Hcur; by eexists|by rewrite Hoth].
  - by eapply NewInst_uniq.
Qed.
Lemma ext_alloc e i r f f' : NewInst f e i = (r, f') → e ∈ Blocks f → is_alloc i = true → ext e (λ _, False) f f'.
Proof.
  intros Hn Hb Hi. destruct (ext_inst e e i r f f' Hn Hb) as [X1 X2 X3 X4]. split; [done| |done|done].
  intros b' Hb' _. destruct (decide (b' = e)) as [->|Hne]; [|by apply X2].
  destruct (NewInst_spec _ _ _ _ _ Hn Hb) as (_ & Hbl & Hcur & Hoth & Ht). split; [done|]. eexists. split; [done|].
  split; [by repeat constructor|by left].
Qed.
Lemma ext_block e b f f' : NewBlock f = (b, f') → ext e (λ _, False) f f' ∧ b ∉ Blocks f ∧ b ∈ Blocks f' ∧ Insts f' b = [] ∧ Term f' b = None.
Proof.
  intros Hn. destruct (NewBlock_spec _ _ _ Hn) as (Hb & Hbl & Hi & Ht & Hoth).
  split; [|split; [done|]; split; [rewrite Hbl; set_solver|done]].
  assert (∀ b', b' ∈ Blocks f → Insts f' b' = Insts f b' ∧ Term f' b' = Term f b') as Hold by (intros b' Hb'; apply Hoth; set_solver).
  split.
  - rewrite Hbl. by eexists.
  - intros b' Hb' _. destruct (Hold b' Hb') as [Hi' Ht']. split; [done|]. exists []. rewrite app_nil_r. split; [done|]. split; [constructor|by right].
  - intros b' Hb'. by rewrite (proj1 (Hold b' Hb')).
  - intros Hu r b1 k1 i1 b2 k2 i2. rewrite Hbl. intros [H1|H1%list_elem_of_singleton]%elem_of_app [H2|H2%list_elem_of_singleton]%elem_of_app; subst.
    + rewrite (proj1 (Hold _ H1)), (proj1 (Hold _ H2)). by eapply Hu.
    + by rewrite Hi.
    + by rewrite Hi.
    + by rewrite Hi.
Qed.
Lemma ext_set_term e b t f : b ∈ Blocks f → ext e (λ b', b' = b) f (SetTerm f b t).
Proof.
  intros Hb. destruct (SetTerm_spec f b t Hb) as (Hbl & _ & Hi & Ht). split.
  - by rewrite Hbl.
  - intros b' Hb' Hne. split; [by apply Ht|]. exists []. rewrite app_nil_r, Hi. split; [done|]. split; [constructor|by right].
  - intros b' Hb'. by rewrite Hi.
  - intros Hu r b1 k1 i1 b2 k2 i2. rewrite Hbl, !Hi. apply Hu.
Qed.
Lemma set_term_term b t f : b ∈ Blocks f → Term (SetTerm f b t) b = Some t.
Proof. intros Hb. apply (SetTerm_spec f b t Hb). Qed.
Lemma eff_ext e s s' B cs : eff s s' B cs → ext e (λ b, b = B) (fn s) (fn s').
Proof.
  intros E. split.
  - by rewrite (ef_blocks _ _ _ _ E).
  - intros b Hb Hne. split; [apply (ef_term _ _ _ _ E)|]. exists []. rewrite app_nil_r. split; [by apply (ef_other _ _ _ _ E)|]. split; [constructor|by right].
  - intros b Hb. destruct (decide (b = B)) as [->|Hne]; [rewrite (ef_cur _ _ _ _ E); by eexists|by rewrite (ef_other _ _ _ _ E)].
  - apply (ef_uniq _ _ _ _ E).
Qed.
End ext.

(** ** Runs of the generator without a panic or an error *)

Section runs.
Context `{Llir}.
Implicit Types (s : cg).

Definition runs {A} (m : CG A) s (a : A) s' : Prop := m s = (Ok a, s') ∧ errn s' = errn s.
Lemma spec_runs {A} (m : CG A) s Q a s' : spec m s Q → runs m s a s' → Q a s'.
Proof. intros Hs [Hr He]. by apply Hs. Qed.
Lemma runs_spec {A} (m : CG A) s (Q : A → cg → Prop) : (∀ a s', runs m s a s' → Q a s') → spec m s Q.
Proof. intros HQ a s' Hr He. by apply HQ. Qed.
End runs.

(** What [spec] says of a run. *)
Ltac by_spec H :=
  match type of H with runs _ _ ?a ?s' => pattern a, s'; eapply spec_runs; [|exact H]; clear H end.

Section runs_rules.
Context `{Llir}.
Implicit Types (s : cg).

Lemma cg_runs_bind {A B} (m : CG A) (k : A → CG B) s b s' : mono m → (∀ a, mono (k a)) → runs (m ≫= k) s b s' →
  ∃ a s1, runs m s a s1 ∧ runs (k a) s1 b s'.
Proof.
  intros Hm Hk Hr. by_spec Hr. apply spec_bind; [done..|]. apply runs_spec. intros a s1 H1. apply runs_spec. intros b' s2 H2.
  by exists a, s1.
Qed.
Lemma cg_runs_ret {A} (a : A) s b s' : runs (mret a) s b s' → b = a ∧ s' = s.
Proof. by intros [[= <- <-] _]. Qed.
Lemma runs_cur_block s b s' : runs cur_block s b s' → cur s = Some b ∧ s' = s.
Proof.
  intros Hr. by_spec Hr. apply spec_cur_block. intros b' Hb. done.
Qed.
Lemma runs_new_block s b s' : runs new_block s b s' → NewBlock (fn s) = (b, fn s') ∧ scopes s' = scopes s.
Proof. intros Hr. by_spec Hr. apply spec_new_block. by intros b' f Hf. Qed.
Lemma runs_set_term b t s u s' : runs (set_term b t) s u s' → fn s' = SetTerm (fn s) b t ∧ scopes s' = scopes s.
Proof. intros Hr. by_spec Hr. apply spec_set_term. done. Qed.
Lemma runs_scope_mod g s u s' : runs (scope_mod g) s u s' → fn s' = fn s ∧ ∃ sc l, scopes s = sc :: l ∧ scopes s' = g sc :: l.
Proof. intros Hr. by_spec Hr. apply spec_scope_mod. intros sc l Hl. split; [done|]. by exists sc, l. Qed.
Lemma runs_in_child {A} b (m : CG A) s a s' : runs (in_child b m) s a s' → ∃ sc l s1, scopes s = sc :: l ∧
  runs m (set_scopes (addChildScope b sc :: sc :: l) s) a s1 ∧ s' = set_scopes (tail (scopes s1)) s1.
Proof.
  intros Hr. by_spec Hr. apply spec_in_child. intros sc l Hl. apply runs_spec. intros a' s1 Hr. by exists sc, l, s1.
Qed.
Lemma runs_recovering m s u s' : mono m → runs (recovering m) s u s' → runs m s tt s'.
Proof. intros Hm Hr. by_spec Hr. apply spec_recovering; [done|]. apply runs_spec. by intros [] s1. Qed.
Lemma runs_scope_get {A} (g : Scope → A) s a s' : runs (scope_get g) s a s' → s' = s ∧ ∃ sc l, scopes s = sc :: l ∧ a = g sc.
Proof. intros Hr. by_spec Hr. apply spec_scope_get. intros sc l Hl. split; [done|]. by exists sc, l. Qed.

(** A block that has no terminator is closed. *)
Lemma runs_close_block b c s u s' : runs (close_block b c) s u s' → scopes s' = scopes s ∧
  fn s' = match Term (fn s) b with None => SetTerm (fn s) b (Br c) | Some _ => fn s end.
Proof.
  unfold close_block. intros (t & s1 & [[= <- <-] _] & Hr)%cg_runs_bind; [|mono_tac..].
  destruct (Term (fn s) b) eqn:Ht; [by apply cg_runs_ret in Hr as [_ ->]|]. by apply runs_set_term in Hr as [-> ->].
Qed.
Definition parent_block s : option nat := match scopes s with _ :: p :: _ => block p | _ => None end.
Lemma runs_br_parent b s u s' : runs (br_parent b) s u s' → scopes s' = scopes s ∧
  fn s' = match parent_block s with Some p => SetTerm (fn s) b (Br p) | None => fn s end.
Proof.
  unfold br_parent, parent_block. intros [Hr _]. destruct (scopes s) as [|sc [|p l]] eqn:Hs; [done..|].
  destruct (block p); by injection Hr as _ <-.
Qed.
End runs_rules.

(** Takes apart a run of a sequence. *)
Tactic Notation "runs_inv" hyp(H) "as" simple_intropattern(pat) :=
  apply cg_runs_bind in H as pat; [|solve [mono_tac]|solve [intros; mono_tac]].
