(* ===== verification/CodegenPaths.v ===== *)
(** * The ways through a statement

    What a statement does to the function that is built ([frame]), and the
    blocks and intermediate functions of the statements that branch. *)
From S2P Require Import Prelude Lexer Ast Escape Ir Codegen CodegenSem CodegenFrame CodegenExp CodegenExt.

Section paths.
Context `{Llir} (Pkgname : text).
Implicit Types (s : cg).
#[local] Notation ExpNode_calc := (ExpNode_calc Pkgname).

(** ** The frame of a statement *)

Record point (e : nat) s (B : nat) : Prop := mk_point {
  pt_head : head (Blocks (fn s)) = Some e;
  pt_cur : cur s = Some B;
  pt_in : B ∈ Blocks (fn s);
}.
Record frame (e : nat) s s' (B B' : nat) : Prop := mk_frame {
  fr_ext : ext e (λ b, b = B) (fn s) (fn s');
  fr_point : point e s' B';
  fr_new : B' = B ∨ B' ∉ Blocks (fn s);
  fr_tail : tail (scopes s') = tail (scopes s);
}.
Definition framed {A} (m : CG A) : Prop := mono m ∧ ∀ e s B a s', point e s B → runs m s a s' → ∃ B', frame e s s' B B'.

Lemma frame_refl e s B : point e s B → frame e s s B B.
Proof. intros P. split; [apply ext_refl|done|by left|done]. Qed.
Lemma frame_trans e s s1 s2 B B1 B2 : frame e s s1 B B1 → frame e s1 s2 B1 B2 → frame e s s2 B B2.
Proof.
  intros [X1 P1 N1 T1] [X2 P2 N2 T2]. split; [|done| |congruence].
  - eapply ext_trans; [done|done|done|]. simpl. intros b Hb ->. destruct N1; done.
  - destruct N2 as [->|N2]; [done|]. right. intros Hb. by eapply N2, ext_in.
Qed.
(** A change that leaves the current block. *)
Lemma frame_same e s s' B : point e s B → ext e (λ b, b = B) (fn s) (fn s') → cur s' = Some B → tail (scopes s') = tail (scopes s) →
  frame e s s' B B.
Proof.
  intros [P1 P2 P3] X Hc Ht. split; [done| |by left|done]. split; [by eapply ext_head|done|by eapply ext_in].
Qed.
Lemma frame_scopes e s s' B : point e s B → ext e (λ b, b = B) (fn s) (fn s') → scopes s' = scopes s → frame e s s' B B.
Proof. intros P X Hs. apply frame_same; [done..| |by rewrite Hs]. unfold cur. rewrite Hs. apply P. Qed.

Lemma framed_bind {A C} (m : CG A) (k : A → CG C) : framed m → (∀ a, framed (k a)) → framed (m ≫= k).
Proof.
  intros [Hm Fm] Hk. split; [apply mono_bind; [done|]; intros a; apply Hk|]. intros e s B b s' P Hr.
  apply cg_runs_bind in Hr as (a & s1 & H1 & H2); [|done|intros; apply Hk]. destruct (Fm e s B a s1 P H1) as [B1 F1].
  destruct (proj2 (Hk a) e s1 B1 b s' (fr_point _ _ _ _ _ F1) H2) as [B2 F2]. exists B2. by eapply frame_trans.
Qed.
Lemma framed_appends {A} (m : CG A) : appends m → framed m.
Proof.
  intros [Hm Am]. split; [done|]. intros e s B a s' P Hr. exists B. by_spec Hr. eapply spec_mono; [apply (Am s B); apply P|].
  intros a' s1 [cs E]. apply frame_scopes; [done|by eapply eff_ext|by eapply ef_scopes].
Qed.
Lemma framed_scopes {A} (m : CG A) : mono m → (∀ s a s', runs m s a s' → fn s' = fn s ∧ cur s' = cur s ∧ tail (scopes s') = tail (scopes s)) → framed m.
Proof.
  intros Hm Hs. split; [done|]. intros e s B a s' P Hr. exists B. destruct (Hs s a s' Hr) as (Hf & Hc & Ht).
  apply frame_same; [done|rewrite Hf; apply ext_refl|rewrite Hc; apply P|done].
Qed.
Lemma framed_scope_get {A} (g : Scope → A) : framed (scope_get g).
Proof. apply framed_scopes; [apply mono_scope_get|]. intros s a s' [-> _]%runs_scope_get. done. Qed.
Lemma framed_scope_mod g : (∀ sc, block (g sc) = block sc) → framed (scope_mod g).
Proof.
  intros Hg. apply framed_scopes; [apply mono_scope_mod|]. intros s a s' (Hf & sc & l & Hs & Hs')%runs_scope_mod.
  unfold cur. rewrite Hs, Hs', Hg. done.
Qed.
Lemma framed_addVar x v : framed (addVar Pkgname x v).
Proof.
  unfold addVar. apply framed_bind; [apply framed_appends, appends_getFullName|]. intros y.
  apply framed_bind; [apply framed_scope_get|]. intros t. destruct (map_get y t); [apply framed_appends, appends_ret|].
  by apply framed_scope_mod.
Qed.
(** Code that ends the current block. *)
Lemma framed_end t : framed (b ← cur_block; set_term b t).
Proof.
  split; [mono_tac|]. intros e s B a s' P Hr. runs_inv Hr as (b & s1 & [Hb ->]%runs_cur_block & [Hf Hs]%runs_set_term).
  exists B. rewrite (pt_cur _ _ _ P) in Hb. injection Hb as <-. apply frame_scopes; [done| |done]. rewrite Hf. apply ext_set_term, P.
Qed.

(** *** Allocation *)

Lemma first_block_runs e s B b s' : point e s B → runs first_block s b s' → b = e ∧ s' = s.
Proof. intros P [Hr _]. unfold first_block in Hr. pose proof (pt_head _ _ _ P) as Hh. by destruct (Blocks (fn s)); simplify_eq/=. Qed.
Lemma head_in e s B : point e s B → e ∈ Blocks (fn s).
Proof. intros P. pose proof (pt_head _ _ _ P) as Hh. destruct (Blocks (fn s)); simplify_eq/=. by left. Qed.
(** Any allocation: on the heap or the stack. *)
Definition alloc_of (t : type) (i : inst) : Prop := i = Alloca t ∨ i = CallHeapalloc t.
Lemma autoAlloc_runs e s B x t v s' : point e s B → runs (autoAlloc x t) s v s' →
  ∃ r i, v = Inst r (PointerType t) ∧ alloc_of t i ∧ NewInst (fn s) e i = (r, fn s') ∧ scopes s' = scopes s.
Proof.
  intros P Hr. unfold autoAlloc in Hr. apply cg_runs_bind in Hr as (h & s1 & [-> _]%runs_scope_get & Hr); [|mono_tac|unfold gcmalloc, stackAlloc; mono_tac].
  assert (∀ i, runs (cur_block;; b ← first_block; emit_at b (PointerType t) i) s v s' →
    ∃ r, v = Inst r (PointerType t) ∧ NewInst (fn s) e i = (r, fn s') ∧ scopes s' = scopes s) as Hi.
  { intros i Hi. runs_inv Hi as (b & s1 & [_ ->]%runs_cur_block & Hi). runs_inv Hi as (b' & s1 & Hb & Hi).
    destruct (first_block_runs e s B _ _ P Hb) as [-> ->]. by_spec Hi. apply spec_emit_at. intros r f Hf. by exists r. }
  case_decide; destruct (Hi _ Hr) as (r & -> & Hn & Hs).
  - exists r, (CallHeapalloc t). split; [done|]. split; [by right|done].
  - exists r, (Alloca t). split; [done|]. split; [by left|done].
Qed.
Lemma alloc_of_is t i : alloc_of t i → is_alloc i = true.
Proof. by intros [-> | ->]. Qed.
Lemma framed_autoAlloc x t : framed (autoAlloc x t).
Proof.
  split; [apply mono_autoAlloc|]. intros e s B v s' P Hr. exists B. destruct (autoAlloc_runs _ _ _ _ _ _ _ P Hr) as (r & i & _ & Hi & Hn & Hs).
  apply frame_scopes; [done| |done]. eapply ext_weaken; [eapply ext_alloc; [done|by eapply head_in|by eapply alloc_of_is]|done].
Qed.

(** ** Statements that branch *)

Definition child s (b : nat) : cg :=
  match scopes s with sc :: l => set_scopes (addChildScope b sc :: sc :: l) s | [] => s end.
Lemma child_fn s b : fn (child s b) = fn s.
Proof. unfold child. by destruct (scopes s). Qed.
Lemma child_scopes e s B b : point e s B → tail (scopes (child s b)) = scopes s.
Proof. intros P. pose proof (pt_cur _ _ _ P) as Hc. unfold cur in Hc. unfold child. by destruct (scopes s). Qed.
Lemma child_point e s B b : point e s B → b ∈ Blocks (fn s) → point e (child s b) b.
Proof.
  intros P Hb. pose proof (pt_cur _ _ _ P) as Hc. split; rewrite ?child_fn; [apply P| |done].
  unfold child, cur in *. by destruct (scopes s).
Qed.
Lemma child_runs {A} e (m : CG A) s B b a s' : framed m → point e s B → b ∈ Blocks (fn s) → runs (in_child b m) s a s' →
  ∃ sb Bb, runs m (child s b) a sb ∧ frame e (child s b) sb b Bb ∧ s' = set_scopes (scopes s) sb.
Proof.
  intros [_ Fm] P Hb (sc & l & sb & Hs & Hr & ->)%runs_in_child.
  assert (child s b = set_scopes (addChildScope b sc :: sc :: l) s) as Hch by (unfold child; by rewrite Hs). rewrite <- Hch in Hr.
  destruct (Fm e (child s b) b a sb) as [Bb F]; [by eapply child_point|done|]. exists sb, Bb. split; [done|]. split; [done|].
  by rewrite (fr_tail _ _ _ _ _ F), (child_scopes e s B).
Qed.

Lemma new_block_runs e s B b s' : point e s B → runs new_block s b s' →
  ext e (λ _, False) (fn s) (fn s') ∧ scopes s' = scopes s ∧ b ∉ Blocks (fn s) ∧ b ∈ Blocks (fn s') ∧ Insts (fn s') b = [] ∧
  Term (fn s') b = None ∧ point e s' B ∧ b ≠ e ∧ b ≠ B.
Proof.
  intros P [Hn Hs]%runs_new_block. destruct (ext_block e _ _ _ Hn) as (X & Hb & Hb' & Hi & Ht). split; [done|]. do 5 (split; [done|]).
  split; [|split].
  - split; [by eapply ext_head; [|apply P]|unfold cur; rewrite Hs; apply P|eapply ext_in; [done|apply P]].
  - intros ->. by eapply Hb, head_in.
  - intros ->. apply Hb, P.
Qed.
Lemma cond_br_runs e c t f s B u s' : point e s B → runs (cond_br Pkgname c t f) s u s' →
  ∃ v s1 cs, runs (v ← ExpNode_calc c; loadIfVar v) s v s1 ∧ eff s s1 B cs ∧ fn s' = SetTerm (fn s1) B (CondBr v t f) ∧ scopes s' = scopes s.
Proof.
  intros P Hr. unfold cond_br in Hr. 
  apply (cg_runs_bind (ExpNode_calc c)) in Hr as (v0 & s0 & H0 & Hr); [|mono_tac..]. runs_inv Hr as (v & s1 & H1 & Hr).
  assert (runs (v ← ExpNode_calc c; loadIfVar v) s v s1) as Hv.
  { destruct H0 as [H0 E0], H1 as [H1 E1]. split; [|congruence]. unfold mbind, CG_bind. by rewrite H0. }
  assert (∃ cs, eff s s1 B cs) as [cs E].
  { clear H0 H1 Hr. by_spec Hv. apply (proj2 (appends_bind _ _ (exp_appends Pkgname c) appends_loadIfVar)); apply P. }
  runs_inv Hr as (b & s2 & [Hb ->]%runs_cur_block & [Hf Hs]%runs_set_term). exists v, s1, cs.
  rewrite (eff_cur_block _ _ _ _ E), (pt_cur _ _ _ P) in Hb. injection Hb as <-. do 3 (split; [done|]). by rewrite Hs, (ef_scopes _ _ _ _ E).
Qed.

(** A block that gets a branch when it has no terminator, and the branch behind
    a statement to the block of the enclosing scope. *)
Definition closed (f : Func) (b c : nat) : Func := match Term f b with None => SetTerm f b (Br c) | Some _ => f end.
Definition joined_up (f : Func) (b : nat) (p : option nat) : Func := match p with Some p => SetTerm f b (Br p) | None => f end.
Lemma closed_ext e f b c : b ∈ Blocks f → ext e (λ b', b' = b ∧ Term f b = None) f (closed f b c).
Proof.
  intros Hb. unfold closed. destruct (Term f b) eqn:Ht; [apply ext_refl|]. eapply ext_weaken; [by apply ext_set_term|]. by intros b' _ ->.
Qed.
Lemma joined_up_ext e f b p : b ∈ Blocks f → ext e (λ b', b' = b) f (joined_up f b p).
Proof. intros Hb. unfold joined_up. destruct p; [by apply ext_set_term|apply ext_refl]. Qed.
Lemma closed_insts f b c b' : b ∈ Blocks f → Insts (closed f b c) b' = Insts f b'.
Proof. intros Hb. unfold closed. destruct (Term f b); [done|]. by apply SetTerm_spec. Qed.
Lemma joined_up_insts f b p b' : b ∈ Blocks f → Insts (joined_up f b p) b' = Insts f b'.
Proof. intros Hb. unfold joined_up. destruct p; [|done]. by apply SetTerm_spec. Qed.
Lemma closed_term f b c : b ∈ Blocks f → Term (closed f b c) b = Some (default (Br c) (Term f b)).
Proof. intros Hb. unfold closed. destruct (Term f b) eqn:Ht; [done|]. by apply set_term_term. Qed.
Lemma joined_up_term f b p : b ∈ Blocks f → Term (joined_up f b p) b = match p with Some p => Some (Br p) | None => Term f b end.
Proof. intros Hb. unfold joined_up. destruct p; [|done]. by apply set_term_term. Qed.

(** *** if *)
Record if_path (c : ExpNode) (st : CG unit) (e : nat) s (B : nat) s' (bt be Bb : nat) (v : value) (cs : list (nat * inst)) s1 sb s3 s4 : Prop := {
  ip_then : runs new_block s bt s1;
  ip_body : runs st (child s1 bt) tt sb;
  ip_frame : frame e (child s1 bt) sb bt Bb;
  ip_back : point e (set_scopes (scopes s) sb) B;
  ip_end : runs new_block (set_scopes (scopes s) sb) be s3;
  ip_cond : runs (v ← ExpNode_calc c; loadIfVar v) s3 v s4;
  ip_eff : eff s3 s4 B cs;
  ip_fn : fn s' = (let f5 := SetTerm (fn s4) B (CondBr v bt be) in
    joined_up (closed f5 bt be) be (parent_block s));
  ip_scopes : ∃ sc l, scopes s = sc :: l ∧ scopes s' = with_block be sc :: l;
}.
Lemma back_point e s s1 B b sb Bb : point e s B → point e s1 B → ext e (λ _, False) (fn s) (fn s1) → scopes s1 = scopes s →
  frame e (child s1 b) sb b Bb → point e (set_scopes (scopes s) sb) B ∧ ext e (λ b', b' = b) (fn s1) (fn sb).
Proof.
  intros P P1 X1 Hs F. pose proof (fr_ext _ _ _ _ _ F) as X2. rewrite child_fn in X2. split; [|done].
  split; [eapply ext_head; [done|apply P1]|apply P|eapply ext_in; [done|apply P1]].
Qed.
Lemma IfNode_path c st e s B u s' : framed st → point e s B → runs (IfNode_calc Pkgname c st) s u s' →
  ∃ bt be Bb v cs s1 sb s3 s4, if_path c st e s B s' bt be Bb v cs s1 sb s3 s4.
Proof.
  intros Fst P Hr. pose proof (proj1 Fst). unfold IfNode_calc in Hr.
  runs_inv Hr as (bt & s1 & Hbt & Hr). destruct (new_block_runs _ _ _ _ _ P Hbt) as (X1 & Hs1 & _ & Hin1 & _ & _ & P1 & _).
  runs_inv Hr as ([] & s2 & Hc & Hr). destruct (child_runs e _ _ B _ _ _ Fst P1 Hin1 Hc) as (sb & Bb & Hb & F & ->).
  rewrite Hs1 in Hr. destruct (back_point _ _ _ _ _ _ _ P P1 X1 Hs1 F) as [P2 _].
  runs_inv Hr as (be & s3 & Hbe & Hr). destruct (new_block_runs _ _ _ _ _ P2 Hbe) as (_ & Hs3 & _ & _ & _ & _ & P3 & _).
  runs_inv Hr as ([] & s5 & H5 & Hr). destruct (cond_br_runs _ _ _ _ _ _ _ _ P3 H5) as (v & s4 & cs & Hv & E & Hf5 & Hs5).
  runs_inv Hr as ([] & s6 & (Hf6 & sc & l & Hl & Hs6)%runs_scope_mod & Hr).
  runs_inv Hr as ([] & s7 & (Hs7 & Hf7)%runs_close_block & (Hs8 & Hf8)%runs_br_parent).
  simpl in Hs3. exists bt, be, Bb, v, cs, s1, sb, s3, s4. split; [done..| |].
  - rewrite Hf8, Hf7, Hf6, Hf5. unfold parent_block. rewrite Hs7, Hs6. rewrite <- Hs3, <- Hs5, Hl. done.
  - exists sc, l. rewrite Hs8, Hs7, Hs6. split; [congruence|done].
Qed.


(** The same for the functions. *)
Record if_funcs (e : nat) s (B : nat) s' (bt be : nat) (v : value) s1 sb s3 s4 : Prop := {
  if_bt : bt ∉ Blocks (fn s) ∧ bt ∈ Blocks (fn s1) ∧ Insts (fn s1) bt = [] ∧ Term (fn s1) bt = None ∧ bt ≠ e;
  if_be : be ∉ Blocks (fn sb) ∧ be ∈ Blocks (fn s3) ∧ be ∈ Blocks (fn s') ∧ be ≠ e;
  if_x1 : ext e (λ _, False) (fn s) (fn s1);
  if_x2 : ext e (λ b, b = bt) (fn s1) (fn sb);
  if_x3 : ext e (λ _, False) (fn sb) (fn s3);
  if_x4 : ext e (λ b, b = B) (fn s3) (fn s4);
  if_x5 : ext e (λ b, b = B ∨ (b = bt ∧ Term (fn sb) bt = None) ∨ b = be) (fn s4) (fn s');
  if_insts_B : Insts (fn s') B = Insts (fn s4) B;
  if_insts_bt : Insts (fn s') bt = Insts (fn sb) bt;
  if_insts_be : Insts (fn s') be = [];
  if_term_B : Term (fn s') B = Some (CondBr v bt be);
  if_term_bt : Term (fn s') bt = Some (default (Br be) (Term (fn sb) bt));
  if_term_be : Term (fn s') be = match parent_block s with Some p => Some (Br p) | None => None end;
}.
Lemma if_path_funcs c st e s B s' bt be Bb v cs s1 sb s3 s4 : point e s B →
  if_path c st e s B s' bt be Bb v cs s1 sb s3 s4 → if_funcs e s B s' bt be v s1 sb s3 s4.
Proof.
  intros P [Hbt Hb F Pb Hbe Hv E Hf _].
  destruct (new_block_runs _ _ _ _ _ P Hbt) as (X1 & Hs1 & Hbt0 & Hbt1 & Ibt & Tbt & P1 & Nbt & NbtB).
  destruct (new_block_runs _ _ _ _ _ Pb Hbe) as (X3 & Hs3 & Hbe2 & Hbe3 & Ibe & Tbe & P3 & Nbe & NbeB). simpl in X3, Hbe2.
  pose proof (fr_ext _ _ _ _ _ F) as X2. rewrite child_fn in X2. pose proof (eff_ext e _ _ _ _ E) as X4.
  assert (bt ∈ Blocks (fn sb)) as Hbt2 by by eapply ext_in.
  assert (bt ≠ be) as Hne by by intros ->.
  assert (bt ∈ Blocks (fn s4)) as Hbt4 by (eapply ext_in; [done|]; by eapply ext_in).
  assert (be ∈ Blocks (fn s4)) as Hbe4 by by eapply ext_in.
  assert (B ∈ Blocks (fn s4)) as HB4 by (eapply ext_in; [done|apply P3]).
  set (f5 := SetTerm (fn s4) B (CondBr v bt be)) in *. pose proof (ext_set_term e B (CondBr v bt be) (fn s4) HB4) as X5. fold f5 in X5.
  assert (bt ∈ Blocks f5) as Hbt5 by by eapply ext_in.
  assert (be ∈ Blocks f5) as Hbe5 by by eapply ext_in.
  assert (Term f5 bt = Term (fn sb) bt) as Htt.
  { rewrite (ext_term _ _ _ _ bt X5) by done. rewrite (ext_term _ _ _ _ bt X4); [|by eapply ext_in|done]. by rewrite (ext0_term _ _ _ bt X3). }
  pose proof (closed_ext e f5 bt be Hbt5) as X6. assert (be ∈ Blocks (closed f5 bt be)) as Hbe6 by by eapply ext_in.
  assert (bt ∈ Blocks (closed f5 bt be)) as Hbt6 by by eapply ext_in.
  assert (B ∈ Blocks f5) as HB5 by by eapply ext_in.
  assert (B ∈ Blocks (closed f5 bt be)) as HB6 by by eapply ext_in.
  pose proof (joined_up_ext e _ be (parent_block s) Hbe6) as X7. cbv zeta in Hf. fold f5 in Hf. rewrite <- Hf in X7.
  assert (∀ b, Insts (fn s') b = Insts (fn s4) b) as Hins.
  { intros b. rewrite Hf, joined_up_insts, closed_insts by done. by apply SetTerm_spec. }
  split; try done.
  - split; [done|]. split; [done|]. split; [by eapply ext_in|done].
  - eapply ext_trans; [exact X5|eapply ext_trans; [exact X6|exact X7| |]|..]; cycle -1.
    { instantiate (1 := λ b, (b = bt ∧ Term (fn sb) bt = None) ∨ b = be). simpl. naive_solver. }
    all: simpl; rewrite ?Htt; naive_solver.
  - rewrite Hins, (ext_same _ _ _ _ bt X4), (ext0_same _ _ _ bt X3); [done..|by eapply ext_in|done|done].
  - by rewrite Hins, (ext_same _ _ _ _ be X4).
  - rewrite (ext_term _ _ _ _ B X7), (ext_term _ _ _ _ B X6) by naive_solver. by apply set_term_term.
  - rewrite (ext_term _ _ _ _ bt X7), closed_term, Htt by done. done.
  - rewrite Hf, joined_up_term by done. destruct (parent_block s); [done|].
    rewrite (ext_term _ _ _ _ be X6) by naive_solver. rewrite (ext_term _ _ _ _ be X5) by done. by rewrite (ext_term _ _ _ _ be X4).
Qed.

(** *** if with else *)
Lemma set_block_point e s B s' be : point e s B → be ∈ Blocks (fn s) → fn s' = fn s →
  (∃ sc l, scopes s = sc :: l ∧ scopes s' = with_block be sc :: l) → point e s' be.
Proof. intros P Hbe Hf (sc & l & Hs & Hs'). split; rewrite ?Hf; [apply P| |done]. unfold cur. by rewrite Hs'. Qed.

Record ifelse_path (c : ExpNode) (st el : CG unit) (e : nat) s (B : nat) s' (bt bf be Bt Bf : nat) (v : value) (cs : list (nat * inst))
    s1 s2 s3 s4 s5 sb sf : Prop := {
  ep_then : runs new_block s bt s1;
  ep_else : runs new_block s1 bf s2;
  ep_end : runs new_block s2 be s3;
  ep_cond : runs (v ← ExpNode_calc c; loadIfVar v) s3 v s4;
  ep_eff : eff s3 s4 B cs;
  ep_fn5 : fn s5 = SetTerm (fn s4) B (CondBr v bt bf);
  ep_scopes5 : ∃ sc l, scopes s = sc :: l ∧ scopes s5 = with_block be sc :: l;
  ep_point5 : point e s5 be;
  ep_body : runs st (child s5 bt) tt sb;
  ep_frame : frame e (child s5 bt) sb bt Bt;
  ep_else_body : runs el (child (set_scopes (scopes s5) sb) bf) tt sf;
  ep_else_frame : frame e (child (set_scopes (scopes s5) sb) bf) sf bf Bf;
  ep_fn : fn s' = joined_up (closed (closed (fn sf) bt be) bf be) be (parent_block s);
  ep_scopes : scopes s' = scopes s5;
}.
Lemma IfElseNode_path c st el e s B u s' : framed st → framed el → point e s B → runs (IfElseNode_calc Pkgname c st el) s u s' →
  ∃ bt bf be Bt Bf v cs s1 s2 s3 s4 s5 sb sf, ifelse_path c st el e s B s' bt bf be Bt Bf v cs s1 s2 s3 s4 s5 sb sf.
Proof.
  intros Fst Fel P Hr. pose proof (proj1 Fst). pose proof (proj1 Fel). unfold IfElseNode_calc in Hr.
  runs_inv Hr as (bt & s1 & Hbt & Hr). destruct (new_block_runs _ _ _ _ _ P Hbt) as (X1 & Hs1 & _ & Hbt1 & _ & _ & P1 & _).
  runs_inv Hr as (bf & s2 & Hbf & Hr). destruct (new_block_runs _ _ _ _ _ P1 Hbf) as (X2 & Hs2 & _ & Hbf2 & _ & _ & P2 & _).
  runs_inv Hr as (be & s3 & Hbe & Hr). destruct (new_block_runs _ _ _ _ _ P2 Hbe) as (X3 & Hs3 & _ & Hbe3 & _ & _ & P3 & _).
  runs_inv Hr as ([] & s5' & H5 & Hr). destruct (cond_br_runs _ _ _ _ _ _ _ _ P3 H5) as (v & s4 & cs & Hv & E & Hf5 & Hs5).
  runs_inv Hr as ([] & s5 & (Hf6 & sc & l & Hl & Hs6)%runs_scope_mod & Hr). rewrite Hs5, Hs3, Hs2, Hs1 in Hl.
  assert (ext e (λ b, b = B) (fn s3) (fn s5)) as X5.
  { rewrite Hf6, Hf5. eapply ext_trans; [by eapply eff_ext|apply ext_set_term|done|done]. rewrite (ef_blocks _ _ _ _ E). apply P3. }
  assert (point e s5 be) as P5.
  { split; [eapply ext_head; [done|apply P3]|unfold cur; by rewrite Hs6|by eapply ext_in]. }
  assert (bt ∈ Blocks (fn s5)) as Hbt5 by (eapply ext_in; [done|]; eapply ext_in; [done|]; by eapply ext_in).
  assert (bf ∈ Blocks (fn s5)) as Hbf5 by (eapply ext_in; [done|]; by eapply ext_in).
  runs_inv Hr as ([] & s6 & Hc & Hr). destruct (child_runs e _ _ be _ _ _ Fst P5 Hbt5 Hc) as (sb & Bt & Hb & F & ->).
  pose proof (fr_ext _ _ _ _ _ F) as Xb. rewrite child_fn in Xb.
  assert (point e (set_scopes (scopes s5) sb) be) as P6.
  { split; [eapply ext_head; [done|apply P5]|apply P5|eapply ext_in; [done|apply P5]]. }
  runs_inv Hr as ([] & s7 & Hc2 & Hr).
  destruct (child_runs e _ _ be _ _ _ Fel P6 ltac:(by eapply ext_in) Hc2) as (sf & Bf & Hb2 & F2 & ->).
  runs_inv Hr as ([] & s8 & (Hs8 & Hf8)%runs_close_block & Hr).
  runs_inv Hr as ([] & s9 & (Hs9 & Hf9)%runs_close_block & (Hs10 & Hf10)%runs_br_parent).
  simpl in *. exists bt, bf, be, Bt, Bf, v, cs, s1, s2, s3, s4, s5, sb, sf. split; try done.
  - congruence.
  - by exists sc, l.
  - rewrite Hf10, Hf9, Hf8. unfold parent_block. rewrite Hs9, Hs8, Hs6, Hl. done.
  - congruence.
Qed.

(** *** for *)

(** The code of a condition, and the terminator it needs. *)
Definition cond_code (c : option ExpNode) s (B t f : nat) (T : terminator) s' : Prop :=
  match c with
  | Some c => ∃ v cs, runs (v ← ExpNode_calc c; loadIfVar v) s v s' ∧ eff s s' B cs ∧ T = CondBr v t f
  | None => s' = s ∧ T = Br t
  end.
Lemma cond_code_eff c s B t f T s' : cond_code c s B t f T s' → ∃ cs, eff s s' B cs.
Proof. destruct c as [c|]; [|intros [-> _]; eexists; apply eff_refl]. intros (v & cs & _ & E & _). by exists cs. Qed.
Lemma exp_code_runs e c s B v0 s0 v s1 : point e s B → runs (ExpNode_calc c) s v0 s0 → runs (loadIfVar v0) s0 v s1 →
  runs (v ← ExpNode_calc c; loadIfVar v) s v s1 ∧ ∃ cs, eff s s1 B cs.
Proof.
  intros P H0 H1. assert (runs (v ← ExpNode_calc c; loadIfVar v) s v s1) as Hv.
  { destruct H0 as [H0 E0], H1 as [H1 E1]. split; [|congruence]. unfold mbind, CG_bind. by rewrite H0. }
  split; [done|]. by_spec Hv. apply (proj2 (appends_bind _ _ (exp_appends Pkgname c) appends_loadIfVar)); apply P.
Qed.

Record for_path (c : option ExpNode) (d a : CG unit) (st : CG unit) (e : nat) s (B : nat) s' (bc bb be B1 Bb Ba : nat) (T1 T2 : terminator)
    s1 s2 s3 s4 sd s5 s6 sb sa s8 : Prop := {
  fp_cond : runs new_block s bc s1;
  fp_body : runs new_block s1 bb s2;
  fp_end : runs new_block s2 be s3;
  fp_fn4 : fn s4 = fn s3;
  fp_scopes4 : ∃ sc l, scopes s = sc :: l ∧ scopes s4 = with_loop bc be sc :: l;
  fp_point4 : point e s4 B;
  fp_define : runs d s4 tt sd;
  fp_define_frame : frame e s4 sd B B1;
  fp_first : cond_code c sd B1 bb be T1 s5;
  fp_fn6 : fn s6 = SetTerm (fn s5) B1 T1;
  fp_scopes6 : ∃ sc l, scopes sd = sc :: l ∧ scopes s6 = with_block be sc :: l;
  fp_point6 : point e s6 be;
  fp_statements : runs st (child s6 bb) tt sb;
  fp_frame : frame e (child s6 bb) sb bb Bb;
  fp_back : point e (set_scopes (scopes s6) sb) be;
  fp_assign : runs a (child (set_scopes (scopes s6) sb) bc) tt sa;
  fp_assign_frame : frame e (child (set_scopes (scopes s6) sb) bc) sa bc Ba;
  fp_next : cond_code c sa Ba bb be T2 s8;
  fp_fn : fn s' = SetTerm (SetTerm (fn s8) bc T2) Bb (Br bc);
  fp_scopes : scopes s' = scopes s6;
}.

Lemma cur_block_inv {A} e (k : nat → CG A) s B a s' : point e s B → (∀ b, mono (k b)) → runs (b ← cur_block; k b) s a s' → runs (k B) s a s'.
Proof.
  intros P Hk Hr. apply cg_runs_bind in Hr as (b & s1 & [Hb ->]%runs_cur_block & Hr); [|mono_tac|done].
  rewrite (pt_cur _ _ _ P) in Hb. by injection Hb as <-.
Qed.
(** The branch at the start of the loop. *)
Lemma for_first c s e B1 bb be u s' : point e s B1 →
  runs (match c with Some c => cond_br Pkgname c bb be | None => b ← cur_block; set_term b (Br bb) end) s u s' →
  ∃ T s5, cond_code c s B1 bb be T s5 ∧ fn s' = SetTerm (fn s5) B1 T ∧ scopes s' = scopes s.
Proof.
  intros P Hr. destruct c as [c|].
  - destruct (cond_br_runs _ _ _ _ _ _ _ _ P Hr) as (v & s5 & cs & Hv & E & Hf & Hs). eexists _, s5. split; [by exists v, cs|done].
  - apply (cur_block_inv e _ _ B1) in Hr as [Hf Hs]%runs_set_term; [|done|intros; mono_tac]. by exists (Br bb), s.
Qed.
(** The code that moves the loop on. *)
Lemma for_next c (a : CG unit) s e bc bb be u s' : framed a → point e s bc →
  runs (a;; match c with
    | Some c => v ← ExpNode_calc c; v ← loadIfVar v; set_term bc (CondBr v bb be)
    | None => set_term bc (Br bb)
    end) s u s' →
  ∃ sa Ba T s8, runs a s tt sa ∧ frame e s sa bc Ba ∧ cond_code c sa Ba bb be T s8 ∧ fn s' = SetTerm (fn s8) bc T ∧ scopes s' = scopes s8.
Proof.
  intros [Ma Fa] P Hr. runs_inv Hr as ([] & sa & Ha & Hr). destruct (Fa e s bc tt sa P Ha) as [Ba F].
  pose proof (fr_point _ _ _ _ _ F) as Pa. exists sa, Ba. destruct c as [c|].
  - runs_inv Hr as (v0 & s0 & H0 & Hr). runs_inv Hr as (v & s8 & H1 & [Hf Hs]%runs_set_term).
    destruct (exp_code_runs e c _ _ _ _ _ _ Pa H0 H1) as (Hv & cs & E). eexists _, s8. do 2 (split; [done|]). split; [by exists v, cs|done].
  - apply runs_set_term in Hr as [Hf Hs]. by exists (Br bb), sa.
Qed.
Lemma appends_cur_block : appends cur_block.
Proof. apply appends_keep; [mono_tac|]. intros s. by apply spec_cur_block. Qed.

Lemma ForNode_path c d a st e s B u s' : from_option framed True d → from_option framed True a → framed st → point e s B →
  runs (ForNode_calc Pkgname c d a st) s u s' →
  ∃ bc bb be B1 Bb Ba T1 T2 s1 s2 s3 s4 sd s5 s6 sb sa s8,
    for_path c (match d with Some d => d | None => mret tt end) (match a with Some a => a | None => mret tt end) st e s B s'
      bc bb be B1 Bb Ba T1 T2 s1 s2 s3 s4 sd s5 s6 sb sa s8.
Proof.
  intros Fd Fa Fst P Hr. unfold ForNode_calc in Hr.
  assert (framed (match d with Some d => d | None => mret tt end)) as Fd' by (destruct d; [done|apply framed_appends, appends_ret]).
  assert (framed (match a with Some a => a | None => mret tt end)) as Fa' by (destruct a; [done|apply framed_appends, appends_ret]).
  pose proof (proj1 Fd'). pose proof (proj1 Fa'). pose proof (proj1 Fst).
  set (d' := match d with Some d => d | None => mret tt end) in *. set (a' := match a with Some a => a | None => mret tt end) in *.
  runs_inv Hr as (bc & s1 & Hbc & Hr). destruct (new_block_runs _ _ _ _ _ P Hbc) as (X1 & Hs1 & _ & Hbc1 & _ & _ & P1 & _).
  runs_inv Hr as (bb & s2 & Hbb & Hr). destruct (new_block_runs _ _ _ _ _ P1 Hbb) as (X2 & Hs2 & _ & Hbb2 & _ & _ & P2 & _).
  runs_inv Hr as (be & s3 & Hbe & Hr). destruct (new_block_runs _ _ _ _ _ P2 Hbe) as (X3 & Hs3 & _ & Hbe3 & _ & _ & P3 & _).
  runs_inv Hr as ([] & s4 & (Hf4 & sc & l & Hl & Hs4)%runs_scope_mod & Hr). rewrite Hs3, Hs2, Hs1 in Hl.
  assert (point e s4 B) as P4.
  { split; rewrite ?Hf4; try apply P3. unfold cur. rewrite Hs4. simpl. pose proof (pt_cur _ _ _ P) as Hc. unfold cur in Hc. by rewrite Hl in Hc. }
  runs_inv Hr as ([] & sd & Hd & Hr). destruct (proj2 Fd' e s4 B tt sd P4 Hd) as [B1 F1]. pose proof (fr_point _ _ _ _ _ F1) as Pd.
  runs_inv Hr as ([] & s6' & H6 & Hr). destruct (for_first _ _ _ _ _ _ _ _ Pd H6) as (T1 & s5 & Hc1 & Hf6 & Hs6').
  destruct (cond_code_eff _ _ _ _ _ _ _ Hc1) as [cs1 E1].
  runs_inv Hr as ([] & s6 & (Hf6' & sc6 & l6 & Hl6 & Hs6)%runs_scope_mod & Hr).
  assert (ext e (λ b, b = B1) (fn sd) (fn s6)) as X6.
  { rewrite Hf6', Hf6. eapply ext_trans; [by eapply eff_ext|apply ext_set_term|done|done]. rewrite (ef_blocks _ _ _ _ E1). apply Pd. }
  pose proof (fr_ext _ _ _ _ _ F1) as Xd. rewrite Hf4 in Xd.
  assert (∀ b, b ∈ Blocks (fn s3) → b ∈ Blocks (fn s6)) as Hin6.
  { intros b Hb. eapply ext_in; [done|]. by eapply ext_in. }
  assert (point e s6 be) as P6.
  { split; [eapply ext_head; [done|apply Pd]|unfold cur; by rewrite Hs6|auto]. }
  runs_inv Hr as (cb & s7 & Hb & Hr).
  assert (framed (st;; cur_block)) as Fst' by (apply framed_bind; [done|]; intros _; apply framed_appends, appends_cur_block).
  destruct (child_runs e _ _ be bb _ _ Fst' P6 ltac:(apply Hin6; by eapply ext_in) Hb) as (sb & Bb & Hb' & Fb & ->). clear Hb. rename Hb' into Hb.
  runs_inv Hb as ([] & sb' & Hb & [Hcb Hsb]%runs_cur_block); subst sb'. rewrite (pt_cur _ _ _ (fr_point _ _ _ _ _ Fb)) in Hcb. injection Hcb as <-.
  pose proof (fr_ext _ _ _ _ _ Fb) as Xb. rewrite child_fn in Xb.
  assert (point e (set_scopes (scopes s6) sb) be) as P7.
  { split; [eapply ext_head; [done|apply P6]|apply P6|eapply ext_in; [done|apply P6]]. }
  runs_inv Hr as ([] & s9 & (sc9 & l9 & s9' & Hl9 & H9 & ->)%runs_in_child & [Hf10 Hs10]%runs_set_term).
  assert (child (set_scopes (scopes s6) sb) bc = set_scopes (addChildScope bc sc9 :: sc9 :: l9) (set_scopes (scopes s6) sb)) as Hch.
  { unfold child. by rewrite Hl9. }
  rewrite <- Hch in H9.
  destruct (for_next c a' _ e bc bb be _ _ Fa' (child_point e _ be bc P7 ltac:(eapply ext_in; [done|]; apply Hin6; eapply ext_in; [done|]; by eapply ext_in)) H9)
    as (sa & Ba & T2 & s8 & Ha & Fa2 & Hc2 & Hf9 & Hs9).
  destruct (cond_code_eff _ _ _ _ _ _ _ Hc2) as [cs2 E2].
  exists bc, bb, be, B1, Bb, Ba, T1, T2, s1, s2, s3, s4, sd, s5, s6, sb, sa, s8. simpl in Hf10, Hs10. split; try done.
  - exists sc, l. split; [congruence|done].
  - by rewrite Hf6', Hf6.
  - exists sc6, l6. split; [congruence|done].
  - by rewrite Hf10, Hf9.
  - rewrite Hs10, Hs9, (ef_scopes _ _ _ _ E2), (fr_tail _ _ _ _ _ Fa2). by rewrite (child_scopes e _ be).
Qed.

(** ** The functions of the longer statements *)

(** A block that was made at [s] and has not been used. *)
Record fresh_at (e : nat) s s' (b : nat) : Prop := mk_fresh_at {
  fa_old : b ∉ Blocks (fn s);
  fa_in : b ∈ Blocks (fn s');
  fa_insts : Insts (fn s') b = [];
  fa_term : Term (fn s') b = None;
  fa_first : b ≠ e;
}.
Lemma new_block_fresh e s B b s' : point e s B → runs new_block s b s' → fresh_at e s s' b ∧ ext e (λ _, False) (fn s) (fn s') ∧ point e s' B ∧ b ≠ B.
Proof. intros P (X & _ & ? & ? & ? & ? & ? & ? & ?)%(new_block_runs e s B); [|done]. by split. Qed.
Lemma fresh_later e s s1 s2 b : fresh_at e s s1 b → ext e (λ _, False) (fn s1) (fn s2) → fresh_at e s s2 b.
Proof.
  intros [F1 F2 F3 F4 F5] X. split; [done|by eapply ext_in| | |done].
  - by rewrite (ext0_same _ _ _ _ X).
  - by rewrite (ext0_term _ _ _ _ X).
Qed.
Lemma fresh_earlier e s0 s s' b M : fresh_at e s s' b → ext e M (fn s0) (fn s) → fresh_at e s0 s' b.
Proof. intros [F1 F2 F3 F4 F5] X. split; try done. intros Hb. by eapply F1, ext_in. Qed.
(** Three blocks made one after the other. *)
Lemma three_blocks e s B b1 s1 b2 s2 b3 s3 : point e s B →
  runs new_block s b1 s1 → runs new_block s1 b2 s2 → runs new_block s2 b3 s3 →
  (fresh_at e s s3 b1 ∧ fresh_at e s s3 b2 ∧ fresh_at e s s3 b3) ∧ (b1 ≠ b2 ∧ b1 ≠ b3 ∧ b2 ≠ b3 ∧ b1 ≠ B ∧ b2 ≠ B ∧ b3 ≠ B) ∧
  ext e (λ _, False) (fn s) (fn s3) ∧ point e s3 B.
Proof.
  intros P R1 R2 R3. destruct (new_block_fresh _ _ _ _ _ P R1) as (F1 & X1 & P1 & N1).
  destruct (new_block_fresh _ _ _ _ _ P1 R2) as (F2 & X2 & P2 & N2). destruct (new_block_fresh _ _ _ _ _ P2 R3) as (F3 & X3 & P3 & N3).
  assert (ext e (λ _, False) (fn s) (fn s2)) as X12 by by eapply ext_trans.
  split; [|split; [|split; [by eapply ext_trans|done]]].
  - split; [by eapply fresh_later, X3; eapply fresh_later|]. split; [by eapply fresh_earlier, X1; eapply fresh_later|by eapply fresh_earlier].
  - assert (b1 ∈ Blocks (fn s2)) by (eapply ext_in; [exact X2|apply F1]).
    split; [intros ->; by apply (fa_old _ _ _ _ F2), F1|]. split; [intros ->; by apply (fa_old _ _ _ _ F3)|].
    split; [intros ->; by apply (fa_old _ _ _ _ F3), F2|done].
Qed.

Record ifelse_funcs (e : nat) s (B : nat) s' (bt bf be : nat) (v : value) s3 s4 s5 sb sf : Prop := {
  ef_fresh : fresh_at e s s3 bt ∧ fresh_at e s s3 bf ∧ fresh_at e s s3 be;
  ef_distinct : bt ≠ bf ∧ bt ≠ be ∧ bf ≠ be ∧ bt ≠ B ∧ bf ≠ B ∧ be ≠ B;
  ef_point3 : point e s3 B;
  ef_x3 : ext e (λ _, False) (fn s) (fn s3);
  ef_x4 : ext e (λ b, b = B) (fn s3) (fn s4);
  ef_x5 : ext e (λ b, b = B) (fn s4) (fn s5);
  ef_x6 : ext e (λ b, b = bt) (fn s5) (fn sb);
  ef_x7 : ext e (λ b, b = bf) (fn sb) (fn sf);
  ef_x8 : ext e (λ b, (b = bt ∧ Term (fn sb) bt = None) ∨ (b = bf ∧ Term (fn sf) bf = None) ∨ b = be) (fn sf) (fn s');
  ef_insts5 : ∀ b, Insts (fn s5) b = Insts (fn s4) b;
  ef_insts : ∀ b, Insts (fn s') b = Insts (fn sf) b;
  ef_term_B : Term (fn s5) B = Some (CondBr v bt bf);
  ef_term_bt : Term (fn s') bt = Some (default (Br be) (Term (fn sb) bt));
  ef_term_bf : Term (fn s') bf = Some (default (Br be) (Term (fn sf) bf));
}.
Lemma ifelse_path_funcs c st el e s B s' bt bf be Bt Bf v cs s1 s2 s3 s4 s5 sb sf : point e s B →
  ifelse_path c st el e s B s' bt bf be Bt Bf v cs s1 s2 s3 s4 s5 sb sf → ifelse_funcs e s B s' bt bf be v s3 s4 s5 sb sf.
Proof.
  intros P [R1 R2 R3 _ E Hf5 _ _ _ F6 _ F7 Hf _]. destruct (three_blocks _ _ _ _ _ _ _ _ _ P R1 R2 R3) as ((Ft & Ff & Fe) & D & X3 & P3).
  pose proof (eff_ext e _ _ _ _ E) as X4. assert (B ∈ Blocks (fn s4)) as HB4 by (eapply ext_in; [done|apply P3]).
  pose proof (ext_set_term e B (CondBr v bt bf) (fn s4) HB4) as X5. rewrite <- Hf5 in X5.
  pose proof (fr_ext _ _ _ _ _ F6) as X6. rewrite child_fn in X6. pose proof (fr_ext _ _ _ _ _ F7) as X7. rewrite child_fn in X7. simpl in X7.
  assert (∀ b, b ∈ Blocks (fn s3) → b ∈ Blocks (fn s5)) as In5 by (intros; eapply ext_in; [done|by eapply ext_in]).
  assert (∀ b, b ∈ Blocks (fn s3) → b ∈ Blocks (fn sf)) as Inf by (intros; eapply ext_in; [done|]; eapply ext_in; [done|auto]).
  pose proof (Inf bt (fa_in _ _ _ _ Ft)) as Ht. pose proof (Inf bf (fa_in _ _ _ _ Ff)) as Hff. pose proof (Inf be (fa_in _ _ _ _ Fe)) as Hee.
  destruct D as (D1 & D2 & D3 & D4 & D5 & D6).
  assert (Term (fn sf) bt = Term (fn sb) bt) as Ttt by (apply (ext_term _ _ _ _ bt X7); [eapply ext_in; [done|apply In5, Ft]|done]).
  pose proof (closed_ext e (fn sf) bt be Ht) as Y1. set (f6 := closed (fn sf) bt be) in *.
  assert (bf ∈ Blocks f6) as Hf6 by by eapply ext_in. assert (be ∈ Blocks f6) as He6 by by eapply ext_in.
  assert (bt ∈ Blocks f6) as Ht6 by by eapply ext_in.
  assert (Term f6 bf = Term (fn sf) bf) as Tff by (apply (ext_term _ _ _ _ bf Y1); [done|naive_solver]).
  pose proof (closed_ext e f6 bf be Hf6) as Y2. set (f7 := closed f6 bf be) in *.
  assert (be ∈ Blocks f7) as He7 by by eapply ext_in. assert (bf ∈ Blocks f7) as Hf7 by by eapply ext_in.
  assert (bt ∈ Blocks f7) as Ht7 by by eapply ext_in.
  pose proof (joined_up_ext e f7 be (parent_block s) He7) as Y3. rewrite <- Hf in Y3.
  split; try done.
  - eapply ext_trans; [exact Y1|eapply ext_trans; [exact Y2|exact Y3| |]|..]; cycle -1.
    { instantiate (1 := λ b, (b = bf ∧ Term (fn sf) bf = None) ∨ b = be). simpl. naive_solver. }
    all: simpl; rewrite ?Ttt, ?Tff; naive_solver.
  - intros b. rewrite Hf5. by apply SetTerm_spec.
  - intros b. rewrite Hf, joined_up_insts by done. unfold f7. rewrite closed_insts by done. unfold f6. by rewrite closed_insts.
  - rewrite Hf5. by apply set_term_term.
  - rewrite (ext_term _ _ _ _ bt Y3), (ext_term _ _ _ _ bt Y2) by naive_solver. unfold f6. by rewrite closed_term, Ttt.
  - rewrite (ext_term _ _ _ _ bf Y3) by naive_solver. unfold f7. by rewrite closed_term, Tff.
Qed.

Record for_funcs (e : nat) s (B : nat) s' (bc bb be B1 Bb Ba : nat) (T1 T2 : terminator) s3 sd s5 s6 sb sa s8 : Prop := {
  ff_fresh : fresh_at e s s3 bc ∧ fresh_at e s s3 bb ∧ fresh_at e s s3 be;
  ff_distinct : bc ≠ bb ∧ bc ≠ be ∧ bb ≠ be ∧ bc ≠ B ∧ bb ≠ B ∧ be ≠ B;
  ff_x3 : ext e (λ _, False) (fn s) (fn s3);
  ff_xd : ext e (λ b, b = B) (fn s3) (fn sd);
  ff_x5 : ext e (λ b, b = B1) (fn sd) (fn s5);
  ff_x6 : ext e (λ b, b = B1) (fn s5) (fn s6);
  ff_xb : ext e (λ b, b = bb) (fn s6) (fn sb);
  ff_xa : ext e (λ b, b = bc) (fn sb) (fn sa);
  ff_x8 : ext e (λ b, b = Ba) (fn sa) (fn s8);
  ff_x9 : ext e (λ b, b = bc ∨ b = Bb) (fn s8) (fn s');
  ff_insts6 : ∀ b, Insts (fn s6) b = Insts (fn s5) b;
  ff_insts : ∀ b, Insts (fn s') b = Insts (fn s8) b;
  ff_term_B1 : Term (fn s6) B1 = Some T1;
  ff_term_bc : Term (fn s') bc = Some T2;
  ff_term_Bb : Term (fn s') Bb = Some (Br bc);
  ff_Bb : Bb ∈ Blocks (fn sb) ∧ Bb ≠ bc ∧ Bb ≠ be ∧ (Bb = bb ∨ Bb ∉ Blocks (fn s6));
  ff_B1 : B1 ∈ Blocks (fn sd) ∧ (B1 = B ∨ B1 ∉ Blocks (fn s3));
  ff_Ba : Ba ∈ Blocks (fn sa) ∧ (Ba = bc ∨ Ba ∉ Blocks (fn sb));
}.
Lemma for_path_funcs c d a st e s B s' bc bb be B1 Bb Ba T1 T2 s1 s2 s3 s4 sd s5 s6 sb sa s8 : point e s B →
  for_path c d a st e s B s' bc bb be B1 Bb Ba T1 T2 s1 s2 s3 s4 sd s5 s6 sb sa s8 →
  for_funcs e s B s' bc bb be B1 Bb Ba T1 T2 s3 sd s5 s6 sb sa s8.
Proof.
  intros P [R1 R2 R3 H4 _ _ _ Fd C1 H6 _ _ _ Fb _ _ Fa C2 Hf _].
  destruct (three_blocks _ _ _ _ _ _ _ _ _ P R1 R2 R3) as ((Fc & Fbb & Fe) & D & X3 & P3).
  destruct (cond_code_eff _ _ _ _ _ _ _ C1) as [cs1 E1]. destruct (cond_code_eff _ _ _ _ _ _ _ C2) as [cs2 E2].
  pose proof (fr_ext _ _ _ _ _ Fd) as Xd. rewrite H4 in Xd. pose proof (fr_point _ _ _ _ _ Fd) as Pd.
  pose proof (eff_ext e _ _ _ _ E1) as X5. assert (B1 ∈ Blocks (fn s5)) as HB1 by (eapply ext_in; [done|apply Pd]).
  pose proof (ext_set_term e B1 T1 (fn s5) HB1) as X6. rewrite <- H6 in X6.
  pose proof (fr_ext _ _ _ _ _ Fb) as Xb. rewrite child_fn in Xb. pose proof (fr_ext _ _ _ _ _ Fa) as Xa. rewrite child_fn in Xa. simpl in Xa.
  pose proof (eff_ext e _ _ _ _ E2) as X8. 
  assert (∀ b, b ∈ Blocks (fn s3) → b ∈ Blocks (fn s6)) as In6.
  { intros b Hb. eapply ext_in; [done|]. eapply ext_in; [done|]. by eapply ext_in. }
  assert (∀ b, b ∈ Blocks (fn sb) → b ∈ Blocks (fn s8)) as In8.
  { intros b Hb. eapply ext_in; [done|]. by eapply ext_in. }
  assert (Bb ∈ Blocks (fn sb)) as HBb by apply (fr_point _ _ _ _ _ Fb).
  assert (Bb = bb ∨ Bb ∉ Blocks (fn s6)) as NBb by (pose proof (fr_new _ _ _ _ _ Fb) as Hn; by rewrite child_fn in Hn).
  destruct D as (D1 & D2 & D3 & D4 & D5 & D6).
  assert (Bb ≠ bc) as N1 by (destruct NBb as [->|Hn]; [done|]; intros ->; apply Hn, In6, Fc).
  assert (Bb ≠ be) as N2 by (destruct NBb as [->|Hn]; [done|]; intros ->; apply Hn, In6, Fe).
  assert (bc ∈ Blocks (fn s8)) as Hc8 by (apply In8; eapply ext_in; [done|apply In6, Fc]).
  pose proof (ext_set_term e bc T2 (fn s8) Hc8) as Y1. set (f9 := SetTerm (fn s8) bc T2) in *.
  assert (Bb ∈ Blocks f9) as HB9 by (eapply ext_in; [done|by apply In8]).
  assert (bc ∈ Blocks f9) as Hc9 by by eapply ext_in.
  pose proof (ext_set_term e Bb (Br bc) f9 HB9) as Y2. rewrite <- Hf in Y2.
  split; try done.
  - eapply ext_trans; [exact Y1|exact Y2| |]; simpl; naive_solver.
  - intros b. rewrite H6. by apply SetTerm_spec.
  - intros b. rewrite Hf. destruct (SetTerm_spec f9 Bb (Br bc) HB9) as (_ & _ & -> & _). by apply SetTerm_spec.
  - rewrite H6. by apply set_term_term.
  - rewrite (ext_term _ _ _ _ bc Y2) by (done || congruence). by apply set_term_term.
  - rewrite Hf. by apply set_term_term.
  - split; [apply Pd|]. pose proof (fr_new _ _ _ _ _ Fd) as Hn. by rewrite H4 in Hn.
  - split; [apply (fr_point _ _ _ _ _ Fa)|]. pose proof (fr_new _ _ _ _ _ Fa) as Hn. by rewrite child_fn in Hn.
Qed.
End paths.
