(* ===== verification/CodegenNodes.v ===== *)
(** * Every statement has its frame

    Statements extend the function at the current block only, and straight
    code, branches and the ends of blocks leave the terminators the shapes of
    CodegenSem.v count on. *)
From S2P Require Import Prelude Lexer Ast Escape Ir Codegen CodegenSem CodegenFrame CodegenExp CodegenExt CodegenPaths.

Section nodes.
Context `{Llir} (Pkgname ident : text) (params : list text) (RetType : type) (order : gset text → list text).
Implicit Types (s : cg).
#[local] Notation ExpNode_calc := (ExpNode_calc Pkgname).
#[local] Notation Node_calc := (Node_calc Pkgname ident params RetType order).

(** ** Frames *)

Lemma framed_if c st : framed st → framed (IfNode_calc Pkgname c st).
Proof.
  intros Fst. split; [apply mono_IfNode, Fst|]. intros e s B u s' P Hr.
  destruct (IfNode_path _ _ _ _ _ _ _ _ Fst P Hr) as (bt & be & Bb & v & cs & s1 & sb & s3 & s4 & Hp).
  pose proof Hp as Hf. apply if_path_funcs in Hf; [|done]. exists be.
  destruct Hf as [(Hbt & _) (Hbe & Hbe3 & Hbe' & Hnbe) X1 X2 X3 X4 X5 _ _ _ _ _ _].
  assert (∀ b, b ∈ Blocks (fn s) → b ∈ Blocks (fn sb)) as Hin by (intros b Hb; eapply ext_in; [done|by eapply ext_in]).
  assert (ext e (λ b, b = B) (fn s) (fn s')) as X.
  { eapply ext_step; [|exact X5|naive_solver]. eapply ext_step; [|exact X4|naive_solver]. eapply ext_step0; [|exact X3].
    eapply ext_step; [|exact X2|naive_solver]. eapply ext_weaken; [exact X1|naive_solver]. }
  destruct Hp as [_ _ _ _ _ _ _ _ (sc & l & Hs & Hs')].
  split; [done| | |by rewrite Hs, Hs'].
  - split; [eapply ext_head; [exact X|apply P]|unfold cur; by rewrite Hs'|done].
  - right. intros Hb. by apply Hbe, Hin.
Qed.
Lemma framed_ifelse c st el : framed st → framed el → framed (IfElseNode_calc Pkgname c st el).
Proof.
  intros Fst Fel. split; [by apply mono_IfElseNode; [apply Fst|apply Fel]|]. intros e s B u s' P Hr.
  destruct (IfElseNode_path _ _ _ _ _ _ _ _ _ Fst Fel P Hr) as (bt & bf & be & Bt & Bf & v & cs & s1 & s2 & s3 & s4 & s5 & sb & sf & Hp).
  pose proof Hp as Hf. apply ifelse_path_funcs in Hf; [|done]. exists be.
  destruct Hf as [(Ft & Ff & Fe) D P3 X3 X4 X5 X6 X7 X8 _ _ _ _ _].
  pose proof (fa_old _ _ _ _ Ft). pose proof (fa_old _ _ _ _ Ff). pose proof (fa_old _ _ _ _ Fe).
  assert (ext e (λ b, b = B) (fn s) (fn s')) as X.
  { eapply ext_step; [|exact X8|naive_solver]. eapply ext_step; [|exact X7|naive_solver]. eapply ext_step; [|exact X6|naive_solver].
    eapply ext_step; [|exact X5|naive_solver]. eapply ext_step; [|exact X4|naive_solver]. eapply ext_weaken; [exact X3|naive_solver]. }
  destruct Hp as [_ _ _ _ _ _ (sc & l & Hs & Hs5) _ _ _ _ _ _ Hs']. rewrite Hs5 in Hs'.
  split; [done| | |by rewrite Hs, Hs'].
  - split; [eapply ext_head; [exact X|apply P]|unfold cur; by rewrite Hs'|].
    eapply ext_in; [exact X8|]. do 4 (eapply ext_in; [done|]). apply Fe.
  - by right.
Qed.
Lemma framed_for c d a st : from_option framed True d → from_option framed True a → framed st → framed (ForNode_calc Pkgname c d a st).
Proof.
  intros Fd Fa Fst. split; [apply mono_ForNode; [by destruct d; [apply Fd|]|by destruct a; [apply Fa|]|apply Fst]|]. intros e s B u s' P Hr.
  destruct (ForNode_path _ _ _ _ _ _ _ _ _ _ Fd Fa Fst P Hr)
    as (bc & bb & be & B1 & Bb & Ba & T1 & T2 & s1 & s2 & s3 & s4 & sd & s5 & s6 & sb & sa & s8 & Hp).
  pose proof Hp as Hf. apply for_path_funcs in Hf; [|done]. exists be.
  destruct Hf as [(Fc & Fb & Fe) D X3 Xd X5 X6 Xb Xa X8 X9 _ _ _ _ _ (HBb & N1 & N2 & NBb) (_ & NB1) (_ & NBa)].
  pose proof (fa_old _ _ _ _ Fc). pose proof (fa_old _ _ _ _ Fb). pose proof (fa_old _ _ _ _ Fe).
  assert (∀ b, b ∈ Blocks (fn s) → b ∈ Blocks (fn s3)) as In3 by (intros; by eapply ext_in).
  assert (∀ b, b ∈ Blocks (fn s3) → b ∈ Blocks (fn s6)) as In6.
  { intros b Hb. do 3 (eapply ext_in; [done|]). done. }
  assert (∀ b, b ∈ Blocks (fn s6) → b ∈ Blocks (fn sb)) as Inb by (intros; by eapply ext_in).
  assert (∀ b, b ∈ Blocks (fn sb) → b ∈ Blocks (fn s')) as In' by (intros b Hb; do 3 (eapply ext_in; [done|]); done).
  assert (ext e (λ b, b = B) (fn s) (fn s')) as X.
  { eapply ext_step; [|exact X9|naive_solver]. eapply ext_step; [|exact X8|naive_solver]. eapply ext_step; [|exact Xa|naive_solver].
    eapply ext_step; [|exact Xb|naive_solver]. eapply ext_step; [|exact X6|naive_solver]. eapply ext_step; [|exact X5|naive_solver].
    eapply ext_step; [|exact Xd|naive_solver]. eapply ext_weaken; [exact X3|naive_solver]. }
  destruct Hp as [_ _ _ _ (sc & l & Hs & Hs4) _ _ Fdd _ _ (sc6 & l6 & Hsd & Hs6) P6 _ _ _ _ _ _ _ Hs'].
  pose proof (fr_tail _ _ _ _ _ Fdd) as Ht. rewrite Hs4, Hsd in Ht. simpl in Ht. subst l6. rewrite Hs6 in Hs'.
  split; [done| | |by rewrite Hs, Hs'].
  - split; [eapply ext_head; [exact X|apply P]|unfold cur; by rewrite Hs'|]. apply In', Inb, P6.
  - by right.
Qed.

(** ** Straight code

    It stays in its block, which keeps its terminator, and in its loop. *)
Definition loops s : option (option nat * option nat) := match scopes s with sc :: _ => Some (continueBlock sc, breakBlock sc) | [] => None end.
Definition steady {A} (m : CG A) : Prop := mono m ∧ ∀ e s B a s', point e s B → runs m s a s' →
  frame e s s' B B ∧ Term (fn s') B = Term (fn s) B ∧ loops s' = loops s.
Lemma steady_framed {A} (m : CG A) : steady m → framed m.
Proof. intros [Hm Sm]. split; [done|]. intros e s B a s' P Hr. exists B. by eapply Sm. Qed.
Lemma steady_bind {A C} (m : CG A) (k : A → CG C) : steady m → (∀ a, steady (k a)) → steady (m ≫= k).
Proof.
  intros [Hm Sm] Hk. split; [apply mono_bind; [done|]; intros a; apply Hk|]. intros e s B b s' P Hr.
  apply cg_runs_bind in Hr as (a & s1 & H1 & H2); [|done|intros; apply Hk]. destruct (Sm e s B a s1 P H1) as (F1 & T1 & L1).
  destruct (proj2 (Hk a) e s1 B b s' (fr_point _ _ _ _ _ F1) H2) as (F2 & T2 & L2). split; [by eapply frame_trans|]. split; congruence.
Qed.
Lemma steady_appends {A} (m : CG A) : appends m → steady m.
Proof.
  intros [Hm Am]. split; [done|]. intros e s B a s' P Hr. by_spec Hr. eapply spec_mono; [apply (Am s B); apply P|].
  intros a' s1 [cs E]. pose proof (ef_scopes _ _ _ _ E) as Hs. split; [apply frame_scopes; [done|by eapply eff_ext|done]|].
  split; [by rewrite (ef_term _ _ _ _ E)|unfold loops; by rewrite Hs].
Qed.
Lemma steady_scope_mod g : (∀ sc, block (g sc) = block sc ∧ continueBlock (g sc) = continueBlock sc ∧ breakBlock (g sc) = breakBlock sc) →
  steady (scope_mod g).
Proof.
  intros Hg. split; [apply mono_scope_mod|]. intros e s B a s' P (Hf & sc & l & Hs & Hs')%runs_scope_mod.
  destruct (Hg sc) as (H1 & H2 & H3). split.
  - apply frame_same; [done|rewrite Hf; apply ext_refl| |by rewrite Hs, Hs'].
    pose proof (pt_cur _ _ _ P) as Hc. unfold cur in *. by rewrite Hs in Hc; rewrite Hs', H1.
  - rewrite Hf. split; [done|]. unfold loops. by rewrite Hs, Hs', H2, H3.
Qed.
Lemma appends_scope_get {A} (g : Scope → A) : appends (scope_get g).
Proof. apply appends_keep; [apply mono_scope_get|]. intros s. by apply spec_scope_get. Qed.
Lemma steady_addVar x v : steady (addVar Pkgname x v).
Proof.
  unfold addVar. apply steady_bind; [apply steady_appends, appends_getFullName|]. intros y.
  apply steady_bind; [apply steady_appends, appends_scope_get|]. intros t.
  destruct (map_get y t); [apply steady_appends, appends_ret|]. by apply steady_scope_mod.
Qed.
Lemma steady_autoAlloc x t : steady (autoAlloc x t).
Proof.
  split; [apply mono_autoAlloc|]. intros e s B v s' P Hr. destruct (autoAlloc_runs _ _ _ _ _ _ _ P Hr) as (r & i & _ & Hi & Hn & Hs).
  pose proof (ext_alloc e i r _ _ Hn (head_in _ _ _ P) (alloc_of_is _ _ Hi)) as X. split; [|split].
  - apply frame_scopes; [done| |done]. eapply ext_weaken; [exact X|done].
  - apply (ext0_term e); [done|apply P].
  - unfold loops. by rewrite Hs.
Qed.
Lemma appends_type t : appends (BasicTypeNode_calc t).
Proof. unfold BasicTypeNode_calc. by repeat case_match; first [apply appends_ret|apply appends_not_modelled]. Qed.
Lemma steady_define x t : steady (DefineNode_calc Pkgname x t).
Proof.
  unfold DefineNode_calc. apply steady_bind; [apply steady_appends, appends_type|]. intros tp.
  apply steady_bind; [apply steady_autoAlloc|]. intros v. apply steady_addVar.
Qed.
Lemma steady_def_assign e x : steady (DefAndAssignNode_calc Pkgname e x).
Proof.
  unfold DefAndAssignNode_calc. apply steady_bind; [apply steady_appends, exp_appends|]. intros v0.
  apply steady_bind; [apply steady_appends, appends_loadIfVar|]. intros v. cbv zeta.
  apply steady_bind; [apply steady_autoAlloc|]. intros p. apply steady_bind; [apply steady_appends, appends_implicitCast|]. intros v1.
  apply steady_bind; [apply steady_appends, appends_store|]. intros _. apply steady_addVar.
Qed.
Lemma steady_ErrST : steady ErrSTNode_calc.
Proof. split; [apply mono_ErrST|]. intros e s B a s' P [Hr He]. exfalso. injection Hr as <- <-. simpl in He. lia. Qed.

(** ** Code that ends a block *)
Definition ending (m : CG unit) : Prop := mono m ∧ ∀ e s B a s', point e s B → runs m s a s' →
  frame e s s' B B ∧ Term (fn s') B ≠ None ∧ loops s' = loops s.
Lemma ending_framed m : ending m → framed m.
Proof. intros [Hm Em]. split; [done|]. intros e s B a s' P Hr. exists B. by eapply Em. Qed.
Lemma ending_bind {A} (m : CG A) k : steady m → (∀ a, ending (k a)) → ending (m ≫= k).
Proof.
  intros [Hm Sm] Hk. split; [apply mono_bind; [done|]; intros a; apply Hk|]. intros e s B b s' P Hr.
  apply cg_runs_bind in Hr as (a & s1 & H1 & H2); [|done|intros; apply Hk]. destruct (Sm e s B a s1 P H1) as (F1 & T1 & L1).
  destruct (proj2 (Hk a) e s1 B b s' (fr_point _ _ _ _ _ F1) H2) as (F2 & T2 & L2). split; [by eapply frame_trans|]. split; congruence.
Qed.
Lemma ending_term t : ending (b ← cur_block; set_term b t).
Proof.
  split; [mono_tac|]. intros e s B a s' P Hr. apply (cur_block_inv e _ _ B) in Hr as [Hf Hs]%runs_set_term; [|done|intros; mono_tac].
  split; [|split].
  - apply frame_scopes; [done| |done]. rewrite Hf. apply ext_set_term, P.
  - rewrite Hf, set_term_term by apply P. done.
  - unfold loops. by rewrite Hs.
Qed.
Lemma ending_panic : ending panic.
Proof. split; [apply mono_panic|]. by intros e s B a s' P [? _]. Qed.
Lemma ending_ret e : ending (RetNode_calc Pkgname RetType e).
Proof.
  unfold RetNode_calc. destruct e as [e|]; [|apply ending_term]. apply ending_bind; [apply steady_appends, exp_appends|]. intros v0.
  apply ending_bind; [apply steady_appends, appends_loadIfVar|]. intros v1. apply ending_bind; [apply steady_appends, appends_implicitCast|].
  intros v2. apply ending_term.
Qed.
Lemma ending_break : ending BreakNode_calc.
Proof.
  unfold BreakNode_calc. apply ending_bind; [apply steady_appends, appends_scope_get|]. intros [b|]; [apply ending_term|apply ending_panic].
Qed.
Lemma ending_continue : ending ContinueNode_calc.
Proof.
  unfold ContinueNode_calc. apply ending_bind; [apply steady_appends, appends_scope_get|]. intros [b|]; [apply ending_term|apply ending_panic].
Qed.

(** ** All statements *)

Lemma framed_children ch : Forall (λ n, framed (Node_calc n)) ch → framed (calc_children Node_calc ch).
Proof.
  induction 1 as [|n ch Hn Hch IH]; simpl; [apply framed_appends, appends_ret|]. apply framed_bind; [|done].
  split; [by apply mono_recovering, Hn|]. intros e s B a s' P Hr. apply runs_recovering in Hr; [|apply Hn]. by eapply Hn.
Qed.
Lemma steady_heap_table h : steady (set_heap_table h).
Proof. by apply steady_scope_mod. Qed.
Lemma framed_Node n : framed (Node_calc n).
Proof.
  induction n as [e|ch IH|l s| |x t|e|e x|b st IH|b st el IHs IHe|b d a st IHd IHa IH| | |e] using Node_ind_children; cbn [Codegen.Node_calc].
  - apply framed_appends, appends_bind; [apply exp_appends|]. intros _. apply appends_ret.
  - unfold SLNode_calc. destruct (analyse _ _ _ _); [|apply framed_appends, appends_panic].
    apply framed_bind; [apply steady_framed, steady_heap_table|]. intros _. by apply framed_children.
  - apply steady_framed, steady_ErrST.
  - apply framed_appends, appends_ret.
  - apply steady_framed, steady_define.
  - apply ending_framed, ending_ret.
  - apply steady_framed, steady_def_assign.
  - by apply framed_if.
  - by apply framed_ifelse.
  - apply framed_for; [by destruct d|by destruct a|done].
  - apply ending_framed, ending_break.
  - apply ending_framed, ending_continue.
  - apply framed_appends, appends_not_modelled.
Qed.

(** ** The blocks of a list of statements

    [B] is the block the list starts in. *)
Record facts (ch : list Node) s (B : nat) s' : Prop := mk_facts {
  fc_cur : existsb branches ch = false → cur s' = Some B;
  fc_term : existsb branches ch = false → existsb leaves ch = false → Term (fn s') B = Term (fn s) B;
  fc_closed : existsb branches ch = true ∨ existsb leaves ch = true → Term (fn s') B ≠ None;
  fc_new : existsb branches ch = true → ∀ B', cur s' = Some B' → B' ∉ Blocks (fn s);
  fc_joined : existsb leaves ch = false → ∀ n, last_branch ch = Some n → is_for n = false →
    ∀ B' p, parent_block s = Some p → cur s' = Some B' → Term (fn s') B' = Some (Br p);
  fc_loops : existsb is_for ch = false → loops s' = loops s;
}.
Lemma facts_nil e s B : point e s B → facts [] s B s.
Proof. intros P. split; try done; try (intros; apply P). by intros [?|?]. Qed.
Lemma last_branch_none ch : last_branch ch = None ↔ existsb branches ch = false.
Proof.
  unfold last_branch. induction ch as [|n ch IH]; [done|]. rewrite filter_cons. simpl. case_decide as Hn.
  - rewrite Hn. simpl. split; [|done]. rewrite last_None. done.
  - destruct (branches n); [done|]. done.
Qed.
Lemma last_branch_cons n ch : last_branch (n :: ch) =
  match last_branch ch with Some k => Some k | None => if branches n then Some n else None end.
Proof.
  unfold last_branch. rewrite filter_cons. case_decide as Hn; [|destruct (branches n); [done|by destruct (last _)]].
  rewrite Hn, last_cons. by destruct (last _).
Qed.
Lemma parent_same e s s' B B' : frame e s s' B B' → parent_block s' = parent_block s.
Proof.
  intros F. pose proof (fr_tail _ _ _ _ _ F) as Ht. unfold parent_block. 
  pose proof (pt_cur _ _ _ (fr_point _ _ _ _ _ F)) as Hc. unfold cur in Hc.
  destruct (scopes s) as [|sc l], (scopes s') as [|sc' l']; simpl in *; subst; done.
Qed.
Lemma facts_cons n ch e s B s1 B1 s2 B2 : frame e s s1 B B1 → frame e s1 s2 B1 B2 → B ∈ Blocks (fn s) →
  facts [n] s B s1 → facts ch s1 B1 s2 → facts (n :: ch) s B s2.
Proof.
  intros F1 F2 HB [C1 T1 K1 N1 J1 L1] [C2 T2 K2 N2 J2 L2]. simpl in *. rewrite !orb_false_r in *.
  pose proof (pt_cur _ _ _ (fr_point _ _ _ _ _ F1)) as Hc1. pose proof (fr_ext _ _ _ _ _ F2) as X2. pose proof (fr_ext _ _ _ _ _ F1) as X1.
  assert (B ∈ Blocks (fn s1)) as HB1 by by eapply ext_in.
  assert (B1 = B ∨ B1 ≠ B ∧ Term (fn s2) B = Term (fn s1) B) as HT.
  { destruct (decide (B1 = B)) as [->|Hne]; [by left|right]. split; [done|]. by apply (ext_term _ _ _ _ _ X2); [|congruence]. }
  assert (branches n = true → B1 ≠ B) as Hne by (intros Hb ->; by eapply (N1 Hb)).
  split; simpl.
  - intros [Hb Hbs]%orb_false_iff. specialize (C1 Hb). assert (B1 = B) as -> by congruence. auto.
  - intros [Hb Hbs]%orb_false_iff [Hl Hls]%orb_false_iff. specialize (C1 Hb). assert (B1 = B) as -> by congruence.
    rewrite T2, T1; done.
  - rewrite !orb_true_iff. intros Hx. destruct HT as [->|[Hn ->]].
    + assert (branches n = false) as Hb by (destruct (branches n); naive_solver).
      destruct (existsb branches ch) eqn:Hbs; [by apply K2; left|]. destruct (existsb leaves ch) eqn:Hls; [by apply K2; right|].
      rewrite T2 by done. apply K1. rewrite Hb in *. naive_solver.
    + apply K1. destruct (branches n); [by left|]. exfalso. specialize (C1 eq_refl). congruence.
  - intros Hx B' HB'. assert (cur s2 = Some B2) as Hc2 by apply (fr_point _ _ _ _ _ F2). assert (B' = B2) as -> by congruence.
    destruct (existsb branches ch) eqn:Hbs; [intros Hin; apply (N2 eq_refl B2 Hc2); by eapply ext_in|].
    assert (B2 = B1) as -> by (specialize (C2 eq_refl); congruence). rewrite orb_false_r in Hx. by apply N1.
  - intros [Hl Hls]%orb_false_iff k Hk Hfor B' p Hp HB'. rewrite last_branch_cons in Hk.
    destruct (last_branch ch) as [k'|] eqn:Hlb.
    + injection Hk as ->. apply (J2 Hls k eq_refl Hfor B' p); [|done]. by rewrite (parent_same _ _ _ _ _ F1).
    + apply last_branch_none in Hlb. assert (B' = B1) as -> by (specialize (C2 Hlb); congruence).
      rewrite T2 by done. destruct (branches n) eqn:Hb; [|done]. injection Hk as ->. apply (J1 Hl k); [|done..].
      unfold last_branch. by rewrite filter_cons_True.
  - intros [Hf Hfs]%orb_false_iff. rewrite L2, L1; done.
Qed.

Lemma facts_steady {A} (m : CG A) n e s B a s' : steady m → branches n = false → leaves n = false → point e s B → runs m s a s' → facts [n] s B s'.
Proof.
  intros [_ Sm] Hb Hl P Hr. destruct (Sm e s B a s' P Hr) as (F & T & L). split; simpl; rewrite ?Hb, ?Hl; try done.
  - intros _. apply F.
  - by intros [?|?].
  - intros _ k. unfold last_branch. rewrite filter_cons_False; [done|by rewrite Hb].
Qed.
Lemma facts_ending m n e s B a s' : ending m → branches n = false → leaves n = true → point e s B → runs m s a s' → facts [n] s B s'.
Proof.
  intros [_ Em] Hb Hl P Hr. destruct (Em e s B a s' P Hr) as (F & T & L). split; simpl; rewrite ?Hb, ?Hl; try done.
  intros _. apply F.
Qed.
Lemma facts_if c st k e s B u s' : framed (Node_calc st) → point e s B → k = IfNode c st → runs (Node_calc k) s u s' → facts [k] s B s'.
Proof.
  intros Fst P -> Hr. cbn [Codegen.Node_calc] in Hr.
  destruct (IfNode_path _ _ _ _ _ _ _ _ Fst P Hr) as (bt & be & Bb & v & cs & s1 & sb & s3 & s4 & Hp).
  pose proof Hp as Hf. apply if_path_funcs in Hf; [|done].
  destruct Hf as [_ (Hbe & Hbe3 & Hbe' & Hnbe) X1 X2 X3 X4 X5 _ _ _ TB Tt Te].
  destruct Hp as [_ _ _ _ _ _ _ _ (sc & l & Hs & Hs')].
  assert (cur s' = Some be) as Hc by (unfold cur; by rewrite Hs'). split; simpl; try done.
  - by rewrite TB.
  - intros _ B' HB' Hin. assert (B' = be) as -> by congruence. apply Hbe. eapply ext_in; [done|by eapply ext_in].
  - intros _ n [= <-] _ B' p Hpb HB'. assert (B' = be) as -> by congruence. by rewrite Te, Hpb.
  - intros _. unfold loops. by rewrite Hs, Hs'.
Qed.
Lemma facts_ifelse c st el k e s B u s' : framed (Node_calc st) → framed (Node_calc el) → point e s B →
  k = IfElseNode c st el → runs (Node_calc k) s u s' → facts [k] s B s'.
Proof.
  intros Fst Fel P -> Hr. cbn [Codegen.Node_calc] in Hr.
  destruct (IfElseNode_path _ _ _ _ _ _ _ _ _ Fst Fel P Hr) as (bt & bf & be & Bt & Bf & v & cs & s1 & s2 & s3 & s4 & s5 & sb & sf & Hp).
  pose proof Hp as Hf. apply ifelse_path_funcs in Hf; [|done].
  destruct Hf as [(Ft & Ff & Fe) D P3 X3 X4 X5 X6 X7 X8 _ _ TB Tt Tf]. destruct D as (D1 & D2 & D3 & D4 & D5 & D6).
  destruct Hp as [_ _ _ _ _ _ (sc & l & Hs & Hs5) _ _ _ _ _ Hfn Hs']. rewrite Hs5 in Hs'.
  assert (cur s' = Some be) as Hc by (unfold cur; by rewrite Hs').
  assert (∀ b, b ∈ Blocks (fn s3) → b ∈ Blocks (fn s5)) as In5 by (intros b Hb; do 2 (eapply ext_in; [done|]); done).
  assert (∀ b, b ∈ Blocks (fn s5) → b ∈ Blocks (fn sf)) as Inf by (intros b Hb; do 2 (eapply ext_in; [done|]); done).
  split; simpl; try done.
  - intros _. assert (B ∈ Blocks (fn s5)) as HB by apply In5, P3.
    rewrite (ext_term _ _ _ _ B X8), (ext_term _ _ _ _ B X7), (ext_term _ _ _ _ B X6); [by rewrite TB|done|congruence|by eapply ext_in|congruence|by apply Inf|naive_solver].
  - intros _ B' HB' Hin. assert (B' = be) as -> by congruence. by apply (fa_old _ _ _ _ Fe).
  - intros _ n [= <-] _ B' p Hpb HB'. assert (B' = be) as -> by congruence. rewrite Hfn, Hpb. simpl. apply set_term_term.
    pose proof (In5 _ (fa_in _ _ _ _ Fe)) as He5. apply Inf in He5.
    eapply (ext_in e); [apply closed_ext; eapply (ext_in e); [apply closed_ext|]|eapply (ext_in e); [apply closed_ext|done]]; apply Inf, In5; [apply Ft|apply Ff|apply Ft].
  - intros _. unfold loops. by rewrite Hs, Hs'.
Qed.
Lemma for_define_steady c d a st e s B s' bc bb be B1 Bb Ba T1 T2 s1 s2 s3 s4 sd s5 s6 sb sa s8 : steady d →
  for_path Pkgname c d a st e s B s' bc bb be B1 Bb Ba T1 T2 s1 s2 s3 s4 sd s5 s6 sb sa s8 → B1 = B.
Proof.
  intros [_ Sd] [_ _ _ _ _ P4 Hd Fdd _ _ _ _ _ _ _ _ _ _ _ _]. destruct (Sd e s4 B tt sd P4 Hd) as (F & _).
  pose proof (pt_cur _ _ _ (fr_point _ _ _ _ _ F)). pose proof (pt_cur _ _ _ (fr_point _ _ _ _ _ Fdd)). congruence.
Qed.
Lemma facts_for c d a st k e s B u s' : from_option (λ n, steady (Node_calc n)) True d → k = ForNode c d a st →
  point e s B → runs (Node_calc k) s u s' → facts [k] s B s'.
Proof.
  intros Sd -> P Hr. cbn [Codegen.Node_calc] in Hr.
  assert (steady (match Node_calc <$> d with Some d => d | None => mret tt end)) as Sd'.
  { destruct d; [done|]. apply steady_appends, appends_ret. }
  apply (ForNode_path _ _ _ _ _ e _ B) in Hr
    as (bc & bb & be & B1 & Bb & Ba & T1 & T2 & s1 & s2 & s3 & s4 & sd & s5 & s6 & sb & sa & s8 & Hp); [|destruct d; [apply framed_Node|done]|destruct a; [apply framed_Node|done]|apply framed_Node|done].
  pose proof (for_define_steady _ _ _ _ _ _ _ _ _ _ _ _ _ _ _ _ _ _ _ _ _ _ _ _ _ _ Sd' Hp) as ->. pose proof Hp as Hf. apply for_path_funcs in Hf; [|done].
  destruct Hf as [(Fc & Fb & Fe) D X3 Xd X5 X6 Xb Xa X8 X9 _ _ TB1 _ _ (HBb & N1 & N2 & NBb) (HB1 & NB1) (_ & NBa)].
  destruct Hp as [_ _ _ _ _ _ Hd Fdd _ _ (sc6 & l6 & Hsd & Hs6) P6 _ _ _ _ _ _ _ Hs'].
  assert (cur s' = Some be) as Hc by (unfold cur; by rewrite Hs', Hs6).
  assert (∀ b, b ∈ Blocks (fn s6) → b ≠ bb → b ≠ bc → Term (fn s') b = Term (fn s6) b) as Hback.
  { intros b Hb H1 H2. assert (b ∈ Blocks (fn sb)) as Hbb by by eapply ext_in. assert (b ∈ Blocks (fn sa)) as Hba by by eapply ext_in.
    assert (b ≠ Ba) as H3 by (destruct NBa as [->|Hn]; congruence).
    assert (b ≠ Bb) as H4 by (destruct NBb as [->|Hn]; congruence).
    rewrite (ext_term _ _ _ _ b X9), (ext_term _ _ _ _ b X8), (ext_term _ _ _ _ b Xa), (ext_term _ _ _ _ b Xb); try done; [by eapply ext_in|naive_solver]. }
  split; simpl; try done.
  - intros _. rewrite Hback, TB1; [done|eapply ext_in; [exact X6|]; by eapply ext_in|naive_solver|naive_solver].
  - intros _ B' HB' Hin. assert (B' = be) as -> by congruence. by apply (fa_old _ _ _ _ Fe).
  - intros _ n [= <-]. done.
Qed.

Lemma steady_simple d : is_assign (Some d) = true ∨ (∃ e x, d = DefAndAssignNode e x) → steady (Node_calc d).
Proof.
  intros [Hd|(e & x & ->)]; [|apply steady_def_assign]. destruct d; try done. cbn [Codegen.Node_calc].
  apply steady_appends, appends_bind; [apply exp_appends|]. intros _. apply appends_ret.
Qed.
(** The definition of a loop is an assignment or a definition. *)
Lemma for_ok_define lp t c d a st t' : node_ok lp t (ForNode c d a st) = Some t' → from_option (λ n, steady (Node_calc n)) True d.
Proof.
  cbn [node_ok]. destruct d as [d|]; [|done]. intros Hok. simpl. apply steady_simple. destruct d; try done; try (by left). right. by eexists _, _.
Qed.
Lemma facts_node lp t n t' e s B u s' : node_ok lp t n = Some t' → point e s B → runs (Node_calc n) s u s' → facts [n] s B s'.
Proof.
  intros Hok P Hr. destruct n as [c|ch|l z| |x tp|c|c x|b st|b st el|b d a st| | |c]; try done.
  - eapply facts_steady; [|done..|exact P|exact Hr]. apply steady_simple. by left.
  - eapply facts_steady; [|done..|exact P|exact Hr]. apply steady_appends, appends_ret.
  - eapply facts_steady; [|done..|exact P|exact Hr]. apply steady_define.
  - eapply facts_ending; [|done..|exact P|exact Hr]. apply ending_ret.
  - eapply facts_steady; [|done..|exact P|exact Hr]. apply steady_def_assign.
  - by eapply facts_if; [apply framed_Node|exact P|..].
  - by eapply facts_ifelse; [apply framed_Node|apply framed_Node|exact P|..].
  - eapply facts_for; [by eapply for_ok_define|done|done|done].
  - eapply facts_ending; [|done..|exact P|exact Hr]. apply ending_break.
  - eapply facts_ending; [|done..|exact P|exact Hr]. apply ending_continue.
Qed.

Lemma children_ok_empty lp t ch : forallb is_empty ch = true → children_ok node_ok lp t ch = Some t.
Proof.
  revert lp. induction ch as [|n ch IH]; intros lp; [done|]. simpl. rewrite andb_true_iff. intros [Hn Hch]. destruct n; try done. simpl. by apply IH.
Qed.
Lemma children_ok_cons lp t n ch t' : children_ok node_ok lp t (n :: ch) = Some t' →
  is_list n = false ∧ ∃ t1, node_ok lp t n = Some t1 ∧
    children_ok node_ok (lp && negb (is_for n)) t1 ch = Some t' ∧ (leaves n = true → forallb is_empty ch = true).
Proof.
  cbn [children_ok]. destruct (is_list n); [done|]. destruct (node_ok lp t n) as [t1|]; [|done]. simpl. intros Hok. split; [done|].
  exists t1. split; [done|]. destruct (leaves n); [|done]. destruct (forallb is_empty ch) eqn:He; [|done]. injection Hok as ->.
  split; [by apply children_ok_empty|done].
Qed.
Lemma runs_children_cons n ch s u s' : runs (calc_children Node_calc (n :: ch)) s u s' →
  ∃ s1, runs (Node_calc n) s tt s1 ∧ runs (calc_children Node_calc ch) s1 u s'.
Proof.
  simpl. intros Hr. apply cg_runs_bind in Hr as ([] & s1 & H1 & H2).
  - exists s1. split; [|done]. eapply runs_recovering; [apply mono_Node|done].
  - apply mono_recovering, mono_Node.
  - intros _. apply mono_calc_children, Forall_forall. intros k _. apply mono_Node.
Qed.
Lemma runs_empty ch s u s' : forallb is_empty ch = true → runs (calc_children Node_calc ch) s u s' → s' = s.
Proof.
  revert s. induction ch as [|n ch IH]; intros s He Hr; [by apply cg_runs_ret in Hr as [_ ->]|].
  simpl in He. apply andb_true_iff in He as [Hn He]. apply runs_children_cons in Hr as (s1 & H1 & H2). destruct n; try done.
  apply cg_runs_ret in H1 as [_ ->]. by eapply IH.
Qed.
Lemma facts_list lp t ch t' e s B u s' : children_ok node_ok lp t ch = Some t' → point e s B →
  runs (calc_children Node_calc ch) s u s' → facts ch s B s'.
Proof.
  revert lp t s B. induction ch as [|n ch IH]; intros lp t s B Hok P Hr.
  - apply cg_runs_ret in Hr as [_ ->]. by eapply facts_nil.
  - apply children_ok_cons in Hok as (_ & t1 & Hn & Hok & _). apply runs_children_cons in Hr as (s1 & H1 & H2).
    destruct (proj2 (framed_Node n) e s B tt s1 P H1) as [B1 F1].
    destruct (proj2 (framed_children ch (proj2 (Forall_forall _ _) (λ k _, framed_Node k))) e s1 B1 u s' (fr_point _ _ _ _ _ F1) H2) as [B2 F2].
    eapply facts_cons; [exact F1|exact F2|apply P|by eapply facts_node|].
    by eapply IH; [|apply F1|].
Qed.

(** The body of a statement, in a scope of its own. *)
Lemma runs_SLNode ch s u s' : runs (Node_calc (SLNode ch)) s u s' → ∃ h s1,
  runs (set_heap_table h) s tt s1 ∧ runs (calc_children Node_calc ch) s1 u s'.
Proof.
  cbn [Codegen.Node_calc]. unfold SLNode_calc. destruct (analyse _ _ _ _) as [k|]; [|by intros [? _]]. intros Hr.
  apply cg_runs_bind in Hr as ([] & s1 & H1 & H2); [by exists (heapAllocTable k), s1|mono_tac|].
  intros _. apply mono_calc_children, Forall_forall. intros n _. apply mono_Node.
Qed.
Lemma facts_pre ch e s B s1 s2 : frame e s s1 B B → Term (fn s1) B = Term (fn s) B → loops s1 = loops s → facts ch s1 B s2 → facts ch s B s2.
Proof.
  intros F HT HL [C T K N J L]. split; try done.
  - intros. by rewrite T.
  - intros Hb B' HB' Hin. eapply N; [done|done|]. eapply ext_in; [apply F|done].
  - intros Hl n Hn Hf B' p Hp. apply (J Hl n Hn Hf). by rewrite (parent_same _ _ _ _ _ F).
  - intros. by rewrite L.
Qed.
Lemma facts_body lp t n e s B u s' : block_ok node_ok lp t n = true → point e s B → runs (Node_calc n) s u s' → facts (children_of n) s B s'.
Proof.
  intros Hok P Hr. unfold block_ok in Hok. destruct n as [c|ch|l z| |x tp|c|c x|b st|b st el|b d a st| | |c]; 
    try (destruct (node_ok lp _ _) as [t'|] eqn:Hn; [by eapply facts_node|done]).
  destruct (children_ok _ _ _ _) as [t'|] eqn:Hn; [|done]. apply runs_SLNode in Hr as (h & s1 & H1 & H2).
  destruct (proj2 (steady_heap_table h) e s B tt s1 P H1) as (F & HT & HL). eapply facts_pre; [exact F|done|done|].
  eapply facts_list; [exact Hn|apply F|done].
Qed.
End nodes.
