(* ===== verification/CodegenGood.v ===== *)
(** * The variables of the generator

    Behind every statement of a checked body the scopes hold the names the
    check counts, each name has an allocation of its own in the first block, and
    an instruction is in one place of the function ([good]). *)
From S2P Require Import Prelude Lexer Ast Escape Ir Codegen CodegenSem CodegenFrame CodegenExp CodegenExt CodegenPaths CodegenNodes.

Abbreviation table := (list (text * value)).

Section good.
Context `{Llir} (Pkgname ident : text) (params : list text) (RetType : type) (order : gset text → list text).
Implicit Types (s : cg).
#[local] Notation ExpNode_calc := (ExpNode_calc Pkgname).
#[local] Notation Node_calc := (Node_calc Pkgname ident params RetType order).
#[local] Notation full := (full Pkgname).

(** ** Tables of variables *)

Definition tables s : list table := vartable <$> scopes s.
Definition alloc_in (l : list (nat * inst)) (r : nat) (t : type) : Prop := ∃ i, (r, i) ∈ l ∧ alloc_of t i.

(** The entries of a scope stand for names of the scope. *)
Definition tab_ok (f : Func) (e : nat) (ns : list text) (tb : table) : Prop :=
  ∀ y v, (y, v) ∈ tb → ∃ x r t, x ∈ ns ∧ full x = Some y ∧ v = Inst r (PointerType t) ∧ alloc_in (Insts f e) r t.
Record good (e : nat) s (t : names) : Prop := mk_good {
  gd_tab : Forall2 (tab_ok (fn s) e) t (tables s);
  gd_vars : NoDup (tables s ≫= λ tb, tb.*2);
  gd_plain : Forall (Forall (λ x, plain x = true)) t;
  gd_uniq : uniq (fn s);
}.

Lemma map_get_elem {A} k (l : list (text * A)) v : map_get k l = Some v → (k, v) ∈ l.
Proof. induction l as [|[k' v'] l IH]; [done|]. simpl. case_decide as Hk; [intros [= ->]; subst; by left|]. intros Hg. right. auto. Qed.
Lemma alloc_in_mono l l' r t : alloc_in l r t → l ⊆ l' → alloc_in l' r t.
Proof. intros (i & Hi & Ha) Hl. exists i. split; [by apply Hl|done]. Qed.
Lemma prefix_subseteq {A} (l l' : list A) : l `prefix_of` l' → l ⊆ l'.
Proof. intros [k ->] x Hx. apply elem_of_app. by left. Qed.
Lemma alloc_in_ext e M f f' b r t : ext e M f f' → b ∈ Blocks f → alloc_in (Insts f b) r t → alloc_in (Insts f' b) r t.
Proof. intros X Hb Ha. eapply alloc_in_mono; [done|]. by eapply prefix_subseteq, ex_insts. Qed.
Lemma alloc_known f e r t : e ∈ Blocks f → alloc_in (Insts f e) r t → known f r.
Proof. intros He (i & [k Hk]%list_elem_of_lookup & _). by exists e, k, i. Qed.

Lemma tables_eq s s' : scopes s' = scopes s → tables s' = tables s.
Proof. unfold tables. by intros ->. Qed.
Lemma search_tables y l l' : vartable <$> l = vartable <$> l' → search y l = search y l'.
Proof.
  revert l'. induction l as [|sc l IH]; intros [|sc' l'] Hl; try done. simpl in *. injection Hl as Hv Hl. rewrite Hv. by rewrite (IH l').
Qed.
(** A variable that is found is in one of the tables. *)
Lemma search_elem y l v : search y l = Some v → ∃ tb, tb ∈ vartable <$> l ∧ map_get y tb = Some v.
Proof.
  induction l as [|sc l IH]; [done|]. simpl. destruct (map_get y (vartable sc)) eqn:Hg; [intros [= ->]|intros Hs].
  - exists (vartable sc). split; [by left|done].
  - destruct (IH Hs) as (tb & Htb & Hv). exists tb. split; [by right|done].
Qed.
Lemma good_entry e s t tb y v : good e s t → tb ∈ tables s → map_get y tb = Some v →
  ∃ ns x r tp, ns ∈ t ∧ x ∈ ns ∧ full x = Some y ∧ v = Inst r (PointerType tp) ∧ alloc_in (Insts (fn s) e) r tp.
Proof.
  intros G Htb Hv%map_get_elem. apply list_elem_of_lookup in Htb as [i Hi].
  destruct (Forall2_lookup_r _ _ _ _ _ (gd_tab _ _ _ G) Hi) as (ns & Hns & Hok).
  destruct (Hok y v Hv) as (x & r & tp & Hx & Hf & -> & Ha). exists ns, x, r, tp. split; [by eapply list_elem_of_lookup_2|done].
Qed.
Lemma good_tab_known e s t B : good e s t → point e s B → tab_known s.
Proof.
  intros G P y v (tb & Htb & Hv)%search_elem. destruct (good_entry _ _ _ _ _ _ G Htb Hv) as (ns & x & r & tp & _ & _ & _ & -> & Ha).
  intros r' t' [= <- <-]. by eapply alloc_known; [eapply head_in|].
Qed.

(** *** What keeps them *)
Lemma good_ext e M s s' t B : good e s t → point e s B → ext e M (fn s) (fn s') → tables s' = tables s → good e s' t.
Proof.
  intros [G1 G2 G3 G4] P X Ht. split; rewrite ?Ht; try done; [|by eapply ex_uniq].
  eapply Forall2_impl; [done|]. intros ns tb Hok y v Hv. destruct (Hok y v Hv) as (x & r & tp & ? & ? & ? & Ha).
  exists x, r, tp. do 3 (split; [done|]). eapply alloc_in_ext; [done|by eapply head_in|done].
Qed.
Lemma good_child e s t B b : good e s t → point e s B → b ∈ Blocks (fn s) → good e (child s b) ([] :: t).
Proof.
  intros [G1 G2 G3 G4] P Hb. pose proof (pt_cur _ _ _ P) as Hc. unfold cur in Hc.
  assert (tables (child s b) = [] :: tables s) as Ht by (unfold tables, child; by destruct (scopes s)).
  split; rewrite ?Ht, ?child_fn; try done.
  - constructor; [|done]. intros y v ?%not_elem_of_nil. done.
  - by constructor.
Qed.
(** The name and the variable a definition adds. *)
Lemma addVar_runs x v s u s' ns t e : good e s (ns :: t) → plain x = true → x ∉ ns → runs (addVar Pkgname x v) s u s' →
  ∃ y tb tbs, full x = Some y ∧ tables s = tb :: tbs ∧ tables s' = ((y, v) :: tb) :: tbs ∧ map_get y tb = None ∧ fn s' = fn s.
Proof.
  intros G Hx Hns Hr. unfold addVar in Hr. runs_inv Hr as (y & s1 & H1 & Hr).
  assert (full x = Some y ∧ s1 = s) as [Hy ->].
  { destruct H1 as [H1 _]. rewrite getFullName_full in H1. destruct (full x); [|done]. by injection H1 as <- <-. }
  runs_inv Hr as (tb & s1 & [-> (sc & l & Hs & ->)]%runs_scope_get & Hr).
  destruct (map_get y (vartable sc)) as [v'|] eqn:Hg.
  - exfalso. pose proof (gd_tab _ _ _ G) as Ht. unfold tables in Ht. rewrite Hs in Ht. inversion Ht as [|? ? ? ? Hok]; subst.
    destruct (Hok y v' (map_get_elem _ _ _ Hg)) as (x' & r & tp & Hx' & Hf & _).
    pose proof (gd_plain _ _ _ G) as Hp. inversion Hp as [|? ? Hpn]; subst. rewrite Forall_forall in Hpn.
    assert (x' = x) as -> by (eapply full_inj; [by apply Hpn|done|done|done]). done.
  - apply runs_scope_mod in Hr as (Hf & sc' & l' & Hs' & Hs''). rewrite Hs in Hs'. injection Hs' as <- <-.
    exists y, (vartable sc), (vartable <$> l). unfold tables. by rewrite Hs, Hs''.
Qed.
Lemma good_define e s s' x y r tp tb tbs ns t : good e s (ns :: t) → plain x = true → full x = Some y → tables s = tb :: tbs →
  tables s' = ((y, Inst r (PointerType tp)) :: tb) :: tbs → fn s' = fn s → alloc_in (Insts (fn s) e) r tp →
  Inst r (PointerType tp) ∉ (tables s ≫= λ tb, tb.*2) → good e s' ((x :: ns) :: t).
Proof.
  intros [G1 G2 G3 G4] Hx Hy Hs Hs' Hf Ha Hn. rewrite Hs in G1, G2, Hn. inversion G1 as [|? ? ? ? Hok Hoks]; subst. inversion G3 as [|? ? Hp Hps]; subst.
  split; rewrite ?Hs', ?Hf; try done.
  - constructor; [|done]. intros y' v [[= -> ->]|Hv]%elem_of_cons.
    + exists x, r, tp. split; [by left|done].
    + destruct (Hok y' v Hv) as (x' & r' & tp' & ? & ?). exists x', r', tp'. split; [by right|done].
  - simpl. constructor; [|done]. exact Hn.
  - constructor; [|done]. by constructor.
Qed.

(** ** Definitions *)

(** What is known once a name [x] stands for the allocation [r] in the current
    scope. *)
Record defined (e : nat) s s' (x : text) (r : nat) (tp : type) (ns : list text) (t : names) : Prop := mk_defined {
  df_good : good e s' ((x :: ns) :: t);
  df_tables : ∃ y tb tbs, full x = Some y ∧ tables s = tb :: tbs ∧ tables s' = ((y, Inst r (PointerType tp)) :: tb) :: tbs;
  df_alloc : alloc_in (Insts (fn s') e) r tp;
}.
Lemma new_not_in_tables e s t r tp : good e s t → e ∈ Blocks (fn s) → ¬ known (fn s) r → Inst r tp ∉ (tables s ≫= λ tb, tb.*2).
Proof.
  intros G He Hr (tb & Hv & Htb)%list_elem_of_bind. apply list_elem_of_fmap in Hv as ([y v] & Heq & Hv). simpl in Heq. subst v.
  apply list_elem_of_lookup in Htb as [i Hi].
  destruct (Forall2_lookup_r _ _ _ _ _ (gd_tab _ _ _ G) Hi) as (ns & _ & Hok).
  destruct (Hok y _ Hv) as (x & r' & tp' & _ & _ & [= -> ->] & Ha). apply Hr. by eapply alloc_known.
Qed.
Lemma alloc_new e s i r f' tp B : point e s B → NewInst (fn s) e i = (r, f') → alloc_of tp i →
  ¬ known (fn s) r ∧ alloc_in (Insts f' e) r tp ∧ Insts f' e = Insts (fn s) e ++ [(r, i)].
Proof.
  intros P Hn Ha. pose proof (head_in _ _ _ P) as He. destruct (NewInst_uniq _ _ _ _ _ Hn He) as [Hk _].
  destruct (NewInst_spec _ _ _ _ _ Hn He) as (_ & _ & Hcur & _ & _). split; [done|]. split; [|done].
  rewrite Hcur. exists i. split; [set_solver|done].
Qed.

Definition type_is (t : TypeNode) (tp : type) : Prop := ∀ w, width_of t = Some w → tp = IntType w.
Lemma type_runs t s tp s' : runs (BasicTypeNode_calc t) s tp s' → s' = s ∧ type_is t tp.
Proof.
  intros [Hr _]. unfold BasicTypeNode_calc in Hr. unfold type_is, width_of. destruct t as [r [|] n p q| | | |]; try done.
  destruct (typedic r) as [tp'|]; [|done]. injection Hr as <- <-. split; [done|]. intros w. destruct n; [|done]. simpl.
  destruct tp'; [|done..]. by intros [= ->].
Qed.
Lemma DefineNode_runs x tn e s B u s' ns t : point e s B → good e s (ns :: t) → plain x = true → x ∉ ns →
  runs (DefineNode_calc Pkgname x tn) s u s' →
  ∃ tp r i s1, type_is tn tp ∧ alloc_of tp i ∧ NewInst (fn s) e i = (r, fn s1) ∧ scopes s1 = scopes s ∧ fn s' = fn s1 ∧ defined e s s' x r tp ns t.
Proof.
  intros P G Hx Hns Hr. unfold DefineNode_calc in Hr. runs_inv Hr as (tp & s1 & [-> Htp]%type_runs & Hr).
  runs_inv Hr as (v & s2 & H2 & Hr). destruct (autoAlloc_runs _ _ _ _ _ _ _ P H2) as (r & i & -> & Hi & Hn & Hs).
  destruct (alloc_new _ _ _ _ _ _ _ P Hn Hi) as (Hk & Ha & _).
  pose proof (ext_alloc e i r _ _ Hn (head_in _ _ _ P) (alloc_of_is _ _ Hi)) as X.
  assert (good e s2 (ns :: t)) as G2 by (eapply good_ext; [exact G|exact P|exact X|by apply tables_eq]).
  destruct (addVar_runs _ _ _ _ _ _ _ _ G2 Hx Hns Hr) as (y & tb & tbs & Hy & Ht & Ht' & _ & Hf).
  exists tp, r, i, s2. do 5 (split; [done|]). split.
  - eapply good_define; [exact G2|done..|]. rewrite (tables_eq _ _ Hs). eapply new_not_in_tables; [done|by eapply head_in|done].
  - exists y, tb, tbs. split; [done|]. split; [|done]. by rewrite <- (tables_eq _ _ Hs).
  - by rewrite Hf.
Qed.

(** The type of the variable for a value. *)
Definition var_type (v : value) : type := match Type_ v with IntType w => if (w =? 1)%Z then IntType 1 else IntType 64 | t => t end.
Lemma DefAndAssignNode_runs ex x e s B u s' ns t : point e s B → good e s (ns :: t) → plain x = true → x ∉ ns →
  runs (DefAndAssignNode_calc Pkgname ex x) s u s' →
  ∃ v cs s1 i r s2 s3, runs (v ← ExpNode_calc ex; loadIfVar v) s v s1 ∧ eff s s1 B cs ∧
    alloc_of (var_type v) i ∧ NewInst (fn s1) e i = (r, fn s2) ∧ scopes s2 = scopes s1 ∧
    runs (v1 ← implicitCast v (var_type v); store v1 (Inst r (PointerType (var_type v)))) s2 (Inst r (PointerType (var_type v))) s3 ∧
    point e s2 B ∧ fn s' = fn s3 ∧ defined e s s' x r (var_type v) ns t.
Proof.
  intros P G Hx Hns Hr. unfold DefAndAssignNode_calc in Hr.
  runs_inv Hr as (v0 & s0 & H0 & Hr). runs_inv Hr as (v & s1 & H1 & Hr).
  destruct (exp_code_runs _ _ _ _ _ _ _ _ _ P H0 H1) as (Hv & cs & E). cbv zeta in Hr. fold (var_type v) in Hr.
  pose proof (eff_ext e _ _ _ _ E) as X1. pose proof (ef_scopes _ _ _ _ E) as Hs1.
  assert (point e s1 B) as P1 by (eapply fr_point, frame_scopes; [exact P|done..]).
  runs_inv Hr as (p & s2 & H2 & Hr). destruct (autoAlloc_runs _ _ _ _ _ _ _ P1 H2) as (r & i & -> & Hi & Hn & Hs2).
  destruct (alloc_new _ _ _ _ _ _ _ P1 Hn Hi) as (Hk & Ha & _).
  pose proof (ext_alloc e i r _ _ Hn (head_in _ _ _ P1) (alloc_of_is _ _ Hi)) as X2.
  assert (point e s2 B) as P2 by (eapply fr_point, frame_scopes; [exact P1|by eapply ext_weaken|done]).
  set (tp := var_type v) in *. set (p := Inst r (PointerType tp)) in *.
  runs_inv Hr as (v1 & s3' & H3 & Hr). runs_inv Hr as (p' & s3 & H4 & Hr).
  assert (p' = p) as -> by (by_spec H4; eapply spec_mono; [eapply (store_spec _ _ _ B)|by intros ?? [-> _]]; [|];
    by_spec H3; (eapply spec_mono; [apply (proj2 (appends_implicitCast v tp)); apply P2|]); intros ?? [cs3 E3];
    [rewrite (eff_cur_block _ _ _ _ E3)|rewrite (ef_blocks _ _ _ _ E3)]; apply P2).
  assert (runs (v1 ← implicitCast v tp; store v1 p) s2 p s3) as H34.
  { destruct H3 as [H3 E3], H4 as [H4 E4]. split; [|congruence]. unfold mbind, CG_bind. by rewrite H3. }
  assert (∃ cs3, eff s2 s3 B cs3) as [cs3 E3].
  { clear Hr H4. by_spec H34. eapply (proj2 (appends_bind _ _ (appends_implicitCast v tp) (λ v1, appends_store v1 p))); apply P2. }
  pose proof (eff_ext e _ _ _ _ E3) as X3. pose proof (ef_scopes _ _ _ _ E3) as Hs3.
  assert (good e s1 (ns :: t)) as G1 by (eapply good_ext; [exact G|exact P|exact X1|by apply tables_eq]).
  assert (good e s2 (ns :: t)) as G2 by (eapply good_ext; [exact G1|exact P1|exact X2|by apply tables_eq]).
  assert (good e s3 (ns :: t)) as G3 by (eapply good_ext; [exact G2|exact P2|exact X3|by apply tables_eq]).
  assert (tables s3 = tables s) as Ht3 by (apply tables_eq; congruence).
  destruct (addVar_runs _ _ _ _ _ _ _ _ G3 Hx Hns Hr) as (y & tb & tbs & Hy & Ht & Ht' & _ & Hf).
  assert (alloc_in (Insts (fn s3) e) r tp) as Ha3 by (eapply alloc_in_ext; [exact X3|by eapply head_in|done]).
  exists v, cs, s1, i, r, s2, s3. do 8 (split; [done|]). split.
  - eapply good_define; [exact G3|done..|]. rewrite Ht3, <- (tables_eq s s1) by done. eapply new_not_in_tables; [done|by eapply head_in|done].
  - exists y, tb, tbs. split; [done|]. split; [|done]. by rewrite <- Ht3.
  - by rewrite Hf.
Qed.

(** ** Every statement keeps the variables good *)

Lemma define_inv x t t' : define x t = Some t' → ∃ ns l, t = ns :: l ∧ plain x = true ∧ x ∉ ns ∧ t' = (x :: ns) :: l.
Proof. destruct t as [|ns l]; [done|]. simpl. case_decide as Hd; [|done]. intros [= <-]. exists ns, l. naive_solver. Qed.
Lemma ext_any e M f f' : ext e M f f' → ext e (λ _, True) f f'.
Proof. intros X. by eapply ext_weaken. Qed.
Lemma ext_any_trans e M f f1 f2 : ext e (λ _, True) f f1 → ext e M f1 f2 → ext e (λ _, True) f f2.
Proof. intros X1 X2. by eapply ext_step. Qed.
Lemma good_same e m s s' B B' t : frame e s s' B B' → point e s B → tables s' = tables s → runs m s tt s' → good e s t → good e s' t.
Proof. intros F P Ht _ G. by eapply good_ext; [|exact P|apply F|]. Qed.
Lemma tables_with_block b sc l s s' : scopes s = sc :: l → scopes s' = with_block b sc :: l → tables s' = tables s.
Proof. unfold tables. by intros -> ->. Qed.
Lemma tables_with_loop b c sc l s s' : scopes s = sc :: l → scopes s' = with_loop b c sc :: l → tables s' = tables s.
Proof. unfold tables. by intros -> ->. Qed.
Lemma tables_exp c e s B u s' : point e s B → runs (Node_calc (ExpSt c)) s u s' → tables s' = tables s.
Proof.
  intros P Hr. by_spec Hr. eapply spec_mono; [apply (proj2 (appends_bind _ _ (exp_appends Pkgname c) (λ _, appends_ret tt))); apply P|].
  intros _ s1 [cs E]. by apply tables_eq, (ef_scopes _ _ _ _ E).
Qed.
(** An ending leaves the tables. *)
Lemma tables_ending n e s B u s' : leaves n = true → point e s B → runs (Node_calc n) s u s' → tables s' = tables s.
Proof.
  assert (∀ t s B u s', point e s B → runs (b ← cur_block; set_term b t) s u s' → tables s' = tables s) as Ht.
  { intros t s1 B1 u1 s1' P Hr. apply (cur_block_inv e _ _ B1) in Hr as [_ Hs]%runs_set_term; [by apply tables_eq|done|intros; mono_tac]. }
  intros Hl P Hr. destruct n as [| | | | |c| | | | | | |]; try done; cbn [Codegen.Node_calc] in Hr.
  - unfold RetNode_calc in Hr. destruct c as [c|]; [|by eapply Ht].
    runs_inv Hr as (v0 & s0 & H0 & Hr). runs_inv Hr as (v & s1 & H1 & Hr). destruct (exp_code_runs _ _ _ _ _ _ _ _ _ P H0 H1) as (_ & cs & E).
    assert (point e s1 B) as P1 by (eapply fr_point, frame_scopes; [exact P|by eapply eff_ext|by eapply ef_scopes]).
    runs_inv Hr as (v2 & s2 & H2 & Hr). assert (∃ cs2, eff s1 s2 B cs2) as [cs2 E2].
    { clear Hr. by_spec H2. apply (proj2 (appends_implicitCast v RetType)); apply P1. }
    assert (point e s2 B) as P2 by (eapply fr_point, frame_scopes; [exact P1|by eapply eff_ext|by eapply ef_scopes]).
    rewrite (Ht _ _ _ _ _ P2 Hr), (tables_eq _ _ (ef_scopes _ _ _ _ E2)). apply tables_eq, E.
  - unfold BreakNode_calc in Hr. runs_inv Hr as (b & s1 & [-> _]%runs_scope_get & Hr). destruct b; [by eapply Ht|by destruct Hr].
  - unfold ContinueNode_calc in Hr. runs_inv Hr as (b & s1 & [-> _]%runs_scope_get & Hr). destruct b; [by eapply Ht|by destruct Hr].
Qed.
Lemma simple_good lp t n t' e s B u s' : (is_assign (Some n) = true ∨ ∃ c x, n = DefAndAssignNode c x) →
  node_ok lp t n = Some t' → point e s B → good e s t → runs (Node_calc n) s u s' → good e s' t'.
Proof.
  intros Hn Hok P G Hr. destruct u. destruct (proj2 (framed_Node Pkgname ident params RetType order n) e s B tt s' P Hr) as [B' F].
  destruct Hn as [Hn|(c & x & ->)].
  - destruct n; try done. injection Hok as <-. eapply good_same; [exact F|exact P|by eapply tables_exp|exact Hr|done].
  - apply define_inv in Hok as (ns & l & -> & Hx & Hns & ->).
    destruct (DefAndAssignNode_runs _ _ _ _ _ _ _ _ _ P G Hx Hns Hr) as (? & ? & ? & ? & ? & ? & ? & _ & _ & _ & _ & _ & _ & _ & _ & D).
    apply D.
Qed.

Lemma for_names lp t c d a st t' : node_ok lp t (ForNode c d a st) = Some t' →
  for_shape st = true ∧ block_ok node_ok true t' st = true ∧ is_assign a = true ∧
  match d with
  | None => t' = t
  | Some d => node_ok lp t d = Some t' ∧ (is_assign (Some d) = true ∨ ∃ c x, d = DefAndAssignNode c x ∧ x ∉ concat t)
  end.
Proof.
  cbn [node_ok]. intros Hok. 
  assert (∃ t1, match d with
    | Some (DefAndAssignNode _ x) => if decide (x ∈ concat t) then None else define x t
    | d => if is_assign d then Some t else None
    end = Some t1 ∧ (if for_shape st && block_ok node_ok true t1 st && is_assign a then Some t1 else None) = Some t') as (t1 & Hd & Hok1).
  { destruct (match d with | Some (DefAndAssignNode _ x) => _ | _ => _ end) as [t1|]; [|done]. by exists t1. }
  destruct (for_shape st), (block_ok node_ok true t1 st) eqn:Hb, (is_assign a); try done. injection Hok1 as <-.
  do 3 (split; [done|]). destruct d as [d|]; [|by injection Hd as ->]. destruct d; try done; simpl in Hd; simplify_eq; (split; [|by left]) || idtac; try done.
  case_decide as Hx; [done|]. split; [done|]. right. by eexists _, _.
Qed.

Lemma for_goods lp t c d a st t' e s B s' bc bb be B1 Bb Ba T1 T2 s1 s2 s3 s4 sd s5 s6 sb sa s8 :
  node_ok lp t (ForNode c d a st) = Some t' → point e s B → good e s t →
  for_path Pkgname c (match Node_calc <$> d with Some d => d | None => mret tt end) (match Node_calc <$> a with Some a => a | None => mret tt end)
    (Node_calc st) e s B s' bc bb be B1 Bb Ba T1 T2 s1 s2 s3 s4 sd s5 s6 sb sa s8 →
  good e s4 t ∧ tables s4 = tables s ∧ good e sd t' ∧ tables s6 = tables sd ∧ tables s' = tables sd.
Proof.
  intros Hok P G Hp. pose proof Hp as Hf. apply for_path_funcs in Hf; [|done]. destruct Hf as [_ _ X3 _ _ _ _ _ _ _ _ _ _ _ _ _ _ _].
  destruct Hp as [_ _ _ H4 (sc & l & Hs & Hs4) P4 Hd Fdd _ _ (sc6 & l6 & Hsd & Hs6) _ _ _ _ _ _ _ _ Hs'].
  pose proof (tables_with_loop _ _ _ _ _ _ Hs Hs4) as Ht4. pose proof (tables_with_block _ _ _ _ _ Hsd Hs6) as Ht6.
  assert (good e s4 t) as G4 by (eapply good_ext; [exact G|exact P|rewrite H4; exact X3|done]).
  split; [done|]. split; [done|]. split; [|split; [done|by rewrite <- Ht6; apply tables_eq]].
  apply for_names in Hok as (_ & _ & _ & Hdn). destruct d as [d|].
  - destruct Hdn as [Hdn Hd']. eapply simple_good; [|exact Hdn|exact P4|done|exact Hd]. destruct Hd' as [?|(? & ? & ? & _)]; [by left|right; by eexists _, _].
  - subst t'. simpl in Hd. apply cg_runs_ret in Hd as [_ ->]. done.
Qed.
Lemma node_good lp t n t' e s B s' : node_ok lp t n = Some t' → point e s B → good e s t → runs (Node_calc n) s tt s' → good e s' t'.
Proof.
  intros Hok P G Hr. destruct (proj2 (framed_Node Pkgname ident params RetType order n) e s B tt s' P Hr) as [B' F].
  destruct n as [c|ch|l z| |x tn|c|c x|b st|b st el|b d a st| | |c]; try done.
  - eapply simple_good; [|exact Hok|exact P|done|exact Hr]. by left.
  - injection Hok as <-. cbn [Codegen.Node_calc] in Hr. by apply cg_runs_ret in Hr as [_ ->].
  - apply define_inv in Hok as (ns & l & -> & Hx & Hns & ->).
    destruct (DefineNode_runs _ _ _ _ _ _ _ _ _ P G Hx Hns Hr) as (? & ? & ? & ? & _ & _ & _ & _ & _ & D). apply D.
  - injection Hok as <-. eapply good_same; [exact F|exact P|eapply tables_ending; [|exact P|exact Hr]; done|exact Hr|done].
  - eapply simple_good; [|exact Hok|exact P|done|exact Hr]. right. by eexists _, _.
  - simpl in Hok. case_match; [|done]. injection Hok as <-. cbn [Codegen.Node_calc] in Hr.
    destruct (IfNode_path _ _ _ _ _ _ _ _ (framed_Node Pkgname ident params RetType order st) P Hr) as (bt & be & Bb & v & cs & s1 & sb & s3 & s4 & Hp).
    destruct Hp as [_ _ _ _ _ _ _ _ (sc & l & Hs & Hs')]. eapply good_same; [exact F|exact P|by eapply tables_with_block|exact Hr|done].
  - simpl in Hok. case_match; [|done]. injection Hok as <-. cbn [Codegen.Node_calc] in Hr.
    destruct (IfElseNode_path _ _ _ _ _ _ _ _ _ (framed_Node Pkgname ident params RetType order st) (framed_Node Pkgname ident params RetType order el) P Hr)
      as (bt & bf & be & Bt & Bf & v & cs & s1 & s2 & s3 & s4 & s5 & sb & sf & Hp).
    destruct Hp as [_ _ _ _ _ _ (sc & l & Hs & Hs5) _ _ _ _ _ _ Hs']. rewrite Hs5 in Hs'.
    eapply good_same; [exact F|exact P|by eapply tables_with_block|exact Hr|done].
  - pose proof Hr as Hr'. cbn [Codegen.Node_calc] in Hr'.
    apply (ForNode_path _ _ _ _ _ e _ B) in Hr'
      as (bc & bb & be & B1 & Bb & Ba & T1 & T2 & s1 & s2 & s3 & s4 & sd & s5 & s6 & sb & sa & s8 & Hp);
      [|destruct d; [apply framed_Node|done]|destruct a; [apply framed_Node|done]|apply framed_Node|done].
    destruct (for_goods _ _ _ _ _ _ _ _ _ _ _ _ _ _ _ _ _ _ _ _ _ _ _ _ _ _ _ _ _ Hok P G Hp) as (_ & _ & Gd & _ & Ht).
    apply for_path_funcs in Hp as Hf; [|done]. destruct Hf as [_ _ _ _ X5 X6 Xb Xa X8 X9 _ _ _ _ _ _ _ _].
    destruct Hp as [_ _ _ _ _ _ _ Fdd _ _ _ _ _ _ _ _ _ _ _ _]. eapply good_ext; [exact Gd|apply Fdd| |done].
    eapply ext_any_trans; [|exact X9]. eapply ext_any_trans; [|exact X8]. eapply ext_any_trans; [|exact Xa].
    eapply ext_any_trans; [|exact Xb]. eapply ext_any_trans; [|exact X6]. by eapply ext_any.
  - simpl in Hok. destruct lp; [|done]. injection Hok as <-. eapply good_same; [exact F|exact P|eapply tables_ending; [|exact P|exact Hr]; done|exact Hr|done].
  - simpl in Hok. destruct lp; [|done]. injection Hok as <-. eapply good_same; [exact F|exact P|eapply tables_ending; [|exact P|exact Hr]; done|exact Hr|done].
Qed.
End good.
