(* ===== verification/CodegenEnv.v ===== *)
(** * The memory of the variables

    [rel]: the memory and the registers hold the variables of the source; what
    definitions, assignments and other code do to it. *)
From S2P Require Import Prelude Lexer Ast Escape Ir Codegen CodegenSem CodegenFrame CodegenExp CodegenExt CodegenPaths CodegenNodes CodegenGood.

Section env.
Context `{Llir} (Pkgname : text).
Implicit Types (s : cg) (ρ m : gmap nat val) (t : names) (ev : env) (tb : table) (tbs : list table).
#[local] Notation full := (full Pkgname).
#[local] Notation good := (good Pkgname).
#[local] Notation var_match := (var_match Pkgname).

(** ** The relation *)

Definition var_rel ρ m tb (x : text) (d : Z * option Z) : Prop :=
  ∃ y r p c, full x = Some y ∧ map_get y tb = Some (Inst r (PointerType (IntType d.1))) ∧ ρ !! r = Some (VPtr p) ∧
    m !! p = Some c ∧ cell d.1 d.2 c.
Definition frame_rel ρ m (fr : locals) tb : Prop := ∀ x d, fr !! x = Some d → var_rel ρ m tb x d.
(** A name that is not a variable is that of a loop that has ended: no
    enclosing scope has it. *)
Fixpoint env_names ev t : Prop :=
  match ev, t with
  | [], [] => True
  | fr :: ev, ns :: t => (∀ x, x ∈ dom fr → x ∈ ns) ∧ (∀ x, x ∈ ns → x ∈ dom fr ∨ x ∉ concat t) ∧ env_names ev t
  | _, _ => False
  end.
Record rel ρ m t tbs ev : Prop := mk_rel {
  rl_frames : Forall2 (frame_rel ρ m) ev tbs;
  rl_names : env_names ev t;
}.

Lemma rel_tail ρ m t tbs ev : rel ρ m t tbs ev → rel ρ m (tail t) (tail tbs) (tail ev).
Proof.
  intros [R1 R2]. destruct ev as [|fr ev], t as [|ns t]; try done; simpl in *.
  - inversion R1; subst. by split.
  - inversion R1; subst. split; [done|]. apply R2.
Qed.
Lemma rel_child ρ m t tbs ev : rel ρ m t tbs ev → rel ρ m ([] :: t) ([] :: tbs) (∅ :: ev).
Proof.
  intros [R1 R2]. split.
  - constructor; [|done]. by intros x d ?%lookup_empty_Some.
  - simpl. split; [intros x; rewrite dom_empty; set_solver|]. split; [by intros x ?%not_elem_of_nil|done].
Qed.

(** Other code leaves the variables: nothing is freed or overwritten. *)
Definition grows m m' : Prop := ∀ p c, m !! p = Some c → m' !! p = Some c.
Definition keeps ρ ρ' tbs : Prop := ∀ r tp, Inst r tp ∈ (tbs ≫= λ tb, tb.*2) → ρ' !! r = ρ !! r.
Lemma in_values tb tbs y v : tb ∈ tbs → map_get y tb = Some v → v ∈ (tbs ≫= λ tb, tb.*2).
Proof.
  intros Htb Hv%map_get_elem. apply list_elem_of_bind. exists tb. split; [|done]. apply list_elem_of_fmap. by exists (y, v).
Qed.
Lemma rel_keeps ρ m ρ' m' t tbs ev : keeps ρ ρ' tbs → grows m m' → rel ρ m t tbs ev → rel ρ' m' t tbs ev.
Proof.
  intros Hk Hg [R1 R2]. split; [|done]. clear R2 t.
  induction R1 as [|fr tb ev tbs Hf Hfs IH]; constructor.
  - intros x d Hx. destruct (Hf x d Hx) as (y & r & p & c & Hy & Hm & Hr & Hp & Hc). exists y, r, p, c.
    split; [done|]. split; [done|]. split; [|by auto]. rewrite <- Hr. apply (Hk r (PointerType (IntType d.1))). 
    eapply in_values; [|done]. by left.
  - apply IH. intros r tp Hr. apply (Hk r tp). simpl. apply elem_of_app. by right.
Qed.
Lemma grows_refl m : grows m m.
Proof. by intros p c. Qed.

Lemma env_names_sub ev t x d : env_names ev t → env_lookup x ev = Some d → x ∈ concat t.
Proof.
  revert t. induction ev as [|fr ev IH]; intros [|ns t]; try done. simpl. intros (H1 & _ & H3) Hx. apply elem_of_app.
  destruct (fr !! x) eqn:Hf; [left; apply H1; by apply elem_of_dom; eexists|right; by eapply IH].
Qed.
(** The table entry of a variable. *)
Fixpoint var_at (x : text) ev tbs : option value :=
  match ev, tbs with
  | fr :: ev, tb :: tbs => match fr !! x with Some _ => y ← full x; map_get y tb | None => var_at x ev tbs end
  | _, _ => None
  end.
(** The names of the variables resolve alike on both sides. *)
Lemma search_var_at e s t ρ m ev x d y : good e s t → rel ρ m t (tables s) ev → env_lookup x ev = Some d → full x = Some y →
  search y (scopes s) = var_at x ev (tables s).
Proof.
  intros [G1 _ G3 _] [R1 R2] Hx Hy. unfold tables in *. revert t ev G1 G3 R1 R2 Hx.
  induction (scopes s) as [|sc l IH]; intros t ev G1 G3 R1 R2 Hx; inversion R1 as [|fr tb ev' tbs Hf Hfs]; subst; [done|].
  destruct t as [|ns t]; [done|]. inversion G1 as [|? ? ? ? Hok Hoks]; subst. inversion G3 as [|? ? Hp Hps]; subst. 
  simpl in R2. destruct R2 as (N1 & N2 & N3). simpl in Hx |- *. destruct (fr !! x) as [d'|] eqn:Hfx.
  - injection Hx as ->. destruct (Hf x _ Hfx) as (y' & r & p & c & Hy' & Hm & _). assert (y' = y) as -> by congruence. rewrite Hy, Hm. simpl. by rewrite Hm.
  - transitivity (search y l); [|by apply (IH t ev')]. destruct (map_get y (vartable sc)) as [v'|] eqn:Hg; [|done]. exfalso.
    destruct (Hok y v' (map_get_elem _ _ _ Hg)) as (x' & r' & tp & Hx' & Hfu & _).
    pose proof (env_names_sub _ _ _ _ N3 Hx) as Hin. assert (plain x = true) as Hpx.
    { apply list_elem_of_In, in_concat in Hin as (ns' & Hns' & Hin). rewrite Forall_forall in Hps. specialize (Hps ns' (proj2 (list_elem_of_In _ _) Hns')).
      rewrite Forall_forall in Hps. by apply Hps, list_elem_of_In. }
    rewrite Forall_forall in Hp. assert (x' = x) as -> by (eapply full_inj; [by apply Hp|done|done|done]).
    destruct (N2 x Hx') as [Hd|Hd]; [|done]. apply elem_of_dom in Hd as [? Hd]. congruence.
Qed.
Lemma frames_var_at ρ m ev tbs x d : Forall2 (frame_rel ρ m) ev tbs → env_lookup x ev = Some d →
  ∃ y r p c, full x = Some y ∧ var_at x ev tbs = Some (Inst r (PointerType (IntType d.1))) ∧ ρ !! r = Some (VPtr p) ∧ m !! p = Some c ∧ cell d.1 d.2 c.
Proof.
  induction 1 as [|fr tb ev tbs Hf Hfs IH]; [done|]. simpl. destruct (fr !! x) eqn:Hfx; [|done]. intros [= ->].
  destruct (Hf x _ Hfx) as (y & r & p & c & Hy & Hm & ?). exists y, r, p, c. rewrite Hy. done.
Qed.
Lemma rel_var_match e s t ρ m ev : good e s t → rel ρ m t (tables s) ev → var_match ev (scopes s) ρ m.
Proof.
  intros G R x w v Hx. destruct (frames_var_at _ _ _ _ _ _ (rl_frames _ _ _ _ _ R) Hx) as (y & r & p & c & Hy & Hv & Hr & Hp & Hc).
  exists y, r, p, c. split; [done|]. by rewrite (search_var_at _ _ _ _ _ _ _ _ _ G R Hx Hy).
Qed.

(** ** Assignments *)

(** Different variables have different cells. *)
Definition apart ρ (vs : list value) : Prop := ∀ r1 tp1 r2 tp2 p, Inst r1 tp1 ∈ vs → Inst r2 tp2 ∈ vs →
  ρ !! r1 = Some (VPtr p) → ρ !! r2 = Some (VPtr p) → Inst r1 tp1 = Inst r2 tp2.
Lemma nodup_key tb y y' v : NoDup tb.*2 → map_get y tb = Some v → map_get y' tb = Some v → y = y'.
Proof.
  induction tb as [|[k v'] tb IH]; [done|]. simpl. intros [Hn Hnd]%NoDup_cons. case_decide as H1; case_decide as H2; subst; simpl.
  - done.
  - intros [= ->] Hg%map_get_elem. destruct Hn. apply list_elem_of_fmap. by exists (y', v).
  - intros Hg%map_get_elem [= ->]. destruct Hn. apply list_elem_of_fmap. by exists (y, v).
  - by apply IH.
Qed.
Lemma var_rel_other ρ m tb x d p0 c0 : (∀ y r tp, full x = Some y → map_get y tb = Some (Inst r tp) → ρ !! r ≠ Some (VPtr p0)) →
  var_rel ρ m tb x d → var_rel ρ (<[p0:=c0]> m) tb x d.
Proof.
  intros Hne (y & r & p & c & Hy & Hm & Hr & Hp & Hc). exists y, r, p, c. do 3 (split; [done|]). split; [|done].
  rewrite lookup_insert_ne; [done|]. intros ->. by eapply Hne.
Qed.
Lemma frames_other ρ m ev tbs p0 c0 : (∀ r tp, Inst r tp ∈ (tbs ≫= λ tb, tb.*2) → ρ !! r ≠ Some (VPtr p0)) →
  Forall2 (frame_rel ρ m) ev tbs → Forall2 (frame_rel ρ (<[p0:=c0]> m)) ev tbs.
Proof.
  intros Hne R. induction R as [|fr tb ev tbs Hf Hfs IH]; constructor; simpl in Hne.
  - intros x d Hx. apply var_rel_other; [|by apply Hf]. intros y r tp Hy Hm. apply (Hne r tp), elem_of_app. left.
    apply list_elem_of_fmap. exists (y, Inst r tp). split; [done|]. by apply map_get_elem.
  - apply IH. intros r tp Hin. apply (Hne r tp), elem_of_app. by right.
Qed.
Lemma frames_update ρ m t tbs ev x w o z : Forall2 (frame_rel ρ m) ev tbs → env_names ev t → Forall (Forall (λ x, plain x = true)) t →
  NoDup (tbs ≫= λ tb, tb.*2) → apart ρ (tbs ≫= λ tb, tb.*2) → env_lookup x ev = Some (w, o) →
  ∃ r p, var_at x ev tbs = Some (Inst r (PointerType (IntType w))) ∧ Inst r (PointerType (IntType w)) ∈ (tbs ≫= λ tb, tb.*2) ∧
    ρ !! r = Some (VPtr p) ∧ Forall2 (frame_rel ρ (<[p:=VInt w z]> m)) (env_update x (w, Some z) ev) tbs.
Proof.
  intros R. revert t. induction R as [|fr tb ev tbs Hf Hfs IH]; intros [|ns t] N Hpl Hnd Hap Hx; try done.
  simpl in N. destruct N as (N1 & N2 & N3). inversion Hpl as [|? ? Hp Hps]; subst. simpl in Hx, Hnd, Hap |- *.
  apply NoDup_app in Hnd as (Hnd1 & Hnd2 & Hnd3). destruct (fr !! x) as [d|] eqn:Hfx.
  - injection Hx as ->. destruct (Hf x _ Hfx) as (y & r & p & c & Hy & Hm & Hr & Hpp & Hc). simpl in *.
    assert (Inst r (PointerType (IntType w)) ∈ tb.*2) as Hin.
    { apply list_elem_of_fmap. exists (y, Inst r (PointerType (IntType w))). split; [done|]. by apply map_get_elem. }
    exists r, p. rewrite Hy. split; [done|]. split; [apply elem_of_app; by left|]. split; [done|]. constructor.
    + intros x' d'. destruct (decide (x' = x)) as [->|Hne].
      * rewrite lookup_insert_eq. intros [= <-]. exists y, r, p, (VInt w z). by rewrite lookup_insert_eq.
      * rewrite lookup_insert_ne by done. intros Hx'. apply var_rel_other; [|by apply Hf].
        intros y' r' tp' Hy' Hm' Hr'. apply Hne. rewrite Forall_forall in Hp.
        assert (Inst r' tp' = Inst r (PointerType (IntType w))) as Heq.
        { eapply Hap; [| |exact Hr'|exact Hr]; apply elem_of_app; left; [|done]. apply list_elem_of_fmap. exists (y', Inst r' tp').
          split; [done|]. by apply map_get_elem. }
        rewrite Heq in Hm'. assert (y' = y) as -> by by eapply nodup_key.
        eapply full_inj; [apply Hp, N1, elem_of_dom; by eexists|apply Hp, N1, elem_of_dom; by eexists|exact Hy'|exact Hy].
    + apply frames_other; [|done]. intros r' tp' Hin' Hr'. apply (Hnd2 _ Hin).
      rewrite <- (Hap r' tp' r (PointerType (IntType w)) p); [done|apply elem_of_app; by right|apply elem_of_app; by left|done|done].
  - destruct (IH t N3 Hps Hnd3) as (r & p & Hva & Hin & Hr & Hall).
    + intros r1 t1 r2 t2 q H1 H2. apply Hap; apply elem_of_app; by right.
    + done.
    + exists r, p. split; [done|]. split; [apply elem_of_app; by right|]. split; [done|]. constructor; [|done].
      intros x' d' Hx'. apply var_rel_other; [|by apply Hf]. intros y' r' tp' Hy' Hm' Hr'.
      assert (Inst r' tp' ∈ tb.*2) as Hin'.
      { apply list_elem_of_fmap. exists (y', Inst r' tp'). split; [done|]. by apply map_get_elem. }
      apply (Hnd2 _ Hin'). rewrite (Hap r' tp' r (PointerType (IntType w)) p); [done|apply elem_of_app; by left|apply elem_of_app; by right|done|done].
Qed.
Lemma env_update_names ev t x w o d : env_names ev t → env_lookup x ev = Some (w, o) → env_names (env_update x d ev) t.
Proof.
  revert t. induction ev as [|fr ev IH]; intros [|ns t]; try done. simpl. intros (N1 & N2 & N3) Hx.
  destruct (fr !! x) as [d'|] eqn:Hfx; simpl.
  - rewrite dom_insert_lookup_L by done. done.
  - split; [done|]. split; [done|]. by apply IH.
Qed.
(** A store to a variable is an assignment. *)
Lemma rel_update ρ m t tbs ev x w o z : rel ρ m t tbs ev → Forall (Forall (λ x, plain x = true)) t →
  NoDup (tbs ≫= λ tb, tb.*2) → apart ρ (tbs ≫= λ tb, tb.*2) → env_lookup x ev = Some (w, o) →
  ∃ r p, var_at x ev tbs = Some (Inst r (PointerType (IntType w))) ∧ Inst r (PointerType (IntType w)) ∈ (tbs ≫= λ tb, tb.*2) ∧
    ρ !! r = Some (VPtr p) ∧ rel ρ (<[p:=VInt w z]> m) t tbs (env_update x (w, Some z) ev).
Proof.
  intros [R1 R2] Hp Hnd Hap Hx. destruct (frames_update _ _ _ _ _ _ _ _ z R1 R2 Hp Hnd Hap Hx) as (r & p & ? & ? & ? & R).
  exists r, p. do 3 (split; [done|]). split; [done|]. by eapply env_update_names.
Qed.

(** ** Definitions *)
Lemma set_top_inv x d ev ev' : set_top x d ev = Some ev' → ∃ fr l, ev = fr :: l ∧ ev' = <[x:=d]> fr :: l.
Proof. destruct ev as [|fr l]; [done|]. intros [= <-]. by exists fr, l. Qed.
Lemma rel_define ρ m ns t tb tbs fr ev x y r w o p c : rel ρ m (ns :: t) (tb :: tbs) (fr :: ev) →
  Forall (λ x, plain x = true) ns → plain x = true → x ∉ ns → full x = Some y →
  ρ !! r = Some (VPtr p) → m !! p = Some c → cell w o c →
  rel ρ m ((x :: ns) :: t) (((y, Inst r (PointerType (IntType w))) :: tb) :: tbs) (<[x:=(w, o)]> fr :: ev).
Proof.
  intros [R1 (N1 & N2 & N3)] Hp Hx Hns Hy Hr Hm Hc. inversion R1 as [|? ? ? ? Hf Hfs]; subst. split.
  - constructor; [|done]. intros x' d. destruct (decide (x' = x)) as [->|Hne].
    + rewrite lookup_insert_eq. intros [= <-]. exists y, r, p, c. simpl. by rewrite decide_True.
    + rewrite lookup_insert_ne by done. intros Hx'. destruct (Hf x' d Hx') as (y' & r' & p' & c' & Hy' & Hm' & ?).
      exists y', r', p', c'. split; [done|]. split; [|done]. simpl. rewrite decide_False; [done|]. intros ->. apply Hne.
      rewrite Forall_forall in Hp. eapply full_inj; [apply Hp, N1, elem_of_dom; by eexists|exact Hx|exact Hy'|exact Hy].
  - simpl. rewrite dom_insert_L. split; [|split; [|done]].
    + intros x' [->%elem_of_singleton|Hx']%elem_of_union; [by left|right; auto].
    + intros x' [->|Hx']%elem_of_cons; [left; set_solver|]. destruct (N2 x' Hx'); [left; set_solver|by right].
Qed.
(** The end of a loop variable. *)
Lemma rel_del ρ m t tbs ev x : rel ρ m t tbs ev → x ∉ concat (tail t) → rel ρ m t tbs (del_top x ev).
Proof.
  intros [R1 R2] Hx. destruct ev as [|fr ev], t as [|ns t]; try done. destruct R2 as (N1 & N2 & N3). inversion R1 as [|? ? ? ? Hf Hfs]; subst. split.
  - simpl. constructor; [|done]. intros x' d [Hne Hx']%lookup_delete_Some. by apply Hf.
  - simpl in *. rewrite dom_delete_L. split; [set_solver|]. split; [|done]. intros x' Hx'. destruct (decide (x' = x)) as [->|Hne]; [by right|].
    destruct (N2 x' Hx'); [left; set_solver|by right].
Qed.
End env.
