(* ===== verification/CodegenRun.v ===== *)
(** * Running the generated code of a function

    Facts on runs of the finished function [F]: code between two points of the
    generator, the allocations at the end of the first block, and the relation
    between the memory and the variables of the source. *)
From S2P Require Import Prelude Lexer Ast Escape Ir Codegen CodegenSem CodegenFrame CodegenExp CodegenExt CodegenPaths CodegenNodes CodegenGood CodegenEnv.

Section run.
Context `{Llir} (Pkgname : text) (F : Func) (args : list val) (e : nat).
Context (HF : uniq F) (He : e ∈ Blocks F).
Implicit Types (s : cg) (ρ m : gmap nat val).
#[local] Notation full := (full Pkgname).
#[local] Notation next := (next_step F args).

(** ** Straight runs *)

(** [cs] is the code of block [B] from position [k]. *)
Definition code_at (B k : nat) (cs : list (nat * inst)) : Prop := ∀ i x, cs !! i = Some x → Insts F B !! (k + i) = Some x.
Lemma code_at_app B k cs1 cs2 : code_at B k (cs1 ++ cs2) ↔ code_at B k cs1 ∧ code_at B (k + length cs1) cs2.
Proof.
  split.
  - intros Hc. split; intros i x Hi.
    + apply Hc. by apply lookup_app_l_Some.
    + rewrite <- Nat.add_assoc. apply Hc. rewrite lookup_app_r by lia. by replace (length cs1 + i - length cs1) with i by lia.
  - intros [H1 H2] i x [Hi|[Hl Hi]]%lookup_app_Some; [by apply H1|]. specialize (H2 _ _ Hi). by replace (k + i) with (k + length cs1 + (i - length cs1)) by lia.
Qed.
Lemma code_at_prefix f B k cs : Insts f B `prefix_of` Insts F B → Insts f B = take k (Insts f B) ++ cs → k ≤ length (Insts f B) → code_at B k cs.
Proof.
  intros [l Hl] Hcs Hk i x Hi. rewrite Hl. apply lookup_app_l_Some. rewrite Hcs, lookup_app_r by (rewrite length_take; lia).
  rewrite length_take. by replace (k + i - k `min` length (Insts f B)) with i by lia.
Qed.
Lemma code_at_eff M s s' B cs : eff s s' B cs → B ∈ Blocks (fn s') → ext e M (fn s') F → code_at B (length (Insts (fn s) B)) cs.
Proof.
  intros E HB X. apply (code_at_prefix (fn s')); [by apply (ex_insts _ _ _ _ X)| |]; rewrite (ef_cur _ _ _ _ E).
  - by rewrite take_app_length.
  - rewrite length_app. lia.
Qed.
Lemma run_code B k cs ρ m ρ' m' : code_at B k cs → exec_insts args cs ρ m = Some (ρ', m') →
  rtc next (mk_state B k ρ m) (mk_state B (k + length cs) ρ' m').
Proof.
  revert k ρ m. induction cs as [|[r i] cs IH]; intros k ρ m Hc Hx; simpl in Hx.
  - injection Hx as -> ->. by rewrite Nat.add_0_r.
  - destruct (exec_inst args r i ρ m) as [[ρ1 m1]|] eqn:Hi; [|done]. simpl in Hx.
    eapply rtc_l with (mk_state B (S k) ρ1 m1).
    + unfold next_step, step. simpl. specialize (Hc 0 _ eq_refl). rewrite Nat.add_0_r in Hc. rewrite Hc, Hi. done.
    + simpl. rewrite Nat.add_succ_r, <- Nat.add_succ_l. apply IH; [|done].
      intros j x Hj. rewrite Nat.add_succ_l, <- Nat.add_succ_r. by apply (Hc (S j)).
Qed.

(** ** The pointers of the allocations *)

(** The code of the first block that has run at a position. *)
Definition done_at (B k : nat) : list (nat * inst) := if decide (B = e) then take k (Insts F e) else Insts F e.
Definition typed (t : type) (c : val) : Prop := match t with IntType w => c = VUndef ∨ ∃ z, c = VInt w z | _ => True end.
Record ptrs_ok (L : list (nat * inst)) ρ m : Prop := mk_ptrs_ok {
  po_cell : ∀ (r : nat) (t : type), alloc_in L r t → ∃ p c, ρ !! r = Some (VPtr p) ∧ m !! p = Some c ∧ typed t c;
  po_inj : ∀ r1 t1 r2 t2 p, alloc_in L r1 t1 → alloc_in L r2 t2 → ρ !! r1 = Some (VPtr p) → ρ !! r2 = Some (VPtr p) → r1 = r2;
  po_type : ∀ r t1 t2, alloc_in L r t1 → alloc_in L r t2 → t1 = t2;
}.

Lemma alloc_not_plain t i : alloc_of t i → is_alloc i = false → False.
Proof. intros Ha%alloc_of_is. by rewrite Ha. Qed.
(** Code that does not allocate leaves what has been allocated. *)
Lemma done_plain B k cs (r : nat) (t : type) : B ∈ Blocks F → code_at B k cs → Forall (λ x, is_alloc x.2 = false) cs → 
  alloc_in (done_at B (k + length cs)) r t → alloc_in (done_at B k) r t ∧ r ∉ cs.*1.
Proof.
  intros HB Hc Hp (i & Hi & Ha). 
  assert (∀ j, Insts F e !! j = Some (r, i) → (B = e → j < k) → r ∉ cs.*1) as Hno.
  { intros j Hj Hlt ([r' i'] & Heq & [n Hn]%list_elem_of_lookup)%list_elem_of_fmap. simpl in Heq. subst r'. 
    destruct (HF r e j i B (k + n) i' He HB Hj (Hc _ _ Hn)) as [-> ->]. specialize (Hlt eq_refl). lia. }
  unfold done_at in *. case_decide as Hd.
  - subst B. apply list_elem_of_lookup in Hi as [j Hj]. apply lookup_take_Some in Hj as [Hj Hlt].
    assert (j < k) as Hjk.
    { destruct (decide (j < k)) as [|Hge]; [done|]. exfalso. destruct (cs !! (j - k)) as [x|] eqn:Hx.
      - pose proof (Hc _ _ Hx) as Hx'. replace (k + (j - k)) with j in Hx' by lia. assert (x = (r, i)) as -> by congruence.
        rewrite Forall_forall in Hp. specialize (Hp (r, i) (list_elem_of_lookup_2 _ _ _ Hx)). by eapply alloc_not_plain.
      - apply lookup_ge_None in Hx. lia. }
    split; [|by eapply Hno]. exists i. split; [|done]. apply list_elem_of_lookup. exists j. by apply lookup_take_Some.
  - split; [by exists i|]. apply list_elem_of_lookup in Hi as [j Hj]. by eapply Hno.
Qed.
Lemma ptrs_plain B k cs ρ m ρ' : B ∈ Blocks F → code_at B k cs → Forall (λ x, is_alloc x.2 = false) cs → same_but cs ρ ρ' →
  ptrs_ok (done_at B k) ρ m → ptrs_ok (done_at B (k + length cs)) ρ' m.
Proof.
  intros HB Hc Hp Hs [P1 P2 P3]. pose proof (λ (r : nat) (t : type), done_plain B k cs r t HB Hc Hp) as Hd. split.
  - intros r t (Ha & Hr)%Hd. rewrite Hs by done. by apply P1.
  - intros r1 t1 r2 t2 p (Ha1 & Hr1)%Hd (Ha2 & Hr2)%Hd. rewrite !Hs by done. by eapply P2.
  - intros r t1 t2 (Ha1 & _)%Hd (Ha2 & _)%Hd. by eapply P3.
Qed.
Lemma ptrs_store L ρ m r t p c : ptrs_ok L ρ m → alloc_in L r t → ρ !! r = Some (VPtr p) → typed t c → ptrs_ok L ρ (<[p:=c]> m).
Proof.
  intros [P1 P2 P3] Ha Hr Hc. split; [|done..]. intros r' t' Ha'. destruct (P1 r' t' Ha') as (p' & c' & Hr' & Hm' & Ht').
  destruct (decide (p' = p)) as [->|Hne].
  - assert (r' = r) as -> by by eapply P2. exists p, c. split; [done|]. rewrite lookup_insert_eq. split; [done|].
    by rewrite (P3 r t' t).
  - exists p', c'. by rewrite lookup_insert_ne.
Qed.

(** The allocations one after the other. *)
Lemma alloc_in_app l1 l2 r t : alloc_in (l1 ++ l2) r t ↔ alloc_in l1 r t ∨ alloc_in l2 r t.
Proof. unfold alloc_in. setoid_rewrite elem_of_app. naive_solver. Qed.
Lemma alloc_in_one r i r' t : alloc_in [(r, i)] r' t ↔ r' = r ∧ alloc_of t i.
Proof.
  unfold alloc_in. split.
  - intros (i' & [= -> ->]%list_elem_of_singleton & Ha). done.
  - intros [-> Ha]. exists i. split; [by left|done].
Qed.
Lemma alloc_of_inj t1 t2 i : alloc_of t1 i → alloc_of t2 i → t1 = t2.
Proof. intros [-> | ->] [?|?]; congruence. Qed.
Lemma is_alloc_of i : is_alloc i = true → ∃ t, alloc_of t i.
Proof. destruct i as [t|t| | | | |]; try done; intros _; exists t; [by left|by right]. Qed.
Lemma exec_alloc r i ρ m t : alloc_of t i → ∃ c, typed t c ∧
  exec_inst args r i ρ m = Some (<[r:=VPtr (fresh (dom m))]> ρ, <[fresh (dom m):=c]> m).
Proof.
  intros [-> | ->].
  - exists VUndef. split; [|done]. destruct t; [by left|done|done].
  - exists (zero_of t). split; [|done]. destruct t; [right; by exists 0%Z|done|done].
Qed.
Lemma ptrs_alloc L r i ρ m t c : (∀ t, ¬ alloc_in L r t) → alloc_of t i → typed t c → ptrs_ok L ρ m →
  ptrs_ok (L ++ [(r, i)]) (<[r:=VPtr (fresh (dom m))]> ρ) (<[fresh (dom m):=c]> m).
Proof.
  intros Hr Ha Hc [P1 P2 P3]. set (l := fresh (dom m)).
  assert (∀ p c, m !! p = Some c → p ≠ l) as Hl.
  { intros p c' Hp ->. apply (is_fresh (dom m)). apply elem_of_dom. by exists c'. }
  assert (∀ r' t', alloc_in L r' t' → r' ≠ r) as Hne by (intros r' t' Ha' ->; by eapply Hr).
  split.
  - intros r' t' [Ha'|[-> Ha']%alloc_in_one]%alloc_in_app.
    + destruct (P1 r' t' Ha') as (p & c' & Hp & Hm & Ht). exists p, c'.
      rewrite lookup_insert_ne by (apply not_eq_sym; eauto). rewrite lookup_insert_ne by (apply not_eq_sym; eauto). done.
    + exists l, c. rewrite !lookup_insert_eq. by rewrite (alloc_of_inj t' t i).
  - intros r1 t1 r2 t2 p [H1|[-> H1]%alloc_in_one]%alloc_in_app [H2|[-> H2]%alloc_in_one]%alloc_in_app; [| | |done].
    + rewrite !lookup_insert_ne by (apply not_eq_sym; eauto). by eapply P2.
    + rewrite lookup_insert_ne, lookup_insert_eq by (apply not_eq_sym; eauto). intros Hp [= <-].
      destruct (P1 r1 t1 H1) as (p' & c' & Hp' & Hm' & _). assert (p' = l) as -> by congruence. by destruct (Hl l c').
    + rewrite lookup_insert_eq, lookup_insert_ne by (apply not_eq_sym; eauto). intros [= <-] Hp.
      destruct (P1 r2 t2 H2) as (p' & c' & Hp' & Hm' & _). assert (p' = l) as -> by congruence. by destruct (Hl l c').
  - intros r' t1 t2 [H1|[-> H1]%alloc_in_one]%alloc_in_app [H2|[? H2]%alloc_in_one]%alloc_in_app; subst.
    + by eapply P3.
    + by destruct (Hr t1).
    + by destruct (Hr t2).
    + by eapply alloc_of_inj.
Qed.
Lemma run_allocs k al ρ m : code_at e k al → allocs al → k + length al ≤ length (Insts F e) → ptrs_ok (done_at e k) ρ m →
  ∃ ρ' m', exec_insts args al ρ m = Some (ρ', m') ∧ ptrs_ok (done_at e (k + length al)) ρ' m' ∧ same_but al ρ ρ' ∧ grows m m'.
Proof.
  revert k ρ m. induction al as [|[r i] al IH]; intros k ρ m Hc Hal Hlen P; simpl in *.
  - exists ρ, m. rewrite Nat.add_0_r. split; [done|]. split; [done|]. split; [apply same_but_refl|]. by intros p c.
  - inversion Hal as [|? ? Hi Hal']; subst. simpl in Hi. apply is_alloc_of in Hi as [t Ht].
    assert (Insts F e !! k = Some (r, i)) as Hk by (specialize (Hc 0 _ eq_refl); by rewrite Nat.add_0_r in Hc).
    destruct (exec_alloc r i ρ m t Ht) as (c & Hc' & Hx). rewrite Hx. simpl.
    assert (done_at e (S k) = done_at e k ++ [(r, i)]) as Hd.
    { unfold done_at. rewrite !decide_True by done. by apply take_S_r. }
    destruct (IH (S k) (<[r:=VPtr (fresh (dom m))]> ρ) (<[fresh (dom m):=c]> m)) as (ρ' & m' & Hx' & P' & Hs & Hg).
    + intros j x Hj. rewrite Nat.add_succ_l, <- Nat.add_succ_r. by apply (Hc (S j)).
    + done.
    + lia.
    + rewrite Hd. apply (ptrs_alloc _ _ _ _ _ t); [|done..]. intros t' (i' & Hin & _). unfold done_at in Hin.
      rewrite decide_True in Hin by done. apply list_elem_of_lookup in Hin as [j [Hj Hlt]%lookup_take_Some].
      destruct (HF r e j i' e k i He He Hj Hk). lia.
    + exists ρ', m'. split; [done|]. split; [by rewrite Nat.add_succ_r, <- Nat.add_succ_l|]. split.
      * apply (same_but_trans [(r, i)] al ρ (<[r:=VPtr (fresh (dom m))]> ρ)); [apply same_but_insert|done].
      * intros p c0 Hp. apply Hg. rewrite lookup_insert_ne; [done|]. intros <-. apply (is_fresh (dom m)). apply elem_of_dom. by eexists.
Qed.

(** ** Points of the generator *)
#[local] Notation good := (good Pkgname).
#[local] Notation rel := (rel Pkgname).
#[local] Notation len f B := (length (Insts f B)).

Definition values (tbs : list table) : list value := tbs ≫= λ tb, tb.*2.
Lemma good_value s t v : good e s t → v ∈ values (tables s) → ∃ r tp, v = Inst r (PointerType tp) ∧ alloc_in (Insts (fn s) e) r tp.
Proof.
  intros G (tb & Hv & Htb)%list_elem_of_bind. apply list_elem_of_fmap in Hv as ([y v'] & -> & Hv).
  apply list_elem_of_lookup in Htb as [i Hi]. destruct (Forall2_lookup_r _ _ _ _ _ (gd_tab _ _ _ _ G) Hi) as (ns & _ & Hok).
  destruct (Hok y v' Hv) as (x & r & tp & _ & _ & -> & Ha). by exists r, tp.
Qed.
Lemma done_sub s B M : point e s B → ext e M (fn s) F → Insts (fn s) e ⊆ done_at B (len (fn s) B).
Proof.
  intros P X. pose proof (ex_insts _ _ _ _ X e (head_in _ _ _ P)) as Hp. unfold done_at. case_decide as Hd.
  - subst B. destruct Hp as [l ->]. by rewrite take_app_length.
  - by apply prefix_subseteq.
Qed.
Lemma good_apart s t L ρ m : good e s t → Insts (fn s) e ⊆ L → ptrs_ok L ρ m → apart ρ (values (tables s)).
Proof.
  intros G Hsub [P1 P2 P3] r1 tp1 r2 tp2 p H1 H2 Hr1 Hr2.
  destruct (good_value _ _ _ G H1) as (? & tp1' & [= <- ->] & A1). destruct (good_value _ _ _ G H2) as (? & tp2' & [= <- ->] & A2).
  apply alloc_in_mono with (l' := L) in A1, A2; [|done..]. assert (r1 = r2) as -> by (by eapply P2). by rewrite (P3 r2 tp1' tp2').
Qed.
Lemma keeps_known s t ρ ρ' : good e s t → e ∈ Blocks (fn s) → (∀ r, known (fn s) r → ρ' !! r = ρ !! r) → keeps ρ ρ' (tables s).
Proof.
  intros G He' Hk r tp Hr. destruct (good_value _ _ _ G Hr) as (? & tp' & [= <- ->] & Ha). apply Hk. by eapply alloc_known.
Qed.
Lemma eff_keeps_known s s' B cs ρ ρ' : eff s s' B cs → same_but cs ρ ρ' → ∀ r, known (fn s) r → ρ' !! r = ρ !! r.
Proof. intros E Hs r Hr. apply Hs. intros Hin. by eapply ef_new. Qed.

(** The code of a point runs on in its block. *)
Lemma ptrs_eff M s s' B cs ρ m ρ' : eff s s' B cs → B ∈ Blocks (fn s') → ext e M (fn s') F → same_but cs ρ ρ' →
  ptrs_ok (done_at B (len (fn s) B)) ρ m → ptrs_ok (done_at B (len (fn s') B)) ρ' m.
Proof.
  intros E HB X Hs P. rewrite (ef_cur _ _ _ _ E), length_app. apply ptrs_plain with ρ; [by eapply ext_in|by eapply code_at_eff|apply (ef_plain _ _ _ _ E)|done|done].
Qed.
Lemma run_eff M s s' B cs ρ m ρ' m' : eff s s' B cs → B ∈ Blocks (fn s') → ext e M (fn s') F → exec_insts args cs ρ m = Some (ρ', m') →
  rtc next (mk_state B (len (fn s) B) ρ m) (mk_state B (len (fn s') B) ρ' m').
Proof. intros E HB X Hx. rewrite (ef_cur _ _ _ _ E), length_app. eapply run_code; [by eapply code_at_eff|done]. Qed.

Lemma exp_run c s B v s' t ev ρ m w z M : point e s B → good e s t → runs (v ← ExpNode_calc Pkgname c; loadIfVar v) s v s' →
  ext e M (fn s') F → rel ρ m t (tables s) ev → ptrs_ok (done_at B (len (fn s) B)) ρ m → eval ev c = Some (w, z) →
  ∃ ρ', rtc next (mk_state B (len (fn s) B) ρ m) (mk_state B (len (fn s') B) ρ' m) ∧ rel ρ' m t (tables s') ev ∧
    ptrs_ok (done_at B (len (fn s') B)) ρ' m ∧ has args ρ' v w z ∧ val_known (fn s') v.
Proof.
  intros P G Hr X R Hp Hev. pose proof (good_tab_known _ _ _ _ _ G P) as Ht.
  assert (rvalue Pkgname s c B v s') as (cs & E & Hv & _ & Hx).
  { by_spec Hr. apply exp_rvalue; [apply P|apply P|done]. }
  assert (B ∈ Blocks (fn s')) as HB by (rewrite (ef_blocks _ _ _ _ E); apply P).
  destruct (Hx args ev ρ m w z) as (ρ' & Hrun & Hs & Hh); [by eapply rel_var_match|done|].
  exists ρ'. split; [by eapply run_eff|]. rewrite (tables_eq _ _ (ef_scopes _ _ _ _ E)). split; [|split; [by eapply ptrs_eff|done]].
  eapply rel_keeps; [|apply grows_refl|exact R]. eapply keeps_known; [done|by eapply head_in|by eapply eff_keeps_known].
Qed.

(** ** Leaving a block *)

(** The allocations that later statements append to the first block. *)
Lemma catch_up M f f' B t tbs ev ρ m : B ∈ Blocks f → agree e f f' B → ext e (λ _, True) f F → ext e M f' F → B ∈ Blocks f' →
  (∀ r tp, Inst r tp ∈ values tbs → known f r) → rel ρ m t tbs ev → ptrs_ok (done_at B (len f B)) ρ m →
  ∃ ρ' m', rtc next (mk_state B (len f B) ρ m) (mk_state B (len f' B) ρ' m') ∧
    (∀ r, known f r → ρ' !! r = ρ !! r) ∧ rel ρ' m' t tbs ev ∧ ptrs_ok (done_at B (len f' B)) ρ' m'.
Proof.
  intros HB [_ (al & Hi & Hal & Hb)] X X' HB' Hk R P. destruct Hb as [->| ->].
  2: { rewrite app_nil_r in Hi. rewrite Hi. by exists ρ, m. }
  assert (code_at e (len f e) al) as Hc.
  { apply (code_at_prefix f'); [by apply (ex_insts _ _ _ _ X')|rewrite Hi; by rewrite take_app_length|rewrite Hi, length_app; lia]. }
  assert (len f' e = len f e + length al) as Hlen by by rewrite Hi, length_app.
  destruct (run_allocs (len f e) al ρ m Hc Hal) as (ρ' & m' & Hx & P' & Hs & Hg); [|done|].
  { rewrite <- Hlen. by apply prefix_length, (ex_insts _ _ _ _ X'). }
  assert (∀ r, known f r → ρ' !! r = ρ !! r) as Hkn.
  { intros r (b & k & i & Hb & Hbk). apply Hs. intros ([r' i'] & Heq & [j Hj]%list_elem_of_lookup)%list_elem_of_fmap. simpl in Heq. subst r'.
    pose proof (ex_insts _ _ _ _ X b Hb) as [l Hl]. 
    assert (Insts F b !! k = Some (r, i)) as Hbk' by (rewrite Hl; by apply lookup_app_l_Some).
    destruct (HF r b k i e (len f e + j) i') as [-> ->]; [eapply ext_in; [exact X|done]|done|done|by apply Hc|]. apply lookup_lt_Some in Hbk. lia. }
  exists ρ', m'. rewrite Hlen. split; [by apply run_code|]. split; [done|]. split; [|done].
  eapply rel_keeps; [|exact Hg|exact R]. intros r tp Hr. apply Hkn. by eapply Hk.
Qed.
Lemma leave M f B T t tbs ev ρ m : B ∈ Blocks f → ext e M f F → ¬ M B → Term f B = Some T →
  (∀ r tp, Inst r tp ∈ values tbs → known f r) → rel ρ m t tbs ev → ptrs_ok (done_at B (len f B)) ρ m →
  ∃ k ρ' m', rtc next (mk_state B (len f B) ρ m) (mk_state B k ρ' m') ∧ Insts F B !! k = None ∧ Term F B = Some T ∧
    (∀ r, known f r → ρ' !! r = ρ !! r) ∧ rel ρ' m' t tbs ev ∧ ptrs_ok (Insts F e) ρ' m'.
Proof.
  intros HB X HM HT Hk R P. pose proof (ex_agree _ _ _ _ X B HB HM) as A.
  destruct (catch_up (λ _, True) f F B t tbs ev ρ m HB A (ext_any _ _ _ _ X) (ext_refl _ _ _) (ext_in _ _ _ _ _ X HB) Hk R P) as (ρ' & m' & Hr & Hkn & R' & P').
  exists (len F B), ρ', m'. split; [done|]. split; [by apply lookup_ge_None|]. split; [by rewrite (ag_term _ _ _ _ A)|]. do 2 (split; [done|]).
  unfold done_at in P'. case_decide as Hd; [|done]. subst B. by rewrite take_ge in P' by done.
Qed.
Lemma done_at_new b k : b ≠ e → done_at b k = Insts F e.
Proof. intros Hb. unfold done_at. by rewrite decide_False. Qed.
Lemma step_br B k ρ m b : Insts F B !! k = None → Term F B = Some (Br b) → next (mk_state B k ρ m) (mk_state b 0 ρ m).
Proof. intros Hi Ht. unfold next_step, step. simpl. by rewrite Hi, Ht. Qed.
Lemma step_cond B k ρ m v t f z : Insts F B !! k = None → Term F B = Some (CondBr v t f) → has args ρ v 1 z →
  next (mk_state B k ρ m) (mk_state (if (z =? 1)%Z then t else f) 0 ρ m).
Proof. intros Hi Ht [_ Hv]. unfold next_step, step. simpl. by rewrite Hi, Ht, Hv. Qed.
Lemma leave_br M f B b t tbs ev ρ m : B ∈ Blocks f → ext e M f F → ¬ M B → Term f B = Some (Br b) →
  (∀ r tp, Inst r tp ∈ values tbs → known f r) → rel ρ m t tbs ev → ptrs_ok (done_at B (len f B)) ρ m →
  ∃ ρ' m', rtc next (mk_state B (len f B) ρ m) (mk_state b 0 ρ' m') ∧ rel ρ' m' t tbs ev ∧ ptrs_ok (Insts F e) ρ' m'.
Proof.
  intros HB X HM HT Hk R P. destruct (leave _ _ _ _ _ _ _ _ _ HB X HM HT Hk R P) as (k & ρ' & m' & Hr & Hi & HT' & _ & R' & P').
  exists ρ', m'. split; [|done]. eapply rtc_r; [exact Hr|by apply step_br].
Qed.

Definition eval_cond ev (c : option ExpNode) : option bool := match c with None => Some true | Some c => eval_bool ev c end.
Lemma eval_bool_inv ev c b : eval_bool ev c = Some b → ∃ z, eval ev c = Some (1%Z, z) ∧ b = (z =? 1)%Z.
Proof.
  unfold eval_bool. destruct (eval ev c) as [[w z]|]; [|done]. simpl. destruct (Z.eqb_spec w 1) as [->|]; [|done].
  intros [= <-]. by exists z.
Qed.
(** The end of a block with a condition. *)
Lemma cond_run M c s B b1 b2 T s1 f t ev ρ m b : point e s B → good e s t → cond_code Pkgname c s B b1 b2 T s1 →
  ext e (λ _, True) (fn s1) f → len f B = len (fn s1) B → Term f B = Some T →
  ext e M f F → ¬ M B → rel ρ m t (tables s) ev → ptrs_ok (done_at B (len (fn s) B)) ρ m → eval_cond ev c = Some b →
  ∃ ρ' m', rtc next (mk_state B (len (fn s) B) ρ m) (mk_state (if b then b1 else b2) 0 ρ' m') ∧ rel ρ' m' t (tables s) ev ∧
    ptrs_ok (Insts F e) ρ' m'.
Proof.
  intros P G Hc Xf Hlen HT X HM R Hp Hb. destruct (cond_code_eff _ _ _ _ _ _ _ _ Hc) as [cs E].
  assert (B ∈ Blocks (fn s1)) as HB1 by (rewrite (ef_blocks _ _ _ _ E); apply P).
  assert (B ∈ Blocks f) as HB by by eapply ext_in.
  assert (ext e (λ _, True) (fn s1) F) as X1 by (by eapply ext_any_trans).
  assert (∀ r, known (fn s1) r → known f r) as Hkn.
  { intros r (b' & k & i & Hb' & Hk). exists b', k, i. split; [by eapply ext_in|]. destruct (ex_insts _ _ _ _ Xf b' Hb') as [l ->]. by apply lookup_app_l_Some. }
  assert (∀ r tp, Inst r tp ∈ values (tables s) → known f r) as Hk1.
  { intros r tp Hr. destruct (good_value _ _ _ G Hr) as (? & ? & [= <- ->] & Ha). apply Hkn. eapply eff_known; [exact E|].
    eapply alloc_known; [|done]. by eapply head_in. }
  destruct c as [c|].
  - destruct Hc as (v & cs' & Hr & _ & ->). destruct (eval_bool_inv _ _ _ Hb) as (z & Hev & ->).
    destruct (exp_run _ _ _ _ _ _ _ _ _ _ _ _ P G Hr X1 R Hp Hev) as (ρ1 & Hrun & R1 & P1 & [Hty Hv] & Hvk).
    rewrite (tables_eq _ _ (ef_scopes _ _ _ _ E)) in R1. rewrite <- Hlen in Hrun, P1.
    destruct (leave M f B _ _ _ _ _ _ HB X HM HT Hk1 R1 P1) as (k & ρ2 & m2 & Hrun2 & Hi & HT' & Hkeep & R2 & P2).
    exists ρ2, m2. split; [|done]. etrans; [exact Hrun|]. eapply rtc_r; [exact Hrun2|]. eapply (step_cond _ _ _ _ _ _ _ z); [done|done|]. split; [done|].
    destruct v as [|r tp|]; [done| |done]. simpl in Hv |- *. case_decide; [|done]. rewrite Hkeep; [done|]. by eapply Hkn, Hvk.
  - destruct Hc as [-> ->]. injection Hb as <-. rewrite <- Hlen in Hp |- *.
    destruct (leave_br M f B _ _ _ _ _ _ HB X HM HT Hk1 R Hp) as (ρ' & m' & Hr & R' & P'). by exists ρ', m'.
Qed.
End run.
