(* ===== verification/CodegenSim.v ===== *)
(** * The generated code does what the statements mean

    A simulation between [exec] of CodegenSem.v and the run of the finished
    function: from the point where the code of a statement starts, the function
    runs to where the outcome of the statement leads, with the variables of the
    source in memory. *)
From S2P Require Import Prelude Lexer Ast Escape Ir Codegen CodegenSem CodegenFrame CodegenExp CodegenExt CodegenPaths CodegenNodes CodegenGood CodegenEnv CodegenRun.

Section sim.
Context `{Llir} (Pkgname ident : text) (params : list text) (RetType : type) (order : gset text → list text).
Context (F : Func) (args : list val) (e : nat) (HF : uniq F) (He : e ∈ Blocks F).
Implicit Types (s : cg) (ρ m : gmap nat val) (t : names) (ev : env).
#[local] Notation ExpNode_calc := (ExpNode_calc Pkgname).
#[local] Notation Node_calc := (Node_calc Pkgname ident params RetType order).
#[local] Notation full := (full Pkgname).
#[local] Notation good := (good Pkgname).
#[local] Notation rel := (rel Pkgname).
#[local] Notation next := (next_step F args).
#[local] Notation len f B := (length (Insts f B)).
#[local] Notation exec := (exec RetType).

(** The machine is at a point of the generator, with the variables. *)
Record here s B t ev ρ m : Prop := mk_here {
  hr_rel : rel ρ m t (tables s) ev;
  hr_ptrs : ptrs_ok (done_at F e B (len (fn s) B)) ρ m;
}.

(** ** Straight statements *)

Lemma known_ext M f f' r : ext e M f f' → known f r → known f' r.
Proof.
  intros X (b & k & i & Hb & Hk). exists b, k, i. split; [by eapply ext_in|]. destruct (ex_insts _ _ _ _ X b Hb) as [l ->]. by apply lookup_app_l_Some.
Qed.

Lemma target_calc l x : target l = Some x → ∃ p0, ExpNode_calc l = VarBlockNode_calc Pkgname (mk_VarBlockNode x [] None p0).
Proof.
  induction l; try done; simpl.
  - destruct b as [y [|] [|] p0]; try done. intros [= ->]. by exists p0.
  - by destruct Level.
Qed.
Lemma exec_assign_inv ev c ev' : exec_assign ev c = Some ev' → ∃ l x r w z w1 v1,
  c = BinNode TYPE_ASSIGN l r ∧ target l = Some x ∧ eval ev r = Some (w, z) ∧
  env_lookup x ev = Some (w1, v1) ∧ ev' = env_update x (w1, Some z) ev.
Proof.
  intros Hex. destruct c as [op l r| | | | | | | | | | | | | | | |]; try done. unfold exec_assign in Hex.
  destruct (Z.eqb_spec op TYPE_ASSIGN) as [->|]; [|done]. destruct (target l) as [x|] eqn:Hl; [|done]. simpl in Hex.
  destruct (eval ev r) as [[w z]|] eqn:Hev; [|done]. simpl in Hex.
  match type of Hex with context [env_lookup ?x ev] => destruct (env_lookup x ev) as [[w1 v1]|] eqn:Hx; [|done] end. simpl in Hex.
  destruct (w <=? w1)%Z; [|done]. injection Hex as <-. by exists l, x, r, w, z, w1, v1.
Qed.
Lemma assign_run c s B s' t ev ev' ρ m M : point e s B → good e s t → runs (Node_calc (ExpSt c)) s tt s' → ext e M (fn s') F →
  exec_assign ev c = Some ev' → here s B t ev ρ m →
  ∃ ρ' m', rtc next (mk_state B (len (fn s) B) ρ m) (mk_state B (len (fn s') B) ρ' m') ∧ here s' B t ev' ρ' m'.
Proof.
  intros P G Hr X (l & x & r & w & z & w1 & v1 & -> & (p0 & Hl)%target_calc & Hev & Hx & ->)%exec_assign_inv [R Hp].
  pose proof (good_tab_known _ _ _ _ _ G P) as Ht. cbn [Codegen.Node_calc] in Hr. runs_inv Hr as (v0 & s1 & H1 & [_ ->]%cg_runs_ret).
  cbn [Codegen.ExpNode_calc] in H1. rewrite Hl in H1.
  pose proof (assign_var Pkgname x p0 r _ s B (mono_exp Pkgname r) (exp_computes Pkgname r) (pt_cur _ _ _ P) (pt_in _ _ _ P) Ht) as Hsp.
  apply (spec_runs _ _ _ _ _ Hsp) in H1 as (cs & E & Hx1).
  destruct (Hx1 args ev ρ m w z w1 v1) as (y & rg & p & ρ' & Hy & Hs & Hrg & Hrun & Hsame); [by eapply rel_var_match|done|done|].
  assert (B ∈ Blocks (fn s1)) as HB by (rewrite (ef_blocks _ _ _ _ E); apply P).
  assert (ext e (λ _, True) (fn s) F) as Xs by (eapply ext_any_trans; [|exact X]; by eapply ext_any, eff_ext).
  pose proof (done_sub F e s B _ P Xs) as Hsub.
  pose proof (ptrs_eff F e HF He _ _ _ _ _ _ _ _ E HB X Hsame Hp) as Hp'.
  assert (∀ r, known (fn s) r → ρ' !! r = ρ !! r) as Hkn by by eapply eff_keeps_known.
  assert (rel ρ' m t (tables s) ev) as R'.
  { eapply rel_keeps; [|apply grows_refl|exact R]. eapply keeps_known; [done|by eapply head_in|done]. }
  assert (Insts (fn s) e ⊆ done_at F e B (len (fn s1) B)) as Hsub'.
  { etrans; [|eapply (done_sub F e s1 B)]; [| |exact X].
    - eapply prefix_subseteq, (ex_insts e); [by eapply eff_ext|by eapply head_in].
    - eapply fr_point, frame_scopes; [exact P|by eapply eff_ext|by eapply ef_scopes]. }
  pose proof (good_apart _ _ _ _ _ _ _ G Hsub' Hp') as Hap.
  destruct (rel_update _ _ _ _ _ _ _ _ _ z R' (gd_plain _ _ _ _ G) (gd_vars _ _ _ _ G) Hap Hx) as (r' & p' & Hva & Hin & Hr' & Hrel).
  rewrite (search_var_at _ _ _ _ _ _ _ _ _ _ G R Hx Hy), Hva in Hs. injection Hs as ->.
  assert (p' = p) as ->.
  { destruct (good_value _ _ _ _ _ G Hin) as (? & ? & [= <- _] & Ha). rewrite Hkn in Hr'; [congruence|]. eapply alloc_known; [by eapply head_in|done]. }
  exists ρ', (<[p:=VInt w1 z]> m). split; [by eapply run_eff|]. split; [by rewrite (tables_eq _ _ (ef_scopes _ _ _ _ E))|].
  destruct (good_value _ _ _ _ _ G Hin) as (? & tp & [= <- <-] & Ha). eapply (ptrs_store _ _ _ rg (IntType w1)); [done| |exact Hr'|right; by exists z].
  eapply alloc_in_mono; [exact Ha|done].
Qed.

(** An allocation runs at its place, or has run with the first block. *)
Lemma alloc_run s B s1 r i tp t ev ρ m M : point e s B → good e s t → alloc_of tp i → NewInst (fn s) e i = (r, fn s1) → scopes s1 = scopes s →
  ext e M (fn s1) F → here s B t ev ρ m →
  ∃ ρ' m', rtc next (mk_state B (len (fn s) B) ρ m) (mk_state B (len (fn s1) B) ρ' m') ∧ here s1 B t ev ρ' m' ∧
    (∀ r', known (fn s) r' → ρ' !! r' = ρ !! r') ∧ ∃ p c, ρ' !! r = Some (VPtr p) ∧ m' !! p = Some c ∧ typed tp c.
Proof.
  intros P G Hi Hn Hs X [R Hp]. destruct (alloc_new _ _ _ _ _ _ _ P Hn Hi) as (Hk & Ha & Hins).
  pose proof (ext_alloc e i r _ _ Hn (head_in _ _ _ P) (alloc_of_is _ _ Hi)) as X1.
  assert (e ∈ Blocks (fn s1)) as He1 by (eapply ext_in; [exact X1|by eapply head_in]).
  pose proof (alloc_in_ext _ _ _ _ _ _ _ X He1 Ha) as HaF.
  destruct (decide (B = e)) as [->|HB].
  - assert (code_at F e (len (fn s) e) [(r, i)]) as Hc.
    { apply (code_at_prefix F (fn s1)); [by apply (ex_insts _ _ _ _ X)|rewrite Hins; by rewrite take_app_length|rewrite Hins, length_app; lia]. }
    assert (len (fn s1) e = len (fn s) e + length [(r, i)]) as Hlen by (by rewrite Hins, length_app).
    destruct (run_allocs F args e HF He _ _ ρ m Hc) as (ρ' & m' & Hx & P' & Hsame & Hg); [repeat constructor; by eapply alloc_of_is| |done|].
    { rewrite <- Hlen. by apply prefix_length, (ex_insts _ _ _ _ X). }
    rewrite <- Hlen in P'. assert (∀ r', known (fn s) r' → ρ' !! r' = ρ !! r') as Hkn.
    { intros r' Hr'. apply Hsame. intros ->%list_elem_of_singleton. done. }
    exists ρ', m'. split; [rewrite Hlen; by apply run_code|]. split; [|split; [done|]].
    + split; [|done]. rewrite (tables_eq _ _ Hs). eapply rel_keeps; [|exact Hg|exact R]. by eapply keeps_known; [|by eapply head_in|].
    + apply (po_cell _ _ _ P' r tp). unfold done_at. rewrite decide_True by done.
      destruct (ex_insts _ _ _ _ X e He1) as [l ->]. by rewrite take_app_length.
  - exists ρ, m. assert (Insts (fn s1) B = Insts (fn s) B) as Hsame by (apply (ext0_same _ _ _ _ X1); [apply P|done]).
    rewrite Hsame. split; [done|]. split; [split; [by rewrite (tables_eq _ _ Hs)|by rewrite Hsame]|]. split; [done|].
    apply (po_cell _ _ _ Hp). unfold done_at. by rewrite decide_False.
Qed.
Lemma define_run x tn s B s' ns t ev ev' ρ m M w : point e s B → good e s (ns :: t) → plain x = true → x ∉ ns →
  runs (Node_calc (DefineNode x tn)) s tt s' → ext e M (fn s') F → width_of tn = Some w → set_top x (w, None) ev = Some ev' →
  here s B (ns :: t) ev ρ m →
  ∃ ρ' m', rtc next (mk_state B (len (fn s) B) ρ m) (mk_state B (len (fn s') B) ρ' m') ∧ here s' B ((x :: ns) :: t) ev' ρ' m'.
Proof.
  intros P G Hx Hns Hr X Hw (fr & l & -> & ->)%set_top_inv Hh. cbn [Codegen.Node_calc] in Hr.
  destruct (DefineNode_runs _ _ _ _ _ _ _ _ _ _ P G Hx Hns Hr) as (tp & r & i & s1 & Htp & Hi & Hn & Hs & Hf & [G' (y & tb & tbs & Hy & Ht & Ht') Ha]).
  rewrite Hf in X. destruct (alloc_run _ _ _ _ _ _ _ _ _ _ _ P G Hi Hn Hs X Hh) as (ρ' & m' & Hrun & [R' P'] & _ & p & c & Hrp & Hm & Hc).
  specialize (Htp w Hw) as ->. exists ρ', m'. rewrite Hf. split; [done|]. split; [|by rewrite Hf].
  rewrite Ht'. rewrite (tables_eq _ _ Hs), Ht in R'. pose proof (gd_plain _ _ _ _ G) as Hpl. inversion Hpl; subst.
  by eapply rel_define.
Qed.
(** The first store to a new variable. *)
Lemma init_var x y r w z s2 s3 s' B ns t tb tbs fr l ρ m ρ' cs p c0 M :
  point e s2 B → good e s2 (ns :: t) → plain x = true → x ∉ ns → full x = Some y →
  tables s2 = tb :: tbs → tables s' = ((y, Inst r (PointerType (IntType w))) :: tb) :: tbs → fn s' = fn s3 →
  (∀ tp, Inst r tp ∉ values (tables s2)) → alloc_in (Insts (fn s2) e) r (IntType w) →
  eff s2 s3 B cs → ext e M (fn s3) F → here s2 B (ns :: t) (fr :: l) ρ m → ρ !! r = Some (VPtr p) → m !! p = Some c0 →
  exec_insts args cs ρ m = Some (ρ', <[p:=VInt w z]> m) → same_but cs ρ ρ' →
  ∃ ρ' m', rtc next (mk_state B (len (fn s2) B) ρ m) (mk_state B (len (fn s') B) ρ' m') ∧ here s' B ((x :: ns) :: t) (<[x:=(w, Some z)]> fr :: l) ρ' m'.
Proof.
  intros P2 G2 Hx Hns Hy Ht2 Ht' Hf Hnew Ha E3 X [R2 Hp2] Hrp Hm Hrun Hsame.
  assert (B ∈ Blocks (fn s3)) as HB3 by (rewrite (ef_blocks _ _ _ _ E3); apply P2).
  pose proof (ptrs_eff F e HF He _ _ _ _ _ _ _ _ E3 HB3 X Hsame Hp2) as Hp3.
  assert (∀ r', known (fn s2) r' → ρ' !! r' = ρ !! r') as Hkn3 by by eapply eff_keeps_known.
  assert (rel ρ' m (ns :: t) (tables s2) (fr :: l)) as [R3 N3].
  { eapply rel_keeps; [|apply grows_refl|exact R2]. eapply keeps_known; [done|by eapply head_in|done]. }
  assert (ρ' !! r = Some (VPtr p)) as Hrp3 by (rewrite Hkn3; [done|eapply alloc_known; [by eapply head_in|done]]).
  assert (Insts (fn s2) e ⊆ done_at F e B (len (fn s3) B)) as Hsub.
  { etrans; [|eapply (done_sub F e s3 B)]; [| |exact X].
    - eapply prefix_subseteq, (ex_insts e); [by eapply eff_ext|by eapply head_in].
    - eapply fr_point, frame_scopes; [exact P2|by eapply eff_ext|by eapply ef_scopes]. }
  assert (alloc_in (done_at F e B (len (fn s3) B)) r (IntType w)) as Had by by eapply alloc_in_mono.
  assert (∀ r' tp', Inst r' tp' ∈ values (tables s2) → ρ' !! r' ≠ Some (VPtr p)) as Hne.
  { intros r' tp' Hin Hr'. destruct (good_value _ _ _ _ _ G2 Hin) as (? & tq & [= <- ->] & Ha').
    assert (r' = r) as -> by (eapply (po_inj _ _ _ Hp3 r' tq r (IntType w) p); [by eapply alloc_in_mono|done..]). by eapply Hnew. }
  exists ρ', (<[p:=VInt w z]> m). split; [rewrite Hf; by eapply run_eff|]. split.
  - rewrite Ht'. rewrite Ht2 in R3, Hne.
    eapply (rel_define _ _ _ _ _ _ _ _ _ _ _ _ _ _ p (VInt w z)); [|by pose proof (gd_plain _ _ _ _ G2) as Hpl; inversion Hpl|done|done|done|done|by rewrite lookup_insert_eq|done].
    split; [|done]. by apply frames_other.
  - rewrite Hf. eapply ptrs_store; [done|exact Had|done|]. right. by exists z.
Qed.
Lemma known_in_table s t r tp : good e s t → e ∈ Blocks (fn s) → ¬ known (fn s) r → Inst r tp ∉ values (tables s).
Proof. intros G He' Hk Hin. by eapply new_not_in_tables. Qed.
Lemma def_assign_run c x s B s' ns t ev ev' ρ m M w z : point e s B → good e s (ns :: t) → plain x = true → x ∉ ns →
  runs (Node_calc (DefAndAssignNode c x)) s tt s' → ext e M (fn s') F → eval ev c = Some (w, z) →
  set_top x (if (w =? 1)%Z then 1%Z else 64%Z, Some z) ev = Some ev' → here s B (ns :: t) ev ρ m →
  ∃ ρ' m', rtc next (mk_state B (len (fn s) B) ρ m) (mk_state B (len (fn s') B) ρ' m') ∧ here s' B ((x :: ns) :: t) ev' ρ' m'.
Proof.
  intros P G Hx Hns Hr X Hev (fr & l & -> & ->)%set_top_inv [R Hp]. cbn [Codegen.Node_calc] in Hr.
  destruct (DefAndAssignNode_runs _ _ _ _ _ _ _ _ _ _ P G Hx Hns Hr)
    as (v & cs & s1 & i & r & s2 & s3 & Hv & E1 & Hi & Hn & Hs2 & H3 & P2 & Hf & [G' (y & tb & tbs & Hy & Ht & Ht') Ha]).
  rewrite Hf in X. set (tp := var_type v) in *. set (lp := Inst r (PointerType tp)) in *.
  pose proof (eff_ext e _ _ _ _ E1) as X1. pose proof (ef_scopes _ _ _ _ E1) as Hs1.
  assert (point e s1 B) as P1 by (eapply fr_point, frame_scopes; [exact P|done..]).
  assert (good e s1 (ns :: t)) as G1 by (eapply good_ext; [exact G|exact P|exact X1|by apply tables_eq]).
  pose proof (ext_alloc e i r _ _ Hn (head_in _ _ _ P1) (alloc_of_is _ _ Hi)) as X2.
  destruct (alloc_new _ _ _ _ _ _ _ P1 Hn Hi) as (Hk & Ha2 & _).
  assert (val_known (fn s2) lp) as Hlk by (intros r' t' [= <- <-]; eapply alloc_known; [by eapply head_in|done]).
  assert (∃ cs3, eff s2 s3 B cs3) as [cs3' E3'].
  { by_spec H3. eapply (proj2 (appends_bind _ _ (appends_implicitCast v tp) (λ v1, appends_store v1 lp))); apply P2. }
  assert (ext e (λ _, True) (fn s2) F) as XF2 by (eapply ext_any_trans; [|exact X]; by eapply ext_any, eff_ext).
  assert (ext e (λ _, True) (fn s1) F) as XF1 by (eapply ext_any_trans; [|exact XF2]; by eapply ext_any).
  destruct (exp_run Pkgname F args e HF He _ _ _ _ _ _ _ _ _ _ _ _ P G Hv XF1 R Hp Hev) as (ρ1 & Hrun1 & R1 & Hp1 & Hh1 & Hvk).
  destruct (alloc_run _ _ _ _ _ _ _ _ _ _ _ P1 G1 Hi Hn Hs2 XF2 (mk_here _ _ _ _ _ _ R1 Hp1)) as (ρ2 & m2 & Hrun2 & Hh2 & Hkn & p & c0 & Hrp & Hm & Hc).
  assert (has args ρ2 v w z) as Hv2.
  { destruct Hh1 as [Hty Hop]. split; [done|]. destruct v as [|r' t'|]; [done| |done]. simpl in Hop |- *. case_decide; [|done].
    rewrite Hkn; [done|]. by eapply Hvk. }
  assert (val_known (fn s2) v) as Hvk2 by (intros r' t' ->; eapply known_ext; [exact X2|]; by eapply Hvk).
  assert (assign_code s2 B v lp s3) as (cs3 & t3 & E3 & Ht3 & Hx3).
  { apply (spec_runs _ _ _ _ _ (cast_store_spec v tp lp s2 B (pt_cur _ _ _ P2) (pt_in _ _ _ P2) Hvk2 eq_refl)) in H3. apply H3. }
  destruct (Hx3 args ρ2 m2 w z p c0 Hlk Hv2) as (ρ3 & w' & Hw' & Hrun3 & Hsame3); [simpl; by rewrite decide_True|done|].
  simpl in Ht3. injection Ht3 as <-. 
  assert (w' = if (w =? 1)%Z then 1%Z else 64%Z) as ->.
  { unfold tp, var_type in Hw'. rewrite (proj1 Hh1) in Hw'. destruct (w =? 1)%Z; by injection Hw'. }
  assert (good e s2 (ns :: t)) as G2 by (eapply good_ext; [exact G1|exact P1|exact X2|by apply tables_eq]).
  assert (tables s2 = tb :: tbs) as Ht2 by (rewrite <- Ht; apply tables_eq; congruence).
  destruct (init_var x y r (if (w =? 1)%Z then 1%Z else 64%Z) z s2 s3 s' B ns t tb tbs fr l ρ2 m2 ρ3 cs3 p c0 M) as (ρ4 & m4 & Hrun4 & Hh4); try done.
  { rewrite Ht'. unfold lp. by rewrite Hw'. }
  { intros tp'. rewrite (tables_eq _ _ Hs2). eapply known_in_table; [exact G1|by eapply head_in|done]. }
  { by rewrite <- Hw'. }
  exists ρ4, m4. split; [|done]. etrans; [exact Hrun1|]. by etrans.
Qed.

(** ** Statements that leave *)

Lemma values_known s t r tp : good e s t → e ∈ Blocks (fn s) → Inst r tp ∈ values (tables s) → known (fn s) r.
Proof. intros G He' Hr. destruct (good_value _ _ _ _ _ G Hr) as (? & ? & [= <- ->] & Ha). by eapply alloc_known. Qed.
Definition ret_val (v : option (Z * Z)) : option val := (λ v, VInt v.1 v.2) <$> v.
Lemma ret_run c s B s' t ev ev' v ρ m M fuel : point e s B → good e s t → runs (Node_calc (RetNode c)) s tt s' → ext e M (fn s') F → ¬ M B →
  exec fuel ev (RetNode c) = Some (OReturn v, ev') → here s B t ev ρ m →
  ∃ σ, rtc next (mk_state B (len (fn s) B) ρ m) σ ∧ step F args σ = Some (Returned (ret_val v)).
Proof.
  intros P G Hr X HM Hex [R Hp]. cbn [Codegen.Node_calc] in Hr. unfold RetNode_calc in Hr. destruct fuel as [|fuel]; [done|]. simpl in Hex.
  pose proof (head_in _ _ _ P) as He0. destruct c as [c|].
  - destruct (eval ev c) as [[w z]|] eqn:Hev; [|done]. simpl in Hex. destruct (convert RetType (w, z)) as [v'|] eqn:Hcv; [|done]. injection Hex as <- <-.
    runs_inv Hr as (v0 & s0 & H0 & Hr). runs_inv Hr as (v1 & s1 & H1 & Hr).
    destruct (exp_code_runs _ _ _ _ _ _ _ _ _ P H0 H1) as (Hv & cs & E1).
    assert (point e s1 B) as P1 by (eapply fr_point, frame_scopes; [exact P|by eapply eff_ext|by eapply ef_scopes]).
    runs_inv Hr as (v2 & s2 & H2 & Hr).
    assert (∃ cs2, eff s1 s2 B cs2) as [cs2' E2']. 
    { clear Hr. by_spec H2. apply (proj2 (appends_implicitCast v1 RetType)); apply P1. }
    assert (point e s2 B) as P2 by (eapply fr_point, frame_scopes; [exact P1|by eapply eff_ext|by eapply ef_scopes]).
    apply (cur_block_inv e _ _ B) in Hr as [Hf Hs]%runs_set_term; [|done|intros; mono_tac].
    assert (ext e (λ b, b = B) (fn s2) (fn s')) as X2 by (rewrite Hf; apply ext_set_term, P2).
    assert (ext e (λ _, True) (fn s2) F) as XF2 by (eapply ext_any_trans; [by eapply ext_any|exact X]).
    assert (ext e (λ _, True) (fn s1) F) as XF1 by (eapply ext_any_trans; [|exact XF2]; by eapply ext_any, eff_ext).
    destruct (exp_run Pkgname F args e HF He _ _ _ _ _ _ _ _ _ _ _ _ P G Hv XF1 R Hp Hev) as (ρ1 & Hrun1 & R1 & Hp1 & Hh1 & Hvk).
    destruct (spec_runs _ _ _ _ _ (cast_spec v1 RetType s1 B (pt_cur _ _ _ P1) (pt_in _ _ _ P1) Hvk) H2) as (cs2 & E2 & Hvk2 & Hty2 & Hx2).
    destruct (Hx2 args ρ1 m w z Hh1) as (ρ2 & w' & Hrun2 & Hsame & Hrt & Hh2). rewrite Hrt in Hcv. simpl in Hcv. destruct (w <=? w')%Z; [|done]. injection Hcv as <-.
    pose proof (run_eff F args e _ _ _ _ _ _ _ _ _ E2 (pt_in _ _ _ P2) XF2 Hrun2) as Hrun2'.
    pose proof (ptrs_eff F e HF He _ _ _ _ _ _ _ _ E2 (pt_in _ _ _ P2) XF2 Hsame Hp1) as Hp2.
    assert (len (fn s') B = len (fn s2) B) as Hlen by (rewrite Hf; by destruct (SetTerm_spec (fn s2) B (Ret (Some v2)) (pt_in _ _ _ P2)) as (_ & _ & -> & _)).
    rewrite <- Hlen in Hrun2', Hp2.
    assert (good e s2 t) as G2. 
    { eapply good_ext; [eapply good_ext; [exact G|exact P|by eapply eff_ext|by apply tables_eq, (ef_scopes _ _ _ _ E1)]|exact P1|by eapply eff_ext|by apply tables_eq, (ef_scopes _ _ _ _ E2)]. }
    assert (rel ρ2 m t (tables s2) ev) as R2.
    { rewrite (tables_eq _ _ (ef_scopes _ _ _ _ E2)). eapply rel_keeps; [|apply grows_refl|exact R1].
      intros r tp Hr. eapply eff_keeps_known; [exact E2|exact Hsame|]. eapply eff_known; [exact E1|]. eapply values_known; [exact G|done|].
      by rewrite <- (tables_eq _ _ (ef_scopes _ _ _ _ E1)). }
    assert (B ∈ Blocks (fn s')) as HB' by (eapply ext_in; [exact X2|apply P2]).
    destruct (leave Pkgname F args e HF He M (fn s') B (Ret (Some v2)) t (tables s2) ev ρ2 m) as (k & ρ3 & m3 & Hrun3 & Hi & HT & Hkn & _ & _).
    { done. } { done. } { done. } { rewrite Hf. apply set_term_term, P2. }
    { intros r tp Hr. eapply known_ext; [exact X2|]. eapply values_known; [exact G2|by eapply head_in|done]. } { done. } { done. }
    exists (mk_state B k ρ3 m3). split; [etrans; [exact Hrun1|]; etrans; [exact Hrun2'|exact Hrun3]|].
    unfold step. simpl. rewrite Hi, HT. rewrite Hty2, Hrt. destruct Hh2 as [Hty Hop].
    assert (operand args ρ3 (IntType w') v2 = Some (VInt w' z)) as ->; [|done].
    destruct v2 as [|r tp|]; [done| |done]. simpl in Hop |- *. case_decide; [|done]. rewrite Hkn; [done|]. eapply known_ext; [exact X2|]. by eapply Hvk2.
  - injection Hex as <- <-. apply (cur_block_inv e _ _ B) in Hr as [Hf Hs]%runs_set_term; [|done|intros; mono_tac].
    assert (ext e (λ b, b = B) (fn s) (fn s')) as X2 by (rewrite Hf; apply ext_set_term, P).
    assert (len (fn s') B = len (fn s) B) as Hlen by (rewrite Hf; by destruct (SetTerm_spec (fn s) B (Ret None) (pt_in _ _ _ P)) as (_ & _ & -> & _)).
    rewrite <- Hlen in Hp |- *.
    destruct (leave Pkgname F args e HF He M (fn s') B (Ret None) t (tables s) ev ρ m) as (k & ρ3 & m3 & Hrun3 & Hi & HT & _ & _ & _).
    { eapply ext_in; [exact X2|apply P]. } { done. } { done. } { rewrite Hf. apply set_term_term, P. }
    { intros r tp Hr. eapply known_ext; [exact X2|]. by eapply values_known. } { done. } { done. }
    exists (mk_state B k ρ3 m3). split; [done|]. unfold step. simpl. by rewrite Hi, HT.
Qed.
Lemma jump_run s B s' b t ev ρ m M : point e s B → good e s t → fn s' = SetTerm (fn s) B (Br b) → ext e M (fn s') F → ¬ M B →
  here s B t ev ρ m →
  ∃ ρ' m', rtc next (mk_state B (len (fn s) B) ρ m) (mk_state b 0 ρ' m') ∧ rel ρ' m' t (tables s) ev ∧ ptrs_ok (Insts F e) ρ' m'.
Proof.
  intros P G Hf X HM [R Hp]. pose proof (head_in _ _ _ P) as He0.
  assert (ext e (λ b, b = B) (fn s) (fn s')) as X2 by (rewrite Hf; apply ext_set_term, P).
  assert (len (fn s') B = len (fn s) B) as Hlen by (rewrite Hf; by destruct (SetTerm_spec (fn s) B (Br b) (pt_in _ _ _ P)) as (_ & _ & -> & _)).
  rewrite <- Hlen in Hp |- *. apply (leave_br Pkgname F args e HF He M (fn s') B b); try done.
  - eapply ext_in; [exact X2|apply P].
  - rewrite Hf. apply set_term_term, P.
  - intros r tp Hr. eapply known_ext; [exact X2|]. by eapply values_known.
Qed.
Lemma break_runs s B u s' c b : point e s B → loops s = Some (c, Some b) → runs BreakNode_calc s u s' → fn s' = SetTerm (fn s) B (Br b).
Proof.
  intros P Hl Hr. unfold BreakNode_calc in Hr. runs_inv Hr as (x & s1 & [-> (sc & l & Hs & ->)]%runs_scope_get & Hr).
  unfold loops in Hl. rewrite Hs in Hl. injection Hl as _ Hb. rewrite Hb in Hr. 
  apply (cur_block_inv e _ _ B) in Hr as [Hf _]%runs_set_term; [done|done|intros; mono_tac].
Qed.
Lemma continue_runs s B u s' c b : point e s B → loops s = Some (Some c, b) → runs ContinueNode_calc s u s' → fn s' = SetTerm (fn s) B (Br c).
Proof.
  intros P Hl Hr. unfold ContinueNode_calc in Hr. runs_inv Hr as (x & s1 & [-> (sc & l & Hs & ->)]%runs_scope_get & Hr).
  unfold loops in Hl. rewrite Hs in Hl. injection Hl as Hb _. rewrite Hb in Hr. 
  apply (cur_block_inv e _ _ B) in Hr as [Hf _]%runs_set_term; [done|done|intros; mono_tac].
Qed.

(** ** Where outcomes lead *)

(** At the start of block [b], in an enclosing scope. *)
Definition left_to (b : nat) (t : names) (tbs : list table) ev' (σ : state) : Prop :=
  ∃ ρ m t1 tbs1, σ = mk_state b 0 ρ m ∧ rel ρ m t1 tbs1 ev' ∧ tail t1 = tail t ∧ tail tbs1 = tail tbs ∧ ptrs_ok (Insts F e) ρ m.
Definition lands (o : outcome) (cb br : nat) s t s' t' ev' (σ : state) : Prop :=
  match o with
  | ONormal => ∃ B' ρ m, cur s' = Some B' ∧ σ = mk_state B' (len (fn s') B') ρ m ∧ here s' B' t' ev' ρ m
  | OBreak => left_to br t (tables s) ev' σ
  | OContinue => left_to cb t (tables s) ev' σ
  | OReturn v => step F args σ = Some (Returned (ret_val v))
  end.
(** The blocks that code behind a statement or a list may still change. *)
Definition may_change (M : nat → Prop) (last_leaves : bool) s B s' : Prop := ∀ b, b ∈ Blocks (fn s') → M b →
  (b ∈ Blocks (fn s) ∧ b ≠ B) ∨ (cur s' = Some b ∧ last_leaves = false).
Definition in_loop (lp : bool) s (cb br : nat) : Prop := lp = true → loops s = Some (Some cb, Some br).
Definition node_sim (fuel : nat) : Prop := ∀ n lp t t' s B s' M cb br ev o ev' ρ m,
  node_ok lp t n = Some t' → point e s B → good e s t → runs (Node_calc n) s tt s' → in_loop lp s cb br →
  ext e M (fn s') F → may_change M (leaves n) s B s' → exec fuel ev n = Some (o, ev') → here s B t ev ρ m →
  ∃ σ, rtc next (mk_state B (len (fn s) B) ρ m) σ ∧ lands o cb br s t s' t' ev' σ.

Lemma lands_here s0 t0 s B t' ev' ρ m σ0 cb br : cur s = Some B → rtc next σ0 (mk_state B (len (fn s) B) ρ m) → here s B t' ev' ρ m →
  ∃ σ, rtc next σ0 σ ∧ lands ONormal cb br s0 t0 s t' ev' σ.
Proof. intros Hc Hr Hh. eexists. split; [exact Hr|]. by exists B, ρ, m. Qed.
Lemma steady_point {A} (m : CG A) s B a s' : steady m → point e s B → runs m s a s' → cur s' = Some B.
Proof. intros [_ Sm] P Hr. apply (Sm e s B a s' P Hr). Qed.
(** The statements without blocks of their own. *)
Lemma straight_sim fuel n lp t t' s B s' M cb br ev o ev' ρ m : branches n = false →
  node_ok lp t n = Some t' → point e s B → good e s t → runs (Node_calc n) s tt s' → in_loop lp s cb br →
  ext e M (fn s') F → may_change M (leaves n) s B s' → exec (S fuel) ev n = Some (o, ev') → here s B t ev ρ m →
  ∃ σ, rtc next (mk_state B (len (fn s) B) ρ m) σ ∧ lands o cb br s t s' t' ev' σ.
Proof.
  intros Hb Hok P G Hr Hl X Hch Hex Hh.
  assert (leaves n = true → ¬ M B) as HMB.
  { intros Hlv HM. destruct (proj2 (framed_Node Pkgname ident params RetType order n) e s B tt s' P Hr) as [B' Fr].
    destruct (Hch B) as [[_ ?]|[_ ?]]; [eapply ext_in; [apply Fr|apply P]|done|done|congruence]. }
  destruct n as [c|ch|l z| |x tn|c|c x|b st|b st el|b d a st| | |c]; try done.
  - injection Hok as <-. simpl in Hex. destruct (exec_assign ev c) as [ev1|] eqn:Ha; [|done]. injection Hex as <- <-.
    destruct (assign_run _ _ _ _ _ _ _ _ _ _ P G Hr X Ha Hh) as (ρ' & m' & Hrun & Hh').
    eapply lands_here; [|exact Hrun|exact Hh']. eapply steady_point; [|exact P|exact Hr]. apply steady_simple. by left.
  - injection Hok as <-. injection Hex as <- <-. cbn [Codegen.Node_calc] in Hr. apply cg_runs_ret in Hr as [_ ->].
    eapply lands_here; [apply P|done|exact Hh].
  - apply define_inv in Hok as (ns & l & -> & Hx & Hns & ->). simpl in Hex. destruct (width_of tn) as [w|] eqn:Hw; [|done]. simpl in Hex.
    destruct (set_top x (w, None) ev) as [ev1|] eqn:Hst; [|done]. injection Hex as <- <-.
    destruct (define_run _ _ _ _ _ _ _ _ _ _ _ _ _ P G Hx Hns Hr X Hw Hst Hh) as (ρ' & m' & Hrun & Hh').
    eapply lands_here; [|exact Hrun|exact Hh']. eapply steady_point; [|exact P|exact Hr]. apply steady_define.
  - injection Hok as <-. destruct (ret_run c s B s' t ev ev' (match o with OReturn v => v | _ => None end) ρ m M (S fuel)) as (σ & Hrun & Hst); try done.
    + by apply HMB.
    + rewrite Hex. simpl in Hex. destruct c; [|by injection Hex as <- <-].
      destruct (eval ev e0); [|done]. simpl in Hex. destruct (convert _ _); [|done]. by injection Hex as <- <-.
    + exists σ. split; [done|]. simpl in Hex. destruct c; [|by injection Hex as <- <-].
      destruct (eval ev e0); [|done]. simpl in Hex. destruct (convert _ _); [|done]. by injection Hex as <- <-.
  - apply define_inv in Hok as (ns & l & -> & Hx & Hns & ->). simpl in Hex. destruct (eval ev c) as [[w z]|] eqn:Hev; [|done]. simpl in Hex.
    destruct (set_top _ _ ev) as [ev1|] eqn:Hst; [|done]. simpl in Hex. destruct (w <=? 64)%Z; [|done]. injection Hex as <- <-.
    destruct (def_assign_run _ _ _ _ _ _ _ _ _ _ _ _ _ _ P G Hx Hns Hr X Hev Hst Hh) as (ρ' & m' & Hrun & Hh').
    eapply lands_here; [|exact Hrun|exact Hh']. eapply steady_point; [|exact P|exact Hr]. apply steady_def_assign.
  - simpl in Hok. destruct lp; [|done]. injection Hok as <-. injection Hex as <- <-. specialize (Hl eq_refl).
    cbn [Codegen.Node_calc] in Hr. apply (break_runs _ _ _ _ _ _ P Hl) in Hr as Hf.
    destruct (jump_run _ _ _ _ _ _ _ _ _ P G Hf X (HMB eq_refl) Hh) as (ρ' & m' & Hrun & R & Hp).
    eexists. split; [exact Hrun|]. by exists ρ', m', t, (tables s).
  - simpl in Hok. destruct lp; [|done]. injection Hok as <-. injection Hex as <- <-. specialize (Hl eq_refl).
    cbn [Codegen.Node_calc] in Hr. apply (continue_runs _ _ _ _ _ _ P Hl) in Hr as Hf.
    destruct (jump_run _ _ _ _ _ _ _ _ _ P G Hf X (HMB eq_refl) Hh) as (ρ' & m' & Hrun & R & Hp).
    eexists. split; [exact Hrun|]. by exists ρ', m', t, (tables s).
Qed.

(** ** Lists and blocks *)

Lemma node_ok_tail lp t n t' : node_ok lp t n = Some t' → tail t' = tail t.
Proof.
  assert (∀ x t t', define x t = Some t' → tail t' = tail t) as Hd by (intros x t1 t1' (ns & l & -> & _ & _ & ->)%define_inv; done).
  intros Hok. destruct n as [c|ch|l z| |x tn|c|c x|b st|b st el|b d a st| | |c]; try done; try (by injection Hok as <-); try (by eapply Hd).
  - simpl in Hok. case_match; [|done]. by injection Hok as <-.
  - simpl in Hok. case_match; [|done]. by injection Hok as <-.
  - apply for_names in Hok as (_ & _ & _ & Hd'). destruct d as [d|]; [|by subst]. destruct Hd' as [Hn [Ha|(c & x & -> & _)]]; [|by eapply Hd].
    destruct d; try done. by injection Hn as <-.
  - simpl in Hok. destruct lp; [|done]. by injection Hok as <-.
  - simpl in Hok. destruct lp; [|done]. by injection Hok as <-.
Qed.
Lemma tail_tables s s' B B' : frame e s s' B B' → tail (tables s') = tail (tables s).
Proof. intros Fr. unfold tables. rewrite <- !fmap_tail. by rewrite (fr_tail _ _ _ _ _ Fr). Qed.
Lemma lands_outer o cb br s t s1 t1 s' t' s2 t2 ev' σ : lands o cb br s t s1 t1 ev' σ → o ≠ ONormal → 
  tail t = tail t' → tail (tables s) = tail (tables s') → lands o cb br s' t' s2 t2 ev' σ.
Proof. intros Hl Ho Ht Htb. destruct o; try done; simpl in *; unfold left_to in *; by rewrite <- Ht, <- Htb. Qed.
Lemma ends_mono (p q : Node → bool) ch : (∀ n, p n = true → q n = true) → ends p ch = true → ends q ch = true.
Proof. intros Hpq. induction ch as [|n ch IH]; [done|]. simpl. destruct (forallb is_empty ch); [apply Hpq|done]. Qed.
Lemma ends_empty p ch : p EmptyNode = false → forallb is_empty ch = true → ends p ch = false.
Proof.
  intros Hp. induction ch as [|n ch IH]; [done|]. simpl. rewrite andb_true_iff. intros [Hn ->]. by destruct n.
Qed.

Lemma list_sim fuel : node_sim fuel → ∀ ch lp t t' s B s' M cb br ev o ev' ρ m,
  children_ok node_ok lp t ch = Some t' → point e s B → good e s t → runs (calc_children Node_calc ch) s tt s' → in_loop lp s cb br →
  ext e M (fn s') F → may_change M (ends leaves ch) s B s' → exec_list (exec fuel) ev ch = Some (o, ev') → here s B t ev ρ m →
  ∃ σ, rtc next (mk_state B (len (fn s) B) ρ m) σ ∧ lands o cb br s t s' t' ev' σ.
Proof.
  intros Hnode. induction ch as [|n ch IH]; intros lp t t' s B s' M cb br ev o ev' ρ m Hok P G Hr Hl X Hch Hex Hh.
  - apply cg_runs_ret in Hr as [_ ->]. injection Hok as <-. injection Hex as <- <-. eapply lands_here; [apply P|done|exact Hh].
  - apply children_ok_cons in Hok as (_ & t1 & Hn & Hok & Hemp). apply runs_children_cons in Hr as (s1 & H1 & H2).
    simpl in Hex. destruct (exec fuel ev n) as [[o1 ev1]|] eqn:He1; [|done]. simpl in Hex.
    destruct (proj2 (framed_Node Pkgname ident params RetType order n) e s B tt s1 P H1) as [B1 F1].
    destruct (proj2 (framed_children Pkgname ident params RetType order ch (proj2 (Forall_forall _ _) (λ k _, framed_Node Pkgname ident params RetType order k)))
      e s1 B1 tt s' (fr_point _ _ _ _ _ F1) H2) as [B2 F2].
    pose proof (fr_point _ _ _ _ _ F1) as P1. pose proof (fr_point _ _ _ _ _ F2) as P2.
    assert (ext e (λ b, b = B1 ∨ M b) (fn s1) F) as X1 by (eapply ext_trans; [apply F2|exact X|naive_solver|naive_solver]).
    pose proof (node_good Pkgname ident params RetType order _ _ _ _ _ _ _ _ Hn P G H1) as G1.
    assert (∀ b, M b → b ∈ Blocks (fn s1) → (b ∈ Blocks (fn s) ∧ b ≠ B) ∨ (b = B1 ∧ B2 = B1 ∧ ends leaves (n :: ch) = false)) as HM.
    { intros b Hb Hin. destruct (Hch b) as [?|[Hc Hlv]]; [eapply ext_in; [apply F2|done]|done|by left|].
      right. assert (b = B2) as -> by (rewrite (pt_cur _ _ _ P2) in Hc; congruence). destruct (fr_new _ _ _ _ _ F2) as [->|Hn']; [done|done]. }
    assert (leaves n = true → s' = s1) as Hleaf by (intros Hlv; eapply runs_empty; [by apply Hemp|exact H2]).
    destruct (Hnode n lp t t1 s B s1 (λ b, (b = B1 ∧ leaves n = false) ∨ M b) cb br ev o1 ev1 ρ m) as (σ1 & Hr1 & L1); try done.
    + destruct (leaves n) eqn:Hlv; [|eapply ext_weaken; [exact X1|naive_solver]].
      rewrite <- (Hleaf eq_refl). eapply ext_weaken; [exact X|naive_solver].
    + intros b Hb [[-> Hlv]|HMb]; [right; by rewrite (pt_cur _ _ _ P1)|]. destruct (HM b HMb Hb) as [?|(-> & -> & Hlv)]; [by left|right].
      rewrite (pt_cur _ _ _ P1). split; [done|]. destruct (leaves n) eqn:Hlv'; [|done]. simpl in Hlv. rewrite (Hemp eq_refl) in Hlv. congruence.
    + destruct o1; try (injection Hex as <- <-; exists σ1; split; [done|]; by eapply lands_outer; [exact L1|..]).
      destruct L1 as (B1' & ρ1 & m1 & Hc1 & -> & Hh1). assert (B1' = B1) as -> by (pose proof (pt_cur _ _ _ P1); congruence).
      destruct (IH (lp && negb (is_for n)) t1 t' s1 B1 s' M cb br ev1 o ev' ρ1 m1) as (σ & Hr2 & L2); try done.
      * intros [-> Hf%negb_true_iff]%andb_true_iff. rewrite <- (Hl eq_refl).
        eapply fc_loops; [eapply facts_node; [exact Hn|exact P|exact H1]|]. simpl. by rewrite Hf.
      * intros b Hb HMb. destruct (Hch b Hb HMb) as [[Hb1 Hb2]|[Hc Hlv2]].
        -- left. split; [eapply ext_in; [apply F1|done]|]. destruct (fr_new _ _ _ _ _ F1); congruence.
        -- right. split; [done|]. simpl in Hlv2. destruct (forallb is_empty ch) eqn:Hc'; [by apply ends_empty|done].
      * exists σ. split; [by etrans|]. destruct o; try (by eapply lands_outer; [exact L2|done|by eapply node_ok_tail|by eapply tail_tables]). done.
Qed.

Lemma children_ok_tail lp t ch t' : children_ok node_ok lp t ch = Some t' → tail t' = tail t.
Proof.
  revert lp t. induction ch as [|n ch IH]; intros lp t Hok; [by injection Hok as <-|].
  apply children_ok_cons in Hok as (_ & t1 & Hn%node_ok_tail & Hok & _). rewrite <- Hn. by eapply IH.
Qed.
Lemma leaves_last lp t ch t' : children_ok node_ok lp t ch = Some t' → existsb leaves ch = ends leaves ch.
Proof.
  revert lp t. induction ch as [|n ch IH]; intros lp t Hok; [done|].
  apply children_ok_cons in Hok as (_ & t1 & _ & Hok & Hemp). simpl. rewrite (IH _ _ Hok). destruct (leaves n) eqn:Hl; [by rewrite Hemp|].
  destruct (forallb is_empty ch) eqn:Hc'; [by apply ends_empty|done].
Qed.
Lemma body_leaves lp t n : block_ok node_ok lp t n = true → existsb leaves (children_of n) = ends leaves (children_of n).
Proof.
  unfold block_ok. destruct n; try (intros _; simpl; by rewrite ?orb_false_r). destruct (children_ok node_ok lp _ _) eqn:Hok; [|done]. intros _. by eapply leaves_last.
Qed.
Lemma leaf_not_normal fuel ev n o ev' : leaves n = true → exec fuel ev n = Some (o, ev') → o ≠ ONormal.
Proof.
  destruct fuel as [|fuel]; [done|]. destruct n as [| | | | |c| | | | | | |]; try done; intros _ Hex; simpl in Hex.
  - destruct c as [c|]; [|by injection Hex as <- _]. destruct (eval ev c) as [v|]; [|done]. simpl in Hex.
    destruct (convert RetType v); [|done]. by injection Hex as <- _.
  - by injection Hex as <- _.
  - by injection Hex as <- _.
Qed.
Lemma ends_not_normal fuel ev ch o ev' : ends leaves ch = true → exec_list (exec fuel) ev ch = Some (o, ev') → o ≠ ONormal.
Proof.
  revert ev. induction ch as [|n ch IH]; intros ev He' Hex; [done|]. simpl in He', Hex.
  destruct (exec fuel ev n) as [[o1 ev1]|] eqn:Hn; [|done]. simpl in Hex. destruct (forallb is_empty ch).
  - pose proof (leaf_not_normal _ _ _ _ _ He' Hn). destruct o1; try done; by injection Hex as <- _.
  - destruct o1; [by eapply IH|by injection Hex as <- _..].
Qed.
Lemma body_not_normal fuel ev n o ev' : ends leaves (children_of n) = true → exec fuel ev n = Some (o, ev') → o ≠ ONormal.
Proof.
  intros Hl Hex. destruct n; try (refine (leaf_not_normal _ _ _ _ _ _ Hex); exact Hl). destruct fuel as [|fuel]; [done|]. by eapply ends_not_normal.
Qed.

(** A body ends in its block, or left it; its variables are gone. *)
Definition body_lands (o : outcome) (cb br : nat) s t sb ev' (σ : state) : Prop :=
  match o with
  | ONormal => ∃ Bb ρ m, cur sb = Some Bb ∧ σ = mk_state Bb (len (fn sb) Bb) ρ m ∧ rel ρ m t (tables s) ev' ∧
      ptrs_ok (done_at F e Bb (len (fn sb) Bb)) ρ m
  | OBreak => ∃ ρ m, σ = mk_state br 0 ρ m ∧ rel ρ m t (tables s) ev' ∧ ptrs_ok (Insts F e) ρ m
  | OContinue => ∃ ρ m, σ = mk_state cb 0 ρ m ∧ rel ρ m t (tables s) ev' ∧ ptrs_ok (Insts F e) ρ m
  | OReturn v => step F args σ = Some (Returned (ret_val v))
  end.
Lemma child_tables s B b : point e s B → tables (child s b) = [] :: tables s.
Proof. intros P. pose proof (pt_cur _ _ _ P) as Hc. unfold cur in Hc. unfold tables, child. by destruct (scopes s). Qed.
Lemma child_loops s B b : point e s B → loops (child s b) = loops s.
Proof. intros P. pose proof (pt_cur _ _ _ P) as Hc. unfold cur in Hc. unfold loops, child. by destruct (scopes s). Qed.
Lemma lands_body o cb br s t s1 t1 ev' σ sb t' : tail t1 = t → tail t' = t → tail (tables s1) = tables s → tail (tables sb) = tables s →
  lands o cb br s1 t1 sb t' ev' σ → body_lands o cb br s t sb (tail ev') σ.
Proof.
  intros H1 H2 H3 H4 Hl. destruct o; try done; simpl in *.
  - destruct Hl as (B' & ρ & m & Hc & -> & [R Hp]). exists B', ρ, m. split; [done|]. split; [done|]. split; [|done]. rewrite <- H2, <- H4. by apply rel_tail.
  - destruct Hl as (ρ & m & t2 & tb2 & -> & R & T1 & T2 & Hp). exists ρ, m. split; [done|]. split; [|done]. rewrite <- H1, <- H3, <- T1, <- T2. by apply rel_tail.
  - destruct Hl as (ρ & m & t2 & tb2 & -> & R & T1 & T2 & Hp). exists ρ, m. split; [done|]. split; [|done]. rewrite <- H1, <- H3, <- T1, <- T2. by apply rel_tail.
Qed.
Lemma body_sim fuel : (∀ k, k ≤ fuel → node_sim k) → ∀ n lp t s B b sb M cb br ev o ev' ρ m,
  block_ok node_ok lp t n = true → point e s B → good e s t → b ∈ Blocks (fn s) → Insts (fn s) b = [] → b ≠ e →
  runs (Node_calc n) (child s b) tt sb → in_loop lp s cb br →
  ext e M (fn sb) F → may_change M (ends leaves (children_of n)) (child s b) b sb →
  exec_block (exec fuel) ev n = Some (o, ev') → rel ρ m t (tables s) ev → ptrs_ok (Insts F e) ρ m →
  ∃ σ, rtc next (mk_state b 0 ρ m) σ ∧ body_lands o cb br s t sb ev' σ.
Proof.
  intros IH n lp t s B b sb M cb br ev o ev' ρ m Hok P G Hb Hi Hbe Hr Hl X Hch Hex R Hp.
  pose proof (child_point _ _ _ _ P Hb) as Pc. pose proof (good_child _ _ _ _ _ _ G P Hb) as Gc.
  pose proof (child_tables _ _ b P) as Htc.
  destruct (proj2 (framed_Node Pkgname ident params RetType order n) e _ b tt sb Pc Hr) as [Bb Fr].
  assert (tail (tables sb) = tables s) as Htb by (rewrite (tail_tables _ _ _ _ Fr); by rewrite Htc).
  assert (tail (tables (child s b)) = tables s) as Htc' by by rewrite Htc.
  assert (here (child s b) b ([] :: t) (∅ :: ev) ρ m) as Hh.
  { split; [rewrite Htc; by apply rel_child|]. by rewrite done_at_new. }
  assert (in_loop lp (child s b) cb br) as Hlc by (intros Hlp; rewrite (child_loops _ _ _ P); by apply Hl).
  assert (len (fn (child s b)) b = 0) as Hlen by (by rewrite child_fn, Hi).
  unfold exec_block in Hex. destruct (exec fuel (∅ :: ev) n) as [[o1 ev1]|] eqn:Hen; [|done]. injection Hex as <- <-.
  assert (is_list n = false → ∃ t', node_ok lp ([] :: t) n = Some t') as Hone.
  { unfold block_ok in Hok. destruct n; try done; intros _; destruct (node_ok lp _ _) as [t'|]; try done; by exists t'. }
  destruct (is_list n) eqn:Hlist.
  - destruct n as [|ch| | | | | | | | | | |]; try done. unfold block_ok in Hok. destruct (children_ok node_ok lp _ _) as [t'|] eqn:Hc; [|done].
    apply runs_SLNode in Hr as (h & s1 & H1 & H2). destruct (proj2 (steady_heap_table h) e _ b tt s1 Pc H1) as (F1 & _ & Hl1).
    pose proof (fr_point _ _ _ _ _ F1) as P1. apply runs_scope_mod in H1 as (Hf1 & sc & l & Hs & Hs1).
    assert (tables s1 = tables (child s b)) as Ht1 by (unfold tables; by rewrite Hs, Hs1).
    destruct fuel as [|fuel]; [done|]. simpl in Hen.
    destruct (list_sim fuel (IH fuel ltac:(lia)) ch lp ([] :: t) t' s1 b sb M cb br (∅ :: ev) o1 ev1 ρ m) as (σ & Hrun & Hld); try done.
    + eapply good_ext; [exact Gc|exact Pc|rewrite Hf1; apply (ext_refl e (λ _, False))|done].
    + intros Hlp. rewrite Hl1. by apply Hlc.
    + intros b' Hb' HM. destruct (Hch b' Hb' HM) as [?|?]; [left; by rewrite Hf1|by right].
    + destruct Hh as [R1 P2]. split; [by rewrite Ht1|by rewrite Hf1].
    + exists σ. rewrite Hf1, Hlen in Hrun. split; [done|].
      apply (lands_body o1 cb br s t s1 ([] :: t) ev1 σ sb t'); try done; [by rewrite (children_ok_tail _ _ _ _ Hc)|by rewrite Ht1].
  - destruct (Hone eq_refl) as [t' Hn]. assert (ends leaves (children_of n) = leaves n) as Hle by by destruct n.
    rewrite Hle in Hch.
    destruct (IH fuel ltac:(lia) n lp ([] :: t) t' (child s b) b sb M cb br (∅ :: ev) o1 ev1 ρ m) as (σ & Hrun & Hld); try done.
    exists σ. rewrite Hlen in Hrun. split; [done|].
    apply (lands_body o1 cb br s t (child s b) ([] :: t) ev1 σ sb t'); try done. by rewrite (node_ok_tail _ _ _ _ Hn).
Qed.
End sim.
