(* ===== verification/CodegenIf.v ===== *)
(** * The generated code of if

    A body joins the block behind the statement, the condition chooses the
    body. *)
From S2P Require Import Prelude Lexer Ast Escape Ir Codegen CodegenSem CodegenFrame CodegenExp CodegenExt CodegenPaths CodegenNodes CodegenGood CodegenEnv CodegenRun CodegenSim.

Section sim_if.
Context `{Llir} (Pkgname ident : text) (params : list text) (RetType : type) (order : gset text → list text).
Context (F : Func) (args : list val) (e : nat) (HF : uniq F) (He : e ∈ Blocks F).
Implicit Types (s : cg) (ρ m : gmap nat val) (t : names) (ev : env).
#[local] Notation ExpNode_calc := (ExpNode_calc Pkgname).
#[local] Notation Node_calc := (Node_calc Pkgname ident params RetType order).
#[local] Notation full := (full Pkgname).
#[local] Notation good := (good Pkgname).
#[local] Notation rel := (rel Pkgname).
#[local] Notation next := (next_step F args).
#[local] Notation len f B := (length (Insts f B)).
#[local] Notation exec := (exec RetType).
#[local] Notation here := (here Pkgname F e).
#[local] Notation lands := (lands Pkgname F args e).
#[local] Notation node_sim := (node_sim Pkgname ident params RetType order F args e).
#[local] Notation body_sim := (body_sim Pkgname ident params RetType order F args e).

(** ** if *)
#[local] Notation framed_Node := (framed_Node Pkgname ident params RetType order).

(** A body without branches that ends normally stays in its block. *)
Lemma straight_end lp t n e' s B u sb : block_ok node_ok lp t n = true → point e' s B → runs (Node_calc n) s u sb →
  existsb branches (children_of n) = false → ends leaves (children_of n) = false → cur sb = Some B ∧ Term (fn sb) B = Term (fn s) B.
Proof.
  intros Hok P Hr Hb Hl. pose proof (facts_body _ _ _ _ _ _ _ _ _ _ _ _ _ Hok P Hr) as Fc. split; [by apply (fc_cur _ _ _ _ Fc)|].
  apply (fc_term _ _ _ _ Fc); [done|]. by rewrite (body_leaves _ _ _ Hok).
Qed.
(** A body whose block is still open. *)
Lemma open_end lp t n e' s B u sb : block_ok node_ok lp t n = true → point e' s B → runs (Node_calc n) s u sb →
  Term (fn sb) B = None → cur sb = Some B ∧ ends leaves (children_of n) = false.
Proof.
  intros Hok P Hr Hn. pose proof (facts_body _ _ _ _ _ _ _ _ _ _ _ _ _ Hok P Hr) as Fc. rewrite <- (body_leaves _ _ _ Hok).
  destruct (existsb branches (children_of n)) eqn:Hb; [by destruct (fc_closed _ _ _ _ Fc); [left|]|].
  destruct (existsb leaves (children_of n)) eqn:Hl; [by destruct (fc_closed _ _ _ _ Fc); [right|]|].
  split; [by apply (fc_cur _ _ _ _ Fc)|done].
Qed.
(** The end of a body of an if with else. *)
Lemma ifelse_end lp t n e' s B b u sb Bb p : block_ok node_ok lp t n = true → point e' s B → b ∈ Blocks (fn s) →
  runs (Node_calc n) (child s b) u sb → ifelse_shape n = true → ends leaves (children_of n) = false →
  Term (fn s) b = None → block <$> head (scopes s) = Some (Some p) → cur sb = Some Bb →
  (Bb = b ∧ Term (fn sb) b = None) ∨ (Bb ∉ Blocks (fn s) ∧ Term (fn sb) Bb = Some (Br p)).
Proof.
  intros Hok P Hb Hr Hsh Hle Ht Hp Hc. pose proof (child_point _ _ _ _ P Hb) as Pc.
  pose proof (facts_body _ _ _ _ _ _ _ _ _ _ _ _ _ Hok Pc Hr) as Fc. unfold ifelse_shape in Hsh. rewrite Hle in Hsh. simpl in Hsh.
  destruct (last_branch (children_of n)) as [k|] eqn:Hlb.
  - right. assert (existsb branches (children_of n) = true) as Hbr.
    { destruct (existsb branches (children_of n)) eqn:Hbr; [done|]. apply last_branch_none in Hbr. congruence. }
    split; [rewrite <- (child_fn s b); by apply (fc_new _ _ _ _ Fc)|]. eapply (fc_joined _ _ _ _ Fc); [by rewrite (body_leaves _ _ _ Hok)|exact Hlb|by apply negb_true_iff| |done].
    unfold parent_block, child. destruct (scopes s) as [|sc l]; [done|]. simpl in *. by injection Hp as ->.
  - left. apply last_branch_none in Hlb. destruct (straight_end _ _ _ _ _ _ _ _ Hok Pc Hr Hlb Hle) as [Hc' HT]. rewrite HT, child_fn. split; [congruence|done].
Qed.
Lemma forallb_not {A} (p : A → bool) l : forallb (λ x, negb (p x)) l = negb (existsb p l).
Proof. induction l as [|x l IH]; [done|]. simpl. rewrite IH. by destruct (p x). Qed.


(** At the start of a block, with the variables of a scope. *)
Definition left_at (b : nat) s t ev' (σ : state) : Prop :=
  ∃ ρ m, σ = mk_state b 0 ρ m ∧ rel ρ m t (tables s) ev' ∧ ptrs_ok (Insts F e) ρ m.
(** A body goes on at block [nx], or leaves. *)
Definition goes (o : outcome) (nx cb br : nat) s t ev' (σ : state) : Prop :=
  match o with
  | ONormal => left_at nx s t ev' σ
  | OBreak => left_at br s t ev' σ
  | OContinue => left_at cb s t ev' σ
  | OReturn v => step F args σ = Some (Returned (ret_val v))
  end.
Lemma goes_lands o be cb br s t s' ev' σ : cur s' = Some be → Insts (fn s') be = [] → be ≠ e → tables s' = tables s →
  goes o be cb br s t ev' σ → lands o cb br s t s' t ev' σ.
Proof.
  intros Hc Hi Hbe Ht Hg. destruct o; simpl in *; try done.
  - destruct Hg as (ρ & m & -> & R & Hp). exists be, ρ, m. rewrite Hi. split; [done|]. split; [done|]. split; [by rewrite Ht|].
    by rewrite done_at_new.
  - destruct Hg as (ρ & m & -> & R & Hp). by exists ρ, m, t, (tables s).
  - destruct Hg as (ρ & m & -> & R & Hp). by exists ρ, m, t, (tables s).
Qed.
(** A body that ends normally branches to [nx]. *)
Lemma body_join fuel : (∀ k, k ≤ fuel → node_sim k) → ∀ n lp t s B b sb M nx cb br ev o ev' ρ m,
  block_ok node_ok lp t n = true → point e s B → good e s t → b ∈ Blocks (fn s) → Insts (fn s) b = [] → b ≠ e →
  runs (Node_calc n) (child s b) tt sb → in_loop lp s cb br →
  ext e M (fn sb) F → may_change M (ends leaves (children_of n)) (child s b) b sb →
  (ends leaves (children_of n) = false → ∀ Bb, cur sb = Some Bb → Bb ≠ e ∧ Insts F Bb = Insts (fn sb) Bb ∧ Term F Bb = Some (Br nx)) →
  exec_block (exec fuel) ev n = Some (o, ev') → rel ρ m t (tables s) ev → ptrs_ok (Insts F e) ρ m →
  ∃ σ, rtc next (mk_state b 0 ρ m) σ ∧ goes o nx cb br s t ev' σ.
Proof.
  intros IH n lp t s B b sb M nx cb br ev o ev' ρ m Hok P G Hb Hi Hbe Hr Hl X Hch Hend Hex R Hp.
  destruct (body_sim fuel IH n lp t s B b sb M cb br ev o ev' ρ m) as (σ & Hrun & Hld); try done.
  destruct o; simpl in Hld |- *; try (by exists σ).
  destruct Hld as (Bb & ρ' & m' & Hc & -> & R' & P').
  assert (ends leaves (children_of n) = false) as Hle.
  { destruct (ends leaves (children_of n)) eqn:Hle; [|done]. exfalso. unfold exec_block in Hex.
    destruct (exec fuel (∅ :: ev) n) as [[o1 ev1]|] eqn:Hen; [|done]. injection Hex as -> _. by eapply body_not_normal. }
  destruct (Hend Hle Bb Hc) as (Hne & Hi' & Ht'). rewrite done_at_new in P' by done. eexists. split; [|by exists ρ', m'].
  eapply rtc_r; [exact Hrun|]. apply step_br; [|done]. rewrite Hi'. by apply lookup_ge_None.
Qed.
(** The current block, behind allocations of later code. *)
Lemma reach s B t ev ρ m s3 : point e s B → good e s t → here s B t ev ρ m →
  ext e (λ _, False) (fn s) (fn s3) → tables s3 = tables s → point e s3 B → ext e (λ _, True) (fn s3) F →
  ∃ ρ' m', rtc next (mk_state B (len (fn s) B) ρ m) (mk_state B (len (fn s3) B) ρ' m') ∧ here s3 B t ev ρ' m'.
Proof.
  intros P G [R Hp] X13 Ht3 P3 XF3.
  assert (ext e (λ _, True) (fn s) F) as XFs by (eapply ext_any_trans; [by eapply ext_any|exact XF3]).
  destruct (catch_up Pkgname F args e HF He (λ _, True) (fn s) (fn s3) B t (tables s) ev ρ m (pt_in _ _ _ P)) as (ρ1 & m1 & Hrun1 & _ & R1 & P1').
  { apply (ex_agree _ _ _ _ X13); [apply P|by intros []]. } { done. } { done. } { apply P3. }
  { intros r tp Hr. eapply values_known; [exact G|by eapply head_in|done]. } { done. } { done. }
  exists ρ1, m1. split; [done|]. split; [by rewrite Ht3|done].
Qed.
(** A condition at the current block. *)
Lemma reach_branch s B t ev ρ m s3 c b1 b2 T s4 f M b : point e s B → good e s t → here s B t ev ρ m →
  ext e (λ _, False) (fn s) (fn s3) → tables s3 = tables s → point e s3 B → cond_code Pkgname c s3 B b1 b2 T s4 →
  ext e (λ _, True) (fn s4) f → Insts f B = Insts (fn s4) B → Term f B = Some T → ext e M f F → ¬ M B → eval_cond ev c = Some b →
  ∃ σ, rtc next (mk_state B (len (fn s) B) ρ m) σ ∧ left_at (if b then b1 else b2) s t ev σ.
Proof.
  intros P G Hh X13 Ht3 P3 Hc X4 Hi HT X HM Hb. destruct (cond_code_eff _ _ _ _ _ _ _ _ Hc) as [cs E].
  assert (good e s3 t) as G3 by (eapply good_ext; [exact G|exact P|exact X13|done]).
  assert (ext e (λ _, True) (fn s3) F) as XF3.
  { eapply ext_any_trans; [|exact X]. eapply ext_any_trans; [|exact X4]. by eapply ext_any, eff_ext. }
  destruct (reach s B t ev ρ m s3) as (ρ1 & m1 & Hrun1 & [R1 P1']); try done.
  assert (len f B = len (fn s4) B) as Hlen by by rewrite Hi.
  destruct (cond_run Pkgname F args e HF He M c s3 B b1 b2 T s4 f t ev ρ1 m1 b) as (ρ2 & m2 & Hrun2 & R2 & P2); try done.
  rewrite Ht3 in R2. eexists. split; [by etrans|]. by exists ρ2, m2.
Qed.

Lemma if_sim fuel : (∀ k, k ≤ fuel → node_sim k) → ∀ c st lp t t' s B s' M cb br ev o ev' ρ m,
  node_ok lp t (IfNode c st) = Some t' → point e s B → good e s t → runs (Node_calc (IfNode c st)) s tt s' → in_loop lp s cb br →
  ext e M (fn s') F → may_change M false s B s' → exec (S fuel) ev (IfNode c st) = Some (o, ev') → here s B t ev ρ m →
  ∃ σ, rtc next (mk_state B (len (fn s) B) ρ m) σ ∧ lands o cb br s t s' t' ev' σ.
Proof.
  intros IH c st lp t t' s B s' M cb br ev o ev' ρ m Hok P G Hr Hl X Hch Hex Hh.
  cbn [node_ok] in Hok. destruct (if_shape st) eqn:Hsh; [|done]. destruct (block_ok node_ok lp t st) eqn:Hbok; [|done]. injection Hok as <-.
  cbn [Codegen.Node_calc] in Hr.
  destruct (IfNode_path _ _ _ _ _ _ _ _ (framed_Node st) P Hr) as (bt & be & Bb & v & cs & s1 & sb & s3 & s4 & Hpath).
  apply if_path_funcs in Hpath as Hf; [|done]. destruct Hpath as [Hbt Hbody Fb Pb Hbe Hcond E _ (sc & l & Hs & Hs')].
  destruct Hf as [(Nbt & Ibt & Ebt & Tbt & Xbt) (Nbe & Ibe & Ibe' & Xbe) X1 X2 X3 X4 X5 LB Lt Le TB Tt _].
  destruct (new_block_runs _ _ _ _ _ P Hbt) as (_ & Hs1 & _ & _ & _ & _ & P1 & _ & NbtB).
  destruct (new_block_runs _ _ _ _ _ Pb Hbe) as (_ & Hs3 & _ & _ & _ & _ & P3 & _ & NbeB). simpl in Hs3.
  assert (cur s' = Some be) as Hc' by (unfold cur; by rewrite Hs').
  assert (∀ b, b ∈ Blocks (fn s) → b ∈ Blocks (fn sb)) as Insb by (intros b Hb; do 2 (eapply ext_in; [done|]); done).
  assert (∀ b, b ∈ Blocks (fn sb) → b ∈ Blocks (fn s')) as Insb'.
  { intros b Hb. eapply ext_in; [exact X5|]. eapply ext_in; [exact X4|]. by eapply ext_in; [exact X3|]. }
  assert (∀ b, M b → b ∈ Blocks (fn sb) → b ∈ Blocks (fn s) ∧ b ≠ B) as HM.
  { intros b Hb Hin. destruct (Hch b (Insb' b Hin) Hb) as [?|[? _]]; [done|]. assert (b = be) as -> by congruence. done. }
  assert (bt ∈ Blocks (fn sb)) as Hbt' by by eapply ext_in.
  assert (¬ M B) as HMB by (intros HMb; by destruct (HM B HMb (Insb _ (pt_in _ _ _ P)))).
  assert (¬ M bt) as HMt by (intros HMb; by destruct (HM bt HMb Hbt')).
  simpl in Hex. destruct (eval_bool ev c) as [b|] eqn:Hcb; [|done]. simpl in Hex.
  assert (ext e (λ _, False) (fn s) (fn s3)) as X13 by (eapply ext_step0; [|exact X3]; eapply ext_trans; [exact X1|exact X2|done|naive_solver]).
  destruct (reach_branch s B t ev ρ m s3 (Some c) bt be (CondBr v bt be) s4 (fn s') M b) as (σ & Hrun & ρ2 & m2 & -> & R2 & P2); try done.
  { by apply tables_eq. } { by exists v, cs. } { by eapply ext_any. }
  assert (tables s' = tables s) as Ht' by by eapply tables_with_block.
  destruct b; [|injection Hex as <- <-; eexists; split; [exact Hrun|]; eapply (goes_lands ONormal be); try done; by exists ρ2, m2].
  pose proof (child_point _ _ _ _ P1 Ibt) as Pc. pose proof (facts_body _ _ _ _ _ _ _ _ _ _ _ _ _ Hbok Pc Hbody) as Fc.
  assert (tables s1 = tables s) as Ht1 by by apply tables_eq.
  destruct (body_join fuel IH st lp t s1 B bt sb (λ b, b = B ∨ (b = bt ∧ Term (fn sb) bt = None) ∨ M b) be cb br ev o ev' ρ2 m2 Hbok P1)
    as (σ & Hrun3 & Hg); try done.
  { eapply good_ext; [exact G|exact P|exact X1|done]. }
  { intros Hlp. rewrite <- (Hl Hlp). unfold loops. by rewrite Hs1. }
  { eapply ext_step; [|exact X|naive_solver]. eapply ext_step; [|exact X5|]. 2: { intros b Hb [-> |[?| ->]]; [by left|by right; left|done]. }
    eapply ext_step; [|exact X4|naive_solver]. eapply ext_weaken; [exact X3|naive_solver]. }
  { intros b Hb HMb. rewrite child_fn. destruct HMb as [-> |[[-> Hn]|HMb]]; [left; split; [apply P1|done]| |].
    2: { left. destruct (HM b HMb Hb) as [? _]. split; [by eapply ext_in; [exact X1|]|by intros ->]. }
    right. destruct (existsb branches (children_of st)) eqn:Hbr; [by destruct (fc_closed _ _ _ _ Fc); [left|]|].
    destruct (ends leaves (children_of st)) eqn:Hle; [|split; [by apply (fc_cur _ _ _ _ Fc)|done]].
    destruct (fc_closed _ _ _ _ Fc); [right|done]. by rewrite (body_leaves _ _ _ Hbok). }
  { intros Hle Bb' HcB. unfold if_shape in Hsh. rewrite Hle, forallb_not in Hsh. apply negb_true_iff in Hsh.
    destruct (straight_end _ _ _ _ _ _ _ _ Hbok Pc Hbody Hsh Hle) as [HcB' HTb]. assert (Bb' = bt) as -> by congruence.
    split; [done|]. rewrite child_fn, Tbt in HTb. rewrite HTb in Tt. rewrite <- Lt.
    rewrite (ext_same _ _ _ _ bt X), (ext_term _ _ _ _ bt X) by auto. done. }
  { by rewrite Ht1. }
  exists σ. split; [by etrans|]. eapply (goes_lands o be); try done. destruct o; simpl in *; unfold left_at in *; by rewrite ?Ht1 in Hg.
Qed.

(** ** if with else *)
Lemma goes_tables o nx cb br s1 s2 t ev' σ : tables s1 = tables s2 → goes o nx cb br s1 t ev' σ → goes o nx cb br s2 t ev' σ.
Proof. intros Ht. destruct o; simpl; unfold left_at; by rewrite ?Ht. Qed.
(** What the two branches start from: [s5] behind the condition, [sb] and [sf]
    behind the bodies, with the blocks of the branches and of the end. *)
Record branches_facts (lp : bool) t s (B : nat) s' (M : nat → Prop) (cb br bt bf be : nat) (st el : Node) (s3 s5 sb sf : cg) : Prop := {
  bf_then : fresh_at e s s3 bt;
  bf_else : fresh_at e s s3 bf;
  bf_end : fresh_at e s s3 be;
  bf_distinct : bt ≠ bf ∧ bt ≠ be ∧ bf ≠ be;
  bf_point : point e s5 be;
  bf_good : good e s5 t;
  bf_tables : tables s5 = tables s;
  bf_loop : in_loop lp s5 cb br;
  bf_block : block <$> head (scopes s5) = Some (Some be);
  bf_in : (∀ b, b ∈ Blocks (fn s) → b ∈ Blocks (fn s5)) ∧ bt ∈ Blocks (fn s5) ∧ bf ∈ Blocks (fn s5);
  bf_new_then : Insts (fn s5) bt = [] ∧ Term (fn s5) bt = None;
  bf_new_else : Insts (fn s5) bf = [] ∧ Term (fn s5) bf = None;
  bf_st : runs (Node_calc st) (child s5 bt) tt sb;
  bf_el : runs (Node_calc el) (child (set_scopes (scopes s5) sb) bf) tt sf;
  bf_xb : ext e (λ b, b = bt) (fn s5) (fn sb);
  bf_xf : ext e (λ b, b = bf) (fn sb) (fn sf);
  bf_x' : ext e (λ b, (b = bt ∧ Term (fn sb) bt = None) ∨ (b = bf ∧ Term (fn sf) bf = None) ∨ b = be) (fn sf) (fn s');
  bf_insts : ∀ b, Insts (fn s') b = Insts (fn sf) b;
  bf_term_then : Term (fn s') bt = Some (default (Br be) (Term (fn sb) bt));
  bf_term_else : Term (fn s') bf = Some (default (Br be) (Term (fn sf) bf));
  bf_change : ∀ b, M b → b ∈ Blocks (fn sf) → (b ∈ Blocks (fn s) ∧ b ≠ B) ∨ b = be;
  bf_ext : ext e M (fn s') F;
}.
(** What may still change behind each body. *)
Definition change_f (M : nat → Prop) (bt bf be : nat) (sb sf : cg) (b : nat) : Prop :=
  (b = bt ∧ Term (fn sb) bt = None) ∨ (b = bf ∧ Term (fn sf) bf = None) ∨ b = be ∨ M b.
Definition change_b (M : nat → Prop) (bt bf be : nat) (sb : cg) (b : nat) : Prop :=
  b = bf ∨ (b = bt ∧ Term (fn sb) bt = None) ∨ b = be ∨ M b.
Definition change_5 (M : nat → Prop) (bt bf be : nat) (b : nat) : Prop := b = bt ∨ b = bf ∨ b = be ∨ M b.

Section branches.
Context (lp : bool) t s (B : nat) s' (M : nat → Prop) (cb br bt bf be : nat) (st el : Node) (s3 s5 sb sf : cg).
Context (HF5 : branches_facts lp t s B s' M cb br bt bf be st el s3 s5 sb sf).

Lemma bf_ext_f : ext e (change_f M bt bf be sb sf) (fn sf) F.
Proof. unfold change_f. eapply ext_step; [|apply HF5|naive_solver]. eapply ext_weaken; [apply HF5|naive_solver]. Qed.
Lemma bf_ext_b : ext e (change_b M bt bf be sb) (fn sb) F.
Proof. unfold change_b. eapply ext_step; [|apply bf_ext_f|unfold change_f; naive_solver]. eapply ext_weaken; [apply HF5|naive_solver]. Qed.
Lemma bf_ext_5 : ext e (change_5 M bt bf be) (fn s5) F.
Proof. unfold change_5. eapply ext_step; [|apply bf_ext_b|unfold change_b; naive_solver]. eapply ext_weaken; [apply HF5|naive_solver]. Qed.
Lemma bf_blocks b : (b ∈ Blocks (fn s5) → b ∈ Blocks (fn sb)) ∧ (b ∈ Blocks (fn sb) → b ∈ Blocks (fn sf)) ∧ (b ∈ Blocks (fn sf) → b ∈ Blocks (fn s')).
Proof. split_and!; intros Hb; eapply ext_in; [apply HF5|done|apply HF5|done|apply HF5|done]. Qed.
Lemma bf_fixed b : b ∉ Blocks (fn s) → b ≠ be → b ∈ Blocks (fn sf) → ¬ M b.
Proof. intros H1 H2 H3 HMb. by destruct (bf_change _ _ _ _ _ _ _ _ _ _ _ _ _ _ _ _ _ HF5 b HMb H3) as [[? _]|?]. Qed.
(** A block that is new in a body is final when the body ends. *)
Lemma bf_apart b : b ∉ Blocks (fn s5) → b ≠ bt ∧ b ≠ bf ∧ b ∉ Blocks (fn s) ∧ b ≠ be ∧ b ≠ e.
Proof.
  intros Hb. destruct HF5 as [_ _ _ _ P5 _ _ _ _ (In5 & It & If) _ _ _ _ _ _ _ _ _ _ _ _]. split; [by intros ->|]. split; [by intros ->|].
  split; [naive_solver|]. split; intros ->; apply Hb; [apply P5|by eapply head_in].
Qed.

Lemma then_sim fuel ev o ev' ρ m : (∀ k, k ≤ fuel → node_sim k) → block_ok node_ok lp t st = true → ifelse_shape st = true →
  exec_block (exec fuel) ev st = Some (o, ev') → rel ρ m t (tables s) ev → ptrs_ok (Insts F e) ρ m →
  ∃ σ, rtc next (mk_state bt 0 ρ m) σ ∧ goes o be cb br s t ev' σ.
Proof.
  intros IH Hok Hsh Hex R Hp. pose proof bf_ext_b as Xb. pose proof bf_blocks as In. pose proof bf_fixed as HMn. pose proof bf_apart as Hap.
  destruct HF5 as [Ft Ff Fe (D1 & D2 & D3) P5 G5 Ht5 Hl5 Hblk (In5 & It & If) [Ib Tb] _ Hst _ X6 X7 X8 L' Tt _ HM X].
  destruct (body_join fuel IH st lp t s5 be bt sb (change_b M bt bf be sb) be cb br ev o ev' ρ m) as (σ & Hr & Hg); try done.
  - apply Ft.
  - intros b Hb HMb. rewrite child_fn. destruct HMb as [-> |[[-> Hn]|[-> |HMb]]]; [by left| |left; split; [apply P5|done]|].
    + right. eapply open_end; [exact Hok|exact (child_point _ _ _ _ P5 It)|exact Hst|done].
    + left. destruct (HM b HMb (proj1 (proj2 (In b)) Hb)) as [[? _]| ->]; [|split; [apply P5|done]]. split; [by apply In5|]. intros ->. by apply (fa_old _ _ _ _ Ft).
  - intros Hle Bb Hc. assert (Bb ∈ Blocks (fn sb)) as HBb.
    { destruct (proj2 (framed_Node st) e _ bt tt sb (child_point _ _ _ _ P5 It) Hst) as [B1 F1].
      pose proof (pt_cur _ _ _ (fr_point _ _ _ _ _ F1)). pose proof (pt_in _ _ _ (fr_point _ _ _ _ _ F1)). congruence. }
    pose proof (proj1 (proj2 (In Bb)) HBb) as HBf. destruct (ifelse_end _ _ _ _ _ _ _ _ _ _ _ Hok P5 It Hst Hsh Hle Tb Hblk Hc) as [[-> HT]|[HBn HT]].
    + split; [apply Ft|]. assert (¬ M bt) by (apply HMn; [apply Ft|done|done]).
      rewrite (ext_same _ _ _ _ bt X), (ext_term _ _ _ _ bt X), Tt, HT, L', (ext_same _ _ _ _ bt X7); try done; try apply Ft; by apply In.
    + destruct (Hap Bb HBn) as (N1 & N2 & N3 & N4 & N5). assert (¬ M Bb) by by apply HMn. split; [done|].
      rewrite (ext_same _ _ _ _ Bb Xb), (ext_term _ _ _ _ Bb Xb); try done; unfold change_b; naive_solver.
  - by rewrite Ht5.
  - exists σ. split; [done|]. eapply goes_tables; [exact Ht5|exact Hg].
Qed.
Lemma else_sim fuel ev o ev' ρ m : (∀ k, k ≤ fuel → node_sim k) → block_ok node_ok lp t el = true → ifelse_shape el = true →
  exec_block (exec fuel) ev el = Some (o, ev') → rel ρ m t (tables s) ev → ptrs_ok (Insts F e) ρ m →
  ∃ σ, rtc next (mk_state bf 0 ρ m) σ ∧ goes o be cb br s t ev' σ.
Proof.
  intros IH Hok Hsh Hex R Hp. pose proof bf_ext_f as Xf. pose proof bf_blocks as In. pose proof bf_fixed as HMn. pose proof bf_apart as Hap.
  destruct HF5 as [Ft Ff Fe (D1 & D2 & D3) P5 G5 Ht5 Hl5 Hblk (In5 & It & If) _ [Ib Tb] _ Hel X6 X7 X8 L' _ Tf HM X].
  set (s5' := set_scopes (scopes s5) sb) in *. assert (tables s5' = tables s) as Ht5' by by rewrite <- Ht5.
  assert (point e s5' be) as P5' by (split; [eapply ext_head; [exact X6|apply P5]|apply P5|by apply In, P5]).
  assert (good e s5' t) as G5' by (eapply good_ext; [exact G5|exact P5|exact X6|done]).
  assert (bf ∈ Blocks (fn s5')) as If' by by apply In.
  assert (Insts (fn s5') bf = []) as Ib' by (simpl; rewrite (ext_same _ _ _ _ bf X6); [done|done|congruence|apply Ff]).
  assert (Term (fn s5') bf = None) as Tb' by (simpl; rewrite (ext_term _ _ _ _ bf X6); [done|done|congruence]).
  destruct (body_join fuel IH el lp t s5' be bf sf (change_f M bt bf be sb sf) be cb br ev o ev' ρ m) as (σ & Hr & Hg); try done.
  - apply Ff.
  - intros b Hb HMb. rewrite child_fn. destruct HMb as [[-> _]|[[-> Hn]|[-> |HMb]]].
    + left. split; [by apply In|done].
    + right. eapply open_end; [exact Hok|exact (child_point _ _ _ _ P5' If')|exact Hel|done].
    + left. split; [apply P5'|congruence].
    + left. destruct (HM b HMb Hb) as [[? _]| ->]; [split; [by apply In, In5|intros ->; by apply (fa_old _ _ _ _ Ff)]|split; [apply P5'|congruence]].
  - intros Hle Bb Hc. assert (Bb ∈ Blocks (fn sf)) as HBb.
    { destruct (proj2 (framed_Node el) e _ bf tt sf (child_point _ _ _ _ P5' If') Hel) as [B1 F1].
      pose proof (pt_cur _ _ _ (fr_point _ _ _ _ _ F1)). pose proof (pt_in _ _ _ (fr_point _ _ _ _ _ F1)). congruence. }
    destruct (ifelse_end _ _ _ _ _ _ _ _ _ _ _ Hok P5' If' Hel Hsh Hle Tb' Hblk Hc) as [[-> HT]|[HBn HT]].
    + split; [apply Ff|]. assert (¬ M bf) by (apply HMn; [apply Ff|congruence|done]).
      rewrite (ext_same _ _ _ _ bf X), (ext_term _ _ _ _ bf X), Tf, HT, L'; try done; try apply Ff; by apply In.
    + destruct (Hap Bb) as (N1 & N2 & N3 & N4 & N5); [by intros ?%In|]. assert (¬ M Bb) by by apply HMn. split; [done|].
      rewrite (ext_same _ _ _ _ Bb Xf), (ext_term _ _ _ _ Bb Xf); try done; unfold change_f; naive_solver.
  - by rewrite Ht5'.
  - exists σ. split; [done|]. eapply goes_tables; [exact Ht5'|exact Hg].
Qed.
End branches.

Lemma ifelse_facts c st el lp t s B s' M cb br bt bf be Bt Bf v cs s1 s2 s3 s4 s5 sb sf : point e s B → good e s t → in_loop lp s cb br →
  ext e M (fn s') F → may_change M false s B s' →
  ifelse_path Pkgname c (Node_calc st) (Node_calc el) e s B s' bt bf be Bt Bf v cs s1 s2 s3 s4 s5 sb sf →
  branches_facts lp t s B s' M cb br bt bf be st el s3 s5 sb sf ∧ cur s' = Some be ∧ Insts (fn s') be = [] ∧ tables s' = tables s.
Proof.
  intros P G Hl X Hch Hpath. apply ifelse_path_funcs in Hpath as Hf; [|done].
  destruct Hpath as [R1 R2 R3 _ E _ (sc & l & Hs & Hs5) P5 Hst Fst Hel Fel _ Hs'].
  destruct Hf as [(Ft & Ff & Fe) (D1 & D2 & D3 & D4 & D5 & D6) P3 X3 X4 X5 X6 X7 X8 L5 L' TB Tt Tf].
  assert (tables s5 = tables s) as Ht5 by by eapply tables_with_block.
  assert (cur s' = Some be) as Hc' by (unfold cur; by rewrite Hs', Hs5).
  assert (∀ b, b ∈ Blocks (fn s3) → b ∈ Blocks (fn s5)) as In5 by (intros b Hb; do 2 (eapply ext_in; [done|]); done).
  assert (∀ b, fresh_at e s s3 b → b ≠ B → Insts (fn s5) b = [] ∧ Term (fn s5) b = None) as Hnew.
  { intros b0 Fb HbB. split.
    - rewrite L5, (ext_same _ _ _ _ b0 X4); [apply Fb|apply Fb|done|apply Fb].
    - rewrite (ext_term _ _ _ _ b0 X5), (ext_term _ _ _ _ b0 X4); [apply Fb|apply Fb|done| |done]. eapply ext_in; [exact X4|apply Fb]. }
  assert (be ∈ Blocks (fn sb)) as Iebd by (eapply ext_in; [exact X6|apply P5]).
  split; [split; try done|split; [done|split; [|rewrite <- Ht5; by apply tables_eq]]].
  - eapply good_ext; [exact G|exact P| |done]. eapply ext_any_trans; [|exact X5]. eapply ext_any_trans; [by eapply ext_any|exact X4].
  - intros Hlp. rewrite <- (Hl Hlp). unfold loops. by rewrite Hs, Hs5.
  - by rewrite Hs5.
  - split; [intros b Hb; apply In5; by eapply ext_in; [exact X3|]|]. split; apply In5; [apply Ft|apply Ff].
  - by apply Hnew.
  - by apply Hnew.
  - intros b Hb Hin. destruct (Hch b) as [?|[? _]]; [by eapply ext_in; [exact X8|]|done|by left|right; congruence].
  - rewrite L', (ext_same _ _ _ _ be X7), (ext_same _ _ _ _ be X6); [by apply Hnew|apply P5|congruence|apply Fe|done|congruence|apply Fe].
Qed.
Lemma ifelse_sim fuel : (∀ k, k ≤ fuel → node_sim k) → ∀ c st el lp t t' s B s' M cb br ev o ev' ρ m,
  node_ok lp t (IfElseNode c st el) = Some t' → point e s B → good e s t → runs (Node_calc (IfElseNode c st el)) s tt s' → in_loop lp s cb br →
  ext e M (fn s') F → may_change M false s B s' → exec (S fuel) ev (IfElseNode c st el) = Some (o, ev') → here s B t ev ρ m →
  ∃ σ, rtc next (mk_state B (len (fn s) B) ρ m) σ ∧ lands o cb br s t s' t' ev' σ.
Proof.
  intros IH c st el lp t t' s B s' M cb br ev o ev' ρ m Hok P G Hr Hl X Hch Hex Hh.
  cbn [node_ok] in Hok. destruct (ifelse_shape st) eqn:Hsh1; [|done]. destruct (block_ok node_ok lp t st) eqn:Hb1; [|done].
  destruct (ifelse_shape el) eqn:Hsh2; [|done]. destruct (block_ok node_ok lp t el) eqn:Hb2; [|done]. injection Hok as <-.
  cbn [Codegen.Node_calc] in Hr.
  destruct (IfElseNode_path _ _ _ _ _ _ _ _ _ (framed_Node st) (framed_Node el) P Hr) as (bt & bf & be & Bt & Bf & v & cs & s1 & s2 & s3 & s4 & s5 & sb & sf & Hpath).
  destruct (ifelse_facts _ _ _ _ _ _ _ _ _ _ _ _ _ _ _ _ _ _ _ _ _ _ _ _ _ P G Hl X Hch Hpath) as (HF5 & Hc' & Ibe & Ht').
  apply ifelse_path_funcs in Hpath as Hf; [|done]. destruct Hpath as [R1 R2 R3 Hcond E _ _ _ _ _ _ _ _ _].
  destruct Hf as [_ (D1 & D2 & D3 & D4 & D5 & D6) P3 X3 _ X5 _ _ _ L5 _ TB _ _].
  pose proof (bf_ext_5 _ _ _ _ _ _ _ _ _ _ _ _ _ _ _ _ _ HF5) as XF5.
  simpl in Hex. destruct (eval_bool ev c) as [b|] eqn:Hcb; [|done]. simpl in Hex.
  destruct (reach_branch s B t ev ρ m s3 (Some c) bt bf (CondBr v bt bf) s4 (fn s5) (change_5 M bt bf be) b) as (σ & Hrun & ρ2 & m2 & -> & R0 & P0); try done.
  { apply runs_new_block in R1 as [_ E1], R2 as [_ E2], R3 as [_ E3]. apply tables_eq. congruence. }
  { by exists v, cs. }
  { by eapply ext_any. }
  { intros [?|[?|[?|HMb]]]; try congruence. destruct (bf_change _ _ _ _ _ _ _ _ _ _ _ _ _ _ _ _ _ HF5 B HMb) as [[_ ?]|?]; [|done|congruence].
    apply (bf_blocks _ _ _ _ _ _ _ _ _ _ _ _ _ _ _ _ _ HF5), (bf_blocks _ _ _ _ _ _ _ _ _ _ _ _ _ _ _ _ _ HF5). by apply HF5, P. }
  assert (∃ σ, rtc next (mk_state (if b then bt else bf) 0 ρ2 m2) σ ∧ goes o be cb br s t ev' σ) as (σ & Hrun3 & Hg).
  { destruct b; [by eapply then_sim|by eapply else_sim]. }
  exists σ. split; [by etrans|]. eapply (goes_lands o be); try done. apply HF5.
Qed.
End sim_if.
