(* ===== verification/CodegenFor.v ===== *)
(** * The generated code of for

    The loop of the source against the blocks of the body, of the code that
    moves the loop on and of the condition. *)
From S2P Require Import Prelude Lexer Ast Escape Ir Codegen CodegenSem CodegenFrame CodegenExp CodegenExt CodegenPaths CodegenNodes CodegenGood CodegenEnv CodegenRun CodegenSim CodegenIf.

Section sim_for.
Context `{Llir} (Pkgname ident : text) (params : list text) (RetType : type) (order : gset text → list text).
Context (F : Func) (args : list val) (e : nat) (HF : uniq F) (He : e ∈ Blocks F).
Implicit Types (s : cg) (ρ m : gmap nat val) (t : names) (ev : env).
#[local] Notation ExpNode_calc := (ExpNode_calc Pkgname).
#[local] Notation Node_calc := (Node_calc Pkgname ident params RetType order).
#[local] Notation full := (full Pkgname).
#[local] Notation good := (good Pkgname).
#[local] Notation rel := (rel Pkgname).
#[local] Notation next := (next_step F args).
#[local] Notation len f B := (length (Insts f B)).
#[local] Notation exec := (exec RetType).
#[local] Notation here := (here Pkgname F e).
#[local] Notation lands := (lands Pkgname F args e).
#[local] Notation node_sim := (node_sim Pkgname ident params RetType order F args e).
#[local] Notation body_sim := (body_sim Pkgname ident params RetType order F args e).

(** ** if *)
#[local] Notation framed_Node := (framed_Node Pkgname ident params RetType order).

#[local] Notation left_at := (left_at Pkgname F e).
#[local] Notation goes := (goes Pkgname F args e).
#[local] Notation body_join := (body_join Pkgname ident params RetType order F args e).
#[local] Notation reach := (reach Pkgname F args e HF He).
#[local] Notation reach_branch := (reach_branch Pkgname F args e HF He).

(** ** The loop *)

(** How a loop ends: behind it, or out of the function. *)
Definition loop_ends (o : outcome) (be : nat) s t ev' (σ : state) : Prop :=
  match o with
  | ONormal => left_at be s t ev' σ
  | OReturn v => step F args σ = Some (Returned (ret_val v))
  | _ => False
  end.
Lemma loop_sim fuel c a st bb bc be s t :
  (∀ ev o ev' ρ m, exec_block (exec fuel) ev st = Some (o, ev') → rel ρ m t (tables s) ev → ptrs_ok (Insts F e) ρ m →
    ∃ σ, rtc next (mk_state bb 0 ρ m) σ ∧ goes o bc bc be s t ev' σ) →
  (∀ ev ev' b ρ m, exec_opt_block (exec fuel) ev a = Some ev' → eval_cond ev' c = Some b → rel ρ m t (tables s) ev → ptrs_ok (Insts F e) ρ m →
    ∃ σ, rtc next (mk_state bc 0 ρ m) σ ∧ left_at (if b then bb else be) s t ev' σ) →
  ∀ k ev o ev' ρ m b, exec_loop (exec fuel) k c a st ev = Some (o, ev') → eval_cond ev c = Some b →
    rel ρ m t (tables s) ev → ptrs_ok (Insts F e) ρ m →
    ∃ σ, rtc next (mk_state (if b then bb else be) 0 ρ m) σ ∧ loop_ends o be s t ev' σ.
Proof.
  intros Hbody Hnext. induction k as [|k IH]; intros ev o ev' ρ m b Hex Hb R Hp; [done|].
  simpl in Hex. fold (eval_cond ev c) in Hex. rewrite Hb in Hex. simpl in Hex. destruct b.
  2: { injection Hex as <- <-. eexists. split; [done|]. by exists ρ, m. }
  destruct (exec_block (exec fuel) ev st) as [[o1 ev1]|] eqn:Hst; [|done]. simpl in Hex.
  destruct (Hbody _ _ _ _ _ Hst R Hp) as (σ1 & Hr1 & Hg1).
  assert (∀ ρ1 m1, σ1 = mk_state bc 0 ρ1 m1 → rel ρ1 m1 t (tables s) ev1 → ptrs_ok (Insts F e) ρ1 m1 →
    (ρ0 ← exec_opt_block (exec fuel) ev1 a; exec_loop (exec fuel) k c a st ρ0) = Some (o, ev') →
    ∃ σ, rtc next (mk_state bb 0 ρ m) σ ∧ loop_ends o be s t ev' σ) as Hagain.
  { intros ρ1 m1 -> R1 P1 Hx. destruct (exec_opt_block (exec fuel) ev1 a) as [ev2|] eqn:Ha; [|done]. simpl in Hx.
    assert (∃ b, eval_cond ev2 c = Some b) as [b Hb2].
    { destruct k as [|k]; [done|]. simpl in Hx. fold (eval_cond ev2 c) in Hx. destruct (eval_cond ev2 c) as [b|]; [by exists b|done]. }
    destruct (Hnext _ _ _ _ _ Ha Hb2 R1 P1) as (σ2 & Hr2 & ρ2 & m2 & -> & R2 & P2).
    destruct (IH _ _ _ _ _ _ Hx Hb2 R2 P2) as (σ3 & Hr3 & Hl3). exists σ3. split; [|done]. etrans; [exact Hr1|]. by etrans. }
  destruct o1; simpl in Hg1.
  - destruct Hg1 as (ρ1 & m1 & -> & R1 & P1). by eapply Hagain.
  - injection Hex as <- <-. by exists σ1.
  - destruct Hg1 as (ρ1 & m1 & -> & R1 & P1). by eapply Hagain.
  - injection Hex as <- <-. by exists σ1.
Qed.

(** ** The code that moves the loop on *)

(** The condition is evaluated in a scope without variables of its own, which
    changes nothing. *)
Lemma next_sim fuel M c a s B bc bb be sa s8 s' T2 t ev ev' b ρ m : point e s B → good e s t → bc ∈ Blocks (fn s) → Insts (fn s) bc = [] → bc ≠ e →
  is_assign a = true → runs (match Node_calc <$> a with Some a => a | None => mret tt end) (child s bc) tt sa →
  cond_code Pkgname c sa bc bb be T2 s8 → ext e (λ _, True) (fn s8) (fn s') → Insts (fn s') bc = Insts (fn s8) bc → Term (fn s') bc = Some T2 →
  ext e M (fn s') F → ¬ M bc →
  exec_opt_block (exec fuel) ev a = Some ev' → eval_cond ev' c = Some b → rel ρ m t (tables s) ev → ptrs_ok (Insts F e) ρ m →
  ∃ σ, rtc next (mk_state bc 0 ρ m) σ ∧ left_at (if b then bb else be) s t ev' σ.
Proof.
  intros P G Hbc Hi Hne Ha Hr Hc X8 Hi8 HT X HM Hex Hb R Hp.
  pose proof (child_point _ _ _ _ P Hbc) as Pc. pose proof (good_child _ _ _ _ _ _ G P Hbc) as Gc. pose proof (child_tables _ _ _ bc P) as Htc.
  assert (here (child s bc) bc ([] :: t) (∅ :: ev) ρ m) as Hh by (split; [rewrite Htc; by apply rel_child|by rewrite done_at_new]).
  destruct (cond_code_eff _ _ _ _ _ _ _ _ Hc) as [cs E].
  assert (ext e (λ _, True) (fn sa) F) as XF.
  { eapply ext_any_trans; [|exact X]. eapply ext_any_trans; [|exact X8]. by eapply ext_any, eff_ext. }
  assert (∃ ρ1 m1, rtc next (mk_state bc 0 ρ m) (mk_state bc (len (fn sa) bc) ρ1 m1) ∧ here sa bc ([] :: t) (∅ :: ev') ρ1 m1 ∧
    point e sa bc ∧ good e sa ([] :: t) ∧ tables sa = [] :: tables s) as (ρ1 & m1 & Hr1 & Hh1 & Pa & Ga & Hta).
  { assert (len (fn (child s bc)) bc = 0) as Hlen by by rewrite child_fn, Hi. destruct a as [a|]; simpl in Hr, Hex.
    - destruct a as [ca| | | | | | | | | | | |]; try done. unfold exec_block in Hex. destruct fuel as [|fuel]; [done|]. simpl in Hex.
      destruct (exec_assign (∅ :: ev) ca) as [ev1|] eqn:Hca; [|done]. injection Hex as <-.
      pose proof (tables_exp _ _ _ _ _ _ _ _ _ _ _ Pc Hr) as Hta. 
      destruct (proj2 (framed_Node (ExpSt ca)) e _ bc tt sa Pc Hr) as [Ba Fr].
      assert (cur sa = Some bc) as Hca' by (eapply steady_point; [|exact Pc|exact Hr]; apply steady_simple; by left).
      assert (point e sa bc) as Pa by (pose proof (fr_point _ _ _ _ _ Fr) as Pa; assert (Ba = bc) as <- by (pose proof (pt_cur _ _ _ Pa); congruence); done).
      destruct (assign_run Pkgname ident params RetType order F args e HF He ca (child s bc) bc sa ([] :: t) (∅ :: ev) ev1 ρ m _ Pc Gc Hr XF Hca Hh) as (ρ1 & m1 & Hrun & [R1 P1]).
      rewrite Hlen in Hrun. rewrite Htc in Hta. exists ρ1, m1. split; [done|]. split.
      + split; [|done]. rewrite Hta in R1 |- *. apply rel_child. by apply rel_tail in R1.
      + split; [done|]. split; [|done]. eapply good_ext; [exact Gc|exact Pc|apply Fr|by rewrite Htc].
    - injection Hex as <-. apply cg_runs_ret in Hr as [_ ->]. exists ρ, m. by rewrite Hlen. }
  destruct (reach_branch sa bc ([] :: t) (∅ :: ev') ρ1 m1 sa c bb be T2 s8 (fn s') M b) as (σ & Hr2 & ρ2 & m2 & -> & R2 & P2); try done.
  { apply ext_refl. } 
  eexists. split; [by etrans|]. exists ρ2, m2. split; [done|]. split; [|done]. rewrite Hta in R2. by apply rel_tail in R2.
Qed.

(** ** The statement *)

Lemma exec_for_inv fuel ev c d a st o ev' : exec (S fuel) ev (ForNode c d a st) = Some (o, ev') →
  ∃ ev1 ev2, match d with Some d => exec fuel ev d = Some (ONormal, ev1) | None => ev1 = ev end ∧
    exec_loop (exec fuel) fuel c a st ev1 = Some (o, ev2) ∧ ev' = match loop_var d with Some x => del_top x ev2 | None => ev2 end.
Proof.
  simpl. destruct d as [d|].
  - destruct (exec fuel ev d) as [[o0 ev1]|]; [|done]. simpl. destruct o0; try done.
    destruct (exec_loop _ _ _ _ _ ev1) as [[o1 ev2]|] eqn:Hl; [|done]. intros [= <- <-]. by exists ev1, ev2.
  - simpl. destruct (exec_loop _ _ _ _ _ ev) as [[o1 ev2]|] eqn:Hl; [|done]. intros [= <- <-]. by exists ev, ev2.
Qed.
Lemma loop_not_jump fuel k c a st ev o ev' : exec_loop (exec fuel) k c a st ev = Some (o, ev') → ∃ b, eval_cond ev c = Some b.
Proof. destruct k as [|k]; [done|]. simpl. fold (eval_cond ev c). destruct (eval_cond ev c) as [b|]; [by exists b|done]. Qed.

(** The definition of the loop, from the point behind the new blocks. *)
Lemma define_sim fuel lp t t' c d a st s B sd M ev ev1 ρ m : node_ok lp t (ForNode c d a st) = Some t' → point e s B → good e s t →
  runs (match Node_calc <$> d with Some d => d | None => mret tt end) s tt sd → cur sd = Some B → ext e M (fn sd) F →
  match d with Some d => exec fuel ev d = Some (ONormal, ev1) | None => ev1 = ev end → here s B t ev ρ m →
  ∃ ρ' m', rtc next (mk_state B (len (fn s) B) ρ m) (mk_state B (len (fn sd) B) ρ' m') ∧ here sd B t' ev1 ρ' m'.
Proof.
  intros (_ & _ & _ & Hd)%for_names P G Hr Hc X Hex Hh. destruct d as [d|]; simpl in Hr, Hex.
  - destruct Hd as [Hn [Ha|(ce & x & -> & _)]]; (destruct fuel as [|fuel]; [done|]).
    + destruct d as [ca| | | | | | | | | | | |]; try done. injection Hn as <-. simpl in Hex.
      destruct (exec_assign ev ca) as [ev2|] eqn:Hca; [|done]. injection Hex as ->.
      by apply (assign_run Pkgname ident params RetType order F args e HF He ca s B sd t ev ev1 ρ m M).
    + apply define_inv in Hn as (ns & l & -> & Hx & Hns & ->). simpl in Hex. destruct (eval ev ce) as [[w z]|] eqn:Hev; [|done]. simpl in Hex.
      destruct (set_top _ _ ev) as [ev2|] eqn:Hst; [|done]. simpl in Hex. destruct (w <=? 64)%Z; [|done]. injection Hex as ->.
      by apply (def_assign_run Pkgname ident params RetType order F args e HF He ce x s B sd ns l ev ev1 ρ m M w z).
  - subst. apply cg_runs_ret in Hr as [_ ->]. by exists ρ, m.
Qed.

(** What the runs of a loop start from: [s6] behind the definition and the
    condition, [sb] and [sa] behind the body and the step, [s8] behind the
    second condition. *)
Record loop_facts t' s (B : nat) s' (M : nat → Prop) (bc bb be Bb : nat) (c : option ExpNode) (a : option Node) (st : Node) (T2 : terminator)
    (s3 s6 sb sa s8 : cg) : Prop := {
  lf_cond : fresh_at e s s3 bc;
  lf_body : fresh_at e s s3 bb;
  lf_end : fresh_at e s s3 be;
  lf_distinct : bc ≠ bb ∧ bc ≠ be ∧ bb ≠ be;
  lf_point : point e s6 be;
  lf_good : good e s6 t';
  lf_loops : loops s6 = Some (Some bc, Some be);
  lf_in : (∀ b, b ∈ Blocks (fn s) → b ∈ Blocks (fn s6)) ∧ bc ∈ Blocks (fn s6) ∧ bb ∈ Blocks (fn s6);
  lf_insts6 : Insts (fn s6) bc = [] ∧ Insts (fn s6) bb = [] ∧ Insts (fn s6) be = [];
  lf_st : runs (Node_calc st) (child s6 bb) tt sb;
  lf_cur_b : cur sb = Some Bb ∧ Bb ∈ Blocks (fn sb) ∧ Bb ≠ bc ∧ Bb ≠ be ∧ (Bb = bb ∨ Bb ∉ Blocks (fn s6));
  lf_asg : runs (match Node_calc <$> a with Some a => a | None => mret tt end) (child (set_scopes (scopes s6) sb) bc) tt sa;
  lf_code : cond_code Pkgname c sa bc bb be T2 s8;
  lf_xb : ext e (λ b, b = bb) (fn s6) (fn sb);
  lf_xa : ext e (λ b, b = bc) (fn sb) (fn sa);
  lf_x8 : ext e (λ b, b = bc) (fn sa) (fn s8);
  lf_x' : ext e (λ b, b = bc ∨ b = Bb) (fn s8) (fn s');
  lf_insts : ∀ b, Insts (fn s') b = Insts (fn s8) b;
  lf_term_c : Term (fn s') bc = Some T2;
  lf_term_b : Term (fn s') Bb = Some (Br bc);
  lf_change : ∀ b, M b → b ∈ Blocks (fn sb) → (b ∈ Blocks (fn s) ∧ b ≠ B) ∨ b = be;
  lf_ext : ext e M (fn s') F;
}.
Definition change_body (M : nat → Prop) (bc Bb b : nat) : Prop := b = bc ∨ b = Bb ∨ M b.

Section loop.
Context t' s (B : nat) s' (M : nat → Prop) (bc bb be Bb : nat) (c : option ExpNode) (a : option Node) (st : Node) (T2 : terminator) (s3 s6 sb sa s8 : cg).
Context (HL : loop_facts t' s B s' M bc bb be Bb c a st T2 s3 s6 sb sa s8).

Lemma lf_blocks b : (b ∈ Blocks (fn s6) → b ∈ Blocks (fn sb)) ∧ (b ∈ Blocks (fn sb) → b ∈ Blocks (fn sa)) ∧ (b ∈ Blocks (fn sb) → b ∈ Blocks (fn s')).
Proof.
  split_and!; intros Hb; [eapply ext_in; [apply HL|done]|eapply ext_in; [apply HL|done]|].
  eapply ext_in; [apply HL|]. eapply ext_in; [apply HL|]. by eapply ext_in; [apply HL|].
Qed.
Lemma lf_ext_b : ext e (change_body M bc Bb) (fn sb) F.
Proof.
  unfold change_body. eapply ext_step; [|apply HL|naive_solver]. eapply ext_step; [|apply HL|naive_solver].
  eapply ext_step; [|apply HL|naive_solver]. eapply ext_weaken; [apply HL|naive_solver].
Qed.
Lemma lf_ext_6 : ext e (λ b, b = bb ∨ b = bc ∨ M b) (fn s6) F.
Proof.
  pose proof (lf_cur_b _ _ _ _ _ _ _ _ _ _ _ _ _ _ _ _ _ _ HL) as (_ & _ & _ & _ & NBb).
  eapply ext_step; [|apply lf_ext_b|unfold change_body; naive_solver]. eapply ext_weaken; [apply HL|naive_solver].
Qed.
Lemma lf_fixed b : b ∉ Blocks (fn s) → b ≠ be → b ∈ Blocks (fn sb) → ¬ M b.
Proof. intros H1 H2 H3 HMb. by destruct (lf_change _ _ _ _ _ _ _ _ _ _ _ _ _ _ _ _ _ _ HL b HMb H3) as [[? _]|?]. Qed.
(** The block the body ends in, and its code. *)
Lemma lf_last : Bb ≠ e ∧ ¬ M Bb ∧ Insts F Bb = Insts (fn sb) Bb ∧ Term F Bb = Some (Br bc).
Proof.
  pose proof lf_fixed as HMn. pose proof lf_blocks as In.
  destruct HL as [Fc Fb Fe _ P6 _ _ (In6 & Ic & Ib) _ _ (_ & HBb & NBc & NBe & NBb) _ _ _ Xa X8 X9 L' _ TBb _ X].
  assert (¬ M Bb) as HM by (apply HMn; [destruct NBb as [-> |?]; [apply Fb|naive_solver]|done|done]).
  assert (Bb ≠ e) as Nbe by (destruct NBb as [-> |Hn]; [apply Fb|intros ->; apply Hn; by eapply head_in]).
  split; [done|]. split; [done|]. rewrite (ext_same _ _ _ _ Bb X), (ext_term _ _ _ _ Bb X) by (done || by apply In). split; [|done].
  rewrite L', (ext_same _ _ _ _ Bb X8), (ext_same _ _ _ _ Bb Xa); try done. by apply In.
Qed.
(** One run of the body. *)
Lemma loop_body fuel ev o ev' ρ m : (∀ k, k ≤ fuel → node_sim k) → block_ok node_ok true t' st = true → for_shape st = true →
  exec_block (exec fuel) ev st = Some (o, ev') → rel ρ m t' (tables s6) ev → ptrs_ok (Insts F e) ρ m →
  ∃ σ, rtc next (mk_state bb 0 ρ m) σ ∧ goes o bc bc be s6 t' ev' σ.
Proof.
  intros IH Hok Hsh Hex R Hp. pose proof lf_ext_b as Xb. pose proof lf_last as (Nbe & HMb & LB & TB).
  destruct HL as [Fc Fbb Fe (D1 & D2 & D3) P6 G6 Hl6 (In6 & Ic & Ib) (_ & Lb & _) Hst (Hcb & HBb & NBc & NBe & NBb) _ _ _ _ _ _ _ _ _ HM _].
  apply (body_join fuel IH st true t' s6 be bb sb (change_body M bc Bb) bc bc be ev o ev'); try done.
  - apply Fbb.
  - by intros _.
  - intros b Hb HMb0. rewrite child_fn. destruct HMb0 as [-> |[-> |HM0]]; [left; split; [done|congruence]|right; split; [done|]|].
    + unfold for_shape in Hsh. by apply negb_true_iff.
    + left. destruct (HM b HM0 Hb) as [[? _]| ->]; [|by split; [apply P6|]]. split; [by apply In6|]. intros ->. by apply (fa_old _ _ _ _ Fbb).
  - intros _ Bb' HBb'. assert (Bb' = Bb) as -> by congruence. done.
Qed.
(** The step and the condition. *)
Lemma loop_next fuel ev ev' ρ m b : is_assign a = true →
  exec_opt_block (exec fuel) ev a = Some ev' → eval_cond ev' c = Some b → rel ρ m t' (tables s6) ev → ptrs_ok (Insts F e) ρ m →
  ∃ σ, rtc next (mk_state bc 0 ρ m) σ ∧ left_at (if b then bb else be) s6 t' ev' σ.
Proof.
  intros Ha Hex Hb R Hp. pose proof lf_fixed as HMn. pose proof lf_blocks as In.
  destruct HL as [Fc Fbb Fe (D1 & D2 & D3) P6 G6 Hl6 (In6 & Ic & Ib) [Lc _] Hst _ Hasg Hcode Xb Xa X8 X9 L' TC _ HM X].
  set (sk := set_scopes (scopes s6) sb) in *.
  apply (next_sim fuel M c a sk be bc bb be sa s8 s' T2 t' ev ev' b ρ m); try done.
  - split; [eapply ext_head; [exact Xb|apply P6]|apply P6|by apply In, P6].
  - by eapply good_ext; [exact G6|exact P6|exact Xb|].
  - by apply In.
  - simpl. by rewrite (ext_same _ _ _ _ bc Xb); [|done|congruence|apply Fc].
  - apply Fc.
  - by eapply ext_any.
  - apply HMn; [apply Fc|done|by apply In].
Qed.
(** The start block is final, and the block behind the loop is empty. *)
Lemma lf_start : B ∈ Blocks (fn s) → B ≠ bb → B ≠ bc → B ≠ be → ¬ (B = bb ∨ B = bc ∨ M B).
Proof.
  intros HB N1 N2 N3 [?|[?|HMb]]; [done..|]. destruct (lf_change _ _ _ _ _ _ _ _ _ _ _ _ _ _ _ _ _ _ HL B HMb) as [[_ ?]|?]; [|done..].
  by apply lf_blocks, HL.
Qed.
Lemma lf_behind : be ≠ e ∧ Insts (fn s') be = [].
Proof.
  pose proof lf_blocks as In. destruct HL as [_ _ Fe (D1 & D2 & D3) P6 _ _ _ (_ & _ & Le) _ _ _ _ Xb Xa X8 _ L' _ _ _ _]. split; [apply Fe|].
  assert (be ∈ Blocks (fn s6)) as Ie by apply P6.
  rewrite L', (ext_same _ _ _ _ be X8), (ext_same _ _ _ _ be Xa), (ext_same _ _ _ _ be Xb); try done; try congruence; try apply Fe; repeat (done || apply In).
Qed.
End loop.

#[local] Notation opt_calc d := (match Node_calc <$> d with Some d => d | None => mret tt end).
Lemma loop_facts_path c d a st lp t t' s B s' M bc bb be Bb Ba T1 T2 s1 s2 s3 s4 sd s5 s6 sb sa s8 :
  node_ok lp t (ForNode c d a st) = Some t' → point e s B → good e s t → ext e M (fn s') F → may_change M false s B s' →
  for_path Pkgname c (opt_calc d) (opt_calc a) (Node_calc st) e s B s' bc bb be B Bb Ba T1 T2 s1 s2 s3 s4 sd s5 s6 sb sa s8 →
  steady (opt_calc d) → loop_facts t' s B s' M bc bb be Bb c a st T2 s3 s6 sb sa s8.
Proof.
  intros Hok P G X Hch Hpath Sd'. pose proof (for_names _ _ _ _ _ _ _ Hok) as (_ & _ & Ha & _).
  destruct (for_goods _ _ _ _ _ _ _ _ _ _ _ _ _ _ _ _ _ _ _ _ _ _ _ _ _ _ _ _ _ _ _ _ _ _ Hok P G Hpath) as (_ & _ & Gd & Ht6 & _).
  apply for_path_funcs in Hpath as Hf; [|done].
  destruct Hpath as [_ _ _ H4 (sc & l & Hs & Hs4) P4 Hdr Fd Hc1 _ (sc6 & l6 & Hsd & Hs6) P6 Hst Fb Pback Hasg Fa Hc2 _ Hs'].
  destruct Hf as [(Fc & Fbb & Fe) (D1 & D2 & D3 & D4 & D5 & D6) X3 Xd X5 X6 Xb Xa X8 X9 L6 L' _ TC TBb HBb _ (_ & NBa)].
  rewrite <- H4 in X3, Xd.
  assert (∀ b, b ∈ Blocks (fn s4) → b ∈ Blocks (fn s6)) as In6 by (intros b Hb; do 3 (eapply ext_in; [done|]); done).
  assert (∀ b, b ∈ Blocks (fn s6) → b ∈ Blocks (fn sb)) as Inb by (intros b Hb; by eapply ext_in; [exact Xb|]).
  assert (∀ b0, fresh_at e s s3 b0 → b0 ≠ B → Insts (fn s6) b0 = []) as Hnew.
  { intros b0 Fb0 HbB. assert (b0 ∈ Blocks (fn s4)) as Hb4 by (rewrite H4; apply Fb0).
    rewrite L6, (ext_same _ _ _ _ b0 X5), (ext_same _ _ _ _ b0 Xd), H4; try done; try apply Fb0. by eapply ext_in; [exact Xd|]. }
  assert (∀ b, fresh_at e s s3 b → b ∈ Blocks (fn s6)) as Hin by (intros b Fb0; apply In6; rewrite H4; apply Fb0).
  assert (Ba = bc) as ->.
  { assert (steady (opt_calc a)) as Sa by (destruct a; [apply steady_simple; by left|apply steady_appends, appends_ret]).
    pose proof (steady_point e _ _ _ _ _ Sa (child_point _ _ _ bc Pback (Inb _ (Hin _ Fc))) Hasg) as Hca.
    pose proof (pt_cur _ _ _ (fr_point _ _ _ _ _ Fa)). congruence. }
  split; try done.
  - eapply good_ext; [exact Gd|apply Fd|eapply ext_any_trans; [eapply ext_any; exact X5|exact X6]|done].
  - assert (loops sd = loops s4) as Hld by (destruct Sd' as [_ Sd']; apply (Sd' e s4 B tt sd P4 Hdr)).
    unfold loops in *. rewrite Hs4, Hsd in Hld. rewrite Hs6. exact Hld.
  - split; [intros b Hb; apply In6; by eapply ext_in; [exact X3|]|]. split; by apply Hin.
  - split_and!; by apply Hnew.
  - split; [apply (pt_cur _ _ _ (fr_point _ _ _ _ _ Fb))|done].
  - intros b Hb Hb'. destruct (Hch b) as [?|[Hc _]]; [|done|by left|].
    + eapply ext_in; [exact X9|]. eapply ext_in; [exact X8|]. by eapply ext_in; [exact Xa|].
    + right. unfold cur in Hc. rewrite Hs', Hs6 in Hc. by injection Hc as ->.
Qed.
Lemma for_cur c d a st s B s' bc bb be B1 Bb Ba T1 T2 s1 s2 s3 s4 sd s5 s6 sb sa s8 :
  for_path Pkgname c d a st e s B s' bc bb be B1 Bb Ba T1 T2 s1 s2 s3 s4 sd s5 s6 sb sa s8 → cur s' = Some be.
Proof. intros [_ _ _ _ _ _ _ _ _ _ (sc & l & _ & Hs6) _ _ _ _ _ _ _ _ Hs']. unfold cur. by rewrite Hs', Hs6. Qed.
(** The variables behind a loop: its own is gone. *)
Lemma rel_behind lp t c d a st t' tbs ρ m ev : node_ok lp t (ForNode c d a st) = Some t' →
  rel ρ m t' tbs ev → rel ρ m t' tbs (match loop_var d with Some x => del_top x ev | None => ev end).
Proof.
  intros (_ & _ & _ & Hd)%for_names R. destruct (loop_var d) as [x|] eqn:Hx; [|done]. apply rel_del; [done|].
  destruct d as [[]|]; try done. injection Hx as ->. destruct Hd as [Hdn [?|(? & ? & [= <- <-] & Hd)]]; [done|].
  apply define_inv in Hdn as (ns & l0 & -> & _ & _ & ->). simpl in Hd |- *. set_solver.
Qed.
(** From the start of the statement to the first decision. *)
Lemma for_start fuel lp t t' c d a st s B s' bc bb be Bb Ba T1 T2 s1 s2 s3 s4 sd s5 s6 sb sa s8 M ev ev1 ρ m b :
  node_ok lp t (ForNode c d a st) = Some t' → point e s B → good e s t →
  for_path Pkgname c (opt_calc d) (opt_calc a) (Node_calc st) e s B s' bc bb be B Bb Ba T1 T2 s1 s2 s3 s4 sd s5 s6 sb sa s8 →
  ext e M (fn s6) F → ¬ M B →
  match d with Some d => exec fuel ev d = Some (ONormal, ev1) | None => ev1 = ev end → eval_cond ev1 c = Some b → here s B t ev ρ m →
  ∃ ρ' m', rtc next (mk_state B (len (fn s) B) ρ m) (mk_state (if b then bb else be) 0 ρ' m') ∧ rel ρ' m' t' (tables s6) ev1 ∧ ptrs_ok (Insts F e) ρ' m'.
Proof.
  intros Hok P G Hpath X6F HMB Hexd Hb Hh.
  destruct (for_goods _ _ _ _ _ _ _ _ _ _ _ _ _ _ _ _ _ _ _ _ _ _ _ _ _ _ _ _ _ _ _ _ _ _ Hok P G Hpath) as (G4 & Ht4 & Gd & Ht6 & _).
  apply for_path_funcs in Hpath as Hf; [|done]. destruct Hpath as [_ _ _ H4 _ P4 Hdr Fd Hc1 _ _ _ _ _ _ _ _ _ _ _].
  destruct Hf as [_ _ X3 Xd X5 X6 _ _ _ _ L6 _ TB _ _ _ _ _]. rewrite <- H4 in X3, Xd. pose proof (fr_point _ _ _ _ _ Fd) as Pd.
  assert (ext e (λ _, True) (fn s5) F) as X5F by (eapply ext_any_trans; [by eapply ext_any|exact X6F]).
  assert (ext e (λ _, True) (fn sd) F) as XdF by (eapply ext_any_trans; [by eapply ext_any|exact X5F]).
  assert (ext e (λ _, True) (fn s4) F) as X4F by (eapply ext_any_trans; [by eapply ext_any|exact XdF]).
  destruct (reach s B t ev ρ m s4) as (ρ1 & m1 & Hr1 & Hh1); try done.
  destruct (define_sim fuel lp t t' c d a st s4 B sd (λ _, True) ev ev1 ρ1 m1) as (ρ2 & m2 & Hr2 & Hh2); try done; [by apply Pd|].
  destruct (reach_branch sd B t' ev1 ρ2 m2 sd c bb be T1 s5 (fn s6) M b) as (σ & Hr3 & ρ3 & m3 & -> & R3 & P3); try done.
  { apply ext_refl. } { by eapply ext_any. }
  exists ρ3, m3. rewrite Ht6. split; [etrans; [exact Hr1|]; by etrans|done].
Qed.

Lemma for_sim fuel : (∀ k, k ≤ fuel → node_sim k) → ∀ c d a st lp t t' s B s' M cb br ev o ev' ρ m,
  node_ok lp t (ForNode c d a st) = Some t' → point e s B → good e s t → runs (Node_calc (ForNode c d a st)) s tt s' →
  ext e M (fn s') F → may_change M false s B s' → exec (S fuel) ev (ForNode c d a st) = Some (o, ev') → here s B t ev ρ m →
  ∃ σ, rtc next (mk_state B (len (fn s) B) ρ m) σ ∧ lands o cb br s t s' t' ev' σ.
Proof.
  intros IH c d a st lp t t' s B s' M cb br ev o ev' ρ m Hok P G Hr X Hch Hex Hh.
  pose proof (for_names _ _ _ _ _ _ _ Hok) as (Hsh & Hbok & Ha & _). pose proof (for_ok_define Pkgname ident params RetType order _ _ _ _ _ _ _ Hok) as Sd.
  assert (steady (opt_calc d)) as Sd' by (destruct d; [done|apply steady_appends, appends_ret]).
  cbn [Codegen.Node_calc] in Hr. apply (ForNode_path _ _ _ _ _ e _ B) in Hr
    as (bc & bb & be & B1 & Bb & Ba & T1 & T2 & s1 & s2 & s3 & s4 & sd & s5 & s6 & sb & sa & s8 & Hpath);
    [|destruct d; [apply framed_Node|done]|destruct a; [apply framed_Node|done]|apply framed_Node|done].
  apply for_define_steady in Hpath as HB1; [|exact Sd']. subst B1.
  pose proof (loop_facts_path _ _ _ _ _ _ _ _ _ _ _ _ _ _ _ _ _ _ _ _ _ _ _ _ _ _ _ _ Hok P G X Hch Hpath Sd') as HL.
  destruct (for_goods _ _ _ _ _ _ _ _ _ _ _ _ _ _ _ _ _ _ _ _ _ _ _ _ _ _ _ _ _ _ _ _ _ _ Hok P G Hpath) as (_ & _ & _ & Ht6 & Ht').
  destruct (exec_for_inv _ _ _ _ _ _ _ _ Hex) as (ev1 & ev2 & Hexd & Hloop & ->). destruct (loop_not_jump _ _ _ _ _ _ _ _ Hloop) as [b Hb].
  destruct (for_start fuel lp t t' c d a st s B s' bc bb be Bb Ba T1 T2 s1 s2 s3 s4 sd s5 s6 sb sa s8 (λ b, b = bb ∨ b = bc ∨ M b) ev ev1 ρ m b)
    as (ρ3 & m3 & Hr3 & R3 & P3); try done; [by eapply lf_ext_6| |].
  { apply for_path_funcs in Hpath as Hf; [|done]. destruct Hf as [_ (_ & _ & _ & D4 & D5 & D6) _ _ _ _ _ _ _ _ _ _ _ _ _ _ _ _].
    eapply lf_start; [exact HL|apply P|congruence..]. }
  destruct (loop_sim fuel c a st bb bc be s6 t') with (k := fuel) (ev := ev1) (o := o) (ev' := ev2) (ρ := ρ3) (m := m3) (b := b) as (σ & Hr4 & Hl4); try done.
  { intros. by eapply loop_body. } { intros. by eapply loop_next. }
  exists σ. split; [by etrans|]. destruct o; try done. destruct Hl4 as (ρ4 & m4 & -> & R4 & P4').
  destruct (lf_behind _ _ _ _ _ _ _ _ _ _ _ _ _ _ _ _ _ _ HL) as (Hne & Lbe). exists be, ρ4, m4. rewrite Lbe.
  split; [by eapply for_cur|]. split; [done|]. split; [|by rewrite done_at_new].
  rewrite Ht', <- Ht6. by eapply rel_behind.
Qed.

(** ** All statements *)

Theorem sim_node fuel : node_sim fuel.
Proof.
  induction fuel as [fuel IH] using lt_wf_ind. destruct fuel as [|fuel]; [intros n lp t t' s B s' M cb br ev o ev' ρ m; done|].
  assert (∀ k, k ≤ fuel → node_sim k) as IH' by (intros k Hk; apply IH; lia).
  intros n lp t t' s B s' M cb br ev o ev' ρ m Hok P G Hr Hl X Hch Hex Hh. destruct (branches n) eqn:Hb.
  - destruct n; try done.
    + by eapply (if_sim Pkgname ident params RetType order F args e HF He fuel IH').
    + by eapply (ifelse_sim Pkgname ident params RetType order F args e HF He fuel IH').
    + by eapply (for_sim fuel IH').
  - by eapply (straight_sim Pkgname ident params RetType order F args e HF He fuel).
Qed.
End sim_for.
