(* ===== verification/CodegenFunc.v ===== *)
(** * The generated code of a function

    The parameters get variables on the heap; the body is a list that ends with
    a return. *)
From S2P Require Import Prelude Lexer Ast Escape Ir Codegen CodegenSem CodegenFrame CodegenExp CodegenExt CodegenPaths CodegenNodes CodegenGood CodegenEnv CodegenRun CodegenSim CodegenIf CodegenFor.

Section params.
Context `{Llir} (Pkgname : text).
Implicit Types (s : cg) (t : names) (ev : env).
#[local] Notation full := (full Pkgname).
#[local] Notation good := (good Pkgname).
#[local] Notation bind_params := (bind_params Pkgname).

Lemma gcmalloc_runs e s B tp v s' : point e s B → runs (gcmalloc tp) s v s' →
  ∃ r, v = Inst r (PointerType tp) ∧ NewInst (fn s) e (CallHeapalloc tp) = (r, fn s') ∧ scopes s' = scopes s.
Proof.
  intros P Hr. unfold gcmalloc in Hr. runs_inv Hr as (b & s1 & [_ ->]%runs_cur_block & Hi). runs_inv Hi as (b' & s1 & Hb & Hi).
  destruct (first_block_runs e s B _ _ P Hb) as [-> ->]. by_spec Hi. apply spec_emit_at. intros r f Hf. by exists r.
Qed.
Lemma mono_gcmalloc tp : mono (gcmalloc tp).
Proof. unfold gcmalloc. mono_tac. Qed.
Lemma mono_bind_params i ps : mono (bind_params i ps).
Proof.
  revert i. induction ps as [|[id t] ps IH]; intros i; simpl; [apply mono_ret|]. apply mono_bind; [apply mono_gcmalloc|]. intros p.
  apply mono_bind; [apply mono_store|]. intros _. apply mono_bind; [apply mono_addVar|done].
Qed.
Lemma steady_gcmalloc tp : steady (gcmalloc tp).
Proof.
  split; [apply mono_gcmalloc|]. intros e s B v s' P Hr. destruct (gcmalloc_runs _ _ _ _ _ _ P Hr) as (r & _ & Hn & Hs).
  pose proof (ext_alloc e _ r _ _ Hn (head_in _ _ _ P) eq_refl) as X. split; [|split].
  - apply frame_scopes; [done| |done]. eapply ext_weaken; [exact X|done].
  - apply (ext0_term e); [done|apply P].
  - unfold loops. by rewrite Hs.
Qed.
Lemma steady_bind_params i ps : steady (bind_params i ps).
Proof.
  revert i. induction ps as [|[id tp] ps IH]; intros i; simpl; [apply steady_appends, appends_ret|].
  apply steady_bind; [apply steady_gcmalloc|]. intros p. apply steady_bind; [apply steady_appends, appends_store|]. intros _.
  apply steady_bind; [apply steady_addVar|done].
Qed.
(** One parameter. *)
Record param_step (e : nat) s s' (i : nat) (x : text) (tp : type) (ns : list text) t : Prop := {
  ps_point : point e s' e;
  ps_good : good e s' ((x :: ns) :: t);
  ps_code : ∃ r s1 s2 i0 y tb tbs, NewInst (fn s) e (CallHeapalloc tp) = (r, fn s1) ∧ scopes s1 = scopes s ∧
    eff s1 s2 e [(i0, Store (Param i tp) (Inst r (PointerType tp)))] ∧ fn s' = fn s2 ∧ full x = Some y ∧
    tables s = tb :: tbs ∧ tables s' = ((y, Inst r (PointerType tp)) :: tb) :: tbs;
  ps_ext : ext e (λ _, True) (fn s) (fn s');
  ps_tail : tail (scopes s') = tail (scopes s);
}.
Lemma bind_params_cons e s i x tp ps u s' ns t : point e s e → good e s (ns :: t) → plain x = true → x ∉ ns →
  runs (bind_params i ((x, tp) :: ps)) s u s' → ∃ s1, param_step e s s1 i x tp ns t ∧ runs (bind_params (S i) ps) s1 u s'.
Proof.
  intros P G Hx Hns Hr. simpl in Hr.
  apply cg_runs_bind in Hr as (v & s1 & H1 & Hr); [|apply mono_gcmalloc|intros; apply mono_bind; [apply mono_store|intros _; apply mono_bind; [apply mono_addVar|intros _; apply mono_bind_params]]].
  destruct (gcmalloc_runs _ _ _ _ _ _ P H1) as (r & -> & Hn & Hs1). assert (alloc_of tp (CallHeapalloc tp)) as Hi by by right.
  destruct (alloc_new _ _ _ _ _ _ _ P Hn Hi) as (Hk & Ha & _).
  pose proof (ext_alloc e (CallHeapalloc tp) r _ _ Hn (head_in _ _ _ P) eq_refl) as X1.
  assert (point e s1 e) as P1 by (eapply fr_point, frame_scopes; [exact P|by eapply ext_weaken|done]).
  assert (good e s1 (ns :: t)) as G1 by (eapply good_ext; [exact G|exact P|exact X1|by apply tables_eq]).
  apply cg_runs_bind in Hr as (v2 & s2 & H2 & Hr); [|apply mono_store|intros _; apply mono_bind; [apply mono_addVar|intros _; apply mono_bind_params]].
  destruct (spec_runs _ _ _ _ _ (store_spec (Param i tp) (Inst r (PointerType tp)) s1 e (pt_cur _ _ _ P1) (pt_in _ _ _ P1)) H2) as (_ & i0 & E & _).
  pose proof (eff_ext e _ _ _ _ E) as X2. pose proof (ef_scopes _ _ _ _ E) as Hs2.
  assert (point e s2 e) as P2 by (eapply fr_point, frame_scopes; [exact P1|done|done]).
  assert (good e s2 (ns :: t)) as G2 by (eapply good_ext; [exact G1|exact P1|exact X2|by apply tables_eq]).
  apply cg_runs_bind in Hr as ([] & s3 & H3 & Hr); [|apply mono_addVar|intros _; apply mono_bind_params].
  destruct (addVar_runs _ _ _ _ _ _ _ _ _ G2 Hx Hns H3) as (y & tb & tbs & Hy & Ht & Ht' & _ & Hf).
  destruct (proj2 (steady_addVar Pkgname x (Inst r (PointerType tp))) e s2 e tt s3 P2 H3) as (F3 & _ & _).
  assert (tables s2 = tables s) as Ht2 by (apply tables_eq; congruence).
  exists s3. split; [|done]. split.
  - apply F3.
  - eapply good_define; [exact G2|done..| |].
    + eapply alloc_in_ext; [exact X2|by eapply head_in|done].
    + rewrite Ht2. eapply new_not_in_tables; [exact G|by eapply head_in|done].
  - exists r, s1, s2, i0, y, tb, tbs. rewrite <- Ht2. done.
  - rewrite Hf. eapply ext_any_trans; [eapply ext_any; exact X1|exact X2].
  - rewrite (fr_tail _ _ _ _ _ F3). congruence.
Qed.
End params.

Section params_run.
Context `{Llir} (Pkgname : text) (F : Func) (args : list val) (e : nat) (HF : uniq F) (He : e ∈ Blocks F).
Implicit Types (s : cg) (t : names) (ev : env).
#[local] Notation good := (good Pkgname).
#[local] Notation bind_params := (bind_params Pkgname).
#[local] Notation here := (here Pkgname F e).
#[local] Notation len f B := (length (Insts f B)).

(** The parameters are bound to the arguments. *)
Lemma params_run ps : ∀ i s s' ns t zs fr ev ρ m M,
  point e s e → good e s (ns :: t) → Forall (λ x, plain x = true) ps.*1 → NoDup ps.*1 → (∀ x, x ∈ ps.*1 → x ∉ ns) →
  runs (bind_params i ps) s tt s' → ext e M (fn s') F → here s e (ns :: t) (fr :: ev) ρ m →
  Forall2 (λ p wz, p.2 = IntType wz.1) ps zs → (∀ j wz, zs !! j = Some wz → args !! (i + j) = Some (VInt wz.1 wz.2)) →
  ∃ ρ' m', rtc (next_step F args) (mk_state e (len (fn s) e) ρ m) (mk_state e (len (fn s') e) ρ' m') ∧
    point e s' e ∧ good e s' ((reverse ps.*1 ++ ns) :: t) ∧ tail (scopes s') = tail (scopes s) ∧
    here s' e ((reverse ps.*1 ++ ns) :: t) (list_to_map (zip ps.*1 (prod_map id Some <$> zs)) ∪ fr :: ev) ρ' m'.
Proof.
  induction ps as [|[x tp] ps IH]; intros i s s' ns t zs fr ev ρ m M P G Hpl Hnd Hns Hr X Hh Hty Hargs.
  - apply cg_runs_ret in Hr as [_ ->]. inversion Hty; subst. exists ρ, m. simpl. rewrite (left_id_L ∅ (∪)). by split.
  - inversion Hpl as [|? ? Hx Hpl']; subst. inversion Hnd as [|? ? Hxn Hnd']; subst.
    inversion Hty as [|? [w z] ? zs' Htp Hty']; subst. simpl in Htp. subst tp.
    destruct (bind_params_cons _ _ _ _ _ _ _ _ _ _ _ P G Hx (Hns x ltac:(left)) Hr) as (s1 & [P1 G1 (r & sa & sb & i0 & y & tb & tbs & Hn & Hsa & E & Hfb & Hy & Ht & Ht') X1 Htl] & Hr').
    destruct (proj2 (steady_bind_params Pkgname (S i) ps) e s1 e tt s' P1 Hr') as (Fr & _ & _).
    assert (ext e (λ _, True) (fn s1) F) as XF1 by (eapply ext_any_trans; [eapply ext_any; apply Fr|exact X]).
    pose proof XF1 as XFb. rewrite Hfb in XFb.
    assert (ext e (λ _, True) (fn sa) F) as XFa by (eapply ext_any_trans; [eapply ext_any; by eapply eff_ext|exact XFb]).
    assert (alloc_of (IntType w) (CallHeapalloc (IntType w))) as Hi by by right.
    destruct (alloc_run Pkgname F args e HF He s e sa r _ _ _ _ ρ m _ P G Hi Hn Hsa XFa Hh) as (ρ1 & m1 & Hr1 & Hh1 & _ & p & c0 & Hrp & Hm & _).
    destruct (alloc_new _ _ _ _ _ _ _ P Hn Hi) as (Hk & Ha & _).
    pose proof (ext_alloc e (CallHeapalloc (IntType w)) r _ _ Hn (head_in _ _ _ P) eq_refl) as Xa.
    assert (point e sa e) as Pa by (eapply fr_point, frame_scopes; [exact P|by eapply ext_weaken|done]).
    assert (good e sa (ns :: t)) as Ga by (eapply good_ext; [exact G|exact P|exact Xa|by apply tables_eq]).
    destruct (init_var Pkgname F args e HF He x y r w z sa sb s1 e ns t tb tbs fr ev ρ1 m1 ρ1 [(i0, Store (Param i (IntType w)) (Inst r (PointerType (IntType w))))] p c0 (λ _, True)) as (ρ2 & m2 & Hr2 & Hh2); try done.
    { apply Hns. by left. }
    { rewrite <- Ht. by apply tables_eq. }
    { intros tp'. rewrite (tables_eq _ _ Hsa). eapply known_in_table; [exact G|by eapply head_in|done]. }
    { specialize (Hargs 0 (w, z) eq_refl). rewrite Nat.add_0_r in Hargs. simpl. rewrite decide_True, Hargs by done. simpl.
      rewrite decide_True, Hrp by done. by rewrite Hm. }
    destruct (IH (S i) s1 s' (x :: ns) t zs' (<[x:=(w, Some z)]> fr) ev ρ2 m2 M) as (ρ3 & m3 & Hr3 & P' & G' & Htl' & Hh3); try done.
    { intros x' Hx' [-> |Hx'']%elem_of_cons; [done|]. eapply Hns; [|exact Hx'']. by right. }
    { intros j wz Hj. rewrite <- (Hargs (S j) wz Hj). f_equal. lia. }
    exists ρ3, m3. split; [etrans; [exact Hr1|]; by etrans|]. split; [done|]. simpl. rewrite reverse_cons, <- (assoc_L (++)). split; [done|].
    split; [congruence|]. assert ((list_to_map (zip ps.*1 (prod_map id Some <$> zs')) : locals) !! x = None) as Hnone.
    { apply not_elem_of_list_to_map. intros ([x' d] & -> & Hin%elem_of_zip_l)%list_elem_of_fmap. done. }
    rewrite <- insert_union_l, insert_union_r by done. done.
Qed.
End params_run.

Section func.
Context `{Llir} (Pkgname : text) (order : gset text → list text).
Implicit Types (s : cg).

(** The widths of the parameters. *)
Definition widths (n : FuncNode) : option (list Z) := mapM (λ p, width_of p.2) (Params n).
Definition arg_vals (n : FuncNode) (args : list Z) : list val :=
  match widths n with Some ws => zip_with VInt ws args | None => [] end.

Lemma mono_types ps : mono (types_calc ps).
Proof. induction ps as [|p ps IH]; simpl; [apply mono_ret|mono_tac]. Qed.
Lemma types_runs ps s ts s' : runs (types_calc ps) s ts s' → s' = s ∧ Forall2 type_is ps ts.
Proof.
  revert s ts. induction ps as [|p ps IH]; intros s ts Hr; simpl in Hr; [by apply cg_runs_ret in Hr as [-> ->]|].
  pose proof mono_types.
  apply cg_runs_bind in Hr as (tp & s1 & [-> Htp]%type_runs & Hr); [|mono_tac|intros; mono_tac].
  apply cg_runs_bind in Hr as (ts1 & s1 & H1 & [-> ->]%cg_runs_ret); [|done|intros; mono_tac]. destruct (IH _ _ H1) as [-> Hts]. split; [done|by constructor].
Qed.
Lemma FuncNode_runs n s F s' g : scopes s = [g] → runs (FuncNode_calc Pkgname order n) s F s' →
  ∃ ts tp ident e s0 s1 s2, Forall2 type_is (Params n).*2 ts ∧ runs (BasicTypeNode_calc (RetType_ n)) s tp s ∧
    NewBlock NewFunc = (e, fn s0) ∧ scopes s0 = [addChildScope e g; g] ∧
    runs (bind_params Pkgname 0 (zip (Params n).*1 ts)) s0 tt s1 ∧
    runs (Node_calc Pkgname ident (Params n).*1 tp order (Statements n)) s1 tt s2 ∧ F = fn s2.
Proof.
  intros Hg Hr. unfold FuncNode_calc in Hr.
  pose proof mono_types.
  match type of Hr with runs (types_calc _ ≫= λ ts, BasicTypeNode_calc _ ≫= λ tp, getFullName _ _ ≫= λ ident, @?k ts tp ident) _ _ _ =>
    assert (∀ ts tp ident, mono (k ts tp ident)) as Hk end.
  { intros ts tp ident sa r sb Hab. cbv beta in Hab. destruct (NewBlock NewFunc) as [b f].
    assert (mono (in_child b (bind_params Pkgname 0 (zip (Params n).*1 ts);; Node_calc Pkgname ident (Params n).*1 tp order (Statements n)))) as Hmc.
    { apply mono_in_child, mono_bind; [apply mono_bind_params|intros _; apply mono_Node]. }
    destruct (in_child b _ (set_fn f sa)) as [o s1] eqn:Hs1. apply Hmc in Hs1. simpl in Hs1. by destruct o; injection Hab as <- <-. }
  apply cg_runs_bind in Hr as (ts & s1 & [-> Hts]%types_runs & Hr); [|done|intros; apply mono_bind; [mono_tac|intros; apply mono_bind; [mono_tac|intros; apply Hk]]].
  apply cg_runs_bind in Hr as (tp & s1 & H1 & Hr); [|mono_tac|intros; apply mono_bind; [mono_tac|intros; apply Hk]].
  destruct (type_runs _ _ _ _ H1) as [-> _].
  apply cg_runs_bind in Hr as (ident & s1 & H2 & Hr); [|mono_tac|intros; apply Hk].
  assert (s1 = s) as ->. { destruct H2 as [H2 _]. rewrite getFullName_full in H2. destruct (full _ _); [|done]. by injection H2. }
  clear Hk. destruct Hr as [Hr Herr]. destruct (NewBlock NewFunc) as [e f] eqn:Hnb.
  destruct (in_child e _ (set_fn f s)) as [[[]| |] s1] eqn:Hc; [|done..]. injection Hr as <- <-.
  assert (runs (in_child e (bind_params Pkgname 0 (zip (Params n).*1 ts);; Node_calc Pkgname ident (Params n).*1 tp order (Statements n))) (set_fn f s) tt s1) as Hrc by done.
  apply runs_in_child in Hrc as (sc & l & s2 & Hs & Hr2 & ->). simpl in Hs. rewrite Hg in Hs. injection Hs as <- <-.
  apply cg_runs_bind in Hr2 as ([] & s3 & H3 & H4); [|apply mono_bind_params|intros; apply mono_Node].
  exists ts, tp, ident, e, (set_scopes [addChildScope e g; g] (set_fn f s)), s3, s2. done.
Qed.
End func.
