(* ===== verification/CodegenTheorems.v ===== *)
(** * The code generator: what the generated code computes *)
From S2P Require Import Prelude Lexer Ast Escape Ir IrInst Codegen CodegenSem CodegenDemo CodegenFrame CodegenExp CodegenExt CodegenPaths CodegenNodes CodegenGood CodegenEnv CodegenRun CodegenSim CodegenIf CodegenFor CodegenFunc.

Section correct.
Context `{Llir} (Pkgname : text) (order : gset text → list text).
Implicit Types (s : cg).

Lemma func_ok_inv n : func_ok n = true → ∃ ch t', Statements n = SLNode ch ∧ NoDup (Params n).*1 ∧
  Forall (λ x, plain x = true) (Params n).*1 ∧ children_ok node_ok false [reverse (Params n).*1; []] ch = Some t' ∧ ends leaves ch = true.
Proof.
  unfold func_ok. destruct (Statements n) as [|ch| | | | | | | | | | |]; try done. rewrite !andb_true_iff. intros [[[Hr Hnd] Hp] Hok].
  destruct (children_ok node_ok false _ ch) as [t'|] eqn:Hch; [|done]. exists ch, t'. split; [done|]. split; [by apply bool_decide_eq_true in Hnd|]. split; [|split; [done|]].
  - apply Forall_forall. intros x Hx%list_elem_of_In. rewrite forallb_forall in Hp. by apply Hp.
  - eapply ends_mono; [|exact Hr]. by intros [].
Qed.
Lemma exec_func_inv fuel n args v : exec_func fuel n args = Some v → ∃ ws r l p q ev, widths n = Some ws ∧ length args = length ws ∧
  RetType_ n = BasicTypeNode l [] 0 p q ∧ typedic l = Some r ∧
  exec r fuel [list_to_map (zip (Params n).*1 (zip ws (Some <$> args))); ∅] (Statements n) = Some (OReturn v, ev).
Proof.
  unfold exec_func, widths. destruct (mapM _ (Params n)) as [ws|]; [|done]. simpl. destruct (RetType_ n) as [l [|] [|] p q| | | |]; try done.
  destruct (typedic l) as [r|] eqn:Hr; [|done]. simpl. case_decide as Hlen; [|done]. cbv zeta.
  destruct (exec r fuel _ _) as [[o ev]|] eqn:Hex; [|done]. simpl. destruct o; try done. intros [= ->]. by exists ws, r, l, p, q, ev.
Qed.
(** The function before any code. *)
Lemma start_good e s g : NewBlock NewFunc = (e, fn s) → scopes s = [addChildScope e g; g] → vartable g = [] →
  point e s e ∧ good Pkgname e s [[]; []] ∧ Insts (fn s) e = [] ∧ Blocks (fn s) = [e].
Proof.
  intros Hn Hs Hg. destruct (NewBlock_spec _ _ _ Hn) as (_ & Hb & Hi & _). rewrite NewFunc_spec in Hb. simpl in Hb.
  assert (tables s = [[]; []]) as Ht by (unfold tables; rewrite Hs; simpl; by rewrite Hg).
  split; [|split; [|done]].
  - split; [by rewrite Hb|unfold cur; by rewrite Hs|rewrite Hb; by left].
  - split; rewrite ?Ht.
    + repeat constructor; by intros y v ?%not_elem_of_nil.
    + simpl. constructor.
    + repeat constructor.
    + intros r b1 k1 i1 b2 k2 i2. rewrite Hb. intros ->%list_elem_of_singleton ->%list_elem_of_singleton. by rewrite Hi.
Qed.
Lemma start_here F e s g : scopes s = [addChildScope e g; g] → vartable g = [] → Insts (fn s) e = [] →
  here Pkgname F e s e [[]; []] [∅; ∅] ∅ ∅.
Proof.
  intros Hs Hg Hi. split.
  - unfold tables. rewrite Hs. simpl. rewrite Hg. split.
    + repeat constructor; intros x d Hx; by rewrite lookup_empty in Hx.
    + simpl. rewrite dom_empty_L. set_solver.
  - unfold done_at. rewrite decide_True, Hi by done. split.
    + by intros r tp (i & ?%not_elem_of_nil & _).
    + by intros r1 t1 r2 t2 p (i & ?%not_elem_of_nil & _).
    + by intros r t1 t2 (i & ?%not_elem_of_nil & _).
Qed.
Lemma param_types (ps : list (text * TypeNode)) ts ws (args : list Z) : Forall2 type_is ps.*2 ts → mapM (λ p, width_of p.2) ps = Some ws → length args = length ws →
  Forall2 (λ (p : text * type) (wz : Z * Z), p.2 = IntType wz.1) (zip ps.*1 ts) (zip ws args).
Proof.
  revert ts ws args. induction ps as [|[x tn] ps IH]; intros ts ws args Hts Hws Hlen; simpl in *.
  - injection Hws as <-. inversion Hts; subst. constructor.
  - inversion Hts as [|? tp ? ts' Htp Hts']; subst. destruct (width_of tn) as [w|] eqn:Hw; [|done]. simpl in Hws.
    destruct (mapM _ ps) as [ws'|] eqn:Hm; [|done]. injection Hws as <-. destruct args as [|z args]; [done|]. simpl in *.
    constructor; [by apply Htp|]. apply IH; [done|done|lia].
Qed.
Lemma zip_some (ws args : list Z) : prod_map id Some <$> zip ws args = zip ws (Some <$> args).
Proof. revert args. induction ws as [|w ws IH]; intros [|a args]; try done. simpl. by rewrite IH. Qed.

(** The code of a function with a body [ch] of the handled shape. *)
Lemma body_runs n s F s' g (args : list Z) fuel (v : option (Z * Z)) ch t' ws r l p q ev :
  scopes s = [g] → vartable g = [] → runs (FuncNode_calc Pkgname order n) s F s' →
  Statements n = SLNode ch → NoDup (Params n).*1 → Forall (λ x, plain x = true) (Params n).*1 →
  children_ok node_ok false [reverse (Params n).*1; []] ch = Some t' → ends leaves ch = true →
  widths n = Some ws → length args = length ws → RetType_ n = BasicTypeNode l [] 0 p q → typedic l = Some r →
  exec_list (exec r fuel) [list_to_map (zip (Params n).*1 (zip ws (Some <$> args))); ∅] ch = Some (OReturn v, ev) →
  ∃ k, run_func F (arg_vals n args) k = Some (Some (ret_val v)).
Proof.
  intros Hs Hg Hr Hst Hnd Hpl Hok Hends Hws Hlen Hret Htr Hex.
  destruct (FuncNode_runs Pkgname order n s F s' g Hs Hr) as (ts & tp & ident & e & s0 & s1 & s2 & Hts & Htp & Hnb & Hs0 & Hbp & Hbody & ->).
  destruct (start_good _ _ _ Hnb Hs0 Hg) as (P0 & G0 & Hi0 & Hb0).
  assert (tp = r) as ->.
  { destruct Htp as [Htp _]. rewrite Hret in Htp. simpl in Htp. rewrite Htr in Htp. by injection Htp. }
  destruct (proj2 (steady_bind_params Pkgname 0 (zip (Params n).*1 ts)) e s0 e tt s1 P0 Hbp) as (F1 & _ & _). pose proof (fr_point _ _ _ _ _ F1) as P1.
  destruct (proj2 (framed_Node Pkgname ident (Params n).*1 r order (Statements n)) e s1 e tt s2 P1 Hbody) as [B2 F2].
  pose proof (fr_ext _ _ _ _ _ F1) as X1. pose proof (fr_ext _ _ _ _ _ F2) as X2.
  assert (uniq (fn s2)) as HF by (apply (ex_uniq _ _ _ _ X2), (ex_uniq _ _ _ _ X1), G0).
  assert (e ∈ Blocks (fn s2)) as He by (eapply ext_in; [exact X2|apply P1]).
  assert (length ts = length ws) as Hlts.
  { apply Forall2_length in Hts. unfold widths in Hws. apply length_mapM in Hws. rewrite length_fmap in Hts. lia. }
  assert ((zip (Params n).*1 ts).*1 = (Params n).*1) as Hfst.
  { apply fst_zip. rewrite length_fmap. apply Forall2_length in Hts. rewrite length_fmap in Hts. lia. }
  assert (head (Blocks (fn s2)) = Some e) as Hhead by apply (fr_point _ _ _ _ _ F2).
  destruct (params_run Pkgname (fn s2) (arg_vals n args) e HF He (zip (Params n).*1 ts) 0 s0 s1 [] [[]] (zip ws args) ∅ [∅] ∅ ∅ (λ b, b = e))
    as (ρ1 & m1 & Hr1 & _ & G1 & Htl & Hh1); try done; rewrite ?Hfst; try done.
  { intros x _ ?%not_elem_of_nil. done. }
  { by apply (start_here _ _ _ g). }
  { by apply param_types. }
  { intros j wz Hj. unfold arg_vals. rewrite Hws. apply lookup_zip_with_Some. apply lookup_zip_with_Some in Hj as (w & z & -> & Hw & Hz). by exists w, z. }
  rewrite Hfst in Hh1, G1. rewrite app_nil_r, zip_some, (right_id_L ∅ (∪)) in Hh1. rewrite app_nil_r in G1.
  rewrite Hst in Hbody.
  apply runs_SLNode in Hbody as (h & s1' & Hh & Hch). destruct (proj2 (steady_heap_table h) e s1 e tt s1' P1 Hh) as (Fh & _ & _).
  apply runs_scope_mod in Hh as (Hfh & sc & sl & Hsc & Hsc'). assert (tables s1' = tables s1) as Htab by (unfold tables; by rewrite Hsc, Hsc').
  destruct (list_sim Pkgname ident (Params n).*1 r order (fn s2) (arg_vals n args) e fuel (sim_node Pkgname ident (Params n).*1 r order (fn s2) (arg_vals n args) e HF He fuel)
    ch false _ t' s1' e s2 (λ _, False) 0 0 [list_to_map (zip (Params n).*1 (zip ws (Some <$> args))); ∅] (OReturn v) ev ρ1 m1 Hok) as (σ & Hr2 & Hσ); try done.
  { apply Fh. } { eapply good_ext; [exact G1|exact P1|apply Fh|done]. } { apply ext_refl. }
  { by intros b Hb. }
  { destruct Hh1 as [R1 Hp1]. split; [by rewrite Htab|by rewrite Hfh]. }
  rewrite Hfh in Hr2. simpl in Hσ. unfold run_func, start. rewrite Hhead. simpl.
  destruct (run_star (fn s2) (arg_vals n args) (mk_state e 0 ∅ ∅) σ 1) as [k Hk].
  { rewrite Hi0 in Hr1. etrans; [exact Hr1|exact Hr2]. }
  exists (k + 1). rewrite Hk. simpl. by rewrite Hσ.
Qed.

(** C2. The generated code of a function does what the function means: when the
    code of a function of the handled shape is generated without an error, a
    call that returns a value by the meaning of its statements ends, and returns
    that value. *)
Theorem codegen_correct n s F s' g args fuel v :
  scopes s = [g] → vartable g = [] → FuncNode_calc Pkgname order n s = (Ok F, s') → errn s' = errn s → func_ok n = true →
  exec_func fuel n args = Some v → ∃ k, run_func F (arg_vals n args) k = Some (Some (ret_val v)).
Proof.
  intros Hs Hg Hr Herr (ch & t' & Hst & Hnd & Hpl & Hok & Hends)%func_ok_inv (ws & r & l & p & q & ev & Hws & Hlen & Hret & Htr & Hex)%exec_func_inv.
  rewrite Hst in Hex. destruct fuel as [|fuel]; [done|]. by eapply body_runs.
Qed.
End correct.

Lemma codegen_correct_witness : ∃ F, demo_code demo_sum = Some F ∧ func_ok demo_sum = true ∧
  ∃ k, run_func F [VInt 64 5] k = Some (Some (Some (VInt 64 7))).
Proof.
  eexists. split; [by vm_compute|]. split; [by vm_compute|].
  apply (codegen_correct demo_pkg elements demo_sum demo_start _ (demo_gen demo_sum).2 demo_global [5%Z] 100 (Some (64%Z, 7%Z)));
    [done|done|by vm_compute|by vm_compute|by vm_compute|by vm_compute].
Defined.
