(* ===== verification/CodegenExact.v ===== *)
(** * The code generator: arithmetic without overflow

    The numbers of the source are integers; those of the generated code have
    the width of the widest operand.  [exact] evaluates an expression on
    integers, as long as every number on the way is one that its width holds
    as a natural number below the sign. *)
From S2P Require Import Prelude Lexer Ast Escape Ir IrInst Codegen CodegenSem CodegenDemo CodegenFrame CodegenExp CodegenExt CodegenPaths CodegenNodes CodegenGood CodegenEnv CodegenRun CodegenSim CodegenIf CodegenFor CodegenFunc CodegenTheorems.
#[local] Open Scope Z_scope.

(** The numbers of a width; truth values have width 1. *)
Definition fits (w z : Z) : bool := (0 <=? z) && if w =? 1 then z <=? 1 else z <? 2 ^ (w - 1).
Definition fit (w z : Z) : option (Z * Z) := if fits w z then Some (w, z) else None.

Definition exact_bin (op : binop) (w a b : Z) : option Z :=
  match op with
  | Add => Some (a + b)
  | Sub => Some (a - b)
  | Mul => Some (a * b)
  | SDiv => if b =? 0 then None else Some (a / b)
  | SRem => if b =? 0 then None else Some (a `mod` b)
  | Shl => if b <? w then Some (a * 2 ^ b) else None
  | AShr => if b <? w then Some (a / 2 ^ b) else None
  | And => Some (Z.land a b)
  | Or => Some (Z.lor a b)
  | Xor => Some (Z.lxor a b)
  end.
Definition exact_cmp (p : ipred) (a b : Z) : bool :=
  match p with
  | IPredEQ => a =? b
  | IPredNE => negb (a =? b)
  | IPredSGT => b <? a
  | IPredSGE => b <=? a
  | IPredSLT => a <? b
  | IPredSLE => a <=? b
  end.

Fixpoint exact (ρ : env) (e : ExpNode) : option (Z * Z) :=
  match e with
  | NumNode (IntVal w z) => fit w z
  | BoolConstNode b => Some (1, Z.b2z b)
  | VarExp b => '(w, z) ← eval_var ρ b; fit w z
  | UnaryNode op c => if op =? TYPE_PLUS then exact ρ c else None
  | BinNode op l r =>
      o ← arith_op op;
      '(wl, a) ← exact ρ l; '(wr, b) ← exact ρ r;
      w ← join wl wr;
      if w =? 1 then None else z ← exact_bin o w a b; fit w z
  | CompareNode op l r =>
      p ← comparedic op;
      '(wl, a) ← exact ρ l; '(wr, b) ← exact ρ r;
      w ← join wl wr;
      if w =? 1 then None else Some (1, Z.b2z (exact_cmp p a b))
  | BoolExpNode op l r =>
      '(wl, a) ← exact ρ l; '(wr, b) ← exact ρ r;
      if (wl =? 1) && (wr =? 1) then Some (1, if op =? TYPE_AND then Z.b2z ((a =? 1) && (b =? 1)) else Z.b2z ((a =? 1) || (b =? 1))) else None
  | NotNode e => '(w, a) ← exact ρ e; if w =? 1 then Some (1, 1 - a) else None
  | _ => None
  end.

Lemma fit_Some w z v : fit w z = Some v → v = (w, z) ∧ fits w z = true.
Proof. unfold fit. destruct (fits w z); [|done]. by intros [= <-]. Qed.
Lemma fits_wrap w z : fits w z = true → wrap w z = z.
Proof.
  unfold fits. rewrite andb_true_iff, Z.leb_le. intros [H0 H1]. apply wrap_small. destruct (w =? 1) eqn:Hw.
  - apply Z.eqb_eq in Hw as ->. apply Z.leb_le in H1. lia.
  - apply Z.ltb_lt in H1. pose proof (Z.pow_le_mono_r 2 (w - 1) w). lia.
Qed.
Lemma fits_join wl wr w a b : fits wl a = true → fits wr b = true → join wl wr = Some w → w ≠ 1 →
  (0 ≤ a < 2 ^ (w - 1)) ∧ (0 ≤ b < 2 ^ (w - 1)).
Proof.
  unfold fits, join. rewrite !andb_true_iff, !Z.leb_le. intros [Ha Ha'] [Hb Hb'] Hj Hw.
  destruct ((wl =? 1) || (wr =? 1)) eqn:E.
  { destruct (wl =? wr) eqn:E'; [|done]. apply Z.eqb_eq in E' as ->. injection Hj as ->. rewrite orb_diag in E. by apply Z.eqb_eq in E. }
  apply orb_false_iff in E as [E1 E2]. rewrite E1 in Ha'. rewrite E2 in Hb'. apply Z.ltb_lt in Ha', Hb'. injection Hj as <-.
  pose proof (Z.pow_le_mono_r 2 (wl - 1) (8 `max` (wl `max` wr) - 1)). pose proof (Z.pow_le_mono_r 2 (wr - 1) (8 `max` (wl `max` wr) - 1)). lia.
Qed.
Lemma signed_small w z : z < 2 ^ (w - 1) → signed w z = z.
Proof. intros Hz. unfold signed. by rewrite (proj2 (Z.ltb_lt _ _) Hz). Qed.
Lemma exact_bin_correct o w a b z : 0 ≤ a < 2 ^ (w - 1) → 0 ≤ b < 2 ^ (w - 1) → w ≠ 1 → exact_bin o w a b = Some z → fits w z = true → bin_int o w a b = Some z.
Proof.
  intros Ha Hb Hw Hz Hf. pose proof (fits_wrap _ _ Hf) as Hwr. assert (0 ≤ w - 1) as Hw0.
  { destruct (decide (0 ≤ w - 1)) as [|Hn]; [done|]. rewrite Z.pow_neg_r in Ha; lia. }
  pose proof (Z.pow_pos_nonneg 2 (w - 1) ltac:(lia) Hw0).
  assert ((signed w a =? - 2 ^ (w - 1)) = false) as Hs by (rewrite signed_small by lia; lia).
  destruct o; simpl in *; rewrite ?Hs, ?andb_false_l, ?orb_false_r; rewrite ?signed_small by lia.
  all: try (destruct (b =? 0) eqn:E; [done|]); try (destruct (b <? w); [|done]); injection Hz as <-; try (by rewrite Hwr); try done.
  - rewrite Z.quot_div_nonneg, Hwr by lia. done.
  - rewrite Z.rem_mod_nonneg, Hwr by lia. done.
  - rewrite Z.shiftl_mul_pow2, Hwr by lia. done.
  - rewrite Z.shiftr_div_pow2, Hwr by lia. done.
Qed.
Lemma exact_cmp_correct p w a b : a < 2 ^ (w - 1) → b < 2 ^ (w - 1) → icmp_int p w a b = exact_cmp p a b.
Proof. intros Ha Hb. destruct p; simpl; by rewrite ?(signed_small w a), ?(signed_small w b). Qed.

Lemma fits_bool b : fits 1 (Z.b2z b) = true.
Proof. by destruct b. Qed.
Lemma fits_bit a : fits 1 a = true → a = 0 ∨ a = 1.
Proof. unfold fits. simpl. lia. Qed.

(** The code's arithmetic agrees with the integers'. *)
Lemma exact_eval ρ e : ∀ w z, exact ρ e = Some (w, z) → eval ρ e = Some (w, z) ∧ fits w z = true.
Proof.
  induction e; intros w' z' He; try done; cbn [exact eval] in *.
  - destruct (arith_op Op) as [o|] eqn:Ho; [|done]. simpl in He.
    destruct (exact ρ e1) as [[wl a]|]; [|done]. destruct (exact ρ e2) as [[wr b]|]; [|done]. simpl in He.
    destruct (IHe1 _ _ eq_refl) as [-> Ha], (IHe2 _ _ eq_refl) as [-> Hb]. simpl.
    destruct (join wl wr) as [w|] eqn:Hj; [|done]. simpl in He. destruct (w =? 1) eqn:Hw; [done|]. apply Z.eqb_neq in Hw.
    destruct (exact_bin o w a b) as [z|] eqn:Hz; [|done]. apply fit_Some in He as [[= -> ->] Hf].
    destruct (fits_join _ _ _ _ _ Ha Hb Hj Hw) as [Ha' Hb']. simpl. rewrite (exact_bin_correct _ _ _ _ _ Ha' Hb' Hw Hz Hf).
    destruct (Op =? TYPE_ASSIGN) eqn:Hop; [|done]. by apply Z.eqb_eq in Hop as ->.
  - destruct Val as [w z|]; [|done]. apply fit_Some in He as [[= -> ->] Hf]. by rewrite fits_wrap.
  - destruct (Op =? TYPE_PLUS); [|done]. by apply IHe.
  - destruct (eval_var ρ b) as [[w z]|]; [|done]. by apply fit_Some in He as [[= -> ->] Hf].
  - injection He as <- <-. split; [done|apply fits_bool].
  - destruct (comparedic Op) as [o|]; [|done]. simpl in He.
    destruct (exact ρ e1) as [[wl a]|]; [|done]. destruct (exact ρ e2) as [[wr b]|]; [|done]. simpl in He.
    destruct (IHe1 _ _ eq_refl) as [-> Ha], (IHe2 _ _ eq_refl) as [-> Hb]. simpl.
    destruct (join wl wr) as [w|] eqn:Hj; [|done]. simpl in He. destruct (w =? 1) eqn:Hw; [done|]. apply Z.eqb_neq in Hw.
    destruct (fits_join _ _ _ _ _ Ha Hb Hj Hw). injection He as <- <-. simpl. rewrite exact_cmp_correct by lia. split; [done|apply fits_bool].
  - destruct (exact ρ e1) as [[wl a]|]; [|done]. destruct (exact ρ e2) as [[wr b]|]; [|done]. simpl in He.
    destruct (IHe1 _ _ eq_refl) as [-> Ha], (IHe2 _ _ eq_refl) as [-> Hb]. simpl.
    destruct (wl =? 1) eqn:Hl; [|done]. destruct (wr =? 1) eqn:Hr; [|done]. simpl in He. apply Z.eqb_eq in Hl as ->. apply Z.eqb_eq in Hr as ->.
    destruct (fits_bit _ Ha) as [-> | ->], (fits_bit _ Hb) as [-> | ->]; destruct (Op =? TYPE_AND); by injection He as <- <-.
  - destruct (exact ρ e) as [[w a]|]; [|done]. simpl in He. destruct (IHe _ _ eq_refl) as [-> Ha]. simpl.
    destruct (w =? 1) eqn:Hw; [|done]. apply Z.eqb_eq in Hw as ->. destruct (fits_bit _ Ha) as [-> | ->]; by injection He as <- <-.
Qed.

Section exact.
Context `{Llir} (Pkgname : text) (order : gset text → list text).

Lemma func_ok_return ps id t e : NoDup ps.*1 → forallb plain ps.*1 = true → func_ok (mk_FuncNode ps id t (SLNode [RetNode (Some e)])) = true.
Proof. intros Hnd Hpl. unfold func_ok. simpl. rewrite Hpl, bool_decide_eq_true_2 by done. done. Qed.

Definition return_func ps id l p q e : FuncNode := mk_FuncNode ps id (BasicTypeNode l [] 0 p q) (SLNode [RetNode (Some e)]).
Lemma return_runs ps id e l p q rw s F s' g (args ws : list Z) w z :
  scopes s = [g] → vartable g = [] → FuncNode_calc Pkgname order (return_func ps id l p q e) s = (Ok F, s') → errn s' = errn s →
  typedic l = Some (IntType rw) → NoDup ps.*1 → forallb plain ps.*1 = true →
  mapM (λ p, width_of p.2) ps = Some ws → length args = length ws →
  eval [list_to_map (zip ps.*1 (zip ws (Some <$> args))); ∅] e = Some (w, z) → w ≤ rw →
  ∃ k, run_func F (zip_with VInt ws args) k = Some (Some (Some (VInt rw z))).
Proof.
  intros Hs Hg Hr Herr Hl Hnd Hpl Hws Hlen He Hw.
  set (n := return_func _ _ _ _ _ _) in Hr. destruct (func_ok_inv n) as (ch & t' & [= <-] & Hnd' & Hpl' & Hok & Hends); [by apply func_ok_return|].
  assert (widths n = Some ws) as Hws' by done.
  destruct (body_runs Pkgname order n s F s' g args 1 (Some (rw, z)) [RetNode (Some e)] t' ws (IntType rw) l p q
    [list_to_map (zip ps.*1 (zip ws (Some <$> args))); ∅]) as [k Hk]; try done.
  - simpl. rewrite He. simpl. by rewrite (proj2 (Z.leb_le w rw) Hw).
  - exists k. unfold arg_vals in Hk. by rewrite Hws' in Hk.
Qed.

(** C9. A function that returns an expression computes what the expression is
    in the integers, as long as no number leaves the range of its width. *)
Theorem return_exact ps id e l p q rw s F s' g (args ws : list Z) w z :
  scopes s = [g] → vartable g = [] → FuncNode_calc Pkgname order (return_func ps id l p q e) s = (Ok F, s') → errn s' = errn s →
  typedic l = Some (IntType rw) → NoDup ps.*1 → forallb plain ps.*1 = true →
  mapM (λ p, width_of p.2) ps = Some ws → length args = length ws →
  exact [list_to_map (zip ps.*1 (zip ws (Some <$> args))); ∅] e = Some (w, z) → w ≤ rw →
  ∃ k, run_func F (zip_with VInt ws args) k = Some (Some (Some (VInt rw z))).
Proof. intros Hs Hg Hr Herr Hl Hnd Hpl Hws Hlen [He _]%exact_eval Hw. by eapply return_runs. Qed.

(** A product of two literals below 128, or a literal below 128 with a minus
    sign, and the number the code returns for it. *)
Definition narrow (a b : Z) (e : ExpNode) (z : Z) : Prop :=
  (e = BinNode TYPE_MUL (NumNode (IntVal 8 a)) (NumNode (IntVal 8 b)) ∧ z = (a * b) `mod` 2 ^ 8) ∨
  (e = UnaryNode TYPE_SUB (NumNode (IntVal 8 a)) ∧ 0 < a ∧ z = 2 ^ 32 - a).

(** C33. Literals are computed with in the least width that holds them: the
    product of two that are below 128 is reduced modulo 256, and a negated one
    becomes 2^32 minus the number as an [int]. *)
Theorem narrow_literals id a b e p q s F s' g z :
  scopes s = [g] → vartable g = [] → FuncNode_calc Pkgname order (return_func [] id TYPE_RES_INT p q e) s = (Ok F, s') → errn s' = errn s →
  0 ≤ a < 128 → 0 ≤ b < 128 → narrow a b e z →
  ∃ k, run_func F [] k = Some (Some (Some (VInt 64 z))).
Proof.
  intros Hs Hg Hr Herr Ha Hb Hn.
  assert (∀ c, 0 ≤ c < 128 → wrap 8 c = c) as Hw by (intros; apply wrap_small; lia).
  destruct Hn as [[-> ->]|(-> & Ha0 & ->)].
  - eapply (return_runs [] id _ _ p q 64 s F s' g [] [] 8); try done; [by constructor|]. simpl. rewrite (Hw a), (Hw b) by lia. done.
  - eapply (return_runs [] id _ _ p q 64 s F s' g [] [] 32); try done; [by constructor|]. simpl.
    rewrite (wrap_small 32 a) by lia. do 2 f_equal. unfold wrap. symmetry. apply (Z.mod_unique_pos _ _ (-1)); lia.
Qed.
End exact.

Lemma return_exact_witness : ∃ F, demo_code (demo_return ["n"%string] demo_poly) = Some F ∧
  ∃ k, run_func F [VInt 64 5] k = Some (Some (Some (VInt 64 35))).
Proof.
  eexists. split; [by vm_compute|].
  apply (return_exact demo_pkg elements [(runes_of "n", demo_int)] (runes_of "f") demo_poly TYPE_RES_INT [] [] 64 demo_start _
    (demo_gen (demo_return ["n"%string] demo_poly)).2 demo_global [5] [64] 64 35);
    [done|done|by vm_compute|by vm_compute|done|apply (NoDup_singleton (runes_of "n"))|done|done|done|by vm_compute|lia].
Defined.
Lemma narrow_literals_witness : ∃ F, demo_code (demo_return [] demo_product) = Some F ∧
  ∃ k, run_func F [] k = Some (Some (Some (VInt 64 44))).
Proof.
  eexists. split; [by vm_compute|].
  apply (narrow_literals demo_pkg elements (runes_of "f") 100 3 demo_product [] [] demo_start _
    (demo_gen (demo_return [] demo_product)).2 demo_global 44);
    [done|done|by vm_compute|by vm_compute|lia|lia|by left].
Defined.
