(* ===== verification/CodegenFaults.v ===== *)
(** * The code generator: statements whose code does something else

    Functions outside of the shapes of CodegenSem.v, or whose numbers leave the
    range of their width: what the statements mean, and what the code that is
    generated for them without an error does. *)
From S2P Require Import Prelude Lexer Ast Escape Ir IrInst Codegen CodegenSem CodegenDemo CodegenExp CodegenRun.
#[local] Open Scope Z_scope.

(** An [if] at the end of the body of an [if]. *)
Definition nested_if : FuncNode := demo_func [] "{
  x := 1
  if true {
  }
  if true {
    if true {
      x = 2
    }
  }
  return x
}".
(** Two loops with the same variable. *)
Definition two_loops : FuncNode := demo_func ["n"%string] "{
  s := 0
  for i := 0; i < n; i = i + 1 {
    s = s + i
  }
  for i := 0; i < n; i = i + 1 {
    s = s + i
  }
  return s
}".
(** A return at the end of the body of a loop. *)
Definition return_in_loop : FuncNode := demo_func ["n"%string] "{
  for i := 0; i < n; i = i + 1 {
    return i
  }
  return 99
}".
(** A break behind an inner loop. *)
Definition break_behind_loop : FuncNode := demo_func ["n"%string] "{
  k := 0
  for i := 0; i < n; i = i + 1 {
    for j := 0; j < 1; j = j + 1 {
    }
    k = k + 1
    if k == 2 {
      break
    }
  }
  return k
}".

(** What a call means. *)
Definition means (f : FuncNode) (args : list Z) : option (option (Z * Z)) := exec_func 100 f args.

(** C10. An [if] that ends the body of an [if] never ends: its end jumps back to
    the block in front of the outer one.  The function means to return 2, its
    code runs for ever. *)
Theorem nested_if_never_ends : func_ok nested_if = false ∧ means nested_if [] = Some (Some (64, 2)) ∧
  ∃ F, demo_code nested_if = Some F ∧ ∀ fuel, run_func F [] fuel = Some None.
Proof.
  split; [done|]. split; [by vm_compute|]. eexists. split; [by vm_compute|].
  eapply (demo_loops _ _ _ 19 _ 6); [vm_compute; reflexivity..].
Qed.

(** ** Runs of the code of a loop *)

Section runs.
Context `{Llir} (F : Func) (args : list val).
Implicit Types (ρ m : gmap nat val).
#[local] Notation next := (next_step F args).
Lemma run_insts (b : nat) cs ρ m ρ' m' : Insts F b = cs → exec_insts args cs ρ m = Some (ρ', m') →
  rtc next (mk_state b 0 ρ m) (mk_state b (length cs) ρ' m').
Proof. intros Hc Hx. apply (run_code F args b 0 cs); [|done]. intros i x Hi. by rewrite Hc. Qed.
Lemma run_br (b b' : nat) cs ρ m ρ' m' : Insts F b = cs → Term F b = Some (Br b') → exec_insts args cs ρ m = Some (ρ', m') →
  rtc next (mk_state b 0 ρ m) (mk_state b' 0 ρ' m').
Proof.
  intros Hc Ht Hx. eapply rtc_r; [by eapply run_insts|]. unfold next_step, step. simpl. rewrite Hc.
  by rewrite lookup_ge_None_2, Ht.
Qed.
Lemma run_cond (b r t f : nat) cs ρ m ρ' m' c : Insts F b = cs → Term F b = Some (CondBr (Inst r (IntType 1)) t f) →
  exec_insts args cs ρ m = Some (ρ', m') → ρ' !! r = Some (VInt 1 (Z.b2z c)) →
  rtc next (mk_state b 0 ρ m) (mk_state (if c then t else f) 0 ρ' m').
Proof.
  intros Hc Ht Hx Hr. eapply rtc_r; [by eapply run_insts|]. unfold next_step, step. simpl. rewrite Hc.
  rewrite lookup_ge_None_2, Ht by done. simpl. rewrite Hr. by destruct c.
Qed.
(** A run to the end of a block that returns. *)
Lemma run_ret s (b r : nat) cs ρ m ρ' m' z : rtc next s (mk_state b 0 ρ m) → Insts F b = cs → Term F b = Some (Ret (Some (Inst r (IntType 64)))) →
  exec_insts args cs ρ m = Some (ρ', m') → ρ' !! r = Some (VInt 64 z) → ∃ k, run F args k s = Some (Some (Some (VInt 64 z))).
Proof.
  intros Hs Hc Ht Hx Hr. destruct (run_star F args s (mk_state b (length cs) ρ' m') 1) as [k Hk]; [etrans; [exact Hs|by eapply run_insts]|].
  exists (k + 1)%nat. rewrite Hk. simpl. unfold step. simpl. rewrite Hc, lookup_ge_None_2, Ht by done. simpl. by rewrite Hr.
Qed.
(** A loop that counts to [n] in the block [b]. *)
Lemma run_counting (b e : nat) (n : Z) (inv : Z → gmap nat val → gmap nat val → Prop) :
  (∀ i ρ m, 0 ≤ i < n → inv i ρ m → ∃ ρ' m', rtc next (mk_state b 0 ρ m) (mk_state (if i + 1 <? n then b else e) 0 ρ' m') ∧ inv (i + 1) ρ' m') →
  ∀ i ρ m, 0 ≤ i < n → inv i ρ m → ∃ ρ' m', rtc next (mk_state b 0 ρ m) (mk_state e 0 ρ' m') ∧ inv n ρ' m'.
Proof.
  intros Hstep i ρ m Hi. remember (Z.to_nat (n - i)) as k eqn:Hk. revert i ρ m Hi Hk. induction k as [|k IH]; intros i ρ m Hi Hk Hinv; [lia|].
  destruct (Hstep i ρ m Hi Hinv) as (ρ1 & m1 & H1 & Hinv1). destruct (Z.ltb_spec (i + 1) n) as [Hlt|Hge].
  - destruct (IH (i + 1) ρ1 m1) as (ρ2 & m2 & H2 & Hinv2); [lia|lia|done|]. exists ρ2, m2. split; [by etrans|done].
  - assert (i + 1 = n) as Heq by lia. rewrite Heq in Hinv1. by exists ρ1, m1.
Qed.
End runs.
Lemma slt_small a b : 0 ≤ a < 2 ^ 63 → 0 ≤ b < 2 ^ 63 → icmp_int IPredSLT 64 a b = (a <? b).
Proof.
  intros Ha Hb. unfold icmp_int, signed. change (64 - 1) with 63. by rewrite (proj2 (Z.ltb_lt _ _) (proj2 Ha)), (proj2 (Z.ltb_lt _ _) (proj2 Hb)).
Qed.
(** Computes a block from what is known of the registers and the memory. *)
Ltac ir_look := repeat (first
  [rewrite lookup_insert_eq|rewrite lookup_insert_ne by done|rewrite decide_True by done
  |match goal with H : ?x !! ?k = Some _ |- context [?x !! ?k] => rewrite H end]; cbn [mbind option_bind fmap option_fmap option_map]).
Ltac ir_exec := try match goal with |- context [Insts ?F ?b] => let c := eval vm_compute in (Insts F b) in change (Insts F b) with c end;
  cbn [exec_insts]; repeat (cbn [exec_insts exec_inst operand Type_ exec_bin exec_icmp bin_int mbind option_bind fmap option_fmap option_map]; ir_look); try reflexivity.

(** ** What loops mean *)

Section means.
Context (RetType : type).
Implicit Types (body st d : Node) (ex : env → Node → option (outcome * env)) (c b : ExpNode) (a : option Node).
#[local] Notation exec := (exec RetType).
Lemma exec_cons ex ρ n ρ' ch : ex ρ n = Some (ONormal, ρ') → exec_list ex ρ (n :: ch) = exec_list ex ρ' ch.
Proof. intros Hn. simpl. by rewrite Hn. Qed.
Lemma exec_for k ρ b d x a st ρ1 o ρ2 : exec k ρ d = Some (ONormal, ρ1) → loop_var (Some d) = Some x →
  exec_loop (exec k) k (Some b) a st ρ1 = Some (o, ρ2) → exec (S k) ρ (ForNode (Some b) (Some d) a st) = Some (o, del_top x ρ2).
Proof. intros Hd Hx Hl. cbn [CodegenSem.exec]. rewrite Hd. cbn [mbind option_bind]. rewrite Hl. cbn [mbind option_bind]. by rewrite Hx. Qed.
Lemma loop_turn ex k c a body ρ ρ1 ρ2 : eval_bool ρ c = Some true → exec_block ex ρ body = Some (ONormal, ρ1) →
  exec_opt_block ex ρ1 a = Some ρ2 → exec_loop ex (S k) (Some c) a body ρ = exec_loop ex k (Some c) a body ρ2.
Proof. intros Hc Hb Ha. cbn [exec_loop]. rewrite Hc. cbn [mbind option_bind]. rewrite Hb. cbn [mbind option_bind]. by rewrite Ha. Qed.
Lemma loop_stop ex k c a body ρ : eval_bool ρ c = Some false → exec_loop ex (S k) (Some c) a body ρ = Some (ONormal, ρ).
Proof. intros Hc. cbn [exec_loop]. by rewrite Hc. Qed.
Lemma loop_break ex k c a body ρ ρ1 : eval_bool ρ c = Some true → exec_block ex ρ body = Some (OBreak, ρ1) →
  exec_loop ex (S k) (Some c) a body ρ = Some (ONormal, ρ1).
Proof. intros Hc Hb. cbn [exec_loop]. rewrite Hc. cbn [mbind option_bind]. by rewrite Hb. Qed.
Lemma loop_return ex k c a body ρ ρ1 v : eval_bool ρ c = Some true → exec_block ex ρ body = Some (OReturn v, ρ1) →
  exec_loop ex (S k) (Some c) a body ρ = Some (OReturn v, ρ1).
Proof. intros Hc Hb. cbn [exec_loop]. rewrite Hc. cbn [mbind option_bind]. by rewrite Hb. Qed.
(** A loop that counts to [n]; [E i] are the variables in front of its turn [i]. *)
Lemma loop_counting ex c a body (n : Z) (E E' : Z → env) :
  (∀ i, 0 ≤ i < n → eval_bool (E i) c = Some true ∧ exec_block ex (E i) body = Some (ONormal, E' i) ∧ exec_opt_block ex (E' i) a = Some (E (i + 1))) →
  eval_bool (E n) c = Some false → ∀ k i, 0 ≤ i ≤ n → (Z.to_nat (n - i) < k)%nat → exec_loop ex k (Some c) a body (E i) = Some (ONormal, E n).
Proof.
  intros Hstep Hend k. induction k as [|k IH]; intros i Hi Hk; [lia|]. destruct (decide (i = n)) as [->|Hne]; [by apply loop_stop|].
  destruct (Hstep i) as (Hc & Hb & Ha); [lia|]. rewrite (loop_turn ex k c a body (E i) (E' i) (E (i + 1))) by done. apply IH; lia.
Qed.
End means.

(** ** What the code returns

    *** A return in a loop *)
Definition ret_code : Func := Eval vm_compute in default [] (demo_code return_in_loop).
Record ret_inv (n i : Z) (ρ m : gmap nat val) : Prop := mk_ret_inv {
  ri_n : ρ !! 1%nat = Some (VPtr 0); ri_i : ρ !! 3%nat = Some (VPtr 1);
  ri_mn : m !! 0%nat = Some (VInt 64 n); ri_mi : m !! 1%nat = Some (VInt 64 i) }.
Ltac ir_known := split; ir_look; try done.
Lemma ret_returns n : 1 ≤ n < 2 ^ 31 → ∃ k, run_func ret_code [VInt 64 n] k = Some (Some (Some (VInt 64 99))).
Proof.
  intros Hn. assert (∃ ρ m, rtc (next_step ret_code [VInt 64 n]) (mk_state 0 0 ∅ ∅) (mk_state 2 0 ρ m) ∧ ret_inv n 0 ρ m) as (ρ0 & m0 & H0 & Hinv).
  { eexists _, _. split.
    - replace 2%nat with (if 0 <? n then 2%nat else 3%nat) by (by rewrite (proj2 (Z.ltb_lt 0 n)) by lia).
      eapply run_cond; [reflexivity..|ir_exec|]. ir_look. change (wrap 8 0) with 0. by rewrite slt_small by lia.
    - ir_known. }
  destruct (run_counting ret_code [VInt 64 n] 2 3 n (ret_inv n)) with (i := 0) (ρ := ρ0) (m := m0) as (ρ1 & m1 & H1 & _); [|lia|done|].
  - intros i ρ m Hi []. eexists _, _. split.
    + etrans; [eapply run_br; [reflexivity..|ir_exec]|]. eapply run_cond; [reflexivity..|ir_exec|].
      ir_look. change (wrap 8 1) with 1. rewrite (wrap_small 64 (i + 1)) by lia. by rewrite slt_small by lia.
    + ir_known. change (wrap 8 1) with 1. by rewrite wrap_small by lia.
  - eapply run_ret; [by etrans|reflexivity..|ir_exec|by ir_look].
Qed.

(** *** Two loops *)
Definition tri (i : Z) : Z := (i * (i - 1)) `div` 2.
Lemma tri_next i : tri (i + 1) = tri i + i.
Proof. unfold tri. replace ((i + 1) * (i + 1 - 1)) with (i * (i - 1) + i * 2) by lia. by rewrite Z.div_add by lia. Qed.
Lemma tri_range i : 0 ≤ i ≤ 2 ^ 31 → 0 ≤ tri i < 2 ^ 62.
Proof. intros Hi. unfold tri. split; [apply Z.div_pos; nia|apply Z.div_lt_upper_bound; nia]. Qed.
Definition two_code : Func := Eval vm_compute in default [] (demo_code two_loops).
Record two_inv (n i : Z) (ρ m : gmap nat val) : Prop := mk_two_inv {
  ti_n : ρ !! 1%nat = Some (VPtr 0); ti_s : ρ !! 3%nat = Some (VPtr 1); ti_i : ρ !! 6%nat = Some (VPtr 2); ti_j : ρ !! 25%nat = Some (VPtr 3);
  ti_mn : m !! 0%nat = Some (VInt 64 n); ti_ms : m !! 1%nat = Some (VInt 64 (tri i)); ti_mi : m !! 2%nat = Some (VInt 64 i); ti_mj : m !! 3%nat = Some VUndef }.
Lemma two_returns n : 2 ≤ n < 2 ^ 31 → ∃ k, run_func two_code [VInt 64 n] k = Some (Some (Some (VInt 64 (tri n)))).
Proof.
  intros Hn. assert (∃ ρ m, rtc (next_step two_code [VInt 64 n]) (mk_state 0 0 ∅ ∅) (mk_state 2 0 ρ m) ∧ two_inv n 0 ρ m) as (ρ0 & m0 & H0 & Hinv).
  { eexists _, _. split.
    - replace 2%nat with (if 0 <? n then 2%nat else 3%nat) by (by rewrite (proj2 (Z.ltb_lt 0 n)) by lia).
      eapply run_cond; [reflexivity..|ir_exec|]. ir_look. change (wrap 8 0) with 0. by rewrite slt_small by lia.
    - ir_known. }
  destruct (run_counting two_code [VInt 64 n] 2 3 n (two_inv n)) with (i := 0) (ρ := ρ0) (m := m0) as (ρ1 & m1 & H1 & []); [|lia|done|].
  - intros i ρ m Hi []. pose proof (tri_range i). pose proof (tri_range (i + 1)). pose proof (tri_next i). eexists _, _. split.
    + etrans; [eapply run_br; [reflexivity..|ir_exec]|]. eapply run_cond; [reflexivity..|ir_exec|].
      ir_look. change (wrap 8 1) with 1. rewrite (wrap_small 64 (i + 1)) by lia. by rewrite slt_small by lia.
    + ir_known. { rewrite wrap_small by lia. by rewrite tri_next. } change (wrap 8 1) with 1. by rewrite wrap_small by lia.
  - eapply (run_ret two_code _ _ 6 44); [etrans; [exact H0|etrans; [exact H1|]]|reflexivity|reflexivity| |].
    + eapply (run_cond _ _ 3 30 5 6 _ _ _ _ _ false); [reflexivity..|ir_exec|]. ir_look. rewrite slt_small by lia. by rewrite Z.ltb_irrefl.
    + ir_exec.
    + by ir_look.
Qed.

(** *** A break behind a loop *)
Definition break_code : Func := Eval vm_compute in default [] (demo_code break_behind_loop).
(** [k] in front of the turn [i] *)
Definition turns (i : Z) : Z := if i <? 2 then i else i + 1.
Record break_inv (n i : Z) (ρ m : gmap nat val) : Prop := mk_break_inv {
  bi_n : ρ !! 1%nat = Some (VPtr 0); bi_k : ρ !! 3%nat = Some (VPtr 1); bi_i : ρ !! 6%nat = Some (VPtr 2); bi_j : ρ !! 12%nat = Some (VPtr 3);
  bi_mn : m !! 0%nat = Some (VInt 64 n); bi_mk : m !! 1%nat = Some (VInt 64 (turns i)); bi_mi : m !! 2%nat = Some (VInt 64 i); bi_mj : ∃ v, m !! 3%nat = Some v }.
Lemma turns_hit i : 0 ≤ i → turns i + 1 = 2 → turns (i + 1) = 3.
Proof. unfold turns. destruct (Z.ltb_spec i 2), (Z.ltb_spec (i + 1) 2); lia. Qed.
Lemma turns_miss i : 0 ≤ i → turns i + 1 ≠ 2 → turns (i + 1) = turns i + 1.
Proof. unfold turns. destruct (Z.ltb_spec i 2), (Z.ltb_spec (i + 1) 2); lia. Qed.
Lemma eq64 a b : icmp_int IPredEQ 64 a b = (a =? b).
Proof. done. Qed.
Lemma break_returns n : 2 ≤ n < 2 ^ 31 → ∃ k, run_func break_code [VInt 64 n] k = Some (Some (Some (VInt 64 (n + 1)))).
Proof.
  intros Hn. assert (∃ ρ m, rtc (next_step break_code [VInt 64 n]) (mk_state 0 0 ∅ ∅) (mk_state 2 0 ρ m) ∧ break_inv n 0 ρ m) as (ρ0 & m0 & H0 & Hinv).
  { eexists _, _. split.
    - replace 2%nat with (if 0 <? n then 2%nat else 3%nat) by (by rewrite (proj2 (Z.ltb_lt 0 n)) by lia).
      eapply run_cond; [reflexivity..|ir_exec|]. ir_look. change (wrap 8 0) with 0. by rewrite slt_small by lia.
    - ir_known. by eexists. }
  destruct (run_counting break_code [VInt 64 n] 2 3 n (break_inv n)) with (i := 0) (ρ := ρ0) (m := m0) as (ρ1 & m1 & H1 & []); [|lia|done|].
  - intros i ρ m Hi [? ? ? ? ? ? ? [v ?]].
    set (t := turns i) in *. assert (turns i = t) as Ht by done. assert (0 ≤ t ≤ n) as Htn by (unfold turns in Ht; destruct (i <? 2); lia).
    destruct (decide (t + 1 = 2)) as [H2|H2].
    + eexists _, _. split.
      * etrans; [eapply (run_cond _ _ 2 17 5 6 _ _ _ _ _ true); [reflexivity..|ir_exec|by ir_look]|].
        etrans; [eapply run_br; [reflexivity..|ir_exec]|].
        etrans; [eapply (run_cond _ _ 4 25 5 6 _ _ _ _ _ false); [reflexivity..|ir_exec|by ir_look]|].
        etrans; [eapply (run_cond _ _ 6 33 7 8 _ _ _ _ _ true); [reflexivity..|ir_exec|ir_look; change (wrap 8 1) with 1; rewrite (wrap_small 64 (t + 1)), H2 by lia; done]|].
        etrans; [eapply (run_br _ _ 7 6); [reflexivity..|ir_exec]|].
        etrans; [eapply (run_cond _ _ 6 33 7 8 _ _ _ _ _ false); [reflexivity..|ir_exec|ir_look; change (wrap 8 1) with 1; rewrite (wrap_small 64 (t + 1)), H2 by lia; done]|].
        etrans; [eapply (run_br _ _ 8 1); [reflexivity..|ir_exec]|].
        eapply run_cond; [reflexivity..|ir_exec|].
        ir_look. change (wrap 8 1) with 1. rewrite (wrap_small 64 (i + 1)) by lia. by rewrite slt_small by lia.
      * ir_known; change (wrap 8 1) with 1.
        { rewrite (wrap_small 64 (t + 1)), H2, turns_hit by lia. done. }
        { by rewrite wrap_small by lia. } by eexists.
    + eexists _, _. split.
      * etrans; [eapply (run_cond _ _ 2 17 5 6 _ _ _ _ _ true); [reflexivity..|ir_exec|by ir_look]|].
        etrans; [eapply run_br; [reflexivity..|ir_exec]|].
        etrans; [eapply (run_cond _ _ 4 25 5 6 _ _ _ _ _ false); [reflexivity..|ir_exec|by ir_look]|].
        etrans; [eapply (run_cond _ _ 6 33 7 8 _ _ _ _ _ false); [reflexivity..|ir_exec|]|].
        { ir_look. change (wrap 8 1) with 1. change (wrap 8 2) with 2. rewrite (wrap_small 64 (t + 1)) by lia. by rewrite eq64, (proj2 (Z.eqb_neq _ _) H2). }
        etrans; [eapply (run_br _ _ 8 1); [reflexivity..|ir_exec]|].
        eapply run_cond; [reflexivity..|ir_exec|].
        ir_look. change (wrap 8 1) with 1. rewrite (wrap_small 64 (i + 1)) by lia. by rewrite slt_small by lia.
      * ir_known; change (wrap 8 1) with 1.
        { rewrite (wrap_small 64 (t + 1)), turns_miss by lia. done. }
        { by rewrite wrap_small by lia. } by eexists.
  - eapply (run_ret break_code _ _ 3 42); [by etrans|reflexivity..|ir_exec|]. ir_look. unfold turns. by rewrite (proj2 (Z.ltb_ge n 2)) by lia.
Qed.

(** ** What the functions mean *)

(** The statement [k] of a demo. *)
Definition nth_st (f : FuncNode) (k : nat) : Node := nth k (children_of (Statements f)) EmptyNode.
Definition demo_env (l : list (string * Z)) : env := [list_to_map ((λ '(x, z), (runes_of x, (64, Some z))) <$> l); ∅].
Definition two_loop (second : bool) : Node :=
  if second then ltac:(let t := eval vm_compute in (nth_st two_loops 5) in exact t) else ltac:(let t := eval vm_compute in (nth_st two_loops 3) in exact t).
(** Computes a statement on variables with known names. *)
Ltac env_exec := lazy -[icmp_int wrap Z.add tri].

Ltac less H := rewrite slt_small, (proj2 (Z.ltb_lt _ _) H) by lia; done.
Ltac not_less := rewrite slt_small, Z.ltb_irrefl by lia; done.
(** A turn of both loops of [two_loops]. *)
Lemma two_turn ex k second i n s0 : 0 ≤ i < n → n < 2 ^ 31 → 0 ≤ s0 < 2 ^ 62 → ex = exec (IntType 64) (S (S k)) →
  let E i := demo_env [("i", i); ("s", s0 + tri i); ("n", n)]%string in let E' := demo_env [("i", i); ("s", s0 + tri (i + 1)); ("n", n)]%string in
  match two_loop second with
  | ForNode (Some c) _ a body => eval_bool (E i) c = Some true ∧ exec_block ex (E i) body = Some (ONormal, E') ∧ exec_opt_block ex E' a = Some (E (i + 1))
  | _ => False
  end.
Proof.
  intros Hi Hn Hs -> E E'. pose proof (tri_range i). pose proof (tri_range (i + 1)). pose proof (tri_next i) as Ht. destruct second; cbn [two_loop]; (split; [|split;
    [ transitivity (Some (ONormal, demo_env [("i", i); ("s", wrap 64 (s0 + tri i + i)); ("n", n)]%string)); [by env_exec|];
      rewrite wrap_small, <- Z.add_assoc, <- Ht by lia; done
    | transitivity (Some (demo_env [("i", wrap 64 (i + wrap 8 1)); ("s", s0 + tri (i + 1)); ("n", n)]%string)); [by env_exec|];
      change (wrap 8 1) with 1; rewrite wrap_small by lia; done]]).
  all: transitivity (Some (Z.b2z (icmp_int IPredSLT 64 i n) =? 1)); [by env_exec|]; less (proj2 Hi).
Qed.
Lemma two_loop_exec (k : nat) second n s0 : 0 < n < 2 ^ 31 → 0 ≤ s0 < 2 ^ 62 → (Z.to_nat n + 10 < k)%nat →
  exec (IntType 64) k (demo_env [("s", s0); ("n", n)]%string) (two_loop second) = Some (ONormal, demo_env [("s", s0 + tri n); ("n", n)]%string).
Proof.
  intros Hn Hs Hk. destruct k as [|[|[|k]]]; [lia..|]. pose proof (λ i, two_turn (exec (IntType 64) (S (S k))) k second i n s0) as Hturn.
  set (E i := demo_env [("i", i); ("s", s0 + tri i); ("n", n)]%string).
  transitivity (Some (ONormal, del_top (runes_of "i") (E n))); [|unfold E; env_exec; done].
  destruct second; cbn [two_loop] in Hturn |- *;
    (eapply (exec_for _ (S (S k)) _ _ _ _ _ _ (E 0)); [unfold E; change (tri 0) with 0; rewrite Z.add_0_r; env_exec; reflexivity|reflexivity|];
     eapply (loop_counting _ _ _ _ n E (λ i, demo_env [("i", i); ("s", s0 + tri (i + 1)); ("n", n)]%string)); [intros i Hi; refine (Hturn i Hi _ _ _); done || lia| |lia|lia];
     transitivity (Some (Z.b2z (icmp_int IPredSLT 64 n n) =? 1)); [by env_exec|not_less]).
Qed.

(** A call of a demo of one argument. *)
Definition demo_one (f : FuncNode) : bool :=
  match Params f, RetType_ f with
  | [(x, BasicTypeNode r [] 0%nat _ _)], BasicTypeNode r' [] 0%nat _ _ =>
      bool_decide (x = runes_of "n" ∧ typedic r = Some (IntType 64) ∧ typedic r' = Some (IntType 64))
  | _, _ => false
  end.
Lemma demo_means f k n ch v ρ : demo_one f = true → Statements f = SLNode ch →
  exec_list (exec (IntType 64) k) (demo_env [("n"%string, n)]) ch = Some (OReturn v, ρ) → exec_func (S k) f [n] = Some v.
Proof.
  destruct f as [ps nm rt st]. unfold demo_one, exec_func. cbn [Params RetType_ Statements].
  destruct ps as [|[x [r ct l g p| | | |]] [|? ?]]; try done; destruct ct, l; try done.
  destruct rt as [r' ct l g' p'| | | |]; try done. destruct ct, l; try done.
  intros (-> & Hr & Hr')%bool_decide_eq_true -> He. cbn. rewrite Hr, Hr'. cbn.
  rewrite decide_True by done. change ([<[_:=(64, Some n)]> ∅; ∅]) with (demo_env [("n"%string, n)]). by rewrite He.
Qed.
Lemma exec_last ex ρ n ρ' v ch : ex ρ n = Some (OReturn v, ρ') → exec_list ex ρ (n :: ch) = Some (OReturn v, ρ').
Proof. intros Hn. simpl. by rewrite Hn. Qed.
Ltac next_st := etrans; [apply exec_cons; env_exec; reflexivity|].
Lemma tri_twice n : 0 ≤ n → tri n + tri n = n * (n - 1).
Proof.
  intros Hn. pattern n. apply natlike_ind; [done| |done]. clear. intros i Hi IH. unfold Z.succ. rewrite tri_next. lia.
Qed.
Lemma two_means n : 2 ≤ n < 2 ^ 31 → exec_func (20 + Z.to_nat n) two_loops [n] = Some (Some (64, n * (n - 1))).
Proof.
  intros Hn. pose proof (tri_range n).
  refine (demo_means two_loops (19 + Z.to_nat n) n ltac:(let t := eval vm_compute in (children_of (Statements two_loops)) in exact t) _ _ eq_refl ltac:(by vm_compute) _).
  next_st. etrans; [apply (exec_cons _ _ _ (demo_env [("s"%string, 0); ("n"%string, n)])); by env_exec|]. next_st.
  etrans; [apply exec_cons, (two_loop_exec _ false); lia|]. next_st. etrans; [apply exec_cons, (two_loop_exec _ true); lia|]. next_st.
  rewrite <- tri_twice by lia. 
  change (0 + tri n + tri n) with (tri n + tri n). apply exec_last. env_exec. done.
Qed.
(** Loops that end in their first turn. *)
Lemma ret_means n : 1 ≤ n < 2 ^ 31 → exec_func 100 return_in_loop [n] = Some (Some (64, 0)).
Proof.
  intros Hn. refine (demo_means return_in_loop 99 n ltac:(let t := eval vm_compute in (children_of (Statements return_in_loop)) in exact t) _ _ eq_refl ltac:(by vm_compute) _).
  next_st. apply exec_last. eapply (exec_for _ 98 _ _ _ _ _ _ (demo_env [("i", 0); ("n", n)]%string)); [env_exec; reflexivity|reflexivity|].
  eapply (loop_return _ 97); [|env_exec; reflexivity].
  transitivity (Some (Z.b2z (icmp_int IPredSLT 64 0 n) =? 1)); [by env_exec|]. rewrite slt_small, (proj2 (Z.ltb_lt _ _)) by lia. done.
Qed.
(** The variables in front of the turn [i], and the parts of a turn. *)
Lemma break_means n : 2 ≤ n < 2 ^ 31 → exec_func 100 break_behind_loop [n] = Some (Some (64, 2)).
Proof.
  intros Hn. set (E k i := demo_env [("i", i); ("k", k); ("n", n)]%string).
  assert (∀ i k, 0 ≤ i < n → eval_bool (E k i) (CompareNode 27 (VarExp (mk_VarBlockNode (runes_of "i") [] None 24)) (VarExp (mk_VarBlockNode (runes_of "n") [] None 28))) = Some true) as Hc.
  { intros i k Hi. transitivity (Some (Z.b2z (icmp_int IPredSLT 64 i n) =? 1)); [by env_exec|]. less (proj2 Hi). }
  refine (demo_means break_behind_loop 99 n ltac:(let t := eval vm_compute in (children_of (Statements break_behind_loop)) in exact t) _ _ eq_refl ltac:(by vm_compute) _).
  next_st. next_st. next_st.
  etrans; [eapply exec_cons, (exec_for _ 98 _ _ _ _ _ _ (E 0 0)); [env_exec; reflexivity|reflexivity|]|].
  - etrans; [eapply (loop_turn _ 97 _ _ _ _ (E 1 0) (E 1 1)); [by apply Hc; lia|vm_compute; reflexivity|vm_compute; reflexivity]|].
    eapply (loop_break _ 96 _ _ _ _ (E 2 1)); [apply Hc; lia|vm_compute; reflexivity].
  - etrans; [apply exec_cons; vm_compute; reflexivity|]. apply exec_last. vm_compute. done.
Qed.

(** C11. Three functions with loops outside of the handled shapes: for every
    [n] from 2 to 2^31 - 1, the code that is generated for them without an error
    returns something else than they mean.  The variable of a second loop with
    the same name is not set again, so that the second sum is missing; a return
    at the end of a body is replaced by the jump back, so that the loop runs to
    its end and 99 is returned for 0; a break behind an inner loop jumps to the
    end of the inner loop, so that [n + 1] is returned for 2. *)
Theorem loops_miscompiled (n : Z) : 2 ≤ n < 2 ^ 31 →
  Forall (λ '(f, m, r), func_ok f = false ∧ (∃ fuel, exec_func fuel f [n] = Some (Some (64, m))) ∧ m ≠ r ∧
      ∃ F, demo_code f = Some F ∧ ∃ k, run_func F [VInt 64 n] k = Some (Some (Some (VInt 64 r))))
    [(two_loops, n * (n - 1), (n * (n - 1)) `div` 2); (return_in_loop, 0, 99); (break_behind_loop, 2, n + 1)].
Proof.
  intros Hn. assert (0 < n * (n - 1)) as Hpos by nia. apply Forall_cons; split; [|apply Forall_cons; split; [|apply Forall_cons; split; [|done]]].
  - split; [by vm_compute|split; [|split]]; [eexists; by apply two_means|apply not_eq_sym, Z.lt_neq, Z.div_lt; lia|].
    exists two_code. split; [by vm_compute|]. by apply two_returns.
  - split; [by vm_compute|split; [|split]]; [eexists; apply ret_means; lia|lia|].
    exists ret_code. split; [by vm_compute|]. apply ret_returns. lia.
  - split; [by vm_compute|split; [|split]]; [eexists; by apply break_means|lia|].
    exists break_code. split; [by vm_compute|]. by apply break_returns.
Qed.
Lemma loops_miscompiled_witness : ∃ F, demo_code two_loops = Some F ∧ ∃ k, run_func F [VInt 64 5] k = Some (Some (Some (VInt 64 10))).
Proof. pose proof (loops_miscompiled 5 ltac:(lia)) as [(_ & _ & _ & H) _]%Forall_cons. exact H. Defined.
