(* ===== verification/Arrays.v ===== *)
(** * The memory of the runtime's containers

    Slices, strings and buffers of src/runtime keep their elements in blocks
    that the collector hands out.  A block is a list of elements of one type,
    a pointer is a block and the index of an element in it; [nil] and what is
    computed from it point to no block.  Sizes are in bytes, as the code has
    them, a multiple of the size of an element.  An access outside of a block
    fails. *)
From S2P Require Import Prelude.
#[local] Open Scope Z_scope.

(** ** Integers as the generated code computes them *)

(** [int32]; its extension by zeros to 64 bits; 64 bits as a size and as [int]. *)
Definition i32 (z : Z) : Z := (z + 2 ^ 31) `mod` 2 ^ 32 - 2 ^ 31.
Definition zext32 (z : Z) : Z := z `mod` 2 ^ 32.
Definition u64 (z : Z) : Z := z `mod` 2 ^ 64.
Definition i64 (z : Z) : Z := (z + 2 ^ 63) `mod` 2 ^ 64 - 2 ^ 63.
Lemma i64_small z : - 2 ^ 63 ≤ z < 2 ^ 63 → i64 z = z.
Proof. intros Hz. unfold i64. rewrite Z.mod_small by lia. lia. Qed.
Lemma i32_small z : - 2 ^ 31 ≤ z < 2 ^ 31 → i32 z = z.
Proof. intros Hz. unfold i32. rewrite Z.mod_small by lia. lia. Qed.
Lemma zext32_small z : 0 ≤ z < 2 ^ 31 → zext32 z = z.
Proof. intros Hz. unfold zext32. apply Z.mod_small. lia. Qed.
Lemma u64_small z : 0 ≤ z < 2 ^ 64 → u64 z = z.
Proof. apply Z.mod_small. Qed.

(** What [memcpy] leaves. *)
Lemma list_inserts_app {A} (i : nat) (k l : list A) : (i + length k ≤ length l)%nat → list_inserts i k l = take i l ++ k ++ drop (i + length k) l.
Proof.
  revert i. induction k as [|y k IH]; intros i Hi; simpl in *; [by rewrite Nat.add_0_r, take_drop|].
  rewrite IH by lia. rewrite Nat.add_succ_r. destruct (lookup_lt_is_Some_2 l i) as [x Hx]; [lia|].
  rewrite (take_S_r _ _ _ Hx), <- !(assoc_L (++)). rewrite insert_app_r_alt; rewrite length_take, Nat.min_l by lia; [|done]. by rewrite Nat.sub_diag.
Qed.
Lemma take_inserts {A} (i : nat) (k l : list A) : (i + length k ≤ length l)%nat → take (length k) (drop i (list_inserts i k l)) = k.
Proof.
  intros Hi. rewrite list_inserts_app by done. rewrite drop_app_length' by (rewrite length_take; lia). by rewrite take_app_length.
Qed.

Section arrays.
Context {T O : Type} (zero : T).
(** The size of an element, and the largest block there is memory for. *)
Context (size limit : Z).

Abbreviation block := positive.
Definition addr : Type := option block * Z.
Definition nil : addr := (None, 0).
(** Blocks of elements, and the objects that refer to them. *)
Record heap := mk_heap { arrays : gmap block (list T); objs : gmap positive O }.
Definition set_array (l : block) (a : list T) (s : heap) : heap := mk_heap (<[l:=a]> (arrays s)) (objs s).
Definition set_obj (p : positive) (o : O) (s : heap) : heap := mk_heap (arrays s) (<[p:=o]> (objs s)).

(** ** Operations *)

(** [_gep] *)
Definition gep (p : addr) (i : Z) : addr := (p.1, p.2 + i).
(** The index an address has in its block. *)
Definition at_index (p : addr) (s : heap) : option (block * list T * nat) :=
  l ← p.1; a ← arrays s !! l;
  if decide (0 ≤ p.2 < Z.of_nat (length a)) then Some (l, a, Z.to_nat p.2) else None.
Definition load_elem (p : addr) : ST heap T := st_gets (λ s, '(_, a, i) ← at_index p s; a !! i).
Definition store_elem (p : addr) (t : T) : ST heap unit :=
  st_mod (λ s, '(l, a, i) ← at_index p s; Some (set_array l (<[i:=t]> a) s)).
(** [GC_malloc] clears the memory; [nil] when there is none. *)
Definition gc_malloc (bytes : Z) : ST heap addr := λ s,
  if bytes <=? limit then
    let l := fresh (dom (arrays s)) in
    Some ((Some l, 0), set_array l (replicate (Z.to_nat (bytes `div` size)) zero) s)
  else Some (nil, s).
(** [k] elements from the index on, when they are in the block. *)
Definition elems (p : addr) (k : Z) (s : heap) : option (block * list T * nat) :=
  l ← p.1; a ← arrays s !! l;
  if decide (0 ≤ p.2 ∧ p.2 + k ≤ Z.of_nat (length a)) then Some (l, a, Z.to_nat p.2) else None.
(** [memcpy] of ranges that do not overlap. *)
Definition mem_copy (dst src : addr) (bytes : Z) : ST heap unit :=
  st_mod (λ s,
    if bytes =? 0 then Some s
    else
      let k := bytes `div` size in
      '(l, a, i) ← elems dst k s; '(l', b, j) ← elems src k s;
      if decide (bytes `mod` size = 0 ∧ (l ≠ l' ∨ dst.2 + k ≤ src.2 ∨ src.2 + k ≤ dst.2)) then
        Some (set_array l (list_inserts i (take (Z.to_nat k) (drop j b)) a) s)
      else None).

Definition new_obj (o : O) : ST heap positive := λ s,
  let p := fresh (dom (objs s)) in Some (p, set_obj p o s).
(** Reading or writing through a [nil] pointer to an object fails. *)
Definition get_obj (p : positive) : ST heap O := st_gets (λ s, objs s !! p).
Definition upd_obj (p : positive) (f : O → O) : ST heap unit :=
  st_mod (λ s, o ← objs s !! p; Some (set_obj p (f o) s)).

(** ** Their rules *)

Lemma wp_get_obj p o s (Q : O → heap → Prop) : objs s !! p = Some o → Q o s → wp (get_obj p) s Q.
Proof. intros Ho HQ. eapply wp_gets; [exact Ho|done]. Qed.
Lemma wp_upd_obj p f o s (Q : unit → heap → Prop) : objs s !! p = Some o → Q tt (set_obj p (f o) s) → wp (upd_obj p f) s Q.
Proof. intros Ho HQ. eapply wp_mod; [by rewrite Ho|done]. Qed.
Lemma wp_new_obj o s (Q : positive → heap → Prop) : (∀ p, objs s !! p = None → Q p (set_obj p o s)) → wp (new_obj o) s Q.
Proof. intros HQ. eexists _, _. split; [reflexivity|]. apply HQ, not_elem_of_dom, is_fresh. Qed.
Lemma at_index_Some l i a s : arrays s !! l = Some a → 0 ≤ i < Z.of_nat (length a) → at_index (Some l, i) s = Some (l, a, Z.to_nat i).
Proof. intros Ha Hi. unfold at_index. simpl. rewrite Ha. simpl. by rewrite decide_True. Qed.
Lemma wp_load_elem l i a t s (Q : T → heap → Prop) : arrays s !! l = Some a → 0 ≤ i → a !! Z.to_nat i = Some t → Q t s →
  wp (load_elem (Some l, i)) s Q.
Proof.
  intros Ha Hi Ht HQ. eapply wp_gets; [|exact HQ]. pose proof (lookup_lt_Some _ _ _ Ht).
  by rewrite (at_index_Some l i a) by (done || lia).
Qed.
Lemma wp_store_elem l i a t s (Q : unit → heap → Prop) : arrays s !! l = Some a → 0 ≤ i < Z.of_nat (length a) →
  Q tt (set_array l (<[Z.to_nat i:=t]> a) s) → wp (store_elem (Some l, i) t) s Q.
Proof. intros Ha Hi HQ. eapply wp_mod; [|exact HQ]. by rewrite (at_index_Some l i a). Qed.
Lemma wp_gc_malloc bytes s (Q : addr → heap → Prop) : bytes ≤ limit →
  (∀ l, arrays s !! l = None → Q (Some l, 0) (set_array l (replicate (Z.to_nat (bytes `div` size)) zero) s)) → wp (gc_malloc bytes) s Q.
Proof.
  intros Hb HQ. unfold wp, gc_malloc. rewrite (proj2 (Z.leb_le _ _) Hb). eexists _, _. split; [done|]. apply HQ, not_elem_of_dom, is_fresh.
Qed.
(** Whole elements: [k] of them. *)
Lemma wp_mem_copy l i a l' j b k s (Q : unit → heap → Prop) : 0 < size → 0 ≤ k → l ≠ l' →
  arrays s !! l = Some a → 0 ≤ i → i + k ≤ Z.of_nat (length a) →
  arrays s !! l' = Some b → 0 ≤ j → j + k ≤ Z.of_nat (length b) →
  Q tt (set_array l (list_inserts (Z.to_nat i) (take (Z.to_nat k) (drop (Z.to_nat j) b)) a) s) →
  wp (mem_copy (Some l, i) (Some l', j) (size * k)) s Q.
Proof.
  intros Hsz Hk Hl Ha Hi Hik Hb Hj Hjk HQ. assert ((size * k) `div` size = k) as Hdiv by (rewrite Z.mul_comm; by apply Z.div_mul; lia).
  destruct (decide (k = 0)) as [->|Hk0].
  - eapply wp_mod; [by rewrite Z.mul_0_r|]. simpl in HQ. unfold set_array in HQ. rewrite (insert_id (arrays s)) in HQ by done. by destruct s.
  - eapply wp_mod; [|exact HQ]. cbv beta. rewrite (proj2 (Z.eqb_neq (size * k) 0)) by nia. rewrite Hdiv.
    unfold elems. simpl. rewrite Ha. simpl. rewrite decide_True by done. simpl. rewrite Hb. simpl. rewrite decide_True by done. simpl.
    by rewrite decide_True by (split; [rewrite Z.mul_comm; by apply Z.mod_mul; lia|by left]).
Qed.
Lemma mem_copy_objs p q n u s s' : mem_copy p q n s = Some (u, s') → objs s' = objs s.
Proof.
  unfold mem_copy, st_mod. destruct (n =? 0); [by intros [= _ <-]|]. destruct (elems p _ s) as [[[l a] i]|]; [|done]. simpl.
  destruct (elems q _ s) as [[[l' b] j]|]; [|done]. simpl. case_decide; [|done]. by intros [= _ <-].
Qed.
(** Copying nothing asks for no memory. *)
Lemma wp_mem_copy_0 p q s (Q : unit → heap → Prop) : Q tt s → wp (mem_copy p q 0) s Q.
Proof. intros HQ. by eapply wp_mod. Qed.
(** Copying to a block that is too small fails. *)
Lemma mem_copy_short l i a q k s : 0 < size → 0 < k → arrays s !! l = Some a → Z.of_nat (length a) < i + k → mem_copy (Some l, i) q (size * k) s = None.
Proof.
  intros Hsz Hk Ha Hl. assert ((size * k) `div` size = k) as Hdiv by (rewrite Z.mul_comm; by apply Z.div_mul; lia).
  unfold mem_copy, st_mod. rewrite (proj2 (Z.eqb_neq (size * k) 0)) by nia. rewrite Hdiv.
  assert (elems (Some l, i) k s = None) as ->; [|done]. unfold elems. simpl. rewrite Ha. simpl. by rewrite decide_False by lia.
Qed.
Lemma mem_copy_nil i q k s : 0 < size → 0 < k → mem_copy (None, i) q (size * k) s = None.
Proof. intros Hsz Hk. unfold mem_copy, st_mod. by rewrite (proj2 (Z.eqb_neq (size * k) 0)) by nia. Qed.

(** ** What memory holds *)

(** Room for [cap] elements from [p] on, the first of them are [vs]. *)
Definition held (s : heap) (p : addr) (cap : Z) (vs : list T) : Prop :=
  match p with
  | (None, i) => i = 0 ∧ cap = 0
  | (Some l, i) => 0 ≤ i ∧ ∃ arr, arrays s !! l = Some arr ∧ i + cap ≤ Z.of_nat (length arr) ∧ take (length vs) (drop (Z.to_nat i) arr) = vs
  end.
(** Blocks stay as they are. *)
Definition blocks_kept (s s' : heap) : Prop := ∀ l arr, arrays s !! l = Some arr → arrays s' !! l = Some arr.
Lemma held_kept s s' p cap vs : blocks_kept s s' → held s p cap vs → held s' p cap vs.
Proof. intros Hk. destruct p as [[l|] i]; [|done]. intros (Hi & arr & Ha & Hm). split; [done|]. exists arr. split; [by apply Hk|done]. Qed.
Lemma kept_new s l a : arrays s !! l = None → blocks_kept s (set_array l a s).
Proof. intros Hl l' arr Ha. simpl. rewrite lookup_insert_ne; [done|]. congruence. Qed.
Lemma kept_set s s' l a : arrays s !! l = None → blocks_kept s s' → blocks_kept s (set_array l a s').
Proof. intros Hl Hk l' arr Ha. simpl. rewrite lookup_insert_ne by congruence. by apply Hk. Qed.
(** The first elements of [p] may be copied to a new block. *)
Lemma wp_copy_held s s1 p cap vs l k arr (Q : unit → heap → Prop) : 0 < size → held s p cap vs → Z.of_nat (length vs) ≤ cap →
  arrays s !! l = None → blocks_kept s s1 → arrays s1 !! l = Some arr → 0 ≤ k → k + Z.of_nat (length vs) ≤ Z.of_nat (length arr) →
  Q tt (set_array l (list_inserts (Z.to_nat k) vs arr) s1) →
  wp (mem_copy (Some l, k) p (size * Z.of_nat (length vs))) s1 Q.
Proof.
  intros Hsz Hm Hc Hf Hk Hs Hk0 Hn HQ. destruct p as [[l'|] i].
  - destruct Hm as (Hi & arr' & Ha & Hic & Hvs). assert (l ≠ l') as Hne by (intros ->; congruence).
    eapply (wp_mem_copy _ _ arr l' i arr'); try done; try lia; [by apply Hk|]. by rewrite Nat2Z.id, Hvs.
  - destruct Hm as [_ Hm]. destruct vs as [|v vs]; [|simpl in Hc; lia]. rewrite Z.mul_0_r. apply wp_mem_copy_0.
    simpl in HQ. unfold set_array in HQ. rewrite insert_id in HQ by done. by destruct s1.
Qed.
End arrays.
Arguments nil : simpl never.
