(* ===== verification/Slice.v ===== *)
(** * The runtime's slices: slice.calc

    src/runtime/slice/slice.calc: growing arrays over the memory of Arrays.v.
    A slice points into a block that other slices may point into too; it does
    not check indices.  Lengths are of 32 bits. *)
From S2P Require Import Prelude Arrays.
#[local] Open Scope Z_scope.

Record Slice := mk_Slice { thead : addr; len : Z; cap : Z }.
Definition set_thead (p : addr) (a : Slice) : Slice := mk_Slice p (len a) (cap a).
Definition set_len (n : Z) (a : Slice) : Slice := mk_Slice (thead a) n (cap a).
Definition set_cap (n : Z) (a : Slice) : Slice := mk_Slice (thead a) (len a) n.

Section slice.
Context {T : Type} (zero : T) (size limit : Z).
#[local] Notation heap := (heap (T:=T) (O:=Slice)).
#[local] Notation gc_malloc := (gc_malloc (O:=Slice) zero size limit).
#[local] Notation mem_copy := (mem_copy (T:=T) (O:=Slice) size).

(** ** The operations *)

Definition NewSlice : ST heap positive := new_obj (mk_Slice nil 0 0).
Definition IndexOp (arr : positive) (index : Z) : ST heap T := a ← get_obj arr; load_elem (gep (thead a) index).
Definition IndexSetOp (arr : positive) (index : Z) (i : T) : ST heap unit := a ← get_obj arr; store_elem (gep (thead a) index) i.

(** [self] is the call of [Push] behind the growth. *)
Definition Push_body (self : ST heap unit) (arr : positive) (t : T) : ST heap unit :=
  a ← get_obj arr;
  if len a <? cap a then
    store_elem (gep (thead a) (len a)) t;;
    upd_obj arr (set_len (i32 (len a + 1)))
  else
    c_when (cap a =? 0) (upd_obj arr (set_cap 2));;
    a ← get_obj arr;
    mem ← gc_malloc (u64 (size * 2 * zext32 (cap a)));
    let head := thead a in
    upd_obj arr (set_thead mem);;
    c_when (bool_decide (head ≠ nil)) (mem_copy mem head (u64 (size * zext32 (len a))));;
    upd_obj arr (set_cap (i32 (2 * cap a)));;
    self.
Fixpoint Push (fuel : nat) (arr : positive) (t : T) : ST heap unit :=
  match fuel with O => st_fail | S fuel => Push_body (Push fuel arr t) arr t end.

Definition Append (arr arr2 : positive) : ST heap positive :=
  newarr ← NewSlice;
  a ← get_obj arr; b ← get_obj arr2;
  if i32 (len a + len b) =? 0 then mret newarr
  else
    mem ← gc_malloc (u64 (size * zext32 (i32 (len a + len b))));
    upd_obj newarr (set_thead mem);;
    a ← get_obj arr;
    mem' ← (if bool_decide (thead a ≠ nil) then
              mem_copy mem (thead a) (u64 (size * zext32 (len a)));; mret (gep mem (len a))
            else mret mem);
    b ← get_obj arr2;
    c_when (bool_decide (thead b ≠ nil)) (mem_copy mem' (thead b) (u64 (size * zext32 (len b))));;
    upd_obj newarr (set_cap (i32 (len a + len b)));;
    n ← get_obj newarr;
    upd_obj newarr (set_len (cap n));;
    mret newarr.

Definition Slice_ (arr : positive) (start end_ : Z) : ST heap positive :=
  newarr ← NewSlice;
  a ← get_obj arr;
  upd_obj newarr (set_thead (gep (thead a) start));;
  upd_obj newarr (set_len (i32 (end_ - start)));;
  upd_obj newarr (set_cap (i32 (cap a - start)));;
  mret newarr.
Definition Len (arr : positive) : ST heap Z := a ← get_obj arr; mret (len a).
Definition FromArr (head : addr) (n : Z) : ST heap positive :=
  arr ← NewSlice;
  upd_obj arr (set_thead head);;
  upd_obj arr (set_cap n);;
  upd_obj arr (set_len n);;
  mret arr.

(** ** Slices as sequences *)

(** The fields of a slice of the elements [vs]. *)
Record backs (s : heap) (a : Slice) (vs : list T) : Prop := mk_backs {
  bk_len : len a = Z.of_nat (length vs);
  bk_cap : len a ≤ cap a < 2 ^ 31;
  bk_mem : held s (thead a) (cap a) vs;
}.
Definition is_slice (s : heap) (p : positive) (vs : list T) : Prop := ∃ a, objs s !! p = Some a ∧ backs s a vs.

Lemma backs_obj s p o a vs : backs s a vs → backs (set_obj p o s) a vs.
Proof. by intros []. Qed.
(** What a write of [v] to element [j] of block [l] makes of the slice [a]. *)
Definition poke (a : Slice) (l : positive) (j : Z) (v : T) (vs : list T) : list T :=
  if decide ((thead a).1 = Some l ∧ (thead a).2 ≤ j < (thead a).2 + len a) then <[Z.to_nat (j - (thead a).2):=v]> vs else vs.
Lemma backs_poke s a vs l arr j v : backs s a vs → arrays s !! l = Some arr → 0 ≤ j →
  backs (set_array l (<[Z.to_nat j:=v]> arr) s) a (poke a l j v vs).
Proof.
  intros [Hl Hc Hm] Ha Hj. assert (length (poke a l j v vs) = length vs) as Hlen by (unfold poke; case_decide; [by rewrite length_insert|done]).
  split; [by rewrite Hlen|done|]. destruct (thead a) as [[l'|] i] eqn:Hth; [|done]. destruct Hm as (Hi & arr' & Ha' & Hic & Hvs).
  split; [done|]. destruct (decide (l' = l)) as [->|Hne].
  2: { exists arr'. simpl. rewrite lookup_insert_ne by done. unfold poke. rewrite Hth, decide_False by naive_solver. done. }
  assert (arr' = arr) as -> by congruence. exists (<[Z.to_nat j:=v]> arr). simpl. rewrite lookup_insert_eq, length_insert, Hlen.
  split; [done|]. split; [done|]. unfold poke. rewrite Hth. simpl. case_decide as Hd.
  - rewrite drop_insert_ge, take_insert_lt, Hvs by lia. f_equal. lia.
  - destruct (decide (j < i)) as [Hji|Hji]; [by rewrite drop_insert_lt by lia|].
    assert (i + len a ≤ j) by (destruct (decide (i + len a ≤ j)); [done|exfalso; apply Hd; split; [done|lia]]).
    by rewrite drop_insert_ge, take_insert_ge by lia.
Qed.

(** Where the next element of a slice goes, and what it does to others. *)
Definition others (s : heap) (p : positive) (s' : heap) : Prop := ∀ q, q ≠ p → objs s' !! q = objs s !! q.
Lemma backs_kept s s' a vs : blocks_kept s s' → backs s a vs → backs s' a vs.
Proof. intros Hk [Hl Hc Hm]. split; [done|done|]. by eapply held_kept. Qed.

(** ** Push *)

Context (Hsize : 0 < size) (Hlimit : limit < 2 ^ 64).
(** There is room for one more element behind [n]. *)
Definition room (n : Z) : Prop := n < 2 ^ 30 ∧ size * (2 * (2 `max` n)) ≤ limit.

Lemma push_room s p vs t self a : objs s !! p = Some a → backs s a vs → len a < cap a →
  wp (Push_body self p t) s (λ _ s', is_slice s' p (vs ++ [t]) ∧ ∃ l i arr, thead a = (Some l, i) ∧ arrays s !! l = Some arr ∧
    s' = set_obj p (set_len (len a + 1) a) (set_array l (<[Z.to_nat (i + len a):=t]> arr) s)).
Proof.
  intros Ho [Hl Hc Hm] Hlt. destruct (thead a) as [[l|] i] eqn:Hth; [|destruct Hm; lia]. destruct Hm as (Hi & arr & Ha & Hic & Hvs).
  unfold Push_body. apply wp_bind. eapply wp_get_obj; [exact Ho|]. rewrite (proj2 (Z.ltb_lt _ _) Hlt), Hth.
  apply wp_bind. eapply wp_store_elem; [exact Ha|simpl; lia|]. simpl.
  eapply wp_upd_obj; [exact Ho|]. rewrite i32_small by lia. split; [|by exists l, i, arr].
  exists (set_len (len a + 1) a). simpl. rewrite lookup_insert_eq. split; [done|]. split; simpl; [rewrite length_app; simpl; lia|lia|].
  rewrite Hth. split; [done|]. exists (<[Z.to_nat (i + len a):=t]> arr). simpl; rewrite lookup_insert_eq, length_insert. split; [done|]. split; [done|].
  rewrite drop_insert_ge by lia. replace (Z.to_nat (i + len a) - Z.to_nat i)%nat with (length vs) by lia.
  rewrite length_app, Nat.add_1_r. rewrite (take_S_r _ _ t) by (rewrite list_lookup_insert_eq; [done|rewrite length_drop; lia]).
  by rewrite take_insert_ge, Hvs by lia.
Qed.
(** The elements move to a new block. *)
Lemma copy_at s a vs l k arr s1 : backs s a vs → arrays s !! l = None → blocks_kept s s1 → arrays s1 !! l = Some arr →
  0 ≤ k → k + len a ≤ Z.of_nat (length arr) →
  wp (c_when (bool_decide (thead a ≠ nil)) (mem_copy (Some l, k) (thead a) (size * len a))) s1
    (λ _ s2, s2 = set_array l (list_inserts (Z.to_nat k) vs arr) s1).
Proof.
  intros [Hl Hc Hm] Hf Hk Hs Hk0 Hn. apply wp_when. rewrite Hl. case_bool_decide as Hth; [apply (wp_copy_held _ s s1 _ (cap a) vs l k arr); done || lia|].
  assert (thead a = nil) as Hth' by (destruct (decide (thead a = nil)); [done|by destruct Hth]). rewrite Hth' in Hm. destruct Hm as [_ Hm].
  destruct vs as [|v vs]; [|simpl in Hl; lia]. simpl. unfold set_array. rewrite insert_id by done. by destruct s1.
Qed.
Lemma push_grow s p vs t self a Q : objs s !! p = Some a → backs s a vs → cap a ≤ len a → room (len a) →
  (∀ s1 l a1, objs s1 !! p = Some a1 → backs s1 a1 vs → len a1 < cap a1 → thead a1 = (Some l, 0) → arrays s !! l = None →
    others s p s1 → blocks_kept s s1 → wp self s1 Q) → wp (Push_body self p t) s Q.
Proof.
  intros Ho [Hl Hc Hm] Hge [Hn Hlim] HQ. unfold Push_body. apply wp_bind. eapply wp_get_obj; [exact Ho|].
  rewrite (proj2 (Z.ltb_ge _ _) Hge). set (c := if cap a =? 0 then 2 else cap a). set (a0 := set_cap c a).
  assert (1 ≤ c ≤ 2 `max` len a ∧ len a ≤ c) as Hcc by (unfold c; destruct (Z.eqb_spec (cap a) 0); lia).
  assert (0 ≤ size * 2 * c ≤ limit ∧ 0 ≤ size * len a ≤ limit) as [Hb1 Hb2] by nia.
  apply wp_bind, (wp_mono _ _ (λ _ s0, objs s0 !! p = Some a0 ∧ arrays s0 = arrays s ∧ others s p s0)).
  { apply wp_when. unfold a0, c. destruct (Z.eqb_spec (cap a) 0) as [H0|H0].
    - eapply wp_upd_obj; [exact Ho|]. simpl. rewrite lookup_insert_eq. split; [done|]. split; [done|]. intros q Hq. simpl. by rewrite lookup_insert_ne.
    - rewrite Ho. by destruct a. }
  assert (cap a0 = c ∧ len a0 = len a ∧ thead a0 = thead a) as (Hac & Hal & Hat) by done. clearbody a0 c.
  intros _ s0 (Ho0 & Ha0 & Hot). apply wp_bind. eapply wp_get_obj; [exact Ho0|]. rewrite Hac, Hal, Hat, (zext32_small c), (zext32_small (len a)), !u64_small by lia.
  apply wp_bind, wp_gc_malloc; [lia|]. intros l Hfresh.
  replace (size * 2 * c) with (2 * c * size) by lia. rewrite Z.div_mul by lia. rewrite Ha0 in Hfresh.
  apply wp_bind. eapply wp_upd_obj; [exact Ho0|].
  set (s1 := set_obj p _ _). set (new := list_inserts 0 vs (replicate (Z.to_nat (2 * c)) zero)).
  assert (length new = Z.to_nat (2 * c)) as Hnew by (unfold new; by rewrite length_inserts, length_replicate).
  apply wp_bind, (wp_mono _ _ (λ _ s2, s2 = set_array l new s1)).
  { apply (copy_at s a vs l 0 (replicate (Z.to_nat (2 * c)) zero)); rewrite ?length_replicate; [by split|done| |simpl; by rewrite lookup_insert_eq|lia|lia].
    intros l' arr Ha. simpl. rewrite lookup_insert_ne by congruence. by rewrite Ha0. }
  intros _ s2 ->. apply wp_bind. eapply wp_upd_obj; [simpl; by rewrite lookup_insert_eq|]. rewrite i32_small by lia.
  eapply (HQ _ l (mk_Slice (Some l, 0) (len a) (2 * c))); simpl; try done.
  - by rewrite lookup_insert_eq, <- Hal.
  - split; simpl; [done|lia|]. split; [done|]. exists new. rewrite lookup_insert_eq, Hnew. split; [done|]. split; [lia|].
    unfold new. apply take_inserts. rewrite length_replicate. lia.
  - lia.
  - intros q Hq. simpl. rewrite !lookup_insert_ne by done. by apply Hot.
  - intros l' arr Ha. simpl. rewrite !lookup_insert_ne by congruence. by rewrite Ha0.
Qed.
(** What a push on [a] does to another slice [b]: a push in place writes behind
    the elements of [a], where [b] may have an element. *)
Definition pushed_on (a : Slice) (t : T) (b : Slice) (ws : list T) : list T :=
  match (thead a).1 with
  | Some l => if len a <? cap a then poke b l ((thead a).2 + len a) t ws else ws
  | None => ws
  end.
(** Nothing points to the block of [a] yet. *)
Definition new_block (s : heap) (a : Slice) : Prop := ∀ l, (thead a).1 = Some l → arrays s !! l = None.
Lemma wp_Push s p vs t a : objs s !! p = Some a → backs s a vs → room (len a) →
  wp (Push 2 p t) s (λ _ s', is_slice s' p (vs ++ [t]) ∧ others s p s' ∧
    (∀ b ws, backs s b ws → backs s' b (pushed_on a t b ws)) ∧
    ∃ a', objs s' !! p = Some a' ∧ (thead a' = thead a ∨ new_block s a')).
Proof.
  intros Ho Hb Hr. change (Push 2 p t) with (Push_body (Push 1 p t) p t). destruct (Z.ltb_spec (len a) (cap a)) as [Hlt|Hge].
  - eapply wp_mono; [by eapply push_room|]. intros _ s' (Hs & l & i & arr & Hth & Ha & ->). split; [done|].
    split; [intros q Hq; simpl; by rewrite lookup_insert_ne|].
    split; [|exists (set_len (len a + 1) a); simpl; rewrite lookup_insert_eq; by auto]. intros b ws Hbw. unfold pushed_on. rewrite Hth. simpl.
    rewrite (proj2 (Z.ltb_lt _ _) Hlt). destruct Hb as [Hl _ Hm]. rewrite Hth in Hm. destruct Hm.
    apply backs_obj, backs_poke; [done|done|lia].
  - eapply push_grow; [done..|]. intros s1 l a1 Ho1 Hb1 Hlt1 Hth1 Hfresh Hot Hk.
    change (Push 1 p t) with (Push_body (Push 0 p t) p t). eapply wp_mono; [by eapply push_room|].
    intros _ s' (Hs & l' & i' & arr & Hth & Ha & ->). rewrite Hth1 in Hth. injection Hth as <- <-.
    split; [done|]. split; [intros q Hq; simpl; rewrite lookup_insert_ne by done; by apply Hot|]. split.
    + intros b ws Hbw. unfold pushed_on. rewrite (proj2 (Z.ltb_ge _ _) Hge). destruct (thead a) as [[l'|] i]; simpl.
      all: eapply (backs_kept s); [|done]; intros k arr' Hk'; simpl; rewrite lookup_insert_ne by congruence; by apply Hk.
    + eexists. simpl. rewrite lookup_insert_eq. split; [done|]. right. intros k. simpl. rewrite Hth1. by intros [= <-].
Qed.

(** ** The other operations *)

Lemma wp_NewSlice s Q : (∀ p, objs s !! p = None → Q p (set_obj p (mk_Slice nil 0 0) s)) → wp NewSlice s Q.
Proof. apply wp_new_obj. Qed.
Lemma backs_empty s : backs s (mk_Slice nil 0 0) [].
Proof. split; simpl; [done|lia|done]. Qed.
Lemma backs_lookup s a vs i v : backs s a vs → vs !! i = Some v →
  ∃ l j arr, thead a = (Some l, j) ∧ 0 ≤ j ∧ arrays s !! l = Some arr ∧ arr !! (Z.to_nat j + i)%nat = Some v.
Proof.
  intros [Hl Hc Hm] Hi. pose proof (lookup_lt_Some _ _ _ Hi) as Hlt. destruct (thead a) as [[l|] j]; [|destruct Hm; lia].
  destruct Hm as (Hj & arr & Ha & _ & Hvs). exists l, j, arr. split; [done|]. split; [done|]. split; [done|].
  rewrite <- Hvs in Hi. apply lookup_take_Some in Hi as [Hi _]. by rewrite lookup_drop in Hi.
Qed.
Lemma wp_IndexOp s p vs i v Q : is_slice s p vs → vs !! i = Some v → Q v s → wp (IndexOp p (Z.of_nat i)) s Q.
Proof.
  intros (a & Ho & Hb) Hi HQ. destruct (backs_lookup _ _ _ _ _ Hb Hi) as (l & j & arr & Hth & Hj & Ha & Hv).
  apply wp_bind. eapply wp_get_obj; [done|]. rewrite Hth. eapply wp_load_elem; [done|simpl; lia| |done]. rewrite <- Hv. f_equal. simpl. lia.
Qed.
(** A write is seen through every slice that has the element. *)
Definition written_on (a : Slice) (i : Z) (t : T) (b : Slice) (ws : list T) : list T :=
  match (thead a).1 with Some l => poke b l ((thead a).2 + i) t ws | None => ws end.
Lemma wp_IndexSetOp s p vs i t a : objs s !! p = Some a → backs s a vs → (i < length vs)%nat →
  wp (IndexSetOp p (Z.of_nat i) t) s (λ _ s', objs s' = objs s ∧ ∀ b ws, backs s b ws → backs s' b (written_on a (Z.of_nat i) t b ws)).
Proof.
  intros Ho Hb Hi. destruct (lookup_lt_is_Some_2 vs i Hi) as [v Hv]. destruct (backs_lookup _ _ _ _ _ Hb Hv) as (l & j & arr & Hth & Hj & Ha & Hav).
  pose proof (lookup_lt_Some _ _ _ Hav). apply wp_bind. eapply wp_get_obj; [done|]. rewrite Hth. eapply wp_store_elem; [done|simpl; lia|].
  split; [done|]. intros b ws Hbw. unfold written_on. rewrite Hth. simpl. apply (backs_poke s); [done|done|lia].
Qed.
Lemma written_self a vs s i t : backs s a vs → (i < length vs)%nat → written_on a (Z.of_nat i) t a vs = <[i:=t]> vs.
Proof.
  intros Hb Hi. destruct (lookup_lt_is_Some_2 vs i Hi) as [v Hv]. destruct (backs_lookup _ _ _ _ _ Hb Hv) as (l & j & arr & Hth & Hj & _).
  destruct Hb as [Hl _ _]. unfold written_on, poke. rewrite Hth. simpl. rewrite decide_True by (split; [done|lia]). f_equal. lia.
Qed.
Lemma wp_Slice_ s p vs a (start end_ : nat) : objs s !! p = Some a → backs s a vs → (start ≤ end_ ≤ length vs)%nat →
  wp (Slice_ p (Z.of_nat start) (Z.of_nat end_)) s (λ r s', objs s !! r = None ∧ others s r s' ∧ arrays s' = arrays s ∧
    ∃ b, objs s' !! r = Some b ∧ b = mk_Slice (gep (thead a) (Z.of_nat start)) (Z.of_nat (end_ - start)) (cap a - Z.of_nat start) ∧
      backs s' b (take (end_ - start) (drop start vs))).
Proof.
  intros Ho Hb Hse. pose proof Hb as [Hl Hc Hm]. unfold Slice_. apply wp_bind, wp_NewSlice. intros r Hr.
  assert (r ≠ p) as Hne by (intros ->; congruence).
  apply wp_bind. eapply wp_get_obj; [simpl; by rewrite lookup_insert_ne|].
  apply wp_bind. eapply wp_upd_obj; [simpl; by rewrite lookup_insert_eq|].
  apply wp_bind. eapply wp_upd_obj; [simpl; by rewrite lookup_insert_eq|].
  apply wp_bind. eapply wp_upd_obj; [simpl; by rewrite lookup_insert_eq|]. apply wp_ret.
  unfold set_len, set_cap, set_thead. simpl. rewrite !i32_small by lia.
  split; [done|]. split; [intros q Hq; simpl; by rewrite !lookup_insert_ne|]. split; [done|]. eexists. rewrite lookup_insert_eq.
  split; [done|]. split; [f_equal; lia|]. split; simpl; [rewrite length_take, length_drop; lia|lia|].
  destruct (thead a) as [[l|] i]; simpl; [|destruct Hm; lia]. destruct Hm as (Hi & arr & Ha & Hic & Hvs). split; [lia|]. exists arr. split; [done|]. split; [lia|].
  rewrite length_take, length_drop. rewrite <- Hvs, skipn_firstn_comm, take_take, drop_drop. f_equal; [|f_equal]; try lia.
  rewrite Hvs. lia.
Qed.

(** Both parts fill the new block. *)
Lemma inserts_both (vs ws : list T) n : n = (length vs + length ws)%nat →
  list_inserts (length vs) ws (list_inserts 0 vs (replicate n zero)) = vs ++ ws.
Proof.
  intros ->. rewrite (list_inserts_app 0 vs) by (rewrite length_replicate; lia). simpl.
  rewrite list_inserts_app by (rewrite length_app, length_drop, length_replicate; lia).
  rewrite take_app_length. f_equal. rewrite drop_ge; [by rewrite app_nil_r|]. rewrite length_app, length_drop, length_replicate. lia.
Qed.
Lemma wp_Append s p q vs ws : is_slice s p vs → is_slice s q ws →
  Z.of_nat (length vs + length ws) < 2 ^ 31 → size * Z.of_nat (length vs + length ws) ≤ limit →
  wp (Append p q) s (λ r s', objs s !! r = None ∧ others s r s' ∧ blocks_kept s s' ∧
    ∃ a, objs s' !! r = Some a ∧ backs s' a (vs ++ ws) ∧ new_block s a).
Proof.
  intros (a & Hoa & Ha) (b & Hob & Hb) Hn Hlim. pose proof (bk_len _ _ _ Ha) as Hla. pose proof (bk_len _ _ _ Hb) as Hlb.
  unfold Append. apply wp_bind, wp_NewSlice. intros r Hr. set (s0 := set_obj r _ s).
  assert (∀ o p' (s1 : heap), objs s !! p' = Some o → objs s1 = objs s0 → objs s1 !! p' = Some o) as Hold.
  { intros o p' s1 Ho ->. simpl. rewrite lookup_insert_ne; [done|]. congruence. }
  apply wp_bind. eapply wp_get_obj; [by eapply Hold|]. apply wp_bind. eapply wp_get_obj; [by eapply Hold|].
  rewrite Hla, Hlb, i32_small by lia. rewrite <- Nat2Z.inj_add. set (n := (length vs + length ws)%nat) in *.
  destruct (Z.eqb_spec (Z.of_nat n) 0) as [Hn0|Hn0].
  { apply wp_ret. split; [done|]. split; [intros p' Hp'; simpl; by rewrite lookup_insert_ne|]. split; [by intros l arr|].
    exists (mk_Slice nil 0 0). simpl. rewrite lookup_insert_eq. split; [done|]. split; [|done].
    destruct vs; [|simpl in *; lia]. destruct ws; [|simpl in *; lia]. apply backs_empty. }
  rewrite zext32_small, u64_small by nia. apply wp_bind, wp_gc_malloc; [done|]. intros l Hl. change (arrays s !! l = None) in Hl. rewrite Z.mul_comm, Z.div_mul, Nat2Z.id by lia.
  apply wp_bind. eapply wp_upd_obj; [simpl; by rewrite lookup_insert_eq|]. set (s1 := set_obj r _ _).
  assert (blocks_kept s s1) as Hk1 by (intros l' arr Hl'; simpl; rewrite lookup_insert_ne by congruence; done).
  assert (∀ o p', objs s !! p' = Some o → objs s1 !! p' = Some o) as Hold1.
  { intros o p' Ho. simpl. rewrite !lookup_insert_ne; [done|congruence|congruence]. }
  apply wp_bind. eapply wp_get_obj; [by eapply Hold1|]. apply wp_bind.
  apply (wp_mono _ _ (λ m s2, m = (Some l, len a) ∧ s2 = set_array l (list_inserts 0 vs (replicate n zero)) s1)).
  { rewrite zext32_small, u64_small by nia.
    assert (wp (c_when (bool_decide (thead a ≠ nil)) (mem_copy (Some l, 0) (thead a) (size * len a))) s1
      (λ _ s2, s2 = set_array l (list_inserts 0 vs (replicate n zero)) s1)) as Hcp.
    { apply (copy_at s); rewrite ?length_replicate; [done|done|done|by apply lookup_insert_eq|lia|lia]. }
    case_bool_decide as Hth; simpl in Hcp.
    - apply wp_bind. eapply wp_mono; [exact Hcp|]. intros _ s2 ->. by apply wp_ret.
    - destruct Hcp as ([] & s2 & [= Hs1] & Hs2). apply wp_ret. split; [|by rewrite <- Hs2].
      destruct Ha as [_ Hc Hm]. rewrite Hth in Hm. destruct Hm as [_ Hm]. f_equal. lia. }
  intros m s2 [-> ->]. apply wp_bind. eapply wp_get_obj; [by eapply Hold1|]. apply wp_bind.
  apply (wp_mono _ _ (λ _ s3, s3 = set_array l (list_inserts (Z.to_nat (len a)) ws (list_inserts 0 vs (replicate n zero))) (set_array l (list_inserts 0 vs (replicate n zero)) s1))).
  { rewrite zext32_small, u64_small by nia.
    apply (copy_at s b ws l (len a) (list_inserts 0 vs (replicate n zero))); rewrite ?length_inserts, ?length_replicate; [done|done| |simpl; by rewrite lookup_insert_eq|lia|lia].
    by apply kept_set. }
  intros _ s3 ->. rewrite Hla, Nat2Z.id, inserts_both by done.
  apply wp_bind. eapply wp_upd_obj; [simpl; by rewrite lookup_insert_eq|]. apply wp_bind. eapply wp_get_obj; [simpl; by rewrite lookup_insert_eq|].
  apply wp_bind. eapply wp_upd_obj; [simpl; by rewrite lookup_insert_eq|]. apply wp_ret.
  simpl. split; [done|]. split; [intros p' Hp'; simpl; by rewrite !lookup_insert_ne|]. split.
  { intros l' arr Hl'. simpl. rewrite !lookup_insert_ne by congruence. done. }
  eexists. rewrite lookup_insert_eq. split; [done|]. split; [|intros l' [= <-]; done].
  rewrite Hlb, <- Nat2Z.inj_add, i32_small by (fold n; lia). fold n. split; simpl; [by rewrite length_app|lia|]. split; [done|].
  exists (vs ++ ws). rewrite lookup_insert_eq, length_app. split; [done|]. fold n. split; [lia|]. unfold n. by rewrite <- length_app, drop_0, take_ge.
Qed.

(** ** Growth beyond the width of the length *)

(** A growth fails, or leaves a slice of the new capacity; it fails when the
    new block is too small. *)
Lemma push_step s p a t self c : objs s !! p = Some a → cap a ≤ len a → 0 < len a < 2 ^ 31 → thead a ≠ nil →
  c = (if cap a =? 0 then 2 else cap a) → size * 2 * zext32 c < 2 ^ 64 → size * len a < 2 ^ 64 →
  Push_body self p t s = None ∨
  (len a ≤ 2 * zext32 c ∧ ∃ s1 a1, Push_body self p t s = self s1 ∧ objs s1 !! p = Some a1 ∧ len a1 = len a ∧ cap a1 = i32 (2 * c) ∧ thead a1 ≠ nil).
Proof.
  intros Ho Hge Hlen Hth Hc Hb1 Hb2. assert (0 ≤ zext32 c) as Hz by (unfold zext32; apply Z.mod_pos_bound; lia).
  assert (∃ s0, c_when (cap a =? 0) (upd_obj p (set_cap 2)) s = Some (tt, s0) ∧ objs s0 !! p = Some (set_cap c a)) as (s0 & Hs0 & Ho0).
  { subst c. destruct (cap a =? 0); simpl; [unfold upd_obj, st_mod; rewrite Ho; simpl; eexists; split; [done|]; by apply lookup_insert_eq|].
    exists s. split; [done|]. rewrite Ho. by destruct a. }
  assert (∀ l s1, arrays s1 !! l = Some (replicate (Z.to_nat (2 * zext32 c)) zero) → 2 * zext32 c < len a →
    mem_copy (Some l, 0) (thead a) (size * len a) s1 = None) as Hshort.
  { intros l s1 Hl Hlt. eapply mem_copy_short; [done|lia|exact Hl|]. rewrite length_replicate. lia. }
  destruct (Push_body self p t s) as [[u s']|] eqn:Hr; [right|by left]. revert Hr.
  unfold Push_body, mbind, ST_bind, get_obj, st_gets. rewrite Ho, (proj2 (Z.ltb_ge _ _) Hge), Hs0, Ho0. cbn [cap len thead set_cap].
  rewrite (u64_small (size * 2 * zext32 c)), (zext32_small (len a)), (u64_small (size * len a)) by nia.
  unfold gc_malloc. rewrite bool_decide_eq_true_2 by done. cbn [c_when]. destruct (size * 2 * zext32 c <=? limit).
  - set (l := fresh _). replace ((size * 2 * zext32 c) `div` size) with (2 * zext32 c) by (apply (Z.div_unique _ _ _ 0); lia).
    unfold upd_obj, st_mod. cbn [objs set_array]. rewrite Ho0. simpl.
    set (s1 := set_obj _ _ _). destruct (mem_copy (Some l, 0) (thead a) (size * len a) s1) as [[[] s2]|] eqn:Hcp; [|done].
    pose proof (mem_copy_objs _ _ _ _ _ _ _ Hcp) as Ho2. rewrite Ho2. simpl. rewrite lookup_insert_eq. simpl. intros Hr. split.
    + destruct (decide (2 * zext32 c < len a)) as [Hlt|]; [|lia]. rewrite Hshort in Hcp; [done|simpl; by apply lookup_insert_eq|done].
    + eexists _, _. split; [symmetry; exact Hr|]. split; [apply lookup_insert_eq|done].
  - unfold upd_obj, st_mod. rewrite Ho0. cbn. unfold nil. by rewrite (mem_copy_nil _ 0) by lia.
Qed.
Lemma Push_overflow_ok s p vs t a self : objs s !! p = Some a → backs s a vs → len a = 2 ^ 30 → cap a = 2 ^ 30 → size < 2 ^ 32 →
  Push_body (Push_body (Push_body self p t) p t) p t s = None.
Proof.
  intros Ho Hb Hl Hc Hsz. assert (thead a ≠ nil) as Hth. { destruct Hb as [_ _ Hm]. intros E. rewrite E in Hm. destruct Hm as [_ Hm]. lia. }
  destruct (push_step s p a t (Push_body (Push_body self p t) p t) (2 ^ 30)) as [?|(_ & s1 & a1 & -> & Ho1 & Hl1 & Hc1 & Hth1)]; try done; try lia.
  { by rewrite Hc. } { change (zext32 (2 ^ 30)) with (2 ^ 30). lia. }
  change (i32 (2 * 2 ^ 30)) with (- 2 ^ 31) in Hc1.
  destruct (push_step s1 p a1 t (Push_body self p t) (- 2 ^ 31)) as [?|(_ & s2 & a2 & -> & Ho2 & Hl2 & Hc2 & Hth2)]; try done; try lia.
  { by rewrite Hc1. } { change (zext32 (- 2 ^ 31)) with (2 ^ 31). lia. }
  change (i32 (2 * - 2 ^ 31)) with 0 in Hc2.
  destruct (push_step s2 p a2 t self 2) as [?|(Hlt & _)]; try done; try lia.
  { by rewrite Hc2. } { change (zext32 2) with 2. lia. }
  change (zext32 2) with 2 in Hlt. lia.
Qed.

End slice.
