(* ===== verification/SliceTheorems.v ===== *)
(** * What the runtime's slices do

    A program over slices that share no block computes with sequences; a part
    of a slice shares the block of the slice and writes to it; a slice cannot
    grow beyond 2^30 elements. *)
From S2P Require Import Prelude Arrays Slice.
#[local] Open Scope Z_scope.

(** ** Programs over slices *)

(** The commands name slices by the order of their creation. *)
Inductive cmd (T : Type) :=
  | CNew | CPush (r : nat) (t : T) | CGet (r i : nat) | CSet (r i : nat) (t : T) | CLen (r : nat) | CAppend (r r2 : nat).
Arguments CNew {T}.
Arguments CPush {T} r t.
Arguments CGet {T} r i.
Arguments CSet {T} r i t.
Arguments CLen {T} r.
Arguments CAppend {T} r r2.
Inductive ans (T : Type) := ANone | AElem (t : T) | ALen (n : Z).
Arguments ANone {T}.
Arguments AElem {T} t.
Arguments ALen {T} n.

Section programs.
Context {T : Type} (zero : T) (size limit : Z).
#[local] Notation heap := (heap (T:=T) (O:=Slice)).
#[local] Notation Push := (Push zero size limit).
#[local] Notation Append := (Append zero size limit).

(** What runs: [regs] holds the pointers to the slices. *)
Definition reg (regs : list positive) (r : nat) : ST heap positive := st_gets (λ _, regs !! r).
Definition run_cmd (regs : list positive) (c : cmd T) : ST heap (list positive * ans T) :=
  match c with
  | CNew => p ← NewSlice; mret (regs ++ [p], ANone)
  | CPush r t => p ← reg regs r; Push 2 p t;; mret (regs, ANone)
  | CGet r i => p ← reg regs r; t ← IndexOp p (Z.of_nat i); mret (regs, AElem t)
  | CSet r i t => p ← reg regs r; IndexSetOp p (Z.of_nat i) t;; mret (regs, ANone)
  | CLen r => p ← reg regs r; n ← Len p; mret (regs, ALen n)
  | CAppend r r2 => p ← reg regs r; q ← reg regs r2; x ← Append p q; mret (regs ++ [x], ANone)
  end.
Fixpoint run_cmds (cs : list (cmd T)) (regs : list positive) : ST heap (list (ans T)) :=
  match cs with
  | [] => mret []
  | c :: cs => '(regs, a) ← run_cmd regs c; rest ← run_cmds cs regs; mret (a :: rest)
  end.

(** What it means: every slice is a sequence of its own.  No meaning for an
    index that is out of range, or a size there is no memory for. *)
Definition fits (n : nat) : Prop := Z.of_nat n < 2 ^ 31 ∧ size * Z.of_nat n ≤ limit.
Definition seq_cmd (ls : list (list T)) (c : cmd T) : option (list (list T) * ans T) :=
  match c with
  | CNew => Some (ls ++ [[]], ANone)
  | CPush r t => vs ← ls !! r; if decide (room size limit (Z.of_nat (length vs))) then Some (<[r:=vs ++ [t]]> ls, ANone) else None
  | CGet r i => vs ← ls !! r; t ← vs !! i; Some (ls, AElem t)
  | CSet r i t => vs ← ls !! r; if decide (i < length vs)%nat then Some (<[r:=<[i:=t]> vs]> ls, ANone) else None
  | CLen r => vs ← ls !! r; Some (ls, ALen (Z.of_nat (length vs)))
  | CAppend r r2 => vs ← ls !! r; ws ← ls !! r2;
      if decide (fits (length vs + length ws)) then Some (ls ++ [vs ++ ws], ANone) else None
  end.
Fixpoint seq_cmds (cs : list (cmd T)) (ls : list (list T)) : option (list (ans T)) :=
  match cs with
  | [] => Some []
  | c :: cs => '(ls, a) ← seq_cmd ls c; rest ← seq_cmds cs ls; Some (a :: rest)
  end.

(** ** Slices that share nothing *)

Definition apart (a b : Slice) : Prop := ∀ l, (thead a).1 = Some l → (thead b).1 ≠ Some l.
Record own (s : heap) (regs : list positive) (ls : list (list T)) : Prop := mk_own {
  own_slices : Forall2 (is_slice s) regs ls;
  own_nodup : NoDup regs;
  own_apart i j p q a b : regs !! i = Some p → regs !! j = Some q → i ≠ j → objs s !! p = Some a → objs s !! q = Some b → apart a b;
}.
Lemma slices_apart_sym a b : apart a b → apart b a.
Proof. intros H l Hb Ha. by eapply H. Qed.
Lemma own_at s regs ls i vs : own s regs ls → ls !! i = Some vs → ∃ p a, regs !! i = Some p ∧ objs s !! p = Some a ∧ backs s a vs.
Proof. intros [H _ _] Hi. destruct (Forall2_lookup_r _ _ _ _ _ H Hi) as (p & Hp & a & Ha & Hb). by exists p, a. Qed.
Lemma own_lookup s regs ls i p : own s regs ls → regs !! i = Some p → ∃ vs a, ls !! i = Some vs ∧ objs s !! p = Some a ∧ backs s a vs.
Proof. intros [H _ _] Hi. destruct (Forall2_lookup_l _ _ _ _ _ H Hi) as (vs & Hvs & a & Ha & Hb). by exists vs, a. Qed.
(** A block that slices have is not new. *)
Lemma new_apart (s : heap) a b (vs : list T) : new_block s a → backs s b vs → apart b a.
Proof.
  intros Hn [_ _ Hm] l Hb Ha. destruct (thead b) as [[l'|] j]; [|done]. injection Hb as ->.
  destruct Hm as (_ & arr & Harr & _). rewrite (Hn l Ha) in Harr. done.
Qed.
(** One slice changes; what it writes to no other slice has. *)
Lemma own_update s s' regs ls i p a a' vs' : own s regs ls → regs !! i = Some p → objs s !! p = Some a →
  objs s' !! p = Some a' → backs s' a' vs' → others s p s' → thead a' = thead a ∨ new_block s a' →
  (∀ b ws, backs s b ws → apart a b → backs s' b ws) → own s' regs (<[i:=vs']> ls).
Proof.
  intros Hown Hp Ha Ha' Hb' Hot Hhd Hk. pose proof Hown as [Hsl Hnd Hap].
  assert (∀ j q, regs !! j = Some q → j ≠ i → objs s' !! q = objs s !! q) as Hother.
  { intros j q Hq Hj. apply Hot. intros ->. by apply Hj, (NoDup_lookup _ _ _ _ Hnd Hq Hp). }
  assert (∀ j q b, regs !! j = Some q → j ≠ i → objs s !! q = Some b → apart a' b) as Hnew.
  { intros j q b Hq Hj Hb. destruct Hhd as [Hth|Hn].
    - intros l. rewrite Hth. by eapply (Hap i j).
    - destruct (own_lookup _ _ _ _ _ Hown Hq) as (ws & b' & _ & Hb1 & Hbs). assert (b' = b) as -> by congruence. by eapply slices_apart_sym, new_apart. }
  split; [|done|].
  - apply Forall2_same_length_lookup_2; [rewrite length_insert; by eapply Forall2_length|].
    intros j q ws Hq Hws. destruct (decide (j = i)) as [->|Hj].
    + rewrite list_lookup_insert_eq in Hws by (erewrite <- Forall2_length by exact Hsl; by eapply lookup_lt_Some).
      injection Hws as <-. assert (q = p) as -> by congruence. by exists a'.
    + rewrite list_lookup_insert_ne in Hws by done. destruct (own_at _ _ _ _ _ Hown Hws) as (q' & b & Hq' & Hb & Hbs).
      assert (q' = q) as -> by congruence. exists b. rewrite (Hother j q Hq Hj). split; [done|]. apply Hk; [done|]. by eapply (Hap i j).
  - intros j k q q' b b' Hq Hq' Hjk Hb1 Hb2. destruct (decide (j = i)) as [->|Hj]; [|destruct (decide (k = i)) as [->|Hk']].
    + assert (b = a') as -> by congruence. rewrite (Hother k q' Hq') in Hb2 by done. by eapply (Hnew k).
    + assert (b' = a') as -> by congruence. rewrite (Hother j q Hq) in Hb1 by done. by eapply slices_apart_sym, (Hnew j).
    + rewrite (Hother j q Hq Hj) in Hb1. rewrite (Hother k q' Hq' Hk') in Hb2. by eapply (Hap j k).
Qed.
(** A new slice. *)
Lemma own_add s s' regs ls r a vs : own s regs ls → objs s !! r = None → others s r s' → objs s' !! r = Some a → backs s' a vs →
  new_block s a → blocks_kept s s' → own s' (regs ++ [r]) (ls ++ [vs]).
Proof.
  intros Hown Hr Hot Ha Hb Hn Hk. pose proof Hown as [Hsl Hnd Hap].
  assert (∀ q, q ∈ regs → objs s' !! q = objs s !! q) as Hother.
  { intros q Hq. apply Hot. intros ->. apply list_elem_of_lookup_1 in Hq as [i Hi]. destruct (own_lookup _ _ _ _ _ Hown Hi) as (? & ? & _ & ? & _). congruence. }
  assert (∀ i q b, regs !! i = Some q → objs s !! q = Some b → apart b a) as Hnew.
  { intros i q b Hq Hb1. destruct (own_lookup _ _ _ _ _ Hown Hq) as (ws & b' & _ & Hb2 & Hbs). assert (b' = b) as -> by congruence. by eapply new_apart. }
  split.
  - apply Forall2_app; [|by repeat constructor; exists a]. apply Forall2_same_length_lookup_2; [by eapply Forall2_length|].
    intros j q ws Hq Hws. destruct (own_at _ _ _ _ _ Hown Hws) as (q' & b & Hq' & Hb1 & Hbs). assert (q' = q) as -> by congruence.
    exists b. rewrite Hother by by eapply list_elem_of_lookup_2. split; [done|]. by eapply backs_kept.
  - apply NoDup_app. split; [done|]. split; [|apply NoDup_singleton]. intros q Hq ->%list_elem_of_singleton.
    apply list_elem_of_lookup_1 in Hq as [i Hi]. destruct (own_lookup _ _ _ _ _ Hown Hi) as (? & ? & _ & ? & _). congruence.
  - assert (∀ i p q b b', regs !! i = Some p → objs s' !! p = Some b → q = r → objs s' !! q = Some b' → apart b b') as Hlast.
    { intros i p q b b' Hp Hb1 -> Hb2. rewrite Ha in Hb2. injection Hb2 as <-. rewrite Hother in Hb1 by by eapply list_elem_of_lookup_2. by eapply Hnew. }
    intros i j p q b b' Hp Hq Hij Hb1 Hb2.
    destruct (lookup_snoc_Some r regs i p) as [[[Hi Hp']|[Hi Hp']] _]; [done| |];
      destruct (lookup_snoc_Some r regs j q) as [[[Hj Hq']|[Hj Hq']] _]; try done; subst; try done.
    + rewrite Hother in Hb1, Hb2 by by eapply list_elem_of_lookup_2. by eapply (Hap i j).
    + by eapply Hlast.
    + by eapply slices_apart_sym, Hlast.
Qed.
Lemma poke_apart a b l j (v : T) ws : (thead a).1 = Some l → apart a b → poke b l j v ws = ws.
Proof. intros Ha Hab. unfold poke. rewrite decide_False; [done|]. intros [Hb _]. by apply (Hab l). Qed.

(** ** Slices are sequences *)

Context (Hsize : 0 < size) (Hlimit : limit < 2 ^ 64).
Lemma wp_reg regs r p s Q : regs !! r = Some p → Q p s → wp (reg regs r) s Q.
Proof. intros Hr HQ. by eapply wp_gets. Qed.
Lemma push_sim s regs ls r vs t : own s regs ls → ls !! r = Some vs → room size limit (Z.of_nat (length vs)) →
  wp (run_cmd regs (CPush r t)) s (λ x s', x = (regs, ANone) ∧ own s' regs (<[r:=vs ++ [t]]> ls)).
Proof.
  intros Hown Hvs Hroom. destruct (own_at _ _ _ _ _ Hown Hvs) as (p & a & Hp & Ha & Hb).
  apply wp_bind. eapply wp_reg; [done|]. rewrite <- (bk_len _ _ _ Hb) in Hroom. apply wp_bind. eapply wp_mono; [by eapply wp_Push|].
  intros [] s' ((a1 & Ha1 & Hb1) & Hot & Hpush & a2 & Ha2 & Hhd). assert (a2 = a1) as -> by congruence. apply wp_ret. split; [done|].
  eapply own_update; [done..|]. intros b ws Hbw Hab. specialize (Hpush b ws Hbw). revert Hpush. unfold pushed_on.
  destruct (thead a).1 as [l|] eqn:Hl; [|done]. rewrite (poke_apart _ _ _ _ _ _ Hl Hab). by destruct (len a <? cap a).
Qed.
Lemma set_sim s regs ls r vs i t : own s regs ls → ls !! r = Some vs → (i < length vs)%nat →
  wp (run_cmd regs (CSet r i t)) s (λ x s', x = (regs, ANone) ∧ own s' regs (<[r:=<[i:=t]> vs]> ls)).
Proof.
  intros Hown Hvs Hi. destruct (own_at _ _ _ _ _ Hown Hvs) as (p & a & Hp & Ha & Hb).
  apply wp_bind. eapply wp_reg; [done|]. apply wp_bind. eapply wp_mono; [by eapply wp_IndexSetOp|].
  intros [] s' (Hobjs & Hw). apply wp_ret. split; [done|]. pose proof (Hw a vs Hb) as Ha'. rewrite (written_self a vs s i t Hb Hi) in Ha'.
  eapply own_update; [done..|by rewrite Hobjs|exact Ha'|intros q _; by rewrite Hobjs|by left|].
  intros b ws Hbw Hab. specialize (Hw b ws Hbw). unfold written_on in Hw. destruct (thead a).1 as [l|] eqn:Hl; [|done].
  by rewrite (poke_apart _ _ _ _ _ _ Hl Hab) in Hw.
Qed.
Lemma append_sim s regs ls r r2 vs ws : own s regs ls → ls !! r = Some vs → ls !! r2 = Some ws → fits (length vs + length ws) →
  wp (run_cmd regs (CAppend r r2)) s (λ x s', ∃ q, x = (regs ++ [q], ANone) ∧ own s' (regs ++ [q]) (ls ++ [vs ++ ws])).
Proof.
  intros Hown Hvs Hws [Hn Hl]. destruct (own_at _ _ _ _ _ Hown Hvs) as (p & a & Hp & Ha & Hb).
  destruct (own_at _ _ _ _ _ Hown Hws) as (q & b & Hq & Ha2 & Hb2).
  do 2 (apply wp_bind; eapply wp_reg; [done|]). apply wp_bind. eapply wp_mono; [apply wp_Append; [done|done|by exists a|by exists b|done|done]|].
  intros x s' (Hx & Hot & Hk & c & Hc & Hbc & Hnew). apply wp_ret. exists x. split; [done|]. by eapply own_add.
Qed.
Lemma cmd_sim c s regs ls ls' x : own s regs ls → seq_cmd ls c = Some (ls', x) →
  wp (run_cmd regs c) s (λ y s', y.2 = x ∧ own s' y.1 ls').
Proof.
  intros Hown Hc. destruct c as [|r t|r i|r i t|r|r r2]; simpl in Hc.
  - injection Hc as <- <-. apply wp_bind, wp_NewSlice. intros p Hp. apply wp_ret. split; [done|].
    eapply own_add; [done|done| |apply lookup_insert_eq|apply backs_empty|by intros l|by intros l arr]. intros q Hq. by apply lookup_insert_ne.
  - apply bind_Some in Hc as (vs & Hvs & Hc). case_decide as Hroom; [|done]. injection Hc as <- <-.
    eapply wp_mono; [by eapply push_sim|]. by intros y s' [-> Hs].
  - apply bind_Some in Hc as (vs & Hvs & Hc). apply bind_Some in Hc as (t & Ht & [= <- <-]).
    destruct (own_at _ _ _ _ _ Hown Hvs) as (p & a & Hp & Ha & Hb). apply wp_bind. eapply wp_reg; [done|]. apply wp_bind.
    eapply wp_IndexOp; [by exists a|done|]. by apply wp_ret.
  - apply bind_Some in Hc as (vs & Hvs & Hc). case_decide as Hi; [|done]. injection Hc as <- <-.
    eapply wp_mono; [by eapply set_sim|]. by intros y s' [-> Hs].
  - apply bind_Some in Hc as (vs & Hvs & [= <- <-]). destruct (own_at _ _ _ _ _ Hown Hvs) as (p & a & Hp & Ha & Hb).
    apply wp_bind. eapply wp_reg; [done|]. apply wp_bind, wp_bind. eapply wp_get_obj; [done|]. apply wp_ret, wp_ret.
    by rewrite (bk_len _ _ _ Hb).
  - apply bind_Some in Hc as (vs & Hvs & Hc). apply bind_Some in Hc as (ws & Hws & Hc). case_decide as Hf; [|done]. injection Hc as <- <-.
    eapply wp_mono; [by eapply append_sim|]. by intros y s' (q & -> & Hs).
Qed.

(** C16. A program that makes slices, pushes, reads and writes elements, takes
    lengths and appends slices gets exactly the answers that the same commands
    give on sequences, as long as these have a meaning ([seq_cmds]): indices are
    in range, every push finds fewer than 2^30 elements and memory for twice
    their number, and every append makes fewer than 2^31 elements and fits the
    memory.  Then no operation loses an element when a slice grows, and none
    changes an element of another slice. *)
Theorem slices_refine cs s regs ls xs : own s regs ls → seq_cmds cs ls = Some xs → wp (run_cmds cs regs) s (λ ys _, ys = xs).
Proof.
  revert s regs ls xs. induction cs as [|c cs IH]; intros s regs ls xs Hown Hxs; simpl in Hxs |- *.
  { injection Hxs as <-. by apply wp_ret. }
  apply bind_Some in Hxs as ([ls' x] & Hc & Hxs). apply bind_Some in Hxs as (rest & Hrest & [= <-]).
  apply wp_bind. eapply wp_mono; [by eapply cmd_sim|]. intros [regs' y] s' [Hy Hs']. simpl in Hy, Hs'. subst y.
  apply wp_bind. eapply wp_mono; [by eapply IH|]. intros ys s'' ->. by apply wp_ret.
Qed.

(** ** Slices that share a block *)

(** C34. Slicing copies nothing: the part has the elements between the bounds;
    a write to the part is a write to the slice, at the index behind the start
    of the part; and a push on a part that ends inside of the slice replaces
    the element of the slice that follows the part. *)
Theorem slice_shares s p vs (start end_ i : nat) t : is_slice s p vs → (start ≤ end_ < length vs)%nat → (i < end_ - start)%nat →
  wp (r ← Slice_ p (Z.of_nat start) (Z.of_nat end_); IndexSetOp r (Z.of_nat i) t;; mret r) s
    (λ r s', is_slice s' r (<[i:=t]> (take (end_ - start) (drop start vs))) ∧ is_slice s' p (<[(start + i)%nat:=t]> vs)) ∧
  wp (r ← Slice_ p (Z.of_nat start) (Z.of_nat end_); Push 2 r t;; mret r) s
    (λ r s', is_slice s' r (take (end_ - start) (drop start vs) ++ [t]) ∧ is_slice s' p (<[end_:=t]> vs)).
Proof.
  intros (a & Ha & Hb) Hse Hi. pose proof Hb as [Hlen Hcap Hm].
  assert (length (take (end_ - start) (drop start vs)) = end_ - start)%nat as Hn by (rewrite length_take, length_drop; lia).
  destruct (thead a) as [[l|] k] eqn:Hth; [|destruct Hm; lia]. destruct Hm as [Hk _].
  split; apply wp_bind; (eapply wp_mono; [eapply wp_Slice_; [done|done|lia]|]); intros r s1 (Hr & Hot & Harr & b & Hrb & Hbe & Hbb);
    (assert (objs s1 !! p = Some a) as Ha1 by (rewrite Hot by congruence; done));
    (assert (backs s1 a vs) as Hb1 by (apply (backs_kept s); [intros l' arr; by rewrite Harr|done]));
    apply wp_bind.
  - eapply wp_mono; [by eapply (wp_IndexSetOp s1 r _ i t b); [..|rewrite Hn]|]. intros [] s2 [Ho Hw]. apply wp_ret. split.
    + exists b. rewrite Ho. split; [done|]. rewrite <- (written_self b _ s1) by (done || by rewrite Hn). by apply Hw.
    + exists a. rewrite Ho. split; [done|]. specialize (Hw a vs Hb1). revert Hw. unfold written_on, poke. rewrite Hbe, Hth. simpl.
      rewrite decide_True by (split; [done|lia]). by replace (Z.to_nat (k + Z.of_nat start + Z.of_nat i - k)) with (start + i)%nat by lia.
  - rewrite Hbe in Hbb, Hrb.
    eapply wp_mono; [eapply (push_room zero size limit s1 r _ t); [exact Hrb|exact Hbb|simpl; lia]|].
    intros [] s2 (Hs2 & l' & j & arr & Hl' & Hla & ->). apply wp_ret. split; [done|]. exists a.
    simpl in Hl' |- *. rewrite Hth in Hl'. simpl in Hl'. injection Hl' as <- <-.
    rewrite lookup_insert_ne by congruence. split; [done|]. apply backs_obj.
    assert (<[end_:=t]> vs = poke a l (k + Z.of_nat start + Z.of_nat (end_ - start)) t vs) as ->; [|by apply backs_poke; [done|done|lia]].
    unfold poke. rewrite Hth. simpl. rewrite decide_True by (split; [done|lia]). f_equal. lia.
Qed.

(** ** Slices that are too long *)

(** C35. The capacity doubles in 32 bits.  A slice of 2^30 elements that is full
    cannot grow: its capacity becomes -2^31, then 0, then 4, and copying the
    elements to the block of 4 leaves the block.  The push fails in any case,
    whatever memory there is and whatever the next call [self] would do. *)
Theorem Push_overflow s p a vs t self : objs s !! p = Some a → backs s a vs → Z.of_nat (length vs) = 2 ^ 30 → cap a = 2 ^ 30 → size < 2 ^ 32 →
  Push_body zero size limit (Push_body zero size limit (Push_body zero size limit self p t) p t) p t s = None.
Proof. intros Ha Hb Hl Hc Hsz. rewrite <- (bk_len _ _ _ Hb) in Hl. by eapply Push_overflow_ok. Qed.
End programs.

(** ** Instances *)

Definition demo_heap : heap := mk_heap {[1%positive := [10; 20; 30; 0]]} {[1%positive := mk_Slice (Some 1%positive, 0) 3 4]}.
Lemma demo_slice : is_slice demo_heap 1 [10; 20; 30].
Proof.
  eexists. split; [by vm_compute|]. split; [done|simpl; lia|]. split; [lia|]. eexists. split; [by vm_compute|]. split; [simpl; lia|done].
Qed.
Definition demo_cmds : list (cmd Z) :=
  [CNew; CPush 0 1; CPush 0 2; CPush 0 3; CNew; CPush 1 4; CSet 0 1 9; CAppend 0 1; CPush 0 5; CGet 2 1; CGet 2 3; CLen 0; CLen 2].
Lemma slices_refine_witness : wp (run_cmds 0 4 (2 ^ 40) demo_cmds []) (mk_heap ∅ ∅)
  (λ ys _, ys = [ANone; ANone; ANone; ANone; ANone; ANone; ANone; ANone; ANone; AElem 9; AElem 4; ALen 4; ALen 4]).
Proof.
  apply (slices_refine 0 4 (2 ^ 40) ltac:(lia) ltac:(lia) demo_cmds (mk_heap ∅ ∅) [] []); [|by vm_compute].
  split; [constructor|apply NoDup_nil_2|done].
Defined.
Lemma slice_shares_witness :
  wp (r ← Slice_ 1 1 2; Push 0 4 (2 ^ 40) 2 r 7;; mret r) demo_heap (λ r s', is_slice s' r [20; 7] ∧ is_slice s' 1 [10; 20; 7]).
Proof. apply (slice_shares 0 4 (2 ^ 40) demo_heap 1 [10; 20; 30] 1 2 0 7); [apply demo_slice|simpl; lia|lia]. Defined.
Definition full : Slice := mk_Slice (Some 1%positive, 0) (2 ^ 30) (2 ^ 30).
Definition full_heap (n : nat) : heap := mk_heap {[1%positive := replicate n 0]} {[1%positive := full]}.
Lemma full_slice n : Z.of_nat n = 2 ^ 30 → objs (full_heap n) !! 1%positive = Some full ∧ backs (full_heap n) full (replicate n 0).
Proof.
  intros Hn. split; [done|]. split; rewrite ?length_replicate; [by rewrite Hn|simpl; lia|]. split; [lia|]. exists (replicate n 0).
  split; [done|]. rewrite length_replicate, Hn. split; [simpl; lia|]. by rewrite drop_0, take_ge by (rewrite length_replicate; lia).
Qed.
Lemma Push_overflow_witness : Push_body 0 4 (2 ^ 40) (Push_body 0 4 (2 ^ 40) (Push 0 4 (2 ^ 40) 2 1 7) 1 7) 1 7 (full_heap (Z.to_nat (2 ^ 30))) = None.
Proof.
  assert (Z.of_nat (Z.to_nat (2 ^ 30)) = 2 ^ 30) as Hn by (apply Z2Nat.id; lia). revert Hn.
  generalize (Z.to_nat (2 ^ 30)). intros n Hn. destruct (full_slice n Hn) as [Hf Hb].
  apply (Push_overflow 0 4 (2 ^ 40) ltac:(lia) _ _ full _ _ _ Hf Hb); [by rewrite length_replicate|done|lia].
Defined.
