(* ===== verification/Tcp.v ===== *)
(** * Reading from a connection: buf.calc and tcp.calc

    src/runtime/libuv/buf.calc and the reading half of src/runtime/libuv/tcp.calc
    over the memory of Arrays.v.  A connection has a buffer for what has
    arrived; a task that reads asks for a number of bytes and gets a pointer
    into the block of the buffer.  All of this runs on the thread of the event
    loop: the jobs that [ReadBufAsync] queues, and libuv's callbacks. *)
From S2P Require Import Prelude Arrays.
#[local] Open Scope Z_scope.

(** buf.calc; a task is named by a number, [None] is [nil]. *)
Record Buffer := mk_Buffer { max : Z; buf : addr; blen : Z; explen : Z; task : option nat }.
Definition set_max (n : Z) (b : Buffer) : Buffer := mk_Buffer n (buf b) (blen b) (explen b) (task b).
Definition set_buf (p : addr) (b : Buffer) : Buffer := mk_Buffer (max b) p (blen b) (explen b) (task b).
Definition set_blen (n : Z) (b : Buffer) : Buffer := mk_Buffer (max b) (buf b) n (explen b) (task b).
Definition set_explen (n : Z) (b : Buffer) : Buffer := mk_Buffer (max b) (buf b) (blen b) n (task b).
Definition set_task (t : option nat) (b : Buffer) : Buffer := mk_Buffer (max b) (buf b) (blen b) (explen b) t.

Section tcp.
Context {T : Type} (zero : T) (limit : Z).
#[local] Notation heap := (heap (T:=T) (O:=Buffer)).
#[local] Notation gc_malloc := (gc_malloc (O:=Buffer) zero 1 limit).
#[local] Notation memcpy := (mem_copy (T:=T) (O:=Buffer) 1).

(** ** Buffers *)

Definition Write (p : positive) (data : addr) (len : Z) : ST heap unit :=
  b ← get_obj p;
  if max b <? i64 (len + blen b) then
    newbuf ← gc_malloc (u64 (i64 (len + blen b)));
    memcpy newbuf (buf b) (u64 (blen b));;
    let ptr := gep newbuf (blen b) in
    memcpy ptr data (u64 len);;
    upd_obj p (set_max (i64 (len + blen b)));;
    upd_obj p (set_blen (i64 (len + blen b)));;
    upd_obj p (set_buf newbuf)
  else
    let ptr := gep (buf b) (blen b) in
    memcpy ptr data (u64 len);;
    upd_obj p (set_blen (i64 (len + blen b))).

Definition PreWrite (p : positive) (len : Z) : ST heap addr :=
  b ← get_obj p;
  if max b <? i64 (len + blen b) then
    newbuf ← gc_malloc (u64 (i64 (len + blen b)));
    c_when (0 <? blen b) (memcpy newbuf (buf b) (u64 (blen b)));;
    upd_obj p (set_max (i64 (len + blen b)));;
    upd_obj p (set_buf newbuf);;
    b ← get_obj p;
    mret (gep (buf b) (blen b))
  else mret (gep (buf b) (blen b)).

(** ** Connections *)

(** tcp.calc: the result of a read. *)
Record Buf := mk_Buf { Data : addr; Len : Z }.
(** The memory, the pointer in the handle of the connection, and what tasks
    have been given, in order. *)
Record conn := mk_conn { mem : heap; data : option positive; given : list (nat * Buf) }.
Definition on_mem {A} (m : ST heap A) : ST conn A := λ s,
  match m (mem s) with Some (a, h) => Some (a, mk_conn h (data s) (given s)) | None => None end.
Definition tcp_data : ST conn (option positive) := st_gets (λ s, Some (data s)).
Definition put_tcp_data (p : positive) : ST conn unit := st_mod (λ s, Some (mk_conn (mem s) (Some p) (given s))).
(** [SetResult] and [TryQueueContinuous]. *)
Definition give (ag : nat) (r : Buf) : ST conn unit := st_mod (λ s, Some (mk_conn (mem s) (data s) (given s ++ [(ag, r)]))).

(** The [uv_buf_t] that libuv passes to be filled. *)
Definition tcpAllocCB (suggested_size : Z) : ST conn (addr * Z) :=
  d ← tcp_data;
  match d with
  | None => mret (nil, 0)
  | Some p => a ← on_mem (PreWrite p suggested_size); mret (a, suggested_size)
  end.

(** The callback of [uv_read_start], which is called behind
    [put_tcp_data]: libuv calls it only then. *)
Definition read_cb (nread : Z) : ST conn unit :=
  d ← tcp_data;
  match d with
  | None => mret tt
  | Some p =>
    b ← on_mem (get_obj p);
    match task b with
    | None => mret tt
    | Some ag1 =>
      if nread <=? 0 then give ag1 (mk_Buf (buf b) (blen b))
      else
        on_mem (upd_obj p (set_blen (i64 (blen b + nread))));;
        b ← on_mem (get_obj p);
        if explen b <=? blen b then
          give ag1 (mk_Buf (buf b) (explen b));;
          on_mem (upd_obj p (set_buf (gep (buf b) (explen b))));;
          on_mem (upd_obj p (set_blen (i64 (blen b - explen b))));;
          on_mem (upd_obj p (set_max (i64 (max b - explen b))));;
          on_mem (upd_obj p (set_task None))
        else mret tt
    end
  end.

(** The job that [ReadBufAsync] queues. *)
Definition ReadBuf (ag : nat) (len : Z) : ST conn unit :=
  d ← tcp_data;
  match d with
  | Some p =>
    b ← on_mem (get_obj p);
    if len <=? blen b then
      on_mem (upd_obj p (set_blen (i64 (blen b - len))));;
      on_mem (upd_obj p (set_max (i64 (max b - len))));;
      on_mem (upd_obj p (set_buf (gep (buf b) len)));;
      give ag (mk_Buf (buf b) len)
    else
      on_mem (upd_obj p (set_task (Some ag)));;
      on_mem (upd_obj p (set_explen len))
  | None =>
    p ← on_mem (new_obj (mk_Buffer 0 nil 0 len (Some ag)));
    put_tcp_data p
  end.

(** ** What happens to a connection *)

(** libuv asks for memory, reads into it and says how much it has read; a
    number that is not positive is an error, the end, or nothing to read. *)
Inductive event :=
  | ERead (ag : nat) (len : Z)
  | EData (suggested_size : Z) (bs : list T)
  | ENone (suggested_size nread : Z).
Definition put (p : addr) (bs : list T) : ST heap unit :=
  st_mod (λ s, '(l, a, i) ← elems p (Z.of_nat (length bs)) s; Some (set_array l (list_inserts i bs a) s)).
Definition run_event (e : event) : ST conn unit :=
  match e with
  | ERead ag len => ReadBuf ag len
  | EData sz bs =>
    b ← tcpAllocCB sz;
    on_mem (put b.1 bs);;
    read_cb (Z.of_nat (length bs))
  | ENone sz nread => tcpAllocCB sz;; read_cb nread
  end.
Fixpoint run_events (es : list event) : ST conn unit :=
  match es with [] => mret tt | e :: es => run_event e;; run_events es end.
Definition fresh_conn : conn := mk_conn (mk_heap ∅ ∅) None [].

(** What the tasks see when they look at their results. *)
Definition peek (h : heap) (r : Buf) : option (list T) :=
  if Len r =? 0 then Some []
  else '(_, a, i) ← elems (Data r) (Len r) h; Some (take (Z.to_nat (Len r)) (drop i a)).
Definition seen (s : conn) : option (list (nat * list T)) :=
  mapM (λ r, bs ← peek (mem s) r.2; Some (r.1, bs)) (given s).

(** ** What a connection means *)

(** The task that waits and what for; what has arrived and was not read; the
    answers. *)
Record stream := mk_stream { pending : option (nat * nat); unread : list T; answers : list (nat * list T); ended : bool }.
Definition new_stream : stream := mk_stream None [] [] false.
Definition fits (n : Z) : Prop := n < 2 ^ 63 ∧ n ≤ limit.
(** One task reads at a time, data arrives only while a task waits, and
    nothing happens after the end. *)
Definition stream_event (e : event) (st : stream) : option stream :=
  if ended st then None else
  match e, pending st with
  | ERead ag len, None =>
    if decide (0 < len < 2 ^ 63) then
      let n := Z.to_nat len in
      if decide (n ≤ length (unread st))%nat then
        Some (mk_stream None (drop n (unread st)) (answers st ++ [(ag, take n (unread st))]) false)
      else Some (mk_stream (Some (ag, n)) (unread st) (answers st) false)
    else None
  | EData sz bs, Some (ag, n) =>
    if decide (0 < Z.of_nat (length bs) ≤ sz ∧ fits (sz + Z.of_nat (length (unread st)))) then
      let all := unread st ++ bs in
      if decide (n ≤ length all)%nat then Some (mk_stream None (drop n all) (answers st ++ [(ag, take n all)]) false)
      else Some (mk_stream (Some (ag, n)) all (answers st) false)
    else None
  | ENone sz nread, Some (ag, n) =>
    if decide (0 < sz ∧ nread < 0 ∧ fits (sz + Z.of_nat (length (unread st)))) then
      Some (mk_stream None (unread st) (answers st ++ [(ag, unread st)]) true)
    else None
  | _, _ => None
  end.
Fixpoint stream_events (es : list event) (st : stream) : option stream :=
  match es with [] => Some st | e :: es => st ← stream_event e st; stream_events es st end.
(** What the code makes of any order of events.  Bytes that arrive when no task
    waits are dropped.  A callback without bytes gives the task that waits what
    there is, and keeps both the task and the bytes.  A read that can be
    answered leaves the task that waits alone, one that cannot takes its place.
    ([ended] is not used.)  libuv calls only behind the first read. *)
Definition started (st : stream) : Prop := is_Some (pending st) ∨ (0 < length (answers st))%nat.
Definition conn_event (e : event) (st : stream) : option stream :=
  match e with
  | ERead ag len =>
    if decide (0 < len < 2 ^ 63) then
      let n := Z.to_nat len in
      if decide (n ≤ length (unread st))%nat then
        Some (mk_stream (pending st) (drop n (unread st)) (answers st ++ [(ag, take n (unread st))]) false)
      else Some (mk_stream (Some (ag, n)) (unread st) (answers st) false)
    else None
  | EData sz bs =>
    if decide (started st ∧ 0 < Z.of_nat (length bs) ≤ sz ∧ fits (sz + Z.of_nat (length (unread st)))) then
      match pending st with
      | None => Some st
      | Some (ag, n) =>
        let all := unread st ++ bs in
        if decide (n ≤ length all)%nat then Some (mk_stream None (drop n all) (answers st ++ [(ag, take n all)]) false)
        else Some (mk_stream (Some (ag, n)) all (answers st) false)
      end
    else None
  | ENone sz nread =>
    if decide (started st ∧ 0 < sz ∧ nread ≤ 0 ∧ fits (sz + Z.of_nat (length (unread st)))) then
      match pending st with
      | None => Some st
      | Some (ag, n) => Some (mk_stream (Some (ag, n)) (unread st) (answers st ++ [(ag, unread st)]) false)
      end
    else None
  end.
Fixpoint conn_events (es : list event) (st : stream) : option stream :=
  match es with [] => Some st | e :: es => st ← conn_event e st; conn_events es st end.
(** What arrives. *)
Definition arrived (es : list event) : list T := es ≫= λ e, match e with EData _ bs => bs | _ => [] end.
End tcp.
