(* ===== verification/TcpTheorems.v ===== *)
(** * What the readers of a connection get

    The bytes that arrive reach the tasks that read, in order and whole, as
    long as data arrives only while a task waits; what happens otherwise. *)
From Stdlib Require Import Init.Byte.
From S2P Require Import Prelude Arrays Tcp.
#[local] Open Scope Z_scope.

Section tcp.
Context {T : Type} (zero : T) (limit : Z).
#[local] Notation heap := (heap (T:=T) (O:=Buffer)).
#[local] Notation conn := (conn (T:=T)).
Implicit Types h : heap.

(** ** Parts of blocks *)

(** What a task was given: it lies in front of [head], from where on the buffer
    is written. *)
Definition region h (head : addr) (r : Buf) (bs : list T) : Prop :=
  Len r = Z.of_nat (length bs) ∧ ∃ l j arr, Data r = (Some l, j) ∧ 0 ≤ j ∧ arrays h !! l = Some arr ∧
    j + Len r ≤ Z.of_nat (length arr) ∧ take (length bs) (drop (Z.to_nat j) arr) = bs ∧ (head.1 = Some l → j + Len r ≤ head.2).
Definition regions_kept h head h' head' : Prop := ∀ r bs, region h head r bs → region h' head' r bs.
Lemma region_head h head h' head' r bs : region h head r bs → region h' head' r bs → region h' head r bs.
Proof.
  intros (_ & l & j & arr & Hd & _ & _ & _ & _ & Hhd) (Hn & l' & j' & arr' & Hd' & Hj & Ha & Hle & Hbs & _). rewrite Hd in Hd'. injection Hd' as <- <-.
  split; [done|]. exists l, j, arr'. by do 5 (split; [done|]).
Qed.
Lemma region_peek h head r bs : region h head r bs → peek h r = Some bs.
Proof.
  intros (Hn & l & j & arr & Hd & Hj & Ha & Hle & Hbs & _). unfold peek. destruct (Z.eqb_spec (Len r) 0) as [H0|H0]; [destruct bs; [done|simpl in Hn; lia]|].
  unfold elems. rewrite Hd. simpl. rewrite Ha. simpl. rewrite decide_True by lia. simpl. by rewrite Hn, Nat2Z.id, Hbs.
Qed.
(** Elements behind those that are held. *)
Lemma held_write h l i cap vs bs arr : held h (Some l, i) cap vs → arrays h !! l = Some arr →
  Z.of_nat (length vs + length bs) ≤ cap →
  let h' := set_array l (list_inserts (Z.to_nat (i + Z.of_nat (length vs))) bs arr) h in
  held h' (Some l, i) cap (vs ++ bs) ∧
  regions_kept h (Some l, i + Z.of_nat (length vs)) h' (Some l, i + Z.of_nat (length vs) + Z.of_nat (length bs)).
Proof.
  intros (Hi & arr' & Ha' & Hle & Hvs) Ha Hc. assert (arr' = arr) as -> by congruence. set (k := Z.to_nat (i + Z.of_nat (length vs))).
  assert (length vs ≤ length arr - Z.to_nat i)%nat as Hlv by lia.
  assert (list_inserts k bs arr = take k arr ++ bs ++ drop (k + length bs) arr) as Hins by (apply list_inserts_app; unfold k; lia).
  intros h'. split.
  - split; [done|]. exists (list_inserts k bs arr). unfold h'. simpl. rewrite lookup_insert_eq, length_inserts. split; [done|]. split; [done|].
    rewrite Hins, drop_app_le by (rewrite length_take; unfold k; lia). rewrite (assoc_L (++)), take_app_le.
    2: { rewrite !length_app, length_drop, length_take. unfold k. lia. }
    assert (drop (Z.to_nat i) (take k arr) = vs) as ->; [|by rewrite take_ge].
    rewrite skipn_firstn_comm, <- Hvs at 1. f_equal. unfold k. lia.
  - intros r ws (Hn & l' & j & arr' & Hd & Hj & Har & Hjl & Hws & Hhd). split; [done|]. destruct (decide (l' = l)) as [->|Hne].
    + assert (arr' = arr) as -> by congruence. specialize (Hhd eq_refl). simpl in Hhd. exists l, j, (list_inserts k bs arr).
      unfold h'. simpl. rewrite lookup_insert_eq, length_inserts. do 4 (split; [done|]). split; [|lia].
      rewrite Hins, drop_app_le, take_app_le by (rewrite ?length_drop, length_take; unfold k; lia).
      rewrite skipn_firstn_comm, take_take, Nat.min_l by (unfold k; lia). done.
    + exists l', j, arr'. unfold h'. simpl. rewrite lookup_insert_ne by done. do 5 (split; [done|]). intros [= ->]. done.
Qed.
(** The first of the elements are read, and may then be given away. *)
Lemma held_region h l i cap vs n : held h (Some l, i) cap vs → (n ≤ length vs)%nat → Z.of_nat (length vs) ≤ cap →
  region h (Some l, i + Z.of_nat (length vs)) (mk_Buf (Some l, i) (Z.of_nat n)) (take n vs).
Proof.
  intros (Hi & arr & Ha & Hle & Hvs) Hn Hc. split; simpl; [rewrite length_take; lia|]. exists l, i, arr. do 3 (split; [done|]). split; [lia|].
  split; [|lia]. rewrite length_take. rewrite <- Hvs at 2. rewrite take_take. f_equal; lia.
Qed.
Lemma held_drop h head cap vs n : held h head cap vs → (n ≤ length vs)%nat → Z.of_nat (length vs) ≤ cap → (0 < n)%nat →
  held h (gep head (Z.of_nat n)) (cap - Z.of_nat n) (drop n vs).
Proof.
  intros Hm Hn Hc Hn0. destruct head as [[l|] i]; [|destruct Hm; lia]. destruct Hm as (Hi & arr & Ha & Hle & Hvs).
  split; simpl; [lia|]. exists arr. split; [done|]. split; [lia|]. rewrite <- Hvs at 2. rewrite skipn_firstn_comm, drop_drop, length_drop.
  f_equal. f_equal; lia.
Qed.
Lemma gep_gep (p : addr) i j : gep (gep p i) (j - i) = gep p j.
Proof. unfold gep. simpl. f_equal. lia. Qed.
Lemma regions_new h h' head l i : blocks_kept h h' → arrays h !! l = None → regions_kept h head h' (Some l, i).
Proof.
  intros Hk Hl r bs (Hn & l' & j & arr & Hd & Hj & Ha & Hm). split; [done|]. exists l', j, arr. split; [done|]. split; [done|]. split; [by apply Hk|].
  destruct Hm as (H1 & H2 & _). split; [done|]. split; [done|]. simpl. intros [= <-]. congruence.
Qed.

(** ** Buffers *)

(** The buffer holds [vs]. *)
Record buffered h (b : Buffer) (vs : list T) : Prop := mk_buffered {
  bu_len : blen b = Z.of_nat (length vs);
  bu_max : blen b ≤ max b ∧ max b ≤ limit ∧ max b < 2 ^ 63;
  bu_held : held h (buf b) (max b) vs;
}.
Lemma buffered_obj h p o b vs : buffered h b vs → buffered (set_obj p o h) b vs.
Proof. by intros []. Qed.
Lemma fresh_held h b vs l n : buffered h b vs → arrays h !! l = None → Z.of_nat (length vs) ≤ Z.of_nat n →
  let h' := set_array l (list_inserts 0 vs (replicate n zero)) h in
  held h' (Some l, 0) (Z.of_nat n) vs ∧ ∀ head i, regions_kept h head h' (Some l, i).
Proof.
  intros Hb Hl Hn h'. split; [|intros head i; by apply regions_new; [apply kept_new|]].
  split; [done|]. exists (list_inserts 0 vs (replicate n zero)). unfold h'. simpl.
  rewrite lookup_insert_eq, length_inserts, length_replicate. split; [done|]. split; [lia|].
  apply take_inserts. rewrite length_replicate. lia.
Qed.
Lemma wp_PreWrite h p b vs len : objs h !! p = Some b → buffered h b vs → 0 < len → fits limit (len + Z.of_nat (length vs)) →
  wp (PreWrite zero limit p len) h (λ a h', ∃ m l i, let b' := set_buf (Some l, i) (set_max m b) in
    a = gep (Some l, i) (blen b) ∧ objs h' !! p = Some b' ∧ buffered h' b' vs ∧ len + blen b ≤ m ∧
    regions_kept h (gep (buf b) (blen b)) h' a).
Proof.
  intros Ho Hb Hlen [Hf1 Hf2]. pose proof Hb as [Hl (Hm1 & Hm2 & Hm3) Hh]. unfold PreWrite. apply wp_bind. eapply wp_get_obj; [done|].
  rewrite i64_small by lia. destruct (Z.ltb_spec (max b) (len + blen b)) as [Hlt|Hge].
  - rewrite (u64_small (len + blen b)), (u64_small (blen b)) by lia. apply wp_bind, wp_gc_malloc; [lia|]. intros l Hfr. rewrite Z.div_1_r.
    set (n := Z.to_nat (len + blen b)). set (h1 := set_array l _ h). apply wp_bind.
    apply (wp_mono _ _ (λ _ h2, h2 = set_array l (list_inserts 0 vs (replicate n zero)) h)).
    { assert (∀ a', set_array l a' h1 = set_array l a' h) as Hset by (intros a'; unfold set_array, h1; simpl; by rewrite insert_insert_eq).
      apply wp_when. destruct (Z.ltb_spec 0 (blen b)) as [H0|H0].
      - rewrite Hl. replace (Z.of_nat (length vs)) with (1 * Z.of_nat (length vs)) by lia.
        eapply (wp_copy_held 1 h h1 (buf b) (max b) vs l 0 (replicate n zero)); try done; try lia.
        + by apply kept_new. + apply lookup_insert_eq. + rewrite length_replicate. unfold n. lia.
      - destruct vs; [|simpl in Hl; lia]. done. }
    intros _ h2 ->. destruct (fresh_held h b vs l n Hb Hfr) as [Hheld Hreg]; [unfold n; lia|].
    apply wp_bind. eapply wp_upd_obj; [done|]. apply wp_bind. eapply wp_upd_obj; [apply lookup_insert_eq|].
    apply wp_bind. eapply wp_get_obj; [apply lookup_insert_eq|]. apply wp_ret. exists (len + blen b), l, 0. simpl.
    split; [done|]. split; [by rewrite lookup_insert_eq|]. split; [|split; [lia|apply Hreg]].
    apply buffered_obj, buffered_obj. split; simpl; [done|lia|]. unfold n in Hheld. by rewrite Z2Nat.id in Hheld by lia.
  - apply wp_ret. destruct (buf b) as [[l|] i] eqn:Hbuf; [|destruct Hh; lia]. exists (max b), l, i. simpl.
    assert (set_buf (Some l, i) (set_max (max b) b) = b) as -> by (destruct b; simpl in *; by subst).
    split; [done|]. split; [done|]. split; [done|]. split; [lia|]. by intros r bs.
Qed.
Lemma wp_put h p b vs l i bs : objs h !! p = Some b → buffered h b vs → buf b = (Some l, i) → Z.of_nat (length bs) + blen b ≤ max b →
  wp (put (gep (Some l, i) (blen b)) bs) h (λ _ h', objs h' = objs h ∧ buffered h' (set_blen (blen b + Z.of_nat (length bs)) b) (vs ++ bs) ∧
    regions_kept h (gep (Some l, i) (blen b)) h' (gep (Some l, i) (blen b + Z.of_nat (length bs)))).
Proof.
  intros Ho [Hl Hm Hh] Hbuf Hle. rewrite Hbuf in Hh. pose proof Hh as (Hi & arr & Ha & Hc & Hvs).
  destruct (held_write h l i (max b) vs bs arr Hh Ha) as [Hh' Hreg]; [lia|].
  eapply wp_mod; [unfold elems; simpl; rewrite Ha; simpl; rewrite decide_True by lia; done|].
  rewrite Hl. split; [done|]. split; [|unfold gep; simpl; by rewrite (assoc_L Z.add)]. split; simpl; [rewrite length_app; lia|lia|]. by rewrite Hbuf.
Qed.

(** [Write] appends what is in another block. *)
Lemma wp_Write h p b vs src bs cap : objs h !! p = Some b → buffered h b vs → held h src cap bs → Z.of_nat (length bs) ≤ cap →
  src.1 ≠ (buf b).1 → fits limit (Z.of_nat (length vs + length bs)) →
  wp (Write zero limit p src (Z.of_nat (length bs))) h (λ _ h', ∃ b', objs h' !! p = Some b' ∧ buffered h' b' (vs ++ bs)).
Proof.
  intros Ho Hb Hs Hsc Hne [Hf1 Hf2]. pose proof Hb as [Hl (Hm1 & Hm2 & Hm3) Hh]. unfold Write. apply wp_bind. eapply wp_get_obj; [done|].
  rewrite i64_small by lia. destruct (Z.ltb_spec (max b) (Z.of_nat (length bs) + blen b)) as [Hlt|Hge].
  - rewrite !u64_small by lia. apply wp_bind, wp_gc_malloc; [lia|]. intros l Hfr. rewrite Z.div_1_r.
    set (n := Z.to_nat (Z.of_nat (length bs) + blen b)). set (h1 := set_array l _ h).
    assert (∀ a', set_array l a' h1 = set_array l a' h) as Hset by (intros a'; unfold set_array, h1; simpl; by rewrite insert_insert_eq).
    destruct (fresh_held h b vs l n Hb Hfr) as [Hheld Hreg]; [unfold n; lia|].
    apply wp_bind. rewrite Hl. replace (Z.of_nat (length vs)) with (1 * Z.of_nat (length vs)) at 1 by lia.
    eapply (wp_copy_held 1 h h1 (buf b) (max b) vs l 0 (replicate n zero)); try done; try lia.
    { by apply kept_new. } { apply lookup_insert_eq. } { rewrite length_replicate. unfold n. lia. }
    rewrite Hset. apply wp_bind. replace (Z.of_nat (length bs)) with (1 * Z.of_nat (length bs)) at 1 by lia. unfold gep. simpl.
    eapply (wp_copy_held 1 h _ src cap bs l (Z.of_nat (length vs))); try done; try lia.
    { by apply kept_new. } { apply lookup_insert_eq. } { rewrite length_inserts, length_replicate. unfold n. lia. }
    destruct (held_write _ l 0 (Z.of_nat n) vs bs _ Hheld ltac:(apply lookup_insert_eq)) as [Hheld' _]; [unfold n; lia|].
    apply wp_bind. eapply wp_upd_obj; [done|]. apply wp_bind. eapply wp_upd_obj; [apply lookup_insert_eq|]. eapply wp_upd_obj; [apply lookup_insert_eq|].
    eexists. split; [apply lookup_insert_eq|]. do 3 apply buffered_obj. split; simpl; [rewrite length_app; lia|lia|].
    rewrite Z.add_0_l in Hheld'. replace (Z.of_nat n) with (Z.of_nat (length bs) + Z.of_nat (length vs)) in Hheld' by (unfold n; lia). exact Hheld'.
  - rewrite u64_small by lia. apply wp_bind. destruct (decide (length bs = 0%nat)) as [H0|H0].
    { destruct bs; [|done]. apply wp_mem_copy_0. eapply wp_upd_obj; [done|]. eexists. split; [apply lookup_insert_eq|].
      apply buffered_obj. rewrite app_nil_r. split; [by rewrite <- Hl|simpl; lia|done]. }
    destruct (buf b) as [[l|] i] eqn:Hbuf; [|destruct Hh; lia]. destruct src as [[l'|] j]; [|destruct Hs; lia]. simpl in Hne.
    pose proof Hh as (Hi & arr & Ha & Hc & _). destruct Hs as (Hj & arr' & Ha' & Hc' & Hbs).
    destruct (held_write h l i (max b) vs bs arr Hh Ha) as [Hheld _]; [lia|].
    replace (Z.of_nat (length bs)) with (1 * Z.of_nat (length bs)) at 1 by lia. unfold gep. simpl.
    eapply (wp_mem_copy 1 l _ arr l' j arr'); try done; try lia; [congruence|]. rewrite Nat2Z.id, Hbs, Hl.
    eapply wp_upd_obj; [done|]. eexists. split; [apply lookup_insert_eq|]. apply buffered_obj.
    split; simpl; [rewrite length_app; lia|lia|]. by rewrite Hbuf.
Qed.

(** What was put behind the buffer is not in it until its length says so. *)
Lemma buffered_short h b n vs bs : buffered h (set_blen n b) (vs ++ bs) → blen b = Z.of_nat (length vs) → buffered h b vs.
Proof.
  intros [Hl (Hm1 & Hm2 & Hm3) Hh] Hb. simpl in *. rewrite length_app in Hl. split; [done|lia|]. destruct (buf b) as [[l|] i]; [|done].
  destruct Hh as (Hi & arr & Ha & Hle & Hvs). split; [done|]. exists arr. do 2 (split; [done|]). apply (f_equal (take (length vs))) in Hvs.
  rewrite take_take, take_app_length, length_app, Nat.min_l in Hvs by lia. exact Hvs.
Qed.

(** ** A connection follows its machine *)

Context (Hlimit : 0 ≤ limit).

Definition answered h (head : addr) (rs : list (nat * Buf)) (xs : list (nat * list T)) : Prop :=
  Forall2 (λ r x, r.1 = x.1 ∧ region h head r.2 x.2) rs xs.
Lemma answered_kept h head h' head' rs xs : regions_kept h head h' head' → answered h head rs xs → answered h' head' rs xs.
Proof. intros Hk. intros Ha. eapply Forall2_impl; [exact Ha|]. intros r x [Hx Hr]. split; [done|by apply Hk]. Qed.
Lemma answered_seen s head xs : answered (mem s) head (given s) xs → seen s = Some xs.
Proof.
  unfold seen. destruct s as [h d rs]. simpl. induction 1 as [|[ag r] [ag' x] rs xs [Hag Hr] _ IH]; [done|]. simpl in *. subst ag'.
  by rewrite (region_peek _ _ _ _ Hr), IH.
Qed.
Definition tail_of (b : Buffer) : addr := gep (buf b) (blen b).
Record follows (s : conn) (st : stream (T:=T)) (p : positive) (b : Buffer) : Prop := mk_follows {
  fo_obj : objs (mem s) !! p = Some b;
  fo_buf : buffered (mem s) b (unread st);
  fo_task : task b = fst <$> pending st;
  fo_len ag n : pending st = Some (ag, n) → explen b = Z.of_nat n ∧ (0 < n)%nat;
  fo_answers : answered (mem s) (tail_of b) (given s) (answers st);
}.
Definition conn_inv (s : conn) (st : stream) : Prop :=
  match data s with
  | None => st = new_stream ∧ given s = []
  | Some p => ∃ b, follows s st p b
  end.

Lemma wp_on_mem {A} (m : ST heap A) s (Q : A → conn → Prop) :
  wp m (mem s) (λ a h, Q a (mk_conn h (data s) (given s))) → wp (on_mem m) s Q.
Proof. intros (a & h & Hm & HQ). exists a, (mk_conn h (data s) (given s)). split; [|done]. unfold on_mem. by rewrite Hm. Qed.
Lemma wp_tcp_data s (Q : option positive → conn → Prop) : Q (data s) s → wp tcp_data s Q.
Proof. intros HQ. by eapply wp_gets. Qed.
Lemma wp_on_get p o s (Q : Buffer → conn → Prop) : objs (mem s) !! p = Some o → Q o s → wp (on_mem (get_obj p)) s Q.
Proof. intros Ho HQ. apply wp_on_mem. eapply wp_get_obj; [done|]. by destruct s. Qed.
Lemma wp_on_upd p f o s (Q : unit → conn → Prop) : objs (mem s) !! p = Some o →
  Q tt (mk_conn (set_obj p (f o) (mem s)) (data s) (given s)) → wp (on_mem (upd_obj p f)) s Q.
Proof. intros Ho HQ. apply wp_on_mem. by eapply wp_upd_obj. Qed.

(** The first [n] bytes go to the task [ag]. *)
Lemma answer_ok h b vs n ag rs xs : buffered h b vs → (0 < n ≤ length vs)%nat → answered h (tail_of b) rs xs →
  let b' := mk_Buffer (max b - Z.of_nat n) (gep (buf b) (Z.of_nat n)) (blen b - Z.of_nat n) (explen b) None in
  buffered h b' (drop n vs) ∧ answered h (tail_of b') (rs ++ [(ag, mk_Buf (buf b) (Z.of_nat n))]) (xs ++ [(ag, take n vs)]).
Proof.
  intros [Hl (Hm1 & Hm2 & Hm3) Hh] Hn Ha b'. split.
  - split; simpl; [rewrite length_drop; lia|lia|]. apply held_drop; [done|lia..].
  - unfold b', tail_of. simpl. rewrite gep_gep. apply Forall2_app; [done|]. constructor; [|constructor]. split; [done|]. simpl.
    destruct (buf b) as [[l|] i] eqn:Hbuf; [|destruct Hh; lia]. unfold gep. simpl. rewrite Hl. eapply held_region; [done|lia..].
Qed.
(** All the bytes go to the task [ag], and stay. *)
Lemma answer_all h b l i vs ag rs xs : buffered h b vs → buf b = (Some l, i) → answered h (tail_of b) rs xs →
  answered h (tail_of b) (rs ++ [(ag, mk_Buf (buf b) (blen b))]) (xs ++ [(ag, vs)]).
Proof.
  intros [Hl (Hm1 & Hm2 & Hm3) Hh] Hbuf Ha. apply Forall2_app; [done|]. constructor; [|constructor]. split; [done|]. simpl.
  unfold tail_of, gep. rewrite Hbuf in Hh |- *. simpl. rewrite Hl. rewrite <- (take_ge vs (length vs)) at 3 by done. eapply held_region; [done|lia..].
Qed.

Lemma read_sim s st st' ag len : conn_inv s st → conn_event limit (ERead ag len) st = Some st' →
  wp (ReadBuf ag len) s (λ _ s', conn_inv s' st').
Proof.
  intros Hinv Hst. simpl in Hst. case_decide as Hlen; [|done]. apply wp_bind, wp_tcp_data. unfold conn_inv in Hinv. destruct (data s) as [p|] eqn:Hd.
  - destruct Hinv as (b & [Ho Hb Ht Hx Ha]). pose proof Hb as [Hl (Hm1 & Hm2 & Hm3) Hh]. apply wp_bind. eapply wp_on_get; [done|].
    destruct (Z.leb_spec len (blen b)) as [Hle|Hgt].
    + rewrite decide_True in Hst by lia. injection Hst as <-. rewrite !i64_small by lia.
      apply wp_bind. eapply wp_on_upd; [done|]. apply wp_bind. eapply wp_on_upd; [apply lookup_insert_eq|].
      apply wp_bind. eapply wp_on_upd; [apply lookup_insert_eq|]. eapply wp_mod; [done|]. simpl. unfold conn_inv. simpl. rewrite Hd.
      destruct (answer_ok _ b _ (Z.to_nat len) ag _ _ Hb ltac:(lia) Ha) as [Hb' Ha']. rewrite Z2Nat.id in Hb', Ha' by lia.
      eexists. split; simpl; [apply lookup_insert_eq| |simpl; by rewrite Ht|done|exact Ha'].
      destruct Hb' as [? ? ?]. by do 3 apply buffered_obj.
    + rewrite decide_False in Hst by lia. injection Hst as <-. apply wp_bind. eapply wp_on_upd; [done|]. eapply wp_on_upd; [apply lookup_insert_eq|].
      unfold conn_inv. simpl. rewrite Hd. eexists. split; simpl; [apply lookup_insert_eq| |done| |exact Ha].
      * do 2 apply buffered_obj. by destruct Hb.
      * intros ag' n [= <- <-]. simpl. lia.
  - destruct Hinv as (-> & Hg). simpl in Hst. rewrite decide_False in Hst by lia. injection Hst as <-.
    apply wp_bind, wp_on_mem, wp_new_obj. intros p Hfr. eapply wp_mod; [done|]. unfold conn_inv. simpl.
    eexists. split; simpl; [apply lookup_insert_eq| |done| |rewrite Hg; constructor].
    + split; simpl; [done| |done]. lia.
    + intros ag' n [= <- <-]. simpl. lia.
Qed.

(** libuv gets memory behind what the buffer holds. *)
Lemma alloc_sim s st sz : conn_inv s st → started st → 0 < sz → fits limit (sz + Z.of_nat (length (unread st))) →
  wp (tcpAllocCB zero limit sz) s (λ r s', ∃ p b l i, data s' = Some p ∧ given s' = given s ∧ follows s' st p b ∧
    buf b = (Some l, i) ∧ r = (gep (buf b) (blen b), sz) ∧ sz + blen b ≤ max b).
Proof.
  intros Hinv Hp Hsz Hf. unfold conn_inv in Hinv. apply wp_bind, wp_tcp_data. destruct (data s) as [p|] eqn:Hd.
  2: { destruct Hinv as [-> _]. destruct Hp as [[]|]; [done|simpl in *; lia]. }
  destruct Hinv as (b & [Ho Hb Ht Hx Ha]). apply wp_bind, wp_on_mem. eapply wp_mono; [by eapply wp_PreWrite|].
  intros a h' (m & l & i & -> & Ho' & Hb' & Hle & Hk). apply wp_ret. exists p, (set_buf (Some l, i) (set_max m b)), l, i. simpl. split; [done|]. split; [done|].
  split; [|done]. split; simpl; [exact Ho'|exact Hb'|done|done|]. by eapply answered_kept.
Qed.
Lemma data_sim s st st' sz bs : conn_inv s st → conn_event limit (EData sz bs) st = Some st' →
  wp (run_event zero limit (EData sz bs)) s (λ _ s', conn_inv s' st').
Proof.
  intros Hinv Hst. simpl in Hst. case_decide as Hc; [|done]. destruct Hc as (Hs & Hbs & Hf). apply wp_bind. eapply wp_mono; [by eapply alloc_sim; [..|lia|]|].
  intros r s1 (p & b & l & i & Hd & Hg & [Ho Hb Ht Hx Ha] & Hbuf & -> & Hle).
  simpl. apply wp_bind, wp_on_mem. rewrite Hbuf. eapply wp_mono; [by eapply wp_put; [done|done|done|lia]|].
  intros [] h2 (Ho2 & Hb2 & Hk2). apply wp_bind, wp_tcp_data. simpl. rewrite Hd. apply wp_bind. eapply wp_on_get; [simpl; by rewrite Ho2|].
  assert (answered h2 (tail_of (set_blen (blen b + Z.of_nat (length bs)) b)) (given s1) (answers st)) as Ha2.
  { eapply answered_kept; [|exact Ha]. unfold tail_of. simpl. by rewrite Hbuf. }
  rewrite Ht. destruct (pending st) as [[ag n]|] eqn:Hp; simpl.
  2: { injection Hst as <-. apply wp_ret. unfold conn_inv. simpl. rewrite ?Hd. exists b.
    split; simpl; [by rewrite Ho2|eapply buffered_short; [exact Hb2|by destruct Hb]|by rewrite Ht, Hp|by rewrite Hp|].
    eapply answered_kept; [|exact Ha]. intros r ws Hr. eapply region_head; [exact Hr|]. apply Hk2. unfold tail_of in Hr. by rewrite Hbuf in Hr. }
  destruct (Hx ag n eq_refl) as [Hex Hn].
  rewrite (proj2 (Z.leb_gt _ _)) by lia. apply wp_bind. eapply wp_on_upd; [simpl; by rewrite Ho2|].
  apply wp_bind. eapply wp_on_get; [apply lookup_insert_eq|]. pose proof Hb2 as [Hl2 (Hm1 & Hm2 & Hm3) _]. simpl in Hl2, Hm1, Hm2, Hm3. simpl. rewrite Hex, i64_small by lia.
  destruct (Z.leb_spec (Z.of_nat n) (blen b + Z.of_nat (length bs))) as [Hen|Hmore].
  - rewrite decide_True in Hst by lia. injection Hst as <-. destruct (answer_ok _ _ _ n ag _ _ Hb2 ltac:(lia) Ha2) as [Hb3 Ha3].
    apply wp_bind. eapply wp_mod; [done|]. apply wp_bind. eapply wp_on_upd; [apply lookup_insert_eq|]. apply wp_bind. eapply wp_on_upd; [apply lookup_insert_eq|].
    apply wp_bind. eapply wp_on_upd; [apply lookup_insert_eq|]. eapply wp_on_upd; [apply lookup_insert_eq|].
    unfold conn_inv. simpl. rewrite ?Hd. rewrite !i64_small by lia. eexists. split; simpl; [apply lookup_insert_eq| |done|done|exact Ha3].
    do 5 apply buffered_obj. simpl in Hb3. exact Hb3.
  - rewrite decide_False in Hst by lia. injection Hst as <-. apply wp_ret. unfold conn_inv. simpl. rewrite ?Hd. eexists.
    split; simpl; [apply lookup_insert_eq|by apply buffered_obj|simpl; by rewrite Ht| |exact Ha2]. intros ag' n' [= <- <-]. done.
Qed.
(** A callback without bytes *)
Lemma none_sim s st st' sz nread : conn_inv s st → conn_event limit (ENone sz nread) st = Some st' →
  wp (run_event zero limit (ENone sz nread)) s (λ _ s', conn_inv s' st').
Proof.
  intros Hinv Hst. simpl in Hst. case_decide as Hc; [|done]. destruct Hc as (Hs & Hsz & Hneg & Hf).
  apply wp_bind. eapply wp_mono; [by eapply alloc_sim|]. intros r s1 (p & b & l & i & Hd & Hg & [Ho Hb Ht Hx Ha] & Hbuf & _ & _).
  apply wp_bind, wp_tcp_data. rewrite Hd. apply wp_bind. eapply wp_on_get; [done|]. rewrite Ht. destruct (pending st) as [[ag n]|] eqn:Hp; simpl.
  - injection Hst as <-. rewrite (proj2 (Z.leb_le _ _)) by lia. eapply wp_mod; [done|]. unfold conn_inv. simpl. rewrite Hd. exists b.
    split; simpl; [done|done|by rewrite Ht|done|]. by eapply answer_all.
  - injection Hst as <-. apply wp_ret. unfold conn_inv. rewrite Hd. exists b. split; [done|done|by rewrite Ht, Hp|by rewrite Hp|done].
Qed.
Lemma event_sim e s st st' : conn_inv s st → conn_event limit e st = Some st' → wp (run_event zero limit e) s (λ _ s', conn_inv s' st').
Proof. destruct e; [apply read_sim|apply data_sim|apply none_sim]. Qed.
Lemma events_sim es s st st' : conn_inv s st → conn_events limit es st = Some st' → wp (run_events zero limit es) s (λ _ s', conn_inv s' st').
Proof.
  revert s st. induction es as [|e es IH]; intros s st Hinv Hst; simpl in Hst |- *; [injection Hst as <-; by apply wp_ret|].
  apply bind_Some in Hst as (st1 & H1 & Hst). apply wp_bind. eapply wp_mono; [by eapply event_sim|]. intros [] s' Hs'. by eapply IH.
Qed.
Lemma conn_inv_seen s st : conn_inv s st → seen s = Some (answers st).
Proof.
  unfold conn_inv. destruct (data s) as [p|]; [intros (b & Hf); by eapply answered_seen, Hf|].
  intros [-> Hg]. unfold seen. by rewrite Hg.
Qed.
Lemma machine_ok (es : list (event (T:=T))) st : conn_events limit es new_stream = Some st → wp (run_events zero limit es) fresh_conn (λ _ s, seen s = Some (answers st)).
Proof. intros Hst. eapply wp_mono; [by eapply events_sim; [|exact Hst]|]. intros [] s. apply conn_inv_seen. Qed.

(** ** Streams *)

Lemma stream_ended (es : list (event (T:=T))) st st' : ended st = true → stream_events limit es st = Some st' → es = [] ∧ st' = st.
Proof. destruct es as [|e es]; [by intros _ [= ->]|]. intros He. simpl. unfold stream_event. by rewrite He. Qed.
(** No byte is lost, and none is read twice. *)
Lemma stream_bytes (es : list (event (T:=T))) st st' : stream_events limit es st = Some st' → ended st = false →
  concat (answers st').*2 ++ (if ended st' then [] else unread st') = concat (answers st).*2 ++ unread st ++ arrived es.
Proof.
  assert (∀ xs (x : nat * list T), concat (xs ++ [x]).*2 = concat xs.*2 ++ x.2) as Hsnoc.
  { intros xs x. by rewrite fmap_app, concat_app; simpl; rewrite app_nil_r. }
  revert st. induction es as [|e es IH]; intros st Hst He; simpl in Hst; [injection Hst as <-; by rewrite He, app_nil_r|].
  apply bind_Some in Hst as (st1 & H1 & Hst). unfold stream_event in H1. rewrite He in H1.
  destruct e as [ag len|sz bs|sz nread], (pending st) as [[ag' n]|]; try done; case_decide; try done; [case_decide|case_decide|].
  all: injection H1 as <-; try (apply IH in Hst; [|done]; rewrite Hst; simpl; rewrite ?Hsnoc; simpl; rewrite <- ?(assoc_L (++)); f_equal).
  - by rewrite (assoc_L (++)), take_drop.
  - by rewrite !(assoc_L (++)), take_drop.
  - apply stream_ended in Hst as [-> ->]; [|done]. simpl. rewrite Hsnoc. simpl. by rewrite !app_nil_r.
Qed.
(** What a stream makes of its events, the machine does. *)
Lemma stream_machine (es : list (event (T:=T))) st st' : ended st = false → stream_events limit es st = Some st' →
  ∃ st2, conn_events limit es st = Some st2 ∧ answers st2 = answers st'.
Proof.
  revert st. induction es as [|e es IH]; intros st He Hst; simpl in Hst |- *; [injection Hst as <-; by eexists|].
  apply bind_Some in Hst as (st1 & H1 & Hst). unfold stream_event in H1. rewrite He in H1.
  destruct e as [ag len|sz bs|sz nread], (pending st) as [[ag' n]|] eqn:Hp; try done; case_decide as Hc; try done; simpl; rewrite ?Hp.
  - rewrite decide_True by done. case_decide; injection H1 as <-; simpl; by apply IH.
  - rewrite decide_True by (split; [left; by rewrite Hp|done]). rewrite ?Hp. case_decide; injection H1 as <-; simpl; by apply IH.
  - rewrite decide_True by (split; [left; by rewrite Hp|]; destruct Hc as (? & ? & ?); split; [done|split; [lia|done]]).
    rewrite ?Hp. injection H1 as <-. apply stream_ended in Hst as [-> ->]; [|done]. simpl. by eexists.
Qed.

(** C15. As long as one task reads at a time, data arrives only while a task
    waits, libuv never calls without data before the end, and nothing happens
    behind the end ([stream_events]), every task is given exactly the bytes it
    asked for, or what is left when the connection ends, whatever the pieces
    they arrive in; the answers are the bytes that arrived, in order, with none
    lost and none twice; and they stay in memory as they are, while the buffer
    moves on and grows. *)
Theorem tcp_stream_correct es st : stream_events limit es new_stream = Some st →
  wp (run_events zero limit es) fresh_conn (λ _ s, seen s = Some (answers st) ∧
    concat (answers st).*2 ++ (if ended st then [] else unread st) = arrived es).
Proof.
  intros Hst. destruct (stream_machine es new_stream st eq_refl Hst) as (st2 & H2 & Ha).
  eapply wp_mono; [by eapply machine_ok|]. intros [] s Hs. rewrite <- Ha. split; [done|]. by rewrite Ha, (stream_bytes _ _ _ Hst).
Qed.

(** C37. What tasks are given in any order of reads and callbacks is what the
    machine [conn_event] gives, when each read asks for at least one byte, libuv
    calls only behind the first read, and the buffers fit the memory.  So bytes
    that arrive when no task waits are lost, whatever comes before and behind; a
    callback without bytes gives the task that waits less than it asked for, and
    the task is given an answer again later; what is given at the end is read
    again by the next task; and a task that has to wait takes the place of the
    one that waited, which is never answered. *)
Theorem tcp_bytes_lost (es : list (event (T:=T))) st : conn_events limit es new_stream = Some st →
  wp (run_events zero limit es) fresh_conn (λ _ s, seen s = Some (answers st)).
Proof. apply machine_ok. Qed.
End tcp.

(** ** Instances *)

Definition bytes_of (s : string) : list byte := String.list_byte_of_string s.
Definition demo_events : list event :=
  [ERead 0 3; EData 16 (bytes_of "ab"); EData 16 (bytes_of "cdefgh"); ERead 1 2; ERead 2 9; EData 4 (bytes_of "ijk"); ENone 16 (-4095)].
Lemma tcp_stream_correct_witness :
  wp (run_events x00 (2 ^ 40) demo_events) fresh_conn (λ _ s, seen s = Some [(0%nat, bytes_of "abc"); (1%nat, bytes_of "de"); (2%nat, bytes_of "fghijk")]).
Proof.
  eapply wp_mono; [apply (tcp_stream_correct x00 (2 ^ 40) ltac:(lia) demo_events (mk_stream None (bytes_of "fghijk") [(0%nat, bytes_of "abc"); (1%nat, bytes_of "de"); (2%nat, bytes_of "fghijk")] true))|].
  - by vm_compute.
  - intros [] s [Hs _]. exact Hs.
Defined.

(** "def" arrives when no task waits, the callback without bytes makes task 2
    get "j" and later "jkl", the end gives task 3 "m", which task 4 reads again,
    and task 6 takes the place of task 5. *)
Definition lossy_events : list event :=
  [ERead 0 3; EData 16 (bytes_of "abc"); EData 16 (bytes_of "def"); ERead 1 3; EData 16 (bytes_of "ghi");
   ERead 2 3; EData 16 (bytes_of "j"); ENone 16 0; EData 16 (bytes_of "klm"); ERead 3 2; ENone 16 (-4095); ERead 4 1; ERead 5 7; ERead 6 2; EData 16 (bytes_of "no")].
Lemma tcp_bytes_lost_witness :
  wp (run_events x00 (2 ^ 40) lossy_events) fresh_conn (λ _ s, seen s = Some [(0%nat, bytes_of "abc"); (1%nat, bytes_of "ghi");
    (2%nat, bytes_of "j"); (2%nat, bytes_of "jkl"); (3%nat, bytes_of "m"); (4%nat, bytes_of "m"); (6%nat, bytes_of "no")]).
Proof.
  eapply wp_mono; [apply (tcp_bytes_lost x00 (2 ^ 40) ltac:(lia) lossy_events (mk_stream None [] [(0%nat, bytes_of "abc"); (1%nat, bytes_of "ghi");
    (2%nat, bytes_of "j"); (2%nat, bytes_of "jkl"); (3%nat, bytes_of "m"); (4%nat, bytes_of "m"); (6%nat, bytes_of "no")] false))|].
  - vm_compute. reflexivity.
  - intros [] s Hs. exact Hs.
Defined.
