(* ===== verification/Loader.v ===== *)
(** * Loading modules: ParseDir and ParseModule

    src/compiler/parser/parser.go reads every file of a module in a goroutine
    of its own.  A file that imports a module loads it, or waits for the
    goroutine that does; [program] stops the compiler when a module is imported
    by itself on the way.  This is the interleaving of the goroutines, with the
    files' declarations left out: a file is the modules it imports, in the
    order in which Go goes through its map. *)
From S2P Require Import Prelude.

Abbreviation module := string (only parsing).

(** What a goroutine does: its imports go on ([program]); it waits for another
    goroutine to load a module; it collects the files of a module, the nodes
    still to come; the module is merged and waits for [emitMu]; it is emitted;
    its channel is about to be closed. *)
Inductive tstate :=
  | Importing (rest : list module)
  | Waiting (v : module) (rest : list module)
  | Collecting (v : module) (rest : list module) (nodes : nat)
  | Merged (v : module) (rest : list module)
  | Emitting (v : module) (rest : list module)
  | Closing (v : module) (rest : list module)
  | Finished.

(** A goroutine: the module of its file ([None] for [ParseDir]), the imports of
    the file, the parser's [fathers]. *)
Record thread := mk_thread { home : option module; imps : list module; fathers : gset module; st : tstate }.
(** The goroutines; [startMap], a channel is [true] when closed; [emitMu]; the
    modules in the order of their [Emit]; why the compiler stopped. *)
Inductive crash := FoundLoop (v : module) | NoSource (v : module).
Record loader := mk_loader {
  threads : list thread;
  startMap : gmap module bool;
  emitMu : bool;
  emitted : list module;
  stopped : option crash;
}.

Definition move (x : tstate) (t : thread) : thread := mk_thread (home t) (imps t) (fathers t) x.
Definition set_thread (i : nat) (t : thread) (s : loader) : loader :=
  mk_loader (<[i:=t]> (threads s)) (startMap s) (emitMu s) (emitted s) (stopped s).
Definition spawn (ts : list thread) (s : loader) : loader :=
  mk_loader (threads s ++ ts) (startMap s) (emitMu s) (emitted s) (stopped s).
Definition set_start (v : module) (closed : bool) (s : loader) : loader :=
  mk_loader (threads s) (<[v:=closed]> (startMap s)) (emitMu s) (emitted s) (stopped s).
Definition set_emitMu (b : bool) (s : loader) : loader := mk_loader (threads s) (startMap s) b (emitted s) (stopped s).
Definition emit (v : module) (s : loader) : loader := mk_loader (threads s) (startMap s) (emitMu s) (emitted s ++ [v]) (stopped s).
Definition stop (c : crash) (s : loader) : loader := mk_loader (threads s) (startMap s) (emitMu s) (emitted s) (Some c).

Section loader.
(** The directories: the source files of each module. *)
Context (files : gmap module (list (list module))).

(** ** Steps *)

(** The goroutines that [ParseModule] starts for the files of [v]. *)
Definition file_thread (v : module) (fs : gset module) (f : list module) : thread := mk_thread (Some v) f ({[v]} ∪ fs) (Importing f).
(** The check in [program], and [ParseModule] up to the collecting of nodes. *)
Definition import_step (i : nat) (t : thread) (v : module) (rest : list module) (s : loader) : loader :=
  if decide (v ∈ fathers t) then stop (FoundLoop v) s
  else
    match startMap s !! v with
    | Some _ => set_thread i (move (Waiting v rest) t) s
    | None =>
      match files !! v with
      | None | Some [] => stop (NoSource v) s
      | Some fs => spawn (file_thread v (fathers t) <$> fs) (set_thread i (move (Collecting v rest (length fs)) t) (set_start v false s))
      end
    end.
(** A step of goroutine [i]; when it collects, it takes the node of [j]. *)
Definition step_of (i j : nat) (s : loader) : option loader :=
  match stopped s with
  | Some _ => None
  | None =>
    t ← threads s !! i;
    match st t with
    | Importing [] => match home t with None => Some (set_thread i (move Finished t) s) | Some _ => None end
    | Importing (v :: rest) => Some (import_step i t v rest s)
    | Waiting v rest =>
      match startMap s !! v with Some true => Some (set_thread i (move (Importing rest) t) s) | _ => None end
    | Collecting v rest O => Some (set_thread i (move (Merged v rest) t) s)
    | Collecting v rest (S n) =>
      u ← threads s !! j;
      if decide (home u = Some v) then
        match st u with
        | Importing [] => Some (set_thread j (move Finished u) (set_thread i (move (Collecting v rest n) t) s))
        | _ => None
        end
      else None
    | Merged v rest =>
      if emitMu s then None else Some (set_thread i (move (Emitting v rest) t) (set_emitMu true s))
    | Emitting v rest => Some (set_thread i (move (Closing v rest) t) (set_emitMu false (emit v s)))
    | Closing v rest => Some (set_thread i (move (Importing rest) t) (set_start v true s))
    | Finished => None
    end
  end.
Definition lstep (s s' : loader) : Prop := ∃ i j, step_of i j s = Some s'.
(** [ParseDir]: the modules of the runtime and [main], one after the other. *)
Definition roots : list module :=
  ["github.com/Chronostasys/calc/runtime"; "github.com/Chronostasys/calc/runtime/slice"; "github.com/Chronostasys/calc/runtime/strings";
   "github.com/Chronostasys/calc/runtime/coro"; "main"]%string.
Definition ParseDir : loader := mk_loader [mk_thread None roots ∅ (Importing roots)] ∅ false [] None.

(** ** Schedules *)

Fixpoint run_schedule (sch : list (nat * nat)) (s : loader) : option loader :=
  match sch with [] => Some s | (i, j) :: sch => s ← step_of i j s; run_schedule sch s end.
Lemma run_schedule_nsteps sch s s' : run_schedule sch s = Some s' → nsteps lstep (length sch) s s'.
Proof.
  revert s. induction sch as [|[i j] sch IH]; intros s; simpl; [intros [= <-]; constructor|].
  intros (s1 & Hs & Hr)%bind_Some. eapply nsteps_l; [by exists i, j|]. by apply IH.
Qed.
Lemma run_schedule_steps sch s s' : run_schedule sch s = Some s' → rtc lstep s s'.
Proof. intros Hr. eapply rtc_nsteps_2, run_schedule_nsteps, Hr. Qed.
(** Whether a goroutine can move at all. *)
Definition can_step (s : loader) : bool :=
  existsb (λ i, existsb (λ j, match step_of i j s with Some _ => true | None => false end) (seq 0 (length (threads s)))) (seq 0 (length (threads s))).

(** ** Imports *)

Definition imports (v w : module) : Prop := ∃ fs f, files !! v = Some fs ∧ f ∈ fs ∧ w ∈ f.
(** What a goroutine has still to import, and the module it loads. *)
Definition todo (x : tstate) : list module :=
  match x with
  | Importing r => r
  | Waiting v r | Collecting v r _ | Merged v r | Emitting v r | Closing v r => v :: r
  | Finished => []
  end.
Definition loads (x : tstate) : option module :=
  match x with
  | Collecting v _ _ | Merged v _ | Emitting v _ | Closing v _ => Some v
  | _ => None
  end.
(** The nodes it has still to collect. *)
Definition nodes_left (x : tstate) : nat := match x with Collecting _ _ n => n | _ => 0 end.
End loader.

(** ** Counting goroutines *)

Definition b2n (P : Prop) `{Decision P} : nat := if decide P then 1 else 0.
(** Loads [v]; has nodes of [v] to collect; is a file of [v] that was not
    collected; is about to close the channel of [v]; holds [emitMu]. *)
Definition loading (v : module) (t : thread) : nat := b2n (loads (st t) = Some v).
Definition nodes_of (v : module) (t : thread) : nat := if decide (loads (st t) = Some v) then nodes_left (st t) else 0.
Definition open_file (v : module) (t : thread) : nat :=
  if decide (home t = Some v) then match st t with Finished => 0 | _ => 1 end else 0.
Definition closing (v : module) (t : thread) : nat := match st t with Closing w _ => b2n (w = v) | _ => 0 end.
Definition emitting (t : thread) : nat := match st t with Emitting _ _ => 1 | _ => 0 end.
Definition tsum (f : thread → nat) (s : loader) : nat := sum_list_with f (threads s).
Definition occ (v : module) (l : list module) : nat := sum_list_with (λ w, b2n (w = v)) l.

Lemma sum_list_with_insert {A} (f : A → nat) l i x y : l !! i = Some x → sum_list_with f (<[i:=y]> l) + f x = sum_list_with f l + f y.
Proof. revert i. induction l as [|z l IH]; intros [|i] Hi; simplify_eq/=; [lia|]. specialize (IH i Hi). lia. Qed.
Lemma sum_list_with_lookup {A} (f : A → nat) l i x : l !! i = Some x → f x ≤ sum_list_with f l.
Proof. revert i. induction l as [|z l IH]; intros [|i] Hi; simplify_eq/=; [lia|]. specialize (IH i Hi). lia. Qed.
Lemma sum_list_with_pos {A} (f : A → nat) l : 0 < sum_list_with f l → ∃ i x, l !! i = Some x ∧ 0 < f x.
Proof.
  induction l as [|z l IH]; simpl; [lia|]. intros H. destruct (decide (0 < f z)); [by exists 0, z|].
  destruct IH as (i & x & Hi & Hx); [lia|]. by exists (S i), x.
Qed.
Lemma sum_list_with_unique {A} (f : A → nat) l i j x y : sum_list_with f l ≤ 1 → l !! i = Some x → l !! j = Some y → 0 < f x → 0 < f y → i = j.
Proof.
  revert i j. induction l as [|z l IH]; intros [|i] [|j] Hs Hi Hj Hx Hy; simplify_eq/=; try done.
  - pose proof (sum_list_with_lookup f l j y Hj). lia.
  - pose proof (sum_list_with_lookup f l i x Hi). lia.
  - f_equal. apply (IH i j); try done. lia.
Qed.
Lemma sum_list_with_0 {A} (f : A → nat) l : (∀ j y, l !! j = Some y → f y = 0) → sum_list_with f l = 0.
Proof.
  intros H. destruct (decide (sum_list_with f l = 0)) as [|Hn]; [done|]. destruct (sum_list_with_pos f l) as (j & y & Hj & Hy); [lia|].
  rewrite (H j y Hj) in Hy. lia.
Qed.
Lemma sum_list_with_only {A} (f : A → nat) l i x : l !! i = Some x → (∀ j y, l !! j = Some y → j ≠ i → f y = 0) → sum_list_with f l = f x.
Proof.
  revert i. induction l as [|z l IH]; intros [|i] Hi H; simplify_eq/=.
  - rewrite sum_list_with_0; [lia|]. intros j y Hj. by apply (H (S j)).
  - rewrite (H 0 z) by done. apply (IH i); [done|]. intros j y Hj Hne. apply (H (S j)); [done|]. congruence.
Qed.
Lemma tsum_set f s i t u : threads s !! i = Some t → tsum f (set_thread i u s) + f t = tsum f s + f u.
Proof. apply sum_list_with_insert. Qed.
Lemma tsum_spawn f ts s : tsum f (spawn ts s) = tsum f s + sum_list_with f ts.
Proof. apply sum_list_with_app. Qed.
Lemma occ_snoc v l w : occ v (l ++ [w]) = occ v l + b2n (w = v).
Proof. unfold occ. rewrite sum_list_with_app. simpl. lia. Qed.
Lemma occ_elem v l : 0 < occ v l ↔ v ∈ l.
Proof.
  unfold occ. induction l as [|w l IH]; simpl; [by split; [lia|intros ?%not_elem_of_nil]|]. rewrite elem_of_cons, <- IH. unfold b2n.
  case_decide; split; try lia; naive_solver lia.
Qed.
Lemma occ_NoDup l : (∀ v, occ v l ≤ 1) → NoDup l.
Proof.
  induction l as [|w l IH]; intros H; [apply NoDup_nil_2|]. constructor.
  - rewrite <- occ_elem. specialize (H w). unfold occ in *. simpl in H. unfold b2n in H at 1. rewrite decide_True in H by done. lia.
  - apply IH. intros v. specialize (H v). unfold occ in *. simpl in H. lia.
Qed.
