(* ===== verification/LoaderInv.v ===== *)
(** * The invariant of the module loader

    A module that was started and is not closed is loaded by one goroutine,
    which has as many nodes to collect as the module has open files; a module
    is emitted once, and behind the modules that its files import. *)
From S2P Require Import Prelude Loader.

Section inv.
Context (files : gmap string (list (list string))).
#[local] Notation imports := (imports files).

(** The modules that [ParseDir] asks for, and what they import. *)
Definition needed (v : string) : Prop := ∃ r, r ∈ roots ∧ rtc imports r v.
(** What holds of a goroutine when the channels are [sm]. *)
Record tinv (sm : gmap string bool) (t : thread) : Prop := mk_tinv {
  ti_todo : ∃ pre, imps t = pre ++ todo (st t) ∧ ∀ v, v ∈ pre → sm !! v = Some true;
  ti_root : home t = None → fathers t = ∅ ∧ imps t = roots;
  ti_home m : home t = Some m → is_Some (sm !! m) ∧ m ∈ fathers t ∧ (∀ f, f ∈ fathers t → rtc imports f m) ∧ (∃ fs, files !! m = Some fs ∧ imps t ∈ fs) ∧ needed m;
  ti_wait v r : st t = Waiting v r → is_Some (sm !! v);
}.
Record linv (s : loader) : Prop := mk_linv {
  li_threads : Forall (tinv (startMap s)) (threads s);
  li_loading v : tsum (loading v) s = b2n (startMap s !! v = Some false);
  li_nodes v : tsum (nodes_of v) s = tsum (open_file v) s;
  li_emitted v : occ v (emitted s) = b2n (startMap s !! v = Some true) + tsum (closing v) s;
  li_mutex : tsum emitting s = Nat.b2n (emitMu s);
  li_files v fs f : is_Some (startMap s !! v) → files !! v = Some fs → f ∈ fs →
    ∃ i t, threads s !! i = Some t ∧ home t = Some v ∧ imps t = f;
  li_main : ∃ i t, threads s !! i = Some t ∧ home t = None ∧ imps t = roots;
  li_source v : is_Some (startMap s !! v) → ∃ f fs, files !! v = Some (f :: fs);
  li_order l1 v l2 w : emitted s = l1 ++ v :: l2 → imports v w → w ∈ l1;
}.

(** Channels are made, and closed once. *)
Definition later (sm sm' : gmap string bool) : Prop :=
  ∀ v b, sm !! v = Some b → ∃ b', sm' !! v = Some b' ∧ (b = true → b' = true).
Lemma tinv_later sm sm' t : later sm sm' → tinv sm t → tinv sm' t.
Proof.
  intros Hl [(pre & Hpre & Hc) Hr Hh Hw]. assert (∀ v, is_Some (sm !! v) → is_Some (sm' !! v)) as Hs.
  { intros v [b Hb]. destruct (Hl v b Hb) as (b' & Hb' & _). by exists b'. }
  split; [|done| |].
  - exists pre. split; [done|]. intros v Hv. destruct (Hl v true (Hc v Hv)) as (b' & Hb' & Hb). rewrite Hb', (Hb eq_refl). done.
  - intros m Hm. destruct (Hh m Hm) as (H1 & H2). split; [by apply Hs|done].
  - intros v r Hst. apply Hs. by eapply Hw.
Qed.
Lemma later_insert sm v b : sm !! v ≠ Some true ∨ b = true → later sm (<[v:=b]> sm).
Proof.
  intros H w c Hw. destruct (decide (w = v)) as [->|Hne]; [|exists c; by rewrite lookup_insert_ne].
  exists b. rewrite lookup_insert_eq. split; [done|]. destruct H as [H| ->]; [|done]. intros ->. done.
Qed.

(** ** What the counts say *)

Lemma li_tinv s i t : linv s → threads s !! i = Some t → tinv (startMap s) t.
Proof. intros Hi Ht. eapply Forall_lookup_1; [apply Hi|done]. Qed.
Lemma loads_started s i t v : linv s → threads s !! i = Some t → loads (st t) = Some v → startMap s !! v = Some false.
Proof.
  intros Hi Ht Hv. pose proof (sum_list_with_lookup (loading v) _ _ _ Ht) as Hle. pose proof (li_loading _ Hi v) as Hs. unfold tsum in Hs. rewrite Hs in Hle.
  unfold loading, b2n in Hle. rewrite decide_True in Hle by done. case_decide; [done|lia].
Qed.
Lemma started_loader s v : linv s → startMap s !! v = Some false → ∃ i t, threads s !! i = Some t ∧ loads (st t) = Some v.
Proof.
  intros Hi Hv. pose proof (li_loading _ Hi v) as Hs. unfold b2n in Hs. rewrite decide_True in Hs by done.
  destruct (sum_list_with_pos (loading v) (threads s)) as (i & t & Ht & Hl); [unfold tsum in Hs; lia|]. exists i, t. split; [done|].
  unfold loading, b2n in Hl. case_decide; [done|lia].
Qed.
Lemma loader_unique s i j t u v : linv s → threads s !! i = Some t → threads s !! j = Some u → loads (st t) = Some v → loads (st u) = Some v → i = j.
Proof.
  intros Hi Ht Hu Hlt Hlu. apply (sum_list_with_unique (loading v) (threads s) i j t u); try done.
  - pose proof (li_loading _ Hi v) as Hs. unfold tsum, b2n in Hs. case_decide; lia.
  - unfold loading, b2n. rewrite decide_True by done. lia.
  - unfold loading, b2n. rewrite decide_True by done. lia.
Qed.
(** The files of a module are all open while it is not started, and none of
    them is when its goroutine has collected them. *)
Lemma nodes_loader s i t v : linv s → threads s !! i = Some t → loads (st t) = Some v → tsum (open_file v) s = nodes_left (st t).
Proof.
  intros Hi Ht Hl. rewrite <- (li_nodes _ Hi v). unfold tsum. rewrite (sum_list_with_only _ _ i t Ht).
  - unfold nodes_of. by rewrite decide_True.
  - intros j u Hu Hne. unfold nodes_of. rewrite decide_False; [done|]. intros Hlu. apply Hne. by eapply loader_unique.
Qed.
Lemma closed_files s v : linv s → startMap s !! v = Some true → tsum (open_file v) s = 0.
Proof.
  intros Hi Hv. rewrite <- (li_nodes _ Hi v). apply sum_list_with_0. intros j u Hu. unfold nodes_of. rewrite decide_False; [done|].
  intros Hlu. pose proof (loads_started _ _ _ _ Hi Hu Hlu). congruence.
Qed.
Lemma new_files s v : linv s → startMap s !! v = None → tsum (open_file v) s = 0.
Proof.
  intros Hi Hv. apply sum_list_with_0. intros j u Hu. unfold open_file. rewrite decide_False; [done|].
  intros Hh. destruct (ti_home _ _ (li_tinv _ _ _ Hi Hu) v Hh) as [[b Hb] _]. congruence.
Qed.
(** A file that was collected has all its imports. *)
Lemma collected_imports s v w : linv s → is_Some (startMap s !! v) → tsum (open_file v) s = 0 → imports v w → startMap s !! w = Some true.
Proof.
  intros Hi Hv H0 (fs & f & Hfs & Hf & Hw). destruct (li_files _ Hi v fs f Hv Hfs Hf) as (i & t & Ht & Hh & <-).
  pose proof (sum_list_with_lookup (open_file v) _ _ _ Ht) as Hle. unfold tsum in H0. rewrite H0 in Hle. unfold open_file in Hle.
  rewrite decide_True in Hle by done. destruct (ti_todo _ _ (li_tinv _ _ _ Hi Ht)) as (pre & Hpre & Hc).
  destruct (st t); try lia. simpl in Hpre. rewrite app_nil_r in Hpre. apply Hc. by rewrite <- Hpre.
Qed.
Lemma closed_emitted s v : linv s → startMap s !! v = Some true → v ∈ emitted s.
Proof.
  intros Hi Hv. apply occ_elem. rewrite (li_emitted _ Hi v). unfold b2n. rewrite decide_True by done. lia.
Qed.

(** ** Steps *)

(** Compares the counts before and after a step. *)
Ltac count := unfold tsum, b2n in *; simpl in *; repeat case_decide; simplify_eq; try congruence; lia.

Lemma tinv_move sm t x : tinv sm t → (∃ pre, todo (st t) = pre ++ todo x ∧ ∀ v, v ∈ pre → sm !! v = Some true) →
  (∀ v r, x = Waiting v r → is_Some (sm !! v)) → tinv sm (move x t).
Proof.
  intros [(pre & Hpre & Hc) Hr Hh Hw] (pre' & Hpre' & Hc') Hx. split; [|done|done|done]. exists (pre ++ pre'). split.
  - simpl. by rewrite Hpre, Hpre', (assoc_L (++)).
  - intros v [?|?]%elem_of_app; [by apply Hc|by apply Hc'].
Qed.
(** The same imports are left. *)
Lemma tinv_same sm t x : tinv sm t → todo x = todo (st t) → (∀ v r, x = Waiting v r → is_Some (sm !! v)) → tinv sm (move x t).
Proof. intros Ht Hx. apply tinv_move; [done|]. exists []. split; [by rewrite Hx|]. by intros v ?%not_elem_of_nil. Qed.
Lemma threads_keep s i t u (o : option string) fs f : threads s !! i = Some t → home u = home t → imps u = imps t →
  (∃ j x, threads s !! j = Some x ∧ home x = o ∧ imps x = f) → ∃ j x, (<[i:=u]> (threads s) ++ fs) !! j = Some x ∧ home x = o ∧ imps x = f.
Proof.
  intros Ht Hh Him (j & x & Hx & Hhx & Hix). pose proof (lookup_lt_Some _ _ _ Hx) as Hj. pose proof (lookup_lt_Some _ _ _ Ht) as Hi'.
  exists j. destruct (decide (j = i)) as [->|Hne].
  - assert (x = t) as -> by congruence. exists u. rewrite lookup_app_l, list_lookup_insert_eq by (rewrite ?length_insert; lia). by rewrite Hh, Him.
  - exists x. by rewrite lookup_app_l, list_lookup_insert_ne by (rewrite ?length_insert; lia || done).
Qed.
(** A goroutine goes on without any effect on the counts. *)
Lemma linv_set s i t x : linv s → threads s !! i = Some t → tinv (startMap s) (move x t) →
  loads x = loads (st t) → nodes_left x = nodes_left (st t) → (∀ v, open_file v (move x t) = open_file v t) →
  (∀ v, closing v (move x t) = closing v t) → emitting (move x t) = emitting t → linv (set_thread i (move x t) s).
Proof.
  intros [Hth Hld Hnd Hem Hmu Hfi Hma Hso Hor] Ht Hu Hl Hn Ho Hc He. split; simpl.
  - by apply Forall_insert.
  - intros v. pose proof (tsum_set (loading v) s i t (move x t) Ht) as H. unfold loading in H at 2 4. simpl in H. rewrite Hl in H. specialize (Hld v). lia.
  - intros v. pose proof (tsum_set (nodes_of v) s i t (move x t) Ht) as H1. pose proof (tsum_set (open_file v) s i t (move x t) Ht) as H2.
    unfold nodes_of in H1 at 2 4. simpl in H1. rewrite Hl, Hn in H1. rewrite Ho in H2. specialize (Hnd v). lia.
  - intros v. pose proof (tsum_set (closing v) s i t (move x t) Ht) as H. rewrite Hc in H. specialize (Hem v). lia.
  - pose proof (tsum_set emitting s i t (move x t) Ht) as H. rewrite He in H. lia.
  - intros v fs f Hv Hfs Hf. rewrite <- (app_nil_r (<[i:=_]> _)). by eapply threads_keep; [..|eapply Hfi].
  - rewrite <- (app_nil_r (<[i:=_]> _)). by eapply threads_keep.
  - done.
  - done.
Qed.
Lemma linv_stop s c : linv s → linv (stop c s).
Proof. by intros []. Qed.
Lemma imports_of s i t v rest m : linv s → threads s !! i = Some t → todo (st t) = v :: rest → home t = Some m → imports m v.
Proof.
  intros Hi Ht Htd Hh. destruct (li_tinv _ _ _ Hi Ht) as [(pre & Hpre & _) _ Hho _]. destruct (Hho m Hh) as (_ & _ & _ & (fs & Hfs & Hf) & _).
  exists fs, (imps t). split; [done|]. split; [done|]. rewrite Hpre, Htd. set_solver.
Qed.
Lemma fathers_reach s i t v rest f : linv s → threads s !! i = Some t → todo (st t) = v :: rest → f ∈ {[v]} ∪ fathers t → rtc imports f v.
Proof.
  intros Hi Ht Htd [->%elem_of_singleton|Hf]%elem_of_union; [done|]. destruct (home t) as [m|] eqn:Hh.
  - eapply rtc_r; [|by eapply imports_of]. by eapply (ti_home _ _ (li_tinv _ _ _ Hi Ht) m Hh).
  - destruct (ti_root _ _ (li_tinv _ _ _ Hi Ht) Hh) as [Hro _]. rewrite Hro in Hf. set_solver.
Qed.
Lemma import_needed s i t v rest : linv s → threads s !! i = Some t → todo (st t) = v :: rest → needed v.
Proof.
  intros Hi Ht Htd. destruct (home t) as [m|] eqn:Hh.
  - destruct (ti_home _ _ (li_tinv _ _ _ Hi Ht) m Hh) as (_ & _ & _ & _ & r & Hr & Hm). exists r. split; [done|]. eapply rtc_r; [done|by eapply imports_of].
  - exists v. split; [|done]. destruct (ti_root _ _ (li_tinv _ _ _ Hi Ht) Hh) as [_ <-].
    destruct (ti_todo _ _ (li_tinv _ _ _ Hi Ht)) as (pre & -> & _). rewrite Htd. set_solver.
Qed.
Lemma open_spawned w v F fs : sum_list_with (open_file w) (file_thread v F <$> fs) = if decide (w = v) then length fs else 0.
Proof.
  induction fs as [|f fs IH]; csimpl; [by case_decide|]. rewrite IH. unfold open_file. simpl. repeat case_decide; simplify_eq; lia.
Qed.
Lemma spawned_0 (f : thread → nat) v F fs : (∀ x, f (file_thread v F x) = 0) → sum_list_with f (file_thread v F <$> fs) = 0.
Proof. intros H. apply sum_list_with_0. intros j y Hj. apply list_lookup_fmap_Some in Hj as (x & -> & _). apply H. Qed.
Lemma linv_start s i t v rest fs : linv s → threads s !! i = Some t → st t = Importing (v :: rest) → startMap s !! v = None → files !! v = Some fs → fs ≠ [] →
  linv (spawn (file_thread v (fathers t) <$> fs) (set_thread i (move (Collecting v rest (length fs)) t) (set_start v false s))).
Proof.
  intros Hi Ht Hst Hv Hfs Hne0. pose proof Hi as [Hth Hld Hnd Hem Hmu Hfi Hma Hso Hor]. set (u := move _ t). set (s1 := set_start v false s).
  assert (threads s1 !! i = Some t) as Ht1 by done. assert (later (startMap s) (<[v:=false]> (startMap s))) as Hlat by (apply later_insert; left; congruence).
  split; simpl.
  - apply Forall_app. split.
    + apply Forall_insert; [eapply Forall_impl; [exact Hth|]; intros x; by apply tinv_later|].
      eapply tinv_later; [exact Hlat|]. apply tinv_same; [by eapply li_tinv|by rewrite Hst|done].
    + apply Forall_fmap, Forall_forall. intros f Hf. split; simpl; [exists []; split; [done|]; by intros w ?%not_elem_of_nil|done| |done].
      intros m [= <-]. rewrite lookup_insert_eq. split; [done|]. split; [set_solver|].
      split; [|split; [by exists fs|by eapply import_needed; [..|by rewrite Hst]]]. intros g Hg. eapply fathers_reach; [done|done|by rewrite Hst|done].
  - intros w. rewrite tsum_spawn, (spawned_0 (loading w)) by done. pose proof (tsum_set (loading w) s1 i t u Ht1) as H.
    unfold loading in H at 2 4. simpl in H. rewrite Hst in H. simpl in H. specialize (Hld w).
    destruct (decide (w = v)) as [->|Hne]; [rewrite lookup_insert_eq|rewrite lookup_insert_ne by done]; count.
  - intros w. rewrite !tsum_spawn, (spawned_0 (nodes_of w)), open_spawned by done. pose proof (tsum_set (nodes_of w) s1 i t u Ht1) as H1.
    pose proof (tsum_set (open_file w) s1 i t u Ht1) as H2. unfold nodes_of in H1 at 2 4. unfold open_file in H2 at 2 4. simpl in H1, H2. rewrite Hst in H1, H2. simpl in H1.
    specialize (Hnd w). count.
  - intros w. rewrite tsum_spawn, (spawned_0 (closing w)) by done. pose proof (tsum_set (closing w) s1 i t u Ht1) as H.
    unfold closing in H at 2 4. simpl in H. rewrite Hst in H. specialize (Hem w).
    destruct (decide (w = v)) as [->|Hne]; [rewrite lookup_insert_eq|rewrite lookup_insert_ne by done]; count.
  - rewrite tsum_spawn, (spawned_0 emitting) by done. pose proof (tsum_set emitting s1 i t u Ht1) as H. unfold emitting in H at 2 4. simpl in H. rewrite Hst in H.
    unfold tsum in *. simpl in *. lia.
  - intros w gs f Hw Hgs Hf. destruct (decide (w = v)) as [->|Hne].
    + assert (gs = fs) as -> by congruence. apply list_elem_of_lookup_1 in Hf as [k Hk]. exists (length (<[i:=u]> (threads s)) + k), (file_thread v (fathers t) f).
      rewrite lookup_app_r by lia. replace (_ + k - _) with k by lia. by rewrite list_lookup_fmap, Hk.
    + rewrite lookup_insert_ne in Hw by done. eapply (threads_keep s i t u (Some w)); [done|done|done|]. by eapply Hfi.
  - by eapply threads_keep.
  - intros w Hw. destruct (decide (w = v)) as [->|Hne]; [destruct fs as [|f fs]; [done|by exists f, fs]|]. apply Hso. by rewrite lookup_insert_ne in Hw.
  - done.
Qed.
(** A node is handed over. *)
Lemma linv_recv s i j t u v rest n : linv s → threads s !! i = Some t → st t = Collecting v rest (S n) →
  threads s !! j = Some u → home u = Some v → st u = Importing [] →
  linv (set_thread j (move Finished u) (set_thread i (move (Collecting v rest n) t) s)).
Proof.
  intros Hi Ht Hst Hu Hh Hsu. pose proof Hi as [Hth Hld Hnd Hem Hmu Hfi Hma Hso Hor]. set (t' := move _ t). set (s1 := set_thread i t' s).
  assert (j ≠ i) as Hji by (intros ->; congruence).
  assert (threads s1 !! j = Some u) as Hu1 by (unfold s1; simpl; by rewrite list_lookup_insert_ne).
  split; simpl.
  - apply Forall_insert; [apply Forall_insert; [done|]|]; (apply tinv_same; [by eapply li_tinv|by rewrite ?Hst, ?Hsu|done]).
  - intros w. pose proof (tsum_set (loading w) s i t t' Ht) as H1. pose proof (tsum_set (loading w) s1 j u (move Finished u) Hu1) as H2.
    unfold loading in H1 at 2 4, H2 at 2 4. simpl in H1, H2. rewrite Hst in H1. rewrite Hsu in H2. specialize (Hld w). unfold s1 in *. count.
  - intros w. pose proof (tsum_set (nodes_of w) s i t t' Ht) as H1. pose proof (tsum_set (nodes_of w) s1 j u (move Finished u) Hu1) as H2.
    pose proof (tsum_set (open_file w) s i t t' Ht) as H3. pose proof (tsum_set (open_file w) s1 j u (move Finished u) Hu1) as H4.
    unfold nodes_of in H1 at 2 4, H2 at 2 4. unfold open_file in H3 at 2 4, H4 at 2 4. simpl in H1, H2, H3, H4.
    rewrite Hst in H1, H3. rewrite Hsu, Hh in *. specialize (Hnd w). unfold s1 in *. count.
  - intros w. pose proof (tsum_set (closing w) s i t t' Ht) as H1. pose proof (tsum_set (closing w) s1 j u (move Finished u) Hu1) as H2.
    unfold closing in H1 at 2 4, H2 at 2 4. simpl in H1, H2. rewrite Hst in H1. rewrite Hsu in H2. specialize (Hem w). unfold s1 in *. count.
  - pose proof (tsum_set emitting s i t t' Ht) as H1. pose proof (tsum_set emitting s1 j u (move Finished u) Hu1) as H2.
    unfold emitting in H1 at 2 4, H2 at 2 4. simpl in H1, H2. rewrite Hst in H1. rewrite Hsu in H2. unfold s1 in *. count.
  - intros w fs f Hw Hfs Hf. rewrite <- (app_nil_r (<[j:=_]> _)). eapply (threads_keep s1 j u (move Finished u) (Some w) [] f); [done|done|done|].
    unfold s1. simpl. rewrite <- (app_nil_r (<[i:=_]> _)). eapply (threads_keep s i t t' (Some w) [] f); [done|done|done|]. by eapply Hfi.
  - rewrite <- (app_nil_r (<[j:=_]> _)). eapply (threads_keep s1 j u (move Finished u) None [] roots); [done|done|done|].
    unfold s1. simpl. rewrite <- (app_nil_r (<[i:=_]> _)). by eapply threads_keep.
  - done.
  - done.
Qed.
(** The module is emitted while [emitMu] is held. *)
Lemma linv_lock s i t v rest : linv s → threads s !! i = Some t → st t = Merged v rest → emitMu s = false →
  linv (set_thread i (move (Emitting v rest) t) (set_emitMu true s)).
Proof.
  intros Hi Ht Hst Hmu0. pose proof Hi as [Hth Hld Hnd Hem Hmu Hfi Hma Hso Hor]. set (t' := move _ t).
  split; simpl.
  - apply Forall_insert; [done|]. apply tinv_same; [by eapply li_tinv|by rewrite Hst|done].
  - intros w. pose proof (tsum_set (loading w) s i t t' Ht) as H. unfold loading in H at 2 4. simpl in H. rewrite Hst in H. specialize (Hld w). count.
  - intros w. pose proof (tsum_set (nodes_of w) s i t t' Ht) as H1. pose proof (tsum_set (open_file w) s i t t' Ht) as H2.
    unfold nodes_of in H1 at 2 4. unfold open_file in H2 at 2 4. simpl in H1, H2. rewrite Hst in H1, H2. specialize (Hnd w). count.
  - intros w. pose proof (tsum_set (closing w) s i t t' Ht) as H. unfold closing in H at 2 4. simpl in H. rewrite Hst in H. specialize (Hem w). count.
  - pose proof (tsum_set emitting s i t t' Ht) as H. unfold emitting in H at 2 4. simpl in H. rewrite Hst in H. rewrite Hmu0 in Hmu. simpl in Hmu. count.
  - intros w fs f Hw Hfs Hf. rewrite <- (app_nil_r (<[i:=_]> _)). eapply (threads_keep s i t t' (Some w) [] f); [done|done|done|]. by eapply Hfi.
  - rewrite <- (app_nil_r (<[i:=_]> _)). by eapply threads_keep.
  - done.
  - done.
Qed.
Lemma snoc_split {A} (l l1 l2 : list A) x y : l ++ [x] = l1 ++ y :: l2 → (l1 = l ∧ y = x) ∨ ∃ l2', l = l1 ++ y :: l2'.
Proof.
  destruct l2 as [|z l2 _] using rev_ind; intros H.
  - apply app_inj_tail in H as [-> ->]. by left.
  - rewrite app_comm_cons, (assoc_L (++)) in H. apply app_inj_tail in H as [-> _]. right. by exists l2.
Qed.
Lemma linv_emit s i t v rest : linv s → threads s !! i = Some t → st t = Emitting v rest →
  linv (set_thread i (move (Closing v rest) t) (set_emitMu false (emit v s))).
Proof.
  intros Hi Ht Hst. pose proof Hi as [Hth Hld Hnd Hem Hmu Hfi Hma Hso Hor]. set (t' := move _ t).
  assert (startMap s !! v = Some false) as Hv by (eapply loads_started; [done|done|by rewrite Hst]).
  assert (tsum (open_file v) s = 0) as H0 by (erewrite nodes_loader; [|done|done|by rewrite Hst]; by rewrite Hst).
  split; simpl.
  - apply Forall_insert; [done|]. apply tinv_same; [by eapply li_tinv|by rewrite Hst|done].
  - intros w. pose proof (tsum_set (loading w) s i t t' Ht) as H. unfold loading in H at 2 4. simpl in H. rewrite Hst in H. specialize (Hld w). count.
  - intros w. pose proof (tsum_set (nodes_of w) s i t t' Ht) as H1. pose proof (tsum_set (open_file w) s i t t' Ht) as H2.
    unfold nodes_of in H1 at 2 4. unfold open_file in H2 at 2 4. simpl in H1, H2. rewrite Hst in H1, H2. specialize (Hnd w). count.
  - intros w. pose proof (tsum_set (closing w) s i t t' Ht) as H. unfold closing in H at 2 4. simpl in H. rewrite Hst in H. specialize (Hem w).
    rewrite occ_snoc. count.
  - pose proof (tsum_set emitting s i t t' Ht) as H. unfold emitting in H at 2 4. simpl in H. rewrite Hst in H.
    destruct (emitMu s); simpl in Hmu; count.
  - intros w fs f Hw Hfs Hf. rewrite <- (app_nil_r (<[i:=_]> _)). eapply (threads_keep s i t t' (Some w) [] f); [done|done|done|]. by eapply Hfi.
  - rewrite <- (app_nil_r (<[i:=_]> _)). by eapply threads_keep.
  - done.
  - intros l1 w l2 x Hl Hx. apply snoc_split in Hl as [[-> ->]|[l2' Hl]]; [|by eapply Hor].
    eapply closed_emitted; [done|]. eapply collected_imports; [done| |exact H0|done]. by rewrite Hv.
Qed.
Lemma linv_close s i t v rest : linv s → threads s !! i = Some t → st t = Closing v rest →
  linv (set_thread i (move (Importing rest) t) (set_start v true s)).
Proof.
  intros Hi Ht Hst. pose proof Hi as [Hth Hld Hnd Hem Hmu Hfi Hma Hso Hor]. set (t' := move _ t). set (s1 := set_start v true s).
  assert (startMap s !! v = Some false) as Hv by (eapply loads_started; [done|done|by rewrite Hst]).
  assert (later (startMap s) (<[v:=true]> (startMap s))) as Hlat by (apply later_insert; by right).
  split; simpl.
  - apply Forall_insert; [eapply Forall_impl; [exact Hth|]; intros x; by apply tinv_later|].
    apply tinv_move; [eapply tinv_later; [exact Hlat|by eapply li_tinv]| |done]. exists [v]. split; [by rewrite Hst|].
    intros w ->%list_elem_of_singleton. apply lookup_insert_eq.
  - intros w. pose proof (tsum_set (loading w) s i t t' Ht) as H. unfold loading in H at 2 4. simpl in H. rewrite Hst in H. specialize (Hld w).
    destruct (decide (w = v)) as [->|Hne]; [rewrite lookup_insert_eq|rewrite lookup_insert_ne by done]; count.
  - intros w. pose proof (tsum_set (nodes_of w) s i t t' Ht) as H1. pose proof (tsum_set (open_file w) s i t t' Ht) as H2.
    unfold nodes_of in H1 at 2 4. unfold open_file in H2 at 2 4. simpl in H1, H2. rewrite Hst in H1, H2. specialize (Hnd w). count.
  - intros w. pose proof (tsum_set (closing w) s i t t' Ht) as H. unfold closing in H at 2 4. simpl in H. rewrite Hst in H. specialize (Hem w).
    destruct (decide (w = v)) as [->|Hne]; [rewrite lookup_insert_eq|rewrite lookup_insert_ne by done]; count.
  - pose proof (tsum_set emitting s i t t' Ht) as H. unfold emitting in H at 2 4. simpl in H. rewrite Hst in H. count.
  - intros w fs f Hw Hfs Hf. rewrite <- (app_nil_r (<[i:=_]> _)). eapply (threads_keep s i t t' (Some w) [] f); [done|done|done|].
    eapply Hfi; [|done|done]. destruct (decide (w = v)) as [->|Hne]; [by rewrite Hv|by rewrite lookup_insert_ne in Hw].
  - rewrite <- (app_nil_r (<[i:=_]> _)). by eapply threads_keep.
  - intros w Hw. apply Hso. destruct (decide (w = v)) as [->|Hne]; [by rewrite Hv|by rewrite lookup_insert_ne in Hw].
  - done.
Qed.
Lemma linv_step s s' : linv s → lstep files s s' → linv s'.
Proof.
  intros Hi (i & j & Hs). unfold step_of in Hs. destruct (stopped s); [done|]. apply bind_Some in Hs as (t & Ht & Hs).
  pose proof (li_tinv _ _ _ Hi Ht) as Hti. destruct (st t) as [[|v rest]|v rest|v rest [|n]|v rest|v rest|v rest|] eqn:Hst; try done.
  - destruct (home t) eqn:Hh; [done|]. injection Hs as <-.
    eapply linv_set; try done; try (by rewrite Hst); [apply tinv_same; [done|by rewrite Hst|done]| | |].
    all: intros; unfold open_file, closing, emitting; simpl; by rewrite ?Hst, ?Hh.
  - injection Hs as <-. unfold import_step. case_decide; [by apply linv_stop|]. destruct (startMap s !! v) eqn:Hv.
    + eapply linv_set; try done; try (by rewrite Hst); [apply tinv_same; [done|by rewrite Hst|by intros w r [= <- <-]]| | |].
      all: intros; unfold open_file, closing, emitting; simpl; by rewrite ?Hst.
    + destruct (files !! v) as [[|f fs]|] eqn:Hfs; [by apply linv_stop| |by apply linv_stop]. by eapply linv_start.
  - destruct (startMap s !! v) as [[]|] eqn:Hv; try done. injection Hs as <-.
    eapply linv_set; try done; try (by rewrite Hst); [apply tinv_move; [done| |done]| | |].
    { exists [v]. split; [by rewrite Hst|]. by intros w ->%list_elem_of_singleton. }
    all: intros; unfold open_file, closing, emitting; simpl; by rewrite ?Hst.
  - injection Hs as <-. eapply linv_set; try done; try (by rewrite Hst); [apply tinv_same; [done|by rewrite Hst|done]| | |].
    all: intros; unfold open_file, closing, emitting; simpl; by rewrite ?Hst.
  - apply bind_Some in Hs as (u & Hu & Hs). case_decide; [|done]. destruct (st u) as [[|]| | | | | |] eqn:Hsu; try done. injection Hs as <-. by eapply linv_recv.
  - destruct (emitMu s) eqn:Hm; [done|]. injection Hs as <-. by eapply linv_lock.
  - injection Hs as <-. by eapply linv_emit.
  - injection Hs as <-. by eapply linv_close.
Qed.
Lemma linv_init : linv ParseDir.
Proof.
  split; simpl; try done.
  - apply Forall_singleton. split; [|done|done|done]. exists []. split; [done|]. by intros v ?%not_elem_of_nil.
  - by intros v fs f [b Hb].
  - by exists 0, (mk_thread None roots ∅ (Importing roots)).
  - by intros v [b Hb].
  - intros l1 v l2 w Hl. by destruct l1.
Qed.
Lemma linv_reachable s : rtc (lstep files) ParseDir s → linv s.
Proof.
  intros Hr. cut (∀ s0 : loader, linv s0 → rtc (lstep files) s0 s → linv s); [intros H; eapply H; [apply linv_init|done]|]. clear Hr.
  intros s0 Hi Hr. induction Hr as [|s0 s1 s2 Hs Hr IH]; [done|]. by eapply IH, linv_step.
Qed.
End inv.
