(* ===== verification/LoaderTheorems.v ===== *)
(** * Theorems on the module loader

    Modules are emitted once and behind their imports; loading ends; without a
    cycle of imports every module that is needed is emitted, and with one the
    compiler stops or all goroutines wait for each other. *)
From S2P Require Import Prelude Loader LoaderInv.

Section theorems.
Context (files : gmap string (list (list string))).
#[local] Notation imports := (imports files).
#[local] Notation needed := (needed files).
#[local] Notation linv := (linv files).

(** ** Why the compiler stops *)

Definition stop_ok (s : loader) : Prop :=
  match stopped s with
  | None => True
  | Some (FoundLoop v) => needed v ∧ tc imports v v
  | Some (NoSource v) => needed v ∧ ∀ f fs, files !! v ≠ Some (f :: fs)
  end.
Lemma stop_step s s' : linv s → lstep files s s' → stop_ok s'.
Proof.
  intros Hi (i & j & Hs). unfold step_of in Hs. destruct (stopped s) eqn:Hstop; [done|]. apply bind_Some in Hs as (t & Ht & Hs).
  assert (∀ s1, stopped s1 = stopped s → stop_ok s1) as Hkeep by (intros s1 H1; unfold stop_ok; by rewrite H1, Hstop).
  destruct (st t) as [[|v rest]|v rest|v rest [|n]|v rest|v rest|v rest|] eqn:Hst; try done.
  - destruct (home t); [done|]. injection Hs as <-. by apply Hkeep.
  - injection Hs as <-. unfold import_step. assert (todo (st t) = v :: rest) as Htd by by rewrite Hst.
    pose proof (import_needed _ _ _ _ _ _ Hi Ht Htd) as Hn. case_decide as Hf.
    + unfold stop_ok. simpl. split; [done|]. destruct (home t) as [m|] eqn:Hh.
      * eapply tc_rtc_l; [|apply tc_once; by eapply imports_of]. by eapply (ti_home _ _ _ (li_tinv _ _ _ _ Hi Ht) m Hh).
      * destruct (ti_root _ _ _ (li_tinv _ _ _ _ Hi Ht) Hh) as [Hro _]. rewrite Hro in Hf. set_solver.
    + destruct (startMap s !! v); [by apply Hkeep|]. destruct (files !! v) as [[|f fs]|] eqn:Hfs; [|by apply Hkeep|].
      all: unfold stop_ok; simpl; split; [done|]; intros; congruence.
  - destruct (startMap s !! v) as [[]|]; try done. injection Hs as <-. by apply Hkeep.
  - injection Hs as <-. by apply Hkeep.
  - apply bind_Some in Hs as (u & Hu & Hs). case_decide; [|done]. destruct (st u) as [[|]| | | | | |]; try done. injection Hs as <-. by apply Hkeep.
  - destruct (emitMu s); [done|]. injection Hs as <-. by apply Hkeep.
  - injection Hs as <-. by apply Hkeep.
  - injection Hs as <-. by apply Hkeep.
Qed.
Lemma stop_reachable s : rtc (lstep files) ParseDir s → stop_ok s.
Proof.
  intros [<-|(s1 & Hr & Hs)]%rtc_inv_r; [done|]. eapply stop_step; [by apply linv_reachable|done].
Qed.

(** ** Goroutines that cannot move *)

(** Its module is started and not closed. *)
Definition busy (s : loader) (v : string) : Prop := startMap s !! v = Some false.
Definition stuck (s : loader) : Prop := stopped s = None ∧ ∀ s', ¬ lstep files s s'.
Lemma blocked_thread s i t : linv s → stuck s → threads s !! i = Some t → st t = Finished ∨ ∃ v rest, todo (st t) = v :: rest ∧ busy s v ∧
  ((∃ r, st t = Waiting v r) ∨ ∃ r n, st t = Collecting v r (S n)).
Proof.
  intros Hi [Hok Hno] Ht. assert (∀ k j s1, step_of files k j s = Some s1 → False) as Hstep by (intros k j s1 H; apply (Hno s1); by exists k, j).
  assert (∀ j u v r, threads s !! j = Some u → st u = Emitting v r → False) as Hem.
  { intros j u v r Hu Hsu. eapply (Hstep j 0). unfold step_of. rewrite Hok, Hu. simpl. by rewrite Hsu. }
  pose proof (Hstep i) as Hsi. unfold step_of in Hsi. rewrite Hok, Ht in Hsi. simpl in Hsi.
  destruct (st t) as [[|v rest]|v rest|v rest [|n]|v rest|v rest|v rest|] eqn:Hst; [|by exfalso; eapply (Hsi 0)| |by exfalso; eapply (Hsi 0)| | |by exfalso; eapply Hem|by exfalso; eapply (Hsi 0)|by left].
  - destruct (home t) as [m|] eqn:Hh; [|by exfalso; eapply (Hsi 0)]. exfalso.
    destruct (ti_home _ _ _ (li_tinv _ _ _ _ Hi Ht) m Hh) as ([b Hb] & _).
    pose proof (sum_list_with_lookup (open_file m) _ _ _ Ht) as Hle. unfold open_file in Hle at 1. rewrite Hh, Hst, decide_True in Hle by done.
    destruct b; [pose proof (closed_files _ _ _ Hi Hb) as H0; unfold tsum in H0; lia|].
    destruct (started_loader _ _ _ Hi Hb) as (k & u & Hu & Hl). pose proof (nodes_loader _ _ _ _ _ Hi Hu Hl) as Hn. unfold tsum in Hn.
    destruct (st u) as [|?|w r [|n]|?|?|?|] eqn:Hsu; simpl in Hl, Hn; try done; try lia. injection Hl as ->.
    eapply (Hstep k i). unfold step_of. rewrite Hok, Hu. simpl. rewrite Hsu, Ht. simpl. rewrite decide_True by done. by rewrite Hst.
  - right. exists v, rest. split; [done|]. split; [|left; by eexists]. destruct (ti_wait _ _ _ (li_tinv _ _ _ _ Hi Ht) v rest Hst) as [[] Hb]; [|done].
    exfalso. eapply (Hsi 0). by rewrite Hb.
  - right. exists v, rest. split; [done|]. split; [|right; by eexists _, _]. eapply loads_started; [done|done|by rewrite Hst].
  - exfalso. destruct (emitMu s) eqn:Hmu; [|by eapply (Hsi 0)]. pose proof (li_mutex _ _ Hi) as Hm. rewrite Hmu in Hm. simpl in Hm.
    destruct (sum_list_with_pos emitting (threads s)) as (j & u & Hu & Hp); [unfold tsum in Hm; lia|].
    unfold emitting in Hp. destruct (st u) eqn:Hsu; try lia. by eapply Hem.
Qed.
(** A module that waits, waits for one of its imports. *)
Lemma stuck_busy s v : linv s → stuck s → busy s v → ∃ w, busy s w ∧ imports v w.
Proof.
  intros Hi Hst Hb. destruct (started_loader _ _ _ Hi Hb) as (k & u & Hu & Hl).
  destruct (blocked_thread s k u Hi Hst Hu) as [Hf|(w & rest & Htd & Hbw & [[r Hsu]|(r & n & Hsu)])]; [by rewrite Hf in Hl|by rewrite Hsu in Hl|].
  rewrite Hsu in Hl. simpl in Hl. injection Hl as ->.
  pose proof (nodes_loader _ _ _ _ v Hi Hu ltac:(by rewrite Hsu)) as Hn. rewrite Hsu in Hn. simpl in Hn.
  destruct (sum_list_with_pos (open_file v) (threads s)) as (j & t & Ht & Hp); [unfold tsum in Hn; lia|].
  unfold open_file in Hp. case_decide as Hh; [|lia]. destruct (blocked_thread s j t Hi Hst Ht) as [Hf|(x & rest' & Htd' & Hbx & _)]; [rewrite Hf in Hp; lia|].
  exists x. split; [done|]. by eapply imports_of.
Qed.
Lemma cycle_in {A} (R : A → A → Prop) `{!Transitive R} l : l ≠ [] → (∀ v, v ∈ l → ∃ w, w ∈ l ∧ R v w) → ∃ v, R v v.
Proof.
  induction l as [|v l IH]; intros Hne H; [done|]. destruct (H v ltac:(set_solver)) as (w & [->|Hw]%elem_of_cons & Hvw); [by exists v|].
  apply IH; [by intros ->; apply not_elem_of_nil in Hw|]. intros u Hu. destruct (H u ltac:(set_solver)) as (x & [->|Hx]%elem_of_cons & Hux); [|by exists x].
  exists w. split; [done|]. by etrans.
Qed.
Lemma stuck_cycle s v : linv s → stuck s → busy s v → ∃ w, tc imports w w.
Proof.
  intros Hi Hst Hb. set (l := (filter (λ x : string * bool, x.2 = false) (map_to_list (startMap s))).*1).
  assert (∀ w, w ∈ l ↔ busy s w) as Hl.
  { intros w. unfold l. rewrite list_elem_of_fmap. split.
    - intros ([x b] & -> & [Hx Hin]%list_elem_of_filter). simpl in *. subst b. by apply elem_of_map_to_list in Hin.
    - intros Hw. exists (w, false). split; [done|]. apply list_elem_of_filter. split; [done|]. by apply elem_of_map_to_list. }
  apply (cycle_in (tc imports) l).
  - apply Hl in Hb. intros H. rewrite H in Hb. by apply not_elem_of_nil in Hb.
  - intros w Hw. apply Hl in Hw. destruct (stuck_busy _ _ Hi Hst Hw) as (x & Hx & Hwx). exists x. split; [by apply Hl|by apply tc_once].
Qed.
Lemma all_finished s : linv s → stuck s → (∀ v, ¬ tc imports v v) → Forall (λ t, st t = Finished) (threads s).
Proof.
  intros Hi Hst Hac. apply Forall_lookup. intros i t Ht. destruct (blocked_thread s i t Hi Hst Ht) as [|(v & rest & _ & Hb & _)]; [done|].
  destruct (stuck_cycle s v Hi Hst Hb) as [w Hw]. by destruct (Hac w).
Qed.

(** ** Correctness *)

(** C13. Whatever the goroutines do, no module is emitted twice, a module is
    emitted behind all modules that its files import, at most one goroutine
    emits at a time, and the compiler reports a loop only if there is one. *)
Theorem loader_safe s : rtc (lstep files) ParseDir s →
  NoDup (emitted s) ∧ (∀ l1 v l2 w, emitted s = l1 ++ v :: l2 → imports v w → w ∈ l1) ∧ tsum emitting s ≤ 1 ∧
  (∀ v, stopped s = Some (FoundLoop v) → tc imports v v).
Proof.
  intros Hr. pose proof (linv_reachable _ _ Hr) as Hi. split; [|split; [apply (li_order _ _ Hi)|split]].
  - apply occ_NoDup. intros v. rewrite (li_emitted _ _ Hi). unfold b2n. case_decide as Hv.
    + unfold tsum. rewrite (sum_list_with_0 (closing v)); [lia|]. intros j t Ht. unfold closing. destruct (st t) as [| | | | |w r|] eqn:Hst; try done.
      unfold b2n. rewrite decide_False; [done|]. intros ->. pose proof (loads_started _ _ _ _ v Hi Ht ltac:(by rewrite Hst)). congruence.
    + transitivity (tsum (loading v) s).
      * unfold tsum. clear. induction (threads s) as [|t l IH]; simpl; [done|]. assert (closing v t ≤ loading v t); [|lia].
        unfold closing, loading, b2n. destruct (st t); simpl; try lia. repeat case_decide; simplify_eq; lia.
      * rewrite (li_loading _ _ Hi). unfold b2n. case_decide; lia.
  - rewrite (li_mutex _ _ Hi). destruct (emitMu s); simpl; lia.
  - intros v Hv. pose proof (stop_reachable _ Hr) as H. unfold stop_ok in H. rewrite Hv in H. by destruct H.
Qed.

(** C12. When no module imports itself on the way and every module that is needed
    has files, the loader cannot stop or block before the end: if no goroutine
    can move then all have finished, no loop was reported, and exactly the
    modules that are needed were emitted. *)
Theorem loader_complete s : (∀ v, ¬ tc imports v v) → (∀ v, needed v → ∃ f fs, files !! v = Some (f :: fs)) →
  rtc (lstep files) ParseDir s → (∀ s', ¬ lstep files s s') →
  stopped s = None ∧ Forall (λ t, st t = Finished) (threads s) ∧ ∀ v, v ∈ emitted s ↔ needed v.
Proof.
  intros Hac Hsrc Hr Hno. pose proof (linv_reachable _ _ Hr) as Hi. pose proof (stop_reachable _ Hr) as Hok.
  assert (stopped s = None) as Hst.
  { unfold stop_ok in Hok. destruct (stopped s) as [[v|v]|]; [|destruct Hok as [Hn Hf]|done]; [destruct Hok as [_ Hc]; by destruct (Hac v)|].
    destruct (Hsrc v Hn) as (f & fs & Hv). by destruct (Hf f fs). }
  pose proof (all_finished s Hi (conj Hst Hno) Hac) as Hfin. split; [done|]. split; [done|]. intros v. split.
  - intros Hv%occ_elem. rewrite (li_emitted _ _ Hi) in Hv. unfold b2n in Hv. case_decide as Hc.
    + destruct (li_source _ _ Hi v) as (f & fs & Hfs); [by rewrite Hc|].
      destruct (li_files _ _ Hi v (f :: fs) f) as (i & t & Ht & Hh & _); [by rewrite Hc|done|set_solver|].
      destruct (ti_home _ _ _ (li_tinv _ _ _ _ Hi Ht) v Hh) as (_ & _ & _ & _ & Hn). exact Hn.
    + unfold tsum in Hv. rewrite (sum_list_with_0 (closing v)) in Hv; [lia|]. intros j t Ht. unfold closing.
      rewrite Forall_lookup in Hfin. by rewrite (Hfin _ _ Ht).
  - intros (r & Hr0 & Hrv). assert (∀ w, startMap s !! w = Some true → rtc imports w v → startMap s !! v = Some true) as Hcl.
    { clear Hrv. intros w Hw Hwv. induction Hwv as [|w x v Hwx _ IH]; [done|]. apply IH. eapply collected_imports; [done| |by eapply closed_files|done]. by rewrite Hw. }
    eapply closed_emitted; [done|]. apply (Hcl r); [|done]. destruct (li_main _ _ Hi) as (i & t & Ht & Hh & Him).
    destruct (ti_todo _ _ _ (li_tinv _ _ _ _ Hi Ht)) as (pre & Hpre & Hc). rewrite Forall_lookup in Hfin. rewrite (Hfin _ _ Ht) in Hpre.
    simpl in Hpre. rewrite app_nil_r in Hpre. apply Hc. by rewrite <- Hpre, Him.
Qed.

(** ** Loading ends *)

(** The work that is left: of a goroutine, of a module that was not started. *)
Definition thread_work (t : thread) : nat :=
  match st t with
  | Importing r => 1 + 8 * length r
  | Waiting _ r => 8 + 8 * length r
  | Collecting _ r n => 5 + 8 * length r + n
  | Merged _ r => 4 + 8 * length r
  | Emitting _ r => 3 + 8 * length r
  | Closing _ r => 2 + 8 * length r
  | Finished => 0
  end.
Definition file_work (f : list string) : nat := 2 + 8 * length f.
Definition unstarted (sm : gmap string bool) : gmap string (list (list string)) := filter (λ x, sm !! x.1 = None) files.
Definition modules_work (m : gmap string (list (list string))) : nat := map_fold (λ _ fs n, sum_list_with file_work fs + n) 0 m.
Definition work (s : loader) : nat :=
  (if stopped s then 0 else 1) + tsum thread_work s + modules_work (unstarted (startMap s)).
Lemma work_delete m v fs : m !! v = Some fs → modules_work m = sum_list_with file_work fs + modules_work (delete v m).
Proof. intros Hv. unfold modules_work. by rewrite (map_fold_delete_L _ _ v fs) by (intros; lia || done). Qed.
Lemma unstarted_insert sm v b : unstarted (<[v:=b]> sm) = delete v (unstarted sm).
Proof.
  apply map_eq. intros w. unfold unstarted. destruct (decide (w = v)) as [->|Hne].
  - rewrite lookup_delete_eq. apply map_lookup_filter_None. right. intros fs _. simpl. by rewrite lookup_insert_eq.
  - rewrite lookup_delete_ne by done. apply option_eq. intros fs. rewrite !map_lookup_filter_Some. simpl. by rewrite lookup_insert_ne.
Qed.
Lemma unstarted_lookup sm v fs : sm !! v = None → files !! v = Some fs → unstarted sm !! v = Some fs.
Proof. intros Hv Hfs. unfold unstarted. by apply map_lookup_filter_Some. Qed.
Lemma spawned_work v F fs : sum_list_with thread_work (file_thread v F <$> fs) + length fs = sum_list_with file_work fs.
Proof.
  induction fs as [|f fs IH]; csimpl; [done|].
  change (thread_work (file_thread v F f)) with (1 + 8 * length f). change (file_work f) with (2 + 8 * length f). lia.
Qed.
Lemma work_step s s' : lstep files s s' → work s' < work s.
Proof.
  intros (i & j & Hs). unfold step_of in Hs. destruct (stopped s) eqn:Hstop; [done|]. apply bind_Some in Hs as (t & Ht & Hs).
  assert (∀ x, thread_work (move x t) < thread_work t → work (set_thread i (move x t) s) < work s) as Hmove.
  { intros x Hx. unfold work. simpl. rewrite Hstop. pose proof (tsum_set thread_work s i t (move x t) Ht). lia. }
  unfold thread_work in Hmove at 2. destruct (st t) as [[|v rest]|v rest|v rest [|n]|v rest|v rest|v rest|] eqn:Hst; simpl in Hmove; try done.
  - destruct (home t); [done|]. injection Hs as <-. apply Hmove. cbn. lia.
  - injection Hs as <-. unfold import_step. case_decide; [unfold work, tsum; simpl; rewrite Hstop; lia|].
    destruct (startMap s !! v) eqn:Hv; [apply Hmove; cbn; lia|].
    destruct (files !! v) as [[|f fs]|] eqn:Hfs; [unfold work, tsum; simpl; rewrite Hstop; lia| |unfold work, tsum; simpl; rewrite Hstop; lia].
    set (gs := f :: fs) in *. unfold work. simpl stopped. rewrite Hstop, tsum_spawn. pose proof (spawned_work v (fathers t) gs) as Hw.
    pose proof (tsum_set thread_work (set_start v false s) i t (move (Collecting v rest (length gs)) t) Ht) as Hs.
    change (thread_work (move (Collecting v rest (length gs)) t)) with (5 + 8 * length rest + length gs) in Hs.
    assert (thread_work t = 9 + 8 * length rest) as Hwt by (unfold thread_work; rewrite Hst; simpl; lia).
    change (tsum thread_work (set_start v false s)) with (tsum thread_work s) in Hs.
    simpl startMap. rewrite unstarted_insert. rewrite (work_delete (unstarted (startMap s)) v gs) by by apply unstarted_lookup.
    lia.
  - destruct (startMap s !! v) as [[]|]; try done. injection Hs as <-. apply Hmove. cbn. lia.
  - injection Hs as <-. apply Hmove. cbn. lia.
  - apply bind_Some in Hs as (u & Hu & Hs). case_decide; [|done]. destruct (st u) as [[|]| | | | | |] eqn:Hsu; try done. injection Hs as <-.
    assert (j ≠ i) as Hji by (intros ->; congruence). set (t' := move (Collecting v rest n) t).
    assert (threads (set_thread i t' s) !! j = Some u) as Hu1 by (simpl; by rewrite list_lookup_insert_ne).
    pose proof (tsum_set thread_work _ j u (move Finished u) Hu1) as H1. pose proof (tsum_set thread_work s i t t' Ht) as H2.
    unfold thread_work in H1 at 2 4, H2 at 2 4. rewrite Hsu in H1. rewrite Hst in H2. simpl in H1, H2. unfold work. simpl. rewrite Hstop. lia.
  - destruct (emitMu s); [done|]. injection Hs as <-. specialize (Hmove (Emitting v rest)). unfold work, tsum in *. simpl in *. apply Hmove. cbn. lia.
  - injection Hs as <-. specialize (Hmove (Closing v rest)). unfold work, tsum in *. simpl in *. apply Hmove. cbn. lia.
  - injection Hs as <-. specialize (Hmove (Importing rest)). unfold work, tsum in *. simpl in *. rewrite unstarted_insert.
    assert (modules_work (delete v (unstarted (startMap s))) ≤ modules_work (unstarted (startMap s))) as Hle.
    { destruct (unstarted (startMap s) !! v) as [fs|] eqn:Hv; [rewrite (work_delete _ v fs Hv); lia|by rewrite delete_id]. }
    specialize (Hmove ltac:(cbn; lia)). lia.
Qed.

(** C38. Every run of the loader ends, after at most as many steps as the files
    and their imports ask for, with or without cycles: it does not go round. *)
Theorem loader_terminates n s : nsteps (lstep files) n ParseDir s → n + work s ≤ 42 + modules_work files.
Proof.
  intros Hn. assert (∀ s0 : loader, nsteps (lstep files) n s0 s → n + work s ≤ work s0) as H.
  { clear Hn. intros s0 Hn. induction Hn as [s0|n s0 s1 s2 Hs _ IH]; [done|]. pose proof (work_step _ _ Hs). lia. }
  apply H in Hn. etrans; [exact Hn|]. unfold work. simpl. unfold unstarted. rewrite map_filter_id; [done|]. intros. apply lookup_empty.
Qed.
End theorems.

(** ** Instances *)

(** [can_step] finds a step if there is one. *)
Lemma can_step_ok files s s' : lstep files s s' → can_step files s = true.
Proof.
  intros (i & j & Hs). unfold can_step. apply existsb_exists.
  assert (∃ t, threads s !! i = Some t) as [t Ht]. { unfold step_of in Hs. destruct (stopped s); [done|]. by apply bind_Some in Hs as (t & Ht & _); eauto. }
  pose proof (lookup_lt_Some _ _ _ Ht) as Hi. exists i. split; [apply in_seq; lia|]. apply existsb_exists.
  destruct (decide (j < length (threads s))) as [Hj|Hj]; [exists j; split; [apply in_seq; lia|]; by rewrite Hs|].
  exists i. split; [apply in_seq; lia|]. assert (threads s !! j = None) as Hn by (apply lookup_ge_None; lia).
  unfold step_of in Hs |- *. destruct (stopped s); [done|]. rewrite Ht in Hs |- *. simpl in Hs |- *.
  destruct (st t) as [[|v rest]|v rest|v rest [|n]|v rest|v rest|v rest|]; first [done|by rewrite Hs|by rewrite Hn in Hs].
Qed.

(** Imports go down a rank, and every module that is named has files. *)
Definition ranked (files : gmap string (list (list string))) (rank : string → nat) : Prop :=
  map_Forall (λ v fs, Forall (Forall (λ w, rank w < rank v)) fs) files.
Definition sourced (files : gmap string (list (list string))) : Prop :=
  Forall (λ v, is_Some (files !! v)) roots ∧ map_Forall (λ v fs, fs ≠ [] ∧ Forall (Forall (λ w, is_Some (files !! w))) fs) files.
Lemma ranked_acyclic files rank : ranked files rank → ∀ v, ¬ tc (imports files) v v.
Proof.
  intros Hr v Hv. cut (rank v < rank v); [lia|]. assert (∀ x y, tc (imports files) x y → rank y < rank x) as H; [|by apply H].
  assert (∀ x y, imports files x y → rank y < rank x) as H1.
  { intros x y (fs & f & Hfs & Hf & Hy). specialize (Hr x fs Hfs). rewrite Forall_forall in Hr. specialize (Hr f Hf). rewrite Forall_forall in Hr. by apply Hr. }
  induction 1 as [x y Hxy|x y z Hxy _ IH]; [by apply H1|]. specialize (H1 x y Hxy). lia.
Qed.
Lemma sourced_needed files : sourced files → ∀ v, needed files v → ∃ f fs, files !! v = Some (f :: fs).
Proof.
  intros [Hr Hf] v (r & Hr0 & Hrv). assert (∀ w, is_Some (files !! w) → rtc (imports files) w v → is_Some (files !! v)) as H.
  { clear Hrv. intros w Hw Hwv. induction Hwv as [|x y z (fs & f & Hfs & Hin & Hy) _ IH]; [done|]. apply IH. destruct (Hf x fs Hfs) as [_ Hall].
    rewrite Forall_forall in Hall. specialize (Hall f Hin). rewrite Forall_forall in Hall. by apply Hall. }
  rewrite Forall_forall in Hr. destruct (H r (Hr r Hr0) Hrv) as [[|f fs] Hv]; [by destruct (Hf v [] Hv)|by exists f, fs].
Qed.

(** Modules of the runtime without imports, and [main] with two files. *)
Definition with_runtime (mods : list (string * list (list string))) : gmap string (list (list string)) :=
  list_to_map (((λ r, (r, [[]])) <$> take 4 roots) ++ mods).
Definition good_files := with_runtime [("main", [["a"]; ["b"]]); ("a", [["b"]]); ("b", [[]])]%string.
Definition loop_files := with_runtime [("main", [["a"]; ["b"]]); ("a", [["b"]]); ("b", [["a"]])]%string.
(** Goroutine 0 loads a module of the runtime, whose file is goroutine [k]. *)
Definition load_one (k : nat) : list (nat * nat) := [(0, 0); (0, k); (0, 0); (0, 0); (0, 0); (0, 0)].
Definition load_runtime : list (nat * nat) := load_one 1 ++ load_one 2 ++ load_one 3 ++ load_one 4.
(** Both files of [main] start a module, and [a] waits for [b]. *)
Definition good_schedule : list (nat * nat) := load_runtime ++
  [(0, 0); (5, 0); (6, 0); (7, 0); (6, 8); (6, 0); (6, 0); (6, 0); (6, 0); (7, 0); (5, 7); (5, 0); (5, 0); (5, 0); (5, 0); (0, 6); (0, 5); (0, 0); (0, 0); (0, 0); (0, 0); (0, 0)].
Definition end_of files sch : loader := default ParseDir (run_schedule files sch ParseDir).
Lemma end_reachable files sch : is_Some (run_schedule files sch ParseDir) → rtc (lstep files) ParseDir (end_of files sch).
Proof. intros [s Hs]. apply (run_schedule_steps files sch). unfold end_of. by rewrite Hs. Qed.
Lemma end_stuck files sch : can_step files (end_of files sch) = false → ∀ s', ¬ lstep files (end_of files sch) s'.
Proof. intros Hc s' Hs. by rewrite (can_step_ok _ _ _ Hs) in Hc. Qed.

Lemma loader_safe_witness : NoDup (emitted (end_of good_files good_schedule)) ∧ tsum emitting (end_of good_files good_schedule) ≤ 1.
Proof.
  destruct (loader_safe good_files (end_of good_files good_schedule)) as (H1 & _ & H2 & _); [|by split].
  apply end_reachable. eexists. vm_compute. reflexivity.
Defined.
Definition good_rank (v : string) : nat := if decide (v = "main"%string) then 2 else if decide (v = "a"%string) then 1 else 0.
Lemma loader_complete_witness : stopped (end_of good_files good_schedule) = None ∧ ("b"%string ∈ emitted (end_of good_files good_schedule) ↔ needed good_files "b").
Proof.
  destruct (loader_complete good_files (end_of good_files good_schedule)) as (Hs & _ & He); [..|by split].
  - apply (ranked_acyclic _ good_rank). apply (bool_decide_eq_true_1 _). vm_compute. reflexivity.
  - apply sourced_needed. apply (bool_decide_eq_true_1 _). vm_compute. reflexivity.
  - apply end_reachable. eexists. vm_compute. reflexivity.
  - apply end_stuck. vm_compute. reflexivity.
Defined.
Lemma loader_terminates_witness : length good_schedule + work good_files (end_of good_files good_schedule) ≤ 42 + modules_work good_files.
Proof.
  apply (loader_terminates good_files), run_schedule_nsteps. vm_compute. reflexivity.
Defined.

(** C39. A loop of imports is not always found: [main] imports [a] and [b] in two
    files, and they import each other.  When [a] is loaded first its file
    starts [b] and the loop is reported; when both files of [main] start their
    module first, [a] and [b] wait for each other, nothing is reported, and
    nothing can move any more. *)
Theorem loader_deadlock :
  stopped (end_of loop_files (load_runtime ++ [(0, 0); (5, 0); (7, 0); (8, 0)])) = Some (FoundLoop "a") ∧
  ∃ s, run_schedule loop_files (load_runtime ++ [(0, 0); (5, 0); (6, 0); (7, 0); (8, 0)]) ParseDir = Some s ∧
    stopped s = None ∧ emitted s = take 4 roots ∧ ∀ s', ¬ lstep loop_files s s'.
Proof.
  split; [vm_compute; reflexivity|]. eexists. split; [vm_compute; reflexivity|]. split; [reflexivity|]. split; [reflexivity|].
  intros s' Hs%can_step_ok. vm_compute in Hs. discriminate.
Qed.
