(* ===== verification/TypeDefs.v ===== *)
(** * Type definitions: types.go and CalcGlobals

    A type definition of a module is a function that the generator calls when
    the module is emitted, again and again until every definition has worked
    ([ProgramNode.CalcGlobals] in src/compiler/ast/ast.go, [NewTypeDef] and the
    [calc] methods of types in src/compiler/ast/types.go).  Types without
    generic arguments, and arrays with a length, are modelled; [NotModelled]
    marks the others. *)
From S2P Require Import Prelude Lexer Ast ParserTypes Codegen.
#[local] Open Scope Z_scope.

(** ** The generator's types *)

(** A type with a name is printed by its name; of an interface, the names of
    its functions, in order. *)
Inductive lltype :=
  | IntT (bits : Z) | FloatT | DoubleT | VoidT
  | NamedT (name : text)
  | PtrT (t : lltype)
  | ArrT (n : Z) (t : lltype)
  | FuncT (ret : option lltype) (args : list lltype)
  | StructT (fields : list lltype)
  | InterfT (funcs : list text).
Definition ptrs (n : nat) (t : lltype) : lltype := Nat.iter n PtrT t.
Fixpoint strip (t : lltype) : lltype := match t with PtrT t => strip t | _ => t end.

Definition str_name : text := runes_of "github.com/Chronostasys/calc/runtime/strings._str".
Definition res_type (r : Z) : option lltype :=
  if r =? TYPE_RES_FLOAT then Some DoubleT
  else if r =? TYPE_RES_INT then Some (IntT 64)
  else if r =? TYPE_RES_BOOL then Some (IntT 1)
  else if r =? TYPE_RES_FLOAT32 then Some FloatT
  else if r =? TYPE_RES_INT32 then Some (IntT 32)
  else if r =? TYPE_RES_FLOAT64 then Some DoubleT
  else if r =? TYPE_RES_INT64 then Some (IntT 64)
  else if r =? TYPE_RES_BYTE then Some (IntT 8)
  else if r =? TYPE_RES_VOID then Some VoidT
  else if r =? TYPE_RES_STR then Some (NamedT str_name)
  else None.

#[local] Instance res_bind : MBind res := λ A B k m,
  match m with Ok a => k a | Panic => Panic | NotModelled => NotModelled end.

(** A definition as [NewTypeDef] gets it, and as the scope keeps it.  The map
    of fields is the list of its entries. *)
Record typedef_src := mk_typedef_src { td_id : text; td_tp : TypeNode }.
Record typedef := mk_typedef { structType : lltype; fieldsIdx : list (text * (nat * lltype)) }.
(** The types of the global scope, the definitions of the LLVM module. *)
Record tscope := mk_tscope { types : gmap text typedef; typeDefs : list (text * lltype) }.

#[local] Open Scope parser_scope.
(** [typeDef] of the parser, without the registration. *)
Definition typeDef (p : Parser) : PM (typedef_src * list text) :=
  _ ←? scan_type TYPE_RES_TYPE;
  t ←? scan_type TYPE_VAR;
  generics ← on_err genericParams mret (λ _, mret []);
  tp ←? allTypes p;
  ret_ok (mk_typedef_src t tp, generics).
#[local] Close Scope parser_scope.

(** [getFullName] of a scope of package [pkg]; an empty name panics. *)
Definition full_name (pkg id : text) : option text :=
  match id with
  | [] => None
  | c :: _ =>
    if c =? ch "{" then Some id
    else
      let id := unquote id in
      if decide (id ∈ externMap) then Some id
      else let p := pkg ++ [ch "."] in if decide (take (length p) id = p) then Some id else Some (p ++ id)
  end.

Section types.
(** The package; the other modules of [ScopeMap] with the names of their types. *)
Context (Pkgname : text) (ScopeMap : gmap text (gset text)).

(** ** Names of types *)

(** What a name stands for: a type; a type of this package, which must be
    defined, with the exception of the runtime's strings. *)
Inductive ref := RType (t : lltype) | RName (full : text) (known : bool) | RBad | RNotModelled.
(** [getTp] in the scope of module [m]: only the scope that is emitted is
    strict.  [ScopeMap] of an unknown module is nil, and its use panics. *)
Definition getTp (m pkg tpname : text) : ref :=
  if decide (m = Pkgname) then
    match full_name Pkgname tpname with Some f => RName f (bool_decide (pkg ++ [ch "."] ++ tpname = str_name)) | None => RBad end
  else
    match ScopeMap !! m with
    | Some defs =>
      match full_name m tpname with
      | Some f => if decide (f ∈ defs) then RType (NamedT f) else RType (NamedT (pkg ++ [ch "."] ++ tpname))
      | None => RBad
      end
    | None => RBad
    end.
Definition basic_ref (ResType : Z) (CustomTp : list text) (Generics : list TypeNode) (Pkg : text) : ref :=
  match CustomTp with
  | [] => match res_type ResType with Some t => RType t | None => RBad end
  | tpname :: rest =>
    match Generics with
    | _ :: _ => RNotModelled
    | [] => match rest with [] => getTp Pkg Pkg tpname | tpname2 :: _ => getTp tpname Pkg tpname2 end
    end
  end.

(** ** The [calc] methods *)

Definition BasicTypeNode_calc (ts : gmap text typedef) (ResType : Z) (CustomTp : list text) (PtrLevel : nat) (Generics : list TypeNode) (Pkg : text) : res lltype :=
  match basic_ref ResType CustomTp Generics Pkg with
  | RType t => Ok (ptrs PtrLevel t)
  | RName f known =>
    match ts !! f with
    | Some td => Ok (ptrs PtrLevel (structType td))
    | None => if known then Ok (ptrs PtrLevel (NamedT str_name)) else Panic
    end
  | RBad => Panic
  | RNotModelled => NotModelled
  end.
(** The others, from what the types inside of them give. *)
Definition FuncTypeNode_calc (Ret : option (res lltype)) (Args : res (list lltype)) (ptrlevel : nat) : res lltype :=
  ret ← match Ret with Some r => t ← r; Ok (Some t) | None => Ok None end;
  args ← Args;
  Ok (ptrs (S ptrlevel) (FuncT ret args)).
Definition ArrayTypeNode_calc (Len : Z) (ElmType : res lltype) (PtrLevel : nat) : res lltype :=
  elm ← ElmType;
  if 0 <? Len then Ok (ptrs PtrLevel (ArrT Len elm)) else NotModelled.
Definition StructDefNode_calc (Orderedfields : res (list lltype)) (ptrlevel : nat) : res lltype :=
  fields ← Orderedfields;
  Ok (ptrs ptrlevel (StructT fields)).
Definition InterfaceDefNode_calc (OrderedIDS : list text) (ptrlevel : nat) : res lltype := Ok (ptrs ptrlevel (InterfT OrderedIDS)).
Fixpoint calc (ts : gmap text typedef) (n : TypeNode) : res lltype :=
  let calcs := fix calcs (l : list (text * TypeNode)) : res (list lltype) :=
    match l with [] => Ok [] | (_, n) :: l => t ← calc ts n; r ← calcs l; Ok (t :: r) end in
  match n with
  | BasicTypeNode r c k g pkg => BasicTypeNode_calc ts r c k g pkg
  | FuncTypeNode ps _ ret k => FuncTypeNode_calc (match ret with Some n => Some (calc ts n) | None => None end) (calcs ps) k
  | ArrayTypeNode len e k => ArrayTypeNode_calc len (calc ts e) k
  | StructDefNode k fs => StructDefNode_calc (calcs fs) k
  | InterfaceDefNode k _ ids => InterfaceDefNode_calc ids k
  end.
(** The fields of a struct: number and type by name. *)
Definition fields_map (n : TypeNode) (t : lltype) : list (text * (nat * lltype)) :=
  match n, strip t with
  | StructDefNode _ fs, StructT ts => foldl (λ m x, map_set x.1 x.2 m) [] (imap (λ i x, (x.1, (i, x.2))) (zip fs.*1 ts))
  | _, _ => []
  end.

(** ** Definitions *)

(** [NewTypeDef] of the LLVM module gives the type it gets its new name, so that
    [type A int] renames the [int] that all share: only definitions that make
    a new type are modelled. *)
Definition makes_new (n : TypeNode) : bool := match n with BasicTypeNode _ _ O _ _ => false | _ => true end.
(** The function that [NewTypeDef] appends to [defFuncs]: a placeholder under
    the name, the type, and the name again; an error or a panic removes the
    name.  The entry that [StructDefNode.calc] makes for the struct itself,
    under its text, is left out: no name begins with a brace. *)
Definition defFunc (d : typedef_src) (s : tscope) : res unit * tscope :=
  match full_name Pkgname (td_id d), makes_new (td_tp d) with
  | None, _ | _, false => (NotModelled, s)
  | Some full, true =>
    let ts := match types s !! full with Some _ => types s | None => <[full := mk_typedef (NamedT full) []]> (types s) end in
    match calc ts (td_tp d) with
    | Ok t =>
      let ts := match types s !! full with Some _ => types s | None => <[full := mk_typedef (NamedT full) (fields_map (td_tp d) t)]> ts end in
      (Ok tt, mk_tscope ts (typeDefs s ++ [(full, t)]))
    | Panic => (Panic, mk_tscope (delete full ts) (typeDefs s))
    | NotModelled => (NotModelled, s)
    end
  end.
(** One round of the loop: the definitions that failed. *)
Fixpoint round (ds : list typedef_src) (s : tscope) : res (list typedef_src) * tscope :=
  match ds with
  | [] => (Ok [], s)
  | d :: ds =>
    match defFunc d s with
    | (NotModelled, s) => (NotModelled, s)
    | (r, s) =>
      match round ds s with
      | (Ok failed, s) => (Ok (match r with Ok _ => failed | _ => d :: failed end), s)
      | e => e
      end
    end
  end.
Fixpoint define_types (fuel : nat) (defFuncs : list typedef_src) (s : tscope) : option (res tscope) :=
  match fuel with
  | O => None
  | S fuel =>
    match round defFuncs s with
    | (Ok [], s) => Some (Ok s)
    | (Ok failed, s) => define_types fuel failed s
    | (Panic, _) => Some Panic
    | (NotModelled, _) => Some NotModelled
    end
  end.
(** [CalcGlobals] starts without types. *)
Definition no_types : tscope := mk_tscope ∅ [].

(** ** What a definition needs *)

(** The names of this package it uses; whether anything else is wrong with it;
    the type it stands for. *)
Fixpoint uses (n : TypeNode) : list text :=
  match n with
  | BasicTypeNode r c _ g pkg => match basic_ref r c g pkg with RName f false => [f] | _ => [] end
  | FuncTypeNode ps _ ret _ => match ret with Some n => uses n | None => [] end ++ concat (map (λ x, uses x.2) ps)
  | ArrayTypeNode _ e _ => uses e
  | StructDefNode _ fs => concat (map (λ x, uses x.2) fs)
  | InterfaceDefNode _ _ _ => []
  end.
Fixpoint valid (n : TypeNode) : bool :=
  match n with
  | BasicTypeNode r c _ g pkg => match basic_ref r c g pkg with RBad => false | _ => true end
  | FuncTypeNode ps _ ret _ => match ret with Some n => valid n | None => true end && forallb (λ x, valid x.2) ps
  | ArrayTypeNode _ e _ => valid e
  | StructDefNode _ fs => forallb (λ x, valid x.2) fs
  | InterfaceDefNode _ _ _ => true
  end.
Fixpoint ty (n : TypeNode) : lltype :=
  match n with
  | BasicTypeNode r c k g pkg => match basic_ref r c g pkg with RType t => ptrs k t | RName f _ => ptrs k (NamedT f) | _ => VoidT end
  | FuncTypeNode ps _ ret k => ptrs (S k) (FuncT (match ret with Some n => Some (ty n) | None => None end) (map (λ x, ty x.2) ps))
  | ArrayTypeNode len e k => ptrs k (ArrT len (ty e))
  | StructDefNode k fs => ptrs k (StructT (map (λ x, ty x.2) fs))
  | InterfaceDefNode k _ ids => ptrs k (InterfT ids)
  end.
(** No generic arguments, no slices, and not the strings inside of their
    package. *)
Fixpoint modelled (n : TypeNode) : bool :=
  match n with
  | BasicTypeNode r c _ g pkg => match basic_ref r c g pkg with RNotModelled | RName _ true => false | _ => true end
  | FuncTypeNode ps _ ret _ => match ret with Some n => modelled n | None => true end && forallb (λ x, modelled x.2) ps
  | ArrayTypeNode len e _ => (0 <? len) && modelled e
  | StructDefNode _ fs => forallb (λ x, modelled x.2) fs
  | InterfaceDefNode _ _ _ => true
  end.
End types.
