(* ===== verification/TypeDefsTheorems.v ===== *)
(** * Which type definitions are resolved

    The loop of [CalcGlobals] ends when the definitions have an order in which
    each uses only itself and earlier ones, and then gives the same types
    whatever the order they are written in; otherwise it never ends. *)
From S2P Require Import Prelude Lexer Ast ParserTypes Codegen TypeDefs.
#[local] Open Scope Z_scope.

Section ind.
Context (P : TypeNode → Prop).
Hypothesis Hbasic : ∀ r c k g pkg, P (BasicTypeNode r c k g pkg).
Hypothesis Hfunc : ∀ ps e ret k, Forall (λ x, P x.2) ps → (∀ n, ret = Some n → P n) → P (FuncTypeNode ps e ret k).
Hypothesis Harray : ∀ len e k, P e → P (ArrayTypeNode len e k).
Hypothesis Hstruct : ∀ k fs, Forall (λ x, P x.2) fs → P (StructDefNode k fs).
Hypothesis Hinterf : ∀ k fs ids, P (InterfaceDefNode k fs ids).
(** Induction that reaches the types in lists. *)
Fixpoint TypeNode_nested_ind (n : TypeNode) : P n :=
  let all := fix all (l : list (text * TypeNode)) : Forall (λ x, P x.2) l :=
    match l with [] => Forall_nil_2 _ | x :: l => Forall_cons_2 _ _ _ (TypeNode_nested_ind x.2) (all l) end in
  match n with
  | BasicTypeNode r c k g pkg => Hbasic r c k g pkg
  | FuncTypeNode ps e ret k =>
    Hfunc ps e ret k (all ps) (match ret with Some n => λ m H, eq_ind n P (TypeNode_nested_ind n) m (f_equal (default n) H) | None => λ m H, False_ind _ (eq_ind None (λ o : option TypeNode, match o with None => True | _ => False end) I _ H) end)
  | ArrayTypeNode len e k => Harray len e k (TypeNode_nested_ind e)
  | StructDefNode k fs => Hstruct k fs (all fs)
  | InterfaceDefNode k fs ids => Hinterf k fs ids
  end.
End ind.

Section types.
Context (Pkgname : text) (ScopeMap : gmap text (gset text)).
#[local] Notation calc := (calc Pkgname ScopeMap).
#[local] Notation uses := (uses Pkgname ScopeMap).
#[local] Notation valid := (valid Pkgname ScopeMap).
#[local] Notation modelled := (modelled Pkgname ScopeMap).
#[local] Notation ty := (ty Pkgname ScopeMap).
#[local] Notation basic_ref := (basic_ref Pkgname ScopeMap).
#[local] Notation define_types := (define_types Pkgname ScopeMap).
#[local] Notation round := (round Pkgname ScopeMap).
#[local] Notation defFunc := (defFunc Pkgname ScopeMap).

(** ** Types *)

Definition named (ts : gmap text typedef) : Prop := ∀ f td, ts !! f = Some td → structType td = NamedT f.
(** A type is made exactly when it is valid and the names it uses are defined,
    and does not depend on what they are defined as. *)
Definition good (D : gset text) (v : bool) (us : list text) : Prop := v = true ∧ Forall (λ f, f ∈ D) us.
#[export] Instance good_dec D v us : Decision (good D v us).
Proof. apply _. Defined.
#[local] Opaque good_dec.
Definition makes (D : gset text) (n : TypeNode) : Prop := good D (valid n) (uses n).
Lemma good_app D v1 v2 u1 u2 : good D (v1 && v2) (u1 ++ u2) ↔ good D v1 u1 ∧ good D v2 u2.
Proof. unfold good. rewrite andb_true_iff, Forall_app. naive_solver. Qed.
Lemma good_nil D : good D true [].
Proof. split; [done|constructor]. Qed.
Lemma makes_mono D D' n : D ⊆ D' → makes D n → makes D' n.
Proof. intros Hs [Hv Hu]. split; [done|]. eapply Forall_impl; [exact Hu|]. intros f. apply Hs. Qed.

Definition calc_all (ts : gmap text typedef) := fix calcs (l : list (text * TypeNode)) : res (list lltype) :=
  match l with
  | [] => Ok []
  | (_, n) :: l => match calc ts n with Ok t => match calcs l with Ok r => Ok (t :: r) | Panic => Panic | NotModelled => NotModelled end | Panic => Panic | NotModelled => NotModelled end
  end.
Lemma calc_all_ok ts l : Forall (λ x, modelled x.2 = true → calc ts x.2 = if decide (makes (dom ts) x.2) then Ok (ty x.2) else Panic) l →
  forallb (λ x, modelled x.2) l = true →
  calc_all ts l = if decide (good (dom ts) (forallb (λ x, valid x.2) l) (concat (map (λ x, uses x.2) l))) then Ok (map (λ x, ty x.2) l) else Panic.
Proof.
  induction 1 as [|[k n] l Hn _ IH]; intros Hm; simpl; [by rewrite decide_True by apply good_nil|].
  simpl in Hm. apply andb_true_iff in Hm as [Hm1 Hm2]. simpl in Hn. rewrite (Hn Hm1), (IH Hm2). clear IH Hn.
  unfold makes. repeat case_decide; try done; rewrite good_app in *; naive_solver.
Qed.
Lemma calc_ok ts n : named ts → modelled n = true → calc ts n = if decide (makes (dom ts) n) then Ok (ty n) else Panic.
Proof.
  intros Hts. induction n as [r c k g pkg|ps e ret k Hps Hret|len e k He|k fs Hfs|k fs ids] using TypeNode_nested_ind; intros Hm; simpl in Hm |- *;
    unfold BasicTypeNode_calc, FuncTypeNode_calc, ArrayTypeNode_calc, StructDefNode_calc, InterfaceDefNode_calc; simpl.
  - unfold makes. simpl. destruct (basic_ref r c g pkg) as [t|f known| |].
    + by rewrite decide_True by apply good_nil.
    + destruct known; [done|]. destruct (ts !! f) as [td|] eqn:Hf.
      * rewrite decide_True; [by rewrite (Hts f td Hf)|]. split; [done|]. apply Forall_singleton. by apply elem_of_dom_2 in Hf.
      * rewrite decide_False; [done|]. intros [_ Hu]. apply not_elem_of_dom in Hf. by rewrite Forall_singleton in Hu.
    + rewrite decide_False; [done|]. by intros [? _].
    + done.
  - apply andb_true_iff in Hm as [Hm1 Hm2]. pose proof (calc_all_ok ts ps Hps Hm2) as Hc.
    change ((fix calcs (l : list (text * TypeNode)) := _) ps) with (calc_all ts ps). unfold makes. simpl.
    destruct ret as [n|]; [rewrite (Hret n eq_refl Hm1)|]; simpl; rewrite Hc; clear Hc Hps Hret; unfold makes; repeat case_decide; try done; simpl in *.
    all: try rewrite good_app in *; naive_solver.
  - apply andb_true_iff in Hm as [Hm1 Hm2]. rewrite (He Hm2), Hm1. clear He. unfold makes. simpl. by case_decide.
  - pose proof (calc_all_ok ts fs Hfs Hm) as Hc. change ((fix calcs (l : list (text * TypeNode)) := _) fs) with (calc_all ts fs).
    rewrite Hc. clear Hc Hfs. unfold makes. simpl. by case_decide.
  - by rewrite decide_True by apply good_nil.
Qed.

(** ** Orders of definitions *)

(** The name of a definition, and when it works. *)
Definition name (d : typedef_src) : text := default [] (full_name Pkgname (td_id d)).
Definition ready (D : gset text) (d : typedef_src) : Prop := makes ({[name d]} ∪ D) (td_tp d).
Fixpoint ordered (D : gset text) (l : list typedef_src) : Prop :=
  match l with [] => True | d :: l => ready D d ∧ ordered ({[name d]} ∪ D) l end.
Lemma ready_mono D D' d : D ⊆ D' → ready D d → ready D' d.
Proof. intros Hs. apply makes_mono. set_solver. Qed.
#[export] Instance ready_dec D d : Decision (ready D d).
Proof. apply good_dec. Defined.
#[local] Opaque ready_dec.
#[export] Instance ordered_dec D l : Decision (ordered D l).
Proof. revert D. induction l as [|d l IH]; intros D; simpl; apply _. Defined.
(** The names that are defined behind [l]. *)
Definition names (D : gset text) (l : list typedef_src) : gset text := list_to_set (name <$> l) ∪ D.
Lemma names_cons D d l : names D (d :: l) = names ({[name d]} ∪ D) l.
Proof. unfold names. csimpl. set_solver. Qed.
Lemma ordered_app D l1 l2 : ordered D (l1 ++ l2) ↔ ordered D l1 ∧ ordered (names D l1) l2.
Proof.
  revert D. induction l1 as [|d l1 IH]; intros D; simpl.
  - unfold names. csimpl. rewrite (left_id_L ∅ (∪)). naive_solver.
  - rewrite IH, names_cons. naive_solver.
Qed.
Lemma filter_ext_elem {A} (P Q : A → Prop) `{∀ x, Decision (P x), ∀ x, Decision (Q x)} (l : list A) : (∀ x, x ∈ l → P x ↔ Q x) → filter P l = filter Q l.
Proof.
  induction l as [|x l IH]; intros H1; [done|]. rewrite !filter_cons, IH by (intros; apply H1; by apply elem_of_cons; right).
  specialize (H1 x ltac:(by apply elem_of_cons; left)). repeat case_decide; naive_solver.
Qed.
Lemma filter_nothing {A} (P : A → Prop) `{∀ x, Decision (P x)} (l : list A) : (∀ x, x ∈ l → ¬ P x) → filter P l = [].
Proof. induction l as [|x l IH]; intros H1; [done|]. rewrite filter_cons, IH by set_solver. rewrite decide_False; [done|]. apply H1. set_solver. Qed.
(** What is still to be defined keeps its order when more is defined. *)
Lemma ordered_filter D D' l : ordered D l → D ⊆ D' → NoDup (name <$> l) → ordered D' (filter (λ d, name d ∉ D') l).
Proof.
  revert D D'. induction l as [|d l IH]; intros D D' Ho Hs Hnd; [done|]. destruct Ho as [Hr Ho]. csimpl in Hnd. apply NoDup_cons in Hnd as [Hni Hnd].
  rewrite filter_cons. case_decide as Hd.
  - split; [by eapply ready_mono|].
    assert (filter (λ d0, name d0 ∉ D') l = filter (λ d0, name d0 ∉ {[name d]} ∪ D') l) as ->.
    { apply filter_ext_elem. intros x Hx. split; [|set_solver]. intros Hx' [Heq%elem_of_singleton|?]%elem_of_union; [|done]. apply Hni. rewrite <- Heq. by apply list_elem_of_fmap_2. }
    eapply IH; [exact Ho|set_solver|done].
  - eapply IH; [exact Ho| |done]. set_solver.
Qed.

(** ** Rounds *)

(** The definitions that fail in a round, and those that work, in order. *)
Fixpoint pure_round (D : gset text) (ds : list typedef_src) : list typedef_src * list typedef_src :=
  match ds with
  | [] => ([], [])
  | d :: ds =>
    if decide (ready D d) then let (f, o) := pure_round ({[name d]} ∪ D) ds in (f, d :: o)
    else let (f, o) := pure_round D ds in (d :: f, o)
  end.
Lemma pure_round_ok D ds f o : pure_round D ds = (f, o) → o ++ f ≡ₚ ds ∧ ordered D o ∧ Forall (λ d, ¬ ready D d) f.
Proof.
  revert D f o. induction ds as [|d ds IH]; intros D f o; simpl; [by intros [= <- <-]|]. case_decide as Hr.
  - destruct (pure_round _ ds) as [f' o'] eqn:He. intros [= <- <-]. destruct (IH _ _ _ He) as (Hp & Ho & Hf). split; [simpl; by rewrite Hp|].
    split; [done|]. eapply Forall_impl; [exact Hf|]. intros x Hx Hx'. apply Hx. eapply ready_mono; [|exact Hx']. set_solver.
  - destruct (pure_round D ds) as [f' o'] eqn:He. intros [= <- <-]. destruct (IH _ _ _ He) as (Hp & Ho & Hf). split; [rewrite <- Hp; symmetry; apply Permutation_middle|].
    split; [done|]. by constructor.
Qed.
(** A round defines something if an order begins with it. *)
Lemma pure_round_progress D ds d l : ordered D (d :: l) → d ∈ ds → (pure_round D ds).2 ≠ [].
Proof.
  intros [Hr _]. revert D Hr. induction ds as [|x ds IH]; intros D Hr Hd; [by apply not_elem_of_nil in Hd|]. simpl. case_decide as Hx.
  - by destruct (pure_round _ ds).
  - apply elem_of_cons in Hd as [->|Hd]; [done|]. specialize (IH D Hr Hd). by destruct (pure_round D ds).
Qed.

Definition entry (d : typedef_src) : typedef := mk_typedef (NamedT (name d)) (fields_map (td_tp d) (ty (td_tp d))).
Definition add_type (s : tscope) (d : typedef_src) : tscope :=
  mk_tscope (<[name d := entry d]> (types s)) (typeDefs s ++ [(name d, ty (td_tp d))]).
Definition fine (d : typedef_src) : Prop := modelled (td_tp d) && makes_new (td_tp d) = true ∧ is_Some (full_name Pkgname (td_id d)).
Lemma defFunc_ok d s : named (types s) → fine d → name d ∉ dom (types s) →
  defFunc d s = if decide (ready (dom (types s)) d) then (Ok (), add_type s d) else (Panic, s).
Proof.
  intros Hn [[Hm Hnew]%andb_true_iff [f Hf]] Hd. unfold TypeDefs.defFunc. assert (name d = f) as Hnm by (unfold name; by rewrite Hf). rewrite Hf, Hnew, Hnm in *.
  apply not_elem_of_dom in Hd. rewrite Hd. rewrite calc_ok; [|intros g td; destruct (decide (g = f)) as [->|Hne]; [rewrite lookup_insert_eq; by intros [= <-]|rewrite lookup_insert_ne by done; apply Hn]|done].
  rewrite dom_insert_L. destruct (decide (ready (dom (types s)) d)) as [Hr|Hr]; unfold ready in Hr; rewrite Hnm in Hr.
  - rewrite decide_True by exact Hr. unfold add_type, entry. by rewrite Hnm, insert_insert_eq.
  - rewrite decide_False by exact Hr. rewrite delete_insert_id by done. by destruct s.
Qed.
Lemma named_add s d : named (types s) → named (types (add_type s d)).
Proof. intros Hn f td. simpl. destruct (decide (f = name d)) as [->|Hne]; [rewrite lookup_insert_eq; by intros [= <-]|rewrite lookup_insert_ne by done; apply Hn]. Qed.
Lemma dom_add s d : dom (types (add_type s d)) = {[name d]} ∪ dom (types s).
Proof. simpl. by rewrite dom_insert_L. Qed.
Lemma round_ok ds s : named (types s) → Forall fine ds → NoDup (name <$> ds) → (∀ d, d ∈ ds → name d ∉ dom (types s)) →
  round ds s = (Ok (pure_round (dom (types s)) ds).1, foldl add_type s (pure_round (dom (types s)) ds).2).
Proof.
  revert s. induction ds as [|d ds IH]; intros s Hn Hf Hnd Hd; simpl; [done|]. apply Forall_cons in Hf as [Hfd Hf].
  csimpl in Hnd. apply NoDup_cons in Hnd as [Hni Hnd]. rewrite defFunc_ok by (done || apply Hd; set_solver). case_decide as Hr.
  - rewrite IH; [|by apply named_add|done|done|].
    + rewrite dom_add. by destruct (pure_round _ ds).
    + intros x Hx. rewrite dom_add. intros [Heq%elem_of_singleton|Hx']%elem_of_union; [|by eapply Hd; [apply elem_of_cons; right|]].
      apply Hni. rewrite <- Heq. by apply list_elem_of_fmap_2.
  - rewrite IH; [by destruct (pure_round _ ds)|done|done|done|]. intros x Hx. apply Hd. by apply elem_of_cons; right.
Qed.

(** ** The loop *)

Lemma dom_foldl l s : dom (types (foldl add_type s l)) = names (dom (types s)) l.
Proof. revert s. induction l as [|d l IH]; intros s; simpl; [unfold names; set_solver|]. by rewrite IH, dom_add, names_cons. Qed.
Lemma named_foldl l s : named (types s) → named (types (foldl add_type s l)).
Proof. revert s. induction l as [|d l IH]; intros s Hs; simpl; [done|]. by apply IH, named_add. Qed.
Lemma typeDefs_foldl l s : typeDefs (foldl add_type s l) = typeDefs s ++ ((λ d, (name d, ty (td_tp d))) <$> l).
Proof. revert s. induction l as [|d l IH]; intros s; csimpl; [by rewrite app_nil_r|]. rewrite IH. simpl. by rewrite <- (assoc_L (++)). Qed.
Lemma types_foldl l s : NoDup (name <$> l) → types (foldl add_type s l) = list_to_map ((λ d, (name d, entry d)) <$> l) ∪ types s.
Proof.
  revert s. induction l as [|d l IH]; intros s Hnd; csimpl; [by rewrite (left_id_L ∅ (∪))|]. csimpl in Hnd. apply NoDup_cons in Hnd as [Hni Hnd].
  rewrite IH by done. simpl. rewrite <- insert_union_r; [by rewrite insert_union_l|]. apply not_elem_of_list_to_map_1.
  by rewrite <- list_fmap_compose.
Qed.
(** The definitions that a round leaves. *)
Record pending (ds : list typedef_src) (s : tscope) : Prop := mk_pending {
  pe_named : named (types s);
  pe_fine : Forall fine ds;
  pe_nodup : NoDup (name <$> ds);
  pe_new d : d ∈ ds → name d ∉ dom (types s);
}.
Lemma pending_round ds s f o : pending ds s → pure_round (dom (types s)) ds = (f, o) →
  pending f (foldl add_type s o) ∧ ∀ l, l ≡ₚ ds → filter (λ d, name d ∉ names (dom (types s)) o) l ≡ₚ f.
Proof.
  intros [Hn Hf Hnd Hd] Hr. destruct (pure_round_ok _ _ _ _ Hr) as (Hp & _ & _). rewrite <- Hp in Hnd. rewrite fmap_app in Hnd.
  apply NoDup_app in Hnd as (_ & Hdis & Hndf).
  assert (∀ d, d ∈ f → name d ∉ names (dom (types s)) o) as Hnew.
  { intros d Hdf Hin. unfold names in Hin. apply elem_of_union in Hin as [Ho|Hs]; [|by eapply Hd; [rewrite <- Hp; apply elem_of_app; right|]].
    apply elem_of_list_to_set in Ho. eapply Hdis; [exact Ho|]. by apply list_elem_of_fmap_2. }
  split; [split; [by apply named_foldl| |done|]|].
  - rewrite <- Hp in Hf. by apply Forall_app in Hf as [_ Hf].
  - intros d Hdf. rewrite dom_foldl. by apply Hnew.
  - intros l ->. rewrite <- Hp, filter_app. rewrite (filter_nothing _ o).
    2: { intros d Hdo Hno. apply Hno. unfold names. apply elem_of_union. left. apply elem_of_list_to_set. by apply list_elem_of_fmap_2. }
    simpl. rewrite (filter_ext_elem _ (λ _, True) f) by (intros x Hx; split; [done|]; intros _; by apply Hnew).
    clear. induction f as [|x f IH]; [done|]. rewrite filter_cons. rewrite decide_True by done. by rewrite IH.
Qed.
Lemma define_sound fuel ds s r : pending ds s → define_types fuel ds s = Some r →
  ∃ l, l ≡ₚ ds ∧ ordered (dom (types s)) l ∧ r = Ok (foldl add_type s l).
Proof.
  revert ds s. induction fuel as [|fuel IH]; intros ds s Hp; simpl; [done|]. destruct (pure_round (dom (types s)) ds) as [f o] eqn:Hr.
  rewrite round_ok, Hr by apply Hp. destruct (pure_round_ok _ _ _ _ Hr) as (Hperm & Ho & _). simpl. destruct f as [|d f].
  - intros [= <-]. exists o. rewrite app_nil_r in Hperm. done.
  - intros Hdef. destruct (pending_round _ _ _ _ Hp Hr) as [Hp' _]. destruct (IH _ _ Hp' Hdef) as (l & Hl & Hol & ->). exists (o ++ l).
    split; [by rewrite Hl|]. split; [|by rewrite foldl_app]. apply ordered_app. split; [done|]. by rewrite dom_foldl in Hol.
Qed.
Lemma define_complete (n : nat) ds s l : (length ds ≤ n)%nat → pending ds s → l ≡ₚ ds → ordered (dom (types s)) l → is_Some (define_types (S n) ds s).
Proof.
  revert ds s l. induction n as [|n IH]; intros ds s l Hlen Hp Hl Ho; cbn [TypeDefs.define_types];
    destruct (pure_round (dom (types s)) ds) as [f o] eqn:Hr; rewrite round_ok, Hr by apply Hp; simpl.
  - destruct ds; [|simpl in Hlen; lia]. injection Hr as <- <-. by eexists.
  - destruct f as [|d f]; [by eexists|]. destruct (pending_round _ _ _ _ Hp Hr) as [Hp' Hfil]. destruct (pure_round_ok _ _ _ _ Hr) as (Hperm & _ & _).
    assert (o ≠ []) as Hne.
    { destruct l as [|x l]; [apply Permutation_nil_l in Hl; subst ds; done|]. pose proof (pure_round_progress _ ds x l Ho) as H. rewrite Hr in H. apply H. rewrite <- Hl. set_solver. }
    apply (IH (d :: f) _ (filter (λ d, name d ∉ names (dom (types s)) o) l)).
    + rewrite <- Hperm, length_app in Hlen. destruct o; [done|]. simpl in *. lia.
    + done.
    + by apply Hfil.
    + rewrite dom_foldl. apply (ordered_filter (dom (types s))); [done|unfold names; set_solver|]. rewrite Hl. apply Hp.
Qed.
Lemma start_pending ds : Forall fine ds → NoDup (name <$> ds) → pending ds no_types.
Proof. intros Hf Hnd. split; [by intros f td|done|done|]. intros d _. simpl. set_solver. Qed.

(** C14. Definitions with different names that can be put into an order in which
    each uses only itself and earlier ones are all resolved, in at most as
    many rounds as there are definitions and one more, to types that do not
    depend on the order they are written in (the files of a module come in any
    order); LLVM gets them in such an order.  Definitions without an order make
    the compiler run for ever. *)
Theorem typedefs_resolved ds : Forall fine ds → NoDup (name <$> ds) →
  (∀ l, l ≡ₚ ds → ordered ∅ l → ∃ s l', define_types (S (length ds)) ds no_types = Some (Ok s) ∧
    types s = list_to_map ((λ d, (name d, entry d)) <$> l) ∧
    l' ≡ₚ ds ∧ ordered ∅ l' ∧ typeDefs s = (λ d, (name d, ty (td_tp d))) <$> l') ∧
  ((∀ l, l ≡ₚ ds → ¬ ordered ∅ l) → ∀ fuel, define_types fuel ds no_types = None).
Proof.
  intros Hf Hnd. pose proof (start_pending ds Hf Hnd) as Hp. split.
  - intros l Hl Ho. destruct (define_complete (length ds) ds no_types l) as [r Hr]; [done..|].
    destruct (define_sound _ _ _ _ Hp Hr) as (l' & Hl' & Ho' & ->). exists (foldl add_type no_types l'), l'. split; [done|].
    split; [|split; [done|split; [done|by rewrite typeDefs_foldl]]]. rewrite types_foldl by by rewrite Hl'. simpl. rewrite (right_id_L ∅ (∪)).
    apply list_to_map_proper; [rewrite <- list_fmap_compose; by rewrite Hl'|]. by rewrite Hl', Hl.
  - intros Hno fuel. destruct (define_types fuel ds no_types) as [r|] eqn:Hr; [|done].
    destruct (define_sound _ _ _ _ Hp Hr) as (l & Hl & Ho & _). by destruct (Hno l Hl).
Qed.
Lemma NoDup_fmap_inj_on {A B} (f : A → B) l x y : NoDup (f <$> l) → x ∈ l → y ∈ l → f x = f y → x = y.
Proof.
  intros Hnd [i Hi]%list_elem_of_lookup [j Hj]%list_elem_of_lookup Heq.
  assert (i = j) as ->; [|congruence]. eapply NoDup_lookup; [exact Hnd|..]; rewrite list_lookup_fmap; [by rewrite Hi|by rewrite Hj, Heq].
Qed.
(** The first definition of an order with a property uses nothing of those
    with the property but itself. *)
Lemma ordered_first (P : typedef_src → Prop) `{∀ d, Decision (P d)} D l : ordered D l → Exists P l →
  ∃ d, d ∈ l ∧ P d ∧ ∀ f, f ∈ uses (td_tp d) → f = name d ∨ f ∈ D ∨ ∃ d', d' ∈ l ∧ ¬ P d' ∧ f = name d'.
Proof.
  revert D. induction l as [|x l IH]; intros D Ho He; [by inversion He|]. destruct Ho as [[_ Hu] Ho].
  destruct (decide (P x)) as [Hx|Hx].
  - exists x. split; [by left|]. split; [done|]. intros f Hf. rewrite Forall_forall in Hu. specialize (Hu f Hf). set_solver.
  - apply Exists_cons in He as [?|He]; [done|]. destruct (IH _ Ho He) as (d & Hd & HP & Hf). exists d. split; [by right|]. split; [done|].
    intros f [?|[[->%elem_of_singleton|?]%elem_of_union|(d' & ? & ? & ->)]]%Hf; [by left|right; right; exists x; split; [by left|done]|by right; left|right; right; exists d'; split; [by right|done]].
Qed.
End types.

(** ** Instances *)

Definition demo_def (src : string) : typedef_src :=
  match typeDef (mk_parser [] (runes_of "main")) (SetInput (runes_of src)) with Lexer.Ret (inl (d, [])) _ => d | _ => mk_typedef_src [] (InterfaceDefNode 0 [] []) end.
Definition main_types := define_types (runes_of "main") ∅.
Definition main_name (x : string) : text := runes_of "main." ++ runes_of x.
Definition demo_a := demo_def "type A struct {
    b *B
    n int
}".
Definition demo_b := demo_def "type B func (c C) *B".
Definition demo_c := demo_def "type C [4]*byte".
Lemma typedefs_resolved_witness : ∃ s, main_types 4 [demo_a; demo_b; demo_c] no_types = Some (Ok s) ∧
  types s = list_to_map ((λ d, (name (runes_of "main") d, entry (runes_of "main") ∅ d)) <$> [demo_c; demo_b; demo_a]).
Proof.
  destruct (typedefs_resolved (runes_of "main") ∅ [demo_a; demo_b; demo_c]) as [H _].
  - repeat (constructor; [split; [vm_compute; reflexivity|eexists; vm_compute; reflexivity]|]). constructor.
  - apply (bool_decide_eq_true_1 _). vm_compute. reflexivity.
  - destruct (H [demo_c; demo_b; demo_a]) as (s & l & Hs & Ht & _); [apply (symmetry (Permutation_rev [demo_a; demo_b; demo_c]))| |exists s; split; [exact Hs|exact Ht]].
    apply (@bool_decide_eq_true_1 _ (ordered_dec (runes_of "main") ∅ ∅ [demo_c; demo_b; demo_a])). vm_compute. reflexivity.
Defined.

(** C40. Definitions that wait for each other, or for a name that nothing
    defines, make the compiler run for ever: if each definition of a part of
    the definitions uses, besides itself, a name of that part or a name that no
    definition has, then no number of rounds is enough.  So two structures that
    point to each other are never resolved, although a structure may point to
    itself, and a name that is not defined is not reported.  On the other hand
    a structure with a field of its own type, not behind a pointer, is
    accepted. *)
Theorem typedefs_hang Pkgname ScopeMap :
  let uses := uses Pkgname ScopeMap in let name := name Pkgname in
  (∀ ds (stuck : list typedef_src), Forall (fine Pkgname ScopeMap) ds → NoDup (name <$> ds) → stuck ≠ [] → stuck ⊆ ds →
    (∀ d, d ∈ stuck → ∃ f, f ∈ uses (td_tp d) ∧ f ≠ name d ∧ (f ∉ name <$> ds ∨ f ∈ name <$> stuck)) →
    ∀ fuel, define_types Pkgname ScopeMap fuel ds no_types = None) ∧
  (∀ d fs x r c g pkg, fine Pkgname ScopeMap d → td_tp d = StructDefNode 0 fs → (x, BasicTypeNode r c 0 g pkg) ∈ fs →
    basic_ref Pkgname ScopeMap r c g pkg = RName (name d) false →
    valid Pkgname ScopeMap (td_tp d) = true → Forall (λ f, f = name d) (uses (td_tp d)) →
    ∃ s ts, define_types Pkgname ScopeMap 2 [d] no_types = Some (Ok s) ∧ typeDefs s = [(name d, StructT ts)] ∧ NamedT (name d) ∈ ts).
Proof.
  intros uses name. split.
  - intros ds stuck Hf Hnd Hne Hsub Hstuck fuel. destruct (define_types Pkgname ScopeMap fuel ds no_types) as [r|] eqn:Hr; [|done]. exfalso.
    destruct (define_sound _ _ _ _ _ _ (start_pending _ _ ds Hf Hnd) Hr) as (l & Hl & Ho & _).
    destruct (ordered_first Pkgname ScopeMap (λ d, name d ∈ name <$> stuck) _ l Ho) as (d & Hd & (d1 & Heq & Hd1)%list_elem_of_fmap & Huse).
    { destruct stuck as [|d stuck]; [done|]. apply Exists_exists. exists d. rewrite Hl. split; [apply Hsub|]; by left. }
    assert (d1 = d) as -> by (eapply (NoDup_fmap_inj_on name ds); [exact Hnd|by apply Hsub|by rewrite <- Hl|done]).
    destruct (Hstuck d Hd1) as (f & Hfu & Hfd & Hfs). destruct (Huse f Hfu) as [?|[?|(d' & Hd' & Hns & ->)]]; [done|set_solver|].
    rewrite Hl in Hd'. destruct Hfs as [Hno|]; [|done]. apply Hno. by apply list_elem_of_fmap_2.
  - intros d fs x r c g pkg Hf Htp Hx Hr Hv Hu. assert (ordered Pkgname ScopeMap ∅ [d]) as Ho.
    { split; [|done]. split; [done|]. eapply Forall_impl; [exact Hu|]. intros f ->. set_solver. }
    pose proof (start_pending Pkgname ScopeMap [d] ltac:(by constructor) ltac:(apply NoDup_singleton)) as Hp.
    destruct (define_complete Pkgname ScopeMap 1 [d] no_types [d]) as [res Hres]; [done..|]. rewrite Hres.
    destruct (define_sound _ _ _ _ _ _ Hp Hres) as (l & Hl & _ & ->). apply Permutation_singleton_r in Hl as ->. eexists _, _. split; [done|].
    rewrite typeDefs_foldl. csimpl. rewrite Htp. simpl. split; [done|]. apply list_elem_of_fmap. eexists. split; [|exact Hx]. simpl. by rewrite Hr.
Qed.
Definition demo_mutual : list typedef_src := [demo_def "type A struct {
    b *B
}"; demo_def "type B struct {
    a *A
}"].
Definition demo_missing : typedef_src := demo_def "type C struct {
    b *Missing
}".
Definition demo_self : typedef_src := demo_def "type A struct {
    a A
    n int
}".
Lemma typedefs_hang_witness : (∀ fuel, main_types fuel (demo_missing :: demo_mutual) no_types = None) ∧
  (∀ fuel, main_types fuel [demo_missing] no_types = None) ∧
  ∃ s ts, main_types 2 [demo_self] no_types = Some (Ok s) ∧ typeDefs s = [(main_name "A", StructT ts)] ∧ NamedT (main_name "A") ∈ ts.
Proof.
  destruct (typedefs_hang (runes_of "main") ∅) as [H1 H2]. split; [|split].
  - apply (H1 (demo_missing :: demo_mutual) demo_mutual).
    + repeat (constructor; [split; [vm_compute; reflexivity|eexists; vm_compute; reflexivity]|]). constructor.
    + apply (bool_decide_eq_true_1 _). vm_compute. reflexivity.
    + done.
    + intros d Hd. by right.
    + intros d Hd. unfold demo_mutual in Hd. rewrite !elem_of_cons in Hd. destruct Hd as [->|[->|[]%not_elem_of_nil]].
      * exists (main_name "B"). split; [|split; [|right]]; apply (bool_decide_eq_true_1 _); vm_compute; reflexivity.
      * exists (main_name "A"). split; [|split; [|right]]; apply (bool_decide_eq_true_1 _); vm_compute; reflexivity.
  - apply (H1 [demo_missing] [demo_missing]).
    + repeat (constructor; [split; [vm_compute; reflexivity|eexists; vm_compute; reflexivity]|]). constructor.
    + apply NoDup_singleton.
    + done.
    + done.
    + intros d ->%list_elem_of_singleton. exists (main_name "Missing"). split; [|split; [|left]]; apply (bool_decide_eq_true_1 _); vm_compute; reflexivity.
  - apply (H2 demo_self [(runes_of "a", BasicTypeNode 0 [runes_of "A"] 0 [] (runes_of "main")); (runes_of "n", BasicTypeNode TYPE_RES_INT [] 0 [] [])] (runes_of "a") 0 [runes_of "A"] [] (runes_of "main")).
    + split; [vm_compute; reflexivity|eexists; vm_compute; reflexivity].
    + vm_compute. reflexivity.
    + by left.
    + vm_compute. reflexivity.
    + vm_compute. reflexivity.
    + apply (bool_decide_eq_true_1 _). vm_compute. reflexivity.
Defined.
